(* ===== verification/_CoqProject ===== *)
-Q . S2P
Prelude.v
QVariant.v
Utils.v
Framing.v
Slip.v
BinaryWorker.v
Json.v
Wire.v
Worker.v
Sockets.v
ModbusUnits.v
ModbusMaster.v
ModbusSlave.v
Tags.v
TagsLua.v
LuaValues.v
Lazy.v
LazyMemory.v
Config.v
Redis.v
Fibers.v
Functions.v
Http.v
Process.v
Sql.v
Pretty.v
Instance.v
App.v
CyphalMsgs.v
CyphalTypes.v
Can.v
Cyphal.v
CyphalSetup.v
Msg2Struct.v
Firmware.v
GuiTester.v
GuiModel.v
Startup.v
Timers.v
Scripts.v
Objects.v
Ros.v
Configs.v
Devices.v
Signals.v
Connections.v
UserData.v
Compat.v
Plugins.v
FiberContext.v
