(* ===== verification/Prelude.v ===== *)
(** * Radapter: a verification development

    Radapter is a daemon that moves messages between devices and services.  A
    configuration script in Lua creates _workers_ - Modbus masters and slaves,
    Redis clients, sockets, serial ports, CAN and Cyphal nodes, HTTP clients, child
    processes, databases - and connects them with listeners.  All components
    exchange one kind of value, the variant of Qt ([QVariant]); a worker turns
    messages into the bytes of its protocol and bytes into messages.  This library
    models the part of the program that is its own logic: the data it exchanges,
    the protocols, the queues and state machines of the workers, the fibers and
    views behind the Lua API, the life of the instance and of the application, and
    the reading of configurations.  It is a shallow embedding: pure functions of
    the source are functions here, methods take and return the state they touch,
    and the effects on the outside (sending, logging, emitting) are returned as a
    list of actions in the order in which the code performs them.

    ** The program and the files

    The data and its conversions:
    - [Prelude] (this file): the results of throwing operations ([res]), integers
      at machine width ([wrapu], [wraps]), byte lists and Latin-1 strings, the
      string operations of Qt the code uses, decimal printing and reading, and
      ordered string maps ([qm_find], [qm_insert], [qm_erase]: a [QMap] or
      [QVariantMap] is the list of its entries in key order).
    - [QVariant]: the variant, with one constructor per type tag the sources
      switch on, and its conversions as the interface [QVariantOps]/[QVariantLaws].
    - [Utils] - [src/utils.cpp]: [Flatten], [Unflatten] and [MergePatch], by which
      register-, field- and key-addressed workers turn a tree into ["a:b:[0]"]
      paths and back.
    - [Json] - the conversion of [builtin.hpp] between variants and the JSON tree.
    - [Config] - [config.hpp], [config.cpp], [trace_frame.hpp] and the argument
      reading of [radapter.hpp]: [Parse], [Dump] and [PopulateSchema] on every
      type a worker can describe, and the location of errors.

    The workers:
    - [Worker] - [worker.cpp]: names, notification of listeners, calls from Lua,
      destruction and [shutdown].
    - [Framing] (no source of its own): the interface between stream workers and
      their frame cutters; [Slip] - [workers/slipa.hpp] and the firmware's copy; [BinaryWorker] -
      [workers/binary_worker.cpp], [serial.cpp], [stdio.cpp]: frames, protocols
      and the checksum of byte-stream workers.
    - [Wire] - [workers/wire.hpp]: the length-prefixed frames of local sockets and
      the payload codec they share with WebSockets; [Sockets] -
      [workers/local/local.cpp] (Module [Local]) and
      [workers/websocket/websocket.cpp] (Module [Ws]): connection tables, routing,
      buffers, reconnection.
    - [ModbusUnits] - [modbus_settings.hpp], [modbus_units.hpp]: register maps,
      their validation, merging into requests, and the word codec; [ModbusMaster] -
      [modbus_device.cpp] ([MasterDevice]) and [modbus.cpp]: the request queues
      of a device shared by several masters, polling and retried writes;
      [ModbusSlave] - [SlaveDevice] and [modbus_slave.cpp].
    - [Redis] - [redis_client.cpp], [redis.cpp]: command and reply formats, the
      reconnecting client, the [Cache] and [Stream] workers.
    - [Can] - [canframe.hpp], [canworker.cpp]: frames as messages in both
      directions and the device's write queue.  [CyphalMsgs] - [cyphal_msgs.cpp]:
      the conversion between C structures and variants, one branch per kind of
      member; [CyphalTypes] - the described structures of the same file and the
      registry built from them; [Cyphal] - [cyphalworker.cpp]: publishing,
      requests and their time-outs, received transfers, the transmit queue and
      the heartbeat; [CyphalSetup] - its constructor and the subscriptions it makes.
    - [Http] - [http.cpp]; [Process] - [process.cpp]; [Sql] - [sql.cpp], with its
      two threads and the queues between them.
    - [Ros] - the ROS 2 plugin: [ros_conversions.hpp], the conversion of messages
      over introspection data, and [ros_plugin.cpp], its node.
    - [Configs] - the described configuration of every worker and the tables by which
      they are registered; [Connections] - the constructors of the network workers:
      default names, certificates, devices, clients, and a client over several
      connections; [Devices] - [qtadapter.cpp] ([RedisAdapter]: hiredis in the event loop),
      [stdio.cpp] and [serial.cpp] ([Stdio], [Serial]: opening, short and failed writes),
      the constructors of Modbus devices ([ModbusSetup]).
    - [Plugins] - the worker of the benchmarks and the example plugin.
    - [GuiModel] - [gui.cpp]: the tree behind a QML view, kept in step with the
      messages of its worker; [GuiTester] - [gui_tester.cpp]: recording and replay
      of what a user does and the methods of the tester.

    The demo device ([examples/demo/firmware]), which speaks to the program:
    - [Msg2Struct] - [msg2struct.hpp]: MessagePack read and written in place;
      [Firmware] - [firmware.ino], [rad_topics.hpp]: frames, topics and answers.

    Lua and the instance:
    - [LuaValues] - the part of [builtin.cpp] that converts between variants and
      Lua values, the [bytes] API, [get] and [set].
    - [Lazy] - [lazy.cpp]: views of a message that are read in place and become
      tables at the first write; [LazyMemory] - the references between them, which
      keep a message as long as a view of it is in use.
    - [Fibers] - [fibers.cpp]: the pool of coroutines behind [async] and [await];
      [FiberContext] - which fiber is current, and its Lua thread.
    - [Functions] - [value.cpp], [function.cpp], [async_helpers.hpp]: handles into
      Lua's registry (Module [Values]), how a call into Lua ends and whom its end
      reaches (Module [Calls]); [UserData] - objects of C++ types in Lua; [Compat] -
      [compat.cpp]: functions of newer Lua versions on LuaJIT.
    - [Objects] - [worker.cpp], [worker_impl.hpp], [test_worker.cpp]: the userdata of
      a worker, who keeps which alive, and the methods of worker classes.
    - [Timers] - the [each] and [after] of [builtin.cpp], with Lua's registry and
      collector; [Scripts] - the rest of [builtin.cpp] ([load_plugin], [fmt], JSON)
      and of [instance.cpp]: the constructor and its globals, embedded modules,
      scripts from files and over HTTP, the debugger, the order of the destructor.
    - [Tags] - [tags.cpp]: last value, time and quality of every field; [TagsLua] -
      notifications whose callbacks change the registry, the [tags] table of scripts.
    - [Pretty] - [pretty.cpp]: the layout of Lua tracebacks in the log.
    - [Instance] - [instance.cpp], [log.cpp]: shutdown (Module [Lifecycle]), log
      levels and handlers ([Logging]), schemas and module lookup ([Modules]).
    - [App] - [app/main.cpp]: signals, reloads and the end of the process;
      [Startup] - what its [main] decides from the command line, the order in which
      an instance is started, recordings over several instances, the file watcher;
      [Signals] - [deps/qctrlsignals]: signals of the system on Unix and on Windows.

    Messages flow from a worker's events ([Worker.worker_notify]) to the tag
    registry ([Tags]) and to Lua ([LuaValues], as views of [Lazy]), and from Lua to
    a worker's [OnMsg]; Modbus, Redis and the tag registry address leaves by the
    paths of [Utils]; sockets use [Wire] over [Json]; HTTP, SQL, Redis and Cyphal
    answer through [Functions.Calls]; every configuration goes through [Config].
    [Signals] queues what [App] reacts to; [App] drives [Instance.Lifecycle], which drives
    the destruction of [Worker].

    ** How the code is represented

    A C++ exception is [Raise] with the text of the source where a theorem is
    about it.  Sized integers are [Z] with the wrap-around written out where the
    code can overflow ([quint32] lengths, request counters, indices, transfer
    ids); bytes are [Z] in [0, 256).  A class is a [Record] of the members its
    methods use, a method one definition; a handler connected to a Qt signal is a
    definition that takes what the signal carries.  Reachable states are given by
    step relations whose steps are those handlers in any order the library allows
    ([Local.reachable], [Redis.client_reachable], [Worker.life_reachable]), or by
    running a list of events ([Fibers], [Can], [Cyphal], [Http], [Process], [Sql],
    [Instance], [App], [Firmware], [GuiTester], [Startup], [Timers], [Objects],
    [Ros]), over which the theorems quantify.  Where the code could read memory that
    is gone or write past an array, the definition gives [None] there and the
    theorems say when it does not.  Functions passed to
    other functions (callbacks stored in a queue) are data, run by the component
    that owns them; where a callback may call back into that component what it does
    is part of the event ([Cyphal.Nested], the scripts of [TagsLua]).

    Code that is not part of the repository is a parameter: Qt's variant
    conversions ([QVariantOps], [ConfigOps]), the codecs and zlib ([WireOps]), the
    register image of Qt's Modbus server ([ServerStore]), the interpreter's number
    and string conversions with its registry and the objects alive ([LuaOps]) and its
    behaviour on values that are not views ([LuaInterp]), hiredis (the events and replies
    of [Redis]; a server whose streams grow answers the commands it is sent in
    [Redis.session]), [QCanBusFrame]
    ([CanOps]), Nunavut and the reflection library ([MsgOps], [EnumLaws],
    [RegistryOps]), libcanard and the clock ([CyphalOps], [TransportOps]), [QProcess] ([ProcOps]),
    URLs and network replies ([HttpOps]), the database (the [query] of [Sql]), fmt's
    escape codes ([styled] of [Pretty]), the Lua code a closure runs (the [run] of
    [Fibers]), the compiler, paths and resources a script needs ([ScriptOps]), the
    slots [luaL_ref] hands out ([LuaRefs]), Qt's plugin loader (arguments of
    [LoadPlugin]), ROS (arguments of [Ros] and [RosConv]), windows and items ([GuiOps]),
    QML ([QmlOps]), certificates, socket paths and the kernel's signals (arguments of
    [Connections] and [Signals]), the floating-point formats of the firmware's compiler ([CppFloat]).  What the code relies on of each is a class of laws; every theorem
    that uses one has a witness at a concrete instance.

    ** The theorems

    - Messages survive: [frames_survive_splitting], [slip_stream_roundtrip],
      [Slip_roundtrip], [line_text_roundtrip], [websocket_roundtrip],
      [JsonView_roundtrip], [lua_roundtrip], [Unflatten_Flatten],
      [register_roundtrip], [redisFormat_roundtrip], [Parse_Dump],
      [cache_mirrors_writes], [message_roundtrip], [can_frame_roundtrip],
      [http_echo], [dump_parse_roundtrip], [integers_exact], [recording_replays],
      [ros_roundtrip]: what one side writes the other reads, with the exact normal form
      where a format cannot keep every distinction.
    - Refinements and equivalences: a view reads like the table it stands for
      ([view_reads_like_table]), a write through one lands in the message
      ([write_lands_in_message]), every closure runs as if it were alone
      ([closures_run_alone]), the statements of two threads run in the order they
      were given ([exec_in_order]), handles into the registry are values
      ([values_refine]), a write of a message is the queue of its frames
      ([flushed_refines]), the shutdown is the wait for a set of workers
      ([shutdown_refines]), two views given each other's messages show the same
      ([views_stay_in_step], [incoming_merges], [proxy_mirrors]).
    - State machines: [master_device_safe], [redis_client_invariant],
      [local_server_invariant], [local_reads_isolated], [fiber_pool_invariant],
      [requests_settled_once], [queued_frames_accounted], [http_requests_settled],
      [process_safe], [app_lifecycle], [Worker_name_unique], [requests_answered],
      [plugins_distinct], [next_id_unique],
      [signals_show_registry], [changed_pipes].
    - Memory: [reader_stays_in_frame], [firmware_safe], [frame_bound], [calls_defined],
      [objects_safe], [timers_run_safely], [views_keep_message], [adapter_safe],
      [userdata_typed], [teardown_order]: what is read exists, what is written has room.
    - What is waited for arrives: [shutdown_resolves_after_deletion],
      [shutdown_completes], [Stop_ends_closures], [closure_errors],
      [requests_time_out], [response_settles], [callOn_spec], [call_ends],
      [gamble_answered], [waits_end], [recordings_saved], [httpGet_answers_once].
    - What operations do on every branch: [MergePatch_slots],
      [prepareReads_covers], [parsePoll_reports_changes], [write_retries_exact],
      the slave's [slave_publishes], [slave_reports_written] and
      [slave_ranges_cover], [stream_exactly_once], [worker_notify_spec],
      [tags_follow_messages], [tags_follow_connection], [Get_Set], [get_view_agrees],
      [pairs_visit_all], [SchemaFor_describes], [Parse_typed],
      [Parse_error_located], [PrintTrace_path], [from_variant_safe],
      [lookups_complete], [config_accepted], [setup_routes], [received_defined],
      [can_message_checked], [log_levels_filter],
      [log_handler_exclusive], [installHttpSearcher_order], [traceback_keeps_text],
      [appendShortened_spec], [startup_order], [watch_spaced], [find_is_first],
      [engines_shared], [file_runs_prepared], [features_report_their_cause],
      [test_worker_counts], [registry_consistent], [configs_typed], [devices_built],
      [same_line], [settings_known], [names_show], [secure_or_nothing], [server_starts],
      [connected_last], [readers_have_two_clients], [places_distinct],
      [dispositions_agree], [signals_in_order], [await_is_lexical], [threads_told_once],
      [getsubtable_spec], [requiref_spec], [tolstring_spec], [deep_holds].
    - Where the code departs from what it means to do, the departure is a theorem
      too: [crc_table_overrun], [DrainFrames_terminates_or_wraps],
      [Flatten_sibling_after_container], [schema_default_drifts],
      [websocket_stale_erase], [register_packing_mismatch],
      [second_write_loses_record], [self_assignment_overflows],
      [mask_index_past_end], [unique_id_ambiguous], [bit_array_limit],
      [get_info_response_undefined], [uptime_wraps_at_midnight],
      [handler_registration_undefined], [long_limit_never_fires],
      [reload_swallows_signal], [signal_swallowed_by_reload], [split_frame_lost],
      [process_name_dropped], [second_worker_takes_connection],
      [failed_start_leaves_thread], [array16_misread], [long_binary_wraps],
      [fixstr_one_past], [next_skips_wrong], [error_glues_frames],
      [jackpot_unreachable], [replay_of_closed_window], [recording_lost],
      [map_write_diverges], [advertised_unseen], [failed_start_dangles],
      [watch_drops], [callback_frees_timer], [http_exit_is_reported],
      [embed_flags_alias], [ros_undefined], [subscribe_in_callback],
      [stale_value_last], [pending_commands_lost], [failed_write_silent],
      [failed_read_is_final], [byte_order_ignored], [stale_frame_swallows],
      [second_server_takes_path], [certificate_disables_verification],
      [zone_swallows_port], [errors_logged_twice], [unpaired_deaf], [hangup_kills],
      [closed_in_order], [shared_name_confused], [top_skips] and others next to the component they concern.

    ** Fuel

    [Slip.Read], the frame parsers and [Wire.DrainFrames] loop while bytes remain;
    their fuel is one more than the buffer's length and every turn that continues
    removes at least a byte, which [Slip.Read_reads], [Framing.drain_all_total] and
    [DrainFrames_terminates_or_wraps] prove enough (the last one with the one
    header for which the source itself never returns).  A Modbus callback may
    enqueue again from within [Execute]; [master_device_safe] shows that one more
    than the queue's bound suffices.  A worker's name is searched among numbered
    candidates with as many turns as there are workers ([Worker_name_unique]).
    The fuel of [Lazy] is the depth of the C stack: a C function that calls back
    into the interpreter nests there, and running out is Lua's own error; the
    theorems give the depth that suffices.  [Pretty.shorten_loop] consumes the
    working directory at every turn, so the length of the text suffices.  A run of
    [Fibers] that switches without end does so in the source too; its totality
    lemmas ([pool_event_total], [pool_events_total]) give the fuel of closures that
    start no others.  Hexadecimal printing divides by 16: 64 bits take 16 turns.
    An error of the firmware that cannot be reported is reported in turn:
    [Firmware.log_fuel] allows two levels, and [firmware_safe] shows that there is no
    third.  [GuiTester.busyWaitMs] turns once per millisecond waited and once more
    ([waits_end]); [GuiModel.wrapPath] climbs to parents made before their children,
    as many turns as the node's number.

    ** What is not modelled

    The libraries named above; what the callbacks of ROS requests do when
    [Ros] calls them; sockets, threads and files beyond the events and
    actions they exchange with the modelled code; the interpreter itself and the stack
    discipline of the C functions that only move arguments between it and an operation
    modelled here (reading an index, setting a metatable), the metatable of promises,
    which a Lua script makes, and [MultiFuture], which settles them; how argparse reads
    the command line and what the help texts say; the widgets and QML documents a view
    shows; the initialisation of ROS and of the firmware's hardware; the macros by which
    descriptions and plugins are declared and the declarations of classes; the Lua
    scripts, which are not C++.  What remains unmodelled of the C++ files is of these
    kinds: includes, declarations, logging, registration of types and calls that hand an
    argument to Qt. *)
From Stdlib Require Export ZArith Lia String Ascii.
From stdpp Require Export base tactics list strings numbers option gmap.

#[global] Open Scope Z_scope.

(** ** Results of fallible operations

    The C++ code reports errors by throwing ([Raise]); a throwing operation is a
    function into [res].  The payload names the [Raise] site. *)
Inductive res (A : Type) : Type :=
| Ok (a : A)
| Raise (msg : string).
Arguments Ok {A} _.
Arguments Raise {A} _.

Definition res_bind {A B} (r : res A) (f : A -> res B) : res B :=
  match r with
  | Ok a => f a
  | Raise m => Raise m
  end.

Declare Scope rad_scope.
Delimit Scope rad_scope with rad.
Notation "'let*' x ':=' c 'in' k" := (res_bind c (fun x => k))
  (at level 10, x pattern, c at level 100, k at level 200) : rad_scope.
#[global] Open Scope rad_scope.

Definition is_ok {A} (r : res A) : bool :=
  match r with Ok _ => true | Raise _ => false end.

Fixpoint res_map {A B} (f : A -> res B) (l : list A) : res (list B) :=
  match l with
  | [] => Ok []
  | x :: l' => let* y := f x in let* ys := res_map f l' in Ok (y :: ys)
  end.

(** ** Machine integers: an integer of [w] bits is a [Z] with its wrap-around *)
Definition wrapu (w z : Z) : Z := z mod 2 ^ w.
Definition wraps (w z : Z) : Z := (z + 2 ^ (w - 1)) mod 2 ^ w - 2 ^ (w - 1).
Definition INT_MAX : Z := 2 ^ 31 - 1.

Lemma wrapu_range w z : 0 <= w -> 0 <= wrapu w z < 2 ^ w.
Proof. intros Hw. apply Z.mod_pos_bound, Z.pow_pos_nonneg; lia. Qed.

Lemma wrapu_small w z : 0 <= z < 2 ^ w -> wrapu w z = z.
Proof. apply Z.mod_small. Qed.

Lemma wraps_small w z :
  0 < w -> - 2 ^ (w - 1) <= z < 2 ^ (w - 1) -> wraps w z = z.
Proof.
  intros Hw Hz. unfold wraps.
  assert (2 ^ w = 2 * 2 ^ (w - 1)) as E.
  { rewrite <- Z.pow_succ_r by lia. f_equal. lia. }
  rewrite Z.mod_small; lia.
Qed.

Lemma wraps64_small z : - 2 ^ 63 <= z < 2 ^ 63 -> wraps 64 z = z.
Proof. intros. apply wraps_small; [lia|]. change (64 - 1) with 63. lia. Qed.
Lemma wraps32_small z : - 2 ^ 31 <= z < 2 ^ 31 -> wraps 32 z = z.
Proof. intros. apply wraps_small; [lia|]. change (32 - 1) with 31. lia. Qed.

(** Putting a low part next to a shifted high part. *)
Lemma lor_shiftl_add hi lo k : 0 <= lo < 2 ^ k -> 0 <= k -> Z.lor (Z.shiftl hi k) lo = hi * 2 ^ k + lo.
Proof.
  intros Hlo Hk.
  assert (Z.land (Z.shiftl hi k) lo = 0) as Hland.
  { apply Z.bits_inj'. intros n Hn. rewrite Z.land_spec, Z.bits_0. destruct (Z.ltb_spec n k).
    - by rewrite Z.shiftl_spec_low by lia.
    - rewrite andb_comm. replace lo with (lo mod 2 ^ k) by (apply Z.mod_small; lia).
      by rewrite Z.mod_pow2_bits_high by lia. }
  rewrite <- Z.lxor_lor by done. rewrite <- Z.add_nocarry_lxor by done. by rewrite Z.shiftl_mul_pow2.
Qed.
Lemma land_mod z k : 0 <= k -> Z.land z (Z.ones k) = z mod 2 ^ k.
Proof. apply Z.land_ones. Qed.

(** ** Tactics shared by the components *)
Ltac inverts H := inversion H; subst; clear H.
Ltac bool_to_prop :=
  repeat match goal with
  | H : (_ && _)%bool = true |- _ => apply andb_true_iff in H; destruct H
  | H : (_ && _)%bool = false |- _ => apply andb_false_iff in H
  | H : (_ || _)%bool = false |- _ => apply orb_false_iff in H; destruct H
  | H : (_ || _)%bool = true |- _ => apply orb_true_iff in H
  | H : negb _ = true |- _ => apply negb_true_iff in H
  | H : negb _ = false |- _ => apply negb_false_iff in H
  | H : (_ =? _) = true |- _ => apply Z.eqb_eq in H
  | H : (_ =? _) = false |- _ => apply Z.eqb_neq in H
  | H : (_ <? _) = true |- _ => apply Z.ltb_lt in H
  | H : (_ <? _) = false |- _ => apply Z.ltb_ge in H
  | H : (_ <=? _) = true |- _ => apply Z.leb_le in H
  | H : (_ <=? _) = false |- _ => apply Z.leb_gt in H
  | H : bool_decide _ = true |- _ => apply bool_decide_eq_true in H
  | H : bool_decide _ = false |- _ => apply bool_decide_eq_false in H
  end.
(** Case split on the scrutinee of the first [match] or [if] of the goal. *)
Ltac break_goal :=
  match goal with
  | |- context [match ?x with _ => _ end] =>
      lazymatch x with context [match _ with _ => _ end] => fail | _ => destruct x eqn:? end
  end.

Create HintDb rad discriminated.

(** ** Strings: [std::string] and [QString] are byte strings *)
Definition str_take (n : nat) (s : string) : string := substring 0 n s.
Definition pop_back (s : string) : string := str_take (String.length s - 1) s.

(** [std::string::resize]: shrinks, or pads with NUL bytes. *)
Fixpoint nuls (n : nat) : string :=
  match n with O => EmptyString | S n => String Ascii.zero (nuls n) end.
Definition str_resize (s : string) (n : nat) : string :=
  if bool_decide (n <= String.length s)%nat then str_take n s
  else (s +:+ nuls (n - String.length s)).

Lemma str_app_cons c a b : String c a +:+ b = String c (a +:+ b).
Proof. done. Qed.
Lemma str_app_nil_l a : "" +:+ a = a.
Proof. done. Qed.
Lemma str_app_nil_r s : s +:+ "" = s.
Proof. induction s as [|c s IH]; [done|]. by rewrite str_app_cons, IH. Qed.
Lemma str_app_assoc (a b c : string) : a +:+ (b +:+ c) = (a +:+ b) +:+ c.
Proof. induction a as [|x a IH]; [done|]. by rewrite !str_app_cons, IH. Qed.
Lemma str_length_app a b : String.length (a +:+ b) = (String.length a + String.length b)%nat.
Proof. induction a as [|x a IH]; [done|]. rewrite str_app_cons; simpl. by rewrite IH. Qed.
Lemma str_take_app n a b : str_take (String.length a + n) (a +:+ b) = a +:+ str_take n b.
Proof.
  unfold str_take. induction a as [|x a IH]; [done|].
  rewrite !str_app_cons; simpl. by rewrite IH.
Qed.
Lemma str_take_0 s : str_take 0 s = "".
Proof. by destruct s. Qed.
Lemma str_take_exact a b : str_take (String.length a) (a +:+ b) = a.
Proof.
  rewrite <- (Nat.add_0_r (String.length a)), str_take_app, str_take_0.
  apply str_app_nil_r.
Qed.
Lemma str_take_all s : str_take (String.length s) s = s.
Proof. rewrite <- (str_app_nil_r s) at 2. apply str_take_exact. Qed.
Lemma str_take_length n s : (n <= String.length s)%nat -> String.length (str_take n s) = n.
Proof.
  unfold str_take. revert n. induction s as [|c s IH]; intros [|n]; simpl; try lia.
  intros. f_equal. apply IH. lia.
Qed.
Lemma pop_back_snoc s c : pop_back (s +:+ String c "") = s.
Proof.
  unfold pop_back. rewrite str_length_app. simpl.
  replace (String.length s + 1 - 1)%nat with (String.length s) by lia.
  apply str_take_exact.
Qed.
Lemma str_resize_shrink s n : (n <= String.length s)%nat -> str_resize s n = str_take n s.
Proof. intros. unfold str_resize. by rewrite bool_decide_eq_true_2. Qed.
Lemma str_resize_exact a b n :
  n = String.length a -> str_resize (a +:+ b) n = a.
Proof.
  intros ->. rewrite str_resize_shrink by (rewrite str_length_app; lia).
  apply str_take_exact.
Qed.
Create Rewrite HintDb rad_str.
Create Rewrite HintDb rad_map.
#[export] Hint Rewrite str_app_cons str_app_nil_l str_length_app str_app_nil_r str_take_0 str_take_all pop_back_snoc : rad_str.

(** A string without the character [c]. *)
Fixpoint str_mem (c : ascii) (s : string) : bool :=
  match s with
  | EmptyString => false
  | String d s' => (bool_decide (d = c) || str_mem c s')%bool
  end.

Lemma str_mem_app c a b : str_mem c (a +:+ b) = (str_mem c a || str_mem c b)%bool.
Proof.
  induction a as [|d a IH]; [done|]. rewrite str_app_cons; simpl.
  by rewrite IH, orb_assoc.
Qed.

(** ** Ordered maps: [QMap] and [std::map] keyed by strings

    Both iterate in key order; keys compare by code unit. A map is its ordered
    association list. *)
Fixpoint str_ltb (a b : string) : bool :=
  match a, b with
  | _, EmptyString => false
  | EmptyString, String _ _ => true
  | String c a', String d b' =>
      if N.ltb (N_of_ascii c) (N_of_ascii d) then true
      else if N.eqb (N_of_ascii c) (N_of_ascii d) then str_ltb a' b' else false
  end.

Lemma str_ltb_irrefl a : str_ltb a a = false.
Proof. induction a as [|c a IH]; simpl; [done|]. by rewrite N.ltb_irrefl, N.eqb_refl. Qed.

Lemma N_of_ascii_inj c d : N_of_ascii c = N_of_ascii d -> c = d.
Proof. intros H. rewrite <- (ascii_N_embedding c), H. apply ascii_N_embedding. Qed.

Lemma str_ltb_trans a b c : str_ltb a b = true -> str_ltb b c = true -> str_ltb a c = true.
Proof.
  revert b c. induction a as [|x a IH]; intros [|y b] [|z c]; simpl; try done.
  destruct (N.ltb_spec (N_of_ascii x) (N_of_ascii y)),
    (N.ltb_spec (N_of_ascii y) (N_of_ascii z)),
    (N.eqb_spec (N_of_ascii x) (N_of_ascii y)),
    (N.eqb_spec (N_of_ascii y) (N_of_ascii z)),
    (N.ltb_spec (N_of_ascii x) (N_of_ascii z)),
    (N.eqb_spec (N_of_ascii x) (N_of_ascii z)); try done; try lia; eauto.
Qed.

Lemma str_ltb_total a b : str_ltb a b = false -> a <> b -> str_ltb b a = true.
Proof.
  revert b. induction a as [|x a IH]; intros [|y b]; simpl; try done.
  destruct (N.ltb_spec (N_of_ascii x) (N_of_ascii y)),
    (N.eqb_spec (N_of_ascii x) (N_of_ascii y)),
    (N.ltb_spec (N_of_ascii y) (N_of_ascii x)),
    (N.eqb_spec (N_of_ascii y) (N_of_ascii x)); try done; try lia.
  intros Hb Hne. apply IH; [done|]. intros ->. by rewrite (N_of_ascii_inj x y) in Hne.
Qed.

Section ordered_map.
Context {V : Type}.
Implicit Types (m : list (string * V)) (k : string) (v : V).

Fixpoint qm_find k m : option V :=
  match m with
  | [] => None
  | (k', v) :: m' => if bool_decide (k = k') then Some v else qm_find k m'
  end.
Fixpoint qm_insert k v m : list (string * V) :=
  match m with
  | [] => [(k, v)]
  | (k', v') :: m' =>
      if bool_decide (k = k') then (k, v) :: m'
      else if str_ltb k k' then (k, v) :: m
      else (k', v') :: qm_insert k v m'
  end.
Fixpoint qm_erase k m : list (string * V) :=
  match m with
  | [] => []
  | (k', v') :: m' =>
      if bool_decide (k = k') then qm_erase k m' else (k', v') :: qm_erase k m'
  end.
(** [operator\[\]] on a missing key inserts a default-constructed value. *)
Definition qm_get (d : V) k m : V := default d (qm_find k m).
Definition qm_keys m : list string := m.*1.

(** Strictly increasing keys. *)
Fixpoint qm_above k m : bool :=
  match m with [] => true | (k', _) :: m' => (str_ltb k k' && qm_above k m')%bool end.
Fixpoint qm_sorted m : bool :=
  match m with [] => true | (k, _) :: m' => (qm_above k m' && qm_sorted m')%bool end.

Lemma qm_find_insert_eq k v m : qm_find k (qm_insert k v m) = Some v.
Proof.
  induction m as [|[k' v'] m IH]; simpl; repeat (case_bool_decide; simpl); try done.
  destruct (str_ltb k k'); simpl; by case_bool_decide.
Qed.
Lemma qm_find_insert_ne k k' v m : k <> k' -> qm_find k' (qm_insert k v m) = qm_find k' m.
Proof.
  intros Hne. induction m as [|[j w] m IH]; simpl.
  - by rewrite bool_decide_eq_false_2.
  - case_bool_decide; simpl; [subst; by rewrite bool_decide_eq_false_2|].
    destruct (str_ltb k j); simpl; [|by rewrite IH].
    by rewrite (bool_decide_eq_false_2 (k' = k)).
Qed.
Lemma qm_find_erase_eq k m : qm_find k (qm_erase k m) = None.
Proof. induction m as [|[j w] m IH]; simpl; [done|]. repeat (case_bool_decide; simpl); done. Qed.
Lemma qm_find_erase_ne k k' m : k <> k' -> qm_find k' (qm_erase k m) = qm_find k' m.
Proof.
  intros Hne. induction m as [|[j w] m IH]; simpl; [done|].
  case_bool_decide; simpl; [subst; by rewrite bool_decide_eq_false_2|]. by rewrite IH.
Qed.

Lemma qm_above_trans k k' m : str_ltb k k' = true -> qm_above k' m = true -> qm_above k m = true.
Proof.
  intros Hk. induction m as [|[j w] m IH]; simpl; [done|].
  rewrite !andb_true_iff. intros [? ?]. split; [by eapply str_ltb_trans|auto].
Qed.
Lemma qm_above_insert k j v m :
  str_ltb k j = true -> qm_above k m = true -> qm_above k (qm_insert j v m) = true.
Proof.
  intros Hk. induction m as [|[i w] m IH]; simpl; [by rewrite Hk|].
  rewrite andb_true_iff. intros [? ?].
  case_bool_decide; simpl; [by subst; rewrite Hk|].
  destruct (str_ltb j i); simpl; rewrite ?Hk, ?H; simpl; auto.
Qed.
Lemma qm_above_erase k j m : qm_above k m = true -> qm_above k (qm_erase j m) = true.
Proof.
  induction m as [|[i w] m IH]; simpl; [done|]. rewrite andb_true_iff. intros [H ?].
  case_bool_decide; simpl; [auto|]. rewrite H. simpl; auto.
Qed.
Lemma qm_sorted_insert k v m : qm_sorted m = true -> qm_sorted (qm_insert k v m) = true.
Proof.
  induction m as [|[i w] m IH]; simpl; [done|].
  rewrite andb_true_iff. intros [Ha Hs]. case_bool_decide; simpl; [subst; by rewrite Ha|].
  destruct (str_ltb k i) eqn:E; simpl; rewrite ?E, ?Ha, ?Hs; simpl.
  - rewrite (qm_above_trans _ i); done.
  - rewrite IH by done. rewrite andb_true_r. apply qm_above_insert; [|done].
    by apply str_ltb_total.
Qed.
Lemma qm_sorted_erase k m : qm_sorted m = true -> qm_sorted (qm_erase k m) = true.
Proof.
  induction m as [|[i w] m IH]; simpl; [done|]. rewrite andb_true_iff. intros [Ha Hs].
  case_bool_decide; simpl; [auto|]. rewrite qm_above_erase; auto.
Qed.
Lemma qm_above_find k m : qm_above k m = true -> qm_find k m = None.
Proof.
  induction m as [|[i w] m IH]; simpl; [done|]. rewrite andb_true_iff. intros [H ?].
  case_bool_decide as E; [subst; by rewrite str_ltb_irrefl in H|auto].
Qed.

(** Ordered maps are extensional. *)
Lemma qm_ext m1 m2 :
  qm_sorted m1 = true -> qm_sorted m2 = true ->
  (forall k, qm_find k m1 = qm_find k m2) -> m1 = m2.
Proof.
  revert m2. induction m1 as [|[k1 v1] m1 IH]; intros [|[k2 v2] m2]; simpl; [done|..].
  { intros _ _ H. specialize (H k2). by rewrite bool_decide_eq_true_2 in H. }
  { intros _ _ H. specialize (H k1). by rewrite bool_decide_eq_true_2 in H. }
  rewrite !andb_true_iff. intros [A1 S1] [A2 S2] H.
  assert (k1 = k2) as ->.
  { destruct (decide (k1 = k2)) as [|Hne]; [done|exfalso].
    destruct (str_ltb k1 k2) eqn:E.
    - specialize (H k1). rewrite bool_decide_eq_true_2, bool_decide_eq_false_2 in H by done.
      by rewrite (qm_above_find k1 m2) in H by (by eapply qm_above_trans).
    - apply str_ltb_total in E; [|done]. specialize (H k2).
      rewrite bool_decide_eq_false_2, bool_decide_eq_true_2 in H by done.
      by rewrite (qm_above_find k2 m1) in H by (by eapply qm_above_trans). }
  pose proof (H k2) as H2. rewrite !bool_decide_eq_true_2 in H2 by done.
  injection H2 as ->. f_equal. apply IH; [done..|]. intros k. specialize (H k).
  case_bool_decide as E; [subst; by rewrite !qm_above_find|done].
Qed.

Lemma qm_find_elem k v m : qm_find k m = Some v -> (k, v) ∈ m.
Proof.
  induction m as [|[i w] m IH]; simpl; [done|]. case_bool_decide.
  - intros [= ->]. subst. left.
  - intros. right; auto.
Qed.
Lemma qm_elem_find k v m : qm_sorted m = true -> (k, v) ∈ m -> qm_find k m = Some v.
Proof.
  induction m as [|[i w] m IH]; simpl; [by inversion 2|].
  rewrite andb_true_iff. intros [Ha Hs] [[= -> ->]|Hin]%elem_of_cons.
  - by rewrite bool_decide_eq_true_2.
  - rewrite bool_decide_eq_false_2; [auto|]. intros ->.
    specialize (IH Hs Hin). by rewrite qm_above_find in IH.
Qed.
End ordered_map.
#[export] Hint Rewrite @qm_find_insert_eq @qm_find_erase_eq : rad_map.
#[export] Hint Resolve qm_sorted_insert qm_sorted_erase : rad.

Lemma qm_insert_insert {V} k (a b : V) m : qm_insert k b (qm_insert k a m) = qm_insert k b m.
Proof.
  induction m as [|[j w] m IH]; simpl; [by rewrite bool_decide_eq_true_2|].
  case_bool_decide; simpl; [by rewrite bool_decide_eq_true_2|].
  destruct (str_ltb k j) eqn:E; simpl.
  - by rewrite bool_decide_eq_true_2.
  - by rewrite bool_decide_eq_false_2, E, IH.
Qed.
(** Inserting a key above all others appends it. *)
Lemma qm_insert_last {V} k (v : V) m :
  forallb (fun kv => str_ltb kv.1 k) m = true -> qm_insert k v m = m ++ [(k, v)].
Proof.
  induction m as [|[j w] m IH]; simpl; [done|]. rewrite andb_true_iff. intros [Hj Hm].
  rewrite bool_decide_eq_false_2 by (intros ->; by rewrite str_ltb_irrefl in Hj).
  destruct (str_ltb k j) eqn:E.
  - pose proof (str_ltb_trans _ _ _ Hj E) as H. by rewrite str_ltb_irrefl in H.
  - by rewrite IH.
Qed.
Lemma qm_above_all {V} k (m : list (string * V)) j w :
  qm_above k m = true -> (j, w) ∈ m -> str_ltb k j = true.
Proof.
  induction m as [|[i x] m IH]; simpl; [by inversion 2|]. rewrite andb_true_iff.
  intros [? ?] [[= -> ->]|?]%elem_of_cons; auto.
Qed.
Lemma qm_find_last {V} k (m : list (string * V)) :
  forallb (fun kv => str_ltb kv.1 k) m = true -> qm_find k m = None.
Proof.
  induction m as [|[j w] m IH]; simpl; [done|]. rewrite andb_true_iff. intros [Hj ?].
  rewrite bool_decide_eq_false_2; [auto|]. intros ->. by rewrite str_ltb_irrefl in Hj.
Qed.
Lemma qm_insert_id {V} k (v : V) m :
  qm_sorted m = true -> qm_find k m = Some v -> qm_insert k v m = m.
Proof.
  induction m as [|[j w] m IH]; simpl; [done|]. rewrite andb_true_iff. intros [Ha Hs].
  case_bool_decide as E; [intros [= ->]; by subst|]. intros Hf.
  destruct (str_ltb k j) eqn:Hlt; [|by rewrite IH].
  by rewrite (qm_above_find k m) in Hf by (by eapply qm_above_trans).
Qed.
Lemma qm_erase_id {V} k (m : list (string * V)) : qm_find k m = None -> qm_erase k m = m.
Proof.
  induction m as [|[j w] m IH]; simpl; [done|].
  case_bool_decide; [done|]. intros. by rewrite IH.
Qed.

(** ** Byte arrays: [QByteArray] and [char] buffers are lists of unsigned bytes *)
Definition is_byte (z : Z) : bool := ((0 <=? z) && (z <? 256))%bool.
Definition bytes_ok (l : list Z) : bool := forallb is_byte l.

Fixpoint bytes_of_string (s : string) : list Z :=
  match s with EmptyString => [] | String c s' => Z.of_N (N_of_ascii c) :: bytes_of_string s' end.
Fixpoint string_of_bytes (l : list Z) : string :=
  match l with [] => EmptyString | b :: l' => String (ascii_of_N (Z.to_N b)) (string_of_bytes l') end.

Lemma string_of_bytes_of_string s : string_of_bytes (bytes_of_string s) = s.
Proof.
  induction s as [|c s IH]; simpl; [done|]. by rewrite IH, N2Z.id, ascii_N_embedding.
Qed.
Lemma bytes_of_string_ok s : bytes_ok (bytes_of_string s) = true.
Proof.
  induction s as [|c s IH]; simpl; [done|]. rewrite IH, andb_true_r. unfold is_byte.
  pose proof (N_ascii_bounded c). rewrite andb_true_iff, Z.leb_le, Z.ltb_lt. lia.
Qed.

(** [QByteArray::indexOf] and [string_view::find_first_of] for one byte. *)
Fixpoint index_of (c : Z) (l : list Z) : option nat :=
  match l with
  | [] => None
  | b :: l' => if b =? c then Some O else S <$> index_of c l'
  end.
Fixpoint mem_byte (c : Z) (l : list Z) : bool :=
  match l with [] => false | b :: l' => ((b =? c) || mem_byte c l')%bool end.

Lemma index_of_None c l : index_of c l = None <-> mem_byte c l = false.
Proof.
  induction l as [|b l IH]; simpl; [done|]. destruct (b =? c); simpl; [done|].
  rewrite <- IH. by destruct (index_of c l).
Qed.
Lemma index_of_Some c l n : index_of c l = Some n ->
  l = take n l ++ c :: drop (S n) l /\ mem_byte c (take n l) = false /\ (n < length l)%nat.
Proof.
  revert n. induction l as [|b l IH]; intros n; simpl; [done|].
  destruct (b =? c) eqn:E.
  - intros [= <-]. apply Z.eqb_eq in E. subst. simpl. rewrite drop_0. split_and!; done || lia.
  - destruct (index_of c l) as [m|]; [|done]. intros [= <-]. simpl.
    destruct (IH m eq_refl) as (H1 & H2 & H3). rewrite E, H2. split_and!; [by f_equal|done|lia].
Qed.
Lemma index_of_app_Some c l l' n : index_of c l = Some n -> index_of c (l ++ l') = Some n.
Proof.
  revert n. induction l as [|b l IH]; intros n; simpl; [done|]. destruct (b =? c); [done|].
  destruct (index_of c l) as [m|]; [|done]. intros [= <-]. by rewrite (IH m).
Qed.
Lemma index_of_app_None c l l' :
  mem_byte c l = false -> index_of c (l ++ c :: l') = Some (length l).
Proof.
  induction l as [|b l IH]; simpl; [by rewrite Z.eqb_refl|].
  rewrite orb_false_iff. intros [-> H]. by rewrite IH.
Qed.
Lemma mem_byte_app c l l' : mem_byte c (l ++ l') = (mem_byte c l || mem_byte c l')%bool.
Proof. induction l as [|b l IH]; simpl; [done|]. by rewrite IH, orb_assoc. Qed.
