(* ===== verification/QVariant.v ===== *)
(** * [QVariant]: the values every component exchanges

    A message, a configuration and a Lua value converted by [toQVar] are all a
    [QVariant].  [QVar] has one constructor per metatype the sources switch on:
    the type tag the code tests ([metaType().id()]) is the constructor.
    Strings are byte strings (a [QString] is taken in its UTF-8 form);
    floating-point payloads are their IEEE bit patterns, opaque to the code. *)
From S2P Require Import Prelude.
Set Warnings "-register-all".

Inductive QVar : Type :=
| VInvalid
| VBool (b : bool)
| VInt (z : Z)
| VUInt (z : Z)
| VLongLong (z : Z)
| VULongLong (z : Z)
| VDouble (bits : Z)
| VFloat (bits : Z)
| VChar (s : string)
| VString (s : string)
| VBytes (b : list Z)
| VStringList (l : list string)
| VList (l : list QVar)
| VMap (m : list (string * QVar))
| VOpaque (ty : string) (id : Z). (* LuaFunction, LuaValue, QObject*, QUuid, ... *)

(** Induction with the hypotheses for the elements of lists and maps. *)
Section QVar_induction.
Variable P : QVar -> Prop.
Hypothesis Hleaf : forall v,
  (match v with VList _ | VMap _ => False | _ => True end) -> P v.
Hypothesis Hlist : forall l, Forall P l -> P (VList l).
Hypothesis Hmap : forall m, Forall (fun kv => P kv.2) m -> P (VMap m).

Fixpoint QVar_tree_ind (v : QVar) : P v :=
  match v with
  | VList l => Hlist l
      ((fix go l : Forall P l :=
          match l with
          | [] => @List.Forall_nil _ P
          | x :: l' => @List.Forall_cons _ P x l' (QVar_tree_ind x) (go l')
          end) l)
  | VMap m => Hmap m
      ((fix go m : Forall (fun kv => P kv.2) m :=
          match m with
          | [] => @List.Forall_nil _ (fun kv => P kv.2)
          | (k, x) :: m' => @List.Forall_cons _ (fun kv => P kv.2) (k, x) m' (QVar_tree_ind x) (go m')
          end) m)
  | VInvalid => Hleaf (VInvalid) I
  | VBool b => Hleaf (VBool b) I
  | VInt z => Hleaf (VInt z) I
  | VUInt z => Hleaf (VUInt z) I
  | VLongLong z => Hleaf (VLongLong z) I
  | VULongLong z => Hleaf (VULongLong z) I
  | VDouble z => Hleaf (VDouble z) I
  | VFloat z => Hleaf (VFloat z) I
  | VChar s => Hleaf (VChar s) I
  | VString s => Hleaf (VString s) I
  | VBytes b => Hleaf (VBytes b) I
  | VStringList l => Hleaf (VStringList l) I
  | VOpaque t i => Hleaf (VOpaque t i) I
  end.
End QVar_induction.

(** Decidable equality (identity of representations, not Qt's [==]). *)
Fixpoint qvar_eqb (x y : QVar) : bool :=
  match x, y with
  | VInvalid, VInvalid => true
  | VBool a, VBool b => Bool.eqb a b
  | VInt a, VInt b | VUInt a, VUInt b | VLongLong a, VLongLong b
  | VULongLong a, VULongLong b | VDouble a, VDouble b | VFloat a, VFloat b => a =? b
  | VChar a, VChar b | VString a, VString b => bool_decide (a = b)
  | VBytes a, VBytes b => bool_decide (a = b)
  | VStringList a, VStringList b => bool_decide (a = b)
  | VList a, VList b =>
      (fix go (a b : list QVar) : bool :=
         match a, b with
         | [], [] => true
         | x :: a', y :: b' => (qvar_eqb x y && go a' b')%bool
         | _, _ => false
         end) a b
  | VMap a, VMap b =>
      (fix go (a b : list (string * QVar)) : bool :=
         match a, b with
         | [], [] => true
         | (k, x) :: a', (j, y) :: b' => (bool_decide (k = j) && qvar_eqb x y && go a' b')%bool
         | _, _ => false
         end) a b
  | VOpaque t i, VOpaque u j => (bool_decide (t = u) && (i =? j))%bool
  | _, _ => false
  end.

Lemma qvar_eqb_eq x y : qvar_eqb x y = true <-> x = y.
Proof.
  revert y. induction x as [x Hx|l IH|m IH] using QVar_tree_ind; intros y.
  - destruct x, y; simpl in *; try done;
      rewrite ?andb_true_iff, ?Z.eqb_eq, ?Bool.eqb_true_iff, ?bool_decide_eq_true; naive_solver.
  - destruct y as [| | | | | | | | | | | |l'| |]; try done. revert l'.
    induction IH as [|x l Hx _ IH]; intros [|y l']; simpl; try done.
    rewrite andb_true_iff, Hx. specialize (IH l'). simpl in IH. rewrite IH. naive_solver.
  - destruct y as [| | | | | | | | | | | | |m'|]; try done. revert m'.
    induction IH as [|[k x] m Hx _ IH]; intros [|[j y] m']; simpl in *; try done.
    rewrite !andb_true_iff, Hx, IH, bool_decide_eq_true. naive_solver.
Qed.

#[export] Instance QVar_eq_dec : EqDecision QVar.
Proof.
  intros x y. destruct (qvar_eqb x y) eqn:E.
  - left. by apply qvar_eqb_eq.
  - right. intros ->. by rewrite (proj2 (qvar_eqb_eq y y)) in E.
Defined.

Definition isValid (v : QVar) : bool := match v with VInvalid => false | _ => true end.
Definition is_container (v : QVar) : bool :=
  match v with VList _ | VMap _ => true | _ => false end.

(** Every map in the tree is ordered (a Qt invariant of [QMap]). *)
Fixpoint qvar_wf (v : QVar) : bool :=
  match v with
  | VList l => forallb qvar_wf l
  | VMap m => (qm_sorted m && forallb (fun kv => qvar_wf kv.2) m)%bool
  | _ => true
  end.

(** ** What the sources rely on of [QVariant] itself

    Qt's comparison and conversions are library code: the model takes them as an
    interface, with the documented behaviour its clients rely on. *)
Class QVariantOps := {
  qeq : QVar -> QVar -> bool;               (* operator== *)
  toBool : QVar -> bool;
  toUInt : QVar -> option Z;                (* toUInt(&ok): None when !ok *)
  toFloat : QVar -> option Z;               (* toFloat(&ok), bits of the result *)
  toStr : QVar -> string                    (* toString() *)
}.
Class QVariantLaws (O : QVariantOps) := {
  toBool_bool : forall b, toBool (VBool b) = b;
  toUInt_range : forall v u, toUInt v = Some u -> 0 <= u < 2 ^ 32;
  toUInt_int : forall z, 0 <= z < 2 ^ 31 -> toUInt (VInt z) = Some z;
  toUInt_uint : forall z, 0 <= z < 2 ^ 32 -> toUInt (VUInt z) = Some z;
  toFloat_float : forall b, 0 <= b < 2 ^ 32 -> toFloat (VFloat b) = Some b;
  toFloat_range : forall v b, toFloat v = Some b -> 0 <= b < 2 ^ 32;
  toStr_string : forall s, toStr (VString s) = s
}.

(** A concrete instance, used by the witnesses: identity of representations and
    conversions between equal kinds only. *)
Definition range_opt (z hi : Z) : option Z :=
  if ((0 <=? z) && (z <? hi))%bool then Some z else None.

Lemma range_opt_Some z hi u : range_opt z hi = Some u -> u = z /\ 0 <= z < hi.
Proof. unfold range_opt. case_match; [|done]. bool_to_prop. intros [= <-]. lia. Qed.
Lemma range_opt_in z hi : 0 <= z < hi -> range_opt z hi = Some z.
Proof.
  intros ?. unfold range_opt.
  by rewrite (proj2 (Z.leb_le _ _)), (proj2 (Z.ltb_lt _ _)) by lia.
Qed.

Definition simple_ops : QVariantOps := {|
  qeq := qvar_eqb;
  toBool v := match v with VBool b => b | _ => false end;
  toUInt v := match v with
              | VInt z | VUInt z | VLongLong z | VULongLong z => range_opt z (2 ^ 32)
              | _ => None end;
  toFloat v := match v with VFloat b => range_opt b (2 ^ 32) | _ => None end;
  toStr v := match v with VString s => s | _ => EmptyString end
|}.
#[export] Instance simple_laws : QVariantLaws simple_ops.
Proof.
  split; simpl.
  - done.
  - intros v u. destruct v; try done; intros [-> ?]%range_opt_Some; lia.
  - intros z ?. apply range_opt_in. lia.
  - intros z ?. by apply range_opt_in.
  - intros b ?. by apply range_opt_in.
  - intros v b. destruct v; try done. intros [-> ?]%range_opt_Some. lia.
  - done.
Qed.
