(* ===== verification/Utils.v ===== *)
(** * Flattening, unflattening and merging of message trees

    Models [src/utils.hpp] and [src/utils.cpp]: [tryInt], [Flatten],
    [Unflatten] and [MergePatch], which every register- or key-addressed worker
    (Modbus, Redis, tags) is built on. *)
From S2P Require Import Prelude QVariant.

(** A [FlatMap] is a vector of path/value pairs, in push order. *)
Definition FlatMap : Type := list (string * QVar).

(** ** [tryInt]: the index of a path segment ["[N]"], or -1

    [long] is 64 bits wide.  The source does not check for overflow (signed
    overflow is undefined in C++; the model wraps): [tryInt_dec] shows which
    segments are read exactly. *)
Definition digit_of (ch : ascii) : option Z :=
  let n := Z.of_N (N_of_ascii ch) in
  if ((48 <=? n) && (n <=? 57))%bool then Some (n - 48) else None.

Fixpoint tryInt_loop (part : string) (acc : Z) : Z :=
  match part with
  | EmptyString => acc
  | String ch rest =>
      match digit_of ch with
      | Some d => tryInt_loop rest (wraps 64 (acc * 10 + d))
      | None => -1
      end
  end.

Definition tryInt (part : string) : Z :=
  let sz := String.length part in
  if (bool_decide (sz < 3)%nat
      || negb (bool_decide (String.get 0 part = Some "["%char))
      || negb (bool_decide (String.get (sz - 1) part = Some "]"%char)))%bool
  then -1
  else tryInt_loop (substring 1 (sz - 2) part) 0.

(** ** [std::to_string] on an unsigned number *)
Definition digit_char (d : Z) : ascii := ascii_of_N (Z.to_N (48 + d)).
Fixpoint dec_loop (fuel : nat) (n : Z) (acc : string) : string :=
  match fuel with
  | O => acc
  | S fuel =>
      let acc := String (digit_char (n mod 10)) acc in
      if n <? 10 then acc else dec_loop fuel (n / 10) acc
  end.
(** Twenty digits are enough for every 64-bit number. *)
Definition to_string (n : Z) : string := dec_loop 20 n "".

(** ** [Flatten]

    [path] is the shared buffer the C++ recursion appends to and cuts back; a
    call returns the entries pushed so far and the buffer as it leaves it. *)
Section flatten_loops.
Variable flatten : FlatMap -> QVar -> string -> FlatMap * string.
Fixpoint flatten_map (m : list (string * QVar)) (out : FlatMap) (path : string) :=
  match m with
  | [] => (out, path)
  | (key, v) :: m' =>
      let part := key +:+ ":" in
      let '(out, path) := flatten out v (path +:+ part) in
      flatten_map m' out (str_resize path (String.length path + 1 - String.length part))
  end.
Fixpoint flatten_list (l : list QVar) (idx : Z) (out : FlatMap) (path : string) :=
  match l with
  | [] => (out, path)
  | v :: l' =>
      let part := ("[" +:+ to_string idx +:+ "]") +:+ ":" in
      let '(out, path) := flatten out v (path +:+ part) in
      flatten_list l' (wrapu 32 (idx + 1)) out
        (str_resize path (String.length path + 1 - String.length part))
  end.
End flatten_loops.
Fixpoint flatten (out : FlatMap) (input : QVar) (path : string) : FlatMap * string :=
  match input with
  | VMap m => flatten_map flatten m out path
  | VList l => flatten_list flatten l 0 out path
  | _ =>
      let path := if bool_decide (String.length path <> 0)%nat then pop_back path else path in
      (out ++ [(path, input)], path)
  end.

Definition Flatten (out : FlatMap) (input : QVar) : FlatMap := (flatten out input "").1.

(** ** [Unflatten] *)
Definition colon : ascii := ":"%char.

(** The segments [walkParts] hands to its callback, in order; only the last one
    is passed with [last = true]. *)
Fixpoint split_colon (key : string) : string * list string :=
  match key with
  | EmptyString => (EmptyString, [])
  | String c rest =>
      let '(seg, segs) := split_colon rest in
      if bool_decide (c = colon) then (EmptyString, seg :: segs) else (String c seg, segs)
  end.
Definition walkParts (key : string) : list string :=
  match key with
  | EmptyString => []
  | String c rest =>
      let '(seg, segs) := split_colon (if bool_decide (c = colon) then rest else key) in
      seg :: segs
  end.

Definition as_map (v : QVar) : list (string * QVar) := match v with VMap m => m | _ => [] end.
Definition as_list (v : QVar) : list QVar := match v with VList l => l | _ => [] end.

(** The callback of [Unflatten] along one key: descends from [level], replacing
    a level of the wrong type, growing lists with invalid values. *)
Fixpoint set_path (level : QVar) (parts : list string) (value : QVar) : QVar :=
  match parts with
  | [] => level
  | subkey :: rest =>
      let idx := tryInt subkey in
      let next slot := match rest with [] => value | _ => set_path slot rest value end in
      if ((idx <? 0) || (INT_MAX <? idx))%bool then
        let m := as_map level in
        VMap (qm_insert subkey (next (qm_get VInvalid subkey m)) m)
      else
        let i := Z.to_nat idx in
        let l := as_list level in
        let l := l ++ replicate (S i - length l) VInvalid in
        VList (<[i := next (default VInvalid (l !! i))]> l)
  end.

Definition Unflatten (out : QVar) (flat : FlatMap) : QVar :=
  fold_left (fun out it => set_path out (walkParts it.1) it.2) flat out.

(** ** [MergePatch]

    [diff] is the optional out-parameter ([None] for a null pointer).  Returns
    the new target, the new diff and the number of changes. *)
Section merge.
Context {O : QVariantOps}.

Section loop.
Variable MergePatch : QVar -> QVar -> option QVar -> QVar * option QVar * nat.
Fixpoint merge_entries (inMap outMap : list (string * QVar))
    (diffMap : option (list (string * QVar))) (result : nat) :=
  match inMap with
  | [] => (outMap, diffMap, result)
  | (key, v) :: rest =>
      (* operator[] on the diff creates the entry *)
      let diffValue := qm_get VInvalid key <$> diffMap in
      let store dv := qm_insert key (default VInvalid dv) <$> diffMap in
      if isValid v then
        let '(slot, dv, c) := MergePatch (qm_get VInvalid key outMap) v diffValue in
        merge_entries rest (qm_insert key slot outMap) (store dv) (result + c)%nat
      else if bool_decide (qm_find key outMap = None) then
        merge_entries rest outMap (store diffValue) result
      else
        merge_entries rest (qm_erase key outMap) (store (Some VInvalid)) result
  end.
End loop.

Fixpoint MergePatch (out patch : QVar) (diff : option QVar) : QVar * option QVar * nat :=
  match patch with
  | VMap inMap =>
      let '(outMap, diffMap, result) :=
        merge_entries MergePatch inMap (as_map out) (as_map <$> diff) 0%nat
      in (VMap outMap, VMap <$> diffMap, result)
  | _ =>
      if qeq out patch then (out, diff, 0%nat)
      else (patch, (fun _ => patch) <$> diff, 1%nat)
  end.
End merge.

(** ** Reference definitions *)

(** The keys of a tree: every leaf under the full path of its ancestors. *)
Section leaves_loops.
Variable leaves : string -> QVar -> FlatMap.
Fixpoint leaves_map (prefix : string) (m : list (string * QVar)) : FlatMap :=
  match m with
  | [] => []
  | (key, x) :: m' => leaves (prefix +:+ (key +:+ ":")) x ++ leaves_map prefix m'
  end.
Fixpoint leaves_list (prefix : string) (l : list QVar) (idx : Z) : FlatMap :=
  match l with
  | [] => []
  | x :: l' =>
      leaves (prefix +:+ (("[" +:+ to_string idx +:+ "]") +:+ ":")) x
        ++ leaves_list prefix l' (idx + 1)
  end.
End leaves_loops.
Fixpoint leaves (prefix : string) (v : QVar) : FlatMap :=
  match v with
  | VMap m => leaves_map leaves prefix m
  | VList l => leaves_list leaves prefix l 0
  | _ => [(pop_back prefix, v)]
  end.

(** Only the last element of a container may itself be a container. *)
Definition only_last {A} (f : A -> QVar) (rec : QVar -> bool) : list A -> bool :=
  fix go l := match l with
              | [] => true
              | [a] => rec (f a)
              | a :: l' => (negb (is_container (f a)) && go l')%bool
              end.
Fixpoint tail_nested (v : QVar) : bool :=
  match v with
  | VMap m => only_last snd tail_nested m
  | VList l => only_last id tail_nested l
  | _ => true
  end.

(** Every list index of the tree is an [int]. *)
Fixpoint lists_small (v : QVar) : bool :=
  match v with
  | VMap m => forallb (fun kv => lists_small kv.2) m
  | VList l => ((Z.of_nat (length l) <=? INT_MAX) && forallb lists_small l)%bool
  | _ => true
  end.

(** Containers strictly below the root. *)
Fixpoint containers (v : QVar) : nat :=
  let below x := if is_container x then S (containers x) else 0%nat in
  match v with
  | VMap m => sum_list_with (fun kv => below kv.2) m
  | VList l => sum_list_with below l
  | _ => 0%nat
  end.

(** ** Lemmas on [flatten] *)
Lemma flatten_leaf out v path :
  is_container v = false -> flatten out v path = (out ++ [(pop_back path, v)], pop_back path).
Proof.
  intros Hv. destruct v; try done; simpl; case_bool_decide as E; try done;
    destruct path; try done; simpl in E; lia.
Qed.

Lemma leaves_leaf prefix v : is_container v = false -> leaves prefix v = [(pop_back prefix, v)].
Proof. by destruct v. Qed.

(** A step of the loops of [flatten] over a leaf restores the buffer. *)
Lemma leaf_cut path key :
  str_resize (pop_back (path +:+ (key +:+ ":")))
    (String.length (pop_back (path +:+ (key +:+ ":"))) + 1 - String.length (key +:+ ":")) = path.
Proof.
  rewrite str_app_assoc, pop_back_snoc. apply str_resize_exact.
  rewrite !str_length_app. simpl. lia.
Qed.
Lemma flatten_map_leaf k x m out path :
  is_container x = false ->
  flatten_map flatten ((k, x) :: m) out path
  = flatten_map flatten m (out ++ leaves (path +:+ (k +:+ ":")) x) path.
Proof.
  intros Hc. cbn [flatten_map]. rewrite flatten_leaf, leaves_leaf, leaf_cut by done. done.
Qed.
Lemma flatten_list_leaf x l i out path :
  is_container x = false -> 0 <= i < 2 ^ 32 - 1 ->
  flatten_list flatten (x :: l) i out path
  = flatten_list flatten l (i + 1)
      (out ++ leaves (path +:+ (("[" +:+ to_string i +:+ "]") +:+ ":")) x) path.
Proof.
  intros Hc Hi. cbn [flatten_list]. rewrite flatten_leaf, leaves_leaf, leaf_cut by done.
  by rewrite wrapu_small by lia.
Qed.

Lemma only_last_cons {A} (f : A -> QVar) rec a l :
  only_last f rec (a :: l) = true -> l <> [] ->
  is_container (f a) = false /\ only_last f rec l = true.
Proof. destruct l; [done|]. simpl. rewrite andb_true_iff, negb_true_iff. done. Qed.

Lemma flatten_map_leaves path m :
  Forall (fun kv => tail_nested kv.2 = true -> lists_small kv.2 = true ->
    forall out path, (flatten out kv.2 path).1 = out ++ leaves path kv.2) m ->
  only_last snd tail_nested m = true -> forallb (fun kv => lists_small kv.2) m = true ->
  forall out, (flatten_map flatten m out path).1 = out ++ leaves_map leaves path m.
Proof.
  induction 1 as [|[k x] m Hx _ IH]; intros Ht Hs out; [by rewrite app_nil_r|].
  simpl in Hs. apply andb_true_iff in Hs as [Hsx Hs].
  destruct (decide (m = [])) as [->|Hl].
  - cbn. rewrite app_nil_r. specialize (Hx Ht Hsx out (path +:+ (k +:+ ":"))).
    by destruct (flatten _ _ _).
  - apply only_last_cons in Ht as [Hc Ht]; [|done].
    rewrite flatten_map_leaf, IH by done. by rewrite <- app_assoc.
Qed.
Lemma flatten_list_leaves path l :
  Forall (fun x => tail_nested x = true -> lists_small x = true ->
    forall out path, (flatten out x path).1 = out ++ leaves path x) l ->
  only_last id tail_nested l = true -> forallb lists_small l = true ->
  forall i out, 0 <= i -> i + Z.of_nat (length l) <= INT_MAX ->
  (flatten_list flatten l i out path).1 = out ++ leaves_list leaves path l i.
Proof.
  unfold INT_MAX. induction 1 as [|x l Hx _ IH]; intros Ht Hs i out Hi Hlen; [by rewrite app_nil_r|].
  simpl in Hs. apply andb_true_iff in Hs as [Hsx Hs]. simpl in Hlen.
  destruct (decide (l = [])) as [->|Hl].
  - cbn. rewrite app_nil_r. specialize (Hx Ht Hsx out (path +:+ (("[" +:+ to_string i +:+ "]") +:+ ":"))).
    by destruct (flatten _ _ _).
  - apply only_last_cons in Ht as [Hc Ht]; [|done].
    rewrite flatten_list_leaf, IH by (done || lia). by rewrite <- app_assoc.
Qed.

Lemma flatten_leaves_path v :
  tail_nested v = true -> lists_small v = true ->
  forall out path, (flatten out v path).1 = out ++ leaves path v.
Proof.
  induction v as [v Hv|l IH|m IH] using QVar_tree_ind; intros Ht Hs out path.
  - assert (is_container v = false) as Hc by (destruct v; done).
    by rewrite flatten_leaf, leaves_leaf.
  - simpl in Hs. apply andb_true_iff in Hs as [Hlen Hs]. bool_to_prop.
    apply flatten_list_leaves; done || lia.
  - by apply flatten_map_leaves.
Qed.

(** Every container below the root leaves one stray character in the buffer. *)
Lemma cut_length (p : string) n :
  (n <= String.length p + 1)%nat -> (0 < n)%nat ->
  String.length (str_resize p (String.length p + 1 - n)) = (String.length p + 1 - n)%nat.
Proof. intros. rewrite str_resize_shrink by lia. apply str_take_length. lia. Qed.

Definition exit_length (v : QVar) (path : string) : nat :=
  if is_container v then (String.length path + containers v)%nat
  else (String.length path - 1)%nat.

Lemma pop_back_length p : String.length (pop_back p) = (String.length p - 1)%nat.
Proof. apply str_take_length. lia. Qed.

Lemma child_exit path key x p' :
  String.length p' = exit_length x (path +:+ (key +:+ ":")) ->
  String.length (str_resize p' (String.length p' + 1 - String.length (key +:+ ":")))
  = (String.length path + if is_container x then S (containers x) else 0)%nat.
Proof.
  intros Hp. unfold exit_length in Hp. rewrite !str_length_app in *. simpl in *.
  destruct (is_container x); rewrite cut_length; lia.
Qed.

Lemma flatten_exit_length v :
  forall out path, String.length (flatten out v path).2 = exit_length v path.
Proof.
  induction v as [v Hv|l IH|m IH] using QVar_tree_ind; intros out path; unfold exit_length.
  - assert (is_container v = false) as Hc by (destruct v; done).
    rewrite flatten_leaf, Hc by done. apply pop_back_length.
  - simpl. revert out path. generalize 0. induction IH as [|x l Hx _ IH]; intros i out path; [simpl; lia|].
    cbn [flatten_list]. destruct (flatten _ _ _) as [out' p'] eqn:E. cbn beta iota zeta.
    rewrite IH, (child_exit path ("[" +:+ to_string i +:+ "]") x).
    + simpl. lia.
    + specialize (Hx out (path +:+ (("[" +:+ to_string i +:+ "]") +:+ ":"))). by rewrite E in Hx.
  - simpl. revert out path. induction IH as [|[k x] m Hx _ IH]; intros out path; [simpl; lia|].
    cbn [flatten_map]. destruct (flatten _ _ _) as [out' p'] eqn:E. cbn beta iota zeta.
    rewrite IH, (child_exit path k x).
    + simpl. lia.
    + specialize (Hx out (path +:+ (k +:+ ":"))). cbn [snd] in Hx. by rewrite E in Hx.
Qed.

(** *** Round trip: [walkParts] inverts the joining of keys *)
Definition good_seg (s : string) : bool :=
  (negb (bool_decide (s = "")) && negb (str_mem colon s))%bool.
Fixpoint join (segs : list string) : string :=
  match segs with
  | [] => ""
  | [s] => s
  | s :: segs' => s +:+ (":" +:+ join segs')
  end.

Lemma split_colon_seg s rest :
  str_mem colon s = false ->
  split_colon (s +:+ rest) = let '(a, l) := split_colon rest in (s +:+ a, l).
Proof.
  induction s as [|c s IH]; intros H.
  - rewrite str_app_nil_l. by destruct (split_colon rest).
  - simpl in H. apply orb_false_iff in H as [Hc H]. rewrite str_app_cons. simpl.
    rewrite IH by done. destruct (split_colon rest). by rewrite Hc.
Qed.

Lemma split_colon_join segs :
  segs <> [] -> forallb good_seg segs = true ->
  let '(a, l) := split_colon (join segs) in a :: l = segs.
Proof.
  induction segs as [|s segs IH]; [done|]. intros _ H. simpl in H.
  apply andb_true_iff in H as [Hs H]. unfold good_seg in Hs.
  apply andb_true_iff in Hs as [_ Hm]. apply negb_true_iff in Hm.
  destruct (decide (segs = [])) as [->|Hne].
  - cbn [join]. rewrite <- (str_app_nil_r s), split_colon_seg by done. simpl. by rewrite str_app_nil_r.
  - specialize (IH Hne H). replace (join (s :: segs)) with (s +:+ (":" +:+ join segs)) by (by destruct segs).
    rewrite split_colon_seg by done. rewrite str_app_cons, str_app_nil_l. simpl.
    destruct (split_colon (join segs)).
    by rewrite str_app_nil_r, IH.
Qed.

Lemma walkParts_join segs :
  segs <> [] -> forallb good_seg segs = true -> walkParts (join segs) = segs.
Proof.
  intros Hne H. pose proof (split_colon_join segs Hne H) as Hs.
  destruct segs as [|s segs]; [done|]. simpl in H. apply andb_true_iff in H as [Hg _].
  unfold good_seg in Hg. apply andb_true_iff in Hg as [He Hm].
  destruct s as [|c s]; [done|]. simpl in Hm. apply negb_true_iff, orb_false_iff in Hm as [Hc _].
  unfold walkParts.
  destruct (join (String c s :: segs)) as [|d r] eqn:E; [by destruct segs|].
  assert (d = c) as -> by (by destruct segs; injection E).
  rewrite Hc. by destruct (split_colon _).
Qed.

Fixpoint list_segs (f : QVar -> list (list string * QVar)) (l : list QVar) (i : Z) :=
  match l with
  | [] => []
  | x :: l' => map (fun sv => (("[" +:+ to_string i +:+ "]") :: sv.1, sv.2)) (f x)
                 ++ list_segs f l' (i + 1)
  end.
(** The leaves of a tree under their segments. *)
Fixpoint seg_leaves (v : QVar) : list (list string * QVar) :=
  match v with
  | VMap m => flat_map (fun kv => map (fun sv => (kv.1 :: sv.1, sv.2)) (seg_leaves kv.2)) m
  | VList l => list_segs seg_leaves l 0
  | _ => [([], v)]
  end.
Definition key_of (prefix : string) (sv : list string * QVar) : string * QVar :=
  (match sv.1 with [] => pop_back prefix | _ => prefix +:+ join sv.1 end, sv.2).

Lemma key_of_child prefix k sv :
  key_of (prefix +:+ (k +:+ ":")) sv = key_of prefix (k :: sv.1, sv.2).
Proof.
  destruct sv as [[|s segs] x]; unfold key_of; simpl.
  - by rewrite str_app_assoc, pop_back_snoc.
  - by rewrite <- !str_app_assoc.
Qed.
Lemma map_key_of_child prefix k L :
  map (key_of (prefix +:+ (k +:+ ":"))) L
  = map (key_of prefix) (map (fun sv => (k :: sv.1, sv.2)) L).
Proof. rewrite map_map. apply map_ext. intros. apply key_of_child. Qed.

Lemma leaves_segs v : forall prefix, leaves prefix v = map (key_of prefix) (seg_leaves v).
Proof.
  induction v as [v Hv|l IH|m IH] using QVar_tree_ind; intros prefix.
  - by destruct v.
  - simpl. generalize 0. induction IH as [|x l Hx _ IH]; intros i; simpl; [done|].
    by rewrite map_app, Hx, IH, map_key_of_child.
  - simpl. induction IH as [|[k x] m Hx _ IH]; simpl; [done|].
    simpl in Hx. by rewrite map_app, Hx, IH, map_key_of_child.
Qed.

(** *** Decimal indices *)
Fixpoint digits_val (s : string) (r : Z) : option Z :=
  match s with
  | EmptyString => Some r
  | String c s' => match digit_of c with Some d => digits_val s' (r * 10 + d) | None => None end
  end.

Lemma digit_of_range c d : digit_of c = Some d -> 0 <= d <= 9.
Proof. unfold digit_of. case_match; [|done]. intros [= <-]. bool_to_prop. lia. Qed.

Lemma digits_val_ge s : forall r v, 0 <= r -> digits_val s r = Some v -> r <= v.
Proof.
  induction s as [|c s IH]; simpl; intros r v Hr; [by intros [= ->]|].
  destruct (digit_of c) eqn:Hd; [|done]. apply digit_of_range in Hd. intros Hv%IH; lia.
Qed.

(** No overflow on the way: the loop reads the exact value. *)
Lemma tryInt_loop_val s : forall r v,
  0 <= r -> digits_val s r = Some v -> v < 2 ^ 63 -> tryInt_loop s r = v.
Proof.
  induction s as [|c s IH]; simpl; intros r v Hr; [by intros [= ->]|].
  destruct (digit_of c) as [d|] eqn:Hd; [|done]. intros Hv Hlt.
  apply digit_of_range in Hd.
  pose proof (digits_val_ge s (r * 10 + d) v ltac:(lia) Hv).
  rewrite wraps64_small by lia. apply IH; auto; lia.
Qed.

Lemma digit_of_char d : 0 <= d <= 9 -> digit_of (digit_char d) = Some d.
Proof.
  intros Hd. assert (d ∈ seqZ 0 10) as H by (apply elem_of_seqZ; lia).
  repeat (apply elem_of_cons in H as [->|H]; [done|]). by apply elem_of_nil in H.
Qed.

Lemma digits_val_app a b r :
  digits_val (a +:+ b) r = match digits_val a r with Some r' => digits_val b r' | None => None end.
Proof.
  revert r. induction a as [|c a IH]; intros r; [done|]. rewrite str_app_cons. simpl.
  destruct (digit_of c); auto.
Qed.

Lemma dec_loop_val fuel : forall n acc, 0 <= n < 10 ^ Z.of_nat fuel -> (0 < fuel)%nat ->
  exists p, dec_loop fuel n acc = p +:+ acc /\ p <> "" /\
    digits_val p 0 = Some n /\ (String.length p <= fuel)%nat.
Proof.
  induction fuel as [|fuel IH]; intros n acc Hn Hf; [lia|]. simpl.
  pose proof (Z.mod_pos_bound n 10 ltac:(lia)) as Hm.
  destruct (Z.ltb_spec n 10) as [Hlt|Hge].
  - exists (String (digit_char (n mod 10)) ""). rewrite str_app_cons, str_app_nil_l.
    repeat split; [done| |simpl; lia]. simpl. rewrite digit_of_char by lia.
    f_equal. rewrite Z.mod_small; lia.
  - assert (0 < fuel)%nat by (destruct fuel; simpl in Hn; lia).
    assert (0 <= n / 10 < 10 ^ Z.of_nat fuel).
    { rewrite Nat2Z.inj_succ, Z.pow_succ_r in Hn by lia.
      split; [apply Z.div_pos; lia|apply Z.div_lt_upper_bound; lia]. }
    destruct (IH (n / 10) (String (digit_char (n mod 10)) acc)) as (p & -> & Hne & Hv & Hl); [done..|].
    exists (p +:+ String (digit_char (n mod 10)) ""). repeat split.
    + by rewrite <- str_app_assoc.
    + by destruct p.
    + rewrite digits_val_app, Hv. simpl. rewrite digit_of_char by lia. f_equal.
      rewrite (Z.div_mod n 10) at 3; lia.
    + rewrite str_length_app. simpl. lia.
Qed.

Lemma to_string_val n : 0 <= n < 10 ^ 20 ->
  to_string n <> "" /\ digits_val (to_string n) 0 = Some n /\ (String.length (to_string n) <= 20)%nat.
Proof.
  intros Hn. destruct (dec_loop_val 20 n "" Hn ltac:(lia)) as (p & E & ?).
  unfold to_string. rewrite E, str_app_nil_r. done.
Qed.

Lemma substring_mid (a b c : string) :
  substring (String.length a) (String.length b) (a +:+ (b +:+ c)) = b.
Proof.
  induction a as [|x a IH].
  - rewrite str_app_nil_l. apply (str_take_exact b c).
  - rewrite str_app_cons. exact IH.
Qed.
Lemma get_app_len a c rest : String.get (String.length a) (a +:+ String c rest) = Some c.
Proof. induction a as [|x a IH]; [done|]. rewrite str_app_cons. exact IH. Qed.

(** A bracketed decimal index below [2^63] is read exactly. *)
Lemma tryInt_dec n : 0 <= n < 2 ^ 63 -> tryInt ("[" +:+ to_string n +:+ "]") = n.
Proof.
  intros Hn. destruct (to_string_val n ltac:(lia)) as (Hne & Hv & _).
  unfold tryInt. set (s := to_string n) in *.
  assert (0 < String.length s)%nat by (destruct s; simpl; [done|lia]).
  assert (String.length ("[" +:+ s +:+ "]") = String.length s + 2)%nat as ->
    by (rewrite !str_length_app; simpl; lia).
  rewrite bool_decide_eq_false_2, bool_decide_eq_true_2 by (done || lia).
  replace (String.length s + 2 - 1)%nat with (String.length ("[" +:+ s))
    by (rewrite str_length_app; simpl; lia).
  rewrite (str_app_assoc "[" s "]"), get_app_len, bool_decide_eq_true_2 by done.
  rewrite <- str_app_assoc. replace (String.length s + 2 - 2)%nat with (String.length s) by lia.
  replace (substring 1 (String.length s) ("[" +:+ (s +:+ "]"))) with s
    by (symmetry; apply (substring_mid "[" s "]")).
  apply tryInt_loop_val; lia || done.
Qed.

(** *** Rebuilding a tree from its leaves *)
Definition is_index (seg : string) : bool :=
  negb ((tryInt seg <? 0) || (INT_MAX <? tryInt seg)).
Definition put (slot : QVar) (sv : list string * QVar) : QVar :=
  match sv.1 with [] => sv.2 | _ => set_path slot sv.1 sv.2 end.

Lemma put_key slot k segs x : is_index k = false ->
  put slot (k :: segs, x)
  = VMap (qm_insert k (put (qm_get VInvalid k (as_map slot)) (segs, x)) (as_map slot)).
Proof.
  unfold is_index. intros Hk%negb_false_iff. unfold put; simpl. rewrite Hk. by destruct segs.
Qed.
Lemma put_index slot n segs x : 0 <= n <= INT_MAX ->
  put slot (("[" +:+ to_string n +:+ "]") :: segs, x)
  = let l := as_list slot ++ replicate (S (Z.to_nat n) - length (as_list slot)) VInvalid in
    VList (<[Z.to_nat n := put (default VInvalid (l !! Z.to_nat n)) (segs, x)]> l).
Proof.
  unfold INT_MAX. intros Hn. unfold put. cbn [fst snd set_path]. rewrite tryInt_dec by lia.
  rewrite (proj2 (Z.ltb_ge n 0)), (proj2 (Z.ltb_ge INT_MAX n)) by (unfold INT_MAX; lia).
  by destruct segs.
Qed.

Lemma puts_key k L : is_index k = false -> L <> [] -> forall slot,
  fold_left put (map (fun sv => (k :: sv.1, sv.2)) L) slot
  = VMap (qm_insert k (fold_left put L (qm_get VInvalid k (as_map slot))) (as_map slot)).
Proof.
  intros Hk. induction L as [|[segs x] L IH]; [done|]. intros _ slot. cbn [map fold_left fst snd].
  rewrite put_key by done. destruct (decide (L = [])) as [->|Hne]; [done|].
  rewrite IH by done. cbn [as_map]. unfold qm_get at 1.
  by rewrite qm_insert_insert, qm_find_insert_eq.
Qed.
Lemma puts_index n L : 0 <= n <= INT_MAX -> L <> [] -> forall done s,
  n = Z.of_nat (length done) -> forall slot,
  as_list slot = done /\ s = VInvalid \/ slot = VList (done ++ [s]) ->
  fold_left put (map (fun sv => (("[" +:+ to_string n +:+ "]") :: sv.1, sv.2)) L) slot
  = VList (done ++ [fold_left put L s]).
Proof.
  intros Hn. induction L as [|[segs x] L IH]; [done|].
  intros _ d s -> slot Hslot. cbn [map fold_left fst snd].
  assert (put slot (("[" +:+ to_string (Z.of_nat (length d)) +:+ "]") :: segs, x)
          = VList (d ++ [put s (segs, x)])) as E.
  { rewrite put_index by done. rewrite Nat2Z.id. destruct Hslot as [[Hd ->]| ->]; cbn zeta.
    - rewrite Hd. replace (S (length d) - length d)%nat with 1%nat by lia. simpl.
      by rewrite list_lookup_middle, insert_app_r_alt, Nat.sub_diag by lia.
    - cbn [as_list]. rewrite length_app. simpl.
      replace (S (length d) - (length d + 1))%nat with 0%nat by lia. simpl.
      rewrite app_nil_r, list_lookup_middle by done. simpl.
      by rewrite insert_app_r_alt, Nat.sub_diag by lia. }
  rewrite E. destruct (decide (L = [])) as [->|Hne]; [done|].
  apply IH; [done|done|by right].
Qed.

(** The trees [Unflatten] can rebuild: no empty container, no key that is empty,
    contains a colon or reads as an index. *)
Definition good_key (k : string) : bool := (good_seg k && negb (is_index k))%bool.
Fixpoint rebuildable (v : QVar) : bool :=
  match v with
  | VMap m =>
      (negb (bool_decide (m = [])) && qm_sorted m
       && forallb (fun kv => good_key kv.1 && rebuildable kv.2) m)%bool
  | VList l => (negb (bool_decide (l = [])) && (Z.of_nat (length l) <=? INT_MAX)
                && forallb rebuildable l)%bool
  | _ => true
  end.

Lemma seg_leaves_nonempty v : rebuildable v = true -> seg_leaves v <> [].
Proof.
  induction v as [v Hv|l IH|m IH] using QVar_tree_ind; intros Hr; [by destruct v|..];
    simpl in Hr; repeat (apply andb_true_iff in Hr as [Hr ?]); apply negb_true_iff in Hr; bool_to_prop.
  - destruct IH as [|x l Hx _]; [done|]. simpl in *. bool_to_prop.
    destruct (seg_leaves x); naive_solver.
  - destruct IH as [|[k x] m Hx _]; [done|]. simpl in *. bool_to_prop.
    destruct (seg_leaves x); naive_solver.
Qed.

Lemma puts_map m :
  Forall (fun kv => rebuildable kv.2 = true -> fold_left put (seg_leaves kv.2) VInvalid = kv.2) m ->
  qm_sorted m = true -> forallb (fun kv => good_key kv.1 && rebuildable kv.2) m = true ->
  forall d, forallb (fun kv => forallb (fun kv' => str_ltb kv'.1 kv.1) d) m = true ->
  forall slot, as_map slot = d -> (m <> [] \/ slot = VMap d) ->
  fold_left put (seg_leaves (VMap m)) slot = VMap (d ++ m).
Proof.
  induction 1 as [|[k x] m Hx _ IH]; intros Hs Hg d Hd slot Hslot Hor.
  { destruct Hor as [? | ->]; [done|]. by rewrite app_nil_r. }
  simpl in Hs, Hg, Hd. apply andb_true_iff in Hd as [Hdk Hd].
  unfold good_key in Hg at 1. bool_to_prop.
  cbn [seg_leaves flat_map fst snd] in *. fold seg_leaves.
  rewrite fold_left_app, puts_key by (done || by apply seg_leaves_nonempty).
  rewrite Hslot. unfold qm_get. rewrite qm_find_last by done. simpl. rewrite Hx by done.
  rewrite qm_insert_last by done. rewrite (IH ltac:(done) ltac:(done) (d ++ [(k, x)])); [|..|by right].
  - by rewrite <- app_assoc.
  - apply forallb_forall. intros [j w] Hin. rewrite forallb_app. simpl.
    rewrite andb_true_r, andb_true_iff. split.
    + by apply (proj1 (forallb_forall _ _) Hd (j, w)).
    + eapply qm_above_all; [done|]. by apply list_elem_of_In.
  - done.
Qed.
Lemma puts_list l :
  Forall (fun x => rebuildable x = true -> fold_left put (seg_leaves x) VInvalid = x) l ->
  forallb rebuildable l = true ->
  forall d i, i = Z.of_nat (length d) -> i + Z.of_nat (length l) <= INT_MAX ->
  forall slot, as_list slot = d -> (l <> [] \/ slot = VList d) ->
  fold_left put (list_segs seg_leaves l i) slot = VList (d ++ l).
Proof.
  induction 1 as [|x l Hx _ IH]; intros Hg d i Hi Hlen slot Hslot Hor.
  { destruct Hor as [? | ->]; [done|]. by rewrite app_nil_r. }
  simpl in *. bool_to_prop.
  rewrite fold_left_app, (puts_index i _ ltac:(lia) (seg_leaves_nonempty _ ltac:(done)) d VInvalid);
    [|done|by left].
  rewrite Hx by done. rewrite (IH ltac:(done) (d ++ [x])); [|..|by right]; rewrite ?length_app; simpl.
  - by rewrite <- app_assoc.
  - lia.
  - lia.
  - done.
Qed.

Lemma puts_rebuild v : rebuildable v = true -> fold_left put (seg_leaves v) VInvalid = v.
Proof.
  induction v as [v Hv|l IH|m IH] using QVar_tree_ind; intros Hr; [by destruct v|..];
    simpl in Hr; repeat (apply andb_true_iff in Hr as [Hr ?]); bool_to_prop.
  - apply (puts_list l IH ltac:(done) [] 0); simpl; done || lia || naive_solver.
  - apply (puts_map m IH ltac:(done) ltac:(done) []); simpl; [|done|naive_solver].
    by apply forallb_forall.
Qed.

Lemma digits_no_colon s : forall r v, digits_val s r = Some v -> str_mem colon s = false.
Proof.
  induction s as [|c s IH]; simpl; intros r v; [done|].
  destruct (digit_of c) eqn:Hd; [|done]. intros Hv%IH. rewrite Hv, orb_false_r.
  apply bool_decide_eq_false. intros ->. done.
Qed.
Lemma index_good_seg n : 0 <= n < 2 ^ 63 -> good_seg ("[" +:+ to_string n +:+ "]") = true.
Proof.
  intros Hn. destruct (to_string_val n ltac:(lia)) as (_ & Hv & _).
  unfold good_seg. rewrite !str_mem_app, (digits_no_colon _ _ _ Hv). done.
Qed.

Lemma seg_leaves_good v : rebuildable v = true -> lists_small v = true ->
  Forall (fun sv => forallb good_seg sv.1 = true) (seg_leaves v).
Proof.
  induction v as [v Hv|l IH|m IH] using QVar_tree_ind; intros Hr Hs; [by destruct v; repeat constructor|..];
    simpl in Hr, Hs; bool_to_prop.
  - simpl. enough (forall i, 0 <= i -> i + Z.of_nat (length l) <= INT_MAX ->
      Forall (fun sv => forallb good_seg sv.1 = true) (list_segs seg_leaves l i)) as E by (apply E; lia).
    clear - IH H0 H2. induction IH as [|x l Hx _ IH]; intros i Hi Hl; simpl; [done|].
    simpl in *. bool_to_prop. apply Forall_app. split; [|apply IH; done || lia].
    apply Forall_map. eapply Forall_impl; [by apply Hx|]. intros [segs y] Hg. simpl in *.
    rewrite index_good_seg by (unfold INT_MAX in *; lia). done.
  - simpl. clear H H1. induction IH as [|[k x] m Hx _ IH]; simpl; [done|].
    simpl in *. unfold good_key in *. bool_to_prop. apply Forall_app. split; [|by apply IH].
    apply Forall_map. eapply Forall_impl; [by apply Hx|]. intros [segs y] Hg. simpl in *.
    rewrite Hg. by rewrite andb_true_r.
Qed.

Lemma seg_leaves_rooted v : is_container v = true -> Forall (fun sv => sv.1 <> []) (seg_leaves v).
Proof.
  destruct v as [| | | | | | | | | | | |l|m|]; try done; intros _; simpl.
  - generalize 0. induction l as [|x l IH]; intros i; simpl; [done|].
    apply Forall_app. split; [|done]. apply Forall_map, Forall_true. done.
  - induction m as [|[k x] m IH]; simpl; [done|].
    apply Forall_app. split; [|done]. apply Forall_map, Forall_true. done.
Qed.

(** Consuming the joined keys is consuming the segments. *)
Lemma Unflatten_segs L : forall slot,
  Forall (fun sv => sv.1 <> []) L -> Forall (fun sv => forallb good_seg sv.1 = true) L ->
  Unflatten slot (map (key_of "") L) = fold_left put L slot.
Proof.
  unfold Unflatten. induction L as [|[segs x] L IH]; intros slot Hr Hg; [done|].
  inverts Hr. inverts Hg. simpl in *. rewrite IH by done. f_equal.
  destruct segs; [done|]. unfold key_of, put; cbn [fst snd].
  by rewrite str_app_nil_l, walkParts_join.
Qed.

Lemma unflatten_flatten v :
  is_container v = true -> tail_nested v = true -> rebuildable v = true -> lists_small v = true ->
  Unflatten VInvalid (Flatten [] v) = v.
Proof.
  intros Hc Ht Hr Hs. unfold Flatten. rewrite flatten_leaves_path, app_nil_l, leaves_segs by done.
  rewrite Unflatten_segs; auto using seg_leaves_rooted, seg_leaves_good, puts_rebuild.
Qed.

(** *** [MergePatch] *)
Section merge_lemmas.
Context {O : QVariantOps}.

Lemma MergePatch_map out m diff :
  MergePatch out (VMap m) diff =
    let '(o, d, n) := merge_entries MergePatch m (as_map out) (as_map <$> diff) 0%nat in
    (VMap o, VMap <$> d, n).
Proof. done. Qed.
Lemma MergePatch_leaf out v diff :
  (match v with VMap _ => False | _ => True end) ->
  MergePatch out v diff = if qeq out v then (out, diff, 0%nat) else (v, (fun _ => v) <$> diff, 1%nat).
Proof. by destruct v. Qed.

Definition merged out patch := (MergePatch out patch None).1.1.
Definition merge_count out patch := (MergePatch out patch None).2.

(** The diff out-parameter does not influence the result. *)
Lemma MergePatch_diff_indep patch : forall out d,
  (MergePatch out patch d).1.1 = merged out patch
  /\ (MergePatch out patch d).2 = merge_count out patch.
Proof.
  unfold merged, merge_count.
  induction patch as [v Hv|l IH|m IH] using QVar_tree_ind; intros out d.
  - rewrite !MergePatch_leaf by (by destruct v). by destruct (qeq _ _).
  - rewrite !MergePatch_leaf by done. by destruct (qeq _ _).
  - rewrite !MergePatch_map. cbn [fmap option_fmap option_map].
    generalize (as_map <$> d), (@None (list (string * QVar))), (as_map out), 0%nat.
    induction IH as [|[k x] m Hx _ IH]; intros d1 d2 o n; [done|].
    cbn [merge_entries]. simpl in Hx. destruct (isValid x); [|by destruct (bool_decide _); apply IH].
    specialize (Hx (qm_get VInvalid k o)).
    pose proof (Hx (qm_get VInvalid k <$> d1)) as [E1 N1].
    pose proof (Hx (qm_get VInvalid k <$> d2)) as [E2 N2].
    destruct (MergePatch _ x (qm_get VInvalid k <$> d1)) as [[s1 ?] c1].
    destruct (MergePatch _ x (qm_get VInvalid k <$> d2)) as [[s2 ?] c2]. simpl in *.
    rewrite E1, E2, N1, N2. apply IH.
Qed.

(** What a patch entry makes of the slot it addresses. *)
Definition merge_slot (pv tv : option QVar) : option QVar :=
  match pv with
  | None => tv
  | Some v => if isValid v then Some (merged (default VInvalid tv) v) else None
  end.
Definition diff_slot (pv tv : option QVar) (dv : QVar) : QVar :=
  match pv with
  | None => dv
  | Some v =>
      if isValid v then default VInvalid (MergePatch (default VInvalid tv) v (Some dv)).1.2
      else if bool_decide (tv = None) then dv else VInvalid
  end.

Lemma merge_entries_cons k v m o d n :
  exists o' d' n', merge_entries MergePatch ((k, v) :: m) o d n = merge_entries MergePatch m o' d' n'
    /\ qm_find k o' = merge_slot (Some v) (qm_find k o)
    /\ (forall j, k <> j -> qm_find j o' = qm_find j o)
    /\ (qm_sorted o = true -> qm_sorted o' = true)
    /\ d' = (fun dm => qm_insert k (diff_slot (Some v) (qm_find k o) (qm_get VInvalid k dm)) dm) <$> d
    /\ n' = (n + if isValid v then merge_count (qm_get VInvalid k o) v else 0)%nat.
Proof.
  cbn [merge_entries]. destruct (isValid v) eqn:Hv.
  - pose proof (MergePatch_diff_indep v (qm_get VInvalid k o) (qm_get VInvalid k <$> d)) as [E N].
    destruct (MergePatch _ v _) as [[s dv] c] eqn:Em. do 3 eexists. split; [done|].
    simpl in E, N. subst s c. unfold merge_slot, diff_slot. rewrite Hv.
    split_and!; auto using qm_find_insert_eq, qm_find_insert_ne with rad.
    destruct d as [dm|]; simpl in *; [|done]. unfold qm_get in *. by rewrite Em.
  - unfold merge_slot, diff_slot. rewrite Hv. case_bool_decide as Ek; do 3 eexists; (split; [done|]).
    + split_and!; auto with rad. by destruct d.
    + split_and!; auto using qm_find_erase_eq, qm_find_erase_ne with rad.
Qed.

Lemma merge_entries_spec m : qm_sorted m = true -> forall o d n,
  let '(o', d', _) := merge_entries MergePatch m o d n in
  (forall k, qm_find k o' = merge_slot (qm_find k m) (qm_find k o))
  /\ (qm_sorted o = true -> qm_sorted o' = true)
  /\ (forall dm, d = Some dm -> exists dm', d' = Some dm' /\
       forall k, qm_get VInvalid k dm' = diff_slot (qm_find k m) (qm_find k o) (qm_get VInvalid k dm)
                 /\ (is_Some (qm_find k m) -> is_Some (qm_find k dm'))
                 /\ (qm_find k m = None -> qm_find k dm' = qm_find k dm)).
Proof.
  induction m as [|[k v] m IH]; intros Hs o d n.
  { simpl. split_and!; [done|done|]. intros dm ->. exists dm. split; [done|]. intros j.
    split_and!; [done|by intros []|done]. }
  simpl in Hs. apply andb_true_iff in Hs as [Ha Hs].
  destruct (merge_entries_cons k v m o d n) as (o1 & d1 & n1 & -> & Hk & Hj & Hso & Hd & _).
  specialize (IH Hs o1 d1 n1). destruct (merge_entries MergePatch m o1 d1 n1) as [[o' d'] n'].
  destruct IH as (IHf & IHs & IHd). pose proof (qm_above_find k m Ha) as Hnone. split_and!.
  - intros j. rewrite IHf. simpl. case_bool_decide as E.
    + subst. by rewrite Hnone, Hk.
    + by rewrite Hj by done.
  - auto.
  - intros dm ->. cbn [fmap option_fmap option_map] in Hd.
    destruct (IHd _ Hd) as (dm' & -> & Hdm). exists dm'. split; [done|].
    intros j. destruct (Hdm j) as (G & S & N). cbn [qm_find].
    destruct (decide (j = k)) as [->|E];
      [rewrite bool_decide_eq_true_2 by done|rewrite bool_decide_eq_false_2 by done].
    + split_and!.
      * rewrite G, Hnone. unfold qm_get at 1. by rewrite qm_find_insert_eq.
      * rewrite N by done. rewrite qm_find_insert_eq. eauto.
      * done.
    + split_and!.
      * rewrite G, Hj by done. f_equal. unfold qm_get. by rewrite qm_find_insert_ne.
      * done.
      * intros Hn. rewrite N by done. by apply qm_find_insert_ne.
Qed.

Lemma merged_map out m : qm_sorted m = true -> exists o,
  merged out (VMap m) = VMap o /\
  (forall k, qm_find k o = merge_slot (qm_find k m) (qm_find k (as_map out))) /\
  (qm_sorted (as_map out) = true -> qm_sorted o = true).
Proof.
  intros Hs. unfold merged. rewrite MergePatch_map.
  pose proof (merge_entries_spec m Hs (as_map out) (as_map <$> None) 0) as H.
  destruct (merge_entries _ _ _ _ _) as [[o d] n]. exists o. naive_solver.
Qed.

(** Every valid leaf of a patch compares equal to itself (fails for NaN). *)
Fixpoint leaves_reflexive (v : QVar) : bool :=
  match v with
  | VMap m => forallb (fun kv => negb (isValid kv.2) || leaves_reflexive kv.2) m
  | _ => qeq v v
  end.

Definition slot_settled (o : list (string * QVar)) (kv : string * QVar) : Prop :=
  if isValid kv.2
  then exists s, qm_find kv.1 o = Some s /\ merged s kv.2 = s /\ merge_count s kv.2 = 0%nat
  else qm_find kv.1 o = None.

Lemma merge_entries_settled m o : qm_sorted o = true -> Forall (slot_settled o) m ->
  forall n, merge_entries MergePatch m o None n = (o, None, n).
Proof.
  intros Hs. induction 1 as [|[k v] m Hk _ IH]; intros n; [done|].
  cbn [merge_entries]. unfold slot_settled in Hk; simpl in Hk. destruct (isValid v).
  - destruct Hk as (s & Hf & Hm & Hc). unfold qm_get. rewrite Hf. simpl.
    unfold merged, merge_count in *. destruct (MergePatch s v None) as [[? ?] ?]. simpl in *. subst.
    rewrite qm_insert_id, Nat.add_0_r by done. apply IH.
  - rewrite bool_decide_eq_true_2 by done. apply IH.
Qed.

Lemma wf_slot m k : qvar_wf (VMap m) = true -> qvar_wf (default VInvalid (qm_find k m)) = true.
Proof.
  simpl. rewrite andb_true_iff. intros [_ H]. destruct (qm_find k m) eqn:E; [|done].
  apply qm_find_elem, list_elem_of_In in E. by apply (proj1 (forallb_forall _ _) H _ E).
Qed.
Lemma wf_as_map v : qvar_wf v = true -> qvar_wf (VMap (as_map v)) = true.
Proof. by destruct v. Qed.

Lemma merged_settled p : qvar_wf p = true -> leaves_reflexive p = true ->
  forall out, qvar_wf out = true ->
  merged (merged out p) p = merged out p /\ merge_count (merged out p) p = 0%nat.
Proof.
  induction p as [v Hv|l IH|m IH] using QVar_tree_ind; intros Hw Hr out Ho.
  { unfold merged, merge_count. rewrite !(MergePatch_leaf out) by (by destruct v).
    assert (qeq v v = true) as Hvv by (by destruct v).
    destruct (qeq out v) eqn:E; cbn [fst snd]; rewrite MergePatch_leaf by (by destruct v);
      by rewrite ?E, ?Hvv. }
  { unfold merged, merge_count. simpl in *. destruct (qeq out (VList l)) eqn:E; simpl;
      [by rewrite E|by rewrite Hr]. }
  simpl in Hw, Hr. apply andb_true_iff in Hw as [Hs Hw].
  pose proof (wf_as_map _ Ho) as Hom.
  assert (qm_sorted (as_map out) = true) as Hos by (simpl in Hom; by bool_to_prop).
  destruct (merged_map out m Hs) as (o & -> & Hf & Hso). specialize (Hso Hos).
  assert (Forall (slot_settled o) m) as Hset.
  { apply Forall_forall. intros [k v] Hin. rewrite Forall_forall in IH.
    pose proof (qm_elem_find k v m Hs Hin) as Hk. pose proof Hin as Hin'. apply list_elem_of_In in Hin'.
    pose proof (proj1 (forallb_forall _ _) Hw _ Hin') as Hwv.
    pose proof (proj1 (forallb_forall _ _) Hr _ Hin') as Hrv. simpl in *.
    unfold slot_settled. simpl. rewrite Hf, Hk. simpl. destruct (isValid v); [|done].
    eexists. split; [done|]. apply (IH _ Hin); simpl; try done. by apply wf_slot. }
  unfold merged, merge_count. rewrite MergePatch_map. cbn [as_map fmap option_fmap option_map].
  by rewrite merge_entries_settled.
Qed.
End merge_lemmas.

(** * Properties *)

(** [Flatten] pushes every leaf of a message under the colon-joined path of
    its ancestors, in key order, whenever only the last element of each
    container is itself a container. *)
Theorem Flatten_leaves out v :
  tail_nested v = true -> lists_small v = true -> Flatten out v = out ++ leaves "" v.
Proof. intros Ht Hs. unfold Flatten. by apply flatten_leaves_path. Qed.

Definition sample_nested : QVar :=
  VMap [("flag", VBool true); ("pump", VMap [("speed", VInt 7); ("z", VList [VInt 1; VInt 2])])].

Lemma Flatten_leaves_witness :
  Flatten [] sample_nested
  = [("flag", VBool true); ("pump:speed", VInt 7); ("pump:z:[0]", VInt 1); ("pump:z:[1]", VInt 2)].
Proof. rewrite (Flatten_leaves [] sample_nested); vm_compute; reflexivity. Defined.

(** After a nested container [Flatten] gives the next sibling a wrong key:
    the leaf that follows a nested map is named by its own key preceded by the
    first character of the nested map's path, whatever the keys and values are. *)
Theorem Flatten_sibling_after_container k1 k k2 x y :
  is_container x = false -> is_container y = false ->
  Flatten [] (VMap [(k1, VMap [(k, x)]); (k2, y)])
  = [(k1 +:+ ":" +:+ k, x); (str_take 1 (k1 +:+ ":") +:+ k2, y)]
  /\ str_take 1 (k1 +:+ ":") +:+ k2 <> k2.
Proof.
  intros Hx Hy. split.
  - unfold Flatten. cbn [flatten flatten_map]. rewrite flatten_leaf, leaf_cut by done.
    cbv beta iota zeta. rewrite str_app_nil_l, flatten_leaf by done. simpl fst. simpl snd.
    replace (String.length (k1 +:+ ":") + 1 - String.length (k1 +:+ ":"))%nat with 1%nat by lia.
    rewrite (str_resize_shrink _ 1) by (rewrite str_length_app; simpl; lia).
    by rewrite !str_app_assoc, !pop_back_snoc.
  - intros E. apply (f_equal String.length) in E.
    rewrite str_length_app, str_take_length in E by (rewrite str_length_app; simpl; lia). lia.
Qed.
Lemma Flatten_sibling_after_container_witness :
  Flatten [] (VMap [("a", VMap [("b", VInt 1)]); ("c", VInt 2)]) = [("a:b", VInt 1); ("ac", VInt 2)].
Proof.
  exact (proj1 (Flatten_sibling_after_container "a" "b" "c" (VInt 1) (VInt 2) eq_refl eq_refl)).
Defined.

(** C2: flattening a map or list and unflattening the result into an invalid variant
    rebuilds the message, for the messages that can come back: every nested map or list
    is the last element of the one it is in ([tail_nested]; for a container with
    anything after it [Flatten] runs the names together, as
    [Flatten_sibling_after_container] shows), no map or list in it is empty, no key is
    empty, contains a colon or reads as an index "[n]", maps are in the order of a QMap,
    and no list has more than INT_MAX elements. *)
Theorem Unflatten_Flatten v :
  is_container v = true -> tail_nested v = true -> rebuildable v = true -> lists_small v = true ->
  Unflatten VInvalid (Flatten [] v) = v.
Proof. apply unflatten_flatten. Qed.
Lemma Unflatten_Flatten_witness : Unflatten VInvalid (Flatten [] sample_nested) = sample_nested.
Proof. apply (Unflatten_Flatten sample_nested); vm_compute; reflexivity. Defined.

Section merge_properties.
Context {O : QVariantOps}.

(** C8: [MergePatch] with a map is a JSON merge patch, slot by slot: keys the
    patch does not name are kept, an invalid value erases its key, a valid
    one is merged into the slot; the result is ordered again. *)
Theorem MergePatch_slots out m diff :
  qm_sorted m = true -> qm_sorted (as_map out) = true ->
  exists o, (MergePatch out (VMap m) diff).1.1 = VMap o /\ qm_sorted o = true /\
    forall k, qm_find k o =
      match qm_find k m with
      | None => qm_find k (as_map out)
      | Some v => if isValid v
                  then Some (MergePatch (default VInvalid (qm_find k (as_map out))) v None).1.1
                  else None
      end.
Proof.
  intros Hm Ho. destruct (merged_map out m Hm) as (o & E & Hf & Hs). exists o.
  rewrite (proj1 (MergePatch_diff_indep (VMap m) out diff)). auto.
Qed.

(** Applying the same patch a second time changes nothing and reports no
    change, when the leaves of the patch compare equal to themselves. *)
Theorem MergePatch_idempotent out p :
  qvar_wf out = true -> qvar_wf p = true -> leaves_reflexive p = true ->
  let out' := (MergePatch out p None).1.1 in
  MergePatch out' p None = (out', (MergePatch out' p None).1.2, 0%nat).
Proof.
  intros Ho Hp Hr. destruct (merged_settled p Hp Hr out Ho) as [E N].
  unfold merged, merge_count in *. cbv zeta.
  destruct (MergePatch (MergePatch out p None).1.1 p None) as [[? ?] ?]. simpl in *. by subst.
Qed.

(** The reported diff names every key of the patch: a leaf that did not
    change is reported as an invalid value, the same value that stands for
    a deletion. *)
Theorem MergePatch_diff_unchanged out m k v :
  qm_sorted m = true -> qm_find k m = Some v -> isValid v = true ->
  (match v with VMap _ => False | _ => True end) ->
  qeq (qm_get VInvalid k (as_map out)) v = true ->
  exists d, (MergePatch out (VMap m) (Some VInvalid)).1.2 = Some (VMap d)
            /\ qm_find k d = Some VInvalid.
Proof.
  intros Hm Hk Hv Hleaf Heq. rewrite MergePatch_map.
  pose proof (merge_entries_spec m Hm (as_map out) (as_map <$> Some VInvalid) 0) as H.
  destruct (merge_entries _ _ _ _ _) as [[o d] n]. destruct H as (_ & _ & H).
  destruct (H [] eq_refl) as (d' & -> & Hd). exists d'. split; [done|].
  destruct (Hd k) as (G & S & _). destruct (S ltac:(by rewrite Hk)) as [w Hw].
  unfold qm_get in G at 1. rewrite Hw, Hk in G. unfold diff_slot in G. rewrite Hv in G.
  rewrite MergePatch_leaf in G by done. unfold qm_get in Heq. rewrite Heq in G.
  simpl in G. by rewrite Hw, G.
Qed.

(** A patch that only erases keys is applied but reported as no change. *)
Theorem MergePatch_erase_uncounted out m diff :
  Forall (fun kv => kv.2 = VInvalid) m ->
  (MergePatch out (VMap m) diff).2 = 0%nat.
Proof.
  intros Hm. rewrite MergePatch_map. generalize (as_map out), (as_map <$> diff).
  induction Hm as [|[k v] m Hv _ IH]; intros o d; [done|]. simpl in Hv. subst v.
  cbn [merge_entries isValid]. destruct (bool_decide _); apply IH.
Qed.
End merge_properties.

Lemma MergePatch_slots_witness :
  exists o, (@MergePatch simple_ops (VMap [("a", VInt 1); ("b", VInt 2)])
               (VMap [("b", VInvalid); ("c", VMap [("x", VInt 3)])]) None).1.1 = VMap o
    /\ qm_find "b" o = None /\ qm_find "a" o = Some (VInt 1).
Proof.
  destruct (@MergePatch_slots simple_ops (VMap [("a", VInt 1); ("b", VInt 2)])
    [("b", VInvalid); ("c", VMap [("x", VInt 3)])] None eq_refl eq_refl) as (o & E & _ & H).
  exists o. split; [exact E|]. rewrite !H. split; reflexivity.
Defined.
Lemma MergePatch_idempotent_witness :
  let p := VMap [("b", VInvalid); ("c", VInt 3)] in
  @MergePatch simple_ops (VMap [("a", VInt 1); ("c", VInt 3)]) p None
  = (VMap [("a", VInt 1); ("c", VInt 3)], None, 0%nat).
Proof.
  exact (@MergePatch_idempotent simple_ops (VMap [("a", VInt 1); ("b", VInt 2)])
           (VMap [("b", VInvalid); ("c", VInt 3)]) eq_refl eq_refl eq_refl).
Defined.
Lemma MergePatch_diff_unchanged_witness :
  exists d, (@MergePatch simple_ops (VMap [("a", VInt 1); ("b", VInt 2)])
      (VMap [("a", VInt 1); ("b", VInt 5)]) (Some VInvalid)).1.2 = Some (VMap d)
    /\ qm_find "a" d = Some VInvalid.
Proof.
  exact (@MergePatch_diff_unchanged simple_ops (VMap [("a", VInt 1); ("b", VInt 2)])
    [("a", VInt 1); ("b", VInt 5)] "a" (VInt 1) eq_refl eq_refl eq_refl I eq_refl).
Defined.
Lemma MergePatch_erase_uncounted_witness :
  @MergePatch simple_ops (VMap [("a", VInt 1)]) (VMap [("a", VInvalid)]) None = (VMap [], None, 0%nat).
Proof.
  pose proof (@MergePatch_erase_uncounted simple_ops (VMap [("a", VInt 1)]) [("a", VInvalid)] None) as H.
  specialize (H ltac:(repeat constructor)). exact (f_equal (pair (VMap [], None)) H).
Defined.
