(* ===== verification/Framing.v ===== *)
(** * Stream framing, abstractly

    The serial, standard-input and local-socket workers all accumulate received
    bytes in a buffer and cut complete frames off its front.  This file states
    what such a cutter must promise ([Framing]) and derives, once, that the cut
    terminates and that the messages do not depend on how the stream was split
    into reads. *)
From S2P Require Import Prelude.

Class Framing {A} (step : list Z -> option (A * list Z)) : Prop := {
  step_shrinks : forall buf a rest, step buf = Some (a, rest) -> (length rest < length buf)%nat;
  step_mono : forall buf a rest more, step buf = Some (a, rest) -> step (buf ++ more) = Some (a, rest ++ more)
}.

Section drain.
Context {A : Type} (step : list Z -> option (A * list Z)).

(** Cut frames until the buffer holds no complete one; [None] when the fuel
    runs out. *)
Fixpoint drain (fuel : nat) (buf : list Z) : option (list A * list Z) :=
  match fuel with
  | O => None
  | S fuel =>
      match step buf with
      | None => Some ([], buf)
      | Some (a, rest) =>
          match drain fuel rest with
          | Some (out, tail) => Some (a :: out, tail)
          | None => None
          end
      end
  end.

Lemma drain_S n buf : drain (S n) buf =
  match step buf with
  | None => Some ([], buf)
  | Some (a, rest) =>
      match drain n rest with Some (out, tail) => Some (a :: out, tail) | None => None end
  end.
Proof. done. Qed.
Definition drain_all (buf : list Z) : option (list A * list Z) := drain (S (length buf)) buf.

(** Feeding a sequence of reads, as the [readyRead] handlers do. *)
Fixpoint feed (buf : list Z) (reads : list (list Z)) : option (list A * list Z) :=
  match reads with
  | [] => Some ([], buf)
  | chunk :: reads' =>
      match drain_all (buf ++ chunk) with
      | None => None
      | Some (out, tail) =>
          match feed tail reads' with
          | None => None
          | Some (out', tail') => Some (out ++ out', tail')
          end
      end
  end.

Context `{!Framing step}.

Lemma drain_enough buf : forall n, (length buf < n)%nat -> exists r, drain n buf = Some r.
Proof.
  induction buf as [buf IH] using (induction_ltof1 _ (@length Z)). unfold ltof in IH.
  intros [|n] Hn; [lia|]. simpl. destruct (step buf) as [[a rest]|] eqn:E; [|eauto].
  pose proof (step_shrinks _ _ _ E). destruct (IH rest ltac:(done) n ltac:(lia)) as [[out l] ->]. eauto.
Qed.
Lemma drain_fuel_irrel n : forall buf m r, drain n buf = Some r -> (n <= m)%nat -> drain m buf = Some r.
Proof.
  induction n as [|n IH]; intros buf [|m] r; simpl; try done; try lia.
  destruct (step buf) as [[a rest]|]; [|done].
  destruct (drain n rest) as [[out l]|] eqn:E; [|done]. intros Hr Hm.
  by rewrite (IH rest m (out, l)) by (done || lia).
Qed.
(** Nothing complete is left behind. *)
Lemma drain_left n : forall buf out l, drain n buf = Some (out, l) -> step l = None.
Proof.
  induction n as [|n IH]; intros buf out l; simpl; [done|].
  destruct (step buf) as [[a rest]|] eqn:E; [|by intros [= <- <-]].
  destruct (drain n rest) as [[out' l']|] eqn:Ed; [|done]. intros [= <- <-]. eauto.
Qed.

Lemma drain_app n buf out l more m : drain n buf = Some (out, l) ->
  forall out' l', drain m (l ++ more) = Some (out', l') ->
  drain (n + m) (buf ++ more) = Some (out ++ out', l').
Proof.
  revert buf out l. induction n as [|n IH]; intros buf out l; simpl; [done|].
  destruct (step buf) as [[a rest]|] eqn:E.
  - destruct (drain n rest) as [[o1 l1]|] eqn:Ed; [|done]. intros [= <- <-] out' l' Hm.
    rewrite (step_mono _ _ _ more E). by rewrite (IH _ _ _ Ed _ _ Hm).
  - intros [= <- <-] out' l' Hm. apply (drain_fuel_irrel m _ (S (n + m)) _ Hm). lia.
Qed.

Lemma drain_all_total buf : exists r, drain_all buf = Some r.
Proof. apply drain_enough. lia. Qed.
Lemma drain_all_any n buf r : drain n buf = Some r -> drain_all buf = Some r.
Proof.
  intros E. destruct (drain_all_total buf) as [r' E']. unfold drain_all in *.
  pose proof (drain_fuel_irrel _ _ (n + S (length buf)) _ E ltac:(lia)).
  pose proof (drain_fuel_irrel _ _ (n + S (length buf)) _ E' ltac:(lia)). congruence.
Qed.
Lemma drain_all_app buf out l more out' l' :
  drain_all buf = Some (out, l) -> drain_all (l ++ more) = Some (out', l') ->
  drain_all (buf ++ more) = Some (out ++ out', l').
Proof. intros E E'. eapply drain_all_any, drain_app; [exact E|exact E']. Qed.

(** The whole stream at once gives the same messages and the same rest as any
    split of it into reads. *)
Lemma feed_concat reads : forall buf,
  step buf = None -> feed buf reads = drain_all (buf ++ concat reads).
Proof.
  induction reads as [|c reads IH]; intros buf Hb; cbn [feed concat].
  { rewrite app_nil_r. unfold drain_all; simpl. by rewrite Hb. }
  destruct (drain_all_total (buf ++ c)) as [[out l] E]. rewrite E, (IH l).
  - destruct (drain_all_total (l ++ concat reads)) as [[o2 l2] E2]. rewrite E2, app_assoc.
    symmetry. by apply (drain_all_app _ _ _ _ _ _ E).
  - by eapply drain_left.
Qed.

(** A stream made of whole frames is cut into exactly those frames. *)
Lemma drain_frames {B} (enc : B -> list Z) (dec : B -> A) (P : B -> Prop)
  (Henc : forall b more, P b -> step (enc b ++ more) = Some (dec b, more)) bs :
  Forall P bs -> step [] = None -> drain_all (concat (map enc bs)) = Some (map dec bs, []).
Proof.
  intros HP Hnil. assert (drain (S (length bs)) (concat (map enc bs)) = Some (map dec bs, [])) as E.
  { induction HP as [|b bs Hb _ IH]; [simpl; by rewrite Hnil|].
    cbn [map concat length]. by rewrite drain_S, Henc, IH. }
  by eapply drain_all_any.
Qed.
End drain.
