(* ===== verification/Slip.v ===== *)
(** * SLIP escaping ([src/workers/slipa.hpp])

    [slipa::Write] hands the escaped message to its callback piece by piece;
    [slipa::Read] undoes it on one frame.  Both are modelled with the list of
    pieces the callback receives, in order. *)
From S2P Require Import Prelude.

Definition ESC : Z := 0xDB.
Definition END : Z := 0xC0.
Definition ESC_ESC : Z := 0xDD.
Definition ESC_END : Z := 0xDC.

(** ** [slipa::Write]

    [inp] and [collected] are the C++ cursor [in - msg.data()] and the length of
    the run not yet committed. *)
Definition commit (msg : list Z) (inp collected : nat) : list (list Z) :=
  if bool_decide (collected = 0)%nat then [] else [take collected (drop inp msg)].

Fixpoint write_loop (msg rest : list Z) (inp collected : nat) : list (list Z) :=
  match rest with
  | [] => commit msg inp collected
  | ch :: rest =>
      if ch =? ESC then
        commit msg inp collected ++ [ESC; ESC_ESC] :: write_loop msg rest (S (inp + collected)) 0
      else if ch =? END then
        commit msg inp collected ++ [ESC; ESC_END] :: write_loop msg rest (S (inp + collected)) 0
      else write_loop msg rest inp (S collected)
  end.
Definition Write (msg : list Z) : list (list Z) := write_loop msg msg 0 0.

(** ** [slipa::Read] *)
Inductive ReadErrors := NoError | UnterminatedEscape | InvalidEscape.
#[export] Instance ReadErrors_eq_dec : EqDecision ReadErrors.
Proof. solve_decision. Defined.

(** The [while (pos < msg.size())] loop; [None] when the fuel runs out. *)
Fixpoint read_loop (fuel : nat) (msg : list Z) (pos : nat) : option (list (list Z) * ReadErrors) :=
  match fuel with
  | O => None
  | S fuel =>
      if bool_decide (pos < length msg)%nat then
        match index_of ESC (drop pos msg) with
        | None => Some ([drop pos msg], NoError)
        | Some off =>
            let next := (pos + off)%nat in
            if bool_decide (next = length msg - 1)%nat then Some ([], UnterminatedEscape)
            else
              let before := if bool_decide (pos = next) then []
                            else [take (next - pos) (drop pos msg)] in
              let escaped := nth (S next) msg 0 in
              let continue piece :=
                match read_loop fuel msg (next + 2) with
                | Some (out, err) => Some (before ++ [piece] ++ out, err)
                | None => None
                end in
              if escaped =? ESC_END then continue [END]
              else if escaped =? ESC_ESC then continue [ESC]
              else Some (before, InvalidEscape)
        end
      else Some ([], NoError)
  end.
Definition strip_end (msg : list Z) : list Z :=
  if bool_decide (last msg = Some END) then take (length msg - 1) msg else msg.
(** Each iteration advances [pos]: one more than the length is enough fuel
    ([Read_reads]). *)
Definition Read (msg : list Z) : option (list (list Z) * ReadErrors) :=
  let msg := strip_end msg in read_loop (S (length msg)) msg 0.

(** ** What the bytes on the wire are *)
Definition escape_byte (b : Z) : list Z :=
  if b =? ESC then [ESC; ESC_ESC] else if b =? END then [ESC; ESC_END] else [b].
Definition escape (msg : list Z) : list Z := concat (map escape_byte msg).

Lemma commit_concat msg inp n : concat (commit msg inp n) = take n (drop inp msg).
Proof. unfold commit. case_bool_decide; [by subst|]. simpl. apply app_nil_r. Qed.

Lemma escape_plain l : mem_byte ESC l = false -> mem_byte END l = false -> escape l = l.
Proof.
  unfold escape. induction l as [|b l IH]; simpl; [done|].
  rewrite !orb_false_iff. intros [E1 H1] [E2 H2]. unfold escape_byte at 1.
  by rewrite E1, E2, IH.
Qed.
Lemma escape_app a b : escape (a ++ b) = escape a ++ escape b.
Proof. unfold escape. by rewrite map_app, concat_app. Qed.

Lemma write_loop_concat msg rest : forall inp collected,
  drop (inp + collected) msg = rest -> (inp + collected <= length msg)%nat ->
  concat (write_loop msg rest inp collected) = take collected (drop inp msg) ++ escape rest.
Proof.
  induction rest as [|ch rest IH]; intros inp n Hd Hl; simpl.
  { by rewrite commit_concat, app_nil_r. }
  assert (inp + n < length msg)%nat as Hlt.
  { apply (f_equal length) in Hd. rewrite length_drop in Hd. simpl in Hd. lia. }
  assert (drop (S (inp + n)) msg = rest) as Hd'.
  { replace (S (inp + n)) with (inp + n + 1)%nat by lia. by rewrite <- drop_drop, Hd. }
  assert (forall t, concat (commit msg inp n ++ t :: write_loop msg rest (S (inp + n)) 0)
                    = take n (drop inp msg) ++ t ++ escape rest) as Hesc.
  { intros t. rewrite concat_app, commit_concat. simpl. f_equal. f_equal.
    by rewrite IH by (rewrite Nat.add_0_r; done || lia). }
  change (escape (ch :: rest)) with (escape_byte ch ++ escape rest). unfold escape_byte.
  destruct (ch =? ESC); [apply Hesc|]. destruct (ch =? END); [apply Hesc|].
  rewrite IH by (rewrite <- plus_n_Sm; done || lia).
  rewrite (take_S_r _ _ ch); [by rewrite <- app_assoc|].
  rewrite lookup_drop, <- (Nat.add_0_r (inp + n)), <- lookup_drop, Hd. done.
Qed.
Lemma Write_escape msg : concat (Write msg) = escape msg.
Proof. unfold Write. by rewrite write_loop_concat by (simpl; lia || done). Qed.

Lemma escape_no_END msg : mem_byte END (escape msg) = false.
Proof.
  unfold escape. induction msg as [|b msg IH]; simpl; [done|].
  rewrite mem_byte_app, IH, orb_false_r. unfold escape_byte.
  destruct (b =? ESC) eqn:E1; [done|]. destruct (b =? END) eqn:E2; [done|]. simpl. by rewrite E2.
Qed.

(** ** Reference decoder *)
Fixpoint unescape (l : list Z) : option (list Z) :=
  match l with
  | [] => Some []
  | b :: l' =>
      if b =? ESC then
        match l' with
        | [] => None
        | e :: r => if e =? ESC_END then cons END <$> unescape r
                    else if e =? ESC_ESC then cons ESC <$> unescape r else None
        end
      else cons b <$> unescape l'
  end.

Lemma unescape_escape msg : unescape (escape msg) = Some msg.
Proof.
  unfold escape. induction msg as [|b msg IH]; [done|]. simpl. unfold escape_byte at 1.
  destruct (b =? ESC) eqn:E1; [apply Z.eqb_eq in E1; subst; simpl; by rewrite IH|].
  destruct (b =? END) eqn:E2; [apply Z.eqb_eq in E2; subst; simpl; by rewrite IH|].
  simpl. by rewrite E1, IH.
Qed.

Lemma unescape_prefix p r : mem_byte ESC p = false -> unescape (p ++ r) = app p <$> unescape r.
Proof.
  induction p as [|b p IH]; simpl; [by destruct (unescape r)|].
  intros [E Hp]%orb_false_iff. rewrite E, IH by done. by destruct (unescape r).
Qed.
Lemma unescape_plain l : mem_byte ESC l = false -> unescape l = Some l.
Proof. intros H. rewrite <- (app_nil_r l), unescape_prefix by done. simpl. by rewrite app_nil_r. Qed.

(** What [read_loop] promises of the bytes it starts at. *)
Definition reads (l : list Z) (r : list (list Z) * ReadErrors) : Prop :=
  if decide (r.2 = NoError) then unescape l = Some (concat r.1) else unescape l = None.

Lemma reads_step l p e r t res :
  l = p ++ ESC :: e :: r -> mem_byte ESC p = false ->
  (e = ESC_END /\ t = END \/ e = ESC_ESC /\ t = ESC) -> reads r res ->
  reads l ((if bool_decide (p = []) then [] else [p]) ++ [[t]] ++ res.1, res.2).
Proof.
  intros -> Hp He Hr. unfold reads in *. simpl in *. rewrite unescape_prefix by done.
  assert (unescape (ESC :: e :: r) = cons t <$> unescape r) as -> by (destruct He as [[-> ->]|[-> ->]]; done).
  case_decide; rewrite Hr; [|done]. simpl. f_equal.
  case_bool_decide; [by subst|]. simpl. done.
Qed.

Lemma read_loop_reads fuel msg : forall pos, (length msg - pos < fuel)%nat ->
  exists r, read_loop fuel msg pos = Some r /\ reads (drop pos msg) r.
Proof.
  induction fuel as [|fuel IH]; intros pos Hf; [lia|]. cbn [read_loop].
  case_bool_decide as Hpos; [|eexists; split; [done|]; rewrite drop_ge by lia; done].
  pose proof (length_drop msg pos) as Hlen.
  destruct (index_of ESC (drop pos msg)) as [off|] eqn:Hidx; cycle 1.
  { eexists; split; [done|]. unfold reads. simpl. rewrite app_nil_r. by apply unescape_plain, index_of_None. }
  apply index_of_Some in Hidx as (Heq & Hno & Hoff). set (l := drop pos msg) in *.
  set (p := take off l) in *. assert (length p = off) as Hp by (apply length_take_le; lia).
  destruct (drop (S off) l) as [|e r] eqn:Hr.
  - (* the escape is the last byte *)
    apply (f_equal length) in Hr. rewrite length_drop in Hr. simpl in Hr.
    rewrite bool_decide_eq_true_2 by lia. eexists; split; [done|]. unfold reads; simpl.
    by rewrite Heq, unescape_prefix.
  - assert (off + 2 + length r = length l)%nat as Hll.
    { apply (f_equal length) in Hr. rewrite length_drop in Hr. simpl in Hr. lia. }
    rewrite bool_decide_eq_false_2 by lia.
    assert (nth (S (pos + off)) msg 0 = e) as ->.
    { replace (S (pos + off)) with (pos + S off)%nat by lia.
      rewrite <- nth_skipn. change (skipn pos msg) with l.
      rewrite <- (Nat.add_0_r (S off)), <- nth_skipn. change (skipn (S off) l) with (drop (S off) l).
      by rewrite Hr. }
    assert (drop (pos + off + 2) msg = r) as Hdr.
    { replace (pos + off + 2)%nat with (pos + (S off + 1))%nat by lia.
      rewrite <- !drop_drop. fold l. by rewrite Hr. }
    replace (pos + off - pos)%nat with off by lia. fold p.
    assert ((if bool_decide (pos = (pos + off)%nat) then [] else [p]) = (if bool_decide (p = []) then [] else [p])) as ->.
    { destruct p eqn:Ep; simpl in Hp; [rewrite !bool_decide_eq_true_2 by (done || lia)|
        rewrite !bool_decide_eq_false_2 by (done || lia)]; done. }
    destruct (IH (pos + off + 2)%nat ltac:(lia)) as ([out err] & -> & Hread). rewrite Hdr in Hread.
    destruct (e =? ESC_END) eqn:E1; [apply Z.eqb_eq in E1|destruct (e =? ESC_ESC) eqn:E2; [apply Z.eqb_eq in E2|]].
    + eexists; split; [done|]. by apply (reads_step l p e r END (out, err)); [..|left|].
    + eexists; split; [done|]. by apply (reads_step l p e r ESC (out, err)); [..|right|].
    + eexists; split; [done|]. unfold reads; simpl. rewrite Heq, unescape_prefix by done.
      simpl. by rewrite E1, E2.
Qed.

Lemma Read_reads msg : exists r, Read msg = Some r /\ reads (strip_end msg) r.
Proof. unfold Read. apply (read_loop_reads _ _ 0). lia. Qed.

Lemma strip_end_plain msg : mem_byte END msg = false -> strip_end msg = msg.
Proof.
  intros H. unfold strip_end. rewrite bool_decide_eq_false_2; [done|]. intros Hl.
  apply last_Some in Hl as [l' ->]. rewrite mem_byte_app in H. simpl in H. by rewrite orb_true_r in H.
Qed.
Lemma strip_end_snoc msg : strip_end (msg ++ [END]) = msg.
Proof.
  unfold strip_end. rewrite last_snoc, bool_decide_eq_true_2 by done.
  rewrite length_app. simpl. rewrite Nat.add_sub. apply take_app_length.
Qed.

(** Reading back what [Write] produced, with or without the final [END]. *)
Lemma Read_escape msg frame : strip_end frame = escape msg ->
  exists out, Read frame = Some (out, NoError) /\ concat out = msg.
Proof.
  intros Hf. destruct (Read_reads frame) as ([out err] & E & H). rewrite Hf in H.
  unfold reads in H. simpl in H. rewrite unescape_escape in H. case_decide; [|done].
  injection H as ->. subst err. eauto.
Qed.

(** * Properties *)

(** [slipa::Read] inverts [slipa::Write] on every byte string, and what
    [Write] emits never contains the frame delimiter. *)
Theorem Slip_roundtrip msg :
  mem_byte END (concat (Write msg)) = false /\
  (exists out, Read (concat (Write msg)) = Some (out, NoError) /\ concat out = msg) /\
  (exists out, Read (concat (Write msg) ++ [END]) = Some (out, NoError) /\ concat out = msg).
Proof.
  rewrite Write_escape. split_and!; [apply escape_no_END|..]; apply Read_escape.
  - apply strip_end_plain, escape_no_END.
  - apply strip_end_snoc.
Qed.

(** [slipa::Read] returns on every input (one iteration per byte at most), and
    accepts exactly the frames in which every [ESC] starts a valid escape
    sequence, returning their unescaped bytes. *)
Theorem Slip_read_decides frame :
  exists out err, Read frame = Some (out, err) /\
    (err = NoError -> unescape (strip_end frame) = Some (concat out)) /\
    (err <> NoError -> unescape (strip_end frame) = None).
Proof.
  destruct (Read_reads frame) as ([out err] & E & H). exists out, err. split; [done|].
  unfold reads in H. simpl in H. by case_decide.
Qed.

(** ** The copy of the microcontroller ([examples/demo/firmware/slipa.hpp])

    The firmware has [Write] over a pointer and a size.  [mem] is the memory from that
    pointer on, [None] a read past its end. *)
Module Embedded.
Definition commit (mem : list Z) (inp collected : nat) : option (list (list Z)) :=
  if bool_decide (collected = 0)%nat then Some []
  else if bool_decide (inp + collected <= length mem)%nat then Some [take collected (drop inp mem)] else None.
(** [turns] turns of [for (i < msg.size)] remain. *)
Fixpoint write_loop (turns : nat) (mem : list Z) (i inp collected : nat) : option (list (list Z)) :=
  match turns with
  | O => commit mem inp collected
  | S turns =>
      ch ← mem !! i;
      if ch =? ESC then
        run ← commit mem inp collected; rest ← write_loop turns mem (S i) (S (inp + collected)) 0;
        Some (run ++ [ESC; ESC_ESC] :: rest)
      else if ch =? END then
        run ← commit mem inp collected; rest ← write_loop turns mem (S i) (S (inp + collected)) 0;
        Some (run ++ [ESC; ESC_END] :: rest)
      else write_loop turns mem (S i) inp (S collected)
  end.
Definition Write (mem : list Z) (size : nat) : option (list (list Z)) := write_loop size mem 0 0 0.

Lemma commit_agrees mem size inp n : (size <= length mem)%nat -> (inp + n <= size)%nat ->
  commit mem inp n = Some (Slip.commit (take size mem) inp n).
Proof.
  intros Hs Hn. unfold commit, Slip.commit. case_bool_decide; [done|]. rewrite bool_decide_eq_true_2 by lia.
  replace size with (inp + (size - inp))%nat by lia. by rewrite <- take_drop_commute, take_take, Nat.min_l by lia.
Qed.
(** Both ends of the line escape alike: what the firmware writes is what the program would
    write for the same bytes, and nothing past the message is read. *)
Theorem Write_agrees mem size : (size <= length mem)%nat -> Write mem size = Some (Slip.Write (take size mem)).
Proof.
  intros Hs. unfold Write, Slip.Write.
  assert (forall turns i inp n, (i + turns = size)%nat -> (inp + n = i)%nat ->
    write_loop turns mem i inp n = Some (Slip.write_loop (take size mem) (drop i (take size mem)) inp n)) as G.
  { induction turns as [|turns IH]; intros i inp n Hi Hin; simpl.
    - rewrite drop_ge by (rewrite length_take; lia). apply commit_agrees; lia.
    - destruct (lookup_lt_is_Some_2 mem i ltac:(lia)) as [ch Hch]. rewrite Hch. simpl.
      assert (take size mem !! i = Some ch) as Ht by (rewrite lookup_take_lt by lia; done).
      rewrite (drop_S _ _ _ Ht). simpl. rewrite !(commit_agrees mem size), !IH by lia. simpl. subst i.
      by destruct (ch =? ESC), (ch =? END). }
  rewrite G by lia. by rewrite drop_0.
Qed.
Lemma Write_overruns mem size : (length mem < size)%nat -> Write mem size = None.
Proof.
  intros Hs. unfold Write.
  assert (forall turns i inp n, (i <= length mem)%nat -> (length mem < i + turns)%nat -> write_loop turns mem i inp n = None) as G; [|apply G; lia].
  induction turns as [|turns IH]; intros i inp n Hi Hl; [lia|]. simpl.
  destruct (mem !! i) as [ch|] eqn:E; [|done]. apply lookup_lt_Some in E. simpl. rewrite !IH by lia.
  destruct (ch =? ESC), (ch =? END), (commit mem inp n); done.
Qed.
End Embedded.
