(* ===== verification/BinaryWorker.v ===== *)
(** * Binary workers ([src/workers/binary_worker.hpp], [binary_worker.cpp],
      [serial/serial.cpp], [stdio/stdio.cpp])

    A binary worker frames and encodes messages over a byte stream.  The
    msgpack codec is a library ([json_view]): it is a parameter of the model. *)
From S2P Require Import Prelude QVariant Framing Slip.

(** ** Configuration *)
Inductive BinaryCrc := crc_modbus.
Inductive BinaryProtocol := proto_msgpack | proto_text.
Inductive BinaryFraming := framing_slip | framing_line.
Record BinaryConfig := {
  framing : BinaryFraming;
  protocol : BinaryProtocol;
  crc : option BinaryCrc
}.

(** The names each enum is described with: what a script may write. *)
Definition BinaryCrc_names : list (string * BinaryCrc) := [("msgpack", crc_modbus)].
Definition BinaryProtocol_names : list (string * BinaryProtocol) :=
  [("msgpack", proto_msgpack); ("text", proto_text)].
Definition BinaryFraming_names : list (string * BinaryFraming) :=
  [("slip", framing_slip); ("line", framing_line)].

(** ** Payload codecs *)
Definition ProtoParser : Type := list Z -> res QVar.
Definition ProtoDumper : Type := QVar -> res (list Z).

Section codecs.
(** [jv::ParseMsgPackInPlace] (value and bytes consumed) and [DumpMsgPackInto]. *)
Context (ParseMsgPack : list Z -> res (QVar * nat)) (DumpMsgPack : QVar -> list Z).

Definition parseMsgpackProto : ProtoParser := fun frame =>
  let* r := ParseMsgPack frame in
  if bool_decide (r.2 <> length frame)%nat then Raise "Not whole msgpack consumed" else Ok r.1.
Definition dumpMsgpackProto : ProtoDumper := fun msg => Ok (DumpMsgPack msg).
End codecs.

Definition parseTextProto : ProtoParser := fun frame => Ok (VString (string_of_bytes frame)).
Definition dumpTextProto : ProtoDumper := fun msg =>
  match msg with
  | VString s => Ok (bytes_of_string s)
  | _ => Raise "protocol text sends strings only"
  end.

(** ** [CRC16_Modbus]

    [None] is a read outside [wCRCTable].  [sgn] tells whether [char] is signed
    on the target; a negative [char] converts to a huge [unsigned]. *)
Definition wCRCTable : list Z := [
  0x0000; 0xC0C1; 0xC181; 0x0140; 0xC301; 0x03C0; 0x0280; 0xC241;
  0xC601; 0x06C0; 0x0780; 0xC741; 0x0500; 0xC5C1; 0xC481; 0x0440;
  0xCC01; 0x0CC0; 0x0D80; 0xCD41; 0x0F00; 0xCFC1; 0xCE81; 0x0E40;
  0x0A00; 0xCAC1; 0xCB81; 0x0B40; 0xC901; 0x09C0; 0x0880; 0xC841;
  0xD801; 0x18C0; 0x1980; 0xD941; 0x1B00; 0xDBC1; 0xDA81; 0x1A40;
  0x1E00; 0xDEC1; 0xDF81; 0x1F40; 0xDD01; 0x1DC0; 0x1C80; 0xDC41;
  0x1400; 0xD4C1; 0xD581; 0x1540; 0xD701; 0x17C0; 0x1680; 0xD641;
  0xD201; 0x12C0; 0x1380; 0xD341; 0x1100; 0xD1C1; 0xD081; 0x1040;
  0xF001; 0x30C0; 0x3180; 0xF141; 0x3300; 0xF3C1; 0xF281; 0x3240;
  0x3600; 0xF6C1; 0xF781; 0x3740; 0xF501; 0x35C0; 0x3480; 0xF441;
  0x3C00; 0xFCC1; 0xFD81; 0x3D40; 0xFF01; 0x3FC0; 0x3E80; 0xFE41;
  0xFA01; 0x3AC0; 0x3B80; 0xFB41; 0x3900; 0xF9C1; 0xF881; 0x3840;
  0x2800; 0xE8C1; 0xE981; 0x2940; 0xEB01; 0x2BC0; 0x2A80; 0xEA41;
  0xEE01; 0x2EC0; 0x2F80; 0xEF41; 0x2D00; 0xEDC1; 0xEC81; 0x2C40;
  0xE401; 0x24C0; 0x2580; 0xE541; 0x2700; 0xE7C1; 0xE681; 0x2640;
  0x2200; 0xE2C1; 0xE381; 0x2340; 0xE101; 0x21C0; 0x2080; 0xE041;
  0xA001; 0x60C0; 0x6180; 0xA141; 0x6300; 0xA3C1; 0xA281; 0x6240;
  0x6600; 0xA6C1; 0xA781; 0x6740; 0xA501; 0x65C0; 0x6480; 0xA441;
  0x6C00; 0xACC1; 0xAD81; 0x6D40; 0xAF01; 0x6FC0; 0x6E80; 0xAE41;
  0xAA01; 0x6AC0; 0x6B80; 0xAB41; 0x6900; 0xA9C1; 0xA881; 0x6840;
  0x7800; 0xB8C1; 0xB981; 0x7940; 0xBB01; 0x7BC0; 0x7A80; 0xBA41;
  0xBE01; 0x7EC0; 0x7F80; 0xBF41; 0x7D00; 0xBDC1; 0xBC81; 0x7C40;
  0xB401; 0x74C0; 0x7580; 0xB541; 0x7700; 0xB7C1; 0xB681; 0x7640;
  0x7200; 0xB2C1; 0xB381; 0x7340; 0xB101; 0x71C0; 0x7080; 0xB041;
  0x5000; 0x90C1; 0x9181; 0x5140; 0x9301; 0x53C0; 0x5280; 0x9241;
  0x9601; 0x56C0; 0x5780; 0x9741; 0x5500; 0x95C1; 0x9481; 0x5440;
  0x9C01; 0x5CC0; 0x5D80; 0x9D41; 0x5F00; 0x9FC1; 0x9E81; 0x5E40;
  0x5A00; 0x9AC1; 0x9B81; 0x5B40; 0x9901; 0x59C0; 0x5880; 0x9841;
  0x8801; 0x48C0; 0x4980; 0x8941; 0x4B00; 0x8BC1; 0x8A81; 0x4A40;
  0x4E00; 0x8EC1; 0x8F81; 0x4F40; 0x8D01; 0x4DC0; 0x4C80; 0x8C41;
  0x4400; 0x84C1; 0x8581; 0x4540; 0x8701; 0x47C0; 0x4680; 0x8641;
  0x8201; 0x42C0; 0x4380; 0x8341; 0x4100; 0x81C1; 0x8081; 0x4040].

Definition char_to_unsigned (sgn : bool) (b : Z) : Z :=
  if (sgn && (128 <=? b))%bool then wrapu 32 (b - 256) else b.

Definition table_at (i : Z) : option Z :=
  if ((0 <=? i) && (i <? Z.of_nat (length wCRCTable)))%bool then wCRCTable !! Z.to_nat i else None.

Fixpoint crc_loop (sgn : bool) (nData : list Z) (wCRCWord : Z) : option Z :=
  match nData with
  | [] => Some wCRCWord
  | c :: nData =>
      let nTemp := Z.lxor (char_to_unsigned sgn c) wCRCWord in
      match table_at nTemp with
      | Some t => crc_loop sgn nData (Z.lxor (Z.shiftr wCRCWord 8) t)
      | None => None
      end
  end.
Definition CRC16_Modbus (sgn : bool) (data : list Z) : option Z :=
  wrapu 16 <$> crc_loop sgn data 0xFFFF.

(** ** Frame parsers

    A frames parser consumes complete frames from the shared receive buffer.
    The result is what the C++ function returns or throws, the buffer as it is
    left, and the errors logged on the way. *)
Definition Parsed : Type := res (list QVar) * list Z * list string.
Definition FramesParser : Type := list Z -> ProtoParser -> Parsed.

Definition slip_frame (fromProto : ProtoParser) (src : list Z) : res QVar :=
  match Read src with
  | Some (out, NoError) => fromProto (concat out)
  | Some (_, UnterminatedEscape) => Raise "Error unpacking SLIP frame: Unterminated ESC"
  | Some (_, InvalidEscape) => Raise "Error unpacking SLIP frame: Invalid ESC"
  | None => Raise "unreachable"
  end.

Fixpoint slip_frames_loop (fuel : nat) (buffer : list Z) (fromProto : ProtoParser)
    (result : list QVar) (log : list string) : Parsed :=
  match fuel with
  | O => (Ok result, buffer, log)
  | S fuel =>
      match index_of END buffer with
      | None => (Ok result, buffer, log)
      | Some end_ =>
          let buffer' := drop (S end_) buffer in
          match slip_frame fromProto (take end_ buffer) with
          | Ok v => slip_frames_loop fuel buffer' fromProto (result ++ [v]) log
          | Raise e => slip_frames_loop fuel buffer' fromProto result (log ++ [e])
          end
      end
  end.
(** Every iteration removes at least the delimiter. *)
Definition parseSlipFrames : FramesParser := fun buffer fromProto =>
  slip_frames_loop (S (length buffer)) buffer fromProto [] [].

Definition MAX_LINE_BYTES : Z := 4096.
Definition NL : Z := 10.
Definition CR : Z := 13.
Definition chop_cr (line : list Z) : list Z :=
  if bool_decide (last line = Some CR) then take (length line - 1) line else line.

(** An exception of the payload parser is not caught here: it loses the
    messages of this call, the consumed bytes stay consumed. *)
Fixpoint line_frames_loop (fuel : nat) (buffer : list Z) (fromProto : ProtoParser)
    (result : list QVar) : Parsed :=
  match fuel with
  | O => (Ok result, buffer, [])
  | S fuel =>
      match index_of NL buffer with
      | None =>
          if MAX_LINE_BYTES <? Z.of_nat (length buffer)
          then (Ok result, [], ["Dropping bytes without a line terminator"])
          else (Ok result, buffer, [])
      | Some end_ =>
          let line := chop_cr (take end_ buffer) in
          let buffer' := drop (S end_) buffer in
          match fromProto line with
          | Ok v => line_frames_loop fuel buffer' fromProto (result ++ [v])
          | Raise e => (Raise e, buffer', [])
          end
      end
  end.
Definition parseLineFrames : FramesParser := fun buffer fromProto =>
  line_frames_loop (S (length buffer)) buffer fromProto [].

(** ** Frame dumpers *)
Definition FramesDumper : Type := QVar -> ProtoDumper -> BinaryConfig -> res (list Z).

(** [None] from the checksum is undefined behaviour in the source; the model
    raises. The two checksum bytes are appended in host (little-endian) order. *)
Definition dumpSlipFrames (sgn : bool) : FramesDumper := fun msg intoProto config =>
  let* wrapped := intoProto msg in
  let* wrapped :=
    match crc config with
    | None => Ok wrapped
    | Some crc_modbus =>
        match CRC16_Modbus sgn wrapped with
        | Some c => Ok (wrapped ++ [Z.land c 255; Z.shiftr c 8])
        | None => Raise "undefined behaviour: table index out of range"
        end
    end in
  Ok (concat (Write wrapped) ++ [END]).

Definition dumpLineFrames : FramesDumper := fun msg intoProto _ =>
  let* wrapped := intoProto msg in
  if mem_byte NL wrapped then Raise "line framing cannot send a payload with a newline in it"
  else Ok (wrapped ++ [NL]).

(** ** The worker *)
Section worker.
Context (ParseMsgPack : list Z -> res (QVar * nat)) (DumpMsgPack : QVar -> list Z) (sgn : bool).

Definition framesParser (c : BinaryConfig) : FramesParser :=
  match framing c with framing_slip => parseSlipFrames | framing_line => parseLineFrames end.
Definition framesDumper (c : BinaryConfig) : FramesDumper :=
  match framing c with framing_slip => dumpSlipFrames sgn | framing_line => dumpLineFrames end.
Definition protoParser (c : BinaryConfig) : ProtoParser :=
  match protocol c with
  | proto_msgpack => parseMsgpackProto ParseMsgPack
  | proto_text => parseTextProto
  end.
Definition protoDumper (c : BinaryConfig) : ProtoDumper :=
  match protocol c with proto_msgpack => dumpMsgpackProto DumpMsgPack | proto_text => dumpTextProto end.

(** The messages emitted ([SendMsg]) are the [Ok] payload. *)
Definition ReceiveBinary (c : BinaryConfig) (buffer : list Z) : Parsed :=
  framesParser c buffer (protoParser c).
(** The bytes handed to [SendBinary]. *)
Definition OnMsg (c : BinaryConfig) (msg : QVar) : res (list Z) :=
  framesDumper c msg (protoDumper c) c.

(** [SerialWorker]'s [readyRead] handler: its buffer and the bytes read. *)
Definition serial_readyRead (c : BinaryConfig) (buffer received : list Z) : Parsed :=
  ReceiveBinary c (buffer ++ received).

(** [StdioWorker::doRead] on the outcome of one [read]. *)
Inductive StdioRead := Read_bytes (b : list Z) | Read_eof | Read_error.
Record StdioState := { stdio_buffer : list Z; stdio_enabled : bool }.
Inductive StdioEffect := Emit_msgs (l : list QVar) | Throw (e : string) | Emit_closed | Logged (l : list string).
Definition doRead (c : BinaryConfig) (st : StdioState) (n : StdioRead) : StdioState * list StdioEffect :=
  match n with
  | Read_bytes b =>
      let '(r, buffer, log) := ReceiveBinary c (stdio_buffer st ++ b) in
      ({| stdio_buffer := buffer; stdio_enabled := stdio_enabled st |},
       Logged log :: match r with Ok l => [Emit_msgs l] | Raise e => [Throw e] end)
  | Read_eof => ({| stdio_buffer := stdio_buffer st; stdio_enabled := false |},
                 [Logged ["stdin closed"]; Emit_closed])
  | Read_error => ({| stdio_buffer := stdio_buffer st; stdio_enabled := false |},
                   [Logged ["stdin read error"]])
  end.
End worker.

(** ** Lemmas *)

(** The intended table: one step of the reflected polynomial [0xA001] per bit. *)
Definition crc_bit (c : Z) : Z :=
  if Z.odd c then Z.lxor (Z.shiftr c 1) 0xA001 else Z.shiftr c 1.
Definition crc_entry (i : Z) : Z := Nat.iter 8 crc_bit i.

Lemma byte_cases (P : Z -> bool) :
  forallb P (seqZ 0 256) = true -> forall b, is_byte b = true -> P b = true.
Proof.
  intros H b Hb. apply (proj1 (forallb_forall _ _) H b), list_elem_of_In, elem_of_seqZ.
  unfold is_byte in Hb. bool_to_prop. lia.
Qed.

Lemma crc_first_index sgn b : is_byte b = true ->
  table_at (Z.lxor (char_to_unsigned sgn b) 0xFFFF) = None.
Proof.
  intros Hb. pose proof (byte_cases (fun b =>
    (256 <=? Z.lxor (char_to_unsigned true b) 0xFFFF)
    && (256 <=? Z.lxor (char_to_unsigned false b) 0xFFFF))%bool) as H.
  specialize (H ltac:(vm_compute; reflexivity) b Hb). simpl in H. bool_to_prop.
  unfold table_at. change (Z.of_nat (length wCRCTable)) with 256.
  rewrite (proj2 (Z.ltb_ge _ 256)) by (by destruct sgn). by rewrite andb_false_r.
Qed.

Section slip.
Context (fromProto : ProtoParser).
Definition slip_step (buf : list Z) : option (res QVar * list Z) :=
  match index_of END buf with
  | None => None
  | Some e => Some (slip_frame fromProto (take e buf), drop (S e) buf)
  end.
#[export] Instance slip_framing : Framing slip_step.
Proof.
  split; unfold slip_step; intros buf a rest.
  - destruct (index_of END buf) as [e|] eqn:E; [|done]. intros [= _ <-].
    apply index_of_Some in E as (_ & _ & H). rewrite length_drop. lia.
  - intros more. destruct (index_of END buf) as [e|] eqn:E; [|done]. intros [= <- <-].
    rewrite (index_of_app_Some _ _ _ _ E). apply index_of_Some in E as (_ & _ & H).
    by rewrite take_app_le, drop_app_le by lia.
Qed.

Definition oks (rs : list (res QVar)) : list QVar :=
  flat_map (fun r => match r with Ok v => [v] | Raise _ => [] end) rs.
Definition errors (rs : list (res QVar)) : list string :=
  flat_map (fun r => match r with Ok _ => [] | Raise e => [e] end) rs.

Lemma slip_loop_drain fuel : forall buf result log rs rest,
  drain slip_step fuel buf = Some (rs, rest) ->
  slip_frames_loop fuel buf fromProto result log
  = (Ok (result ++ oks rs), rest, log ++ errors rs).
Proof.
  induction fuel as [|fuel IH]; intros buf result log rs rest; [done|].
  simpl. unfold slip_step at 1. destruct (index_of END buf) as [e|].
  - destruct (drain _ fuel _) as [[rs' rest']|] eqn:E; [|done]. intros [= <- <-].
    destruct (slip_frame fromProto (take e buf)); rewrite (IH _ _ _ _ _ E); simpl;
      by rewrite <- app_assoc.
  - intros [= <- <-]. by rewrite !app_nil_r.
Qed.
Lemma parseSlipFrames_drain buf : exists rs rest,
  drain_all slip_step buf = Some (rs, rest) /\
  parseSlipFrames buf fromProto = (Ok (oks rs), rest, errors rs).
Proof.
  destruct (drain_all_total slip_step buf) as [[rs rest] E]. exists rs, rest.
  split; [done|]. unfold parseSlipFrames. by rewrite (slip_loop_drain _ _ _ _ _ _ E).
Qed.

(** One whole frame, as the dumper emits it. *)
Lemma slip_step_frame payload more :
  slip_step (concat (Write payload) ++ [END] ++ more) = Some (fromProto payload, more).
Proof.
  unfold slip_step. rewrite Write_escape. simpl.
  rewrite index_of_app_None by apply escape_no_END.
  rewrite take_app_length. replace (S (length (escape payload))) with (length (escape payload) + 1)%nat by lia.
  rewrite drop_app_add. simpl. rewrite drop_0. unfold slip_frame.
  destruct (Read_escape payload (escape payload)) as (out & -> & <-); [|done].
  apply strip_end_plain, escape_no_END.
Qed.
End slip.

(** Successive [readyRead] events of one worker: messages, buffer and log. *)
Section reads.
Context (handler : list Z -> list Z -> Parsed).
Fixpoint receive_all (buffer : list Z) (reads : list (list Z)) : Parsed :=
  match reads with
  | [] => (Ok [], buffer, [])
  | chunk :: reads' =>
      let '(r, buffer, log) := handler buffer chunk in
      let '(r', buffer', log') := receive_all buffer reads' in
      (let* a := r in let* b := r' in Ok (a ++ b), buffer', log ++ log')
  end.
End reads.

Lemma slip_reads fromProto reads : forall buf rs rest,
  feed (slip_step fromProto) buf reads = Some (rs, rest) ->
  receive_all (fun buffer chunk => parseSlipFrames (buffer ++ chunk) fromProto) buf reads
  = (Ok (oks rs), rest, errors rs).
Proof.
  induction reads as [|c reads IH]; intros buf rs rest; cbn [feed receive_all].
  { by intros [= <- <-]. }
  destruct (parseSlipFrames_drain fromProto (buf ++ c)) as (rs1 & rest1 & -> & ->).
  destruct (feed _ rest1 reads) as [[rs2 rest2]|] eqn:E; [|done]. intros [= <- <-].
  rewrite (IH _ _ _ E). simpl. unfold oks, errors. by rewrite !flat_map_app.
Qed.

Lemma oks_map_ok (vs : list QVar) : oks (map Ok vs) = vs /\ errors (map Ok vs) = [].
Proof. induction vs as [|v vs [IH1 IH2]]; [done|]. simpl. by rewrite IH1. Qed.

(** *** Line frames *)
Lemma line_loop_bound fuel : forall buf fromProto result,
  (length buf < fuel)%nat ->
  match line_frames_loop fuel buf fromProto result with
  | (Ok _, rest, _) => Z.of_nat (length rest) <= MAX_LINE_BYTES /\ index_of NL rest = None
  | _ => True
  end.
Proof.
  induction fuel as [|fuel IH]; intros buf fromProto result Hf; [lia|]. simpl.
  destruct (index_of NL buf) as [e|] eqn:E.
  - apply index_of_Some in E as (_ & _ & H). destruct (fromProto _); [|done].
    apply IH. rewrite length_drop. lia.
  - destruct (Z.ltb_spec MAX_LINE_BYTES (Z.of_nat (length buf))); [done|]. split; [lia|done].
Qed.

Lemma line_loop_frame fuel line more fromProto result v :
  mem_byte NL line = false -> fromProto (chop_cr line) = Ok v ->
  line_frames_loop (S fuel) (line ++ NL :: more) fromProto result
  = line_frames_loop fuel more fromProto (result ++ [v]).
Proof.
  intros Hno Hv. simpl. rewrite index_of_app_None by done. rewrite take_app_length, Hv.
  replace (S (length line)) with (length line + 1)%nat by lia.
  rewrite drop_app_add. simpl. by rewrite drop_0.
Qed.
Lemma chop_cr_snoc l : chop_cr (l ++ [CR]) = l.
Proof.
  unfold chop_cr. rewrite last_snoc, bool_decide_eq_true_2 by done.
  rewrite length_app. simpl. rewrite Nat.add_sub. apply take_app_length.
Qed.
Lemma chop_cr_id l : last l <> Some CR -> chop_cr l = l.
Proof. intros H. unfold chop_cr. by rewrite bool_decide_eq_false_2. Qed.

Lemma line_frames_lines lines : forall fuel,
  (length lines < fuel)%nat ->
  Forall (fun l => mem_byte NL l = false /\ last l <> Some CR) lines -> forall result,
  line_frames_loop fuel (concat (map (fun l => l ++ [NL]) lines)) parseTextProto result
  = (Ok (result ++ map (fun l => VString (string_of_bytes l)) lines), [], []).
Proof.
  induction lines as [|l lines IH]; intros [|fuel] Hf Hl result; simpl in Hf; try lia.
  { simpl. by rewrite app_nil_r. }
  inverts Hl. destruct H1 as [Hno Hcr]. cbn [map concat]. rewrite <- app_assoc. cbn [app].
  rewrite (line_loop_frame fuel l _ _ _ (VString (string_of_bytes l)))
    by (done || by rewrite chop_cr_id).
  rewrite IH by (done || lia). by rewrite <- app_assoc.
Qed.

(** * Properties *)

(** C27: every message a SLIP worker without a checksum (no [crc] configured) frames is
    recovered by a SLIP worker: the bytes of any sequence of messages, concatenated,
    parse back to exactly that sequence with nothing left in the buffer and nothing
    logged, for every payload codec that reads back what it writes. With a checksum this
    does not hold: the table of the checksum is read past its end, see
    [crc_table_overrun]. *)
Theorem slip_stream_roundtrip sgn intoProto fromProto config (msgs : list (QVar * list Z)) :
  crc config = None ->
  Forall (fun mb => intoProto mb.1 = Ok mb.2 /\ fromProto mb.2 = Ok mb.1) msgs ->
  exists stream,
    res_map (fun mb => dumpSlipFrames sgn mb.1 intoProto config) msgs = Ok stream /\
    parseSlipFrames (concat stream) fromProto = (Ok (map fst msgs), [], []).
Proof.
  intros Hcrc Hcodec. exists (map (fun mb => concat (Write mb.2) ++ [END]) msgs). split.
  - induction Hcodec as [|[m b] msgs [Hm _] _ IH]; [done|]. simpl in *.
    assert (dumpSlipFrames sgn m intoProto config = Ok (concat (Write b) ++ [END])) as ->
      by (unfold dumpSlipFrames; by rewrite Hm, Hcrc).
    by rewrite IH.
  - pose proof (drain_frames (slip_step fromProto)
      (fun mb : QVar * list Z => concat (Write mb.2) ++ [END]) (fun mb => Ok mb.1)
      (fun mb => fromProto mb.2 = Ok mb.1)) as Hd.
    destruct (parseSlipFrames_drain fromProto (concat (map (fun mb => concat (Write mb.2) ++ [END]) msgs)))
      as (rs & rest & E & ->).
    rewrite Hd in E; [|..|done].
    + injection E as <- <-. destruct (oks_map_ok (map fst msgs)) as [E1 E2].
      rewrite map_map in E1, E2. by rewrite E1, E2.
    + intros mb more Hmb. rewrite <- app_assoc, slip_step_frame. by rewrite Hmb.
    + eapply Forall_impl; [exact Hcodec|]. by intros ? [].
Qed.
Lemma slip_stream_roundtrip_witness :
  let c := {| framing := framing_slip; protocol := proto_text; crc := None |} in
  exists stream,
    res_map (fun mb => dumpSlipFrames true mb.1 dumpTextProto c)
      [(VString "ab", [97; 98]); (VString "", [])] = Ok stream /\
    parseSlipFrames (concat stream) parseTextProto = (Ok [VString "ab"; VString ""], [], []).
Proof.
  apply (slip_stream_roundtrip true dumpTextProto parseTextProto
    {| framing := framing_slip; protocol := proto_text; crc := None |}
    [(VString "ab", [97; 98]); (VString "", [])] eq_refl).
  repeat constructor.
Defined.

(** How the operating system splits the byte stream into reads is invisible
    to a SLIP worker: the messages, the rest in the buffer and the log are those
    of the whole stream in one read. *)
Theorem slip_reads_invisible fromProto reads :
  receive_all (fun buffer chunk => parseSlipFrames (buffer ++ chunk) fromProto) [] reads
  = parseSlipFrames (concat reads) fromProto.
Proof.
  pose proof (feed_concat (slip_step fromProto) reads [] eq_refl) as E. simpl in E.
  destruct (parseSlipFrames_drain fromProto (concat reads)) as (rs & rest & Hd & ->).
  rewrite Hd in E. by apply slip_reads.
Qed.

(** The line codec round-trips text payloads without a newline that do not
    end in a carriage return, refuses a newline, and strips one final carriage
    return of a payload that has one. *)
Theorem line_text_roundtrip config lines :
  Forall (fun s => mem_byte NL (bytes_of_string s) = false /\ last (bytes_of_string s) <> Some CR) lines ->
  (exists stream,
    res_map (fun s => dumpLineFrames (VString s) dumpTextProto config) lines = Ok stream /\
    parseLineFrames (concat stream) parseTextProto = (Ok (map VString lines), [], [])) /\
  (forall s, is_ok (dumpLineFrames (VString s) dumpTextProto config)
             = negb (mem_byte NL (bytes_of_string s))) /\
  (forall b, mem_byte NL b = false ->
     parseLineFrames (b ++ [CR; NL]) parseTextProto = (Ok [VString (string_of_bytes b)], [], [])).
Proof.
  intros Hl. split_and!.
  - exists (map (fun l => l ++ [NL]) (map bytes_of_string lines)). split.
    + induction Hl as [|s lines [Hno _] _ IH]; [done|]. simpl.
      unfold dumpLineFrames at 1. simpl. rewrite Hno. simpl. by rewrite IH.
    + unfold parseLineFrames. rewrite line_frames_lines; simpl.
      * rewrite map_map. f_equal. f_equal. f_equal. apply map_ext. intros s.
        by rewrite string_of_bytes_of_string.
      * clear Hl. induction lines as [|s lines IH]; simpl; [lia|].
        rewrite length_app. simpl in *. rewrite length_map in *. rewrite length_app. simpl. lia.
      * by apply Forall_map.
  - intros s. unfold dumpLineFrames. simpl. by destruct (mem_byte NL _).
  - intros b Hb. unfold parseLineFrames. change [CR; NL] with ([CR] ++ NL :: []). rewrite app_assoc.
    rewrite (line_loop_frame _ (b ++ [CR]) [] _ [] (VString (string_of_bytes b))).
    + rewrite !length_app. simpl. replace (length b + 1 + 1)%nat with (S (length b + 1)) by lia. done.
    + by rewrite mem_byte_app, Hb.
    + by rewrite chop_cr_snoc.
Qed.
Lemma line_text_roundtrip_witness :
  parseLineFrames [97; 98; 13; 10] parseTextProto = (Ok [VString "ab"], [], [])
  /\ is_ok (dumpLineFrames (VString "ab") dumpTextProto (Build_BinaryConfig framing_line proto_text None)) = true.
Proof.
  destruct (line_text_roundtrip (Build_BinaryConfig framing_line proto_text None) ["ab"]) as (_ & H2 & H3).
  - repeat constructor; vm_compute; discriminate.
  - split; [exact (H3 [97; 98] eq_refl)|exact (H2 "ab")].
Defined.

(** Whatever arrives, a line worker that returns normally keeps at most
    [MAX_LINE_BYTES] bytes, none of them a newline. *)
Theorem line_buffer_bounded fromProto buffer received :
  match parseLineFrames (buffer ++ received) fromProto with
  | (Ok _, rest, _) => Z.of_nat (length rest) <= MAX_LINE_BYTES /\ index_of NL rest = None
  | _ => True
  end.
Proof. apply line_loop_bound. lia. Qed.

(** The checksum table is the reflected [0xA001] table, yet
    [CRC16_Modbus] reads outside it on the first byte of every non-empty
    payload, whether [char] is signed or not (the table index is not reduced to
    a byte). *)
Theorem crc_table_overrun :
  (forall i, 0 <= i < 256 -> table_at i = Some (crc_entry i)) /\
  (forall sgn b data, is_byte b = true -> CRC16_Modbus sgn (b :: data) = None).
Proof.
  split.
  - intros i Hi.
    pose proof (byte_cases (fun i => bool_decide (table_at i = Some (crc_entry i)))) as H.
    specialize (H ltac:(vm_compute; reflexivity) i). rewrite bool_decide_eq_true in H.
    apply H. unfold is_byte. by rewrite (proj2 (Z.leb_le _ _)), (proj2 (Z.ltb_lt _ _)) by lia.
  - intros sgn b data Hb. unfold CRC16_Modbus. cbn [crc_loop]. by rewrite crc_first_index.
Qed.
Lemma crc_table_overrun_witness : CRC16_Modbus true [1; 2] = None /\ table_at 1 = Some 0xC0C1.
Proof.
  split; [exact (proj2 crc_table_overrun true 1 [2] eq_refl)|].
  rewrite (proj1 crc_table_overrun 1); [reflexivity|lia].
Defined.
