(* ===== verification/Json.v ===== *)
(** * Conversion between [QVariant] and the JSON tree

    Models [jv::Convert<QVariant>] of src/src/builtin.hpp.  Every worker that
    speaks JSON or msgpack converts its messages with it: [DoIntoJson] on the
    way out, [DoFromJson] on the way in.  The tree [JsonView] and its text and
    binary codecs belong to the json_view submodule; the tree has one
    constructor per type tag [DoFromJson] switches on. *)
From S2P Require Import Prelude QVariant.

Inductive JsonView : Type :=
| t_null
| t_binary (b : list Z)
| t_boolean (b : bool)
| t_number (bits : Z)
| t_string (s : string)
| t_signed (z : Z)
| t_unsigned (z : Z)
| t_array (l : list JsonView)
| t_object (l : list (string * JsonView)).

(** [int(src)] of a size, cut at zero. *)
Definition intCut (src : nat) : nat := Z.to_nat (Z.max 0 (wraps 32 (Z.of_nat src))).
(** [unsigned(size)] as the number of elements copied. *)
Definition unsigned_count (n : nat) : nat := Z.to_nat (wrapu 32 (Z.of_nat n)).

Fixpoint DoIntoJson (value : QVar) : JsonView :=
  match value with
  | VMap m => t_object (take (unsigned_count (length m)) (map (fun kv => (kv.1, DoIntoJson kv.2)) m))
  | VList l => t_array (take (unsigned_count (length l)) (map DoIntoJson l))
  | VBool b => t_boolean b
  | VInt z => t_signed z
  | VUInt z => t_unsigned z
  | VULongLong z => t_unsigned z
  | VLongLong z => t_signed z
  | VDouble d => t_number d
  | VBytes b => t_binary (take (unsigned_count (length b)) b)
  | VChar s => t_string s
  | VString s => t_string (str_take (unsigned_count (String.length s)) s)
  | VStringList l => t_array (take (unsigned_count (length l)) (map t_string l))
  | _ => t_null
  end.

(** [Get<QVariant>] starts from an invalid value, which [t_null] leaves alone. *)
Fixpoint DoFromJson (json : JsonView) : res QVar :=
  match json with
  | t_binary bin => Ok (VBytes (take (intCut (length bin)) bin))
  | t_boolean b => Ok (VBool b)
  | t_number d => Ok (VDouble d)
  | t_string str => Ok (VString (str_take (intCut (String.length str)) str))
  | t_signed z => Ok (VLongLong z)
  | t_unsigned z => Ok (VULongLong z)
  | t_array src =>
      if INT_MAX <? Z.of_nat (length src) then Raise "List is too big for conversion from json"
      else
        let* l := (fix go src := match src with
                                 | [] => Ok []
                                 | x :: src' => let* y := DoFromJson x in let* ys := go src' in Ok (y :: ys)
                                 end) src in
        Ok (VList l)
  | t_object src =>
      let* m := (fix go src (acc : list (string * QVar)) :=
                   match src with
                   | [] => Ok acc
                   | (k, x) :: src' =>
                       let* v := DoFromJson x in
                       go src' (qm_insert (str_take (intCut (String.length k)) k) v acc)
                   end) src [] in
      Ok (VMap m)
  | t_null => Ok VInvalid
  end.

(** ** What survives a round trip *)

(** Sizes representable in an [int]. *)
Definition int_size (n : nat) : bool := Z.of_nat n <=? INT_MAX.
Fixpoint sizes_ok (v : QVar) : bool :=
  match v with
  | VMap m => (int_size (length m) &&
               forallb (fun kv => (int_size (String.length kv.1) && sizes_ok kv.2)%bool) m)%bool
  | VList l => (int_size (length l) && forallb sizes_ok l)%bool
  | VBytes b => int_size (length b)
  | VChar s | VString s => int_size (String.length s)
  | VStringList l => (int_size (length l) && forallb (fun s => int_size (String.length s)) l)%bool
  | _ => true
  end.

(** The value the other side sees: integers widened to 64 bits, characters and
    string lists unified with strings and lists, anything else null. *)
Fixpoint json_norm (v : QVar) : QVar :=
  match v with
  | VMap m => VMap (map (fun kv => (kv.1, json_norm kv.2)) m)
  | VList l => VList (map json_norm l)
  | VInt z => VLongLong z
  | VUInt z => VULongLong z
  | VChar s => VString s
  | VStringList l => VList (map VString l)
  | VFloat _ | VOpaque _ _ => VInvalid
  | _ => v
  end.

Lemma intCut_ok n : int_size n = true -> intCut n = n.
Proof.
  unfold int_size, intCut, INT_MAX. rewrite Z.leb_le. intros.
  rewrite wraps32_small by lia. rewrite Z.max_r by lia. apply Nat2Z.id.
Qed.
Lemma unsigned_count_ok n : int_size n = true -> unsigned_count n = n.
Proof.
  unfold int_size, unsigned_count, INT_MAX. rewrite Z.leb_le. intros.
  rewrite wrapu_small by lia. apply Nat2Z.id.
Qed.
Lemma take_map_count {A B} (f : A -> B) l :
  int_size (length l) = true -> take (unsigned_count (length l)) (map f l) = map f l.
Proof. intros H. rewrite unsigned_count_ok by done. by rewrite take_ge by (rewrite length_map; lia). Qed.

Lemma from_array (l : list JsonView) (vs : list QVar) :
  int_size (length l) = true -> Forall2 (fun j v => DoFromJson j = Ok v) l vs ->
  DoFromJson (t_array l) = Ok (VList vs).
Proof.
  intros Hsz H. cbn [DoFromJson]. unfold int_size in Hsz.
  rewrite (proj2 (Z.ltb_ge _ _)) by (by apply Z.leb_le). clear Hsz.
  match goal with |- (let* _ := ?f l in _) = _ => assert (f l = Ok vs) as -> end; [|done].
  induction H as [|j v l vs Hj _ IH]; [done|]. simpl. rewrite Hj. simpl. by rewrite IH.
Qed.
Lemma from_object (l : list (string * JsonView)) (m : list (string * QVar)) :
  qm_sorted m = true ->
  Forall2 (fun j v => j.1 = v.1 /\ int_size (String.length v.1) = true /\ DoFromJson j.2 = Ok v.2) l m ->
  DoFromJson (t_object l) = Ok (VMap m).
Proof.
  intros Hs H. cbn [DoFromJson].
  match goal with |- (let* _ := ?f l [] in _) = _ =>
    assert (forall acc, Forall (fun kv => qm_above kv.1 m = true) acc -> f l acc = Ok (acc ++ m)) as E end.
  { clear -Hs H. induction H as [|[k j] [k' v] l m (Hk & Hsz & Hj) _ IH]; intros acc Hacc; simpl in *.
    - by rewrite app_nil_r.
    - subst k'. apply andb_true_iff in Hs as [Ha Hs]. rewrite Hj. simpl.
      rewrite intCut_ok, str_take_all by done. rewrite qm_insert_last.
      + rewrite IH; [by rewrite <- app_assoc|done|]. apply Forall_app. split; [|by constructor].
        eapply Forall_impl; [exact Hacc|]. intros [? ?]; simpl. rewrite andb_true_iff. tauto.
      + clear -Hacc. induction Hacc as [|[a b] acc Hx _ IH]; [done|]. simpl in *.
        apply andb_true_iff in Hx as [-> _]. by rewrite IH. }
  rewrite E by constructor. done.
Qed.

Lemma json_roundtrip v : qvar_wf v = true -> sizes_ok v = true ->
  DoFromJson (DoIntoJson v) = Ok (json_norm v).
Proof.
  induction v as [v Hleaf|l IH|m IH] using QVar_tree_ind.
  - destruct v; try done; simpl; intros _ Hsz; try done.
    + by rewrite intCut_ok, str_take_all.
    + rewrite unsigned_count_ok, str_take_all by done. by rewrite intCut_ok, str_take_all.
    + rewrite unsigned_count_ok by done. rewrite (take_ge b (length b)) by lia.
      by rewrite intCut_ok, (take_ge b (length b)) by (done || lia).
    + apply andb_true_iff in Hsz as [Hl Hs]. rewrite take_map_count by done.
      apply from_array; [by rewrite length_map|]. clear Hl.
      induction l as [|s l IHl]; [constructor|]. simpl in Hs. apply andb_true_iff in Hs as [H1 H2].
      simpl. constructor; [simpl; by rewrite intCut_ok, str_take_all|auto].
  - simpl. intros Hwf [Hl Hs]%andb_true_iff. rewrite take_map_count by done.
    apply from_array; [by rewrite length_map|]. clear Hl.
    induction IH as [|x l Hx _ IH]; [constructor|]. simpl in *. bool_to_prop. constructor; auto.
  - cbn [qvar_wf sizes_ok DoIntoJson json_norm]. intros [Hsort Hwf]%andb_true_iff [Hl Hs]%andb_true_iff.
    rewrite take_map_count by done. apply from_object.
    + clear -Hsort. induction m as [|[k x] m IH]; [done|]. simpl in *.
      apply andb_true_iff in Hsort as [Ha Hs]. rewrite (IH Hs), andb_true_r. clear -Ha.
      induction m as [|[j y] m IH]; [done|]. simpl in *. by apply andb_true_iff in Ha as [-> ?]; rewrite IH.
    + clear Hl Hsort. induction IH as [|[k x] m Hx _ IH]; [constructor|]. simpl in *. bool_to_prop.
      constructor; [simpl; auto|auto].
Qed.

(** * Properties *)

(** A message that crosses a JSON or msgpack tree arrives as its normal form:
    the same shape and data, integers widened to 64 bits, string lists as lists;
    a value already in normal form arrives unchanged. *)
Theorem JsonView_roundtrip v :
  qvar_wf v = true -> sizes_ok v = true ->
  DoFromJson (DoIntoJson v) = Ok (json_norm v) /\ json_norm (json_norm v) = json_norm v.
Proof.
  intros Hwf Hsz. split; [by apply json_roundtrip|]. clear.
  induction v as [v Hleaf|l IH|m IH] using QVar_tree_ind.
  - destruct v; try done. simpl. by rewrite map_map.
  - simpl. f_equal. rewrite map_map. induction IH; [done|]. simpl. by f_equal.
  - simpl. f_equal. rewrite map_map. induction IH as [|[k x] m Hx _ IH]; [done|]. simpl in *. by rewrite Hx, IH.
Qed.
Lemma JsonView_roundtrip_witness :
  DoFromJson (DoIntoJson (VMap [("a", VInt 1); ("b", VList [VBool true])]))
  = Ok (VMap [("a", VLongLong 1); ("b", VList [VBool true])]).
Proof. exact (proj1 (JsonView_roundtrip (VMap [("a", VInt 1); ("b", VList [VBool true])]) eq_refl eq_refl)). Defined.

(** A single-precision number is not converted: whatever its bits, it
    becomes null in the tree and arrives as an invalid value, alone or inside a
    message. *)
Theorem JsonView_drops_float bits k :
  DoIntoJson (VFloat bits) = t_null /\
  (int_size (String.length k) = true ->
   DoFromJson (DoIntoJson (VMap [(k, VFloat bits)])) = Ok (VMap [(k, VInvalid)])).
Proof. split; [done|]. intros Hk. apply json_roundtrip; [done|]. simpl. by rewrite Hk. Qed.
Lemma JsonView_drops_float_witness :
  DoFromJson (DoIntoJson (VMap [("temperature", VFloat 0x41A00000)])) = Ok (VMap [("temperature", VInvalid)]).
Proof. exact (proj2 (JsonView_drops_float 0x41A00000 "temperature") eq_refl). Defined.
