(* ===== verification/Wire.v ===== *)
(** * The shared message codec and length-prefixed framing

    Models src/src/workers/wire.hpp: [Encode]/[Decode] of one message (JSON or
    msgpack, optionally zlib) and [Frame]/[DrainFrames], a four-byte big-endian
    length before each payload.  The codecs themselves and zlib are not under
    src/: they are the operations of [WireOps]. *)
From S2P Require Import Prelude QVariant Framing Json.

Class WireOps := {
  DumpJson : JsonView -> list Z;
  DumpMsgPack : JsonView -> list Z;
  ParseJson : list Z -> res JsonView;
  ParseMsgPack : list Z -> res JsonView;
  qCompress : list Z -> list Z;
  qUncompress : list Z -> list Z        (* empty on failure *)
}.

Inductive Protocol := proto_json | proto_msgpack.
Definition Protocol_names : list (string * Protocol) := [("json", proto_json); ("msgpack", proto_msgpack)].
Inductive Compression := zlib.
Definition Compression_names : list (string * Compression) := [("zlib", zlib)].

Section wire.
Context `{W : WireOps}.

Definition Encode (proto : Protocol) (comp : option Compression) (v : QVar) : list Z :=
  let j := DoIntoJson v in
  let out := match proto with proto_msgpack => DumpMsgPack j | proto_json => DumpJson j end in
  match comp with Some zlib => qCompress out | None => out end.

(** The exceptions inside [try] become [onError] and an invalid value; the
    conversion to [QVariant] is outside it. *)
Definition decode_view (proto : Protocol) (comp : option Compression) (msg : list Z) : res JsonView :=
  let* msg :=
    match msg with
    | [] => Raise "empty payload"
    | _ =>
        match comp with
        | Some zlib =>
            match qUncompress msg with
            | [] => Raise "could not uncompress (zlib)"
            | msg => Ok msg
            end
        | None => Ok msg
        end
    end in
  match proto with proto_msgpack => ParseMsgPack msg | proto_json => ParseJson msg end.
Definition Decode (proto : Protocol) (comp : option Compression) (msg : list Z)
    : res QVar * list string :=
  match decode_view proto comp msg with
  | Ok recv => (DoFromJson recv, [])
  | Raise e => (Ok VInvalid, [e])
  end.

Definition be32 (len : Z) : list Z :=
  [Z.land (Z.shiftr len 24) 255; Z.land (Z.shiftr len 16) 255;
   Z.land (Z.shiftr len 8) 255; Z.land len 255].
Definition Frame (proto : Protocol) (comp : option Compression) (v : QVar) : list Z :=
  let payload := Encode proto comp v in
  let len := wrapu 32 (Z.of_nat (length payload)) in
  be32 len ++ payload.

(** [QByteArray::mid] and [remove]: a negative length is "to the end" for
    [mid]; [remove] ignores a length that is not positive. *)
Definition mid (buf : list Z) (pos : nat) (len : Z) : list Z :=
  let rest := drop pos buf in
  if ((len <? 0) || (Z.of_nat (length rest) <? len))%bool then rest else take (Z.to_nat len) rest.
Definition remove0 (buf : list Z) (len : Z) : list Z :=
  if len <=? 0 then buf else drop (Z.to_nat len) buf.

Definition be32_read (buf : list Z) : option Z :=
  match buf with
  | b0 :: b1 :: b2 :: b3 :: _ =>
      Some (Z.lor (Z.lor (Z.lor (Z.shiftl b0 24) (Z.shiftl b1 16)) (Z.shiftl b2 8)) b3)
  | _ => None
  end.

(** One turn of the loop: the payload and what remains; all arithmetic on
    [quint32] wraps. *)
Definition drain_step (buf : list Z) : option (list Z * list Z) :=
  match be32_read buf with
  | None => None
  | Some len =>
      if wrapu 32 (Z.of_nat (length buf)) <? wrapu 32 (4 + len) then None
      else Some (mid buf 4 (wraps 32 len), remove0 buf (wraps 32 (wrapu 32 (4 + len))))
  end.

Inductive Drained := OnMsg (v : QVar) | OnError (e : string) | Thrown (e : string).
Definition deliver (proto : Protocol) (comp : option Compression) (payload : list Z) : list Drained :=
  let '(v, errs) := Decode proto comp payload in
  map OnError errs ++
  match v with
  | Ok v => if isValid v then [OnMsg v] else []
  | Raise e => [Thrown e]
  end.
Definition throws (l : list Drained) : bool :=
  existsb (fun d => match d with Thrown _ => true | _ => false end) l.

(** [None]: the fuel ran out. An exception leaves the frame consumed. *)
Fixpoint DrainFrames (fuel : nat) (buf : list Z) (proto : Protocol) (comp : option Compression)
    : option (list Drained * list Z) :=
  match fuel with
  | O => None
  | S fuel =>
      match drain_step buf with
      | None => Some ([], buf)
      | Some (payload, buf) =>
          let out := deliver proto comp payload in
          if throws out then Some (out, buf)
          else match DrainFrames fuel buf proto comp with
               | None => None
               | Some (out', buf) => Some (out ++ out', buf)
               end
      end
  end.
Definition drain_fuel (buf : list Z) : nat := S (length buf).

(** A [readyRead]: append what was read, drain. *)
Definition on_read (proto : Protocol) (comp : option Compression) (buf received : list Z)
    : option (list Drained * list Z) :=
  DrainFrames (drain_fuel (buf ++ received)) (buf ++ received) proto comp.
End wire.

(** What the framing relies on of the codecs and zlib, for the trees [J] the
    messages are converted to. *)
Class WireLaws (W : WireOps) (J : JsonView -> Prop) : Prop := {
  json_parse_dump : forall j, J j -> DumpJson j <> [] /\ ParseJson (DumpJson j) = Ok j;
  msgpack_parse_dump : forall j, J j -> DumpMsgPack j <> [] /\ ParseMsgPack (DumpMsgPack j) = Ok j;
  zlib_inverse : forall b, b <> [] -> qCompress b <> [] /\ qUncompress (qCompress b) = b
}.

(** A concrete instance for the witnesses: one-byte codes for the tree's
    constants, and a marker byte for compression. *)
Definition tiny_dump (j : JsonView) : list Z :=
  match j with t_boolean true => [1] | t_boolean false => [2] | _ => [0] end.
Definition tiny_parse (b : list Z) : res JsonView :=
  match b with [1] => Ok (t_boolean true) | [2] => Ok (t_boolean false) | [0] => Ok t_null | _ => Raise "bad" end.
Definition tiny_wire : WireOps := {|
  DumpJson := tiny_dump; DumpMsgPack := tiny_dump; ParseJson := tiny_parse; ParseMsgPack := tiny_parse;
  qCompress := fun b => 120 :: b; qUncompress := fun b => match b with 120 :: r => r | _ => [] end |}.
#[export] Instance tiny_laws : WireLaws tiny_wire (fun j => match j with t_boolean _ => True | _ => False end).
Proof. split; [intros [| |[]| | | | | |]; done..|]. by intros [|]. Qed.

(** ** The header *)
Lemma be32_read_be32 len rest : 0 <= len < 2 ^ 32 -> be32_read (be32 len ++ rest) = Some len.
Proof.
  intros Hl. unfold be32; simpl. f_equal.
  apply Z.bits_inj'. intros n Hn. rewrite !Z.lor_spec.
  change 255 with (Z.ones 8).
  destruct (Z.ltb_spec n 8), (Z.ltb_spec n 16), (Z.ltb_spec n 24), (Z.ltb_spec n 32); try lia.
  all: rewrite ?Z.shiftl_spec by lia; rewrite ?Z.land_spec.
  all: rewrite ?(Z.testbit_neg_r _ (n - 8)), ?(Z.testbit_neg_r _ (n - 16)), ?(Z.testbit_neg_r _ (n - 24)) by lia.
  all: rewrite ?Z.shiftr_spec by lia.
  all: rewrite ?(Z.ones_spec_low 8 n), ?(Z.ones_spec_low 8 (n - 8)), ?(Z.ones_spec_low 8 (n - 16)),
         ?(Z.ones_spec_low 8 (n - 24)) by lia.
  all: rewrite ?(Z.ones_spec_high 8 n), ?(Z.ones_spec_high 8 (n - 8)), ?(Z.ones_spec_high 8 (n - 16)),
         ?(Z.ones_spec_high 8 (n - 24)) by lia.
  all: rewrite ?andb_true_r, ?andb_false_r, ?andb_false_l, ?orb_false_r; simpl; try (f_equal; lia).
  rewrite (Z.bits_above_log2 len n); [done|lia|].
  destruct (decide (len = 0)) as [->|]; [simpl; lia|]. apply Z.log2_lt_pow2; [lia|].
  assert (2 ^ 32 <= 2 ^ n) by (apply Z.pow_le_mono_r; lia). lia.
Qed.
Lemma be32_length len : length (be32 len) = 4%nat.
Proof. done. Qed.
Lemma be32_read_range buf len : bytes_ok buf = true -> be32_read buf = Some len ->
  0 <= len < 2 ^ 32 /\
  (len = 2 ^ 32 - 4 -> take 4 buf = [255; 255; 255; 252]).
Proof.
  destruct buf as [|b0 [|b1 [|b2 [|b3 r]]]]; try done. cbn [bytes_ok forallb be32_read].
  unfold is_byte. intros H [= <-]. bool_to_prop.
  pose proof lor_shiftl_add as Hadd.
  set (f3 := b3). assert (Z.lor (Z.shiftl b2 8) b3 = b2 * 2 ^ 8 + b3) as E2 by (apply Hadd; lia).
  assert (Z.lor (Z.shiftl b1 16) (b2 * 2 ^ 8 + b3) = b1 * 2 ^ 16 + (b2 * 2 ^ 8 + b3)) as E1 by (apply Hadd; lia).
  assert (Z.lor (Z.shiftl b0 24) (b1 * 2 ^ 16 + (b2 * 2 ^ 8 + b3))
          = b0 * 2 ^ 24 + (b1 * 2 ^ 16 + (b2 * 2 ^ 8 + b3))) as E0 by (apply Hadd; lia).
  rewrite <- !Z.lor_assoc. subst f3. rewrite E2, E1, E0. split; [lia|].
  intros E. assert (b0 = 255 /\ b1 = 255 /\ b2 = 255 /\ b3 = 252) as (-> & -> & -> & ->) by lia. done.
Qed.

(** ** Well-formed streams *)

(** Cutting one frame without wrap-around: what [drain_step] does on buffers
    below 2 GiB whose header announces a frame below 2 GiB. *)
Definition frame_step (buf : list Z) : option (list Z * list Z) :=
  match be32_read buf with
  | None => None
  | Some len =>
      if ((0 <=? len) && (len <? 2 ^ 31 - 4) && (4 + len <=? Z.of_nat (length buf)))%bool
      then Some (take (Z.to_nat len) (drop 4 buf), drop (Z.to_nat (4 + len)) buf) else None
  end.
Lemma be32_read_app buf more len : be32_read buf = Some len -> be32_read (buf ++ more) = Some len.
Proof. by destruct buf as [|b0 [|b1 [|b2 [|b3 r]]]]. Qed.
#[export] Instance wire_framing : Framing frame_step.
Proof.
  split; unfold frame_step; intros buf a rest.
  - destruct (be32_read buf) as [len|]; [|done]. case_match; [|done]. bool_to_prop.
    intros [= _ <-]. rewrite length_drop. lia.
  - intros more. destruct (be32_read buf) as [len|] eqn:E; [|done]. case_match; [|done]. bool_to_prop.
    intros [= <- <-]. rewrite (be32_read_app _ _ _ E).
    rewrite length_app, (proj2 (Z.leb_le _ _)), (proj2 (Z.ltb_lt _ _)), (proj2 (Z.leb_le _ _)) by lia.
    simpl. rewrite !drop_app_le, take_app_le by (rewrite ?length_drop; lia). done.
Qed.
Lemma frame_drain_step buf p rest : Z.of_nat (length buf) < 2 ^ 31 ->
  frame_step buf = Some (p, rest) -> drain_step buf = Some (p, rest).
Proof.
  unfold frame_step, drain_step. intros Hsz. destruct (be32_read buf) as [len|]; [|done].
  case_match; [|done]. bool_to_prop. intros [= <- <-].
  rewrite !wrapu_small, (proj2 (Z.ltb_ge _ _)) by lia. unfold mid, remove0.
  rewrite !wraps32_small, length_drop by lia.
  rewrite (proj2 (Z.ltb_ge len 0)), (proj2 (Z.ltb_ge _ len)), (proj2 (Z.leb_gt _ 0)) by lia. done.
Qed.

(** Prefixes of a concatenation of frames. *)
Definition encodes (buf : list Z) (ps : list (list Z)) : Prop :=
  exists tail, buf ++ tail = concat (map (fun p => be32 (Z.of_nat (length p)) ++ p) ps).
Definition small_payload (p : list Z) : Prop := Z.of_nat (length p) < 2 ^ 31 - 4.

Lemma frame_step_frame p more : small_payload p ->
  frame_step ((be32 (Z.of_nat (length p)) ++ p) ++ more) = Some (p, more).
Proof.
  intros Hp. unfold small_payload in Hp. unfold frame_step. rewrite <- app_assoc, be32_read_be32 by lia.
  rewrite !length_app. change (length (be32 _)) with 4%nat.
  rewrite (proj2 (Z.leb_le _ _)), (proj2 (Z.ltb_lt _ _)), (proj2 (Z.leb_le _ _)) by lia. cbn [andb].
  replace (Z.to_nat (4 + Z.of_nat (length p))) with (4 + length p)%nat by lia.
  rewrite Nat2Z.id. change (drop 4 (be32 (Z.of_nat (length p)) ++ p ++ more)) with (p ++ more).
  change (drop (4 + length p) (be32 (Z.of_nat (length p)) ++ p ++ more)) with (drop (length p) (p ++ more)).
  by rewrite take_app_length, drop_app_length.
Qed.
Lemma encodes_step buf ps p rest : Forall small_payload ps -> encodes buf ps ->
  frame_step buf = Some (p, rest) -> exists ps', ps = p :: ps' /\ encodes rest ps'.
Proof.
  intros HP [tail E] Hs. pose proof (step_mono _ _ _ tail Hs) as Hm. rewrite E in Hm.
  destruct ps as [|q ps]; [done|]. inverts HP. cbn [map concat] in Hm.
  rewrite frame_step_frame in Hm by done. injection Hm as -> Hrest. exists ps. split; [done|]. by exists tail.
Qed.
Lemma encodes_stop buf ps : Z.of_nat (length buf) < 2 ^ 31 -> Forall small_payload ps -> encodes buf ps ->
  frame_step buf = None -> drain_step buf = None.
Proof.
  intros Hsz HP [tail E]. unfold frame_step, drain_step.
  destruct (be32_read buf) as [len|] eqn:El; [|done].
  pose proof (be32_read_app _ tail _ El) as Ht. rewrite E in Ht.
  destruct ps as [|q ps]; [done|]. inverts HP. unfold small_payload in *. cbn [map concat] in Ht.
  rewrite <- app_assoc, be32_read_be32 in Ht by lia. injection Ht as <-.
  rewrite (proj2 (Z.leb_le 0 _)), (proj2 (Z.ltb_lt _ _)) by lia. cbn [andb].
  destruct (Z.leb_spec (4 + Z.of_nat (length q)) (Z.of_nat (length buf))); [done|]. intros _.
  by rewrite !wrapu_small, (proj2 (Z.ltb_lt _ _)) by lia.
Qed.

Section streams.
Context `{W : WireOps} (proto : Protocol) (comp : option Compression).

Lemma DrainFrames_drain fuel : forall buf ps out rest,
  Z.of_nat (length buf) < 2 ^ 31 -> Forall small_payload ps ->
  Forall (fun p => throws (deliver proto comp p) = false) ps -> encodes buf ps ->
  drain frame_step fuel buf = Some (out, rest) ->
  DrainFrames fuel buf proto comp = Some (flat_map (deliver proto comp) out, rest).
Proof.
  induction fuel as [|fuel IH]; intros buf ps out rest Hsz HP HT He; [done|]. rewrite drain_S.
  cbn [DrainFrames]. destruct (frame_step buf) as [[p buf']|] eqn:E.
  - rewrite (frame_drain_step _ _ _ Hsz E). pose proof (step_shrinks _ _ _ E).
    destruct (encodes_step _ _ _ _ HP He E) as (ps' & -> & He').
    apply Forall_cons in HT as [HTp HT]. apply Forall_cons in HP as [_ HP]. rewrite HTp.
    destruct (drain frame_step fuel buf') as [[out' rest']|] eqn:Ed; [|done]. intros [= <- <-].
    by rewrite (IH buf' ps' out' rest') by (done || lia).
  - rewrite (encodes_stop _ ps) by done. by intros [= <- <-].
Qed.

(** Successive [readyRead] events. *)
Fixpoint read_all (buf : list Z) (reads : list (list Z)) : option (list Drained * list Z) :=
  match reads with
  | [] => Some ([], buf)
  | c :: reads' =>
      match on_read proto comp buf c with
      | None => None
      | Some (out, buf) =>
          match read_all buf reads' with
          | None => None
          | Some (out', buf) => Some (out ++ out', buf)
          end
      end
  end.

Lemma encodes_drained n : forall buf ps out rest more, Forall small_payload ps ->
  encodes (buf ++ more) ps -> drain frame_step n buf = Some (out, rest) ->
  exists ps', ps = out ++ ps' /\ encodes (rest ++ more) ps' /\ (length rest <= length buf)%nat.
Proof.
  induction n as [|n IH]; intros buf ps out rest more HP He; [done|]. rewrite drain_S.
  destruct (frame_step buf) as [[p buf']|] eqn:E.
  - destruct (drain frame_step n buf') as [[out' rest']|] eqn:Ed; [|done]. intros [= <- <-].
    pose proof (step_shrinks _ _ _ E).
    destruct (encodes_step _ _ _ _ HP He (step_mono _ _ _ more E)) as (ps' & -> & He').
    apply Forall_cons in HP as [_ HP].
    destruct (IH _ _ _ _ _ HP He' Ed) as (ps2 & -> & ? & ?). exists ps2. split_and!; [done|done|lia].
  - intros [= <- <-]. by exists ps.
Qed.

Lemma read_all_feed reads : forall buf ps out rest,
  Z.of_nat (length (buf ++ concat reads)) < 2 ^ 31 -> Forall small_payload ps ->
  Forall (fun p => throws (deliver proto comp p) = false) ps ->
  encodes (buf ++ concat reads) ps -> feed frame_step buf reads = Some (out, rest) ->
  read_all buf reads = Some (flat_map (deliver proto comp) out, rest).
Proof.
  induction reads as [|c reads IH]; intros buf ps out rest Hsz HP HT He; cbn [feed read_all].
  { by intros [= <- <-]. }
  cbn [concat] in *. rewrite app_assoc in He, Hsz.
  destruct (drain_all frame_step (buf ++ c)) as [[o1 l1]|] eqn:E; [|done].
  destruct (feed frame_step l1 reads) as [[o2 l2]|] eqn:E2; [|done]. intros [= <- <-].
  unfold on_read, drain_fuel. unfold drain_all in E.
  destruct (encodes_drained _ _ _ _ _ _ HP He E) as (ps' & -> & He' & Hl).
  rewrite (DrainFrames_drain _ (buf ++ c) (o1 ++ ps') o1 l1); [|..|done|done|by destruct He as [t Et]; exists (concat reads ++ t); rewrite app_assoc|done].
  - apply Forall_app in HP as [_ HP]. apply Forall_app in HT as [_ HT].
    rewrite (IH l1 ps' o2 l2); [by rewrite flat_map_app|..|done|done|done|done].
    rewrite !length_app in *. lia.
  - rewrite length_app in Hsz. lia.
Qed.
End streams.

Section messages.
Context `{W : WireOps} {J : JsonView -> Prop} `{L : !WireLaws W J}.

Definition sendable (v : QVar) : Prop := qvar_wf v = true /\ sizes_ok v = true /\ J (DoIntoJson v).

Lemma Decode_Encode proto comp v : sendable v -> Decode proto comp (Encode proto comp v) = (Ok (json_norm v), []).
Proof.
  intros (Hwf & Hsz & HJ). pose proof (json_roundtrip v Hwf Hsz) as Hr.
  destruct (json_parse_dump (W := W) _ HJ) as [Hj1 Hj2], (msgpack_parse_dump (W := W) _ HJ) as [Hm1 Hm2].
  assert (forall out, out <> [] ->
    (match proto with proto_msgpack => ParseMsgPack out | proto_json => ParseJson out end) = Ok (DoIntoJson v) ->
    Decode proto comp (match comp with Some zlib => qCompress out | None => out end) = (Ok (json_norm v), [])) as H.
  { intros out Hout Hp. unfold Decode, decode_view. destruct comp as [[]|]; simpl.
    - destruct (zlib_inverse (WireLaws := L) out Hout) as [Hc Hu]. destruct (qCompress out); [done|].
      rewrite Hu. destruct out; [done|]. simpl. by rewrite Hp, Hr.
    - destruct out; [done|]. simpl. by rewrite Hp, Hr. }
  unfold Encode. destruct proto; by apply H.
Qed.
Lemma deliver_Encode proto comp v : sendable v ->
  deliver proto comp (Encode proto comp v) = if isValid (json_norm v) then [OnMsg (json_norm v)] else [].
Proof. intros H. unfold deliver. by rewrite Decode_Encode. Qed.

(** The bytes of whole messages, split anyhow. *)
Lemma frames_read proto comp msgs reads : Forall sendable msgs ->
  concat reads = concat (map (Frame proto comp) msgs) -> Z.of_nat (length (concat reads)) < 2 ^ 31 ->
  read_all proto comp [] reads
  = Some (flat_map (fun v => if isValid (json_norm v) then [OnMsg (json_norm v)] else []) msgs, []).
Proof.
  intros Hs Hc Hsz. set (ps := map (Encode proto comp) msgs).
  assert (Forall small_payload ps) as HP.
  { subst ps. rewrite Hc in Hsz. clear Hc. apply Forall_map. revert Hsz. clear.
    induction msgs as [|v msgs IH]; [done|]. cbn [map concat]. unfold Frame at 1.
    rewrite !length_app, be32_length. intros H. constructor; [unfold small_payload; lia|apply IH; lia]. }
  assert (concat reads = concat (map (fun p => be32 (Z.of_nat (length p)) ++ p) ps)) as Hps.
  { rewrite Hc. subst ps. clear -HP. induction msgs as [|v msgs IH]; [done|].
    cbn [map concat] in *. inverts HP. rewrite <- IH by done. unfold Frame at 1; unfold small_payload in *.
    by rewrite wrapu_small by lia. }
  assert (Forall (fun p => throws (deliver proto comp p) = false) ps) as HT.
  { subst ps. apply Forall_map. eapply Forall_impl; [exact Hs|]. intros v Hv.
    cbn. rewrite deliver_Encode by done. by destruct (isValid _). }
  assert (feed frame_step [] reads = Some (ps, [])) as Hf.
  { rewrite (feed_concat frame_step reads [] eq_refl), app_nil_l, Hps.
    rewrite (drain_frames frame_step (fun p => be32 (Z.of_nat (length p)) ++ p) (fun p => p) small_payload)
      by (done || (intros; by apply frame_step_frame)). by rewrite map_id. }
  rewrite (read_all_feed proto comp reads [] ps ps []); [|done|done|done|exists []; by rewrite app_nil_r|done].
  f_equal. f_equal. subst ps. clear -Hs L. induction Hs as [|v msgs Hv _ IH]; [done|].
  cbn [map flat_map]. by rewrite deliver_Encode, IH.
Qed.
End messages.

(** ** Termination of the loop *)
Definition stuck_header : list Z := [255; 255; 255; 252].

Section termination.
Context `{W : WireOps}.
Lemma drain_step_shrinks buf p rest : bytes_ok buf = true -> Z.of_nat (length buf) < 2 ^ 31 ->
  take 4 buf <> stuck_header -> drain_step buf = Some (p, rest) ->
  (length rest < length buf)%nat /\ exists n, rest = drop n buf.
Proof.
  intros Hb Hsz Hst. unfold drain_step. destruct (be32_read buf) as [len|] eqn:E; [|done].
  destruct (be32_read_range _ _ Hb E) as [Hr Hs].
  assert (0 < length buf)%nat by (destruct buf; simpl; [done|lia]).
  rewrite (wrapu_small 32 (Z.of_nat _)) by lia. pose proof (wrapu_range 32 (4 + len) ltac:(lia)) as Ht.
  assert (wrapu 32 (4 + len) <> 0) as Hnz.
  { intros H0. apply Hst, Hs. unfold wrapu in H0.
    pose proof (Z.div_mod (4 + len) (2 ^ 32) ltac:(lia)). lia. }
  case_match eqn:Hlt; [done|]. bool_to_prop. intros [= _ <-]. unfold remove0.
  rewrite wraps32_small, (proj2 (Z.leb_gt _ _)) by lia. rewrite length_drop. split; [lia|eauto].
Qed.
Lemma bytes_ok_drop n l : bytes_ok l = true -> bytes_ok (drop n l) = true.
Proof.
  revert n. induction l as [|b l IH]; intros [|n]; simpl; try done.
  intros [? ?]%andb_true_iff. auto.
Qed.
Lemma DrainFrames_total proto comp fuel : forall buf,
  (length buf < fuel)%nat -> bytes_ok buf = true -> Z.of_nat (length buf) < 2 ^ 31 ->
  (forall n, take 4 (drop n buf) <> stuck_header) -> exists r, DrainFrames fuel buf proto comp = Some r.
Proof.
  induction fuel as [|fuel IH]; intros buf Hf Hb Hsz Hst; [lia|]. cbn [DrainFrames].
  destruct (drain_step buf) as [[p rest]|] eqn:E; [|eauto].
  destruct (drain_step_shrinks _ _ _ Hb Hsz (Hst 0%nat) E) as [Hl [n ->]].
  destruct (throws _); [eauto|].
  destruct (IH (drop n buf)) as [[o r] ->]; [lia|by apply bytes_ok_drop|lia| |eauto].
  intros m. rewrite drop_drop. apply Hst.
Qed.
End termination.

(** * Properties *)

(** C1: messages sent over a stream arrive: for any sequence of sendable messages whose
    frames together are shorter than 2 GiB, and however the bytes of their frames are
    split into reads, the receiver delivers exactly their normal forms (null messages
    dropped), in order, reports no error, keeps nothing in its buffer, and every drain
    returns. *)
Theorem frames_survive_splitting (W : WireOps) (J : JsonView -> Prop) (L : WireLaws W J) proto comp msgs reads :
  Forall (sendable (J := J)) msgs ->
  concat reads = concat (map (Frame proto comp) msgs) -> Z.of_nat (length (concat reads)) < 2 ^ 31 ->
  read_all proto comp [] reads
  = Some (flat_map (fun v => if isValid (json_norm v) then [OnMsg (json_norm v)] else []) msgs, []).
Proof. apply frames_read. Qed.
Lemma frames_survive_splitting_witness :
  read_all (W := tiny_wire) proto_msgpack (Some zlib) [] [[0; 0; 0]; [2; 120; 1; 0; 0]; [0; 2; 120; 2]]
  = Some ([OnMsg (VBool true); OnMsg (VBool false)], []).
Proof.
  apply (frames_survive_splitting tiny_wire _ tiny_laws proto_msgpack (Some zlib) [VBool true; VBool false]).
  - repeat constructor.
  - vm_compute. reflexivity.
  - vm_compute. reflexivity.
Defined.

(** Draining returns on any buffer below 2 GiB in which the header
    [FF FF FF FC] does not occur, whatever else the peer sent; on a buffer that
    begins with that header it never returns (the length plus four wraps to
    zero, so nothing is removed), unless a payload throws. *)
Theorem DrainFrames_terminates_or_wraps (W : WireOps) proto comp buf :
  (bytes_ok buf = true -> Z.of_nat (length buf) < 2 ^ 31 ->
   (forall n, take 4 (drop n buf) <> stuck_header) ->
   exists r, DrainFrames (drain_fuel buf) buf proto comp = Some r) /\
  (throws (deliver proto comp buf) = false ->
   forall fuel, DrainFrames fuel (stuck_header ++ buf) proto comp = None).
Proof.
  split.
  - intros. apply DrainFrames_total; try done. unfold drain_fuel. lia.
  - intros Ht fuel. induction fuel as [|fuel IH]; [done|]. cbn [DrainFrames].
    assert (drain_step (stuck_header ++ buf) = Some (buf, stuck_header ++ buf)) as ->.
    { unfold drain_step. cbn [stuck_header app be32_read].
      change (wrapu 32 (4 + _)) with 0. change (wraps 32 0) with 0.
      pose proof (wrapu_range 32 (Z.of_nat (length (255 :: 255 :: 255 :: 252 :: buf))) ltac:(lia)).
      rewrite (proj2 (Z.ltb_ge _ _)) by lia. done. }
    by rewrite Ht, IH.
Qed.
Lemma DrainFrames_terminates_or_wraps_witness :
  (forall fuel, DrainFrames (W := tiny_wire) fuel (stuck_header ++ [1; 2]) proto_json None = None) /\
  exists r, DrainFrames (W := tiny_wire) 3 [0; 1] proto_json None = Some r.
Proof.
  split; [exact (proj2 (DrainFrames_terminates_or_wraps tiny_wire proto_json None [1; 2]) eq_refl)|].
  apply (proj1 (DrainFrames_terminates_or_wraps tiny_wire proto_json None [0; 1])); [done|done|].
  intros [|[|[|n]]]; discriminate.
Defined.
