(* ===== verification/Worker.v ===== *)
(** * Workers: names, notifications, lifetime

    Models src/src/worker.cpp with the declarations of
    src/include/radapter/worker.hpp and src/src/worker_impl.hpp: how a worker gets
    its unique name, how what it emits reaches the tag registry and the Lua
    listeners, and how destruction and [shutdown] interact with the event loop. *)
From S2P Require Import Prelude QVariant Utils.

Inductive LogLevel := debug | info | warn | error | disabled.

(** What any worker can do to the outside through its base class. *)
Inductive Emission :=
| SendMsg (v : QVar)
| SendEvent (v : QVar)
| LogLine (lvl : LogLevel) (text : string).

(** ** Names *)
Record WorkerConfig := {
  name : option string;
  category : option string;
  generated_name : bool
}.
Definition isEmpty (s : string) : bool := bool_decide (s = "").

Definition EnsureName (conf : WorkerConfig) (def : string) : WorkerConfig :=
  match name conf with
  | Some n =>
      if isEmpty n then {| name := Some def; category := category conf; generated_name := true |} else conf
  | None => {| name := Some def; category := category conf; generated_name := true |}
  end.

Definition underscore : ascii := "_"%char.
Definition str_back (s : string) : option ascii := String.get (String.length s - 1) s.
Definition push_back (s : string) (c : ascii) : string := s +:+ String c "".

Section names.
(** [QChar::isLetterOrNumber] of a code unit. *)
Context (isLetterOrNumber : ascii -> bool).

Definition name_char (c : ascii) : bool :=
  (isLetterOrNumber c || bool_decide (c = "."%char) || bool_decide (c = underscore))%bool.

Fixpoint sanitize_loop (s out : string) : string :=
  match s with
  | EmptyString => out
  | String c s' =>
      if (isLetterOrNumber c || bool_decide (c = underscore) || bool_decide (c = "."%char))%bool
      then sanitize_loop s' (push_back out c)
      else if (negb (isEmpty out) && negb (bool_decide (str_back out = Some underscore)))%bool
      then sanitize_loop s' (push_back out underscore)
      else sanitize_loop s' out
  end.
Fixpoint chop_underscores (fuel : nat) (out : string) : string :=
  match fuel with
  | O => out
  | S fuel =>
      if bool_decide (str_back out = Some underscore) then chop_underscores fuel (pop_back out) else out
  end.
Definition sanitizeName (s : string) : string :=
  let out := sanitize_loop s "" in
  let out := chop_underscores (String.length out) out in
  if isEmpty out then "worker" else out.

Fixpoint all_name_chars (s : string) : bool :=
  match s with
  | EmptyString => true
  | String c s' =>
      if (negb (isLetterOrNumber c) && negb (bool_decide (c = "."%char)) && negb (bool_decide (c = underscore)))%bool
      then false else all_name_chars s'
  end.
Definition isValidWorkerName (name : string) : bool :=
  if isEmpty name then false else all_name_chars name.

(** The [do ... while (taken(candidate))] loop; [None] when the fuel runs out. *)
Fixpoint candidate_loop (fuel : nat) (taken : string -> bool) (name : string) (n : Z) : option string :=
  match fuel with
  | O => None
  | S fuel =>
      let candidate := (name +:+ ".") +:+ to_string n in
      if taken candidate then candidate_loop fuel taken name (n + 1) else Some candidate
  end.

(** The naming part of the constructor: the category and the name of the new
    worker, given the names of the instance's workers. *)
Definition worker_category (conf : WorkerConfig) (cls : string) : string :=
  match category conf with
  | Some c => if isEmpty c then cls else c
  | None => cls
  end.
Definition Worker_name (existing : list string) (conf : WorkerConfig) (cls : string) : res (option string) :=
  let taken n := bool_decide (n ∈ existing) in
  let cat := worker_category conf cls in
  let name0 := default "" (name conf) in
  let autoNamed := (isEmpty name0 || generated_name conf)%bool in
  let name1 := if isEmpty name0 then cat else name0 in
  let* name2 :=
    if autoNamed then Ok (sanitizeName name1)
    else if isValidWorkerName name1 then Ok name1
    else Raise "Worker name must be alphanumeric, dots, or underscores only" in
  if taken name2 then
    if negb autoNamed then Raise "Worker name is already taken"
    else Ok (candidate_loop (S (length existing)) taken name2 2)
  else Ok (Some name2).
Definition worker_LogCat (cat name : string) : string :=
  if bool_decide (name = cat) then cat else (cat +:+ "/") +:+ name.
End names.

(** [luaOrigin]: the innermost stack level with a line. *)
Fixpoint luaOrigin (frames : list (option (string * Z))) : string :=
  match frames with
  | [] => "<CPP>"
  | Some (src, line) :: frames' =>
      if 0 <? line then (src +:+ ":") +:+ to_string line else luaOrigin frames'
  | None :: frames' => luaOrigin frames'
  end.

(** [SendEventField] / [SendMsgField]. *)
Definition SendEventField (key : string) (data : QVar) : Emission := SendEvent (VMap [(key, data)]).
Definition SendMsgField (key : string) (data : QVar) : Emission := SendMsg (VMap [(key, data)]).

(** ** Notifications *)

(** What a listener receives: containers become a lazy view over the message. *)
Inductive LuaArg := Lazy (v : QVar) | Plain (v : QVar).
Definition lazyMessage (msg : QVar) : LuaArg :=
  match msg with VMap _ | VList _ => Lazy msg | _ => Plain msg end.

Inductive Channel := Events | Messages.
Inductive NotifyEffect :=
| WarnDropped                                   (* "Dropped a notification ..." *)
| TagWorkerEvent (msg : QVar)
| TagWorkerMsg (msg : QVar)
| CallAll (ch : Channel) (arg : LuaArg)         (* call_all on a fiber *)
| ErrorListeners (err : string)
| Propagate.                                    (* rethrown [ForcedShutdown] *)
(** How the fiber running [call_all] ended. *)
Inductive CallOutcome := Returned | Failed (err : string) | ForcedExit.
Record WorkerImpl := { self_alive : bool; dropLogged : bool }.

(** [fiber]: the current fiber, with its [Unwinding] flag. *)
Definition worker_notify (impl : WorkerImpl) (tags : bool) (fiber : option bool) (outcome : CallOutcome)
    (msg : QVar) (is_event : bool) : WorkerImpl * list NotifyEffect :=
  if negb (isValid msg) then (impl, [])
  else if negb (self_alive impl) then
    ({| self_alive := false; dropLogged := true |}, if dropLogged impl then [] else [WarnDropped])
  else
    (impl,
     (if tags then [if is_event then TagWorkerEvent msg else TagWorkerMsg msg] else []) ++
     CallAll (if is_event then Events else Messages) (lazyMessage msg) ::
     match outcome with
     | Returned => []
     | Failed err => [ErrorListeners err]
     | ForcedExit =>
         match fiber with
         | None => [Propagate]
         | Some unwinding => if unwinding then [Propagate] else []
         end
     end).

(** [worker_call] ([w(msg, sender)] from Lua): the sender is visible to [OnMsg]
    only while it runs, also when it throws. *)
Definition worker_call {S} (OnMsg : S -> QVar -> option QVar -> res S) (alive : bool)
    (currentSender : QVar) (st : S) (msg sender : QVar) : res S * QVar :=
  if negb alive then (Raise "worker not usable", currentSender)
  else (OnMsg st msg (Some sender), currentSender).

(** ** Lifetime

    The worker object, Qt's deferred deletion and the promises of [shutdown].
    [deferred] says whether this worker's [Destroy] emits [ShutdownDone] itself
    or leaves it to an asynchronous clean-up. *)
Record Life := {
  alive : bool;
  connected : bool;            (* ShutdownDone -> deleteLater *)
  delete_scheduled : bool;
  waiting : list nat;          (* promises to resolve on destroyed() *)
  ticks : list nat;            (* zero timers holding a promise *)
  resolved : list nat
}.
Definition life_init : Life :=
  {| alive := true; connected := false; delete_scheduled := false; waiting := []; ticks := []; resolved := [] |}.

(** What the instance connects when a worker is created: [ShutdownDone] to [deleteLater]. *)
Definition on_WorkerCreated (st : Life) : Life :=
  {| alive := alive st; connected := true; delete_scheduled := delete_scheduled st;
     waiting := waiting st; ticks := ticks st; resolved := resolved st |}.
Definition on_ShutdownDone (st : Life) : Life :=
  {| alive := alive st; connected := connected st;
     delete_scheduled := (delete_scheduled st || connected st)%bool;
     waiting := waiting st; ticks := ticks st; resolved := resolved st |}.
Definition Destroy (deferred : bool) (st : Life) : Life :=
  if deferred then st else on_ShutdownDone st.
Definition shutdown (deferred : bool) (promise : nat) (st : Life) : Life :=
  Destroy deferred
    {| alive := alive st; connected := true; delete_scheduled := delete_scheduled st;
       waiting := waiting st ++ [promise]; ticks := ticks st; resolved := resolved st |}.
Definition worker_destroy (deferred : bool) (st : Life) : res Life :=
  if negb (alive st) then Raise "worker not usable"
  else
    let st := Destroy deferred st in
    Ok {| alive := alive st; connected := connected st; delete_scheduled := true;
          waiting := waiting st; ticks := ticks st; resolved := resolved st |}.
Definition worker_shutdown (deferred : bool) (promise : nat) (st : Life) : res Life :=
  if negb (alive st) then Raise "worker not usable" else Ok (shutdown deferred promise st).

(** One turn of the event loop: a pending deletion, else the oldest timer. *)
Definition loop_turn (st : Life) : Life :=
  if (alive st && delete_scheduled st)%bool then
    {| alive := false; connected := false; delete_scheduled := false;
       waiting := []; ticks := ticks st ++ waiting st; resolved := resolved st |}
  else
    match ticks st with
    | [] => st
    | p :: ps =>
        {| alive := alive st; connected := connected st; delete_scheduled := delete_scheduled st;
           waiting := waiting st; ticks := ps; resolved := resolved st ++ [p] |}
    end.

Inductive life_step (deferred : bool) : Life -> Life -> Prop :=
| step_created st : alive st = true -> life_step deferred st (on_WorkerCreated st)
| step_shutdown p st st' :
    p ∉ waiting st ++ ticks st ++ resolved st ->
    worker_shutdown deferred p st = Ok st' -> life_step deferred st st'
| step_destroy st st' : worker_destroy deferred st = Ok st' -> life_step deferred st st'
| step_done st : alive st = true -> life_step deferred st (on_ShutdownDone st)
| step_turn st : life_step deferred st (loop_turn st).
Inductive life_reachable (deferred : bool) : Life -> Prop :=
| life_start : life_reachable deferred life_init
| life_next st st' : life_reachable deferred st -> life_step deferred st st' -> life_reachable deferred st'.

(** ** Lemmas on names *)
Lemma get_snoc s c : String.get (String.length s) (s +:+ String c "") = Some c.
Proof. induction s as [|d s IH]; [done|]. by rewrite str_app_cons. Qed.
Lemma str_snoc_cases s : s = "" \/ exists s' c, s = push_back s' c.
Proof.
  unfold push_back. induction s as [|c s [->|(s' & d & ->)]]; [by left|right..].
  - by exists "", c.
  - exists (String c s'), d. by rewrite str_app_cons.
Qed.
Lemma str_back_push s c : str_back (push_back s c) = Some c.
Proof.
  unfold str_back, push_back. rewrite str_length_app. simpl.
  replace (String.length s + 1 - 1)%nat with (String.length s) by lia. apply get_snoc.
Qed.
Lemma push_back_pop s c : pop_back (push_back s c) = s.
Proof. apply pop_back_snoc. Qed.

Section name_lemmas.
Context (isLetterOrNumber : ascii -> bool).
Notation names_ok := (all_name_chars isLetterOrNumber).

Lemma all_name_chars_app a b : names_ok (a +:+ b) = (names_ok a && names_ok b)%bool.
Proof.
  induction a as [|c a IH]; [done|]. rewrite str_app_cons; simpl.
  by destruct (negb _ && _ && _)%bool.
Qed.
Lemma name_chars_single c :
  (isLetterOrNumber c || bool_decide (c = underscore) || bool_decide (c = "."%char))%bool = true ->
  names_ok (String c "") = true.
Proof.
  simpl. destruct (isLetterOrNumber c); simpl; [done|].
  intros H. destruct (bool_decide (c = "."%char)), (bool_decide (c = underscore)); done.
Qed.
Lemma sanitize_loop_ok s : forall out, names_ok out = true -> names_ok (sanitize_loop isLetterOrNumber s out) = true.
Proof.
  induction s as [|c s IH]; intros out Ho; simpl; [done|].
  destruct (_ || _ || _)%bool eqn:E.
  - apply IH. unfold push_back. by rewrite all_name_chars_app, Ho, name_chars_single.
  - destruct (_ && _)%bool; [|auto]. apply IH. unfold push_back.
    rewrite all_name_chars_app, Ho, name_chars_single; [done|].
    rewrite bool_decide_eq_true_2 by done. by rewrite orb_true_r.
Qed.
Lemma chop_ok fuel : forall out, names_ok out = true -> names_ok (chop_underscores fuel out) = true.
Proof.
  induction fuel as [|fuel IH]; intros out Ho; simpl; [done|]. case_bool_decide; [|done].
  apply IH. destruct (str_snoc_cases out) as [->|(s & c & ->)]; [done|].
  rewrite push_back_pop. unfold push_back in Ho. rewrite all_name_chars_app in Ho. by bool_to_prop.
Qed.
(** A prefix that survives the final chop. *)
Lemma chop_idle fuel out : str_back out <> Some underscore -> chop_underscores fuel out = out.
Proof. destruct fuel; [done|]. simpl. intros. by rewrite bool_decide_eq_false_2. Qed.

Lemma sanitize_valid s : names_ok "worker" = true -> isValidWorkerName isLetterOrNumber (sanitizeName isLetterOrNumber s) = true.
Proof.
  intros Hw. unfold isValidWorkerName, sanitizeName.
  set (out := chop_underscores _ _).
  assert (names_ok out = true) as Ho by (apply chop_ok, sanitize_loop_ok; done).
  destruct (isEmpty out) eqn:E; [done|]. by rewrite E.
Qed.
Lemma sanitize_keeps s : isValidWorkerName isLetterOrNumber s = true -> str_back s <> Some underscore ->
  sanitizeName isLetterOrNumber s = s.
Proof.
  unfold isValidWorkerName, sanitizeName. destruct (isEmpty s) eqn:E; [done|]. intros Hs Hb.
  assert (forall t out, names_ok t = true -> sanitize_loop isLetterOrNumber t out = out +:+ t) as Hl.
  { intros t. induction t as [|c t IH]; intros out Ht; simpl; [by rewrite str_app_nil_r|].
    cbn [all_name_chars] in Ht.
    destruct (isLetterOrNumber c), (bool_decide (c = "."%char)), (bool_decide (c = underscore)); cbn in Ht |- *; try done;
      rewrite IH by done; unfold push_back; by rewrite <- str_app_assoc, str_app_cons. }
  rewrite Hl, str_app_nil_l by done. rewrite chop_idle by done. by rewrite E.
Qed.

Lemma to_string_inj m n : 0 <= m < 10 ^ 20 -> 0 <= n < 10 ^ 20 -> to_string m = to_string n -> m = n.
Proof.
  intros Hm Hn E. destruct (to_string_val m Hm) as (_ & Em & _), (to_string_val n Hn) as (_ & En & _).
  congruence.
Qed.
Lemma str_app_inj_l a b c : a +:+ b = a +:+ c -> b = c.
Proof. induction a as [|d a IH]; [done|]. rewrite !str_app_cons. intros [= ?]. auto. Qed.

(** By the pigeonhole principle one of [length existing + 1] candidates is free. *)
Lemma candidate_loop_some name existing fuel : forall n seen,
  NoDup seen -> seen ⊆ existing ->
  (forall x, x ∈ seen -> exists k, 0 <= k < n /\ x = (name +:+ ".") +:+ to_string k) ->
  0 <= n -> n + Z.of_nat fuel < 10 ^ 20 -> (length existing < fuel + length seen)%nat ->
  exists r k, candidate_loop fuel (fun c => bool_decide (c ∈ existing)) name n = Some r /\
    r ∉ existing /\ r = (name +:+ ".") +:+ to_string k /\ n <= k < n + Z.of_nat fuel.
Proof.
  induction fuel as [|fuel IH]; intros n seen Hnd Hsub Hk Hn Hmax Hlen.
  - exfalso. pose proof (submseteq_length _ _ (NoDup_submseteq _ _ Hnd Hsub)). lia.
  - cbn [candidate_loop]. set (c := (name +:+ ".") +:+ to_string n). case_bool_decide as Hc.
    + destruct (IH (n + 1) (c :: seen)) as (r & k & Hr & ? & ? & ?); [| | |lia|lia|simpl; lia|].
      * constructor; [|done]. intros (k & Hlt & E)%Hk. subst c.
        apply str_app_inj_l, to_string_inj in E; lia.
      * intros x [->|Hx]%elem_of_cons; [done|by apply Hsub].
      * intros x [->|(k & ? & ->)%Hk]%elem_of_cons; [exists n|exists k]; (split; [lia|done]).
      * exists r, k. split_and!; [done..|lia|lia].
    + exists c, n. split_and!; [done..|lia|lia].
Qed.
Lemma digits_name s : (forall c d, digit_of c = Some d -> isLetterOrNumber c = true) ->
  forall r v, digits_val s r = Some v -> names_ok s = true.
Proof.
  intros Hd. induction s as [|c s IH]; intros r v; [done|]. cbn [digits_val].
  destruct (digit_of c) as [d|] eqn:E; [|done]. intros H. cbn [all_name_chars].
  rewrite (Hd _ _ E). simpl. eauto.
Qed.
End name_lemmas.

(** The numbered name, when the base name [n2] is taken. *)
Definition numbered (existing : list string) (n2 : string) : option string :=
  if bool_decide (n2 ∈ existing)
  then candidate_loop (S (length existing)) (fun n => bool_decide (n ∈ existing)) n2 2
  else Some n2.
Lemma numbered_spec isL existing n2 :
  (forall c d, digit_of c = Some d -> isL c = true) ->
  Z.of_nat (length existing) < 2 ^ 31 - 3 -> isValidWorkerName isL n2 = true ->
  exists n, numbered existing n2 = Some n /\ n ∉ existing /\ isValidWorkerName isL n = true.
Proof.
  intros Hdig Hsz Hv. unfold numbered. case_bool_decide; [|by exists n2].
  destruct (candidate_loop_some n2 existing (S (length existing)) 2 []) as (r & k & -> & ? & -> & ?);
    [by constructor|by intros ? ?%elem_of_nil|by intros ? ?%elem_of_nil|lia|lia|simpl; lia|].
  eexists. split_and!; [done..|]. unfold isValidWorkerName in *.
  destruct (to_string_val k ltac:(lia)) as (_ & Hk & _).
  destruct n2 as [|c n2']; [done|]. destruct (isEmpty (String c n2')); [done|].
  replace (isEmpty _) with false by (rewrite !str_app_cons; done).
  rewrite !all_name_chars_app, Hv, (digits_name isL _ Hdig _ _ Hk). cbn.
  rewrite andb_false_r. done.
Qed.

(** ** Lemmas on lifetime *)
Record life_inv (st : Life) : Prop := {
  inv_dead : alive st = false -> waiting st = [] /\ delete_scheduled st = false /\ connected st = false;
  inv_alive : alive st = true -> ticks st = [] /\ resolved st = [];
  inv_nodup : NoDup (waiting st ++ ticks st ++ resolved st);
  inv_connected : waiting st <> [] -> connected st = true
}.
Lemma life_inv_done st : life_inv st -> alive st = true -> life_inv (on_ShutdownDone st).
Proof. intros [Hd Ha Hn Hc] Hl. split; simpl; try done. rewrite Hl. done. Qed.
Lemma life_inv_destroy deferred st : life_inv st -> alive st = true -> life_inv (Destroy deferred st).
Proof. intros. destruct deferred; [done|]. by apply life_inv_done. Qed.
Lemma Destroy_fields deferred st : alive (Destroy deferred st) = alive st /\ waiting (Destroy deferred st) = waiting st /\
  ticks (Destroy deferred st) = ticks st /\ resolved (Destroy deferred st) = resolved st /\
  connected (Destroy deferred st) = connected st.
Proof. by destruct deferred. Qed.

Lemma life_step_inv deferred st st' : life_inv st -> life_step deferred st st' -> life_inv st'.
Proof.
  intros Hi Hs. destruct Hs as [st Hl|p st st' Hp Hs|st st' Hs|st Hl|st].
  - destruct Hi as [Hd Ha Hn Hc]. split; simpl; try done. rewrite Hl. done.
  - unfold worker_shutdown in Hs. destruct (alive st) eqn:El; [|done]. injection Hs as <-.
    unfold shutdown. apply life_inv_destroy; [|done]. destruct Hi as [Hd Ha Hn Hc].
    split; cbn [alive waiting ticks resolved connected delete_scheduled]; [congruence|auto| |done].
    rewrite <- (assoc_L (++)). apply NoDup_app. apply NoDup_app in Hn as (H1 & H2 & H3).
    split_and!; [done|..].
    + intros x Hx [->|?]%elem_of_cons; [|by eapply H2]. apply Hp, elem_of_app. by left.
    + constructor; [|done]. intros ?. apply Hp, elem_of_app. by right.
  - unfold worker_destroy in Hs. destruct (alive st) eqn:El; [|done]. injection Hs as <-.
    pose proof (life_inv_destroy deferred st Hi El) as [Hd Ha Hn Hc].
    destruct (Destroy_fields deferred st) as (E & _). rewrite El in E.
    split; cbn [alive waiting ticks resolved connected delete_scheduled]; [congruence|auto|done|done].
  - by apply life_inv_done.
  - destruct Hi as [Hd Ha Hn Hc]. unfold loop_turn. destruct (alive st && delete_scheduled st)%bool eqn:E.
    + bool_to_prop. destruct (Ha H) as [Et Er]. split; simpl; try done.
      rewrite Et, Er in *. simpl. by rewrite app_nil_r in *.
    + destruct (ticks st) as [|p ps] eqn:Et; [split; rewrite ?Et; auto|].
      split; simpl; try done.
      * intros Hal. by destruct (Ha Hal).
      * rewrite (assoc_L (++) ps), (Permutation_app_comm (ps ++ resolved st) [p]). done.
Qed.
Lemma life_reachable_inv deferred st : life_reachable deferred st -> life_inv st.
Proof.
  induction 1 as [|st st' _ IH Hs]; [|by eapply life_step_inv].
  split; simpl; try done. constructor.
Qed.

Lemma loop_dead n : forall st, alive st = false -> alive (Nat.iter n loop_turn st) = false.
Proof.
  induction n as [|n IH]; intros st Ha; [done|]. rewrite Nat.iter_succ_r. apply IH.
  unfold loop_turn. rewrite Ha. simpl. by destruct (ticks st).
Qed.
Lemma loop_ticks n : forall st, alive st = false -> (length (ticks st) <= n)%nat ->
  resolved (Nat.iter n loop_turn st) = resolved st ++ ticks st.
Proof.
  induction n as [|n IH]; intros st Ha Hn.
  - destruct (ticks st) eqn:E; simpl in *; [by rewrite app_nil_r|lia].
  - rewrite Nat.iter_succ_r. unfold loop_turn at 2. rewrite Ha. cbn [andb].
    destruct (ticks st) as [|p ps] eqn:E.
    + rewrite IH; rewrite ?E; simpl in *; done || lia.
    + rewrite IH; cbn [alive ticks resolved]; [by rewrite <- app_assoc|done|simpl in Hn; lia].
Qed.

(** * Properties *)

(** Constructing a worker either fails (only for an explicit name that is
    malformed or taken) or returns: the search for a free numbered name needs at
    most one try per existing worker; the name returned is well-formed and taken
    by no other worker, an explicit name is kept as it is, and it fails only as
    stated. *)
Theorem Worker_name_unique isL existing conf cls :
  (forall c d, digit_of c = Some d -> isL c = true) -> all_name_chars isL "worker" = true ->
  Z.of_nat (length existing) < 2 ^ 31 - 3 ->
  match Worker_name isL existing conf cls with
  | Ok (Some n) => n ∉ existing /\ isValidWorkerName isL n = true /\
      (forall given, name conf = Some given -> given <> "" -> generated_name conf = false -> n = given)
  | Ok None => False
  | Raise _ => exists given, name conf = Some given /\ given <> "" /\ generated_name conf = false /\
      (isValidWorkerName isL given = false \/ given ∈ existing)
  end.
Proof.
  intros Hdig Hworker Hsz. unfold Worker_name.
  destruct (isEmpty (default "" (name conf)) || generated_name conf)%bool eqn:Eauto; cbn [res_bind negb].
  - set (b := sanitizeName _ _).
    destruct (numbered_spec isL existing b Hdig Hsz (sanitize_valid _ _ Hworker)) as (n & Hn & ? & ?).
    unfold numbered in Hn.
    assert (forall given, name conf = Some given -> given <> "" -> generated_name conf = false -> n = given) as Hg.
    { intros given Eg Hne Hgen. rewrite Eg, Hgen in Eauto. simpl in Eauto. unfold isEmpty in Eauto.
      bool_to_prop. destruct Eauto; bool_to_prop; done. }
    case_bool_decide; [rewrite Hn|injection Hn as <-]; done.
  - apply orb_false_iff in Eauto as [Ee Eg]. rewrite Ee. unfold isEmpty in Ee. bool_to_prop.
    destruct (name conf) as [given|]; [|done]. change (default "" (Some given)) with given in *.
    destruct (isValidWorkerName isL given) eqn:Ev; cbn [res_bind]; [|exists given; auto].
    case_bool_decide; [exists given; auto|]. split_and!; [done..|]. by intros ? [= ->].
Qed.
Definition ascii_name_char (c : ascii) : bool :=
  match digit_of c with Some _ => true | None => (97 <=? Z.of_N (N_of_ascii c)) && (Z.of_N (N_of_ascii c) <=? 122) end%bool.
Lemma Worker_name_unique_witness :
  match Worker_name ascii_name_char ["modbus_a"; "modbus_a.2"]
    {| name := Some "modbus:a!"; category := None; generated_name := true |} "m" with
  | Ok (Some n) => n ∉ ["modbus_a"; "modbus_a.2"] /\ n = "modbus_a.3"
  | _ => False
  end.
Proof.
  pose proof (Worker_name_unique ascii_name_char ["modbus_a"; "modbus_a.2"]
    {| name := Some "modbus:a!"; category := None; generated_name := true |} "m") as H.
  revert H. vm_compute (Worker_name _ _ _ _). intros H. split; [|reflexivity]. apply H.
  - intros c d E. unfold ascii_name_char. rewrite E. reflexivity.
  - vm_compute. reflexivity.
  - vm_compute. reflexivity.
Defined.

(** C7: [await(worker:shutdown())] means the worker is gone: a promise is resolved
    only after the worker object was deleted, and no promise is resolved twice;
    once the worker has announced [ShutdownDone], running the event loop deletes
    it and resolves every waiting promise in a bounded number of turns. *)
Theorem shutdown_resolves_after_deletion deferred st :
  life_reachable deferred st ->
  (forall p, p ∈ resolved st -> alive st = false) /\ NoDup (resolved st) /\
  (alive st = true -> waiting st <> [] ->
   let n := S (length (waiting st)) in
   let st' := Nat.iter n loop_turn (on_ShutdownDone st) in
   alive st' = false /\ resolved st' = waiting st).
Proof.
  intros Hr. pose proof (life_reachable_inv _ _ Hr) as [Hd Ha Hn Hc]. split_and!.
  - intros p Hp. destruct (alive st); [|done]. destruct (Ha eq_refl) as [_ Er]. rewrite Er in Hp. by inversion Hp.
  - apply NoDup_app in Hn as (_ & _ & Hn). by apply NoDup_app in Hn as (_ & _ & ?).
  - intros Hal Hw. cbv zeta. destruct (Ha Hal) as [Et Er].
    rewrite Nat.iter_succ_r.
    assert (loop_turn (on_ShutdownDone st) = {| alive := false; connected := false; delete_scheduled := false;
       waiting := []; ticks := waiting st; resolved := [] |}) as ->.
    { unfold loop_turn. cbn [on_ShutdownDone alive delete_scheduled waiting ticks resolved].
      by rewrite Hal, (Hc Hw), orb_true_r, Et, Er. }
    split; [by apply loop_dead|]. by rewrite loop_ticks.
Qed.
Lemma shutdown_resolves_after_deletion_witness :
  let st := shutdown true 7 life_init in
  resolved (Nat.iter 2 loop_turn (on_ShutdownDone st)) = [7%nat].
Proof.
  apply (shutdown_resolves_after_deletion true (shutdown true 7 life_init)); [|done|done].
  eapply life_next; [apply life_start|]. apply (step_shutdown _ 7); [|done]. by intros ?%elem_of_nil.
Defined.

(** A notification reaches its channel once: an invalid message is dropped
    silently; for a destroyed worker only the first drop is logged; otherwise
    the tag registry (when enabled) sees the message before the listeners are
    called, containers go to them as lazy views, and a [ForcedShutdown] from a
    listener is rethrown exactly outside a running fiber. *)
Theorem worker_notify_spec impl tags fiber outcome msg is_event :
  let '(impl', effects) := worker_notify impl tags fiber outcome msg is_event in
  (isValid msg = false -> impl' = impl /\ effects = []) /\
  (isValid msg = true -> self_alive impl = false ->
     effects = (if dropLogged impl then [] else [WarnDropped]) /\
     (worker_notify impl' tags fiber outcome msg is_event).2 = []) /\
  (isValid msg = true -> self_alive impl = true ->
     impl' = impl /\
     omap (fun e => match e with CallAll ch a => Some (ch, a) | _ => None end) effects
       = [(if is_event then Events else Messages, lazyMessage msg)] /\
     (tags = true -> head effects = Some (if is_event then TagWorkerEvent msg else TagWorkerMsg msg)) /\
     (Propagate ∈ effects <-> outcome = ForcedExit /\ fiber <> Some false)).
Proof.
  unfold worker_notify. destruct (isValid msg) eqn:Ev; cbn [negb].
  2: { split_and!; done. }
  destruct (self_alive impl) eqn:Es; cbn [negb].
  2: { split_and!; [done| |done]. intros _ _. split; [done|]. done. }
  split_and!; [done|done|]. intros _ _. split_and!; [done|..].
  - by destruct tags, is_event, outcome as [| |], fiber as [[]|].
  - by intros ->.
  - destruct tags, is_event, outcome as [| |], fiber as [[]|]; simpl;
      rewrite ?elem_of_cons, ?elem_of_nil; naive_solver.
Qed.
