(* ===== verification/Sockets.v ===== *)
(** * The local-socket and WebSocket workers

    Models src/src/workers/local/local.cpp and
    src/src/workers/websocket/websocket.cpp: the connection tables of the two
    servers, the routing of outgoing messages, the delivery of incoming ones, and
    the reconnecting clients.  The sockets themselves belong to Qt: a socket is
    its identity (a number), and the events of Qt are the arguments of the
    handlers. *)
From S2P Require Import Prelude QVariant Utils Framing Json Wire Worker.

(** What a handler does, in order. *)
Inductive SockEffect :=
| Emit (e : Emission)
| Write (sock : Z) (bytes : list Z)
| SendText (sock : Z) (bytes : list Z)
| SendBinary (sock : Z) (bytes : list Z)
| DeleteLater (sock : Z)
| QueueEvent (v : QVar)                 (* emitted on the next tick *)
| StartTimer (ms : Z)                   (* reconnect *)
| Connect
| Throw (msg : string).

(** The loop over a message's keys: everything known is written, and whether
    anything was. *)
Section route.
Context (socks : list (string * Z)) (send : Z -> QVar -> SockEffect).
Fixpoint route (m : list (string * QVar)) (targeted : bool) : bool * list SockEffect :=
  match m with
  | [] => (targeted, [])
  | (key, value) :: m' =>
      match qm_find key socks with
      | Some s => let '(t, out) := route m' true in (t, send s value :: out)
      | None => route m' targeted
      end
  end.
(** The specification: the keys that name a client, in key order. *)
Definition targets (m : list (string * QVar)) : list (Z * QVar) :=
  omap (fun kv => (fun s => (s, kv.2)) <$> qm_find kv.1 socks) m.
Lemma route_targets m : forall t,
  route m t = ((t || negb (bool_decide (targets m = [])))%bool, map (fun sv => send sv.1 sv.2) (targets m)).
Proof.
  unfold targets. induction m as [|[k v] m IH]; intros t; simpl; [by rewrite orb_false_r|].
  destruct (qm_find k socks) as [s|]; simpl; rewrite IH; [|done].
  simpl. by rewrite orb_true_r.
Qed.
End route.

Module Local.
Section local.
Context `{W : WireOps}.

Record ServerConfig := { protocol : Protocol; compression : option Compression; per_client : bool }.
Record Server := { socks : list (string * Z); bufs : gmap Z (list Z); counter : Z }.
Definition server_init : Server := {| socks := []; bufs := ∅; counter := 0 |}.

Definition emit_msg (c : ServerConfig) (id : string) (d : Drained) : SockEffect :=
  match d with
  | OnMsg v => Emit (SendMsg (if per_client c then VMap [(id, v)] else v))
  | OnError e => Emit (LogLine error ("receive parse error: " +:+ e))
  | Thrown e => Throw e
  end.
(** [onRead] of an accepted socket; [bufs\[sock\]] default-constructs. *)
Definition onRead (c : ServerConfig) (st : Server) (sock : Z) (id : string) (received : list Z)
    : option (Server * list SockEffect) :=
  match on_read (protocol c) (compression c) (default [] (bufs st !! sock)) received with
  | None => None
  | Some (out, buf) =>
      Some ({| socks := socks st; bufs := <[sock := buf]> (bufs st); counter := counter st |},
            map (emit_msg c id) out)
  end.

(** [available]: the bytes that arrived before [readyRead] was connected. *)
Definition accept (c : ServerConfig) (st : Server) (sock : Z) (available : list Z)
    : option (Server * list SockEffect) :=
  let counter' := wrapu 32 (counter st + 1) in
  let id := to_string counter' in
  let st := {| socks := qm_insert id sock (socks st); bufs := <[sock := []]> (bufs st); counter := counter' |} in
  let eff := [Emit (LogLine info ("new client " +:+ id)); Emit (SendEvent (VMap [("connected", VString id)]))] in
  match available with
  | [] => Some (st, eff)
  | _ =>
      match onRead c st sock id available with
      | Some (st, eff') => Some (st, eff ++ eff')
      | None => None
      end
  end.

Definition disconnected (st : Server) (sock : Z) (id : string) : Server * list SockEffect :=
  ({| socks := qm_erase id (socks st); bufs := delete sock (bufs st); counter := counter st |},
   [Emit (LogLine warn ("client disconnected " +:+ id));
    Emit (SendEvent (VMap [("disconnected", VString id)])); DeleteLater sock]).

Definition OnMsg (c : ServerConfig) (st : Server) (msg : QVar) : list SockEffect :=
  if negb (isValid msg) then []
  else
    let frame v := Frame (protocol c) (compression c) v in
    let broadcast := map (fun s => Write s.2 (frame msg)) (socks st) in
    match msg with
    | VMap m =>
        if per_client c then
          let '(targeted, out) := route (socks st) (fun s v => Write s (frame v)) m false in
          if targeted then out else out ++ broadcast
        else broadcast
    | _ => broadcast
    end.

(** The client. *)
Inductive SocketState := UnconnectedState | ConnectingState | ConnectedState | ClosingState.
Definition stateName (st : SocketState) : string :=
  match st with
  | UnconnectedState => "UnconnectedState"
  | ConnectingState => "ConnectingState"
  | ConnectedState => "ConnectedState"
  | ClosingState => "ClosingState"
  end.
Record ClientConfig := { c_protocol : Protocol; c_compression : option Compression; reconnect_timeout : Z }.
Definition Client_init : list SockEffect := [Connect].
Definition stateChanged (c : ClientConfig) (st : SocketState) : list SockEffect :=
  Emit (LogLine info ("state: " +:+ stateName st)) ::
  QueueEvent (VMap [("state", VString (stateName st))]) ::
  match st with UnconnectedState => [StartTimer (wraps 32 (reconnect_timeout c))] | _ => [] end.
Definition reconnect_fired : list SockEffect := [Connect].
Definition client_readyRead (c : ClientConfig) (buf received : list Z) : option (list Z * list SockEffect) :=
  match on_read (c_protocol c) (c_compression c) buf received with
  | None => None
  | Some (out, buf) =>
      Some (buf, map (fun d => match d with
                               | Wire.OnMsg v => Emit (SendMsg v)
                               | OnError e => Emit (LogLine error ("receive parse error: " +:+ e))
                               | Thrown e => Throw e
                               end) out)
  end.
Definition client_OnMsg (c : ClientConfig) (sock : Z) (msg : QVar) : SockEffect :=
  Write sock (Frame (c_protocol c) (c_compression c) msg).

(** *** The server as a transition system *)
Inductive Event :=
| Accept (sock : Z) (available : list Z)
| Read (sock : Z) (received : list Z)
| Disconnect (sock : Z).

(** The handlers of a socket capture the id it was accepted with. *)
Definition id_of (st : Server) (sock : Z) : option string :=
  fst <$> List.find (fun s => s.2 =? sock) (socks st).
Definition handle (c : ServerConfig) (st : Server) (e : Event) : option (Server * list SockEffect) :=
  match e with
  | Accept sock available => accept c st sock available
  | Read sock received =>
      match id_of st sock with Some id => onRead c st sock id received | None => Some (st, []) end
  | Disconnect sock =>
      match id_of st sock with Some id => Some (disconnected st sock id) | None => Some (st, []) end
  end.
(** Qt hands out a socket that is not connected already. *)
Definition allowed (st : Server) (e : Event) : Prop :=
  match e with Accept sock _ => bufs st !! sock = None | _ => True end.
Inductive reachable (c : ServerConfig) : Server -> Prop :=
| reach_init : reachable c server_init
| reach_step st e st' eff : reachable c st -> allowed st e -> counter st < 2 ^ 32 - 1 ->
    handle c st e = Some (st', eff) -> reachable c st'.

(** Ids are the numbers given out so far, one per live socket, and the live
    sockets are those with a buffer. *)
Record wf (st : Server) : Prop := {
  wf_counter : 0 <= counter st < 2 ^ 32;
  wf_sorted : qm_sorted (socks st) = true;
  wf_ids : forall id s, (id, s) ∈ socks st -> exists n, 1 <= n <= counter st /\ id = to_string n;
  wf_nodup : NoDup (socks st).*2;
  wf_bufs : forall s, is_Some (bufs st !! s) <-> s ∈ (socks st).*2
}.

(** Running the reads of several sockets, as interleaved by the event loop. *)
Fixpoint run_reads (c : ServerConfig) (st : Server) (evs : list (Z * list Z))
    : option (Server * list SockEffect) :=
  match evs with
  | [] => Some (st, [])
  | (sock, chunk) :: evs' =>
      match handle c st (Read sock chunk) with
      | None => None
      | Some (st, eff) =>
          match run_reads c st evs' with
          | None => None
          | Some (st, eff') => Some (st, eff ++ eff')
          end
      end
  end.
(** The messages emitted for one client id in routed mode. *)
Definition msgs_from (id : string) (effs : list SockEffect) : list QVar :=
  omap (fun e => match e with
                 | Emit (SendMsg (VMap [(k, v)])) => if bool_decide (k = id) then Some v else None
                 | _ => None
                 end) effs.
Definition chunks_of (sock : Z) (evs : list (Z * list Z)) : list (list Z) :=
  omap (fun e => if bool_decide (e.1 = sock) then Some e.2 else None) evs.
Definition drained_msgs (l : list Drained) : list QVar :=
  omap (fun d => match d with Wire.OnMsg v => Some v | _ => None end) l.
End local.
End Local.

Module Ws.
Section ws.
Context `{W : WireOps}.
(** [QString::fromUtf8] followed by the peer's [toUtf8]. *)
Context (utf8_text : list Z -> list Z).

Inductive WsProtocol := json | msgpack.
Definition WsProtocol_names : list (string * WsProtocol) := [("json", json); ("msgpack", msgpack)].
Record WsConfig := { protocol : WsProtocol; compression : option Compression; compression_level : Z }.

Definition isBinary (c : WsConfig) : bool :=
  (match compression c with Some _ => true | None => false end ||
   match protocol c with json => false | msgpack => true end)%bool.

Definition prepareMsg (c : WsConfig) (state : QVar) : list Z :=
  let j := DoIntoJson state in
  let toSend := match protocol c with msgpack => DumpMsgPack j | json => DumpJson j end in
  match compression c with Some zlib => qCompress toSend | None => toSend end.

Definition recv_view (c : WsConfig) (msg : list Z) : res JsonView :=
  let* msg :=
    match msg with
    | [] => Raise "Empty msg"
    | _ =>
        match compression c with
        | Some zlib =>
            match qUncompress msg with
            | [] => Raise "Could not uncompress using zlib"
            | msg => Ok msg
            end
        | None => Ok msg
        end
    end in
  match protocol c with msgpack => ParseMsgPack msg | json => ParseJson msg end.
Definition recvFrom (c : WsConfig) (msg : list Z) : res QVar * list SockEffect :=
  match recv_view c msg with
  | Ok recv => (DoFromJson recv, [])
  | Raise e => (Ok VInvalid, [Emit (LogLine error ("Error receiving => " +:+ e))])
  end.

Definition Server : Type := list (string * Z).
Definition send_one (c : WsConfig) (toSend : list Z) (sock : Z) : SockEffect :=
  if isBinary c then SendBinary sock toSend else SendText sock (utf8_text toSend).
Definition OnMsg (c : WsConfig) (per_client : bool) (socks : Server) (msg : QVar) : list SockEffect :=
  if negb (isValid msg) then []
  else
    let broadcast := map (fun s => send_one c (prepareMsg c msg) s.2) socks in
    match msg with
    | VMap m =>
        if per_client then
          let '(targeted, out) := route socks (fun s v => send_one c (prepareMsg c v) s) m false in
          if targeted then out else out ++ broadcast
        else broadcast
    | _ => broadcast
    end.
Definition accept (socks : Server) (sock : Z) (addr : string) : Server * list SockEffect :=
  (qm_insert addr sock socks,
   [Emit (LogLine info ("new client " +:+ addr)); Emit (SendEvent (VMap [("connected", VString addr)]))]).
Definition disconnected (socks : Server) (sock : Z) (addr : string) : Server * list SockEffect :=
  (socks, [Emit (LogLine warn ("client disconnected " +:+ addr));
           Emit (SendEvent (VMap [("disconnected", VString addr)])); DeleteLater sock]).
(** When the deferred deletion runs. *)
Definition destroyed (socks : Server) (addr : string) : Server := qm_erase addr socks.
(** [textMessageReceived] and [binaryMessageReceived]; the text one passes
    [msg.toUtf8()]. *)
Definition messageReceived (c : WsConfig) (per_client : bool) (addr : string) (msg : list Z) : list SockEffect :=
  let '(payload, log) := recvFrom c msg in
  log ++ match payload with
         | Ok v => [Emit (SendMsg (if per_client then VMap [(addr, v)] else v))]
         | Raise e => [Throw e]
         end.

Record ClientConfig := { base : WsConfig; reconnect_timeout : Z }.
Definition stateChanged (c : ClientConfig) (unconnected : bool) (st : string) : list SockEffect :=
  Emit (LogLine info ("state: " +:+ st)) :: Emit (SendEvent (VMap [("state", VString st)])) ::
  if unconnected then [StartTimer (wraps 32 (reconnect_timeout c))] else [].
Definition client_received (c : ClientConfig) (msg : list Z) : list SockEffect :=
  let '(payload, log) := recvFrom (base c) msg in
  log ++ match payload with Ok v => [Emit (SendMsg v)] | Raise e => [Throw e] end.
Definition client_OnMsg (c : ClientConfig) (sock : Z) (msg : QVar) : SockEffect :=
  let prepped := prepareMsg (base c) msg in
  if isBinary (base c) then SendBinary sock prepped else SendText sock (utf8_text prepped).

(** The payload a peer's handler receives from an effect. *)
Definition delivered (sock : Z) (e : SockEffect) : option (list Z) :=
  match e with
  | SendText s b | SendBinary s b => if s =? sock then Some b else None
  | _ => None
  end.
End ws.
End Ws.

(** ** Lemmas on the local server *)
Module LocalFacts.
Import Local.
Section facts.
Context `{W : WireOps} (c : ServerConfig).

Lemma onRead_socks st sock id b st' eff : onRead c st sock id b = Some (st', eff) ->
  socks st' = socks st /\ counter st' = counter st /\ exists buf, bufs st' = <[sock := buf]> (bufs st).
Proof.
  unfold onRead. destruct (on_read _ _ _ _) as [[out buf]|]; [|done]. intros [= <- _]. eauto.
Qed.
Lemma id_of_elem st sock id : id_of st sock = Some id -> (id, sock) ∈ socks st.
Proof.
  unfold id_of. destruct (find _ _) as [[i s]|] eqn:E; [|done]. intros [= <-].
  apply find_some in E as [Hin Hs]. simpl in *. bool_to_prop. subst. by apply list_elem_of_In.
Qed.
Lemma qm_insert_perm {V} k (v : V) m : qm_find k m = None -> qm_insert k v m ≡ₚ (k, v) :: m.
Proof.
  induction m as [|[j w] m IH]; simpl; [done|]. case_bool_decide; [done|]. intros Hf.
  destruct (str_ltb k j); [done|]. rewrite IH by done. apply Permutation_swap.
Qed.
Lemma qm_erase_perm {V} k (v : V) m : qm_sorted m = true -> (k, v) ∈ m -> m ≡ₚ (k, v) :: qm_erase k m.
Proof.
  induction m as [|[j w] m IH]; simpl; [by intros _ ?%elem_of_nil|]. rewrite andb_true_iff.
  intros [Ha Hs] [[= -> ->]|Hin]%elem_of_cons.
  - rewrite bool_decide_eq_true_2 by done. rewrite qm_erase_id; [done|]. by apply qm_above_find.
  - case_bool_decide as E; [subst|by rewrite (IH Hs Hin) at 1; rewrite Permutation_swap].
    pose proof (qm_above_all _ _ _ _ Ha Hin) as H. by rewrite str_ltb_irrefl in H.
Qed.

Lemma wf_read st sock id b st' eff : wf st -> (id, sock) ∈ socks st ->
  onRead c st sock id b = Some (st', eff) -> wf st'.
Proof.
  intros [? ? ? ? Hb] Hin H. destruct (onRead_socks _ _ _ _ _ _ H) as (Es & Ec & buf & Eb).
  split; rewrite ?Es, ?Ec; try done. intros s. rewrite Eb.
  destruct (decide (s = sock)) as [->|].
  - rewrite lookup_insert_eq. split; [|by eauto]. intros _. apply list_elem_of_fmap. by exists (id, sock).
  - by rewrite lookup_insert_ne.
Qed.
Lemma wf_accept st sock b st' eff : wf st -> bufs st !! sock = None -> counter st < 2 ^ 32 - 1 ->
  accept c st sock b = Some (st', eff) -> wf st'.
Proof.
  intros [Hc Hs Hi Hn Hb] Hfresh Hmax. unfold accept. rewrite wrapu_small by lia.
  set (id := to_string (counter st + 1)).
  assert (qm_find id (socks st) = None) as Hf.
  { destruct (qm_find id (socks st)) as [s|] eqn:E; [|done].
    apply qm_find_elem, Hi in E as (n & Hr & E). subst id. apply to_string_inj in E; lia. }
  set (st1 := {| socks := _; bufs := _; counter := _ |}).
  assert (wf st1) as Hwf.
  { subst st1. pose proof (qm_insert_perm id sock _ Hf) as Hp.
    split; cbn [socks bufs counter]; [lia|by apply qm_sorted_insert|..].
    - intros i s. rewrite Hp. intros [[= -> ->]|Hin]%elem_of_cons.
      + exists (counter st + 1). split; [lia|done].
      + destruct (Hi _ _ Hin) as (n & ? & ->). exists n. split; [lia|done].
    - rewrite Hp. simpl. constructor; [|done]. intros ?%Hb. by rewrite Hfresh in H; destruct H.
    - intros s. rewrite Hp. simpl. rewrite elem_of_cons. destruct (decide (s = sock)) as [->|].
      + rewrite lookup_insert_eq. split; eauto.
      + rewrite lookup_insert_ne by done. rewrite Hb. naive_solver. }
  destruct b as [|x b]; [by intros [= <- _]|].
  destruct (onRead c st1 sock id (x :: b)) as [[st2 e2]|] eqn:E; [|done]. intros [= <- _].
  eapply wf_read; [exact Hwf| |exact E]. subst st1. cbn [socks]. rewrite (qm_insert_perm _ _ _ Hf). by left.
Qed.
Lemma wf_disconnected st sock id : wf st -> (id, sock) ∈ socks st -> wf (disconnected st sock id).1.
Proof.
  intros [Hc Hs Hi Hn Hb] Hin. pose proof (qm_erase_perm id sock _ Hs Hin) as Hp.
  split; cbn [disconnected fst socks bufs counter]; [done|by apply qm_sorted_erase|..].
  - intros i s Hin'. apply (Hi i s). rewrite Hp. by right.
  - rewrite Hp in Hn. simpl in Hn. by apply NoDup_cons in Hn as [_ ?].
  - intros s. rewrite Hp in Hn. simpl in Hn. apply NoDup_cons in Hn as [Hni _].
    specialize (Hb s). rewrite Hp in Hb. simpl in Hb. rewrite elem_of_cons in Hb.
    destruct (decide (s = sock)) as [->|].
    + rewrite lookup_delete_eq. split; [by intros []|done].
    + rewrite lookup_delete_ne by done. rewrite Hb. naive_solver.
Qed.
Lemma reachable_wf st : reachable c st -> wf st.
Proof.
  induction 1 as [|st e st' eff _ IH Hal Hc He].
  { split; simpl; try done; [by intros ? ? ?%elem_of_nil|constructor|].
    intros s. rewrite lookup_empty. split; [by intros []|by intros ?%elem_of_nil]. }
  destruct e as [sock b|sock b|sock]; simpl in *; [by eapply wf_accept|..];
    destruct (id_of st sock) as [id|] eqn:E; try (by injection He as <- _).
  - eapply wf_read; [done| |done]. by apply id_of_elem.
  - injection He as <- _. apply (wf_disconnected st sock id IH). by apply id_of_elem.
Qed.

Lemma elem_id_of st id sock : wf st -> (id, sock) ∈ socks st -> id_of st sock = Some id.
Proof.
  intros [_ _ _ Hn _]. unfold id_of. induction (socks st) as [|[i s] l IH]; [by intros ?%elem_of_nil|].
  simpl in *. apply NoDup_cons in Hn as [Hni Hn]. destruct (Z.eqb_spec s sock) as [->|Hne].
  - intros [[= ->]|Hin]%elem_of_cons; [done|]. destruct Hni. apply list_elem_of_fmap. by exists (id, sock).
  - intros [[= _ ->]|Hin]%elem_of_cons; [done|]. by apply IH.
Qed.
Lemma msgs_from_emit id i out : per_client c = true ->
  msgs_from id (map (emit_msg c i) out) = if bool_decide (i = id) then drained_msgs out else [].
Proof.
  intros Hpc. unfold msgs_from, drained_msgs. induction out as [|d out IH]; csimpl; [by case_bool_decide|].
  rewrite IH. destruct d; simpl; rewrite ?Hpc; by case_bool_decide.
Qed.

Lemma run_reads_isolated evs : forall st st' eff, wf st -> per_client c = true ->
  run_reads c st evs = Some (st', eff) -> forall id sock, (id, sock) ∈ socks st ->
  exists out buf, read_all (protocol c) (compression c) (default [] (bufs st !! sock)) (chunks_of sock evs)
      = Some (out, buf) /\
    msgs_from id eff = drained_msgs out /\ default [] (bufs st' !! sock) = buf.
Proof.
  induction evs as [|[s chunk] evs IH]; intros st st' eff Hwf Hpc; cbn [run_reads].
  { intros [= <- <-] id sock _. by exists [], (default [] (bufs st !! sock)). }
  destruct (handle c st (Read s chunk)) as [[st1 eff1]|] eqn:Eh; [|done].
  destruct (run_reads c st1 evs) as [[st2 eff2]|] eqn:Er; [|done]. intros [= <- <-] id sock Hin.
  unfold msgs_from. rewrite omap_app. cbn [handle] in Eh.
  destruct (id_of st s) as [i|] eqn:Ei.
  2: { injection Eh as <- <-. destruct (IH _ _ _ Hwf Hpc Er id sock Hin) as (out & buf & H1 & H2 & H3).
    exists out, buf. unfold chunks_of. csimpl. rewrite bool_decide_eq_false_2; [done|]. intros ->.
    by rewrite (elem_id_of _ _ _ Hwf Hin) in Ei. }
  pose proof (id_of_elem _ _ _ Ei) as Hin_s.
  pose proof (wf_read _ _ _ _ _ _ Hwf Hin_s Eh) as Hwf1.
  destruct (onRead_socks _ _ _ _ _ _ Eh) as (Es & _ & buf1 & Eb).
  destruct (IH _ _ _ Hwf1 Hpc Er id sock ltac:(by rewrite Es)) as (out & buf & H1 & H2 & H3).
  unfold onRead in Eh. destruct (on_read _ _ _ chunk) as [[o1 b1]|] eqn:Eo; [|done].
  injection Eh as <- <-. cbn [bufs] in *.
  change (omap _ (map (emit_msg c i) o1)) with (msgs_from id (map (emit_msg c i) o1)).
  change (omap _ eff2) with (msgs_from id eff2). rewrite msgs_from_emit by done.
  destruct (decide (s = sock)) as [->|Hne].
  - rewrite (elem_id_of _ _ _ Hwf Hin) in Ei. injection Ei as <-. rewrite bool_decide_eq_true_2 by done.
    rewrite lookup_insert_eq in H1. simpl in H1. unfold chunks_of. csimpl. rewrite bool_decide_eq_true_2 by done.
    cbn [read_all]. rewrite Eo. fold (chunks_of sock evs). rewrite H1. exists (o1 ++ out), buf.
    split_and!; [done| |done]. unfold drained_msgs. rewrite omap_app. by f_equal.
  - rewrite lookup_insert_ne in H1 by done. rewrite bool_decide_eq_false_2.
    + exists out, buf. unfold chunks_of. csimpl. by rewrite bool_decide_eq_false_2.
    + intros ->. pose proof (wf_sorted _ Hwf) as Hs.
      pose proof (qm_elem_find _ _ _ Hs Hin). pose proof (qm_elem_find _ _ _ Hs Hin_s). congruence.
Qed.
End facts.
End LocalFacts.

(** * Properties *)

(** C6: in every reachable state of the local server each connected socket has
    exactly one id, the ids are distinct numbers already given out, and exactly
    the connected sockets have a receive buffer. *)
Theorem local_server_invariant (W : WireOps) c st : Local.reachable c st -> Local.wf st.
Proof. apply LocalFacts.reachable_wf. Qed.
Lemma local_server_invariant_witness :
  let c := {| Local.protocol := proto_json; Local.compression := None; Local.per_client := true |} in
  exists st eff, Local.accept (W := tiny_wire) c Local.server_init 5 [0; 0] = Some (st, eff) /\ Local.wf st.
Proof.
  eexists _, _. split; [vm_compute; reflexivity|].
  apply (local_server_invariant tiny_wire
    {| Local.protocol := proto_json; Local.compression := None; Local.per_client := true |}).
  eapply (Local.reach_step _ _ (Local.Accept 5 [0; 0])); [constructor|reflexivity|reflexivity|].
  vm_compute. reflexivity.
Defined.

(** The reads of different clients do not mix: whatever the interleaving, in
    routed mode the messages attributed to a client, and the rest in its buffer,
    are those of its own bytes alone. *)
Theorem local_reads_isolated (W : WireOps) c st st' eff evs id sock :
  Local.reachable c st -> Local.per_client c = true -> (id, sock) ∈ Local.socks st ->
  Local.run_reads c st evs = Some (st', eff) ->
  exists out buf,
    read_all (Local.protocol c) (Local.compression c) (default [] (Local.bufs st !! sock))
      (Local.chunks_of sock evs) = Some (out, buf) /\
    Local.msgs_from id eff = Local.drained_msgs out /\
    default [] (Local.bufs st' !! sock) = buf.
Proof.
  intros Hr Hpc Hin Hrun. eapply LocalFacts.run_reads_isolated; [|done..].
  by eapply LocalFacts.reachable_wf.
Qed.
Lemma local_reads_isolated_witness :
  let c := {| Local.protocol := proto_json; Local.compression := None; Local.per_client := true |} in
  let st := {| Local.socks := [("1", 5)]; Local.bufs := {[5 := []]}; Local.counter := 1 |} in
  exists st' eff, Local.run_reads (W := tiny_wire) c st [(5, [0; 0]); (6, [1]); (5, [0; 1; 1])] = Some (st', eff) /\
    Local.msgs_from "1" eff = [VBool true].
Proof.
  intros c st. destruct (Local.run_reads (W := tiny_wire) c st [(5, [0; 0]); (6, [1]); (5, [0; 1; 1])])
    as [[st' eff]|] eqn:E; [|vm_compute in E; discriminate]. exists st', eff. split; [reflexivity|].
  destruct (local_reads_isolated tiny_wire c st st' eff [(5, [0; 0]); (6, [1]); (5, [0; 1; 1])] "1" 5)
    as (out & buf & H1 & H2 & _).
  - eapply (Local.reach_step _ Local.server_init (Local.Accept 5 [])); [constructor|reflexivity|reflexivity|].
    vm_compute. reflexivity.
  - reflexivity.
  - left.
  - exact E.
  - rewrite H2. vm_compute in H1. by injection H1 as <- _.
Defined.

(** Routing. An invalid message goes nowhere; in routed mode a map with a
    known client id is sent exactly to the clients it names, each getting its own
    value, and to nobody else; every other message is broadcast, once to each
    connected client.  The WebSocket server routes in the same way. *)
Theorem servers_route (W : WireOps) utf8 lc wc per_client lst socks msg :
  let route_to (send : Z -> QVar -> SockEffect) pc ss effects :=
    (isValid msg = false -> effects = []) /\
    (forall m, msg = VMap m -> pc = true -> targets ss m <> [] ->
       effects = map (fun sv => send sv.1 sv.2) (targets ss m)) /\
    (isValid msg = true -> (pc = false \/ match msg with VMap m => targets ss m = [] | _ => True end) ->
       effects = map (fun s => send s.2 msg) ss) in
  route_to (fun s v => Write s (Frame (Local.protocol lc) (Local.compression lc) v))
    (Local.per_client lc) (Local.socks lst) (Local.OnMsg lc lst msg) /\
  route_to (fun s v => Ws.send_one utf8 wc (Ws.prepareMsg wc v) s)
    per_client socks (Ws.OnMsg utf8 wc per_client socks msg).
Proof.
  assert (forall send pc (ss : list (string * Z)) (effects : list SockEffect),
    effects = (if negb (isValid msg) then [] else
      match msg with
      | VMap m => if pc : bool then let '(t, out) := route ss send m false in
                                    if t then out else out ++ map (fun s => send s.2 msg) ss
                  else map (fun s => send s.2 msg) ss
      | _ => map (fun s => send s.2 msg) ss
      end) ->
    (isValid msg = false -> effects = []) /\
    (forall m, msg = VMap m -> pc = true -> targets ss m <> [] ->
       effects = map (fun sv => send sv.1 sv.2) (targets ss m)) /\
    (isValid msg = true -> (pc = false \/ match msg with VMap m => targets ss m = [] | _ => True end) ->
       effects = map (fun s => send s.2 msg) ss)) as H.
  { intros send pc ss effects ->. split_and!.
    - by intros ->.
    - intros m -> -> Ht. simpl. rewrite route_targets. by rewrite bool_decide_eq_false_2.
    - intros ->. simpl. destruct msg as [| | | | | | | | | | | | |m|]; try done. destruct pc; [|done].
      intros [|Ht]; [done|]. rewrite route_targets, bool_decide_eq_true_2 by done. by rewrite Ht. }
  intros route_to. split; apply H; [unfold Local.OnMsg|unfold Ws.OnMsg]; by destruct msg.
Qed.

(** A WebSocket message survives the trip between two workers configured
    alike: what the client or server sends is what the other side emits, in its
    JSON normal form, over text or binary frames as the configuration chooses,
    with nothing logged. *)
Theorem websocket_roundtrip (W : WireOps) (J : JsonView -> Prop) (L : WireLaws W J) utf8 c addr sock v :
  sendable (J := J) v ->
  (Ws.isBinary (Ws.base c) = false -> utf8 (DumpJson (DoIntoJson v)) = DumpJson (DoIntoJson v)) ->
  (exists b, Ws.delivered sock (Ws.client_OnMsg utf8 c sock v) = Some b /\
     Ws.messageReceived (Ws.base c) false addr b = [Emit (SendMsg (json_norm v))] /\
     Ws.messageReceived (Ws.base c) true addr b = [Emit (SendMsg (VMap [(addr, json_norm v)]))]) /\
  (isValid v = true -> exists b,
     omap (Ws.delivered sock) (Ws.OnMsg utf8 (Ws.base c) false [(addr, sock)] v) = [b] /\
     Ws.client_received c b = [Emit (SendMsg (json_norm v))]).
Proof.
  intros (Hwf & Hsz & HJ) Hutf. set (b := Ws.base c) in *.
  destruct (json_parse_dump (W := W) _ HJ) as [Hj1 Hj2], (msgpack_parse_dump (W := W) _ HJ) as [Hm1 Hm2].
  assert (Ws.recvFrom b (Ws.prepareMsg b v) = (Ok (json_norm v), [])) as Hr.
  { unfold Ws.recvFrom, Ws.recv_view, Ws.prepareMsg.
    assert (forall d, d <> [] -> match Ws.protocol b with Ws.msgpack => ParseMsgPack d | Ws.json => ParseJson d end
        = Ok (DoIntoJson v) ->
      match (let* m := match (match Ws.compression b with Some zlib => qCompress d | None => d end) with
               | [] => Raise "Empty msg"
               | _ => match Ws.compression b with
                      | Some zlib => match qUncompress (match Ws.compression b with Some zlib => qCompress d | None => d end) with
                                     | [] => Raise "Could not uncompress using zlib" | m => Ok m end
                      | None => Ok (match Ws.compression b with Some zlib => qCompress d | None => d end) end end in
             match Ws.protocol b with Ws.msgpack => ParseMsgPack m | Ws.json => ParseJson m end) with
      | Ok r => (DoFromJson r, []) | Raise e => (Ok VInvalid, [Emit (LogLine error ("Error receiving => " +:+ e))])
      end = (Ok (json_norm v), [])) as H.
    { intros d Hd Hp. destruct (Ws.compression b) as [[]|].
      - destruct (zlib_inverse (WireLaws := L) d Hd) as [Hc Hu]. destruct (qCompress d); [done|].
        rewrite Hu. destruct d; [done|]. cbn [res_bind]. rewrite Hp. by rewrite json_roundtrip.
      - destruct d; [done|]. cbn [res_bind]. rewrite Hp. by rewrite json_roundtrip. }
    destruct (Ws.protocol b) eqn:Ep; apply H; rewrite ?Ep; done. }
  assert (exists p, Ws.delivered sock (Ws.send_one utf8 b (Ws.prepareMsg b v) sock) = Some p /\
    Ws.recvFrom b p = (Ok (json_norm v), [])) as (p & Hp & Hrp).
  { exists (Ws.prepareMsg b v). split; [|done]. unfold Ws.send_one.
    destruct (Ws.isBinary b) eqn:Eb; simpl; rewrite Z.eqb_refl; [done|]. f_equal.
    unfold Ws.prepareMsg, Ws.isBinary in *. destruct (Ws.compression b), (Ws.protocol b); try done. by apply Hutf. }
  split.
  - exists p. unfold Ws.client_OnMsg, Ws.messageReceived. fold b. rewrite Hrp.
    unfold Ws.send_one in Hp. by destruct (Ws.isBinary b).
  - intros Hv. exists p. unfold Ws.client_received. fold b. rewrite Hrp. split; [|done].
    unfold Ws.OnMsg. rewrite Hv. cbn [negb]. destruct v; simpl; by rewrite Hp.
Qed.
Lemma websocket_roundtrip_witness :
  let c := {| Ws.base := {| Ws.protocol := Ws.json; Ws.compression := None; Ws.compression_level := -1 |};
              Ws.reconnect_timeout := 10000 |} in
  exists b, Ws.delivered 3 (Ws.client_OnMsg (W := tiny_wire) (fun x => x) c 3 (VBool true)) = Some b /\
     Ws.messageReceived (W := tiny_wire) (Ws.base c) true "a:1" b = [Emit (SendMsg (VMap [("a:1", VBool true)]))].
Proof.
  intros c.
  destruct (websocket_roundtrip tiny_wire _ tiny_laws (fun x => x) c "a:1" 3 (VBool true)) as [(b & ? & _ & ?) _].
  - by split_and!.
  - reflexivity.
  - by exists b.
Defined.

(** A WebSocket client leaves the server's table only when its deferred
    deletion runs, by address: if a client reconnects from the same address
    before that, the deletion of the old socket removes the new one, which stays
    connected but is no longer reached by any message. *)
Theorem websocket_stale_erase (W : WireOps) utf8 c per_client socks old new addr m :
  qm_sorted socks = true -> isValid m = true ->
  let socks1 := (Ws.disconnected (Ws.accept socks old addr).1 old addr).1 in
  let socks2 := (Ws.accept socks1 new addr).1 in
  qm_find addr socks2 = Some new /\
  qm_find addr (Ws.destroyed socks2 addr) = None /\
  (new ∉ socks.*2 ->
   omap (Ws.delivered new) (Ws.OnMsg utf8 c per_client (Ws.destroyed socks2 addr) m) = []).
Proof.
  intros Hs Hv. cbn [Ws.accept Ws.disconnected fst]. rewrite qm_insert_insert. unfold Ws.destroyed.
  rewrite qm_find_insert_eq, qm_find_erase_eq. split_and!; [done..|]. intros Hnew.
  set (ss := qm_erase addr _). assert (forall k s, (k, s) ∈ ss -> s <> new) as Hss.
  { intros k s Hin ->. apply Hnew, list_elem_of_fmap. exists (k, new). split; [done|].
    assert (qm_sorted ss = true) as Hsort by (by apply qm_sorted_erase, qm_sorted_insert).
    apply qm_elem_find in Hin; [|done]. destruct (decide (addr = k)) as [->|Hne].
    - unfold ss in Hin. by rewrite qm_find_erase_eq in Hin.
    - unfold ss in Hin. rewrite qm_find_erase_ne, qm_find_insert_ne in Hin by done. by apply qm_find_elem. }
  assert (forall s b, s <> new -> Ws.delivered new (Ws.send_one utf8 c b s) = None) as Hd.
  { intros s b Hne. unfold Ws.send_one, Ws.delivered. destruct (Ws.isBinary c);
      by rewrite (proj2 (Z.eqb_neq _ _)). }
  assert (omap (Ws.delivered new) (map (fun s => Ws.send_one utf8 c (Ws.prepareMsg c m) s.2) ss) = []) as Hb.
  { clear -Hss Hd. induction ss as [|[k s] l IH]; [done|]. csimpl.
    rewrite Hd by (eapply Hss; by left). apply IH. intros. eapply Hss. by right. }
  unfold Ws.OnMsg. rewrite Hv. cbn [negb]. destruct m as [| | | | | | | | | | | | |m|]; try done.
  destruct per_client; [|done]. rewrite route_targets. simpl.
  assert (omap (Ws.delivered new) (map (fun sv => Ws.send_one utf8 c (Ws.prepareMsg c sv.2) sv.1) (targets ss m)) = []) as Ht.
  { unfold targets. clear Hb Hv. induction m as [|[k v] m IH]; [done|]. csimpl.
    destruct (qm_find k ss) as [s|] eqn:E; csimpl; [|apply IH]. rewrite Hd; [apply IH|].
    eapply Hss. by apply qm_find_elem. }
  destruct (negb _); [done|]. rewrite omap_app. by rewrite Ht.
Qed.
Lemma websocket_stale_erase_witness :
  let socks2 := (Ws.accept (Ws.disconnected (Ws.accept [] 1 "h:9").1 1 "h:9").1 2 "h:9").1 in
  qm_find "h:9" socks2 = Some 2 /\ qm_find "h:9" (Ws.destroyed socks2 "h:9") = None.
Proof.
  intros socks2. destruct (websocket_stale_erase tiny_wire (fun x => x)
    {| Ws.protocol := Ws.json; Ws.compression := None; Ws.compression_level := -1 |}
    false [] 1 2 "h:9" (VBool true) eq_refl eq_refl) as (H1 & H2 & _). by split.
Defined.
