(* ===== verification/ModbusUnits.v ===== *)
(** * Modbus: registers, merged reads and the word codec

    Models src/src/workers/modbus/modbus_settings.hpp (configuration data) and
    modbus_units.hpp: validation of the register maps, the sorted preparation
    and merging of reads, the table of writable registers, and the encoding of
    a value into register words and back.  The host is little-endian
    ([Q_BYTE_ORDER]).  [QModbusDataUnit] is Qt's plain record of a register
    range. Register indices are [int]s whose sums the source assumes not to
    overflow; they are plain integers here. *)
From stdpp Require Import sorting.
From S2P Require Import Prelude QVariant.

(** ** Configuration *)
Inductive ByteOrder := big | little.
Definition ByteOrder_names := [("big", big); ("little", little)].
#[export] Instance ByteOrder_eq : EqDecision ByteOrder. Proof. solve_decision. Defined.

Inductive RegisterMode := defaultMode | mode_read | mode_read_write | mode_write.
Definition RegisterMode_names := [("r", mode_read); ("rw", mode_read_write); ("w", mode_write);
  ("read", mode_read); ("readwrite", mode_read_write); ("write", mode_write)].
#[export] Instance RegisterMode_eq : EqDecision RegisterMode. Proof. solve_decision. Defined.

Inductive RegisterValueType := defaultValueType | uint16 | uint32 | float32 | bit.
Definition RegisterValueType_names := [("uint16", uint16); ("uint32", uint32); ("float32", float32)].
#[export] Instance RegisterValueType_eq : EqDecision RegisterValueType. Proof. solve_decision. Defined.

Record RegisterPacking := { byte : ByteOrder; word : ByteOrder }.
Definition self_order : ByteOrder := little.
Definition default_packing : RegisterPacking := {| byte := self_order; word := self_order |}.

Record Register := {
  index : Z;
  packing : RegisterPacking;
  type : RegisterValueType;
  mode : RegisterMode;
  validator : option nat               (* a Lua function *)
}.
Definition Register_default (i : Z) : Register :=
  {| index := i; packing := default_packing; type := defaultValueType; mode := defaultMode; validator := None |}.
Definition SingleTypeMap : Type := list (string * Register).
Record RegistersMap := {
  map_di : SingleTypeMap; map_holding : SingleTypeMap; map_input : SingleTypeMap; map_coils : SingleTypeMap
}.

Inductive OverflowBehaviour := pop_last | pop_first.
Definition OverflowBehaviour_names := [("pop_last", pop_last); ("pop_first", pop_first)].
Record Device := {
  dev_name : string; frame_gap : Z; max_write_queue : Z; max_read_queue : Z; reconnect_timeout_ms : Z;
  on_read_overflow : OverflowBehaviour; on_write_overflow : OverflowBehaviour
}.
Definition Device_default : Device := {|
  dev_name := ""; frame_gap := 25; max_write_queue := 100; max_read_queue := 50;
  reconnect_timeout_ms := 1000; on_read_overflow := pop_first; on_write_overflow := pop_first |}.

Inductive RegisterType := holding | coil | di | input.
Definition RegisterType_names :=
  [("holding", holding); ("coil", coil); ("di", di); ("discrete_input", di); ("input", input)].
Record ManualQuery := { q_type : RegisterType; q_index : Z; q_count : Z }.
Record MasterConfig := {
  registers : RegistersMap; slave_id : Z; response_time : Z; poll_rate : Z; write_retries : Z;
  queries : option (list ManualQuery)
}.
Definition MasterConfig_default (r : RegistersMap) (slave : Z) : MasterConfig :=
  {| registers := r; slave_id := slave; response_time := 150; poll_rate := 500; write_retries := 3; queries := None |}.

(** Qt's register range. *)
Inductive MbType := DiscreteInputs | Coils | InputRegisters | HoldingRegisters.
#[export] Instance MbType_eq : EqDecision MbType. Proof. solve_decision. Defined.
Record DataUnit := { registerType : MbType; startAddress : Z; valueCount : Z; values : list Z }.
(** [value(i)]: zero outside. *)
Definition unit_value (u : DataUnit) (i : Z) : Z :=
  if i <? 0 then 0 else default 0 (values u !! Z.to_nat i).

(** ** Prepared registers *)
Record PreparedRegister := {
  pkey : string; ptype : RegisterValueType; ppacking : RegisterPacking;
  pvalidator : option nat; pindex : Z; sizeOf : Z
}.
Record PreparedWriteRegister := { wreg : PreparedRegister; writeOnly : bool; mbType : MbType }.
Record MergedRead := { regs : list PreparedRegister; unit : DataUnit }.
Definition PreparedReads : Type := list MergedRead.
Definition PreparedWrites : Type := list (string * PreparedWriteRegister).

Definition getSizeOf (type : RegisterValueType) : Z :=
  match type with
  | defaultValueType => 2
  | bit => 2
  | uint16 => 2
  | float32 => 4
  | uint32 => 4
  end.
(** The number of 16-bit registers. *)
Definition words_of (r : PreparedRegister) : Z := sizeOf r / 2.

Definition compareByIndex (lhs rhs : PreparedRegister) : bool := pindex lhs <? pindex rhs.

(** ** Validation *)
Definition validateReadOnly (reg : Register) (ty : string) : res Datatypes.unit :=
  match mode reg with
  | mode_write | mode_read_write => Raise (ty +:+ " registers cannot be writable")
  | _ => Ok tt
  end.
Definition validateSingleBit (reg : Register) (ty : string) : res Datatypes.unit :=
  match type reg with
  | defaultValueType | bit => Ok tt
  | _ => Raise (ty +:+ " registers cannot have a type (single bit only)")
  end.
Definition with_defaults (v : Register) : Register :=
  {| index := index v; packing := packing v;
     type := match type v with defaultValueType => uint16 | t => t end;
     mode := match mode v with defaultMode => mode_read_write | m => m end;
     validator := validator v |}.
Definition as_bit (mode : RegisterMode) (v : Register) : Register :=
  {| index := index v; packing := default_packing; type := bit; mode := mode; validator := validator v |}.
Definition each_register (f : Register -> res Register) (m : SingleTypeMap) : res SingleTypeMap :=
  res_map (fun kv => let* v := f kv.2 in Ok (kv.1, v)) m.

Definition validateRegisters (regs : RegistersMap) : res RegistersMap :=
  let* d := each_register (fun v =>
    let* _ := validateReadOnly v "Discrete Input" in
    let* _ := validateSingleBit v "Discrete Input" in
    Ok (as_bit mode_read v)) (map_di regs) in
  let* c := each_register (fun v =>
    let* _ := validateSingleBit v "Coils" in Ok (as_bit (mode v) v)) (map_coils regs) in
  let* i := each_register (fun v =>
    let* _ := validateReadOnly v "Input" in Ok (with_defaults v)) (map_input regs) in
  let* h := each_register (fun v => Ok (with_defaults v)) (map_holding regs) in
  Ok {| map_di := d; map_holding := h; map_input := i; map_coils := c |}.

(** ** Sorting the readable registers *)
Definition prepare_meta (k : string) (reg : Register) : PreparedRegister :=
  {| pkey := k; ptype := type reg; ppacking := packing reg; pvalidator := validator reg;
     pindex := index reg; sizeOf := getSizeOf (type reg) |}.

(** [std::lower_bound]: the elements before and from the first one not below. *)
Fixpoint lower_bound {A} (below : A -> bool) (l : list A) : list A * list A :=
  match l with
  | [] => ([], [])
  | x :: l' => if below x then let '(a, b) := lower_bound below l' in (x :: a, b) else ([], l)
  end.

Definition insert_sorted (sorted : list PreparedRegister) (meta : PreparedRegister)
    : res (list PreparedRegister) :=
  let '(before, from) := lower_bound (fun r => compareByIndex r meta) sorted in
  match from with
  | [] => Ok (sorted ++ [meta])
  | it :: _ =>
      if pindex it =? pindex meta then Raise "Index collision for registers"
      else if pindex it <? pindex meta + words_of meta then Raise "Register overlap"
      else Ok (before ++ meta :: from)
  end.
Fixpoint prepare_loop (include_write_only : bool) (map : SingleTypeMap) (sorted : list PreparedRegister)
    : res (list PreparedRegister) :=
  match map with
  | [] => Ok sorted
  | (k, reg) :: map' =>
      if (bool_decide (mode reg = mode_write) && negb include_write_only)%bool
      then prepare_loop include_write_only map' sorted
      else let* sorted := insert_sorted sorted (prepare_meta k reg) in
           prepare_loop include_write_only map' sorted
  end.
Definition prepareReadableSorted (map : SingleTypeMap) (include_write_only : bool)
    : res (list PreparedRegister) := prepare_loop include_write_only map [].

(** ** Merging adjacent registers into one request *)
Definition setAsFirst (type : MbType) (reg : PreparedRegister) : MergedRead :=
  {| regs := [reg];
     unit := {| registerType := type; startAddress := pindex reg; valueCount := wrapu 16 (words_of reg); values := [] |} |}.
Definition extend (m : MergedRead) (reg : PreparedRegister) : MergedRead :=
  {| regs := regs m ++ [reg];
     unit := {| registerType := registerType (unit m); startAddress := startAddress (unit m);
                valueCount := valueCount (unit m) + wrapu 16 (words_of reg); values := values (unit m) |} |}.
Fixpoint merge_loop (type : MbType) (sorted : list PreparedRegister) (merge : option MergedRead)
    (out : list MergedRead) : list MergedRead :=
  match sorted with
  | [] => out ++ match merge with Some m => [m] | None => [] end
  | reg :: sorted' =>
      match merge with
      | None => merge_loop type sorted' (Some (setAsFirst type reg)) out
      | Some m =>
          match last (regs m) with
          | Some l =>
              if pindex reg =? pindex l + words_of l
              then merge_loop type sorted' (Some (extend m reg)) out
              else merge_loop type sorted' (Some (setAsFirst type reg)) (out ++ [m])
          | None => merge_loop type sorted' (Some (setAsFirst type reg)) out
          end
      end
  end.
Definition mergeSingle (out : list MergedRead) (map : SingleTypeMap) (type : MbType) : res (list MergedRead) :=
  let* sorted := prepareReadableSorted map false in
  Ok (merge_loop type sorted None out).

Definition prepareReads (m : RegistersMap) : res PreparedReads :=
  let* r := mergeSingle [] (map_holding m) HoldingRegisters in
  let* r := mergeSingle r (map_di m) DiscreteInputs in
  let* r := mergeSingle r (map_input m) InputRegisters in
  mergeSingle r (map_coils m) Coils.

(** ** Manual queries *)
Fixpoint manual_loop (q : ManualQuery) (end_ : Z) (regs : list PreparedRegister) : res (list PreparedRegister) :=
  match regs with
  | [] => Ok []
  | r :: regs' =>
      let regEnd := pindex r + sizeOf r in
      if ((wraps 32 (q_index q) <=? pindex r) && (pindex r <? wraps 32 end_))%bool then
        if wraps 32 end_ <? regEnd then Raise "Manual query would split register"
        else let* rest := manual_loop q end_ regs' in Ok (r :: rest)
      else if wraps 32 end_ <=? pindex r then Ok []
      else manual_loop q end_ regs'
  end.
Definition prepareSingleManual (q : ManualQuery) (sorted : list PreparedRegister) (type : MbType) : res MergedRead :=
  let end_ := wrapu 32 (q_index q + q_count q) in
  let* rs := manual_loop q end_ sorted in
  Ok {| regs := rs;
        unit := {| registerType := type; startAddress := wraps 32 (q_index q); valueCount := q_count q; values := [] |} |}.
Definition prepareManualReads (m : RegistersMap) (qs : list ManualQuery) : res PreparedReads :=
  let* sortedHoldings := prepareReadableSorted (map_holding m) false in
  let* sortedCoils := prepareReadableSorted (map_coils m) false in
  let* sortedDI := prepareReadableSorted (map_di m) false in
  let* sortedInputs := prepareReadableSorted (map_input m) false in
  res_map (fun q =>
    match q_type q with
    | holding => prepareSingleManual q sortedHoldings HoldingRegisters
    | coil => prepareSingleManual q sortedCoils Coils
    | di => prepareSingleManual q sortedDI DiscreteInputs
    | input => prepareSingleManual q sortedInputs InputRegisters
    end) qs.

(** ** Writable registers *)
Definition prepare_write (t : MbType) (k : string) (r : Register) : PreparedWriteRegister :=
  {| wreg := prepare_meta k r; writeOnly := bool_decide (mode r = mode_write); mbType := t |}.
Definition insert_write (regs : list PreparedWriteRegister) (reg : PreparedWriteRegister)
    : res (list PreparedWriteRegister) :=
  let '(before, from) := lower_bound (fun r => compareByIndex (wreg r) (wreg reg)) regs in
  match from with
  | [] => Ok (regs ++ [reg])
  | it :: _ =>
      if pindex (wreg it) <? pindex (wreg reg) + words_of (wreg reg) then Raise "Register overlap"
      else Ok (before ++ reg :: from)
  end.
Fixpoint add_loop (include_read_only : bool) (t : MbType) (src : SingleTypeMap)
    (regs : list PreparedWriteRegister) : res (list PreparedWriteRegister) :=
  match src with
  | [] => Ok regs
  | (k, r) :: src' =>
      if (bool_decide (mode r = mode_read) && negb include_read_only)%bool
      then add_loop include_read_only t src' regs
      else let* regs := insert_write regs (prepare_write t k r) in add_loop include_read_only t src' regs
  end.
Definition add_writes (include_read_only : bool) (result : PreparedWrites) (src : SingleTypeMap) (t : MbType)
    : res PreparedWrites :=
  let* regs := add_loop include_read_only t src [] in
  Ok (fold_left (fun acc r => qm_insert (pkey (wreg r)) r acc) regs result).
Definition prepareWrites (m : RegistersMap) (include_read_only : bool) : res PreparedWrites :=
  let* w := add_writes include_read_only [] (map_coils m) Coils in
  let* w := add_writes include_read_only w (map_di m) DiscreteInputs in
  let* w := add_writes include_read_only w (map_holding m) HoldingRegisters in
  add_writes include_read_only w (map_input m) InputRegisters.

(** ** Words *)
Definition bswap16 (w : Z) : Z := Z.lor (Z.shiftl (Z.land w 255) 8) (Z.shiftr w 8).
Definition swap2 (l : list Z) : list Z := match l with [a; b] => [b; a] | _ => l end.

(** [qToLittleEndian] is the identity on this host. *)
Definition applyPacking (words : list Z) (pack : RegisterPacking) : list Z :=
  let words := if negb (bool_decide (self_order = word pack)) then swap2 words else words in
  map (fun w => match byte pack with little => w | big => bswap16 w end) words.

(** [parseWords<uint16_t>] and [parseWords<uint32_t>] (or [float]) over the
    memory of [data]. *)
Definition parseWords16 (packing : RegisterPacking) (d0 : Z) : Z :=
  match byte packing with big => bswap16 d0 | little => d0 end.
Definition parseWords32 (packing : RegisterPacking) (d0 d1 : Z) : Z :=
  match byte packing with
  | big => Z.lor (Z.shiftl (bswap16 d0) 16) (bswap16 d1)
  | little => Z.lor d0 (Z.shiftl d1 16)
  end.

(** The value, and [data] as left behind (it is passed by reference). *)
Definition decodeRegister (reg : PreparedRegister) (data : Z * Z) : QVar * (Z * Z) :=
  let data := if negb (bool_decide (word (ppacking reg) = self_order)) then (data.2, data.1) else data in
  (match ptype reg with
   | defaultValueType => VInvalid          (* abort() *)
   | bit => VBool (negb (data.1 =? 0))
   | uint16 => VInt (parseWords16 (ppacking reg) data.1)
   | uint32 => VUInt (parseWords32 (ppacking reg) data.1 data.2)
   | float32 => VFloat (parseWords32 (ppacking reg) data.1 data.2)
   end, data).

Section encode.
Context `{O : QVariantOps}.
(** The words of a 32-bit value, in host order. *)
Definition words32 (u : Z) : list Z := [Z.land u 0xFFFF; Z.shiftr u 16].
Definition encodeRegister (reg : PreparedRegister) (v : QVar) : option (list Z) :=
  match ptype reg with
  | defaultValueType => None              (* abort() *)
  | bit => Some [if toBool v then 1 else 0]
  | uint16 =>
      match toUInt v with
      | Some ui => if 0xFFFF <? ui then None else Some (applyPacking [ui] (ppacking reg))
      | None => None
      end
  | uint32 =>
      match toUInt v with
      | Some ui => Some (applyPacking (words32 ui) (ppacking reg))
      | None => None
      end
  | float32 =>
      match toFloat v with
      | Some f => Some (applyPacking (words32 f) (ppacking reg))
      | None => None
      end
  end.
End encode.

(** ** Lemmas: the word codec *)
Lemma bswap16_val w : 0 <= w < 2 ^ 16 -> bswap16 w = (w mod 256) * 256 + w / 256.
Proof.
  intros Hw. unfold bswap16. change 255 with (Z.ones 8). rewrite land_mod by lia.
  rewrite Z.shiftr_div_pow2 by lia. change (2 ^ 8) with 256. apply (lor_shiftl_add _ _ 8); [|lia].
  split; [apply Z.div_pos; lia|]. apply Z.div_lt_upper_bound; lia.
Qed.
Lemma bswap16_range w : 0 <= w < 2 ^ 16 -> 0 <= bswap16 w < 2 ^ 16.
Proof.
  intros Hw. rewrite bswap16_val by done. pose proof (Z.mod_pos_bound w 256 ltac:(lia)).
  assert (0 <= w / 256 < 256) by (split; [apply Z.div_pos|apply Z.div_lt_upper_bound]; lia). lia.
Qed.
Lemma bswap16_invol w : 0 <= w < 2 ^ 16 -> bswap16 (bswap16 w) = w.
Proof.
  intros Hw. rewrite (bswap16_val (bswap16 w)) by (by apply bswap16_range). rewrite bswap16_val by done.
  pose proof (Z.mod_pos_bound w 256 ltac:(lia)).
  assert (0 <= w / 256 < 256) by (split; [apply Z.div_pos|apply Z.div_lt_upper_bound]; lia).
  replace (w mod 256 * 256 + w / 256) with (w / 256 + w mod 256 * 256) by lia.
  rewrite Z.mod_add, Z.div_add, (Z.mod_small (w / 256)), (Z.div_small (w / 256)) by lia.
  pose proof (Z.div_mod w 256). lia.
Qed.
Lemma words32_val u : 0 <= u < 2 ^ 32 ->
  exists lo hi, words32 u = [lo; hi] /\ 0 <= lo < 2 ^ 16 /\ 0 <= hi < 2 ^ 16 /\ u = hi * 2 ^ 16 + lo.
Proof.
  intros Hu. exists (u mod 2 ^ 16), (u / 2 ^ 16). unfold words32. change 0xFFFF with (Z.ones 16).
  rewrite land_mod, Z.shiftr_div_pow2 by lia.
  pose proof (Z.mod_pos_bound u (2 ^ 16) ltac:(lia)). pose proof (Z.div_mod u (2 ^ 16)).
  assert (0 <= u / 2 ^ 16 < 2 ^ 16) by (split; [apply Z.div_pos|apply Z.div_lt_upper_bound]; lia).
  split_and!; done || lia.
Qed.
Lemma join_words lo hi : 0 <= lo < 2 ^ 16 -> Z.lor (Z.shiftl hi 16) lo = hi * 2 ^ 16 + lo.
Proof. intros. by apply lor_shiftl_add. Qed.

(** How the words of a unit are laid in [data]: two for a wide register, one (and
    whatever was there) for a narrow one. *)
Definition load (words : list Z) (stale : Z) : Z * Z :=
  match words with [a; b] => (a, b) | [a] => (a, stale) | _ => (0, stale) end.

(** When the decoder inverts the encoder. *)
Definition roundtrips (reg : PreparedRegister) : bool :=
  match ptype reg with
  | uint32 | float32 => bool_decide (byte (ppacking reg) = little)
  | _ => bool_decide (word (ppacking reg) = little)
  end.
Section codec.
Context {O : QVariantOps} {L : QVariantLaws O}.

Lemma encode16 reg v words : ptype reg = uint16 -> encodeRegister reg v = Some words ->
  exists u, toUInt v = Some u /\ 0 <= u < 2 ^ 16 /\
    words = [match byte (ppacking reg) with little => u | big => bswap16 u end].
Proof.
  unfold encodeRegister. intros ->. destruct (toUInt v) as [u|] eqn:E; [|done].
  destruct (Z.ltb_spec 0xFFFF u); [done|]. intros [= <-]. exists u.
  pose proof (toUInt_range _ _ E). split_and!; [done|lia|lia|].
  unfold applyPacking. simpl. by destruct (negb _).
Qed.
Lemma decode_encode32 reg u stale : 0 <= u < 2 ^ 32 -> byte (ppacking reg) = little ->
  let '(d0, d1) := load (applyPacking (words32 u) (ppacking reg)) stale in
  (if negb (bool_decide (word (ppacking reg) = self_order)) then Z.lor d1 (Z.shiftl d0 16) else Z.lor d0 (Z.shiftl d1 16)) = u.
Proof.
  intros Hu Hb. destruct (words32_val u Hu) as (lo & hi & -> & Hlo & Hhi & ->).
  unfold applyPacking. rewrite Hb. destruct (word (ppacking reg)); simpl;
    rewrite Z.lor_comm; by apply join_words.
Qed.
(** With big-endian bytes the two halves come back exchanged. *)
Lemma decode_encode32_big reg u stale : 0 <= u < 2 ^ 32 -> byte (ppacking reg) = big ->
  let '(d0, d1) := load (applyPacking (words32 u) (ppacking reg)) stale in
  (if negb (bool_decide (word (ppacking reg) = self_order))
   then parseWords32 (ppacking reg) d1 d0 else parseWords32 (ppacking reg) d0 d1)
  = (u mod 2 ^ 16) * 2 ^ 16 + u / 2 ^ 16.
Proof.
  intros Hu Hb. destruct (words32_val u Hu) as (lo & hi & -> & Hlo & Hhi & ->).
  assert ((hi * 2 ^ 16 + lo) mod 2 ^ 16 = lo) as ->.
  { rewrite Z.add_comm, Z.mod_add by lia. by apply Z.mod_small. }
  assert ((hi * 2 ^ 16 + lo) / 2 ^ 16 = hi) as ->.
  { rewrite Z.add_comm, Z.div_add, Z.div_small by lia. lia. }
  unfold applyPacking, parseWords32. rewrite Hb. destruct (word (ppacking reg)); simpl;
    rewrite !bswap16_invol by done; by apply join_words.
Qed.
End codec.

(** ** Lemmas: sorting and merging *)
Definition before_by_index (a b : PreparedRegister) : Prop := pindex a < pindex b.
Definition readable (include_write_only : bool) (m : SingleTypeMap) : list PreparedRegister :=
  map (fun kv => prepare_meta kv.1 kv.2)
    (List.filter (fun kv => negb (bool_decide (mode kv.2 = mode_write) && negb include_write_only)%bool) m).

Lemma words_of_meta k reg : 1 <= words_of (prepare_meta k reg) <= 2.
Proof. unfold words_of. cbn. by destruct (type reg). Qed.
Lemma lower_bound_app {A} (below : A -> bool) l :
  let '(a, b) := lower_bound below l in
  l = a ++ b /\ Forall (fun x => below x = true) a /\ match b with x :: _ => below x = false | [] => True end.
Proof.
  induction l as [|x l IH]; simpl; [done|]. destruct (below x) eqn:E; [|done].
  destruct (lower_bound below l) as [a b]. destruct IH as (-> & ? & ?). split_and!; [done|by constructor|done].
Qed.

Lemma insert_sorted_spec sorted meta out :
  StronglySorted before_by_index sorted -> insert_sorted sorted meta = Ok out ->
  StronglySorted before_by_index out /\ out ≡ₚ meta :: sorted.
Proof.
  intros Hs. unfold insert_sorted. pose proof (lower_bound_app (fun r => compareByIndex r meta) sorted) as H.
  destruct (lower_bound _ sorted) as [a b]. destruct H as (-> & Ha & Hb).
  apply StronglySorted_app in Hs as (Hab & Hsa & Hsb). unfold compareByIndex in *.
  assert (Forall (fun x => before_by_index x meta) a) as Ha'.
  { eapply Forall_impl; [exact Ha|]. intros x Hx. simpl in Hx. bool_to_prop. done. }
  destruct b as [|it b].
  - intros [= <-]. rewrite !app_nil_r. split; [|by rewrite Permutation_app_comm].
    apply StronglySorted_app. split_and!; [|done|by repeat constructor].
    intros x y Hx ->%list_elem_of_singleton. by apply (proj1 (Forall_forall _ _) Ha').
  - bool_to_prop. destruct (Z.eqb_spec (pindex it) (pindex meta)); [done|].
    destruct (Z.ltb_spec (pindex it) (pindex meta + words_of meta)); [done|]. intros [= <-].
    assert (before_by_index meta it) as Hmi by (unfold before_by_index; lia).
    apply StronglySorted_inv in Hsb as [Hsb' Hit]. split.
    + apply StronglySorted_app. split_and!; [|done|].
      * intros x y Hx [->|Hy]%elem_of_cons; [by apply (proj1 (Forall_forall _ _) Ha')|by apply Hab].
      * constructor; [by constructor|]. constructor; [done|]. eapply Forall_impl; [exact Hit|].
        unfold before_by_index in *. intros; lia.
    + by rewrite <- Permutation_middle.
Qed.
Lemma prepare_loop_spec w m : forall sorted out,
  StronglySorted before_by_index sorted -> prepare_loop w m sorted = Ok out ->
  StronglySorted before_by_index out /\ out ≡ₚ readable w m ++ sorted.
Proof.
  induction m as [|[k reg] m IH]; intros sorted out Hs; simpl.
  { intros [= <-]. done. }
  unfold readable. simpl. destruct (bool_decide _ && negb w)%bool; simpl; [by apply IH|].
  destruct (insert_sorted sorted _) as [s1|] eqn:E; [|done]. cbn [res_bind]. intros H.
  destruct (insert_sorted_spec _ _ _ Hs E) as [Hs1 Hp]. destruct (IH _ _ Hs1 H) as [? Hq].
  split; [done|]. rewrite Hq, Hp. fold (readable w m). by rewrite <- Permutation_middle.
Qed.

(** A merged request: its registers adjoin and its unit covers them exactly. *)
Fixpoint adjoining (start : Z) (l : list PreparedRegister) : Prop :=
  match l with
  | [] => True
  | r :: l' => pindex r = start /\ adjoining (start + words_of r) l'
  end.
Definition total_words (l : list PreparedRegister) : Z := foldr (fun r n => words_of r + n) 0 l.
Record covers (type : MbType) (m : MergedRead) : Prop := {
  cov_nonempty : regs m <> [];
  cov_type : registerType (unit m) = type;
  cov_adjoin : adjoining (startAddress (unit m)) (regs m);
  cov_count : valueCount (unit m) = total_words (regs m)
}.
Lemma adjoining_app l l' : forall start,
  adjoining start (l ++ l') <-> adjoining start l /\ adjoining (start + total_words l) l'.
Proof.
  induction l as [|r l IH]; intros start; simpl; [by rewrite Z.add_0_r; tauto|].
  rewrite IH, Z.add_assoc. tauto.
Qed.
Lemma total_words_app l l' : total_words (l ++ l') = total_words l + total_words l'.
Proof. unfold total_words. induction l as [|r l IH]; simpl; [done|]. rewrite IH. lia. Qed.
Lemma adjoining_last l r : forall start, adjoining start (l ++ [r]) ->
  pindex r + words_of r = start + total_words (l ++ [r]).
Proof.
  intros start H. apply adjoining_app in H as [_ [H _]]. rewrite total_words_app. simpl. lia.
Qed.
(** Consecutive requests do not adjoin (the merge is maximal). *)
Fixpoint separated (l : list MergedRead) : Prop :=
  match l with
  | a :: (b :: _) as l' =>
      startAddress (unit b) <> startAddress (unit a) + valueCount (unit a) /\ separated l'
  | _ => True
  end.
Lemma separated_snoc l a b : separated (l ++ [a]) ->
  startAddress (unit b) <> startAddress (unit a) + valueCount (unit a) -> separated ((l ++ [a]) ++ [b]).
Proof.
  induction l as [|x l IH]; simpl; [done|]. destruct l as [|y l]; simpl in *; [tauto|].
  intros [? ?] ?. split; [done|]. by apply IH.
Qed.
Lemma separated_last l a b : separated (l ++ [a]) -> startAddress (unit b) = startAddress (unit a) ->
  separated (l ++ [b]).
Proof.
  intros Hs Hb. induction l as [|x l IH]; [done|]. destruct l as [|y l]; simpl in *.
  - rewrite Hb. tauto.
  - destruct Hs. split; [done|by apply IH].
Qed.

Lemma covers_first type r : 1 <= words_of r <= 2 -> covers type (setAsFirst type r).
Proof. intros. split; simpl; [done|done|done|]. rewrite wrapu_small by lia. lia. Qed.
Lemma covers_extend type m r : 1 <= words_of r <= 2 -> covers type m ->
  pindex r = startAddress (unit m) + total_words (regs m) -> covers type (extend m r).
Proof.
  intros Hr [Hne Ht Ha Hc] Hi. split; simpl; [by destruct (regs m)|done|..].
  - apply adjoining_app. split; [done|]. by split.
  - rewrite wrapu_small, Hc, total_words_app by lia. simpl. lia.
Qed.
Lemma covers_end type m l : covers type m -> last (regs m) = Some l ->
  pindex l + words_of l = startAddress (unit m) + total_words (regs m).
Proof.
  intros Hm [pre E]%last_Some. pose proof (cov_adjoin _ _ Hm) as H. rewrite E in *. by apply adjoining_last.
Qed.

Lemma merge_loop_spec type sorted : forall m out0 out,
  Forall (fun r => 1 <= words_of r <= 2) sorted ->
  Forall (covers type) (out ++ [m]) -> separated (out ++ [m]) ->
  exists new, merge_loop type sorted (Some m) (out0 ++ out) = out0 ++ new /\
    Forall (covers type) new /\ separated new /\
    flat_map regs new = flat_map regs (out ++ [m]) ++ sorted.
Proof.
  induction sorted as [|r sorted IH]; intros m out0 out Hw Hc Hs; cbn [merge_loop].
  { exists (out ++ [m]). by rewrite app_nil_r, <- app_assoc. }
  apply Forall_cons in Hw as [Hr Hw]. pose proof Hc as [Hco Hm]%Forall_app. rewrite Forall_singleton in Hm.
  destruct (last (regs m)) as [l|] eqn:El; [|by apply last_None, (cov_nonempty _ _ Hm) in El].
  pose proof (covers_end _ _ _ Hm El) as Hend. destruct (Z.eqb_spec (pindex r) (pindex l + words_of l)) as [E|E].
  - destruct (IH (extend m r) out0 out Hw) as (new & -> & ? & ? & Hf).
    + apply Forall_app. split; [done|]. rewrite Forall_singleton; apply covers_extend; [done|done|lia].
    + by eapply separated_last.
    + exists new. split_and!; try done. rewrite Hf, !flat_map_app. simpl. by rewrite !app_nil_r, <- !app_assoc.
  - rewrite <- app_assoc. destruct (IH (setAsFirst type r) out0 (out ++ [m]) Hw) as (new & -> & ? & ? & Hf).
    + apply Forall_app. split; [done|]. by rewrite Forall_singleton; apply covers_first.
    + apply separated_snoc; [done|]. simpl. rewrite (cov_count _ _ Hm). lia.
    + exists new. split_and!; try done. rewrite Hf, !flat_map_app. simpl. by rewrite !app_nil_r, <- !app_assoc.
Qed.
Lemma merge_all type sorted out0 : Forall (fun r => 1 <= words_of r <= 2) sorted ->
  exists new, merge_loop type sorted None out0 = out0 ++ new /\
    Forall (covers type) new /\ separated new /\ flat_map regs new = sorted.
Proof.
  intros Hw. destruct sorted as [|r sorted]; cbn [merge_loop]; [by exists []|].
  apply Forall_cons in Hw as [Hr Hw].
  destruct (merge_loop_spec type sorted (setAsFirst type r) out0 [] Hw) as (new & E & ? & ? & Hf).
  - apply Forall_cons; split; [by apply covers_first|done].
  - done.
  - rewrite app_nil_r in E. by exists new.
Qed.
Lemma prepared_widths w m out : prepareReadableSorted m w = Ok out -> Forall (fun r => 1 <= words_of r <= 2) out.
Proof.
  intros H. destruct (prepare_loop_spec w m [] out ltac:(constructor) H) as [_ Hp]. rewrite Hp, app_nil_r.
  apply Forall_map. apply Forall_forall. intros [k r] _. apply words_of_meta.
Qed.
(** Inside the unit, a register's words are in range. *)
Lemma adjoining_in start l r : Forall (fun r => 1 <= words_of r <= 2) l -> adjoining start l -> r ∈ l ->
  start <= pindex r /\ pindex r + words_of r <= start + total_words l.
Proof.
  revert start. induction l as [|x l IH]; intros start Hw; [by intros _ ?%elem_of_nil|]. simpl.
  apply Forall_cons in Hw as [Hx Hw]. intros [Hi Ha].
  assert (0 <= total_words l) by (clear -Hw; induction Hw; simpl; lia).
  intros [->|Hin]%elem_of_cons; [lia|]. specialize (IH _ Hw Ha Hin). lia.
Qed.

(** What a receiver should get back: the value in the register's own type. *)
Definition canonical {O : QVariantOps} (t : RegisterValueType) (v : QVar) : option QVar :=
  match t with
  | defaultValueType => None
  | bit => Some (VBool (toBool v))
  | uint16 => VInt <$> toUInt v
  | uint32 => VUInt <$> toUInt v
  | float32 => VFloat <$> toFloat v
  end.
Definition is_word (w : Z) : bool := ((0 <=? w) && (w <? 2 ^ 16))%bool.
Lemma is_word_true w : 0 <= w < 2 ^ 16 -> is_word w = true.
Proof. intros. unfold is_word. by rewrite (proj2 (Z.leb_le _ _)), (proj2 (Z.ltb_lt _ _)) by lia. Qed.
Lemma applyPacking_words pack l : Forall (fun w => 0 <= w < 2 ^ 16) l ->
  forallb is_word (applyPacking l pack) = true /\ length (applyPacking l pack) = length l.
Proof.
  intros Hl. unfold applyPacking. set (l' := if negb (bool_decide (self_order = word pack)) then swap2 l else l).
  assert (l' ≡ₚ l) as Hp.
  { unfold l'. destruct (negb _); [|done]. destruct l as [|a [|b [|]]]; try done. simpl. apply Permutation_swap. }
  rewrite length_map. split; [|by apply Permutation_length]. assert (Forall (fun w => 0 <= w < 2 ^ 16) l') as Hl' by (by rewrite Hp).
  clear -Hl'. induction Hl' as [|w l1 Hw _ IH]; [done|]. simpl. rewrite IH, andb_true_r. apply is_word_true.
  destruct (byte pack); [by apply bswap16_range|done].
Qed.

Lemma encode_decode {O : QVariantOps} {L : QVariantLaws O} reg v words stale :
  encodeRegister reg v = Some words ->
  Z.of_nat (length words) = getSizeOf (ptype reg) / 2 /\ forallb is_word words = true /\
  (roundtrips reg = true -> Some (decodeRegister reg (load words stale)).1 = canonical (ptype reg) v).
Proof.
  intros He. pose proof He as He'. unfold encodeRegister in He'. unfold roundtrips, canonical, decodeRegister.
  destruct (ptype reg) eqn:Et; [done|..].
  - destruct (encode16 (L := L) reg v words Et He) as (u & -> & Hu & ->). clear He'. split_and!; [done|..].
    + simpl. rewrite andb_true_r. apply is_word_true. destruct (byte _); [by apply bswap16_range|done].
    + case_bool_decide as E; [|done]. intros _. rewrite bool_decide_eq_true_2 by done. simpl.
      unfold parseWords16. destruct (byte (ppacking reg)); [by rewrite bswap16_invol|done].
  - destruct (toUInt v) as [u|] eqn:Eu; [|done]. injection He' as <-. pose proof (toUInt_range _ _ Eu) as Hu.
    destruct (words32_val u Hu) as (lo & hi & Ew & Hlo & Hhi & _).
    destruct (applyPacking_words (ppacking reg) (words32 u)) as [H1 H2]; [rewrite Ew; by repeat (apply Forall_cons; split; [done|])|].
    rewrite H1, H2, Ew. split_and!; [done..|]. case_bool_decide as Eb; [|done]. intros _.
    pose proof (decode_encode32 reg u stale Hu Eb) as Hd. rewrite Ew in Hd.
    destruct (load _ stale) as [d0 d1]. unfold parseWords32. rewrite Eb. simpl in *.
    destruct (negb _); simpl; by rewrite Hd.
  - destruct (toFloat v) as [u|] eqn:Eu; [|done]. injection He' as <-. pose proof (toFloat_range _ _ Eu) as Hu.
    destruct (words32_val u Hu) as (lo & hi & Ew & Hlo & Hhi & _).
    destruct (applyPacking_words (ppacking reg) (words32 u)) as [H1 H2]; [rewrite Ew; by repeat (apply Forall_cons; split; [done|])|].
    rewrite H1, H2, Ew. split_and!; [done..|]. case_bool_decide as Eb; [|done]. intros _.
    pose proof (decode_encode32 reg u stale Hu Eb) as Hd. rewrite Ew in Hd.
    destruct (load _ stale) as [d0 d1]. unfold parseWords32. rewrite Eb. simpl in *.
    destruct (negb _); simpl; by rewrite Hd.
  - injection He' as <-. split_and!; [done|by destruct (toBool v)|]. case_bool_decide as E; [|done]. intros _.
    rewrite bool_decide_eq_true_2 by done. simpl. by destruct (toBool v).
Qed.

(** * Properties *)

(** C28: preparing the reads of a register map either fails or yields requests
    that together contain exactly the readable registers of each type, in
    increasing index order; each request covers adjoining registers exactly (so
    every word a register needs lies inside its unit), and no two consecutive
    requests of a type could have been merged. *)
Theorem prepareReads_covers m reads : prepareReads m = Ok reads ->
  exists h d i c, reads = h ++ d ++ i ++ c /\
    let part ms ty src :=
      Forall (covers ty) ms /\ separated ms /\ StronglySorted before_by_index (flat_map regs ms) /\
      flat_map regs ms ≡ₚ readable false src /\
      (forall mr r, mr ∈ ms -> r ∈ regs mr ->
         startAddress (unit mr) <= pindex r /\
         pindex r + words_of r <= startAddress (unit mr) + valueCount (unit mr)) in
    part h HoldingRegisters (map_holding m) /\ part d DiscreteInputs (map_di m) /\
    part i InputRegisters (map_input m) /\ part c Coils (map_coils m).
Proof.
  assert (forall out src ty r, mergeSingle out src ty = Ok r -> exists ms, r = out ++ ms /\
    Forall (covers ty) ms /\ separated ms /\ StronglySorted before_by_index (flat_map regs ms) /\
    flat_map regs ms ≡ₚ readable false src /\
    (forall mr r, mr ∈ ms -> r ∈ regs mr -> startAddress (unit mr) <= pindex r /\
         pindex r + words_of r <= startAddress (unit mr) + valueCount (unit mr))) as H.
  { intros out src ty r. unfold mergeSingle. destruct (prepareReadableSorted src false) as [sorted|] eqn:E; [|done].
    cbn [res_bind]. intros [= <-]. pose proof (prepared_widths _ _ _ E) as Hw.
    destruct (merge_all ty sorted out Hw) as (new & -> & Hc & Hs & Hf).
    destruct (prepare_loop_spec false src [] sorted ltac:(constructor) E) as [Hsort Hp].
    exists new. rewrite Hf. rewrite app_nil_r in Hp. split_and!; try done. intros mr r Hmr Hr.
    pose proof (proj1 (Forall_forall _ _) Hc _ Hmr) as Hcov. rewrite (cov_count _ _ Hcov).
    eapply adjoining_in; [|exact (cov_adjoin _ _ Hcov)|done].
    rewrite <- Hf in Hw. clear -Hw Hmr. induction new as [|x new IH]; [by apply elem_of_nil in Hmr|].
    simpl in Hw. apply Forall_app in Hw as [? ?]. apply elem_of_cons in Hmr as [->|]; auto. }
  unfold prepareReads. intros Hreads.
  destruct (mergeSingle [] _ _) as [r1|] eqn:E1; [|done]. cbn [res_bind] in Hreads.
  destruct (mergeSingle r1 _ _) as [r2|] eqn:E2; [|done]. cbn [res_bind] in Hreads.
  destruct (mergeSingle r2 _ _) as [r3|] eqn:E3; [|done]. cbn [res_bind] in Hreads.
  apply H in E1 as (h & -> & Hh), E2 as (d & -> & Hd), E3 as (i & -> & Hi), Hreads as (c & -> & Hc).
  exists h, d, i, c. split; [by rewrite <- !app_assoc|]. exact (conj Hh (conj Hd (conj Hi Hc))).
Qed.
Lemma prepareReads_covers_witness :
  let reg i t := {| index := i; packing := default_packing; type := t; mode := mode_read; validator := None |} in
  let m := {| map_di := []; map_input := []; map_coils := [];
              map_holding := [("a", reg 7 uint16); ("b", reg 4 float32); ("c", reg 6 uint16)] |} in
  exists reads, prepareReads m = Ok reads /\ exists h, h ≡ₚ readable false (map_holding m) /\ flat_map regs reads = h.
Proof.
  intros reg m. destruct (prepareReads m) as [reads|] eqn:E; [|vm_compute in E; discriminate].
  exists reads. split; [reflexivity|].
  destruct (prepareReads_covers m reads E) as (h & d & i & c & -> & Hh & Hd & Hi & Hc).
  exists (flat_map regs h). split; [apply Hh|].
  destruct Hd as (_ & _ & _ & Hd & _), Hi as (_ & _ & _ & Hi & _), Hc as (_ & _ & _ & Hc & _).
  apply Permutation_nil_r in Hd, Hi, Hc. by rewrite !flat_map_app, Hd, Hi, Hc, !app_nil_r.
Defined.

(** C29: the register codec. Whatever is encoded fits its registers (one word or
    two, each of 16 bits); with the packings of [roundtrips] (host byte order for
    a wide register, host word order for a narrow one) decoding the words gives
    the value back in the register's type, whatever the second word held before. *)
Theorem register_roundtrip (O : QVariantOps) (L : QVariantLaws O) reg v words stale :
  encodeRegister reg v = Some words ->
  Z.of_nat (length words) = getSizeOf (ptype reg) / 2 /\ forallb is_word words = true /\
  (roundtrips reg = true -> Some (decodeRegister reg (load words stale)).1 = canonical (ptype reg) v).
Proof. by apply encode_decode. Qed.
Lemma register_roundtrip_witness :
  let reg := {| pkey := "k"; ptype := uint32; ppacking := {| byte := little; word := big |};
                pvalidator := None; pindex := 4; sizeOf := 4 |} in
  (decodeRegister reg (load [0xABCD; 0x1234] 0)).1 = VUInt 0xABCD1234.
Proof.
  intros reg.
  destruct (register_roundtrip simple_ops simple_laws reg (VUInt 0xABCD1234) [0xABCD; 0x1234] 0) as (_ & _ & H);
    [vm_compute; reflexivity|]. exact (f_equal (default VInvalid) (H eq_refl)).
Defined.

(** The other packings do not round-trip: with big-endian bytes a 32-bit value
    comes back with its halves exchanged, and with big-endian words a 16-bit
    register decodes whatever the second word of the buffer held, not the word
    received. *)
Theorem register_packing_mismatch (O : QVariantOps) (L : QVariantLaws O) reg v words stale :
  encodeRegister reg v = Some words ->
  (ptype reg = uint32 -> byte (ppacking reg) = big -> forall u, toUInt v = Some u ->
     (decodeRegister reg (load words stale)).1 = VUInt ((u mod 2 ^ 16) * 2 ^ 16 + u / 2 ^ 16)) /\
  (ptype reg = uint16 -> word (ppacking reg) = big ->
     (decodeRegister reg (load words stale)).1 = VInt (parseWords16 (ppacking reg) stale)).
Proof.
  intros He. split.
  - intros Et Hb u Eu. unfold encodeRegister in He. rewrite Et, Eu in He. injection He as <-.
    pose proof (toUInt_range _ _ Eu) as Hu. pose proof (decode_encode32_big reg u stale Hu Hb) as Hd.
    unfold decodeRegister. rewrite Et. destruct (load _ stale) as [d0 d1]. simpl in *.
    destruct (negb _); simpl; by rewrite Hd.
  - intros Et Hw. destruct (encode16 (L := L) reg v words Et He) as (u & _ & _ & ->).
    unfold decodeRegister. by rewrite Et, Hw.
Qed.
Lemma register_packing_mismatch_witness :
  let p := {| byte := big; word := big |} in
  let reg t := {| pkey := "k"; ptype := t; ppacking := p; pvalidator := None; pindex := 4; sizeOf := 4 |} in
  (decodeRegister (reg uint32) (load [0x3412; 0xCDAB] 0)).1 = VUInt 0xABCD1234 /\
  (decodeRegister (reg uint16) (load [0x3412] 0)).1 = VInt 0.
Proof.
  intros p reg. split.
  - apply (proj1 (register_packing_mismatch simple_ops simple_laws (reg uint32) (VUInt 0x1234ABCD) [0x3412; 0xCDAB] 0
      ltac:(vm_compute; reflexivity)) eq_refl eq_refl 0x1234ABCD). reflexivity.
  - apply (proj2 (register_packing_mismatch simple_ops simple_laws (reg uint16) (VUInt 0x1234) [0x3412] 0
      ltac:(vm_compute; reflexivity)) eq_refl eq_refl).
Defined.

(** ** What the validation leaves open *)

(** Overlapping registers are found only against the next higher index: the same
    two registers are accepted or refused according to their keys' order. *)
Theorem overlap_depends_on_key_order i :
  let wide := {| index := i; packing := default_packing; type := uint32; mode := mode_read; validator := None |} in
  let narrow := {| index := i + 1; packing := default_packing; type := uint16; mode := mode_read; validator := None |} in
  is_ok (prepareReadableSorted [("a", wide); ("b", narrow)] false) = true /\
  prepareReadableSorted [("a", narrow); ("b", wide)] false = Raise "Register overlap".
Proof.
  intros wide narrow. unfold prepareReadableSorted. cbn. unfold insert_sorted. cbn. unfold compareByIndex. cbn.
  rewrite (proj2 (Z.ltb_lt i (i + 1))), (proj2 (Z.ltb_ge (i + 1) i)) by lia. cbn.
  rewrite (proj2 (Z.eqb_neq (i + 1) i)) by lia. unfold words_of. cbn. change (4 `div` 2) with 2.
  by rewrite (proj2 (Z.ltb_lt (i + 1) (i + 2))) by lia.
Qed.

(** A manual query whose last register is 16 bits wide is refused as if it split
    the register: the end is compared in bytes. *)
Theorem manual_query_refuses_last_register q reg type :
  0 <= q_index q -> 0 < q_count q -> q_index q + q_count q < 2 ^ 31 ->
  sizeOf reg = 2 -> pindex reg = q_index q + q_count q - 1 ->
  prepareSingleManual q [reg] type = Raise "Manual query would split register".
Proof.
  intros ? ? ? Hs Hi. unfold prepareSingleManual. cbn [manual_loop].
  rewrite wrapu_small, !wraps32_small by lia. rewrite Hs, Hi.
  rewrite (proj2 (Z.leb_le _ _)), !(proj2 (Z.ltb_lt _ _)) by lia. done.
Qed.

(** Input registers "cannot be writable", yet one without a mode becomes
    read-write and enters the table of writable registers. *)
Theorem input_register_becomes_writable k i :
  let m := {| map_di := []; map_holding := []; map_coils := []; map_input := [(k, Register_default i)] |} in
  exists m' w, validateRegisters m = Ok m' /\ prepareWrites m' false = Ok [(k, w)] /\ mbType w = InputRegisters.
Proof. eexists _, _. split_and!; reflexivity. Qed.
