(* ===== verification/ModbusMaster.v ===== *)
(** * Modbus: the master device queue and the master worker

    Models [MasterDevice] of src/src/workers/modbus/modbus_device.cpp and [Master]
    of modbus.cpp.  A device is shared by several masters; its queues hold their
    requests, whose callbacks are data here ([Callback]) and are run against the
    master that owns them.  A callback may put requests back on the queue it is
    called from, so [Execute] takes fuel. *)
From S2P Require Import Prelude QVariant Utils Worker ModbusUnits.

(** ** State *)
Inductive Callback :=
| CbRead (src : nat)                     (* the merged read it was made from *)
| CbWrite (key : string) (v : QVar).     (* the register, the captured value *)
Record Request := { ctx : nat; rq_slave : Z; rq_unit : DataUnit; cb : Callback }.
Inductive Op := op_read | op_write.

Record InFlight := { if_unit : DataUnit; retriesLeft : Z }.
Record Master := {
  config : MasterConfig;
  reads : PreparedReads;
  writable : PreparedWrites;
  inFlight : gmap string InFlight;
  currentState : list (string * QVar);
  poller_on : bool
}.
Record MasterDevice := {
  started : bool;
  busy : bool;
  frameGap_on : bool;
  reconnect_on : bool;
  q_reads : list Request;
  q_writes : list Request;
  dconfig : Device;
  pending : option (bool * Request)      (* the reply awaited: is it a read? *)
}.
Record Sys := { dev : MasterDevice; masters : gmap nat Master }.

Inductive Effect :=
| MasterEmit (m : nat) (e : Emission)
| OverflowWarning (op : Op)
| Send (is_read : bool) (r : Request)
| ConnectDevice
| ConnectedChanged (state : bool).

Definition set_inFlight (m : Master) (f : gmap string InFlight) : Master :=
  {| config := config m; reads := reads m; writable := writable m; inFlight := f;
     currentState := currentState m; poller_on := poller_on m |}.
Definition set_current (m : Master) (c : list (string * QVar)) : Master :=
  {| config := config m; reads := reads m; writable := writable m; inFlight := inFlight m;
     currentState := c; poller_on := poller_on m |}.
Definition set_poller (m : Master) (b : bool) : Master :=
  {| config := config m; reads := reads m; writable := writable m; inFlight := inFlight m;
     currentState := currentState m; poller_on := b |}.
Definition put_master (st : Sys) (i : nat) (m : Master) : Sys :=
  {| dev := dev st; masters := <[i := m]> (masters st) |}.
Definition put_dev (st : Sys) (d : MasterDevice) : Sys := {| dev := d; masters := masters st |}.
Definition queue (op : Op) (d : MasterDevice) : list Request :=
  match op with op_read => q_reads d | op_write => q_writes d end.
Definition set_queue (op : Op) (q : list Request) (d : MasterDevice) : MasterDevice :=
  {| started := started d; busy := busy d; frameGap_on := frameGap_on d; reconnect_on := reconnect_on d;
     q_reads := match op with op_read => q | op_write => q_reads d end;
     q_writes := match op with op_read => q_writes d | op_write => q end;
     dconfig := dconfig d; pending := pending d |}.
Definition set_busy (b : bool) (p : option (bool * Request)) (d : MasterDevice) : MasterDevice :=
  {| started := started d; busy := b; frameGap_on := frameGap_on d; reconnect_on := reconnect_on d;
     q_reads := q_reads d; q_writes := q_writes d; dconfig := dconfig d; pending := p |}.
Definition set_timers (gap rec : bool) (d : MasterDevice) : MasterDevice :=
  {| started := started d; busy := busy d; frameGap_on := gap; reconnect_on := rec;
     q_reads := q_reads d; q_writes := q_writes d; dconfig := dconfig d; pending := pending d |}.
Definition set_started (d : MasterDevice) : MasterDevice :=
  {| started := true; busy := busy d; frameGap_on := frameGap_on d; reconnect_on := reconnect_on d;
     q_reads := q_reads d; q_writes := q_writes d; dconfig := dconfig d; pending := pending d |}.

Definition queue_max (op : Op) (c : Device) : Z :=
  match op with op_read => max_read_queue c | op_write => max_write_queue c end.
Definition on_overflow (op : Op) (c : Device) : OverflowBehaviour :=
  match op with op_read => on_read_overflow c | op_write => on_write_overflow c end.

Definition warn_line (i : nat) (s : string) : Effect := MasterEmit i (LogLine warn s).
Definition error_line (i : nat) (s : string) : Effect := MasterEmit i (LogLine error s).
Definition out_of_fuel : string := "out of fuel".
Definition owner_gone : string := "undefined behaviour: callback of a destroyed worker".
Definition empty_queue : string := "undefined behaviour: front of an empty queue".

(** The request [Master::write] makes; the captured value is kept only for a
    write-only register. *)
Definition write_request (m : Master) (i : nat) (u : DataUnit) (key : string) (v : QVar) : Request :=
  let wo := match qm_find key (writable m) with Some r => writeOnly r | None => false end in
  {| ctx := i; rq_slave := slave_id (config m); rq_unit := u; cb := CbWrite key (if wo then v else VInvalid) |}.

(** [Execute]; with it the error path of the callbacks, which may call it again:
    [fail_cb] is the callback of [r] run with an exception. *)
Section execute.
Definition Outcome : Type := res (Sys * list Effect).

(** [Master::retry], given [write]. *)
Definition retry (write : Request -> Sys -> Outcome) (i : nat) (key : string) (v : QVar) (st : Sys) : Outcome :=
  match masters st !! i with
  | None => Raise owner_gone
  | Some m =>
      let log := MasterEmit i (LogLine info "retrying") in
      match inFlight m !! key with
      | None => Ok (st, [log; error_line i "inflight record lost"])
      | Some f =>
          if retriesLeft f =? 0 then Ok (st, [log; error_line i "could not write"])
          else
            let m' := set_inFlight m (<[key := {| if_unit := if_unit f; retriesLeft := retriesLeft f - 1 |}]> (inFlight m)) in
            let* (st, eff) := write (write_request m' i (if_unit f) key v) (put_master st i m') in
            Ok (st, log :: eff)
      end
  end.
Definition fail_cb (write : Request -> Sys -> Outcome) (r : Request) (err : string) (st : Sys) : Outcome :=
  match masters st !! ctx r with
  | None => Raise owner_gone
  | Some _ =>
      match cb r with
      | CbRead _ => Ok (st, [error_line (ctx r) ("Error reading: " +:+ err)])
      | CbWrite key v =>
          let* (st, eff) := retry write (ctx r) key v st in
          Ok (st, warn_line (ctx r) ("error writing: " +:+ err) :: eff)
      end
  end.
(** Calling a callback in place moves its captured value out. *)
Definition moved (r : Request) : Request :=
  match cb r with
  | CbRead _ => r
  | CbWrite key _ => {| ctx := ctx r; rq_slave := rq_slave r; rq_unit := rq_unit r; cb := CbWrite key VInvalid |}
  end.
Definition pop_back_list {A} (l : list A) : list A := take (length l - 1) l.

Fixpoint Execute (fuel : nat) (op : Op) (req : Request) (st : Sys) : Outcome :=
  match fuel with
  | O => Raise out_of_fuel
  | S fuel =>
      let q := queue op (dev st) in
      let push st eff := Ok (put_dev st (set_queue op (queue op (dev st) ++ [req]) (dev st)), eff) in
      if wraps 32 (queue_max op (dconfig (dev st))) <=? Z.of_nat (length q) then
        match on_overflow op (dconfig (dev st)) with
        | pop_first =>
            match q with
            | [] => Raise empty_queue
            | r :: q' =>
                let st := put_dev st (set_queue op (moved r :: q') (dev st)) in
                let* (st, eff) := fail_cb (Execute fuel op_write) r "Removed from queue" st in
                push (put_dev st (set_queue op (tail (queue op (dev st))) (dev st))) (OverflowWarning op :: eff)
            end
        | pop_last =>
            match last q with
            | None => Raise empty_queue
            | Some r =>
                let st := put_dev st (set_queue op (pop_back_list q ++ [moved r]) (dev st)) in
                let* (st, eff) := fail_cb (Execute fuel op_write) r "Removed from queue" st in
                push (put_dev st (set_queue op (pop_back_list (queue op (dev st))) (dev st))) (OverflowWarning op :: eff)
            end
        end
      else push st []
  end.
End execute.

(** ** [Master] *)
Section master.
Context {QO : QVariantOps}.

(** The loop of [parsePoll]; [data] starts as found on the stack. *)
Fixpoint parse_loop (resp : DataUnit) (rs : list PreparedRegister) (data : Z * Z)
    (current : list (string * QVar)) : FlatMap * list (string * QVar) :=
  match rs with
  | [] => ([], current)
  | reg :: rs' =>
      let d0 := unit_value resp (pindex reg - startAddress resp) in
      let d1 := if sizeOf reg =? 4 then unit_value resp (pindex reg + 1 - startAddress resp) else data.2 in
      let '(asVariant, data) := decodeRegister reg (d0, d1) in
      if negb (qeq (qm_get VInvalid (pkey reg) current) asVariant) then
        let '(diff, current) := parse_loop resp rs' data (qm_insert (pkey reg) asVariant current) in
        ((pkey reg, asVariant) :: diff, current)
      else
        parse_loop resp rs' data (qm_insert (pkey reg) (qm_get VInvalid (pkey reg) current) current)
  end.
Definition parsePoll (garbage : Z * Z) (m : Master) (read : MergedRead) (resp : DataUnit)
    : Master * list Emission :=
  let '(diff, current) := parse_loop resp (regs read) garbage (currentState m) in
  (set_current m current, match diff with [] => [] | _ => [SendMsg (Unflatten VInvalid diff)] end).

(** [Master::ok]. *)
Definition write_ok (m : Master) (key : string) (v : QVar) : Master * list Emission :=
  let wo := match qm_find key (writable m) with Some r => writeOnly r | None => false end in
  (set_inFlight m (delete key (inFlight m)),
   if wo then [SendMsg (Unflatten VInvalid [(key, v)])] else []).

(** A callback run with a result. *)
Definition ok_cb (garbage : Z * Z) (r : Request) (result : DataUnit) (st : Sys) : Outcome :=
  match masters st !! ctx r with
  | None => Raise owner_gone
  | Some m =>
      let '(m', out) :=
        match cb r with
        | CbRead src => match reads m !! src with Some rd => parsePoll garbage m rd result | None => (m, []) end
        | CbWrite key v => write_ok m key v
        end in
      Ok (put_master st (ctx r) m', map (MasterEmit (ctx r)) out)
  end.

(** [poll]: one read request per merged read. *)
Definition poll_request (m : Master) (i src : nat) (rd : MergedRead) : Request :=
  {| ctx := i; rq_slave := slave_id (config m); rq_unit := unit rd; cb := CbRead src |}.
Fixpoint execute_all (fuel : nat) (op : Op) (rs : list Request) (st : Sys) : Outcome :=
  match rs with
  | [] => Ok (st, [])
  | r :: rs' =>
      let* (st, eff) := Execute fuel op r st in
      let* (st, eff') := execute_all fuel op rs' st in
      Ok (st, eff ++ eff')
  end.
Definition poll (fuel : nat) (i : nat) (st : Sys) : Outcome :=
  match masters st !! i with
  | None => Ok (st, [])
  | Some m => execute_all fuel op_read (imap (fun src rd => poll_request m i src rd) (reads m)) st
  end.

(** What awaiting a validator gives; it is called without arguments. *)
Inductive Validation := Accepted | Rejected | Threw (e : string).
Context (validate : nat -> Validation).

(** One entry of [OnMsg]'s loop. *)
Definition write_entry (fuel : nat) (i : nat) (k : string) (v : QVar) (st : Sys) : Outcome :=
  match masters st !! i with
  | None => Raise owner_gone
  | Some m =>
      if negb (isValid v) then Ok (st, [])
      else
        match qm_find k (writable m) with
        | None => Ok (st, [])
        | Some w =>
            let reg := wreg w in
            match (match pvalidator reg with Some f => validate f | None => Accepted end) with
            | Rejected => Ok (st, [MasterEmit i (LogLine debug "failed validation")])
            | Threw e => Ok (st, [warn_line i ("Error calling validator: " +:+ e)])
            | Accepted =>
                match encodeRegister reg v with
                | None => Ok (st, [warn_line i ("could not encode " +:+ k)])
                | Some words =>
                    let u := {| registerType := mbType w; startAddress := pindex reg;
                                valueCount := Z.of_nat (length words); values := words |} in
                    let m' := set_inFlight m (<[k := {| if_unit := u; retriesLeft := write_retries (config m) |}]> (inFlight m)) in
                    Execute fuel op_write (write_request m' i u k v) (put_master st i m')
                end
            end
        end
  end.
Fixpoint write_entries (fuel : nat) (i : nat) (flat : FlatMap) (st : Sys) : Outcome :=
  match flat with
  | [] => Ok (st, [])
  | (k, v) :: flat' =>
      let* (st, eff) := write_entry fuel i k v st in
      let* (st, eff') := write_entries fuel i flat' st in
      Ok (st, eff ++ eff')
  end.
Definition OnMsg (fuel : nat) (i : nat) (msg : QVar) (st : Sys) : Outcome :=
  write_entries fuel i (Flatten [] msg) st.

(** The constructor, and its reaction to [ConnectedChanged]. *)
Definition Master_new (conf : MasterConfig) : res (Master * list string) :=
  let* registers := validateRegisters (registers conf) in
  let* reads := match queries conf with
                | Some qs => prepareManualReads registers qs
                | None => prepareReads registers
                end in
  let* writable := prepareWrites registers false in
  Ok ({| config := {| registers := registers; slave_id := slave_id conf; response_time := response_time conf;
                      poll_rate := poll_rate conf; write_retries := write_retries conf; queries := queries conf |};
         reads := reads; writable := writable; inFlight := ∅; currentState := []; poller_on := false |},
      flat_map (fun merged => map pkey (regs merged)) reads).
Definition on_connected (m : Master) (state : bool) : Master * list Emission :=
  (set_poller m state,
   [SendEvent (VMap [("state", VString (if state then "ConnectedState" else "UnconnectedState"))])]).
End master.

(** ** [MasterDevice] *)
Section device.
Context {QO : QVariantOps}.

(** The reply of a request: Qt gives the raw PDU beside the decoded result. *)
Inductive Reply :=
| ReplyError (e : string)
| ReplyOk (functionCode : Z) (rdata : list Z) (result : DataUnit).
Definition ReadCoils : Z := 1.
Definition ReadDiscreteInputs : Z := 2.

(** Bit [i] of a packed reply, least significant first, after the count byte. *)
Definition packed_bit (rdata : list Z) (i : nat) : option Z :=
  let byteIdx := (1 + i / 8)%nat in
  (fun b => Z.land (Z.shiftr b (Z.of_nat (i mod 8))) 1) <$> rdata !! byteIdx.
Fixpoint unpack_loop (rdata : list Z) (i n : nat) (vals : list Z) : list Z :=
  match n with
  | O => vals
  | S n =>
      unpack_loop rdata (S i) n
        (match packed_bit rdata i with
         | Some b => if bool_decide (i < length vals)%nat then <[i := b]> vals else vals
         | None => vals
         end)
  end.
Definition unpack_bits (u : DataUnit) (rdata : list Z) : DataUnit :=
  let count := wraps 32 (valueCount u) in
  let size := Z.to_nat (wrapu 16 count) in
  {| registerType := registerType u; startAddress := startAddress u; valueCount := wrapu 16 count;
     values := unpack_loop rdata 0 (Z.to_nat count) (replicate size 0) |}.

(** [nextReq]; [accepted] says whether Qt returned a reply object. *)
Definition nextReq (fuel : nat) (accepted : bool) (st : Sys) : Outcome :=
  let d := dev st in
  if busy d then Ok (st, [])
  else
    match (match q_writes d with
           | r :: w => Some (false, r, set_queue op_write w d)
           | [] => match q_reads d with
                   | r :: q => Some (true, r, set_queue op_read q d)
                   | [] => None
                   end
           end) with
    | None => Ok (st, [])
    | Some (isRead, req, d) =>
        if accepted then Ok (put_dev st (set_busy true (Some (isRead, req)) d), [Send isRead req])
        else
          let* (st, eff) := fail_cb (Execute fuel op_write) req "Could not send" (put_dev st (set_busy false None d)) in
          Ok (st, Send isRead req :: eff)
    end.
(** The [finished] handler. *)
Definition finished (fuel : nat) (garbage : Z * Z) (reply : Reply) (st : Sys) : Outcome :=
  match pending (dev st) with
  | None => Ok (st, [])
  | Some (_, req) =>
      let st := put_dev st (set_busy false None (dev st)) in
      match masters st !! ctx req with
      | None => Ok (st, [])
      | Some _ =>
          match reply with
          | ReplyError e => fail_cb (Execute fuel op_write) req e st
          | ReplyOk code rdata result =>
              if ((code =? ReadCoils) || (code =? ReadDiscreteInputs))%bool
              then ok_cb garbage req (unpack_bits (rq_unit req) rdata) st
              else ok_cb garbage req result st
          end
      end
  end.

(** Connection handling. *)
Inductive ModbusState := UnconnectedState | ConnectingState | ConnectedState | ClosingState.
Definition doConnect (state : ModbusState) : list Effect :=
  match state with ConnectedState => [] | _ => [ConnectDevice] end.
Definition Start (state : ModbusState) (d : MasterDevice) : MasterDevice * list Effect :=
  if started d then (d, []) else (set_started d, doConnect state).
Definition stateChanged (state : ModbusState) (d : MasterDevice) : MasterDevice * list Effect :=
  match state with
  | ConnectedState => (set_timers true (reconnect_on d) d, [ConnectedChanged true])
  | UnconnectedState => (set_timers false true d, [ConnectedChanged false])
  | _ => (d, [])
  end.
(** The single-shot reconnect timer. *)
Definition reconnect_timeout (state : ModbusState) (d : MasterDevice) : MasterDevice * list Effect :=
  (set_timers (frameGap_on d) false d, doConnect state).
End device.

(** ** Lemmas on the queues *)
Lemma queue_set_eq op q d : queue op (set_queue op q d) = q.
Proof. by destruct op. Qed.
Lemma dconfig_set op q d : dconfig (set_queue op q d) = dconfig d.
Proof. done. Qed.

(** What the rest of the worker keeps true of a device and its masters: bounded
    queues, callbacks of the right kind with live owners, and no more than [N]
    retries left anywhere. *)
Definition kind_ok (op : Op) (c : Callback) : bool :=
  match op, c with op_read, CbRead _ => true | op_write, CbWrite _ _ => true | _, _ => false end.
Definition req_ok (op : Op) (ms : gmap nat Master) (r : Request) : Prop :=
  kind_ok op (cb r) = true /\ is_Some (ms !! ctx r).
Record sys_wf (N : Z) (st : Sys) : Prop := {
  wf_max : forall op, 0 < queue_max op (dconfig (dev st)) < 2 ^ 31;
  wf_len : forall op, Z.of_nat (length (queue op (dev st))) <= queue_max op (dconfig (dev st));
  wf_reqs : forall op, Forall (req_ok op (masters st)) (queue op (dev st));
  wf_retries : forall i m key f, masters st !! i = Some m -> inFlight m !! key = Some f -> 0 <= retriesLeft f <= N;
  wf_conf : forall i m, masters st !! i = Some m -> 0 <= write_retries (config m) <= N
}.
#[export] Instance Op_eq : EqDecision Op. Proof. solve_decision. Defined.

Lemma queue_set_ne op op' q d : op <> op' -> queue op (set_queue op' q d) = queue op d.
Proof. by destruct op, op'. Qed.
Lemma wf_set_queue N st op q : sys_wf N st ->
  Z.of_nat (length q) <= queue_max op (dconfig (dev st)) -> Forall (req_ok op (masters st)) q ->
  sys_wf N (put_dev st (set_queue op q (dev st))).
Proof.
  intros [Hm Hl Hr Hf Hc] Hlen Hq. split; cbn [put_dev dev masters]; try done; intros op';
    (destruct (decide (op' = op)) as [->|Hne]; [rewrite queue_set_eq|rewrite queue_set_ne by done]); done || apply Hl || apply Hr.
Qed.
Lemma wf_put_master N st i m m' : sys_wf N st -> masters st !! i = Some m ->
  config m' = config m -> (forall key f, inFlight m' !! key = Some f -> 0 <= retriesLeft f <= N) ->
  sys_wf N (put_master st i m').
Proof.
  intros [Hm Hl Hr Hf Hc] Hi Hcm Hm'. split; cbn [put_master dev masters]; try done.
  - intros op. eapply Forall_impl; [apply Hr|]. intros r [? ?]. split; [done|].
    destruct (decide (i = ctx r)) as [<-|]; [rewrite lookup_insert_eq; eauto|by rewrite lookup_insert_ne].
  - intros j m1 key f. destruct (decide (i = j)) as [<-|]; [|rewrite lookup_insert_ne by done; eauto].
    rewrite lookup_insert_eq. intros [= <-]. apply Hm'.
  - intros j m1. destruct (decide (i = j)) as [<-|]; [|rewrite lookup_insert_ne by done; eauto].
    rewrite lookup_insert_eq. intros [= <-]. rewrite Hcm. eauto.
Qed.
Lemma wf_push N st op req : sys_wf N st -> req_ok op (masters st) req ->
  Z.of_nat (length (queue op (dev st))) < queue_max op (dconfig (dev st)) ->
  sys_wf N (put_dev st (set_queue op (queue op (dev st) ++ [req]) (dev st))).
Proof.
  intros Hwf Hreq Hlen. apply wf_set_queue; [done|rewrite length_app; simpl; lia|].
  apply Forall_app. split; [apply Hwf|by apply Forall_cons].
Qed.

(** The request whose callback an overflow runs, and the retries it has left. *)
Definition victim (op : Op) (st : Sys) : option Request :=
  match on_overflow op (dconfig (dev st)) with
  | pop_first => head (queue op (dev st))
  | pop_last => last (queue op (dev st))
  end.
Definition victim_retries (st : Sys) (r : Request) : Z :=
  match cb r with
  | CbRead _ => 0
  | CbWrite key _ =>
      match masters st !! ctx r with
      | Some m => match inFlight m !! key with Some f => retriesLeft f | None => 0 end
      | None => 0
      end
  end.

(** What an operation on the queues keeps. *)
Record keeps (N : Z) (st st' : Sys) : Prop := {
  k_wf : sys_wf N st';
  k_dom : forall i, is_Some (masters st !! i) -> is_Some (masters st' !! i);
  k_config : dconfig (dev st') = dconfig (dev st);
  k_busy : busy (dev st') = busy (dev st) /\ pending (dev st') = pending (dev st)
}.
Definition no_send (eff : list Effect) : Prop := Forall (fun e => match e with Send _ _ => False | _ => True end) eff.

Lemma retry_keeps N write i key v st :
  sys_wf N st -> is_Some (masters st !! i) ->
  (forall m f st', masters st !! i = Some m -> inFlight m !! key = Some f -> 0 < retriesLeft f ->
     st' = put_master st i (set_inFlight m (<[key := {| if_unit := if_unit f; retriesLeft := retriesLeft f - 1 |}]> (inFlight m))) ->
     sys_wf N st' ->
     exists st2 eff, write (write_request (set_inFlight m (<[key := {| if_unit := if_unit f; retriesLeft := retriesLeft f - 1 |}]> (inFlight m))) i (if_unit f) key v) st' = Ok (st2, eff)
       /\ keeps N st' st2 /\ no_send eff) ->
  exists st2 eff, retry write i key v st = Ok (st2, eff) /\ keeps N st st2 /\ no_send eff.
Proof.
  intros Hwf [m Hm] Hw. unfold retry. rewrite Hm.
  destruct (inFlight m !! key) as [f|] eqn:Ef.
  2: { exists st. eexists. split_and!; [done|by split; auto|by repeat constructor]. }
  pose proof (wf_retries _ _ Hwf _ _ _ _ Hm Ef) as Hr.
  destruct (Z.eqb_spec (retriesLeft f) 0).
  { exists st. eexists. split_and!; [done|by split; auto|by repeat constructor]. }
  destruct (Hw m f _ Hm Ef ltac:(lia) eq_refl) as (st2 & eff & -> & [H1 H2 H3 H4] & Hs).
  { eapply wf_put_master; [done|done|done|]. intros k f'. cbn [set_inFlight inFlight].
    destruct (decide (key = k)) as [<-|]; [rewrite lookup_insert_eq; intros [= <-]; simpl; lia|].
    rewrite lookup_insert_ne by done. by eapply wf_retries. }
  exists st2. eexists. split_and!; [done| |by constructor]. split; try done.
  intros j Hj. apply H2. cbn [put_master masters].
  destruct (decide (i = j)) as [<-|]; [rewrite lookup_insert_eq; eauto|by rewrite lookup_insert_ne].
Qed.
Lemma fail_cb_keeps N write r err st op :
  sys_wf N st -> req_ok op (masters st) r ->
  (forall key v m f st', cb r = CbWrite key v -> masters st !! ctx r = Some m -> inFlight m !! key = Some f -> 0 < retriesLeft f ->
     st' = put_master st (ctx r) (set_inFlight m (<[key := {| if_unit := if_unit f; retriesLeft := retriesLeft f - 1 |}]> (inFlight m))) ->
     sys_wf N st' ->
     exists st2 eff, write (write_request (set_inFlight m (<[key := {| if_unit := if_unit f; retriesLeft := retriesLeft f - 1 |}]> (inFlight m))) (ctx r) (if_unit f) key v) st' = Ok (st2, eff)
       /\ keeps N st' st2 /\ no_send eff) ->
  exists st2 eff, fail_cb write r err st = Ok (st2, eff) /\ keeps N st st2 /\ no_send eff.
Proof.
  intros Hwf [Hk [m Hm]] Hw. unfold fail_cb. rewrite Hm. destruct (cb r) as [src|key v] eqn:Ec.
  { exists st. eexists. split_and!; [done|by split; auto|by repeat constructor]. }
  destruct (retry_keeps N write (ctx r) key v st Hwf ltac:(eauto)) as (st2 & eff & -> & ? & ?); [eauto|].
  exists st2. eexists. split_and!; [done|done|by constructor].
Qed.

Lemma moved_ok op ms r : req_ok op ms r -> req_ok op ms (moved r).
Proof. intros [Hk Ho]. unfold moved. destruct (cb r) eqn:E; split; simpl; rewrite ?E in *; done. Qed.
Lemma moved_ok_inv op ms r : req_ok op ms (moved r) -> req_ok op ms r.
Proof. intros [Hk Ho]. unfold moved in *. destruct (cb r) eqn:E; split; simpl in *; rewrite ?E in *; done. Qed.
Lemma victim_in op st r : victim op st = Some r -> r ∈ queue op (dev st).
Proof.
  unfold victim. destruct (on_overflow _ _).
  - intros [p ->]%last_Some. apply elem_of_app. right. left.
  - destruct (queue op (dev st)); [done|]. intros [= ->]. left.
Qed.
Lemma moved_ctx r : ctx (moved r) = ctx r.
Proof. unfold moved. by destruct (cb r). Qed.
Lemma moved_retries st r : victim_retries st (moved r) = victim_retries st r.
Proof. unfold victim_retries, moved. by destruct (cb r) eqn:E; rewrite ?E. Qed.

(** The two overflow branches as one: run the victim's callback with the queue as
    it is (its captured value moved out), then take one element off and append. *)
Lemma Execute_full fuel op req st r : victim op st = Some r ->
  wraps 32 (queue_max op (dconfig (dev st))) <= Z.of_nat (length (queue op (dev st))) ->
  exists q1 (pop : list Request -> list Request),
    (forall l, length (pop l) = (length l - 1)%nat /\ forall x, x ∈ pop l -> x ∈ l) /\
    victim op (put_dev st (set_queue op q1 (dev st))) = Some (moved r) /\ length q1 = length (queue op (dev st)) /\
    (forall x, x ∈ q1 -> x = moved r \/ x ∈ queue op (dev st)) /\
    Execute (S fuel) op req st =
      (let* (st, eff) := fail_cb (Execute fuel op_write) r "Removed from queue" (put_dev st (set_queue op q1 (dev st))) in
       Ok (put_dev st (set_queue op (pop (queue op (dev st)) ++ [req]) (dev st)), OverflowWarning op :: eff)).
Proof.
  unfold victim. intros Hv Hfull. cbn [Execute]. rewrite (proj2 (Z.leb_le _ _)) by done.
  destruct (on_overflow op (dconfig (dev st))) eqn:Eo.
  - pose proof Hv as [pre E]%last_Some.
    exists (pop_back_list (queue op (dev st)) ++ [moved r]), pop_back_list.
    assert (pop_back_list (queue op (dev st)) = pre) as Hpre.
    { unfold pop_back_list. rewrite E, length_app. simpl. by rewrite Nat.add_sub, take_app_length. }
    split_and!.
    + intros l. unfold pop_back_list. rewrite length_take. split; [lia|]. intros x Hx.
      eapply elem_of_take in Hx as (i & Hi & _). by eapply list_elem_of_lookup_2.
    + cbn [put_dev dev]. rewrite dconfig_set, Eo, queue_set_eq. by rewrite last_snoc.
    + by rewrite Hpre, E, !length_app.
    + intros x. rewrite Hpre, E, !elem_of_app, !list_elem_of_singleton. tauto.
    + rewrite Hv. destruct (fail_cb _ _ _ _) as [[st2 eff]|]; [|done]. by destruct op.
  - destruct (queue op (dev st)) as [|r' q'] eqn:E; [done|]. injection Hv as ->.
    exists (moved r :: q'), tail. split_and!.
    + intros [|x l]; simpl; [done|]. split; [lia|]. intros y ?. by right.
    + cbn [put_dev dev]. by rewrite dconfig_set, Eo, queue_set_eq.
    + done.
    + intros x. rewrite !elem_of_cons. tauto.
    + destruct (fail_cb _ _ _ _) as [[st2 eff]|]; [|done]. by destruct op.
Qed.

Lemma Execute_step N fuel op req st :
  sys_wf N st -> req_ok op (masters st) req ->
  (forall r q1 err, victim op st = Some r ->
     let st1 := put_dev st (set_queue op q1 (dev st)) in
     sys_wf N st1 -> victim op st1 = Some (moved r) ->
     exists st2 eff, fail_cb (Execute fuel op_write) r err st1 = Ok (st2, eff) /\ keeps N st1 st2 /\ no_send eff) ->
  exists st2 eff, Execute (S fuel) op req st = Ok (st2, eff) /\ keeps N st st2 /\ no_send eff.
Proof.
  intros Hwf Hreq Hcb. pose proof (wf_max _ _ Hwf op) as Hmax. pose proof (wf_len _ _ Hwf op) as Hlen.
  destruct (Z.ltb_spec (Z.of_nat (length (queue op (dev st)))) (wraps 32 (queue_max op (dconfig (dev st))))) as [Hlt|Hge].
  - eexists _, []. cbn [Execute]. rewrite (proj2 (Z.leb_gt _ _)) by done. split_and!; [done| |by constructor].
    rewrite wraps32_small in Hlt by lia.
    split; cbn [put_dev dev masters]; auto. by apply wf_push.
  - pose proof Hge as Hfull. rewrite wraps32_small in Hge by lia.
    assert (exists r, victim op st = Some r) as [r Hv].
    { unfold victim. destruct (on_overflow _ _).
      - destruct (last (queue op (dev st))) eqn:E; [eauto|]. apply last_None in E. rewrite E in Hge. simpl in Hge. lia.
      - destruct (queue op (dev st)); simpl in *; [lia|eauto]. }
    destruct (Execute_full fuel op req st r Hv Hfull) as (q1 & pop & Hpop & Hv1 & Hl1 & Hq1 & ->).
    set (st1 := put_dev st (set_queue op q1 (dev st))) in *.
    pose proof (proj1 (Forall_forall _ _) (wf_reqs _ _ Hwf op) _ (victim_in _ _ _ Hv)) as Hr.
    assert (sys_wf N st1) as Hwf1.
    { apply wf_set_queue; [done|lia|]. apply Forall_forall. intros x [->|Hx]%Hq1; [by apply moved_ok|].
      by apply (proj1 (Forall_forall _ _) (wf_reqs _ _ Hwf op)). }
    destruct (Hcb r q1 "Removed from queue" Hv Hwf1 Hv1) as (st2 & eff & Hf & [K1 K2 K3 K4] & Hs).
    fold st1 in Hf. rewrite Hf. cbn [res_bind]. eexists _, _. split_and!; [done| |by constructor].
    pose proof (wf_max _ _ K1 op) as Hm2. pose proof (wf_len _ _ K1 op) as Hl2.
    split; cbn [put_dev dev masters]; [|exact K2|exact K3|exact K4].
    apply wf_set_queue; [done| |].
    + rewrite length_app, (proj1 (Hpop _)). simpl. lia.
    + apply Forall_app. split.
      * apply Forall_forall. intros x Hx%(proj2 (Hpop _)). by apply (proj1 (Forall_forall _ _) (wf_reqs _ _ K1 op)).
      * apply Forall_cons. split; [|done]. destruct Hreq as [? Ho]. split; [done|]. by apply K2.
Qed.

(** With more fuel than the victim has retries, [Execute] returns. *)
Lemma Execute_write_keeps N n : forall fuel req st,
  sys_wf N st -> req_ok op_write (masters st) req -> (n < fuel)%nat ->
  (forall r, victim op_write st = Some r -> victim_retries st r <= Z.of_nat n) ->
  exists st2 eff, Execute fuel op_write req st = Ok (st2, eff) /\ keeps N st st2 /\ no_send eff.
Proof.
  induction n as [|n IH]; intros [|fuel] req st Hwf Hreq Hn Hvic; try lia;
    (apply Execute_step; [done|done|]); intros r q1 err Hv st1 Hwf1 Hv1;
    pose proof (proj1 (Forall_forall _ _) (wf_reqs _ _ Hwf1 op_write)) as Hok;
    pose proof (moved_ok_inv _ _ _ (Hok _ (victim_in _ _ _ Hv1))) as Hr;
    (eapply fail_cb_keeps; [done|done|]); intros key v m f st' Ec Em Ef Hpos -> Hwf';
    specialize (Hvic r Hv); unfold victim_retries in Hvic; rewrite Ec in Hvic;
    change (masters st) with (masters st1) in Hvic; rewrite Em, Ef in Hvic; [lia|].
  apply IH; [done| |lia|].
  - split; [done|]. cbn [put_master masters write_request ctx]. rewrite lookup_insert_eq. eauto.
  - intros r' Hr'. unfold victim in Hr', Hv1. cbn [put_master dev] in Hr'. rewrite Hr' in Hv1. injection Hv1 as ->.
    unfold victim_retries, moved. rewrite Ec. cbn [cb ctx put_master masters]. rewrite lookup_insert_eq.
    cbn [set_inFlight inFlight]. rewrite lookup_insert_eq. simpl. lia.
Qed.
Lemma Execute_keeps N fuel op req st :
  sys_wf N st -> 0 <= N -> req_ok op (masters st) req -> (S (Z.to_nat N) < fuel)%nat ->
  exists st2 eff, Execute fuel op req st = Ok (st2, eff) /\ keeps N st st2 /\ no_send eff.
Proof.
  intros Hwf HN Hreq Hfuel. destruct op.
  - destruct fuel as [|fuel]; [lia|]. apply Execute_step; [done|done|]. intros r q1 err Hv st1 Hwf1 Hv1.
    pose proof (moved_ok_inv _ _ _ (proj1 (Forall_forall _ _) (wf_reqs _ _ Hwf1 op_read) _ (victim_in _ _ _ Hv1))) as Hr.
    eapply fail_cb_keeps; [done|exact Hr|]. intros key v m f st' E. destruct Hr as [Hk _]. by rewrite E in Hk.
  - apply (Execute_write_keeps N (Z.to_nat N)); [done|done|lia|].
    intros r _. unfold victim_retries. destruct (cb r) as [|key v]; [lia|].
    destruct (masters st !! ctx r) as [m|] eqn:Em; [|lia]. destruct (inFlight m !! key) as [f|] eqn:Ef; [|lia].
    pose proof (wf_retries _ _ Hwf _ _ _ _ Em Ef). lia.
Qed.

Lemma keeps_refl N st : sys_wf N st -> keeps N st st.
Proof. by split. Qed.
Lemma keeps_trans N a b c : keeps N a b -> keeps N b c -> keeps N a c.
Proof. intros [? H2 H3 [? ?]] [? K2 K3 [? ?]]. split; [done|auto|congruence|split; congruence]. Qed.
Lemma put_master_dom st i m j : is_Some (masters st !! j) -> is_Some (masters (put_master st i m) !! j).
Proof.
  intros. cbn [put_master masters]. destruct (decide (i = j)) as [<-|]; [rewrite lookup_insert_eq; eauto|].
  by rewrite lookup_insert_ne.
Qed.
Lemma keeps_put_master N st i m m' : sys_wf N st -> masters st !! i = Some m -> config m' = config m ->
  (forall key f, inFlight m' !! key = Some f -> 0 <= retriesLeft f <= N) -> keeps N st (put_master st i m').
Proof.
  intros Hwf Hi Hc Hf. split; [by eapply wf_put_master| |done|done]. intros. by apply put_master_dom.
Qed.

Section operations.
Context {QO : QVariantOps} (validate : nat -> Validation) (N : Z) (HN : 0 <= N) (fuel : nat) (Hfuel : (S (Z.to_nat N) < fuel)%nat).

Lemma write_entry_keeps i k v st : sys_wf N st -> is_Some (masters st !! i) ->
  exists st' eff, write_entry validate fuel i k v st = Ok (st', eff) /\ keeps N st st' /\ no_send eff.
Proof.
  intros Hwf [m Hm]. unfold write_entry. rewrite Hm.
  assert (forall e, match e with Send _ _ => False | _ => True end ->
    exists st' eff, Ok (st, [e]) = Ok (st', eff) /\ keeps N st st' /\ no_send eff) as Hskip.
  { intros e He. exists st. eexists. split_and!; [done|by apply keeps_refl|by repeat constructor]. }
  destruct (isValid v); cbn [negb]; [|exists st, []; split_and!; [done|by apply keeps_refl|constructor]].
  destruct (qm_find k (writable m)) as [w|]; [|exists st, []; split_and!; [done|by apply keeps_refl|constructor]].
  destruct (match pvalidator (wreg w) with Some f => validate f | None => Accepted end); [|by apply Hskip..].
  destruct (encodeRegister _ v) as [words|]; [|by apply Hskip].
  set (m' := set_inFlight m _). set (u := {| registerType := _; startAddress := _; valueCount := _; values := _ |}) in *.
  assert (keeps N st (put_master st i m')) as Hk.
  { eapply keeps_put_master; [done|done|done|]. intros key f. subst m'. cbn [set_inFlight inFlight].
    destruct (decide (k = key)) as [<-|]; [|rewrite lookup_insert_ne by done; by eapply wf_retries].
    rewrite lookup_insert_eq. intros [= <-]. simpl. by eapply wf_conf. }
  destruct (Execute_keeps N fuel op_write (write_request m' i u k v) (put_master st i m')) as (st2 & eff & -> & ? & ?);
    [apply Hk|done|split; [done|apply put_master_dom; eauto]|done|].
  exists st2, eff. split_and!; [done|by eapply keeps_trans|done].
Qed.
Lemma write_entries_keeps i flat : forall st, sys_wf N st -> is_Some (masters st !! i) ->
  exists st' eff, write_entries validate fuel i flat st = Ok (st', eff) /\ keeps N st st' /\ no_send eff.
Proof.
  induction flat as [|[k v] flat IH]; intros st Hwf Hi; cbn [write_entries].
  { exists st, []. split_and!; [done|by apply keeps_refl|constructor]. }
  destruct (write_entry_keeps i k v st Hwf Hi) as (st1 & e1 & -> & K1 & S1). cbn [res_bind].
  destruct (IH st1 (k_wf _ _ _ K1) (k_dom _ _ _ K1 _ Hi)) as (st2 & e2 & -> & K2 & S2). cbn [res_bind].
  exists st2. eexists. split_and!; [done|by eapply keeps_trans|by apply Forall_app].
Qed.
Lemma execute_all_keeps op rs : forall st, sys_wf N st -> Forall (req_ok op (masters st)) rs ->
  exists st' eff, execute_all fuel op rs st = Ok (st', eff) /\ keeps N st st' /\ no_send eff.
Proof.
  induction rs as [|r rs IH]; intros st Hwf Hrs; cbn [execute_all].
  { exists st, []. split_and!; [done|by apply keeps_refl|constructor]. }
  apply Forall_cons in Hrs as [Hr Hrs].
  destruct (Execute_keeps N fuel op r st Hwf HN Hr Hfuel) as (st1 & e1 & -> & K1 & S1). cbn [res_bind].
  destruct (IH st1 (k_wf _ _ _ K1)) as (st2 & e2 & -> & K2 & S2).
  { eapply Forall_impl; [exact Hrs|]. intros x [? ?]. split; [done|]. by apply (k_dom _ _ _ K1). }
  cbn [res_bind]. exists st2. eexists. split_and!; [done|by eapply keeps_trans|by apply Forall_app].
Qed.
Lemma fail_cb_all op r err st : sys_wf N st -> req_ok op (masters st) r ->
  exists st' eff, fail_cb (Execute fuel op_write) r err st = Ok (st', eff) /\ keeps N st st' /\ no_send eff.
Proof.
  intros Hwf Hr. eapply fail_cb_keeps; [done|done|]. intros key v m f st' _ _ _ _ -> Hwf'.
  apply Execute_keeps; [done|done| |done]. split; [done|]. cbn [write_request ctx put_master masters].
  rewrite lookup_insert_eq. eauto.
Qed.
Lemma ok_cb_keeps garbage r u st : sys_wf N st -> is_Some (masters st !! ctx r) ->
  exists st' eff, ok_cb garbage r u st = Ok (st', eff) /\ keeps N st st' /\ no_send eff.
Proof.
  intros Hwf [m Hm]. unfold ok_cb. rewrite Hm.
  assert (forall out, no_send (map (MasterEmit (ctx r)) out)) as Hno.
  { intros out. induction out; constructor; done. }
  destruct (match cb r with CbRead src => _ | CbWrite key v => _ end) as [m' out] eqn:E.
  eexists _, _. split_and!; [done| |done]. eapply keeps_put_master; [done|done|..]; destruct (cb r) as [src|key v].
  - destruct (reads m !! src); [|by injection E as <- _]. unfold parsePoll in E.
    destruct (parse_loop _ _ _ _). by injection E as <- _.
  - unfold write_ok in E. by injection E as <- _.
  - intros key f. replace (inFlight m') with (inFlight m); [by eapply wf_retries|].
    destruct (reads m !! src); [|by injection E as <- _]. unfold parsePoll in E.
    destruct (parse_loop _ _ _ _). by injection E as <- _.
  - unfold write_ok in E. injection E as <- _. intros k f. cbn [set_inFlight inFlight].
    destruct (decide (key = k)) as [<-|]; [by rewrite lookup_delete_eq|rewrite lookup_delete_ne by done].
    by eapply wf_retries.
Qed.
End operations.

(** A device between events: no queue overflows, and it is busy exactly while a
    reply is awaited. *)
Record dev_inv (N : Z) (st : Sys) : Prop := {
  inv_wf : sys_wf N st;
  inv_busy : busy (dev st) = bool_decide (is_Some (pending (dev st)));
  inv_pending : forall b r, pending (dev st) = Some (b, r) ->
    req_ok (if b then op_read else op_write) (masters st) r
}.
Lemma keeps_inv N st st' : dev_inv N st -> keeps N st st' -> dev_inv N st'.
Proof.
  intros [Hw Hb Hp] [K1 K2 K3 [K4 K5]]. split; [done|by rewrite K4, K5|].
  intros b r. rewrite K5. intros H. destruct (Hp b r H) as [? ?]. split; [done|auto].
Qed.
Lemma wf_set_busy N st b p : sys_wf N st -> sys_wf N (put_dev st (set_busy b p (dev st))).
Proof. intros [? H2 H3 ? ?]. split; try done; intros []; first [apply (H2 op_read)|apply (H2 op_write)|apply (H3 op_read)|apply (H3 op_write)]. Qed.

Definition sends (eff : list Effect) : list (bool * Request) :=
  omap (fun e => match e with Send b r => Some (b, r) | _ => None end) eff.
Lemma no_send_sends eff : no_send eff -> sends eff = [].
Proof. induction 1 as [|e eff He _ IH]; [done|]. by destruct e. Qed.

(** Taking the next request off its queue. *)
Definition next_request (d : MasterDevice) : option (bool * Request * MasterDevice) :=
  match q_writes d with
  | r :: w => Some (false, r, set_queue op_write w d)
  | [] => match q_reads d with r :: q => Some (true, r, set_queue op_read q d) | [] => None end
  end.
Lemma next_request_ok N st b r d : sys_wf N st -> next_request (dev st) = Some (b, r, d) ->
  sys_wf N (put_dev st d) /\ req_ok (if b then op_read else op_write) (masters st) r /\
  busy d = busy (dev st) /\ pending d = pending (dev st) /\ dconfig d = dconfig (dev st).
Proof.
  intros Hwf. unfold next_request. pose proof (wf_reqs _ _ Hwf op_write) as Hw. pose proof (wf_reqs _ _ Hwf op_read) as Hr.
  pose proof (wf_len _ _ Hwf op_write) as Lw. pose proof (wf_len _ _ Hwf op_read) as Lr. simpl in *.
  destruct (q_writes (dev st)) as [|w ws] eqn:Ew.
  - destruct (q_reads (dev st)) as [|q qs] eqn:Er; [done|]. intros [= <- <- <-]. apply Forall_cons in Hr as [? ?].
    simpl in Lr. split_and!; try done. apply (wf_set_queue N st op_read); [done|simpl; lia|done].
  - intros [= <- <- <-]. apply Forall_cons in Hw as [? ?]. simpl in Lw.
    split_and!; try done. apply (wf_set_queue N st op_write); [done|simpl; lia|done].
Qed.

Section replies.
Context {QO : QVariantOps} (N : Z) (HN : 0 <= N) (fuel : nat) (Hfuel : (S (Z.to_nat N) < fuel)%nat).

Lemma nextReq_keeps accepted st : dev_inv N st ->
  exists st' eff, nextReq fuel accepted st = Ok (st', eff) /\ dev_inv N st' /\
    (forall i, is_Some (masters st !! i) -> is_Some (masters st' !! i)) /\
    sends eff = (if busy (dev st) then [] else
                 match next_request (dev st) with Some (b, r, _) => [(b, r)] | None => [] end).
Proof.
  intros Hi. unfold nextReq. destruct (busy (dev st)) eqn:Eb.
  { exists st, []. by split_and!. }
  fold (next_request (dev st)). destruct (next_request (dev st)) as [[[b r] d]|] eqn:En.
  2: { exists st, []. by split_and!. }
  destruct (next_request_ok N st b r d (inv_wf _ _ Hi) En) as (Hwf & Hr & B & P & C).
  destruct accepted.
  - eexists _, _. split_and!; [done| |done|done]. split; cbn [put_dev dev set_busy busy pending masters].
    + exact (wf_set_busy N (put_dev st d) true (Some (b, r)) Hwf).
    + by rewrite bool_decide_eq_true_2.
    + by intros ? ? [= <- <-].
  - assert (dev_inv N (put_dev st (set_busy false None d))) as Hi1.
    { split; cbn [put_dev dev set_busy busy pending masters]; [exact (wf_set_busy N (put_dev st d) false None Hwf)|done|done]. }
    destruct (fail_cb_all N HN fuel Hfuel _ r "Could not send" (put_dev st (set_busy false None d)) (inv_wf _ _ Hi1) Hr)
      as (st2 & eff & -> & K & S). cbn [res_bind].
    eexists _, _. split_and!; [done|by eapply keeps_inv| |].
    + intros i H. by apply (k_dom _ _ _ K).
    + unfold sends. csimpl. fold (sends eff). by rewrite no_send_sends.
Qed.
Lemma finished_keeps garbage reply st : dev_inv N st ->
  exists st' eff, finished fuel garbage reply st = Ok (st', eff) /\ dev_inv N st' /\
    (forall i, is_Some (masters st !! i) -> is_Some (masters st' !! i)) /\
    pending (dev st') = None /\ sends eff = [].
Proof.
  intros Hi. unfold finished. destruct (pending (dev st)) as [[b r]|] eqn:Ep.
  2: { exists st, []. by split_and!. }
  pose proof (inv_pending _ _ Hi b r Ep) as [Hk Ho].
  assert (dev_inv N (put_dev st (set_busy false None (dev st)))) as Hi1.
  { split; cbn [put_dev dev set_busy busy pending masters]; [apply wf_set_busy, Hi|done|done]. }
  set (st1 := put_dev st (set_busy false None (dev st))) in *. change (masters st) with (masters st1) in *.
  assert (forall out, (exists st' eff, out = Ok (st', eff) /\ keeps N st1 st' /\ no_send eff) ->
    exists st' eff, out = Ok (st', eff) /\ dev_inv N st' /\
      (forall i, is_Some (masters st1 !! i) -> is_Some (masters st' !! i)) /\
      pending (dev st') = None /\ sends eff = []) as Hfin.
  { intros out (st' & eff & -> & K & S). exists st', eff.
    split_and!; [done|by eapply keeps_inv|apply K|by destruct (k_busy _ _ _ K) as [_ ->]|by apply no_send_sends]. }
  pose proof Ho as [m Hm]. rewrite Hm. apply Hfin. destruct reply as [e|code rdata result].
  - eapply fail_cb_all; [done|done|apply Hi1|by split].
  - destruct (_ || _)%bool; apply ok_cb_keeps; (apply Hi1 || eauto).
Qed.
End replies.

(** ** Lemmas on polling *)

(** A register whose value does not depend on what the second word held. *)
Definition self_contained (r : PreparedRegister) : bool :=
  ((sizeOf r =? getSizeOf (ptype r)) && ((sizeOf r =? 4) || bool_decide (word (ppacking r) = self_order)))%bool.
Definition decoded (resp : DataUnit) (r : PreparedRegister) : QVar :=
  (decodeRegister r (unit_value resp (pindex r - startAddress resp),
     if sizeOf r =? 4 then unit_value resp (pindex r + 1 - startAddress resp) else 0)).1.
Lemma decoded_any resp r d1 : self_contained r = true ->
  (decodeRegister r (unit_value resp (pindex r - startAddress resp),
     if sizeOf r =? 4 then unit_value resp (pindex r + 1 - startAddress resp) else d1)).1 = decoded resp r.
Proof.
  unfold self_contained, decoded. intros H. bool_to_prop. destruct (Z.eqb_spec (sizeOf r) 4) as [|Hs]; [done|].
  destruct H0 as [|Hw]; [done|]. bool_to_prop. unfold decodeRegister. rewrite Hw. simpl. clear Hw.
  destruct (ptype r); simpl in *; done || congruence.
Qed.

Section poll_lemmas.
Context {QO : QVariantOps}.
Definition changed (resp : DataUnit) (current : list (string * QVar)) (r : PreparedRegister) : bool :=
  negb (qeq (qm_get VInvalid (pkey r) current) (decoded resp r)).
Lemma qm_get_insert_ne k k' (v : QVar) m : k <> k' -> qm_get VInvalid k' (qm_insert k v m) = qm_get VInvalid k' m.
Proof. intros. unfold qm_get. by rewrite qm_find_insert_ne. Qed.
Lemma qm_get_insert_eq k (v : QVar) m : qm_get VInvalid k (qm_insert k v m) = v.
Proof. unfold qm_get. by rewrite qm_find_insert_eq. Qed.

Lemma parse_loop_spec resp rs : forall data current diff current',
  NoDup (map pkey rs) -> forallb self_contained rs = true ->
  parse_loop resp rs data current = (diff, current') ->
  diff = map (fun r => (pkey r, decoded resp r)) (List.filter (changed resp current) rs) /\
  (forall k, k ∉ map pkey rs -> qm_get VInvalid k current' = qm_get VInvalid k current) /\
  (forall r, r ∈ rs -> qm_get VInvalid (pkey r) current' =
     if changed resp current r then decoded resp r else qm_get VInvalid (pkey r) current).
Proof.
  induction rs as [|r rs IH]; intros data current diff current'; cbn [parse_loop map forallb].
  { intros _ _ [= <- <-]. split_and!; [done|done|]. by intros r ?%elem_of_nil. }
  intros [Hni Hnd]%NoDup_cons [Hs Hss]%andb_true_iff.
  destruct (decodeRegister r _) as [x data'] eqn:Ed.
  pose proof (decoded_any resp r data.2 Hs) as Hd. rewrite Ed in Hd. simpl in Hd. subst x.
  assert (forall v, List.filter (changed resp (qm_insert (pkey r) v current)) rs = List.filter (changed resp current) rs) as Hfilt.
  { intros v. clear -Hni. induction rs as [|r' rs IH]; [done|]. cbn [map] in Hni. apply not_elem_of_cons in Hni as [? ?].
    cbn [List.filter].
    assert (changed resp (qm_insert (pkey r) v current) r' = changed resp current r') as ->
      by (unfold changed; by rewrite qm_get_insert_ne).
    by rewrite IH. }
  cbn [List.filter].
  change (negb (qeq (qm_get VInvalid (pkey r) current) (decoded resp r))) with (changed resp current r).
  destruct (changed resp current r) eqn:Eq.
  - destruct (parse_loop resp rs data' _) as [diff1 cur1] eqn:E. intros [= <- <-].
    destruct (IH _ _ _ _ Hnd Hss E) as (-> & Hk & Hr). rewrite Hfilt. split_and!; [by simpl|..].
    + intros k [Hne Hnin]%not_elem_of_cons. rewrite Hk by done. by rewrite qm_get_insert_ne.
    + intros r' [->|Hin]%elem_of_cons.
      * rewrite Hk, Eq by done. apply qm_get_insert_eq.
      * rewrite Hr by done. unfold changed.
        assert (pkey r <> pkey r') by (intros E'; apply Hni; rewrite E'; by apply list_elem_of_fmap_2).
        by rewrite !qm_get_insert_ne.
  - intros E. destruct (IH _ _ _ _ Hnd Hss E) as (-> & Hk & Hr). rewrite Hfilt. split_and!; [done|..].
    + intros k [Hne Hnin]%not_elem_of_cons. rewrite Hk by done. by rewrite qm_get_insert_ne.
    + intros r' [->|Hin]%elem_of_cons.
      * rewrite Hk, Eq by done. apply qm_get_insert_eq.
      * rewrite Hr by done. unfold changed.
        assert (pkey r <> pkey r') by (intros E'; apply Hni; rewrite E'; by apply list_elem_of_fmap_2).
        by rewrite !qm_get_insert_ne.
Qed.
End poll_lemmas.

(** ** Lemmas on packed bits *)
Lemma packed_bit_spec rdata i b : packed_bit rdata i = Some b <->
  exists byte, rdata !! (1 + i / 8)%nat = Some byte /\ b = Z.b2z (Z.testbit byte (Z.of_nat (i mod 8))).
Proof.
  unfold packed_bit. destruct (rdata !! _) as [x|]; cbn [fmap option_fmap option_map].
  - assert (Z.land (Z.shiftr x (Z.of_nat (i mod 8))) 1 = Z.b2z (Z.testbit x (Z.of_nat (i mod 8)))) as ->.
    { change 1 with (Z.ones 1). rewrite Z.land_ones by lia. rewrite Z.testbit_spec' by lia.
      by rewrite Z.shiftr_div_pow2 by lia. }
    naive_solver.
  - split; [done|]. by intros (? & ? & _).
Qed.
Lemma unpack_loop_spec rdata n : forall i vals, (i + n <= length vals)%nat ->
  length (unpack_loop rdata i n vals) = length vals /\
  forall j, unpack_loop rdata i n vals !! j =
    if bool_decide (i <= j < i + n)%nat
    then match packed_bit rdata j with Some b => Some b | None => vals !! j end else vals !! j.
Proof.
  induction n as [|n IH]; intros i vals Hl; cbn [unpack_loop].
  { split; [done|]. intros j. by rewrite bool_decide_eq_false_2 by lia. }
  set (vals' := match packed_bit rdata i with Some b => _ | None => vals end).
  assert (length vals' = length vals) as Hlv.
  { subst vals'. destruct (packed_bit rdata i); [|done]. case_bool_decide; [|done]. by rewrite length_insert. }
  assert (forall j, vals' !! j = if bool_decide (j = i) then match packed_bit rdata j with Some b => Some b | None => vals !! j end else vals !! j) as Hv.
  { intros j. subst vals'. destruct (decide (j = i)) as [->|Hne].
    - rewrite (bool_decide_eq_true_2 (i = i)) by done. destruct (packed_bit rdata i); [|done].
      rewrite bool_decide_eq_true_2 by lia. apply list_lookup_insert_eq. lia.
    - rewrite (bool_decide_eq_false_2 (j = i)) by done. destruct (packed_bit rdata i); [|done].
      case_bool_decide; [|done]. by apply list_lookup_insert_ne. }
  destruct (IH (S i) vals' ltac:(lia)) as [H1 H2]. split; [lia|]. intros j. rewrite H2, Hv.
  repeat case_bool_decide; try done; try lia. all: destruct (packed_bit rdata j); done.
Qed.

(** ** Repeated failures of one write *)
Section failures.
Context {QO : QVariantOps}.
Definition send_and_fail (fuel : nat) (garbage : Z * Z) (st : Sys) : Outcome :=
  let* (st, eff) := nextReq fuel true st in
  let* (st, eff') := finished fuel garbage (ReplyError "timeout") st in
  Ok (st, eff ++ eff').
Fixpoint rounds (n fuel : nat) (garbage : Z * Z) (st : Sys) : Outcome :=
  match n with
  | O => Ok (st, [])
  | S n =>
      let* (st, eff) := send_and_fail fuel garbage st in
      let* (st, eff') := rounds n fuel garbage st in
      Ok (st, eff ++ eff')
  end.

(** One queued write [r], everything else idle. *)
Record only_write (st : Sys) (r : Request) (key : string) (m : Master) (f : InFlight) : Prop := {
  ow_busy : busy (dev st) = false;
  ow_queue : q_writes (dev st) = [r];
  ow_cb : exists v, cb r = CbWrite key v;
  ow_max : 0 < max_write_queue (dconfig (dev st)) < 2 ^ 31;
  ow_master : masters st !! ctx r = Some m;
  ow_flight : inFlight m !! key = Some f
}.
Lemma fail_once fuel garbage st r key m f : only_write st r key m f -> (0 < fuel)%nat ->
  exists st' eff, send_and_fail fuel garbage st = Ok (st', Send false r :: eff) /\ no_send eff /\
    if retriesLeft f =? 0 then q_writes (dev st') = [] /\ error_line (ctx r) "could not write" ∈ eff
    else exists r' m' f', only_write st' r' key m' f' /\ ctx r' = ctx r /\ rq_unit r' = if_unit f /\
           if_unit f' = if_unit f /\ retriesLeft f' = retriesLeft f - 1.
Proof.
  intros [Hb Hq [v Hcb] Hmax Hm Hf] Hfuel. unfold send_and_fail, nextReq. rewrite Hb, Hq. cbn [res_bind].
  unfold finished. cbn [put_dev dev set_busy pending masters]. rewrite Hm. unfold fail_cb.
  cbn [put_dev masters]. rewrite Hm, Hcb. unfold retry. cbn [put_dev masters]. rewrite Hm, Hf.
  destruct (Z.eqb_spec (retriesLeft f) 0) as [E|E].
  - cbn [res_bind]. eexists _, _. split_and!; [done|by repeat constructor|done|]. cbn [app]. right. right. left.
  - destruct fuel as [|fuel]; [lia|]. cbn [Execute queue put_master put_dev dev set_busy set_queue q_writes dconfig queue_max].
    rewrite wraps32_small, (proj2 (Z.leb_gt _ _)) by (simpl; lia). cbn [res_bind].
    eexists _, _. split_and!; [done|by repeat constructor|].
    set (f' := {| if_unit := if_unit f; retriesLeft := retriesLeft f - 1 |}).
    set (m' := set_inFlight m (<[key := f']> (inFlight m))).
    exists (write_request m' (ctx r) (if_unit f) key v), m', f'. split_and!; [|done..]. split; try done.
    + by eexists.
    + cbn [put_dev put_master masters write_request ctx]. by rewrite lookup_insert_eq.
    + subst m'. cbn [set_inFlight inFlight]. by rewrite lookup_insert_eq.
Qed.
Lemma fail_rounds n : forall fuel garbage st r key m f, only_write st r key m f -> (0 < fuel)%nat ->
  retriesLeft f = Z.of_nat n ->
  exists st' eff, rounds (S n) fuel garbage st = Ok (st', eff) /\ q_writes (dev st') = [] /\
    length (sends eff) = S n /\ error_line (ctx r) "could not write" ∈ eff.
Proof.
  induction n as [|n IH]; intros fuel garbage st r key m f Hw Hfuel Hn; cbn [rounds];
    destruct (fail_once fuel garbage st r key m f Hw Hfuel) as (st1 & e1 & -> & Hs1 & H); rewrite Hn in H; cbn [res_bind].
  - simpl in H. destruct H as [Hq Hin]. eexists _, _. split_and!; [done|done|..]; rewrite ?app_nil_r.
    + unfold sends. csimpl. fold (sends e1). by rewrite no_send_sends.
    + by right.
  - rewrite (proj2 (Z.eqb_neq _ _)) in H by lia. destruct H as (r' & m' & f' & Hw' & Ec & _ & _ & Hr').
    destruct (IH fuel garbage st1 r' key m' f' Hw' Hfuel ltac:(lia)) as (st2 & e2 & E2 & Hq & Hl & Hin).
    cbn [rounds] in E2. rewrite E2. cbn [res_bind]. eexists _, _. split_and!; [done|done|..].
    + unfold sends in *. rewrite omap_app, length_app. csimpl. fold (sends e1). rewrite no_send_sends by done. simpl. lia.
    + apply elem_of_app. right. by rewrite <- Ec.
Qed.
End failures.

(** * Properties *)

(** C4: the device queue is safe while the masters of its requests live: from any
    well-formed state every operation - a message to a master, a poll, taking
    the next request, a reply - returns (the overflow callbacks recurse at most
    once per retry left, whatever the queues hold), keeps both queues within
    their configured bounds, and keeps the device busy exactly while one reply
    is awaited; while busy nothing is sent, otherwise a queued write goes before
    any read, in order. *)
Theorem master_device_safe (QO : QVariantOps) validate garbage N fuel st :
  dev_inv N st -> 0 <= N -> (S (Z.to_nat N) < fuel)%nat ->
  (forall i msg, is_Some (masters st !! i) ->
     exists st' eff, OnMsg validate fuel i msg st = Ok (st', eff) /\ dev_inv N st' /\ sends eff = []) /\
  (forall i, exists st' eff, poll fuel i st = Ok (st', eff) /\ dev_inv N st' /\ sends eff = []) /\
  (forall reply, exists st' eff, finished fuel garbage reply st = Ok (st', eff) /\ dev_inv N st' /\
     busy (dev st') = false /\ sends eff = []) /\
  (forall accepted, exists st' eff, nextReq fuel accepted st = Ok (st', eff) /\ dev_inv N st' /\
     sends eff = (if busy (dev st) then [] else
       match q_writes (dev st), q_reads (dev st) with
       | r :: _, _ => [(false, r)]
       | [], r :: _ => [(true, r)]
       | [], [] => []
       end)).
Proof.
  intros Hi HN Hfuel. split_and!.
  - intros i msg Ho. destruct (write_entries_keeps validate N HN fuel Hfuel i (Flatten [] msg) st (inv_wf _ _ Hi) Ho)
      as (st' & eff & E & K & S). exists st', eff. split_and!; [done|by eapply keeps_inv|by apply no_send_sends].
  - intros i. unfold poll. destruct (masters st !! i) as [m|] eqn:Em; [|exists st, []; by split_and!].
    destruct (execute_all_keeps N HN fuel Hfuel op_read (imap (fun src rd => poll_request m i src rd) (reads m)) st (inv_wf _ _ Hi))
      as (st' & eff & E & K & S).
    + apply Forall_forall. intros r (k & x & -> & _)%elem_of_lookup_imap_1. split; [done|]. simpl. eauto.
    + exists st', eff. split_and!; [done|by eapply keeps_inv|by apply no_send_sends].
  - intros reply. destruct (finished_keeps N HN fuel Hfuel garbage reply st Hi) as (st' & eff & E & Hi' & _ & Hp & Hs).
    exists st', eff. split_and!; try done. by rewrite (inv_busy _ _ Hi'), Hp.
  - intros accepted. destruct (nextReq_keeps N HN fuel Hfuel accepted st Hi) as (st' & eff & E & Hi' & _ & Hs).
    exists st', eff. split_and!; [done|done|]. rewrite Hs. unfold next_request.
    destruct (busy _); [done|]. by destruct (q_writes (dev st)), (q_reads (dev st)).
Qed.
Definition idle_device (c : Device) : MasterDevice := {|
  started := true; busy := false; frameGap_on := true; reconnect_on := false; q_reads := []; q_writes := [];
  dconfig := c; pending := None |}.
Definition one_master : Master := {|
  config := MasterConfig_default {| map_di := []; map_holding := []; map_input := []; map_coils := [] |} 1;
  reads := [setAsFirst HoldingRegisters (prepare_meta "a" (Register_default 3))];
  writable := [("a", prepare_write HoldingRegisters "a" (with_defaults (Register_default 3)))];
  inFlight := ∅; currentState := []; poller_on := true |}.
Definition one_sys : Sys := {| dev := idle_device Device_default; masters := {[0%nat := one_master]} |}.
Lemma one_sys_inv : dev_inv 3 one_sys.
Proof.
  split; [|done|done]. split; try (by intros []); cbn [one_sys masters].
  - intros i m key f. intros [<- <-]%lookup_singleton_Some. cbn [one_master inFlight]. by rewrite lookup_empty.
  - intros i m. intros [<- <-]%lookup_singleton_Some. done.
Qed.
Lemma master_device_safe_witness :
  exists st' eff, OnMsg (QO := simple_ops) (fun _ => Accepted) 5 0 (VMap [("a", VUInt 7)]) one_sys = Ok (st', eff) /\
    dev_inv 3 st'.
Proof.
  destruct (master_device_safe simple_ops (fun _ => Accepted) (0, 0) 3 5 one_sys) as (H & _).
  - exact one_sys_inv.
  - lia.
  - vm_compute. lia.
  - destruct (H 0%nat (VMap [("a", VUInt 7)])) as (st' & eff & E & Hi & _); [by eexists|]. by exists st', eff.
Defined.

(** A write whose every reply is an error is sent once and then retried
    exactly as often as its record allows; then the queue is empty and the
    failure is reported. *)
Theorem write_retries_exact (QO : QVariantOps) fuel garbage st r key m f n :
  only_write st r key m f -> (0 < fuel)%nat -> retriesLeft f = Z.of_nat n ->
  exists st' eff, rounds (S n) fuel garbage st = Ok (st', eff) /\ q_writes (dev st') = [] /\
    length (sends eff) = S n /\ error_line (ctx r) "could not write" ∈ eff.
Proof. apply fail_rounds. Qed.
Lemma write_retries_exact_witness :
  exists st, OnMsg (QO := simple_ops) (fun _ => Accepted) 5 0 (VMap [("a", VUInt 7)]) one_sys = Ok (st, []) /\
  exists st' eff, rounds (QO := simple_ops) 4 5 (0, 0) st = Ok (st', eff) /\ q_writes (dev st') = [] /\ length (sends eff) = 4%nat.
Proof.
  eexists. split; [vm_compute; reflexivity|].
  match goal with |- context [rounds 4 5 (0, 0) ?s] =>
    edestruct (write_retries_exact simple_ops 5 (0, 0) s) with (key := "a") (n := 3%nat) as (st' & eff & H1 & H2 & H3 & _)
  end.
  - split; [reflexivity|reflexivity|eexists; reflexivity|vm_compute; split; reflexivity| |].
    + vm_compute. reflexivity.
    + vm_compute. reflexivity.
  - lia.
  - vm_compute. reflexivity.
  - exists st', eff. split_and!; [exact H1|exact H2|exact H3].
Defined.

(** Polling reports changes only. For registers whose value does not depend on
    the stack contents, a reply updates exactly the values that differ from the
    last known ones, emits one message made of those and none if there are none,
    and repeating the same reply emits nothing. *)
Theorem parsePoll_reports_changes (QO : QVariantOps) garbage garbage' m rd resp :
  NoDup (map pkey (regs rd)) -> forallb self_contained (regs rd) = true ->
  let '(m', out) := parsePoll garbage m rd resp in
  out = match List.filter (changed resp (currentState m)) (regs rd) with
        | [] => []
        | rs => [SendMsg (Unflatten VInvalid (map (fun r => (pkey r, decoded resp r)) rs))]
        end /\
  (forall r, r ∈ regs rd -> qm_get VInvalid (pkey r) (currentState m') =
     if changed resp (currentState m) r then decoded resp r else qm_get VInvalid (pkey r) (currentState m)) /\
  (forall k, k ∉ map pkey (regs rd) -> qm_get VInvalid k (currentState m') = qm_get VInvalid k (currentState m)) /\
  ((forall r, r ∈ regs rd -> qeq (decoded resp r) (decoded resp r) = true) ->
   (parsePoll garbage' m' rd resp).2 = []).
Proof.
  intros Hnd Hs. unfold parsePoll at 1. destruct (parse_loop resp (regs rd) garbage (currentState m)) as [diff cur] eqn:E.
  destruct (parse_loop_spec resp (regs rd) _ _ _ _ Hnd Hs E) as (-> & Hk & Hr). split_and!.
  - by destruct (List.filter _ _).
  - exact Hr.
  - exact Hk.
  - intros Hrefl. unfold parsePoll. cbn [set_current currentState].
    destruct (parse_loop resp (regs rd) garbage' cur) as [diff2 cur2] eqn:E2.
    destruct (parse_loop_spec resp (regs rd) _ _ _ _ Hnd Hs E2) as (-> & _ & _).
    assert (List.filter (changed resp cur) (regs rd) = []) as ->; [|done].
    assert (forall r, r ∈ regs rd -> changed resp cur r = false) as Hno.
    { intros r Hin. unfold changed at 1. rewrite (Hr r Hin). destruct (changed resp (currentState m) r) eqn:Ec.
      - by rewrite Hrefl.
      - unfold changed in Ec. done. }
    clear -Hno. induction (regs rd) as [|r rs IH]; [done|]. simpl. rewrite Hno by left. apply IH. intros. apply Hno. by right.
Qed.
Lemma parsePoll_reports_changes_witness :
  let rd := setAsFirst HoldingRegisters (prepare_meta "a" (with_defaults (Register_default 3))) in
  let resp := {| registerType := HoldingRegisters; startAddress := 3; valueCount := 1; values := [9] |} in
  let '(m', out) := parsePoll (QO := simple_ops) (0, 0) one_master rd resp in
  out = [SendMsg (VMap [("a", VInt 9)])] /\ (parsePoll (QO := simple_ops) (5, 5) m' rd resp).2 = [].
Proof.
  intros rd resp. pose proof (parsePoll_reports_changes simple_ops (0, 0) (5, 5) one_master rd resp) as H.
  destruct (parsePoll _ one_master rd resp) as [m' out]. destruct H as (-> & _ & _ & H).
  - apply NoDup_singleton.
  - reflexivity.
  - split; [vm_compute; reflexivity|]. apply H. intros r Hin. apply list_elem_of_singleton in Hin as ->.
    vm_compute. reflexivity.
Defined.

(** A reply to a coil or discrete-input read is unpacked bit by bit: value
    [i] is bit [i mod 8] of byte [1 + i / 8] of the raw payload, zero where the
    payload is short, for every count a request can have. *)
Theorem unpack_bits_spec u rdata : 0 <= valueCount u < 2 ^ 16 ->
  startAddress (unpack_bits u rdata) = startAddress u /\
  length (values (unpack_bits u rdata)) = Z.to_nat (valueCount u) /\
  (forall i, (i < Z.to_nat (valueCount u))%nat ->
     unit_value (unpack_bits u rdata) (Z.of_nat i) =
       match rdata !! (1 + i / 8)%nat with
       | Some byte => Z.b2z (Z.testbit byte (Z.of_nat (i mod 8)))
       | None => 0
       end).
Proof.
  intros Hc. unfold unpack_bits. cbn [startAddress values]. rewrite wraps32_small, wrapu_small by lia.
  set (n := Z.to_nat (valueCount u)). destruct (unpack_loop_spec rdata n 0 (replicate n 0)) as [Hl Hv].
  { rewrite length_replicate. lia. }
  rewrite Hl, length_replicate. split_and!; [done|done|]. intros i Hi. unfold unit_value. cbn [values].
  rewrite (proj2 (Z.ltb_ge _ 0)), Nat2Z.id, Hv, bool_decide_eq_true_2 by lia.
  destruct (packed_bit rdata i) as [b|] eqn:E.
  - apply packed_bit_spec in E as (byte & -> & ->). done.
  - rewrite lookup_replicate_2 by done. unfold packed_bit in E. by destruct (rdata !! _).
Qed.
Lemma unpack_bits_spec_witness :
  unit_value (unpack_bits {| registerType := Coils; startAddress := 4; valueCount := 10; values := [] |} [2; 0; 2]) 9 = 1.
Proof.
  destruct (unpack_bits_spec {| registerType := Coils; startAddress := 4; valueCount := 10; values := [] |} [2; 0; 2])
    as (_ & _ & H); [vm_compute; split; [discriminate|reflexivity]|].
  apply (H 9%nat). vm_compute. lia.
Defined.

(** An overflowing write queue loses requests. When the oldest write [F] of a
    full queue ([pop_first]) still has [n] retries, its failure callback queues
    its retries while [F] is still at the front; unwinding then removes the [n]
    next requests too. They are neither sent nor failed: their owners are not
    told, and still count them as in flight. *)
Theorem write_overflow_drops_innocent n : forall fuel req st F rest key v m f,
  on_write_overflow (dconfig (dev st)) = pop_first -> q_writes (dev st) = F :: rest ->
  wraps 32 (max_write_queue (dconfig (dev st))) = Z.of_nat (length (F :: rest)) ->
  cb F = CbWrite key v -> masters st !! ctx F = Some m -> inFlight m !! key = Some f ->
  retriesLeft f = Z.of_nat n -> (n < fuel)%nat ->
  exists st' eff retries,
    Execute fuel op_write req st = Ok (st', eff) /\
    q_writes (dev st') = drop n (rest ++ retries) ++ [req] /\ length retries = n /\
    Forall (fun r => ctx r = ctx F /\ rq_unit r = if_unit f) retries /\
    (forall j, j <> ctx F -> masters st' !! j = masters st !! j) /\
    Forall (fun e => match e with MasterEmit j _ => j = ctx F | Send _ _ => False | _ => True end) eff.
Proof.
  induction n as [|n IH]; intros [|fuel] req st F rest key v m f Hpf Hq Hmax Hcb Hm Hf Hn Hfuel; try lia;
    cbn [Execute queue queue_max on_overflow]; rewrite Hq, Hmax, Z.leb_refl, Hpf;
    unfold fail_cb; cbn [put_dev masters]; rewrite Hm, Hcb; unfold retry; cbn [put_dev masters]; rewrite Hm, Hf, Hn.
  - cbn [res_bind Z.of_nat Z.eqb]. eexists _, _, []. split_and!; [done|by rewrite app_nil_r|done|by constructor|done|].
    by repeat constructor.
  - rewrite (proj2 (Z.eqb_neq _ _)) by lia.
    set (f1 := {| if_unit := if_unit f; retriesLeft := _ |}). set (m1 := set_inFlight m _).
    set (st1 := put_master _ (ctx F) m1). set (R := write_request _ _ _ _ _).
    destruct (IH fuel R st1 (moved F) rest key VInvalid m1 f1) as (st2 & eff & rs & -> & Hq2 & Hl & Hrs & Hms & He).
    + exact Hpf.
    + done.
    + exact Hmax.
    + unfold moved. by rewrite Hcb.
    + rewrite moved_ctx. subst st1. cbn [put_master masters]. by rewrite lookup_insert_eq.
    + subst m1. cbn [set_inFlight inFlight]. by rewrite lookup_insert_eq.
    + subst f1. simpl. lia.
    + lia.
    + cbn [res_bind]. eexists _, _, (rs ++ [R]). split_and!; [done|..].
      * cbn [put_dev dev set_queue q_writes queue]. rewrite Hq2. f_equal.
        rewrite app_assoc, <- (drop_app_le _ [R]) by (rewrite length_app; lia).
        transitivity (drop 1 (drop n ((rest ++ rs) ++ [R]))); [by destruct (drop n _)|].
        by rewrite drop_drop, Nat.add_1_r.
      * rewrite length_app. simpl. lia.
      * apply Forall_app. split; [|by apply Forall_cons]. eapply Forall_impl; [exact Hrs|]. by rewrite moved_ctx.
      * intros j Hj. rewrite moved_ctx in Hms. cbn [put_dev masters]. rewrite (Hms j Hj). subst st1. cbn [put_master masters put_dev].
        by apply lookup_insert_ne.
      * rewrite moved_ctx in He. by repeat (apply Forall_cons; split; [done|]).
Qed.
Definition write_of (i : nat) (key : string) (v : Z) : Request :=
  {| ctx := i; rq_slave := 1; cb := CbWrite key VInvalid;
     rq_unit := {| registerType := HoldingRegisters; startAddress := v; valueCount := 1; values := [v] |} |}.
Definition full_sys : Sys := {|
  dev := set_queue op_write [write_of 0 "a" 3; write_of 1 "b" 4; write_of 1 "c" 5]
    (idle_device {| dev_name := ""; frame_gap := 25; max_write_queue := 3; max_read_queue := 50;
       reconnect_timeout_ms := 1000; on_read_overflow := pop_first; on_write_overflow := pop_first |});
  masters := <[0%nat := set_inFlight one_master {["a" := {| if_unit := rq_unit (write_of 0 "a" 3); retriesLeft := 2 |}]}]>
    {[1%nat := one_master]} |}.
Lemma write_overflow_drops_innocent_witness :
  exists st' eff retries,
    Execute 3 op_write (write_of 0 "d" 6) full_sys = Ok (st', eff) /\
    q_writes (dev st') = retries ++ [write_of 0 "d" 6] /\ Forall (fun r => ctx r = 0%nat) retries.
Proof.
  destruct (write_overflow_drops_innocent 2 3 (write_of 0 "d" 6) full_sys (write_of 0 "a" 3)
    [write_of 1 "b" 4; write_of 1 "c" 5] "a" VInvalid
    (set_inFlight one_master {["a" := {| if_unit := rq_unit (write_of 0 "a" 3); retriesLeft := 2 |}]})
    {| if_unit := rq_unit (write_of 0 "a" 3); retriesLeft := 2 |}) as (st' & eff & rs & H1 & H2 & _ & H4 & _);
    [reflexivity|reflexivity|vm_compute; reflexivity|reflexivity|reflexivity|reflexivity|reflexivity|lia|].
  exists st', eff, rs. split_and!; [exact H1|exact H2|]. eapply Forall_impl; [exact H4|]. by intros ? [? _].
Defined.

(** ** Two further gaps *)

(** A second write of the same register shares the first one's record: once the
    first succeeds the second, if it fails, is not retried. *)
Theorem second_write_loses_record (QO : QVariantOps) fuel garbage st r1 r2 key v1 v2 u m :
  cb r1 = CbWrite key v1 -> cb r2 = CbWrite key v2 -> ctx r2 = ctx r1 -> masters st !! ctx r1 = Some m ->
  exists st' eff, ok_cb garbage r1 u st = Ok (st', eff) /\
    fail_cb (Execute fuel op_write) r2 "timeout" st'
    = Ok (st', [warn_line (ctx r1) "error writing: timeout"; MasterEmit (ctx r1) (LogLine info "retrying");
                error_line (ctx r1) "inflight record lost"]).
Proof.
  intros H1 H2 Hc Hm. unfold ok_cb. rewrite Hm, H1. eexists _, _. split; [done|].
  unfold fail_cb, retry. cbn [put_master masters]. rewrite Hc, lookup_insert_eq, H2.
  cbn [set_inFlight inFlight]. by rewrite lookup_delete_eq.
Qed.

(** An overflow calls the callback of a request whose master was destroyed; only
    a finished reply checks for that. *)
Theorem overflow_calls_destroyed_owner fuel op req st r rest :
  on_overflow op (dconfig (dev st)) = pop_first -> queue op (dev st) = r :: rest ->
  wraps 32 (queue_max op (dconfig (dev st))) <= Z.of_nat (length (r :: rest)) -> masters st !! ctx r = None ->
  Execute (S fuel) op req st = Raise owner_gone.
Proof.
  intros Hp Hq Hm Hn. cbn [Execute]. rewrite Hq, Hp, (proj2 (Z.leb_le _ _)) by done.
  unfold fail_cb. cbn [put_dev masters]. by rewrite Hn.
Qed.
