(* ===== verification/ModbusSlave.v ===== *)
(** * Modbus: the slave device and the slave worker

    Models [SlaveDevice] of src/src/workers/modbus/modbus_device.cpp and [Slave] of
    modbus_slave.cpp.  The register image is kept by Qt's [QModbusServer]: the
    interface [ServerStore] states what the worker uses of it. *)
From stdpp Require Import sorting.
From S2P Require Import Prelude QVariant Utils Worker ModbusUnits.

(** ** The server's register image *)
Class ServerStore (S : Type) := {
  data : S -> MbType -> Z -> option Z;          (* data(type, address, &out) *)
  setData : S -> DataUnit -> option S           (* setData(unit): false is None *)
}.
Class ServerLaws (S : Type) (I : ServerStore S) : Prop := {
  setData_written : forall s u s', setData s u = Some s' ->
    forall i w, values u !! i = Some w -> data s' (registerType u) (startAddress u + Z.of_nat i) = Some w;
  setData_other : forall s u s' t a, setData s u = Some s' ->
    (t <> registerType u \/ a < startAddress u \/ startAddress u + Z.of_nat (length (values u)) <= a) ->
    data s' t a = data s t a
}.

(** ** [SlaveDevice] *)
Record SlaveDevice := { sd_started : bool; claimer : option nat; sd_reconnect_on : bool }.
Inductive SlaveEffect := Listen | CouldNotStart | Listening | Stopped | StateChanged (b : bool).
Inductive ServerState := ServerUnconnected | ServerConnecting | ServerConnected | ServerClosing.

(** One worker per server; a destroyed claimer no longer counts. *)
Definition Claim (alive : nat -> bool) (by_ : nat) (d : SlaveDevice) : res SlaveDevice :=
  match claimer d with
  | Some c => if alive c then Raise "already claimed"
              else Ok {| sd_started := sd_started d; claimer := Some by_; sd_reconnect_on := sd_reconnect_on d |}
  | None => Ok {| sd_started := sd_started d; claimer := Some by_; sd_reconnect_on := sd_reconnect_on d |}
  end.
Definition doListen (state : ServerState) (connects : bool) (d : SlaveDevice) : SlaveDevice * list SlaveEffect :=
  match state with
  | ServerConnected => (d, [])
  | _ =>
      if connects then (d, [Listen])
      else ({| sd_started := sd_started d; claimer := claimer d; sd_reconnect_on := true |}, [Listen; CouldNotStart])
  end.
Definition SlaveStart (state : ServerState) (connects : bool) (d : SlaveDevice) : SlaveDevice * list SlaveEffect :=
  if sd_started d then (d, [])
  else doListen state connects {| sd_started := true; claimer := claimer d; sd_reconnect_on := sd_reconnect_on d |}.
Definition slaveStateChanged (state : ServerState) (d : SlaveDevice) : SlaveDevice * list SlaveEffect :=
  match state with
  | ServerConnected => (d, [Listening; StateChanged true])
  | ServerUnconnected =>
      ({| sd_started := sd_started d; claimer := claimer d; sd_reconnect_on := true |}, [Stopped; StateChanged false])
  | _ => (d, [])
  end.

(** ** [Slave] *)
Section slave.
Context {QO : QVariantOps} {S : Type} {I : ServerStore S}.

Record Slave := {
  all : PreparedWrites;
  sortedHolding : list PreparedRegister; sortedCoils : list PreparedRegister;
  sortedDI : list PreparedRegister; sortedInput : list PreparedRegister;
  scurrent : list (string * QVar);
  applying : bool
}.
Definition set_scurrent (s : Slave) (c : list (string * QVar)) : Slave :=
  {| all := all s; sortedHolding := sortedHolding s; sortedCoils := sortedCoils s; sortedDI := sortedDI s;
     sortedInput := sortedInput s; scurrent := c; applying := applying s |}.

(** The address range given to the server for one register type. *)
Definition addRange (rs : list PreparedRegister) (t : MbType) : list DataUnit :=
  match head rs, last rs with
  | Some first, Some last =>
      let lo := pindex first in
      let hi := pindex last + words_of last in
      [{| registerType := t; startAddress := lo; valueCount := wrapu 16 (hi - lo);
          values := replicate (Z.to_nat (wrapu 16 (hi - lo))) 0 |}]
  | _, _ => []
  end.
Definition Slave_new (regs : RegistersMap) : res (Slave * list DataUnit * list string) :=
  let* registers := validateRegisters regs in
  let* all := prepareWrites registers true in
  let* sh := prepareReadableSorted (map_holding registers) true in
  let* sc := prepareReadableSorted (map_coils registers) true in
  let* sd := prepareReadableSorted (map_di registers) true in
  let* si := prepareReadableSorted (map_input registers) true in
  Ok ({| all := all; sortedHolding := sh; sortedCoils := sc; sortedDI := sd; sortedInput := si;
         scurrent := []; applying := false |},
      addRange sh HoldingRegisters ++ addRange sc Coils ++ addRange sd DiscreteInputs ++ addRange si InputRegisters,
      map pkey sh ++ map pkey sc ++ map pkey sd ++ map pkey si).

Definition sorted_of (s : Slave) (t : MbType) : list PreparedRegister :=
  match t with
  | HoldingRegisters => sortedHolding s
  | Coils => sortedCoils s
  | DiscreteInputs => sortedDI s
  | InputRegisters => sortedInput s
  end.

(** The current value of a register, from the server's image. *)
Definition read_register (srv : S) (type : MbType) (reg : PreparedRegister) : QVar :=
  let d0 := default 0 (data srv type (wrapu 16 (pindex reg))) in
  let d1 := if sizeOf reg =? 4 then default 0 (data srv type (wrapu 16 (pindex reg + 1))) else 0 in
  (decodeRegister reg (d0, d1)).1.
Fixpoint written_loop (srv : S) (type : MbType) (address size : Z) (sorted : list PreparedRegister)
    (current : list (string * QVar)) : FlatMap * list (string * QVar) :=
  match sorted with
  | [] => ([], current)
  | reg :: sorted' =>
      if pindex reg + words_of reg <=? address then written_loop srv type address size sorted' current
      else if address + size <=? pindex reg then ([], current)
      else
        let asVariant := read_register srv type reg in
        let old := qm_get VInvalid (pkey reg) current in
        if negb (qeq old asVariant) then
          let '(diff, current) := written_loop srv type address size sorted' (qm_insert (pkey reg) asVariant current) in
          ((pkey reg, asVariant) :: diff, current)
        else written_loop srv type address size sorted' (qm_insert (pkey reg) old current)
  end.
Definition onDataWritten (srv : S) (type : MbType) (address size : Z) (s : Slave) : Slave * list Emission :=
  if applying s then (s, [])
  else
    let '(diff, current) := written_loop srv type address size (sorted_of s type) (scurrent s) in
    (set_scurrent s current, match diff with [] => [] | _ => [SendMsg (Unflatten VInvalid diff)] end).

(** One entry of [OnMsg]; [applying] is set around [setData], whose change
    notification comes back synchronously. *)
Definition set_unit (w : PreparedWriteRegister) (words : list Z) : DataUnit :=
  {| registerType := mbType w; startAddress := pindex (wreg w);
     valueCount := Z.of_nat (length words); values := words |}.
Definition apply_entry (k : string) (v : QVar) (srv : S) (s : Slave) : S * Slave * list Emission :=
  if negb (isValid v) then (srv, s, [])
  else
    match qm_find k (all s) with
    | None => (srv, s, [])
    | Some w =>
        match encodeRegister (wreg w) v with
        | None => (srv, s, [LogLine warn ("could not encode " +:+ k)])
        | Some words =>
            match setData srv (set_unit w words) with
            | None => (srv, s, [LogLine warn ("could not set " +:+ k)])
            | Some srv' => (srv', set_scurrent s (qm_insert k v (scurrent s)), [])
            end
        end
    end.
Fixpoint apply_entries (flat : FlatMap) (srv : S) (s : Slave) : S * Slave * list Emission :=
  match flat with
  | [] => (srv, s, [])
  | (k, v) :: flat' =>
      let '(srv, s, out) := apply_entry k v srv s in
      let '(srv, s, out') := apply_entries flat' srv s in
      (srv, s, out ++ out')
  end.
Definition OnMsg (msg : QVar) (srv : S) (s : Slave) : S * Slave * list Emission :=
  apply_entries (Flatten [] msg) srv s.
End slave.

(** A concrete image: every address of every type exists. *)
Definition image : Type := MbType -> Z -> Z.
#[export] Instance image_store : ServerStore image := {
  data s t a := Some (s t a);
  setData s u := Some (fun t a =>
    if (bool_decide (t = registerType u) && (startAddress u <=? a) && (a <? startAddress u + Z.of_nat (length (values u))))%bool
    then default 0 (values u !! Z.to_nat (a - startAddress u)) else s t a)
}.
#[export] Instance image_laws : ServerLaws image image_store.
Proof.
  split; simpl.
  - intros s u s' [= <-] i w Hw. rewrite bool_decide_eq_true_2 by done.
    pose proof (lookup_lt_Some _ _ _ Hw). rewrite (proj2 (Z.leb_le _ _)), (proj2 (Z.ltb_lt _ _)) by lia. simpl.
    by rewrite Z.add_simpl_l, Nat2Z.id, Hw.
  - intros s u s' t a [= <-] H. f_equal.
    destruct (bool_decide (t = registerType u)) eqn:E; [|done]. bool_to_prop.
    destruct (Z.leb_spec (startAddress u) a), (Z.ltb_spec a (startAddress u + Z.of_nat (length (values u)))); try done.
    destruct H as [?|[?|?]]; [done|lia|lia].
Qed.

(** ** Lemmas *)
Lemma sorted_last_end l r : StronglySorted before_by_index l -> Forall (fun r => 1 <= words_of r <= 2) l -> r ∈ l ->
  exists f e, head l = Some f /\ last l = Some e /\ pindex f <= pindex r /\
    pindex r + words_of r <= pindex e + words_of e.
Proof.
  intros Hs Hw Hr. destruct l as [|f l]; [by apply elem_of_nil in Hr|].
  assert (exists e, last (f :: l) = Some e) as [e He].
  { destruct (last (f :: l)) eqn:E; [eauto|]. by apply last_None in E. }
  exists f, e. split_and!; [done|done|..].
  - apply StronglySorted_inv in Hs as [_ Hf]. apply elem_of_cons in Hr as [->|Hr]; [done|].
    pose proof (proj1 (Forall_forall _ _) Hf r Hr). unfold before_by_index in *. lia.
  - pose proof He as [pre E]%last_Some. rewrite E in *. apply StronglySorted_app in Hs as (Hlt & _ & _).
    rewrite Forall_forall in Hw. pose proof (Hw r Hr). pose proof (Hw e ltac:(apply elem_of_app; right; left)).
    apply elem_of_app in Hr as [Hr|Hr]; [|apply list_elem_of_singleton in Hr as ->; done].
    pose proof (Hlt r e Hr ltac:(left)). unfold before_by_index in *. lia.
Qed.

(** Registers reported for a write: those whose words meet the written range. *)
Definition touched (address size : Z) (r : PreparedRegister) : bool :=
  ((address <? pindex r + words_of r) && (pindex r <? address + size))%bool.
Lemma touched_sorted address size reg l : StronglySorted before_by_index (reg :: l) ->
  address + size <= pindex reg -> List.filter (touched address size) l = [].
Proof.
  intros [_ Hf]%StronglySorted_inv Hr. induction Hf as [|x l Hx _ IH]; [done|]. simpl.
  unfold touched at 1. unfold before_by_index in Hx. by rewrite (proj2 (Z.ltb_ge (pindex x) _)), andb_false_r by lia.
Qed.

(** * Properties *)

(** A slave's register image covers its registers: when the constructor
    succeeds, the range given to the server for each type contains every word of
    every register of that type (spans below 2^16). *)
Theorem slave_ranges_cover regs s ranges fields type r :
  Slave_new regs = Ok (s, ranges, fields) -> r ∈ sorted_of s type ->
  (forall f e, head (sorted_of s type) = Some f -> last (sorted_of s type) = Some e -> pindex e + words_of e - pindex f < 2 ^ 16) ->
  exists u, u ∈ ranges /\ registerType u = type /\ Z.of_nat (length (values u)) = valueCount u /\
    startAddress u <= pindex r /\ pindex r + words_of r <= startAddress u + valueCount u.
Proof.
  unfold Slave_new. intros H Hr Hspan.
  destruct (validateRegisters regs) as [v|]; [|done]. cbn [res_bind] in H.
  destruct (prepareWrites v true) as [w|]; [|done]. cbn [res_bind] in H.
  destruct (prepareReadableSorted (map_holding v) true) as [sh|] eqn:E1; [|done]. cbn [res_bind] in H.
  destruct (prepareReadableSorted (map_coils v) true) as [sc|] eqn:E2; [|done]. cbn [res_bind] in H.
  destruct (prepareReadableSorted (map_di v) true) as [sd|] eqn:E3; [|done]. cbn [res_bind] in H.
  destruct (prepareReadableSorted (map_input v) true) as [si|] eqn:E4; [|done]. cbn [res_bind] in H.
  injection H as <- <- <-.
  assert (forall m sorted, prepareReadableSorted m true = Ok sorted -> r ∈ sorted ->
    (forall f e, head sorted = Some f -> last sorted = Some e -> pindex e + words_of e - pindex f < 2 ^ 16) ->
    exists u, u ∈ addRange sorted type /\ registerType u = type /\ Z.of_nat (length (values u)) = valueCount u /\
      startAddress u <= pindex r /\ pindex r + words_of r <= startAddress u + valueCount u) as Hone.
  { intros m sorted E Hin Hsp. destruct (prepare_loop_spec true m [] sorted ltac:(constructor) E) as [Hs _].
    pose proof (prepared_widths _ _ _ E) as Hw.
    destruct (sorted_last_end _ _ Hs Hw Hin) as (f & e & Hf & He & H1 & H2). specialize (Hsp f e Hf He).
    pose proof (proj1 (Forall_forall _ _) Hw r Hin). unfold addRange. rewrite Hf, He.
    eexists. split; [by left|]. cbn [registerType startAddress valueCount values].
    simpl in H. rewrite wrapu_small by lia. rewrite length_replicate. split_and!; try done; lia. }
  assert (forall t sorted, sorted = sorted_of {| all := w; sortedHolding := sh; sortedCoils := sc; sortedDI := sd;
      sortedInput := si; scurrent := []; applying := false |} t -> forall u, u ∈ addRange sorted t ->
      u ∈ addRange sh HoldingRegisters ++ addRange sc Coils ++ addRange sd DiscreteInputs ++ addRange si InputRegisters) as Hin.
  { intros t sorted -> u. rewrite !elem_of_app. destruct t; simpl; tauto. }
  assert (exists m, prepareReadableSorted m true = Ok (sorted_of {| all := w; sortedHolding := sh; sortedCoils := sc;
      sortedDI := sd; sortedInput := si; scurrent := []; applying := false |} type)) as [m Hm].
  { destruct type; eexists; simpl; eassumption. }
  destruct (Hone _ _ Hm Hr Hspan) as (u & Hu & ?). exists u. split; [|done]. by eapply Hin.
Qed.
Lemma slave_ranges_cover_witness :
  let regs := {| map_di := []; map_input := []; map_coils := [];
     map_holding := [("a", Register_default 3); ("b", {| index := 4; packing := default_packing; type := float32;
        mode := mode_read; validator := None |})] |} in
  exists s ranges fields, Slave_new regs = Ok (s, ranges, fields) /\
    exists u, u ∈ ranges /\ startAddress u <= 4 /\ 6 <= startAddress u + valueCount u.
Proof.
  intros regs. destruct (Slave_new regs) as [[[s ranges] fields]|] eqn:E; [|vm_compute in E; discriminate].
  exists s, ranges, fields. split; [reflexivity|].
  pose proof (slave_ranges_cover regs s ranges fields HoldingRegisters
    (prepare_meta "b" {| index := 4; packing := default_packing; type := float32; mode := mode_read; validator := None |}) E) as H.
  vm_compute in E. injection E as <- <- <-.
  destruct H as (u & ? & _ & _ & H1 & H2).
  - simpl. right. left.
  - intros f e [= <-] [= <-]. vm_compute. reflexivity.
  - exists u. split_and!; [done|exact H1|exact H2].
Defined.

(** A slave publishes what it is told: when a value is accepted for a register
    whose packing round-trips and whose words do not run past the address space,
    the server's image decodes to that value in the register's type, no message
    is emitted, and the other addresses are untouched. *)
Theorem slave_publishes (QO : QVariantOps) (L : QVariantLaws QO) (S : Type) (I : ServerStore S) (SL : ServerLaws S I)
    k v srv s w words srv' :
  isValid v = true -> qm_find k (all s) = Some w -> sizeOf (wreg w) = getSizeOf (ptype (wreg w)) ->
  encodeRegister (wreg w) v = Some words -> setData srv (set_unit w words) = Some srv' ->
  roundtrips (wreg w) = true -> 0 <= pindex (wreg w) -> pindex (wreg w) + words_of (wreg w) <= 2 ^ 16 ->
  exists s', apply_entry k v srv s = (srv', s', []) /\ qm_find k (scurrent s') = Some v /\
    Some (read_register srv' (mbType w) (wreg w)) = canonical (ptype (wreg w)) v /\
    (forall t a, t <> mbType w -> data srv' t a = data srv t a).
Proof.
  intros Hv Hf Hsz He Hset Hrt Hlo Hhi. unfold apply_entry. rewrite Hv, Hf, He, Hset. cbn [negb].
  eexists. split; [done|]. split; [by apply qm_find_insert_eq|]. split.
  2: { intros t a Ht. eapply setData_other; [exact Hset|]. by left. }
  set (reg := wreg w) in *.
  assert (forall stale, Some (decodeRegister reg (load words stale)).1 = canonical (ptype reg) v /\
     Z.of_nat (length words) = getSizeOf (ptype reg) / 2) as Hrt'.
  { intros stale. destruct (encode_decode reg v words stale He) as (? & _ & H). auto. }
  destruct (Hrt' 0) as [<- Hlen]. unfold read_register. unfold words_of in Hhi. rewrite Hsz in *.
  assert (forall i x, words !! i = Some x -> data srv' (mbType w) (pindex reg + Z.of_nat i) = Some x) as Hdata.
  { intros i x Hx. by apply (setData_written _ _ _ Hset). }
  f_equal. f_equal. f_equal. change (4 / 2) with 2 in *.
  assert (forall x l, words = x :: l -> default 0 (data srv' (mbType w) (wrapu 16 (pindex reg))) = x) as H0.
  { intros x l ->. pose proof (Hdata 0%nat x eq_refl) as H0. rewrite Z.add_0_r in H0.
    assert (1 <= getSizeOf (ptype reg) / 2) by (by destruct (ptype reg)). by rewrite wrapu_small, H0 by lia. }
  assert (forall x y l, words = x :: y :: l -> getSizeOf (ptype reg) = 4 ->
    default 0 (data srv' (mbType w) (wrapu 16 (pindex reg + 1))) = y) as H1.
  { intros x y l -> H4. rewrite H4 in Hhi. change (4 / 2) with 2 in Hhi.
    pose proof (Hdata 1%nat y eq_refl) as H1. change (Z.of_nat 1) with 1 in H1. by rewrite wrapu_small, H1 by lia. }
  destruct words as [|a [|b [|c l]]]; simpl length in Hlen; destruct (ptype reg); cbn [getSizeOf] in Hlen;
    change (2 / 2) with 1 in Hlen; change (4 / 2) with 2 in Hlen; try lia;
    cbn [getSizeOf Z.eqb Pos.eqb load]; rewrite (H0 _ _ eq_refl); try done; by rewrite (H1 _ _ _ eq_refl eq_refl).
Qed.
Lemma slave_publishes_witness :
  let reg := {| index := 4; packing := default_packing; type := uint32; mode := mode_read_write; validator := None |} in
  let w := prepare_write HoldingRegisters "k" reg in
  let s := {| all := [("k", w)]; sortedHolding := [wreg w]; sortedCoils := []; sortedDI := []; sortedInput := [];
              scurrent := []; applying := false |} in
  exists srv' s', apply_entry (QO := simple_ops) "k" (VUInt 70000) ((fun _ _ => 0) : image) s = (srv', s', []) /\
    read_register srv' HoldingRegisters (wreg w) = VUInt 70000.
Proof.
  intros reg w s.
  destruct (slave_publishes simple_ops simple_laws image image_store image_laws "k" (VUInt 70000)
    (fun _ _ => 0) s w [4464; 1] (default (fun _ _ => 0) (setData ((fun _ _ => 0) : image) (set_unit w [4464; 1]))))
    as (s' & H1 & _ & H2 & _).
  - reflexivity.
  - reflexivity.
  - reflexivity.
  - vm_compute. reflexivity.
  - reflexivity.
  - reflexivity.
  - vm_compute. discriminate.
  - vm_compute. discriminate.
  - eexists _, s'. split; [exact H1|]. exact (f_equal (default VInvalid) H2).
Defined.

(** A client's write is reported exactly: the message contains the registers
    whose words meet the written range and whose value changed, in index order,
    and nothing else; while the slave itself is writing, nothing is reported. *)
Theorem slave_reports_written (QO : QVariantOps) (S : Type) (I : ServerStore S) srv type address size s :
  StronglySorted before_by_index (sorted_of s type) -> NoDup (map pkey (sorted_of s type)) ->
  (onDataWritten srv type address size s).2 =
    if applying s then [] else
    match List.filter (fun r => (touched address size r &&
            negb (qeq (qm_get VInvalid (pkey r) (scurrent s)) (read_register srv type r)))%bool) (sorted_of s type) with
    | [] => []
    | rs => [SendMsg (Unflatten VInvalid (map (fun r => (pkey r, read_register srv type r)) rs))]
    end.
Proof.
  intros Hs Hnd. unfold onDataWritten. destruct (applying s); [done|].
  assert (forall sorted current diff current', StronglySorted before_by_index sorted -> NoDup (map pkey sorted) ->
    written_loop srv type address size sorted current = (diff, current') ->
    diff = map (fun r => (pkey r, read_register srv type r)) (List.filter (fun r => (touched address size r &&
       negb (qeq (qm_get VInvalid (pkey r) current) (read_register srv type r)))%bool) sorted)) as H.
  { clear. induction sorted as [|reg sorted IH]; intros current diff current' Hs Hnd; cbn [written_loop map] in *.
    { by intros [= <- _]. }
    pose proof Hs as [Hs' _]%StronglySorted_inv. apply NoDup_cons in Hnd as [Hni Hnd].
    assert (forall v, List.filter (fun r => (touched address size r &&
        negb (qeq (qm_get VInvalid (pkey r) (qm_insert (pkey reg) v current)) (read_register srv type r)))%bool) sorted
      = List.filter (fun r => (touched address size r &&
        negb (qeq (qm_get VInvalid (pkey r) current) (read_register srv type r)))%bool) sorted) as Hf.
    { intros v. clear -Hni. induction sorted as [|r l IH]; [done|]. cbn [map] in Hni. apply not_elem_of_cons in Hni as [? ?].
      cbn [List.filter]. unfold qm_get at 1. rewrite qm_find_insert_ne by done. fold (qm_get VInvalid (pkey r) current).
      by rewrite IH. }
    cbn [List.filter]. unfold touched at 1.
    destruct (Z.leb_spec (pindex reg + words_of reg) address).
    { rewrite (proj2 (Z.ltb_ge address _)) by lia. intros E. by apply (IH current diff current'). }
    rewrite (proj2 (Z.ltb_lt address _)) by lia.
    destruct (Z.leb_spec (address + size) (pindex reg)).
    { rewrite (proj2 (Z.ltb_ge (pindex reg) _)) by lia. intros [= <- _].
      pose proof (touched_sorted address size reg sorted Hs ltac:(lia)) as Ht. clear -Ht.
      induction sorted as [|r l IH]; [done|]. simpl in Ht |- *. destruct (touched address size r); [done|]. by apply IH. }
    rewrite (proj2 (Z.ltb_lt (pindex reg) _)) by lia. cbn [andb].
    destruct (negb (qeq _ _)) eqn:Eq.
    - destruct (written_loop _ _ _ _ sorted _) as [d c] eqn:E. intros [= <- <-]. simpl. f_equal.
      rewrite <- (Hf (read_register srv type reg)). by eapply IH.
    - intros E. rewrite <- (Hf (qm_get VInvalid (pkey reg) current)). by eapply IH. }
  destruct (written_loop _ _ _ _ _ _) as [diff current'] eqn:E. rewrite (H _ _ _ _ Hs Hnd E). simpl.
  by destruct (List.filter _ _).
Qed.
Lemma slave_reports_written_witness :
  let reg i := prepare_meta (to_string i) (with_defaults (Register_default i)) in
  let s := {| all := []; sortedHolding := [reg 3; reg 4; reg 9]; sortedCoils := []; sortedDI := []; sortedInput := [];
              scurrent := []; applying := false |} in
  (onDataWritten (QO := simple_ops) ((fun _ a => a) : image) HoldingRegisters 4 3 s).2 = [SendMsg (VMap [("4", VInt 4)])].
Proof.
  intros reg s. rewrite (slave_reports_written simple_ops image image_store (fun _ a => a) HoldingRegisters 4 3 s).
  - vm_compute. reflexivity.
  - repeat constructor.
  - refine (bool_decide_eq_true_1 _ _). vm_compute. reflexivity.
Defined.
