(* ===== verification/Tags.v ===== *)
(** * The tag registry

    Models src/src/tags.cpp and tags.hpp: the last value, time stamp, quality and
    source of every field a worker has reported, kept under ["worker:field"], and
    the notifications sent when one changes.  Workers are identified by a number
    and their name; [alive] is what a [QPointer] to one tests.  The wall clock is
    an argument. *)
From S2P Require Import Prelude QVariant Utils Worker.

Inductive Quality := Good | CommFail.
#[export] Instance Quality_eq : EqDecision Quality. Proof. solve_decision. Defined.
Definition qualityStr (q : Quality) : string := match q with Good => "good" | CommFail => "comm_fail" end.

Record Tag := {
  value : QVar; ts : Z; quality : Quality; source : option nat; field : string; subscribers : list nat
}.
Definition Tag_default : Tag :=
  {| value := VInvalid; ts := 0; quality := CommFail; source := None; field := ""; subscribers := [] |}.
Record TagRegistry := { tags : list (string * Tag); perTag : list (string * nat) }.
Definition registry_empty : TagRegistry := {| tags := []; perTag := [] |}.

Inductive TagEffect :=
| CallSubscriber (fn : nat) (ev : QVar)
| CallChanged (ev : QVar)                       (* tags.changed *)
| CallPerTag (listeners : nat) (ev : QVar)      (* tags.changed["name"] *)
| TagChanged (name : string) (v : QVar) (quality : string).

Definition set_tags (r : TagRegistry) (t : list (string * Tag)) : TagRegistry := {| tags := t; perTag := perTag r |}.
Definition tag_name (wname field : string) : string := (wname +:+ ":") +:+ field.
Fixpoint startsWith (s prefix : string) {struct prefix} : bool :=
  match prefix, s with
  | EmptyString, _ => true
  | String c p, String d s' => (bool_decide (c = d) && startsWith s' p)%bool
  | _, EmptyString => false
  end.
(** [mid] from a position to the end. *)
Fixpoint str_drop (n : nat) (s : string) : string :=
  match n, s with O, _ => s | S n, String _ s' => str_drop n s' | _, EmptyString => EmptyString end.

Section registry.
Context {QO : QVariantOps} (alive : nat -> bool).

Definition has_source (t : Tag) : bool := match source t with Some w => alive w | None => false end.
Definition with_source (t : Tag) (w : nat) (f : string) : Tag :=
  {| value := value t; ts := ts t; quality := quality t; source := Some w; field := f; subscribers := subscribers t |}.
Definition with_quality (t : Tag) (q : Quality) : Tag :=
  {| value := value t; ts := ts t; quality := q; source := source t; field := field t; subscribers := subscribers t |}.

Definition onWorkerCreated (w : nat) (wname : string) (r : TagRegistry) : TagRegistry :=
  set_tags r (map (fun kt =>
    if startsWith kt.1 (wname +:+ ":") then
      (kt.1, if has_source kt.2 then kt.2
             else with_source kt.2 w (str_drop (String.length wname + 1) kt.1))
    else kt) (tags r)).

Definition Advertise (w : nat) (wname : string) (fields : list string) (r : TagRegistry) : TagRegistry :=
  fold_left (fun r field =>
    let name := tag_name wname field in
    let tag := qm_get Tag_default name (tags r) in
    set_tags r (qm_insert name (with_quality (with_source tag w field) CommFail) (tags r))) fields r.

Definition Subscribe (name : string) (fn : nat) (r : TagRegistry) : TagRegistry :=
  let t := qm_get Tag_default name (tags r) in
  set_tags r (qm_insert name {| value := value t; ts := ts t; quality := quality t; source := source t;
                                field := field t; subscribers := subscribers t ++ [fn] |} (tags r)).
Definition GetTag (name : string) (r : TagRegistry) : option Tag := qm_find name (tags r).
Definition TagNames (r : TagRegistry) : list string := qm_keys (tags r).
(** Get or create; the second component is the registry afterwards. *)
Definition PerTagListeners (name : string) (fresh : nat) (r : TagRegistry) : nat * TagRegistry :=
  match qm_find name (perTag r) with
  | Some l => (l, r)
  | None => (fresh, {| tags := tags r; perTag := qm_insert name fresh (perTag r) |})
  end.

Definition tag_event (name : string) (t : Tag) : QVar :=
  VMap (qm_insert "ts" (VLongLong (ts t)) (qm_insert "quality" (VString (qualityStr (quality t)))
    (qm_insert "value" (value t) (qm_insert "name" (VString name) [])))).
Definition notifyTag (name : string) (t : Tag) (r : TagRegistry) : list TagEffect :=
  let ev := tag_event name t in
  map (fun fn => CallSubscriber fn ev) (subscribers t) ++
  CallChanged ev ::
  match qm_find name (perTag r) with Some l => [CallPerTag l ev] | None => [] end ++
  [TagChanged name (value t) (qualityStr (quality t))].

Definition updateTag (now : Z) (name : string) (v : QVar) (w : nat) (wname : string) (r : TagRegistry)
    : TagRegistry * list TagEffect :=
  let t := qm_get Tag_default name (tags r) in
  let t := if has_source t then t else with_source t w (str_drop (String.length wname + 1) name) in
  let t := {| value := v; ts := now; quality := Good; source := source t; field := field t; subscribers := subscribers t |} in
  let r := set_tags r (qm_insert name t (tags r)) in
  (r, notifyTag name t r).

Fixpoint setQuality_loop (wname : string) (q : Quality) (r : TagRegistry) (l : list (string * Tag))
    : list (string * Tag) * list TagEffect :=
  match l with
  | [] => ([], [])
  | (k, t) :: l' =>
      let '(rest, eff) := setQuality_loop wname q r l' in
      if negb (startsWith k (wname +:+ ":")) then ((k, t) :: rest, eff)
      else if bool_decide (quality t = q) then ((k, t) :: rest, eff)
      else let t := with_quality t q in ((k, t) :: rest, notifyTag k t r ++ eff)
  end.
Definition setWorkerQuality (wname : string) (q : Quality) (r : TagRegistry) : TagRegistry * list TagEffect :=
  let '(t, eff) := setQuality_loop wname q r (tags r) in (set_tags r t, eff).

(** What an event says about the connection. *)
Definition event_quality (m : list (string * QVar)) : option Quality :=
  let s := match qm_find "state" m with Some v => Some (toStr v) | None => None end in
  let disconnected := bool_decide (s = Some "UnconnectedState" \/ s = Some "disconnected") in
  let connected := bool_decide (s = Some "ConnectedState" \/ s = Some "connected") in
  let has k := match qm_find k m with Some _ => true | None => false end in
  let disconnected := (has "disconnected" || disconnected)%bool in
  let connected := (has "connected" || connected)%bool in
  if disconnected then Some CommFail else if connected then Some Good else None.
Definition onWorkerEvent (wname : string) (msg : QVar) (r : TagRegistry) : TagRegistry * list TagEffect :=
  match msg with
  | VMap m => match event_quality m with Some q => setWorkerQuality wname q r | None => (r, []) end
  | _ => (r, [])
  end.

Fixpoint onWorkerMsg_loop (now : Z) (w : nat) (wname : string) (flat : FlatMap) (r : TagRegistry)
    : TagRegistry * list TagEffect :=
  match flat with
  | [] => (r, [])
  | (k, v) :: flat' =>
      if negb (isValid v) then onWorkerMsg_loop now w wname flat' r
      else
        let '(r, eff) := updateTag now (tag_name wname k) v w wname r in
        let '(r, eff') := onWorkerMsg_loop now w wname flat' r in
        (r, eff ++ eff')
  end.
Definition onWorkerMsg (now : Z) (w : nat) (wname : string) (msg : QVar) (r : TagRegistry)
    : TagRegistry * list TagEffect := onWorkerMsg_loop now w wname (Flatten [] msg) r.

(** [tags:get] and [tags:source] from Lua; [None] is nil. *)
Definition tags_get (name : string) (r : TagRegistry) : option (QVar * string * Z) :=
  match GetTag name r with
  | Some t => if isValid (value t) then Some (value t, qualityStr (quality t), ts t) else None
  | None => None
  end.
Definition tags_source (selfRef : nat -> option Z) (name : string) (r : TagRegistry) : option Z :=
  match GetTag name r with
  | Some t => match source t with
              | Some w => if alive w then selfRef w else None
              | None => None
              end
  | None => None
  end.
End registry.

(** ** Lemmas *)
Lemma startsWith_app s p : startsWith s p = true <-> exists r, s = p +:+ r.
Proof.
  revert s. induction p as [|c p IH]; intros s; simpl; [split; [by exists s|done]|].
  destruct s as [|d s]; [split; [done|intros [r Hr]; rewrite str_app_cons in Hr; done]|].
  rewrite andb_true_iff, bool_decide_eq_true, IH. split.
  - intros [-> [r ->]]. by exists r.
  - intros [r [= -> ->]]. split; [done|by exists r].
Qed.
Lemma colon_split a b x y : str_mem colon a = false -> str_mem colon b = false ->
  (a +:+ ":") +:+ x = (b +:+ ":") +:+ y -> a = b /\ x = y.
Proof.
  revert b. induction a as [|c a IH]; intros [|d b]; simpl str_mem; rewrite ?orb_false_iff.
  - intros _ _ [= ?]. done.
  - intros _ [Hd _] E. rewrite !str_app_cons in E. injection E as <- _. by rewrite bool_decide_eq_true_2 in Hd.
  - intros [Hc _] _ E. rewrite !str_app_cons in E. injection E as -> _. by rewrite bool_decide_eq_true_2 in Hc.
  - intros [_ Ha] [_ Hb] E. rewrite !str_app_cons in E. injection E as -> E. by destruct (IH b Ha Hb E) as [-> ->].
Qed.
Lemma other_worker wname wname' field : str_mem colon wname = false -> str_mem colon wname' = false ->
  wname <> wname' -> startsWith (tag_name wname' field) (wname +:+ ":") = false.
Proof.
  intros H1 H2 Hne. destruct (startsWith _ _) eqn:E; [|done]. apply startsWith_app in E as [r E].
  unfold tag_name in E. by destruct (colon_split wname' wname field r H2 H1 E) as [-> _].
Qed.
(** A worker's name never contains the separator. *)
Lemma valid_name_no_colon isL n : isL colon = false -> isValidWorkerName isL n = true -> str_mem colon n = false.
Proof.
  intros Hc. unfold isValidWorkerName. destruct (isEmpty n); [done|].
  induction n as [|c n IH]; [done|]. cbn [all_name_chars str_mem].
  destruct (decide (c = colon)) as [->|Hne]; [by rewrite Hc|]. rewrite (bool_decide_eq_false_2 (c = colon)) by done.
  destruct (_ && _ && _)%bool; [done|]. intros H. by rewrite IH.
Qed.

Definition requalify (wname : string) (q : Quality) (k : string) (t : Tag) : Tag :=
  if (startsWith k (wname +:+ ":") && negb (bool_decide (quality t = q)))%bool then with_quality t q else t.
Section facts.
Context {QO : QVariantOps} (alive : nat -> bool).

Lemma setQuality_spec wname q r l :
  (setQuality_loop wname q r l).1 = map (fun kt => (kt.1, requalify wname q kt.1 kt.2)) l /\
  (setQuality_loop wname q r l).2 = flat_map (fun kt => notifyTag kt.1 (with_quality kt.2 q) r)
    (List.filter (fun kt => startsWith kt.1 (wname +:+ ":") && negb (bool_decide (quality kt.2 = q)))%bool l).
Proof.
  induction l as [|[k t] l [IH1 IH2]]; [done|]. cbn [setQuality_loop map List.filter fst snd].
  destruct (setQuality_loop wname q r l) as [rest eff]. simpl in *. subst rest eff.
  unfold requalify. simpl. destruct (startsWith k _); simpl; [|done]. by case_bool_decide.
Qed.
Lemma find_map_tag (f : string -> Tag -> Tag) (l : list (string * Tag)) name :
  qm_find name (map (fun kt => (kt.1, f kt.1 kt.2)) l) = f name <$> qm_find name l.
Proof. induction l as [|[k t] l IH]; simpl; [done|]. case_bool_decide; [by subst|done]. Qed.

Lemma msg_loop_other now w wname flat : forall r name,
  startsWith name (wname +:+ ":") = false ->
  qm_find name (tags (onWorkerMsg_loop alive now w wname flat r).1) = qm_find name (tags r) /\
  perTag (onWorkerMsg_loop alive now w wname flat r).1 = perTag r.
Proof.
  induction flat as [|[k v] flat IH]; intros r name Hn; cbn [onWorkerMsg_loop]; [done|].
  destruct (negb (isValid v)); [by apply IH|].
  destruct (updateTag _ _ _ _ _ _ _) as [r1 eff] eqn:E. specialize (IH r1 name Hn).
  destruct (onWorkerMsg_loop alive now w wname flat r1) as [r2 eff']. simpl in *. destruct IH as [-> ->].
  unfold updateTag in E. injection E as <- _. simpl. split; [|done]. apply qm_find_insert_ne. intros <-.
  assert (startsWith (tag_name wname k) (wname +:+ ":") = true) as Ht by (apply startsWith_app; by exists k).
  congruence.
Qed.
Definition last_value (k : string) (flat : FlatMap) : option QVar :=
  snd <$> last (List.filter (fun kv => bool_decide (kv.1 = k) && isValid kv.2)%bool flat).
Lemma tag_name_inj wname a b : tag_name wname a = tag_name wname b -> a = b.
Proof. apply str_app_inj_l. Qed.
Lemma msg_loop_own now w wname flat : forall r k,
  match last_value k flat with
  | Some v => exists t, qm_find (tag_name wname k) (tags (onWorkerMsg_loop alive now w wname flat r).1) = Some t /\
      value t = v /\ quality t = Good /\ ts t = now
  | None => qm_find (tag_name wname k) (tags (onWorkerMsg_loop alive now w wname flat r).1) = qm_find (tag_name wname k) (tags r)
  end.
Proof.
  induction flat as [|[k' v] flat IH]; intros r k; cbn [onWorkerMsg_loop]; [done|].
  unfold last_value. cbn [List.filter fst snd].
  destruct (isValid v) eqn:Ev; cbn [negb].
  2: { rewrite andb_false_r. apply IH. }
  rewrite andb_true_r. destruct (updateTag _ _ _ _ _ _ _) as [r1 eff] eqn:E. specialize (IH r1 k).
  destruct (onWorkerMsg_loop alive now w wname flat r1) as [r2 eff']. simpl in *.
  unfold updateTag in E. injection E as <- _. simpl in IH.
  fold (last_value k flat) in *. case_bool_decide as Ek.
  - subst k'. unfold last_value in IH. set (l := List.filter _ flat) in *.
    assert (last ((k, v) :: l) = match last l with Some x => Some x | None => Some (k, v) end) as ->
      by (destruct l; [done|]; by destruct (last (_ :: l)) eqn:El; [|apply last_None in El]).
    destruct (last l) as [x|]; simpl in *; [exact IH|].
    rewrite qm_find_insert_eq in IH. eexists. by split.
  - fold (last_value k flat). destruct (last_value k flat); [done|]. rewrite IH.
    apply qm_find_insert_ne. intros E%tag_name_inj. done.
Qed.
Lemma msg_loop_effects now w wname flat : forall r,
  omap (fun e => match e with TagChanged n v q => Some (n, v, q) | _ => None end) (onWorkerMsg_loop alive now w wname flat r).2
  = map (fun kv => (tag_name wname kv.1, kv.2, qualityStr Good)) (List.filter (fun kv => isValid kv.2) flat).
Proof.
  induction flat as [|[k v] flat IH]; intros r; cbn [onWorkerMsg_loop]; [done|]. cbn [List.filter snd].
  destruct (isValid v); cbn [negb]; [|apply IH].
  destruct (updateTag _ _ _ _ _ _ _) as [r1 eff] eqn:E. specialize (IH r1).
  destruct (onWorkerMsg_loop alive now w wname flat r1) as [r2 eff']. simpl in *. rewrite omap_app, IH.
  unfold updateTag in E. injection E as _ <-. set (t := {| value := v; ts := now; quality := Good; source := _; field := _; subscribers := _ |}).
  assert (forall name r, omap (fun e => match e with TagChanged n v q => Some (n, v, q) | _ => None end) (notifyTag name t r)
    = [(name, v, qualityStr Good)]) as ->; [|done].
  intros name r'. unfold notifyTag. rewrite omap_app. csimpl. rewrite omap_app. csimpl.
  replace (omap _ (map _ _)) with (@nil (string * QVar * string)).
  - by destruct (qm_find name (perTag r')).
  - match goal with |- context [map _ ?l] => generalize l end. intros l. induction l as [|fn l IHl]; [done|]. csimpl. exact IHl.
Qed.
End facts.

(** * Properties *)

(** A worker's message updates exactly its own tags: every field of the message
    ends up with the last valid value given for it, good quality and the current
    time, fields not mentioned keep their tag, every valid entry is announced
    once and in order, and no tag of another worker (names contain no colon)
    changes. *)
Theorem tags_follow_messages (QO : QVariantOps) alive now w wname msg r :
  let flat := Flatten [] msg in
  let '(r', effects) := onWorkerMsg alive now w wname msg r in
  (forall k, match last_value k flat with
             | Some v => exists t, GetTag (tag_name wname k) r' = Some t /\ value t = v /\ quality t = Good /\ ts t = now
             | None => GetTag (tag_name wname k) r' = GetTag (tag_name wname k) r
             end) /\
  omap (fun e => match e with TagChanged n v q => Some (n, v, q) | _ => None end) effects
    = map (fun kv => (tag_name wname kv.1, kv.2, "good")) (List.filter (fun kv => isValid kv.2) flat) /\
  (forall wname' k, str_mem colon wname = false -> str_mem colon wname' = false -> wname <> wname' ->
     GetTag (tag_name wname' k) r' = GetTag (tag_name wname' k) r).
Proof.
  intros flat. destruct (onWorkerMsg alive now w wname msg r) as [r' eff] eqn:E. unfold onWorkerMsg in E. fold flat in E.
  assert (r' = (onWorkerMsg_loop alive now w wname flat r).1) as -> by (by rewrite E).
  assert (eff = (onWorkerMsg_loop alive now w wname flat r).2) as -> by (by rewrite E). clear E. split_and!.
  - intros k. apply msg_loop_own.
  - apply msg_loop_effects.
  - intros wname' k H1 H2 Hne. apply msg_loop_other. by apply other_worker.
Qed.

(** Connection events drive quality: an event that reports a disconnection
    marks every tag of the worker as failed, one that only reports a connection
    marks them good, any other event changes nothing; values and time stamps are
    kept, exactly the tags whose quality changed are announced, the tags of other
    workers keep their quality, and repeating the event announces nothing. *)
Theorem tags_follow_connection (QO : QVariantOps) wname m r :
  let '(r', effects) := onWorkerEvent wname (VMap m) r in
  match event_quality m with
  | None => r' = r /\ effects = []
  | Some q =>
      (forall name, GetTag name r' =
         (fun t => if startsWith name (wname +:+ ":") then with_quality t q else t) <$> GetTag name r) /\
      (forall wname' k, str_mem colon wname = false -> str_mem colon wname' = false -> wname <> wname' ->
         GetTag (tag_name wname' k) r' = GetTag (tag_name wname' k) r) /\
      effects = flat_map (fun kt => notifyTag kt.1 (with_quality kt.2 q) r)
        (List.filter (fun kt => startsWith kt.1 (wname +:+ ":") && negb (bool_decide (quality kt.2 = q)))%bool (tags r)) /\
      (onWorkerEvent wname (VMap m) r').2 = []
  end.
Proof.
  unfold onWorkerEvent. destruct (event_quality m) as [q|]; [|done].
  unfold setWorkerQuality. destruct (setQuality_loop wname q r (tags r)) as [l eff] eqn:E.
  destruct (setQuality_spec wname q r (tags r)) as [H1 H2]. rewrite E in H1, H2. simpl in H1, H2.
  assert (forall name, qm_find name l = (fun t => if startsWith name (wname +:+ ":") then with_quality t q else t) <$> qm_find name (tags r)) as Hfind.
  { intros name. rewrite H1.
    rewrite (find_map_tag (requalify wname q)).
    destruct (qm_find name (tags r)) as [t|]; [|done]. simpl. f_equal. unfold requalify.
    destruct (startsWith name _); [|done]. simpl. case_bool_decide as Eq; [|done]. simpl. subst q. by destruct t. }
  split_and!.
  - exact Hfind.
  - intros wname' k Hc Hc' Hne. unfold GetTag. cbn [set_tags tags]. rewrite Hfind, (other_worker _ _ _ Hc Hc' Hne).
    by destruct (qm_find _ _).
  - exact H2.
  - cbn [set_tags tags]. destruct (setQuality_spec wname q (set_tags r l) l) as [_ H3].
    destruct (setQuality_loop wname q (set_tags r l) l) as [l2 eff2]. simpl in *. rewrite H3.
    assert (List.filter (fun kt => startsWith kt.1 (wname +:+ ":") && negb (bool_decide (quality kt.2 = q)))%bool l = []) as ->; [|done].
    rewrite H1. clear. induction (tags r) as [|[k t] l IH]; [done|]. simpl. unfold requalify in *.
    destruct (startsWith k _); simpl; [|done]. destruct (decide (quality t = q)) as [E|E].
    + rewrite (bool_decide_eq_true_2 (quality t = q)) by done. simpl.
      rewrite (bool_decide_eq_true_2 (quality t = q)) by done. exact IH.
    + rewrite (bool_decide_eq_false_2 (quality t = q)) by done. simpl.
      rewrite bool_decide_eq_true_2 by done. exact IH.
Qed.
