(* ===== verification/TagsLua.v ===== *)
(** * Tags and the scripts that listen to them ([src/src/tags.cpp])

    [Tags] gives the effects of a change as a list.  The callbacks among them run at
    once - a closure given to the fiber pool from the event loop or from a fiber starts
    where it is given - so a callback finds the registry in the middle of the
    notification and may subscribe to tags or make a worker send again.  Here the
    callbacks run: [beh] is what the part of a subscriber before its first [await] does,
    [beh_all] the same for the listeners of a list.  Module [Api] is the [tags] table:
    the pipe targets behind [tags.changed]. *)
From S2P Require Import Prelude QVariant Utils Worker Tags.

(** What a callback does to the registry. *)
Inductive Act :=
| ASubscribe (tag : string) (fn : nat)                                   (* tags:subscribe *)
| AListen (tag : string) (fresh : nat)                                   (* tags.changed[tag] *)
| AMsg (now : Z) (w : nat) (wname : string) (msg : QVar)                 (* a worker sends *)
| AEvent (wname : string) (msg : QVar).                                  (* a worker reports an event *)
(** [Fuel]: deeper than the fuel; [Undef]: an iterator is used after it was invalidated. *)
Inductive Out := Fuel | Undef | Done (r : TagRegistry) (effects : list TagEffect).
Definition andThen (o : Out) (k : TagRegistry -> Out) : Out :=
  match o with
  | Done r e => match k r with Done r' e' => Done r' (e ++ e') | o' => o' end
  | o => o
  end.
Definition told (e : list TagEffect) (o : Out) : Out := match o with Done r e' => Done r (e ++ e') | o => o end.
(** An iterator over the map is its key; where it goes from there. *)
Definition first_after {V} (from : option string) (m : list (string * V)) : option string :=
  List.find (fun k => match from with Some from => str_ltb from k | None => true end) (qm_keys m).

Section live.
Context {QO : QVariantOps} (alive : nat -> bool).
Context (beh : nat -> QVar -> list Act) (beh_all : option nat -> QVar -> list Act).

Section with_acts.
Context (acts : list Act -> TagRegistry -> Out).
(** The range-for over [tag.subscribers]: [turns] more until the end that was
    taken before the first. *)
Fixpoint notify_subscribers (name : string) (ev : QVar) (n i turns : nat) (r : TagRegistry) : Out :=
  match turns with
  | O => Done r []
  | S turns =>
      match qm_find name (tags r) ≫= fun t => subscribers t !! i with
      | None => Undef
      | Some fn =>
          andThen (told [CallSubscriber fn ev] (acts (beh fn ev) r)) (fun r =>
            if bool_decide (length (subscribers (qm_get Tag_default name (tags r))) = n)
            then notify_subscribers name ev n (S i) turns r else Undef)
      end
  end.
Definition callListeners (l : option nat) (ev : QVar) (r : TagRegistry) : Out :=
  told [match l with None => CallChanged ev | Some l => CallPerTag l ev end] (acts (beh_all l ev) r).
Definition emit_changed (name : string) (r : TagRegistry) : Out :=
  let t := qm_get Tag_default name (tags r) in Done r [TagChanged name (value t) (qualityStr (quality t))].
Definition notify_live (name : string) (r : TagRegistry) : Out :=
  let t := qm_get Tag_default name (tags r) in
  let ev := tag_event name t in
  let n := length (subscribers t) in
  andThen (notify_subscribers name ev n 0 n r) (fun r =>
  andThen (callListeners None ev r) (fun r =>
  andThen (match qm_find name (perTag r) with Some l => callListeners (Some l) ev r | None => Done r [] end) (emit_changed name))).
Fixpoint msg_live (now : Z) (w : nat) (wname : string) (flat : FlatMap) (r : TagRegistry) : Out :=
  match flat with
  | [] => Done r []
  | (k, v) :: flat =>
      if negb (isValid v) then msg_live now w wname flat r
      else
        andThen (notify_live (tag_name wname k) (updateTag alive now (tag_name wname k) v w wname r).1) (msg_live now w wname flat)
  end.
(** [setWorkerQuality] goes from key to key; [steps] bounds the keys it may meet. *)
Fixpoint quality_live (steps : nat) (wname : string) (q : Quality) (from : option string) (r : TagRegistry) : Out :=
  match steps with
  | O => Fuel
  | S steps =>
      match first_after from (tags r) with
      | None => Done r []
      | Some k =>
          let t := qm_get Tag_default k (tags r) in
          if negb (startsWith k (wname +:+ ":")) || bool_decide (quality t = q) then quality_live steps wname q (Some k) r
          else andThen (notify_live k (set_tags r (qm_insert k (with_quality t q) (tags r)))) (quality_live steps wname q (Some k))
      end
  end.
End with_acts.

(** The synchronous part of callbacks, [depth] calls deep. *)
Fixpoint acts (steps depth : nat) (l : list Act) (r : TagRegistry) {struct depth} : Out :=
  match depth with
  | O => match l with [] => Done r [] | _ => Fuel end
  | S depth =>
      (fix go l r := match l with
       | [] => Done r []
       | a :: l => andThen match a with
           | ASubscribe tag fn => Done (Subscribe tag fn r) []
           | AListen tag fresh => Done (PerTagListeners tag fresh r).2 []
           | AMsg now w wname msg => msg_live (acts steps depth) now w wname (Flatten [] msg) r
           | AEvent wname (VMap m) => match event_quality m with Some q => quality_live (acts steps depth) steps wname q None r | None => Done r [] end
           | AEvent _ _ => Done r []
           end (go l)
       end) l r
  end.
Definition onWorkerMsg_live (steps depth : nat) (now : Z) (w : nat) (wname : string) (msg : QVar) (r : TagRegistry) : Out :=
  acts steps (S depth) [AMsg now w wname msg] r.
Definition onWorkerEvent_live (steps depth : nat) (wname : string) (msg : QVar) (r : TagRegistry) : Out :=
  acts steps (S depth) [AEvent wname msg] r.
End live.

(** ** The [tags] table *)
Module Api.
(** What a script passes. *)
Inductive Arg := A_nil | A_string (s : string) | A_number (text : string) | A_function (fn : nat) | A_other (type : string).
Definition type_name (a : option Arg) : string :=
  match a with
  | None => "no value" | Some A_nil => "nil" | Some (A_string _) => "string" | Some (A_number _) => "number"
  | Some (A_function _) => "function" | Some (A_other t) => t
  end.
Inductive LuaRes (A : Type) := Ret (a : A) | BadArgument (n : nat) (expected got : string).
Arguments Ret {A} a. Arguments BadArgument {A} n expected got.
(** [QString::fromUtf8(luaL_checkstring(L, n))]: the text up to its first NUL. *)
Fixpoint up_to_nul (s : string) : string :=
  match s with EmptyString => "" | String c s => if bool_decide (c = Ascii.zero) then "" else String c (up_to_nul s) end.
Definition checkstring (n : nat) (args : list Arg) : LuaRes string :=
  match args !! (n - 1)%nat with
  | Some (A_string s) => Ret (up_to_nul s)
  | Some (A_number t) => Ret t
  | a => BadArgument n "string" (type_name a)
  end.
Definition checkfunction (n : nat) (args : list Arg) : LuaRes nat :=
  match args !! (n - 1)%nat with
  | Some (A_function f) => Ret f
  | a => BadArgument n "function" (type_name a)
  end.
Definition bind {A B} (x : LuaRes A) (f : A -> LuaRes B) : LuaRes B :=
  match x with Ret a => f a | BadArgument n e g => BadArgument n e g end.

(** [pipes]: the pipe targets made so far, with the list their [get_listeners] has as
    its upvalue.  Tables are numbered as they are made. *)
Record Tags_ := { api_registry : TagRegistry; changedListeners : nat; changedObj : nat; pipes : gmap nat nat; next_table : nat }.
Definition pushPipable (listeners : nat) (a : Tags_) : nat * Tags_ :=
  (next_table a, {| api_registry := api_registry a; changedListeners := changedListeners a; changedObj := changedObj a;
                    pipes := <[next_table a := listeners]> (pipes a); next_table := S (next_table a) |}).
Definition TagRegistry_new (first : nat) : Tags_ :=
  {| api_registry := registry_empty; changedListeners := first; changedObj := S first; pipes := {[S first := first]}; next_table := S (S first) |}.
(** A second call leaves the registry as it is. *)
Definition EnableTags (first : nat) (a : option Tags_) : option Tags_ :=
  match a with Some _ => a | None => Some (TagRegistry_new first) end.
Definition get_listeners (pipe : nat) (a : Tags_) : option nat := pipes a !! pipe.
Definition with_registry (r : TagRegistry) (a : Tags_) : Tags_ :=
  {| api_registry := r; changedListeners := changedListeners a; changedObj := changedObj a; pipes := pipes a; next_table := next_table a |}.
Definition PerTagListeners (name : string) (a : Tags_) : nat * Tags_ :=
  match qm_find name (perTag (api_registry a)) with
  | Some l => (l, a)
  | None =>
      let (l, r) := Tags.PerTagListeners name (next_table a) (api_registry a) in
      (l, {| api_registry := r; changedListeners := changedListeners a; changedObj := changedObj a; pipes := pipes a; next_table := S (next_table a) |})
  end.
(** [tags.changed[key]]: the raw field first, then the [__index] of the metatable. *)
Inductive Indexed := Field | Pipe (t : nat).
Definition changed_index (args : list Arg) (a : Tags_) : LuaRes (nat * Tags_) :=
  bind (checkstring 2 args) (fun name => let (l, a) := PerTagListeners name a in Ret (pushPipable l a)).
Definition index_changed (key : Arg) (a : Tags_) : LuaRes (Indexed * Tags_) :=
  match key with
  | A_string "get_listeners" => Ret (Field, a)
  | _ => bind (changed_index [A_other "table"; key] a) (fun '(t, a) => Ret (Pipe t, a))
  end.
Definition tags_subscribe (args : list Arg) (a : Tags_) : LuaRes Tags_ :=
  bind (checkstring 2 args) (fun name => bind (checkfunction 3 args) (fun fn => Ret (with_registry (Subscribe name fn (api_registry a)) a))).
Definition tags_get (args : list Arg) (a : Tags_) : LuaRes (option (QVar * string * Z)) :=
  bind (checkstring 2 args) (fun name => Ret (Tags.tags_get name (api_registry a))).
Definition tags_source (alive : nat -> bool) (selfRef : nat -> option Z) (args : list Arg) (a : Tags_) : LuaRes (option Z) :=
  bind (checkstring 2 args) (fun name => Ret (Tags.tags_source alive selfRef name (api_registry a))).

(** ** Lemmas *)
Inductive step : Tags_ -> Tags_ -> Prop :=
| step_index key t a a' : index_changed key a = Ret (t, a') -> step a a'
| step_subscribe args a a' : tags_subscribe args a = Ret a' -> step a a'
| step_registry r a : perTag r = perTag (api_registry a) -> step a (with_registry r a).   (* messages, events *)
Record tags_ok (a : Tags_) : Prop := {
  lists_made : forall n l, qm_find n (perTag (api_registry a)) = Some l -> (l < next_table a)%nat /\ l <> changedListeners a;
  lists_apart : forall n m l, qm_find n (perTag (api_registry a)) = Some l -> qm_find m (perTag (api_registry a)) = Some l -> n = m;
  pipes_made : forall t l, pipes a !! t = Some l -> (t < next_table a)%nat;
  root_pipe : pipes a !! changedObj a = Some (changedListeners a);
  root_made : (changedListeners a < next_table a)%nat
}.
(** What a step keeps. *)
Definition grows (a a' : Tags_) : Prop :=
  (forall n l, qm_find n (perTag (api_registry a)) = Some l -> qm_find n (perTag (api_registry a')) = Some l) /\
  pipes a ⊆ pipes a' /\ (next_table a <= next_table a')%nat /\ changedListeners a' = changedListeners a /\ changedObj a' = changedObj a.
Lemma grows_refl a : grows a a.
Proof. by split_and!. Qed.
Lemma grows_trans a b c : grows a b -> grows b c -> grows a c.
Proof. intros (H1 & H2 & H3 & H4 & H5) (G1 & G2 & G3 & G4 & G5). split_and!; [auto|by etrans|lia|congruence|congruence]. Qed.
Lemma fresh_pipe a : tags_ok a -> pipes a !! next_table a = None.
Proof. intros H. destruct (pipes a !! next_table a) eqn:E; [|done]. apply (pipes_made a H) in E. lia. Qed.
Lemma pushPipable_ok l a : tags_ok a -> tags_ok (pushPipable l a).2 /\ grows a (pushPipable l a).2.
Proof.
  intros H. pose proof (fresh_pipe a H) as F. split; [split; cbn|].
  - intros n l' Hn. destruct (lists_made a H n l' Hn). split; [lia|done].
  - apply (lists_apart a H).
  - intros t l' Ht. apply lookup_insert_Some in Ht as [[<- _]|[_ Ht]]; [lia|]. apply (pipes_made a H) in Ht. lia.
  - rewrite lookup_insert_ne; [apply (root_pipe a H)|]. intros E. rewrite E in F. rewrite (root_pipe a H) in F. done.
  - pose proof (root_made a H). lia.
  - split_and!; cbn; [done|by apply insert_subseteq|lia|done|done].
Qed.
Lemma PerTagListeners_ok n a : tags_ok a ->
  let '(l, a') := PerTagListeners n a in tags_ok a' /\ grows a a' /\ qm_find n (perTag (api_registry a')) = Some l.
Proof.
  intros H. unfold PerTagListeners. destruct (qm_find n (perTag (api_registry a))) as [l|] eqn:E; [by split_and!; [| apply grows_refl|]|].
  unfold Tags.PerTagListeners. rewrite E. split; [split; cbn|split; [split_and!; cbn|]].
  - intros m l. destruct (decide (n = m)) as [->|Hn].
    + rewrite qm_find_insert_eq. intros [= <-]. pose proof (root_made a H). lia.
    + rewrite qm_find_insert_ne by done. intros Hm. destruct (lists_made a H m l Hm). split; [lia|done].
  - intros m k l. assert (L : forall x, qm_find x (perTag (api_registry a)) = Some (next_table a) -> False).
    { intros x Hx. apply (lists_made a H) in Hx. lia. }
    destruct (decide (n = m)) as [->|Hm], (decide (m = k)) as [<-|Hk]; try done.
    + rewrite qm_find_insert_eq, qm_find_insert_ne by done. intros [= <-] Hx. by apply L in Hx.
    + rewrite qm_find_insert_ne by done. destruct (decide (n = k)) as [->|Hk'].
      * rewrite qm_find_insert_eq. intros Hx [= <-]. by apply L in Hx.
      * rewrite qm_find_insert_ne by done. apply (lists_apart a H).
  - intros t l Ht. apply (pipes_made a H) in Ht. lia.
  - apply (root_pipe a H).
  - pose proof (root_made a H). lia.
  - intros m l Hm. rewrite qm_find_insert_ne; [done|]. intros ->. congruence.
  - done.
  - lia.
  - done.
  - done.
  - cbn. apply qm_find_insert_eq.
Qed.
(** The text a key stands for. *)
Definition key_name (key : Arg) : option string := match checkstring 2 [A_other "table"; key] with Ret n => Some n | _ => None end.
Lemma index_ok key a t a' : tags_ok a -> index_changed key a = Ret (t, a') ->
  tags_ok a' /\ grows a a' /\ match t with
    | Field => a' = a
    | Pipe p => p = (next_table a' - 1)%nat /\ (next_table a <= p)%nat /\ exists n l, key_name key = Some n /\ pipes a' !! p = Some l /\ qm_find n (perTag (api_registry a')) = Some l
    end.
Proof.
  intros H E.
  assert (E' : (t, a') = (Field, a) \/ exists p, t = Pipe p /\ changed_index [A_other "table"; key] a = Ret (p, a')).
  { unfold index_changed in E. destruct (changed_index _ _) as [[p b]|] eqn:C; [|repeat case_match; try done; left; by injection E as <- <-].
    repeat case_match; try (injection E as <- <-; by left); right; exists p; cbn in E; injection E as <- <-; by rewrite <- C. }
  destruct E' as [[= -> ->]|(p & -> & C)]; [by split_and!; [|apply grows_refl|]|].
  unfold changed_index in C. unfold key_name. destruct (checkstring 2 [A_other "table"; key]) as [n|]; [|done]. cbn [bind] in C. pose proof (PerTagListeners_ok n a H) as P.
  destruct (PerTagListeners n a) as [l b]. destruct P as (Hb & G & F). destruct (pushPipable_ok l b Hb) as [Hc Gc].
  injection C as <- <-. split; [done|]. split; [by eapply grows_trans|]. cbn. split; [lia|]. split; [destruct G as (_ & _ & ? & _); lia|].
  exists n, l. split; [done|]. split; [apply lookup_insert_eq|done].
Qed.
Lemma tags_step_ok a a' : step a a' -> tags_ok a -> tags_ok a' /\ grows a a'.
Proof.
  intros S H. destruct S as [key t a a' E|args a a' E|r a E].
  - by destruct (index_ok key a t a' H E) as (? & ? & _).
  - unfold tags_subscribe in E. destruct (checkstring 2 args); [|done]. cbn [bind] in E. destruct (checkfunction 3 args); [|done]. injection E as <-.
    split; [by destruct H|by split_and!].
  - split; [destruct H; split; cbn; rewrite ?E; done|]. split_and!; cbn; rewrite ?E; done.
Qed.
Lemma tags_steps_ok a a' : rtc step a a' -> tags_ok a -> tags_ok a' /\ grows a a'.
Proof.
  induction 1 as [a|a b c S _ IH]; intros H; [by split; [|apply grows_refl]|].
  destruct (tags_step_ok a b S H) as [Hb Gb]. destruct (IH Hb) as [Hc Gc]. split; [done|by eapply grows_trans].
Qed.
Lemma tags_new_ok first : tags_ok (TagRegistry_new first).
Proof.
  split; cbn; try done; try lia; [|apply lookup_singleton_eq]. intros t l [<- _]%lookup_singleton_Some. lia.
Qed.
(** Pipe targets of one tag are tables of their own with one list, the list
    [notifyTag] calls for the tag; two tags never share one, nor does a tag with
    [tags.changed]; and a target keeps its list whatever happens in between. *)
Theorem changed_pipes (first : nat) (a a1 a2 a3 : Tags_) (key key' : Arg) (t u : nat) :
  rtc step (TagRegistry_new first) a -> index_changed key a = Ret (Pipe t, a1) ->
  rtc step a1 a2 -> index_changed key' a2 = Ret (Pipe u, a3) ->
  exists n m lt lu, key_name key = Some n /\ key_name key' = Some m /\ t <> u /\
    get_listeners t a3 = Some lt /\ get_listeners u a3 = Some lu /\ get_listeners (changedObj a3) a3 = Some (changedListeners a3) /\
    (lt = lu <-> n = m) /\ lt <> changedListeners a3 /\
    qm_find n (perTag (api_registry a3)) = Some lt.
Proof.
  intros S1 I1 S2 I2. destruct (tags_steps_ok _ _ S1 (tags_new_ok first)) as [H _].
  destruct (index_ok key a _ a1 H I1) as (H1 & _ & Tt & _ & n & lt & Kn & Pt & Qn).
  destruct (tags_steps_ok _ _ S2 H1) as [H2 G2]. destruct (index_ok key' a2 _ a3 H2 I2) as (H3 & G3 & Tu & Hu & m & lu & Km & Pu & Qm).
  pose proof (grows_trans _ _ _ G2 G3) as (GQ & GP & _ & GC & GO).
  exists n, m, lt, lu. pose proof (GQ n lt Qn) as Qn3. pose proof (lookup_weaken _ _ _ _ Pt GP) as Pt3.
  split_and!; try done.
  - intros ->. apply (pipes_made a1 H1) in Pt. destruct G2 as (_ & _ & ? & _). lia.
  - by apply root_pipe.
  - split; [intros ->; by apply (lists_apart a3 H3 n m lu)|intros ->; congruence].
  - by apply (lists_made a3 H3 n lt).
Qed.
End Api.

(** ** Callbacks that run inside a notification *)
Definition last_signal (name : string) (e : list TagEffect) : option (QVar * string) :=
  last (omap (fun x => match x with TagChanged n v q => if bool_decide (n = name) then Some (v, q) else None | _ => None end) e).
Definition shown (name : string) (r : TagRegistry) : QVar * string :=
  let t := qm_get Tag_default name (tags r) in (value t, qualityStr (quality t)).
Definition subscribed (name : string) (r : TagRegistry) : nat := length (subscribers (qm_get Tag_default name (tags r))).
(** The last signal for a tag is what the registry holds. *)
Definition current (r : TagRegistry) (o : Out) : Prop :=
  match o with
  | Done r' e => forall name, match last_signal name e with Some s => s = shown name r' | None => shown name r' = shown name r end
  | _ => True
  end.
(** Nothing undefined, and nobody subscribed. *)
Definition steady (r : TagRegistry) (o : Out) : Prop :=
  match o with Done r' _ => forall name, subscribed name r' = subscribed name r | Fuel => True | Undef => False end.
Definition silent (e : TagEffect) : bool := match e with TagChanged _ _ _ => false | _ => true end.

Lemma last_signal_app name a b : last_signal name (a ++ b) = match last_signal name b with Some s => Some s | None => last_signal name a end.
Proof. unfold last_signal. rewrite omap_app, last_app. by destruct (last (omap _ b)). Qed.
Lemma current_andThen r o k : current r o -> (forall r', current r' (k r')) -> current r (andThen o k).
Proof.
  destruct o as [| |r1 e1]; [done..|]. intros H Hk. specialize (Hk r1). cbn. destruct (k r1) as [| |r2 e2]; [done..|].
  intros name. specialize (H name). specialize (Hk name). rewrite last_signal_app. destruct (last_signal name e2); [done|].
  rewrite Hk. by destruct (last_signal name e1).
Qed.
Lemma current_told r x o : silent x = true -> current r o -> current r (told [x] o).
Proof.
  destruct o as [| |r1 e1]; [done..|]. intros Hx H name. specialize (H name). cbn [told]. rewrite last_signal_app.
  destruct (last_signal name e1); [done|]. by destruct x.
Qed.
Lemma steady_andThen r o k : steady r o -> (forall r', (forall name, subscribed name r' = subscribed name r) -> steady r' (k r')) -> steady r (andThen o k).
Proof.
  destruct o as [| |r1 e1]; [done..|]. intros H Hk. specialize (Hk r1 H). cbn. destruct (k r1) as [| |r2 e2]; [done..|].
  intros name. by rewrite Hk.
Qed.
Lemma steady_told r x o : steady r (told [x] o) <-> steady r o.
Proof. by destruct o. Qed.
Lemma get_insert {V} (d : V) k v m n : qm_get d n (qm_insert k v m) = if bool_decide (k = n) then v else qm_get d n m.
Proof. unfold qm_get. case_bool_decide as E; [subst; by rewrite qm_find_insert_eq|by rewrite qm_find_insert_ne]. Qed.
Lemma shown_subscribe name tag fn r : shown name (Subscribe tag fn r) = shown name r.
Proof. unfold shown, Subscribe. cbn [set_tags tags]. rewrite get_insert. case_bool_decide as E; [by subst|done]. Qed.
Lemma listen_tags tag fresh r : tags (PerTagListeners tag fresh r).2 = tags r.
Proof. unfold PerTagListeners. by destruct (qm_find tag (perTag r)). Qed.

Section live_facts.
Context {QO : QVariantOps} (alive : nat -> bool) (beh : nat -> QVar -> list Act) (beh_all : option nat -> QVar -> list Act).
Abbreviation notify_live := (notify_live beh beh_all).
Abbreviation acts := (acts alive beh beh_all).

Definition ends_on (name : string) (o : Out) : Prop := match o with Done r e => last_signal name e = Some (shown name r) | _ => True end.
Lemma ends_on_andThen name o k : (forall r, ends_on name (k r)) -> ends_on name (andThen o k).
Proof.
  destruct o as [| |r e]; [done..|]. intros H. specialize (H r). cbn. destruct (k r) as [| |r' e']; [done..|]. cbn in *.
  by rewrite last_signal_app, H.
Qed.
Lemma emit_current name r : current r (emit_changed name r) /\ ends_on name (emit_changed name r).
Proof.
  unfold emit_changed, last_signal. split; cbn; [intros n|]; unfold last_signal; cbn; [case_bool_decide; [by subst|done]|].
  by rewrite bool_decide_eq_true_2.
Qed.
(** The tag an update writes, and the others. *)
Lemma update_tags now name v w wname r : exists t,
  tags (updateTag alive now name v w wname r).1 = qm_insert name t (tags r) /\ subscribers t = subscribers (qm_get Tag_default name (tags r)).
Proof. eexists. split; [reflexivity|]. cbn. by destruct (has_source alive _). Qed.

Section with_currents.
Context (go : list Act -> TagRegistry -> Out) (Hgo : forall l r, current r (go l r)).
Lemma notify_subscribers_current name ev n i turns r : current r (notify_subscribers beh go name ev n i turns r).
Proof.
  revert i r. induction turns as [|turns IH]; intros i r; cbn; [done|]. destruct (_ ≫= _) as [fn|]; [|done].
  apply current_andThen; [by apply current_told|]. intros r'. case_bool_decide; [apply IH|done].
Qed.
Lemma callListeners_current l ev r : current r (callListeners beh_all go l ev r).
Proof. destruct l; by apply current_told. Qed.
Lemma notify_current name r : current r (notify_live go name r) /\ ends_on name (notify_live go name r).
Proof.
  split.
  - apply current_andThen; [apply notify_subscribers_current|]. intros r1. apply current_andThen; [apply callListeners_current|]. intros r2.
    apply current_andThen; [destruct (qm_find _ _); [apply callListeners_current|done]|]. intros r3. apply emit_current.
  - do 3 (apply ends_on_andThen; intros ?). apply emit_current.
Qed.
(** A tag that is written and then announced. *)
Lemma write_current name t r r' : tags r' = qm_insert name t (tags r) -> current r (notify_live go name r').
Proof.
  intros E. destruct (notify_current name r') as [C S]. destruct (notify_live go name r') as [| |r2 e]; [done..|]. intros n. specialize (C n). cbn in S.
  destruct (decide (n = name)) as [->|Hn]; [by rewrite S|]. destruct (last_signal n e); [done|]. rewrite C. unfold shown.
  rewrite E, get_insert, bool_decide_eq_false_2; [done|congruence].
Qed.
Lemma msg_current now w wname flat r : current r (msg_live alive beh beh_all go now w wname flat r).
Proof.
  revert r. induction flat as [|[k v] flat IH]; intros r; [done|]. cbn [msg_live]. destruct (negb _); [apply IH|].
  apply current_andThen; [|apply IH]. destruct (update_tags now (tag_name wname k) v w wname r) as (t & E & _). by apply (write_current _ t).
Qed.
Lemma quality_current steps wname q from r : current r (quality_live beh beh_all go steps wname q from r).
Proof.
  revert from r. induction steps as [|steps IH]; intros from r; [done|]. cbn [quality_live]. destruct (first_after _ _) as [k|]; [|done].
  cbv zeta. destruct (_ || _)%bool; [apply IH|]. apply current_andThen; [|apply IH]. by eapply write_current.
Qed.
End with_currents.
Lemma acts_current steps depth l r : current r (acts steps depth l r).
Proof.
  revert l r. induction depth as [|depth IH]; intros l; [by destruct l|].
  induction l as [|a l IHl]; intros r; [done|]. cbn [TagsLua.acts]. apply current_andThen; [|exact IHl].
  destruct a as [tag fn|tag fresh|now w wname msg|wname msg].
  - intros name. apply shown_subscribe.
  - intros name. cbn. unfold shown. by rewrite listen_tags.
  - by apply msg_current.
  - destruct msg; try done. destruct (event_quality m); [|done]. by apply quality_current.
Qed.

(** Where nobody subscribes. *)
Definition subscribes (a : Act) : bool := match a with ASubscribe _ _ => true | _ => false end.
Section steady.
Context (Hbeh : forall fn ev, existsb subscribes (beh fn ev) = false) (Hall : forall l ev, existsb subscribes (beh_all l ev) = false).
Section with_steady.
Context (go : list Act -> TagRegistry -> Out) (Hgo : forall l r, existsb subscribes l = false -> steady r (go l r)).
Lemma notify_subscribers_steady name ev n turns : forall i r, (i + turns = n)%nat -> subscribed name r = n -> steady r (notify_subscribers beh go name ev n i turns r).
Proof.
  induction turns as [|turns IH]; intros i r Hi Hn; cbn [notify_subscribers]; [by intros ?|].
  destruct (qm_find name (tags r) ≫= _) as [fn|] eqn:F.
  - apply steady_andThen; [apply steady_told; by apply Hgo|]. intros r' Hr. fold (subscribed name r'). rewrite Hr, bool_decide_eq_true_2 by done.
    apply IH; [lia|by rewrite Hr].
  - exfalso. unfold subscribed, qm_get in Hn. destruct (qm_find name (tags r)) as [t|]; cbn in *; [|lia].
    apply lookup_ge_None in F. lia.
Qed.
Lemma callListeners_steady l ev r : steady r (callListeners beh_all go l ev r).
Proof. apply steady_told, Hgo, Hall. Qed.
Lemma notify_steady name r : steady r (notify_live go name r).
Proof.
  apply steady_andThen; [by apply notify_subscribers_steady|]. intros r1 _. apply steady_andThen; [apply callListeners_steady|]. intros r2 _.
  apply steady_andThen; [destruct (qm_find _ _); [apply callListeners_steady|by intros ?]|]. intros r3 _. by intros ?.
Qed.
Lemma steady_from r r' o : (forall name, subscribed name r' = subscribed name r) -> steady r' o -> steady r o.
Proof. destruct o; [done..|]. intros H Hs name. by rewrite Hs. Qed.
Lemma msg_steady now w wname flat r : steady r (msg_live alive beh beh_all go now w wname flat r).
Proof.
  revert r. induction flat as [|[k v] flat IH]; intros r; [by intros ?|]. cbn [msg_live]. destruct (negb _); [apply IH|].
  apply steady_andThen; [|by intros r' _; apply IH]. eapply steady_from; [|apply notify_steady]. intros n. unfold subscribed.
  destruct (update_tags now (tag_name wname k) v w wname r) as (t & -> & Ht). rewrite get_insert. case_bool_decide as E; [|done]. by rewrite <- E, Ht.
Qed.
Lemma quality_steady steps wname q from r : steady r (quality_live beh beh_all go steps wname q from r).
Proof.
  revert from r. induction steps as [|steps IH]; intros from r; [done|]. cbn [quality_live]. destruct (first_after _ _) as [k|]; [|by intros ?].
  cbv zeta. destruct (_ || _)%bool; [apply IH|]. apply steady_andThen; [|by intros r' _; apply IH].
  eapply steady_from; [|apply notify_steady]. intros n. unfold subscribed. cbn [set_tags tags]. rewrite get_insert. case_bool_decide as E; [by rewrite <- E|done].
Qed.
End with_steady.
Lemma acts_steady steps depth l r : existsb subscribes l = false -> steady r (acts steps depth l r).
Proof.
  revert l r. induction depth as [|depth IH]; intros l; [by destruct l|].
  induction l as [|a l IHl]; intros r; [by intros _ ?|]. cbn [existsb TagsLua.acts]. intros [Ha Hl]%orb_false_iff.
  apply steady_andThen; [|intros r' _; by apply IHl].
  destruct a as [tag fn|tag fresh|now w wname msg|wname msg]; [done| | |].
  - intros name. unfold subscribed. by rewrite listen_tags.
  - apply msg_steady. intros l' r'. apply IH.
  - destruct msg; try (by intros ?). destruct (event_quality m); [|by intros ?]. apply quality_steady. intros l' r'. apply IH.
Qed.
End steady.

(** Callbacks that leave the tags alone. *)
Section quiet.
Context (Hbeh : forall fn ev, beh fn ev = []) (Hall : forall l ev, beh_all l ev = []).
Section with_quiet.
Context (go : list Act -> TagRegistry -> Out) (Hgo : forall r, go [] r = Done r []).
Lemma quiet_subscribers name ev n turns : forall i r, (i + turns = n)%nat -> subscribed name r = n ->
  notify_subscribers beh go name ev n i turns r = Done r (map (fun fn => CallSubscriber fn ev) (drop i (subscribers (qm_get Tag_default name (tags r))))).
Proof.
  induction turns as [|turns IH]; intros i r Hi Hn; cbn [notify_subscribers].
  - rewrite drop_ge; [done|]. unfold subscribed in Hn. lia.
  - unfold subscribed in Hn. assert (H : exists fn, subscribers (qm_get Tag_default name (tags r)) !! i = Some fn) by (apply lookup_lt_is_Some; lia).
    destruct H as [fn F]. rewrite (drop_S _ fn i F).
    assert (E : qm_find name (tags r) ≫= (fun t => subscribers t !! i) = Some fn).
    { unfold qm_get in F. destruct (qm_find name (tags r)); [done|]. cbn in F. by rewrite lookup_nil in F. }
    rewrite E, Hbeh, Hgo. cbn [told andThen]. rewrite bool_decide_eq_true_2 by done. by rewrite IH by (done || lia).
Qed.
Lemma quiet_notify name r : notify_live go name r = Done r (notifyTag name (qm_get Tag_default name (tags r)) r).
Proof.
  unfold TagsLua.notify_live, callListeners. rewrite quiet_subscribers by done. cbn [andThen]. rewrite Hall, Hgo. cbn [told andThen].
  unfold notifyTag. destruct (qm_find name (perTag r)) as [l|]; [rewrite Hall, Hgo|]; cbn; by rewrite drop_0.
Qed.
Lemma quiet_msg now w wname flat r : msg_live alive beh beh_all go now w wname flat r =
  let '(r', e) := onWorkerMsg_loop alive now w wname flat r in Done r' e.
Proof.
  revert r. induction flat as [|[k v] flat IH]; intros r; [done|]. cbn [msg_live onWorkerMsg_loop]. destruct (negb _); [apply IH|].
  rewrite quiet_notify. cbn [andThen]. rewrite IH.
  assert (E : (updateTag alive now (tag_name wname k) v w wname r).2 =
    notifyTag (tag_name wname k) (qm_get Tag_default (tag_name wname k) (tags (updateTag alive now (tag_name wname k) v w wname r).1)) (updateTag alive now (tag_name wname k) v w wname r).1).
  { cbn [updateTag fst snd set_tags tags]. unfold updateTag. cbn. by rewrite get_insert, bool_decide_eq_true_2. }
  destruct (updateTag _ _ _ _ _ _ _) as [r1 e1]. cbn [fst snd] in *. subst e1. by destruct (onWorkerMsg_loop _ _ _ _ flat r1).
Qed.
Lemma notifyTag_perTag name t r r' : perTag r = perTag r' -> notifyTag name t r = notifyTag name t r'.
Proof. unfold notifyTag. by intros ->. Qed.
Lemma setQuality_perTag wname q r r' l : perTag r = perTag r' -> setQuality_loop wname q r l = setQuality_loop wname q r' l.
Proof.
  intros E. induction l as [|[k t] l IH]; [done|]. cbn [setQuality_loop]. rewrite IH. by rewrite (notifyTag_perTag k _ r r' E).
Qed.
(** The keys before and after an iterator. *)
Definition below {V} (pre : list (string * V)) (k : string) : Prop := forallb (fun kv => str_ltb kv.1 k) pre = true.
Lemma below_find {V} k (t : V) pre post : below pre k -> qm_find k (pre ++ (k, t) :: post) = Some t.
Proof.
  induction pre as [|[j w] pre IH]; cbn; [by rewrite bool_decide_eq_true_2|]. unfold below. cbn. intros [Hj Hp]%andb_true_iff.
  rewrite bool_decide_eq_false_2; [by apply IH|]. intros ->. by rewrite str_ltb_irrefl in Hj.
Qed.
Lemma below_insert {V} k (t t' : V) pre post : below pre k -> qm_insert k t' (pre ++ (k, t) :: post) = pre ++ (k, t') :: post.
Proof.
  induction pre as [|[j w] pre IH]; cbn; [by rewrite bool_decide_eq_true_2|]. unfold below. cbn. intros [Hj Hp]%andb_true_iff.
  rewrite bool_decide_eq_false_2 by (intros ->; by rewrite str_ltb_irrefl in Hj).
  destruct (str_ltb k j) eqn:E; [|by rewrite IH]. pose proof (str_ltb_trans _ _ _ Hj E) as H. by rewrite str_ltb_irrefl in H.
Qed.
Definition passed {V} (from : option string) (pre post : list (string * V)) : Prop :=
  first_after from pre = None /\ (forall k t rest, post = (k, t) :: rest -> first_after from post = Some k) /\
  qm_sorted post = true /\ forall k t, (k, t) ∈ post -> below pre k.
Lemma first_after_app {V} from (pre post : list (string * V)) : first_after from pre = None -> first_after from (pre ++ post) = first_after from post.
Proof.
  unfold first_after, qm_keys. rewrite fmap_app. induction (pre.*1) as [|k l IH]; [done|]. cbn. by destruct (match from with Some f => _ | None => _ end).
Qed.
Lemma passed_step {V} from (pre post : list (string * V)) k t t' : passed from pre ((k, t) :: post) -> passed (Some k) (pre ++ [(k, t')]) post.
Proof.
  intros (_ & _ & S & B). cbn in S. apply andb_true_iff in S as [A S]. pose proof (B k t ltac:(by left)) as Bk. split_and!.
  - unfold first_after, qm_keys. rewrite fmap_app. cbn. unfold below in Bk. induction pre as [|[j w] pre IH]; cbn in *; [by rewrite str_ltb_irrefl|].
    apply andb_true_iff in Bk as [Hj Hp]. destruct (str_ltb k j) eqn:E; [pose proof (str_ltb_trans _ _ _ Hj E) as H; by rewrite str_ltb_irrefl in H|].
    apply IH; [|done]. intros i x Hi. specialize (B i x Hi). unfold below in *. cbn in B. by apply andb_true_iff in B as [_ B].
  - intros i x rest ->. unfold first_after. cbn. cbn in A. by apply andb_true_iff in A as [-> _].
  - done.
  - intros i x Hi. unfold below. rewrite forallb_app. rewrite (B i x ltac:(by right)). cbn. by rewrite (qm_above_all k post i x A Hi).
Qed.
Lemma quiet_quality steps wname q : forall post pre from r, tags r = pre ++ post -> passed from pre post -> (length post < steps)%nat ->
  quality_live beh beh_all go steps wname q from r =
  let '(l, e) := setQuality_loop wname q r post in Done (set_tags r (pre ++ l)) e.
Proof.
  induction steps as [|steps IH]; intros post pre from r E P Hl; [lia|]. cbn [quality_live]. destruct P as (F0 & F & S & B) eqn:HP.
  rewrite E, (first_after_app from pre post F0). destruct post as [|[k t] post].
  - cbn [setQuality_loop]. rewrite <- E. change (first_after from []) with (@None string). by destruct r.
  - pose proof (passed_step from pre post k t) as Next. rewrite (F k t post eq_refl). cbv zeta. cbn [length] in Hl.
    assert (G : qm_get Tag_default k (pre ++ (k, t) :: post) = t) by (unfold qm_get; rewrite below_find; [done|]; apply (B k t); by left).
    rewrite G. cbn [setQuality_loop].
    assert (Same : quality_live beh beh_all go steps wname q (Some k) r = let '(l, e) := setQuality_loop wname q r post in Done (set_tags r (pre ++ (k, t) :: l)) e).
    { rewrite (IH post (pre ++ [(k, t)])); [|by rewrite E, <- (assoc_L (++))|by apply Next|lia].
      destruct (setQuality_loop wname q r post). by rewrite <- (assoc_L (++)). }
    destruct (negb (startsWith k _)); cbn [orb]; [rewrite Same; by destruct (setQuality_loop wname q r post)|].
    case_bool_decide as Q; [rewrite Same; by destruct (setQuality_loop wname q r post)|].
    rewrite below_insert by (apply (B k t); by left). rewrite quiet_notify by done. cbn [andThen set_tags tags].
    assert (G' : qm_get Tag_default k (pre ++ (k, with_quality t q) :: post) = with_quality t q).
    { unfold qm_get. rewrite below_find; [done|]. apply (B k t). by left. }
    rewrite G'. rewrite (IH post (pre ++ [(k, with_quality t q)])); [|cbn; by rewrite <- (assoc_L (++))|by apply Next|lia].
    rewrite (setQuality_perTag wname q (set_tags r _) r post) by done. rewrite (notifyTag_perTag k _ (set_tags r _) r) by done.
    destruct (setQuality_loop wname q r post). cbn. by rewrite <- (assoc_L (++)).
Qed.
End with_quiet.
End quiet.
End live_facts.

(** ** More fuel changes nothing but [Fuel] *)
Definition extends (o o' : Out) : Prop := o = Fuel \/ o' = o.
Lemma extends_refl o : extends o o. Proof. by right. Qed.
Lemma extends_andThen o o' k k' : extends o o' -> (forall r, extends (k r) (k' r)) -> extends (andThen o k) (andThen o' k').
Proof.
  intros [->| ->] Hk; [by left|]. destruct o as [| |r e]; [by left|by right|]. cbn. destruct (Hk r) as [-> | ->]; [by left|apply extends_refl].
Qed.
Lemma extends_told e o o' : extends o o' -> extends (told e o) (told e o').
Proof. intros [->| ->]; [by left|apply extends_refl]. Qed.
Section more_fuel.
Context {QO : QVariantOps} (alive : nat -> bool) (beh : nat -> QVar -> list Act) (beh_all : option nat -> QVar -> list Act).
Section with_more.
Context (go go' : list Act -> TagRegistry -> Out) (Hgo : forall l r, extends (go l r) (go' l r)).
Lemma extends_subscribers name ev n turns : forall i r, extends (notify_subscribers beh go name ev n i turns r) (notify_subscribers beh go' name ev n i turns r).
Proof.
  induction turns as [|turns IH]; intros i r; cbn [notify_subscribers]; [apply extends_refl|].
  destruct (qm_find name (tags r) ≫= _); [|apply extends_refl]. apply extends_andThen; [by apply extends_told|].
  intros r'. case_bool_decide; [apply IH|apply extends_refl].
Qed.
Lemma extends_listeners l ev r : extends (callListeners beh_all go l ev r) (callListeners beh_all go' l ev r).
Proof. by apply extends_told. Qed.
Lemma extends_notify name r : extends (notify_live beh beh_all go name r) (notify_live beh beh_all go' name r).
Proof.
  unfold notify_live. apply extends_andThen; [apply extends_subscribers|]. intros r1. apply extends_andThen; [apply extends_listeners|].
  intros r2. apply extends_andThen; [|intros; apply extends_refl]. destruct (qm_find name (perTag r2)); [apply extends_listeners|apply extends_refl].
Qed.
Lemma extends_msg now w wname flat : forall r, extends (msg_live alive beh beh_all go now w wname flat r) (msg_live alive beh beh_all go' now w wname flat r).
Proof.
  induction flat as [|[k v] flat IH]; intros r; cbn [msg_live]; [apply extends_refl|]. destruct (negb (isValid v)); [apply IH|].
  apply extends_andThen; [apply extends_notify|apply IH].
Qed.
Lemma extends_quality wname q steps : forall steps' from r, (steps <= steps')%nat ->
  extends (quality_live beh beh_all go steps wname q from r) (quality_live beh beh_all go' steps' wname q from r).
Proof.
  induction steps as [|steps IH]; intros [|steps'] from r Hs; try lia; cbn [quality_live]; [by left|by left|].
  destruct (first_after from (tags r)) as [k|]; [|apply extends_refl]. destruct (_ || _)%bool; [apply IH; lia|].
  apply extends_andThen; [apply extends_notify|]. intros r'. apply IH. lia.
Qed.
End with_more.
Lemma extends_acts steps steps' depth : (steps <= steps')%nat -> forall depth' l r, (depth <= depth')%nat ->
  extends (acts alive beh beh_all steps depth l r) (acts alive beh beh_all steps' depth' l r).
Proof.
  intros Hs. induction depth as [|depth IH]; intros depth' l r Hd.
  - cbn [acts]. destruct l as [|a l]; [|by left]. destruct depth'; apply extends_refl.
  - destruct depth' as [|depth']; [lia|]. assert (Hgo : forall l r, extends (acts alive beh beh_all steps depth l r) (acts alive beh beh_all steps' depth' l r)).
    { intros. apply IH. lia. }
    revert r. induction l as [|a l IHl]; intros r; [apply extends_refl|]. apply extends_andThen; [|exact IHl].
    destruct a as [tag fn|tag fresh|now w wname msg|wname msg]; [apply extends_refl|apply extends_refl|by apply extends_msg|].
    destruct msg; try apply extends_refl. destruct (event_quality m); [by apply extends_quality|apply extends_refl].
Qed.
End more_fuel.
(** What callbacks end in: the outcome at any fuel that is enough. *)
Definition ends {QO : QVariantOps} (alive : nat -> bool) (beh : nat -> QVar -> list Act) (beh_all : option nat -> QVar -> list Act) (l : list Act) (r : TagRegistry) (o : Out) : Prop :=
  o <> Fuel /\ exists steps depth, acts alive beh beh_all steps depth l r = o.
Definition none_subscribes (beh : nat -> QVar -> list Act) (beh_all : option nat -> QVar -> list Act) (l : list Act) : Prop :=
  (forall fn ev, existsb subscribes (beh fn ev) = false) /\ (forall li ev, existsb subscribes (beh_all li ev) = false) /\ existsb subscribes l = false.

(** * Properties *)

(** C23: Whatever the callbacks of a notification do before they wait - listen, make
    workers send or report again, to any depth that ends, or subscribe - what happens
    is determined, and unless it is undefined the last [tagChanged] of a tag carries
    the value and the quality the registry is left with, and a tag without one shows
    what it showed before.  It is undefined only if a callback subscribes (to the tag
    it is being told of, that is: see [subscribe_in_callback]); callbacks that call
    each other without end are not considered. *)
Theorem signals_show_registry (QO : QVariantOps) alive beh beh_all l r o : ends alive beh beh_all l r o ->
  (forall o', ends alive beh beh_all l r o' -> o' = o) /\
  match o with
  | Done r' e => forall name, match last_signal name e with Some s => s = shown name r' | None => shown name r' = shown name r end
  | Undef => ~ none_subscribes beh beh_all l
  | Fuel => False
  end.
Proof.
  intros [Hf (steps & depth & E)]. split.
  - intros o' [Hf' (steps' & depth' & E')].
    destruct (extends_acts alive beh beh_all steps (steps + steps') depth ltac:(lia) (depth + depth') l r ltac:(lia)) as [?|H1]; [congruence|].
    destruct (extends_acts alive beh beh_all steps' (steps + steps') depth' ltac:(lia) (depth + depth') l r ltac:(lia)) as [?|H2]; congruence.
  - subst o. pose proof (acts_current alive beh beh_all steps depth l r) as Hc. destruct (acts _ _ _ steps depth l r) eqn:E; [done| |exact Hc].
    intros (Hb & Ha & Hl). pose proof (acts_steady alive beh beh_all Hb Ha steps depth l r Hl) as H. by rewrite E in H.
Qed.
(** A listener of the first tag that makes the worker send the second. *)
Definition chain_beh (fn : nat) (ev : QVar) : list Act := if (fn =? 1)%nat then [AMsg 8 0 "w" (VMap [("b", VInt 5)])] else [].
Definition chain_registry : TagRegistry := Subscribe "w:a" 1 registry_empty.
Lemma signals_show_registry_witness : exists r e,
  ends (QO := simple_ops) (fun _ => true) chain_beh (fun _ _ => []) [AMsg 7 0 "w" (VMap [("a", VInt 3)])] chain_registry (Done r e) /\
  last_signal "w:b" e = Some (VInt 5, "good") /\ shown "w:b" r = (VInt 5, "good").
Proof.
  assert (E : ends (QO := simple_ops) (fun _ => true) chain_beh (fun _ _ => []) [AMsg 7 0 "w" (VMap [("a", VInt 3)])] chain_registry
    (acts (QO := simple_ops) (fun _ => true) chain_beh (fun _ _ => []) 9 4 [AMsg 7 0 "w" (VMap [("a", VInt 3)])] chain_registry)) by (split; [by vm_compute|by exists 9%nat, 4%nat]).
  destruct (signals_show_registry simple_ops (fun _ => true) chain_beh (fun _ _ => []) [AMsg 7 0 "w" (VMap [("a", VInt 3)])] chain_registry _ E) as [_ H].
  eexists _, _. split; [exact E|]. specialize (H "w:b"). split; [vm_compute; reflexivity|symmetry; exact H].
Defined.
(** Callbacks that leave the tags alone: what runs is what [Tags] describes. *)
Theorem quiet_refines (QO : QVariantOps) alive beh beh_all steps depth now w wname msg r :
  (forall fn ev, beh fn ev = []) -> (forall l ev, beh_all l ev = []) -> qm_sorted (tags r) = true -> (length (tags r) < steps)%nat ->
  onWorkerMsg_live alive beh beh_all steps depth now w wname msg r = (let '(r', e) := onWorkerMsg alive now w wname msg r in Done r' e) /\
  onWorkerEvent_live alive beh beh_all steps depth wname msg r = (let '(r', e) := onWorkerEvent wname msg r in Done r' e).
Proof.
  intros Hb Ha Hs Hl.
  assert (Nil : forall o, andThen o (fun r => Done r []) = o) by (intros [| |r' e]; cbn; by rewrite ?app_nil_r).
  assert (Hgo : forall r, acts alive beh beh_all steps depth [] r = Done r []) by (intros r'; by destruct depth).
  unfold onWorkerMsg_live, onWorkerEvent_live. cbn [acts]. rewrite !Nil. split; [by apply quiet_msg|].
  unfold onWorkerEvent. destruct msg; try done. destruct (event_quality m) as [q|]; [|done].
  rewrite (quiet_quality beh beh_all Hb Ha _ Hgo steps wname q (tags r) [] None r eq_refl).
  - unfold setWorkerQuality. by destruct (setQuality_loop wname q r (tags r)).
  - split_and!; try done. by intros k t rest ->.
  - done.
Qed.
(** If no callback subscribes, every iterator stays valid and every tag keeps its
    subscribers. *)
Theorem subscribers_stay (QO : QVariantOps) alive beh beh_all steps depth l r :
  (forall fn ev, existsb subscribes (beh fn ev) = false) -> (forall li ev, existsb subscribes (beh_all li ev) = false) ->
  existsb subscribes l = false ->
  match acts alive beh beh_all steps depth l r with
  | Undef => False
  | Done r' _ => forall name, subscribed name r' = subscribed name r
  | Fuel => True
  end.
Proof. intros Hb Ha Hl. pose proof (acts_steady alive beh beh_all Hb Ha steps depth l r Hl) as H. by destruct (acts _ _ _ _ _ _ _). Qed.
(** A callback that subscribes to the tag it is called for appends to the vector that
    [notifyTag] is walking. *)
Theorem subscribe_in_callback (QO : QVariantOps) alive beh beh_all steps depth name fn rest g r :
  subscribers (qm_get Tag_default name (tags r)) = fn :: rest -> (forall ev, beh fn ev = [ASubscribe name g]) ->
  notify_live beh beh_all (acts alive beh beh_all steps (S depth)) name r = Undef.
Proof.
  intros E Hb. unfold notify_live. set (ev := tag_event _ _). rewrite E. cbn [length notify_subscribers].
  assert (F : qm_find name (tags r) ≫= (fun t => subscribers t !! 0%nat) = Some fn).
  { unfold qm_get in E. destruct (qm_find name (tags r)); [cbn in *; by rewrite E|done]. }
  rewrite F, Hb. cbn [acts andThen told app].
  assert (N : length (subscribers (qm_get Tag_default name (tags (Subscribe name g r)))) = S (S (length rest))).
  { unfold Subscribe. cbn [set_tags tags]. rewrite get_insert, bool_decide_eq_true_2 by done. cbn [subscribers]. rewrite E, length_app. cbn. lia. }
  rewrite N, bool_decide_eq_false_2 by lia. done.
Qed.
(** A callback that makes the worker send again: the subscriber after it hears the new
    value first and the old one last, though the registry and the last signal have
    the new one. *)
Definition sample_registry : TagRegistry := Subscribe "w:a" 2 (Subscribe "w:a" 1 registry_empty).
Definition sample_beh (fn : nat) (ev : QVar) : list Act :=
  match fn, ev with
  | 1%nat, VMap m => if bool_decide (qm_find "value" m = Some (VBool false)) then [AMsg 8 0 "w" (VMap [("a", VBool true)])] else []
  | _, _ => []
  end.
Definition heard (fn : nat) (e : list TagEffect) : list QVar :=
  omap (fun x => match x with CallSubscriber f (VMap m) => if (f =? fn)%nat then qm_find "value" m else None | _ => None end) e.
Theorem stale_value_last (QO : QVariantOps) :
  match onWorkerMsg_live (fun _ => true) sample_beh (fun _ _ => []) 9 3 7 0 "w" (VMap [("a", VBool false)]) sample_registry with
  | Done r e => heard 2 e = [VBool true; VBool false] /\ shown "w:a" r = (VBool true, "good") /\ last_signal "w:a" e = Some (VBool true, "good")
  | _ => False
  end.
Proof. by vm_compute. Qed.
