(* ===== verification/LuaValues.v ===== *)
(** * Values across the Lua boundary

    Models src/src/builtin.cpp: the conversion of a [QVariant] to a Lua value
    ([glua::Push]) and back ([toQVar]), the immutable [bytes] objects, and the
    path functions [get] and [set] on tables.  The interpreter itself (Lua 5.4)
    is a library: conversions see a table as its finite tree of entries, [get]
    and [set] work on a store of tables with aliasing. *)
From stdpp Require Import countable.
From S2P Require Import Prelude QVariant Utils.

(** ** Table keys and values *)
Inductive LKey := KInt (z : Z) | KNum (bits : Z) | KStr (s : string) | KOther (id : Z).
#[export] Instance LKey_eq : EqDecision LKey. Proof. solve_decision. Defined.
#[export] Instance LKey_countable : Countable LKey.
Proof.
  refine (inj_countable' (fun k => match k with
    | KInt z => inl (inl z) | KNum b => inl (inr b) | KStr s => inr (inl s) | KOther i => inr (inr i) end)
    (fun x => match x with inl (inl z) => KInt z | inl (inr b) => KNum b | inr (inl s) => KStr s | inr (inr i) => KOther i end) _).
  by intros [].
Defined.

Inductive LTree : Type :=
| LNil
| LBool (b : bool)
| LInt (z : Z)
| LNum (bits : Z)
| LStr (s : string)
| LBytes (b : list Z)                       (* a [radapter.bytes] userdata *)
| LTable (entries : list (LKey * LTree))
| LLazy (v : QVar)                          (* a lazy view, with what it retains *)
| LFunction (f : Z)
| LWorker (w : Z)                           (* a worker's userdata *)
| LObject (q : Z)                           (* a QObjPtr *)
| LUserData (u : Z)                         (* any other userdata *)
| LOther (x : Z)                            (* threads and light userdata *)
| LShared (z : Z) (t : LTree).              (* a table a [LuaValue] refers to, as it reads *)

Definition is_nil (v : LTree) : bool := match v with LNil => true | _ => false end.
Fixpoint entry (k : LKey) (l : list (LKey * LTree)) : LTree :=
  match l with
  | [] => LNil
  | (k', v) :: l' => if bool_decide (k = k') then v else entry k l'
  end.
(** Entries given in order; a nil value stores nothing. *)
Definition add_entry (k : LKey) (v : LTree) (l : list (LKey * LTree)) : list (LKey * LTree) :=
  if is_nil v then l else (k, v) :: l.

(** What is seen of a value by [lua_type] and what follows. *)
Fixpoint seen (v : LTree) : LTree := match v with LShared _ t => seen t | _ => v end.

(** What the code relies on of Qt's and C's conversions, and the state of the
    program a conversion looks at. *)
Class LuaOps := {
  float_to_double : Z -> Z;              (* double(float), on bit patterns *)
  u64_to_double : Z -> Z;                (* double(qulonglong) *)
  utf8_ok : string -> bool;              (* QStringDecoder found no error *)
  utf8_lossy : string -> string;         (* QString::fromUtf8 of invalid input *)
  number_key : Z -> string;              (* QString::number(double) *)
  object_pointer : string -> bool;       (* a metatype of pointers to a class derived from QObject *)
  alive : Z -> bool;                     (* the QPointer of an object is not null *)
  registry : Z -> LTree;                 (* what the registry holds for a LuaValue *)
  closure : Z -> Z                       (* the closure of [wrapFunc] over an ExtraFunction *)
}.

Section convert.
Context `{LO : LuaOps}.

(** ** [Push] *)

(** [convert]ible to [QObject*]. *)
Definition object_type (ty : string) : bool :=
  (bool_decide (ty = "QObject*") || bool_decide (ty = "radapter::Worker*") || object_pointer ty)%bool.
(** A value of another metatype: the small integers of the switch, then its
    default case; a null pointer or an empty handle is 0, and an object pointer is
    taken to be valid, as the code takes it.  ([LazyNode] is [lazy_Push] of the
    file [Lazy].) *)
Definition Push_opaque (ty : string) (z : Z) : LTree :=
  if bool_decide (ty = "signed char" \/ ty = "short") then LInt z
  else if bool_decide (ty = "uchar" \/ ty = "ushort") then LInt z
  else if (bool_decide (ty = "radapter::LuaFunction") && negb (z =? 0))%bool then LFunction z
  else if (bool_decide (ty = "radapter::ExtraFunctionPtr") && negb (z =? 0))%bool then LFunction (closure z)
  else if (bool_decide (ty = "radapter::LuaValue") && negb (z =? 0))%bool then
    match registry z with LTable l => LShared z (LTable l) | t => t end
  else if (object_type ty && negb (z =? 0))%bool then LObject z
  else LNil.
Fixpoint push_list (Push : QVar -> LTree) (l : list QVar) (i : Z) : list (LKey * LTree) :=
  match l with
  | [] => []
  | v :: l' => add_entry (KInt i) (Push v) (push_list Push l' (i + 1))
  end.
Fixpoint Push (val : QVar) : LTree :=
  match val with
  | VMap m => LTable ((fix go m := match m with
                                   | [] => []
                                   | (k, v) :: m' => add_entry (KStr k) (Push v) (go m')
                                   end) m)
  | VList l => LTable (push_list Push l 1)
  | VBool b => LBool b
  | VChar s => LStr s
  | VInt z => LInt z
  | VUInt z => LInt z
  | VLongLong z => LInt z
  | VULongLong v => if 2 ^ 63 - 1 <? v then LNum (u64_to_double v) else LInt v
  | VFloat f => LNum (float_to_double f)
  | VDouble d => LNum d
  | VString s => LStr s
  | VBytes b => LBytes b
  | VStringList l => LTable (imap (fun i s => (KInt (Z.of_nat i + 1), LStr s)) l)
  | VInvalid => LNil
  | VOpaque ty z => Push_opaque ty z
  end.

(** ** [toQVar] *)
Definition toStrOrBinary (s : string) : QVar := if utf8_ok s then VString s else VBytes (bytes_of_string s).
Definition key_string (k : LKey) : option string :=
  match k with
  | KStr s => Some (if utf8_ok s then s else utf8_lossy s)
  | KInt i => Some (if i <? 0 then ("-" +:+ to_string (- i)) else to_string i)
  | KNum b => Some (number_key b)
  | KOther _ => None
  end.
Section table.
Variable toQVar : LTree -> QVar.
Fixpoint table_object (l : list (LKey * LTree)) (map : list (string * QVar)) : list (string * QVar) :=
  match l with
  | [] => map
  | (k, v) :: l' =>
      match key_string k with
      | None => table_object l' map
      | Some s => table_object l' (qm_insert s (toQVar v) map)
      end
  end.
(** Elements from index [i] while present; [n] bounds their number. *)
Fixpoint table_array (n : nat) (l : list (LKey * LTree)) (i : Z) : list QVar :=
  match n with
  | O => []
  | S n =>
      let v := entry (KInt i) l in
      if is_nil v then [] else toQVar v :: table_array n l (i + 1)
  end.
End table.
(** [stack] is the depth for which [lua_checkstack] succeeds. *)
Fixpoint toQVar (stack : nat) (v : LTree) : QVar :=
  match seen v with
  | LTable l =>
      match stack with
      | O => VInvalid
      | S stack =>
          if is_nil (entry (KInt 1) l) then VMap (table_object (toQVar stack) l [])
          else VList (table_array (toQVar stack) (length l) l 1)
      end
  | LStr s => toStrOrBinary s
  | LBool b => VBool b
  | LInt z => VLongLong z
  | LNum d => VDouble d
  | LLazy r => r
  | LBytes b => VBytes b
  | LFunction f => VOpaque "radapter::LuaFunction" f
  | LWorker w => if alive w then VOpaque "radapter::Worker*" w else VInvalid
  | LObject q => if alive q then VOpaque "QObject*" q else VInvalid
  | LUserData u => VOpaque "radapter::LuaUserData" u
  | LOther _ | LNil | LShared _ _ => VInvalid
  end.
Definition toArgs (stack : nat) (args : list LTree) (from : nat) : list QVar :=
  map (toQVar stack) (drop (from - 1) args).
End convert.

(** ** [bytes] objects *)
Section bytes.
Definition hex_digit (d : Z) : ascii :=
  ascii_of_N (Z.to_N (if d <? 10 then 48 + d else 87 + d)).
Definition hex2 (b : Z) : string := String (hex_digit (b / 16)) (String (hex_digit (b mod 16)) "").
Definition bytesRepr (b : list Z) : string :=
  let res := (("bytes[" +:+ to_string (Z.of_nat (length b))) +:+ "]") in
  match b with
  | [] => res
  | _ =>
      let shown := take (Nat.min (length b) 32) b in
      let res := fold_left (fun acc x => acc +:+ (" " +:+ hex2 x)) shown (res +:+ ":") in
      if bool_decide (32 < length b)%nat then res +:+ " .." else res
  end.
Fixpoint reprBinaries (v : QVar) : QVar :=
  match v with
  | VBytes b => VString (bytesRepr b)
  | VMap m => VMap (map (fun kv => (kv.1, reprBinaries kv.2)) m)
  | VList l => VList (map reprBinaries l)
  | _ => v
  end.
Definition bytesHex (b : list Z) : string := fold_left (fun acc x => acc +:+ hex2 x) b "".
Definition bytesSize (b : list Z) : Z := Z.of_nat (length b).
Definition bytesPos (i size : Z) : Z := if i <? 0 then size + i else i - 1.
(** [None]: no result is returned. *)
Definition bytesByte (b : list Z) (i : option Z) : option Z :=
  let pos := bytesPos (default 1 i) (bytesSize b) in
  if ((pos <? 0) || (bytesSize b <=? pos))%bool then None else b !! Z.to_nat pos.
(** [QByteArray::mid] with a non-negative position and length. *)
Definition bytesSub (b : list Z) (i j : option Z) : list Z :=
  let i := Z.max (bytesPos (default 1 i) (bytesSize b)) 0 in
  let j := Z.min (bytesPos (default (-1) j) (bytesSize b)) (bytesSize b - 1) in
  if j <? i then [] else take (Z.to_nat (j - i + 1)) (drop (Z.to_nat i) b).
Definition bytesEq (a b : LTree) : bool :=
  match a, b with LBytes x, LBytes y => bool_decide (x = y) | _, _ => false end.
Definition concatOperand (v : LTree) : res (list Z) :=
  match v with
  | LBytes b => Ok b
  | LStr s => Ok (bytes_of_string s)
  | _ => Raise "cannot concatenate bytes"
  end.
Definition bytesConcat (a b : LTree) : res (list Z) :=
  let* x := concatOperand a in let* y := concatOperand b in Ok (x ++ y).
Definition bytesNewIndex : res unit := Raise "bytes are immutable".

(** [bytes(...)]: [integral] is the integer value of a number that has one,
    [coerced] the number a string spells ([lua_isnumber] accepts both). *)
Context (integral : Z -> option Z) (coerced : string -> option Z).
Definition byte_item (v : LTree) : res Z :=
  let n := match v with LInt z => Some z | LNum d => integral d | LStr s => coerced s | _ => None end in
  match n with
  | Some z => if ((z <? 0) || (255 <? z))%bool then Raise "item is not a byte" else Ok z
  | None => Raise "item is not a byte"
  end.
Fixpoint bytes_loop (n : nat) (l : list (LKey * LTree)) (i : Z) (b : list Z) : res (list Z) :=
  match n with
  | O => Ok b
  | S n =>
      let v := entry (KInt i) l in
      if is_nil v then Ok b else let* x := byte_item v in bytes_loop n l (i + 1) (b ++ [x])
  end.
Definition Bytes (arg : LTree) : res (list Z) :=
  match seen arg with
  | LNil => Ok []
  | LStr s => Ok (bytes_of_string s)
  | LTable l => bytes_loop (S (length l)) l 1 []
  | LBytes b => Ok b
  | _ => Raise "bytes(): cannot convert"
  end.
End bytes.

(** ** Paths *)

(** [find(sep, pos)]. *)
Fixpoint str_prefix (p s : string) : bool :=
  match p, s with
  | EmptyString, _ => true
  | String c p', String d s' => (bool_decide (c = d) && str_prefix p' s')%bool
  | _, EmptyString => false
  end.
Fixpoint find_in (sep s : string) : option nat :=
  if str_prefix sep s then Some O
  else match s with EmptyString => None | String _ s' => S <$> find_in sep s' end.
Fixpoint drop_str (n : nat) (s : string) : string :=
  match n, s with O, _ => s | S n, String _ s' => drop_str n s' | _, EmptyString => EmptyString end.

(** [Sep]: absent or nil is [":"]. *)
Definition Sep (arg : option string) : res string :=
  match arg with
  | None => Ok ":"
  | Some "" => Raise "empty 'sep' parameter"
  | Some s => Ok s
  end.

(** [PushPathPart]. *)
Definition PushPathPart (part : string) : LKey :=
  let n := tryInt part in if n <? 0 then KStr part else KInt n.

(** The parts the loops of [Get] and [Set] visit: [first] is whether the
    position is zero (a separator there is skipped). *)
Fixpoint path_loop (fuel : nat) (sep rest : string) (first : bool) : list string :=
  match fuel with
  | O => []
  | S fuel =>
      match find_in sep rest with
      | None => [rest]
      | Some p =>
          let next := drop_str (p + String.length sep) rest in
          if (first && bool_decide (p = O))%bool then path_loop fuel sep next false
          else str_take p rest :: path_loop fuel sep next false
      end
  end.
Definition path_parts (sep k : string) : list string := path_loop (S (String.length k)) sep k true.

(** The store of tables. *)
Inductive LRef :=
| RNil
| RTab (a : nat)
| RVal (v : LTree)                          (* anything else *)
| RView (root : nat) (path : list LKey) (value : QVar).   (* a lazy view: see [Lazy] *)
Notation heap := (gmap nat (gmap LKey LRef)).
Definition ub_rawget : string := "undefined behaviour: lua_rawget on a value that is not a table".

Definition rawget (h : heap) (t : LRef) (k : LKey) : res LRef :=
  match t with
  | RTab a => Ok (match h !! a with Some tab => default RNil (tab !! k) | None => RNil end)
  | _ => Raise ub_rawget
  end.
Definition rawset (h : heap) (a : nat) (k : LKey) (v : LRef) : heap :=
  let tab := default ∅ (h !! a) in
  <[a := match v with RNil => delete k tab | _ => <[k := v]> tab end]> h.

Fixpoint get_loop (h : heap) (cur : LRef) (parts : list string) : res LRef :=
  match parts with
  | [] => Ok cur
  | part :: parts' =>
      let* v := rawget h cur (PushPathPart part) in
      match v, parts' with
      | RNil, _ => Ok RNil
      | _, [] => Ok v
      | _, _ => get_loop h v parts'
      end
  end.
Definition Get (h : heap) (root : nat) (k : string) (sep : option string) : res LRef :=
  let* sep := Sep sep in
  if (bool_decide (k = "") || bool_decide (k = sep))%bool then Ok (RTab root)
  else get_loop h (RTab root) (path_parts sep k).

Definition fresh_table (h : heap) : nat := fresh (dom h).
Fixpoint set_loop (h : heap) (cur : nat) (parts : list string) (v : LRef) : heap :=
  match parts with
  | [] => h
  | [part] => rawset h cur (PushPathPart part) v
  | part :: parts' =>
      let tab := default ∅ (h !! cur) in
      match default RNil (tab !! PushPathPart part) with
      | RTab a => set_loop h a parts' v
      | _ =>
          let n := fresh_table h in
          set_loop (rawset (<[n := ∅]> h) cur (PushPathPart part) (RTab n)) n parts' v
      end
  end.
Definition Set_ (h : heap) (root : nat) (k : string) (v : LRef) (sep : option string) : res (heap * LRef) :=
  let* sep := Sep sep in
  if (bool_decide (k = "") || bool_decide (k = sep))%bool then Ok (h, RTab root)
  else Ok (set_loop h root (path_parts sep k) v, RTab root).

(** ** Lemmas on conversion *)
Section conversion_facts.
Context `{LO : LuaOps}.

(** What comes back of a value of another metatype: the small integers are
    64-bit, an extra function is the closure around it, an object pointer of any
    class is a [QObject*] while its object lives, and everything else is null. *)
Definition opaque_norm (ty : string) (z : Z) : QVar :=
  if bool_decide (ty = "signed char" \/ ty = "uchar" \/ ty = "short" \/ ty = "ushort") then VLongLong z
  else if z =? 0 then VInvalid
  else if bool_decide (ty = "radapter::LuaFunction") then VOpaque "radapter::LuaFunction" z
  else if bool_decide (ty = "radapter::ExtraFunctionPtr") then VOpaque "radapter::LuaFunction" (closure z)
  else if (object_type ty && alive z)%bool then VOpaque "QObject*" z
  else VInvalid.
(** The value Lua hands back: integers as 64-bit, numbers as doubles, an empty
    list indistinguishable from an empty map. *)
Fixpoint lua_norm (v : QVar) : QVar :=
  match v with
  | VInt z | VUInt z | VLongLong z => VLongLong z
  | VULongLong z => if 2 ^ 63 - 1 <? z then VDouble (u64_to_double z) else VLongLong z
  | VFloat f => VDouble (float_to_double f)
  | VChar s => VString s
  | VStringList [] | VList [] => VMap []
  | VStringList l => VList (map VString l)
  | VList l => VList (map lua_norm l)
  | VMap m => VMap (map (fun kv => (kv.1, lua_norm kv.2)) m)
  | VOpaque ty z => opaque_norm ty z
  | VInvalid | VBool _ | VDouble _ | VString _ | VBytes _ => v
  end.
(** No holes: every string is text, no list or map holds what is pushed as nil;
    no [LuaValue], which comes back as what it refers to. *)
Definition present (v : QVar) : bool := negb (is_nil (Push v)).
Fixpoint lua_plain (v : QVar) : bool :=
  match v with
  | VString s | VChar s => utf8_ok s
  | VStringList l => forallb utf8_ok l
  | VList l => forallb (fun x => (present x && lua_plain x)%bool) l
  | VMap m => (qm_sorted m && forallb (fun kv => (utf8_ok kv.1 && present kv.2 && lua_plain kv.2)%bool) m)%bool
  | VOpaque ty _ => negb (bool_decide (ty = "radapter::LuaValue"))
  | _ => true
  end.
Fixpoint depth (v : QVar) : nat :=
  match v with
  | VList l => S (foldr (fun x n => Nat.max (depth x) n) O l)
  | VMap m => S (foldr (fun kv n => Nat.max (depth kv.2) n) O m)
  | VStringList _ => 1%nat
  | _ => O
  end.

Lemma Push_nil v : is_nil (Push v) = negb (present v).
Proof. unfold present. by rewrite negb_involutive. Qed.
Lemma seen_Push v : seen (Push v) = match v with VOpaque ty z => seen (Push_opaque ty z) | _ => Push v end.
Proof. destruct v; try done. simpl. by case_match. Qed.
Lemma opaque_roundtrip stack ty z : ty <> "radapter::LuaValue" ->
  toQVar stack (Push_opaque ty z) = opaque_norm ty z.
Proof.
  intros Hty. unfold Push_opaque, opaque_norm.
  destruct (decide (ty = "signed char" \/ ty = "short")) as [E|E1].
  { rewrite bool_decide_eq_true_2 by done. rewrite bool_decide_eq_true_2 by tauto. by destruct stack. }
  rewrite bool_decide_eq_false_2 by done. destruct (decide (ty = "uchar" \/ ty = "ushort")) as [E|E2].
  { rewrite bool_decide_eq_true_2 by done. rewrite bool_decide_eq_true_2 by tauto. by destruct stack. }
  rewrite bool_decide_eq_false_2 by done. rewrite (bool_decide_eq_false_2 (_ \/ _)) by tauto.
  rewrite (bool_decide_eq_false_2 (ty = "radapter::LuaValue")) by done. cbn [andb].
  destruct (z =? 0); cbn [negb]; rewrite ?andb_false_r, ?andb_true_r; [by destruct stack|].
  case_bool_decide; [by destruct stack|]. case_bool_decide; [by destruct stack|].
  destruct (object_type ty); cbn [andb]; [|by destruct stack]. destruct stack; cbn; by case_match.
Qed.

Lemma push_list_entry l : forall i j, forallb present l = true ->
  entry (KInt j) (push_list Push l i) =
    (if ((i <=? j) && (j <? i + Z.of_nat (length l)))%bool then Push (default VInvalid (l !! Z.to_nat (j - i))) else LNil).
Proof.
  induction l as [|x l IH]; intros i j; cbn [push_list forallb length].
  { intros _. destruct (Z.leb_spec i j), (Z.ltb_spec j (i + Z.of_nat 0)); simpl; done || lia. }
  intros [Hx Hl]%andb_true_iff. unfold add_entry. rewrite Push_nil, Hx. cbn [negb entry].
  case_bool_decide as E.
  - injection E as ->. rewrite Z.leb_refl, (proj2 (Z.ltb_lt _ _)), Z.sub_diag by lia. done.
  - assert (j <> i) by congruence. rewrite (IH (i + 1) j Hl).
    destruct (Z.leb_spec (i + 1) j), (Z.leb_spec i j); simpl; try lia; [|done].
    destruct (Z.ltb_spec j (i + 1 + Z.of_nat (length l))), (Z.ltb_spec j (i + Z.of_nat (S (length l)))); try lia; [|done].
    replace (Z.to_nat (j - i)) with (S (Z.to_nat (j - (i + 1)))) by lia. done.
Qed.
Lemma push_list_length l i : forallb present l = true -> length (push_list Push l i) = length l.
Proof.
  revert i. induction l as [|x l IH]; intros i; [done|]. simpl. intros [Hx Hl]%andb_true_iff.
  unfold add_entry. rewrite Push_nil, Hx. simpl. by rewrite IH.
Qed.
Lemma table_array_list (f : LTree -> QVar) (g : QVar -> QVar) tab l : forall n i,
  (forall x, x ∈ l -> f (Push x) = g x) -> forallb present l = true -> (length l <= n)%nat ->
  (forall j, entry (KInt (i + Z.of_nat j)) tab = Push (default VInvalid (l !! j))) ->
  table_array f n tab i = map g l.
Proof.
  induction l as [|x l IH]; intros n i Hf Hv Hn Htab.
  - destruct n as [|n]; [done|]. cbn [table_array]. pose proof (Htab O) as H. rewrite Z.add_0_r in H. by rewrite H.
  - destruct n as [|n]; [simpl in Hn; lia|]. cbn [table_array]. pose proof (Htab O) as H. rewrite Z.add_0_r in H.
    simpl in H, Hv. apply andb_true_iff in Hv as [Hx Hv]. rewrite H, Push_nil, Hx. cbn [negb map].
    rewrite Hf by left. f_equal. apply IH; [intros; apply Hf; by right|done|simpl in Hn; lia|].
    intros j. specialize (Htab (S j)). by replace (i + 1 + Z.of_nat j) with (i + Z.of_nat (S j)) by lia.
Qed.

Lemma shared_roundtrip stack z : z <> 0 ->
  toQVar stack (Push_opaque "radapter::LuaValue" z) = toQVar stack (registry z).
Proof.
  intros Hz%Z.eqb_neq. unfold Push_opaque. rewrite Hz. cbn. destruct (registry z); by destruct stack.
Qed.
Arguments Push_opaque : simpl never.
Arguments opaque_norm : simpl never.
Lemma lua_roundtrip_value v : lua_plain v = true -> forall stack, (depth v <= stack)%nat ->
  toQVar stack (Push v) = lua_norm v.
Proof.
  induction v as [v Hleaf|l IH|m IH] using QVar_tree_ind.
  - destruct v; try done; simpl; intros Hp stack Hd; try (by destruct stack); try (by destruct stack; simpl; unfold toStrOrBinary; rewrite Hp).
    + case_match; by destruct stack.
    + destruct stack as [|stack]; [lia|]. destruct l as [|s l]; [done|].
      set (strs := s :: l) in *. cbn [toQVar seen].
      assert (is_nil (entry (KInt 1) (imap (fun i s => (KInt (Z.of_nat i + 1), LStr s)) strs)) = false) as -> by done.
      f_equal.
      assert (forall n i, (length strs <= n)%nat ->
        (forall j, entry (KInt (i + Z.of_nat j)) (imap (fun i s => (KInt (Z.of_nat i + 1), LStr s)) strs)
           = match strs !! j with Some x => LStr x | None => LNil end) ->
        table_array (toQVar stack) n (imap (fun i s => (KInt (Z.of_nat i + 1), LStr s)) strs) i = map VString strs) as H.
      { generalize (imap (fun i s => (KInt (Z.of_nat i + 1), LStr s)) strs) as tab. clear Hleaf Hd. revert Hp.
        generalize strs. clear. intros ss. induction ss as [|x ss IH]; intros Hp tab n i Hn Htab.
        - destruct n; [done|]. cbn [table_array]. pose proof (Htab O) as H. rewrite Z.add_0_r in H. by rewrite H.
        - destruct n as [|n]; [simpl in Hn; lia|]. cbn [table_array]. pose proof (Htab O) as H. rewrite Z.add_0_r in H.
          simpl in H. rewrite H. cbn [is_nil map]. simpl in Hp. apply andb_true_iff in Hp as [Hx Hp]. f_equal.
          + destruct stack; simpl; unfold toStrOrBinary; by rewrite Hx.
          + apply IH; [done|simpl in Hn; lia|]. intros j. specialize (Htab (S j)).
            by replace (i + 1 + Z.of_nat j) with (i + Z.of_nat (S j)) by lia. }
      apply H; [by rewrite length_imap|]. intros j. clear.
      assert (forall k, entry (KInt (1 + Z.of_nat k + Z.of_nat j)) (imap (fun i s => (KInt (Z.of_nat (k + i) + 1), LStr s)) strs)
        = match strs !! j with Some x => LStr x | None => LNil end) as H.
      { clearbody strs. clear. revert j. induction strs as [|x ss IH]; intros j k; [done|]. cbn [imap entry].
        destruct j as [|j].
        - rewrite bool_decide_eq_true_2; [done|]. f_equal. lia.
        - rewrite bool_decide_eq_false_2 by (intros [= ?]; lia). simpl lookup.
          specialize (IH j (S k)). rewrite <- IH. f_equal; [f_equal; lia|]. apply imap_ext. intros i y _. simpl.
          do 2 f_equal. lia. }
      exact (H O).
    + apply opaque_roundtrip. by apply negb_true_iff, bool_decide_eq_false in Hp.
  - cbn [lua_plain depth Push]. intros Hp [|stack] Hd; [lia|]. cbn [toQVar seen].
    assert (forallb present l = true) as Hv.
    { clear -Hp. induction l as [|x l IH]; [done|]. simpl in *. bool_to_prop. by rewrite H, IH. }
    rewrite (push_list_entry l 1 1 Hv). destruct l as [|x l]; [done|].
    rewrite Z.leb_refl, (proj2 (Z.ltb_lt _ _)) by (simpl; lia). cbn [andb].
    change (default VInvalid ((x :: l) !! Z.to_nat (1 - 1))) with x. rewrite Push_nil.
    cbn [forallb] in Hv. apply andb_true_iff in Hv as [Hx Hl]. rewrite Hx. cbn [negb].
    cbn [lua_norm]. f_equal. apply (table_array_list _ lua_norm).
    + intros y Hy. rewrite Forall_forall in IH. apply (IH y Hy).
      * clear -Hp Hy. rewrite forallb_forall in Hp. specialize (Hp y (proj1 (list_elem_of_In _ _) Hy)). by bool_to_prop.
      * apply le_S_n. etransitivity; [|exact Hd]. apply le_n_S. clear -Hy.
        induction (x :: l) as [|z k IHk]; [by apply elem_of_nil in Hy|]. simpl.
        apply elem_of_cons in Hy as [->|Hy]; [lia|]. specialize (IHk Hy). lia.
    + simpl. by rewrite Hx, Hl.
    + by rewrite push_list_length by (simpl; by rewrite Hx).
    + intros j. rewrite push_list_entry by (simpl; by rewrite Hx).
      rewrite (proj2 (Z.leb_le _ _)) by lia. replace (Z.to_nat (1 + Z.of_nat j - 1)) with j by lia.
      destruct (Z.ltb_spec (1 + Z.of_nat j) (1 + Z.of_nat (length (x :: l)))) as [|Hge]; [done|]. cbn [andb].
      rewrite lookup_ge_None_2 by lia. done.
  - cbn [lua_plain depth Push lua_norm]. intros [Hs Hp]%andb_true_iff [|stack] Hd; [lia|].
    match goal with |- toQVar _ (LTable (?f m)) = _ => set (go := f) end.
    assert (forall m', (forall kv, kv ∈ m' -> kv ∈ m) -> go m' = map (fun kv => (KStr kv.1, Push kv.2)) m') as Hgo.
    { intros m' Hsub. induction m' as [|[k v] m' IHm]; [done|]. cbn [go map fst snd]. unfold add_entry. rewrite Push_nil.
      assert (present v = true) as ->.
      { rewrite forallb_forall in Hp. specialize (Hp (k, v) (proj1 (list_elem_of_In _ _) (Hsub _ ltac:(left)))). by bool_to_prop. }
      cbn [negb]. f_equal. apply IHm. intros. apply Hsub. by right. }
    rewrite Hgo by done. cbn [toQVar seen].
    assert (entry (KInt 1) (map (fun kv => (KStr kv.1, Push kv.2)) m) = LNil) as ->.
    { clear. induction m as [|[k v] m IH]; [done|]. simpl. done. }
    cbn [is_nil]. f_equal.
    assert (forall acc m', (forall kv, kv ∈ m' -> kv ∈ m) -> qm_sorted m' = true ->
      Forall (fun kv => qm_above kv.1 m' = true) acc ->
      table_object (toQVar stack) (map (fun kv => (KStr kv.1, Push kv.2)) m') acc
      = acc ++ map (fun kv => (kv.1, lua_norm kv.2)) m') as H.
    { intros acc m'. revert acc. induction m' as [|[k v] m' IHm]; intros acc Hsub Hsort Hacc; [by rewrite app_nil_r|].
      cbn [map table_object key_string fst snd]. rewrite forallb_forall in Hp.
      pose proof (Hsub (k, v) ltac:(left)) as Hin. pose proof (Hp _ (proj1 (list_elem_of_In _ _) Hin)) as Hkv.
      simpl in Hkv. apply andb_true_iff in Hkv as [Hkv Hpl]. apply andb_true_iff in Hkv as [Hutf _]. rewrite Hutf.
      simpl in Hsort. apply andb_true_iff in Hsort as [Ha Hsort].
      rewrite Forall_forall in IH. pose proof (IH (k, v) Hin Hpl stack) as Hv. cbn [snd] in Hv. rewrite Hv.
      2: { apply le_S_n. etransitivity; [|exact Hd]. apply le_n_S. clear -Hin.
           induction m as [|z l IHl]; [by apply elem_of_nil in Hin|]. simpl.
           apply elem_of_cons in Hin as [<-|Hin]; [simpl; lia|]. specialize (IHl Hin). lia. }
      rewrite qm_insert_last.
      - rewrite IHm; [by rewrite <- app_assoc|intros; apply Hsub; by right|done|].
        apply Forall_app. split; [|by apply Forall_cons]. eapply Forall_impl; [exact Hacc|].
        intros [? ?]; simpl. rewrite andb_true_iff. tauto.
      - clear -Hacc. induction Hacc as [|[a b] acc Hx _ IH]; [done|]. simpl in *.
        apply andb_true_iff in Hx as [-> _]. by rewrite IH. }
    by rewrite (H [] m).
Qed.
End conversion_facts.

(** ** Lemmas on paths *)

(** The tables [set] passes through (those it creates excepted). *)
Fixpoint walk (h : heap) (cur : nat) (parts : list string) : list nat :=
  match parts with
  | [] => []
  | [_] => [cur]
  | part :: parts' =>
      cur :: match default RNil (default ∅ (h !! cur) !! PushPathPart part) with
             | RTab a => walk h a parts'
             | _ => []
             end
  end.
(** Every reference leads to a table of the store. *)
Definition heap_ok (h : heap) : Prop :=
  forall a tab k b, h !! a = Some tab -> tab !! k = Some (RTab b) -> is_Some (h !! b).

Lemma rawset_ne h a k v b : b <> a -> rawset h a k v !! b = h !! b.
Proof. intros. unfold rawset. by apply lookup_insert_ne. Qed.
Lemma rawset_eq h a k v : rawset h a k v !! a =
  Some (match v with RNil => delete k (default ∅ (h !! a)) | _ => <[k := v]> (default ∅ (h !! a)) end).
Proof. unfold rawset. apply lookup_insert_eq. Qed.
Lemma fresh_table_None (h : heap) : h !! fresh_table h = None.
Proof. apply not_elem_of_dom. unfold fresh_table. apply is_fresh. Qed.
Lemma rawget_rawset h a k v : rawget (rawset h a k v) (RTab a) k = Ok v.
Proof. unfold rawget. rewrite rawset_eq. destruct v; [by rewrite lookup_delete_eq|by rewrite lookup_insert_eq..]. Qed.

Definition created (h : heap) (cur : nat) (part : string) : heap :=
  rawset (<[fresh_table h := ∅]> h) cur (PushPathPart part) (RTab (fresh_table h)).
Lemma created_ok h cur part : heap_ok h -> is_Some (h !! cur) -> heap_ok (created h cur part).
Proof.
  intros Hh [tab0 Hc] a tab k b. unfold created. pose proof (fresh_table_None h) as Hn.
  generalize dependent (fresh_table h). intros n Hn. assert (n <> cur) as Hne by congruence.
  assert (forall x, is_Some (h !! x) \/ x = n -> is_Some (rawset (<[n:=∅]> h) cur (PushPathPart part) (RTab n) !! x)) as Hdom.
  { intros x Hx. destruct (decide (x = cur)) as [->|]; [rewrite rawset_eq; eauto|rewrite rawset_ne by done].
    destruct (decide (x = n)) as [->|]; [rewrite lookup_insert_eq; eauto|rewrite lookup_insert_ne by done].
    destruct Hx; done. }
  destruct (decide (a = cur)) as [->|].
  - rewrite rawset_eq, lookup_insert_ne, Hc by done. intros [= <-]. cbn [default from_option].
    destruct (decide (PushPathPart part = k)) as [<-|]; [rewrite lookup_insert_eq; intros [= <-]; apply Hdom; by right|].
    rewrite lookup_insert_ne by done. intros. apply Hdom. left. eapply Hh; eassumption.
  - rewrite rawset_ne by done. destruct (decide (a = n)) as [->|].
    + rewrite lookup_insert_eq. intros [= <-]. by rewrite lookup_empty.
    + rewrite lookup_insert_ne by done. intros. apply Hdom. left. eapply Hh; eassumption.
Qed.

Lemma set_loop_last h cur part v : set_loop h cur [part] v = rawset h cur (PushPathPart part) v.
Proof. done. Qed.
Lemma set_loop_step h cur part p2 parts v tab : h !! cur = Some tab ->
  set_loop h cur (part :: p2 :: parts) v =
  match default RNil (tab !! PushPathPart part) with
  | RTab a => set_loop h a (p2 :: parts) v
  | _ => set_loop (created h cur part) (fresh_table h) (p2 :: parts) v
  end.
Proof. intros E. cbn [set_loop]. rewrite E. done. Qed.
Lemma walk_step h cur part p2 parts tab : h !! cur = Some tab ->
  walk h cur (part :: p2 :: parts) = cur ::
  match default RNil (tab !! PushPathPart part) with
  | RTab a => walk h a (p2 :: parts)
  | _ => []
  end.
Proof. intros E. cbn [walk]. rewrite E. done. Qed.

Lemma walk_fresh h n p parts : h !! n = Some ∅ -> walk h n (p :: parts) = [n].
Proof. intros E. destruct parts; [done|]. rewrite (walk_step _ _ _ _ _ _ E). by rewrite lookup_empty. Qed.

(** [set] changes only tables it passes through and tables it creates. *)
Lemma set_loop_other parts : forall h cur v b, parts <> [] -> heap_ok h -> is_Some (h !! cur) -> is_Some (h !! b) ->
  b ∉ walk h cur parts -> set_loop h cur parts v !! b = h !! b.
Proof.
  induction parts as [|part parts IH]; intros h cur v b Hne Hh Hc Hb Hni; [done|].
  destruct parts as [|p2 parts].
  { rewrite set_loop_last. apply rawset_ne. by apply not_elem_of_cons in Hni as [? _]. }
  pose proof Hc as [tab Hc']. rewrite (set_loop_step _ _ _ _ _ _ _ Hc'). rewrite (walk_step _ _ _ _ _ _ Hc') in Hni.
  apply not_elem_of_cons in Hni as [Hbc Hni].
  assert (b <> fresh_table h) as Hbf by (intros ->; rewrite fresh_table_None in Hb; by destruct Hb).
  assert (forall v', set_loop (created h cur part) (fresh_table h) (p2 :: parts) v' !! b = h !! b) as Hnew.
  { intros v'. assert (is_Some (created h cur part !! b)) as Hb'.
    { unfold created. rewrite rawset_ne, lookup_insert_ne by done. done. }
    assert (fresh_table h <> cur) as Hfc by (intros E; pose proof (fresh_table_None h); congruence).
    assert (created h cur part !! fresh_table h = Some ∅) as Hf.
    { unfold created. rewrite rawset_ne by done. apply lookup_insert_eq. }
    rewrite IH; [|done|by apply created_ok|eauto|done|].
    - unfold created. by rewrite rawset_ne, lookup_insert_ne by done.
    - rewrite walk_fresh by done. by rewrite list_elem_of_singleton. }
  destruct (tab !! PushPathPart part) as [[|a|x|? ? ?]|] eqn:Er; [apply Hnew| |apply Hnew..].
  apply IH; [done|done| |done|done]. by eapply Hh.
Qed.

Lemma get_set_loop parts : forall h cur v, parts <> [] -> heap_ok h -> is_Some (h !! cur) ->
  NoDup (walk h cur parts) -> get_loop (set_loop h cur parts v) (RTab cur) parts = Ok v.
Proof.
  induction parts as [|part parts IH]; intros h cur v Hne Hh Hc Hnd; [done|].
  destruct parts as [|p2 parts].
  { rewrite set_loop_last. cbn [get_loop]. rewrite rawget_rawset. by destruct v. }
  pose proof Hc as [tab Hc']. rewrite (set_loop_step _ _ _ _ _ _ _ Hc'). rewrite (walk_step _ _ _ _ _ _ Hc') in Hnd.
  apply NoDup_cons in Hnd as [Hni Hnd].
  assert (get_loop (set_loop (created h cur part) (fresh_table h) (p2 :: parts) v) (RTab cur) (part :: p2 :: parts) = Ok v) as Hnew.
  { assert (fresh_table h <> cur) as Hfc by (intros E; pose proof (fresh_table_None h); congruence).
    assert (created h cur part !! fresh_table h = Some ∅) as Hf.
    { unfold created. rewrite rawset_ne by done. apply lookup_insert_eq. }
    assert (walk (created h cur part) (fresh_table h) (p2 :: parts) = [fresh_table h]) as Hw.
    { by apply walk_fresh. }
    cbn [get_loop]. unfold rawget. rewrite set_loop_other; [|done|by apply created_ok|eauto| |].
    - unfold created at 1. rewrite rawset_eq, lookup_insert_eq. cbn [default from_option res_bind].
      apply (IH (created h cur part)); [done|by apply created_ok|eauto|]. rewrite Hw. apply NoDup_singleton.
    - unfold created. rewrite rawset_eq. eauto.
    - rewrite Hw, list_elem_of_singleton. done. }
  destruct (tab !! PushPathPart part) as [[|a|x|? ? ?]|] eqn:Er; [apply Hnew| |apply Hnew..].
  cbn [default from_option id] in *. assert (is_Some (h !! a)) as Ha by (by eapply Hh).
  cbn [get_loop]. unfold rawget. rewrite set_loop_other by (done || eauto). rewrite Hc'. cbn [default from_option res_bind].
  rewrite Er. cbn [default from_option id]. by apply (IH h a v).
Qed.
Lemma path_parts_nonempty sep k : k <> "" -> path_parts sep k <> [].
Proof.
  unfold path_parts. destruct k as [|c k]; [done|]. intros _. cbn [String.length].
  remember (String c k) as r eqn:E. clear E c. revert r. generalize (String.length k). intros n r. cbn [path_loop].
  destruct (find_in sep r) as [p|]; [|done]. destruct (true && _)%bool; [|done].
  destruct (find_in sep _) as [q|]; [|done]. done.
Qed.

(** ** Lemmas on [bytes] *)
Lemma bytesSub_prefix b k : 0 <= k <= bytesSize b -> bytesSub b None (Some k) = take (Z.to_nat k) b.
Proof.
  unfold bytesSub, bytesPos, bytesSize. intros Hk. cbn [default from_option id].
  change (1 <? 0) with false. cbn iota. change (1 - 1) with 0. rewrite Z.max_id.
  rewrite (proj2 (Z.ltb_ge k 0)), Z.min_l by lia. destruct (Z.ltb_spec (k - 1) 0).
  - by replace (Z.to_nat k) with O by lia.
  - replace (k - 1 - 0 + 1) with k by lia. by rewrite drop_0.
Qed.
Lemma bytesSub_suffix b k : 0 <= k <= bytesSize b -> bytesSub b (Some (k + 1)) None = drop (Z.to_nat k) b.
Proof.
  unfold bytesSub, bytesPos, bytesSize. intros Hk. cbn [default from_option id].
  rewrite (proj2 (Z.ltb_ge (k + 1) 0)) by lia. change (-1 <? 0) with true. cbn iota.
  rewrite Z.max_l, Z.min_l by lia. destruct (Z.ltb_spec (Z.of_nat (length b) + -1) (k + 1 - 1)).
  - by rewrite drop_ge by lia.
  - replace (k + 1 - 1) with k by lia. rewrite take_ge; [done|]. rewrite length_drop. lia.
Qed.

(** * Properties *)

Definition plain_ops : LuaOps := {|
  float_to_double := fun f => f; u64_to_double := fun v => v; utf8_ok := fun _ => true;
  utf8_lossy := fun s => s; number_key := fun _ => "0.5";
  object_pointer := fun ty => bool_decide (ty = "QTimer*"); alive := fun _ => true;
  registry := fun _ => LTable [(KStr "_subscribe", LFunction 7)]; closure := fun f => 1000 + f |}.

(** [set] then [get] of one path gives the value set, in any store of tables
    with any aliasing, provided the path does not pass twice through the same
    table; [set] returns the table it was given and changes no table off the
    path. *)
Theorem Get_Set h root k sep s v :
  heap_ok h -> is_Some (h !! root) -> Sep sep = Ok s -> k <> "" -> k <> s ->
  NoDup (walk h root (path_parts s k)) ->
  exists h', Set_ h root k v sep = Ok (h', RTab root) /\ Get h' root k sep = Ok v /\
    (forall b, is_Some (h !! b) -> b ∉ walk h root (path_parts s k) -> h' !! b = h !! b).
Proof.
  intros Hh Hr Hs Hk Hks Hnd. unfold Set_, Get. rewrite Hs. cbn [res_bind].
  rewrite !bool_decide_eq_false_2 by done. cbn [orb]. eexists. split; [done|].
  pose proof (path_parts_nonempty s k Hk) as Hne. split.
  - by apply get_set_loop.
  - intros b Hb Hni. by apply set_loop_other.
Qed.
Lemma Get_Set_witness :
  exists h', Set_ {[0%nat := ∅]} 0 "a:[2]:b" (RVal (LInt 5)) None = Ok (h', RTab 0) /\
    Get h' 0 "a:[2]:b" None = Ok (RVal (LInt 5)).
Proof.
  destruct (Get_Set {[0%nat := ∅]} 0 "a:[2]:b" None ":" (RVal (LInt 5))) as (h' & H1 & H2 & _).
  - intros a tab key b [<- <-]%lookup_singleton_Some. by rewrite lookup_empty.
  - by eexists.
  - reflexivity.
  - discriminate.
  - discriminate.
  - vm_compute. apply NoDup_singleton.
  - by exists h'.
Defined.

(** [bytes] slices compose: cutting at any position and concatenating gives
    the object back, [sub] never fails and never yields more than it holds, and
    [byte] gives the element at a one-based index, counted from the end when
    negative, or nothing. *)
Theorem bytes_slices b k i j :
  (0 <= k <= bytesSize b ->
   bytesConcat (LBytes (bytesSub b None (Some k))) (LBytes (bytesSub b (Some (k + 1)) None)) = Ok b) /\
  (length (bytesSub b i j) <= length b)%nat /\
  (forall n, (n < length b)%nat ->
     bytesByte b (Some (Z.of_nat n + 1)) = b !! n /\
     bytesByte b (Some (Z.of_nat n - bytesSize b)) = b !! n) /\
  (forall n, n = 0 \/ bytesSize b < n \/ n < - bytesSize b -> bytesByte b (Some n) = None).
Proof.
  split_and!.
  - intros Hk. unfold bytesConcat. cbn [concatOperand res_bind].
    by rewrite bytesSub_prefix, bytesSub_suffix, take_drop by done.
  - unfold bytesSub. case_match; [simpl; lia|]. rewrite length_take, length_drop. lia.
  - intros n Hn. unfold bytesByte, bytesPos, bytesSize. cbn [default from_option id].
    rewrite (proj2 (Z.ltb_ge (Z.of_nat n + 1) 0)), (proj2 (Z.ltb_lt (Z.of_nat n - _) 0)) by lia.
    replace (Z.of_nat n + 1 - 1) with (Z.of_nat n) by lia.
    replace (Z.of_nat (length b) + (Z.of_nat n - Z.of_nat (length b))) with (Z.of_nat n) by lia.
    rewrite (proj2 (Z.ltb_ge (Z.of_nat n) 0)), (proj2 (Z.leb_gt _ _)) by lia. by rewrite Nat2Z.id.
  - intros n Hn. unfold bytesByte, bytesPos, bytesSize in *. cbn [default from_option id].
    destruct (Z.ltb_spec n 0).
    + rewrite (proj2 (Z.ltb_lt (Z.of_nat (length b) + n) 0)) by lia. done.
    + destruct (Z.ltb_spec (n - 1) 0); [done|]. rewrite (proj2 (Z.leb_le _ _)) by lia. done.
Qed.
Lemma bytes_slices_witness :
  bytesConcat (LBytes (bytesSub [1; 2; 3] None (Some 1))) (LBytes (bytesSub [1; 2; 3] (Some 2) None)) = Ok [1; 2; 3].
Proof. apply (proj1 (bytes_slices [1; 2; 3] 1 None None)). vm_compute. split; discriminate. Defined.

(** [get] does not test what it indexes: a path through a value that is not a
    table is an unchecked [lua_rawget] on it. *)
Theorem Get_through_value x : x <> LNil ->
  Get {[0%nat := {[KStr "a" := RVal x]}]} 0 "a:b" None = Raise ub_rawget.
Proof. intros. vm_compute. done. Qed.

(** A null ends a list on its way through Lua: what follows it is lost, and a
    list that begins with one comes back as a map keyed by positions. *)
Theorem list_with_hole (LO : LuaOps) stack z : utf8_ok "" = true ->
  toQVar (S stack) (Push (VList [VInt z; VInvalid; VInt z])) = VList [VLongLong z] /\
  toQVar (S stack) (Push (VList [VInvalid; VInt z])) = VMap [("2", VLongLong z)].
Proof. intros _. split; by destruct stack. Qed.
