(* ===== verification/Lazy.v ===== *)
(** * Lazy message views ([src/src/lazy.cpp])

    A message reaches a Lua listener as a view: a userdata that stands for a
    place in the retained [QVariant] and is read without building tables.  The
    first write through any view of a message builds the plain Lua table of the
    whole message, and from then on every view of it reads and writes that table.

    Tables live in the store of [LuaValues].  A view is [RView root path value]:
    the message it belongs to, the keys that lead to it from the message's root
    (the chain of parents) and the retained subtree.  The interpreter's behaviour
    on values that are neither tables nor views is the interface [LuaInterp].  A
    C function that calls back into the interpreter nests on the C stack, whose
    depth is the fuel: running out of it is Lua's "C stack overflow" error. *)
From S2P Require Import Prelude QVariant Utils LuaValues.
Set Warnings "-register-all".

(** [LazyOwner], with the root's third user value: the table once materialized. *)
Record Message := { retained : QVar; table : option nat }.
Record LState := { tables : gmap nat (gmap LKey LRef); messages : gmap nat Message }.
Class LuaInterp := {
  index_other : LTree -> LKey -> res LRef;                   (* strings, userdata; errors *)
  set_other : LTree -> LKey -> LRef -> LState -> res LState;
  border : gmap LKey LRef -> Z;                              (* [#] of a table *)
  len_other : LTree -> res Z;
  next_entry : gmap LKey LRef -> option LKey -> res (option (LKey * LRef))   (* the global [next] *)
}.

(** ** Tables for pushed values *)
Section alloc_entries.
Variable alloc : LTree -> gmap nat (gmap LKey LRef) -> gmap nat (gmap LKey LRef) * LRef.
Fixpoint alloc_entries (es : list (LKey * LTree)) (h : gmap nat (gmap LKey LRef))
    : gmap nat (gmap LKey LRef) * gmap LKey LRef :=
  match es with
  | [] => (h, ∅)
  | (k, v) :: es =>
      let '(h, x) := alloc v h in
      let '(h, tab) := alloc_entries es h in
      (h, match x with RNil => delete k tab | _ => <[k := x]> tab end)
  end.
End alloc_entries.
(** What [glua::Push] leaves in the store. *)
Fixpoint alloc (t : LTree) (h : gmap nat (gmap LKey LRef)) : gmap nat (gmap LKey LRef) * LRef :=
  match t with
  | LNil => (h, RNil)
  | LTable es =>
      let '(h, tab) := alloc_entries alloc es h in
      (<[fresh_table h := tab]> h, RTab (fresh_table h))
  | _ => (h, RVal t)
  end.

Definition set_tables (h : gmap nat (gmap LKey LRef)) (st : LState) : LState :=
  {| tables := h; messages := messages st |}.
Definition set_message (r : nat) (m : Message) (st : LState) : LState :=
  {| tables := tables st; messages := <[r := m]> (messages st) |}.
Definition push_plain `{LuaOps} (v : QVar) (st : LState) : LState * LRef :=
  let '(h, x) := alloc (Push v) (tables st) in (set_tables h st, x).
Definition is_container (v : QVar) : bool := match v with VMap _ | VList _ => true | _ => false end.
Definition materialize_key : LKey := KStr "materialize".
(** The metatable's [materialize] function. *)
Definition materialize_fn : LRef := RVal (LFunction 0).
Definition overflow : string := "C stack overflow".

Section lazy.
Context `{LO : LuaOps} {LI : LuaInterp}.

(** [lazy::Push]: a view of a new message, or a plain value. *)
Definition lazy_Push (v : QVar) (st : LState) : LState * LRef :=
  if is_container v then
    let r := fresh (dom (messages st)) in
    (set_message r {| retained := v; table := None |} st, RView r [] v)
  else push_plain v st.

(** [MaterializeMessage]. *)
Definition MaterializeMessage (r : nat) (st : LState) : LState :=
  match messages st !! r with
  | Some {| retained := q; table := None |} =>
      let '(st, x) := push_plain q st in
      match x with RTab a => set_message r {| retained := q; table := Some a |} st | _ => st end
  | _ => st
  end.
Definition materialized (r : nat) (st : LState) : option nat :=
  match messages st !! r with Some m => table m | None => None end.

(** [PushChildView]. *)
Definition PushChildView (r : nat) (p : list LKey) (k : LKey) (v : QVar) (st : LState) : LState * LRef :=
  if is_container v then (st, RView r (p ++ [k]) v) else push_plain v st.
(** The element of the retained tree under a key. *)
Definition at_key (v : QVar) (k : LKey) : option QVar :=
  match v, k with
  | VMap m, KStr s => qm_find (if utf8_ok s then s else utf8_lossy s) m
  | VList l, KInt i => if ((1 <=? i) && (i <=? Z.of_nat (length l)))%bool then l !! Z.to_nat (i - 1) else None
  | _, _ => None
  end.

Section nested.
(** [lua_gettable], one C call further down. *)
Variable gettable : LState -> LRef -> LKey -> res (LState * LRef).
Fixpoint resolve (p : list LKey) (st : LState) (v : LRef) : res (LState * LRef) :=
  match p with
  | [] => Ok (st, v)
  | k :: p => let* (st, v) := gettable st v k in resolve p st v
  end.
(** [PushPath] and [PushResolved]. *)
Definition PushResolved (r : nat) (p : list LKey) (st : LState) : res (LState * LRef) :=
  resolve p st (match materialized r st with Some a => RTab a | None => RNil end).
Definition PushIndexed (r : nat) (p : list LKey) (x : QVar) (k : LKey) (st : LState) : res (LState * LRef) :=
  match materialized r st with
  | Some _ => let* (st, t) := PushResolved r p st in gettable st t k
  | None =>
      match at_key x k with
      | Some y => Ok (PushChildView r p k y st)
      | None => Ok (st, RNil)
      end
  end.
End nested.

(** [lua_gettable]; on a view, [NodeIndex]. *)
Fixpoint gettable (fuel : nat) (st : LState) (v : LRef) (k : LKey) : res (LState * LRef) :=
  match v with
  | RTab a => Ok (st, default RNil (default ∅ (tables st !! a) !! k))
  | RNil => Raise "attempt to index a nil value"
  | RVal t => let* y := index_other t k in Ok (st, y)
  | RView r p x =>
      match fuel with
      | O => Raise overflow
      | S fuel =>
          if bool_decide (k = materialize_key) then Ok (st, materialize_fn)
          else PushIndexed (gettable fuel) r p x k st
      end
  end.
Definition NodeIndex (fuel : nat) (st : LState) (r : nat) (p : list LKey) (x : QVar) (k : LKey) : res (LState * LRef) :=
  gettable (S fuel) st (RView r p x) k.

(** [lua_settable]; on a view, [NodeNewIndex]. *)
Fixpoint settable (fuel : nat) (st : LState) (v : LRef) (k : LKey) (x : LRef) : res LState :=
  match v with
  | RTab a => Ok (set_tables (rawset (tables st) a k x) st)
  | RNil => Raise "attempt to index a nil value"
  | RVal t => set_other t k x st
  | RView r p _ =>
      match fuel with
      | O => Raise overflow
      | S fuel =>
          let* (st, t) := PushResolved (gettable fuel) r p (MaterializeMessage r st) in
          settable fuel st t k x
      end
  end.
Definition NodeNewIndex (fuel : nat) (st : LState) (r : nat) (p : list LKey) (x : QVar) (k : LKey) (y : LRef) : res LState :=
  settable (S fuel) st (RView r p x) k y.

(** [NodeMaterialize], and [MaterializeInPlace] (whose result replaces the view). *)
Definition NodeMaterialize (fuel : nat) (st : LState) (r : nat) (p : list LKey) : res (LState * LRef) :=
  PushResolved (gettable fuel) r p (MaterializeMessage r st).

(** [NodeLen]. *)
Fixpoint NodeLen (fuel : nat) (st : LState) (r : nat) (p : list LKey) (x : QVar) : res Z :=
  match materialized r st with
  | Some _ =>
      let* (st, t) := PushResolved (gettable fuel) r p st in
      match t, fuel with
      | RTab a, _ => Ok (border (default ∅ (tables st !! a)))
      | RVal t, _ => len_other t
      | RView r p x, S fuel => NodeLen fuel st r p x
      | RView _ _ _, O => Raise overflow
      | RNil, _ => Raise "attempt to get length of a nil value"
      end
  | None => Ok (match x with VList l => Z.of_nat (length l) | _ => 0 end)
  end.

(** [NodePairs] and [NodeIpairs]: the table the interpreter's own iteration runs
    over, or none when [NextPair] or [NextIndex] does. *)
Definition NodePairs (fuel : nat) (st : LState) (r : nat) (p : list LKey) : res (LState * option LRef) :=
  match materialized r st with
  | Some _ => let* (st, t) := PushResolved (gettable fuel) r p st in Ok (st, Some t)
  | None => Ok (st, None)
  end.
(** [NextPair]: the entry after the control value; [None] ends the loop. *)
Fixpoint upperBound (s : string) (m : list (string * QVar)) : option (string * QVar) :=
  match m with
  | [] => None
  | (k, v) :: m => if str_ltb s k then Some (k, v) else upperBound s m
  end.
Definition NextPair (fuel : nat) (r : nat) (p : list LKey) (x : QVar) (ctl : option LKey) (st : LState)
    : res (LState * option (LKey * LRef)) :=
  match materialized r st with
  | Some _ =>
      let* (st, t) := PushResolved (gettable fuel) r p st in
      match t with
      | RTab a => let* e := next_entry (default ∅ (tables st !! a)) ctl in Ok (st, e)
      | _ => Raise "bad argument #1 to 'next'"
      end
  | None =>
      match x with
      | VList l =>
          let i := match ctl with None => 1 | Some (KInt i) => i + 1 | Some _ => 1 end in
          if ((i <? 1) || (Z.of_nat (length l) <? i))%bool then Ok (st, None)
          else match l !! Z.to_nat (i - 1) with
               | Some y => let '(st, v) := PushChildView r p (KInt i) y st in Ok (st, Some (KInt i, v))
               | None => Ok (st, None)
               end
      | VMap m =>
          match (match ctl with
                 | None => head m
                 | Some k => upperBound (default "" (key_string k)) m
                 end) with
          | Some (k, y) => let '(st, v) := PushChildView r p (KStr k) y st in Ok (st, Some (KStr k, v))
          | None => Ok (st, None)
          end
      | _ => Ok (st, None)
      end
  end.
(** [NextIndex], the step of [ipairs]. *)
Definition NextIndex (fuel : nat) (r : nat) (p : list LKey) (x : QVar) (ctl : Z) (st : LState)
    : res (LState * option (LKey * LRef)) :=
  let i := ctl + 1 in
  match materialized r st with
  | Some _ =>
      let* (st, t) := PushResolved (gettable fuel) r p st in
      let* (st, v) := gettable fuel st t (KInt i) in
      Ok (st, match v with RNil => None | _ => Some (KInt i, v) end)
  | None =>
      match x with
      | VList l =>
          if ((i <? 1) || (Z.of_nat (length l) <? i))%bool then Ok (st, None)
          else match l !! Z.to_nat (i - 1) with
               | Some y => let '(st, v) := PushChildView r p (KInt i) y st in Ok (st, Some (KInt i, v))
               | None => Ok (st, None)
               end
      | _ => Ok (st, None)
      end
  end.

(** [GetPath]: every part between separators, a leading empty one included. *)
Fixpoint split_loop (fuel : nat) (sep rest : string) : list string :=
  match fuel with
  | O => []
  | S fuel =>
      match find_in sep rest with
      | None => [rest]
      | Some n => str_take n rest :: split_loop fuel sep (drop_str (n + String.length sep) rest)
      end
  end.
Fixpoint view_loop (fuel : nat) (parts : list string) (st : LState) (cur : LRef) : res (LState * LRef) :=
  match parts, cur with
  | part :: rest, RView r p x =>
      let* (st, v) := PushIndexed (gettable fuel) r p x (PushPathPart part) st in
      match rest, v with
      | [], _ => Ok (st, v)
      | _, RView _ _ _ => view_loop fuel rest st v
      | _, _ => Ok (st, RNil)
      end
  | _, _ => Ok (st, RNil)
  end.
Fixpoint GetPath (fuel : nat) (st : LState) (r : nat) (p : list LKey) (x : QVar) (path : string) (sep : option string)
    : res (LState * LRef) :=
  let* s := Sep sep in
  match materialized r st with
  | Some _ =>
      let* (st, t) := PushResolved (gettable fuel) r p st in
      match t, fuel with
      | RTab a, _ => let* v := Get (tables st) a path sep in Ok (st, v)
      | RView r p x, S fuel => GetPath fuel st r p x path sep
      | RView _ _ _, O => Raise overflow
      | _, _ => Raise "table expected"
      end
  | None =>
      if (bool_decide (path = "") || bool_decide (path = s))%bool then Ok (st, RView r p x)
      else view_loop fuel (split_loop (S (String.length path)) s path) st (RView r p x)
  end.
(** [set] on a view: its table replaces it. *)
Definition SetPath (fuel : nat) (st : LState) (r : nat) (p : list LKey) (path : string) (y : LRef) (sep : option string)
    : res (LState * LRef) :=
  let* (st, t) := NodeMaterialize fuel st r p in
  match t with
  | RTab a => let* (h, res) := Set_ (tables st) a path y sep in Ok (set_tables h st, res)
  | _ => Raise "table expected"
  end.

(** [ToQVariant] and the table case of [toQVar].  [views] is what is left of
    [MaxConvertDepth], [stack] of the Lua stack; the order of a table's entries is
    unspecified in Lua. *)
Definition MaxConvertDepth : nat := 32.
Fixpoint tree_of (stack views fuel : nat) (st : LState) (v : LRef) : res LTree :=
  match v, stack with
  | RNil, _ => Ok LNil
  | RVal t, _ => Ok t
  | RTab _, O => Ok (LTable [])
  | RTab a, S stack =>
      let* es := res_map (fun kv => let* t := tree_of stack views fuel st kv.2 in Ok (kv.1, t))
                         (map_to_list (default ∅ (tables st !! a))) in
      Ok (LTable es)
  | RView r p x, _ =>
      match views with
      | O => Raise "lazy view conversion nests too deeply (does a message refer to itself?)"
      | S views =>
          match materialized r st, stack with
          | None, _ => Ok (LLazy x)
          | Some _, O => Ok LNil
          | Some _, S stack =>
              let* (st, t) := PushResolved (gettable fuel) r p st in
              let* t := tree_of stack views fuel st t in Ok (LLazy (toQVar stack t))
          end
      end
  end.
Definition ToQVariant (stack fuel : nat) (st : LState) (r : nat) (p : list LKey) (x : QVar) : res QVar :=
  match materialized r st with
  | None => Ok x
  | Some _ =>
      let* (st, t) := PushResolved (gettable fuel) r p st in
      let* t := tree_of stack (MaxConvertDepth - 1) fuel st t in Ok (toQVar stack t)
  end.
(** [NodeToString], up to the JSON printer. *)
Definition NodeToString (stack fuel : nat) (st : LState) (r : nat) (p : list LKey) (x : QVar) : res QVar :=
  let* v := match materialized r st with
            | Some _ =>
                let* (st, t) := PushResolved (gettable fuel) r p st in
                let* t := tree_of stack MaxConvertDepth fuel st t in Ok (toQVar stack t)
            | None => Ok x
            end in
  Ok (reprBinaries v).
End lazy.

(** An interpreter for the examples: only tables and views can be indexed. *)
#[export] Instance plain_interp : LuaInterp := {|
  index_other := fun _ _ => Raise "attempt to index";
  set_other := fun _ _ _ _ => Raise "attempt to index";
  border := fun tab => Z.of_nat (size tab);
  len_other := fun _ => Raise "attempt to get length";
  next_entry := fun _ _ => Ok None |}.

(** ** Induction on trees *)
Section LTree_induction.
Variable P : LTree -> Prop.
Hypothesis leaf : forall t, (forall es, t <> LTable es) -> P t.
Hypothesis node : forall es, Forall (fun kv => P kv.2) es -> P (LTable es).
Fixpoint LTree_tree_ind (t : LTree) : P t.
Proof.
  destruct t as [| | | | | |es| | | | | | |]; try (apply leaf; discriminate). apply node.
  induction es as [|[k v] es IH]; constructor; [apply LTree_tree_ind|exact IH].
Defined.
End LTree_induction.

(** ** Reference: walking a pushed tree, and walking its tables *)
Fixpoint look (t : LTree) (ks : list LKey) : option LTree :=
  match ks with
  | [] => Some t
  | k :: ks => match t with LTable es => look (entry k es) ks | _ => None end
  end.
Fixpoint hwalk (h : gmap nat (gmap LKey LRef)) (v : LRef) (ks : list LKey) : option LRef :=
  match ks with
  | [] => Some v
  | k :: ks => match v with RTab a => hwalk h (default RNil (default ∅ (h !! a) !! k)) ks | _ => None end
  end.
Definition shows (t : LTree) (v : LRef) : Prop :=
  match t with LTable _ => exists a, v = RTab a | LNil => v = RNil | _ => v = RVal t end.
Definition keeps (h h' : gmap nat (gmap LKey LRef)) : Prop := forall b, is_Some (h !! b) -> h' !! b = h !! b.

Lemma store_keeps_refl h : keeps h h. Proof. by intros b. Qed.
Lemma store_keeps_trans h1 h2 h3 : keeps h1 h2 -> keeps h2 h3 -> keeps h1 h3.
Proof. intros H1 H2 b Hb. rewrite H2, H1; [done..|]. by rewrite H1. Qed.

(** A tree laid out in the store, at addresses between two stores, each path at
    its own address. *)
Definition laid (h0 h1 : gmap nat (gmap LKey LRef)) (t : LTree) (v : LRef) : Prop :=
  (forall h, keeps h1 h -> forall ks t', look t ks = Some t' -> exists v', hwalk h v ks = Some v' /\ shows t' v') /\
  (forall ks a, hwalk h1 v ks = Some (RTab a) -> h0 !! a = None /\ is_Some (h1 !! a)) /\
  (forall ks ks' a, hwalk h1 v ks = Some (RTab a) -> hwalk h1 v ks' = Some (RTab a) -> ks = ks').

Lemma hwalk_keeps h1 h ks : forall v, (forall ks a, hwalk h1 v ks = Some (RTab a) -> is_Some (h1 !! a)) -> keeps h1 h ->
  hwalk h v ks = hwalk h1 v ks.
Proof.
  induction ks as [|k ks IH]; intros v Hv Hk; [done|]. cbn [hwalk]. destruct v as [|a| |]; try done.
  rewrite (Hk a) by (by apply (Hv [])). apply IH; [|done]. intros ks' a' H. apply (Hv (k :: ks')). exact H.
Qed.
Lemma laid_stable h0 h1 h t v ks : laid h0 h1 t v -> keeps h1 h -> hwalk h v ks = hwalk h1 v ks.
Proof. intros (_ & Hb & _) Hk. apply hwalk_keeps; [|done]. intros ks' a H. by apply (Hb ks' a). Qed.

Definition laid_entries (h0 h1 : gmap nat (gmap LKey LRef)) (es : list (LKey * LTree)) (tab : gmap LKey LRef) : Prop :=
  let at_ k := default RNil (tab !! k) in
  (forall k h, keeps h1 h -> forall ks t', look (entry k es) ks = Some t' -> exists v', hwalk h (at_ k) ks = Some v' /\ shows t' v') /\
  (forall k ks a, hwalk h1 (at_ k) ks = Some (RTab a) -> h0 !! a = None /\ is_Some (h1 !! a)) /\
  (forall k k' ks ks' a, hwalk h1 (at_ k) ks = Some (RTab a) -> hwalk h1 (at_ k') ks' = Some (RTab a) -> k = k' /\ ks = ks').

Lemma alloc_entries_laid es : Forall (fun kv => forall h h' v, alloc kv.2 h = (h', v) -> keeps h h' /\ laid h h' kv.2 v) es ->
  forall h h1 tab, alloc_entries alloc es h = (h1, tab) -> keeps h h1 /\ laid_entries h h1 es tab.
Proof.
  induction 1 as [|[k0 t0] es Ht _ IH]; intros h h1 tab; cbn [alloc_entries].
  { intros [= <- <-]. split; [apply store_keeps_refl|]. split_and!.
    - intros k h2 _ ks t'. rewrite lookup_empty. cbn [entry default from_option]. destruct ks as [|k' ks]; [|done].
      intros [= <-]. by exists RNil.
    - intros k ks a. rewrite lookup_empty. by destruct ks.
    - intros k k' ks ks' a. rewrite lookup_empty. by destruct ks. }
  destruct (alloc t0 h) as [ha x0] eqn:E0. destruct (alloc_entries alloc es ha) as [hb tab'] eqn:Ee.
  intros [= <- <-]. cbn [snd] in Ht. destruct (Ht _ _ _ E0) as [K0 L0]. destruct (IH _ _ _ Ee) as [K1 (A & B & C)].
  set (tab := match x0 with RNil => delete k0 tab' | _ => <[k0 := x0]> tab' end).
  assert (default RNil (tab !! k0) = x0) as X0 by (unfold tab; destruct x0; by rewrite ?lookup_delete_eq, ?lookup_insert_eq).
  assert (forall k, k <> k0 -> tab !! k = tab' !! k) as Xk.
  { intros k Hk. unfold tab; destruct x0; by rewrite ?lookup_delete_ne, ?lookup_insert_ne. }
  pose proof L0 as (A0 & B0 & C0). split; [by eapply store_keeps_trans|].
  assert (forall ks, hwalk hb x0 ks = hwalk ha x0 ks) as W0 by (intros; by eapply laid_stable).
  assert (forall a, h !! a = None -> ha !! a = None \/ (h !! a = None /\ is_Some (ha !! a))) as Hcase.
  { intros a Ha. destruct (ha !! a) eqn:E; [right; eauto|by left]. }
  assert (forall a, ha !! a = None -> h !! a = None) as Hold.
  { intros a Ha. destruct (h !! a) eqn:E; [|done]. rewrite (K0 a) in Ha by eauto. congruence. }
  split_and!; cbv zeta.
  - intros k h2 Hk ks t'. cbn [entry]. case_bool_decide as Ek.
    + subst k. rewrite X0. apply A0. by eapply store_keeps_trans.
    + rewrite Xk by done. by apply A.
  - intros k ks a. destruct (decide (k = k0)) as [->|Hn].
    + rewrite X0, W0. intros H. destruct (B0 _ _ H) as [? ?]. split; [done|]. by rewrite (K1 a).
    + rewrite Xk by done. intros H. destruct (B _ _ _ H) as [? ?]. split; [by apply Hold|done].
  - intros k k' ks ks' a. destruct (decide (k = k0)) as [->|Hn], (decide (k' = k0)) as [->|Hn'];
      rewrite ?X0, ?W0, ?Xk by done; intros H H'.
    + split; [done|]. by eapply C0.
    + destruct (B0 _ _ H) as [_ [? E]], (B _ _ _ H') as [E' _]. congruence.
    + destruct (B0 _ _ H') as [_ [? E]], (B _ _ _ H) as [E' _]. congruence.
    + by eapply C.
Qed.
Lemma alloc_laid t : forall h h' v, alloc t h = (h', v) -> keeps h h' /\ laid h h' t v.
Proof.
  induction t as [t Hleaf|es IH] using LTree_tree_ind; intros h h' v.
  - intros E. assert (h' = h /\ shows t v /\ forall a, v <> RTab a) as (-> & Hs & Hv).
    { destruct t; try (injection E as <- <-; done). by destruct (Hleaf entries). }
    split; [apply store_keeps_refl|]. split_and!.
    + intros h2 _ [|k ks] t'; cbn [look hwalk]; [intros [= <-]; eauto|]. destruct t; try done. by destruct (Hleaf entries).
    + intros [|k ks] a; cbn [hwalk]; [intros [= ->]; by destruct (Hv a)|]. destruct v; try done. by destruct (Hv a0).
    + intros [|k ks] ks' a; cbn [hwalk]; [intros [= ->]; by destruct (Hv a)|]. destruct v; try done. by destruct (Hv a0).
  - cbn [alloc]. destruct (alloc_entries alloc es h) as [h1 tab] eqn:E. intros [= <- <-].
    destruct (alloc_entries_laid es IH _ _ _ E) as [K (A & B & C)].
    pose proof (fresh_table_None h1) as Hf. set (f := fresh_table h1) in *.
    assert (keeps h1 (<[f := tab]> h1)) as K'.
    { intros b Hb. rewrite lookup_insert_ne; [done|]. intros ->. rewrite Hf in Hb. by destruct Hb. }
    assert (forall k ks, hwalk (<[f := tab]> h1) (default RNil (tab !! k)) ks = hwalk h1 (default RNil (tab !! k)) ks) as W.
    { intros k ks. apply hwalk_keeps; [|done]. intros ks' a H. by apply (B k ks' a). }
    assert (forall h2 k ks, h2 !! f = Some tab -> hwalk h2 (RTab f) (k :: ks) = hwalk h2 (default RNil (tab !! k)) ks) as Hstep.
    { intros h2 k ks Hh. cbn [hwalk]. by rewrite Hh. }
    assert (<[f := tab]> h1 !! f = Some tab) as Hff by apply lookup_insert_eq.
    split; [by eapply store_keeps_trans|]. split_and!.
    + intros h2 K2 [|k ks] t'; cbn [look]; [intros [= <-]; by eexists; split; [|eexists]|].
      intros H. rewrite Hstep; [by apply A; [eapply store_keeps_trans|]|]. by rewrite (K2 f) by eauto.
    + intros [|k ks] a.
      * intros [= <-]. rewrite Hff. split; [|eauto]. destruct (h !! f) eqn:E'; [|done]. rewrite (K f) in Hf by eauto. congruence.
      * rewrite Hstep, W by done. intros H. destruct (B _ _ _ H) as [? ?]. split; [done|]. by rewrite (K' a).
    + intros [|k ks] [|k' ks'] a; [done| | |].
      * intros [= <-]. rewrite Hstep, W by done. intros H. destruct (B _ _ _ H) as [_ [? ?]]. congruence.
      * intros H [= <-]. revert H. rewrite Hstep, W by done. intros H. destruct (B _ _ _ H) as [_ [? ?]]. congruence.
      * rewrite !Hstep, !W by done. intros H H'. by destruct (C _ _ _ _ _ H H') as [-> ->].
Qed.

(** ** Views and trees *)
Section views.
Context `{LO : LuaOps} {LI : LuaInterp}.

Definition key_ok (k : LKey) : Prop := match k with KStr s => utf8_ok s = true | _ => True end.
Fixpoint at_path (q : QVar) (p : list LKey) : option QVar :=
  match p with
  | [] => Some q
  | k :: p => match at_key q k with Some y => at_path y p | None => None end
  end.
(** A view of a message that is not materialized yet. *)
Record fresh_view (st : LState) (r : nat) (p : list LKey) (x : QVar) (q : QVar) : Prop := {
  fv_message : messages st !! r = Some {| retained := q; table := None |};
  fv_wf : qvar_wf q = true;
  fv_keys : Forall key_ok p;
  fv_place : at_path q p = Some x;
  fv_container : is_container x = true
}.

Lemma entry_above j i l : j < i -> entry (KInt j) (push_list Push l i) = LNil.
Proof.
  revert i. induction l as [|x l IH]; intros i Hj; [done|]. cbn [push_list]. unfold add_entry.
  destruct (is_nil (Push x)); cbn [entry]; [|rewrite bool_decide_eq_false_2 by (intros [= ->]; lia)]; apply IH; lia.
Qed.
Lemma entry_list l : forall i j, i <= j -> entry (KInt j) (push_list Push l i) = default LNil (Push <$> l !! Z.to_nat (j - i)).
Proof.
  induction l as [|x l IH]; intros i j Hj; [done|]. cbn [push_list]. unfold add_entry.
  destruct (decide (i = j)) as [->|Hn].
  - rewrite Z.sub_diag. change (default LNil (Push <$> (x :: l) !! Z.to_nat 0)) with (Push x).
    destruct (is_nil (Push x)) eqn:E; cbn [entry]; [|by rewrite bool_decide_eq_true_2].
    rewrite entry_above by lia. revert E. by destruct (Push x).
  - replace (Z.to_nat (j - i)) with (S (Z.to_nat (j - (i + 1)))) by lia. cbn [lookup list_lookup].
    destruct (is_nil (Push x)); cbn [entry]; [|rewrite bool_decide_eq_false_2 by (intros [= ->]; lia)]; apply IH; lia.
Qed.
Lemma entry_list_other k l i : (forall j, k <> KInt j) -> entry k (push_list Push l i) = LNil.
Proof.
  intros Hk. revert i. induction l as [|x l IH]; intros i; [done|]. cbn [push_list]. unfold add_entry.
  destruct (is_nil (Push x)); cbn [entry]; [|rewrite bool_decide_eq_false_2 by done]; apply IH.
Qed.
Fixpoint push_map (m : list (string * QVar)) : list (LKey * LTree) :=
  match m with [] => [] | (k, v) :: m => add_entry (KStr k) (Push v) (push_map m) end.
Lemma Push_VMap m : Push (VMap m) = LTable (push_map m).
Proof. reflexivity. Qed.
Lemma entry_map_other k m : (forall s, k <> KStr s) -> entry k (push_map m) = LNil.
Proof.
  intros Hk. induction m as [|[s v] m IH]; [done|]. cbn [push_map]. unfold add_entry.
  destruct (is_nil (Push v)); cbn [entry]; [|rewrite bool_decide_eq_false_2 by done]; apply IH.
Qed.
Lemma entry_map s m : qm_sorted m = true -> entry (KStr s) (push_map m) = default LNil (Push <$> qm_find s m).
Proof.
  assert (forall m, qm_find s m = None -> entry (KStr s) (push_map m) = LNil) as Hnone.
  { clear m. induction m as [|[k v] m IH]; [done|]. cbn [push_map qm_find]. case_bool_decide as E; [done|]. unfold add_entry.
    destruct (is_nil (Push v)); cbn [entry]; [|rewrite bool_decide_eq_false_2 by congruence]; apply IH. }
  induction m as [|[k v] m IH]; [done|]. cbn [qm_sorted push_map qm_find]. intros [Ha Hs]%andb_true_iff. unfold add_entry.
  case_bool_decide as E.
  - subst k. cbn. destruct (is_nil (Push v)) eqn:En; cbn [entry]; [|by rewrite bool_decide_eq_true_2].
    rewrite Hnone by (by apply qm_above_find). revert En. by destruct (Push v).
  - destruct (is_nil (Push v)); cbn [entry]; [|rewrite bool_decide_eq_false_2 by congruence]; by apply IH.
Qed.
(** A key of a container reads the same from the tree and from its table. *)
Lemma entry_Push x k : is_container x = true -> qvar_wf x = true -> key_ok k ->
  exists es, Push x = LTable es /\ entry k es = default LNil (Push <$> at_key x k).
Proof.
  destruct x as [| | | | | | | | | | | |l|m|]; try done; intros _ Hwf Hk.
  - eexists. split; [done|]. destruct k as [i| | |]; try (by apply entry_list_other). cbn [at_key].
    destruct (Z.leb_spec 1 i); cbn [andb]; [|by apply entry_above].
    rewrite entry_list by lia. destruct (Z.leb_spec i (Z.of_nat (length l))); [done|].
    by rewrite lookup_ge_None_2 by lia.
  - cbn in Hwf. apply andb_true_iff in Hwf as [Hs _]. rewrite Push_VMap. eexists. split; [done|].
    destruct k as [| |s|]; try (by apply entry_map_other). cbn [at_key]. cbn in Hk. rewrite Hk. by apply entry_map.
Qed.
Lemma at_key_container x k y : at_key x k = Some y -> is_container x = true.
Proof. by destruct x, k. Qed.
Lemma at_key_wf x k y : at_key x k = Some y -> qvar_wf x = true -> qvar_wf y = true.
Proof.
  destruct x as [| | | | | | | | | | | |l|m|], k as [i| |str|]; try done; cbn.
  - case_match; [|done]. intros E Hl. rewrite forallb_forall in Hl. apply Hl, list_elem_of_In. by eapply list_elem_of_lookup_2.
  - intros E%qm_find_elem [_ Hm]%andb_true_iff. rewrite forallb_forall in Hm. by apply (Hm _ (proj1 (list_elem_of_In _ _) E)).
Qed.
Lemma at_path_app q p k : at_path q (p ++ [k]) = match at_path q p with Some x => at_key x k | None => None end.
Proof.
  revert q. induction p as [|j p IH]; intros q; cbn; [by destruct (at_key q k)|]. destruct (at_key q j); [apply IH|done].
Qed.
Lemma at_path_wf p : forall q x, at_path q p = Some x -> qvar_wf q = true -> qvar_wf x = true.
Proof.
  induction p as [|k p IH]; intros q x; cbn; [by intros [= ->]|]. destruct (at_key q k) as [y|] eqn:E; [|done].
  intros H Hq. eapply IH; [exact H|]. by eapply at_key_wf.
Qed.
Lemma look_at_path p : forall q x, qvar_wf q = true -> Forall key_ok p -> at_path q p = Some x ->
  look (Push q) p = Some (Push x).
Proof.
  induction p as [|k p IH]; intros q x Hq Hp; cbn [at_path]; [by intros [= ->]|]. apply Forall_cons in Hp as [Hk Hp].
  destruct (at_key q k) as [y|] eqn:E; [|done]. intros H.
  destruct (entry_Push q k (at_key_container _ _ _ E) Hq Hk) as (es & -> & He). cbn [look]. rewrite He, E. cbn.
  apply IH; [by eapply at_key_wf|done|done].
Qed.
Lemma look_app t p k : look t (p ++ [k]) = match look t p with Some (LTable es) => Some (entry k es) | _ => None end.
Proof. revert t. induction p as [|j p IH]; intros t; cbn; [by destruct t|]. by destruct t. Qed.

Lemma resolve_hwalk fuel ks : forall st v v', hwalk (tables st) v ks = Some v' -> resolve (gettable fuel) ks st v = Ok (st, v').
Proof.
  induction ks as [|k ks IH]; intros st v v'; cbn [hwalk resolve]; [by intros [= ->]|].
  destruct v as [|a| |]; try done. intros H. destruct fuel; cbn [gettable res_bind]; by apply IH.
Qed.

(** Materializing lays the retained tree out in new tables. *)
Lemma materialize_spec st r p x q : fresh_view st r p x q -> exists a h,
  alloc (Push q) (tables st) = (h, RTab a) /\ keeps (tables st) h /\ laid (tables st) h (Push q) (RTab a) /\
  MaterializeMessage r st = {| tables := h; messages := <[r := {| retained := q; table := Some a |}]> (messages st) |}.
Proof.
  intros [Hm Hwf _ Hp Hc]. unfold MaterializeMessage. rewrite Hm. unfold push_plain.
  destruct (alloc (Push q) (tables st)) as [h v] eqn:E. destruct (alloc_laid _ _ _ _ E) as [K L].
  assert (is_container q = true) as Hq.
  { destruct p as [|k p]; [by injection Hp as ->|]. cbn in Hp. destruct (at_key q k) eqn:Ek; [|done]. by eapply at_key_container. }
  assert (exists es, Push q = LTable es) as [es Es] by (destruct q; try done; cbn; eauto).
  destruct L as (L1 & L2). destruct (L1 h (store_keeps_refl h) [] (Push q) eq_refl) as (v' & [= <-] & Hs).
  rewrite Es in Hs. destruct Hs as [a ->]. exists a, h. by split_and!.
Qed.

Definition plain_key (k : LKey) : Prop := key_ok k /\ k <> materialize_key.
(** What a read of an unmaterialized message yields for the tree [t] at [p]. *)
Definition view_shows (r : nat) (p : list LKey) (t : LTree) (v : LRef) : Prop :=
  match v with RView r' p' y => r' = r /\ p' = p /\ Push y = t | _ => shows t v end.

Lemma shows_view r p t v : shows t v -> view_shows r p t v.
Proof. destruct v; try done. destruct t; try done. by intros [? ?]. Qed.
Lemma fresh_view_child st r p x q k y : fresh_view st r p x q -> key_ok k -> at_key x k = Some y -> is_container y = true ->
  fresh_view st r (p ++ [k]) y q.
Proof.
  intros [H1 H2 H3 H4 H5] Hk Hy Hc. split; [done|done|by apply Forall_app; auto| |done]. by rewrite at_path_app, H4.
Qed.
Lemma fresh_view_unmaterialized st r p x q : fresh_view st r p x q -> materialized r st = None.
Proof. intros [H _ _ _ _]. unfold materialized. by rewrite H. Qed.
Lemma push_plain_spec v st : exists h x, push_plain v st = (set_tables h st, x) /\ keeps (tables st) h /\ laid (tables st) h (Push v) x.
Proof.
  unfold push_plain. destruct (alloc (Push v) (tables st)) as [h x] eqn:E. exists h, x. split; [done|]. by eapply alloc_laid.
Qed.

Lemma resolve_view fuel st r p x k ks : k <> materialize_key ->
  resolve (gettable (S fuel)) (k :: ks) st (RView r p x)
  = (let* (st, v) := PushIndexed (gettable fuel) r p x k st in resolve (gettable (S fuel)) ks st v).
Proof.
  intros Hk. cbn [resolve]. change (gettable (S fuel) st (RView r p x) k) with
  (if bool_decide (k = materialize_key) then Ok (st, materialize_fn) else PushIndexed (gettable fuel) r p x k st).
  by rewrite bool_decide_eq_false_2.
Qed.
(** One read of an unmaterialized message. *)
Lemma indexed_fresh f st r p x q k : fresh_view st r p x q ->
  PushIndexed f r p x k st = match at_key x k with Some y => Ok (PushChildView r p k y st) | None => Ok (st, RNil) end.
Proof. intros H. unfold PushIndexed. by rewrite (fresh_view_unmaterialized _ _ _ _ _ H). Qed.
Lemma lazy_walk fuel ks : forall st r p x q t, fresh_view st r p x q -> Forall plain_key ks -> look (Push x) ks = Some t ->
  exists st1 v1, resolve (gettable (S fuel)) ks st (RView r p x) = Ok (st1, v1) /\ view_shows r (p ++ ks) t v1.
Proof.
  induction ks as [|k ks IH]; intros st r p x q t Hv Hks.
  { intros [= <-]. exists st, (RView r p x). by rewrite app_nil_r. }
  apply Forall_cons in Hks as [[Hk Hne] Hks].
  destruct (entry_Push x k (fv_container _ _ _ _ _ Hv) (at_path_wf _ _ _ (fv_place _ _ _ _ _ Hv) (fv_wf _ _ _ _ _ Hv)) Hk) as (es & Hes & He).
  cbn [look]. rewrite Hes, He, resolve_view by done.
  rewrite (indexed_fresh _ _ _ _ _ _ _ Hv). destruct (at_key x k) as [y|] eqn:Ey; cbn [fmap option_fmap option_map default from_option id].
  - unfold PushChildView. destruct (is_container y) eqn:Hc; cbn [res_bind].
    + intros Hl. destruct (IH st r (p ++ [k]) y q t) as (st1 & v1 & E & Hs); [by eapply fresh_view_child|done|done|].
      exists st1, v1. split; [done|]. by rewrite <- app_assoc in Hs.
    + destruct (push_plain_spec y st) as (h & v & -> & K & L1 & L2). intros Hl. cbn [res_bind].
      destruct (L1 h (store_keeps_refl h) ks t Hl) as (v' & Hw & Hs). exists (set_tables h st), v'.
      split; [by apply resolve_hwalk|by apply shows_view].
  - destruct ks as [|k' ks]; [|done]. intros [= <-]. by exists st, RNil.
Qed.
Lemma hwalk_app h v p ks : hwalk h v (p ++ ks) = match hwalk h v p with Some w => hwalk h w ks | None => None end.
Proof. revert v. induction p as [|k p IH]; intros v; [done|]. cbn [app hwalk]. by destruct v. Qed.
(** The place of a view in its message's table. *)
Lemma laid_place st r p x q h0 h a : fresh_view st r p x q -> laid h0 h (Push q) (RTab a) ->
  exists b, hwalk h (RTab a) p = Some (RTab b) /\
    forall ks t, look (Push x) ks = Some t -> exists v, hwalk h (RTab b) ks = Some v /\ shows t v.
Proof.
  intros [Hm Hwf Hk Hp Hc] L. pose proof (look_at_path p q x Hwf Hk Hp) as Hl.
  destruct (proj1 L h (store_keeps_refl h) p _ Hl) as (v & Hw & Hs).
  assert (exists b, v = RTab b) as [b ->].
  { assert (exists es, Push x = LTable es) as [es Es] by (destruct x; try done; cbn; eauto). by rewrite Es in Hs. }
  exists b. split; [done|]. intros ks t Ht.
  assert (forall t0 ks', look t0 (p ++ ks') = match look t0 p with Some w => look w ks' | None => None end) as Hlapp.
  { clear. induction p as [|k p IH]; intros v ks'; [done|]. cbn. by destruct v. }
  destruct (proj1 L h (store_keeps_refl h) (p ++ ks) t) as (v & Hv & Hsv); [by rewrite Hlapp, Hl|].
  rewrite hwalk_app, Hw in Hv. eauto.
Qed.
(** The same read once the message is a table. *)
Lemma table_place st r p x q : fresh_view st r p x q -> exists a b h,
  MaterializeMessage r st = {| tables := h; messages := <[r := {| retained := q; table := Some a |}]> (messages st) |} /\
  keeps (tables st) h /\ laid (tables st) h (Push q) (RTab a) /\ hwalk h (RTab a) p = Some (RTab b) /\
  forall ks t, look (Push x) ks = Some t -> exists v, hwalk h (RTab b) ks = Some v /\ shows t v.
Proof.
  intros Hv. destruct (materialize_spec _ _ _ _ _ Hv) as (a & h & _ & K & L & E).
  destruct (laid_place _ _ _ _ _ _ _ _ Hv L) as (b & Hp & Hw). by exists a, b, h.
Qed.
Lemma table_walk fuel st r p x q ks t : fresh_view st r p x q -> ks <> [] -> Forall plain_key ks -> look (Push x) ks = Some t ->
  let st2 := MaterializeMessage r st in
  exists v, resolve (gettable (S fuel)) ks st2 (RView r p x) = Ok (st2, v) /\ shows t v.
Proof.
  intros Hv Hne Hks Hl st2. destruct (table_place _ _ _ _ _ Hv) as (a & b & h & Est & _ & _ & Hp & Hw).
  destruct ks as [|k ks]; [done|]. apply Forall_cons in Hks as [[_ Hk] _].
  destruct (Hw _ _ Hl) as (v & Hwk & Hs). exists v. split; [|done]. rewrite resolve_view by done.
  unfold PushIndexed, PushResolved.
  assert (materialized r st2 = Some a) as -> by (unfold materialized, st2; rewrite Est; cbn; by rewrite lookup_insert_eq).
  assert (tables st2 = h) as Ht by (unfold st2; by rewrite Est).
  rewrite (resolve_hwalk fuel p st2 (RTab a) (RTab b)) by (by rewrite Ht). cbn [res_bind].
  cbn [hwalk] in Hwk. replace (gettable fuel st2 (RTab b) k) with (Ok (st2, default RNil (default ∅ (h !! b) !! k)))
    by (rewrite <- Ht; by destruct fuel).
  cbn [res_bind]. apply resolve_hwalk. by rewrite Ht.
Qed.

(** ** Writing *)
Lemma rawset_at h a k y b k' : (b <> a \/ k' <> k) ->
  default RNil (default ∅ (rawset h a k y !! b) !! k') = default RNil (default ∅ (h !! b) !! k').
Proof.
  intros Hn. destruct (decide (b = a)) as [->|]; [|by rewrite rawset_ne]. destruct Hn as [|Hk]; [done|].
  rewrite rawset_eq. cbn [default from_option id]. destruct y; by rewrite ?lookup_delete_ne, ?lookup_insert_ne.
Qed.
Lemma rawset_same h a k y : default RNil (default ∅ (rawset h a k y !! a) !! k) = y.
Proof. rewrite rawset_eq. cbn [default from_option id]. destruct y; by rewrite ?lookup_delete_eq, ?lookup_insert_eq. Qed.
Lemma hwalk_rawset h a k y ks : forall v,
  (forall pre k' suf, ks = pre ++ k' :: suf -> hwalk h v pre = Some (RTab a) -> k' <> k) ->
  hwalk (rawset h a k y) v ks = hwalk h v ks.
Proof.
  induction ks as [|k0 ks IH]; intros v Hp; [done|]. cbn [hwalk]. destruct v as [|b| |]; try done.
  rewrite rawset_at.
  - apply IH. intros pre k' suf -> H. apply (Hp (k0 :: pre) k' suf eq_refl). exact H.
  - destruct (decide (b = a)) as [->|]; [right|by left]. by apply (Hp [] k0 ks).
Qed.
(** The state after the first write of a message. *)
Lemma first_write fuel st r p x q k y : fresh_view st r p x q -> exists a b h,
  NodeNewIndex fuel st r p x k y = Ok {| tables := rawset h b k y;
    messages := <[r := {| retained := q; table := Some a |}]> (messages st) |} /\
  keeps (tables st) h /\ laid (tables st) h (Push q) (RTab a) /\ hwalk h (RTab a) p = Some (RTab b).
Proof.
  intros Hv. destruct (table_place _ _ _ _ _ Hv) as (a & b & h & Est & K & L & Hp & _). exists a, b, h.
  split; [|done]. unfold NodeNewIndex. cbn [settable]. rewrite Est. unfold PushResolved.
  assert (forall h', materialized r {| tables := h'; messages := <[r := {| retained := q; table := Some a |}]> (messages st) |} = Some a) as ->
    by (intros h'; unfold materialized; cbn; by rewrite lookup_insert_eq).
  rewrite (resolve_hwalk fuel p _ (RTab a) (RTab b)) by done. cbn [res_bind]. by destruct fuel.
Qed.
(** A read through a view of a materialized message whose place is a table. *)
Lemma read_table fuel st r p x k a b : materialized r st = Some a -> hwalk (tables st) (RTab a) p = Some (RTab b) ->
  k <> materialize_key ->
  NodeIndex fuel st r p x k = Ok (st, default RNil (default ∅ (tables st !! b) !! k)).
Proof.
  intros Hm Hp Hk. unfold NodeIndex. cbn [gettable]. rewrite bool_decide_eq_false_2 by done.
  unfold PushIndexed, PushResolved. rewrite Hm, (resolve_hwalk fuel p st (RTab a) (RTab b) Hp). cbn [res_bind]. by destruct fuel.
Qed.

(** ** Paths *)
Lemma path_split fuel s rest : path_loop fuel s rest false = split_loop fuel s rest.
Proof.
  revert rest. induction fuel as [|fuel IH]; intros rest; [done|]. cbn [path_loop split_loop].
  destruct (find_in s rest) as [n|]; [|done]. cbn [andb]. by rewrite IH.
Qed.
Lemma parts_split s k : find_in s k <> Some O -> path_parts s k = split_loop (S (String.length k)) s k.
Proof.
  intros Hn. unfold path_parts. cbn [path_loop split_loop]. destruct (find_in s k) as [[|n]|]; [done| |done].
  cbn [andb bool_decide]. by rewrite <- path_split.
Qed.
Lemma split_nonempty fuel s rest : split_loop (S fuel) s rest <> [].
Proof. cbn [split_loop]. by destruct (find_in s rest). Qed.
Lemma view_walk fuel parts : forall st r p x q y, fresh_view st r p x q -> parts <> [] ->
  Forall key_ok (map PushPathPart parts) -> at_path x (map PushPathPart parts) = Some y ->
  exists st1 v1, view_loop fuel parts st (RView r p x) = Ok (st1, v1) /\ view_shows r (p ++ map PushPathPart parts) (Push y) v1.
Proof.
  induction parts as [|part parts IH]; intros st r p x q y Hv Hne Hk; [done|]. cbn [map at_path] in *.
  apply Forall_cons in Hk as [Hk Hks]. destruct (at_key x (PushPathPart part)) as [z|] eqn:Ez; [|done]. intros Hy.
  cbn [view_loop]. rewrite (indexed_fresh _ _ _ _ _ _ _ Hv), Ez. unfold PushChildView. destruct (is_container z) eqn:Hc; cbn [res_bind].
  - destruct parts as [|part' parts].
    + injection Hy as <-. by eexists _, _.
    + destruct (IH st r (p ++ [PushPathPart part]) z q y) as (st1 & v1 & E & Hs); [by eapply fresh_view_child|done|done|done|].
      exists st1, v1. split; [exact E|]. by rewrite <- app_assoc in Hs.
  - destruct (push_plain_spec z st) as (h & v & -> & K & L1 & L2). cbn [res_bind]. destruct parts as [|part' parts].
    + injection Hy as <-. destruct (L1 h (store_keeps_refl h) [] _ eq_refl) as (v' & [= <-] & Hs).
      eexists _, _. split; [done|]. by apply shows_view.
    + cbn [map at_path] in Hy. by destruct z, (PushPathPart part').
Qed.
Lemma get_walk h parts : forall v t, parts <> [] -> hwalk h v (map PushPathPart parts) = Some t -> get_loop h v parts = Ok t.
Proof.
  induction parts as [|part parts IH]; intros v t Hne; [done|]. cbn [map hwalk get_loop]. destruct v as [|a| |]; try done.
  intros H. cbn [rawget]. replace (match h !! a with Some tab => default RNil (tab !! PushPathPart part) | None => RNil end)
    with (default RNil (default ∅ (h !! a) !! PushPathPart part)) by (by destruct (h !! a)).
  cbn [res_bind]. destruct parts as [|part' parts].
  - injection H as <-. by destruct (default RNil _).
  - assert (get_loop h (default RNil (default ∅ (h !! a) !! PushPathPart part)) (part' :: parts) = Ok t) as <- by (by apply IH).
    destruct (default RNil _); [|done..]. cbn in H. discriminate.
Qed.

(** ** Iteration: a generic [for], its control value handed back each turn *)
Fixpoint iterate (n : nat) (step : option LKey -> LState -> res (LState * option (LKey * LRef))) (ctl : option LKey)
    (st : LState) : option (LState * list (LKey * LRef)) :=
  match n with
  | O => None
  | S n =>
      match step ctl st with
      | Ok (st, None) => Some (st, [])
      | Ok (st, Some (k, v)) =>
          match iterate n step (Some k) st with Some (st, l) => Some (st, (k, v) :: l) | None => None end
      | Raise _ => None
      end
  end.
(** The entries of a container, in the order of the view's iteration. *)
Definition entries_of (x : QVar) : list (LKey * QVar) :=
  match x with
  | VMap m => map (fun kv => (KStr kv.1, kv.2)) m
  | VList l => imap (fun i v => (KInt (Z.of_nat i + 1), v)) l
  | _ => []
  end.
Definition visits (r : nat) (p : list LKey) (e : LKey * QVar) (o : LKey * LRef) : Prop :=
  o.1 = e.1 /\ view_shows r (p ++ [e.1]) (Push e.2) o.2.

Lemma child_view r p k y st : exists h v, PushChildView r p k y st = (set_tables h st, v) /\ view_shows r (p ++ [k]) (Push y) v.
Proof.
  unfold PushChildView. destruct (is_container y).
  - exists (tables st), (RView r (p ++ [k]) y). by destruct st.
  - destruct (push_plain_spec y st) as (h & v & -> & K & L1 & L2). exists h, v. split; [done|].
    destruct (L1 h (store_keeps_refl h) [] _ eq_refl) as (v' & [= <-] & Hs). by apply shows_view.
Qed.
Lemma upperBound_next pre k v suf : qm_sorted (pre ++ (k, v) :: suf) = true -> upperBound k (pre ++ (k, v) :: suf) = head suf.
Proof.
  induction pre as [|[j w] pre IH]; cbn [app qm_sorted upperBound].
  - intros [Ha _]%andb_true_iff. rewrite str_ltb_irrefl. destruct suf as [|[k' v'] suf]; [done|]. cbn in *.
    by apply andb_true_iff in Ha as [-> _].
  - intros [Ha Hs]%andb_true_iff. assert (str_ltb k j = false) as ->; [|by apply IH].
    assert (str_ltb j k = true) as Hj.
    { apply (qm_above_all j (pre ++ (k, v) :: suf) k v Ha), elem_of_app. right. by left. }
    destruct (str_ltb k j) eqn:E; [|done]. pose proof (str_ltb_trans _ _ _ E Hj) as H. by rewrite str_ltb_irrefl in H.
Qed.
(** The control value after the entries [pre]. *)
Definition after (pre : list (LKey * QVar)) : option LKey := fst <$> last pre.
Lemma NextPair_map fuel r p pre suf st : qm_sorted (pre ++ suf) = true -> Forall (fun kv => utf8_ok kv.1 = true) pre ->
  materialized r st = None ->
  NextPair fuel r p (VMap (pre ++ suf)) (after (entries_of (VMap pre))) st =
  match head suf with
  | Some (k, y) => let '(st, v) := PushChildView r p (KStr k) y st in Ok (st, Some (KStr k, v))
  | None => Ok (st, None)
  end.
Proof.
  intros Hs Hu Hm. unfold NextPair, after. rewrite Hm. destruct pre as [|[k v] pre _] using rev_ind; [done|].
  apply Forall_app in Hu as [_ Hu]. apply Forall_cons in Hu as [Hk _]. cbn [fst] in Hk.
  cbn [entries_of]. rewrite map_app, last_app. cbn [map last fmap option_fmap option_map fst key_string].
  rewrite <- app_assoc in *. cbn [app default from_option] in *. rewrite Hk, upperBound_next by done. done.
Qed.
Lemma NextPair_list fuel r p pre suf st : materialized r st = None ->
  NextPair fuel r p (VList (pre ++ suf)) (after (entries_of (VList pre))) st =
  match suf with
  | y :: _ => let k := KInt (Z.of_nat (length pre) + 1) in
              let '(st, v) := PushChildView r p k y st in Ok (st, Some (k, v))
  | [] => Ok (st, None)
  end.
Proof.
  intros Hm. unfold NextPair, after. rewrite Hm.
  assert (match fst <$> last (entries_of (VList pre)) with None => 1 | Some (KInt i) => i + 1 | Some _ => 1 end
          = Z.of_nat (length pre) + 1) as ->.
  { destruct pre as [|x pre _] using rev_ind; [done|]. cbn [entries_of]. rewrite imap_app, last_app. cbn. rewrite length_app. cbn. lia. }
  rewrite length_app. rewrite (proj2 (Z.ltb_ge _ 1)) by lia. cbn [orb].
  replace (Z.to_nat (Z.of_nat (length pre) + 1 - 1)) with (length pre) by lia.
  destruct suf as [|y suf].
  - rewrite (proj2 (Z.ltb_lt _ _)) by (cbn; lia). done.
  - rewrite (proj2 (Z.ltb_ge _ _)) by (cbn; lia). by rewrite (list_lookup_middle pre suf y).
Qed.
Lemma NextPair_entries fuel r p x st n : is_container x = true -> qvar_wf x = true ->
  match x with VMap m => Forall (fun kv => utf8_ok kv.1 = true) m | _ => True end ->
  (n <= length (entries_of x))%nat -> materialized r st = None ->
  NextPair fuel r p x (after (take n (entries_of x))) st =
  match drop n (entries_of x) with
  | (k, y) :: _ => let '(st, v) := PushChildView r p k y st in Ok (st, Some (k, v))
  | [] => Ok (st, None)
  end.
Proof.
  destruct x as [| | | | | | | | | | | |l|m|]; try done; intros _ Hwf Hu Hn Hm.
  - cbn [entries_of] in *. rewrite length_imap in Hn.
    assert (length (take n l) = n) as Hl by (rewrite length_take; lia).
    pose proof (NextPair_list fuel r p (take n l) (drop n l) st Hm) as H. rewrite take_drop in H.
    set (f := fun i v => (KInt (Z.of_nat i + 1), v)) in *.
    assert (imap f l = imap f (take n l) ++ imap (fun i v => f (n + i)%nat v) (drop n l)) as El.
    { rewrite <- (take_drop n l) at 1. by rewrite imap_app, Hl. }
    assert (take n (imap f l) = imap f (take n l) /\ drop n (imap f l) = imap (fun i v => f (n + i)%nat v) (drop n l)) as [-> ->].
    { rewrite El. split; [apply take_app_length'|apply drop_app_length']; by rewrite length_imap. }
    cbn [entries_of] in H. fold f in H. rewrite H, Hl. destruct (drop n l) as [|y ys]; [done|].
    cbn [imap]. unfold f. by rewrite Nat.add_0_r.
  - cbn [entries_of] in *. cbn in Hwf. apply andb_true_iff in Hwf as [Hs _].
    rewrite <- (take_drop n m) in Hs. pose proof Hu as Hu'. rewrite <- (take_drop n m) in Hu'. apply Forall_app in Hu' as [Hu' _].
    pose proof (NextPair_map fuel r p (take n m) (drop n m) st Hs Hu' Hm) as H. rewrite take_drop in H. cbn [entries_of] in H.
    rewrite List.firstn_map, List.skipn_map, H. by destruct (drop n m) as [|[k y] ?].
Qed.
Lemma iterate_entries fuel r p x : is_container x = true -> qvar_wf x = true ->
  match x with VMap m => Forall (fun kv => utf8_ok kv.1 = true) m | _ => True end ->
  forall k n st, (n + k = length (entries_of x))%nat -> materialized r st = None ->
  exists h out, iterate (S k) (NextPair fuel r p x) (after (take n (entries_of x))) st = Some (set_tables h st, out) /\
    Forall2 (visits r p) (drop n (entries_of x)) out.
Proof.
  intros Hc Hwf Hu. induction k as [|k IH]; intros n st Hn Hm; cbn [iterate];
    rewrite NextPair_entries by (done || lia).
  - rewrite drop_ge by lia. exists (tables st), []. split; [by destruct st|constructor].
  - destruct (drop n (entries_of x)) as [|[key y] es] eqn:Ed.
    { apply (f_equal length) in Ed. rewrite length_drop in Ed. cbn in Ed. lia. }
    destruct (child_view r p key y st) as (h & v & -> & Hv).
    assert (entries_of x !! n = Some (key, y)) as Ex by (by rewrite <- (Nat.add_0_r n), <- lookup_drop, Ed).
    destruct (IH (S n) (set_tables h st)) as (h' & out & E & Ho); [lia|done|].
    assert (after (take (S n) (entries_of x)) = Some key) as Ea.
    { unfold after. rewrite (take_S_r _ _ _ Ex), last_snoc. done. }
    rewrite Ea in E. cbn [iterate] in E. rewrite E. exists h', ((key, v) :: out). split; [done|]. constructor; [done|].
    replace es with (drop (S n) (entries_of x)); [done|]. rewrite (drop_S _ _ _ Ex) in Ed. congruence.
Qed.
End views.

(** A message for the witnesses: [{a = {x = 1}, l = {10, 20}}]. *)
Definition sample_message : QVar := VMap [("a", VMap [("x", VInt 1)]); ("l", VList [VInt 10; VInt 20])].
Definition sample_state : LState := {| tables := ∅; messages := {[ 0%nat := {| retained := sample_message; table := None |} ]} |}.
Lemma sample_fresh (LO := plain_ops) : fresh_view sample_state 0 [] sample_message sample_message.
Proof. split; try reflexivity. constructor. Qed.
Lemma sample_fresh_a (LO := plain_ops) : fresh_view sample_state 0 [KStr "a"] (VMap [("x", VInt 1)]) sample_message.
Proof. split; try reflexivity. by repeat constructor. Qed.

(** * Properties *)

(** C9: a view reads like the table it stands for: for every view of a message and every
    sequence of keys that leads to a value - numbers or UTF-8 strings, other than
    [materialize], which every view resolves to its function first -, indexing the view
    yields that value - as a view of its place when it is a map or a list - and, once
    the message is materialized, the same reads yield the same value from its table. *)
Theorem view_reads_like_table (LO : LuaOps) (LI : LuaInterp) fuel st r p x q ks t :
  fresh_view st r p x q -> ks <> [] -> Forall plain_key ks -> look (Push x) ks = Some t ->
  (exists st1 v1, resolve (gettable (S fuel)) ks st (RView r p x) = Ok (st1, v1) /\ view_shows r (p ++ ks) t v1) /\
  (let st2 := MaterializeMessage r st in
   exists v2, resolve (gettable (S fuel)) ks st2 (RView r p x) = Ok (st2, v2) /\ shows t v2).
Proof. intros Hv Hne Hks Hl. split; [by eapply lazy_walk|by eapply table_walk]. Qed.
Lemma view_reads_like_table_witness (LO := plain_ops) :
  exists v2, resolve (gettable 1) [KStr "l"; KInt 2] (MaterializeMessage 0 sample_state) (RView 0 [] sample_message)
    = Ok (MaterializeMessage 0 sample_state, v2) /\ v2 = RVal (LInt 20).
Proof.
  apply (view_reads_like_table plain_ops plain_interp 0 sample_state 0 [] sample_message sample_message [KStr "l"; KInt 2] (LInt 20)
    sample_fresh ltac:(discriminate)); [|reflexivity]. repeat constructor; discriminate.
Defined.

(** C10: the first write through any view lands in the message and nowhere else: it
    never fails, the value is what that view and every other view of the same place then
    reads under the key, every read through a view that does not pass through the
    overwritten slot is what it was, and tables that existed before are untouched. The
    reads are those with a number or a UTF-8 string other than [materialize] as their
    key. *)
Theorem write_lands_in_message (LO : LuaOps) (LI : LuaInterp) fuel st r p x q k y :
  fresh_view st r p x q -> exists st', NodeNewIndex fuel st r p x k y = Ok st' /\
    keeps (tables st) (tables st') /\ (forall r', r' <> r -> messages st' !! r' = messages st !! r') /\
    forall p2 x2 k2 t, fresh_view st r p2 x2 q -> plain_key k2 -> ~ (p ++ [k]) `prefix_of` p2 -> look (Push x2) [k2] = Some t ->
      exists v, NodeIndex fuel st' r p2 x2 k2 = Ok (st', v) /\ (if decide (p2 = p /\ k2 = k) then v = y else shows t v).
Proof.
  intros Hv. destruct (first_write fuel st r p x q k y Hv) as (a & b & h & E & K & L & Hp). eexists. split; [exact E|].
  pose proof L as (La & Lb & Lc). destruct (Lb _ _ Hp) as [Hb _]. split; [|split].
  - intros c Hc. cbn. rewrite rawset_ne; [by apply K|]. intros ->. rewrite Hb in Hc. by destruct Hc.
  - intros r' Hr. cbn. by rewrite lookup_insert_ne.
  - intros p2 x2 k2 t Hv2 [Hk2 Hne2] Hpre Ht.
    destruct (laid_place _ _ _ _ _ _ _ _ Hv2 L) as (b2 & Hp2 & Hw2).
    assert (hwalk (rawset h b k y) (RTab a) p2 = Some (RTab b2)) as Hp2'.
    { rewrite hwalk_rawset; [done|]. intros pre k' suf -> Hpre'. rewrite (Lc _ _ _ Hpre' Hp) in Hpre.
      intros ->. apply Hpre. exists suf. by rewrite <- app_assoc. }
    eexists. split; [apply (read_table fuel _ r p2 x2 k2 a b2); [|exact Hp2'|done];
      unfold materialized; cbn; by rewrite lookup_insert_eq|]. cbn [tables].
    destruct (decide (p2 = p /\ k2 = k)) as [[-> ->]|Hn].
    + assert (b2 = b) as -> by congruence. by rewrite rawset_same.
    + rewrite rawset_at; [destruct (Hw2 [k2] t Ht) as (v & [= <-] & Hs); exact Hs|].
      destruct (decide (b2 = b)) as [->|]; [right|by left]. intros ->. apply Hn. split; [|done]. by apply (Lc _ _ b).
Qed.
Lemma write_lands_in_message_witness (LO := plain_ops) : exists st',
  NodeNewIndex 0 sample_state 0 [KStr "a"] (VMap [("x", VInt 1)]) (KStr "y") (RVal (LInt 5)) = Ok st' /\
  NodeIndex 0 st' 0 [KStr "a"] (VMap [("x", VInt 1)]) (KStr "y") = Ok (st', RVal (LInt 5)).
Proof.
  destruct (write_lands_in_message plain_ops plain_interp 0 sample_state 0 [KStr "a"] _ sample_message (KStr "y") (RVal (LInt 5))
    sample_fresh_a) as (st' & E & _ & _ & H). exists st'. split; [exact E|].
  destruct (H [KStr "a"] (VMap [("x", VInt 1)]) (KStr "y") LNil) as (v & Hv & Hd).
  - apply sample_fresh_a.
  - split; [reflexivity|discriminate].
  - intros [l Hl]. discriminate Hl.
  - reflexivity.
  - rewrite decide_True in Hd by done. subst v. exact Hv.
Defined.

(** [get] on a view agrees with [get] on the table it stands for: for a path
    that does not begin with its separator, leads to a value and whose parts are
    text, both find that value, before and after the message is materialized. *)
Theorem get_view_agrees (LO : LuaOps) (LI : LuaInterp) fuel st r p x q path sep s y :
  fresh_view st r p x q -> Sep sep = Ok s -> path <> "" -> path <> s -> find_in s path <> Some O ->
  let keys := map PushPathPart (path_parts s path) in
  Forall key_ok keys -> at_path x keys = Some y ->
  (exists st1 v1, GetPath fuel st r p x path sep = Ok (st1, v1) /\ view_shows r (p ++ keys) (Push y) v1) /\
  (let st2 := MaterializeMessage r st in
   exists v2, GetPath fuel st2 r p x path sep = Ok (st2, v2) /\ shows (Push y) v2).
Proof.
  intros Hv Hs Hne Hnes Hf keys Hk Hy. unfold keys in *. rewrite parts_split in * by done. split.
  - assert (GetPath fuel st r p x path sep = view_loop fuel (split_loop (S (String.length path)) s path) st (RView r p x)) as ->.
    { destruct fuel; cbn [GetPath]; rewrite Hs, (fresh_view_unmaterialized _ _ _ _ _ Hv); cbn [res_bind];
        by rewrite !bool_decide_eq_false_2. }
    eapply view_walk; [exact Hv|apply split_nonempty|done|done].
  - set (st2 := MaterializeMessage r st).
    destruct (table_place _ _ _ _ _ Hv) as (a & b & h & Est & _ & _ & Hp & Hw).
    destruct (Hw _ _ (look_at_path _ _ _ (at_path_wf _ _ _ (fv_place _ _ _ _ _ Hv) (fv_wf _ _ _ _ _ Hv)) Hk Hy)) as (v & Hvk & Hsv).
    exists v. split; [|done].
    assert (materialized r st2 = Some a) as Hm by (unfold materialized, st2; rewrite Est; cbn; by rewrite lookup_insert_eq).
    assert (tables st2 = h) as Ht by (unfold st2; by rewrite Est).
    assert (PushResolved (gettable fuel) r p st2 = Ok (st2, RTab b)) as Hr.
    { unfold PushResolved. rewrite Hm. apply resolve_hwalk. by rewrite Ht. }
    assert (Get (tables st2) b path sep = Ok v) as Hg.
    { unfold Get. rewrite Hs. cbn [res_bind]. rewrite !bool_decide_eq_false_2 by done. cbn [orb]. rewrite parts_split by done.
      apply get_walk; [apply split_nonempty|]. by rewrite Ht. }
    destruct fuel; cbn [GetPath]; rewrite Hs, Hm; cbn [res_bind]; rewrite Hr; cbn [res_bind]; by rewrite Hg.
Qed.
Lemma get_view_agrees_witness (LO := plain_ops) :
  exists v2, GetPath 0 (MaterializeMessage 0 sample_state) 0 [] sample_message "l:[2]" None
    = Ok (MaterializeMessage 0 sample_state, v2) /\ v2 = RVal (LInt 20).
Proof.
  apply (get_view_agrees plain_ops plain_interp 0 sample_state 0 [] sample_message sample_message "l:[2]" None ":" (VInt 20)
    sample_fresh eq_refl ltac:(discriminate) ltac:(discriminate) ltac:(discriminate)); [|reflexivity].
  vm_compute. repeat constructor.
Defined.

(** Iterating a view visits every entry of the map or list exactly once, in
    order, each with its key and its value (nulls included), and then stops. *)
Theorem pairs_visit_all (LO : LuaOps) (LI : LuaInterp) fuel st r p x q :
  fresh_view st r p x q -> match x with VMap m => Forall (fun kv => utf8_ok kv.1 = true) m | _ => True end ->
  exists h out, iterate (S (length (entries_of x))) (NextPair fuel r p x) None st = Some (set_tables h st, out) /\
    Forall2 (visits r p) (entries_of x) out.
Proof.
  intros Hv Hu.
  apply (iterate_entries fuel r p x (fv_container _ _ _ _ _ Hv) (at_path_wf _ _ _ (fv_place _ _ _ _ _ Hv) (fv_wf _ _ _ _ _ Hv)) Hu
    (length (entries_of x)) 0 st eq_refl (fresh_view_unmaterialized _ _ _ _ _ Hv)).
Qed.
Lemma pairs_visit_all_witness (LO := plain_ops) : exists h out,
  iterate 3 (NextPair 0 0 [] sample_message) None sample_state = Some (set_tables h sample_state, out) /\
  map fst out = [KStr "a"; KStr "l"].
Proof.
  destruct (pairs_visit_all plain_ops plain_interp 0 sample_state 0 [] sample_message sample_message sample_fresh)
    as (h & out & E & Ho); [repeat constructor|]. exists h, out. split; [exact E|].
  inversion Ho as [|? ? ? ? [E1 _] Ho']; subst. inversion Ho' as [|? ? ? ? [E2 _] Ho'']; subst. inversion Ho''; subst.
  cbn in *. by rewrite E1, E2.
Defined.

(** Assigning a view to its own place ([msg.a = msg.a]) makes the place refer to
    itself: any later read through the view nests without end. *)
Theorem self_assignment_overflows (LO : LuaOps) (LI : LuaInterp) fuel st r p xp q k x :
  fresh_view st r p xp q -> exists st', NodeNewIndex fuel st r p xp k (RView r (p ++ [k]) x) = Ok st' /\
    forall n k', k' <> materialize_key -> gettable n st' (RView r (p ++ [k]) x) k' = Raise overflow.
Proof.
  intros Hv. destruct (first_write fuel st r p xp q k (RView r (p ++ [k]) x) Hv) as (a & b & h & E & _ & (_ & _ & Lc) & Hp).
  eexists. split; [exact E|]. intros n k' Hk. induction n as [|n IH]; [done|].
  set (st' := {| tables := _; messages := _ |}) in *. cbn [gettable]. rewrite bool_decide_eq_false_2 by done.
  unfold PushIndexed, PushResolved.
  assert (materialized r st' = Some a) as -> by (unfold materialized, st'; cbn; by rewrite lookup_insert_eq).
  rewrite (resolve_hwalk n (p ++ [k]) st' (RTab a) (RView r (p ++ [k]) x)); [exact IH|].
  assert (hwalk (tables st') (RTab a) p = Some (RTab b)) as Hp'.
  { cbn [tables st']. rewrite hwalk_rawset; [done|]. intros pre k0 suf Ep Hpre. pose proof (Lc _ _ _ Hpre Hp) as ->.
    exfalso. apply (f_equal length) in Ep. rewrite length_app in Ep. cbn in Ep. lia. }
  rewrite hwalk_app, Hp'. cbn [hwalk tables st']. by rewrite rawset_same.
Qed.

(** A path that begins with its separator is read differently by a view and by
    the table it stands for. *)
Theorem get_leading_separator (LO := plain_ops) :
  GetPath 0 sample_state 0 [] sample_message ":l:[2]" None = Ok (sample_state, RNil) /\
  exists st2, GetPath 0 (MaterializeMessage 0 sample_state) 0 [] sample_message ":l:[2]" None = Ok (st2, RVal (LInt 20)).
Proof. split; [reflexivity|]. eexists. vm_compute. reflexivity. Qed.
