(* ===== verification/LazyMemory.v ===== *)
(** * The memory of lazy views ([src/src/lazy.cpp], [PushRoot], [PushView], [Connect])

    [Lazy] says what a view shows; this file says why what it points to is still
    there.  A view is a userdata with two plain pointers, to the owner of its message
    and to the view it was indexed from; the owner is embedded in the userdata of the
    message's root.  What keeps them valid is a Lua reference from each view to its
    parent (user value 1); the table of a materialized message is a user value of the
    root (3).  The collector may free anything a script cannot reach, whenever it runs,
    in any order. *)
From S2P Require Import Prelude.

Record View := {
  owner : nat;                    (* the root whose userdata embeds the [LazyOwner] *)
  parent : option nat;            (* [LazyUserData::parent] *)
  keep : option nat;              (* user value 1 *)
  view_freed : bool
}.
Record Heap := {
  views : list View;
  message_tables : gmap nat (list nat);   (* user value 3 of a root: the views stored in its table *)
  materialized : list nat;                (* [LazyOwner::materialized] *)
  script : list nat                       (* the views on stacks and in the script's own tables *)
}.
Definition heap_init : Heap := {| views := []; message_tables := ∅; materialized := []; script := [] |}.
(** What a script can reach. *)
Inductive reachable (h : Heap) : nat -> Prop :=
| reach_script v : v ∈ script h -> reachable h v
| reach_keep v x p : reachable h v -> views h !! v = Some x -> keep x = Some p -> reachable h p
| reach_table r l v : reachable h r -> message_tables h !! r = Some l -> v ∈ l -> reachable h v.

(** [PushRoot] and [PushView]. *)
Definition PushRoot (h : Heap) : Heap :=
  let v := length (views h) in
  {| views := views h ++ [{| owner := v; parent := None; keep := None; view_freed := false |}]; message_tables := message_tables h;
     materialized := materialized h; script := v :: script h |}.
Definition Connect (keepIdx : option nat) (x : View) : View := {| owner := owner x; parent := parent x; keep := keepIdx; view_freed := view_freed x |}.
Definition PushView (own : nat) (par : nat) (h : Heap) : Heap :=
  let v := length (views h) in
  {| views := views h ++ [Connect (Some par) {| owner := own; parent := Some par; keep := None; view_freed := false |}]; message_tables := message_tables h;
     materialized := materialized h; script := v :: script h |}.
(** [PushRootView]: from link to link to the root. *)
Fixpoint PushRootView (fuel : nat) (h : Heap) (v : nat) : option nat :=
  match fuel with
  | O => None
  | S fuel => x ← views h !! v; if view_freed x then None else match keep x with None => Some v | Some p => PushRootView fuel h p end
  end.
(** [MaterializeMessage]: the table goes to the root the links lead to, the flag to
    the owner the pointer names. *)
Definition MaterializeMessage (v : nat) (h : Heap) : option Heap :=
  x ← views h !! v;
  if bool_decide (owner x ∈ materialized h) then Some h
  else
    r ← PushRootView (S v) h v;
    Some {| views := views h; message_tables := <[r := []]> (message_tables h); materialized := owner x :: materialized h; script := script h |}.
(** [msg.a = w]: [w] is stored in the table of the message of [v]. *)
Definition store (v w : nat) (h : Heap) : option Heap :=
  h ← MaterializeMessage v h;
  r ← PushRootView (S v) h v;
  l ← message_tables h !! r;
  Some {| views := views h; message_tables := <[r := w :: l]> (message_tables h); materialized := materialized h; script := script h |}.
(** [NodeGc] of a set of views: each frees its own memory, and a root's the owner in it. *)
Definition free_in (dead : gset nat) (v : nat) (x : View) : View :=
  if bool_decide (v ∈ dead) then {| owner := owner x; parent := parent x; keep := keep x; view_freed := true |} else x.
Definition NodeGc (dead : gset nat) (h : Heap) : Heap :=
  {| views := imap (free_in dead) (views h);
     message_tables := message_tables h; materialized := materialized h; script := script h |}.
Definition set_script (l : list nat) (h : Heap) : Heap := {| views := views h; message_tables := message_tables h; materialized := materialized h; script := l |}.

Inductive step : Heap -> Heap -> Prop :=
| step_root h : step h (PushRoot h)
| step_index h v x : reachable h v -> views h !! v = Some x -> (owner x ∉ materialized h) -> step h (PushView (owner x) v h)
| step_materialize h v h' : reachable h v -> MaterializeMessage v h = Some h' -> step h h'
| step_store h v w h' : reachable h v -> reachable h w -> store v w h = Some h' -> step h h'
| step_fetch h v : reachable h v -> step h (set_script (v :: script h) h)
| step_drop h l : l ⊆ script h -> step h (set_script l h)
| step_erase h r l l' : message_tables h !! r = Some l -> l' ⊆ l ->
    step h {| views := views h; message_tables := <[r := l']> (message_tables h); materialized := materialized h; script := script h |}
| step_collect h dead : (forall v, v ∈ dead -> ~ reachable h v) -> step h (NodeGc dead h).

Record sound (h : Heap) : Prop := {
  links : forall v x, views h !! v = Some x -> keep x = parent x /\
    match parent x with None => owner x = v | Some p => (p < v)%nat /\ exists y, views h !! p = Some y /\ owner y = owner x end;
  alive : forall v, reachable h v -> exists x, views h !! v = Some x /\ view_freed x = false;
  tabled : forall r, r ∈ materialized h <-> is_Some (message_tables h !! r);
  in_heap : forall r l, message_tables h !! r = Some l -> (r < length (views h))%nat /\ forall v, v ∈ l -> (v < length (views h))%nat
}.
Lemma heap_sound_init : sound heap_init.
Proof.
  split; cbn.
  - intros v x. by rewrite lookup_nil.
  - intros v H. exfalso. induction H as [v H|v x p _ IH E|r l v _ IH E]; [by apply elem_of_nil in H|done..].
  - intros r. rewrite lookup_empty. split; [intros H; by apply elem_of_nil in H|intros [? ?]; done].
  - done.
Qed.
(** From a reachable view the links lead to its owner, all of it alive. *)
Lemma chain (h : Heap) : sound h -> forall v x, reachable h v -> views h !! v = Some x ->
  reachable h (owner x) /\ forall fuel, (v < fuel)%nat -> PushRootView fuel h v = Some (owner x).
Proof.
  intros Hs v. induction v as [v IH] using lt_wf_ind. intros x R E. destruct (links h Hs v x E) as [K P].
  destruct (alive h Hs v R) as (x' & E' & F). assert (x' = x) as -> by congruence. destruct (parent x) as [p|] eqn:Px.
  - destruct P as (Lt & y & Y & O). assert (Rp : reachable h p) by (eapply reach_keep; eauto).
    destruct (IH p Lt y Rp Y) as [Ro Hf]. rewrite O in Ro, Hf. split; [done|]. intros [|fuel] Hl; [lia|]. cbn. rewrite E. cbn. rewrite F, K. apply Hf. lia.
  - split; [by rewrite P|]. intros [|fuel] Hl; [lia|]. cbn. rewrite E. cbn. by rewrite F, K, P.
Qed.

(** A step reaches nothing new but what it makes. *)
Lemma reach_sub (h h' : Heap) (new : nat -> Prop) :
  (forall v, v ∈ script h' -> reachable h v \/ new v) ->
  (forall v x p, views h' !! v = Some x -> keep x = Some p -> (new v /\ reachable h p) \/ exists x0, views h !! v = Some x0 /\ keep x0 = Some p /\ ~ new v) ->
  (forall r l v, message_tables h' !! r = Some l -> v ∈ l -> ~ new r /\ (reachable h v \/ exists l0, message_tables h !! r = Some l0 /\ v ∈ l0)) ->
  forall v, reachable h' v -> reachable h v \/ new v.
Proof.
  intros H1 H2 H3 v R. induction R as [v Hv|v x p _ IH E K|r l v _ IH E Hv]; [by apply H1| |].
  - destruct (H2 v x p E K) as [[_ ?]|(x0 & E0 & K0 & N)]; [by left|]. left. destruct IH as [IH|]; [|done]. by eapply reach_keep.
  - destruct (H3 r l v E Hv) as [N [?|(l0 & E0 & Hl)]]; [by left|]. left. destruct IH as [IH|]; [|done]. by eapply reach_table.
Qed.

Lemma root_of (h : Heap) (v r : nat) (x : View) : sound h -> reachable h v -> views h !! v = Some x -> PushRootView (S v) h v = Some r -> r = owner x.
Proof. intros Hs R E P. destruct (chain h Hs v x R E) as [_ C]. rewrite (C (S v)) in P by lia. by injection P. Qed.
(** A reachable root. *)
Lemma root_alive (h : Heap) (v : nat) (x : View) : sound h -> reachable h v -> views h !! v = Some x ->
  exists root, views h !! owner x = Some root /\ view_freed root = false /\ parent root = None.
Proof.
  intros Hs. revert x. induction v as [v IH] using lt_wf_ind. intros x R E.
  destruct (links h Hs v x E) as [K P]. destruct (alive h Hs v R) as (x' & E' & F). assert (x' = x) as -> by congruence.
  destruct (parent x) as [p|] eqn:Px; [|exists x; by rewrite P].
  destruct P as (Lt & y & Y & <-). apply (IH p Lt y); [by eapply reach_keep|done].
Qed.
Lemma reachable_views (h : Heap) (v : nat) : sound h -> reachable h v -> exists x, views h !! v = Some x.
Proof. intros Hs R. destruct (alive h Hs v R) as (x & E & _). eauto. Qed.
Lemma materialize_some (v : nat) (h h' : Heap) : sound h -> reachable h v -> MaterializeMessage v h = Some h' ->
  exists x, views h !! v = Some x /\ views h' = views h /\ script h' = script h /\
    (h' = h /\ owner x ∈ materialized h \/
     (owner x ∉ materialized h) /\ message_tables h' = <[owner x := []]> (message_tables h) /\ materialized h' = owner x :: materialized h).
Proof.
  intros Hs R. unfold MaterializeMessage. destruct (reachable_views h v Hs R) as [x E]. rewrite E. cbn [mbind option_bind].
  case_bool_decide as M; [intros [= <-]; exists x; by eauto 8|]. destruct (PushRootView (S v) h v) as [r|] eqn:P; [|intros D; cbn in D; discriminate D]. cbn [mbind option_bind].
  intros [= <-]. pose proof (root_of h v r x Hs R E P) as ->. exists x. repeat split; auto.
Qed.
(** A new view at the end of the heap. *)
Lemma heap_sound_push (h h' : Heap) (x : View) : sound h -> views h' = views h ++ [x] -> message_tables h' = message_tables h -> materialized h' = materialized h ->
  script h' = length (views h) :: script h -> view_freed x = false ->
  (match parent x with
   | None => keep x = None /\ owner x = length (views h)
   | Some p => keep x = Some p /\ reachable h p /\ exists y, views h !! p = Some y /\ owner y = owner x
   end) -> sound h'.
Proof.
  intros Hs Ev Et Em Es Hf Hx. split.
  - rewrite Ev. intros v y [E|[L E]]%lookup_app_Some.
    + destruct (links h Hs v y E) as [K P]. split; [done|]. destruct (parent y) as [p|]; [|done]. destruct P as (? & z & Z & ?). split; [done|].
      exists z. split; [|done]. by apply lookup_app_l_Some.
    + apply list_lookup_singleton_Some in E as [E <-]. destruct (parent x) as [p|].
      * destruct Hx as (K & _ & y & Y & O). split; [done|]. split; [apply lookup_lt_Some in Y; lia|]. exists y. split; [by apply lookup_app_l_Some|done].
      * destruct Hx as [K O]. split; [done|lia].
  - intros v R. apply (reach_sub h h' (fun v => v = length (views h))) in R as [R| ->].
    + destruct (alive h Hs v R) as (y & E & F). exists y. rewrite Ev. split; [by apply lookup_app_l_Some|done].
    + exists x. by rewrite Ev, lookup_app_r, Nat.sub_diag by lia.
    + rewrite Es. intros w Hw. apply list_elem_of_In in Hw as [<-|Hw]; [by right|left; apply reach_script; by apply list_elem_of_In].
    + rewrite Ev. intros w y p [E|[L E]]%lookup_app_Some K.
      * right. exists y. split; [done|]. split; [done|]. apply lookup_lt_Some in E. lia.
      * left. apply list_lookup_singleton_Some in E as [E <-]. split; [lia|]. destruct (parent x) as [q|]; [destruct Hx as (K' & Rq & _); congruence|]. destruct Hx as [Kn _]. congruence.
    + rewrite Et. intros r l w E Hw. destruct (in_heap h Hs r l E). split; [lia|]. right. eauto.
  - rewrite Em, Et. apply (tabled h Hs).
  - rewrite Et, Ev. intros r l E. destruct (in_heap h Hs r l E) as [? Hl]. rewrite length_app. split; [lia|]. intros v Hv. specialize (Hl v Hv). lia.
Qed.
(** The same views, and nothing that was not reachable made so. *)
Lemma heap_sound_same (h h' : Heap) : sound h -> views h' = views h -> (forall v, v ∈ script h' -> reachable h v) ->
  (forall r l v, message_tables h' !! r = Some l -> v ∈ l -> reachable h v \/ exists l0, message_tables h !! r = Some l0 /\ v ∈ l0) ->
  (forall r, r ∈ materialized h' <-> is_Some (message_tables h' !! r)) ->
  (forall r, is_Some (message_tables h' !! r) -> is_Some (message_tables h !! r) \/ reachable h r) -> sound h'.
Proof.
  intros Hs Ev Hsc Ht Hm Hr. split; [rewrite Ev; apply (links h Hs)| |done|].
  - intros v R. rewrite Ev. apply (reach_sub h h' (fun _ => False)) in R as [R|[]].
    + by apply (alive h Hs).
    + intros w Hw. left. by apply Hsc.
    + rewrite Ev. intros w x p E K. right. exists x. auto.
    + intros r l w E Hw. split; [tauto|]. by apply (Ht r l).
  - rewrite Ev. intros r l E. assert (In : forall v, reachable h v -> (v < length (views h))%nat).
    { intros v R. destruct (alive h Hs v R) as (x & X & _). by eapply lookup_lt_Some. }
    split; [destruct (Hr r ltac:(eauto)) as [[l0 E0]|R]; [by destruct (in_heap h Hs r l0 E0)|by apply In]|].
    intros v Hv. destruct (Ht r l v E Hv) as [R|(l0 & E0 & H0)]; [by apply In|]. destruct (in_heap h Hs r l0 E0) as [_ Hl]. by apply Hl.
Qed.
Lemma heap_sound_materialize (v : nat) (h h' : Heap) : sound h -> reachable h v -> MaterializeMessage v h = Some h' -> sound h' /\ (forall w, reachable h w -> reachable h' w).
Proof.
  intros Hs R M. destruct (materialize_some v h h' Hs R M) as (x & E & Ev & Es & D). destruct (chain h Hs v x R E) as [Ro _].
  destruct D as [[-> _]|(N & Et & Em)]; [done|].
  assert (T : message_tables h !! owner x = None).
  { apply eq_None_not_Some. intros S. by apply N, (tabled h Hs). }
  split.
  - apply (heap_sound_same h); [done|done|rewrite Es; apply reach_script|..].
    + intros r l w. rewrite Et, lookup_insert_Some. intros [[_ <-]|[_ E0]] Hw; [by apply elem_of_nil in Hw|eauto].
    + intros r. rewrite Em, Et. destruct (decide (r = owner x)) as [->|Hn].
      * rewrite lookup_insert_eq. split; [eauto|]. intros _. apply list_elem_of_In. by left.
      * rewrite lookup_insert_ne by done. rewrite <- (tabled h Hs). rewrite !list_elem_of_In. cbn. split; [intros [D|D]; [by symmetry in D|done]|by right].
    + intros r [l Hl]. rewrite Et in Hl. rewrite lookup_insert_Some in Hl. destruct Hl as [[<- _]|[_ ?]]; [by right|left; eauto].
  - intros w Rw. induction Rw as [w Hw|w y p _ IH Y K|r l w _ IH El Hw].
    + apply reach_script. by rewrite Es.
    + eapply reach_keep; [done| |done]. by rewrite Ev.
    + apply (reach_table h' r l w IH); [|done]. rewrite Et, lookup_insert_ne; [done|]. intros Eq. congruence.
Qed.
Lemma store_total (h : Heap) (v w : nat) (x : View) : sound h -> reachable h v -> views h !! v = Some x -> exists h', store v w h = Some h'.
Proof.
  intros Hs R E. destruct (chain h Hs v x R E) as [_ C]. unfold store.
  assert (M : exists h1, MaterializeMessage v h = Some h1).
  { unfold MaterializeMessage. rewrite E. cbn [mbind option_bind]. rewrite (C (S v)) by lia. case_bool_decide; eauto. }
  destruct M as [h1 M]. rewrite M. cbn [mbind option_bind]. destruct (heap_sound_materialize v h h1 Hs R M) as [Hs1 Mono].
  destruct (materialize_some v h h1 Hs R M) as (y & E' & Ev & _ & D). assert (y = x) as -> by congruence.
  rewrite <- Ev in E. destruct (chain h1 Hs1 v x (Mono v R) E) as [_ C1]. rewrite (C1 (S v)) by lia. cbn [mbind option_bind].
  destruct (proj1 (tabled h1 Hs1 (owner x))) as [l ->]; [|by eexists].
  destruct D as [[-> Hm]|(_ & _ & ->)]; [done|]. apply list_elem_of_In. by left.
Qed.
Lemma heap_step_sound (h h' : Heap) : step h h' -> sound h -> sound h'.
Proof.
  intros St Hs. destruct St as [h|h v x R E N|h v h' R M|h v w h' R Rw M|h v R|h l Hl|h r l l' E Hl|h dead Hd].
  - by eapply (heap_sound_push h).
  - eapply (heap_sound_push h); try done. cbn. split; [done|]. split; [done|]. by exists x.
  - by apply (heap_sound_materialize v h h').
  - unfold store in M. destruct (MaterializeMessage v h) as [h1|] eqn:M1; [|done]. cbn [mbind option_bind] in M.
    destruct (heap_sound_materialize v h h1 Hs R M1) as [Hs1 Mono]. assert (R1 := Mono v R). assert (Rw1 := Mono w Rw).
    destruct (PushRootView (S v) h1 v) as [r|] eqn:P; [|done]. cbn [mbind option_bind] in M.
    destruct (message_tables h1 !! r) as [l|] eqn:E; [|done]. injection M as <-.
    apply (heap_sound_same h1); cbn; [done|done|apply reach_script|..].
    + intros q l0 z. rewrite lookup_insert_Some. intros [[<- <-]|[_ E0]] Hz; [|eauto].
      apply list_elem_of_In in Hz as [<-|Hz]; [by left|]. right. exists l. split; [done|]. by apply list_elem_of_In.
    + intros q. rewrite (tabled h1 Hs1). destruct (decide (q = r)) as [->|Hn]; [rewrite lookup_insert_eq, E; by split; eauto|by rewrite lookup_insert_ne].
    + intros q [l0 Hq]. left. apply lookup_insert_Some in Hq as [[<- _]|[_ ?]]; eauto.
  - apply (heap_sound_same h); cbn; [done|done| |eauto|apply (tabled h Hs)|eauto].
    intros w Hw. apply list_elem_of_In in Hw as [<-|Hw]; [done|]. apply reach_script. by apply list_elem_of_In.
  - apply (heap_sound_same h); cbn; [done|done| |eauto|apply (tabled h Hs)|eauto]. intros w Hw. apply reach_script. by apply Hl.
  - apply (heap_sound_same h); cbn; [done|done|apply reach_script|..].
    + intros q l0 z. rewrite lookup_insert_Some. intros [[<- <-]|[_ E0]] Hz; [right; exists l; auto|eauto].
    + intros q. rewrite (tabled h Hs). destruct (decide (q = r)) as [->|Hn]; [rewrite lookup_insert_eq, E; by split; eauto|by rewrite lookup_insert_ne].
    + intros q [l0 Hq]. left. apply lookup_insert_Some in Hq as [[<- _]|[_ ?]]; eauto.
  - set (f := free_in dead).
    assert (G : forall v y, imap f (views h) !! v = Some y -> exists x, views h !! v = Some x /\ owner y = owner x /\ parent y = parent x /\ keep y = keep x /\ ((v ∉ dead) -> y = x)).
    { intros v y. rewrite list_lookup_imap. intros (x & X & ->)%fmap_Some. exists x. split; [done|]. unfold f, free_in. by case_bool_decide. }
    assert (G' : forall v x, views h !! v = Some x -> exists y, imap f (views h) !! v = Some y /\ owner y = owner x /\ ((v ∉ dead) -> y = x)).
    { intros v x X. rewrite list_lookup_imap, X. cbn. eexists. split; [done|]. unfold f, free_in. by case_bool_decide. }
    split; cbn [NodeGc views message_tables materialized script].
    + intros v y (x & X & -> & -> & -> & _)%G. destruct (links h Hs v x X) as [K P]. split; [done|]. destruct (parent x) as [p|]; [|done].
      destruct P as (? & z & Z & O). split; [done|]. destruct (G' p z Z) as (z' & Z' & O' & _). exists z'. by rewrite O'.
    + intros v R. apply (reach_sub h _ (fun _ => False)) in R as [R|[]].
      * destruct (alive h Hs v R) as (x & X & F). destruct (G' v x X) as (y & Y & _ & Ey). exists y. split; [done|]. rewrite Ey; [done|]. intros D. by apply (Hd v D).
      * cbn. intros w Hw. left. by apply reach_script.
      * cbn. intros w y p (x & X & _ & _ & K & _)%G Ky. right. exists x. split; [done|]. split; [congruence|tauto].
      * cbn. intros r l w E Hw. split; [tauto|]. eauto.
    + apply (tabled h Hs).
    + rewrite length_imap. apply (in_heap h Hs).
Qed.

Lemma heap_steps_sound (h : Heap) : rtc step heap_init h -> sound h.
Proof.
  assert (G : forall a b, rtc step a b -> sound a -> sound b).
  { intros a b. induction 1 as [|a b c St _ IH]; [done|]. intros Ha. apply IH. by apply (heap_step_sound a). }
  intros R. by apply (G heap_init), heap_sound_init.
Qed.
(** C17: however scripts index, store and drop views and whenever the collector runs, a
    view a script can reach has its memory, its parent's and its owner's: the pointers
    it carries never dangle.  The links lead to the root its [owner] pointer names, so
    the message's table and the [materialized] flag always belong together, and
    materializing the message never fails. *)
Theorem views_keep_message (h : Heap) (v : nat) (x : View) :
  rtc step heap_init h -> reachable h v -> views h !! v = Some x ->
  view_freed x = false /\ PushRootView (S v) h v = Some (owner x) /\
  (exists root, views h !! owner x = Some root /\ view_freed root = false /\ parent root = None) /\
  (forall p, parent x = Some p -> exists y, views h !! p = Some y /\ view_freed y = false /\ owner y = owner x) /\
  (owner x ∈ materialized h <-> is_Some (message_tables h !! owner x)) /\
  (forall w, exists h', store v w h = Some h').
Proof.
  intros Hs%heap_steps_sound R E. destruct (chain h Hs v x R E) as [Ro C]. specialize (C (S v) ltac:(lia)).
  destruct (alive h Hs v R) as (x' & E' & F). assert (x' = x) as -> by congruence.
  destruct (links h Hs v x E) as [K P]. split; [done|]. split; [done|]. split; [|split; [|split]].
  - by apply (root_alive h v).
  - intros p Hp. rewrite Hp in P, K. destruct P as (_ & y & Y & O). exists y.
    destruct (alive h Hs p) as (y' & Y' & Fy); [by eapply (reach_keep h v)|]. split; [done|]. split; [congruence|done].
  - apply (tabled h Hs).
  - intros w. by apply (store_total h v w x).
Qed.
(** A child view stored in its own message, everything else dropped, and a second
    message that nothing reaches collected. *)
Definition fresh_view (o : nat) (p : option nat) : View := {| owner := o; parent := p; keep := p; view_freed := false |}.
Definition sample_cycle : Heap :=
  default heap_init (store 1%nat 1%nat (PushRoot (PushView 0%nat 0%nat (PushRoot heap_init)))).
Definition sample_heap : Heap := NodeGc {[2%nat]} (set_script [1%nat] sample_cycle).
Lemma sample_reach (v : nat) : reachable (set_script [1%nat] sample_cycle) v -> (v < 2)%nat.
Proof.
  induction 1 as [v H|v x p _ IH E K|r l v _ IH E H].
  - apply list_elem_of_singleton in H. lia.
  - destruct v as [|[|v]]; [| |lia]; vm_compute in E; injection E as <-; cbn in K; [done|injection K as <-; lia].
  - destruct r as [|[|r]]; [| |lia]; vm_compute in E; [injection E as <-; apply list_elem_of_singleton in H; lia|done].
Qed.
Lemma sample_steps : rtc step heap_init sample_heap.
Proof.
  assert (I : forall h v, v ∈ script h -> reachable h v) by (intros; by apply reach_script).
  apply (rtc_l _ _ (PushRoot heap_init)); [apply step_root|].
  apply (rtc_l _ _ (PushView 0%nat 0%nat (PushRoot heap_init))).
  { apply (step_index _ 0%nat (fresh_view 0%nat None)); [by apply I, list_elem_of_singleton|done|apply not_elem_of_nil]. }
  apply (rtc_l _ _ (PushRoot (PushView 0%nat 0%nat (PushRoot heap_init)))); [apply step_root|].
  apply (rtc_l _ _ sample_cycle).
  { apply (step_store _ 1%nat 1%nat); [apply I, list_elem_of_In; cbn; auto..|by vm_compute]. }
  apply (rtc_l _ _ (set_script [1%nat] sample_cycle)).
  { apply step_drop. intros w ->%list_elem_of_singleton. apply list_elem_of_In. vm_compute. auto. }
  apply rtc_once, step_collect. intros v ->%elem_of_singleton H. apply sample_reach in H. lia.
Qed.
Lemma views_keep_message_witness :
  rtc step heap_init sample_heap /\ PushRootView 2 sample_heap 1 = Some 0%nat /\
  (0%nat ∈ materialized sample_heap <-> is_Some (message_tables sample_heap !! 0%nat)).
Proof.
  assert (R : reachable sample_heap 1%nat) by (apply reach_script; by apply list_elem_of_singleton).
  pose proof (views_keep_message sample_heap 1%nat (fresh_view 0%nat (Some 0%nat)) sample_steps R eq_refl) as (_ & P & _ & _ & T & _).
  split; [exact sample_steps|]. split; [exact P|exact T].
Defined.
