(* ===== verification/Config.v ===== *)
(** * Configuration: [include/radapter/config.hpp], [config.cpp], [trace_frame.hpp]

    Every worker reads its configuration with [Parse], writes values back with
    [Dump] and describes itself with [PopulateSchema]: three families of
    overloads resolved on the C++ type.  The types are codes ([CType]), a value
    of a type is a [CVal], and each family is one function by recursion on the
    code, with one branch per overload.  The reflection library ([describe],
    a submodule) and Qt's conversions are the interface [ConfigOps]. *)
From S2P Require Import Prelude QVariant Utils.
Set Warnings "-register-all".

(** ** Trace frames: [trace_frame.hpp]

    Frames live on the stack and point at their parents; [next] is written by
    the printing code.  A frame is its index in a store of frames. *)
Inductive FrameKey :=
| FIdx (i : Z)
| FKey (s : string).
Record TraceFrame := { prev : option nat; next : option nat; fkey : FrameKey }.
Definition IsRoot (f : TraceFrame) : bool := match prev f with None => true | _ => false end.
Definition SetIndex (i : Z) (f : TraceFrame) : TraceFrame :=
  {| prev := prev f; next := next f; fkey := FIdx i |}.
Definition SetKey (s : string) (f : TraceFrame) : TraceFrame :=
  {| prev := prev f; next := next f; fkey := FKey s |}.
Definition set_next (n : nat) (f : TraceFrame) : TraceFrame :=
  {| prev := prev f; next := Some n; fkey := fkey f |}.
(** The loop of [prepareWalk]: [parent->next = current] up to the root. *)
Fixpoint link_up (fuel : nat) (st : list TraceFrame) (parent : option nat) (current : nat) : list TraceFrame * nat :=
  match fuel, parent with
  | S fuel, Some p =>
      let st := alter (set_next current) p st in
      link_up fuel st (f ← st !! p; prev f) p
  | _, _ => (st, current)
  end.
Definition prepareWalk (st : list TraceFrame) (this : nat) : list TraceFrame * option nat :=
  match (f ← st !! this; prev f) with
  | None => (st, None)
  | p => let (st, root) := link_up (length st) st p this in (st, (f ← st !! root; next f))
  end.
Fixpoint walk_frames (fuel : nat) (st : list TraceFrame) (node : option nat) : list FrameKey :=
  match fuel, node with
  | S fuel, Some n =>
      match st !! n with
      | Some f => fkey f :: walk_frames fuel st (next f)
      | None => []
      end
  | _, _ => []
  end.
Definition Walk (st : list TraceFrame) (this : nat) : list TraceFrame * list FrameKey :=
  let (st, node) := prepareWalk st this in (st, walk_frames (length st) st node).
Fixpoint print_keys (p : list FrameKey) : string :=
  match p with
  | [] => ""
  | FIdx i :: p => ((".[" +:+ to_string i) +:+ "]") +:+ print_keys p
  | FKey s :: p => ("." +:+ s) +:+ print_keys p
  end.
Definition PrintTrace (st : list TraceFrame) (this : nat) : string := print_keys (Walk st this).2.

(** ** Types and values *)
Inductive NumType := NChar | NUChar | NShort | NUShort | NInt | NUInt | NLong | NULong | NLongLong | NULongLong | NFloat | NDouble.
#[export] Instance NumType_eq : EqDecision NumType. Proof. solve_decision. Defined.
Inductive Meta := MBool | MString | MMap | MList | MObject | MFunction | MUuid | MNum (t : NumType).
#[export] Instance Meta_eq : EqDecision Meta. Proof. solve_decision. Defined.

Inductive CVal :=
| XBool (b : bool)
| XString (s : string)                      (* std::string, QString *)
| XAny (v : QVar)
| XAnyMap (m : list (string * QVar))
| XAnyList (l : list QVar)
| XOpaque (id : Z)                          (* QObject pointers (0: null), LuaFunction, QUuid *)
| XEnum (z : Z)
| XNum (z : Z)                              (* the number, or the bits of a floating-point one *)
| XStruct (fields : list CVal)              (* in the described order *)
| XOpt (o : option CVal)
| XVec (l : list CVal)
| XMap (m : list (string * CVal))
| XTuple (l : list CVal).
Inductive CType :=
| CBool | CString | CAny | CAnyMap | CAnyList
| CObject (cls : option string)             (* QObject*, or a pointer to a derived class *)
| CFunction | CUuid
| CEnum (name : string) (members : list (string * Z))
| CNum (t : NumType)
| CStruct (name : string) (fields : list (string * CType))
| CDefault (t : CType) (def : CVal)         (* WithDefault<T>; the value it is built with *)
| COptional (t : CType) | COptionalPtr (t : CType)
| CVector (t : CType) | CMap (t : CType) | CTuple (ts : list CType).

Definition num_name (t : NumType) : string :=
  match t with
  | NChar => "signed char" | NUChar => "uchar" | NShort => "short" | NUShort => "ushort"
  | NInt => "int" | NUInt => "uint" | NLong => "long" | NULong => "ulong"
  | NLongLong => "qlonglong" | NULongLong => "qulonglong" | NFloat => "float" | NDouble => "double"
  end.
(** [QVariant::fromValue] at a number. *)
Definition num_variant (t : NumType) (z : Z) : QVar :=
  match t with
  | NInt => VInt z | NUInt => VUInt z | NLongLong => VLongLong z | NULongLong => VULongLong z
  | NDouble => VDouble z | NFloat => VFloat z
  | _ => VOpaque (num_name t) z
  end.
Definition opaque_name (m : Meta) : string :=
  match m with MObject => "QObject*" | MFunction => "radapter::LuaFunction" | MUuid => "QUuid" | _ => "" end.
Definition meta_name (m : Meta) : string :=
  match m with
  | MBool => "bool" | MString => "QString" | MMap => "QVariantMap" | MList => "QVariantList"
  | MNum t => num_name t
  | m => opaque_name m
  end.

(** Qt's conversions and the [describe] library. *)
Class ConfigOps := {
  variant :: QVariantOps;
  canConvert : Meta -> QVar -> bool;
  typeName : QVar -> option string;         (* QVariant::typeName: may be null *)
  isNull : QVar -> bool;
  toMap : QVar -> list (string * QVar);
  toList : QVar -> list QVar;
  value_num : NumType -> QVar -> Z;         (* value<T>() *)
  value_opaque : Meta -> QVar -> Z;
  className : Z -> string;                  (* of an object, not null *)
  qobject_cast : string -> Z -> bool;
  name_to_enum : list (string * Z) -> string -> option Z;
  enum_to_name : list (string * Z) -> Z -> option string
}.

(** [T{}]. *)
Fixpoint init (ty : CType) : CVal :=
  match ty with
  | CBool => XBool false
  | CString => XString ""
  | CAny => XAny VInvalid
  | CAnyMap => XAnyMap []
  | CAnyList => XAnyList []
  | CObject _ | CFunction | CUuid => XOpaque 0
  | CEnum _ _ => XEnum 0
  | CNum _ => XNum 0
  | CStruct _ fields => XStruct (map (fun f => init f.2) fields)
  | CDefault _ d => d
  | COptional _ | COptionalPtr _ => XOpt None
  | CVector _ => XVec []
  | CMap _ => XMap []
  | CTuple ts => XTuple (map init ts)
  end.

Definition fields_of (v : CVal) : list CVal := match v with XStruct l | XTuple l => l | _ => [] end.
Definition elems_of (v : CVal) : list CVal := match v with XVec l => l | _ => [] end.
Definition entries_of (v : CVal) : list (string * CVal) := match v with XMap m => m | _ => [] end.
(** [fmt::join]. *)
Fixpoint join_names (l : list string) : string :=
  match l with
  | [] => ""
  | [x] => x
  | x :: l => (x +:+ ", ") +:+ join_names l
  end.
Definition is_empty_map (v : QVar) : bool := match v with VMap [] => true | _ => false end.
Definition is_map (v : QVar) : bool := match v with VMap _ => true | _ => false end.

(** ** The loops over fields, elements and entries *)
Section parse_loops.
Variable Parse : CType -> CVal -> QVar -> list FrameKey -> res CVal.
Fixpoint parse_fields (m : list (string * QVar)) (current : list FrameKey) (fields : list (string * CType))
    (curs : list CVal) : res (list CVal) :=
  match fields with
  | [] => Ok []
  | (k, t) :: fields =>
      let* x := Parse t (default (init t) (head curs)) (qm_get VInvalid k m) (current ++ [FKey k]) in
      let* xs := parse_fields m current fields (tail curs) in
      Ok (x :: xs)
  end.
(** [conf.value(Is)] is invalid past the end. *)
Fixpoint parse_tuple (p : list FrameKey) (i : Z) (ts : list CType) (curs : list CVal) (l : list QVar) : res (list CVal) :=
  match ts with
  | [] => Ok []
  | t :: ts =>
      let* x := Parse t (default (init t) (head curs)) (default VInvalid (head l)) (p ++ [FIdx i]) in
      let* xs := parse_tuple p (i + 1) ts (tail curs) (tail l) in
      Ok (x :: xs)
  end.
End parse_loops.
Section element_loops.
Variables (ParseT : CVal -> QVar -> list FrameKey -> res CVal) (fresh : CVal) (p : list FrameKey).
(** [resize] keeps the elements there are. *)
Fixpoint parse_items (i : Z) (l : list QVar) (curs : list CVal) : res (list CVal) :=
  match l with
  | [] => Ok []
  | q :: l =>
      let* x := ParseT (default fresh (head curs)) q (p ++ [FIdx i]) in
      let* xs := parse_items (i + 1) l (tail curs) in
      Ok (x :: xs)
  end.
Fixpoint parse_entries (m : list (string * QVar)) (out : list (string * CVal)) : res (list (string * CVal)) :=
  match m with
  | [] => Ok out
  | (k, q) :: m =>
      let* x := ParseT (qm_get fresh k out) q (p ++ [FKey k]) in
      parse_entries m (qm_insert k x out)
  end.
End element_loops.
Section dump_loops.
Variable Dump : CType -> CVal -> QVar -> res QVar.
Fixpoint dump_fields (fields : list (string * CType)) (vs : list CVal) (m : list (string * QVar)) : res (list (string * QVar)) :=
  match fields, vs with
  | (k, t) :: fields, x :: vs =>
      let* nested := Dump t x VInvalid in
      dump_fields fields vs (qm_insert k nested m)
  | _, _ => Ok m
  end.
Variable DumpT : CVal -> QVar -> res QVar.
Fixpoint dump_entries (m : list (string * CVal)) (r : list (string * QVar)) : res (list (string * QVar)) :=
  match m with
  | [] => Ok r
  | (k, x) :: m =>
      let* q := DumpT x (qm_get VInvalid k r) in
      dump_entries m (qm_insert k q r)
  end.
End dump_loops.
Section schema_loops.
Variable PopulateSchema : CType -> CVal -> CVal * QVar.
Fixpoint schema_fields (fields : list (string * CType)) (vs : list CVal) (m : list (string * QVar)) : list CVal * list (string * QVar) :=
  match fields with
  | [] => ([], m)
  | (k, t) :: fields =>
      let (x, nested) := PopulateSchema t (default (init t) (head vs)) in
      let (xs, m) := schema_fields fields (tail vs) (qm_insert k nested m) in
      (x :: xs, m)
  end.
Fixpoint schema_tuple (ts : list CType) (vs : list CVal) : list CVal * list QVar :=
  match ts with
  | [] => ([], [])
  | t :: ts =>
      let (x, q) := PopulateSchema t (default (init t) (head vs)) in
      let (xs, qs) := schema_tuple ts (tail vs) in
      (x :: xs, q :: qs)
  end.
End schema_loops.

Section config.
Context {CO : ConfigOps}.
Notation qeq := (qeq (QVariantOps := variant)).
Notation toBool := (toBool (QVariantOps := variant)).
Notation toStr := (toStr (QVariantOps := variant)).

Definition TypeNameOf (v : QVar) : string := default "<nil>" (typeName v).
(** A [Raise] whose text starts with the frame. *)
Definition raise_at {A} (p : list FrameKey) (what : string) : res A := Raise ((print_keys p +:+ ": ") +:+ what).
Definition CheckCanConvert (m : Meta) (v : QVar) (p : list FrameKey) : res unit :=
  if canConvert m v then Ok tt
  else raise_at p (((("Could not convert to '" +:+ meta_name m) +:+ "' from '") +:+ TypeNameOf v) +:+ "'").

(** ** [Parse]

    [cur] is the object parsed into: [WithDefault] and an empty table leave it.
    [p] is the path of the frame. *)
Definition Parse_enum (name : string) (members : list (string * Z)) (v : QVar) (p : list FrameKey) : res CVal :=
  if negb (canConvert MString v) then raise_at p ((("Cannot convert to " +:+ name) +:+ " from ") +:+ TypeNameOf v)
  else
    match name_to_enum members (toStr v) with
    | Some z => Ok (XEnum z)
    | None => raise_at p (((((("Invalid value for enum (" +:+ name) +:+ "): ") +:+ toStr v) +:+ ". Valid: [")
        +:+ join_names members.*1) +:+ "]")
    end.
Definition Parse_num (t : NumType) (v : QVar) (p : list FrameKey) : res CVal :=
  let* _ := CheckCanConvert (MNum t) v p in
  let out := value_num t v in
  if qeq (num_variant t out) v then Ok (XNum out)
  else raise_at p (((("Could not convert to number from: " +:+ toStr v) +:+ " (") +:+ TypeNameOf v) +:+ ")").
Definition Parse_object (cls : option string) (v : QVar) (p : list FrameKey) : res CVal :=
  let* _ := CheckCanConvert MObject v p in
  let o := value_opaque MObject v in
  match cls with
  | None => Ok (XOpaque o)
  | Some c =>
      if (negb (o =? 0) && qobject_cast c o)%bool then Ok (XOpaque o)
      else raise_at p ((("could not cast " +:+ (if o =? 0 then "<nil>" else className o)) +:+ " => ") +:+ c)
  end.

(** The overloads of [config.cpp]. *)
Definition Parse_bool (conf : QVar) (p : list FrameKey) : res CVal :=
  let* _ := CheckCanConvert MBool conf p in Ok (XBool (toBool conf)).
Definition Parse_string (conf : QVar) (p : list FrameKey) : res CVal :=
  let* _ := CheckCanConvert MString conf p in Ok (XString (toStr conf)).
Definition Parse_map (conf : QVar) (p : list FrameKey) : res CVal :=
  let* _ := CheckCanConvert MMap conf p in Ok (XAnyMap (toMap conf)).
Definition Parse_list (cur : CVal) (conf : QVar) (p : list FrameKey) : res CVal :=
  if is_empty_map conf then Ok cur
  else let* _ := CheckCanConvert MList conf p in Ok (XAnyList (toList conf)).
Definition Parse_function (conf : QVar) (p : list FrameKey) : res CVal :=
  let* _ := CheckCanConvert MFunction conf p in Ok (XOpaque (value_opaque MFunction conf)).
Definition Parse_uuid (conf : QVar) (p : list FrameKey) : res CVal :=
  let* _ := CheckCanConvert MUuid conf p in Ok (XOpaque (value_opaque MUuid conf)).

Fixpoint Parse (ty : CType) (cur : CVal) (conf : QVar) (p : list FrameKey) : res CVal :=
  match ty with
  | CBool => Parse_bool conf p
  | CString => Parse_string conf p
  | CAny => Ok (XAny conf)
  | CAnyMap => Parse_map conf p
  | CAnyList => Parse_list cur conf p
  | CObject cls => Parse_object cls conf p
  | CFunction => Parse_function conf p
  | CUuid => Parse_uuid conf p
  | CEnum name members => Parse_enum name members conf p
  | CNum t => Parse_num t conf p
  | CStruct name fields =>
      let current := match p with [] => [FKey name] | _ => p end in
      match conf with
      | VMap m =>
          let* vs := parse_fields Parse m current fields (fields_of cur) in
          Ok (XStruct vs)
      | _ => raise_at current ((("Cannot get " +:+ name) +:+ " from ") +:+ TypeNameOf conf)
      end
  | CDefault t _ => if isNull conf then Ok cur else Parse t cur conf p
  | COptional t | COptionalPtr t =>
      if isNull conf then Ok (XOpt None)
      else let* x := Parse t (init t) conf p in Ok (XOpt (Some x))
  | CVector t =>
      match t, conf with
      | CString, VStringList l => Ok (XVec (map XString l))
      | _, VList l =>
          let* vs := parse_items (Parse t) (init t) p 0 l (elems_of cur) in
          Ok (XVec vs)
      | _, VMap [] => Ok cur
      | _, _ => raise_at p (("Non-array config passed (" +:+ TypeNameOf conf) +:+ ")")
      end
  | CMap t =>
      match conf with
      | VMap m =>
          let* out := parse_entries (Parse t) (init t) p m [] in
          Ok (XMap out)
      | _ => raise_at p ("Cannot parse map from " +:+ TypeNameOf conf)
      end
  | CTuple ts =>
      if negb (canConvert MList conf) then
        raise_at p (("Tuple of size at least(" +:+ to_string (Z.of_nat (length ts))) +:+ ") expected")
      else
        let* vs := parse_tuple Parse p 0 ts (fields_of cur) (toList conf) in
        Ok (XTuple vs)
  end.
Definition ParseAs (ty : CType) (conf : QVar) (p : list FrameKey) : res CVal := Parse ty (init ty) conf p.

(** ** [Dump]

    [DumpTuple] does not compile (it calls [Dump] with one argument), so no
    tuple is ever dumped: [no_dump] marks the branch. *)
Definition no_dump : string := "Dump(std::tuple) is ill-formed".
Definition Dump_enum (members : list (string * Z)) (z : Z) : res QVar :=
  match enum_to_name members z with
  | Some n => Ok (VString n)
  | None => Raise ("Invalid enum value: " +:+ to_string z)
  end.
(** The overloads of [config.cpp]. *)
Definition Dump_basic (x : CVal) : QVar :=
  match x with
  | XBool b => VBool b
  | XString s => VString s
  | XAny v => v
  | XAnyMap m => VMap m
  | XAnyList l => VList l
  | _ => VInvalid
  end.
Definition Dump_opaque (m : Meta) (o : Z) : QVar := VOpaque (opaque_name m) o.

Fixpoint Dump (ty : CType) (x : CVal) (out : QVar) : res QVar :=
  match ty, x with
  | CBool, XBool _ | CString, XString _ | CAny, XAny _ | CAnyMap, XAnyMap _ | CAnyList, XAnyList _ => Ok (Dump_basic x)
  | CObject _, XOpaque o => Ok (Dump_opaque MObject o)
  | CFunction, XOpaque o => Ok (Dump_opaque MFunction o)
  | CUuid, XOpaque o => Ok (Dump_opaque MUuid o)     (* through QVariant(QUuid) *)
  | CEnum _ members, XEnum z => Dump_enum members z
  | CNum t, XNum z => Ok (num_variant t z)
  | CStruct _ fields, XStruct vs =>
      let* m := dump_fields Dump fields vs [] in
      Ok (VMap m)
  | CDefault t _, x => Dump t x out
  | COptional t, XOpt (Some x) => Dump t x out
  | COptional t, XOpt None => Ok VInvalid
  | COptionalPtr t, XOpt (Some x) => Dump t x out
  | COptionalPtr t, XOpt None => Ok out
  | CVector t, XVec l =>
      let* qs := res_map (fun x => Dump t x VInvalid) l in
      Ok (VList qs)
  | CMap t, XMap m =>
      let* r := dump_entries (Dump t) m [] in
      Ok (VMap r)
  | CTuple _, _ => Raise no_dump
  | _, _ => Raise "ill-typed"
  end.

(** ** [PopulateSchema]

    It describes a type, and works on an object of it that it modifies. *)
Definition schema_basic (ty : CType) : string :=
  match ty with
  | CBool => "bool"
  | CString => "string"
  | CAny => "any"
  | CAnyMap => "any_map"
  | CAnyList => "any_list"
  | CObject None => "custom_object"
  | CFunction => "function"
  | CUuid => "uuid"
  | _ => ""
  end.
Fixpoint PopulateSchema (ty : CType) (x : CVal) : CVal * QVar :=
  match ty with
  | CBool | CString | CAny | CAnyMap | CAnyList | CObject None | CFunction | CUuid => (x, VString (schema_basic ty))
  | CObject (Some cls) => (x, VString cls)
  | CEnum _ members => (x, VList (map VString members.*1))
  | CNum t => (x, VString (num_name t))
  | CStruct _ fields =>
      let (vs, m) := schema_fields PopulateSchema fields (fields_of x) [] in
      (XStruct vs, VMap m)
  | CDefault t _ =>
      let (x, nested) := PopulateSchema t x in
      let map := qm_insert "[has_default]" nested [] in
      (x, VMap (match Dump t x VInvalid with
                | Ok def => qm_insert "default" def map
                | Raise _ => map
                end))
  | COptional t =>
      let (x, nested) := PopulateSchema t (init t) in
      (XOpt (Some x), VMap [("[optional]", nested)])
  | COptionalPtr t =>
      let (_, nested) := PopulateSchema t (init t) in
      (x, VMap [("[optional]", nested)])
  | CVector t =>
      let (e, nested) := PopulateSchema t (init t) in
      (XVec (elems_of x ++ [e]), VList [nested])
  | CMap t =>
      let (e, nested) := PopulateSchema t (qm_get (init t) "" (entries_of x)) in
      (XMap (qm_insert "" e (entries_of x)), VMap [("<key>", nested)])
  | CTuple ts =>
      let (vs, qs) := schema_tuple PopulateSchema ts (fields_of x) in
      (XTuple vs, VList qs)
  end.
Definition SchemaFor (ty : CType) : QVar := (PopulateSchema ty (init ty)).2.

(** ** Calls of worker methods: [radapter.hpp]

    A parameter is parsed from the argument of its position; a single parameter
    of a method returning [QVariant] takes the arguments whole. *)
Definition arg_first (args : list QVar) : res QVar :=
  match args with [] => Raise "Expected at least 1 argument" | a :: _ => Ok a end.
Definition WorkerArguments_as (ty : CType) (args : list QVar) : res CVal :=
  match ty with
  | CAnyList => Ok (XAnyList args)
  | CAny => let* v := arg_first args in Ok (XAny v)
  | ty => let* v := arg_first args in ParseAs ty v []
  end.
Fixpoint parse_args (i : Z) (tys : list CType) (args : list QVar) : res (list CVal) :=
  match tys with
  | [] => Ok []
  | ty :: tys =>
      let* x := ParseAs ty (default VInvalid (head args)) [FIdx i] in
      let* xs := parse_args (i + 1) tys (tail args) in
      Ok (x :: xs)
  end.
(** [ret]: the return type, [None] for void. *)
Definition DoInvokeExtraMethod (method : list CVal -> res CVal) (params : list CType) (ret : option CType)
    (args : list QVar) : res QVar :=
  match params, ret with
  | [ty], Some CAny =>
      let* x := WorkerArguments_as ty args in
      let* r := method [x] in
      match r with XAny v => Ok v | _ => Ok VInvalid end
  | _, None =>
      let* xs := parse_args 0 params args in
      let* _ := method xs in Ok VInvalid
  | _, Some r =>
      let* xs := parse_args 0 params args in
      let* v := method xs in Dump r v VInvalid
  end.
End config.

(** ** What the sources rely on of Qt and [describe] *)
(** A floating-point pattern that is not a NaN. *)
Definition not_nan (t : NumType) (z : Z) : bool :=
  match t with
  | NFloat => negb ((z / 2 ^ 23) mod 2 ^ 8 =? 255) || (z mod 2 ^ 23 =? 0)
  | NDouble => negb ((z / 2 ^ 52) mod 2 ^ 11 =? 2047) || (z mod 2 ^ 52 =? 0)
  | _ => true
  end%bool.
Definition num_bits (t : NumType) : bool * Z :=
  match t with
  | NChar => (true, 8) | NUChar => (false, 8) | NShort => (true, 16) | NUShort => (false, 16)
  | NInt => (true, 32) | NUInt => (false, 32) | NLong | NLongLong => (true, 64) | NULong | NULongLong => (false, 64)
  | NFloat => (false, 32) | NDouble => (false, 64)
  end.
Definition num_range (t : NumType) (z : Z) : bool :=
  let (sgn, w) := num_bits t in
  if sgn : bool then ((- 2 ^ (w - 1) <=? z) && (z <? 2 ^ (w - 1)))%bool else ((0 <=? z) && (z <? 2 ^ w))%bool.
Definition own (m : Meta) (q : QVar) : bool :=
  match m, q with
  | MBool, VBool _ | MString, VString _ | MMap, VMap _ | MList, VList _ => true
  | MNum t, q => match q with
                 | VInt z | VUInt z | VLongLong z | VULongLong z | VDouble z | VFloat z | VOpaque _ z =>
                     bool_decide (q = num_variant t z)
                 | _ => false
                 end
  | m, VOpaque n _ => bool_decide (n = opaque_name m)
  | _, _ => false
  end.
Class ConfigLaws (CO : ConfigOps) : Prop := {
  variant_laws : QVariantLaws variant;
  canConvert_own : forall m q, own m q = true -> canConvert m q = true;
  num_eq : forall t z, not_nan t z = true -> qeq (QVariantOps := variant) (num_variant t z) (num_variant t z) = true;
  isNull_invalid : isNull VInvalid = true;
  toMap_map : forall m, toMap (VMap m) = m;
  toList_list : forall l, toList (VList l) = l;
  value_num_own : forall t z, num_range t z = true -> value_num t (num_variant t z) = z;
  value_num_range : forall t q, num_range t (value_num t q) = true;
  value_opaque_own : forall m z, value_opaque m (VOpaque (opaque_name m) z) = z;
  enum_roundtrip : forall ms z n, NoDup ms.*1 -> enum_to_name ms z = Some n -> name_to_enum ms n = Some z;
  enum_named : forall ms z n, name_to_enum ms n = Some z -> is_Some (enum_to_name ms z)
}.
(** [describe] looks a described enumerator up by name and by value. *)
Class EnumLaws (CO : ConfigOps) : Prop := {
  name_listed : forall ms n z, NoDup ms.*1 -> (n, z) ∈ ms -> name_to_enum ms n = Some z;
  enum_listed : forall ms z n, enum_to_name ms z = Some n -> (n, z) ∈ ms
}.

(** ** Induction on type codes *)
Section CType_induction.
Variable P : CType -> Prop.
Hypothesis Hleaf : forall t,
  match t with CStruct _ _ | CDefault _ _ | COptional _ | COptionalPtr _ | CVector _ | CMap _ | CTuple _ => False | _ => True end -> P t.
Hypothesis Hstruct : forall n fs, Forall (fun f => P f.2) fs -> P (CStruct n fs).
Hypothesis Hdefault : forall t d, P t -> P (CDefault t d).
Hypothesis Hoptional : forall t, P t -> P (COptional t).
Hypothesis Hptr : forall t, P t -> P (COptionalPtr t).
Hypothesis Hvector : forall t, P t -> P (CVector t).
Hypothesis Hmap : forall t, P t -> P (CMap t).
Hypothesis Htuple : forall ts, Forall P ts -> P (CTuple ts).
Fixpoint CType_tree_ind (t : CType) : P t :=
  match t with
  | CStruct n fs => Hstruct n fs
      ((fix go fs : Forall (fun f => P f.2) fs :=
          match fs with
          | [] => @List.Forall_nil _ _
          | (k, x) :: fs => @List.Forall_cons _ (fun f => P f.2) (k, x) fs (CType_tree_ind x) (go fs)
          end) fs)
  | CTuple ts => Htuple ts
      ((fix go ts : Forall P ts :=
          match ts with
          | [] => @List.Forall_nil _ _
          | x :: ts => @List.Forall_cons _ P x ts (CType_tree_ind x) (go ts)
          end) ts)
  | CDefault t d => Hdefault t d (CType_tree_ind t)
  | COptional t => Hoptional t (CType_tree_ind t)
  | COptionalPtr t => Hptr t (CType_tree_ind t)
  | CVector t => Hvector t (CType_tree_ind t)
  | CMap t => Hmap t (CType_tree_ind t)
  | CBool => Hleaf CBool I
  | CString => Hleaf CString I
  | CAny => Hleaf CAny I
  | CAnyMap => Hleaf CAnyMap I
  | CAnyList => Hleaf CAnyList I
  | CObject c => Hleaf (CObject c) I
  | CFunction => Hleaf CFunction I
  | CUuid => Hleaf CUuid I
  | CEnum n l => Hleaf (CEnum n l) I
  | CNum n => Hleaf (CNum n) I
  end.
End CType_induction.

(** ** Values that can be written and read back, and well-typed values *)
Section all_fields.
Variable ok : CType -> CVal -> bool.
Fixpoint all_fields (fs : list (string * CType)) (vs : list CVal) : bool :=
  match fs, vs with
  | [], [] => true
  | (_, t) :: fs, x :: vs => (ok t x && all_fields fs vs)%bool
  | _, _ => false
  end.
Fixpoint all_tuple (ts : list CType) (vs : list CVal) : bool :=
  match ts, vs with
  | [], [] => true
  | t :: ts, x :: vs => (ok t x && all_tuple ts vs)%bool
  | _, _ => false
  end.
End all_fields.

Section predicates.
Context {CO : ConfigOps}.
Definition dumps_nonnull (t : CType) (x : CVal) : bool :=
  match Dump t x VInvalid with Ok q => negb (isNull q) | Raise _ => false end.
(** No tuples, numbers in range and not NaN, no null where a null is read as absence, distinct
    field names. *)
Fixpoint writable (ty : CType) (x : CVal) : bool :=
  match ty, x with
  | CBool, XBool _ | CString, XString _ | CAny, XAny _ | CAnyMap, XAnyMap _ | CAnyList, XAnyList _
  | CFunction, XOpaque _ | CUuid, XOpaque _ | CObject None, XOpaque _ => true
  | CObject (Some c), XOpaque o => (negb (o =? 0) && qobject_cast c o)%bool
  | CEnum _ ms, XEnum z => (bool_decide (NoDup ms.*1) && bool_decide (is_Some (enum_to_name ms z)))%bool
  | CNum t, XNum z => (not_nan t z && num_range t z)%bool
  | CStruct _ fs, XStruct vs => (bool_decide (NoDup fs.*1) && all_fields writable fs vs)%bool
  | CDefault t _, x => (writable t x && dumps_nonnull t x)%bool
  | COptional _, XOpt None | COptionalPtr _, XOpt None => true
  | COptional t, XOpt (Some x) | COptionalPtr t, XOpt (Some x) => (writable t x && dumps_nonnull t x)%bool
  | CVector t, XVec l => forallb (writable t) l
  | CMap t, XMap m => (qm_sorted m && forallb (fun kx => writable t kx.2) m)%bool
  | _, _ => false
  end.
(** Well typed; not [strict], at an object about to be parsed into: a number, an
    enumerator or a pointer may still hold anything. *)
Fixpoint typed (strict : bool) (ty : CType) (x : CVal) : bool :=
  match ty, x with
  | CBool, XBool _ | CString, XString _ | CAny, XAny _ | CAnyMap, XAnyMap _ | CAnyList, XAnyList _
  | CFunction, XOpaque _ | CUuid, XOpaque _ | CObject None, XOpaque _ => true
  | CObject (Some c), XOpaque o => (negb strict || (negb (o =? 0) && qobject_cast c o))%bool
  | CEnum _ ms, XEnum z => (negb strict || bool_decide (is_Some (enum_to_name ms z)))%bool
  | CNum t, XNum z => (negb strict || num_range t z)%bool
  | CStruct _ fs, XStruct vs => all_fields (typed strict) fs vs
  | CTuple ts, XTuple vs => all_tuple (typed strict) ts vs
  | CDefault t _, x => typed true t x
  | COptional _, XOpt None | COptionalPtr _, XOpt None => true
  | COptional t, XOpt (Some x) | COptionalPtr t, XOpt (Some x) => typed true t x
  | CVector t, XVec l => forallb (typed true t) l
  | CMap t, XMap m => (qm_sorted m && forallb (fun kx => typed true t kx.2) m)%bool
  | _, _ => false
  end.
(** The defaults written in a type are values of it. *)
Fixpoint defaults_ok (ty : CType) : bool :=
  match ty with
  | CStruct _ fs => forallb (fun f => defaults_ok f.2) fs
  | CTuple ts => forallb defaults_ok ts
  | CDefault t d => (defaults_ok t && typed true t d)%bool
  | COptional t | COptionalPtr t | CVector t | CMap t => defaults_ok t
  | _ => true
  end.
End predicates.

(** ** Reading back what was written *)
Section roundtrip.
Context {CO : ConfigOps} {CL : ConfigLaws CO}.

Lemma CheckCanConvert_own m q p : own m q = true -> CheckCanConvert m q p = Ok tt.
Proof. intros H. unfold CheckCanConvert. by rewrite canConvert_own. Qed.
Lemma own_num t z : own (MNum t) (num_variant t z) = true.
Proof. destruct t; cbn; by rewrite bool_decide_eq_true_2. Qed.
Lemma own_opaque m z : match m with MObject | MFunction | MUuid => True | _ => False end -> own m (VOpaque (opaque_name m) z) = true.
Proof. destruct m; try done; intros _; cbn; by rewrite bool_decide_eq_true_2. Qed.
Lemma Parse_vector t cur l p :
  Parse (CVector t) cur (VList l) p = (let* vs := parse_items (Parse t) (init t) p 0 l (elems_of cur) in Ok (XVec vs)).
Proof. by destruct t. Qed.

(** [Dump] then [Parse] at one type and value. *)
Definition reads_back (t : CType) (x : CVal) : Prop :=
  exists q, Dump t x VInvalid = Ok q /\ forall cur p, Parse t cur q p = Ok x.

Lemma dump_fields_spec fs : forall vs m0,
  NoDup fs.*1 -> Forall2 (fun f x => reads_back f.2 x) fs vs ->
  exists m, dump_fields Dump fs vs m0 = Ok m /\
    (forall k, k ∉ fs.*1 -> qm_find k m = qm_find k m0) /\
    forall current curs, parse_fields Parse m current fs curs = Ok vs.
Proof.
  induction fs as [|[k t] fs IH]; intros vs m0 Hnd H; inversion H as [|? x ? vs' Hx Hvs]; subst; [by exists m0|].
  cbn [fmap list_fmap fst] in Hnd. apply NoDup_cons in Hnd as [Hk Hnd]. destruct Hx as (q & Hq & Hp).
  destruct (IH vs' (qm_insert k q m0) Hnd Hvs) as (m & Hm & Hf & Hr). exists m. cbn in Hq, Hp.
  cbn [dump_fields]. rewrite Hq. cbn [res_bind]. split; [done|]. split.
  - intros j. cbn [fmap list_fmap fst]. intros Hj. rewrite Hf by set_solver.
    apply qm_find_insert_ne. set_solver.
  - intros current curs. cbn [parse_fields]. unfold qm_get at 1. rewrite Hf by done. rewrite qm_find_insert_eq.
    cbn [default from_option id]. rewrite Hp. cbn [res_bind]. by rewrite Hr.
Qed.
Lemma dump_items_spec t l : Forall (reads_back t) l ->
  exists qs, res_map (fun x => Dump t x VInvalid) l = Ok qs /\
    forall fresh p i curs, parse_items (Parse t) fresh p i qs curs = Ok l.
Proof.
  induction 1 as [|x l (q & Hq & Hp) _ (qs & Hqs & IH)]; [by exists []|]. exists (q :: qs). cbn [res_map].
  rewrite Hq. cbn [res_bind]. rewrite Hqs. split; [done|]. intros. cbn [parse_items]. rewrite Hp. cbn [res_bind]. by rewrite IH.
Qed.
(** A prefix below the keys to come. *)
Definition below {A B} (acc : list (string * A)) (m : list (string * B)) : Prop :=
  Forall (fun kx => qm_above kx.1 m = true) acc.
Lemma below_all {A B} (acc : list (string * A)) k (x : B) m : below acc ((k, x) :: m) ->
  forallb (fun kv => str_ltb kv.1 k) acc = true.
Proof. induction 1 as [|[j y] acc H _ IH]; [done|]. cbn in *. apply andb_true_iff in H as [-> _]. done. Qed.
Lemma below_snoc {A B} (acc : list (string * A)) k (x : B) y m :
  below acc ((k, x) :: m) -> qm_above k m = true -> below (acc ++ [(k, y)]) m.
Proof.
  intros H Hk. apply Forall_app. split; [|by apply Forall_cons]. eapply Forall_impl; [exact H|].
  intros [j z] E. cbn in *. by apply andb_true_iff in E as [_ ?].
Qed.
Lemma dump_entries_spec t m : forall r, qm_sorted m = true -> Forall (fun kx => reads_back t kx.2) m ->
  below r m ->
  exists qs, dump_entries (Dump t) m r = Ok (r ++ qs) /\ qm_sorted qs = true /\
    (forall k, qm_above k m = true -> qm_above k qs = true) /\
    forall fresh p out, below out qs -> parse_entries (Parse t) fresh p qs out = Ok (out ++ m).
Proof.
  induction m as [|[k x] m IH]; intros r Hs H Hb.
  { exists []. rewrite app_nil_r. split_and!; try done. intros. cbn. by rewrite app_nil_r. }
  apply Forall_cons in H as [(q & Hq & Hp) Hm]. cbn in Hq, Hp. cbn in Hs. apply andb_true_iff in Hs as [Ha Hs].
  destruct (IH (r ++ [(k, q)]) Hs Hm) as (qs & Hd & Hqs & Habove & Hr); [by eapply below_snoc|].
  exists ((k, q) :: qs). cbn [dump_entries]. pose proof (below_all _ _ _ _ Hb) as Hlast.
  unfold qm_get. rewrite qm_find_last by done. cbn [default from_option]. rewrite Hq. cbn [res_bind].
  rewrite qm_insert_last, Hd by done. split; [by rewrite <- app_assoc|]. split; [|split].
  - cbn. by rewrite Habove.
  - intros j. cbn. rewrite !andb_true_iff. intros [? ?]. auto.
  - intros fresh p out Hout. cbn [parse_entries]. rewrite Hp. cbn [res_bind].
    rewrite qm_insert_last by (by eapply below_all). rewrite Hr; [by rewrite <- app_assoc|].
    eapply below_snoc; [done|]. by apply Habove.
Qed.

Lemma all_fields_Forall2 ok fs vs (R : CType -> CVal -> Prop) :
  Forall (fun f => forall x, ok f.2 x = true -> R f.2 x) fs -> all_fields ok fs vs = true ->
  Forall2 (fun f x => R f.2 x) fs vs.
Proof.
  intros H. revert vs. induction H as [|[k t] fs Hf _ IH]; intros [|x vs]; try done.
  cbn. intros [? ?]%andb_true_iff. constructor; [by apply Hf|]. auto.
Qed.
Lemma nonnull_dump t x q : dumps_nonnull t x = true -> Dump t x VInvalid = Ok q -> isNull q = false.
Proof. unfold dumps_nonnull. intros H E. rewrite E in H. by apply negb_true_iff in H. Qed.

Lemma forallb_elem {A} (f : A -> bool) l x : forallb f l = true -> x ∈ l -> f x = true.
Proof. intros H Hx. apply list_elem_of_In in Hx. by apply (proj1 (forallb_forall f l) H). Qed.

Lemma Parse_Dump_leaf ty x :
  match ty with CStruct _ _ | CDefault _ _ | COptional _ | COptionalPtr _ | CVector _ | CMap _ | CTuple _ => False | _ => True end ->
  writable ty x = true -> reads_back ty x.
Proof.
  intros Hl Hw. pose proof variant_laws as VL.
  destruct ty as [| | | | |[cls|]| | |name ms|t| | | | | | |]; try done; destruct x; try done; cbn in Hw.
  10: { apply andb_true_iff in Hw as [Hnd Hn]. bool_to_prop. destruct Hn as [n Hn]. exists (VString n).
    cbn [Dump]. unfold Dump_enum. rewrite Hn. split; [done|]. intros cur p. cbn [Parse]. unfold Parse_enum.
    rewrite canConvert_own by done. cbn [negb]. by rewrite toStr_string, (enum_roundtrip ms z n). }
  all: eexists; split; [reflexivity|]; intros cur p; cbn [Parse]; unfold Parse_bool, Parse_string, Parse_map, Parse_list, Parse_function, Parse_uuid, Parse_num, Parse_object; cbn [is_empty_map Dump_basic];
    unfold Dump_opaque; try rewrite CheckCanConvert_own by (done || by apply own_opaque || apply own_num); cbn [res_bind].
  - by rewrite toBool_bool.
  - by rewrite toStr_string.
  - done.
  - by rewrite toMap_map.
  - by rewrite toList_list.
  - by rewrite value_opaque_own, Hw.
  - by rewrite value_opaque_own.
  - by rewrite value_opaque_own.
  - by rewrite value_opaque_own.
  - apply andb_true_iff in Hw as [? ?]. by rewrite value_num_own, num_eq.
Qed.

Lemma Parse_Dump_all ty : forall x, writable ty x = true -> reads_back ty x.
Proof.
  induction ty as [ty Hl|n fs IH|t d IH|t IH|t IH|t IH|t IH|ts IH] using CType_tree_ind; intros x Hw.
  - by apply Parse_Dump_leaf.
  - destruct x as [| | | | | | | |vs| | | |]; try done. cbn in Hw. apply andb_true_iff in Hw as [Hnd Hw]. bool_to_prop.
    destruct (dump_fields_spec fs vs [] Hnd) as (m & Hm & _ & Hr); [by eapply all_fields_Forall2|].
    exists (VMap m). cbn [Dump Parse]. rewrite Hm. split; [done|]. intros. by rewrite Hr.
  - cbn in Hw. apply andb_true_iff in Hw as [Hw Hn]. destruct (IH x Hw) as (q & Hq & Hp). exists q.
    cbn [Dump Parse]. split; [done|]. intros. by rewrite (nonnull_dump t x q).
  - destruct x as [| | | | | | | | |[x|]| | |]; try done.
    + cbn in Hw. apply andb_true_iff in Hw as [Hw Hn]. destruct (IH x Hw) as (q & Hq & Hp). exists q.
      cbn [Dump Parse]. split; [done|]. intros. rewrite (nonnull_dump t x q), Hp by done. done.
    + exists VInvalid. split; [done|]. intros. cbn [Parse]. by rewrite isNull_invalid.
  - destruct x as [| | | | | | | | |[x|]| | |]; try done.
    + cbn in Hw. apply andb_true_iff in Hw as [Hw Hn]. destruct (IH x Hw) as (q & Hq & Hp). exists q.
      cbn [Dump Parse]. split; [done|]. intros. rewrite (nonnull_dump t x q), Hp by done. done.
    + exists VInvalid. split; [done|]. intros. cbn [Parse]. by rewrite isNull_invalid.
  - destruct x as [| | | | | | | | | |l| |]; try done. cbn in Hw.
    destruct (dump_items_spec t l) as (qs & Hq & Hp).
    { apply Forall_forall. intros y Hy. apply IH. by eapply forallb_elem. }
    exists (VList qs). cbn [Dump]. rewrite Hq. split; [done|]. intros. by rewrite Parse_vector, Hp.
  - destruct x as [| | | | | | | | | | |m|]; try done. cbn in Hw. apply andb_true_iff in Hw as [Hs Hw].
    destruct (dump_entries_spec t m []) as (qs & Hq & _ & _ & Hp); [done| |by constructor|].
    { apply Forall_forall. intros y Hy. apply IH. by apply (forallb_elem _ _ y) in Hw. }
    exists (VMap qs). cbn [Dump Parse]. rewrite Hq. split; [done|]. intros. rewrite Hp by constructor. done.
  - by destruct x.
Qed.
End roundtrip.

(** ** Types are respected *)
Section types.
Context {CO : ConfigOps} {CL : ConfigLaws CO}.

Lemma typed_weaken ty : forall x, typed true ty x = true -> typed false ty x = true.
Proof.
  induction ty as [ty Hl|n fs IH|t d IH|t IH|t IH|t IH|t IH|ts IH] using CType_tree_ind; intros x H; try done.
  - destruct ty as [| | | | |[c|]| | | | | | | | | | |], x; try done; destruct Hl.
  - destruct x; try done. cbn in *. revert fields H. induction IH as [|[k t] fs Hx _ IHf]; intros [|x vs]; try done.
    cbn. intros [? ?]%andb_true_iff. cbn in Hx. rewrite Hx by done. cbn. by apply IHf.
  - destruct x; try done. cbn in *. revert l H. induction IH as [|t ts Hx _ IHf]; intros [|x vs]; try done.
    cbn. intros [? ?]%andb_true_iff. rewrite Hx by done. cbn. by apply IHf.
Qed.
Lemma typed_init ty : defaults_ok ty = true -> typed false ty (init ty) = true.
Proof.
  induction ty as [ty Hl|n fs IH|t d IH|t IH|t IH|t IH|t IH|ts IH] using CType_tree_ind; intros H; try done.
  - destruct ty as [| | | | |[c|]| | | | | | | | | | |]; try done; destruct Hl.
  - cbn in *. induction IH as [|[k t] fs Hx _ IHf]; [done|]. cbn in *. apply andb_true_iff in H as [? ?].
    rewrite Hx by done. cbn. by apply IHf.
  - cbn in *. by apply andb_true_iff in H as [_ ?].
  - cbn in *. induction IH as [|t ts Hx _ IHf]; [done|]. cbn in *. apply andb_true_iff in H as [? ?].
    rewrite Hx by done. cbn. by apply IHf.
Qed.

Definition parses_typed (t : CType) : Prop :=
  forall cur conf p x, typed false t cur = true -> Parse t cur conf p = Ok x -> typed true t x = true.

Lemma res_bind_Ok {A B} (r : res A) (f : A -> res B) y : res_bind r f = Ok y -> exists x, r = Ok x /\ f x = Ok y.
Proof. destruct r; [|done]. intros. by eexists. Qed.

Lemma parse_fields_typed m current fs : Forall (fun f => parses_typed f.2) fs -> forall curs vs,
  all_fields (typed false) fs curs = true -> parse_fields Parse m current fs curs = Ok vs ->
  all_fields (typed true) fs vs = true.
Proof.
  induction 1 as [|[k t] fs Hf _ IH]; intros [|c curs] vs; try done; [by intros _ [= <-]|].
  cbn. intros [Hc Hcs]%andb_true_iff (x & Hx & (xs & Hxs & [= <-])%res_bind_Ok)%res_bind_Ok. cbn.
  cbn in Hf. rewrite (Hf _ _ _ _ Hc Hx). cbn. by eapply IH.
Qed.
Lemma parse_tuple_typed p ts : Forall parses_typed ts -> forall i curs l vs,
  all_tuple (typed false) ts curs = true -> parse_tuple Parse p i ts curs l = Ok vs ->
  all_tuple (typed true) ts vs = true.
Proof.
  induction 1 as [|t ts Hf _ IH]; intros i [|c curs] l vs; try done; [by intros _ [= <-]|].
  cbn. intros [Hc Hcs]%andb_true_iff (x & Hx & (xs & Hxs & [= <-])%res_bind_Ok)%res_bind_Ok. cbn.
  rewrite (Hf _ _ _ _ Hc Hx). cbn. by eapply IH.
Qed.
Lemma parse_items_typed t p : parses_typed t -> typed false t (init t) = true -> forall l i curs vs,
  forallb (typed true t) curs = true -> parse_items (Parse t) (init t) p i l curs = Ok vs ->
  forallb (typed true t) vs = true.
Proof.
  intros Ht Hi. induction l as [|q l IH]; intros i curs vs Hc; [by intros [= <-]|].
  cbn. intros (x & Hx & (xs & Hxs & [= <-])%res_bind_Ok)%res_bind_Ok. cbn.
  assert (forallb (typed true t) (tail curs) = true) as Htl.
  { destruct curs; [done|]. cbn in Hc. by apply andb_true_iff in Hc as [_ ?]. }
  rewrite (IH _ _ _ Htl Hxs), andb_true_r. eapply Ht; [|exact Hx].
  destruct curs; [done|]. cbn in Hc. apply andb_true_iff in Hc as [? _]. by apply typed_weaken.
Qed.
Lemma forallb_insert {V} (f : V -> bool) k x m :
  f x = true -> forallb (fun kv => f kv.2) m = true -> forallb (fun kv => f kv.2) (qm_insert k x m) = true.
Proof.
  intros Hx. induction m as [|[j y] m IH]; cbn; [by rewrite Hx|]. intros [Hy Hm]%andb_true_iff.
  case_bool_decide; cbn; [by rewrite Hx|]. destruct (str_ltb k j); cbn; [by rewrite Hx, Hy|]. by rewrite Hy, IH.
Qed.
Lemma parse_entries_typed t p : parses_typed t -> typed false t (init t) = true -> forall m out vs,
  qm_sorted out = true -> forallb (fun kv => typed true t kv.2) out = true ->
  parse_entries (Parse t) (init t) p m out = Ok vs ->
  qm_sorted vs = true /\ forallb (fun kv => typed true t kv.2) vs = true.
Proof.
  intros Ht Hi. induction m as [|[k q] m IH]; intros out vs Hs Ho; [by intros [= <-]|].
  cbn. intros (x & Hx & Hr)%res_bind_Ok. eapply IH; [| |exact Hr]; [by apply qm_sorted_insert|].
  apply forallb_insert; [|done]. eapply Ht; [|exact Hx]. unfold qm_get.
  destruct (qm_find k out) as [y|] eqn:E; [|done]. apply qm_find_elem in E.
  apply typed_weaken. by apply (forallb_elem _ _ _ Ho) in E.
Qed.

Lemma Parse_typed_leaf ty :
  match ty with CStruct _ _ | CDefault _ _ | COptional _ | COptionalPtr _ | CVector _ | CMap _ | CTuple _ => False | _ => True end ->
  parses_typed ty.
Proof.
  intros Hl cur conf p x Hc.
  destruct ty as [| | | | |[cls|]| | |name ms|t| | | | | | |]; try done; cbn [Parse].
  5: { unfold Parse_list. case_match; [by intros [= <-]|]. by intros (? & _ & [= <-])%res_bind_Ok. }
  all: unfold Parse_bool, Parse_string, Parse_map, Parse_function, Parse_uuid, Parse_object, Parse_num; try (by intros (? & _ & [= <-])%res_bind_Ok).
  - by intros [= <-].
  - intros (? & _ & H)%res_bind_Ok. revert H. case_match eqn:E; [|done]. by intros [= <-].
  - unfold Parse_enum. case_match; [done|]. case_match eqn:E; [|done]. intros [= <-]. cbn.
    apply bool_decide_eq_true_2. by eapply enum_named.
  - intros (? & _ & H)%res_bind_Ok. revert H. case_match; [|done]. intros [= <-]. cbn. apply value_num_range.
Qed.

Lemma Parse_typed_all ty : defaults_ok ty = true -> parses_typed ty.
Proof.
  induction ty as [ty Hl|n fs IH|t d IH|t IH|t IH|t IH|t IH|ts IH] using CType_tree_ind; intros Hd cur conf p x Hc H.
  - eapply Parse_typed_leaf; eassumption.
  - destruct cur; try done. cbn in Hc, Hd, H. destruct conf; try done.
    apply res_bind_Ok in H as (vs & Hv & [= <-]). cbn. eapply parse_fields_typed; [|exact Hc|exact Hv].
    apply Forall_forall. intros f Hf. rewrite Forall_forall in IH. apply IH; [done|]. by apply (forallb_elem _ _ f) in Hd.
  - cbn in *. apply andb_true_iff in Hd as [Hd _]. destruct (isNull conf); [by injection H as <-|].
    eapply IH; [done| |exact H]. by apply typed_weaken.
  - cbn in *. destruct (isNull conf); [by injection H as <-|]. apply res_bind_Ok in H as (y & Hy & [= <-]).
    eapply IH; [done| |exact Hy]. by apply typed_init.
  - cbn in *. destruct (isNull conf); [by injection H as <-|]. apply res_bind_Ok in H as (y & Hy & [= <-]).
    eapply IH; [done| |exact Hy]. by apply typed_init.
  - destruct cur; try done. assert (H' : (exists l, t = CString /\ conf = VStringList l) \/ (exists l, conf = VList l) \/ x = XVec l).
    { destruct t; cbn in H; destruct conf; try done; eauto; destruct m; try done; injection H as <-; eauto. }
    destruct H' as [(l' & -> & ->)|[(l' & ->)|]]; [| |by subst].
    + cbn in H. injection H as <-. cbn. induction l'; done.
    + rewrite Parse_vector in H. apply res_bind_Ok in H as (vs & Hv & [= <-]). cbn in Hc, Hd.
      eapply parse_items_typed; [by apply IH|by apply typed_init| |exact Hv]. done.
  - cbn in *. destruct conf; try done. apply res_bind_Ok in H as (vs & Hv & [= <-]). apply andb_true_iff.
    eapply parse_entries_typed; [by apply IH|by apply typed_init| | |exact Hv]; done.
  - destruct cur; try done. cbn in Hc, Hd, H. destruct (canConvert MList conf); [|done].
    apply res_bind_Ok in H as (vs & Hv & [= <-]). cbn. eapply parse_tuple_typed; [|exact Hc|exact Hv].
    apply Forall_forall. intros f Hf. rewrite Forall_forall in IH. apply IH; [done|]. by apply (forallb_elem _ _ f) in Hd.
Qed.
End types.

(** ** Where an error is reported

    The nodes of a value, as a type reads it: the path to each, its type and its
    value, a parent before its children and those in their order.  A null under a
    [WithDefault] or an optional is no node. *)
Definition Node : Type := list FrameKey * CType * QVar.
Definition under (k : FrameKey) (l : list Node) : list Node := map (fun n => (k :: n.1.1, n.1.2, n.2)) l.
Section node_loops.
Context {A : Type}.
Variable below : A -> list Node.
Fixpoint item_nodes (i : Z) (l : list A) : list Node :=
  match l with
  | [] => []
  | x :: l => under (FIdx i) (below x) ++ item_nodes (i + 1) l
  end.
Variable key : A -> string.
Fixpoint entry_nodes (l : list A) : list Node :=
  match l with
  | [] => []
  | x :: l => under (FKey (key x)) (below x) ++ entry_nodes l
  end.
End node_loops.
Section tuple_nodes.
Variable below : CType -> QVar -> list Node.
Fixpoint tuple_nodes (i : Z) (ts : list CType) (l : list QVar) : list Node :=
  match ts with
  | [] => []
  | t :: ts => under (FIdx i) (below t (default VInvalid (head l))) ++ tuple_nodes (i + 1) ts (tail l)
  end.
End tuple_nodes.
(** A structure parsed at the root is named after its type. *)
Fixpoint base (ty : CType) (p : list FrameKey) : list FrameKey :=
  match p with
  | [] => match ty with
          | CStruct name _ => [FKey name]
          | CDefault t _ | COptional t | COptionalPtr t => base t []
          | _ => []
          end
  | _ => p
  end.

Section errors.
Context {CO : ConfigOps}.
Notation qeq := (qeq (QVariantOps := variant)).
Notation toStr := (toStr (QVariantOps := variant)).
Fixpoint nodes (ty : CType) (v : QVar) : list Node :=
  match ty with
  | CStruct _ fields =>
      ([], ty, v) :: match v with
                     | VMap m => entry_nodes (fun f => nodes f.2 (qm_get VInvalid f.1 m)) fst fields
                     | _ => []
                     end
  | CDefault t _ | COptional t | COptionalPtr t => if isNull v then [] else nodes t v
  | CVector t => ([], ty, v) :: match v with VList l => item_nodes (nodes t) 0 l | _ => [] end
  | CMap t => ([], ty, v) :: match v with VMap m => entry_nodes (fun e => nodes t e.2) fst m | _ => [] end
  | CTuple ts => ([], ty, v) :: tuple_nodes nodes 0 ts (toList v)
  | _ => [([], ty, v)]
  end.
(** Why a node is refused for itself, whatever is below it and above it. *)
Definition inconvertible (m : Meta) (v : QVar) : option string :=
  if canConvert m v then None else Some (((("Could not convert to '" +:+ meta_name m) +:+ "' from '") +:+ TypeNameOf v) +:+ "'").
Definition refuses (ty : CType) (v : QVar) : option string :=
  match ty with
  | CBool => inconvertible MBool v
  | CString => inconvertible MString v
  | CAnyMap => inconvertible MMap v
  | CAnyList => if is_empty_map v then None else inconvertible MList v
  | CFunction => inconvertible MFunction v
  | CUuid => inconvertible MUuid v
  | CObject cls =>
      match inconvertible MObject v, cls with
      | None, Some c =>
          let o := value_opaque MObject v in
          if (negb (o =? 0) && qobject_cast c o)%bool then None
          else Some ((("could not cast " +:+ (if o =? 0 then "<nil>" else className o)) +:+ " => ") +:+ c)
      | r, _ => r
      end
  | CEnum name members =>
      if canConvert MString v then
        match name_to_enum members (toStr v) with
        | Some _ => None
        | None => Some (((((("Invalid value for enum (" +:+ name) +:+ "): ") +:+ toStr v) +:+ ". Valid: [") +:+ join_names members.*1) +:+ "]")
        end
      else Some ((("Cannot convert to " +:+ name) +:+ " from ") +:+ TypeNameOf v)
  | CNum t =>
      match inconvertible (MNum t) v with
      | None =>
          if qeq (num_variant t (value_num t v)) v then None
          else Some (((("Could not convert to number from: " +:+ toStr v) +:+ " (") +:+ TypeNameOf v) +:+ ")")
      | r => r
      end
  | CStruct name _ => if is_map v then None else Some ((("Cannot get " +:+ name) +:+ " from ") +:+ TypeNameOf v)
  | CVector t =>
      match t, v with
      | CString, VStringList _ | _, VList _ | _, VMap [] => None
      | _, _ => Some (("Non-array config passed (" +:+ TypeNameOf v) +:+ ")")
      end
  | CMap _ => if is_map v then None else Some ("Cannot parse map from " +:+ TypeNameOf v)
  | CTuple ts =>
      if canConvert MList v then None else Some (("Tuple of size at least(" +:+ to_string (Z.of_nat (length ts))) +:+ ") expected")
  | CAny | CDefault _ _ | COptional _ | COptionalPtr _ => None
  end.
Definition judge (n : Node) : option (list FrameKey * string) := w ← refuses n.1.2 n.2; Some (n.1.1, w).
(** The first node refused: its path and the reason. *)
Definition first_refused (l : list Node) : option (list FrameKey * string) := head (omap judge l).

Lemma first_cons n l : first_refused (n :: l) = match judge n with Some r => Some r | None => first_refused l end.
Proof. unfold first_refused. cbn. by destruct (judge n). Qed.
Lemma first_app l1 l2 : first_refused (l1 ++ l2) = match first_refused l1 with Some r => Some r | None => first_refused l2 end.
Proof. induction l1 as [|n l1 IH]; [done|]. cbn [app]. rewrite !first_cons. by destruct (judge n). Qed.
Lemma first_under k l : first_refused (under k l) = r ← first_refused l; Some (k :: r.1, r.2).
Proof.
  induction l as [|[[s t] v] l IH]; [done|]. unfold under in *. cbn [map fst snd]. rewrite !first_cons, IH.
  unfold judge. cbn. by destruct (refuses t v).
Qed.
(** What a parse at the path [q] must do, given the first node refused. *)
Definition agrees {A} (q : list FrameKey) (r : res A) (o : option (list FrameKey * string)) : Prop :=
  match o with Some (s, what) => r = raise_at (q ++ s) what | None => exists x, r = Ok x end.
Definition errors_located (t : CType) : Prop :=
  forall cur v p, agrees (base t p) (Parse t cur v p) (first_refused (nodes t v)).
Lemma agrees_bind {A B} q (r : res A) (f : A -> res B) o : agrees q r o ->
  (o = None -> forall x, r = Ok x -> exists y, f x = Ok y) -> agrees q (res_bind r f) o.
Proof.
  destruct o as [[s w]|]; cbn; [by intros ->|]. intros [x ->] H. cbn. by apply H.
Qed.
(** One step of a loop over children. *)
Lemma agrees_step {A B} q k (r : res A) (f : A -> res B) l1 l2 :
  agrees (q ++ [k]) r (first_refused l1) -> (forall x, agrees q (f x) (first_refused l2)) ->
  agrees q (res_bind r f) (first_refused (under k l1 ++ l2)).
Proof.
  intros H1 H2. rewrite first_app, first_under. destruct (first_refused l1) as [[s w]|]; cbn in *.
  - rewrite H1, <- app_assoc. done.
  - destruct H1 as [x ->]. apply H2.
Qed.
Lemma agrees_node {A} q (r : res A) t v l : (forall w, refuses t v = Some w -> r = raise_at q w) ->
  (refuses t v = None -> agrees q r (first_refused l)) -> agrees q r (first_refused (([], t, v) :: l)).
Proof.
  intros H1 H2. rewrite first_cons. unfold judge. cbn. destruct (refuses t v) as [w|]; cbn; [|by apply H2].
  rewrite app_nil_r. by apply H1.
Qed.
Lemma base_snoc t p k : base t (p ++ [k]) = p ++ [k].
Proof. destruct p; by destruct t. Qed.
Lemma base_id t p : match t with CStruct _ _ | CDefault _ _ | COptional _ | COptionalPtr _ => False | _ => True end ->
  base t p = p.
Proof. by destruct t, p. Qed.
Lemma base_through t t' p : base t' [] = base t [] -> base t' p = base t p.
Proof. destruct p; [done|]. by destruct t, t'. Qed.

Lemma parse_fields_error m q fs : Forall (fun f => errors_located f.2) fs ->
  forall curs, agrees q (parse_fields Parse m q fs curs) (first_refused (entry_nodes (fun f => nodes f.2 (qm_get VInvalid f.1 m)) fst fs)).
Proof.
  induction 1 as [|[k t] fs Hf _ IH]; intros curs; [by eexists|]. cbn [parse_fields entry_nodes fst snd].
  apply agrees_step; [rewrite <- (base_snoc t) at 1; apply Hf|]. intros x. apply (agrees_bind q _ _ _ (IH _)). eauto.
Qed.
Lemma parse_items_error t q : errors_located t ->
  forall l i curs, agrees q (parse_items (Parse t) (init t) q i l curs) (first_refused (item_nodes (nodes t) i l)).
Proof.
  intros Ht. induction l as [|v l IH]; intros i curs; [by eexists|]. cbn [parse_items item_nodes].
  apply agrees_step; [rewrite <- (base_snoc t) at 1; apply Ht|]. intros x. apply (agrees_bind q _ _ _ (IH _ _)). eauto.
Qed.
Lemma parse_entries_error t q : errors_located t ->
  forall m out, agrees q (parse_entries (Parse t) (init t) q m out) (first_refused (entry_nodes (fun e => nodes t e.2) fst m)).
Proof.
  intros Ht. induction m as [|[k v] m IH]; intros out; [by eexists|]. cbn [parse_entries entry_nodes fst snd].
  apply agrees_step; [rewrite <- (base_snoc t) at 1; apply Ht|]. intros x. apply IH.
Qed.
Lemma parse_tuple_error q ts : Forall errors_located ts ->
  forall i curs l, agrees q (parse_tuple Parse q i ts curs l) (first_refused (tuple_nodes nodes i ts l)).
Proof.
  induction 1 as [|t ts Ht _ IH]; intros i curs l; [by eexists|]. cbn [parse_tuple tuple_nodes].
  apply agrees_step; [rewrite <- (base_snoc t) at 1; apply Ht|]. intros x. apply (agrees_bind q _ _ _ (IH _ _ _)). eauto.
Qed.

Lemma CheckCanConvert_spec m v p :
  CheckCanConvert m v p = match inconvertible m v with Some w => raise_at p w | None => Ok tt end.
Proof. unfold CheckCanConvert, inconvertible. by destruct (canConvert m v). Qed.
Lemma Parse_errors_leaf ty :
  match ty with CStruct _ _ | CDefault _ _ | COptional _ | COptionalPtr _ | CVector _ | CMap _ | CTuple _ => False | _ => True end ->
  errors_located ty.
Proof.
  intros Hl cur v p. rewrite (base_id ty p) by (by destruct ty).
  assert (nodes ty v = [([], ty, v)]) as -> by (by destruct ty).
  apply agrees_node; destruct ty as [| | | | |[cls|]| | |name ms|t| | | | | | |]; try done; cbn [Parse refuses];
    unfold Parse_list, Parse_bool, Parse_string, Parse_map, Parse_function, Parse_uuid, Parse_object, Parse_num, Parse_enum;
    rewrite ?CheckCanConvert_spec; cbn; intros; repeat (case_match; simplify_eq/=); eauto; try done.
Qed.
Lemma Parse_errors_all ty : errors_located ty.
Proof.
  induction ty as [ty Hl|n fs IH|t d IH|t IH|t IH|t IH|t IH|ts IH] using CType_tree_ind; intros cur v p.
  - by apply Parse_errors_leaf.
  - cbn [nodes Parse]. replace (match p with [] => [FKey n] | _ => p end) with (base (CStruct n fs) p) by by destruct p.
    apply agrees_node; cbn [refuses]; destruct v; cbn [is_map]; try done; try by intros ? [= <-].
    intros _. apply agrees_bind; [by apply parse_fields_error|eauto].
  - cbn [nodes Parse]. rewrite (base_through t) by done. destruct (isNull v); [by eexists|apply IH].
  - cbn [nodes Parse]. rewrite (base_through t) by done. destruct (isNull v); [by eexists|]. apply agrees_bind; [apply IH|eauto].
  - cbn [nodes Parse]. rewrite (base_through t) by done. destruct (isNull v); [by eexists|]. apply agrees_bind; [apply IH|eauto].
  - rewrite base_id by done. cbn [nodes]. destruct v; try (apply agrees_node; destruct t; cbn; intros; repeat case_match; simplify_eq/=; eauto; done).
    rewrite Parse_vector. apply agrees_node; [by destruct t|]. intros _. apply agrees_bind; [by apply parse_items_error|eauto].
  - rewrite base_id by done. cbn [nodes Parse]. apply agrees_node; cbn [refuses]; destruct v; cbn [is_map]; try done; try by intros ? [= <-].
    intros _. apply agrees_bind; [by apply parse_entries_error|eauto].
  - rewrite base_id by done. cbn [nodes Parse]. apply agrees_node; cbn [refuses]; destruct (canConvert MList v); cbn [negb]; try done; try by intros ? [= <-].
    intros _. apply agrees_bind; [by apply parse_tuple_error|eauto].
Qed.
End errors.

(** ** Printing a frame *)
Inductive chain (st : list TraceFrame) : nat -> list FrameKey -> Prop :=
| chain_root i f : st !! i = Some f -> prev f = None -> chain st i []
| chain_child i f j p : st !! i = Some f -> prev f = Some j -> (j < i)%nat -> chain st j p -> chain st i (p ++ [fkey f]).

Lemma chain_length st i p : chain st i p -> (length p <= i)%nat.
Proof. induction 1; [cbn; lia|]. rewrite length_app. cbn. lia. Qed.
Lemma chain_alter st c a i p : chain st i p -> chain (alter (set_next c) a st) i p.
Proof.
  induction 1 as [i f Hf Hp|i f j p Hf Hp Hj _ IH].
  - destruct (decide (a = i)) as [->|].
    + eapply chain_root; [by rewrite list_lookup_alter_eq, Hf|done].
    + eapply chain_root; [by rewrite list_lookup_alter_ne|done].
  - destruct (decide (a = i)) as [->|].
    + apply (chain_child _ i (set_next c f) j); [by rewrite list_lookup_alter_eq, Hf|done..].
    + apply (chain_child _ i f j); [by rewrite list_lookup_alter_ne|done..].
Qed.
Lemma link_up_spec j q : forall st c fuel st' root, chain st j q -> (j < c)%nat -> (j < fuel)%nat ->
  link_up fuel st (Some j) c = (st', root) ->
  length st' = length st /\ (forall i, (j < i)%nat -> st' !! i = st !! i) /\
  forall g, walk_frames (length q + g) st' (f ← st' !! root; next f) = q ++ walk_frames g st' (Some c).
Proof.
  revert j. induction q as [|x q IH] using rev_ind; intros j st c fuel st' root H Hc Hfu; destruct fuel as [|fuel]; try lia.
  - inversion H as [? f Hf Hp|? f k p ? ? ? ? E]; subst; [|by destruct p].
    cbn [link_up]. rewrite list_lookup_alter_eq, Hf. cbn [mbind option_bind option_map set_next prev fmap option_fmap].
    rewrite Hp. intros E. assert (st' = alter (set_next c) j st /\ root = j) as [-> ->] by (destruct fuel; cbn in E; by injection E as <- <-).
    split; [apply length_alter|]. split; [intros; apply list_lookup_alter_ne; lia|].
    intros g. by rewrite list_lookup_alter_eq, Hf.
  - inversion H as [? f Hf Hp E0 E|? f k p Hf Hp Hk Hch E0 E]; subst; [by destruct q|]. apply app_inj_tail in E as [-> <-].
    cbn [link_up]. rewrite list_lookup_alter_eq, Hf. cbn [mbind option_bind set_next prev fmap option_fmap option_map].
    rewrite Hp. intros E. destruct (IH k (alter (set_next c) j st) j fuel st' root) as (Hl & Ho & Hw);
      [by apply chain_alter|lia|lia|exact E|]. rewrite length_alter in Hl. split; [done|]. split.
    + intros i Hi. rewrite Ho by lia. apply list_lookup_alter_ne. lia.
    + intros g. rewrite length_app, <- app_assoc. cbn [length app]. rewrite <- Nat.add_assoc, Hw.
      f_equal. cbn [Nat.add walk_frames]. rewrite Ho, list_lookup_alter_eq, Hf by done. done.
Qed.
Lemma Walk_chain st this f p : chain st this p -> st !! this = Some f -> next f = None -> (Walk st this).2 = p.
Proof.
  intros H Hf Hn. unfold Walk, prepareWalk. rewrite Hf. cbn [mbind option_bind].
  inversion H as [? f' Hf' Hp|? f' k q Hf' Hp Hk Hch]; subst; simplify_eq; rewrite Hp; [by destruct (length st)|].
  destruct (link_up (length st) st (Some k) this) as [st' root] eqn:E. cbn [snd].
  pose proof (lookup_lt_Some _ _ _ Hf) as Hlt.
  destruct (link_up_spec k q st this (length st) st' root Hch Hk ltac:(lia) E) as (Hl & Ho & Hw).
  pose proof (chain_length _ _ _ Hch). rewrite Hl.
  replace (length st) with (length q + (S (length st - length q - 1)))%nat by lia. rewrite Hw. f_equal.
  cbn [walk_frames]. rewrite Ho, Hf by lia. rewrite Hn. by destruct (length st - length q - 1)%nat.
Qed.

(** ** Schemas *)
Section schema.
Context {CO : ConfigOps}.
(** Types whose schema leaves the described object alone. *)
Fixpoint untouched (ty : CType) : bool :=
  match ty with
  | CStruct _ fs => forallb (fun f => untouched f.2) fs
  | CTuple ts => forallb untouched ts
  | CDefault t _ => untouched t
  | COptional _ | CVector _ | CMap _ => false
  | _ => true
  end.
Lemma schema_untouched ty : untouched ty = true -> forall x, typed false ty x = true -> (PopulateSchema ty x).1 = x.
Proof.
  induction ty as [ty Hl|n fs IH|t d IH|t IH|t IH|t IH|t IH|ts IH] using CType_tree_ind; intros Hu x Hx; try done.
  - destruct ty as [| | | | |[c|]| | | | | | | | | | |]; try done; destruct Hl.
  - destruct x as [| | | | | | | |vs| | | |]; try done. cbn in Hu, Hx |- *.
    assert (forall m, (schema_fields PopulateSchema fs vs m).1 = vs) as H.
    { revert vs Hx. induction IH as [|[k t] fs Ht _ IHf]; intros [|x vs] Hx m; try done. cbn in Hu, Hx |- *.
      apply andb_true_iff in Hu as [Hu Hus]. apply andb_true_iff in Hx as [Hx Hxs]. cbn in Ht. specialize (Ht Hu x Hx).
      destruct (PopulateSchema t x) as [y q]. cbn in Ht. subst y.
      specialize (IHf Hus vs Hxs (qm_insert k q m)). destruct (schema_fields _ fs vs _) as [xs m']. cbn in *. by subst. }
    specialize (H []). destruct (schema_fields _ fs vs []). cbn in *. by subst.
  - cbn in Hu, Hx |- *. specialize (IH Hu x (typed_weaken _ _ Hx)). destruct (PopulateSchema t x). cbn in *. done.
  - cbn. by destruct (PopulateSchema t (init t)).
  - destruct x as [| | | | | | | | | | | |vs]; try done. cbn in Hu, Hx |- *.
    assert ((schema_tuple PopulateSchema ts vs).1 = vs) as H.
    { revert vs Hx. induction IH as [|t ts Ht _ IHf]; intros [|x vs] Hx; try done. cbn in Hu, Hx |- *.
      apply andb_true_iff in Hu as [Hu Hus]. apply andb_true_iff in Hx as [Hx Hxs]. specialize (Ht Hu x Hx).
      destruct (PopulateSchema t x) as [y q]. cbn in Ht. subst y.
      specialize (IHf Hus vs Hxs). destruct (schema_tuple _ ts vs) as [xs m']. cbn in *. by subst. }
    destruct (schema_tuple _ ts vs). cbn in *. by subst.
Qed.
Lemma schema_fields_find fs : forall m k, NoDup fs.*1 ->
  qm_find k (schema_fields PopulateSchema fs (map (fun f => init f.2) fs) m).2 =
  match list_find (fun f => f.1 = k) fs with
  | Some (_, f) => Some (SchemaFor f.2)
  | None => qm_find k m
  end.
Proof.
  induction fs as [|[j t] fs IH]; intros m k; [done|]. cbn [fmap list_fmap fst]. intros [Hj Hnd]%NoDup_cons.
  cbn [map schema_fields head tail default from_option id snd list_find fst].
  pose proof (IH (qm_insert j (SchemaFor t) m) k Hnd) as H. unfold SchemaFor in *.
  destruct (PopulateSchema t (init t)) as [x q] eqn:Eq. cbn [snd] in *.
  destruct (schema_fields PopulateSchema fs _ _) as [xs m']. cbn [snd] in *. rewrite H. destruct (decide (j = k)) as [->|Hne].
  - destruct (list_find _ fs) as [[i f]|] eqn:E; [|cbn [snd]; rewrite Eq; apply qm_find_insert_eq].
    apply list_find_Some in E as (Hf & Hk & _). exfalso. apply Hj. rewrite <- Hk. by eapply list_elem_of_fmap_2, list_elem_of_lookup_2.
  - destruct (list_find _ fs) as [[i f]|] eqn:E; cbn; [done|]. by apply qm_find_insert_ne.
Qed.
End schema.

(** ** A concrete library, used by the witnesses *)
Definition tiny_value_num (t : NumType) (q : QVar) : Z :=
  match q with
  | VInt z | VUInt z | VLongLong z | VULongLong z | VDouble z | VFloat z | VOpaque _ z =>
      if num_range t z then z else 0
  | _ => 0
  end.
Fixpoint find_name (ms : list (string * Z)) (n : string) : option Z :=
  match ms with
  | [] => None
  | (m, z) :: ms => if bool_decide (m = n) then Some z else find_name ms n
  end.
Fixpoint find_value (ms : list (string * Z)) (z : Z) : option string :=
  match ms with
  | [] => None
  | (m, y) :: ms => if y =? z then Some m else find_value ms z
  end.
Definition tiny_config : ConfigOps := {|
  variant := simple_ops;
  canConvert := own;
  typeName q := match q with VInvalid => None | _ => Some "type" end;
  isNull q := match q with VInvalid => true | VOpaque n z => (bool_decide (n = "QObject*") && (z =? 0))%bool | _ => false end;
  toMap q := match q with VMap m => m | _ => [] end;
  toList q := match q with VList l => l | _ => [] end;
  value_num := tiny_value_num;
  value_opaque _ q := match q with VOpaque _ z => z | _ => 0 end;
  className _ := "Worker";
  qobject_cast c o := bool_decide (c = "Worker");
  name_to_enum := find_name;
  enum_to_name := find_value
|}.
Lemma find_name_elem ms n z : find_name ms n = Some z -> (n, z) ∈ ms.
Proof.
  induction ms as [|[m y] ms IH]; [done|]. cbn. case_bool_decide; [intros [= <-]; subst; left|]. intros. right. auto.
Qed.
Lemma find_value_elem ms n z : find_value ms z = Some n -> (n, z) ∈ ms.
Proof.
  induction ms as [|[m y] ms IH]; [done|]. cbn. destruct (Z.eqb_spec y z); [intros [= <-]; subst; left|].
  intros. right. auto.
Qed.
Lemma find_name_nodup ms n z : NoDup ms.*1 -> (n, z) ∈ ms -> find_name ms n = Some z.
Proof.
  induction ms as [|[m y] ms IH]; [intros _ ?%elem_of_nil; done|]. cbn. intros [Hm Hnd]%NoDup_cons [[= <- <-]|H]%elem_of_cons.
  - by rewrite bool_decide_eq_true_2.
  - rewrite bool_decide_eq_false_2; [auto|]. intros ->. apply Hm. by apply (list_elem_of_fmap_2 fst) in H.
Qed.
#[export] Instance tiny_config_laws : ConfigLaws tiny_config.
Proof.
  split; cbn.
  - apply simple_laws.
  - done.
  - intros t z _. by apply qvar_eqb_eq.
  - done.
  - done.
  - done.
  - intros t z Hr. destruct t; cbn [num_variant tiny_value_num]; by rewrite Hr.
  - intros t q. unfold tiny_value_num. assert (num_range t 0 = true) by by destruct t.
    destruct q; try done; by case_match.
  - done.
  - intros ms z n Hnd H. by apply find_name_nodup; [|apply find_value_elem].
  - intros ms z n H%find_name_elem. induction ms as [|[m y] ms IH]; [by apply elem_of_nil in H|]. cbn.
    destruct (Z.eqb_spec y z); [eauto|]. apply elem_of_cons in H as [[= _ ?]|?]; [congruence|auto].
Qed.
#[export] Instance tiny_enum_laws : EnumLaws tiny_config.
Proof. split; cbn; intros; [by apply find_name_nodup|by apply find_value_elem]. Qed.

(** A worker's configuration, in the manner of [SerialConfig]. *)
Definition sample_type : CType := CStruct "Sample" [
  ("port", CString);
  ("baud", CDefault (CNum NInt) (XNum 9600));
  ("mode", CEnum "Mode" [("r", 0); ("rw", 1)]);
  ("filters", CVector (CNum NUInt));
  ("names", CMap CString);
  ("parent", COptional CString)].
Definition sample_value : CVal := XStruct [XString "/dev/tty"; XNum 115200; XEnum 1; XVec [XNum 1; XNum 2];
  XMap [("a", XString "x"); ("b", XString "y")]; XOpt None].

(** * Properties *)

(** C3: a configuration survives being written and read: for every type of the
    universe and every value of it that can be written (numbers in range and not
    NaN, enumerators with names, no null where a null means absence), [Dump]
    succeeds, and [Parse] of what it wrote gives the value back, whatever the
    object it is parsed into held before and wherever in the configuration. *)
Theorem Parse_Dump (CO : ConfigOps) (CL : ConfigLaws CO) ty x : writable ty x = true ->
  exists q, Dump ty x VInvalid = Ok q /\ forall cur p, Parse ty cur q p = Ok x.
Proof. intros H. exact (Parse_Dump_all ty x H). Qed.
Lemma Parse_Dump_witness :
  exists q, Dump (CO := tiny_config) sample_type sample_value VInvalid = Ok q /\
    forall cur p, Parse (CO := tiny_config) sample_type cur q p = Ok sample_value.
Proof. apply (Parse_Dump tiny_config tiny_config_laws sample_type sample_value). vm_compute. reflexivity. Defined.

(** C32: whatever is passed as configuration, a [Parse] that returns leaves a
    well-typed value: numbers in the range of their type, enumerators that have a
    name, pointers that passed the cast, maps in key order, every field of every
    structure set - provided the defaults written in the types are themselves
    well typed. *)
Theorem Parse_typed (CO : ConfigOps) (CL : ConfigLaws CO) ty conf p x :
  defaults_ok ty = true -> ParseAs ty conf p = Ok x -> typed true ty x = true.
Proof. intros Hd. apply Parse_typed_all; [done|]. by apply typed_init. Qed.
Lemma Parse_typed_witness : exists x,
  ParseAs (CO := tiny_config) sample_type (VMap [("filters", VMap []); ("mode", VString "r"); ("names", VMap []); ("port", VString "p")]) [] = Ok x /\
  typed (CO := tiny_config) true sample_type x = true.
Proof.
  eexists. split; [vm_compute; reflexivity|].
  eapply (Parse_typed tiny_config tiny_config_laws sample_type
    (VMap [("filters", VMap []); ("mode", VString "r"); ("names", VMap []); ("port", VString "p")]) []); vm_compute; reflexivity.
Defined.

(** C33: every configuration error says where and why: reading a configuration as a
    type visits the nodes of the value that the type describes - fields in their
    described order, elements, entries, tuple members, not what a null default or
    optional stands for -, parents first.  When none of them is refused for itself (a
    failed conversion, a lossy number, an unknown enumerator, a failed cast, not a
    map or an array), [Parse] returns.  Otherwise it throws, and the text is the
    printed path of the first refused node - the frame given (at the root, the name
    of the structure), then the keys and indices that lead to it -, a colon, and the
    reason for which that node is refused. *)
Theorem Parse_error_located (CO : ConfigOps) ty cur conf p :
  match first_refused (nodes ty conf) with
  | Some (s, what) => Parse ty cur conf p = Raise ((print_keys (base ty p ++ s) +:+ ": ") +:+ what)
  | None => exists x, Parse ty cur conf p = Ok x
  end.
Proof. exact (Parse_errors_all ty cur conf p). Qed.
Lemma Parse_error_located_witness :
  Parse (CO := tiny_config) sample_type (init sample_type)
    (VMap [("filters", VList [VUInt 1; VInvalid]); ("mode", VString "r"); ("names", VMap []); ("port", VString "p")]) [] =
  Raise ".Sample.filters.[1]: Could not convert to 'uint' from '<nil>'".
Proof.
  exact (Parse_error_located tiny_config sample_type (init sample_type)
    (VMap [("filters", VList [VUInt 1; VInvalid]); ("mode", VString "r"); ("names", VMap []); ("port", VString "p")]) []).
Defined.

(** Printing a frame prints its path: in any store of frames, for a frame
    whose parents lead to a root and that was itself never walked through as a
    parent, the doubly linked walk of [prepareWalk] and [Walk] visits the keys
    from the root's child down to the frame, once each, in order, and stops. *)
Theorem PrintTrace_path st this f p : chain st this p -> st !! this = Some f -> next f = None ->
  PrintTrace st this = print_keys p.
Proof. intros H Hf Hn. unfold PrintTrace. by rewrite (Walk_chain st this f p). Qed.
Definition two_frames : list TraceFrame :=
  [{| prev := None; next := None; fkey := FIdx 0 |};
   {| prev := Some 0%nat; next := None; fkey := FKey "a" |};
   {| prev := Some 1%nat; next := None; fkey := FIdx 3 |}].
Lemma PrintTrace_path_witness : PrintTrace two_frames 2 = ".a.[3]".
Proof.
  apply (PrintTrace_path two_frames 2 {| prev := Some 1%nat; next := None; fkey := FIdx 3 |} [FKey "a"; FIdx 3]); [|reflexivity..].
  change [FKey "a"; FIdx 3] with ([FKey "a"] ++ [fkey {| prev := Some 1%nat; next := None; fkey := FIdx 3 |}]).
  eapply chain_child; [reflexivity|reflexivity|lia|].
  change [FKey "a"] with ([] ++ [fkey {| prev := Some 0%nat; next := None; fkey := FKey "a" |}]).
  eapply chain_child; [reflexivity|reflexivity|lia|]. eapply chain_root; reflexivity.
Defined.

(** The schema of a structure has one entry per described field, under the
    field's name, holding the schema of the field's own type; and the default it
    reports for a [WithDefault] field is the declared one, when describing the
    inner type does not modify the object described. *)
Theorem SchemaFor_describes (CO : ConfigOps) name fs : NoDup fs.*1 ->
  (exists m, SchemaFor (CStruct name fs) = VMap m /\
     forall k, qm_find k m = match list_find (fun f => f.1 = k) fs with Some (_, f) => Some (SchemaFor f.2) | None => None end) /\
  (forall t d q, untouched t = true -> typed true t d = true -> Dump t d VInvalid = Ok q ->
     exists m, SchemaFor (CDefault t d) = VMap m /\ qm_find "default" m = Some q).
Proof.
  intros Hnd. split.
  - unfold SchemaFor. cbn [PopulateSchema init fields_of].
    pose proof (schema_fields_find fs [] ) as H. destruct (schema_fields PopulateSchema fs _ []) as [xs m]. cbn [snd] in *.
    exists m. split; [done|]. intros k. by rewrite H.
  - intros t d q Hu Hd Hq. unfold SchemaFor. cbn [PopulateSchema init].
    pose proof (schema_untouched t Hu d (typed_weaken _ _ Hd)) as H. destruct (PopulateSchema t d) as [d' nested]. cbn in H. subst d'.
    rewrite Hq. eexists. split; [done|]. apply qm_find_insert_eq.
Qed.
Lemma SchemaFor_describes_witness :
  exists m, SchemaFor (CO := tiny_config) sample_type = VMap m /\
    qm_find "baud" m = Some (VMap [("[has_default]", VString "int"); ("default", VInt 9600)]).
Proof.
  destruct (SchemaFor_describes tiny_config "Sample" [
    ("port", CString); ("baud", CDefault (CNum NInt) (XNum 9600)); ("mode", CEnum "Mode" [("r", 0); ("rw", 1)]);
    ("filters", CVector (CNum NUInt)); ("names", CMap CString); ("parent", COptional CString)]) as [(m & Hm & Hf) _].
  - refine (bool_decide_eq_true_1 _ _). vm_compute. reflexivity.
  - exists m. split; [exact Hm|]. rewrite Hf. vm_compute. reflexivity.
Defined.

(** The default reported for a list is not the declared one: describing a
    [WithDefault<vector<T>>] appends a value-initialised element to the default
    before it is written, so every such field documents one element too many
    (an empty list of arguments is reported as a list of one empty string). *)
Theorem schema_default_drifts (CO : ConfigOps) (l : list string) :
  SchemaFor (CDefault (CVector CString) (XVec (map XString l))) =
  VMap [("[has_default]", VList [VString "string"]); ("default", VList (map VString (l ++ [""])))].
Proof.
  assert (Dump (CVector CString) (XVec (map XString l ++ [XString ""])) VInvalid = Ok (VList (map VString (l ++ [""])))) as E.
  { cbn [Dump]. match goal with |- res_bind ?r _ = _ => assert (r = Ok (map VString (l ++ [""]))) as -> end; [|done].
    induction l as [|s l IH]; [done|]. cbn [map app res_map res_bind]. by rewrite IH. }
  unfold SchemaFor. cbn [PopulateSchema init elems_of]. by rewrite E.
Qed.

(** An empty table, which Lua cannot tell from an empty list, leaves a list
    field as it was: a default cannot be overridden by an empty list. *)
Theorem empty_table_keeps_default (CO : ConfigOps) (CL : ConfigLaws CO) t d p :
  isNull (VMap []) = false -> ParseAs (CDefault (CVector t) d) (VMap []) p = Ok d.
Proof. intros Hn. unfold ParseAs. cbn [Parse init]. rewrite Hn. by destruct t. Qed.

(** A frame walked through as a parent remembers its child: printing the parent
    afterwards prints the child's path. *)
Theorem PrintTrace_stale :
  let st := (Walk two_frames 2).1 in PrintTrace st 1 = ".a.[3]".
Proof. reflexivity. Qed.
