(* ===== verification/Redis.v ===== *)
(** * Redis: [workers/redis/redis_client.cpp], [redis_client.hpp], [redis.cpp]

    The client ([Client]: connection state, reconnection, subscriptions), the
    wire form of commands ([redisFormat]) and of replies ([parseReply]), the
    [Cache] worker (a hash mirrored as a message tree) and the [Stream] worker.
    hiredis is the environment: its callbacks are the events of a step relation,
    and a reply is a tree of its [redisReply]. *)
From S2P Require Import Prelude QVariant Utils Worker.
Set Warnings "-register-all".

(** ** Commands *)
Definition CRLF : list Z := [13; 10].
Definition dec (n : nat) : list Z := bytes_of_string (to_string (Z.of_nat n)).
(** [fmt::format("{}")] prints a size in decimal. *)
Definition redisFormat (argv : list (list Z)) : list Z :=
  (42 :: dec (length argv)) ++ CRLF ++
  concat (map (fun a => (36 :: dec (length a)) ++ CRLF ++ a ++ CRLF) argv).

(** [RedisCmd]: a list of arguments ([Arg] and [Temp] differ in ownership). *)
Definition RedisCmd : Type := list (list Z).
Definition cmd_arg (s : string) (cmd : RedisCmd) : RedisCmd := cmd ++ [bytes_of_string s].

(** ** Replies *)
Inductive redisReply :=
| RString (s : string)
| RArray (l : list redisReply)
| RInteger (z : Z)
| RNil
| RStatus (s : string)
| RError (s : string)
| RDouble (bits : Z)
| RBool (z : Z)
| RMap (l : list redisReply)
| RSet (l : list redisReply)
| RAttr (l : list redisReply)
| RPush (l : list redisReply)
| RBignum (s : string)
| RVerb (s : string)
| ROther.

(** [QString(const char * )]: up to the first NUL. *)
Fixpoint c_str (s : string) : string :=
  match s with
  | EmptyString => ""
  | String c s => if bool_decide (c = Ascii.zero) then "" else String c (c_str s)
  end.

Fixpoint parseReply (reply : redisReply) : res QVar :=
  match reply with
  | RString s | RStatus s | RBignum s | RVerb s => Ok (VString (c_str s))
  | RArray l | RSet l => let* vs := res_map parseReply l in Ok (VList vs)
  | RInteger z => Ok (VLongLong z)
  | RNil => Ok VInvalid
  | RError s => Raise (c_str s)
  | RDouble bits => Ok (VDouble bits)
  | RBool z => Ok (VBool (negb (z =? 0)))
  | RMap _ => Raise "REDIS_REPLY_MAP Unsupported"
  | RAttr _ => Raise "REDIS_REPLY_ATTR Unsupported"
  | RPush _ => Raise "REDIS_REPLY_PUSH Unsupported"
  | ROther => Ok VInvalid
  end.

(** ** The client *)
Record Client := {
  ok : bool; reconPending : bool;
  ctx : bool;                               (* a context is held *)
  timers : nat;                             (* single-shot timers that call doConnect *)
  liveSubs : list (string * nat);           (* glob, subscriber *)
  nextSub : nat;                            (* subscribers allocated so far: 0 .. nextSub - 1 *)
  deleted : list nat
}.
Definition client_init : Client :=
  {| ok := false; reconPending := false; ctx := false; timers := 0; liveSubs := []; nextSub := 0; deleted := [] |}.
Definition set_ok (b : bool) (c : Client) : Client :=
  {| ok := b; reconPending := reconPending c; ctx := ctx c; timers := timers c;
     liveSubs := liveSubs c; nextSub := nextSub c; deleted := deleted c |}.
Definition set_ctx (b : bool) (c : Client) : Client :=
  {| ok := ok c; reconPending := reconPending c; ctx := b; timers := timers c;
     liveSubs := liveSubs c; nextSub := nextSub c; deleted := deleted c |}.
Definition set_recon (p : bool) (t : nat) (c : Client) : Client :=
  {| ok := ok c; reconPending := p; ctx := ctx c; timers := t;
     liveSubs := liveSubs c; nextSub := nextSub c; deleted := deleted c |}.
Definition set_subs (l : list (string * nat)) (d : list nat) (c : Client) : Client :=
  {| ok := ok c; reconPending := reconPending c; ctx := ctx c; timers := timers c;
     liveSubs := l; nextSub := nextSub c; deleted := d |}.

Inductive ClientEffect :=
| EmitError (msg : string)
| EmitConnected (state : bool)
| SendCommand (bytes : list Z)
| Resolved (r : res QVar)                   (* a promise of Execute *)
| DeliverSub (sub : nat) (channel message : string)
| Undefined (what : string).

Definition ReconnectLater (c : Client) : Client :=
  if reconPending c then c else set_recon true (S (timers c)) c.
(** [ConnectedChanged] with the slot [Start] connects. *)
Definition ConnectedChanged (state : bool) (c : Client) : Client * list ClientEffect :=
  ((if state then c else ReconnectLater c), [EmitConnected state]).

Definition connectCallback (select : list Z) (status_ok : bool) (c : Client) : Client * list ClientEffect :=
  if status_ok then (c, [SendCommand select])
  else (ReconnectLater (set_ctx false c), [EmitError "connect"]).
Definition disconnectCallback (c : Client) : Client * list ClientEffect :=
  ConnectedChanged false (set_ok false (set_ctx false c)).
Definition parse_or_null (reply : option redisReply) : res QVar :=
  match reply with None => Raise "null reply" | Some r => parseReply r end.
Definition privateCallback (reply : option redisReply) (c : Client) : Client * list ClientEffect :=
  (c, [Resolved (parse_or_null reply)]).

Section client.
Context {QO : QVariantOps}.

Definition dbCallback (reply : option redisReply) (c : Client) : Client * list ClientEffect :=
  match (let* resp := parse_or_null reply in
         if qeq resp (VString "OK") then Ok tt else Raise "Could not change db") with
  | Ok _ => ConnectedChanged true (set_ok true c)
  | Raise e => (ReconnectLater c, [EmitError e])
  end.

Definition ForgetSubscription (sub : nat) (c : Client) : Client :=
  if bool_decide (sub ∈ (liveSubs c).*2)
  then set_subs (filter (fun gs => gs.2 <> sub) (liveSubs c)) (sub :: deleted c) c
  else c.
(** [QVariant::toStringList] of a reply. *)
Definition toStringList (v : QVar) : list string :=
  match v with VList l => map toStr l | VString s => [s] | _ => [] end.
Definition ub_index : string := "undefined behaviour: QStringList index out of range".
Definition subCallback (sub : nat) (reply : option redisReply) (c : Client) : Client * list ClientEffect :=
  match reply with
  | None => (ForgetSubscription sub c, [])
  | Some r =>
      match (let* v := parseReply r in
             let r := toStringList v in
             if (length r <? 3)%nat then Raise "Invalid responce: small list?" else Ok r) with
      | Ok r =>
          (c, if bool_decide (default "" (r !! 0%nat) = "pmessage") then
                match r !! 2%nat, r !! 3%nat with
                | Some channel, Some message => [DeliverSub sub channel message]
                | _, _ => [Undefined ub_index]
                end
              else [])
      | Raise e => (ReconnectLater c, [EmitError ("PSUB: " +:+ e)])
      end
  end.

(** [send_ok]: what [redisAsyncFormattedCommand] answers. *)
Definition Execute (argv : RedisCmd) (send_ok : bool) (c : Client) : Client * list ClientEffect :=
  if negb (ctx c) then (c, [Resolved (Raise "Not connected")])
  else match argv with
       | [] => (c, [Resolved (Raise "Empty command")])
       | _ =>
           if send_ok then (c, [SendCommand (redisFormat argv)])
           else (ReconnectLater c, [Resolved (Raise "Could not run command")])
       end.

Definition PSubscribe (glob : string) (send_ok : bool) (c : Client) : res Client :=
  if negb (ctx c) then Raise "Not connected"
  else
    let sub := nextSub c in
    let c := {| ok := ok c; reconPending := reconPending c; ctx := ctx c; timers := timers c;
                liveSubs := liveSubs c; nextSub := S sub; deleted := deleted c |} in
    if negb send_ok then Raise ("Could not psubscribe to: " +:+ glob)
    else
      Ok (match qm_find glob (liveSubs c) with
          | None => set_subs (qm_insert glob sub (liveSubs c)) (deleted c) c
          | Some old => set_subs (qm_insert glob sub (liveSubs c)) (old :: deleted c) c
          end).

(** The callbacks hiredis makes. *)
Inductive HiredisEvent :=
| OnConnect (status_ok : bool)
| OnDisconnect
| OnDb (reply : option redisReply)
| OnReply (reply : option redisReply)
| OnSub (sub : nat) (reply : option redisReply).
Definition on_event (select : list Z) (e : HiredisEvent) (c : Client) : Client * list ClientEffect :=
  match e with
  | OnConnect s => connectCallback select s c
  | OnDisconnect => disconnectCallback c
  | OnDb r => dbCallback r c
  | OnReply r => privateCallback r c
  | OnSub s r => subCallback s r c
  end.
Fixpoint on_events (select : list Z) (es : list HiredisEvent) (c : Client) : Client * list ClientEffect :=
  match es with
  | [] => (c, [])
  | e :: es =>
      let (c, out) := on_event select e c in
      let (c, out') := on_events select es c in
      (c, out ++ out')
  end.

(** [during]: the callbacks [redisAsyncFree] makes; [err]: the new context
    reports an error at once. *)
Definition doConnect (select : list Z) (during : list HiredisEvent) (err : bool) (c : Client) : Client * list ClientEffect :=
  let (c, out) := if ctx c then
      let (c, out) := on_events select during c in (set_ctx false c, out)
    else (c, []) in
  let c := set_ctx true (set_recon false (timers c) c) in
  if err then (ReconnectLater c, out ++ [EmitError "connect"]) else (c, out).
(** The timer's call. *)
Definition timer_fires (select : list Z) (during : list HiredisEvent) (err : bool) (c : Client) : Client * list ClientEffect :=
  doConnect select during err (set_recon (reconPending c) (timers c - 1) c).
(** The destructor, after [redisAsyncDisconnect]. *)
Definition destroy_subs (c : Client) : Client := set_subs [] ((liveSubs c).*2 ++ deleted c) c.

(** ** Steps of a client *)
Definition freeing (e : HiredisEvent) : bool :=
  match e with OnConnect false | OnDisconnect | OnDb None | OnReply None | OnSub _ None => true | _ => false end.
Inductive client_step (select : list Z) : Client -> Client -> Prop :=
(* a connected context does not fail to connect *)
| step_event e c : ctx c = true -> (e = OnConnect false -> ok c = false) -> client_step select c (on_event select e c).1
| step_execute argv s c : client_step select c (Execute argv s c).1
| step_subscribe glob s c c' : PSubscribe glob s c = Ok c' -> client_step select c c'
| step_reconnect c : client_step select c (ReconnectLater c)
(* freeing a context answers everything pending with null replies, and runs the
   disconnect callback of a connected one *)
| step_timer during err c : (0 < timers c)%nat -> forallb freeing during = true ->
    (ok c = true -> OnDisconnect ∈ during) ->
    client_step select c (timer_fires select during err c).1.
Inductive client_reachable (select : list Z) : Client -> Prop :=
| reach_start err : client_reachable select (doConnect select [] err client_init).1
| reach_step c c' : client_reachable select c -> client_step select c c' -> client_reachable select c'.
End client.

(** ** The workers: [redis.cpp] *)
Inductive CacheMode := Mode_r | Mode_w | Mode_rw.
Definition CacheMode_names : list (string * CacheMode) :=
  [("r", Mode_r); ("w", Mode_w); ("rw", Mode_rw); ("read", Mode_r); ("write", Mode_w); ("read_write", Mode_rw)].
Definition mode_reads (m : CacheMode) : bool := match m with Mode_w => false | _ => true end.
Definition mode_writes (m : CacheMode) : bool := match m with Mode_r => false | _ => true end.
Inductive StreamStart := persistent_id | top | start.
Record CacheConfig := { hash_key : option string; enable_keyevents : bool; cache_mode : CacheMode; db : Z }.
Record StreamConfig := {
  stream_key : string; start_from : StreamStart; stream_size : Z; block_timeout : Z; entries_per_read : Z;
  instance_id : string; persistent_prefix : string; stream_mode : CacheMode
}.

(** What a worker asks of its clients; [k] names the continuation attached to
    the future. *)
Inductive Cont := KModes | KEnabled | KPoll | KWritten | KLua | KSaved | KLastId | KRead.
Inductive RedisEffect :=
| Exec_ (argv : RedisCmd) (k : Cont)
| ResolvedOk (k : Cont)                     (* fut::Resolved("OK") with a continuation *)
| PSub (glob : string)
| Out (e : Emission)
| Reconnect.                                (* both clients: ReconnectLater *)
Definition cmd (l : list string) : RedisCmd := map bytes_of_string l.

Section workers.
Context {QO : QVariantOps}.

(** The loops over the two halves of a reply: an odd last element is dropped. *)
Fixpoint reply_pairs (l : list QVar) : FlatMap :=
  match l with
  | k :: v :: l => (toStr k, v) :: reply_pairs l
  | _ => []
  end.
(** [std::set<char>] of the modes, as the string of its elements in order. *)
Fixpoint char_insert (c : ascii) (s : string) : string :=
  match s with
  | EmptyString => String c ""
  | String d s' =>
      if bool_decide (c = d) then s
      else if N.ltb (N_of_ascii c) (N_of_ascii d) then String c s else String d (char_insert c s')
  end.
Fixpoint sort_chars (s : string) : string :=
  match s with EmptyString => "" | String c s => char_insert c (sort_chars s) end.

Definition subscribeToHash : list RedisEffect := [Exec_ (cmd ["CONFIG"; "GET"; "notify-keyspace-events"]) KModes].
Definition subscribe_failed (e : string) : list RedisEffect :=
  [Out (LogLine error ("Could not subscribe to hash: " +:+ e)); Reconnect].
Definition on_modes (c : CacheConfig) (r : res QVar) : list RedisEffect :=
  match r with
  | Ok v =>
      let sorted := sort_chars (toStr v) in
      let missing := (negb (str_mem "E"%char sorted) || negb (str_mem "h"%char sorted))%bool in
      if (enable_keyevents c && missing)%bool then
        [Exec_ (cmd ["CONFIG"; "SET"; "notify-keyspace-events"; char_insert "h"%char (char_insert "E"%char sorted)]) KEnabled]
      else [ResolvedOk KEnabled]
  | Raise e => subscribe_failed e
  end.
Definition poll (c : CacheConfig) : list RedisEffect :=
  [Exec_ (cmd ["HGETALL"; default "" (hash_key c)]) KPoll].
Definition on_enabled (c : CacheConfig) (r : res QVar) : list RedisEffect :=
  match r with
  | Ok v =>
      if qeq v (VString "OK") then poll c ++ [PSub (("__keyevent@" +:+ to_string (db c)) +:+ "__:*")]
      else subscribe_failed "Could not enable keyevent notifications"
  | Raise e => subscribe_failed e
  end.
(** The slot on [ConnectedChanged] of either client. *)
Definition on_cache_connected (c : CacheConfig) (client_ok sub_ok : bool) : list RedisEffect :=
  if (client_ok && sub_ok && bool_decide (is_Some (hash_key c)))%bool then subscribeToHash else [].
(** A keyspace event of the subscription. *)
Definition on_keyevent (c : CacheConfig) (message : string) : list RedisEffect :=
  if bool_decide (message = default "" (hash_key c)) then poll c else [].
Definition on_polled (c : CacheConfig) (state : QVar) (r : res QVar) : QVar * list RedisEffect :=
  match r with
  | Ok (VList list) =>
      let unflat := Unflatten VInvalid (reply_pairs list) in
      let '(state, diff, n) := MergePatch state unflat (Some VInvalid) in
      (state, if (0 <? n)%nat then [Out (SendMsg (default VInvalid diff))] else [])
  | Ok resp => (state, [Out (LogLine error ("error reading all keys: " +:+ toStr resp))])
  | Raise e => (state, [Out (LogLine error ((("Could not read hash " +:+ default "" (hash_key c)) +:+ " => ") +:+ e))])
  end.
(** The fields of [HMSET] and [XADD]. *)
Definition flat_args (flat : FlatMap) : list string := concat (map (fun kv => [kv.1; toStr kv.2]) flat).
Definition Cache_OnMsg (c : CacheConfig) (msg : QVar) : list RedisEffect :=
  if negb (mode_writes (cache_mode c)) then [Out (LogLine error "write disabled")]
  else
    match hash_key c with
    | None => [Out (LogLine error "cannot handle msg: hash_key not set!")]
    | Some key => [Exec_ (cmd ("HMSET" :: key :: flat_args (Flatten [] msg))) KWritten]
    end.
Definition on_written (r : res QVar) : list RedisEffect :=
  match r with
  | Ok v => if qeq v (VString "OK") then [] else [Out (LogLine error ("non-ok responce: " +:+ toStr v))]
  | Raise e => [Out (LogLine error ("error writing: " +:+ e))]
  end.
(** [QString::split(' ')]. *)
Fixpoint split_space (s : string) : string * list string :=
  match s with
  | EmptyString => ("", [])
  | String c s =>
      let (w, ws) := split_space s in
      if bool_decide (c = " "%char) then ("", w :: ws) else (String c w, ws)
  end.
Definition split_words (s : string) : list string := let (w, ws) := split_space s in w :: ws.
(** The command, and the index of the callback ([None]: a promise is returned). *)
Definition Exec (args : list QVar) : RedisCmd * option nat :=
  let rawcmd := split_words (toStr (default VInvalid (args !! 0%nat))) in
  let long := (2 <? length args)%nat in
  let funcIdx := if long then 2%nat else 1%nat in
  let extra := if long then map toStr (as_list (default VInvalid (args !! 1%nat))) else [] in
  (cmd (rawcmd ++ extra), if bool_decide (length args = funcIdx) then None else Some funcIdx).

(** [Stream]. *)
Definition lastIdKey (c : StreamConfig) : string :=
  ((((persistent_prefix c +:+ ":") +:+ instance_id c) +:+ ":") +:+ stream_key c) +:+ ":last_id".
Definition saveLastId (c : StreamConfig) (lastId : string) : list RedisEffect :=
  [Exec_ (cmd ["SET"; lastIdKey c; lastId]) KSaved].
Definition on_saved (r : res QVar) : list RedisEffect :=
  match r with Ok _ => [] | Raise e => [Out (LogLine error ("Could not save last id: " +:+ e))] end.
Definition nextRead (c : StreamConfig) (lastId : string) : list RedisEffect :=
  [Exec_ (cmd ["XREAD"; "COUNT"; to_string (entries_per_read c); "BLOCK"; to_string (block_timeout c);
               "STREAMS"; stream_key c; lastId]) KRead].
Definition loadIdAndRead (c : StreamConfig) : list RedisEffect := [Exec_ (cmd ["GET"; lastIdKey c]) KLastId].
Definition on_last_id (c : StreamConfig) (lastId : string) (r : res QVar) : string * list RedisEffect :=
  let '(lastId, out) := match r with
                        | Ok v => (toStr v, [])
                        | Raise e => (lastId, [Out (LogLine error ("Could not get last id: " +:+ e))])
                        end in
  let '(lastId, out) := if bool_decide (lastId = "") then ("0-0", out ++ [Out (LogLine warn "empty last id!")]) else (lastId, out) in
  (lastId, out ++ Out (LogLine info ("will start from persistent id: " +:+ lastId)) :: nextRead c lastId).
Definition on_connected (c : StreamConfig) (lastId : string) (state : bool) : string * list RedisEffect :=
  if state then
    match start_from c with
    | persistent_id => (lastId, loadIdAndRead c)
    | start => ("0-0", nextRead c "0-0")
    | top => ("$", nextRead c "$")
    end
  else (lastId, []).
Fixpoint stream_entries (entries : list QVar) (lastId : string) : string * list RedisEffect :=
  match entries with
  | [] => (lastId, [])
  | e :: entries =>
      let pair := as_list e in
      let nextId := toStr (default VInvalid (pair !! 0%nat)) in
      let lastId := if bool_decide (nextId = "") then lastId else nextId in
      let values := reply_pairs (as_list (default VInvalid (pair !! 1%nat))) in
      let (lastId, out) := stream_entries entries lastId in
      (lastId, Out (SendMsg (Unflatten VInvalid values)) :: out)
  end.
Definition first_stream (resp : QVar) : list QVar :=
  as_list (default VInvalid (as_list (default VInvalid (as_list resp !! 0%nat)) !! 1%nat)).
Definition Stream_parseReply (c : StreamConfig) (lastId : string) (resp : QVar) : string * list RedisEffect :=
  if negb (isValid resp) then (lastId, [])
  else
    match resp with
    | VList _ =>
        let (lastId, out) := stream_entries (first_stream resp) lastId in
        (lastId, out ++ saveLastId c lastId)
    | _ => (lastId, [Out (LogLine error "error reading stream: non list received")])
    end.
Definition on_read (c : StreamConfig) (lastId : string) (r : res QVar) : string * list RedisEffect :=
  match r with
  | Ok resp =>
      let (lastId, out) := Stream_parseReply c lastId resp in
      (lastId, out ++ nextRead c lastId)
  | Raise e => (lastId, [Out (LogLine error ("error reading stream: " +:+ e))])
  end.
Definition Stream_OnMsg (c : StreamConfig) (msg : QVar) : list RedisEffect :=
  if negb (mode_writes (stream_mode c)) then [Out (LogLine warn "writing is disabled")]
  else
    [Exec_ (cmd (["XADD"; stream_key c; "MAXLEN"; "~"; to_string (stream_size c); "*"] ++ flat_args (Flatten [] msg))) KWritten].
Definition on_stream_written (r : res QVar) : list RedisEffect :=
  match r with Ok _ => [] | Raise e => [Out (LogLine error ("could not write stream: " +:+ e))] end.
End workers.

(** ** The invariant of a client *)
Record subs_inv (c : Client) : Prop := {
  subs_sorted : qm_sorted (liveSubs c) = true;
  subs_once : NoDup ((liveSubs c).*2 ++ deleted c);
  subs_known : Forall (fun s => (s < nextSub c)%nat) ((liveSubs c).*2 ++ deleted c)
}.
Record client_inv (c : Client) : Prop := {
  one_timer : timers c = (if reconPending c then 1 else 0)%nat;
  will_reconnect : ctx c = false -> reconPending c = true;
  ok_connected : ok c = true -> ctx c = true;
  inv_subs : subs_inv c
}.

Section client_facts.
Context {QO : QVariantOps}.
Lemma list_filter_all {A} (P : A -> Prop) `{!forall x, Decision (P x)} l : Forall P l -> filter P l = l.
Proof. induction 1 as [|x l Hx _ IH]; [done|]. by rewrite filter_cons_True, IH. Qed.
Lemma filter_split (l : list (string * nat)) sub : NoDup l.*2 -> sub ∈ l.*2 ->
  l.*2 ≡ₚ sub :: (filter (fun gs => gs.2 <> sub) l).*2.
Proof.
  induction l as [|[g s] l IH]; [intros _ ?%elem_of_nil; done|]. cbn [fmap list_fmap snd].
  intros [Hs Hnd]%NoDup_cons Hin. destruct (decide (s = sub)) as [->|Hne].
  - rewrite filter_cons_False by (cbn; tauto). constructor. rewrite list_filter_all; [reflexivity|].
    apply Forall_forall. intros [g' s'] Hx. cbn. intros ->. apply Hs. by apply (list_elem_of_fmap_2 snd) in Hx.
  - rewrite filter_cons_True by done. cbn. apply elem_of_cons in Hin as [?|Hin]; [congruence|].
    rewrite (IH Hnd Hin). apply Permutation_swap.
Qed.
Lemma qm_above_filter {V} k (f : string * V -> Prop) `{!forall x, Decision (f x)} m :
  qm_above k m = true -> qm_above k (filter f m) = true.
Proof.
  induction m as [|[j v] m IH]; [done|]. cbn [qm_above]. intros [Hj Hm]%andb_true_iff.
  rewrite filter_cons. case_decide; cbn [qm_above]; [rewrite Hj|]; auto.
Qed.
Lemma qm_sorted_filter {V} (f : string * V -> Prop) `{!forall x, Decision (f x)} m :
  qm_sorted m = true -> qm_sorted (filter f m) = true.
Proof.
  induction m as [|[j v] m IH]; [done|]. cbn [qm_sorted]. intros [Hj Hm]%andb_true_iff.
  rewrite filter_cons. case_decide; cbn [qm_sorted]; [rewrite qm_above_filter by done; cbn|]; auto.
Qed.
Lemma Forget_inv sub c : subs_inv c -> subs_inv (ForgetSubscription sub c).
Proof.
  intros [Hs Hn Hk]. unfold ForgetSubscription. case_bool_decide as Hin; [|done].
  assert ((liveSubs c).*2 ++ deleted c ≡ₚ (filter (fun gs => gs.2 <> sub) (liveSubs c)).*2 ++ sub :: deleted c) as HP.
  { rewrite <- Permutation_middle. change (sub :: ?a ++ ?b) with ((sub :: a) ++ b).
    rewrite <- filter_split; [done| |done]. by apply NoDup_app in Hn as [? _]. }
  constructor; cbn.
  - by apply qm_sorted_filter.
  - by rewrite <- HP.
  - by rewrite <- HP.
Qed.

(** What every callback keeps. *)
Lemma ReconnectLater_fields c : ctx (ReconnectLater c) = ctx c /\ ok (ReconnectLater c) = ok c /\
  reconPending (ReconnectLater c) = true /\ liveSubs (ReconnectLater c) = liveSubs c /\
  deleted (ReconnectLater c) = deleted c /\ nextSub (ReconnectLater c) = nextSub c.
Proof. unfold ReconnectLater. by destruct (reconPending c) eqn:E. Qed.
Lemma ReconnectLater_timer c : timers c = (if reconPending c then 1 else 0)%nat -> timers (ReconnectLater c) = 1%nat.
Proof. unfold ReconnectLater. intros H. destruct (reconPending c) eqn:E; cbn; lia. Qed.
Lemma ReconnectLater_noop c : reconPending c = true -> ReconnectLater c = c.
Proof. intros H. unfold ReconnectLater. by rewrite H. Qed.
Lemma subs_inv_eq c c' : liveSubs c' = liveSubs c -> deleted c' = deleted c -> nextSub c' = nextSub c ->
  subs_inv c -> subs_inv c'.
Proof. intros E1 E2 E3 []. constructor; by rewrite ?E1, ?E2, ?E3. Qed.
Lemma ReconnectLater_subs c : subs_inv c -> subs_inv (ReconnectLater c).
Proof. destruct (ReconnectLater_fields c) as (_ & _ & _ & ? & ? & ?). by apply subs_inv_eq. Qed.

(** The shapes a callback's result can take. *)
Inductive moved (c : Client) : Client -> Prop :=
| moved_same : moved c c
| moved_later : moved c (ReconnectLater c)
| moved_forget s : moved c (ForgetSubscription s c).
Lemma event_moved select e c :
  match e with
  | OnConnect false => (on_event select e c).1 = ReconnectLater (set_ctx false c)
  | OnDisconnect => (on_event select e c).1 = ReconnectLater (set_ok false (set_ctx false c))
  | OnDb (Some r) => moved c (on_event select e c).1 \/ (on_event select e c).1 = set_ok true c
  | _ => moved c (on_event select e c).1
  end.
Proof.
  destruct e as [[]| |[r|]|r|s [r|]]; cbn; try apply moved_same; try apply moved_later; try apply moved_forget; try done.
  - unfold dbCallback. cbn. destruct (parseReply r); cbn; [|left; constructor]. destruct (qeq a _); cbn; [by right|left; constructor].
  - unfold subCallback. destruct (parseReply r); cbn; [|constructor]. destruct (length _ <=? 2)%nat; cbn; constructor.
Qed.
Lemma Forget_fields s c : ctx (ForgetSubscription s c) = ctx c /\ ok (ForgetSubscription s c) = ok c /\
  reconPending (ForgetSubscription s c) = reconPending c /\ timers (ForgetSubscription s c) = timers c.
Proof. unfold ForgetSubscription. by case_bool_decide. Qed.
Lemma moved_subs c c' : moved c c' -> subs_inv c -> subs_inv c'.
Proof. intros [] H; [done|by apply ReconnectLater_subs|by apply Forget_inv]. Qed.

Lemma event_subs select e c : subs_inv c -> subs_inv (on_event select e c).1.
Proof.
  intros H. pose proof (event_moved select e c) as M.
  destruct e as [[]| |[r|]|r|s r]; try (by eapply moved_subs).
  - rewrite M. apply ReconnectLater_subs. by eapply subs_inv_eq; [..|exact H].
  - rewrite M. apply ReconnectLater_subs. by eapply subs_inv_eq; [..|exact H].
  - destruct M as [M|M]; [by eapply moved_subs|]. rewrite M. by eapply subs_inv_eq; [..|exact H].
Qed.
(** While a reconnection is pending, callbacks schedule none. *)
Lemma event_pending select e c : reconPending c = true ->
  reconPending (on_event select e c).1 = true /\ timers (on_event select e c).1 = timers c.
Proof.
  intros H. pose proof (event_moved select e c) as M.
  assert (forall c', moved c c' -> reconPending c' = true /\ timers c' = timers c) as Hm.
  { intros c' []; [done|by rewrite ReconnectLater_noop|]. by destruct (Forget_fields s c) as (_ & _ & -> & ->). }
  destruct e as [[]| |[r|]|r|s r]; try (by apply Hm).
  - rewrite M, ReconnectLater_noop; done.
  - rewrite M, ReconnectLater_noop; done.
  - destruct M as [M|M]; [by apply Hm|]. by rewrite M.
Qed.
Lemma event_freeing select e c : freeing e = true -> ok (on_event select e c).1 = true -> ok c = true /\ e <> OnDisconnect.
Proof.
  intros Hf Ho. pose proof (event_moved select e c) as M.
  assert (forall c', moved c c' -> ok c' = ok c) as Hm.
  { intros c' []; [done|by destruct (ReconnectLater_fields c) as (_ & -> & _)|by destruct (Forget_fields s c) as (_ & -> & _)]. }
  destruct e as [[]| |[r|]|[r|]|s [r|]]; try done; try (rewrite (Hm _ M) in Ho; done).
  - rewrite M in Ho. destruct (ReconnectLater_fields (set_ctx false c)) as (_ & E & _). rewrite E in Ho. done.
  - rewrite M in Ho. destruct (ReconnectLater_fields (set_ok false (set_ctx false c))) as (_ & E & _). by rewrite E in Ho.
Qed.
Lemma events_spec select es : forall c, subs_inv c -> reconPending c = true ->
  let c' := (on_events select es c).1 in
  subs_inv c' /\ reconPending c' = true /\ timers c' = timers c /\
  (forallb freeing es = true -> ok c' = true -> ok c = true /\ OnDisconnect ∉ es).
Proof.
  induction es as [|e es IH]; intros c Hs Hp; cbn [on_events].
  { split_and!; try done. intros _ ?. split; [done|]. by intros ?%elem_of_nil. }
  pose proof (event_subs select e c Hs) as Hs1. pose proof (event_pending select e c Hp) as [Hp1 Ht1].
  pose proof (event_freeing select e c) as Hf. destruct (on_event select e c) as [c1 out1]. cbn [fst] in *.
  specialize (IH c1 Hs1 Hp1). destruct (on_events select es c1) as [c2 out2]. cbn in IH |- *.
  destruct IH as (? & ? & ? & IH). split_and!; try done; [congruence|].
  intros [Hfe Hfes]%andb_true_iff Ho. destruct (IH Hfes Ho) as [Ho1 Hn]. destruct (Hf Hfe Ho1). split; [done|].
  rewrite not_elem_of_cons. split; [congruence|done].
Qed.
Lemma ReconnectLater_inv c : client_inv c -> client_inv (ReconnectLater c).
Proof.
  intros [Ht Hw Ho Hs]. destruct (ReconnectLater_fields c) as (E1 & E2 & E3 & _). constructor.
  - by rewrite E3, ReconnectLater_timer.
  - by rewrite E3.
  - by rewrite E1, E2.
  - by apply ReconnectLater_subs.
Qed.
Lemma event_inv select e c : (e = OnConnect false -> ok c = false) -> ctx c = true -> client_inv c ->
  client_inv (on_event select e c).1.
Proof.
  intros Hc Hx H. pose proof (event_moved select e c) as M. pose proof (event_subs select e c (inv_subs c H)) as Hsub.
  assert (forall c', moved c c' -> client_inv c') as Hm.
  { intros c' Mv. destruct Mv; [done|by apply ReconnectLater_inv|].
    destruct (Forget_fields s c) as (E1 & E2 & E3 & E4), H. constructor; rewrite ?E1, ?E2, ?E3, ?E4; try done. by apply Forget_inv. }
  destruct H as [Ht Hw Ho Hs].
  assert (forall b, client_inv (ReconnectLater (set_ok b (set_ctx false c))) \/ b = true) as Hr.
  { intros [|]; [by right|left]. destruct (ReconnectLater_fields (set_ok false (set_ctx false c))) as (E1 & E2 & E3 & _). constructor.
    - by rewrite E3, ReconnectLater_timer.
    - by rewrite E3.
    - by rewrite E2.
    - apply ReconnectLater_subs. by eapply subs_inv_eq; [..|exact Hs]. }
  destruct e as [[]| |[r|]|r|s r]; try (by apply Hm).
  - rewrite M. specialize (Hc eq_refl). destruct (Hr false) as [H|]; [|done].
    replace (set_ctx false c) with (set_ok false (set_ctx false c)); [done|]. unfold set_ok. cbn. by rewrite <- Hc.
  - rewrite M. by destruct (Hr false).
  - destruct M as [M|M]; [by apply Hm|]. rewrite M in *. by constructor.
Qed.
End client_facts.

(** ** Reachable clients *)
Section reachable.
Context {QO : QVariantOps}.

Lemma insert_adds g (s : nat) l d : qm_find g l = None ->
  (qm_insert g s l).*2 ++ d ≡ₚ s :: l.*2 ++ d.
Proof.
  induction l as [|[j x] l IH]; [done|]. cbn. case_bool_decide; [done|]. intros E.
  destruct (str_ltb g j); [done|]. cbn. rewrite (IH E). apply Permutation_swap.
Qed.
Lemma insert_replaces g (s old : nat) l d : qm_sorted l = true -> qm_find g l = Some old ->
  (qm_insert g s l).*2 ++ old :: d ≡ₚ s :: l.*2 ++ d.
Proof.
  induction l as [|[j x] l IH]; [done|]. cbn. intros [Ha Hs]%andb_true_iff. case_bool_decide.
  - intros [= ->]. cbn. constructor. by rewrite Permutation_middle.
  - intros E. destruct (str_ltb g j) eqn:Hlt; cbn.
    + by rewrite (qm_above_find g l) in E by (by eapply qm_above_trans).
    + rewrite (IH Hs E). apply Permutation_swap.
Qed.

Lemma subscribe_inv glob s c c' : client_inv c -> PSubscribe glob s c = Ok c' -> client_inv c'.
Proof.
  intros [Ht Hw Ho [Hs Hn Hk]]. unfold PSubscribe. destruct (ctx c) eqn:Ec; [|done]. cbn [negb]. destruct s; [|done].
  cbn [negb liveSubs]. assert (nextSub c ∉ (liveSubs c).*2 ++ deleted c) as Hfresh.
  { intros Hin. rewrite Forall_forall in Hk. specialize (Hk _ Hin). lia. }
  assert (forall l d, subs_inv (set_subs l d {| ok := ok c; reconPending := reconPending c; ctx := true; timers := timers c;
    liveSubs := liveSubs c; nextSub := S (nextSub c); deleted := deleted c |}) ->
    client_inv (set_subs l d {| ok := ok c; reconPending := reconPending c; ctx := true; timers := timers c;
    liveSubs := liveSubs c; nextSub := S (nextSub c); deleted := deleted c |})) as Hwrap.
  { intros l d Hi. constructor; cbn; try done; try congruence. }
  assert (Forall (fun s => (s < S (nextSub c))%nat) (nextSub c :: (liveSubs c).*2 ++ deleted c)) as Hk'.
  { apply Forall_cons. split; [lia|]. eapply Forall_impl; [exact Hk|]. cbn. lia. }
  assert (NoDup (nextSub c :: (liveSubs c).*2 ++ deleted c)) as Hn' by by apply NoDup_cons.
  destruct (qm_find glob (liveSubs c)) as [old|] eqn:E; intros [= <-]; apply Hwrap; constructor; cbn;
    try by apply qm_sorted_insert.
  - rewrite (insert_replaces _ _ _ _ _ Hs E). done.
  - rewrite (insert_replaces _ _ _ _ _ Hs E). done.
  - by rewrite (insert_adds _ _ _ _ E).
  - by rewrite (insert_adds _ _ _ _ E).
Qed.
Lemma doConnect_inv select during err c : subs_inv c -> timers c = O ->
  (ctx c = true -> reconPending c = true /\ forallb freeing during = true /\ (ok c = true -> OnDisconnect ∈ during)) ->
  (ctx c = false -> ok c = false) ->
  client_inv (doConnect select during err c).1.
Proof.
  intros Hs Ht Hc Hn. unfold doConnect.
  assert (exists c1 out, (if ctx c then let (c, out) := on_events select during c in (set_ctx false c, out) else (c, [])) = (c1, out)
    /\ subs_inv c1 /\ timers c1 = O /\ ok c1 = false) as (c1 & out & -> & Hs1 & Ht1 & Ho1).
  { destruct (ctx c) eqn:E; [|eauto 10]. destruct Hc as (Hp & Hf & Hd); [done|].
    pose proof (events_spec select during c Hs Hp) as H. destruct (on_events select during c) as [c1 out]. cbn in H.
    destruct H as (H1 & _ & H2 & H3). do 2 eexists. split; [done|]. split; [by eapply subs_inv_eq; [..|exact H1]|].
    cbn. split; [lia|]. destruct (ok c1) eqn:Eo; [|done]. destruct (H3 Hf eq_refl) as [Ho Hnd]. by destruct (Hnd (Hd Ho)). }
  cbn iota beta zeta. assert (client_inv (set_ctx true (set_recon false (timers c1) c1))) as H.
  { constructor; cbn; try done. by eapply subs_inv_eq; [..|exact Hs1]. }
  destruct err; [apply (ReconnectLater_inv _ H)|exact H].
Qed.
Lemma reachable_inv select c : client_reachable select c -> client_inv c.
Proof.
  induction 1 as [err|c c' _ IH Hst].
  - apply doConnect_inv; try done. constructor; try done. constructor.
  - destruct Hst as [e c Hx Hc|argv s c|glob s c c' Hsub|c|during err c Ht Hf Hd].
    + by apply event_inv.
    + unfold Execute. destruct (ctx c); [|done]. cbn. destruct argv; [done|]. destruct s; [done|]. by apply ReconnectLater_inv.
    + by eapply subscribe_inv.
    + by apply ReconnectLater_inv.
    + destruct IH as [H1 H2 H3 H4]. unfold timer_fires. assert (reconPending c = true /\ timers c = 1%nat) as [Hp Ht1].
      { destruct (reconPending c); [done|lia]. }
      apply doConnect_inv; cbn; [by eapply subs_inv_eq; [..|exact H4]|lia|auto|].
      intros E. destruct (ok c) eqn:Eo; [|done]. rewrite H3 in E; done.
Qed.
End reachable.

(** ** Reading a command back: the RESP grammar *)
(** A decimal number up to CR LF. *)
Fixpoint read_num (acc : Z) (l : list Z) : option (Z * list Z) :=
  match l with
  | 13 :: l => match l with 10 :: l => Some (acc, l) | _ => None end
  | b :: l => if ((48 <=? b) && (b <=? 57))%bool then read_num (acc * 10 + (b - 48)) l else None
  | [] => None
  end.
Definition read_bulk (l : list Z) : option (list Z * list Z) :=
  match l with
  | 36 :: l =>
      match read_num 0 l with
      | Some (n, l) =>
          let n := Z.to_nat n in
          match drop n l with
          | 13 :: 10 :: rest => if bool_decide (length (take n l) = n) then Some (take n l, rest) else None
          | _ => None
          end
      | None => None
      end
  | _ => None
  end.
Fixpoint read_bulks (n : nat) (l : list Z) : option (list (list Z) * list Z) :=
  match n with
  | O => Some ([], l)
  | S n =>
      match read_bulk l with
      | Some (a, l) =>
          match read_bulks n l with
          | Some (argv, l) => Some (a :: argv, l)
          | None => None
          end
      | None => None
      end
  end.
Definition read_command (l : list Z) : option (list (list Z) * list Z) :=
  match l with
  | 42 :: l => match read_num 0 l with Some (n, l) => read_bulks (Z.to_nat n) l | None => None end
  | _ => None
  end.
Definition printable (n : nat) : Prop := Z.of_nat n < 10 ^ 20.

Lemma read_num_cons acc b l : 48 <= b <= 57 -> read_num acc (b :: l) = read_num (acc * 10 + (b - 48)) l.
Proof.
  intros H. destruct (Z.eq_dec b 13); [lia|]. cbn [read_num].
  assert (((48 <=? b) && (b <=? 57))%bool = true) as -> by (rewrite andb_true_iff, !Z.leb_le; lia).
  destruct b as [|p|p]; try lia. do 4 (destruct p; try lia; try done).
Qed.
Lemma read_num_digits s : forall acc v rest, digits_val s acc = Some v ->
  read_num acc (bytes_of_string s ++ 13 :: 10 :: rest) = Some (v, rest).
Proof.
  induction s as [|c s IH]; intros acc v rest; [by intros [= ->]|]. cbn [digits_val bytes_of_string app].
  unfold digit_of. destruct (_ && _)%bool eqn:E; [|done]. apply andb_true_iff in E as [H1%Z.leb_le H2%Z.leb_le].
  intros Hd. rewrite read_num_cons by lia. by apply IH.
Qed.
Lemma read_num_dec n rest : printable n -> read_num 0 (dec n ++ CRLF ++ rest) = Some (Z.of_nat n, rest).
Proof.
  intros H. unfold dec, CRLF, printable in *. apply read_num_digits.
  by destruct (to_string_val (Z.of_nat n) ltac:(lia)) as (_ & ? & _).
Qed.
Lemma read_bulk_format a rest : printable (length a) ->
  read_bulk ((36 :: dec (length a)) ++ CRLF ++ a ++ CRLF ++ rest) = Some (a, rest).
Proof.
  intros H. cbn [read_bulk app]. rewrite read_num_dec by done. rewrite Nat2Z.id, drop_app_length, take_app_length.
  cbn [CRLF app]. by rewrite bool_decide_eq_true_2.
Qed.
Lemma read_bulks_format argv rest : Forall (fun a => printable (length a)) argv ->
  read_bulks (length argv) (concat (map (fun a => (36 :: dec (length a)) ++ CRLF ++ a ++ CRLF) argv) ++ rest) = Some (argv, rest).
Proof.
  induction 1 as [|a argv Ha _ IH]; [done|]. cbn [length map concat read_bulks].
  rewrite <- !app_assoc. rewrite read_bulk_format by done. by rewrite IH.
Qed.
Lemma read_command_format argv rest : printable (length argv) -> Forall (fun a => printable (length a)) argv ->
  read_command (redisFormat argv ++ rest) = Some (argv, rest).
Proof.
  intros Hn Ha. unfold redisFormat. cbn [app read_command]. rewrite <- !app_assoc, read_num_dec by done.
  rewrite Nat2Z.id. by apply read_bulks_format.
Qed.

(** ** Lemmas on the workers *)
Section worker_facts.
Context {QO : QVariantOps} {QL : QVariantLaws QO}.

(** Every leaf is a text. *)
Definition texts (flat : FlatMap) : bool :=
  forallb (fun kv => match kv.2 with VString _ => true | _ => false end) flat.
(** What [HGETALL] answers for the fields written by [HMSET], in their order. *)
Definition hash_reply (fields : list string) : list QVar := map VString fields.
Lemma reply_pairs_flat flat : texts flat = true -> reply_pairs (map VString (flat_args flat)) = flat.
Proof.
  unfold flat_args. induction flat as [|[k v] flat IH]; [done|]. cbn. destruct v; try done. cbn.
  intros H. rewrite !toStr_string. f_equal. by apply IH.
Qed.
End worker_facts.

(** ** A Redis server: what it does with the commands of a stream worker

    An entry is its id, milliseconds and sequence number, and its fields and values,
    alternating; ids grow along the log. *)
Notation Entry := ((Z * Z) * list string)%type.
Record Server := { log : list Entry; saved : gmap (list Z) (list Z) }.
Definition id_ltb (a b : Z * Z) : bool := ((a.1 <? b.1) || ((a.1 =? b.1) && (a.2 <? b.2)))%bool.
Definition id_text (i : Z * Z) : string := to_string i.1 +:+ ("-" +:+ to_string i.2).
(** The two numbers of an id in a command. *)
Fixpoint read_ms (acc : Z) (l : list Z) : option (Z * list Z) :=
  match l with
  | [] => None
  | b :: l => if b =? 45 then Some (acc, l)
              else if ((48 <=? b) && (b <=? 57))%bool then read_ms (acc * 10 + (b - 48)) l else None
  end.
Definition read_whole (l : list Z) : option Z := match read_num 0 (l ++ CRLF) with Some (n, []) => Some n | _ => None end.
Definition read_id (l : list Z) : option (Z * Z) :=
  match read_ms 0 l with Some (ms, l) => (fun n => (ms, n)) <$> read_whole l | None => None end.
(** The entries an [XREAD] from this id can answer; [tail]: how long the log was when the
    command arrived, which is what [$] stands for. *)
Definition after_id (tail : nat) (id : list Z) (l : list Entry) : option (list Entry) :=
  if bool_decide (id = bytes_of_string "$") then Some (drop tail l)
  else (fun i => List.filter (fun e => id_ltb i e.1) l) <$> read_id id.
Definition entry_reply (e : Entry) : redisReply := RArray [RString (id_text e.1); RArray (map RString e.2)].
(** The answer to [XREAD]: nil when nothing came in time. *)
Definition xread_reply (key : string) (es : list Entry) : redisReply :=
  match es with [] => RNil | _ => RArray [RArray [RString key; RArray (map entry_reply es)]] end.
Definition serve (stream : string) (tail : nat) (argv : RedisCmd) (s : Server) : redisReply * Server :=
  match argv with
  | [x; co; n; bl; b; st; key; id] =>
      if bool_decide ([x; co; bl; st; key] = cmd ["XREAD"; "COUNT"; "BLOCK"; "STREAMS"; stream]) then
        match read_whole n, read_whole b, after_id tail id (log s) with
        | Some n, Some _, Some es => (xread_reply stream (if n =? 0 then es else take (Z.to_nat n) es), s)
        | _, _, _ => (RError "ERR", s)
        end
      else (RError "ERR", s)
  | [x; k; v] => if bool_decide (x = bytes_of_string "SET") then (RStatus "OK", {| log := log s; saved := <[k := v]> (saved s) |}) else (RError "ERR", s)
  | [x; k] => if bool_decide (x = bytes_of_string "GET")
              then (match saved s !! k with Some v => RString (string_of_bytes v) | None => RNil end, s) else (RError "ERR", s)
  | _ => (RError "ERR", s)
  end.

Section stream_facts.
Context {QO : QVariantOps} {QL : QVariantLaws QO}.
(** The continuation of a command of the worker. *)
Definition answered (c : StreamConfig) (lastId : string) (k : Cont) (r : res QVar) : string * list RedisEffect :=
  match k with
  | KLastId => on_last_id c lastId r
  | KRead => on_read c lastId r
  | KSaved => (lastId, on_saved r)
  | _ => (lastId, [])
  end.
(** The server performs the commands the worker has issued, in order, and each reply goes
    to the command's continuation; what the worker asks for on the way comes back. *)
Fixpoint perform (c : StreamConfig) (tail : nat) (todo : list RedisEffect) (lastId : string) (s : Server) : string * Server * list RedisEffect :=
  match todo with
  | [] => (lastId, s, [])
  | Exec_ argv k :: todo =>
      let '(reply, s) := serve (stream_key c) tail argv s in
      let '(lastId, out) := answered c lastId k (parseReply reply) in
      let '(lastId, s, out') := perform c tail todo lastId s in
      (lastId, s, out ++ out')
  | _ :: todo => perform c tail todo lastId s
  end.
(** A session: in each round entries arrive before the commands reach the server and while
    the read waits; the commands of a round are those the one before asked for. *)
Fixpoint session (c : StreamConfig) (rs : list (list Entry * list Entry)) (todo : list RedisEffect) (lastId : string) (s : Server)
    : string * Server * list RedisEffect * list RedisEffect :=
  match rs with
  | [] => (lastId, s, todo, [])
  | (between, during) :: rs =>
      let s := {| log := (log s ++ between) ++ during; saved := saved s |} in
      let '(lastId, s, out) := perform c (length (log s) - length during) todo lastId s in
      let '(lastId, s, todo, out') := session c rs out lastId s in
      (lastId, s, todo, out ++ out')
  end.
Definition arrivals (rs : list (list Entry * list Entry)) : list Entry := concat (map (fun r => r.1 ++ r.2) rs).
Definition message_of (e : Entry) : QVar := Unflatten VInvalid (reply_pairs (map (fun s => VString (c_str s)) e.2)).
Definition sent (out : list RedisEffect) : list QVar :=
  omap (fun e => match e with Out (SendMsg v) => Some v | _ => None end) out.
(** The id of the last entry, [before] for none; of the [n]-th of a log, counting from 1. *)
Definition last_id (before : Z * Z) (es : list Entry) : Z * Z := match last es with Some e => e.1 | None => before end.
Definition id_at (l : list Entry) (n : nat) : Z * Z := last_id (0, 0) (take n l).
(** How far a reader of [count] entries a time gets, that had read [n]. *)
Fixpoint reached (count n len : nat) (rs : list (list Entry * list Entry)) : nat :=
  match rs with
  | [] => n
  | r :: rs => let len := (len + length (r.1 ++ r.2))%nat in reached count (Nat.min (n + count) len) len rs
  end.
Definition id_ok (i : Z * Z) : Prop := 0 <= i.1 < 10 ^ 20 /\ 0 <= i.2 < 10 ^ 20.
(** Ids in range that grow, from [before]. *)
Fixpoint grows (before : Z * Z) (l : list Entry) : Prop :=
  match l with [] => True | e :: l => id_ok e.1 /\ id_ltb before e.1 = true /\ grows e.1 l end.

(** *** The texts of ids *)
Lemma bytes_of_app a b : bytes_of_string (a +:+ b) = bytes_of_string a ++ bytes_of_string b.
Proof. induction a as [|x a IH]; [done|]. change (String x a +:+ b) with (String x (a +:+ b)). cbn. by rewrite IH. Qed.
Lemma read_ms_digits s : forall acc v rest, digits_val s acc = Some v ->
  read_ms acc (bytes_of_string s ++ 45 :: rest) = Some (v, rest).
Proof.
  induction s as [|x s IH]; intros acc v rest; [by intros [= ->]|]. cbn [digits_val bytes_of_string app].
  unfold digit_of. destruct (_ && _)%bool eqn:E; [|done]. pose proof E as [H1%Z.leb_le H2%Z.leb_le]%andb_true_iff.
  intros Hd. cbn [read_ms]. rewrite E, (proj2 (Z.eqb_neq _ _)) by lia. by apply IH.
Qed.
Lemma read_whole_text n : 0 <= n < 10 ^ 20 -> read_whole (bytes_of_string (to_string n)) = Some n.
Proof.
  intros H. unfold read_whole, CRLF. destruct (to_string_val n H) as (_ & Hv & _).
  by rewrite (read_num_digits _ _ _ [] Hv).
Qed.
Lemma read_id_text i : id_ok i -> read_id (bytes_of_string (id_text i)) = Some i.
Proof.
  intros [H1 H2]. unfold read_id, id_text. rewrite !bytes_of_app. destruct (to_string_val i.1 H1) as (_ & Hv & _).
  cbn [bytes_of_string app]. rewrite (read_ms_digits _ _ _ _ Hv), read_whole_text by done. by destruct i.
Qed.
Lemma c_str_digits s t : forall r v, digits_val s r = Some v -> c_str (s +:+ t) = s +:+ c_str t.
Proof.
  induction s as [|x s IH]; intros r v; [done|]. change (String x s +:+ t) with (String x (s +:+ t)). cbn [digits_val c_str].
  unfold digit_of. destruct (_ && _)%bool eqn:E; [|done]. intros Hd. case_bool_decide as Hx; [by subst x|].
  by rewrite (IH _ _ Hd).
Qed.
Lemma c_str_id i : id_ok i -> c_str (id_text i) = id_text i.
Proof.
  intros [H1 H2]. unfold id_text. destruct (to_string_val i.1 H1) as (_ & Hv & _). destruct (to_string_val i.2 H2) as (_ & Hw & _).
  rewrite (c_str_digits _ _ _ _ Hv). f_equal. change ("-" +:+ to_string i.2) with (String "-" (to_string i.2)). cbn [c_str].
  rewrite bool_decide_eq_false_2 by done. f_equal.
  pose proof (c_str_digits _ "" _ _ Hw) as H. cbn [c_str] in H. by rewrite !str_app_nil_r in H.
Qed.
Lemma id_text_dollar i : id_ok i -> bytes_of_string (id_text i) <> bytes_of_string "$".
Proof. intros H E. pose proof (read_id_text i H) as R. rewrite E in R. discriminate. Qed.
Lemma id_text_ne i : id_ok i -> id_text i <> "".
Proof. intros H E. pose proof (read_id_text i H) as R. rewrite E in R. discriminate. Qed.

(** *** Growing logs *)
Lemma id_ltb_trans a b d : id_ltb a b = true -> id_ltb b d = true -> id_ltb a d = true.
Proof. unfold id_ltb. rewrite !orb_true_iff, !andb_true_iff, !Z.ltb_lt, !Z.eqb_eq. lia. Qed.
Lemma id_ltb_irrefl a : id_ltb a a = false.
Proof. unfold id_ltb. by rewrite !Z.ltb_irrefl, andb_false_r. Qed.
Lemma grows_all a b l : id_ltb a b = true \/ a = b -> grows b l -> List.filter (fun e => id_ltb a e.1) l = l.
Proof.
  revert b. induction l as [|e l IH]; intros b Hab; [done|]. cbn [grows List.filter]. intros (_ & Hbe & Hl).
  assert (id_ltb a e.1 = true) as E by (destruct Hab as [Hab| ->]; [by eapply id_ltb_trans|done]).
  rewrite E. f_equal. apply (IH e.1); [by left|done].
Qed.
Lemma grows_app b l l' : grows b (l ++ l') -> grows b l /\ grows (last_id b l) l'.
Proof.
  revert b. induction l as [|e l IH]; intros b; [done|]. cbn [app grows]. intros (H1 & H2 & H3).
  apply IH in H3 as [H3 H4]. split; [done|]. unfold last_id in *. rewrite last_cons. by destruct (last l).
Qed.
Lemma grows_last b l : grows b l -> id_ltb b (last_id b l) = true \/ l = [].
Proof.
  revert b. induction l as [|e l IH]; intros b; [by right|]. cbn [grows]. intros (_ & H2 & H3). left.
  unfold last_id in *. rewrite last_cons. destruct (IH _ H3) as [H| ->]; [|done].
  destruct (last l); [by eapply id_ltb_trans|done].
Qed.
Lemma filter_below b l : grows b l -> List.filter (fun e => id_ltb (last_id b l) e.1) l = [].
Proof.
  revert b. induction l as [|e l IH]; intros b; [done|]. cbn [grows List.filter]. intros (_ & H2 & H3).
  assert (last_id b (e :: l) = last_id e.1 l) as -> by (unfold last_id; rewrite last_cons; by destruct (last l)).
  rewrite (IH _ H3). destruct (id_ltb (last_id e.1 l) e.1) eqn:E; [|done].
  destruct (grows_last _ _ H3) as [H| ->].
  - pose proof (id_ltb_trans _ _ _ H E) as C. by rewrite id_ltb_irrefl in C.
  - cbn in E. by rewrite id_ltb_irrefl in E.
Qed.
Lemma after_nth l n : grows (0, 0) l -> List.filter (fun e => id_ltb (id_at l n) e.1) l = drop n l.
Proof.
  intros H. unfold id_at. rewrite <- (take_drop n l) in H. apply grows_app in H as [H1 H2].
  transitivity (List.filter (fun e => id_ltb (last_id (0, 0) (take n l)) e.1) (take n l ++ drop n l)); [by rewrite take_drop|].
  rewrite List.filter_app, (filter_below _ _ H1). cbn [app].
  by apply (grows_all _ (last_id (0, 0) (take n l))); [right|].
Qed.
Lemma last_id_app before a b : last_id (last_id before a) b = last_id before (a ++ b).
Proof. unfold last_id. rewrite last_app. by destruct (last b). Qed.
Lemma grows_ids b l : grows b l -> Forall (fun e => id_ok e.1) l.
Proof. revert b. induction l as [|e l IH]; intros b; [by constructor|]. cbn. intros (H & _ & Hl). constructor; [done|by eapply IH]. Qed.
Lemma last_id_ok b l : id_ok b -> Forall (fun e => id_ok e.1) l -> id_ok (last_id b l).
Proof. intros Hb H. unfold last_id. destruct (last l) as [e|] eqn:E; [|done]. apply last_Some_elem_of in E. rewrite Forall_forall in H. by apply H. Qed.
Lemma zero_ok : id_ok (0, 0).
Proof. unfold id_ok. cbn. lia. Qed.
Lemma id_at_app l more n : (n <= length l)%nat -> id_at (l ++ more) n = id_at l n.
Proof. intros H. unfold id_at. by rewrite take_app_le by done. Qed.
Lemma id_at_more l n m : last_id (id_at l n) (take m (drop n l)) = id_at l (Nat.min (n + m) (length l)).
Proof.
  unfold id_at. rewrite last_id_app, take_take_drop. destruct (decide (n + m <= length l)%nat).
  - by rewrite Nat.min_l by lia.
  - by rewrite Nat.min_r, !take_ge by lia.
Qed.

(** *** One read *)
Definition entry_var (e : Entry) : QVar := VList [VString (id_text e.1); VList (map (fun s => VString (c_str s)) e.2)].
Lemma res_map_strings l : res_map parseReply (map RString l) = Ok (map (fun s => VString (c_str s)) l).
Proof. induction l as [|x l IH]; [done|]. cbn. by rewrite IH. Qed.
Lemma res_map_entries es : Forall (fun e => id_ok e.1) es -> res_map parseReply (map entry_reply es) = Ok (map entry_var es).
Proof.
  induction 1 as [|e es He _ IH]; [done|]. cbn [map res_map]. rewrite IH.
  unfold entry_reply. cbn [parseReply res_map]. rewrite res_map_strings. cbn. unfold entry_var. by rewrite c_str_id.
Qed.
Lemma stream_entries_replies es : forall before, Forall (fun e => id_ok e.1) es ->
  stream_entries (map entry_var es) (id_text before) = (id_text (last_id before es), map (fun e => Out (SendMsg (message_of e))) es).
Proof.
  induction es as [|e es IH]; intros before H; [done|]. apply Forall_cons in H as [He Hes]. cbn [map stream_entries entry_var as_list].
  cbn [lookup list_lookup default from_option id]. rewrite toStr_string. rewrite bool_decide_eq_false_2 by by apply id_text_ne.
  rewrite IH by done. unfold last_id, message_of in *. rewrite last_cons. by destruct (last es).
Qed.
Lemma sent_app a b : sent (a ++ b) = sent a ++ sent b.
Proof. apply omap_app. Qed.
Lemma sent_messages es : sent (map (fun e => Out (SendMsg (message_of e))) es) = map message_of es.
Proof. induction es as [|e es IH]; [done|]. cbn. by f_equal. Qed.
(** What precedes the next read among the commands asked for. *)
Definition before_read (c : StreamConfig) (e : RedisEffect) : Prop :=
  match e with Exec_ argv k => k = KSaved /\ exists v, argv = cmd ["SET"; lastIdKey c; v] | _ => True end.
Lemma on_read_reply c before es : Forall (fun e => id_ok e.1) es ->
  exists pre, on_read c (id_text before) (parseReply (xread_reply (stream_key c) es)) =
    (id_text (last_id before es), pre ++ nextRead c (id_text (last_id before es))) /\
    sent pre = map message_of es /\ Forall (before_read c) pre.
Proof.
  intros H. destruct es as [|e es]; [by exists []|].
  unfold xread_reply. cbn [parseReply res_map]. rewrite res_map_entries by done.
  cbn [res_bind on_read Stream_parseReply isValid negb]. unfold first_stream. cbn [as_list].
  change (as_list (default VInvalid _)) with (map entry_var (e :: es)). rewrite stream_entries_replies by done.
  eexists. split; [done|]. split.
  - rewrite sent_app, sent_messages. cbn. by rewrite app_nil_r.
  - apply Forall_app. split; [by apply Forall_map, Forall_true|]. constructor; [cbn; eauto|constructor].
Qed.
Lemma serve_read c tail id es s : 0 < entries_per_read c < 10 ^ 20 -> 0 <= block_timeout c < 10 ^ 20 ->
  after_id tail (bytes_of_string id) (log s) = Some es ->
  serve (stream_key c) tail (cmd ["XREAD"; "COUNT"; to_string (entries_per_read c); "BLOCK"; to_string (block_timeout c); "STREAMS"; stream_key c; id]) s
  = (xread_reply (stream_key c) (take (Z.to_nat (entries_per_read c)) es), s).
Proof.
  intros Hn Hb He. unfold cmd. cbn [map serve]. rewrite bool_decide_eq_true_2 by done.
  rewrite !read_whole_text by lia. rewrite He, (proj2 (Z.eqb_neq _ _)) by lia. done.
Qed.
Lemma perform_before c tail pre t w s : Forall (before_read c) pre ->
  exists s', log s' = log s /\ perform c tail (pre ++ t) w s = perform c tail t w s'.
Proof.
  intros H. revert s. induction H as [|e pre He _ IH]; intros s; [by exists s|].
  destruct e as [argv k|k|g|o|]; cbn [app perform]; try apply IH. destruct He as (-> & v & ->).
  change (serve (stream_key c) tail (cmd ["SET"; lastIdKey c; v]) s) with
    (RStatus "OK", {| log := log s; saved := <[bytes_of_string (lastIdKey c) := bytes_of_string v]> (saved s) |}).
  cbn [answered parseReply on_saved].
  destruct (IH {| log := log s; saved := <[bytes_of_string (lastIdKey c) := bytes_of_string v]> (saved s) |}) as (s' & Hl & ->).
  exists s'. split; [done|]. by destruct (perform c tail t w s') as [[? ?] ?].
Qed.
Lemma after_text tail l n : grows (0, 0) l -> (n <= length l)%nat ->
  after_id tail (bytes_of_string (id_text (id_at l n))) l = Some (drop n l).
Proof.
  intros H Hn. assert (id_ok (id_at l n)) as Hi.
  { apply last_id_ok; [apply zero_ok|]. by eapply Forall_take, grows_ids. }
  unfold after_id. rewrite bool_decide_eq_false_2 by by apply id_text_dollar. rewrite read_id_text by done. cbn.
  by rewrite after_nth.
Qed.
(** A round of a worker that has read [n] entries. *)
Lemma perform_read c tail pre n s : 0 < entries_per_read c < 10 ^ 20 -> 0 <= block_timeout c < 10 ^ 20 ->
  Forall (before_read c) pre -> grows (0, 0) (log s) -> (n <= length (log s))%nat ->
  let m := Nat.min (n + Z.to_nat (entries_per_read c)) (length (log s)) in
  exists pre' s', log s' = log s /\
    perform c tail (pre ++ nextRead c (id_text (id_at (log s) n))) (id_text (id_at (log s) n)) s
    = (id_text (id_at (log s) m), s', pre' ++ nextRead c (id_text (id_at (log s) m))) /\
    Forall (before_read c) pre' /\ sent pre' = map message_of (take (m - n) (drop n (log s))).
Proof.
  intros Hn Hb Hp Hg Hle m. destruct (perform_before c tail pre (nextRead c (id_text (id_at (log s) n))) (id_text (id_at (log s) n)) s Hp) as (s' & Hl & ->).
  assert (Forall (fun e => id_ok e.1) (take (Z.to_nat (entries_per_read c)) (drop n (log s)))) as Hids.
  { by eapply Forall_take, Forall_drop, grows_ids. }
  destruct (on_read_reply c (id_at (log s) n) _ Hids) as (pre' & E & Hs & Hpre').
  exists pre', s'. split; [done|]. unfold nextRead at 1. cbn [perform].
  rewrite (serve_read c tail _ (drop n (log s)) s') by (done || (rewrite Hl; by apply after_text)).
  cbn [answered]. rewrite E, id_at_more, app_nil_r. fold m. split; [done|]. split; [done|].
  rewrite Hs. f_equal. subst m. destruct (decide (n + Z.to_nat (entries_per_read c) <= length (log s))%nat).
  - rewrite Nat.min_l by lia. f_equal. lia.
  - rewrite Nat.min_r by lia. rewrite !take_ge by (rewrite length_drop; lia). done.
Qed.
Lemma reached_ge count rs : forall n len, (n <= len)%nat -> (n <= reached count n len rs)%nat.
Proof.
  induction rs as [|r rs IH]; intros n len Hn; cbn [reached]; [done|].
  etransitivity; [|apply IH; lia]. lia.
Qed.
Lemma session_spec c rs : 0 < entries_per_read c < 10 ^ 20 -> 0 <= block_timeout c < 10 ^ 20 ->
  forall pre n s, Forall (before_read c) pre -> grows (0, 0) (log s ++ arrivals rs) -> (n <= length (log s))%nat ->
  let all := log s ++ arrivals rs in
  let m := reached (Z.to_nat (entries_per_read c)) n (length (log s)) rs in
  let '(lastId, s', _, out) := session c rs (pre ++ nextRead c (id_text (id_at (log s) n))) (id_text (id_at (log s) n)) s in
  lastId = id_text (id_at all m) /\ log s' = all /\ sent out = map message_of (take (m - n) (drop n all)) /\ (m <= length all)%nat.
Proof.
  intros Hc Hb. induction rs as [|[between during] rs IH]; intros pre n s Hp Hg Hn; cbn [session reached].
  { cbv zeta. cbn [arrivals map concat] in *. rewrite app_nil_r. rewrite Nat.sub_diag. done. }
  set (s1 := {| log := (log s ++ between) ++ during; saved := saved s |}).
  assert (log s ++ arrivals ((between, during) :: rs) = log s1 ++ arrivals rs) as Eall.
  { unfold arrivals. cbn [map concat log s1 fst snd]. by rewrite <- !app_assoc. }
  rewrite Eall in Hg |- *.
  assert (id_at (log s) n = id_at (log s1) n) as ->.
  { cbn [log s1]. by rewrite <- app_assoc, id_at_app. }
  assert (length (log s1) = length (log s) + length (between ++ during))%nat as El.
  { cbn [log s1]. rewrite !length_app. lia. }
  destruct (perform_read c (length (log s1) - length during) pre n s1 Hc Hb Hp (proj1 (grows_app _ _ _ Hg)) ltac:(lia)) as (pre' & s' & Hl & -> & Hp' & Hs).
  set (m := Nat.min (n + Z.to_nat (entries_per_read c)) (length (log s1))) in *.
  specialize (IH pre' m s' Hp'). rewrite Hl in IH. specialize (IH Hg ltac:(lia)). cbv zeta in IH |- *.
  cbn [fst snd]. rewrite <- El. fold m.
  destruct (session c rs _ _ s') as [[[w s''] t] out']. destruct IH as (-> & -> & Hs' & Hle).
  split; [done|]. split; [done|]. split; [|done].
  rewrite sent_app, sent_app, Hs, Hs'. cbn [sent omap list_omap nextRead]. rewrite app_nil_r, <- map_app. f_equal.
  pose proof (reached_ge (Z.to_nat (entries_per_read c)) rs m (length (log s1)) ltac:(lia)) as Hr.
  set (k := reached _ m _ rs) in *.
  assert (take (m - n) (drop n (log s1)) = take (m - n) (drop n (log s1 ++ arrivals rs))) as ->.
  { rewrite drop_app_le, take_app_le; [done|rewrite length_drop; lia|lia]. }
  replace (drop m (log s1 ++ arrivals rs)) with (drop (m - n) (drop n (log s1 ++ arrivals rs))) by (rewrite drop_drop; f_equal; lia).
  rewrite take_take_drop. f_equal. lia.
Qed.
(** The saved id, or the start, is where a persistent worker begins. *)
Lemma loaded_id c lastId0 n s : toStr VInvalid = "" -> grows (0, 0) (log s) -> (n <= length (log s))%nat ->
  saved s !! bytes_of_string (lastIdKey c) = Some (bytes_of_string (id_text (id_at (log s) n))) \/
  saved s !! bytes_of_string (lastIdKey c) = None /\ n = O ->
  exists pre, perform c 0 (loadIdAndRead c) lastId0 s =
    (id_text (id_at (log s) n), s, pre ++ nextRead c (id_text (id_at (log s) n))) /\ Forall (before_read c) pre.
Proof.
  intros Hnull Hg Hn Hs. unfold loadIdAndRead. cbn [perform].
  change (serve (stream_key c) 0 (cmd ["GET"; lastIdKey c]) s) with
    (match saved s !! bytes_of_string (lastIdKey c) with Some v => RString (string_of_bytes v) | None => RNil end, s).
  assert (id_ok (id_at (log s) n)) as Hi.
  { apply last_id_ok; [apply zero_ok|]. by eapply Forall_take, grows_ids. }
  destruct Hs as [-> | [-> ->]]; cbn [answered parseReply on_last_id].
  - rewrite string_of_bytes_of_string, c_str_id, toStr_string by done. rewrite bool_decide_eq_false_2 by by apply id_text_ne.
    cbn. eexists [_]. split; [done|]. by repeat constructor.
  - rewrite Hnull. cbn. eexists [_; _]. split; [done|]. by repeat constructor.
Qed.
End stream_facts.

(** * Properties *)

(** C5: in every state a client can reach, whatever callbacks hiredis makes and
    in whatever order, at most one reconnection is scheduled (the guard counts
    exactly the pending timers), a client without a context always has one
    scheduled, a client that says it is connected holds a context, and every
    subscriber is live or deleted, never both and never deleted twice. *)
Theorem redis_client_invariant (QO : QVariantOps) select c : client_reachable select c -> client_inv c.
Proof. apply reachable_inv. Qed.
Definition select_0 : list Z := bytes_of_string "SELECT 0".
Lemma redis_client_invariant_witness : client_inv
  (timer_fires (QO := simple_ops) select_0 [OnDisconnect] false
    (on_event (QO := simple_ops) select_0 OnDisconnect
      (on_event (QO := simple_ops) select_0 (OnDb (Some (RStatus "OK"))) (doConnect (QO := simple_ops) select_0 [] false client_init).1).1).1).1.
Proof.
  apply (redis_client_invariant simple_ops select_0).
  eapply reach_step; [|apply step_timer; [vm_compute; lia|reflexivity|discriminate]].
  eapply reach_step; [|apply (step_event select_0 OnDisconnect); [reflexivity|discriminate]].
  eapply reach_step; [|apply (step_event select_0 (OnDb (Some (RStatus "OK")))); [reflexivity|discriminate]].
  apply (reach_start select_0 false).
Defined.

(** The bytes of a command read back: a reader of the protocol gets from the
    output of [redisFormat], followed by anything, exactly the arguments - empty
    ones, line breaks and NUL bytes included - and the rest; so a value can
    never be taken for a second argument or a second command. *)
Theorem redisFormat_roundtrip argv rest :
  printable (length argv) -> Forall (fun a => printable (length a)) argv ->
  read_command (redisFormat argv ++ rest) = Some (argv, rest).
Proof. apply read_command_format. Qed.
Lemma redisFormat_roundtrip_witness :
  read_command (redisFormat [bytes_of_string "SET"; [13; 10; 42; 0]; []] ++ [1]) = Some ([bytes_of_string "SET"; [13; 10; 42; 0]; []], [1]).
Proof. apply (redisFormat_roundtrip [bytes_of_string "SET"; [13; 10; 42; 0]; []] [1]); repeat constructor. Defined.

(** What a cache writes is what a cache reads: for a message whose leaves are
    texts and that [Flatten] and [Unflatten] keep, the worker sends one [HMSET]
    of the flattened message, and a worker polling a hash with those fields
    merges exactly that message into its state, emitting the diff when the merge
    counts a change and nothing otherwise. *)
Theorem cache_mirrors_writes (QO : QVariantOps) (QL : QVariantLaws QO) c key msg state :
  mode_writes (cache_mode c) = true -> hash_key c = Some key ->
  is_container msg = true -> tail_nested msg = true -> rebuildable msg = true -> lists_small msg = true ->
  texts (Flatten [] msg) = true ->
  let fields := flat_args (Flatten [] msg) in
  Cache_OnMsg c msg = [Exec_ (cmd ("HMSET" :: key :: fields)) KWritten] /\
  on_polled c state (Ok (VList (hash_reply fields))) =
    (let '(state', diff, n) := MergePatch state msg (Some VInvalid) in
     (state', if (0 <? n)%nat then [Out (SendMsg (default VInvalid diff))] else [])).
Proof.
  intros Hm Hk Hc Ht Hr Hs Hx fields. unfold Cache_OnMsg. rewrite Hm, Hk. split; [done|].
  unfold on_polled, hash_reply, fields. by rewrite reply_pairs_flat, unflatten_flatten.
Qed.
Definition a_cache : CacheConfig := {| hash_key := Some "h"; enable_keyevents := true; cache_mode := Mode_rw; db := 0 |}.
Lemma cache_mirrors_writes_witness :
  (on_polled (QO := simple_ops) a_cache VInvalid (Ok (VList (hash_reply ["a"; "1"; "b:c"; "2"]))))
  = (VMap [("a", VString "1"); ("b", VMap [("c", VString "2")])],
     [Out (SendMsg (VMap [("a", VString "1"); ("b", VMap [("c", VString "2")])]))]).
Proof.
  refine (eq_trans (proj2 (cache_mirrors_writes simple_ops simple_laws a_cache "h"
    (VMap [("a", VString "1"); ("b", VMap [("c", VString "2")])]) VInvalid _ _ _ _ _ _ _)) _); reflexivity.
Defined.

(** C30: a stream is read once, in order.  The worker's commands go, as the argument
    lists it issues, to a server that reads them - the count, the key and the id of
    [XREAD], whatever id that is - and answers with what follows that id in its log;
    the worker's next commands come from its handling of the answer.  From a server
    whose log grows, with ids in order, and in every session of rounds with any
    arrivals before and during each read: a worker that starts from the start, or from
    the id the server has saved, emits one message per entry, in the log's order, none
    twice and none skipped, from the first entry (from the one after the saved id) to
    the last one reached, [count] further or to the end of the log at each round, and
    then holds the id of that one.  (From [top], see [top_skips].) *)
Theorem stream_exactly_once (QO : QVariantOps) (QL : QVariantLaws QO) c rs lastId0 n s :
  0 < entries_per_read c < 10 ^ 20 -> 0 <= block_timeout c < 10 ^ 20 -> toStr VInvalid = "" ->
  grows (0, 0) (log s ++ arrivals rs) -> (n <= length (log s))%nat ->
  match start_from c with
  | start => n = O
  | persistent_id =>
      saved s !! bytes_of_string (lastIdKey c) = Some (bytes_of_string (id_text (id_at (log s) n))) \/
      saved s !! bytes_of_string (lastIdKey c) = None /\ n = O
  | top => False
  end ->
  let '(lastId, todo) := on_connected c lastId0 true in
  let '(lastId, s1, todo) := match start_from c with persistent_id => perform c 0 todo lastId s | _ => (lastId, s, todo) end in
  let '(lastId, s', _, out) := session c rs todo lastId s1 in
  let all := log s ++ arrivals rs in
  let m := reached (Z.to_nat (entries_per_read c)) n (length (log s)) rs in
  log s' = all /\ (m <= length all)%nat /\ sent out = map message_of (take (m - n) (drop n all)) /\ lastId = id_text (id_at all m).
Proof.
  intros Hc Hb Hnull Hg Hn Hs. unfold on_connected. destruct (start_from c); [|done|].
  - destruct (loaded_id c lastId0 n s Hnull (proj1 (grows_app _ _ _ Hg)) Hn Hs) as (pre & -> & Hp).
    pose proof (session_spec c rs Hc Hb pre n s Hp Hg Hn) as H. cbv zeta in H |- *.
    destruct (session c rs _ _ s) as [[[w s'] t] out]. tauto.
  - subst n. pose proof (session_spec c rs Hc Hb [] O s (Forall_nil_2 _) Hg Hn) as H. cbv zeta in H |- *.
    change (id_text (id_at (log s) 0)) with "0-0" in H. cbn [app] in H.
    destruct (session c rs _ _ s) as [[[w s'] t] out]. tauto.
Qed.
Definition a_log : list Entry := [((1, 0), ["a"; "x"]); ((2, 0), ["a"; "y"]); ((2, 1), ["b"; "z"])].
Definition a_stream (from : StreamStart) : StreamConfig :=
  {| stream_key := "s"; start_from := from; stream_size := 1000; block_timeout := 30000; entries_per_read := 2;
     instance_id := "_"; persistent_prefix := "__radapter"; stream_mode := Mode_rw |}.
Definition a_server : Server :=
  {| log := take 2 a_log; saved := {[ bytes_of_string "__radapter:_:s:last_id" := bytes_of_string "1-0" ]} |}.
Definition a_session : list (list Entry * list Entry) := [([], []); (drop 2 a_log, []); ([], [((10, 5), ["c"; "w"])])].
Lemma stream_exactly_once_witness :
  let '(lastId, todo) := on_connected (a_stream persistent_id) "" true in
  let '(lastId, s1, todo) := perform (QO := simple_ops) (a_stream persistent_id) 0 todo lastId a_server in
  let '(lastId, s', _, out) := session (QO := simple_ops) (a_stream persistent_id) a_session todo lastId s1 in
  sent out = [VMap [("a", VString "y")]; VMap [("b", VString "z")]; VMap [("c", VString "w")]] /\ lastId = "10-5".
Proof.
  refine (_ (stream_exactly_once simple_ops simple_laws (a_stream persistent_id) a_session "" 1 a_server _ _ _ _ _ _)).
  - intros (_ & _ & H1 & H2). split; [exact H1|exact H2].
  - vm_compute. split; reflexivity.
  - vm_compute. split; [discriminate|reflexivity].
  - reflexivity.
  - vm_compute. repeat split; discriminate.
  - vm_compute. lia.
  - left. reflexivity.
Defined.
(** From [top], a read that times out is asked for again from [$], the end of the log at
    that moment: what arrived between the two reads is never emitted. *)
Theorem top_skips :
  let '(lastId, todo) := on_connected (a_stream top) "" true in
  let '(lastId, s', _, out) := session (QO := simple_ops) (a_stream top) [([], []); (drop 2 a_log, []); ([], [((10, 5), ["c"; "w"])])] todo lastId a_server in
  sent out = [VMap [("c", VString "w")]] /\ log s' = a_log ++ [((10, 5), ["c"; "w"])].
Proof. vm_compute. split; reflexivity. Qed.

(** Subscribing to a hash overwrites the server's notification settings: the
    reply of [CONFIG GET] is a list, whose [toString] is empty, so the flags the
    server has are never seen and the worker sets exactly [Eh], dropping every
    other flag - also when both were already on. *)
Theorem notification_flags_overwritten (QO : QVariantOps) c flags :
  (forall l, toStr (VList l) = "") -> enable_keyevents c = true ->
  on_modes c (parseReply (RArray [RString "notify-keyspace-events"; RString flags]))
  = [Exec_ (cmd ["CONFIG"; "SET"; "notify-keyspace-events"; "Eh"]) KEnabled].
Proof. intros Ht He. cbn. rewrite He, Ht. done. Qed.
Lemma notification_flags_overwritten_witness :
  on_modes (QO := simple_ops) a_cache (parseReply (RArray [RString "notify-keyspace-events"; RString "AKE"]))
  = [Exec_ (cmd ["CONFIG"; "SET"; "notify-keyspace-events"; "Eh"]) KEnabled].
Proof. apply (notification_flags_overwritten simple_ops a_cache "AKE"); reflexivity. Defined.

(** [Exec(cmd, {args})] without a callback, documented to return a promise, drops
    the arguments and takes their list for the callback. *)
Theorem Exec_arguments_dropped (QO : QVariantOps) command l :
  Exec [VString command; VList l] = (cmd (split_words (toStr (VString command)) ++ []), Some 1%nat).
Proof. reflexivity. Qed.

(** The size test of a subscription reply admits a list of three elements, and
    the code reads a fourth. *)
Theorem short_pmessage_reads_past_end (QO : QVariantOps) (QL : QVariantLaws QO) sub a b c :
  (subCallback sub (Some (RArray [RString "pmessage"; RString a; RString b])) c).2 = [Undefined ub_index].
Proof. unfold subCallback. cbn. rewrite !toStr_string. done. Qed.
