(* ===== verification/Fibers.v ===== *)
(** * Fibers ([src/src/fibers.cpp], [include/radapter/fibers.hpp])

    The coroutines behind [async] and [await].  A [FiberPool] runs closures on
    reusable fibers; a closure may [Await] a future, which suspends its fiber
    until the event loop delivers the result.

    The code a closure runs is a parameter: [run c e] is the stretch from the
    state [c], entered with the exception [e] thrown at the point where it had
    stopped (none at the start and after an await that succeeds), up to the next
    [Await], the next call of [FiberPool::Run] or its end.  Futures, fibers and
    started closures are numbers. *)
From S2P Require Import Prelude.
Set Warnings "-register-all".

Inductive exn := ForcedShutdown | Err (what : string).
#[export] Instance exn_eq : EqDecision exn. Proof. solve_decision. Defined.

Inductive Slice {C : Type} :=
| Done (e : option exn)                (* returned, or threw [e] *)
| Waiting (s : nat) (c : C)            (* Await of the future [s] *)
| Calls (inner c : C).                 (* FiberPool::Run of [inner] *)
Arguments Slice : clear implicits.
Inductive Stopped {C : Type} :=
| Finished (e : option exn)
| Suspended (s : nat) (frames : list C).
Arguments Stopped : clear implicits.

Record Fib {C : Type} := {
  busy : bool;
  unwind : bool;                       (* [unwind] holds an exception *)
  exc : option exn;
  has_pool : bool;                     (* [pool] is not null *)
  thread : option nat;                 (* the Lua thread, once made *)
  frames : list C;                     (* where the coroutine is suspended, innermost first *)
  instance : nat                       (* the closure it runs: not in the source *)
}.
Arguments Fib : clear implicits.
Record Pool {C A : Type} := {
  fibers : gmap nat (Fib C);
  parked : list nat;                   (* in [push_back] order *)
  flying : list nat;
  pooledFibers : nat;
  pending : list (nat * nat);          (* futures and the fibers to wake, in subscription order *)
  settled : gmap nat (option exn);     (* results of settled futures *)
  posted : list (nat * option exn);    (* queued calls of [resume] *)
  started : list C;                    (* every closure given to a fiber, in order: not in the source *)
  log : list (nat * A);                (* what closures did, by instance *)
  errors : list string
}.
Arguments Pool : clear implicits.

(** [Await] outside a fiber, on a future that settles with [res]. *)
Definition awaitBlocking (app_thread : bool) (res : option exn) : option exn :=
  if app_thread then Some (Err "await() without a fiber on the event loop thread would deadlock") else res.

Section fibers.
Context {C A : Type} (run : C -> option exn -> list A * Slice C).

(** One switch into a fiber, up to where it switches back.  [Run] on a fiber
    calls the closure in place, or drops it when the fiber is unwinding; [await]
    throws at once then. *)
Fixpoint exec (fuel : nat) (unwinding : bool) (frames : list C) (e : option exn) : option (list A * Stopped C) :=
  match fuel with
  | O => None
  | S fuel =>
      match frames with
      | [] => Some ([], Finished e)
      | c :: rest =>
          let '(acts, slice) := run c e in
          let continue r := match r with Some (more, st) => Some (acts ++ more, st) | None => None end in
          match slice with
          | Done e => continue (exec fuel unwinding rest e)
          | Waiting s c =>
              if unwinding then continue (exec fuel unwinding (c :: rest) (Some ForcedShutdown))
              else Some (acts, Suspended s (c :: rest))
          | Calls inner c =>
              if unwinding then continue (exec fuel unwinding (c :: rest) None)
              else continue (exec fuel unwinding (inner :: c :: rest) None)
          end
      end
  end.

Definition set_fib (f : nat) (fib : Fib C) (p : Pool C A) : Pool C A :=
  {| fibers := <[f := fib]> (fibers p); parked := parked p; flying := flying p; pooledFibers := pooledFibers p;
     pending := pending p; settled := settled p; posted := posted p; started := started p; log := log p; errors := errors p |}.
Definition add_log (i : nat) (acts : list A) (p : Pool C A) : Pool C A :=
  {| fibers := fibers p; parked := parked p; flying := flying p; pooledFibers := pooledFibers p;
     pending := pending p; settled := settled p; posted := posted p; started := started p;
     log := log p ++ map (pair i) acts; errors := errors p |}.
Definition add_error (e : string) (p : Pool C A) : Pool C A :=
  {| fibers := fibers p; parked := parked p; flying := flying p; pooledFibers := pooledFibers p;
     pending := pending p; settled := settled p; posted := posted p; started := started p; log := log p;
     errors := errors p ++ [e] |}.
Definition set_lists (pk fl : list nat) (p : Pool C A) : Pool C A :=
  {| fibers := fibers p; parked := pk; flying := fl; pooledFibers := pooledFibers p;
     pending := pending p; settled := settled p; posted := posted p; started := started p; log := log p; errors := errors p |}.
Definition set_queues (pend : list (nat * nat)) (post : list (nat * option exn)) (p : Pool C A) : Pool C A :=
  {| fibers := fibers p; parked := parked p; flying := flying p; pooledFibers := pooledFibers p;
     pending := pend; settled := settled p; posted := post; started := started p; log := log p; errors := errors p |}.

(** [Fiber::Impl::await], up to the switch: the subscription.  A future that is
    settled already calls back at once. *)
Definition await (f s : nat) (p : Pool C A) : Pool C A :=
  match settled p !! s with
  | Some res => set_queues (pending p) (posted p ++ [(f, res)]) p
  | None => set_queues (pending p ++ [(s, f)]) (posted p) p
  end.

(** [operator()] of the coroutine, entered with [frames] and [e]. *)
Definition enter (fuel f : nat) (fib : Fib C) (frames : list C) (e : option exn) (p : Pool C A) : option (Pool C A) :=
  match exec fuel false frames e with
  | None => None
  | Some (acts, st) =>
      let p := add_log (instance fib) acts p in
      match st with
      | Finished e =>
          Some (set_fib f {| busy := false; unwind := unwind fib;
                             exc := match e with Some ForcedShutdown => None | _ => e end;
                             has_pool := has_pool fib; thread := thread fib; frames := []; instance := instance fib |} p)
      | Suspended s frames =>
          Some (await f s (set_fib f {| busy := true; unwind := unwind fib; exc := None; has_pool := has_pool fib;
                                        thread := thread fib; frames := frames; instance := instance fib |} p))
      end
  end.

(** [returnFiber]; [idle] is emitted when no fiber is left flying. *)
Definition returnFiber (f : nat) (p : Pool C A) : Pool C A :=
  set_lists (if bool_decide (length (parked p) < pooledFibers p)%nat then parked p ++ [f] else parked p)
            (List.filter (fun g => negb (g =? f)%nat) (flying p)) p.
Definition clear_exc (fib : Fib C) : Fib C :=
  {| busy := busy fib; unwind := unwind fib; exc := None; has_pool := has_pool fib; thread := thread fib;
     frames := frames fib; instance := instance fib |}.
(** [afterStep]: the new pool and the exception it throws. *)
Definition afterStep (resumed : bool) (f : nat) (p : Pool C A) : Pool C A * option exn :=
  match fibers p !! f with
  | None => (p, None)
  | Some fib =>
      let p := if busy fib then p else returnFiber f p in
      if unwind fib then (p, Some ForcedShutdown)
      else
        let p := set_fib f (clear_exc fib) p in
        match exc fib with
        | None => (p, None)
        | Some e =>
            if resumed then (add_error (match e with Err m => m | ForcedShutdown => "Forced shutdown" end) p, None)
            else (p, Some e)
        end
  end.

Definition new_fiber (i : nat) : Fib C :=
  {| busy := true; unwind := false; exc := None; has_pool := true; thread := None; frames := []; instance := i |}.
(** [FiberPool::Run] off any fiber: the last parked fiber, or a new one. *)
Definition Run (fuel : nat) (closure : C) (p : Pool C A) : option (Pool C A * option exn) :=
  let i := length (started p) in
  let '(f, fib, pk) :=
    match last (parked p) with
    | Some f =>
        (f, match fibers p !! f with
            | Some fib => {| busy := true; unwind := unwind fib; exc := exc fib; has_pool := has_pool fib;
                             thread := thread fib; frames := []; instance := i |}
            | None => new_fiber i
            end, take (length (parked p) - 1) (parked p))
    | None => (fresh (dom (fibers p)), new_fiber i, [])
    end in
  let p := {| fibers := <[f := fib]> (fibers p); parked := pk; flying := flying p ++ [f]; pooledFibers := pooledFibers p;
              pending := pending p; settled := settled p; posted := posted p; started := started p ++ [closure];
              log := log p; errors := errors p |} in
  match enter fuel f fib [closure] None p with
  | None => None
  | Some p => Some (afterStep false f p)
  end.

(** A future settles: its subscribers' [resume]s are queued. *)
Definition settle (s : nat) (res : option exn) (p : Pool C A) : Pool C A :=
  let woken := List.filter (fun w => (w.1 =? s)%nat) (pending p) in
  {| fibers := fibers p; parked := parked p; flying := flying p; pooledFibers := pooledFibers p;
     pending := List.filter (fun w => negb (w.1 =? s)%nat) (pending p); settled := <[s := res]> (settled p);
     posted := posted p ++ map (fun w => (w.2, res)) woken; started := started p; log := log p; errors := errors p |}.
(** [resume], from the queued call. *)
Definition resume (fuel f : nat) (e : option exn) (fib : Fib C) (p : Pool C A) : option (Pool C A) :=
  match enter fuel f fib (frames fib) e p with
  | None => None
  | Some p => Some (afterStep true f p).1
  end.
(** The event loop runs the oldest queued call. *)
Definition turn (fuel : nat) (p : Pool C A) : option (Pool C A) :=
  match posted p with
  | [] => Some p
  | (f, e) :: rest =>
      let p := set_queues (pending p) rest p in
      match fibers p !! f with
      | None => Some p
      | Some fib => if has_pool fib then resume fuel f e fib p else Some p
      end
  end.

(** [FiberPool::Stop]: [events] is what the event loop delivers until the
    deadline; then whatever still flies is unwound (in the order of the set's
    pointers there, in the order of their start here). *)
Inductive LoopEvent := Settle (s : nat) (res : option exn) | Turn.
Definition loop_event (fuel : nat) (ev : LoopEvent) (p : Pool C A) : option (Pool C A) :=
  match ev with Settle s res => Some (settle s res p) | Turn => turn fuel p end.
Fixpoint stop_loop (fuel : nat) (events : list LoopEvent) (p : Pool C A) : option (Pool C A) :=
  match flying p, events with
  | [], _ | _, [] => Some p
  | _, ev :: events => match loop_event fuel ev p with Some p => stop_loop fuel events p | None => None end
  end.
Definition unwound (e : option exn) (fib : Fib C) : Fib C :=
  {| busy := false; unwind := true; exc := match e with Some ForcedShutdown => None | _ => e end;
     has_pool := false; thread := None; frames := []; instance := instance fib |}.
Definition unwind_one (fuel f : nat) (p : Pool C A) : option (Pool C A) :=
  match fibers p !! f with
  | None => Some p
  | Some fib =>
      match exec fuel true (frames fib) (Some ForcedShutdown) with
      | Some (acts, Finished e) => Some (set_fib f (unwound e fib) (add_log (instance fib) acts p))
      | _ => None
      end
  end.
Fixpoint unwind_all (fuel : nat) (stragglers : list nat) (p : Pool C A) : option (Pool C A) :=
  match stragglers with
  | [] => Some p
  | f :: rest => match unwind_one fuel f p with Some p => unwind_all fuel rest p | None => None end
  end.
Definition Stop (fuel : nat) (events : list LoopEvent) (p : Pool C A) : option (Pool C A) :=
  match stop_loop fuel events p with
  | None => None
  | Some p => unwind_all fuel (flying p) (set_lists (parked p) [] p)
  end.

(** [Fiber::LuaState]: the fiber's Lua thread, made on first use ([next] is the
    one [lua_newthread] would make). *)
Definition LuaState (next f : nat) (p : Pool C A) : res (nat * Pool C A) :=
  match fibers p !! f with
  | None => Raise "no such fiber"
  | Some fib =>
      if negb (has_pool fib) then Raise "undefined behaviour: null pool"
      else match thread fib with
           | Some t => Ok (t, p)
           | None => Ok (next, set_fib f {| busy := busy fib; unwind := unwind fib; exc := exc fib; has_pool := has_pool fib;
                                            thread := Some next; frames := frames fib; instance := instance fib |} p)
           end
  end.

Definition pool_init (pooled : nat) : Pool C A :=
  {| fibers := ∅; parked := []; flying := []; pooledFibers := pooled; pending := []; settled := ∅; posted := [];
     started := []; log := []; errors := [] |}.

(** Everything that can happen to a pool. *)
Inductive PoolEvent := ERun (closure : C) | ELoop (ev : LoopEvent) | EStop (events : list LoopEvent).
Definition pool_event (fuel : nat) (ev : PoolEvent) (p : Pool C A) : option (Pool C A) :=
  match ev with
  | ERun c => match Run fuel c p with Some (p, _) => Some p | None => None end
  | ELoop ev => loop_event fuel ev p
  | EStop events => Stop fuel events p
  end.
Fixpoint pool_events (fuel : nat) (evs : list PoolEvent) (p : Pool C A) : option (Pool C A) :=
  match evs with
  | [] => Some p
  | ev :: evs => match pool_event fuel ev p with Some p => pool_events fuel evs p | None => None end
  end.

(** ** Reference: a closure run alone

    after [n] awaits, each of which gets the result [oracle] has for its future. *)
Fixpoint alone (fuel : nat) (oracle : nat -> option exn) (n : nat) (c : C) : option (list A * Stopped C) :=
  match n with
  | O => exec fuel false [c] None
  | S n =>
      match alone fuel oracle n c with
      | Some (acts, Suspended s frames) =>
          match exec fuel false frames (oracle s) with
          | Some (more, st) => Some (acts ++ more, st)
          | None => None
          end
      | _ => None
      end
  end.
(** What one started closure did. *)
Definition acts_of (i : nat) (log : list (nat * A)) : list A :=
  omap (fun x => if (x.1 =? i)%nat then Some x.2 else None) log.
Definition wakes (p : Pool C A) : list nat := map snd (pending p) ++ map fst (posted p).

(** ** The invariant; [r] is the fiber being switched to, if any *)
Definition idle_fib (p : Pool C A) (f : nat) : Prop := exists fib, fibers p !! f = Some fib /\
  busy fib = false /\ unwind fib = false /\ exc fib = None /\ has_pool fib = true /\ frames fib = [].
Definition suspended_fib (p : Pool C A) (f : nat) : Prop := exists fib, fibers p !! f = Some fib /\
  busy fib = true /\ unwind fib = false /\ exc fib = None /\ has_pool fib = true /\ frames fib <> [].
Definition dead_fib (p : Pool C A) (f : nat) : Prop := exists fib, fibers p !! f = Some fib /\ has_pool fib = false.
Record pool_inv (r : option nat) (p : Pool C A) : Prop := {
  pi_parked : NoDup (parked p);
  pi_bound : (length (parked p) <= pooledFibers p)%nat;
  pi_flying : NoDup (flying p);
  pi_disjoint : forall g, g ∈ parked p -> g ∉ flying p;
  pi_idle : forall g, g ∈ parked p -> idle_fib p g;
  pi_suspended : forall g, g ∈ flying p -> Some g <> r -> suspended_fib p g;
  pi_wakes : NoDup (wakes p);
  pi_awake : forall g, g ∈ flying p -> Some g <> r -> g ∈ wakes p;
  pi_running : forall g, r = Some g -> g ∈ flying p /\ g ∉ wakes p;
  pi_targets : forall g, g ∈ wakes p -> (g ∈ flying p) \/ dead_fib p g;
  pi_pending : forall s g, (s, g) ∈ pending p -> settled p !! s = None
}.

Lemma exec_suspended fuel : forall u fr e acts s fr', exec fuel u fr e = Some (acts, Suspended s fr') -> fr' <> [].
Proof.
  induction fuel as [|fuel IH]; intros u fr e acts s fr'; [done|]. cbn [exec]. destruct fr as [|c rest]; [done|].
  destruct (run c e) as [a sl].
  destruct sl as [e'|s' c'|inner c']; [|destruct u; [|intros [= <- <- <-]; done]|destruct u];
    (destruct (exec fuel _ _ _) as [[more st]|] eqn:E; [|done]); intros [= <- ->]; eapply IH, E.
Qed.

Lemma pool_inv_error r e p : pool_inv r p -> pool_inv r (add_error e p).
Proof. by intros []. Qed.
Lemma fib_other {P : Fib C -> Prop} (f g : nat) x (m : gmap nat (Fib C)) : f <> g ->
  (exists fib, m !! g = Some fib /\ P fib) -> exists fib, <[f := x]> m !! g = Some fib /\ P fib.
Proof. intros Hn (fib & E & H). exists fib. by rewrite lookup_insert_ne. Qed.
Lemma in_flying_left f g (l : list nat) :
  g ∈ List.filter (fun h => negb (h =? f)%nat) l <-> g ∈ l /\ g <> f.
Proof.
  rewrite !list_elem_of_In, List.filter_In. destruct (Nat.eqb_spec g f); naive_solver.
Qed.

(** Coming back from a fiber that has ended. *)
Lemma finish_inv f fib p : pool_inv (Some f) p -> 
  has_pool fib = true -> unwind fib = false -> busy fib = false -> exc fib = None -> frames fib = [] ->
  pool_inv None (set_fib f fib (returnFiber f p)).
Proof.
  intros [H1 H2 H3 H4 H5 H6 H7 H8 H9 H10 H11] Hp Hu Hb He Hf.
  unfold idle_fib, suspended_fib, dead_fib in *. destruct (H9 f eq_refl) as [Hfl Hnw]. assert (f ∉ parked p) as Hnp by (intros ?; by eapply H4).
  assert (forall g, g ∈ (if bool_decide (length (parked p) < pooledFibers p)%nat then parked p ++ [f] else parked p) ->
    g ∈ parked p \/ g = f) as Hpk by (intros g; case_bool_decide; set_solver).
  split; unfold idle_fib, suspended_fib, dead_fib; cbn.
  - case_bool_decide; [|done]. apply NoDup_app. split_and!; [done|set_solver|apply NoDup_singleton].
  - case_bool_decide; [rewrite length_app; simpl; lia|lia].
  - by apply NoDup_ListNoDup, List.NoDup_filter, NoDup_ListNoDup.
  - intros g Hg%Hpk. rewrite in_flying_left. naive_solver.
  - intros g Hg. destruct (decide (g = f)) as [->|Hn]; [exists fib; cbn; by rewrite lookup_insert_eq|].
    apply fib_other; [done|]. apply H5. by destruct (Hpk g Hg).
  - intros g [Hg Hn]%in_flying_left _. apply fib_other; [done|]. apply H6; [done|congruence].
  - done.
  - intros g [Hg Hn]%in_flying_left _. apply H8; [done|congruence].
  - done.
  - intros g Hg. destruct (decide (g = f)) as [->|Hn]; [done|].
    destruct (H10 g Hg); [left; by apply in_flying_left|right]. by apply fib_other.
  - done.
Qed.
(** Coming back from a fiber that awaits. *)
Lemma await_inv f s fib p : pool_inv (Some f) p -> 
  has_pool fib = true -> unwind fib = false -> busy fib = true -> exc fib = None -> frames fib <> [] ->
  pool_inv None (set_fib f fib (await f s p)).
Proof.
  intros [H1 H2 H3 H4 H5 H6 H7 H8 H9 H10 H11] Hp Hu Hb He Hf.
  unfold idle_fib, suspended_fib, dead_fib in *. destruct (H9 f eq_refl) as [Hfl Hnw]. assert (f ∉ parked p) as Hnp by (intros ?; by eapply H4).
  assert (wakes (await f s p) ≡ₚ f :: wakes p) as Hw.
  { unfold await, wakes. destruct (settled p !! s); cbn; rewrite map_app; cbn; [|rewrite <- app_assoc; cbn];
      [rewrite app_assoc|]; by rewrite <- Permutation_middle, ?app_nil_r. }
  assert (parked (await f s p) = parked p /\ flying (await f s p) = flying p /\
    fibers (await f s p) = fibers p /\ pooledFibers (await f s p) = pooledFibers p /\
    settled (await f s p) = settled p) as (E1 & E2 & E3 & E4 & E5).
  { unfold await. by destruct (settled p !! s). }
  split; unfold idle_fib, suspended_fib, dead_fib; cbn; rewrite ?E1, ?E2, ?E3, ?E4, ?E5; try done.
  - intros g Hg. apply fib_other; [by intros ->|]. by apply H5.
  - intros g Hg _. destruct (decide (g = f)) as [->|Hn]; [exists fib; cbn; by rewrite lookup_insert_eq|].
    apply fib_other; [done|]. apply H6; [done|congruence].
  - change (NoDup (wakes (await f s p))). rewrite Hw. by constructor.
  - intros g Hg _. change (g ∈ wakes (await f s p)). rewrite Hw. destruct (decide (g = f)) as [->|]; [left|right].
    apply H8; [done|congruence].
  - intros g Hg. change (g ∈ wakes (await f s p)) in Hg. rewrite Hw in Hg. apply elem_of_cons in Hg as [->|Hg]; [by left|].
    destruct (decide (g = f)) as [->|Hn]; [by left|]. destruct (H10 g Hg); [by left|right]. by apply fib_other.
  - intros s' g. unfold await. destruct (settled p !! s) eqn:Es; cbn; [apply H11|].
    intros [Hg| [= -> ->]%list_elem_of_singleton]%elem_of_app; [by eapply H11|done].
Qed.
Lemma pool_inv_log r i acts p : pool_inv r p -> pool_inv r (add_log i acts p).
Proof. by intros []. Qed.

Lemma set_fib_twice f x y p : set_fib f x (set_fib f y p) = set_fib f x p.
Proof. unfold set_fib. cbn. by rewrite insert_insert_eq. Qed.
Lemma returnFiber_set f g x p : returnFiber f (set_fib g x p) = set_fib g x (returnFiber f p).
Proof. done. Qed.
Lemma await_set f s g x p : await f s (set_fib g x p) = set_fib g x (await f s p).
Proof. unfold await. cbn. by destruct (settled p !! s). Qed.

(** What a switch into a fiber and back leaves, with what it throws. *)
Definition ended (fib : Fib C) (p : Pool C A) : Fib C :=
  {| busy := false; unwind := false; exc := None; has_pool := true; thread := thread fib; frames := [];
     instance := instance fib |}.
Definition waits (fib : Fib C) (fr : list C) : Fib C :=
  {| busy := true; unwind := false; exc := None; has_pool := true; thread := thread fib; frames := fr;
     instance := instance fib |}.
Definition reported (resumed : bool) (e : option exn) (p : Pool C A) : Pool C A * option exn :=
  match e with
  | Some (Err m) => if resumed then (add_error m p, None) else (p, Some (Err m))
  | _ => (p, None)
  end.
Lemma switch_spec fuel f fib fr e resumed p p1 :
  unwind fib = false -> has_pool fib = true -> enter fuel f fib fr e p = Some p1 ->
  exists acts st, exec fuel false fr e = Some (acts, st) /\
    afterStep resumed f p1 =
      match st with
      | Finished e => reported resumed e (set_fib f (ended fib p) (returnFiber f (add_log (instance fib) acts p)))
      | Suspended s fr => (set_fib f (waits fib fr) (await f s (add_log (instance fib) acts p)), None)
      end.
Proof.
  intros Hu Hp. unfold enter. destruct (exec fuel false fr e) as [[acts st]|]; [|done].
  intros E. exists acts, st. split; [done|]. rewrite Hu, Hp in E. destruct st as [e'|s fr']; injection E as <-.
  - unfold afterStep. cbn [fibers set_fib]. rewrite lookup_insert_eq. cbn [busy unwind exc].
    rewrite returnFiber_set, set_fib_twice. unfold clear_exc, ended. cbn.
    by destruct e' as [[|m]|]; cbn; [|destruct resumed|].
  - unfold afterStep. rewrite await_set. cbn [fibers set_fib]. rewrite lookup_insert_eq. cbn [busy unwind exc].
    by rewrite set_fib_twice.
Qed.
Lemma switch_inv fuel f fib fr e resumed p p1 :
  pool_inv (Some f) p -> unwind fib = false -> has_pool fib = true ->
  enter fuel f fib fr e p = Some p1 -> pool_inv None (afterStep resumed f p1).1.
Proof.
  intros Hi Hu Hp E. destruct (switch_spec _ _ _ _ _ resumed _ _ Hu Hp E) as (acts & st & Ex & ->).
  destruct st as [e'|s fr'].
  - assert (pool_inv None (set_fib f (ended fib p) (returnFiber f (add_log (instance fib) acts p)))) as H.
    { apply finish_inv; [by apply pool_inv_log|done..]. }
    destruct e' as [[|m]|]; cbn; [done| |done]. by destruct resumed; [apply pool_inv_error|].
  - apply await_inv; [by apply pool_inv_log|done..|]. by eapply exec_suspended.
Qed.

Lemma settle_wakes s res p : wakes (settle s res p) ≡ₚ wakes p.
Proof.
  unfold wakes, settle; cbn. rewrite map_app, map_map. cbn. rewrite (Permutation_app_comm (map fst (posted p))), app_assoc.
  apply Permutation_app_tail. induction (pending p) as [|[s' g] l IH]; [done|]. cbn [List.filter fst].
  destruct (s' =? s)%nat; cbn; [by rewrite <- Permutation_middle, IH|by rewrite IH].
Qed.
Lemma settle_inv r s res p : pool_inv r p -> pool_inv r (settle s res p).
Proof.
  intros [H1 H2 H3 H4 H5 H6 H7 H8 H9 H10 H11]. pose proof (settle_wakes s res p) as Hw.
  split; try done.
  - by rewrite Hw.
  - intros g Hg Hr. rewrite Hw. by apply H8.
  - intros g Hg. destruct (H9 g Hg). by rewrite Hw.
  - intros g. rewrite Hw. apply H10.
  - intros s' g. cbn. rewrite list_elem_of_In, List.filter_In, <- list_elem_of_In. cbn.
    intros [Hg Hn]. destruct (Nat.eqb_spec s' s) as [|Hne]; [done|]. rewrite lookup_insert_ne by done. by eapply H11.
Qed.
Lemma turn_inv fuel p p' : pool_inv None p -> turn fuel p = Some p' -> pool_inv None p'.
Proof.
  intros Hi. unfold turn. destruct (posted p) as [|[f e] rest] eqn:Ep; [by intros [= <-]|].
  pose proof Hi as [H1 H2 H3 H4 H5 H6 H7 H8 H9 H10 H11].
  set (p1 := set_queues (pending p) rest p).
  assert (wakes p ≡ₚ f :: wakes p1) as Hw.
  { unfold wakes, p1. rewrite Ep. cbn. by rewrite <- Permutation_middle. }
  rewrite Hw in H7. apply NoDup_cons in H7 as [Hnf Hnd].
  assert (f ∈ wakes p) as Hf by (rewrite Hw; by left).
  assert (forall r, (f ∈ flying p -> r = Some f) -> (forall g, r = Some g -> g = f /\ f ∈ flying p) -> pool_inv r p1) as Hp1.
  { intros r Hr1 Hr2. split; try done.
    - intros g Hg _. by apply H6.
    - intros g Hg Hr. assert (g ∈ wakes p) as Hgw by (apply H8; done). rewrite Hw in Hgw.
      apply elem_of_cons in Hgw as [->|]; [|done]. exfalso. apply Hr. symmetry. by apply Hr1.
    - intros g Hg. destruct (Hr2 g Hg) as [-> ?]. done.
    - intros g Hg. apply H10. rewrite Hw. by right. }
  change (fibers p1 !! f) with (fibers p !! f). destruct (H10 f Hf) as [Hfl|(fib & Ef & Hd)].
  - destruct (H6 f Hfl) as (fib & Ef & _ & Hu & _ & Hp & _); [done|]. cbn [fibers set_queues]. rewrite Ef, Hp. unfold resume.
    destruct (enter _ _ _ _ _ _) as [p2|] eqn:E; [|done]. intros [= <-].
    eapply switch_inv; [|done|done|exact E]. apply Hp1; [done|]. by intros g [= ->].
  - rewrite Ef, Hd. intros [= <-]. apply Hp1; [|done]. intros Hfl. destruct (H6 f Hfl) as (fib' & Ef' & _ & _ & _ & Hp & _); [done|].
    congruence.
Qed.
Lemma loop_event_inv fuel ev p p' : pool_inv None p -> loop_event fuel ev p = Some p' -> pool_inv None p'.
Proof. destruct ev; cbn; [intros H [= <-]; by apply settle_inv|apply turn_inv]. Qed.

(** The state in which [Run] switches to the fiber. *)
Lemma Run_spec fuel c p : pool_inv None p -> exists f fib q,
  Run fuel c p = match enter fuel f fib [c] None q with Some p => Some (afterStep false f p) | None => None end /\
  pool_inv (Some f) q /\ unwind fib = false /\ has_pool fib = true /\ instance fib = length (started p) /\
  fibers q = <[f := fib]> (fibers p) /\ f ∉ flying p /\ flying q = flying p ++ [f] /\
  pending q = pending p /\ settled q = settled p /\ posted q = posted p /\ started q = started p ++ [c] /\
  log q = log p /\ errors q = errors p /\ frames fib = [].
Proof.
  intros [H1 H2 H3 H4 H5 H6 H7 H8 H9 H10 H11]. unfold Run.
  assert (forall f fib pk, (forall g, g ∈ pk -> g ∈ parked p /\ g <> f) -> NoDup pk -> (length pk <= pooledFibers p)%nat ->
    f ∉ flying p -> f ∉ wakes p -> 
    pool_inv (Some f) {| fibers := <[f := fib]> (fibers p); parked := pk; flying := flying p ++ [f];
      pooledFibers := pooledFibers p; pending := pending p; settled := settled p; posted := posted p;
      started := started p ++ [c]; log := log p; errors := errors p |}) as Hq.
  { intros f fib pk Hpk Hnd Hl Hnf Hnw. unfold idle_fib, suspended_fib, dead_fib in *. split; cbn; try done;
    unfold idle_fib, suspended_fib, dead_fib; cbn.
    - apply NoDup_app. split_and!; [done| |apply NoDup_singleton]. intros g Hg ->%list_elem_of_singleton. done.
    - intros g [Hg Hn]%Hpk [?|?%list_elem_of_singleton]%elem_of_app; [by eapply H4|done].
    - intros g [Hg Hn]%Hpk. apply fib_other; [done|]. by apply H5.
    - intros g [Hg| ->%list_elem_of_singleton]%elem_of_app Hr; [|done]. apply fib_other; [congruence|]. by apply H6.
    - intros g [Hg| ->%list_elem_of_singleton]%elem_of_app Hr; [|done]. by apply H8.
    - intros g [= <-]. split; [set_solver|done].
    - intros g Hg. destruct (decide (g = f)) as [->|Hn]; [done|].
      destruct (H10 g Hg) as [?|?]; [left; set_solver|right]. by apply fib_other. }
  destruct (last (parked p)) as [f|] eqn:El.
  - apply last_Some in El as [l El]. assert (f ∈ parked p) as Hf by (rewrite El; set_solver).
    destruct (H5 f Hf) as (fib & Ef & Hb & Hu & He & Hp & Hfr). rewrite Ef.
    do 3 eexists. split; [reflexivity|]. assert (f ∉ flying p) as Hnf by (by apply H4).
    split; [|by repeat split]. rewrite El in H1. apply NoDup_app in H1 as (Hl & Hlf & _).
    rewrite El, length_app, Nat.add_sub, take_app_length. apply Hq; [|done| |done|].
    + intros g Hg. split; [rewrite El; set_solver|]. intros ->. by apply (Hlf f Hg), list_elem_of_singleton.
    + rewrite El, length_app in H2. lia.
    + intros Hw. destruct (H10 f Hw) as [|(? & ? & ?)]; [by eapply H4|congruence].
  - do 3 eexists. split; [reflexivity|].
    assert (forall g, (exists fib, fibers p !! g = Some fib) -> g <> fresh (dom (fibers p))) as Hfr.
    { intros g [? E] ->. apply (is_fresh (dom (fibers p))), elem_of_dom. eauto. }
    assert (fresh (dom (fibers p)) ∉ flying p) as Hnf.
    { intros Hf. destruct (H6 _ Hf) as (? & E & _); [done|]. by eapply Hfr; [eauto|]. }
    split; [|by repeat split]. apply Hq; [by intros g ?%elem_of_nil|constructor|cbn; lia|done|].
    + intros Hf. destruct (H10 _ Hf) as [Hf'|(? & E & _)]; [destruct (H6 _ Hf') as (? & E & _); [done|]|];
        (by eapply Hfr; [eauto|]).
Qed.
Lemma Run_inv fuel c p p' x : pool_inv None p -> Run fuel c p = Some (p', x) -> pool_inv None p'.
Proof.
  intros Hi. destruct (Run_spec fuel c p Hi) as (f & fib & q & -> & Hq & Hu & Hp & _).
  destruct (enter _ _ _ _ _ q) as [p1|] eqn:E; [|done]. intros [= H].
  replace p' with (afterStep false f p1).1 by (by rewrite H). by eapply switch_inv.
Qed.

Lemma stop_loop_inv fuel evs : forall p p', pool_inv None p -> stop_loop fuel evs p = Some p' -> pool_inv None p'.
Proof.
  induction evs as [|ev evs IH]; intros p p' Hi; cbn [stop_loop]; destruct (flying p); try by intros [= <-].
  destruct (loop_event fuel ev p) as [q|] eqn:E; [|done]. apply IH. by eapply loop_event_inv.
Qed.
(** The stragglers still to unwind count as flying. *)
Lemma unwind_one_inv fuel f l p p' : flying p = [] -> pool_inv None (set_lists (parked p) (f :: l) p) ->
  unwind_one fuel f p = Some p' ->
  flying p' = [] /\ parked p' = parked p /\ pool_inv None (set_lists (parked p') l p') /\ dead_fib p' f.
Proof.
  intros Hfl [H1 H2 H3 H4 H5 H6 H7 H8 H9 H10 H11]. unfold unwind_one, idle_fib, suspended_fib, dead_fib in *. cbn in *.
  destruct (H6 f) as (fib & Ef & _); [by left|done|]. rewrite Ef.
  destruct (exec _ _ _ _) as [[acts [e|]]|]; [|done..]. intros [= <-].
  apply NoDup_cons in H3 as [Hnf Hl]. assert (f ∉ parked p) as Hnp by (intros Hf; apply (H4 f Hf); by left).
  split_and!; [done|done| |exists (unwound e fib); cbn; by rewrite lookup_insert_eq].
  split; unfold idle_fib, suspended_fib, dead_fib; cbn; try done.
  - intros g Hg Hgl. apply (H4 g Hg). by right.
  - intros g Hg. apply fib_other; [by intros ->|]. by apply H5.
  - intros g Hg _. apply fib_other; [by intros ->|]. apply H6; [by right|done].
  - intros g Hg _. apply H8; [by right|done].
  - intros g Hg. destruct (decide (g = f)) as [->|Hn].
    + right. exists (unwound e fib). by rewrite lookup_insert_eq.
    + destruct (H10 g Hg) as [[?|?]%elem_of_cons|?]; [done|by left|right]. by apply fib_other.
Qed.
Lemma unwind_all_inv fuel l : forall p p', flying p = [] -> pool_inv None (set_lists (parked p) l p) ->
  unwind_all fuel l p = Some p' -> flying p' = [] /\ pool_inv None p'.
Proof.
  induction l as [|f l IH]; intros p p' Hfl Hi; cbn [unwind_all].
  - intros [= <-]. split; [done|]. destruct Hi. by split; cbn in *; rewrite ?Hfl.
  - destruct (unwind_one fuel f p) as [q|] eqn:E; [|done].
    destruct (unwind_one_inv _ _ _ _ _ Hfl Hi E) as (Hq & _ & Hi' & _). by apply IH.
Qed.
Lemma Stop_inv fuel evs p p' : pool_inv None p -> Stop fuel evs p = Some p' -> flying p' = [] /\ pool_inv None p'.
Proof.
  intros Hi. unfold Stop. destruct (stop_loop fuel evs p) as [q|] eqn:E; [|done].
  apply unwind_all_inv; [done|]. pose proof (stop_loop_inv _ _ _ _ Hi E) as Hq. by destruct Hq.
Qed.
Lemma pool_init_inv n : pool_inv None (pool_init n).
Proof. split; cbn; try constructor; try lia; by intros ? ?%elem_of_nil || done. Qed.
Lemma pool_event_inv fuel ev p p' : pool_inv None p -> pool_event fuel ev p = Some p' -> pool_inv None p'.
Proof.
  intros Hi. destruct ev as [c|ev|evs]; cbn.
  - destruct (Run fuel c p) as [[q x]|] eqn:E; [|done]. intros [= <-]. by eapply Run_inv.
  - by apply loop_event_inv.
  - intros E. by apply (Stop_inv _ _ _ _ Hi E).
Qed.
Lemma pool_events_inv fuel evs : forall p p', pool_inv None p -> pool_events fuel evs p = Some p' -> pool_inv None p'.
Proof.
  induction evs as [|ev evs IH]; intros p p' Hi; cbn [pool_events]; [by intros [= <-]|].
  destruct (pool_event fuel ev p) as [q|] eqn:E; [|done]. apply IH. by eapply pool_event_inv.
Qed.

(** ** Closures run as if alone *)
Arguments acts_of : simpl never.
Section alone_facts.
Context (fuel : nat) (oracle : nat -> option exn) (stops : Prop).
Notation alone := (alone fuel oracle).
(** Futures settle with the result [oracle] has for them; the pool is stopped only if [stops]. *)
Definition told (ev : LoopEvent) : Prop := match ev with Settle s res => res = oracle s | Turn => True end.
Definition consistent (ev : PoolEvent) : Prop :=
  match ev with
  | ERun _ => True
  | ELoop ev => told ev
  | EStop evs => stops /\ Forall told evs
  end.
(** What the whole of a closure did: it ran to its end as it does alone, or was unwound
    where it does alone wait for something. *)
Definition cut_short (c : C) (acts : list A) : Prop :=
  exists n s frames before more e, alone n c = Some (before, Suspended s frames) /\
    exec fuel true frames (Some ForcedShutdown) = Some (more, Finished e) /\ acts = before ++ more.
Definition whole (c : C) (acts : list A) : Prop :=
  (exists n e, alone n c = Some (acts, Finished e)) \/ (stops /\ cut_short c acts).
Record log_inv (r : option nat) (p : Pool C A) : Prop := {
  li_ended : forall i c, started p !! i = Some c ->
    (exists g fib, g ∈ flying p /\ fibers p !! g = Some fib /\ instance fib = i) \/
    whole c (acts_of i (log p));
  li_flying : forall g fib, g ∈ flying p -> Some g <> r -> fibers p !! g = Some fib ->
    exists c n s, started p !! instance fib = Some c /\
      alone n c = Some (acts_of (instance fib) (log p), Suspended s (frames fib)) /\
      ((s, g) ∈ pending p \/ (g, oracle s) ∈ posted p);
  li_instance : forall g fib, g ∈ flying p -> fibers p !! g = Some fib -> (instance fib < length (started p))%nat;
  li_inj : forall g h fg fh, g ∈ flying p -> h ∈ flying p -> fibers p !! g = Some fg -> fibers p !! h = Some fh ->
    instance fg = instance fh -> g = h;
  li_settled : forall s res, settled p !! s = Some res -> res = oracle s;
  li_log : forall i a, (i, a) ∈ log p -> (i < length (started p))%nat
}.

Lemma acts_of_app i l l' : acts_of i (l ++ l') = acts_of i l ++ acts_of i l'.
Proof. unfold acts_of. apply omap_app. Qed.
Lemma acts_of_same i acts : acts_of i (map (pair i) acts) = acts.
Proof. unfold acts_of. induction acts as [|a acts IH]; cbn; [done|]. rewrite Nat.eqb_refl. cbn. by rewrite IH. Qed.
Lemma acts_of_other i j acts : i <> j -> acts_of i (map (pair j) acts) = [].
Proof.
  intros Hn. unfold acts_of. induction acts as [|a acts IH]; cbn; [done|].
  by rewrite (proj2 (Nat.eqb_neq j i)) by congruence.
Qed.
Lemma acts_of_new (l : list (nat * A)) i : (forall j a, (j, a) ∈ l -> (j < i)%nat) -> acts_of i l = [].
Proof.
  unfold acts_of. induction l as [|[j a] l IH]; intros H; cbn; [done|].
  rewrite (proj2 (Nat.eqb_neq j i)) by (specialize (H j a ltac:(by left)); lia).
  apply IH. intros ? ? ?. eapply H. by right.
Qed.

Lemma log_inv_error r e p : log_inv r p -> log_inv r (add_error e p).
Proof. by intros []. Qed.
Lemma log_inv_queue r p pend post : log_inv r p ->
  (forall s g, g ∈ flying p -> Some g <> r -> (s, g) ∈ pending p \/ (g, oracle s) ∈ posted p ->
     (s, g) ∈ pend \/ (g, oracle s) ∈ post) -> log_inv r (set_queues pend post p).
Proof.
  intros [H1 H2 H3 H4 H5 H6] H. split; try done. intros g fib Hg Hr E.
  destruct (H2 g fib Hg Hr E) as (c & n & s & Hc & Ha & Hw). exists c, n, s. split_and!; [done..|]. by apply H.
Qed.

(** The fiber's log entry, and the fiber itself, change; the others do not. *)
Lemma switched f fib fib' acts p : log_inv (Some f) p -> fibers p !! f = Some fib -> f ∈ flying p ->
  instance fib' = instance fib ->
  let q := set_fib f fib' (add_log (instance fib) acts p) in
  (forall i c, started q !! i = Some c -> i <> instance fib ->
    (exists g gib, g ∈ flying q /\ g <> f /\ fibers q !! g = Some gib /\ instance gib = i) \/
    whole c (acts_of i (log q))) /\
  (forall g gib, g ∈ flying q -> g <> f -> fibers q !! g = Some gib ->
    exists c n s, started q !! instance gib = Some c /\
      alone n c = Some (acts_of (instance gib) (log q), Suspended s (frames gib)) /\
      ((s, g) ∈ pending q \/ (g, oracle s) ∈ posted q)) /\
  (forall g gib, g ∈ flying q -> fibers q !! g = Some gib -> (instance gib < length (started q))%nat) /\
  (forall g h fg fh, g ∈ flying q -> h ∈ flying q -> fibers q !! g = Some fg -> fibers q !! h = Some fh ->
    instance fg = instance fh -> g = h) /\
  (forall i a, (i, a) ∈ log q -> (i < length (started q))%nat).
Proof.
  intros [H1 H2 H3 H4 H5 H6] Ef Hf Hi q.
  assert (forall g gib, fibers q !! g = Some gib -> exists gib', fibers p !! g = Some gib' /\
    instance gib' = instance gib /\ (g <> f -> gib' = gib)) as Hback.
  { intros g gib. cbn. destruct (decide (g = f)) as [->|Hn].
    - rewrite lookup_insert_eq. intros [= <-]. by exists fib.
    - rewrite lookup_insert_ne by done. by exists gib. }
  assert (forall i, i <> instance fib -> acts_of i (log q) = acts_of i (log p)) as Hacts.
  { intros i Hn. change (log q) with (log p ++ map (pair (instance fib)) acts).
    by rewrite acts_of_app, acts_of_other, app_nil_r. }
  split_and!.
  - intros i c Hc Hn. rewrite Hacts by done. destruct (H1 i c Hc) as [(g & gib & Hg & Eg & Ei)|?]; [left|by right].
    assert (g <> f) as Hgf by congruence. exists g, gib. cbn. by rewrite lookup_insert_ne.
  - intros g gib Hg Hgf Eg. destruct (Hback _ _ Eg) as (gib' & Eg' & _ & Eq). rewrite (Eq Hgf) in Eg'.
    rewrite Hacts; [by apply H2; [|congruence|]|]. intros Ei. by apply Hgf, (H4 g f gib fib).
  - intros g gib Hg Eg. destruct (Hback _ _ Eg) as (gib' & Eg' & <- & _). by eapply H3.
  - intros g h fg fh Hg Hh Eg Eh Ei. destruct (Hback _ _ Eg) as (? & Eg' & Ig & _).
    destruct (Hback _ _ Eh) as (? & Eh' & Ih & _). eapply H4; [exact Hg|exact Hh|exact Eg'|exact Eh'|congruence].
  - intros i a. cbn. intros [?|(? & [= -> ->] & ?)%list_elem_of_fmap]%elem_of_app; [by eapply H6|]. by eapply H3.
Qed.
Lemma switch_log f fib fr e resumed p p1 c : pool_inv (Some f) p -> log_inv (Some f) p ->
  fibers p !! f = Some fib -> unwind fib = false -> has_pool fib = true -> started p !! instance fib = Some c ->
  (forall acts st, exec fuel false fr e = Some (acts, st) ->
     exists n, alone n c = Some (acts_of (instance fib) (log p) ++ acts, st)) ->
  enter fuel f fib fr e p = Some p1 -> log_inv None (afterStep resumed f p1).1.
Proof.
  intros Hi Hl Ef Hu Hp Hc Hrun E. destruct (pi_running _ _ Hi f eq_refl) as [Hf _].
  destruct (switch_spec _ _ _ _ _ resumed _ _ Hu Hp E) as (acts & st & Ex & ->). clear E.
  destruct (Hrun _ _ Ex) as [n Hn]. set (i := instance fib) in *.
  assert (acts_of i (log p ++ map (pair i) acts) = acts_of i (log p) ++ acts) as Ha
    by (by rewrite acts_of_app, acts_of_same).
  pose proof (li_settled _ _ Hl) as Hs. destruct st as [e'|s fr'].
  - destruct (switched f fib (ended fib p) acts p Hl Ef Hf eq_refl) as (S1 & S2 & S3 & S4 & S5). fold i in S1, S2, S3, S4, S5.
    assert (log_inv None (set_fib f (ended fib p) (returnFiber f (add_log i acts p)))) as H.
    { split; cbn in *; try done.
      - intros j d Hj. destruct (decide (j = i)) as [->|Hne].
        + right. left. exists n, e'. rewrite Ha. by simplify_eq.
        + destruct (S1 j d Hj Hne) as [(g & gib & Hg & Hgf & ?)|?]; [left|by right]. exists g, gib. by rewrite in_flying_left.
      - intros g gib [Hg Hgf]%in_flying_left _ Eg. by apply S2.
      - intros g gib [Hg _]%in_flying_left. by apply S3.
      - intros g h fg fh [Hg _]%in_flying_left [Hh _]%in_flying_left. by apply S4. }
    destruct e' as [[|m]|]; cbn; [done| |done]. by destruct resumed; [apply log_inv_error|].
  - destruct (switched f fib (waits fib fr') acts p Hl Ef Hf eq_refl) as (S1 & S2 & S3 & S4 & S5). fold i in S1, S2, S3, S4, S5.
    rewrite <- await_set. set (q := set_fib f (waits fib fr') (add_log i acts p)) in *.
    assert (log_inv (Some f) q) as Hq.
    { split; try done.
      - intros j d Hj. destruct (decide (j = i)) as [->|Hne].
        + left. exists f, (waits fib fr'). cbn. by rewrite lookup_insert_eq.
        + destruct (S1 j d Hj Hne) as [(g & gib & Hg & Hgf & ?)|?]; [left; eauto|by right].
      - intros g gib Hg Hgf. apply S2; [done|congruence]. }
    assert (forall pend post, (forall x, x ∈ pending p -> x ∈ pend) -> (forall x, x ∈ posted p -> x ∈ post) ->
      (s, f) ∈ pend \/ (f, oracle s) ∈ post -> log_inv None (set_queues pend post q)) as Hset.
    { intros pend post Hpe Hpo Hw.
      assert (log_inv (Some f) (set_queues pend post q)) as [L1 L2 L3 L4 L5 L6].
      { apply log_inv_queue; [done|]. intros s' g Hg _ [Hg'|Hg']; [left; by apply Hpe|right; by apply Hpo]. }
      split; try done. intros g gib Hg _ Eg. destruct (decide (g = f)) as [->|Hgf]; [|apply L2; [done|congruence|done]].
      cbn in Eg. rewrite lookup_insert_eq in Eg. injection Eg as <-. exists c, n, s. cbn. fold i. rewrite Ha. by split_and!. }
    cbn [fst]. unfold await. destruct (settled q !! s) as [res|] eqn:Es; apply Hset; cbn; try done; try set_solver.
Qed.

Lemma settle_log r s p : log_inv r p -> log_inv r (settle s (oracle s) p).
Proof.
  intros [H1 H2 H3 H4 H5 H6]. split; try done.
  - intros g fib Hg Hr E. destruct (H2 g fib Hg Hr E) as (c & n & s' & Hc & Ha & Hw). exists c, n, s'.
    split_and!; [done..|]. cbn. destruct (Nat.eqb_spec s' s) as [->|Hn].
    + right. destruct Hw as [Hw|Hw]; apply elem_of_app; [right|by left].
      apply list_elem_of_fmap. exists (s, g). split; [done|]. rewrite list_elem_of_In, List.filter_In, <- list_elem_of_In.
      by rewrite Nat.eqb_refl.
    + destruct Hw as [Hw|Hw]; [left|right; apply elem_of_app; by left].
      rewrite list_elem_of_In, List.filter_In, <- list_elem_of_In. cbn. by rewrite (proj2 (Nat.eqb_neq s' s)).
  - intros s' res. cbn. intros [[-> <-]|[_ ?]]%lookup_insert_Some; [done|by apply H5].
Qed.
Lemma turn_log p p' : pool_inv None p -> log_inv None p -> turn fuel p = Some p' -> log_inv None p'.
Proof.
  intros Hi Hl. unfold turn. destruct (posted p) as [|[f e] rest] eqn:Ep; [by intros [= <-]|].
  pose proof (pi_wakes _ _ Hi) as Hnd. unfold wakes in Hnd. rewrite Ep in Hnd. cbn in Hnd.
  apply NoDup_app in Hnd as (_ & Hd & [Hnr _]%NoDup_cons).
  assert (forall s, (s, f) ∉ pending p) as Hnp.
  { intros s Hs. apply (Hd f); [|by left]. apply list_elem_of_fmap. by exists (s, f). }
  assert (log_inv (Some f) (set_queues (pending p) rest p)) as Hq.
  { apply log_inv_queue.
    - destruct Hl as [H1 H2 H3 H4 H5 H6]. split; try done. intros g fib Hg Hr. by apply H2.
    - intros s g Hg Hr. rewrite Ep. intros [?|[[= -> _]|?]%elem_of_cons]; [by left|done|by right]. }
  cbn [fibers set_queues]. destruct (fibers p !! f) as [fib|] eqn:Ef.
  - destruct (decide (f ∈ flying p)) as [Hf|Hf].
    + destruct (pi_suspended _ _ Hi f Hf) as (fib' & Ef' & _ & Hu & _ & Hp & _); [done|]. simplify_eq. rewrite Hp.
      destruct (li_flying _ _ Hl f fib Hf ltac:(done) Ef) as (c & n & s & Hc & Ha & Hw).
      unfold resume. destruct (enter _ _ _ _ _ _) as [p1|] eqn:E; [|done]. intros [= <-].
      assert (e = oracle s) as ->.
      { destruct Hw as [Hw|Hw]; [by apply Hnp in Hw|]. rewrite Ep in Hw. apply elem_of_cons in Hw as [[= ->]|Hw]; [done|].
        exfalso. apply Hnr, list_elem_of_fmap. by exists (f, oracle s). }
      refine (switch_log f fib _ _ true _ p1 c _ Hq Ef Hu Hp Hc _ E).
      * pose proof Hi as [H1 H2 H3 H4 H5 H6 H7 H8 H9 H10 H11].
        unfold wakes in H7, H8, H10. rewrite Ep in H7, H8, H10. cbn in H7, H8, H10. rewrite <- Permutation_middle in H7.
        apply NoDup_cons in H7 as [Hnf Hnd]. split; try done.
        -- intros g Hg _. by apply H6.
        -- intros g Hg Hr. specialize (H8 g Hg ltac:(done)). rewrite <- Permutation_middle in H8.
           apply elem_of_cons in H8 as [->|]; [done|done].
        -- intros g [= <-]. done.
        -- intros g Hg. apply H10. rewrite <- Permutation_middle. by right.
      * intros acts st Ex. exists (S n). cbn. by rewrite Ha, Ex.
    + destruct (pi_targets _ _ Hi f) as [|(fib' & Ef' & Hd')]; [unfold wakes; rewrite Ep; set_solver|done|]. simplify_eq.
      rewrite Hd'. intros [= <-]. destruct Hq as [H1 H2 H3 H4 H5 H6]. split; try done.
      intros g gib Hg _. apply H2; [done|by intros [= ->]].
  - intros [= <-]. destruct Hq as [H1 H2 H3 H4 H5 H6]. split; try done.
    intros g gib Hg _ Eg. apply H2; [done| |done]. intros [= ->]. cbn in Eg. congruence.
Qed.
Lemma Run_log c p p' x : pool_inv None p -> log_inv None p -> Run fuel c p = Some (p', x) -> log_inv None p'.
Proof.
  intros Hi Hl. destruct (Run_spec fuel c p Hi) as (f & fib & q & -> & Hq & Hu & Hp & Ei & Efib & Hnf & Efl & Epe & Ese & Epo & Est & Elog & _).
  destruct (enter _ _ _ _ _ q) as [p1|] eqn:E; [|done]. intros [= H].
  replace p' with (afterStep false f p1).1 by (by rewrite H). clear H.
  assert (fibers q !! f = Some fib) as Ef by (by rewrite Efib, lookup_insert_eq).
  assert (acts_of (instance fib) (log p) = []) as Hnew.
  { apply acts_of_new. intros j a Hj. rewrite Ei. by eapply li_log. }
  refine (switch_log f fib [c] None false q p1 c Hq _ Ef Hu Hp _ _ E).
  - destruct Hl as [H1 H2 H3 H4 H5 H6].
    assert (forall g gib, g ∈ flying q -> fibers q !! g = Some gib ->
      (g = f /\ gib = fib) \/ (g <> f /\ g ∈ flying p /\ fibers p !! g = Some gib)) as Hback.
    { intros g gib. rewrite Efl, Efib. intros [Hg| ->%list_elem_of_singleton]%elem_of_app.
      - assert (g <> f) by (by intros ->). rewrite lookup_insert_ne by done. by right.
      - rewrite lookup_insert_eq. intros [= <-]. by left. }
    split; rewrite ?Est, ?Elog, ?Epe, ?Epo, ?Ese; try done.
    + intros i d [Hd|[Hlt Hd]]%lookup_app_Some.
      * destruct (H1 i d Hd) as [(g & gib & Hg & Eg & ?)|?]; [left|by right]. exists g, gib.
        assert (g <> f) by (by intros ->). rewrite Efl, Efib, lookup_insert_ne by done. set_solver.
      * left. exists f, fib. rewrite Efl. split_and!; [set_solver|done|]. rewrite Ei.
        apply list_lookup_singleton_Some in Hd as [? _]. lia.
    + intros g gib Hg Hr Eg. destruct (Hback g gib Hg Eg) as [[-> _]|(_ & Hg' & Eg')]; [done|].
      destruct (H2 g gib Hg' ltac:(done) Eg') as (d & n & s & Hd & ?). exists d, n, s.
      split; [|done]. by apply lookup_app_l_Some.
    + intros g gib Hg Eg. rewrite length_app. cbn. destruct (Hback g gib Hg Eg) as [[-> ->]|(_ & Hg' & Eg')]; [lia|].
      specialize (H3 g gib Hg' Eg'). lia.
    + intros g h fg fh Hg Hh Eg Eh Eq. destruct (Hback g fg Hg Eg) as [[-> ->]|(_ & Hg' & Eg')], (Hback h fh Hh Eh) as [[-> ->]|(_ & Hh' & Eh')];
        [done|specialize (H3 h fh Hh' Eh'); lia|specialize (H3 g fg Hg' Eg'); lia|by eapply H4].
    + intros i a Hin. rewrite length_app. specialize (H6 i a Hin). lia.
  - rewrite Est, Ei. by rewrite lookup_app_r, Nat.sub_diag by lia.
  - intros acts st Ex. exists 0%nat. rewrite Elog, Hnew. done.
Qed.

Lemma stop_loop_log evs : forall p p', pool_inv None p -> log_inv None p -> Forall told evs ->
  stop_loop fuel evs p = Some p' -> log_inv None p'.
Proof.
  induction evs as [|ev evs IH]; intros p p' Hi Hl Hc; cbn [stop_loop]; destruct (flying p); try by intros [= <-].
  apply Forall_cons in Hc as [Hev Hc]. destruct (loop_event fuel ev p) as [q|] eqn:E; [|done].
  apply IH; [by eapply loop_event_inv| |done]. destruct ev as [s res|]; cbn in *; [injection E as <-|by eapply turn_log].
  rewrite Hev. by apply settle_log.
Qed.
(** Unwinding one fiber ends its closure; the stragglers left count as flying. *)
Lemma unwind_one_log f l p p' : stops -> flying p = [] -> pool_inv None (set_lists (parked p) (f :: l) p) ->
  log_inv None (set_lists (parked p) (f :: l) p) -> unwind_one fuel f p = Some p' ->
  log_inv None (set_lists (parked p') l p').
Proof.
  intros Hs Hfl Hi Hl. unfold unwind_one. destruct (pi_suspended _ _ Hi f ltac:(by left) ltac:(done)) as (fib & Ef & _).
  cbn in Ef. rewrite Ef. destruct (exec _ _ _ _) as [[acts [e|]]|] eqn:Ex; [|done..]. intros [= <-].
  destruct (li_flying _ _ Hl f fib ltac:(by left) ltac:(done) Ef) as (c & n & s & Hc & Ha & _).
  pose proof (pi_flying _ _ Hi) as Hnd. cbn in Hnd. apply NoDup_cons in Hnd as [Hnf _].
  assert (log_inv (Some f) (set_lists (parked p) (f :: l) p)) as Hl'.
  { destruct Hl as [H1 H2 H3 H4 H5 H6]. split; try done. intros g gib Hg _. by apply H2. }
  destruct (switched f fib (unwound e fib) acts _ Hl' Ef ltac:(by left) eq_refl) as (S1 & S2 & S3 & S4 & S5).
  cbn in S1, S2, S3, S4, S5, Hc, Ha. assert (forall g, g ∈ l -> g <> f /\ g ∈ f :: l) as Hin by (intros g Hg; split; [by intros ->|by right]).
  split; cbn.
  - intros j d Hj. destruct (decide (j = instance fib)) as [->|Hne].
    + right. right. split; [done|]. rewrite acts_of_app, acts_of_same. exists n, s, (frames fib), (acts_of (instance fib) (log p)), acts, e.
      by simplify_eq.
    + destruct (S1 j d Hj Hne) as [(g & gib & [?|Hg]%elem_of_cons & Hgf & ?)|?]; [done|left; eauto|by right].
  - intros g gib [Hgf Hg]%Hin _ Eg. by apply S2.
  - intros g gib [Hgf Hg]%Hin. by apply S3.
  - intros g h fg fh [_ Hg]%Hin [_ Hh]%Hin. by apply S4.
  - apply (li_settled _ _ Hl).
  - exact S5.
Qed.
Lemma stragglers_log l : stops -> forall p p', flying p = [] -> pool_inv None (set_lists (parked p) l p) ->
  log_inv None (set_lists (parked p) l p) -> unwind_all fuel l p = Some p' -> log_inv None p'.
Proof.
  intros Hs. induction l as [|f l IH]; intros p p' Hfl Hi Hl; cbn [unwind_all].
  - intros [= <-]. destruct Hl as [H1 H2 H3 H4 H5 H6]. by split; cbn in *; rewrite ?Hfl.
  - destruct (unwind_one fuel f p) as [q|] eqn:E; [|done].
    destruct (unwind_one_inv _ _ _ _ _ Hfl Hi E) as (Hq & _ & Hi' & _). apply IH; [done|done|]. by apply (unwind_one_log f l p).
Qed.
Lemma Stop_log evs p p' : stops -> Forall told evs -> pool_inv None p -> log_inv None p -> Stop fuel evs p = Some p' -> log_inv None p'.
Proof.
  intros Hs He Hi Hl. unfold Stop. destruct (stop_loop fuel evs p) as [q|] eqn:E; [|done].
  pose proof (stop_loop_inv _ _ _ _ Hi E) as Hq. pose proof (stop_loop_log _ _ _ Hi Hl He E) as Hql.
  apply stragglers_log; [done|done|by destruct Hq|by destruct Hql].
Qed.
Lemma pool_events_log evs : forall p p', pool_inv None p -> log_inv None p -> Forall consistent evs ->
  pool_events fuel evs p = Some p' -> log_inv None p'.
Proof.
  induction evs as [|ev evs IH]; intros p p' Hi Hl Hc; cbn [pool_events]; [by intros [= <-]|].
  apply Forall_cons in Hc as [Hev Hc]. destruct (pool_event fuel ev p) as [q|] eqn:E; [|done].
  apply IH; [by eapply pool_event_inv| |done]. destruct ev as [c|[s res|]|es]; cbn in *; [|injection E as <-| |].
  - destruct (Run fuel c p) as [[q' x]|] eqn:Er; [|done]. injection E as <-. by eapply Run_log.
  - rewrite Hev. by apply settle_log.
  - by eapply turn_log.
  - destruct Hev as [Hs He]. by eapply Stop_log.
Qed.
Lemma pool_init_log n : log_inv None (pool_init n).
Proof. split; cbn; try done; by intros ? ? ?%elem_of_nil. Qed.
End alone_facts.

(** ** What the invariant says *)
Lemma wakes_once f l : NoDup l -> f ∈ l -> count_occ Nat.eq_dec l f = 1%nat.
Proof.
  intros Hn%NoDup_ListNoDup Hf%list_elem_of_In. by apply (NoDup_count_occ' Nat.eq_dec).
Qed.
(** The closures of a history. *)
Definition runs (evs : list PoolEvent) : list C := omap (fun ev => match ev with ERun c => Some c | _ => None end) evs.
Lemma switch_started fuel f fib fr e resumed p p1 : enter fuel f fib fr e p = Some p1 ->
  started (afterStep resumed f p1).1 = started p.
Proof.
  unfold enter. destruct (exec _ _ _ _) as [[acts st]|]; [|done]. intros H.
  assert (started p1 = started p) as <-.
  { destruct st; injection H as <-; [done|]. unfold await. cbn. by destruct (settled p !! s). }
  unfold afterStep. destruct (fibers p1 !! f) as [g|]; [|done].
  destruct (busy g), (unwind g), (exc g); try done; by destruct resumed.
Qed.
Lemma turn_started fuel p p' : turn fuel p = Some p' -> started p' = started p.
Proof.
  unfold turn. destruct (posted p) as [|[f e] rest]; [by intros [= <-]|].
  cbn [fibers set_queues]. destruct (fibers p !! f) as [fib|]; [|by intros [= <-]].
  destruct (has_pool fib); [|by intros [= <-]]. unfold resume.
  destruct (enter _ _ _ _ _ _) as [p1|] eqn:E; [|done]. intros [= <-]. by rewrite (switch_started _ _ _ _ _ true _ _ E).
Qed.
Lemma Stop_started fuel evs p p' : Stop fuel evs p = Some p' -> started p' = started p.
Proof.
  unfold Stop. destruct (stop_loop fuel evs p) as [q|] eqn:E; [|done].
  assert (started q = started p) as <-.
  { revert p E. induction evs as [|ev evs IH]; intros p; cbn [stop_loop]; destruct (flying p); try by intros [= <-].
    destruct (loop_event fuel ev p) as [p1|] eqn:E1; [|done]. intros H. rewrite (IH _ H).
    destruct ev as [s res|]; cbn in E1; [by injection E1 as <-|by eapply turn_started]. }
  change (started q) with (started (set_lists (parked q) [] q)). generalize (set_lists (parked q) [] q). clear E.
  induction (flying q) as [|f l IH]; intros r; cbn [unwind_all]; [by intros [= <-]|].
  destruct (unwind_one fuel f r) as [r'|] eqn:E; [|done]. intros H. rewrite (IH _ H). unfold unwind_one in E.
  destruct (fibers r !! f) as [fib|]; [|by injection E as <-].
  destruct (exec _ _ _ _) as [[acts [e|]]|]; [|done..]. by injection E as <-.
Qed.
Lemma event_started fuel ev p p' : pool_inv None p -> pool_event fuel ev p = Some p' ->
  started p' = started p ++ runs [ev].
Proof.
  intros Hi. destruct ev as [c|[s res|]|es]; cbn; [|intros [= <-]; by rewrite app_nil_r| |rewrite app_nil_r; by apply Stop_started].
  - destruct (Run_spec fuel c p Hi) as (f & fib & q & -> & _ & _ & _ & _ & _ & _ & _ & _ & _ & _ & <- & _).
    destruct (enter _ _ _ _ _ q) as [p1|] eqn:E; [|done]. pose proof (switch_started _ _ _ _ _ false _ _ E) as <-.
    destruct (afterStep false f p1). by intros [= <-].
  - rewrite app_nil_r. by apply turn_started.
Qed.
Lemma events_started fuel evs : forall p p', pool_inv None p ->
  pool_events fuel evs p = Some p' -> started p' = started p ++ runs evs.
Proof.
  induction evs as [|ev evs IH]; intros p p' Hi; cbn [pool_events]; [intros [= <-]; by rewrite app_nil_r|].
  destruct (pool_event fuel ev p) as [q|] eqn:E; [|done]. intros H.
  rewrite (IH q p' ltac:(by eapply pool_event_inv) H), (event_started _ _ _ _ Hi E), <- app_assoc.
  unfold runs. by rewrite <- omap_app.
Qed.
(** With nothing flying the event loop runs no code. *)
Lemma quiet_event fuel ev p p' : pool_inv None p -> flying p = [] -> loop_event fuel ev p = Some p' ->
  flying p' = [] /\ log p' = log p /\ errors p' = errors p.
Proof.
  intros Hi Hf. destruct ev as [s res|]; cbn; [by intros [= <-]|]. unfold turn.
  destruct (posted p) as [|[f e] rest] eqn:Ep; [by intros [= <-]|]. cbn [fibers set_queues].
  destruct (pi_targets _ _ Hi f) as [Hfl|(fib & -> & ->)]; [unfold wakes; rewrite Ep; set_solver| |by intros [= <-]].
  rewrite Hf in Hfl. by apply elem_of_nil in Hfl.
Qed.
Fixpoint loop_events (fuel : nat) (evs : list LoopEvent) (p : Pool C A) : option (Pool C A) :=
  match evs with
  | [] => Some p
  | ev :: evs => match loop_event fuel ev p with Some p => loop_events fuel evs p | None => None end
  end.
Lemma quiet_events fuel evs : forall p p', pool_inv None p -> flying p = [] -> loop_events fuel evs p = Some p' ->
  flying p' = [] /\ log p' = log p /\ errors p' = errors p.
Proof.
  induction evs as [|ev evs IH]; intros p p' Hi Hf; cbn [loop_events]; [by intros [= <-]|].
  destruct (loop_event fuel ev p) as [q|] eqn:E; [|done]. intros H.
  destruct (quiet_event _ _ _ _ Hi Hf E) as (Hq & <- & <-). by apply (IH q p' ltac:(by eapply loop_event_inv) Hq).
Qed.
(** What unwinding the stragglers adds to the log. *)
Fixpoint unwound_acts (fuel : nat) (l : list nat) (p : Pool C A) : list (nat * A) :=
  match l with
  | [] => []
  | f :: l =>
      match fibers p !! f with
      | Some fib => match exec fuel true (frames fib) (Some ForcedShutdown) with
                    | Some (acts, _) => map (pair (instance fib)) acts
                    | None => []
                    end
      | None => []
      end ++ unwound_acts fuel l p
  end.
Lemma unwound_acts_other fuel f x l p : f ∉ l -> unwound_acts fuel l (set_fib f x p) = unwound_acts fuel l p.
Proof.
  induction l as [|g l IH]; [done|]. intros [Hn Hl]%not_elem_of_cons. cbn [unwound_acts fibers set_fib].
  by rewrite lookup_insert_ne, IH by done.
Qed.
Lemma unwound_acts_log fuel i acts l p : unwound_acts fuel l (add_log i acts p) = unwound_acts fuel l p.
Proof. induction l as [|g l IH]; [done|]. cbn. by rewrite IH. Qed.
Lemma unwound_acts_lists fuel l pk fl p : unwound_acts fuel l (set_lists pk fl p) = unwound_acts fuel l p.
Proof. induction l as [|g l IH]; [done|]. cbn. by rewrite IH. Qed.
Lemma unwind_all_log fuel l : forall p p', NoDup l -> unwind_all fuel l p = Some p' ->
  log p' = log p ++ unwound_acts fuel l p /\ errors p' = errors p /\ posted p' = posted p.
Proof.
  induction l as [|f l IH]; intros p p' Hnd; cbn [unwind_all unwound_acts]; [intros [= <-]; by rewrite app_nil_r|].
  apply NoDup_cons in Hnd as [Hf Hnd]. unfold unwind_one. destruct (fibers p !! f) as [fib|]; [|cbn; by apply IH].
  destruct (exec _ _ _ _) as [[acts [e|]]|]; [|done..]. intros H. destruct (IH _ _ Hnd H) as (-> & -> & ->).
  rewrite unwound_acts_other, unwound_acts_log by done. split_and!; [|done..]. cbn. by rewrite <- app_assoc.
Qed.

(** ** Fuel: closures that start no others and end when unwound *)
Section simple.
Hypothesis no_calls : forall c e acts inner c', run c e <> (acts, Calls inner c').
Hypothesis dies : forall c, exists acts e, run c (Some ForcedShutdown) = (acts, Done e).
Definition short (p : Pool C A) : Prop := forall f fib, fibers p !! f = Some fib -> (length (frames fib) <= 1)%nat.

Lemma exec_simple fr e : (length fr <= 1)%nat -> exists acts st, exec 2 false fr e = Some (acts, st) /\
  forall s fr', st = Suspended s fr' -> (length fr' <= 1)%nat.
Proof.
  destruct fr as [|c [|? ?]]; cbn; [intros _; eexists _, _; by split|intros _|lia]. destruct (run c e) as [acts sl] eqn:Er.
  destruct sl as [e'|s c'|inner c']; [eexists _, _; by split| |by apply no_calls in Er].
  eexists _, _. split; [done|]. intros ? ? [= <- <-]. cbn. lia.
Qed.
Lemma short_insert f fib p fs : short p -> (length (frames fib) <= 1)%nat -> fibers fs = <[f := fib]> (fibers p) -> short fs.
Proof. intros Hs Hf E g gib. rewrite E. intros [[<- <-]|[_ ?]]%lookup_insert_Some; [done|by eapply Hs]. Qed.
Lemma enter_simple f fib fr e resumed p : short p -> unwind fib = false -> has_pool fib = true -> (length fr <= 1)%nat ->
  exists p', enter 2 f fib fr e p = Some p' /\ short (afterStep resumed f p').1.
Proof.
  intros Hs Hu Hp Hl. destruct (exec_simple fr e Hl) as (acts & st & Ex & Hst).
  assert (exists p', enter 2 f fib fr e p = Some p') as [p' E].
  { unfold enter. rewrite Ex. destruct st; eauto. }
  exists p'. split; [done|]. destruct (switch_spec _ _ _ _ _ resumed _ _ Hu Hp E) as (acts' & st' & Ex' & ->).
  rewrite Ex in Ex'. injection Ex' as <- <-. destruct st as [e'|s fr'].
  - eapply (short_insert f (ended fib p) p); [done|cbn; lia|]. by destruct e' as [[|m]|], resumed.
  - eapply (short_insert f (waits fib fr') p); [done|by eapply Hst|]. cbn. unfold await. cbn. by destruct (settled p !! s).
Qed.
Lemma loop_event_total ev p : pool_inv None p -> short p -> exists p', loop_event 2 ev p = Some p' /\ short p'.
Proof.
  intros Hi Hs. destruct ev as [s res|]; cbn; [by eexists|]. unfold turn.
  destruct (posted p) as [|[f e] rest] eqn:Ep; [by eexists|]. cbn [fibers set_queues].
  destruct (pi_targets _ _ Hi f) as [Hf|(fib & -> & ->)]; [unfold wakes; rewrite Ep; set_solver| |by eexists].
  destruct (pi_suspended _ _ Hi f Hf) as (fib & Ef & _ & Hu & _ & Hp & _); [done|]. rewrite Ef, Hp. unfold resume.
  destruct (enter_simple f fib (frames fib) e true (set_queues (pending p) rest p) Hs Hu Hp) as (p' & -> & Hp'); [by eapply Hs|].
  by eexists.
Qed.
Lemma stop_loop_total evs : forall p, pool_inv None p -> short p -> exists p', stop_loop 2 evs p = Some p' /\ short p'.
Proof.
  induction evs as [|ev evs IH]; intros p Hi Hs; cbn [stop_loop]; destruct (flying p); try by eexists.
  destruct (loop_event_total ev p Hi Hs) as (q & E & Hq). rewrite E. apply IH; [by eapply loop_event_inv|done].
Qed.
Lemma unwind_all_total l : forall p, short p -> exists p', unwind_all 2 l p = Some p' /\ short p'.
Proof.
  induction l as [|f l IH]; intros p Hs; cbn [unwind_all]; [by eexists|]. unfold unwind_one.
  destruct (fibers p !! f) as [fib|] eqn:Ef; [|by apply IH].
  assert (exists acts e, exec 2 true (frames fib) (Some ForcedShutdown) = Some (acts, Finished e)) as (acts & e & ->).
  { specialize (Hs f fib Ef). destruct (frames fib) as [|c [|? ?]]; cbn in *; [eauto| |lia].
    destruct (dies c) as (acts & e & ->). eauto. }
  apply IH. eapply (short_insert f (unwound e fib) p); [done|cbn; lia|done].
Qed.
Lemma pool_event_total ev p : pool_inv None p -> short p -> exists p', pool_event 2 ev p = Some p' /\ short p'.
Proof.
  intros Hi Hs. destruct ev as [c|ev|evs]; cbn [pool_event].
  - destruct (Run_spec 2 c p Hi) as (f & fib & q & -> & _ & Hu & Hp & _ & Eq & _ & _ & _ & _ & _ & _ & _ & _ & Hf0).
    assert (length (frames fib) <= 1)%nat as Hfr by (rewrite Hf0; cbn; lia).
    assert (short q) as Hq by (by eapply (short_insert f fib p)).
    destruct (enter_simple f fib [c] None false q Hq Hu Hp) as (p1 & E & Hs1); [cbn; lia|]. rewrite E.
    destruct (afterStep false f p1) as [p2 x]. by exists p2.
  - by apply loop_event_total.
  - unfold Stop. destruct (stop_loop_total evs p Hi Hs) as (q & E & Hq). rewrite E. by apply unwind_all_total.
Qed.
Lemma pool_events_total evs : forall p, pool_inv None p -> short p -> exists p', pool_events 2 evs p = Some p' /\ short p'.
Proof.
  induction evs as [|ev evs IH]; intros p Hi Hs; cbn [pool_events]; [by eexists|].
  destruct (pool_event_total ev p Hi Hs) as (q & E & Hq). rewrite E. apply IH; [by eapply pool_event_inv|done].
Qed.
End simple.
End fibers.

(** A closure for the witnesses: it does 1, awaits future 7, does 2 or, if the
    await throws, 9 and rethrows. *)
Definition sample_run (c : nat) (e : option exn) : list nat * Slice nat :=
  match c, e with
  | _, Some e => ([9%nat], Done (Some e))
  | O, None => ([1%nat], Waiting 7 1%nat)
  | _, None => ([2%nat], Done None)
  end.
Lemma sample_no_calls c e acts inner c' : sample_run c e <> (acts, Calls inner c').
Proof. destruct c, e; discriminate. Qed.
Definition sample_events : list (PoolEvent (C := nat)) :=
  [ERun 0%nat; ERun 0%nat; ELoop (Settle 7 None); ELoop Turn; ELoop Turn].

(** * Properties *)

(** C12: in every history of a pool - closures run, futures settled, the event
    loop turned, the pool stopped - parked fibers are idle, clean and at most as
    many as the pool keeps; every flying fiber is suspended in an await, clean,
    and has exactly one wake-up registered or queued; so a pool with no wake-up
    outstanding has no closure left behind, and a queued wake-up never enters a
    fiber that is idle or was reused. *)
Theorem fiber_pool_invariant (C A : Type) (run : C -> option exn -> list A * Slice C) fuel pooled evs p :
  pool_events run fuel evs (pool_init pooled) = Some p ->
  NoDup (parked p) /\ NoDup (flying p) /\ (length (parked p) <= pooledFibers p)%nat /\
  (forall f, f ∈ parked p -> f ∉ flying p /\ f ∉ wakes p /\ idle_fib p f) /\
  (forall f, f ∈ flying p -> suspended_fib p f /\ count_occ Nat.eq_dec (wakes p) f = 1%nat) /\
  (pending p = [] -> posted p = [] -> flying p = []) /\
  (forall f, f ∈ wakes p -> f ∉ flying p -> dead_fib p f).
Proof.
  intros H. pose proof (pool_events_inv run fuel evs _ _ (pool_init_inv pooled) H) as [H1 H2 H3 H4 H5 H6 H7 H8 H9 H10 H11].
  split_and!; try done.
  - intros f Hf. split_and!; [by apply H4| |by apply H5]. intros Hw.
    destruct (H10 f Hw) as [|(fib & E & Hd)]; [by eapply H4|]. destruct (H5 f Hf) as (fib' & E' & _ & _ & _ & Hp & _). congruence.
  - intros f Hf. split; [by apply H6|]. apply wakes_once; [done|by apply H8].
  - intros Hp Hq. destruct (flying p) as [|f l] eqn:E; [done|]. specialize (H8 f ltac:(by left) ltac:(done)).
    unfold wakes in H8. rewrite Hp, Hq in H8. by apply elem_of_nil in H8.
  - intros f Hw Hn. by destruct (H10 f Hw).
Qed.
Lemma fiber_pool_invariant_witness : exists p,
  pool_events sample_run 2 (sample_events ++ [ERun 0%nat]) (pool_init 1) = Some p /\ parked p = [] /\ flying p = [0%nat].
Proof.
  eexists. split; [vm_compute; reflexivity|].
  destruct (fiber_pool_invariant nat nat sample_run 2 1 (sample_events ++ [ERun 0%nat]) _ ltac:(vm_compute; reflexivity)) as [_ _].
  by split.
Defined.

(** C11: closures do not disturb each other: whatever is interleaved - other closures,
    turns of the event loop, futures settling, [Stop] at any time -, as long as each
    future gives the one result the oracle has for it, each closure given to the pool
    has done exactly what it does alone up to some await, those results coming from
    its futures; once nothing is outstanding each has run to its end; and when the
    pool was stopped, a closure may instead have been unwound: it did what it does
    alone up to some await, and then what it does with the shutdown thrown there. *)
Theorem closures_run_alone (C A : Type) (run : C -> option exn -> list A * Slice C) fuel oracle pooled evs p :
  Forall (consistent oracle True) evs -> pool_events run fuel evs (pool_init pooled) = Some p ->
  started p = runs evs /\
  forall i c, started p !! i = Some c ->
    (exists n st, alone run fuel oracle n c = Some (acts_of i (log p), st) /\
      (pending p = [] -> posted p = [] -> exists e, st = Finished e)) \/
    ((exists events, EStop events ∈ evs) /\
     exists n s frames before more e, alone run fuel oracle n c = Some (before, Suspended s frames) /\
       exec run fuel true frames (Some ForcedShutdown) = Some (more, Finished e) /\ acts_of i (log p) = before ++ more).
Proof.
  intros Hc H. pose proof (pool_events_inv run fuel evs _ _ (pool_init_inv pooled) H) as Hi.
  assert (Forall (consistent oracle (exists events, EStop events ∈ evs)) evs) as Hc'.
  { rewrite Forall_forall in Hc |- *. intros [c|ev|es] Hin; specialize (Hc _ Hin); cbn in *; [done|done|]. split; [by exists es|apply Hc]. }
  pose proof (pool_events_log run fuel oracle _ evs _ _ (pool_init_inv pooled) (pool_init_log run fuel oracle _ pooled) Hc' H) as Hl.
  split; [by rewrite (events_started run fuel evs _ _ (pool_init_inv pooled) H)|]. intros i c Hs.
  destruct (li_ended _ _ _ _ _ _ Hl i c Hs) as [(f & fib & Hf & Ef & <-)|[(n & e & Ha)|[Hst Hcut]]]; [left|left; by eauto|by right].
  destruct (li_flying _ _ _ _ _ _ Hl f fib Hf ltac:(done) Ef) as (c' & n & s & Hs' & Ha & _). simplify_eq.
  exists n, (Suspended s (frames fib)). split; [done|]. intros Hp Hq.
  pose proof (pi_awake _ _ Hi f Hf ltac:(done)) as Hw. unfold wakes in Hw. rewrite Hp, Hq in Hw. by apply elem_of_nil in Hw.
Qed.
Lemma closures_run_alone_witness : exists p, pool_events sample_run 2 (sample_events ++ [ERun 0%nat; EStop []]) (pool_init 1) = Some p /\
  acts_of 2 (log p) = [1; 9]%nat /\
  forall i c, started p !! i = Some c ->
    (exists n st, alone sample_run 2 (fun _ => None) n c = Some (acts_of i (log p), st)) \/ cut_short sample_run 2 (fun _ => None) c (acts_of i (log p)).
Proof.
  eexists. split; [vm_compute; reflexivity|]. split; [vm_compute; reflexivity|]. intros i c Hi.
  destruct (closures_run_alone nat nat sample_run 2 (fun _ => None) 1 (sample_events ++ [ERun 0%nat; EStop []]) _
    ltac:(repeat constructor) ltac:(vm_compute; reflexivity)) as [_ H].
  destruct (H i c Hi) as [(n & st & Ha & _)|[_ Hcut]]; [left; by exists n, st|right; exact Hcut].
Defined.

(** C13: stopping a pool, at the latest at the deadline, ends every closure: for
    closures that start no others and do not resist [ForcedShutdown] the call
    returns, nothing flies afterwards, each straggler has been entered once with
    [ForcedShutdown] at its await, and whatever futures settle and however the
    event loop turns later, no code of any closure runs again and nothing is
    reported. *)
Theorem Stop_ends_closures (C A : Type) (run : C -> option exn -> list A * Slice C) pooled evs events :
  (forall c e acts inner c', run c e <> (acts, Calls inner c')) ->
  (forall c, exists acts e, run c (Some ForcedShutdown) = (acts, Done e)) ->
  exists p q p', pool_events run 2 evs (pool_init pooled) = Some p /\ stop_loop run 2 events p = Some q /\
    Stop run 2 events p = Some p' /\
    flying p' = [] /\ log p' = log q ++ unwound_acts run 2 (flying q) q /\ errors p' = errors q /\
    forall later p'', loop_events run 2 later p' = Some p'' -> log p'' = log p' /\ errors p'' = errors p' /\ flying p'' = [].
Proof.
  intros Hn Hd. assert (short (pool_init (C := C) (A := A) pooled)) as H0 by (intros f fib; cbn; by rewrite lookup_empty).
  destruct (pool_events_total run Hn Hd evs _ (pool_init_inv pooled) H0) as (p & E & Hs).
  pose proof (pool_events_inv run 2 evs _ _ (pool_init_inv pooled) E) as Hi.
  destruct (stop_loop_total run Hn Hd events p Hi Hs) as (q & Eq & Hq).
  destruct (unwind_all_total run Hd (flying q) (set_lists (parked q) [] q) Hq) as (p' & Ep & _).
  assert (Stop run 2 events p = Some p') as Es by (unfold Stop; by rewrite Eq).
  destruct (Stop_inv run _ _ _ _ Hi Es) as [Hf Hi'].
  destruct (unwind_all_log run 2 (flying q) _ _ (pi_flying _ _ (stop_loop_inv run _ _ _ _ Hi Eq)) Ep) as (El & Ee & _).
  rewrite unwound_acts_lists in El.
  exists p, q, p'. split_and!; try done. intros later p'' Hl. by destruct (quiet_events run _ _ _ _ Hi' Hf Hl) as (? & ? & ?).
Qed.
Lemma Stop_ends_closures_witness : exists p q p',
  pool_events sample_run 2 [ERun 0%nat; ERun 0%nat] (pool_init 1) = Some p /\
  stop_loop sample_run 2 [Settle 8 None; Turn] p = Some q /\
  Stop sample_run 2 [Settle 8 None; Turn] p = Some p' /\ flying p' = [].
Proof.
  destruct (Stop_ends_closures nat nat sample_run 1 [ERun 0%nat; ERun 0%nat] [Settle 8 None; Turn]) as (p & q & p' & H1 & H2 & H3 & H4 & _).
  - intros c e acts inner c'. apply sample_no_calls.
  - intros c. destruct c; cbn; eauto.
  - by exists p, q, p'.
Defined.

(** Errors of closures go where they belong: [Run] throws to its caller what
    the closure throws before its first await and logs nothing; after an await the
    same error is logged by the event loop and thrown to no one;
    [ForcedShutdown] is neither thrown nor logged.  Either way the fiber that
    ended flies no more. *)
Theorem closure_errors (C A : Type) (run : C -> option exn -> list A * Slice C) fuel pooled evs p c p' x :
  pool_events run fuel evs (pool_init pooled) = Some p ->
  let thrown st := match st with Finished (Some (Err m)) => Some m | _ => None end in
  (Run run fuel c p = Some (p', x) ->
   exists acts st, exec run fuel false [c] None = Some (acts, st) /\ x = Err <$> thrown st /\ errors p' = errors p /\
     log p' = log p ++ map (pair (length (started p))) acts /\
     length (flying p') = (length (flying p) + match st with Finished _ => 0 | Suspended _ _ => 1 end)%nat) /\
  (forall f e rest fib, posted p = (f, e) :: rest -> f ∈ flying p -> fibers p !! f = Some fib -> turn run fuel p = Some p' ->
   exists acts st, exec run fuel false (frames fib) e = Some (acts, st) /\
     errors p' = errors p ++ match thrown st with Some m => [m] | None => [] end /\
     log p' = log p ++ map (pair (instance fib)) acts /\
     (f ∈ flying p' <-> exists s fr, st = Suspended s fr)).
Proof.
  intros H thrown. pose proof (pool_events_inv run fuel evs _ _ (pool_init_inv pooled) H) as Hi. split.
  - destruct (Run_spec run fuel c p Hi) as (f & fib & q & -> & Hq & Hu & Hp & Ei & _ & Hnf & Efl & _ & _ & _ & _ & Elog & Eerr & _).
    destruct (enter _ _ _ _ _ _ q) as [p1|] eqn:E; [|done]. intros [= Ea].
    destruct (switch_spec run _ _ _ _ _ false _ _ Hu Hp E) as (acts & st & Ex & Es). exists acts, st. split; [done|].
    rewrite Es in Ea. destruct st as [e'|s fr'].
    + assert (flying p' = List.filter (fun g => negb (g =? f)%nat) (flying q) /\ errors p' = errors q /\
        log p' = log q ++ map (pair (instance fib)) acts /\ x = Err <$> thrown (Finished (C := C) e')) as (Hfl & -> & -> & ->).
      { by destruct e' as [[|m]|]; cbn in Ea; injection Ea as <- <-. }
      split_and!; [done|done|by rewrite Elog, Ei|]. rewrite Hfl, Efl, List.filter_app. cbn. rewrite Nat.eqb_refl. cbn.
      rewrite app_nil_r, forallb_filter_id; [lia|]. apply forallb_forall. intros g Hg%list_elem_of_In.
      destruct (Nat.eqb_spec g f) as [->|]; done.
    + injection Ea as <- <-. split_and!; [done|..]; unfold await; destruct (settled _ !! s); cbn;
        rewrite ?Efl, ?Elog, ?Ei, ?length_app; done || (cbn; lia).
  - intros f e rest fib Ep Hf Ef. unfold turn. rewrite Ep. cbn [fibers set_queues]. rewrite Ef.
    destruct (pi_suspended _ _ Hi f Hf) as (fib' & Ef' & _ & Hu & _ & Hp & _); [done|]. simplify_eq. rewrite Hp. unfold resume.
    destruct (enter _ _ _ _ _ _ _) as [p1|] eqn:E; [|done]. intros [= <-].
    destruct (switch_spec run _ _ _ _ _ true _ _ Hu Hp E) as (acts & st & Ex & ->). exists acts, st. split; [done|].
    destruct st as [e'|s fr'].
    + assert (forall g, g ∈ flying (reported true e' (set_fib f (ended fib p) (returnFiber f
        (add_log (instance fib) acts (set_queues (pending p) rest p))))).1 <-> g ∈ flying p /\ g <> f) as Hfl.
      { intros g. rewrite <- in_flying_left. by destruct e' as [[|m]|]. }
      split_and!; [by destruct e' as [[|m]|]; cbn; rewrite ?app_nil_r|by destruct e' as [[|m]|]|].
      rewrite Hfl. naive_solver.
    + split_and!; unfold await; destruct (settled _ !! s); cbn; rewrite ?app_nil_r; naive_solver.
Qed.
Lemma closure_errors_witness : exists p p', 
  pool_events sample_run 2 [ERun 0%nat; ELoop (Settle 7 (Some (Err "x")))] (pool_init 1) = Some p /\
  turn sample_run 2 p = Some p' /\ errors p' = ["x"].
Proof.
  eexists _, _. split; [vm_compute; reflexivity|]. split; [vm_compute; reflexivity|].
  edestruct (closure_errors nat nat sample_run 2 1 [ERun 0%nat; ELoop (Settle 7 (Some (Err "x")))]) as [_ H];
    [vm_compute; reflexivity|].
  edestruct H as (acts & st & Ex & Ee & _); [vm_compute; reflexivity|by left|vm_compute; reflexivity..|].
  vm_compute in Ex. injection Ex as <- <-. exact Ee.
  Unshelve. all: exact 0%nat || exact None.
Defined.
