(* ===== verification/Functions.v ===== *)
(** * Values and functions of Lua held by C++: [src/value.cpp], [include/radapter/value.hpp],
      [src/function.cpp], [include/radapter/async_helpers.hpp], [src/fibers.cpp]

    Module [Values]: a [LuaValue] owns an entry of Lua's registry; copies, moves,
    assignments and destruction keep entry and owner one to one.  Module [Calls]: how
    a call into Lua ends, and how that end reaches whoever waits for it - a log line,
    a promise, a callback, a fiber - with the exceptions of [Fibers]. *)
From S2P Require Import Prelude QVariant Fibers.
Set Warnings "-register-all".

Module Values.
(** [luaL_ref]: a key of the registry that is not in use; nil has a key of its own. *)
Definition LUA_NOREF : Z := -2.
Definition LUA_REFNIL : Z := -1.
Class RegistryOps (V : Type) := { unused : gmap Z V -> Z }.
Class RegistryLaws (V : Type) (R : RegistryOps V) : Prop := {
  unused_positive : forall reg, 0 < unused reg;
  unused_free : forall reg, reg !! unused reg = None
}.
(** A [LuaValue]: [has_L] says that [_L] is not null. *)
Record LuaValue := { has_L : bool; ref : Z }.
Record Heap {V : Type} := { registry : gmap Z V; handles : gmap nat LuaValue }.
Arguments Heap : clear implicits.

Section values.
Context {V : Type} {R : RegistryOps V}.
(** Values are [option V]: [None] is nil. *)
Definition luaL_ref (v : option V) (reg : gmap Z V) : Z * gmap Z V :=
  match v with
  | None => (LUA_REFNIL, reg)
  | Some v => let r := unused reg in (r, <[r := v]> reg)
  end.
Definition luaL_unref (r : Z) (reg : gmap Z V) : gmap Z V := if 0 <=? r then delete r reg else reg.
Definition lua_rawgeti (r : Z) (reg : gmap Z V) : option V := reg !! r.
Definition valid (v : LuaValue) : bool := (has_L v && negb (ref v =? LUA_NOREF))%bool.
Definition equal (a b : LuaValue) : bool := ref a =? ref b.      (* operator== *)
Definition set_handle (h : nat) (v : LuaValue) (st : Heap V) : Heap V := {| registry := registry st; handles := <[h := v]> (handles st) |}.
(** The constructors that take a value off a stack. *)
Definition attach (h : nat) (v : option V) (st : Heap V) : Heap V :=
  let '(r, reg) := luaL_ref v (registry st) in
  {| registry := reg; handles := <[h := {| has_L := true; ref := r |}]> (handles st) |}.
Definition of_registry (h : nat) (r : Z) (st : Heap V) : Heap V := attach h (lua_rawgeti r (registry st)) st.
Definition empty_value : LuaValue := {| has_L := false; ref := LUA_NOREF |}.
Definition copy (h : nat) (o : LuaValue) (st : Heap V) : Heap V :=
  if valid o then attach h (lua_rawgeti (ref o) (registry st)) st
  else set_handle h {| has_L := has_L o; ref := LUA_NOREF |} st.
(** [~LuaValue]. *)
Definition destruct_ (h : nat) (v : LuaValue) (st : Heap V) : Heap V :=
  set_handle h empty_value
    {| registry := if has_L v then luaL_unref (ref v) (registry st) else registry st; handles := handles st |}.
Definition assign (h : nat) (v : LuaValue) (from : nat) (o : LuaValue) (st : Heap V) : Heap V :=
  if (h =? from)%nat then st
  else
    let st := destruct_ h v st in
    if valid o then attach h (lua_rawgeti (ref o) (registry st)) st else st.
Definition move (h from : nat) (o : LuaValue) (st : Heap V) : Heap V :=
  set_handle from {| has_L := false; ref := ref o |} (set_handle h o st).
Definition move_assign (h : nat) (v : LuaValue) (from : nat) (o : LuaValue) (st : Heap V) : Heap V :=
  if (h =? from)%nat then st else move h from o (destruct_ h v st).
Definition Push (v : LuaValue) (st : Heap V) : option V := lua_rawgeti (ref v) (registry st).

(** ** Everything that happens to handles *)
Inductive Op :=
| New (h : nat)
| FromStack (h : nat) (v : option V)
| FromRef (h : nat) (r : Z)
| CopyNew (h from : nat)
| MoveNew (h from : nat)
| Assign (h from : nat)
| MoveAssign (h from : nat)
| Drop (h : nat).
(** Objects are constructed where none lives, and used while they live. *)
Definition step (op : Op) (st : Heap V) : Heap V :=
  let fresh_at h k := match handles st !! h with None => k | Some _ => st end in
  let live h k := match handles st !! h with Some v => k v | None => st end in
  match op with
  | New h => fresh_at h (set_handle h empty_value st)
  | FromStack h v => fresh_at h (attach h v st)
  | FromRef h r => fresh_at h (of_registry h r st)
  | CopyNew h from => fresh_at h (live from (fun o => copy h o st))
  | MoveNew h from => fresh_at h (live from (fun o => move h from o st))
  | Assign h from => live h (fun v => live from (fun o => assign h v from o st))
  | MoveAssign h from => live h (fun v => live from (fun o => move_assign h v from o st))
  | Drop h => live h (fun v => {| registry := registry (destruct_ h v st); handles := delete h (handles st) |})
  end.
Definition steps (ops : list Op) (st : Heap V) : Heap V := fold_left (fun st op => step op st) ops st.

(** ** The abstract store: a handle holds a value, or nothing *)
Notation Store := (gmap nat (option (option V))).
(** [reads]: what the registry entry a handle is made from holds. *)
Definition spec (reads : Z -> option V) (op : Op) (s : Store) : Store :=
  let fresh_at h k := match s !! h with None => k | Some _ => s end in
  let live h k := match s !! h with Some v => k v | None => s end in
  match op with
  | New h => fresh_at h (<[h := None]> s)
  | FromStack h v => fresh_at h (<[h := Some v]> s)
  | FromRef h r => fresh_at h (<[h := Some (reads r)]> s)
  | CopyNew h from => fresh_at h (live from (fun o => <[h := o]> s))
  | MoveNew h from => fresh_at h (live from (fun o => <[from := None]> (<[h := o]> s)))
  | Assign h from => live h (fun _ => live from (fun o => <[h := o]> s))
  | MoveAssign h from => live h (fun _ => live from (fun o => if (h =? from)%nat then s else <[from := None]> (<[h := o]> s)))
  | Drop h => live h (fun _ => delete h s)
  end.
Definition holds (v : LuaValue) (reg : gmap Z V) : option (option V) := if valid v then Some (lua_rawgeti (ref v) reg) else None.
Definition store_of (st : Heap V) : Store := (fun v => holds v (registry st)) <$> handles st.
End values.

(** ** Ownership *)
Section ownership.
Context {V : Type} {R : RegistryOps V} {RL : RegistryLaws V R} (base : gmap Z V).
Definition owns (v : LuaValue) (r : Z) : Prop := has_L v = true /\ ref v = r /\ 0 <= r.
#[local] Instance owns_dec v r : Decision (owns v r). Proof. unfold owns. apply _. Defined.
(** [base] is what others keep in the registry. *)
Record owned (st : Heap V) : Prop := {
  own_entry : forall h v r, handles st !! h = Some v -> owns v r -> base !! r = None /\ is_Some (registry st !! r);
  own_once : forall h h' v v' r, handles st !! h = Some v -> handles st !! h' = Some v' -> owns v r -> owns v' r -> h = h';
  own_rest : forall r, (forall h v, handles st !! h = Some v -> ~ owns v r) -> registry st !! r = base !! r;
  own_nil : forall h v, handles st !! h = Some v -> has_L v = true -> ref v = LUA_NOREF \/ ref v = LUA_REFNIL \/ 0 <= ref v
}.
Lemma owns_empty r : ~ owns empty_value r. Proof. by intros [? _]. Qed.
Lemma owned_attach h v st : owned st -> (forall w r, handles st !! h = Some w -> ~ owns w r) -> owned (attach h v st).
Proof.
  intros [H1 H2 H3 H4] Hh. unfold attach, luaL_ref. destruct v as [x|].
  - set (r0 := unused (registry st)). assert (registry st !! r0 = None) as Hf by apply unused_free.
    assert (0 < r0) as Hpos by apply unused_positive.
    assert (forall h' v', handles st !! h' = Some v' -> ~ owns v' r0) as Hfree.
    { intros h' v' E Ho. destruct (H1 h' v' r0 E Ho) as [_ [? ?]]. congruence. }
    split; cbn.
    + intros h' v' r. destruct (decide (h' = h)) as [->|]; [rewrite lookup_insert_eq; intros [= <-] (_ & <- & _); cbn|rewrite lookup_insert_ne by done; intros E Ho].
      * split; [by rewrite <- H3|]. by rewrite lookup_insert_eq.
      * destruct (H1 h' v' r E Ho). split; [done|]. destruct (decide (r = r0)) as [->|]; [by rewrite lookup_insert_eq|by rewrite lookup_insert_ne].
    + intros h1 h2 v1 v2 r. destruct (decide (h1 = h)) as [->|], (decide (h2 = h)) as [->|]; rewrite ?lookup_insert_eq, ?lookup_insert_ne by done; try done.
      * intros [= <-] E (_ & <- & _) Ho. by destruct (Hfree h2 v2 E).
      * intros E [= <-] Ho (_ & <- & _). by destruct (Hfree h1 v1 E).
      * apply H2.
    + intros r Hr. destruct (decide (r = r0)) as [->|Hne].
      * exfalso. apply (Hr h {| has_L := true; ref := r0 |}); [apply lookup_insert_eq|]. repeat split. lia.
      * rewrite lookup_insert_ne by done. apply H3. intros h' v' E Ho. destruct (decide (h' = h)) as [->|]; [by apply (Hh v' r)|].
        apply (Hr h' v'); [by rewrite lookup_insert_ne|done].
    + intros h' v'. destruct (decide (h' = h)) as [->|]; [rewrite lookup_insert_eq; intros [= <-] _; cbn; lia|rewrite lookup_insert_ne by done; apply H4].
  - assert (forall r, ~ owns {| has_L := true; ref := LUA_REFNIL |} r) as Hn by (intros r (_ & E & ?); cbn in E; unfold LUA_REFNIL in E; lia).
    split; cbn.
    + intros h' v' r. destruct (decide (h' = h)) as [->|]; [rewrite lookup_insert_eq; intros [= <-] Ho; by destruct (Hn r)|rewrite lookup_insert_ne by done; apply H1].
    + intros h1 h2 v1 v2 r. destruct (decide (h1 = h)) as [->|], (decide (h2 = h)) as [->|]; rewrite ?lookup_insert_eq, ?lookup_insert_ne by done; try done.
      * intros [= <-] _ Ho. by destruct (Hn r).
      * intros _ [= <-] _ Ho. by destruct (Hn r).
      * apply H2.
    + intros r Hr. apply H3. intros h' v' E Ho. destruct (decide (h' = h)) as [->|]; [by apply (Hh v' r)|].
      apply (Hr h' v'); [by rewrite lookup_insert_ne|done].
    + intros h' v'. destruct (decide (h' = h)) as [->|]; [rewrite lookup_insert_eq; intros [= <-] _; cbn; auto|rewrite lookup_insert_ne by done; apply H4].
Qed.
Lemma owned_set h w st : owned st -> (forall v r, handles st !! h = Some v -> ~ owns v r) -> has_L w = false \/ ref w = LUA_NOREF -> owned (set_handle h w st).
Proof.
  intros [H1 H2 H3 H4] Hh Hw. assert (forall r, ~ owns w r) as Hn by (intros r (E1 & E2 & ?); destruct Hw as [|Ew]; [congruence|unfold LUA_NOREF in Ew; lia]).
  split; cbn.
  - intros h' v r. destruct (decide (h' = h)) as [->|]; [rewrite lookup_insert_eq; intros [= <-] Ho; by destruct (Hn r)|rewrite lookup_insert_ne by done; apply H1].
  - intros h1 h2 v1 v2 r. destruct (decide (h1 = h)) as [->|], (decide (h2 = h)) as [->|]; rewrite ?lookup_insert_eq, ?lookup_insert_ne by done; try done.
    + intros [= <-] _ Ho. by destruct (Hn r).
    + intros _ [= <-] _ Ho. by destruct (Hn r).
    + apply H2.
  - intros r Hr. apply H3. intros h' v' E Ho. destruct (decide (h' = h)) as [->|]; [by apply (Hh v' r)|].
    apply (Hr h' v'); [by rewrite lookup_insert_ne|done].
  - intros h' v'. destruct (decide (h' = h)) as [->|]; [rewrite lookup_insert_eq; intros [= <-] E|rewrite lookup_insert_ne by done; apply H4].
    destruct Hw as [|]; [congruence|auto].
Qed.
Lemma unref_lookup v r (reg : gmap Z V) : (if has_L v then luaL_unref (ref v) reg else reg) !! r = if bool_decide (owns v r) then None else reg !! r.
Proof.
  unfold luaL_unref. destruct (has_L v) eqn:Ev.
  - destruct (Z.leb_spec 0 (ref v)).
    + destruct (decide (ref v = r)) as [<-|Hne]; [rewrite lookup_delete_eq, bool_decide_eq_true_2; done|].
      rewrite lookup_delete_ne, bool_decide_eq_false_2 by (done || by intros (_ & ? & _)). done.
    + rewrite bool_decide_eq_false_2; [done|]. intros (_ & ? & ?). lia.
  - rewrite bool_decide_eq_false_2; [done|]. intros (? & _). congruence.
Qed.
Lemma owned_destruct h v st : owned st -> handles st !! h = Some v -> owned (destruct_ h v st).
Proof.
  intros [H1 H2 H3 H4] Eh. unfold destruct_, set_handle. split; cbn.
  - intros h' w r. destruct (decide (h' = h)) as [->|Hne]; [rewrite lookup_insert_eq; intros [= <-] Ho; by destruct (owns_empty r)|].
    rewrite lookup_insert_ne by done. intros E Ho. destruct (H1 h' w r E Ho) as [Hb Hs]. split; [done|]. rewrite unref_lookup.
    case_bool_decide as Hv; [|done]. destruct Hne. by eapply H2.
  - intros h1 h2 v1 v2 r. destruct (decide (h1 = h)) as [->|], (decide (h2 = h)) as [->|]; rewrite ?lookup_insert_eq, ?lookup_insert_ne by done; try done.
    + intros [= <-] _ Ho. by destruct (owns_empty r).
    + intros _ [= <-] _ Ho. by destruct (owns_empty r).
    + apply H2.
  - intros r Hr. rewrite unref_lookup. case_bool_decide as Hv; [symmetry; by eapply H1|]. apply H3. intros h' w E Ho.
    destruct (decide (h' = h)) as [->|]; [congruence|]. apply (Hr h' w); [by rewrite lookup_insert_ne|done].
  - intros h' w. destruct (decide (h' = h)) as [->|]; [rewrite lookup_insert_eq; by intros [= <-]|rewrite lookup_insert_ne by done; apply H4].
Qed.
Lemma owned_delete h v st : owned st -> handles st !! h = Some v -> (forall r, ~ owns v r) ->
  owned {| registry := registry st; handles := delete h (handles st) |}.
Proof.
  intros [H1 H2 H3 H4] Eh Hv. split; cbn.
  - intros h' w r. rewrite lookup_delete_Some. intros [_ E]. by eapply H1.
  - intros h1 h2 v1 v2 r. rewrite !lookup_delete_Some. intros [_ E1] [_ E2]. by eapply H2.
  - intros r Hr. apply H3. intros h' w E Ho. destruct (decide (h' = h)) as [->|]; [rewrite Eh in E; injection E as <-; by apply (Hv r)|].
    apply (Hr h' w); [by rewrite lookup_delete_ne|done].
  - intros h' w. rewrite lookup_delete_Some. intros [_ E]. by apply (H4 h').
Qed.
Lemma owned_move h from o st : owned st -> h <> from -> handles st !! from = Some o -> (forall v r, handles st !! h = Some v -> ~ owns v r) ->
  owned (move h from o st).
Proof.
  intros [H1 H2 H3 H4] Hne Ef Hh. set (gone := {| has_L := false; ref := ref o |}). assert (forall r, ~ owns gone r) as Hg by (by intros r [? _]).
  assert (forall k w, handles (move h from o st) !! k = Some w -> (k = from /\ w = gone) \/ (k = h /\ w = o) \/ (k <> from /\ k <> h /\ handles st !! k = Some w)) as Hc.
  { intros k w. unfold move, set_handle. cbn. destruct (decide (k = from)) as [->|]; [rewrite lookup_insert_eq; intros [= <-]; by left|rewrite lookup_insert_ne by done].
    destruct (decide (k = h)) as [->|]; [rewrite lookup_insert_eq; intros [= <-]; by right; left|rewrite lookup_insert_ne by done]. by right; right. }
  split.
  - intros k w r E Ho. destruct (Hc k w E) as [[_ ->]|[[_ ->]|(_ & _ & E')]]; [by destruct (Hg r)|by eapply H1|by eapply H1].
  - intros k k' w w' r E E' Ho Ho'. destruct (Hc k w E) as [[_ ->]|[[-> ->]|(N1 & N2 & E1)]]; [by destruct (Hg r)| |];
      (destruct (Hc k' w' E') as [[_ ->]|[[-> ->]|(N1' & N2' & E1')]]; [by destruct (Hg r)| |]); try done.
    + by destruct (H2 from k' o w' r Ef E1' Ho Ho').
    + by destruct (H2 from k o w r Ef E1 Ho' Ho).
    + by eapply H2.
  - intros r Hr. apply H3. intros k w E Ho. destruct (decide (k = h)) as [->|]; [by apply (Hh w r)|].
    destruct (decide (k = from)) as [->|].
    + rewrite Ef in E. injection E as <-. apply (Hr h o); [|done]. unfold move, set_handle. cbn. by rewrite lookup_insert_ne, lookup_insert_eq.
    + apply (Hr k w); [|done]. unfold move, set_handle. cbn. by rewrite !lookup_insert_ne.
  - intros k w E. destruct (Hc k w E) as [[_ ->]|[[_ ->]|(_ & _ & E')]]; [done|by apply (H4 from)|by apply (H4 k)].
Qed.

(** ** The store *)
Implicit Types (st : Heap V).
Context (Hnil : base !! LUA_REFNIL = None).
Lemma nil_entry st : owned st -> registry st !! LUA_REFNIL = None.
Proof. intros [_ _ H3 _]. rewrite H3; [done|]. by intros h v _ (_ & _ & ?). Qed.
(** A registry that keeps the entries of the valid handles keeps what they hold. *)
Lemma holds_same v (reg reg' : gmap Z V) : (valid v = true -> reg' !! ref v = reg !! ref v) -> holds v reg' = holds v reg.
Proof. intros H. unfold holds, lua_rawgeti. destruct (valid v); [by rewrite H|done]. Qed.
Lemma store_update st st' h w : handles st' = <[h := w]> (handles st) ->
  (forall k v, k <> h -> handles st !! k = Some v -> valid v = true -> registry st' !! ref v = registry st !! ref v) ->
  store_of st' = <[h := holds w (registry st')]> (store_of st).
Proof.
  intros Eh Hs. unfold store_of. rewrite Eh, fmap_insert. apply map_eq. intros k. destruct (decide (k = h)) as [->|]; [by rewrite !lookup_insert_eq|].
  rewrite !lookup_insert_ne, !lookup_fmap by done. destruct (handles st !! k) as [v|] eqn:E; [|done]. cbn. f_equal. apply holds_same. by apply (Hs k).
Qed.
Lemma store_attach h v st : owned st -> store_of (attach h v st) = <[h := Some v]> (store_of st).
Proof.
  intros H. destruct v as [x|].
  - set (r0 := unused (registry st)). assert (0 < r0) as Hp by apply unused_positive.
    rewrite (store_update st (attach h (Some x) st) h {| has_L := true; ref := r0 |}); [|done|].
    + unfold holds, valid, attach, luaL_ref. cbn. fold r0. rewrite (proj2 (Z.eqb_neq r0 LUA_NOREF)) by (unfold LUA_NOREF; lia). cbn. unfold lua_rawgeti. by rewrite lookup_insert_eq.
    + intros k w _ E Hv. unfold attach, luaL_ref. cbn. fold r0. rewrite lookup_insert_ne; [done|]. intros Er. unfold valid in Hv. bool_to_prop.
      destruct (own_nil _ H k w E) as [|[Hn|Hn]]; [done|bool_to_prop; congruence|rewrite Hn in Er; unfold LUA_REFNIL in Er; lia|].
      destruct (own_entry _ H k w (ref w) E) as [_ [? Hs]]; [done|]. rewrite <- Er in Hs. unfold r0 in Hs. by rewrite unused_free in Hs.
  - rewrite (store_update st (attach h None st) h {| has_L := true; ref := LUA_REFNIL |}) by done.
    unfold holds. cbn. unfold lua_rawgeti. by rewrite nil_entry.
Qed.
Lemma store_destruct h v st : owned st -> handles st !! h = Some v -> store_of (destruct_ h v st) = <[h := None]> (store_of st).
Proof.
  intros H E. rewrite (store_update st (destruct_ h v st) h empty_value); [done|done|]. intros k w Hk Ek Hw. unfold destruct_, set_handle. cbn.
  rewrite unref_lookup. case_bool_decide as Ho; [|done]. exfalso. apply Hk. apply (own_once _ H k h w v (ref w)); try done.
  destruct Ho as (? & ? & ?). unfold valid in Hw. bool_to_prop. done.
Qed.
Lemma store_lookup st h v : handles st !! h = Some v -> store_of st !! h = Some (holds v (registry st)).
Proof. intros E. unfold store_of. by rewrite lookup_fmap, E. Qed.
Lemma store_none st h : handles st !! h = None -> store_of st !! h = None.
Proof. intros E. unfold store_of. by rewrite lookup_fmap, E. Qed.
Lemma store_set h w st : valid w = false -> store_of (set_handle h w st) = <[h := None]> (store_of st).
Proof. intros Hw. rewrite (store_update st (set_handle h w st) h w) by done. unfold holds. by rewrite Hw. Qed.
Lemma store_move h from o st : store_of (move h from o st) = <[from := None]> (<[h := holds o (registry st)]> (store_of st)).
Proof.
  unfold move. rewrite store_set by done. f_equal. by rewrite (store_update st (set_handle h o st) h o).
Qed.
Lemma owned_empty : owned {| registry := base; handles := ∅ |}.
Proof. by split. Qed.
Lemma destruct_slot h v st : handles (destruct_ h v st) = <[h := empty_value]> (handles st). Proof. done. Qed.
Lemma holds_destruct h v from o st : owned st -> h <> from -> handles st !! h = Some v -> handles st !! from = Some o ->
  holds o (registry (destruct_ h v st)) = holds o (registry st).
Proof.
  intros H Hne Eh Ef. assert (store_of (destruct_ h v st) !! from = store_of st !! from) as E by (rewrite store_destruct by done; by rewrite lookup_insert_ne).
  rewrite (store_lookup _ from o) in E by (rewrite destruct_slot; by rewrite lookup_insert_ne). rewrite (store_lookup st from o Ef) in E. congruence.
Qed.
Lemma assign_ok h v from o st : owned st -> handles st !! h = Some v -> handles st !! from = Some o ->
  owned (assign h v from o st) /\ store_of (assign h v from o st) = <[h := holds o (registry st)]> (store_of st).
Proof.
  intros H Eh Ef. unfold assign. destruct (Nat.eqb_spec h from) as [->|Hne].
  - split; [done|]. rewrite insert_id; [done|by apply store_lookup].
  - pose proof (owned_destruct h v st H Eh) as Hd. pose proof (holds_destruct h v from o st H Hne Eh Ef) as Ho. unfold holds in Ho at 1 2.
    unfold holds. destruct (valid o).
    + apply (inj Some) in Ho. cbv zeta. rewrite Ho. split.
      * apply owned_attach; [done|]. intros w r. rewrite destruct_slot, lookup_insert_eq. intros [= <-]. apply owns_empty.
      * rewrite store_attach by done. rewrite store_destruct by done. by rewrite insert_insert_eq.
    + split; [done|by apply store_destruct].
Qed.
Lemma move_assign_ok h v from o st : owned st -> handles st !! h = Some v -> handles st !! from = Some o ->
  owned (move_assign h v from o st) /\
  store_of (move_assign h v from o st) = if (h =? from)%nat then store_of st else <[from := None]> (<[h := holds o (registry st)]> (store_of st)).
Proof.
  intros H Eh Ef. unfold move_assign. destruct (Nat.eqb_spec h from) as [->|Hne]; [done|]. split.
  - apply owned_move; [by apply owned_destruct|done|rewrite destruct_slot; by rewrite lookup_insert_ne|].
    intros w r. rewrite destruct_slot, lookup_insert_eq. intros [= <-]. apply owns_empty.
  - rewrite store_move, store_destruct by done. by rewrite (holds_destruct h v from o), insert_insert_eq.
Qed.
Lemma step_ok op st : owned st -> (forall h r, op = FromRef h r -> is_Some (base !! r)) ->
  owned (step op st) /\ store_of (step op st) = spec (fun r => lua_rawgeti r base) op (store_of st).
Proof.
  intros H Hr. assert (forall h, handles st !! h = None -> forall w r, handles st !! h = Some w -> ~ owns w r) as Hfresh by congruence.
  destruct op as [h|h v|h r|h from|h from|h from|h from|h]; cbn [step spec];
    (destruct (handles st !! h) as [x|] eqn:Eh; [rewrite (store_lookup st h x Eh)|rewrite (store_none st h Eh)]); try done.
  - split; [apply owned_set; [done|by apply Hfresh|by left]|by apply store_set].
  - split; [apply owned_attach; [done|by apply Hfresh]|by apply store_attach].
  - assert (lua_rawgeti r (registry st) = lua_rawgeti r base) as E.
    { unfold lua_rawgeti. apply (own_rest _ H). intros h' w Ew Ho. destruct (own_entry _ H h' w r Ew Ho) as [Hb _].
      destruct (Hr h r eq_refl) as [? ?]. congruence. }
    unfold of_registry. rewrite E. split; [apply owned_attach; [done|by apply Hfresh]|by apply store_attach].
  - destruct (handles st !! from) as [o|] eqn:Ef; [rewrite (store_lookup st from o Ef)|by rewrite (store_none st from Ef)].
    unfold copy. unfold holds. destruct (valid o); [split; [apply owned_attach; [done|by apply Hfresh]|by apply store_attach]|].
    split; [apply owned_set; [done|by apply Hfresh|by right]|by apply store_set; unfold valid; cbn; rewrite andb_false_r].
  - destruct (handles st !! from) as [o|] eqn:Ef; [rewrite (store_lookup st from o Ef)|by rewrite (store_none st from Ef)].
    split; [apply owned_move; [done|congruence|done|by apply Hfresh]|apply store_move].
  - destruct (handles st !! from) as [o|] eqn:Ef; [rewrite (store_lookup st from o Ef)|by rewrite (store_none st from Ef)]. by apply assign_ok.
  - destruct (handles st !! from) as [o|] eqn:Ef; [rewrite (store_lookup st from o Ef)|by rewrite (store_none st from Ef)]. by apply move_assign_ok.
  - pose proof (owned_destruct h x st H Eh) as Hd. split.
    + apply (owned_delete h empty_value) in Hd; [|rewrite destruct_slot; apply lookup_insert_eq|apply owns_empty].
      revert Hd. rewrite destruct_slot. by rewrite delete_insert_eq.
    + pose proof (store_destruct h x st H Eh) as E. apply (f_equal (delete h)) in E. rewrite delete_insert_eq in E. rewrite <- E. clear E.
      unfold store_of. cbn. by rewrite fmap_insert, delete_insert_eq, fmap_delete.
Qed.
Lemma steps_ok ops : forall st, owned st -> (forall h r, FromRef h r ∈ ops -> is_Some (base !! r)) ->
  owned (steps ops st) /\ store_of (steps ops st) = fold_left (fun s op => spec (fun r => lua_rawgeti r base) op s) ops (store_of st).
Proof.
  induction ops as [|op ops IH]; intros st H Hr; [done|]. destruct (step_ok op st H) as [H1 E1]; [intros h r ->; by apply (Hr h); left|].
  destruct (IH (step op st) H1) as [H2 E2]; [intros h r ?; by apply (Hr h); right|]. split; [exact H2|]. cbn [fold_left]. rewrite <- E1. exact E2.
Qed.
End ownership.

(** C25: handles behave as values.  Whatever copies, moves, assignments (to itself
    too) and destructions the program makes of its [LuaValue]s, each live handle
    reads the value last given to it; the registry entries of others are never
    touched; an entry is kept as long as exactly one handle owns it, so when the
    last handle is gone the registry is as it was: nothing leaks and nothing is
    released twice. *)
Theorem values_refine (V : Type) (R : RegistryOps V) (base : gmap Z V) (ops : list (Op (V := V))) :
  RegistryLaws V R -> base !! LUA_REFNIL = None -> (forall h r, FromRef h r ∈ ops -> is_Some (base !! r)) ->
  let st := steps ops {| registry := base; handles := ∅ |} in
  store_of st = fold_left (fun s op => spec (fun r => lua_rawgeti r base) op s) ops ∅ /\
  (forall r x, base !! r = Some x -> registry st !! r = Some x) /\
  (forall h h' v v' r, handles st !! h = Some v -> handles st !! h' = Some v' -> owns v r -> owns v' r -> h = h') /\
  (handles st = ∅ -> registry st = base).
Proof.
  intros RL Hnil Hr st. destruct (steps_ok base Hnil ops {| registry := base; handles := ∅ |} (owned_empty base) Hr) as [[H1 H2 H3 H4] E].
  fold st in H1, H2, H3, H4, E. split_and!; [by rewrite E| |done|].
  - intros r x Hx. rewrite H3; [done|]. intros h v Eh Ho. destruct (H1 h v r Eh Ho). congruence.
  - intros Eh. apply map_eq. intros r. apply H3. intros h v. by rewrite Eh, lookup_empty.
Qed.

(** A registry that counts up, and handles on numbers. *)
#[export] Instance counting_registry (V : Type) : RegistryOps V := {| unused reg := foldr Z.max 0 (map_to_list reg).*1 + 1 |}.
Lemma max_above (l : list Z) x : x ∈ l -> x <= foldr Z.max 0 l.
Proof. induction 1 as [|x y l _ IH]; cbn; lia. Qed.
Lemma max_nonneg (l : list Z) : 0 <= foldr Z.max 0 l. Proof. induction l; cbn; lia. Qed.
#[export] Instance counting_laws (V : Type) : RegistryLaws V (counting_registry V).
Proof.
  split; intros reg; cbn; [pose proof (max_nonneg (map_to_list reg).*1); lia|].
  destruct (reg !! _) as [x|] eqn:E; [|done]. apply elem_of_map_to_list, (list_elem_of_fmap_2 fst), max_above in E. cbn in E. lia.
Qed.
Definition sample_ops : list (Op (V := nat)) :=
  [FromStack 1 (Some 7%nat); CopyNew 2 1; New 3; Assign 3 2; MoveNew 4 3; FromRef 5 9; Assign 1 1; MoveAssign 2 4; Drop 1; Drop 2; Drop 3; Drop 4; Drop 5].
Lemma values_refine_witness : registry (steps sample_ops {| registry := {[ 9 := 4%nat ]}; handles := ∅ |}) = {[ 9 := 4%nat ]}.
Proof.
  destruct (values_refine nat (counting_registry nat) {[ 9 := 4%nat ]} sample_ops (counting_laws nat)) as (_ & _ & _ & H); [reflexivity| |].
  - intros h r Hin. assert (r = 9) as ->; [|by exists 4%nat]. unfold sample_ops in Hin.
    repeat (apply elem_of_cons in Hin as [Hin|Hin]; [try done; by injection Hin|]). by apply elem_of_nil in Hin.
  - apply H. vm_compute. reflexivity.
Defined.
(** A copy is not equal to what it was copied from: the comparison is of entries,
    and each handle has its own. *)
Theorem copies_unequal : let st := steps [FromStack 1 (Some 7%nat); CopyNew 2 1] {| registry := ∅; handles := ∅ |} in
  store_of st !! 1%nat = store_of st !! 2%nat /\
  match handles st !! 1%nat, handles st !! 2%nat with Some a, Some b => equal a b = false | _, _ => False end.
Proof. vm_compute. done. Qed.
End Values.

Module Calls.
(** ** One call: [callOn] *)
(** What [lua_pcall] answers, the message handler included. *)
Inductive PcallRes := Returned (v : QVar) | ExitMarker | LuaError (traceback : string).
(** A slot of the Lua stack. *)
Inductive Slot := SValue (v : QVar) | SFunction (fn : nat) | SHandler | SMarker | SError (msg : string).
Inductive Outcome (A : Type) := Ret (a : A) | Throw (e : exn).
Arguments Ret {A} _.
Arguments Throw {A} _.
(** [lua_pcall] pops the function and its arguments and pushes one result. *)
Definition pcall (nargs : nat) (r : PcallRes) (stack : list Slot) : list Slot :=
  take (length stack - (nargs + 1)) stack ++ [match r with Returned v => SValue v | ExitMarker => SMarker | LuaError e => SError e end].
Definition settop (n : nat) (stack : list Slot) : list Slot := take n stack.
(** [room]: [lua_checkstack] succeeds; [unwinding]: the current fiber is torn down. *)
Definition callOn (room unwinding : bool) (fn : nat) (args : list QVar) (result : bool) (r : PcallRes) (stack : list Slot) : list Slot * Outcome QVar :=
  if negb room then (stack, Throw (Err "Could not reserve stack for call"))
  else
    let base := length stack in
    let stack := stack ++ [SHandler; SFunction fn] ++ map SValue args in
    let stack := pcall (length args) r stack in
    match r with
    | ExitMarker => (settop base stack, Throw ForcedShutdown)
    | LuaError err => (settop base stack, Throw (if unwinding then ForcedShutdown else Err err))
    | Returned v => (settop base stack, Ret (if result then v else VInvalid))
    end.

(** ** What becomes of it *)
Inductive CallAct :=
| OnError (what : string)                  (* the callback of [CallOnFiber] *)
| Logged (ctx what : string)
| Settled (promise : nat) (res : Outcome QVar).
(** [CallOnFiber] of a valid function: what its closure does on the fiber, and how
    it ends. *)
Definition onFiber (out : Outcome QVar) : list CallAct * option exn :=
  match out with
  | Ret _ => ([], None)
  | Throw ForcedShutdown => ([], Some ForcedShutdown)
  | Throw (Err e) => ([OnError e], None)
  end.
Definition report (ctx : string) (a : CallAct) : CallAct :=
  match a with OnError e => Logged ctx (("Uncaught error:" +:+ String (ascii_of_nat 10) (String (ascii_of_nat 9) "")) +:+ e) | a => a end.
(** [CallNoWait]. *)
Definition CallNoWait (ctx : string) (valid : bool) (out : Outcome QVar) : Outcome (list CallAct * option exn) :=
  if valid then let '(acts, e) := onFiber out in Ret (map (report ctx) acts, e)
  else Throw (Err "Attempt to call invalid lua function").
(** [Call]: the promise gets the result, or whatever was thrown. *)
Definition Call (promise : nat) (valid : bool) (out : Outcome QVar) : list CallAct * option exn :=
  if valid then ([Settled promise out], None) else ([Settled promise (Throw (Err "Attempt to call invalid lua function"))], None).
(** The queued closure of [SpawnNative]; a promise that is dropped is broken. *)
Definition spawned (shutdown : bool) (promise : nat) (broken : exn) (out : Outcome QVar) : list CallAct * option exn :=
  if shutdown then ([Settled promise (Throw broken)], None) else ([Settled promise out], None).
(** [RunOnLoop]: at once, or queued with the caller waiting. *)
Inductive LoopRun := Direct | QueuedAndAwaited.
Definition RunOnLoop (on_fiber same_thread : bool) : LoopRun := if (negb on_fiber && same_thread)%bool then Direct else QueuedAndAwaited.
(** [ResolveLuaCallback]: the arguments of the callback. *)
Definition callback_args (res : Outcome QVar) : list QVar :=
  match res with
  | Ret v => [v; VInvalid]
  | Throw (Err e) => [VInvalid; VString e]
  | Throw ForcedShutdown => [VInvalid; VString "Forced shutdown"]
  end.
Definition callback_ctx (ctx : string) (worker_origin : option string) : string :=
  if bool_decide (ctx = "") then "worker callback: " +:+ default "<dead>" worker_origin else ctx.
(** The subscription of a promise made by [MakeLuaPromise]. *)
Definition subscribe (args : list (option nat)) : Outcome nat :=
  match args with
  | Some cb :: _ => Ret cb
  | _ => Throw (Err "promise: expected a callback function")
  end.
(** [AwaitNative] of a subscription: [settled] is what the future gives; an error of
    the subscription itself is left on the stack and not looked at. *)
Definition AwaitNative (callable : bool) (subscription : PcallRes) (settled : Outcome (QVar * QVar)) : Outcome (QVar * QVar) :=
  if negb callable then Throw (Err "await(): _subscribe must be callable")
  else match settled with
       | Throw ForcedShutdown => Throw (Err "Forced shutdown")
       | r => r
       end.

Lemma settop_app n (stack more : list Slot) : n = length stack -> settop n (stack ++ more) = stack.
Proof. intros ->. apply take_app_length. Qed.
Lemma pcall_base base args r fn : exists more, pcall (length args) r (base ++ [SHandler; SFunction fn] ++ map SValue args) = base ++ more.
Proof.
  unfold pcall. exists [SHandler; match r with Returned v => SValue v | ExitMarker => SMarker | LuaError e => SError e end].
  rewrite !length_app, length_map. cbn [length].
  replace (length base + (2 + length args) - (length args + 1))%nat with (length (base ++ [SHandler])) by (rewrite length_app; cbn; lia).
  replace (base ++ [SHandler; SFunction fn] ++ map SValue args) with ((base ++ [SHandler]) ++ SFunction fn :: map SValue args) by (by rewrite <- (assoc_L (++))).
  rewrite take_app_length. by rewrite <- (assoc_L (++)).
Qed.
(** The stack is left as it was found, however the call ends; an error of Lua is an
    error of the caller, except where the fiber is being torn down, and an exit
    request is never one. *)
Theorem callOn_spec room unwinding fn args result r stack :
  let '(stack', out) := callOn room unwinding fn args result r stack in
  stack' = stack /\ (out = Throw ForcedShutdown <-> room = true /\ (r = ExitMarker \/ unwinding = true /\ exists e, r = LuaError e)).
Proof.
  unfold callOn. destruct room; cbn [negb]; [|split; [done|]; split; [done|by intros [? _]]].
  destruct (pcall_base stack args r fn) as [more ->]. destruct r as [v| |e]; rewrite settop_app by done; (split; [done|]).
  - split; [done|]. by intros [_ [?|(_ & ? & ?)]].
  - split; [by auto|done].
  - destruct unwinding; split; try done; [intros _; split; [done|]; right; eauto|]. by intros [_ [?|(? & _)]].
Qed.
(** What the fiber pool then sees: only an exit request ends a fiber's closure with
    an exception. *)
Theorem call_ends ctx out : match CallNoWait ctx true out with
  | Ret (acts, e) => (e = None \/ e = Some ForcedShutdown) /\ (forall what, out = Throw (Err what) <-> acts = map (report ctx) [OnError what])
  | Throw _ => False
  end.
Proof.
  destruct out as [v|[|what]]; cbn; (split; [auto|]); intros w; split; try done; [by intros [= ->]|].
  cbn. intros H. by simplify_eq/=.
Qed.
End Calls.
