(* ===== verification/Http.v ===== *)
(** * HTTP worker: [src/workers/http/http.cpp]

    A client: its methods and its messages become requests, a reply becomes a map of
    status, headers and body.  URLs, JSON and the network are Qt's: a request is the
    record of what is given to Qt, a reply what Qt gives back. *)
From S2P Require Import Prelude QVariant Utils Worker Config Functions.
Import Functions.Calls.
Set Warnings "-register-all".

(** ** Configuration *)
Inductive HttpResponseFormat := raw | json | text.
#[export] Instance HttpResponseFormat_eq : EqDecision HttpResponseFormat. Proof. solve_decision. Defined.
Definition format_type : CType := CEnum "HttpResponseFormat" [("raw", 0); ("json", 1); ("text", 2)].
Definition format_of (z : Z) : HttpResponseFormat := if z =? 0 then raw else if z =? 1 then json else text.
Definition format_number (f : HttpResponseFormat) : Z := match f with raw => 0 | json => 1 | text => 2 end.
Definition HttpConfig_type : CType := CStruct "HttpConfig" [
  ("name", COptional CString); ("category", COptional CString);
  ("base_url", CDefault CString (XString "")); ("user_agent", CDefault CString (XString "radapter"));
  ("follow_redirects", CDefault CBool (XBool true)); ("timeout_ms", CDefault (CNum NUInt) (XNum 30000));
  ("response_format", CDefault format_type (XEnum 2));
  ("cert_file", CDefault CString (XString "")); ("key_file", CDefault CString (XString ""))].
Record HttpConfig := { base_url : string; user_agent : string; follow_redirects : bool; timeout_ms : Z;
                       response_format : HttpResponseFormat; cert_file : string; key_file : string }.
Definition http_default_name (c : HttpConfig) : string := if isEmpty (base_url c) then "http" else base_url c.
(** Whether the client certificate can be read: the two files. *)
Definition CreateSslConfiguration (c : HttpConfig) (cert_readable key_readable : bool) : res unit :=
  if negb cert_readable then Raise ("could not open certificate file: " +:+ cert_file c)
  else if negb key_readable then Raise ("could not open key file: " +:+ key_file c) else Ok tt.
Definition Http_new (c : HttpConfig) (cert_readable key_readable : bool) : res bool :=
  if (negb (isEmpty (cert_file c)) || negb (isEmpty (key_file c)))%bool
  then let* _ := CreateSslConfiguration c cert_readable key_readable in Ok true else Ok false.

Class HttpOps := {
  resolved : string -> string -> string;                 (* QUrl::resolved *)
  setQuery : list (string * string) -> string -> string;
  toJson : QVar -> list Z;                               (* QJsonDocument, compact *)
  fromJson : list Z -> res QVar;                         (* with the parser's error *)
  utf8_decode : list Z -> option string                  (* None: malformed *)
}.
Inductive Redirects := NoLessSafeRedirectPolicy | ManualRedirectPolicy.
Record HttpRequest := {
  verb : string; target : string; agent : string; with_ssl : bool; redirects : Redirects;
  headers : list (string * string);                      (* in the order they are set *)
  payload : list Z; format : HttpResponseFormat;
  abort_after : option Z                                 (* the timer that aborts *)
}.
Record HttpReply := { failure : option string; status : Z; reply_headers : list (string * string); body : list Z }.

Section http.
Context {CO : ConfigOps} {HO : HttpOps} (c : HttpConfig) (ssl : bool).
Notation toStr := (toStr (QVariantOps := variant)).
Notation toUInt := (toUInt (QVariantOps := variant)).
(** The payload, and the content type it settles on. *)
Definition encodeBody (b : QVar) (contentType : string) : list Z * string :=
  if (negb (isValid b) || isNull b)%bool then ([], contentType)
  else match b with
       | VBytes d => (d, contentType)
       | VString s => (bytes_of_string s, contentType)
       | VMap _ | VList _ => (toJson b, if isEmpty contentType then "application/json" else contentType)
       | _ => (bytes_of_string (toStr b), contentType)
       end.
Definition decodeBody (data : list Z) (f : HttpResponseFormat) : res QVar :=
  match f with
  | raw => Ok (VBytes data)
  | text => match utf8_decode data with Some s => Ok (VString s) | None => Ok (VBytes data) end
  | json => match data with
            | [] => Ok VInvalid
            | _ => match fromJson data with Ok v => Ok v | Raise e => Raise ("error parsing json response: " +:+ e) end
            end
  end.
Definition resolveUrl (url : string) : string := if isEmpty (base_url c) then url else resolved (base_url c) url.
Definition opt (k : string) (opts : list (string * QVar)) : QVar := qm_get VInvalid k opts.
Definition text_pairs (m : list (string * QVar)) : list (string * string) := map (fun kv => (kv.1, toStr kv.2)) m.
Definition read_format (opts : list (string * QVar)) : res HttpResponseFormat :=
  if isValid (opt "format" opts) then
    let* v := ParseAs format_type (opt "format" opts) [] in
    match v with XEnum z => Ok (format_of z) | _ => Raise "ill-typed" end
  else Ok (response_format c).
Definition read_timeout (opts : list (string * QVar)) : option Z :=
  let t := if isValid (opt "timeout_ms" opts) then default 0 (toUInt (opt "timeout_ms" opts)) else timeout_ms c in
  (* [singleShot] takes an int and ignores a negative one *)
  if t =? 0 then None else if 0 <=? wraps 32 t then Some (wraps 32 t) else None.
Definition request (method url : string) (b : QVar) (opts : list (string * QVar)) : res HttpRequest :=
  let target := resolveUrl url in
  let q := toMap (opt "query" opts) in
  let target := match q with [] => target | _ => setQuery (text_pairs q) target end in
  let '(payload, contentType) := encodeBody b "" in
  let hs := [("User-Agent", user_agent c)] ++ (if isEmpty contentType then [] else [("Content-Type", contentType)]) ++ text_pairs (toMap (opt "headers" opts)) in
  let* f := read_format opts in
  Ok {| verb := method; target := target; agent := user_agent c; with_ssl := ssl;
        redirects := if follow_redirects c then NoLessSafeRedirectPolicy else ManualRedirectPolicy;
        headers := hs; payload := payload; format := f; abort_after := read_timeout opts |}.
(** The [finished] slot: what the promise gets. *)
Definition on_finished (f : HttpResponseFormat) (r : HttpReply) : Outcome QVar :=
  match failure r with
  | Some e => Throw (Fibers.Err e)
  | None =>
      let hs := fold_left (fun m h => qm_insert h.1 (VString h.2) m) (reply_headers r) [] in
      match decodeBody (body r) f with
      | Raise e => Throw (Fibers.Err e)
      | Ok b => Ret (VMap (qm_insert "body" b (qm_insert "headers" (VMap hs) (qm_insert "status" (VInt (status r)) []))))
      end
  end.

(** ** Methods *)
Inductive Arg := AValue (v : QVar) | AFunction (fn : nat).
Definition arg_value (a : Arg) : QVar := match a with AValue v => v | AFunction _ => VInvalid end.
(** [(url, body?, opts?, callback?)]. *)
Definition invoke_args (args : list Arg) (hasBody : bool) : string * QVar * list (string * QVar) * option nat :=
  let url := toStr (arg_value (default (AValue VInvalid) (args !! 0%nat))) in
  let '(b, idx) := match args !! 1%nat with
                   | Some (AValue v) => if hasBody then (v, 2%nat) else (VInvalid, 1%nat)
                   | _ => (VInvalid, 1%nat)
                   end in
  let '(opts, idx) := match args !! idx with Some (AValue (VMap m)) => (m, S idx) | _ => ([], idx) end in
  (url, b, opts, match args !! idx with Some (AFunction fn) => Some fn | _ => None end).
(** The requests in flight: the format, whether a timer runs, whether a failure is
    logged (a message) or somebody waits for it. *)
Record Pending := { pid : nat; pformat : HttpResponseFormat; timed : bool; logged : bool }.
Record Http := { next_id : nat; pending : list Pending; sent : list HttpRequest; settled : list (nat * Outcome QVar); errors : list string }.
Definition http_init : Http := {| next_id := 0; pending := []; sent := []; settled := []; errors := [] |}.
Definition send (logs : bool) (r : HttpRequest) (st : Http) : Http :=
  {| next_id := S (next_id st); pending := pending st ++ [{| pid := next_id st; pformat := format r; timed := match abort_after r with Some _ => true | None => false end; logged := logs |}];
     sent := sent st ++ [r]; settled := settled st; errors := errors st |}.
Definition invoke (method : string) (args : list Arg) (hasBody : bool) (st : Http) : Http * res (nat * option nat) :=
  let '(url, b, opts, cb) := invoke_args args hasBody in
  match request method url b opts with
  | Raise e => (st, Raise e)
  | Ok r => (send false r st, Ok (next_id st, cb))
  end.
Definition OnMsg (msg : QVar) (st : Http) : Http :=
  if negb (isValid msg) then st
  else match request "POST" "" msg [] with Ok r => send true r st | Raise _ => st end.
Definition verbs : list (string * (string * bool)) := [("Get", ("GET", false)); ("Post", ("POST", true)); ("Put", ("PUT", true));
  ("Patch", ("PATCH", true)); ("Delete", ("DELETE", false)); ("Head", ("HEAD", false)); ("Options", ("OPTIONS", false))].
(** A reply is finished, by the network or by the timer's abort. *)
Definition finish (id : nat) (r : HttpReply) (st : Http) : Http :=
  match List.filter (fun p => (pid p =? id)%nat) (pending st) with
  | p :: _ =>
      {| next_id := next_id st; pending := List.filter (fun p => negb (pid p =? id)%nat) (pending st); sent := sent st;
         settled := settled st ++ [(id, on_finished (pformat p) r)];
         errors := errors st ++ match on_finished (pformat p) r with
                                | Throw (Fibers.Err e) => if logged p then ["request failed: " +:+ e] else []
                                | _ => []
                                end |}
  | [] => st
  end.
Definition aborted : HttpReply := {| failure := Some "Operation canceled"; status := 0; reply_headers := []; body := [] |}.
Definition timer_fires (id : nat) (st : Http) : Http :=
  if existsb (fun p => ((pid p =? id)%nat && timed p)%bool) (pending st) then finish id aborted st else st.
Inductive HttpEvent := EInvoke (method : string) (args : list Arg) (hasBody : bool) | EMsg (msg : QVar) | EFinish (id : nat) (r : HttpReply) | ETimer (id : nat).
Definition http_event (e : HttpEvent) (st : Http) : Http :=
  match e with
  | EInvoke m args hb => (invoke m args hb st).1
  | EMsg msg => OnMsg msg st
  | EFinish id r => finish id r st
  | ETimer id => timer_fires id st
  end.
Definition http_run (es : list HttpEvent) (st : Http) : Http := fold_left (fun st e => http_event e st) es st.

(** ** Lemmas *)
Definition ids (st : Http) : list nat := (settled st).*1 ++ map pid (pending st).
Lemma filter_halves {A} (f : A -> bool) (l : list A) : List.filter f l ++ List.filter (fun x => negb (f x)) l ≡ₚ l.
Proof. induction l as [|x l IH]; [done|]. cbn. destruct (f x); cbn; [by rewrite IH|]. by rewrite <- Permutation_middle, IH. Qed.
Lemma ids_send logs r st : ids st ≡ₚ seq 0 (next_id st) -> ids (send logs r st) ≡ₚ seq 0 (next_id (send logs r st)).
Proof. intros H. unfold ids, send. cbn [settled pending next_id]. rewrite map_app, (assoc_L (++)), seq_S. cbn. by rewrite <- H. Qed.
Lemma ids_once st p q l : NoDup (ids st) -> List.filter (fun p => (pid p =? q)%nat) (pending st) = p :: l -> pid p = q /\ l = [].
Proof.
  unfold ids. intros Hn. apply NoDup_app in Hn as (_ & _ & Hn). induction (pending st) as [|x ps IH]; [done|]. cbn in Hn |- *. apply NoDup_cons in Hn as [Hx Hn].
  destruct (Nat.eqb_spec (pid x) q) as [<-|]; [|by apply IH]. intros [= <- H]. split; [done|]. rewrite <- H. clear -Hx. induction ps as [|y ps IH]; [done|]. cbn in *.
  destruct (Nat.eqb_spec (pid y) (pid x)) as [E|]; [destruct Hx; rewrite E; by left|]. apply IH. intros ?. apply Hx. by right.
Qed.
Lemma ids_finish id r st : ids st ≡ₚ seq 0 (next_id st) -> ids (finish id r st) ≡ₚ seq 0 (next_id (finish id r st)).
Proof.
  intros H. assert (NoDup (ids st)) as Hn by (rewrite H; apply NoDup_seq). unfold finish.
  destruct (List.filter (fun p => (pid p =? id)%nat) (pending st)) as [|p l] eqn:E; [done|].
  destruct (ids_once st p id l Hn E) as [Ep ->]. rewrite <- H. unfold ids. cbn [settled pending].
  rewrite fmap_app, <- (assoc_L (++)). f_equiv. cbn. rewrite <- (filter_halves (fun p => (pid p =? id)%nat) (pending st)) at 2.
  by rewrite E, map_app, <- Ep.
Qed.
Lemma ids_run es : forall st, ids st ≡ₚ seq 0 (next_id st) -> ids (http_run es st) ≡ₚ seq 0 (next_id (http_run es st)).
Proof.
  induction es as [|e es IH]; intros st H; [done|]. apply (IH (http_event e st)). destruct e as [m args hb|msg|id r|id]; cbn [http_event].
  - unfold invoke. destruct (invoke_args args hb) as [[[url b] opts] cb]. destruct (request m url b opts); [by apply ids_send|done].
  - unfold OnMsg. destruct (negb _); [done|]. destruct (request _ _ _ _); [by apply ids_send|done].
  - by apply ids_finish.
  - unfold timer_fires. destruct (existsb _ _); [by apply ids_finish|done].
Qed.
Lemma finish_settles id r st : id ∈ map pid (pending st) -> id ∈ (settled (finish id r st)).*1.
Proof.
  intros Hin. unfold finish. destruct (List.filter (fun p => (pid p =? id)%nat) (pending st)) as [|p l] eqn:E; [|cbn [settled]; rewrite fmap_app; apply elem_of_app; right; by left].
  exfalso. apply list_elem_of_In, in_map_iff in Hin as (p & Ep & Hp). assert (In p []) as []. rewrite <- E. apply filter_In. split; [done|]. by apply Nat.eqb_eq.
Qed.
End http.

(** What the worker relies on of Qt. *)
Class HttpLaws (CO : ConfigOps) (HO : HttpOps) (jsonish : QVar -> Prop) : Prop := {
  utf8_text : forall s, utf8_decode (bytes_of_string s) = Some s;
  json_back : forall v, jsonish v -> fromJson (toJson v) = Ok v;
  json_text : forall v, toJson v <> [];
  null_values : forall v, isNull v = true -> match v with VBytes _ | VString _ | VMap _ | VList _ => False | _ => True end
}.

(** * Properties *)

(** A body survives a server that echoes it: bytes in the raw format, text in
    the text format, maps and lists in the JSON format come back as they were sent,
    maps and lists declared as JSON. *)
Theorem http_echo {CO : ConfigOps} {HO : HttpOps} (jsonish : QVar -> Prop) (v : QVar) : HttpLaws CO HO jsonish ->
  match v with
  | VBytes b => decodeBody (encodeBody v "").1 raw = Ok v
  | VString s => decodeBody (encodeBody v "").1 text = Ok v
  | VMap _ | VList _ => (encodeBody v "").2 = "application/json" /\ (jsonish v -> decodeBody (encodeBody v "").1 json = Ok v)
  | _ => True
  end.
Proof.
  intros L. assert (forall w, isNull w = true -> match w with VBytes _ | VString _ | VMap _ | VList _ => False | _ => True end) as Hn by apply null_values.
  destruct v; try done; unfold encodeBody; cbn [isValid negb orb];
    (destruct (isNull _) eqn:E; [by apply Hn in E|]); cbn [orb]; cbn [decodeBody fst snd]; rewrite ?utf8_text; try done; (split; [done|]; intros Hj);
    match goal with |- context [toJson ?w] => pose proof (json_text (jsonish := jsonish) w); pose proof (json_back (jsonish := jsonish) w Hj) as Hb;
      destruct (toJson w); [done|by rewrite Hb] end.
Qed.

(** C26: every request is settled once and only once: whatever calls, messages,
    replies and time limits come in whatever order, the requests settled and those in
    flight are together all that were sent, each one of them once; and when a
    request's timer fires it is settled, by its abort if by nothing before. *)
Theorem http_requests_settled {CO : ConfigOps} {HO : HttpOps} c ssl es id : let st := http_run c ssl es http_init in
  (settled st).*1 ++ map pid (pending st) ≡ₚ seq 0 (next_id st) /\
  (existsb (fun p => ((pid p =? id)%nat && timed p)%bool) (pending st) = true -> id ∈ (settled (timer_fires id st)).*1).
Proof.
  split; [by apply (ids_run c ssl es http_init)|]. intros H. unfold timer_fires. rewrite H. apply finish_settles.
  apply existsb_exists in H as (p & Hp & Ht). bool_to_prop. apply list_elem_of_In, in_map_iff. exists p. split; [|done]. by apply Nat.eqb_eq.
Qed.
Definition sample_body : QVar := VMap [("a", VLongLong 1)].
#[export] Instance tiny_http : HttpOps := {|
  resolved b u := b +:+ u; setQuery q u := u; toJson v := [123; 125]; fromJson d := Ok sample_body; utf8_decode d := Some (string_of_bytes d) |}.
#[export] Instance tiny_http_laws : HttpLaws tiny_config tiny_http (fun v => v = sample_body).
Proof.
  split; cbn; [intros s; by rewrite string_of_bytes_of_string|by intros v ->|done|]. intros v. by destruct v.
Qed.
Lemma http_echo_witness : decodeBody (HO := tiny_http) (encodeBody (CO := tiny_config) sample_body "").1 json = Ok sample_body /\
  decodeBody (HO := tiny_http) (encodeBody (CO := tiny_config) (VString "hi") "").1 text = Ok (VString "hi").
Proof.
  split; [|exact (http_echo (fun v => v = sample_body) (VString "hi") tiny_http_laws)].
  exact (proj2 (http_echo (fun v => v = sample_body) sample_body tiny_http_laws) eq_refl).
Defined.
Lemma http_requests_settled_witness : let st := http_run (CO := tiny_config) {| base_url := ""; user_agent := "radapter"; follow_redirects := true; timeout_ms := 100;
    response_format := text; cert_file := ""; key_file := "" |} false [EInvoke "GET" [AValue (VString "http://x")] false] http_init in
  0%nat ∈ (settled (timer_fires 0 st)).*1.
Proof.
  exact (proj2 (http_requests_settled (CO := tiny_config) {| base_url := ""; user_agent := "radapter"; follow_redirects := true; timeout_ms := 100;
    response_format := text; cert_file := ""; key_file := "" |} false [EInvoke "GET" [AValue (VString "http://x")] false] 0%nat) eq_refl).
Defined.
