(* ===== verification/Process.v ===== *)
(** * Process worker: [src/workers/process/process.cpp]

    A child process: messages go to its standard input, its output and life become
    messages and events.  The process is Qt's [QProcess]: its state moves with the
    signals it emits, which are events of the model; Qt's conversions of text are
    parameters. *)
From S2P Require Import Prelude QVariant Utils Worker Config BinaryWorker.
Set Warnings "-register-all".

(** ** Configuration *)
Definition BinaryConfig_type : CType := CStruct "BinaryConfig" [
  ("name", COptional CString); ("category", COptional CString);
  ("framing", CEnum "BinaryFraming" [("slip", 0); ("line", 1)]);
  ("protocol", CEnum "BinaryProtocol" [("msgpack", 0); ("text", 1)]);
  ("crc", COptional (CEnum "BinaryCrc" [("msgpack", 0)]))].
Definition ProcessConfig_type : CType := CStruct "ProcessConfig" [
  ("name", COptional CString); ("category", COptional CString);
  ("program", CString); ("arguments", CDefault (CVector CString) (XVec []));
  ("working_dir", COptional CString); ("autostart", CDefault CBool (XBool true));
  ("merge_stderr", CDefault CBool (XBool false)); ("binary", COptional BinaryConfig_type)].
Record ProcessConfig := {
  worker_config : WorkerConfig;
  program : string;
  arguments : list string;
  autostart : bool;
  merge_stderr : bool;
  binary : option (WorkerConfig * BinaryConfig)
}.
(** What the base class is given: the part of [binary], or nothing. *)
Definition base_config (c : ProcessConfig) : WorkerConfig :=
  match binary c with Some (w, _) => w | None => {| name := None; category := None; generated_name := false |} end.

(** ** State and effects *)
Inductive ProcState := NotRunning | Starting | Running.
#[export] Instance ProcState_eq : EqDecision ProcState. Proof. solve_decision. Defined.
Inductive ProcAct :=
| StartProgram (prog : string) (args : list string)
| Terminate
| Kill
| SendSignal (pid sig : Z)
| WriteStdin (bytes : list Z)
| CloseStdin
| Emit (e : Emission)
| DestroyWorker.
Record Proc := { pstate : ProcState; pid : Z; acts : list ProcAct }.
Definition act (a : ProcAct) (st : Proc) : Proc := {| pstate := pstate st; pid := pid st; acts := acts st ++ [a] |}.
Definition log (lvl : LogLevel) (t : string) : Proc -> Proc := act (Emit (LogLine lvl t)).
Definition set_state (s : ProcState) (p : Z) (st : Proc) : Proc := {| pstate := s; pid := p; acts := acts st |}.

(** ** Signals by name *)
Definition SIGHUP : Z := 1.
Definition SIGINT : Z := 2.
Definition SIGQUIT : Z := 3.
Definition SIGKILL : Z := 9.
Definition SIGUSR1 : Z := 10.
Definition SIGUSR2 : Z := 12.
Definition SIGTERM : Z := 15.
Definition signal_names : list (string * Z) := [("INT", SIGINT); ("HUP", SIGHUP); ("TERM", SIGTERM); ("KILL", SIGKILL);
  ("QUIT", SIGQUIT); ("USR1", SIGUSR1); ("USR2", SIGUSR2)].
Fixpoint named (s : string) (l : list (string * Z)) : option Z :=
  match l with
  | [] => None
  | (n, z) :: l => if bool_decide (n = s) then Some z else named s l
  end.
Definition strip_SIG (s : string) : string := if bool_decide (str_take 3 s = "SIG") then substring 3 (String.length s - 3) s else s.
Class ProcOps := {
  toUpper : string -> string;              (* QString::toUpper *)
  toInt : string -> option Z;              (* QByteArray::toInt *)
  fromUtf8 : list Z -> string
}.

Section process.
Context {CO : ConfigOps} {PO : ProcOps}.
Context (ParseMsgPack : list Z -> res (QVar * nat)) (DumpMsgPack : QVar -> list Z) (sgn : bool).
Context (c : ProcessConfig).
Notation toStr := (toStr (QVariantOps := variant)).

Definition launch (st : Proc) : Proc :=
  if negb (bool_decide (pstate st = NotRunning)) then log warn "already running" st
  else act (StartProgram (program c) (arguments c)) (set_state Starting (pid st) st).
Definition signal_number (arg : QVar) : res Z :=
  match arg with
  | VInt z => Ok z
  | VLongLong z => Ok (wraps 32 z)
  | _ =>
      let n := strip_SIG (toUpper (toStr arg)) in
      match toInt n with
      | Some z => Ok z
      | None => match named n signal_names with
                | Some z => Ok z
                | None => Raise (("Signal: unknown signal name '" +:+ toStr arg) +:+ "'")
                end
      end
  end.
(** [killed]: [::kill] returned 0. *)
Definition Signal (args : list QVar) (killed : bool) (st : Proc) : Proc * res unit :=
  match args with
  | [] => (st, Raise "Signal(name_or_num): missing argument")
  | arg :: _ =>
      match signal_number arg with
      | Raise m => (st, Raise m)
      | Ok sig =>
          if pid st <=? 0 then (st, Raise "Signal: process not running")
          else if sig =? SIGTERM then (act Terminate st, Ok tt)
          else if sig =? SIGKILL then (act Kill st, Ok tt)
          else (act (SendSignal (pid st) sig) st, if killed then Ok tt else Raise "Signal: kill failed")
      end
  end.
Definition SendBinary (bytes : list Z) (st : Proc) : Proc := if bool_decide (pstate st = Running) then act (WriteStdin bytes) st else st.
Definition OnMsg (msg : QVar) (st : Proc) : Proc * res unit :=
  match binary c with
  | Some (_, b) => match BinaryWorker.OnMsg DumpMsgPack sgn b msg with Ok bytes => (SendBinary bytes st, Ok tt) | Raise m => (st, Raise m) end
  | None =>
      if negb (bool_decide (pstate st = Running)) then (log warn "stdin write ignored: process not running" st, Ok tt)
      else match msg with
           | VBytes b => (act (WriteStdin b) st, Ok tt)
           | VString s => (act (WriteStdin (bytes_of_string s)) st, Ok tt)
           | _ => (log warn "only strings/bytes can be written to stdin" st, Ok tt)
           end
  end.
Definition Write (args : list QVar) (st : Proc) : Proc * res unit :=
  match args with
  | [] => (st, Raise "Write(data): missing data argument")
  | v :: _ => (act (WriteStdin (match v with VBytes b => b | _ => bytes_of_string (toStr v) end)) st, Ok tt)
  end.
Definition State (st : Proc) : string := match pstate st with NotRunning => "not_running" | Starting => "starting" | Running => "running" end.
(** [Destroy]: whether the process ended in time after [terminate]. *)
Definition Destroy (ended : bool) (st : Proc) : Proc :=
  let st := if bool_decide (pstate st = NotRunning) then st
            else let st := act Terminate st in if ended then set_state NotRunning 0 st else act Kill st in
  act DestroyWorker st.

(** ** Signals of [QProcess] *)
(** Standard output, in binary mode: the buffer is of the handler. *)
Definition on_stdout (bytes : list Z) (st : Proc) : Proc :=
  match binary c with
  | Some (_, b) =>
      match BinaryWorker.ReceiveBinary ParseMsgPack b bytes with
      | (Ok msgs, _, errs) => fold_left (fun st m => act (Emit (SendMsg m)) st) msgs (fold_left (fun st e => log error e st) errs st)
      | (Raise _, _, errs) => fold_left (fun st e => log error e st) errs st
      end
  | None => act (Emit (SendMsgField "stdout" (VString (fromUtf8 bytes)))) st
  end.
Definition on_stderr (bytes : list Z) (st : Proc) : Proc := act (Emit (SendEventField "stderr" (VString (fromUtf8 bytes)))) st.
Definition on_started (p : Z) (st : Proc) : Proc :=
  act (Emit (SendEventField "started" (VLongLong p))) (log info (("started (pid " +:+ to_string p) +:+ ")") (set_state Running p st)).
Definition on_finished (code : Z) (crashed : bool) (st : Proc) : Proc :=
  let st := set_state NotRunning 0 st in
  let ev := [("finished", VBool true)] in
  if crashed then act (Emit (SendEvent (VMap (qm_insert "signal" (VBool true) ev)))) (log info "finished (terminated by signal)" st)
  else act (Emit (SendEvent (VMap (qm_insert "exit_code" (VInt code) ev)))) (log info (("finished (exit code " +:+ to_string code) +:+ ")") st).
(** [FailedToStart] is the one error after which the process is not running. *)
Definition on_error (err : string) (st : Proc) : Proc :=
  let st := if bool_decide (err = "FailedToStart") then set_state NotRunning 0 st else st in
  act (Emit (SendEventField "error" (VString err))) (log warn ("process error: " +:+ err) st).

(** ** Everything that happens to the worker *)
Inductive ProcEvent :=
| EStart
| ESignal (args : list QVar) (killed : bool)
| EMsg (msg : QVar)
| ETerminate
| EKill
| EStarted (p : Z)
| EFinished (code : Z) (crashed : bool)
| EError (err : string)
| EStdout (bytes : list Z)
| EStderr (bytes : list Z).
(** A signal of the process comes when [QProcess] is in the state that allows it;
    the id of a running process is positive. *)
Definition proc_event (e : ProcEvent) (st : Proc) : Proc :=
  match e with
  | EStart => launch st
  | ESignal args killed => (Signal args killed st).1
  | EMsg msg => (OnMsg msg st).1
  | ETerminate => act Terminate st
  | EKill => act Kill st
  | EStarted p => if (bool_decide (pstate st = Starting) && (0 <? p))%bool then on_started p st else st
  | EFinished code crashed => if bool_decide (pstate st = Running) then on_finished code crashed st else st
  | EError err => if (bool_decide (err = "FailedToStart") && negb (bool_decide (pstate st = Starting)))%bool then st else on_error err st
  | EStdout bytes => on_stdout bytes st
  | EStderr bytes => on_stderr bytes st
  end.
Definition proc_run (es : list ProcEvent) (st : Proc) : Proc := fold_left (fun st e => proc_event e st) es st.
(** The constructor. *)
Definition Process_new : res Proc :=
  if bool_decide (program c = "") then Raise "Process: 'program' must not be empty"
  else let st := {| pstate := NotRunning; pid := 0; acts := [] |} in Ok (if autostart c then launch st else st).
End process.

(** ** Lemmas *)
Section process_lemmas.
Context {CO : ConfigOps} {PO : ProcOps}.
Context (ParseMsgPack : list Z -> res (QVar * nat)) (DumpMsgPack : QVar -> list Z) (sgn : bool) (c : ProcessConfig).
(** Each act is allowed by the state it is done in. *)
Definition allowed (st st' : Proc) (a : ProcAct) : Prop :=
  match a with
  | StartProgram p l => pstate st = NotRunning /\ pstate st' = Starting /\ p = program c /\ l = arguments c
  | WriteStdin _ => pstate st = Running
  | SendSignal p _ => p = pid st /\ 0 < p /\ pstate st = Running
  | DestroyWorker => False
  | _ => True
  end.
Definition has_pid (st : Proc) : Prop := (pstate st = Running /\ 0 < pid st) \/ (pstate st <> Running /\ pid st = 0).
Definition allowed_step (st st' : Proc) : Prop := has_pid st' /\ exists new, acts st' = acts st ++ new /\ Forall (allowed st st') new.
Lemma allowed_same st st' new : has_pid st -> pstate st' = pstate st -> pid st' = pid st -> acts st' = acts st ++ new -> Forall (allowed st st') new -> allowed_step st st'.
Proof. intros H Es Ep Ea Hn. split; [unfold has_pid in *; by rewrite Es, Ep|by exists new]. Qed.
Lemma allowed_none st : has_pid st -> allowed_step st st.
Proof. intros H. apply (allowed_same st st []); try done. by rewrite app_nil_r. Qed.
Lemma allowed_act a st : has_pid st -> allowed st st a -> allowed_step st (act a st).
Proof. intros H Ha. apply (allowed_same st _ [a]); try done. constructor; [|done]. by destruct a. Qed.
Lemma logs_acts (es : list string) st : fold_left (fun st e => log error e st) es st = {| pstate := pstate st; pid := pid st; acts := acts st ++ map (fun e => Emit (LogLine error e)) es |}.
Proof. revert st. induction es as [|e es IH]; intros st; cbn; [rewrite app_nil_r; by destruct st|]. rewrite IH. cbn. by rewrite <- (assoc_L (++)). Qed.
Lemma msgs_acts (ms : list QVar) st : fold_left (fun st m => act (Emit (SendMsg m)) st) ms st = {| pstate := pstate st; pid := pid st; acts := acts st ++ map (fun m => Emit (SendMsg m)) ms |}.
Proof. revert st. induction ms as [|m ms IH]; intros st; cbn; [rewrite app_nil_r; by destruct st|]. rewrite IH. cbn. by rewrite <- (assoc_L (++)). Qed.
Lemma allowed_emits {B} (f : B -> Emission) (l : list B) st st' : Forall (allowed st st') (map (fun x => Emit (f x)) l).
Proof. induction l; by constructor. Qed.
Lemma allowed_two st st' e1 e2 : has_pid st' -> acts st' = (acts st ++ [Emit e1]) ++ [Emit e2] -> allowed_step st st'.
Proof. intros H E. split; [done|]. exists [Emit e1; Emit e2]. rewrite E, <- (assoc_L (++)). by repeat constructor. Qed.
Lemma event_allowed e st : has_pid st -> allowed_step st (proc_event ParseMsgPack DumpMsgPack sgn c e st).
Proof.
  intros H. destruct e as [|args killed|msg| | |p|code crashed|err|bytes|bytes]; cbn [proc_event].
  - unfold launch. destruct (bool_decide (pstate st = NotRunning)) eqn:E; cbn [negb]; [|by apply allowed_act].
    apply bool_decide_eq_true in E. assert (pid st = 0) by (destruct H as [[? _]|[_ ?]]; [congruence|done]).
    split; [by right|]. exists [StartProgram (program c) (arguments c)]. split; [done|by repeat constructor].
  - unfold Signal. destruct args as [|arg args]; [by apply allowed_none|]. destruct (signal_number arg) as [sig|]; [|by apply allowed_none].
    destruct (Z.leb_spec (pid st) 0) as [|Hp]; [by apply allowed_none|]. destruct (sig =? SIGTERM); [by apply allowed_act|]. destruct (sig =? SIGKILL); [by apply allowed_act|].
    apply allowed_act; try done. cbn. destruct H as [[? ?]|[_ ?]]; [done|lia].
  - unfold OnMsg, SendBinary. destruct (binary c) as [[w b]|].
    + destruct (BinaryWorker.OnMsg _ _ b msg); [|by apply allowed_none]. case_bool_decide; [by apply allowed_act|by apply allowed_none].
    + case_bool_decide; cbn [negb]; [|by apply allowed_act]. destruct msg; by apply allowed_act.
  - by apply allowed_act.
  - by apply allowed_act.
  - destruct (_ && _)%bool eqn:E; [|by apply allowed_none]. bool_to_prop. by eapply allowed_two; [left|].
  - case_bool_decide; [|by apply allowed_none]. unfold on_finished. destruct crashed; (eapply allowed_two; [by right|done]).
  - destruct (_ && _)%bool; [by apply allowed_none|]. unfold on_error. case_bool_decide; (eapply allowed_two; [first [by right|exact H]|done]).
  - unfold on_stdout. destruct (binary c) as [[w b]|]; [|by apply allowed_act].
    destruct (ReceiveBinary _ b bytes) as [[[msgs|m] buf] errs].
    + rewrite logs_acts, msgs_acts. apply (allowed_same st _ (map (fun e => Emit (LogLine error e)) errs ++ map (fun m => Emit (SendMsg m)) msgs)); try done.
      { cbn. by rewrite <- (assoc_L (++)). } apply Forall_app. split; apply allowed_emits.
    + rewrite logs_acts. eapply allowed_same; try done. apply allowed_emits.
  - by apply allowed_act.
Qed.
Lemma run_pid es : forall st, has_pid st -> has_pid (proc_run ParseMsgPack DumpMsgPack sgn c es st).
Proof. induction es as [|e es IH]; [done|]. intros st H. apply (IH (proc_event ParseMsgPack DumpMsgPack sgn c e st)). by apply event_allowed. Qed.
End process_lemmas.

(** * Properties *)

(** Whatever the script asks for and whatever the child does, in any order, a
    worker has one child at a time: a program is started only when none runs or
    starts, messages are written only to a running child, and a signal goes to the
    positive id of a running child - never to a group or to every process. *)
Theorem process_safe {CO : ConfigOps} {PO : ProcOps} ParseMsgPack DumpMsgPack sgn c es e st0 : Process_new c = Ok st0 ->
  let st := proc_run ParseMsgPack DumpMsgPack sgn c es st0 in
  let st' := proc_event ParseMsgPack DumpMsgPack sgn c e st in
  exists new, acts st' = acts st ++ new /\ Forall (allowed c st st') new.
Proof.
  intros H0 st st'. refine (proj2 (event_allowed _ _ _ _ e st _)). apply run_pid. revert H0. unfold Process_new.
  case_bool_decide; [done|]. intros [= <-]. destruct (autostart c); by right.
Qed.
Definition sample_config : ProcessConfig :=
  {| worker_config := {| name := Some "child"; category := None; generated_name := false |}; program := "cat"; arguments := []; autostart := true;
     merge_stderr := false; binary := Some ({| name := None; category := None; generated_name := false |}, {| framing := framing_slip; protocol := proto_text; crc := None |}) |}.
#[export] Instance tiny_proc : ProcOps := {| toUpper s := s; toInt _ := None; fromUtf8 := string_of_bytes |}.
Lemma process_safe_witness :
  let st := {| pstate := Running; pid := 42; acts := [StartProgram "cat" []; Emit (LogLine info "started (pid 42)"); Emit (SendEventField "started" (VLongLong 42))] |} in
  exists new, acts (act (SendSignal 42 2) st) = acts st ++ new /\ Forall (allowed sample_config st (act (SendSignal 42 2) st)) new.
Proof.
  exact (process_safe (CO := tiny_config) (fun _ => Raise "") (fun _ => []) true sample_config [EStarted 42] (ESignal [VInt 2] true)
    {| pstate := Starting; pid := 0; acts := [StartProgram "cat" []] |} eq_refl).
Defined.

(** A frame that the operating system delivers in two reads is lost: the buffer of
    the handler goes with it. *)
Theorem split_frame_lost :
  let run bytes := acts (proc_run (CO := tiny_config) (fun _ => Raise "") (fun _ => []) true sample_config bytes {| pstate := Running; pid := 42; acts := [] |}) in
  run [EStdout [104; 105; 192]] = [Emit (SendMsg (VString "hi"))] /\ run [EStdout [104]; EStdout [105; 192]] = [Emit (SendMsg (VString "i"))].
Proof. vm_compute. done. Qed.
(** The name a script gives a process is not the worker's. *)
Theorem process_name_dropped : name (worker_config sample_config) = Some "child" /\ name (base_config sample_config) = None.
Proof. done. Qed.
(** A signal's name is accepted in any case and with its prefix. *)
Theorem signal_by_name {CO : ConfigOps} (CL : ConfigLaws CO) {PO : ProcOps} n z s : (n, z) ∈ signal_names -> toInt n = None ->
  toUpper s = n \/ toUpper s = "SIG" +:+ n -> signal_number (VString s) = Ok z.
Proof.
  intros Hin Hi Hs. unfold signal_number. rewrite (toStr_string (QVariantLaws := variant_laws)).
  assert (strip_SIG (toUpper s) = n) as ->.
  { destruct Hs as [-> | ->]; unfold signal_names in Hin; repeat (apply elem_of_cons in Hin as [Hin|Hin]; [by injection Hin as -> ->|]); by apply elem_of_nil in Hin. }
  rewrite Hi. unfold signal_names in *. repeat (apply elem_of_cons in Hin as [Hin|Hin]; [by injection Hin as -> ->|]). by apply elem_of_nil in Hin.
Qed.
(** A child that does not end in time when its worker is destroyed is killed. *)
Theorem destroyed_child_ends (ended : bool) st : pstate st <> NotRunning ->
  acts (Destroy ended st) = acts st ++ (if ended then [Terminate] else [Terminate; Kill]) ++ [DestroyWorker].
Proof. intros H. unfold Destroy. rewrite bool_decide_eq_false_2 by done. destruct ended; cbn; by rewrite <- ?(assoc_L (++)). Qed.
