(* ===== verification/Sql.v ===== *)
(** * SQL worker: [src/workers/sql/sql.cpp]

    Statements run on a thread of the worker's own: [Exec] queues them there, and
    each result is queued back to the thread of the instance, where its promise is
    settled.  The database is Qt's: a query is what its calls answer. *)
From S2P Require Import Prelude QVariant Config Functions.
Import Functions.Calls.
Set Warnings "-register-all".

(** ** Configuration and start *)
Definition SqlConfig : CType := CStruct "SqlConfig" [
  ("name", COptional CString); ("category", COptional CString);
  ("type", CString); ("db", CString); ("user", COptional CString); ("pass", COptional CString); ("port", COptional (CNum NUShort))].
Record Settings := { sql_type : string; sql_db : string; sql_user : option string; sql_pass : option string; sql_port : option Z }.
Definition default_name (c : Settings) : string := (sql_type c +:+ ":") +:+ sql_db c.
(** The connections of the process, by name; [addDatabase] without a name takes the
    default one and removes the connection that had it. *)
Definition defaultConnection : string := "qt_sql_default_connection".
Record Connection := { owner : nat; opened : bool }.
Definition addDatabase (w : nat) (cs : list (string * Connection)) : list (string * Connection) :=
  qm_insert defaultConnection {| owner := w; opened := false |} cs.
Definition has_connection (w : nat) (cs : list (string * Connection)) : bool :=
  existsb (fun c => ((owner c.2 =? w)%nat && opened c.2)%bool) cs.
(** The constructor: [open] is [db.open()], or its error.  The thread runs from here
    on; only the destructor of a worker that was constructed stops it. *)
Record Started := { connections : list (string * Connection); thread_running : bool; constructed : res unit }.
Definition SqlWorker_new (w : nat) (c : Settings) (open : option string) (cs : list (string * Connection)) : Started :=
  let cs := addDatabase w cs in
  match open with
  | None => {| connections := qm_insert defaultConnection {| owner := w; opened := true |} cs; thread_running := true; constructed := Ok tt |}
  | Some err =>
      {| connections := cs; thread_running := true;
         constructed := Raise ((((("Could not open db '" +:+ sql_type c) +:+ ":") +:+ sql_db c) +:+ "' => '") +:+ err +:+ "'") |}
  end.

(** ** One statement: [doExec] *)
(** What the driver answers: an error of [prepare], of [exec], or the rows. *)
Inductive Answer := PrepareFailed (err : string) | ExecFailed (err : string) | Rows (rows : list (list QVar)).
(** [bindValue(idx++, ...)]: the values by position. *)
Fixpoint bind (idx : Z) (binds : list QVar) : list (Z * QVar) :=
  match binds with
  | [] => []
  | a :: rest => (idx, a) :: bind (idx + 1) rest
  end.
Section sql.
(** The database: a statement with its bound values changes it and answers. *)
Context {DB : Type} (query : string -> list (Z * QVar) -> DB -> DB * Answer).
Definition doExec (raw : string) (binds : list QVar) (db : DB) : DB * Outcome QVar :=
  let '(db, a) := query raw (bind 0 binds) db in
  (db, match a with
       | PrepareFailed e => Throw (Fibers.Err ((((("Could not prepare '" +:+ raw) +:+ "' => '") +:+ e) +:+ "'")))
       | ExecFailed e => Throw (Fibers.Err ((((("Could not execute '" +:+ raw) +:+ "' => '") +:+ e) +:+ "'")))
       | Rows rows => Ret (VList (map VList rows))
       end).

(** ** Exec *)
Record Job := { job : nat; sql : string; values : list QVar }.
Record Sql := {
  db : DB;
  to_run : list Job;                       (* the queue of the worker's thread *)
  to_settle : list (nat * Outcome QVar);   (* the queue of the instance's thread *)
  settled : list (nat * Outcome QVar);
  next_job : nat
}.
Inductive Arg := AValue (v : QVar) | AFunction (fn : nat).
Definition arg_value (a : Arg) : QVar := match a with AValue v => v | AFunction _ => VInvalid end.
Definition arg_function (a : Arg) : option nat := match a with AFunction fn => Some fn | AValue _ => None end.
Definition arg_at (i : nat) (args : list Arg) : Arg := default (AValue VInvalid) (args !! i).
(** The binds and the callback; [toStr] and [toList] are the conversions of
    [QVariant], [returns_promise] whether the caller gets a promise. *)
Definition exec_args {CO : ConfigOps} (args : list Arg) : string * list QVar * option nat :=
  let raw := toStr (arg_value (arg_at 0 args)) in
  match arg_function (arg_at 1 args) with
  | Some cb => (raw, [], Some cb)
  | None => (raw, toList (arg_value (arg_at 1 args)), arg_function (arg_at 2 args))
  end.
Definition returns_promise (args : list Arg) (cb : option nat) : bool :=
  ((length args =? 1)%nat || ((length args =? 2)%nat && match cb with None => true | Some _ => false end))%bool.
Inductive Reply := Promise (p : nat) | Callback (p : nat) (cb : option nat).
Definition Exec {CO : ConfigOps} (args : list Arg) (st : Sql) : res (Sql * Reply) :=
  match args with
  | [] => Raise "Expected at least 2 arguments"
  | _ =>
      let '(raw, binds, cb) := exec_args args in
      let p := next_job st in
      let st := {| db := db st; to_run := to_run st ++ [{| job := p; sql := raw; values := binds |}]; to_settle := to_settle st;
                   settled := settled st; next_job := S p |} in
      Ok (st, if returns_promise args cb then Promise p else Callback p cb)
  end.
(** A turn of the worker's thread, and one of the instance's. *)
Definition db_turn (st : Sql) : Sql :=
  match to_run st with
  | [] => st
  | j :: rest =>
      let '(d, out) := doExec (sql j) (values j) (db st) in
      {| db := d; to_run := rest; to_settle := to_settle st ++ [(job j, out)]; settled := settled st; next_job := next_job st |}
  end.
Definition main_turn (st : Sql) : Sql :=
  match to_settle st with
  | [] => st
  | r :: rest => {| db := db st; to_run := to_run st; to_settle := rest; settled := settled st ++ [r]; next_job := next_job st |}
  end.
Definition sql_init (d : DB) : Sql := {| db := d; to_run := []; to_settle := []; settled := []; next_job := 0 |}.
Inductive SqlEvent := EExec (args : list Arg) | EDb | EMain.
Definition sql_event {CO : ConfigOps} (e : SqlEvent) (st : Sql) : Sql :=
  match e with
  | EExec args => match Exec args st with Ok (st', _) => st' | Raise _ => st end
  | EDb => db_turn st
  | EMain => main_turn st
  end.
Definition sql_run {CO : ConfigOps} (es : list SqlEvent) (st : Sql) : Sql := fold_left (fun st e => sql_event e st) es st.

(** ** The reference: statements one after the other *)
Fixpoint in_sequence (js : list (string * list QVar)) (n : nat) (d : DB) : DB * list (nat * Outcome QVar) :=
  match js with
  | [] => (d, [])
  | (raw, binds) :: js =>
      let '(d, out) := doExec raw binds d in
      let '(d, outs) := in_sequence js (S n) d in (d, (n, out) :: outs)
  end.
(** The statements the calls of [Exec] submit. *)
Definition submitted {CO : ConfigOps} (es : list SqlEvent) : list (string * list QVar) :=
  omap (fun e => match e with EExec (a :: args) => let '(raw, binds, _) := exec_args (a :: args) in Some (raw, binds) | _ => None end) es.
Definition numbered (js : list (string * list QVar)) (n : nat) : list Job := imap (fun i j => {| job := n + i; sql := j.1; values := j.2 |}) js.
Lemma in_sequence_snoc js raw binds n d : in_sequence (js ++ [(raw, binds)]) n d =
  let '(d', outs) := in_sequence js n d in let '(d'', out) := doExec raw binds d' in (d'', outs ++ [((n + length js)%nat, out)]).
Proof.
  revert n d. induction js as [|[r b] js IH]; intros n d; cbn [app in_sequence length].
  - rewrite Nat.add_0_r. by destruct (doExec raw binds d).
  - destruct (doExec r b d) as [d1 o1]. rewrite IH. destruct (in_sequence js (S n) d1) as [d2 outs]. destruct (doExec raw binds d2). cbn. by rewrite Nat.add_succ_r.
Qed.
(** After any events: a prefix of what was submitted has run, in order. *)
Record in_order (js : list (string * list QVar)) (d0 : DB) (st : Sql) : Prop := {
  ord_ran : exists done waiting, js = done ++ waiting /\ to_run st = numbered waiting (length done) /\
    in_sequence done 0 d0 = (db st, settled st ++ to_settle st);
  ord_next : next_job st = length js
}.
Lemma numbered_cons j js n : numbered (j :: js) n = {| job := n; sql := j.1; values := j.2 |} :: numbered js (S n).
Proof. unfold numbered. cbn. rewrite Nat.add_0_r. f_equal. apply imap_ext. intros i x _. cbn. f_equal. lia. Qed.
Lemma numbered_snoc js j n : numbered (js ++ [j]) n = numbered js n ++ [{| job := n + length js; sql := j.1; values := j.2 |}].
Proof. unfold numbered. rewrite imap_app. cbn. by rewrite Nat.add_0_r. Qed.
Lemma db_turn_ok js d0 st : in_order js d0 st -> in_order js d0 (db_turn st).
Proof.
  intros [(done & waiting & Ej & Er & Ei) Hn]. unfold db_turn. destruct waiting as [|[raw binds] waiting]; rewrite Er.
  - cbn. split; [by exists done, []|done].
  - rewrite numbered_cons. cbn [fst snd]. destruct (doExec raw binds (db st)) as [d out] eqn:E. cbn [sql values]. rewrite E. split; [|done].
    exists (done ++ [(raw, binds)]), waiting. split_and!; [by rewrite <- (assoc_L (++))|cbn; rewrite length_app; cbn; f_equal; lia|].
    rewrite in_sequence_snoc, Ei, E. cbn. by rewrite (assoc_L (++)).
Qed.
Lemma main_turn_ok js d0 st : in_order js d0 st -> in_order js d0 (main_turn st).
Proof.
  intros [(done & waiting & Ej & Er & Ei) Hn]. unfold main_turn. destruct (to_settle st) as [|r rest] eqn:E; split; try done.
  - exists done, waiting. by rewrite E.
  - exists done, waiting. split_and!; try done. cbn. rewrite Ei. by rewrite <- (assoc_L (++)).
Qed.
Lemma in_order_run {CO : ConfigOps} es : forall js d0 st, in_order js d0 st -> in_order (js ++ submitted es) d0 (sql_run es st).
Proof.
  induction es as [|e es IH]; intros js d0 st H; [by rewrite app_nil_r|]. change (sql_run (e :: es) st) with (sql_run es (sql_event e st)).
  destruct e as [[|a args]| |]; cbn [sql_event submitted omap list_omap Exec].
  - by apply IH.
  - destruct (exec_args (a :: args)) as [[raw binds] cb] eqn:E. replace (js ++ _) with ((js ++ [(raw, binds)]) ++ submitted es) by (by rewrite <- (assoc_L (++))).
    apply IH. destruct H as [(done & waiting & Ej & Er & Ei) Hn]. split.
    + exists done, (waiting ++ [(raw, binds)]). split_and!; [by rewrite Ej, <- (assoc_L (++))| |done]. cbn. rewrite numbered_snoc, Er, Hn, Ej, length_app. done.
    + cbn. rewrite length_app, Hn. cbn. lia.
  - by apply IH, db_turn_ok.
  - by apply IH, main_turn_ok.
Qed.
Lemma in_order_init d0 : in_order [] d0 (sql_init d0).
Proof. split; [|done]. by exists [], []. Qed.
Lemma in_sequence_prefix js more n d : exists outs, (in_sequence (js ++ more) n d).2 = (in_sequence js n d).2 ++ outs.
Proof.
  revert n d. induction js as [|[raw binds] js IH]; intros n d; [by eexists|]. cbn [app in_sequence]. destruct (doExec raw binds d) as [d1 o].
  destruct (IH (S n) d1) as [outs E]. exists outs. destruct (in_sequence (js ++ more) (S n) d1), (in_sequence js (S n) d1). cbn in *. by rewrite E.
Qed.
Lemma db_turns_empty n : forall st, length (to_run st) = n -> to_run (Nat.iter n db_turn st) = [].
Proof.
  induction n as [|n IH]; intros st H; [by apply nil_length_inv|]. rewrite Nat.iter_succ_r. apply IH. unfold db_turn.
  destruct (to_run st) as [|j rest]; [done|]. destruct (doExec _ _ _). cbn in *. lia.
Qed.
Lemma db_turns_ok js d0 n : forall st, in_order js d0 st -> in_order js d0 (Nat.iter n db_turn st).
Proof. induction n as [|n IH]; intros st H; [done|]. rewrite Nat.iter_succ_r. by apply IH, db_turn_ok. Qed.
Lemma main_turns n : forall st, length (to_settle st) = n ->
  settled (Nat.iter n main_turn st) = settled st ++ to_settle st /\ db (Nat.iter n main_turn st) = db st /\ to_run (Nat.iter n main_turn st) = to_run st.
Proof.
  induction n as [|n IH]; intros st H; [apply nil_length_inv in H; by rewrite H, app_nil_r|]. rewrite Nat.iter_succ_r. unfold main_turn at 2 4 6.
  destruct (to_settle st) as [|r rest] eqn:E; [done|]. match goal with |- context [Nat.iter n main_turn ?s] => destruct (IH s) as (H1 & H2 & H3) end.
  - cbn in *. lia.
  - rewrite H1, H2, H3. cbn. by rewrite <- (assoc_L (++)).
Qed.
(** Both threads run until their queues are empty. *)
Definition drain (st : Sql) : Sql :=
  let st := Nat.iter (length (to_run st)) db_turn st in Nat.iter (length (to_settle st)) main_turn st.
End sql.

(** * Properties *)

(** Statements behave as if they ran one after the other: however the calls of
    [Exec] and the turns of the two threads interleave, the results settled so far
    are the first ones of the statements run in the order of their calls, each run
    once with the values given for it; and once both queues have drained every
    promise is settled with its own result. *)
Theorem exec_in_order {DB} (query : string -> list (Z * QVar) -> DB -> DB * Answer) {CO : ConfigOps} es d0 :
  let st := sql_run query es (sql_init d0) in
  let '(d, outs) := in_sequence query (submitted es) 0 d0 in
  settled st `prefix_of` outs /\ settled (drain query st) = outs /\ db (drain query st) = d.
Proof.
  cbv zeta. set (st := sql_run query es (sql_init d0)). assert (in_order query (submitted es) d0 st) as H by (apply (in_order_run query es []), in_order_init).
  pose proof (db_turns_ok query _ _ (length (to_run st)) st H) as Hd. pose proof (db_turns_empty query _ st eq_refl) as He.
  unfold drain. set (st' := Nat.iter (length (to_run st)) (db_turn query) st) in *. destruct Hd as [(done' & waiting' & Ej' & Er' & Ei') _].
  destruct (main_turns _ st' eq_refl) as (Hs & Hdb & _). rewrite Hs, Hdb. rewrite He in Er'.
  assert (waiting' = []) as -> by (destruct waiting' as [|x w]; [done|by rewrite numbered_cons in Er']). rewrite app_nil_r in Ej'.
  destruct H as [(done & waiting & Ej & _ & Ei) _]. destruct (in_sequence_prefix query done waiting 0 d0) as [more Hp]. rewrite <- Ej, Ei in Hp.
  rewrite Ej' in Hp |- *. rewrite Ei' in *. cbn in Hp. split; [|done]. exists (to_settle st ++ more). by rewrite Hp, <- (assoc_L (++)).
Qed.
(** The default connection has one owner: a second worker leaves the first without
    a database. *)
Theorem second_worker_takes_connection a b ca cb cs : a <> b -> cs = connections (SqlWorker_new a ca None []) ->
  has_connection a cs = true /\ has_connection a (connections (SqlWorker_new b cb None cs)) = false.
Proof.
  intros Hne ->. unfold has_connection, SqlWorker_new, addDatabase. cbn [connections]. rewrite !qm_insert_insert. cbn [qm_insert existsb snd owner opened].
  by rewrite Nat.eqb_refl, (proj2 (Nat.eqb_neq b a)) by done.
Qed.
(** A constructor that throws leaves its thread running; no destructor will stop it. *)
Theorem failed_start_leaves_thread w c err cs : let s := SqlWorker_new w c (Some err) cs in
  thread_running s = true /\ is_ok (constructed s) = false.
Proof. done. Qed.
