(* ===== verification/Pretty.v ===== *)
(** * Pretty tracebacks: [src/pretty.cpp]

    A log message that holds a Lua traceback is laid out anew: the error, the marker
    and one frame per line, blank lines dropped, paths under the working directory
    shortened, pieces coloured when the output is a terminal.  A [string_view] is the
    list of its characters, a position in it the rest that starts there; the escape
    codes are fmt's. *)
From S2P Require Import Prelude Worker.
Set Warnings "-register-all".

Notation text := (list ascii).
Notation "'txt' s" := (String.list_ascii_of_string s) (at level 10, only parsing).

(** ** Styles *)
Inductive Color := red | green | yellow | cyan.
Record TextStyle := { bold : bool; faint : bool; fg : option Color }.
Definition plain : TextStyle := {| bold := false; faint := false; fg := None |}.
Definition kMeta : TextStyle := {| bold := false; faint := true; fg := None |}.
Definition kLabel : TextStyle := {| bold := true; faint := false; fg := Some red |}.
Definition kMessage : TextStyle := {| bold := true; faint := false; fg := Some red |}.
Definition kMarker : TextStyle := {| bold := false; faint := true; fg := None |}.
Definition kErrorLoc : TextStyle := {| bold := true; faint := false; fg := Some cyan |}.
Definition kFrameLoc : TextStyle := {| bold := false; faint := false; fg := Some cyan |}.
Definition kCFrame : TextStyle := {| bold := false; faint := true; fg := Some yellow |}.
Definition MetadataStyle (color : bool) : TextStyle := if color then kMeta else plain.
Definition LevelStyle (lvl : LogLevel) (color : bool) : TextStyle :=
  if negb color then plain
  else match lvl with
       | debug => {| bold := false; faint := true; fg := None |}
       | info => {| bold := false; faint := false; fg := Some green |}
       | warn => {| bold := false; faint := false; fg := Some yellow |}
       | error => {| bold := true; faint := false; fg := Some red |}
       | disabled => plain
       end.
(** [ColorizeLogs]: the two environment variables and whether stderr is a terminal. *)
Definition ColorizeLogs (CLICOLOR_FORCE NO_COLOR : option string) (stderrIsTty : bool) : bool :=
  match CLICOLOR_FORCE with
  | Some force => if negb (bool_decide (force = "") || bool_decide (force = "0")) then true
                  else match NO_COLOR with Some no => if negb (bool_decide (no = "")) then false else stderrIsTty | None => stderrIsTty end
  | None => match NO_COLOR with Some no => if negb (bool_decide (no = "")) then false else stderrIsTty | None => stderrIsTty end
  end.

(** ** Text *)
Definition chr (n : nat) : ascii := ascii_of_nat n.
Definition slash : ascii := "/"%char.
Definition colon : ascii := ":"%char.
Definition newline : ascii := chr 10.
Definition is_blank (c : ascii) : bool := (bool_decide (c = " "%char) || bool_decide (c = chr 9) || bool_decide (c = chr 13))%bool.
Fixpoint trimFront (s : text) : text :=
  match s with
  | c :: s' => if is_blank c then trimFront s' else s
  | [] => []
  end.
Fixpoint trimBack (s : text) : text :=
  match s with
  | [] => []
  | c :: s' => match trimBack s' with
               | [] => if is_blank c then [] else [c]
               | s' => c :: s'
               end
  end.
Definition trim (s : text) : text := trimBack (trimFront s).
Definition isPathBoundary (c : ascii) : bool :=
  bool_decide (c ∈ [slash; "<"%char; "("%char; "'"%char; chr 34; " "%char; "="%char]).
Fixpoint starts_with (p s : text) : option text :=
  match p, s with
  | [], _ => Some s
  | c :: p, d :: s => if bool_decide (c = d) then starts_with p s else None
  | _ :: _, [] => None
  end.
(** [s.find(dir)]: what is before the first occurrence and what is after it. *)
Fixpoint find (dir s : text) : option (text * text) :=
  match starts_with dir s with
  | Some rest => Some ([], rest)
  | None => match s with
            | [] => None
            | c :: s => '(before, rest) ← find dir s; Some (c :: before, rest)
            end
  end.
Definition last_char (prev : option ascii) (s : text) : option ascii := match last s with Some c => Some c | None => prev end.
(** [prev] is the character before [s], if any. *)
Fixpoint shorten_loop (fuel : nat) (dir : text) (prev : option ascii) (s : text) : text :=
  match fuel with
  | O => s
  | S fuel =>
      match s with
      | [] => []
      | _ =>
          match find dir s with
          | None => s
          | Some (before, rest) =>
              let bounded := match last_char prev before with None => true | Some c => isPathBoundary c end in
              match bounded, rest with
              | true, c :: rest' =>
                  if bool_decide (c = slash) then before ++ shorten_loop fuel dir (Some slash) rest'
                  else before ++ dir ++ shorten_loop fuel dir (last dir) rest
              | _, _ => before ++ dir ++ shorten_loop fuel dir (last dir) rest
              end
          end
      end
  end.
Definition appendShortened (dir : text) (s : text) : text :=
  if (length dir <? 2)%nat then s else shorten_loop (length s) dir None s.
Definition isdigit (c : ascii) : bool := let n := nat_of_ascii c in ((48 <=? n) && (n <=? 57))%nat.
Fixpoint digits (s : text) : text * text :=
  match s with
  | c :: s' => if isdigit c then let '(ds, rest) := digits s' in (c :: ds, rest) else ([], s)
  | [] => ([], [])
  end.
(** The location and the rest; [None] when there is no [":<digits>:"]. *)
Fixpoint location (s : text) : option (text * text) :=
  match s with
  | [] => None
  | c :: s' =>
      let further := '(loc, rest) ← location s'; Some (c :: loc, rest) in
      if bool_decide (c = colon) then
        match digits s' with
        | (d :: ds, e :: rest) => if bool_decide (e = colon) then Some (c :: d :: ds ++ [colon], rest) else further
        | _ => further
        end
      else further
  end.
Definition splitLocation (s : text) : text * text := default ([], s) (location s).

(** ** The printer *)
Section printer.
Context (styled : TextStyle -> text -> text).      (* fmt: the text between escape codes *)
Context (cwd : text) (color : bool).
Record Printer := { out : text; first : bool }.
Definition sep (p : Printer) : Printer := {| out := if first p then out p else out p ++ [newline]; first := false |}.
Definition append (s : text) (p : Printer) : Printer := {| out := out p ++ s; first := first p |}.
Definition put (s : text) (style : TextStyle) (p : Printer) : Printer :=
  append (if color then styled style (appendShortened cwd s) else appendShortened cwd s) p.
Definition kHeaderIndent : text := txt "  ".
Definition kFrameIndent : text := txt "    ".
Definition kMarkerText : text := txt "stack traceback:".
Definition label (raw : text) (p : Printer) : Printer :=
  match trim raw with
  | [] => p
  | t => put t kLabel (append kHeaderIndent (sep p))
  end.
Definition marker (raw : text) (p : Printer) : Printer := put (trim raw) kMarker (append kHeaderIndent (sep p)).
(** What follows "[C]", without its colon. *)
Definition c_rest (s : text) : text :=
  match trimFront s with
  | c :: s' => if bool_decide (c = colon) then trimFront s' else c :: s'
  | [] => []
  end.
Definition put_tail (t : text) (style : TextStyle) (p : Printer) : Printer :=
  match t with
  | [] => p
  | t => put t style (append (txt " ") p)
  end.
Definition line (raw indent : text) (errorLine : bool) (p : Printer) : Printer :=
  match trim raw with
  | [] => p
  | t =>
      let p := append indent (sep p) in
      match starts_with (txt "[C]") t with
      | Some s =>
          let p := append [colon] (put (txt "[C]") kCFrame p) in
          put_tail (c_rest s) plain p
      | None =>
          match splitLocation t with
          | ([], _) => put t plain p
          | (loc, rest) =>
              let p := append [colon] (put (take (length loc - 1) loc) (if errorLine then kErrorLoc else kFrameLoc) p) in
              put_tail (trimFront rest) (if errorLine then kMessage else plain) p
          end
      end
  end.

(** ** [PrettyTraceback] *)
Fixpoint split_lines (s : text) : list text :=
  match s with
  | [] => [[]]
  | c :: s =>
      if bool_decide (c = newline) then [] :: split_lines s
      else match split_lines s with l :: ls => (c :: l) :: ls | [] => [[c]] end
  end.
Definition drop_last_empty (lines : list text) : list text :=
  match lines with
  | [_] => lines
  | _ => match last lines with Some [] => take (length lines - 1) lines | _ => lines end
  end.
(** The lines before the marker, the marker, the lines after it. *)
Fixpoint find_marker (lines : list text) : option (list text * text * list text) :=
  match lines with
  | [] => None
  | l :: ls =>
      if bool_decide (trim l = kMarkerText) then Some ([], l, ls)
      else '(before, m, rest) ← find_marker ls; Some (l :: before, m, rest)
  end.
Definition header (i : nat) (l : text) (p : Printer) : Printer :=
  if (bool_decide (i = 0%nat) && bool_decide ((splitLocation (trim l)).1 = []))%bool then label l p else line l kHeaderIndent true p.
Fixpoint headers (i : nat) (ls : list text) (p : Printer) : Printer :=
  match ls with
  | [] => p
  | l :: ls => headers (S i) ls (header i l p)
  end.
Definition frames (ls : list text) (p : Printer) : Printer := fold_left (fun p l => line l kFrameIndent false p) ls p.
Definition PrettyTraceback (msg : text) : option text :=
  '(before, m, after) ← find_marker (drop_last_empty (split_lines msg));
  Some (out (frames after (marker m (headers 0 before {| out := []; first := true |})))).
End printer.

(** ** Shortening: a reference description
    Only the working directory and the slash after it are removed, and only where a
    path begins. *)
Inductive Shortened (dir : text) : option ascii -> text -> text -> Prop :=
| short_end prev s : Shortened dir prev s s
| short_cut prev before rest o :
    match last_char prev before with None => True | Some c => isPathBoundary c = true end ->
    Shortened dir (Some slash) rest o -> Shortened dir prev (before ++ dir ++ slash :: rest) (before ++ o)
| short_keep prev before rest o : Shortened dir (last dir) rest o -> Shortened dir prev (before ++ dir ++ rest) (before ++ dir ++ o).
Lemma starts_with_spec p : forall s rest, starts_with p s = Some rest <-> s = p ++ rest.
Proof.
  induction p as [|c p IH]; intros s rest; [cbn; naive_solver|]. destruct s as [|d s]; [done|]. cbn. case_bool_decide as Hc.
  - subst. rewrite IH. naive_solver.
  - naive_solver.
Qed.
Lemma find_spec dir : forall s before rest, find dir s = Some (before, rest) -> s = before ++ dir ++ rest.
Proof.
  intros s. induction s as [|c s IH]; intros before rest; cbn [find]; destruct (starts_with dir _) as [r|] eqn:E; try done.
  - intros [= <- <-]. by apply starts_with_spec in E.
  - intros [= <- <-]. by apply starts_with_spec in E.
  - destruct (find dir s) as [[b r]|] eqn:F; [|done]. cbn. intros [= <- <-]. by rewrite (IH b r).
Qed.
Lemma find_none dir : forall s, find dir s = None -> forall a b, s <> a ++ dir ++ b.
Proof.
  intros s. induction s as [|c s IH]; cbn [find]; destruct (starts_with dir _) as [r|] eqn:E; try done; intros F a b Hs.
  - destruct a; [|done]. cbn in Hs. assert (starts_with dir [] = Some b) by by apply starts_with_spec. congruence.
  - destruct a as [|d a]; cbn in Hs.
    + assert (starts_with dir (c :: s) = Some b) by by apply starts_with_spec. congruence.
    + injection Hs as <- Hs. destruct (find dir s) as [[? ?]|] eqn:F'; [done|]. by apply (IH eq_refl a b).
Qed.
Lemma shorten_loop_spec fuel dir : forall prev s, Shortened dir prev s (shorten_loop fuel dir prev s).
Proof.
  induction fuel as [|fuel IH]; intros prev s; [apply short_end|]. cbn [shorten_loop]. destruct s as [|c s]; [apply short_end|].
  destruct (find dir (c :: s)) as [[before rest]|] eqn:F; [|apply short_end]. rewrite (find_spec _ _ _ _ F).
  assert (Shortened dir prev (before ++ dir ++ rest) (before ++ dir ++ shorten_loop fuel dir (last dir) rest)) as Hk by by apply short_keep.
  destruct (match last_char prev before with None => true | Some c => isPathBoundary c end) eqn:Hb; [|done].
  destruct rest as [|d rest]; [done|]. case_bool_decide as Hd; [|done]. subst d. apply short_cut; [|done]. by destruct (last_char prev before).
Qed.

(** ** What the layout keeps: everything but blanks *)
Definition visible (c : ascii) : bool := negb (is_blank c || bool_decide (c = newline)).
Definition squeeze (s : text) : text := List.filter visible s.
Lemma squeeze_app a b : squeeze (a ++ b) = squeeze a ++ squeeze b. Proof. apply List.filter_app. Qed.
Lemma squeeze_cons c s : squeeze (c :: s) = squeeze [c] ++ squeeze s. Proof. apply (squeeze_app [c]). Qed.
Lemma squeeze_blank c : is_blank c = true -> squeeze [c] = []. Proof. intros H. cbn. unfold visible. by rewrite H. Qed.
Lemma squeeze_front s : squeeze (trimFront s) = squeeze s.
Proof. induction s as [|c s IH]; [done|]. cbn [trimFront]. destruct (is_blank c) eqn:E; [|done]. by rewrite (squeeze_cons c s), squeeze_blank. Qed.
Lemma squeeze_back s : squeeze (trimBack s) = squeeze s.
Proof.
  induction s as [|c s IH]; [done|]. cbn [trimBack]. rewrite (squeeze_cons c s), <- IH.
  destruct (trimBack s) as [|d s']; [|apply squeeze_cons]. destruct (is_blank c) eqn:E; [by rewrite squeeze_blank|by rewrite app_nil_r].
Qed.
Lemma squeeze_trim s : squeeze (trim s) = squeeze s. Proof. unfold trim. by rewrite squeeze_back, squeeze_front. Qed.
Lemma split_lines_squeeze s : concat (map squeeze (split_lines s)) = squeeze s.
Proof.
  induction s as [|c s IH]; [done|]. cbn [split_lines]. rewrite (squeeze_cons c s), <- IH. case_bool_decide as Hc.
  - subst c. done.
  - destruct (split_lines s) as [|l ls]; cbn [map concat]; [by rewrite app_nil_r|]. by rewrite (squeeze_cons c l), <- (assoc_L (++)).
Qed.
Lemma drop_last_spec lines : lines = drop_last_empty lines \/ lines = drop_last_empty lines ++ [[]].
Proof.
  unfold drop_last_empty. destruct lines as [|l [|l2 ls]]; [by left|by left|]. destruct (last (l :: l2 :: ls)) as [[|c s]|] eqn:E; [|by left..]. right.
  apply last_Some in E as (ls' & E). rewrite E, length_app. cbn [length]. rewrite Nat.add_sub. by rewrite take_app_length.
Qed.
Lemma find_marker_spec lines b m a : find_marker lines = Some (b, m, a) -> lines = b ++ m :: a /\ trim m = kMarkerText.
Proof.
  revert b. induction lines as [|l ls IH]; intros b; [done|]. cbn [find_marker]. case_bool_decide as Hl; [by intros [= <- <- <-]|].
  destruct (find_marker ls) as [[[b' m'] a']|]; [|done]. cbn. intros [= <- <- <-]. destruct (IH b' eq_refl) as [-> ?]. done.
Qed.
Lemma digits_app s : (digits s).1 ++ (digits s).2 = s.
Proof. induction s as [|c s IH]; [done|]. cbn. destruct (isdigit c); [|done]. destruct (digits s) as [ds rest]. cbn in *. by rewrite IH. Qed.
Lemma location_spec s : forall loc rest, location s = Some (loc, rest) -> s = loc ++ rest /\ loc = take (length loc - 1) loc ++ [colon] /\ loc <> [].
Proof.
  induction s as [|c s IH]; intros loc rest; [done|]. cbn [location].
  assert (forall l r, ('(loc, rest) ← location s; Some (c :: loc, rest)) = Some (l, r) -> c :: s = l ++ r /\ l = take (length l - 1) l ++ [colon] /\ l <> []) as Hf.
  { intros l r. destruct (location s) as [[l' r']|]; [|done]. cbn. intros [= <- <-]. destruct (IH l' r' eq_refl) as (E1 & E2 & E3). split; [by rewrite E1|].
    split; [|done]. destruct l' as [|d l']; [done|]. cbn [length] in *. rewrite Nat.sub_succ, Nat.sub_0_r in *. cbn [take app]. f_equal. exact E2. }
  case_bool_decide as Hc; [|apply Hf]. pose proof (digits_app s) as Hd. destruct (digits s) as [[|d ds] r]; [apply Hf|].
  destruct r as [|e r]; [apply Hf|]. case_bool_decide as He; [|apply Hf]. intros [= <- <-]. subst c e. cbn in Hd. rewrite <- Hd.
  split; [by rewrite <- !app_comm_cons, <- (assoc_L (++))|]. split; [|done].
  change (colon :: d :: ds ++ [colon]) with ((colon :: d :: ds) ++ [colon]). by rewrite length_app, Nat.add_sub, take_app_length.
Qed.
Lemma splitLocation_spec s : let '(loc, rest) := splitLocation s in s = loc ++ rest /\ (loc <> [] -> loc = take (length loc - 1) loc ++ [colon]).
Proof.
  unfold splitLocation. destruct (location s) as [[loc rest]|] eqn:E; [|done]. cbn. by destruct (location_spec _ _ _ E) as (? & ? & _).
Qed.
(** A frame of C as Lua prints it: a colon after "[C]". *)
Definition c_colon (raw : text) : bool :=
  match starts_with (txt "[C]") (trim raw) with
  | Some s => match trimFront s with c :: _ => bool_decide (c = colon) | [] => false end
  | None => true
  end.
(** A piece of a text. *)
Definition piece (t s : text) : Prop := exists a b, s = a ++ t ++ b.
Lemma piece_refl s : piece s s. Proof. exists [], []. by rewrite app_nil_r. Qed.
Lemma piece_trans a b c : piece a b -> piece b c -> piece a c.
Proof. intros (x & y & ->) (u & v & ->). exists (u ++ x), (y ++ v). by rewrite <- !(assoc_L (++)). Qed.
Lemma piece_left a b : piece a (a ++ b). Proof. by exists [], b. Qed.
Lemma piece_right a b : piece b (a ++ b). Proof. exists a, []. by rewrite app_nil_r. Qed.
Lemma trimFront_piece s : piece (trimFront s) s.
Proof. induction s as [|c s IH]; [apply piece_refl|]. cbn. destruct (is_blank c); [|apply piece_refl]. eapply piece_trans; [exact IH|]. apply (piece_right [c]). Qed.
Lemma trimBack_prefix s : exists b, s = trimBack s ++ b.
Proof.
  induction s as [|c s [b IH]]; [by exists []|]. cbn [trimBack]. destruct (trimBack s) as [|d s'].
  - destruct (is_blank c); [by exists (c :: s)|]. exists s. done.
  - exists b. cbn. by rewrite IH at 1.
Qed.
Lemma trim_piece s : piece (trim s) s.
Proof. eapply piece_trans; [|apply trimFront_piece]. unfold trim. destruct (trimBack_prefix (trimFront s)) as [b H]. rewrite H at 2. apply piece_left. Qed.
Lemma split_lines_piece s : forall l, l ∈ split_lines s -> piece l s.
Proof.
  assert (exists l ls, split_lines s = l :: ls /\ (exists b, s = l ++ b) /\ forall k, k ∈ ls -> piece k s) as (l & ls & E & (b & Hb) & Hls).
  { induction s as [|c s (l & ls & E & (b & Hb) & Hls)].
    - exists [], []. split_and!; [done|by exists []|by intros k ?%not_elem_of_nil].
    - cbn [split_lines]. case_bool_decide.
      + exists [], (split_lines s). split_and!; [done|by exists (c :: s)|]. intros k Hk. rewrite E in Hk.
        eapply piece_trans; [|apply (piece_right [c])]. apply elem_of_cons in Hk as [->|Hk]; [rewrite Hb at 1; apply piece_left|by apply Hls].
      + rewrite E. exists (c :: l), ls. split_and!; [done|exists b; by rewrite Hb at 1|].
        intros k Hk. eapply piece_trans; [by apply Hls|]. apply (piece_right [c]). }
  rewrite E. intros k [->|Hk]%elem_of_cons; [|by apply Hls]. rewrite Hb at 1. apply piece_left.
Qed.
Section plain_output.
Context (styled : TextStyle -> text -> text) (cwd : text).
(** The working directory occurs nowhere. *)
Definition no_cwd (s : text) : Prop := forall a b, s <> a ++ cwd ++ b.
Lemma shortened_same s : no_cwd s -> appendShortened cwd s = s.
Proof.
  intros H. unfold appendShortened. destruct (_ <? _)%nat; [done|]. destruct (length s) as [|n]; [done|]. cbn. destruct s as [|c s]; [done|].
  destruct (find cwd (c :: s)) as [[b r]|] eqn:E; [|done]. apply find_spec in E. by destruct (H b r).
Qed.
Lemma no_cwd_piece t s : piece t s -> no_cwd s -> no_cwd t.
Proof. intros (a & b & ->) H x y ->. apply (H (a ++ x) (y ++ b)). by rewrite <- !(assoc_L (++)). Qed.
Lemma put_out s style p : no_cwd s -> out (put styled cwd false s style p) = out p ++ s.
Proof. intros H. unfold put. by rewrite shortened_same. Qed.
Lemma sep_squeeze p : squeeze (out (sep p)) = squeeze (out p).
Proof. unfold sep. cbn. destruct (first p); [done|]. by rewrite squeeze_app, app_nil_r. Qed.
Lemma label_squeeze raw p : no_cwd raw -> squeeze (out (label styled cwd false raw p)) = squeeze (out p) ++ squeeze raw.
Proof.
  intros H. unfold label. rewrite <- (squeeze_trim raw). pose proof (no_cwd_piece _ _ (trim_piece raw) H) as Ht.
  destruct (trim raw) as [|c t]; [by rewrite app_nil_r|]. rewrite put_out by done. cbn [append out]. by rewrite !squeeze_app, sep_squeeze, app_nil_r.
Qed.
Lemma marker_squeeze raw p : no_cwd raw -> squeeze (out (marker styled cwd false raw p)) = squeeze (out p) ++ squeeze raw.
Proof.
  intros H. unfold marker. rewrite put_out by (by eapply no_cwd_piece; [apply trim_piece|]). cbn [append out].
  by rewrite !squeeze_app, sep_squeeze, squeeze_trim, app_nil_r.
Qed.
Lemma c_rest_squeeze s : match trimFront s with c :: _ => bool_decide (c = colon) | [] => false end = true ->
  squeeze s = colon :: squeeze (c_rest s) /\ piece (c_rest s) s.
Proof.
  rewrite <- (squeeze_front s). pose proof (trimFront_piece s) as Hp. unfold c_rest. destruct (trimFront s) as [|c s']; [done|].
  rewrite bool_decide_eq_true. intros ->. rewrite bool_decide_eq_true_2, squeeze_front by done. split; [apply (squeeze_cons colon)|].
  eapply piece_trans; [apply trimFront_piece|]. eapply piece_trans; [|exact Hp]. apply (piece_right [colon]).
Qed.
Lemma tail_squeeze style t p : no_cwd t ->
  squeeze (out (put_tail styled cwd false t style p)) = squeeze (out p) ++ squeeze t.
Proof. intros H. unfold put_tail. destruct t as [|c t]; [by rewrite app_nil_r|]. rewrite put_out by done. cbn [append out]. by rewrite !squeeze_app, app_nil_r. Qed.
Lemma line_squeeze raw indent e p : no_cwd raw -> c_colon raw = true -> squeeze indent = [] ->
  squeeze (out (line styled cwd false raw indent e p)) = squeeze (out p) ++ squeeze raw.
Proof.
  intros H Hc Hi. unfold line, c_colon in *. rewrite <- (squeeze_trim raw). pose proof (no_cwd_piece _ _ (trim_piece raw) H) as Ht.
  destruct (trim raw) as [|c t] eqn:E; [by rewrite app_nil_r|]. rewrite <- E in *. clear E c t. set (t := trim raw) in *.
  destruct (starts_with _ t) as [s|] eqn:Es.
  - apply starts_with_spec in Es. destruct (c_rest_squeeze s Hc) as [Hs Hp].
    assert (piece s t) as Hst by (rewrite Es; apply piece_right). rewrite tail_squeeze by (eapply no_cwd_piece; [|exact Ht]; by eapply piece_trans).
    cbn [append out]. rewrite put_out by (eapply no_cwd_piece; [|exact Ht]; rewrite Es; apply piece_left). cbn [append out].
    rewrite !squeeze_app, sep_squeeze, Hi, app_nil_r, <- !(assoc_L (++)). f_equal. rewrite Es, squeeze_app, Hs. done.
  - pose proof (splitLocation_spec t) as Hl. destruct (splitLocation t) as [[|d loc] rest].
    + rewrite put_out by done. cbn [append out]. by rewrite !squeeze_app, sep_squeeze, Hi, app_nil_r.
    + destruct Hl as [Hl Hcol]. specialize (Hcol ltac:(done)). set (l := d :: loc) in *.
      assert (no_cwd rest) by (eapply no_cwd_piece; [|exact Ht]; rewrite Hl; apply piece_right).
      assert (no_cwd (take (length l - 1) l)).
      { eapply no_cwd_piece; [|exact Ht]. rewrite Hl. eapply piece_trans; [|apply piece_left]. rewrite Hcol at 3. apply piece_left. }
      rewrite tail_squeeze by (eapply no_cwd_piece; [apply trimFront_piece|done]). cbn [append out]. rewrite put_out by done. cbn [append out].
      rewrite !squeeze_app, sep_squeeze, Hi, app_nil_r, squeeze_front, <- !(assoc_L (++)). f_equal. rewrite Hl, squeeze_app, (assoc_L (++)).
      f_equal. by rewrite <- squeeze_app, <- Hcol.
Qed.
Lemma header_squeeze i l p : no_cwd l -> c_colon l = true -> squeeze (out (header styled cwd false i l p)) = squeeze (out p) ++ squeeze l.
Proof. intros. unfold header. destruct (_ && _)%bool; [by apply label_squeeze|by apply line_squeeze]. Qed.
Lemma headers_squeeze ls : forall i p, (forall l, l ∈ ls -> no_cwd l /\ c_colon l = true) ->
  squeeze (out (headers styled cwd false i ls p)) = squeeze (out p) ++ concat (map squeeze ls).
Proof.
  induction ls as [|l ls IH]; intros i p H; [by rewrite app_nil_r|]. cbn [headers map concat].
  rewrite IH by (intros; apply H; by right). destruct (H l) as [H1 H2]; [by left|]. by rewrite header_squeeze, (assoc_L (++)).
Qed.
Lemma frames_squeeze ls : forall p, (forall l, l ∈ ls -> no_cwd l /\ c_colon l = true) ->
  squeeze (out (frames styled cwd false ls p)) = squeeze (out p) ++ concat (map squeeze ls).
Proof.
  induction ls as [|l ls IH]; intros p H; [by rewrite app_nil_r|]. change (frames styled cwd false (l :: ls) p) with (frames styled cwd false ls (line styled cwd false l kFrameIndent false p)).
  rewrite IH by (intros; apply H; by right). destruct (H l) as [H1 H2]; [by left|]. cbn [map concat]. by rewrite line_squeeze, (assoc_L (++)).
Qed.
End plain_output.

(** * Properties *)

(** Laying a traceback out loses nothing: with colours off, and no path under the
    working directory to shorten, the characters of the output that are not blank
    are those of the message, in order, for every message with a traceback whose C
    frames are written as Lua writes them. *)
Theorem traceback_keeps_text styled cwd msg o :
  (forall a b, msg <> a ++ cwd ++ b) -> forallb c_colon (split_lines msg) = true ->
  PrettyTraceback styled cwd false msg = Some o -> squeeze o = squeeze msg.
Proof.
  intros Hcwd Hc. unfold PrettyTraceback. set (lines := drop_last_empty (split_lines msg)).
  destruct (find_marker lines) as [[[b m] a]|] eqn:E; [|done]. cbn [mbind option_bind]. intros [= <-].
  destruct (find_marker_spec _ _ _ _ E) as [Hl _].
  assert (concat (map squeeze lines) = squeeze msg) as Hm.
  { rewrite <- split_lines_squeeze. subst lines. destruct (drop_last_spec (split_lines msg)) as [<-|Heq]; [done|].
    rewrite Heq at 2. by rewrite map_app, concat_app, app_nil_r. }
  assert (forall l, l ∈ lines -> no_cwd cwd l /\ c_colon l = true) as Hok.
  { intros l Hin. assert (l ∈ split_lines msg) as Hin' by (destruct (drop_last_spec (split_lines msg)) as [->| ->]; set_solver).
    split; [by eapply no_cwd_piece; [apply split_lines_piece|]|]. rewrite forallb_forall in Hc. apply Hc. by apply list_elem_of_In. }
  rewrite Hl in Hok. rewrite frames_squeeze by (intros; apply Hok; set_solver).
  rewrite marker_squeeze by (apply Hok; set_solver). rewrite headers_squeeze by (intros; apply Hok; set_solver).
  rewrite <- Hm, Hl, map_app, concat_app. cbn [map concat out]. by rewrite <- !(assoc_L (++)).
Qed.
Definition sample_msg : text :=
  txt "Uncaught error:" ++ [newline] ++ txt "a.lua:3: bad" ++ [newline] ++ txt "stack traceback:" ++ [newline] ++ txt "  [C]: in f".
Lemma traceback_keeps_text_witness : exists o, PrettyTraceback (fun _ s => s) (txt "/home/u") false sample_msg = Some o /\ squeeze o = squeeze sample_msg.
Proof.
  eexists. split; [reflexivity|]. apply (traceback_keeps_text (fun _ s => s) (txt "/home/u") sample_msg); [|reflexivity|reflexivity].
  apply (find_none (txt "/home/u")). reflexivity.
Defined.
(** Paths lose the working directory, and nothing else. *)
Theorem appendShortened_spec dir s : Shortened dir None s (appendShortened dir s).
Proof. unfold appendShortened. destruct (_ <? _)%nat; [apply short_end|apply shorten_loop_spec]. Qed.
