(* ===== verification/Instance.v ===== *)
(** * The instance: [src/instance.cpp], [src/instance_impl.hpp], [src/log.cpp]

    The object that owns the Lua state, the workers and the fibers.  Module
    [Lifecycle] is its shutdown: the handlers of [on_shutdown], the request to every
    worker, the wait for the last one to be deleted, the pool's [Stop] and the
    announcement [ShutdownDone], with the workers' own lifetimes of [Worker].
    Module [Logging] is [Instance::Log] with its filters and the Lua log handler;
    Module [Modules] the schemas and the lookup of Lua modules. *)
From S2P Require Import Prelude QVariant Utils Worker Config Pretty.
Set Warnings "-register-all".

Module Lifecycle.
(** What the instance does, in order. *)
Inductive InstAct :=
| Warned                                   (* "Shutting down..." *)
| CallHandler (h : nat)
| StopTimers
| ShutdownRequest
| StopFibers (timeout : Z)
| ShutdownDone
| Undefined.
(** [objects]: every worker with its lifetime and whether its [Destroy] leaves
    [ShutdownDone] to an asynchronous clean-up. *)
Record Inst := {
  objects : gmap nat (bool * Life);
  workers : list nat;                      (* [QSet<Worker*>], in order of creation *)
  shutdownHandlers : list nat;
  shutdown : bool;
  shutdownDone : bool;
  shutdownIdleArmed : bool;
  shutdownTimeout : Z;
  timer : bool;                            (* the pending [singleShot(timeout)] *)
  posted : nat;                            (* pending calls of [emitDoneWhenIdle] *)
  stopping : bool;                         (* inside [Fibers()->Stop] *)
  acts : list InstAct
}.
Definition inst_init : Inst :=
  {| objects := ∅; workers := []; shutdownHandlers := []; shutdown := false; shutdownDone := false;
     shutdownIdleArmed := false; shutdownTimeout := 5000; timer := false; posted := 0; stopping := false; acts := [] |}.

(** ** Setters *)
Definition act (a : InstAct) (st : Inst) : Inst :=
  {| objects := objects st; workers := workers st; shutdownHandlers := shutdownHandlers st; shutdown := shutdown st;
     shutdownDone := shutdownDone st; shutdownIdleArmed := shutdownIdleArmed st; shutdownTimeout := shutdownTimeout st;
     timer := timer st; posted := posted st; stopping := stopping st; acts := acts st ++ [a] |}.
Definition set_workers (o : gmap nat (bool * Life)) (ws : list nat) (st : Inst) : Inst :=
  {| objects := o; workers := ws; shutdownHandlers := shutdownHandlers st; shutdown := shutdown st;
     shutdownDone := shutdownDone st; shutdownIdleArmed := shutdownIdleArmed st; shutdownTimeout := shutdownTimeout st;
     timer := timer st; posted := posted st; stopping := stopping st; acts := acts st |}.
Definition set_handlers (hs : list nat) (st : Inst) : Inst :=
  {| objects := objects st; workers := workers st; shutdownHandlers := hs; shutdown := shutdown st;
     shutdownDone := shutdownDone st; shutdownIdleArmed := shutdownIdleArmed st; shutdownTimeout := shutdownTimeout st;
     timer := timer st; posted := posted st; stopping := stopping st; acts := acts st |}.
Definition set_flags (sd : bool) (t : Z) (tm : bool) (st : Inst) : Inst :=
  {| objects := objects st; workers := workers st; shutdownHandlers := shutdownHandlers st; shutdown := sd;
     shutdownDone := shutdownDone st; shutdownIdleArmed := shutdownIdleArmed st; shutdownTimeout := t;
     timer := tm; posted := posted st; stopping := stopping st; acts := acts st |}.
Definition set_posted (n : nat) (st : Inst) : Inst :=
  {| objects := objects st; workers := workers st; shutdownHandlers := shutdownHandlers st; shutdown := shutdown st;
     shutdownDone := shutdownDone st; shutdownIdleArmed := shutdownIdleArmed st; shutdownTimeout := shutdownTimeout st;
     timer := timer st; posted := n; stopping := stopping st; acts := acts st |}.
Definition set_idle (armed stop done : bool) (st : Inst) : Inst :=
  {| objects := objects st; workers := workers st; shutdownHandlers := shutdownHandlers st; shutdown := shutdown st;
     shutdownDone := done; shutdownIdleArmed := armed; shutdownTimeout := shutdownTimeout st;
     timer := timer st; posted := posted st; stopping := stop; acts := acts st |}.

(** ** What Lua can do at any time *)
Inductive LuaCall :=
| NewWorker (w : nat) (deferred : bool)
| CallDestroy (w : nat)
| CallShutdown (w promise : nat)
| Announce (w : nat)                       (* a deferred clean-up ends: [ShutdownDone] of the worker *)
| OnShutdown (h : nat).
Definition on_life (w : nat) (f : bool -> Life -> Life) (st : Inst) : Inst :=
  match objects st !! w with
  | Some (d, l) => set_workers (<[w := (d, f d l)]> (objects st)) (workers st) st
  | None => st
  end.
(** The handler of [WorkerCreated]. *)
Definition on_created (w : nat) (deferred : bool) (st : Inst) : Inst :=
  set_workers (<[w := (deferred, on_WorkerCreated life_init)]> (objects st)) (workers st ++ [w]) st.
Definition onShutdown (h : nat) (st : Inst) : Inst := set_handlers (shutdownHandlers st ++ [h]) st.
(** A method called on a worker that is gone raises and changes nothing. *)
Definition after (l : Life) (r : res Life) : Life := match r with Ok l' => l' | Raise _ => l end.
Definition do_call (c : LuaCall) (st : Inst) : Inst :=
  match c with
  | NewWorker w deferred => if bool_decide (objects st !! w = None) then on_created w deferred st else st
  | CallDestroy w => on_life w (fun d l => after l (worker_destroy d l)) st
  | CallShutdown w p => on_life w (fun d l => after l (worker_shutdown d p l)) st
  | Announce w => on_life w (fun _ l => if alive l then on_ShutdownDone l else l) st
  | OnShutdown h => onShutdown h st
  end.
Definition do_calls (cs : list LuaCall) (st : Inst) : Inst := fold_left (fun st c => do_call c st) cs st.

(** ** [Shutdown] *)
(** What Lua does synchronously while [Shutdown] runs: in the log handler, in each
    [on_shutdown] handler, in what each worker's [Destroy] notifies.  A nested
    [shutdown()] returns at once. *)
Record Script := { while_warning : list LuaCall; while_handling : list (list LuaCall); while_destroying : list (list LuaCall) }.
(** The range-for over [shutdownHandlers]; a registration invalidates its iterators. *)
Fixpoint run_handlers (hs : list nat) (scripts : list (list LuaCall)) (size : nat) (st : Inst) : Inst :=
  match hs with
  | [] => st
  | h :: hs =>
      let st := do_calls (hd [] scripts) (act (CallHandler h) st) in
      if (length (shutdownHandlers st) =? size)%nat then run_handlers hs (tl scripts) size st else act Undefined st
  end.
(** [emit ShutdownRequest]: the workers connected when the emission begins. *)
Fixpoint request (ws : list nat) (scripts : list (list LuaCall)) (st : Inst) : Inst :=
  match ws with
  | [] => st
  | w :: ws =>
      let st := on_life w (fun d l => if alive l then Destroy d l else l) st in
      request ws (tl scripts) (do_calls (hd [] scripts) st)
  end.
Definition post_idle (st : Inst) : Inst := set_posted (S (posted st)) st.
Definition no_workers (st : Inst) : bool := bool_decide (workers st = []).
Definition Shutdown (timeout : Z) (script : Script) (st : Inst) : Inst :=
  if shutdown st then st
  else
    let st := set_flags true timeout (timer st) st in
    let st := do_calls (while_warning script) (act Warned st) in
    let st := run_handlers (shutdownHandlers st) (while_handling script) (length (shutdownHandlers st)) st in
    let st := set_handlers [] st in
    let st := act ShutdownRequest (act StopTimers st) in
    let st := request (workers st) (while_destroying script) st in
    (* [singleShot] takes an int and ignores a negative one *)
    let st := set_flags (shutdown st) (shutdownTimeout st) (0 <=? wraps 32 timeout) st in
    if no_workers st then post_idle st else st.

(** ** The event loop *)
(** [destroyed] of a worker. *)
Definition on_destroyed (w : nat) (st : Inst) : Inst :=
  let st := set_workers (objects st) (List.filter (fun v => negb (v =? w)%nat) (workers st)) st in
  if (no_workers st && shutdown st)%bool then post_idle st else st.
(** A worker's turn: its deferred deletion, or the timers that resolve promises. *)
Definition turn (w : nat) (st : Inst) : Inst :=
  match objects st !! w with
  | Some (d, l) =>
      let st := on_life w (fun _ => loop_turn) st in
      if (alive l && negb (alive (loop_turn l)))%bool then on_destroyed w st else st
  | None => st
  end.
Definition announce (st : Inst) : Inst :=
  if shutdownDone st then st else act ShutdownDone (set_idle (shutdownIdleArmed st) (stopping st) true st).
(** [emitDoneWhenIdle], up to the call of [Stop] and after it: [Stop] runs the event
    loop, so other events come in between. *)
Definition emitDoneWhenIdle (st : Inst) : Inst :=
  if shutdownIdleArmed st then st
  else act (StopFibers (shutdownTimeout st)) (set_idle true true (shutdownDone st) st).
Definition stop_returned (st : Inst) : Inst := announce (set_idle (shutdownIdleArmed st) false (shutdownDone st) st).

Inductive Event :=
| ELua (c : LuaCall)
| EShutdown (timeout : Z) (script : Script)
| ETurn (w : nat)
| ETimeout
| EIdle
| EStopped.
Definition on_event (e : Event) (st : Inst) : Inst :=
  match e with
  | ELua c => do_call c st
  | EShutdown timeout script => Shutdown timeout script st
  | ETurn w => turn w st
  | ETimeout => if timer st then announce (set_flags (shutdown st) (shutdownTimeout st) false st) else st
  | EIdle => match posted st with O => st | S n => emitDoneWhenIdle (set_posted n st) end
  | EStopped => if stopping st then stop_returned st else st
  end.
Definition run (es : list Event) (st : Inst) : Inst := fold_left (fun st e => on_event e st) es st.

(** ** What a shutdown promises: the abstract machine
    Handlers are registered; one [Shutdown] calls them all once, in order, stops the
    timers and asks the workers; then the fibers are stopped at most once and the
    end is announced at most once, in any order (the time limit may come first). *)
Inductive SpecState := Running (hs : list nat) | ShuttingDown (timeout : Z) (stopped announced : bool).
Inductive spec_step : SpecState -> list InstAct -> SpecState -> Prop :=
| spec_register h hs : spec_step (Running hs) [] (Running (hs ++ [h]))
| spec_begin hs t :
    spec_step (Running hs) (Warned :: map CallHandler hs ++ [StopTimers; ShutdownRequest]) (ShuttingDown t false false)
| spec_stop t a : spec_step (ShuttingDown t false a) [StopFibers t] (ShuttingDown t true a)
| spec_announce t s : spec_step (ShuttingDown t s false) [ShutdownDone] (ShuttingDown t s true).
Inductive spec_steps : SpecState -> list InstAct -> SpecState -> Prop :=
| steps_none s : spec_steps s [] s
| steps_more s a s' b s'' : spec_step s a s' -> spec_steps s' b s'' -> spec_steps s (a ++ b) s''.
Definition abs (st : Inst) : SpecState :=
  if shutdown st then ShuttingDown (shutdownTimeout st) (shutdownIdleArmed st) (shutdownDone st) else Running (shutdownHandlers st).

(** ** Frames *)
(** Lua calls touch the workers and the registered handlers only. *)
Record same_flags (st st' : Inst) : Prop := {
  same_shutdown : shutdown st' = shutdown st;
  same_done : shutdownDone st' = shutdownDone st;
  same_armed : shutdownIdleArmed st' = shutdownIdleArmed st;
  same_timeout : shutdownTimeout st' = shutdownTimeout st;
  same_timer : timer st' = timer st;
  same_posted : posted st' = posted st;
  same_stopping : stopping st' = stopping st
}.
Definition registrations (cs : list LuaCall) : list nat := omap (fun c => match c with OnShutdown h => Some h | _ => None end) cs.
Lemma flags_refl st : same_flags st st. Proof. by split. Qed.
Lemma flags_trans a b c : same_flags a b -> same_flags b c -> same_flags a c.
Proof. intros [] []. split; congruence. Qed.
Lemma flags_act a st : same_flags st (act a st). Proof. by split. Qed.
Lemma flags_handlers hs st : same_flags st (set_handlers hs st). Proof. by split. Qed.
Lemma on_life_frame w f st : same_flags st (on_life w f st) /\ acts (on_life w f st) = acts st /\
  shutdownHandlers (on_life w f st) = shutdownHandlers st /\ workers (on_life w f st) = workers st.
Proof. unfold on_life. by destruct (objects st !! w) as [[d l]|]. Qed.
Lemma do_call_frame c st : same_flags st (do_call c st) /\ acts (do_call c st) = acts st /\
  shutdownHandlers (do_call c st) = shutdownHandlers st ++ registrations [c].
Proof.
  destruct c as [w d|w|w p|w|h]; cbn [do_call registrations omap list_omap]; rewrite ?app_nil_r;
    try (by destruct (on_life_frame w (fun d l => after l (worker_destroy d l)) st) as (? & ? & ? & ?));
    try (by destruct (on_life_frame w (fun d l => after l (worker_shutdown d p l)) st) as (? & ? & ? & ?));
    try (by destruct (on_life_frame w (fun _ l => if alive l then on_ShutdownDone l else l) st) as (? & ? & ? & ?)); [|done].
  by case_bool_decide.
Qed.
Lemma do_calls_frame cs : forall st, same_flags st (do_calls cs st) /\ acts (do_calls cs st) = acts st /\
  shutdownHandlers (do_calls cs st) = shutdownHandlers st ++ registrations cs.
Proof.
  induction cs as [|c cs IH]; intros st; [by rewrite app_nil_r|]. change (do_calls (c :: cs) st) with (do_calls cs (do_call c st)).
  destruct (do_call_frame c st) as (F1 & A1 & H1), (IH (do_call c st)) as (F2 & A2 & H2).
  split; [by eapply flags_trans|]. rewrite A2, A1, H2, H1. split; [done|]. rewrite <- (assoc_L (++)). f_equal.
  unfold registrations. cbn. by destruct c.
Qed.
Lemma run_handlers_frame hs : forall scripts n st, same_flags st (run_handlers hs scripts n st) /\
  exists new, acts (run_handlers hs scripts n st) = acts st ++ new /\ (Undefined ∈ new \/ new = map CallHandler hs).
Proof.
  induction hs as [|h hs IH]; intros scripts n st; cbn [run_handlers].
  - split; [apply flags_refl|]. exists []. rewrite app_nil_r. auto.
  - destruct (do_calls_frame (hd [] scripts) (act (CallHandler h) st)) as (F & A & _). pose proof (flags_act (CallHandler h) st) as F0.
    set (st1 := do_calls _ _) in *. destruct (length (shutdownHandlers st1) =? n)%nat.
    + destruct (IH (tl scripts) n st1) as (F' & new & A' & Hn). split; [eauto using flags_trans|].
      exists (CallHandler h :: new). rewrite A', A. cbn [act acts]. rewrite <- (assoc_L (++)). split; [done|].
      destruct Hn as [Hn| ->]; [left; by right|by right].
    + split; [eapply flags_trans; [|apply flags_act]; eauto using flags_trans|].
      exists [CallHandler h; Undefined]. cbn [act acts]. rewrite A. cbn [act acts]. rewrite <- (assoc_L (++)). split; [done|left; set_solver].
Qed.
Lemma request_frame ws : forall scripts st, same_flags st (request ws scripts st) /\ acts (request ws scripts st) = acts st.
Proof.
  induction ws as [|w ws IH]; intros scripts st; [by split; [apply flags_refl|]|]. cbn [request].
  set (st1 := on_life _ _ st). pose proof (on_life_frame w (fun d l => if alive l then Destroy d l else l) st) as (F1 & A1 & _). fold st1 in F1, A1.
  destruct (do_calls_frame (hd [] scripts) st1) as (F2 & A2 & _), (IH (tl scripts) (do_calls (hd [] scripts) st1)) as (F3 & A3).
  split; [eauto using flags_trans|]. congruence.
Qed.
Lemma post_if_frame (b : bool) st : let st' := if b then post_idle st else st in
  shutdown st' = shutdown st /\ shutdownDone st' = shutdownDone st /\ shutdownIdleArmed st' = shutdownIdleArmed st /\
  shutdownTimeout st' = shutdownTimeout st /\ shutdownHandlers st' = shutdownHandlers st /\ timer st' = timer st /\
  stopping st' = stopping st /\ acts st' = acts st /\ workers st' = workers st /\ posted st' = (posted st + if b then 1 else 0)%nat.
Proof. destruct b; cbn; repeat split; lia. Qed.
Lemma steps_trans s a s' b s'' : spec_steps s a s' -> spec_steps s' b s'' -> spec_steps s (a ++ b) s''.
Proof. induction 1; [done|]. intros. rewrite <- (assoc_L (++)). econstructor; eauto. Qed.
Lemma steps_one s a s' : spec_step s a s' -> spec_steps s a s'.
Proof. intros H. rewrite <- (app_nil_r a). econstructor; [exact H|constructor]. Qed.
Lemma steps_register hs : forall hs0, spec_steps (Running hs0) [] (Running (hs0 ++ hs)).
Proof.
  induction hs as [|h hs IH]; intros hs0; [rewrite app_nil_r; constructor|].
  replace (hs0 ++ h :: hs) with ((hs0 ++ [h]) ++ hs) by (by rewrite <- (assoc_L (++))).
  apply (steps_more _ [] (Running (hs0 ++ [h])) []); [constructor|apply IH].
Qed.

(** ** The state invariant *)
Record inst_inv (st : Inst) : Prop := {
  inv_running : shutdown st = false -> shutdownDone st = false /\ shutdownIdleArmed st = false /\ timer st = false /\ stopping st = false /\ posted st = 0%nat;
  inv_stopping : stopping st = true -> shutdownIdleArmed st = true;
  inv_armed : shutdownIdleArmed st = true -> stopping st = true \/ shutdownDone st = true;
  inv_timer : shutdown st = true -> 0 <= wraps 32 (shutdownTimeout st) -> timer st = true \/ shutdownDone st = true;
  inv_idle : shutdown st = true -> workers st = [] -> (0 < posted st)%nat \/ shutdownIdleArmed st = true
}.
(** The acts of an event, as steps of the abstract machine. *)
Definition simulated (st st' : Inst) : Prop :=
  exists new, acts st' = acts st ++ new /\ (Undefined ∈ new \/ spec_steps (abs st) new (abs st')).
Lemma simulated_same st st' : acts st' = acts st -> abs st' = abs st -> simulated st st'.
Proof. intros Ha Hb. exists []. rewrite app_nil_r, Ha, Hb. split; [done|right; constructor]. Qed.
Lemma simulated_call c st : simulated st (do_call c st).
Proof.
  destruct (do_call_frame c st) as ([F1 F2 F3 F4 _ _ _] & A & H). exists []. rewrite app_nil_r. split; [done|right].
  unfold abs. rewrite F1, F2, F3, F4, H. destruct (shutdown st); [constructor|]. apply steps_register.
Qed.
(** [Shutdown] of a running instance, stage by stage. *)
Lemma Shutdown_spec timeout script st : shutdown st = false -> let st' := Shutdown timeout script st in
  shutdown st' = true /\ shutdownDone st' = shutdownDone st /\ shutdownIdleArmed st' = shutdownIdleArmed st /\ stopping st' = stopping st /\
  shutdownTimeout st' = timeout /\ timer st' = (0 <=? wraps 32 timeout) /\ (workers st' = [] -> (0 < posted st')%nat) /\
  exists new, acts st' = acts st ++ new /\
    (Undefined ∈ new \/ new = Warned :: map CallHandler (shutdownHandlers st ++ registrations (while_warning script)) ++ [StopTimers; ShutdownRequest]).
Proof.
  intros Hs. unfold Shutdown. rewrite Hs. set (st0 := act Warned (set_flags true timeout (timer st) st)).
  destruct (do_calls_frame (while_warning script) st0) as (F1 & A1 & H1). set (st1 := do_calls _ _) in *.
  destruct (run_handlers_frame (shutdownHandlers st1) (while_handling script) (length (shutdownHandlers st1)) st1) as (F2 & new & A2 & Hn).
  set (st2 := run_handlers _ _ _ _) in *. set (st3 := act ShutdownRequest (act StopTimers (set_handlers [] st2))).
  destruct (request_frame (workers st3) (while_destroying script) st3) as (F3 & A3). set (st4 := request _ _ _) in *.
  assert (same_flags st0 st4) as [E1 E2 E3 E4 _ _ E7].
  { eapply flags_trans; [exact F1|]. eapply flags_trans; [exact F2|]. eapply flags_trans; [|exact F3]. by split. }
  set (st5 := set_flags _ _ _ st4). destruct (post_if_frame (no_workers st5) st5) as (G1 & G2 & G3 & G4 & _ & G6 & G7 & G8 & G9 & G10).
  rewrite G1, G2, G3, G4, G6, G7, G8, G9. cbn [st5 set_flags shutdown shutdownDone shutdownIdleArmed stopping shutdownTimeout timer acts workers].
  rewrite E1, E2, E3, E4, E7. split_and!; try done.
  - intros Hw. rewrite G10. unfold no_workers, st5. cbn [set_flags workers]. rewrite bool_decide_eq_true_2 by done. lia.
  - exists ((Warned :: new) ++ [StopTimers; ShutdownRequest]). rewrite A3. cbn [st3 act set_handlers acts]. rewrite A2, A1. cbn [st0 act set_flags acts].
    rewrite <- !(assoc_L (++)). split; [done|]. destruct Hn as [Hn| ->]; [left; set_solver|right]. by rewrite H1.
Qed.
Lemma Shutdown_simulated timeout script st : inst_inv st -> shutdown st = false -> simulated st (Shutdown timeout script st).
Proof.
  intros Hi Hs. destruct (Shutdown_spec timeout script st Hs) as (E1 & E2 & E3 & _ & E5 & _ & _ & new & A & Hn).
  exists new. split; [done|]. destruct Hn as [|Hn]; [by left|right]. destruct (inv_running _ Hi Hs) as (D & R & _).
  unfold abs. rewrite E1, E2, E3, E5, Hs, D, R, Hn.
  rewrite <- (app_nil_l (Warned :: _)). eapply steps_trans; [apply steps_register|]. apply steps_one. constructor.
Qed.
Lemma announce_simulated st : shutdown st = true -> simulated st (announce st).
Proof.
  intros Hs. unfold announce. destruct (shutdownDone st) eqn:Hd; [by apply simulated_same|].
  exists [ShutdownDone]. split; [done|right]. unfold abs. cbn. rewrite Hs, Hd. apply steps_one. constructor.
Qed.
Lemma turn_frame w st : shutdown (turn w st) = shutdown st /\ shutdownDone (turn w st) = shutdownDone st /\
  shutdownIdleArmed (turn w st) = shutdownIdleArmed st /\ shutdownTimeout (turn w st) = shutdownTimeout st /\ shutdownHandlers (turn w st) = shutdownHandlers st /\
  timer (turn w st) = timer st /\ stopping (turn w st) = stopping st /\ acts (turn w st) = acts st /\
  ((posted (turn w st) = posted st /\ (workers (turn w st) = workers st \/ workers (turn w st) <> [] \/ shutdown st = false)) \/
   (shutdown st = true /\ posted (turn w st) = S (posted st))).
Proof.
  unfold turn. destruct (objects st !! w) as [[d l]|]; [|by repeat split; auto].
  destruct (on_life_frame w (fun _ => loop_turn) st) as ([E1 E2 E3 E4 E5 E6 E7] & A & H & W). set (st1 := on_life _ _ st) in *.
  destruct (_ && _)%bool; [|repeat split; auto]. unfold on_destroyed. set (st2 := set_workers _ _ st1).
  destruct (post_if_frame (no_workers st2 && shutdown st2) st2) as (G1 & G2 & G3 & G4 & G5 & G6 & G7 & G8 & G9 & G10).
  rewrite G1, G2, G3, G4, G5, G6, G7, G8, G9, G10. cbn [st2 set_workers shutdown shutdownDone shutdownIdleArmed shutdownTimeout shutdownHandlers timer stopping acts workers posted].
  repeat split; try done. unfold no_workers. rewrite E1, E6. case_bool_decide as Hw; cbn [andb].
  - destruct (shutdown st); [right; split; [done|lia]|left; split; [lia|auto]].
  - left. split; [lia|auto].
Qed.
(** *** Every event keeps the invariant and is simulated *)
Lemma inst_inv_init : inst_inv inst_init. Proof. by split. Qed.
Lemma inv_call c st : inst_inv st -> inst_inv (do_call c st).
Proof.
  intros [H1 H2 H3 H4 H5]. destruct (do_call_frame c st) as ([F1 F2 F3 F4 F5 F6 F7] & _ & _).
  split; rewrite ?F1, ?F2, ?F3, ?F4, ?F5, ?F6, ?F7; try done. intros Hs Hw. apply H5; [done|]. clear -Hw.
  destruct c as [w d|w|w p|w|h]; cbn [do_call] in Hw; [|revert Hw; unfold on_life; by destruct (objects st !! w) as [[d l]|]..|done].
  case_bool_decide; [|done]. cbn in Hw. by apply app_eq_nil in Hw as [_ ?].
Qed.
Lemma inv_Shutdown timeout script st : inst_inv st -> shutdown st = false -> inst_inv (Shutdown timeout script st).
Proof.
  intros Hi Hs. destruct (Shutdown_spec timeout script st Hs) as (E1 & E2 & E3 & E4 & E5 & E6 & E7 & _).
  destruct (inv_running _ Hi Hs) as (D & R & T & S & P). split; rewrite ?E1, ?E2, ?E3, ?E4, ?E5, ?E6, ?D, ?R, ?S; try done.
  - intros _ H. left. by apply Z.leb_le.
  - intros _ H. left. by apply E7.
Qed.
Lemma inv_announce st : shutdown st = true -> (stopping st = true -> shutdownIdleArmed st = true) ->
  (workers st = [] -> (0 < posted st)%nat \/ shutdownIdleArmed st = true) -> inst_inv (announce st).
Proof. intros Hs H2 H5. unfold announce. destruct (shutdownDone st) eqn:Hd; split; cbn; rewrite ?Hs, ?Hd; auto; done. Qed.
Lemma simulated_via st st1 st' : simulated st1 st' -> acts st1 = acts st -> abs st1 = abs st -> simulated st st'.
Proof. intros (new & A & H) Ea Eb. exists new. rewrite <- Ea, <- Eb. done. Qed.
(** An event that can only come during a shutdown. *)
Lemma inv_busy st : inst_inv st -> timer st = true \/ stopping st = true \/ (0 < posted st)%nat -> shutdown st = true.
Proof. intros Hi H. destruct (shutdown st) eqn:Hs; [done|]. destruct (inv_running _ Hi Hs) as (_ & _ & T & S & P). rewrite T, S, P in H. naive_solver lia. Qed.
Lemma event_ok e st : inst_inv st -> inst_inv (on_event e st) /\ simulated st (on_event e st).
Proof.
  intros Hi. pose proof Hi as [H1 H2 H3 H4 H5]. destruct e as [c|t s|w| | |]; cbn [on_event].
  - split; [by apply inv_call|apply simulated_call].
  - destruct (shutdown st) eqn:Hs; [|split; [by apply inv_Shutdown|by apply Shutdown_simulated]].
    unfold Shutdown. rewrite Hs. split; [done|by apply simulated_same].
  - destruct (turn_frame w st) as (E1 & E2 & E3 & E4 & E5 & E6 & E7 & A & Hp). split.
    + split; rewrite ?E1, ?E2, ?E3, ?E4, ?E6, ?E7; try done.
      * intros Hs. destruct (H1 Hs) as (? & ? & ? & ? & P). split_and!; try done. destruct Hp as [[-> _]|[? _]]; congruence.
      * intros Hs Hw. destruct Hp as [[-> Hp]|[_ ->]]; [|lia]. destruct Hp as [Ew|[|]]; [|done|congruence]. rewrite Ew in Hw. by apply H5.
    + apply simulated_same; [done|]. unfold abs. by rewrite E1, E2, E3, E4, E5.
  - destruct (timer st) eqn:Ht; [|by split; [|by apply simulated_same]].
    assert (shutdown st = true) as Hs by (apply inv_busy; auto). split; [by apply inv_announce; cbn; auto|].
    eapply simulated_via; [by apply announce_simulated|done|done].
  - destruct (posted st) as [|n] eqn:Hp; [by split; [|by apply simulated_same]|].
    assert (shutdown st = true) as Hs by (apply inv_busy; [done|rewrite Hp; right; right; lia]).
    unfold emitDoneWhenIdle. destruct (shutdownIdleArmed (set_posted n st)) eqn:Ha; cbn in Ha.
    + split; [split; cbn; rewrite ?Hs, ?Ha; auto; done|by apply simulated_same].
    + split; [split; cbn; rewrite ?Hs; auto; done|]. exists [StopFibers (shutdownTimeout st)]. split; [done|right].
      unfold abs. cbn. rewrite Hs, Ha. apply steps_one. constructor.
  - destruct (stopping st) eqn:Hst; [|by split; [|by apply simulated_same]].
    assert (shutdown st = true) as Hs by (apply inv_busy; auto). split; [apply inv_announce; cbn; auto|].
    eapply simulated_via; [by apply announce_simulated|done|done].
Qed.
Lemma run_ok es : forall st, inst_inv st -> inst_inv (run es st) /\
  exists new, acts (run es st) = acts st ++ new /\ (Undefined ∈ new \/ spec_steps (abs st) new (abs (run es st))).
Proof.
  induction es as [|e es IH]; intros st Hi; [split; [done|]; exists []; rewrite app_nil_r; split; [done|right; constructor]|].
  destruct (event_ok e st Hi) as (Hi1 & n1 & A1 & S1), (IH _ Hi1) as (Hi2 & n2 & A2 & S2). split; [done|]. exists (n1 ++ n2).
  change (run (e :: es) st) with (run es (on_event e st)). rewrite A2, A1, (assoc_L (++)). split; [done|].
  destruct S1 as [S1|S1]; [left; set_solver|]. destruct S2 as [S2|S2]; [left; set_solver|right; by eapply steps_trans].
Qed.

(** ** The end of a shutdown *)
(** The workers the instance waits for are live, and connected to their deletion. *)
Definition waits_for (ok : bool -> Life -> Prop) (st : Inst) : Prop :=
  forall w, w ∈ workers st -> exists d l, objects st !! w = Some (d, l) /\ alive l = true /\ connected l = true /\ ok d l.
Definition doomed : Inst -> Prop := waits_for (fun _ l => delete_scheduled l = true).
Definition prompt : Inst -> Prop := waits_for (fun d _ => d = false).
Definition live_workers : Inst -> Prop := waits_for (fun _ _ => True).
Lemma on_life_waits ok w f st : waits_for ok st ->
  (forall d l, alive l = true -> connected l = true -> ok d l -> alive (f d l) = true /\ connected (f d l) = true /\ ok d (f d l)) ->
  waits_for ok (on_life w f st).
Proof.
  intros H Hf v Hv. destruct (on_life_frame w f st) as (_ & _ & _ & W). rewrite W in Hv. destruct (H v Hv) as (d & l & E & Ha & Hc & Ho).
  unfold on_life. destruct (objects st !! w) as [[d' l']|] eqn:Ew; [|by exists d, l]. cbn.
  destruct (decide (v = w)) as [->|]; [rewrite lookup_insert_eq|rewrite lookup_insert_ne by done; by exists d, l].
  rewrite E in Ew. injection Ew as <- <-. exists d, (f d l). split; [done|]. by apply Hf.
Qed.
Lemma live_call c st : live_workers st -> live_workers (do_call c st).
Proof.
  intros H. destruct c as [w d|w|w p|w|h]; cbn [do_call]; [|apply on_life_waits; [done|]; intros d l Ha Hc _..|exact H].
  - case_bool_decide as Hw; [|done]. intros v. cbn. intros [Hv|Hv]%elem_of_app.
    + destruct (H v Hv) as (d' & l & E & ?). exists d', l. rewrite lookup_insert_ne by congruence. done.
    + apply list_elem_of_singleton in Hv as ->. exists d, (on_WorkerCreated life_init). by rewrite lookup_insert_eq.
  - unfold worker_destroy. rewrite Ha. cbn. destruct d; cbn; by rewrite ?Hc.
  - unfold worker_shutdown. rewrite Ha. cbn. by destruct d.
  - rewrite Ha. by cbn.
Qed.
Lemma live_calls cs : forall st, live_workers st -> live_workers (do_calls cs st).
Proof. induction cs as [|c cs IH]; [done|]. intros st H. apply (IH (do_call c st)). by apply live_call. Qed.
Lemma live_handlers hs : forall scripts n st, live_workers st -> live_workers (run_handlers hs scripts n st).
Proof.
  induction hs as [|h hs IH]; [done|]. intros scripts n st H. cbn [run_handlers].
  assert (live_workers (do_calls (hd [] scripts) (act (CallHandler h) st))) by by apply live_calls. case_match; [by apply IH|done].
Qed.
Lemma live_destroy d l : alive l = true -> connected l = true -> (fun d l => if alive l then Destroy d l else l) d l = Destroy d l.
Proof. by cbn; intros ->. Qed.
Lemma live_request ws : forall scripts st, live_workers st -> live_workers (request ws scripts st).
Proof.
  induction ws as [|w ws IH]; [done|]. intros scripts st H. cbn [request]. apply IH, live_calls, on_life_waits; [done|].
  intros d l Ha Hc _. rewrite Ha. destruct d; cbn; by rewrite ?Hc.
Qed.
Lemma destroyed_frame w st : workers (on_destroyed w st) = List.filter (fun v => negb (v =? w)%nat) (workers st) /\ objects (on_destroyed w st) = objects st.
Proof. unfold on_destroyed. by destruct (_ && _)%bool. Qed.
Lemma in_others w v (l : list nat) : v ∈ List.filter (fun v => negb (v =? w)%nat) l <-> v <> w /\ v ∈ l.
Proof. rewrite !list_elem_of_In, filter_In, negb_true_iff, Nat.eqb_neq. tauto. Qed.
Lemma live_turn ok w st : waits_for ok st -> (forall d l, ok d l -> delete_scheduled l = false -> ok d (loop_turn l)) -> waits_for ok (turn w st).
Proof.
  intros H Hok. unfold turn. destruct (objects st !! w) as [[d l]|] eqn:Ew; [|done].
  destruct (alive l && negb (alive (loop_turn l)))%bool eqn:E.
  - intros v. destruct (destroyed_frame w (on_life w (fun _ => loop_turn) st)) as [-> ->].
    destruct (on_life_frame w (fun _ => loop_turn) st) as (_ & _ & _ & ->). intros [Hne Hin]%in_others.
    destruct (H v Hin) as (d' & l' & Ev & ?). exists d', l'. split; [|done]. unfold on_life. rewrite Ew. cbn. by rewrite lookup_insert_ne.
  - intros v Hv. unfold on_life in *. rewrite Ew in *. cbn in *. destruct (H v Hv) as (d' & l' & Ev & Ha & Hc & Ho).
    destruct (decide (v = w)) as [->|]; [|rewrite lookup_insert_ne by done; by exists d', l'].
    rewrite lookup_insert_eq. rewrite Ew in Ev. injection Ev as <- <-. exists d, (loop_turn l). rewrite Ha in E. cbn in E.
    unfold loop_turn in *. rewrite Ha in *. cbn [andb] in *. destruct (delete_scheduled l) eqn:Ed; [by cbn in E|].
    specialize (Hok d l Ho Ed). rewrite Ha, Ed in Hok. cbn in Hok. by destruct (ticks l); cbn.
Qed.
Lemma live_Shutdown timeout script st : live_workers st -> live_workers (Shutdown timeout script st).
Proof.
  intros H. unfold Shutdown. destruct (shutdown st); [done|].
  assert (forall st', live_workers st' -> live_workers (if no_workers st' then post_idle st' else st')) as Hp by (intros st' ?; by destruct (no_workers st')).
  apply Hp. set (st1 := run_handlers _ _ _ _).
  assert (live_workers st1) as H1 by by apply live_handlers, live_calls. exact (live_request (workers st1) _ (act ShutdownRequest (act StopTimers (set_handlers [] st1))) H1).
Qed.
Lemma announce_workers st : workers (announce st) = workers st /\ objects (announce st) = objects st.
Proof. unfold announce. by destruct (shutdownDone st). Qed.
Lemma live_event e st : live_workers st -> live_workers (on_event e st).
Proof.
  intros H. destruct e as [c|t s|w| | |]; cbn [on_event]; [by apply live_call|by apply live_Shutdown|by apply live_turn|..].
  - destruct (timer st); [|done]. unfold live_workers, waits_for. destruct (announce_workers (set_flags (shutdown st) (shutdownTimeout st) false st)) as [-> ->]. exact H.
  - destruct (posted st); [done|]. unfold emitDoneWhenIdle. by destruct (shutdownIdleArmed _).
  - destruct (stopping st); [|done]. unfold live_workers, waits_for, stop_returned.
    destruct (announce_workers (set_idle (shutdownIdleArmed st) false (shutdownDone st) st)) as [-> ->]. exact H.
Qed.
Lemma live_run es : forall st, live_workers st -> live_workers (run es st).
Proof. induction es as [|e es IH]; [done|]. intros st H. apply (IH (on_event e st)). by apply live_event. Qed.
Lemma turn_doomed w st : doomed st -> doomed (turn w st) /\ forall v, v ∈ workers (turn w st) -> v <> w /\ v ∈ workers st.
Proof.
  intros H. split; [apply live_turn; [done|congruence]|]. intros v Hv.
  assert (v ∈ workers st) as Hin.
  { revert Hv. unfold turn. destruct (objects st !! w) as [[d l]|]; [|done]. destruct (on_life_frame w (fun _ => loop_turn) st) as (_ & _ & _ & W).
    destruct (_ && _)%bool; [|by rewrite W]. rewrite (proj1 (destroyed_frame w _)), W. by intros [_ ?]%in_others. }
  split; [|done]. intros ->. destruct (H w Hin) as (d & l & E & Ha & _ & Hs). revert Hv. unfold turn. rewrite E, Ha.
  assert (alive (loop_turn l) = false) as -> by (unfold loop_turn; by rewrite Ha, Hs). cbn [andb negb].
  rewrite (proj1 (destroyed_frame w _)). by intros [? _]%in_others.
Qed.
Lemma turns_empty ws : forall st, doomed st -> (forall v, v ∈ workers st -> v ∈ ws) -> workers (run (map ETurn ws) st) = [].
Proof.
  induction ws as [|w ws IH]; intros st H Hin; cbn.
  - destruct (workers st) as [|v l]; [done|]. by destruct (not_elem_of_nil v (Hin v (list_elem_of_here v l))).
  - destruct (turn_doomed w st H) as [Hd Hw]. apply (IH (turn w st)); [done|]. intros v Hv. destruct (Hw v Hv) as [Hne Hv'].
    apply Hin, elem_of_cons in Hv' as [|]; done.
Qed.
Lemma turns_shutdown ws : forall st, shutdown (run (map ETurn ws) st) = shutdown st.
Proof. induction ws as [|w ws IH]; [done|]. intros st. etrans; [apply (IH (turn w st))|apply turn_frame]. Qed.
Lemma request_doomed ws : forall st, live_workers st -> prompt st ->
  (forall w, w ∈ workers st -> w ∈ ws \/ exists d l, objects st !! w = Some (d, l) /\ delete_scheduled l = true) -> doomed (request ws [] st).
Proof.
  induction ws as [|w ws IH]; intros st Hl Hp Hw; cbn [request hd tl].
  - intros v Hv. destruct (Hl v Hv) as (d & l & E & Ha & Hc & _). exists d, l. split_and!; try done.
    destruct (Hw v Hv) as [Hn|(d' & l' & E' & ?)]; [by apply not_elem_of_nil in Hn|congruence].
  - change (do_calls [] ?s) with s. apply IH.
    + apply on_life_waits; [done|]. intros d l Ha Hc _. rewrite Ha. destruct d; cbn; by rewrite ?Hc.
    + apply on_life_waits; [done|]. intros d l Ha Hc ->. by rewrite Ha.
    + intros v Hv. rewrite (proj2 (proj2 (proj2 (on_life_frame _ _ _)))) in Hv. destruct (decide (v = w)) as [->|Hne].
      * right. destruct (Hp w Hv) as (d & l & E & Ha & Hc & ->). unfold on_life. rewrite E. cbn. rewrite lookup_insert_eq, Ha.
        eexists _, _. split; [done|]. cbn. by rewrite Hc, orb_true_r.
      * destruct (Hw v Hv) as [[|]%elem_of_cons|(d & l & E & ?)]; [done|by left|right]. unfold on_life.
        destruct (objects st !! w) as [[d' l']|]; [|by exists d, l]. cbn. rewrite lookup_insert_ne by done. by exists d, l.
Qed.
Lemma announce_done st : shutdownDone (announce st) = true.
Proof. unfold announce. by destruct (shutdownDone st) eqn:E. Qed.
(** What is announced was emitted. *)
Definition emitted (st : Inst) : Prop := shutdownDone st = true -> ShutdownDone ∈ acts st.
Lemma emitted_announce st : emitted st -> emitted (announce st).
Proof. unfold emitted, announce. intros H. destruct (shutdownDone st) eqn:E; [by rewrite E|]. intros _. cbn. set_solver. Qed.
Lemma emitted_event e st : inst_inv st -> emitted st -> emitted (on_event e st).
Proof.
  intros Hi H. destruct (event_ok e st Hi) as (_ & new & A & _). destruct e as [c|t s|w| | |]; cbn [on_event] in *.
  - unfold emitted. rewrite A. destruct (do_call_frame c st) as ([_ -> _ _ _ _ _] & _ & _). intros ?%H. set_solver.
  - destruct (shutdown st) eqn:Hs; [unfold Shutdown; by rewrite Hs|]. unfold emitted. rewrite A.
    destruct (Shutdown_spec t s st Hs) as (_ & -> & _). intros ?%H. set_solver.
  - unfold emitted. rewrite A. destruct (turn_frame w st) as (_ & -> & _). intros ?%H. set_solver.
  - destruct (timer st); [by apply emitted_announce|done].
  - unfold emitted. rewrite A. destruct (posted st) as [|n]; [intros ?%H; set_solver|]. unfold emitDoneWhenIdle. destruct (shutdownIdleArmed _); intros ?%H; set_solver.
  - destruct (stopping st); [by apply emitted_announce|done].
Qed.
Lemma emitted_run es : forall st, inst_inv st -> emitted st -> emitted (run es st).
Proof. induction es as [|e es IH]; [done|]. intros st Hi H. apply (IH (on_event e st)); [by apply event_ok|by apply emitted_event]. Qed.
Lemma live_init : live_workers inst_init. Proof. by intros w ?%not_elem_of_nil. Qed.
Lemma run_app es fs st : run (es ++ fs) st = run fs (run es st). Proof. apply fold_left_app. Qed.
Lemma idle_done st : inst_inv st -> shutdown st = true -> workers st = [] -> shutdownDone (run [EIdle; EStopped] st) = true.
Proof.
  intros [H1 H2 H3 H4 H5] Hs Hw. cbn. destruct (shutdownIdleArmed st) eqn:Ha.
  - destruct (H3 eq_refl) as [Hst|Hd]; destruct (posted st) as [|n]; cbn; unfold emitDoneWhenIdle; cbn; rewrite ?Ha; cbn;
      rewrite ?Hst; unfold stop_returned; rewrite ?announce_done; try done; case_match; rewrite ?announce_done; done.
  - destruct (H5 Hs Hw) as [Hp|]; [|congruence]. destruct (posted st) as [|n]; [lia|]. unfold emitDoneWhenIdle. cbn. rewrite Ha. cbn. apply announce_done.
Qed.
Definition quiet : Script := {| while_warning := []; while_handling := []; while_destroying := [] |}.
Lemma Shutdown_workers t st : live_workers st -> prompt st -> shutdown st = false -> doomed (Shutdown t quiet st).
Proof.
  intros Hl Hp Hs. unfold Shutdown. rewrite Hs. cbn [quiet while_warning while_handling while_destroying].
  change (do_calls [] ?s) with s. set (st0 := act Warned _).
  assert (forall hs n st', objects (run_handlers hs [] n st') = objects st' /\ workers (run_handlers hs [] n st') = workers st') as Hf.
  { induction hs as [|h hs IH]; intros n st'; [done|]. cbn [run_handlers hd tl]. change (do_calls [] ?s) with s.
    case_match; [|done]. apply (IH n (act (CallHandler h) st')). }
  destruct (Hf (shutdownHandlers st0) (length (shutdownHandlers st0)) st0) as [Eo Ew]. set (st1 := run_handlers _ _ _ _) in *.
  assert (forall st', doomed st' -> doomed (if no_workers st' then post_idle st' else st')) as Hpi by (intros st' ?; by destruct (no_workers st')).
  apply Hpi. set (st2 := act ShutdownRequest _).
  assert (workers st2 = workers st /\ objects st2 = objects st) as [Ew2 Eo2] by (split; [exact Ew|exact Eo]).
  apply (request_doomed (workers st2) st2); unfold live_workers, prompt, waits_for; rewrite ?Ew2, ?Eo2; auto.
Qed.

(** * Properties of the life cycle *)

(** C14: whatever events reach the instance in whatever order - Lua calls, workers
    created, shut down or deleted, a shutdown from anywhere and again, the time
    limit before, during or after [Stop] - what it does is a run of the abstract
    machine: every handler registered before is called once and in order, then the
    timers are stopped and the workers asked once, then the fibers are stopped at
    most once and the end is announced at most once.  The one exception is a handler
    that registers a handler, which invalidates the loop over them. *)
Theorem shutdown_refines es : let st := run es inst_init in
  Undefined ∈ acts st \/ spec_steps (Running []) (acts st) (abs st).
Proof. destruct (run_ok es inst_init inst_inv_init) as (_ & new & A & [H|H]); cbn; rewrite A; [by left|by right]. Qed.

(** C15: a shutdown ends: once it was requested the time limit announces it, unless
    the limit does not fit an int; when every remaining worker is to be deleted
    their deletions and the queued end announce it before; and asking workers that
    announce themselves at once leaves them all to be deleted. *)
Theorem shutdown_completes es t : let st := run es inst_init in
  (shutdown st = true -> 0 <= wraps 32 (shutdownTimeout st) -> ShutdownDone ∈ acts (on_event ETimeout st)) /\
  (shutdown st = true -> doomed st -> ShutdownDone ∈ acts (run (map ETurn (workers st) ++ [EIdle; EStopped]) st)) /\
  (shutdown st = false -> prompt st -> let st' := Shutdown t quiet st in shutdown st' = true /\ doomed st').
Proof.
  intros st. destruct (run_ok es inst_init inst_inv_init) as (Hi & _). fold st in Hi.
  assert (emitted st) as He by (apply emitted_run; [apply inst_inv_init|done]).
  split_and!.
  - intros Hs Ht. apply emitted_event; [done..|]. cbn [on_event]. destruct (inv_timer _ Hi Hs Ht) as [->|Hd]; [apply announce_done|].
    destruct (timer st); [apply announce_done|done].
  - intros Hs Hd. apply emitted_run; [done..|]. rewrite run_app. apply idle_done; [by apply run_ok|by rewrite turns_shutdown|].
    by apply turns_empty.
  - intros Hs Hp. split; [by apply Shutdown_spec|]. apply Shutdown_workers; [|done..]. apply live_run, live_init.
Qed.
Definition sample_events : list Event := [ELua (NewWorker 1 false); ELua (NewWorker 2 false); ELua (OnShutdown 7); EShutdown 5000 quiet].
Lemma shutdown_completes_witness :
  ShutdownDone ∈ acts (on_event ETimeout (run sample_events inst_init)) /\
  ShutdownDone ∈ acts (run [ETurn 1; ETurn 2; EIdle; EStopped] (run sample_events inst_init)) /\
  shutdown (Shutdown 10 quiet (run (take 2 sample_events) inst_init)) = true.
Proof.
  split_and!.
  - apply (shutdown_completes sample_events 0); [reflexivity|vm_compute; discriminate].
  - apply (shutdown_completes sample_events 0); [reflexivity|]. intros w [->|[->|[]%elem_of_nil]%elem_of_cons]%elem_of_cons; eexists _, _; by split_and!.
  - apply (shutdown_completes (take 2 sample_events) 10); [reflexivity|]. intros w [->|[->|[]%elem_of_nil]%elem_of_cons]%elem_of_cons; eexists _, _; by split_and!.
Defined.
(** A handler that registers a handler. *)
Theorem handler_registration_undefined :
  Undefined ∈ acts (run [ELua (OnShutdown 1); ELua (OnShutdown 2); EShutdown 5000 {| while_warning := []; while_handling := [[OnShutdown 3]]; while_destroying := [] |}] inst_init).
Proof. vm_compute. set_solver. Qed.
(** A limit above [INT_MAX] is none: only the workers end such a shutdown. *)
Theorem long_limit_never_fires : timer (run [EShutdown 4294967295 quiet] inst_init) = false.
Proof. reflexivity. Qed.
End Lifecycle.

Module Logging.
Definition level (lvl : LogLevel) : Z := match lvl with debug => 0 | info => 1 | warn => 2 | error => 3 | disabled => 4 end.
(** The described names; [disabled] has none. *)
Definition LogLevel_members : list (string * Z) := [("D", level debug); ("I", level info); ("W", level warn); ("E", level error)].
(** What a line is printed from: the fmt pattern ["{}|{}|{:>{}}| {}"]. *)
Record Line := { stamp : string; lvl_name : string; cat : string; width : Z; shown : string }.
Inductive LogAct :=
| Printed (l : Line)
| RunHandler (h : nat) (record : QVar)
| PrintedError (what : string).
Record Logs := {
  globalLevel : Z;
  perCat : list (string * Z);
  logCatLen : Z;
  luaLogHandler : option nat;
  insideLogHandler : bool;
  log_acts : list LogAct
}.
Definition logs_init : Logs :=
  {| globalLevel := level debug; perCat := []; logCatLen := 12; luaLogHandler := None; insideLogHandler := false; log_acts := [] |}.
Fixpoint up_to (c : ascii) (s : string) : string :=
  match s with
  | EmptyString => EmptyString
  | String d s' => if bool_decide (d = c) then EmptyString else String d (up_to c s')
  end.
Definition base_category (cat : string) : string := up_to "/"%char cat.
Definition log_act (a : LogAct) (st : Logs) : Logs :=
  {| globalLevel := globalLevel st; perCat := perCat st; logCatLen := logCatLen st; luaLogHandler := luaLogHandler st;
     insideLogHandler := insideLogHandler st; log_acts := log_acts st ++ [a] |}.
Definition set_len (n : Z) (st : Logs) : Logs :=
  {| globalLevel := globalLevel st; perCat := perCat st; logCatLen := n; luaLogHandler := luaLogHandler st;
     insideLogHandler := insideLogHandler st; log_acts := log_acts st |}.
Definition set_inside (b : bool) (st : Logs) : Logs :=
  {| globalLevel := globalLevel st; perCat := perCat st; logCatLen := logCatLen st; luaLogHandler := luaLogHandler st;
     insideLogHandler := b; log_acts := log_acts st |}.
Definition set_levels (g : Z) (m : list (string * Z)) (st : Logs) : Logs :=
  {| globalLevel := g; perCat := m; logCatLen := logCatLen st; luaLogHandler := luaLogHandler st;
     insideLogHandler := insideLogHandler st; log_acts := log_acts st |}.
Definition set_handler (h : option nat) (st : Logs) : Logs :=
  {| globalLevel := globalLevel st; perCat := perCat st; logCatLen := logCatLen st; luaLogHandler := h;
     insideLogHandler := insideLogHandler st; log_acts := log_acts st |}.

Section logging.
Context {CO : ConfigOps}.
Context (styled : TextStyle -> text -> text) (cwd : text) (color : bool).   (* fmt, the working directory, the terminal *)
(** Whether [Log] goes past its filters. *)
Definition log_enabled (lvl : Z) (cat : string) (st : Logs) : bool :=
  if lvl <? globalLevel st then false
  else match qm_find (base_category cat) (perCat st) with
       | Some l => negb (lvl <? l)
       | None => true
       end.
Definition log_record (name : string) (now : string * Z) (msg cat : string) : QVar :=
  VMap (qm_insert "category" (VString cat) (qm_insert "msg" (VString msg) (qm_insert "timestamp" (VLongLong now.2) (qm_insert "level" (VString name) [])))).
(** [msg] is the formatted text, or the error of the formatting; [now] the clock as
    ISO text and in seconds. *)
Definition Log (lvl : Z) (cat : string) (msg : res string) (now : string * Z) (st : Logs) : Logs :=
  if negb (log_enabled lvl cat st) then st
  else
    let name := default "<inval>" (enum_to_name LogLevel_members lvl) in
    let size := Z.of_nat (String.length cat) in
    let st := if logCatLen st <? size then set_len size st else st in
    match msg with
    | Raise what => log_act (PrintedError what) st
    | Ok msg =>
        let shown := match PrettyTraceback styled cwd color (txt msg) with
                     | Some s => String.string_of_list_ascii s
                     | None => msg
                     end in
        let st := log_act (Printed {| stamp := now.1; lvl_name := name; cat := cat; width := logCatLen st; shown := shown |}) st in
        match luaLogHandler st with
        | Some h => if insideLogHandler st then st else set_inside true (log_act (RunHandler h (log_record name now msg cat)) st)
        | None => st
        end
    end.
(** The closure that ran the handler is destroyed. *)
Definition handler_done (st : Logs) : Logs := set_inside false st.

(** ** Lua: [log.*] *)
(** The part after the last separator of a path. *)
Fixpoint file_name (s : string) : string :=
  match s with
  | EmptyString => EmptyString
  | String c s' => if (str_mem "/"%char s' || str_mem "\"%char s')%bool then file_name s'
                   else if (bool_decide (c = "/"%char) || bool_decide (c = "\"%char))%bool then s' else s
  end.
(** [short_src] and [currentline] of the caller, when the debug library knows it. *)
Definition lua_category (caller : option (string * Z)) : string :=
  match caller with
  | Some (src, l) => (file_name src +:+ ":") +:+ (if l <? 0 then "-" +:+ to_string (- l) else to_string l)
  | None => "lua"
  end.
Definition luaLog (lvl : Z) (caller : option (string * Z)) (msg : string) (now : string * Z) (st : Logs) : Logs :=
  if insideLogHandler st then st else Log lvl (lua_category caller) (Ok msg) now st.
Definition bad_level (lvl : string) : string :=
  (("Invalid log_level passed: " +:+ lvl) +:+ ", avail: [") +:+ join_names LogLevel_members.*1 +:+ "]".
(** [None]: an argument that is not a string. *)
Definition log_level (args : list (option string)) (st : Logs) : Logs * res unit :=
  match args with
  | [Some lvl] =>
      match name_to_enum LogLevel_members lvl with
      | Some z => (set_levels z (perCat st) st, Ok tt)
      | None => (st, Raise (bad_level lvl))
      end
  | Some cat :: Some lvl :: _ =>
      (* [perCat[cat]] inserts the first level before the name is looked up *)
      let at_cat := default (level debug) (qm_find cat (perCat st)) in
      match name_to_enum LogLevel_members lvl with
      | Some z => (set_levels (globalLevel st) (qm_insert cat z (perCat st)) st, Ok tt)
      | None => (set_levels (globalLevel st) (qm_insert cat at_cat (perCat st)) st, Raise (bad_level lvl))
      end
  | _ => (st, Raise "string expected")
  end.
Inductive LuaArg := ANil | AFunction (h : nat) | AOther.
Definition log_handler (arg : LuaArg) (st : Logs) : Logs * res unit :=
  match arg with
  | ANil => (set_handler None st, Ok tt)
  | AFunction h => (set_handler (Some h) st, Ok tt)
  | AOther => (st, Raise "function expected")
  end.
End logging.

(** ** Levels and the handler in every run *)
Section logging_lemmas.
Context {CO : ConfigOps} (EL : EnumLaws CO).
Context (styled : TextStyle -> text -> text) (cwd : text) (color : bool).
Inductive LogEvent :=
| LLog (lvl : Z) (cat : string) (msg : res string) (now : string * Z)
| LLua (lvl : Z) (caller : option (string * Z)) (msg : string) (now : string * Z)
| LLevel (args : list (option string))
| LHandler (arg : LuaArg)
| LHandlerDone.
Definition log_event (e : LogEvent) (st : Logs) : Logs :=
  match e with
  | LLog lvl cat msg now => Log styled cwd color lvl cat msg now st
  | LLua lvl caller msg now => luaLog styled cwd color lvl caller msg now st
  | LLevel args => (log_level args st).1
  | LHandler arg => (log_handler arg st).1
  | LHandlerDone => if insideLogHandler st then handler_done st else st
  end.
Definition log_run (es : list LogEvent) (st : Logs) : Logs := fold_left (fun st e => log_event e st) es st.
Definition handler_calls (st : Logs) : nat :=
  length (List.filter (fun a => match a with RunHandler _ _ => true | _ => false end) (log_acts st)).
(** How often a running handler ended. *)
Fixpoint handler_ends (es : list LogEvent) (st : Logs) : nat :=
  match es with
  | [] => 0
  | e :: es => ((match e with LHandlerDone => if insideLogHandler st then 1 else 0 | _ => 0 end) + handler_ends es (log_event e st))%nat
  end.
Definition running (st : Logs) : nat := if insideLogHandler st then 1%nat else 0%nat.
Lemma calls_act a st : handler_calls (log_act a st) = (handler_calls st + match a with RunHandler _ _ => 1 | _ => 0 end)%nat.
Proof. unfold handler_calls, log_act. cbn. rewrite List.filter_app, length_app. by destruct a. Qed.
Lemma Log_calls lvl cat msg now st : (handler_calls (Log styled cwd color lvl cat msg now st) + running st =
  handler_calls st + running (Log styled cwd color lvl cat msg now st))%nat.
Proof.
  unfold Log. destruct (negb _); [done|]. set (st1 := if _ <? _ then _ else st).
  assert (handler_calls st1 = handler_calls st /\ running st1 = running st /\ insideLogHandler st1 = insideLogHandler st /\ luaLogHandler st1 = luaLogHandler st)
    as (E1 & E2 & E3 & E4) by (unfold st1; by destruct (_ <? _)).
  destruct msg as [msg|what].
  - set (st2 := log_act _ st1). assert (handler_calls st2 = handler_calls st) as E by (unfold st2; rewrite calls_act; lia).
    change (luaLogHandler st2) with (luaLogHandler st1). change (insideLogHandler st2) with (insideLogHandler st1). rewrite E3, E4.
    assert (running st2 = running st) as E' by done. destruct (luaLogHandler st) as [h|]; [|lia].
    destruct (insideLogHandler st) eqn:Hin; [lia|]. unfold running at 1 2. rewrite Hin. cbn [set_inside insideLogHandler].
    change (handler_calls (set_inside true ?s)) with (handler_calls s). rewrite calls_act. lia.
  - rewrite calls_act. change (running (log_act _ st1)) with (running st1). lia.
Qed.
Lemma event_calls e st : (handler_calls (log_event e st) + running st =
  handler_calls st + running (log_event e st) + match e with LHandlerDone => if insideLogHandler st then 1 else 0 | _ => 0 end)%nat.
Proof.
  destruct e as [lvl cat msg now|lvl caller msg now|args|arg|]; cbn [log_event].
  - pose proof (Log_calls lvl cat msg now st). lia.
  - unfold luaLog. destruct (insideLogHandler st) eqn:Hi; [lia|]. pose proof (Log_calls lvl (lua_category caller) (Ok msg) now st). lia.
  - assert (insideLogHandler (log_level args st).1 = insideLogHandler st /\ log_acts (log_level args st).1 = log_acts st) as [E1 E2]
      by (unfold log_level; by repeat case_match). unfold handler_calls, running. rewrite E1, E2. by rewrite Nat.add_0_r.
  - assert (insideLogHandler (log_handler arg st).1 = insideLogHandler st /\ log_acts (log_handler arg st).1 = log_acts st) as [E1 E2]
      by (by destruct arg). unfold handler_calls, running. rewrite E1, E2. by rewrite Nat.add_0_r.
  - destruct (insideLogHandler st) eqn:Hi; [|lia]. unfold running. rewrite Hi. cbn [handler_done set_inside insideLogHandler].
    change (handler_calls (handler_done st)) with (handler_calls st). lia.
Qed.
Lemma run_calls es : forall st, (handler_calls (log_run es st) + running st = handler_calls st + running (log_run es st) + handler_ends es st)%nat.
Proof.
  induction es as [|e es IH]; intros st; cbn [handler_ends]; [change (log_run [] st) with st; lia|].
  change (log_run (e :: es) st) with (log_run es (log_event e st)). pose proof (IH (log_event e st)). pose proof (event_calls e st). lia.
Qed.
Definition category_enabled (lvl : Z) (cat : string) (m : list (string * Z)) : bool :=
  match qm_find (base_category cat) m with Some l => l <=? lvl | None => true end.
Lemma enabled_split lvl cat st : log_enabled lvl cat st = ((globalLevel st <=? lvl) && category_enabled lvl cat (perCat st))%bool.
Proof.
  unfold log_enabled, category_enabled. rewrite (Z.leb_antisym lvl (globalLevel st)). destruct (lvl <? globalLevel st); [done|]. cbn [negb andb].
  destruct (qm_find _ _) as [l|]; [by rewrite Z.leb_antisym|done].
Qed.
Lemma category_insert lvl cat c z m : category_enabled lvl c (qm_insert cat z m) =
  if bool_decide (base_category c = cat) then z <=? lvl else category_enabled lvl c m.
Proof.
  unfold category_enabled. case_bool_decide as E; [by rewrite E, qm_find_insert_eq|]. rewrite qm_find_insert_ne; [done|]. congruence.
Qed.
Lemma base_category_worker cat n : str_mem "/"%char cat = false -> base_category (cat +:+ "/" +:+ n) = cat.
Proof.
  unfold base_category. induction cat as [|c cat IH]; [done|]. cbn. intros [Hc Hm]%orb_false_iff. rewrite str_app_cons. cbn. rewrite Hc. f_equal. by apply IH.
Qed.

(** [log.set_level] sets what it says and nothing else: with one argument the
    level of the whole log; with a category the level of that category and of every
    worker of it, [category/name], and of no other; an unknown name raises and
    leaves what is printed as it was. *)
Theorem log_levels_filter (name cat : string) (z lvl : Z) st : 0 <= lvl ->
  ((name, z) ∈ LogLevel_members ->
     (log_level [Some name] st).2 = Ok tt /\ (log_level [Some cat; Some name] st).2 = Ok tt /\
     (forall c, log_enabled lvl c (log_level [Some name] st).1 = ((z <=? lvl) && category_enabled lvl c (perCat st))%bool) /\
     (forall c, log_enabled lvl c (log_level [Some cat; Some name] st).1 =
        if bool_decide (base_category c = cat) then ((globalLevel st <=? lvl) && (z <=? lvl))%bool else log_enabled lvl c st)) /\
  (name_to_enum LogLevel_members name = None -> forall args, args = [Some name] \/ args = [Some cat; Some name] ->
     (log_level args st).2 = Raise (bad_level name) /\ forall c, log_enabled lvl c (log_level args st).1 = log_enabled lvl c st) /\
  (forall n, str_mem "/"%char cat = false -> base_category (cat +:+ "/" +:+ n) = cat).
Proof.
  intros Hl. split_and!.
  - intros Hin. assert (name_to_enum LogLevel_members name = Some z) as Hn.
    { apply name_listed; [|done]. apply (bool_decide_unpack _). vm_compute. exact I. }
    unfold log_level. rewrite Hn. split_and!; try done; intros c; rewrite enabled_split; cbn [fst set_levels globalLevel perCat]; [done|].
    rewrite category_insert, enabled_split. by case_bool_decide.
  - intros Hn args Ha. unfold log_level. destruct Ha as [-> | ->]; rewrite Hn; split; try done; intros c; cbn [fst].
    rewrite !enabled_split. cbn [set_levels globalLevel perCat]. f_equal. rewrite category_insert. case_bool_decide as E; [|done].
    unfold category_enabled. rewrite E. destruct (qm_find cat (perCat st)); [done|]. cbn. by apply Z.leb_le.
  - intros n. apply base_category_worker.
Qed.

(** The Lua log handler never runs inside itself: a call is made only when every
    call before it has ended, so what it logs is printed and not handed to it. *)
Theorem log_handler_exclusive es : let st := log_run es logs_init in
  handler_calls st = (handler_ends es logs_init + running st)%nat.
Proof. cbv zeta. pose proof (run_calls es logs_init) as H. cbn in H. lia. Qed.
End logging_lemmas.
Lemma log_levels_filter_witness : log_enabled 1 "modbus/plc" (log_level (CO := tiny_config) [Some "modbus"; Some "W"] logs_init).1 = false /\
  (log_level (CO := tiny_config) [Some "loud"] logs_init).2 = Raise (bad_level "loud").
Proof.
  destruct (log_levels_filter (CO := tiny_config) tiny_enum_laws "W" "modbus" 2 1 logs_init) as [H _]; [lia|].
  destruct (log_levels_filter (CO := tiny_config) tiny_enum_laws "loud" "modbus" 2 1 logs_init) as (_ & H2 & _); [lia|].
  split; [|by apply (H2 eq_refl [Some "loud"]); left].
  destruct H as (_ & _ & _ & H); [by apply (bool_decide_unpack _)|]. by rewrite (H "modbus/plc").
Defined.
End Logging.

Module Modules.
(** ** [schema]: the registered schemas, in name order *)
Fixpoint GetSchemas (schemas : list (string * QVar)) (only : list string) (res : list (string * QVar)) : list (string * QVar) :=
  match schemas with
  | [] => res
  | (k, v) :: rest => GetSchemas rest only (if (bool_decide (only = []) || bool_decide (k ∈ only))%bool then qm_insert k v res else res)
  end.
(** The string arguments of [schema(...)]; the others are ignored. *)
Definition lua_schema (schemas : list (string * QVar)) (args : list (option string)) : QVar :=
  let only := omap (fun a => a) args in
  let res := GetSchemas schemas only [] in
  match only with
  | [name] => default VInvalid (qm_find name res)
  | _ => VMap res
  end.

(** ** Looking a module up over HTTP *)
(** [package.searchers] is a Lua table; [F] is what it holds. *)
Section searchers.
Context {F : Type}.
(** The loop [for (i = len; i >= 2; --i)]. *)
Fixpoint shift_up (n : nat) (t : gmap Z F) : gmap Z F :=
  match n with
  | S (S m as n') => shift_up n' (match t !! Z.of_nat n with Some f => <[Z.of_nat n + 1 := f]> t | None => delete (Z.of_nat n + 1) t end)
  | _ => t
  end.
Definition installHttpSearcher (httpSearcher : F) (len : nat) (t : gmap Z F) : gmap Z F := <[2 := httpSearcher]> (shift_up len t).
(** A sequence as a table. *)
Definition table_of (l : list F) : gmap Z F := list_to_map (imap (fun i x => (Z.of_nat i + 1, x)) l).
End searchers.
Fixpoint replace_char (c d : ascii) (s : string) : string :=
  match s with
  | EmptyString => EmptyString
  | String e s => String (if bool_decide (e = c) then d else e) (replace_char c d s)
  end.
Definition module_path (name : string) : string := replace_char "."%char "/"%char name +:+ ".lua".
(** What a searcher returns to [require]. *)
Inductive Found := NotHere (why : string) | LoadError (err : string) | Loader (chunk arg : string).
(** [resolved] and [httpGet] are Qt's; [compile] is [luaL_loadbufferx]. *)
Definition httpSearcher (resolved : string -> string -> string) (httpGet : string -> res string) (compile : string -> string -> res string)
    (scriptBaseUrl name : string) : Found :=
  if bool_decide (scriptBaseUrl = "") then NotHere (String newline (String (chr 9) "no http base url"))
  else
    let url := resolved scriptBaseUrl (module_path name) in
    match httpGet url with
    | Raise e => NotHere (String newline (String (chr 9) (((("no http '" +:+ url) +:+ "' (") +:+ e) +:+ ")")))
    | Ok body =>
        match compile body ("@" +:+ url) with
        | Raise e => LoadError e
        | Ok chunk => Loader chunk url
        end
    end.
(** [EvalFile]: the directory of the script is put before [package.path], once. *)
Definition search_entry (dir : string) : string := (((dir +:+ "/?.lua;") +:+ dir) +:+ "/?/init.lua;").
Definition add_search_path (dir cur : string) : string :=
  let entry := search_entry dir in
  if bool_decide (str_take (String.length entry) cur = entry) then cur else entry +:+ cur.

Lemma GetSchemas_find schemas only : NoDup schemas.*1 -> forall res k, qm_find k (GetSchemas schemas only res) =
  if (bool_decide (only = []) || bool_decide (k ∈ only))%bool
  then match qm_find k schemas with Some v => Some v | None => qm_find k res end else qm_find k res.
Proof.
  induction schemas as [|[j v] rest IH]; intros Hnd res k; cbn [GetSchemas qm_find]; [by case_match|].
  apply NoDup_cons in Hnd as [Hj Hnd]. rewrite IH by done. destruct (decide (k = j)) as [->|Hkj].
  - rewrite (bool_decide_eq_true_2 (j = j)) by done. assert (qm_find j rest = None) as ->.
    { destruct (qm_find j rest) as [w|] eqn:E; [|done]. apply qm_find_elem in E. destruct Hj. by apply (list_elem_of_fmap_2 fst) in E. }
    destruct (_ || _)%bool; [apply qm_find_insert_eq|done].
  - rewrite (bool_decide_eq_false_2 (k = j)) by done.
    assert (forall w, qm_find k (qm_insert j w res) = qm_find k res) as Hne by (intros; apply qm_find_insert_ne; congruence).
    destruct (bool_decide (only = []) || bool_decide (j ∈ only))%bool; by rewrite ?Hne.
Qed.
Section searcher_lemmas.
Context {F : Type}.
Lemma table_lookup (l : list F) i : table_of l !! i = if 1 <=? i then l !! Z.to_nat (i - 1) else None.
Proof.
  unfold table_of. assert (forall (k : nat) (l : list F) i, (list_to_map (imap (fun j x => (Z.of_nat (k + j) + 1, x)) l) : gmap Z F) !! i =
    if Z.of_nat k + 1 <=? i then l !! Z.to_nat (i - Z.of_nat k - 1) else None) as H.
  { clear. intros k l. revert k. induction l as [|x l IH]; intros k i; [cbn; rewrite lookup_empty; by case_match|].
    cbn [imap]. rewrite Nat.add_0_r. cbn [list_to_map foldr fst snd]. destruct (decide (i = Z.of_nat k + 1)) as [->|Hne].
    - rewrite lookup_insert_eq, (proj2 (Z.leb_le _ _)) by lia. by replace (Z.to_nat _) with 0%nat by lia.
    - rewrite lookup_insert_ne by done. rewrite (imap_ext _ (fun j y => (Z.of_nat (S k + j) + 1, y))) by (intros; cbn; do 2 f_equal; lia).
      change (foldr _ ∅ ?m) with (list_to_map m : gmap Z F). rewrite (IH (S k) i).
      destruct (Z.leb_spec (Z.of_nat k + 1) i), (Z.leb_spec (Z.of_nat (S k) + 1) i); try lia; [|done].
      replace (Z.to_nat (i - Z.of_nat k - 1)) with (S (Z.to_nat (i - Z.of_nat (S k) - 1))) by lia. done. }
  etrans; [exact (H 0%nat l i)|]. cbn. by rewrite Z.sub_0_r.
Qed.
Lemma shift_up_lookup n : forall (t : gmap Z F) i, shift_up n t !! i = t !! (if ((3 <=? i) && (i <=? Z.of_nat n + 1))%bool then i - 1 else i).
Proof.
  induction n as [|[|m] IH]; intros t i; [cbn; case_match; [bool_to_prop; lia|done]|cbn; case_match; [bool_to_prop; lia|done]|].
  change (shift_up (S (S m)) t) with (shift_up (S m) (match t !! Z.of_nat (S (S m)) with Some f => <[Z.of_nat (S (S m)) + 1 := f]> t | None => delete (Z.of_nat (S (S m)) + 1) t end)).
  rewrite IH. set (t' := match _ with Some _ => _ | None => _ end).
  assert (forall j, j <> Z.of_nat (S (S m)) + 1 -> t' !! j = t !! j) as Hne.
  { intros j Hj. unfold t'. destruct (t !! Z.of_nat (S (S m))); [by rewrite lookup_insert_ne|by rewrite lookup_delete_ne]. }
  assert (t' !! (Z.of_nat (S (S m)) + 1) = t !! Z.of_nat (S (S m))) as Heq.
  { unfold t'. destruct (t !! Z.of_nat (S (S m))) eqn:E; [by rewrite lookup_insert_eq|by rewrite lookup_delete_eq]. }
  destruct (decide (i = Z.of_nat (S (S m)) + 1)) as [->|Hi].
  - rewrite (proj2 (andb_false_iff _ _)) by (right; apply Z.leb_gt; lia). rewrite (proj2 (andb_true_iff _ _)) by (split; apply Z.leb_le; lia).
    rewrite Heq. f_equal. lia.
  - destruct (Z.leb_spec 3 i), (Z.leb_spec i (Z.of_nat (S m) + 1)), (Z.leb_spec i (Z.of_nat (S (S m)) + 1)); cbn [andb]; try lia; apply Hne; lia.
Qed.

(** The searcher of HTTP modules comes right after the first one, and the others
    keep their order. *)
Theorem installHttpSearcher_order (http first : F) (rest : list F) :
  installHttpSearcher http (S (length rest)) (table_of (first :: rest)) = table_of (first :: http :: rest).
Proof.
  apply map_eq. intros i. unfold installHttpSearcher. rewrite table_lookup. destruct (decide (i = 2)) as [->|Hi]; [by rewrite lookup_insert_eq|].
  rewrite lookup_insert_ne, shift_up_lookup, table_lookup by done.
  destruct (Z.leb_spec 3 i), (Z.leb_spec i (Z.of_nat (S (length rest)) + 1)); cbn [andb]; destruct (Z.leb_spec 1 i); try lia; try done.
  - rewrite (proj2 (Z.leb_le 1 (i - 1))) by lia. replace (Z.to_nat (i - 1)) with (S (S (Z.to_nat (i - 3)))) by lia.
    replace (Z.to_nat (i - 1 - 1)) with (S (Z.to_nat (i - 3))) by lia. done.
  - rewrite !lookup_ge_None_2; [done|cbn; lia..].
  - assert (i = 1) as -> by lia. done.
Qed.
End searcher_lemmas.
Lemma add_search_path_once dir cur : add_search_path dir (add_search_path dir cur) = add_search_path dir cur.
Proof.
  unfold add_search_path. destruct (bool_decide (str_take _ cur = _)) eqn:E; [by rewrite E|]. by rewrite bool_decide_eq_true_2 by apply str_take_exact.
Qed.
End Modules.
