(* ===== verification/App.v ===== *)
(** * The application: [app/main.cpp]

    [AppState] owns one instance at a time: signals shut it down, a changed file or
    Lua's [reload()] replaces it, and the process exits when an instance that is not
    being replaced announces [ShutdownDone].  The instance is that of
    [Instance.Lifecycle]; command line, watcher and child processes are what the
    events carry. *)
From S2P Require Import Prelude Worker Instance.
Import Instance.Lifecycle.
Set Warnings "-register-all".

Inductive AppAct :=
| Launched
| PreReloadFailed (rc : Z)
| Reexec
| ReloadDone
| ReloadError
| Exit (code : Z).
(** The instance's parts and the globals of the process; [reload_modes] are the
    connections [reload] made to [destroyed] of the instance, each with its mode. *)
Record App := {
  inst : option Inst;
  exitCode : Z;
  reload_modes : list bool;
  sigint : bool;
  sigterm : bool;
  deleting : bool;                         (* [deleteLater] of the [AppState] *)
  g_reloading : bool;
  g_exited : bool;
  g_exit_code : Z;
  releases : nat;                          (* pending timers that release the guard *)
  app_acts : list AppAct
}.
Definition app_act (a : AppAct) (s : App) : App :=
  {| inst := inst s; exitCode := exitCode s; reload_modes := reload_modes s; sigint := sigint s; sigterm := sigterm s; deleting := deleting s;
     g_reloading := g_reloading s; g_exited := g_exited s; g_exit_code := g_exit_code s; releases := releases s; app_acts := app_acts s ++ [a] |}.
Definition set_inst (i : Inst) (s : App) : App :=
  {| inst := Some i; exitCode := exitCode s; reload_modes := reload_modes s; sigint := sigint s; sigterm := sigterm s; deleting := deleting s;
     g_reloading := g_reloading s; g_exited := g_exited s; g_exit_code := g_exit_code s; releases := releases s; app_acts := app_acts s |}.
Definition set_reloading (b : bool) (modes : list bool) (rel : nat) (s : App) : App :=
  {| inst := inst s; exitCode := exitCode s; reload_modes := modes; sigint := sigint s; sigterm := sigterm s; deleting := deleting s;
     g_reloading := b; g_exited := g_exited s; g_exit_code := g_exit_code s; releases := rel; app_acts := app_acts s |}.
Definition set_signals (i t : bool) (s : App) : App :=
  {| inst := inst s; exitCode := exitCode s; reload_modes := reload_modes s; sigint := i; sigterm := t; deleting := deleting s;
     g_reloading := g_reloading s; g_exited := g_exited s; g_exit_code := g_exit_code s; releases := releases s; app_acts := app_acts s |}.
(** [new AppState]: a fresh instance; the scripts it runs are events that follow. *)
Definition launch (s : App) : App :=
  app_act Launched
    {| inst := Some inst_init; exitCode := 0; reload_modes := []; sigint := false; sigterm := false; deleting := false;
       g_reloading := g_reloading s; g_exited := g_exited s; g_exit_code := g_exit_code s; releases := releases s; app_acts := app_acts s |}.
Definition app_init : App := launch
  {| inst := None; exitCode := 0; reload_modes := []; sigint := false; sigterm := false; deleting := false;
     g_reloading := false; g_exited := false; g_exit_code := 0; releases := 0; app_acts := [] |}.

(** ** Handlers *)
(** [ShutdownDone]: the deletion of the [AppState], and the exit. *)
Definition on_ShutdownDone (s : App) : App :=
  let s := {| inst := inst s; exitCode := exitCode s; reload_modes := reload_modes s; sigint := sigint s; sigterm := sigterm s; deleting := true;
     g_reloading := g_reloading s; g_exited := g_exited s; g_exit_code := g_exit_code s; releases := releases s; app_acts := app_acts s |} in
  if g_reloading s then s
  else app_act (Exit (exitCode s))
    {| inst := inst s; exitCode := exitCode s; reload_modes := reload_modes s; sigint := sigint s; sigterm := sigterm s; deleting := deleting s;
       g_reloading := g_reloading s; g_exited := true; g_exit_code := exitCode s; releases := releases s; app_acts := app_acts s |}.
(** Whatever happens to the instance, with the slot of [ShutdownDone]. *)
Definition on_instance (f : Inst -> Inst) (s : App) : App :=
  match inst s with
  | Some i =>
      let i' := f i in
      let s := set_inst i' s in
      if (negb (shutdownDone i) && shutdownDone i')%bool then on_ShutdownDone s else s
  | None => s
  end.
(** [AppState::shutdown]. *)
Definition app_shutdown (script : Script) (s : App) : App :=
  on_instance (Shutdown (if sigterm s then 500 else 5000) script) s.
(** [AppState::reload]; [rc] is the result of the pre-reload command, when there is one. *)
Definition reload (rc : option Z) (execMode : bool) (script : Script) (s : App) : App * bool :=
  match match rc with Some z => negb (z =? 0) | None => false end with
  | true => (app_act (PreReloadFailed (default 0 rc)) s, false)
  | false =>
      let s := set_reloading (g_reloading s) (reload_modes s ++ [execMode]) (releases s) s in
      (on_instance (Shutdown 5000 script) s, true)
  end.
(** The slot of [FileChanged] and of [ReloadRequest]. *)
Definition on_reload_request (rc : option Z) (execMode : bool) (script : Script) (s : App) : App :=
  if g_reloading s then s
  else
    let '(s, ok) := reload rc execMode script (set_reloading true (reload_modes s) (releases s) s) in
    if ok then s else set_reloading false (reload_modes s) (releases s) s.
(** The slot of [destroyed] a reload connected; [launched]: the constructor of the
    new [AppState] did not throw.  A [reexec] that returns has failed. *)
Definition on_destroyed (launched : bool) (s : App) (execMode : bool) : App :=
  let s := if execMode then app_act Reexec s else s in
  let s := if launched then app_act ReloadDone (launch s) else app_act (Exit 1) (app_act ReloadError s) in
  set_reloading (g_reloading s) (reload_modes s) (S (releases s)) s.
(** The deferred deletion of the [AppState], with its instance. *)
Definition delete_app (launched : bool) (s : App) : App :=
  let modes := reload_modes s in
  fold_left (on_destroyed launched) modes
    {| inst := None; exitCode := exitCode s; reload_modes := []; sigint := sigint s; sigterm := sigterm s; deleting := false;
       g_reloading := g_reloading s; g_exited := g_exited s; g_exit_code := g_exit_code s; releases := releases s; app_acts := app_acts s |}.

Inductive AppEvent :=
| AInst (e : Event)
| ASetExitCode (code : Z)
| ASigInt (script : Script)
| ASigTerm (script : Script)
| AReload (rc : option Z) (execMode : bool) (script : Script)
| ADelete (launched : bool)
| ARelease.
Definition app_event (e : AppEvent) (s : App) : App :=
  match e with
  | AInst e => on_instance (on_event e) s
  | ASetExitCode code =>
      {| inst := inst s; exitCode := code; reload_modes := reload_modes s; sigint := sigint s; sigterm := sigterm s; deleting := deleting s;
         g_reloading := g_reloading s; g_exited := g_exited s; g_exit_code := g_exit_code s; releases := releases s; app_acts := app_acts s |}
  | ASigInt script => app_shutdown script (set_signals true (sigterm s) s)
  | ASigTerm script => app_shutdown script (set_signals (sigint s) true s)
  | AReload rc execMode script => if inst s then on_reload_request rc execMode script s else s
  | ADelete launched => if deleting s then delete_app launched s else s
  | ARelease => match releases s with O => s | S n => set_reloading false (reload_modes s) n s end
  end.
Definition app_run (es : list AppEvent) (s : App) : App := fold_left (fun s e => app_event e s) es s.

(** ** Invariant *)
Definition reached (i : Inst) : Prop := exists es, i = run es inst_init.
Record app_inv (s : App) : Prop := {
  app_one : (length (reload_modes s) + releases s <= 1)%nat;
  app_guarded : reload_modes s <> [] \/ releases s <> 0%nat -> g_reloading s = true;
  app_inst : forall i, inst s = Some i -> reached i /\ deleting s = shutdownDone i;
  app_none : inst s = None -> reload_modes s = [] /\ deleting s = false
}.
Lemma reached_event e i : reached i -> reached (on_event e i).
Proof. intros [es ->]. exists (es ++ [e]). by rewrite run_app. Qed.
Lemma done_grows e i : reached i -> shutdownDone i = true -> shutdownDone (on_event e i) = true.
Proof.
  intros [es ->]. set (i := run es inst_init). intros Hd. destruct (run_ok es inst_init inst_inv_init) as [Hi _]. fold i in Hi.
  assert (shutdown i = true) as Hs by (destruct (shutdown i) eqn:E; [done|]; destruct (inv_running _ Hi E); congruence).
  destruct e as [c|t sc|w| | |]; cbn [on_event].
  - destruct (do_call_frame c i) as ([_ -> _ _ _ _ _] & _). done.
  - unfold Shutdown. by rewrite Hs.
  - destruct (turn_frame w i) as (_ & -> & _). done.
  - destruct (timer i); [apply announce_done|done].
  - destruct (posted i); [done|]. unfold emitDoneWhenIdle. by destruct (shutdownIdleArmed _).
  - destruct (stopping i); [apply announce_done|done].
Qed.
(** The fields an instance event leaves alone. *)
Lemma on_instance_frame f s : reload_modes (on_instance f s) = reload_modes s /\ releases (on_instance f s) = releases s /\
  g_reloading (on_instance f s) = g_reloading s /\ (inst (on_instance f s) = None <-> inst s = None).
Proof. unfold on_instance. destruct (inst s) eqn:Ei; [|by rewrite ?Ei]. destruct (_ && _)%bool; [|done]. unfold on_ShutdownDone. cbn. by destruct (g_reloading s). Qed.
Lemma on_instance_inv e s : app_inv s -> app_inv (on_instance (on_event e) s).
Proof.
  intros [H1 H2 H3 H4]. destruct (on_instance_frame (on_event e) s) as (E1 & E2 & E3 & E4). split; rewrite ?E1, ?E2, ?E3; try done.
  - intros i. unfold on_instance. destruct (inst s) as [i0|] eqn:Ei; [|congruence]. destruct (H3 i0 eq_refl) as [Hr Hd].
    pose proof (done_grows e i0 Hr) as Hg. destruct (negb (shutdownDone i0) && shutdownDone (on_event e i0))%bool eqn:E.
    + bool_to_prop. unfold on_ShutdownDone. cbn. destruct (g_reloading s); cbn; intros [= <-]; (split; [by apply reached_event|done]).
    + cbn. intros [= <-]. split; [by apply reached_event|]. rewrite Hd. destruct (shutdownDone i0); cbn in E; [by rewrite Hg|by rewrite E].
  - intros Hn. apply E4 in Hn. split; [by apply H4|]. unfold on_instance. rewrite Hn. by apply H4.
Qed.
Lemma app_inv_same s s' : app_inv s -> reload_modes s' = reload_modes s -> releases s' = releases s -> g_reloading s' = g_reloading s ->
  inst s' = inst s -> deleting s' = deleting s -> app_inv s'.
Proof. intros [H1 H2 H3 H4] E1 E2 E3 E4 E5. by split; rewrite ?E1, ?E2, ?E3, ?E4, ?E5. Qed.
Lemma reached_init : reached inst_init. Proof. by exists []. Qed.
Lemma launch_inv s : app_inv (launch s) <-> (releases s <= 1)%nat /\ (releases s <> 0%nat -> g_reloading s = true).
Proof.
  split; [intros [H1 H2 _ _]; cbn in *; split; [lia|auto]|]. intros [H1 H2]. split; cbn; [lia|naive_solver| |done].
  intros i [= <-]. split; [apply reached_init|done].
Qed.
Lemma app_inv_init : app_inv app_init. Proof. apply launch_inv. cbn. split; [lia|done]. Qed.
Lemma not_reloading s : app_inv s -> g_reloading s = false -> reload_modes s = [] /\ releases s = 0%nat.
Proof.
  intros [_ H2 _ _] Hg. split.
  - destruct (reload_modes s); [done|]. by rewrite H2 in Hg by by left.
  - destruct (releases s); [done|]. by rewrite H2 in Hg by by right.
Qed.
Lemma app_event_inv e s : app_inv s -> app_inv (app_event e s).
Proof.
  intros Hi. pose proof Hi as [H1 H2 H3 H4]. destruct e as [e|code|sc|sc|rc ex sc|ok|]; cbn [app_event].
  - by apply on_instance_inv.
  - by apply (app_inv_same s).
  - apply (on_instance_inv (EShutdown _ sc)). by apply (app_inv_same s).
  - apply (on_instance_inv (EShutdown _ sc)). by apply (app_inv_same s).
  - destruct (inst s) as [i|] eqn:Ei; [|done]. unfold on_reload_request. destruct (g_reloading s) eqn:Hg; [done|].
    destruct (not_reloading s Hi Hg) as [Em Er].
    unfold reload. destruct (match rc with Some z => negb (z =? 0) | None => false end).
    + apply (app_inv_same s); done.
    + apply (on_instance_inv (EShutdown 5000 sc)). split; cbn; rewrite ?Em, ?Er, ?Ei; cbn; [lia|done|exact H3|done].
  - destruct (deleting s); [|done]. unfold delete_app. destruct (reload_modes s) as [|m [|m' ms]] eqn:Em; cbn [length fold_left] in *; [| |lia].
    + split; cbn; [lia| |done|done]. intros [|]; [done|]. apply H2. by right.
    + assert (g_reloading s = true) as Hg by (apply H2; by left). assert (releases s = 0%nat) as Er by lia.
      unfold on_destroyed. destruct m, ok; (split; cbn; rewrite ?Er, ?Hg; [lia|done| |done]); intros i Hj; try done; injection Hj as <-; (split; [apply reached_init|done]).
  - destruct (releases s) as [|n] eqn:Er; [done|]. split; cbn; [lia| |done|done]. destruct (reload_modes s) as [|m ms]; [|cbn in H1; lia].
    intros [|]; [done|]. cbn in H1. lia.
Qed.
Lemma app_run_inv es : forall s, app_inv s -> app_inv (app_run es s).
Proof. induction es as [|e es IH]; [done|]. intros s H. apply (IH (app_event e s)). by apply app_event_inv. Qed.
Lemma on_instance_quiet f s i : inst s = Some i -> shutdownDone i = false -> shutdownDone (f i) = false -> on_instance f s = set_inst (f i) s.
Proof. intros Hin D1 D2. unfold on_instance. by rewrite Hin, D1, D2. Qed.
(** ** A shutdown under way, whatever comes in between *)
Definition shutting (i : Inst) : Prop := shutdown i = true /\ (shutdownDone i = true \/ timer i = true).
Lemma shutting_event e i : shutting i -> shutting (on_event e i) /\
  (shutdownDone i = true \/ e = ETimeout -> shutdownDone (on_event e i) = true).
Proof.
  intros [Hs Hd]. destruct e as [c|t sc|w| | |]; cbn [on_event].
  - unfold shutting. destruct (do_call_frame c i) as ([E1 E2 _ _ E3 _ _] & _). rewrite E1, E2, E3. naive_solver.
  - unfold Shutdown. rewrite Hs. unfold shutting. naive_solver.
  - destruct (turn_frame w i) as (E1 & E2 & _ & _ & _ & E3 & _). unfold shutting. rewrite E1, E2, E3. naive_solver.
  - destruct (timer i) eqn:E.
    + split; [|intros _; apply announce_done]. split; [|left; apply announce_done]. unfold announce. by destruct (shutdownDone _).
    + unfold shutting. rewrite Hs, E. naive_solver.
  - destruct (posted i); [unfold shutting; naive_solver|]. unfold emitDoneWhenIdle, shutting. destruct (shutdownIdleArmed _); cbn; naive_solver.
  - destruct (stopping i); [|unfold shutting; naive_solver]. unfold stop_returned. split; [|intros _; apply announce_done].
    split; [|left; apply announce_done]. unfold announce. by destruct (shutdownDone _).
Qed.
Lemma Shutdown_shutting t sc i : 0 <= wraps 32 t -> shutdown i = false -> reached i ->
  shutting (Shutdown t sc i) /\ shutdownDone i = false /\ shutdownDone (Shutdown t sc i) = false.
Proof.
  intros Ht Hs [es ->]. destruct (run_ok es inst_init inst_inv_init) as [Hi _]. destruct (inv_running _ Hi Hs) as (Hd & _).
  destruct (Shutdown_spec t sc _ Hs) as (E1 & E2 & _ & _ & _ & T & _). split; [|by rewrite E2].
  split; [done|]. right. rewrite T. by apply Z.leb_le.
Qed.
Definition no_reload (e : AppEvent) : bool := match e with AReload _ _ _ => false | _ => true end.
Definition no_delete (e : AppEvent) : bool := match e with ADelete _ => false | _ => true end.
Definition idle_guard (s : App) : Prop := reload_modes s = [] /\ releases s = 0%nat /\ g_reloading s = false.

(** Shutting down for good: not yet over, and over with an exit code. *)
Definition leaving (s0 s : App) : Prop :=
  idle_guard s /\ deleting s = false /\ app_acts s = app_acts s0 /\ g_exited s = g_exited s0 /\ exists i, inst s = Some i /\ shutting i /\ shutdownDone i = false.
Definition left_with (s0 : App) (code : Z) (s : App) : Prop :=
  idle_guard s /\ app_acts s = app_acts s0 ++ [Exit code] /\ g_exited s = true /\ g_exit_code s = code /\
  (forall i, inst s = Some i -> shutting i /\ shutdownDone i = true).
Lemma leaving_event e s0 s : no_reload e = true -> leaving s0 s ->
  (leaving s0 (app_event e s) /\ e <> AInst ETimeout) \/ left_with s0 (exitCode s) (app_event e s).
Proof.
  intros Hr ((G1 & G2 & G3) & Hdel & Ha & Hx & i & Hin & Hs & Hd).
  assert (forall ev s1, s1 = s \/ inst s1 = inst s /\ reload_modes s1 = reload_modes s /\ releases s1 = releases s /\ g_reloading s1 = g_reloading s /\
      app_acts s1 = app_acts s /\ g_exited s1 = g_exited s /\ exitCode s1 = exitCode s /\ deleting s1 = deleting s ->
    (leaving s0 (on_instance (on_event ev) s1) /\ ev <> ETimeout) \/ left_with s0 (exitCode s) (on_instance (on_event ev) s1)) as Hev.
  { intros ev s1 H1. assert (inst s1 = inst s /\ reload_modes s1 = reload_modes s /\ releases s1 = releases s /\ g_reloading s1 = g_reloading s /\
      app_acts s1 = app_acts s /\ g_exited s1 = g_exited s /\ exitCode s1 = exitCode s /\ deleting s1 = deleting s) as (E1 & E2 & E3 & E4 & E5 & E6 & E7 & E8) by (destruct H1 as [->|]; done).
    destruct (shutting_event ev i Hs) as [Hs' Hd']. unfold on_instance. rewrite E1, Hin, Hd. cbn [negb andb].
    destruct (shutdownDone (on_event ev i)) eqn:E; [right|left].
    - unfold on_ShutdownDone. cbn [g_reloading set_inst]. rewrite E4, G3. unfold left_with, idle_guard. cbn. rewrite E2, E3, E5, E7, Ha, ?G3. split_and!; try done.
      intros j [= <-]. done.
    - split; [|intros ->; by discriminate (Hd' (or_intror eq_refl))]. unfold leaving, idle_guard. cbn. rewrite E2, E3, E4, E5, E6, E8. split_and!; try done. eauto. }
  destruct e as [ev|code|sc|sc|rc ex sc|ok|]; cbn [app_event]; [| | | |done| |].
  - destruct (Hev ev s (or_introl eq_refl)) as [[H1 H2]|H]; [left; split; [done|congruence]|by right].
  - left. split; [|done]. unfold leaving, idle_guard. cbn. split_and!; try done. eauto.
  - unfold app_shutdown. destruct (Hev (EShutdown (if sigterm (set_signals true (sigterm s) s) then 500 else 5000) sc) (set_signals true (sigterm s) s)) as [[H1 H2]|H]; [by right|by left|by right].
  - unfold app_shutdown. destruct (Hev (EShutdown (if sigterm (set_signals (sigint s) true s) then 500 else 5000) sc) (set_signals (sigint s) true s)) as [[H1 H2]|H]; [by right|by left|by right].
  - left. rewrite Hdel. split; [|done]. unfold leaving, idle_guard. eauto 10.
  - left. rewrite G2. split; [|done]. unfold leaving, idle_guard. eauto 10.
Qed.
Lemma left_event e s0 code s : no_reload e = true -> left_with s0 code s -> left_with s0 code (app_event e s).
Proof.
  intros Hr ((G1 & G2 & G3) & Ha & Hx & Hc & Hi).
  assert (forall ev s1, inst s1 = inst s -> left_with s0 code s1 -> left_with s0 code (on_instance (on_event ev) s1)) as Hev.
  { intros ev s1 E1 (K1 & K2 & K3 & K4 & K5). unfold on_instance. destruct (inst s1) as [i|] eqn:Ei; [|split_and!; try done; congruence].
    destruct (K5 i eq_refl) as [Hs Hd]. rewrite Hd. cbn. destruct (shutting_event ev i Hs) as [Hs' Hd'].
    split_and!; try done. cbn. intros j [= <-]. auto. }
  assert (left_with s0 code s) as Hl by done.
  destruct e as [ev|c|sc|sc|rc ex sc|ok|]; cbn [app_event]; [| | | |done| |].
  - by apply Hev.
  - done.
  - by apply (Hev (EShutdown _ sc) (set_signals true (sigterm s) s)).
  - by apply (Hev (EShutdown _ sc) (set_signals (sigint s) true s)).
  - destruct (deleting s); [|done]. unfold delete_app. rewrite G1. cbn. split_and!; try done.
  - by rewrite G2.
Qed.
Lemma leaving_run es s0 : forall s, forallb no_reload es = true -> leaving s0 s ->
  (leaving s0 (app_run es s) /\ AInst ETimeout ∉ es) \/
  exists pre suf, es = pre ++ suf /\ left_with s0 (exitCode (app_run pre s)) (app_run es s).
Proof.
  induction es as [|e es IH]; intros s; [left; split; [done|by apply not_elem_of_nil]|].
  cbn [forallb]. intros [He Hes]%andb_true_iff Hl. change (app_run (e :: es) s) with (app_run es (app_event e s)).
  destruct (leaving_event e s0 s He Hl) as [[Hl' Hne]|Hl'].
  - destruct (IH _ Hes Hl') as [[H1 H2]|(pre & suf & -> & H)]; [left; split; [done|]; rewrite not_elem_of_cons; naive_solver|].
    right. by exists (e :: pre), suf.
  - right. exists [], (e :: es). split; [done|]. cbn [app_run fold_left]. clear IH Hl He. change (fold_left _ es ?x) with (app_run es x).
    revert Hl'. generalize (exitCode s) (app_event e s). induction es as [|e' es IH]; intros c s1 H1; [done|].
    cbn [forallb] in Hes. apply andb_true_iff in Hes as [He Hes]. apply (IH Hes). by apply left_event.
Qed.

(** Being replaced. *)
Definition replacing (s0 s : App) : Prop :=
  reload_modes s = [false] /\ releases s = 0%nat /\ g_reloading s = true /\ app_acts s = app_acts s0 /\
  exists i, inst s = Some i /\ shutting i /\ deleting s = shutdownDone i.
Lemma replacing_event e s0 s : no_delete e = true -> replacing s0 s ->
  replacing s0 (app_event e s) /\ (deleting s = true \/ e = AInst ETimeout -> deleting (app_event e s) = true).
Proof.
  intros Hr (G1 & G2 & G3 & Ha & i & Hin & Hs & Hd).
  assert (forall ev s1, inst s1 = inst s /\ reload_modes s1 = reload_modes s /\ releases s1 = releases s /\ g_reloading s1 = g_reloading s /\
      app_acts s1 = app_acts s /\ deleting s1 = deleting s ->
    replacing s0 (on_instance (on_event ev) s1) /\ (deleting s = true \/ ev = ETimeout -> deleting (on_instance (on_event ev) s1) = true)) as Hev.
  { intros ev s1 (E1 & E2 & E3 & E4 & E5 & E6). destruct (shutting_event ev i Hs) as [Hs' Hd']. unfold on_instance. rewrite E1, Hin.
    destruct (shutdownDone i) eqn:Ed; cbn [negb andb].
    - unfold replacing. cbn. rewrite E2, E3, E4, E5, E6, Hd. split_and!; try done. exists (on_event ev i). by rewrite Hd'; [|left].
    - destruct (shutdownDone (on_event ev i)) eqn:E.
      + unfold on_ShutdownDone. cbn [g_reloading set_inst]. rewrite E4, G3. unfold replacing. cbn. rewrite E2, E3, E5, ?G3. split_and!; try done. eauto.
      + unfold replacing. cbn. rewrite E2, E3, E4, E5, E6, Hd. split_and!; try done. by exists (on_event ev i). }
  destruct e as [ev|c|sc|sc|rc ex sc|ok|]; cbn [app_event]; [| | | | |done|].
  - destruct (Hev ev s) as [H1 H2]; [done|]. split; [done|]. intros [H|[= ->]]; auto.
  - split; [|naive_solver]. unfold replacing. cbn. eauto 10.
  - destruct (Hev (EShutdown (if sigterm s then 500 else 5000) sc) (set_signals true (sigterm s) s)) as [H1 H2]; [done|]. split; [done|]. intros [H|[=]]. auto.
  - destruct (Hev (EShutdown 500 sc) (set_signals (sigint s) true s)) as [H1 H2]; [done|]. split; [done|]. intros [H|[=]]. auto.
  - rewrite Hin. unfold on_reload_request. rewrite G3. split; [|naive_solver]. unfold replacing. eauto 10.
  - rewrite G2. split; [|naive_solver]. unfold replacing. eauto 10.
Qed.
Lemma replacing_run es s0 : forall s, forallb no_delete es = true -> replacing s0 s ->
  replacing s0 (app_run es s) /\ (deleting s = true \/ AInst ETimeout ∈ es -> deleting (app_run es s) = true).
Proof.
  induction es as [|e es IH]; intros s; [intros _ H; split; [done|]; intros [|H']; [done|by apply elem_of_nil in H']|].
  cbn [forallb]. intros [He Hes]%andb_true_iff Hl. change (app_run (e :: es) s) with (app_run es (app_event e s)).
  destruct (replacing_event e s0 s He Hl) as [H1 H2]. destruct (IH _ Hes H1) as [H3 H4]. split; [done|].
  intros [H|[<-|H]%elem_of_cons]; auto.
Qed.
Lemma replaced s0 s : replacing s0 s -> deleting s = true -> let s' := app_run [ADelete true; ARelease] s in
  inst s' = Some inst_init /\ g_reloading s' = false /\ app_acts s' = app_acts s0 ++ [Launched; ReloadDone].
Proof.
  intros (G1 & G2 & G3 & Ha & _) Hd. cbn [app_run fold_left app_event]. rewrite Hd. unfold delete_app. rewrite G1. cbn.
  by rewrite Ha, <- (assoc_L (++)).
Qed.

(** * Properties *)

(** C19: the life of the process.  Whatever events come in whatever order, a reload under
    way is the only one and is guarded.  When the application runs and no reload is
    under way: after a signal and any events that are no reload requests, nothing
    but the exit can have happened - it happens once, with the exit code in force at
    that moment, and by the time limit at the latest; after a reload request whose
    command succeeds and any events short of the deletion - other requests, and
    signals, which it swallows - nothing has happened yet, by the time limit at the
    latest the application is to be deleted, and its deletion and the release of the
    guard leave a fresh instance, no exit and the guard down.  (A reload request
    that finds a signal's shutdown under way takes its place: [reload_swallows_signal].) *)
Theorem app_lifecycle es script i : let s := app_run es app_init in
  (length (reload_modes s) <= 1)%nat /\ (reload_modes s <> [] -> g_reloading s = true) /\
  (g_reloading s = false -> inst s = Some i -> shutdown i = false ->
     (forall sig es', sig = ASigInt script \/ sig = ASigTerm script -> forallb no_reload es' = true ->
        let s' := app_run (sig :: es') s in
        (app_acts s' = app_acts s /\ g_exited s' = g_exited s /\ AInst ETimeout ∉ es') \/
        exists pre suf, es' = pre ++ suf /\ let code := exitCode (app_run (sig :: pre) s) in
          app_acts s' = app_acts s ++ [Exit code] /\ g_exited s' = true /\ g_exit_code s' = code) /\
     (forall rc es', match rc with Some z => z = 0 | None => True end -> forallb no_delete es' = true ->
        let s1 := app_run (AReload rc false script :: es') s in
        let s' := app_run [ADelete true; ARelease] s1 in
        app_acts s1 = app_acts s /\ (AInst ETimeout ∈ es' -> deleting s1 = true) /\
        (deleting s1 = true ->
           inst s' = Some inst_init /\ g_reloading s' = false /\ app_acts s' = app_acts s ++ [Launched; ReloadDone]))).
Proof.
  intros s. assert (app_inv s) as Hi by apply app_run_inv, app_inv_init. pose proof Hi as [H1 H2 H3 H4].
  split; [lia|]. split; [auto|]. intros Hg Hin Hs. destruct (H3 i Hin) as [Hr Hdel].
  destruct (not_reloading s Hi Hg) as [Em Er].
  assert (forall t s0, 0 <= wraps 32 t -> inst s0 = inst s -> exists i', on_instance (Shutdown t script) s0 = set_inst i' s0 /\
    shutting i' /\ shutdownDone i' = false /\ shutdownDone i = false) as Hshut.
  { intros t s0 Ht E0. destruct (Shutdown_shutting t script i Ht Hs Hr) as (K1 & K2 & K3). exists (Shutdown t script i).
    split; [|done]. apply on_instance_quiet; congruence. }
  split.
  - intros sig es' Hsig Hes. assert (leaving s (app_event sig s)) as Hl.
    { destruct Hsig as [-> | ->]; cbn [app_event]; unfold app_shutdown.
      - destruct (Hshut (if sigterm s then 500 else 5000) (set_signals true (sigterm s) s) ltac:(by destruct (sigterm s)) eq_refl) as (i' & E & K1 & K2 & K3).
        cbn [sigterm set_signals]. rewrite E. unfold leaving, idle_guard. cbn. rewrite Hdel. eauto 12.
      - destruct (Hshut 500 (set_signals (sigint s) true s) ltac:(done) eq_refl) as (i' & E & K1 & K2 & K3).
        cbn [sigterm set_signals]. rewrite E. unfold leaving, idle_guard. cbn. rewrite Hdel. eauto 12. }
    cbv zeta. change (app_run (sig :: ?l) s) with (app_run l (app_event sig s)).
    destruct (leaving_run es' s _ Hes Hl) as [[(_ & _ & K1 & K2 & _) K3]|(pre & suf & -> & _ & K1 & K2 & K3 & _)]; [by left|right].
    exists pre, suf. split; [done|]. change (app_run (sig :: pre) s) with (app_run pre (app_event sig s)). done.
  - intros rc es' Hrc Hes. assert (replacing s (app_event (AReload rc false script) s)) as Hl.
    { cbn [app_event]. rewrite Hin. unfold on_reload_request, reload. rewrite Hg.
      replace (match rc with Some z => negb (z =? 0) | None => false end) with false by (by destruct rc as [z|]; [subst z|]).
      cbn [g_reloading reload_modes releases set_reloading]. rewrite Em, Er.
      destruct (Hshut 5000 (set_reloading true [false] 0 (set_reloading true [] 0 s)) ltac:(done) eq_refl) as (i' & E & K1 & K2 & K3).
      cbn [app]. rewrite E. unfold replacing. cbn. split_and!; try done. exists i'. by rewrite Hdel, K2, K3. }
    cbv zeta. change (app_run (AReload rc false script :: es') s) with (app_run es' (app_event (AReload rc false script) s)).
    destruct (replacing_run es' s _ Hes Hl) as [K1 K2]. split; [apply K1|]. split; [auto|]. by apply replaced.
Qed.
Lemma app_lifecycle_witness : let s := app_run [ASetExitCode 3] app_init in
  (exists code, app_acts (app_run [ASigTerm quiet; ASetExitCode 4; ASigInt quiet; AInst ETimeout; ADelete true; ARelease] s) = app_acts s ++ [Exit code]) /\
  app_acts (app_run [ADelete true; ARelease] (app_run [AReload None false quiet; ASigInt quiet; AReload None true quiet; AInst ETimeout] s)) = app_acts s ++ [Launched; ReloadDone].
Proof.
  intros s. destruct (app_lifecycle [ASetExitCode 3] quiet inst_init) as (_ & _ & H). destruct H as [H1 H2]; [reflexivity..|]. split.
  - destruct (H1 (ASigTerm quiet) [ASetExitCode 4; ASigInt quiet; AInst ETimeout; ADelete true; ARelease] (or_intror eq_refl) eq_refl)
      as [(_ & _ & []%not_elem_of_cons)|(pre & suf & _ & E & _)].
    + set_solver.
    + eexists. exact E.
  - destruct (H2 None [ASigInt quiet; AReload None true quiet; AInst ETimeout] I eq_refl) as (_ & K1 & K2). apply K2, K1. set_solver.
Defined.

(** A reload requested while the application is shutting down wins: the signal is
    forgotten and a new instance runs. *)
Theorem reload_swallows_signal :
  let s := app_run [ASigTerm quiet; AReload None false quiet; AInst ETimeout; ADelete true; ARelease] app_init in
  app_acts s = [Launched; Launched; ReloadDone] /\ g_exited s = false /\ sigterm s = false.
Proof. vm_compute. done. Qed.
(** So is a signal that comes while a reload is under way. *)
Theorem signal_swallowed_by_reload :
  let s := app_run [AReload None false quiet; ASigInt quiet; AInst ETimeout; ADelete true; ARelease] app_init in
  app_acts s = [Launched; Launched; ReloadDone] /\ g_exited s = false.
Proof. vm_compute. done. Qed.
