(* ===== verification/CyphalMsgs.v ===== *)
(** * Cyphal messages: [src/workers/can/cyphal_msgs.cpp]

    A Cyphal message is a C structure of the generated headers; the source
    describes its members (reflection) and converts it from and to a [QVariant],
    one template branch per kind of member.  A kind is a code ([MsgType]), a C
    value a [MsgVal]: fixed-size storage with, for variable-size members, the
    count of the elements in use.  Storage is not initialised when a message is
    built ([T value;]), so [from_variant] takes what the storage held.  The
    generated serializers, bit access of Nunavut, Qt's text and UUID conversions
    are parameters.  The branches of unions are modelled as written; whether a
    described union takes them is decided by the reflection library, a submodule. *)
From S2P Require Import Prelude QVariant Utils Config.
Set Warnings "-register-all".

(** ** Types and values of messages *)
Inductive MsgType :=
| TBool
| TNum (t : NumType)
| TStruct (name : string) (members : list (string * MsgType))
| TUnion (name : string) (tags : list (string * Z)) (members : list (string * MsgType))
| FBitArray (size : nat)                         (* bytes of [bitpacked] *)
| FUniqueID                                      (* uint8_t[16] *)
| FBitmask (size : nat)                          (* bytes *)
| FDynString (size : nat)
| FDynArray (size : nat) (t : MsgType)
| FEnum (name : string) (members : list (string * Z))
| FArray (size : nat) (t : MsgType).
Inductive MsgVal :=
| MBool (b : bool)
| MNum (z : Z)
| MStruct (l : list MsgVal)
| MUnion (tag : Z) (l : list MsgVal)             (* of the members only the tagged one has a value *)
| MBits (bitpacked : list Z) (count : Z)
| MBytes (b : list Z)
| MChars (elements : list Z) (count : Z)
| MDyn (elements : list MsgVal) (count : Z)
| MEnum (z : Z)
| MArray (l : list MsgVal).

(** Nunavut's bit access, and Qt's conversions of text and UUIDs. *)
Class MsgOps := {
  getBit : list Z -> Z -> bool;                  (* nunavutGetBit: false past the end *)
  setBit : list Z -> Z -> bool -> list Z;        (* nunavutSetBit: past the end, an error that is ignored *)
  uuid_bytes : QVar -> list Z;                   (* value<QUuid>().toRfc4122() *)
  fromUtf8 : list Z -> string;                   (* QString::fromUtf8 *)
  toLatin1 : string -> string;                   (* QString::toLatin1 *)
  nunavut_error : string -> Z                    (* the NUNAVUT_ constants of the generated header *)
}.

(** ** Helpers *)
Definition hex_digit (d : Z) : string := String (ascii_of_nat (Z.to_nat (if d <? 10 then 48 + d else 87 + d))) "".
(** [{:x}], of numbers up to 64 bits. *)
Fixpoint hex_loop (fuel : nat) (z : Z) : string :=
  match fuel with
  | S fuel => if z <? 16 then hex_digit z else hex_loop fuel (z / 16) +:+ hex_digit (z mod 16)
  | O => ""
  end.
Definition hex (z : Z) : string := hex_loop 16 z.
Definition elements_of (x : MsgVal) : list MsgVal :=
  match x with MStruct l | MUnion _ l | MArray l | MDyn l _ => l | _ => [] end.
Definition bytes_of (x : MsgVal) : list Z :=
  match x with MBits b _ | MBytes b | MChars b _ => b | _ => [] end.
Definition list_value (strings : bool) (toList : QVar -> list QVar) (q : QVar) : option (list QVar) :=
  match q with
  | VList _ => Some (toList q)
  | VStringList _ => if strings then Some (toList q) else None
  | _ => None
  end.

Section loops.
Variable to_variant : MsgType -> MsgVal -> list FrameKey -> res QVar.
Fixpoint items_to_variant (t : MsgType) (i : Z) (l : list MsgVal) (frame : list FrameKey) : res (list QVar) :=
  match l with
  | [] => Ok []
  | x :: l =>
      let* q := to_variant t x (frame ++ [FIdx i]) in
      let* qs := items_to_variant t (i + 1) l frame in
      Ok (q :: qs)
  end.
Fixpoint members_to_variant (members : list (string * MsgType)) (l : list MsgVal) (frame : list FrameKey)
    (result : list (string * QVar)) : res (list (string * QVar)) :=
  match members, l with
  | (k, t) :: members, x :: l =>
      let* q := to_variant t x (frame ++ [FKey k]) in
      members_to_variant members l frame (qm_insert k q result)
  | _, _ => Ok result
  end.
(** The [for_each] of a union, and whether a member had the tag. *)
Fixpoint union_to_variant (tag index : Z) (members : list (string * MsgType)) (l : list MsgVal) (frame : list FrameKey)
    (result : list (string * QVar)) (ok : bool) : res (list (string * QVar) * bool) :=
  match members, l with
  | (k, t) :: members, x :: l =>
      if index =? tag then
        let* q := to_variant t x (frame ++ [FKey k]) in
        union_to_variant tag (index + 1) members l frame (qm_insert k q result) true
      else union_to_variant tag (index + 1) members l frame result ok
  | _, _ => Ok (result, ok)
  end.

Variable from_variant : MsgType -> string -> QVar -> MsgVal -> list FrameKey -> res MsgVal.
(** Elements are assigned in place; those past the list keep what they held. *)
Fixpoint items_from_variant (t : MsgType) (i : Z) (l : list QVar) (cur : list MsgVal) (frame : list FrameKey)
    : res (list MsgVal) :=
  match l, cur with
  | q :: l, c :: cur =>
      let* x := from_variant t "" q c (frame ++ [FIdx i]) in
      let* xs := items_from_variant t (i + 1) l cur frame in
      Ok (x :: xs)
  | _, cur => Ok cur
  end.
Definition raise (name : string) (frame : list FrameKey) {A} (what : string) : res A :=
  Raise (((name +:+ ": ") +:+ print_keys frame) +:+ (": " +:+ what)).
Definition member_from_variant (name k : string) (t : MsgType) (m : list (string * QVar)) (c : MsgVal)
    (frame : list FrameKey) : res MsgVal :=
  match qm_find k m with
  | None => raise name frame "not found"
  | Some q => from_variant t name q c frame
  end.
Fixpoint members_from_variant (name : string) (members : list (string * MsgType)) (m : list (string * QVar))
    (cur : list MsgVal) (frame : list FrameKey) : res (list MsgVal) :=
  match members, cur with
  | (k, t) :: members, c :: cur =>
      let* x := member_from_variant name k t m c (frame ++ [FKey k]) in
      let* xs := members_from_variant name members m cur frame in
      Ok (x :: xs)
  | _, cur => Ok cur
  end.
Fixpoint union_from_variant (name : string) (tag idx : Z) (members : list (string * MsgType)) (m : list (string * QVar))
    (cur : list MsgVal) (frame : list FrameKey) (ok : bool) : res (list MsgVal * bool) :=
  match members, cur with
  | (k, t) :: members, c :: cur =>
      if idx =? tag then
        let* x := member_from_variant name k t m c (frame ++ [FKey k]) in
        let* (xs, ok) := union_from_variant name tag (idx + 1) members m cur frame true in
        Ok (x :: xs, ok)
      else
        let* (xs, ok) := union_from_variant name tag (idx + 1) members m cur frame ok in
        Ok (c :: xs, ok)
  | _, cur => Ok (cur, ok)
  end.
End loops.

Section messages.
Context {CO : ConfigOps} {MO : MsgOps}.
Notation toBool := (toBool (QVariantOps := variant)).
Notation toUInt := (toUInt (QVariantOps := variant)).
Notation toStr := (toStr (QVariantOps := variant)).

(** ** [to_variant] *)
Definition bits_to_variant (packed : list Z) (count : Z) : QVar :=
  VList (map (fun i => VBool (getBit packed i)) (seqZ 0 count)).
Definition unique_id_to_variant (b : list Z) : QVar := VString (fold_left (fun res byte => res +:+ hex byte) b "").
Definition bitmask_to_variant (b : list Z) : QVar :=
  VList (map VUInt (List.filter (getBit b) (seqZ 0 (8 * Z.of_nat (length b))))).
Definition enum_to_variant (name : string) (members : list (string * Z)) (z : Z) : res QVar :=
  match enum_to_name members z with
  | None => Raise ((("Invalid value for enum(" +:+ name) +:+ ") -> 0x") +:+ hex z)
  | Some n => Ok (VString n)
  end.

Fixpoint to_variant (ty : MsgType) (x : MsgVal) (frame : list FrameKey) : res QVar :=
  match ty, x with
  | TBool, MBool b => Ok (VBool b)
  | TNum t, MNum z => Ok (num_variant t z)
  | TUnion name tags members, MUnion tag l =>
      let* (result, ok) := union_to_variant to_variant tag 0 members l frame [] false in
      if ok : bool then Ok (VMap result)
      else Raise ((((name +:+ ": Invalid (or incorrectly described) _tag_ field in ") +:+ print_keys frame) +:+ " -> 0x") +:+ hex tag)
  | TStruct name members, MStruct l =>
      let* result := members_to_variant to_variant members l frame [] in Ok (VMap result)
  | FBitArray _, MBits packed count => Ok (bits_to_variant packed count)
  | FUniqueID, MBytes b => Ok (unique_id_to_variant b)
  | FBitmask _, MBytes b => Ok (bitmask_to_variant b)
  | FDynString _, MChars elements count => Ok (VString (fromUtf8 (take (Z.to_nat count) elements)))
  | FDynArray _ t, MDyn elements count =>
      let* qs := items_to_variant to_variant t 0 (take (Z.to_nat count) elements) frame in Ok (VList qs)
  | FEnum name members, MEnum z => enum_to_variant name members z
  | FArray _ t, MArray l => let* qs := items_to_variant to_variant t 0 l frame in Ok (VList qs)
  | _, _ => Ok VInvalid                          (* not a value of the type *)
  end.

(** ** [from_variant] *)
Fixpoint set_bits (packed : list Z) (i : Z) (l : list QVar) : list Z :=
  match l with
  | [] => packed
  | v :: l => set_bits (setBit packed i (toBool v)) (i + 1) l
  end.
Definition too_long (name : string) (frame : list FrameKey) {A} (max_sz got : Z) : res A :=
  raise name frame ((("List exceeds max size of " +:+ to_string max_sz) +:+ ", got: ") +:+ to_string got).
Definition bits_from_variant (name : string) (v : QVar) (packed : list Z) (frame : list FrameKey) : res MsgVal :=
  let max_sz := Z.of_nat (length packed) in
  match list_value false toList v with
  | None => raise name frame ("Expected a list, got: " +:+ TypeNameOf v)
  | Some l =>
      if max_sz <? Z.of_nat (length l) then too_long name frame max_sz (Z.of_nat (length l))
      else Ok (MBits (set_bits packed 0 l) (Z.of_nat (length l)))
  end.
Definition unique_id_from_variant (name : string) (v : QVar) (frame : list FrameKey) : res MsgVal :=
  if negb (canConvert MUuid v) then raise name frame ("Expected a uuid, got: " +:+ TypeNameOf v)
  else Ok (MBytes (uuid_bytes v)).
Fixpoint set_mask (name : string) (b : list Z) (idx : Z) (l : list QVar) (frame : list FrameKey) : res (list Z) :=
  match l with
  | [] => Ok b
  | v :: l =>
      let max_bit := 8 * Z.of_nat (length b) in
      let fail := raise name frame ((((((("could not cast item#" +:+ to_string idx) +:+ " (type: ") +:+ TypeNameOf v) +:+
        ") to bit index (max index: ") +:+ to_string max_bit) +:+ ")")) in
      match toUInt v with
      | None => fail
      | Some u => if max_bit <? u then fail else set_mask name (setBit b u true) (idx + 1) l frame
      end
  end.
Definition bitmask_from_variant (name : string) (v : QVar) (b : list Z) (frame : list FrameKey) : res MsgVal :=
  match list_value false toList v with
  | None => raise name frame ("Expected a list of bits, got: " +:+ TypeNameOf v)
  | Some l => let* b := set_mask name (replicate (length b) 0) 0 l frame in Ok (MBytes b)
  end.
(** The terminating NUL is copied too. *)
Definition string_from_variant (name : string) (v : QVar) (elements : list Z) (frame : list FrameKey) : res MsgVal :=
  let max_sz := wrapu 64 (Z.of_nat (length elements) - 1) in
  match v with
  | VString _ =>
      let str := bytes_of_string (toStr v) in
      let size := Z.of_nat (length str) in
      if max_sz <? size then too_long name frame max_sz size
      else Ok (MChars (str ++ [0] ++ drop (S (length str)) elements) size)
  | _ => raise name frame ("Expected a string, got: " +:+ TypeNameOf v)
  end.
Definition enum_from_variant (owner : string) (members : list (string * Z)) (v : QVar) (frame : list FrameKey) : res MsgVal :=
  let str := toStr v in
  if bool_decide (str = "") then raise owner frame ("expected string, got: " +:+ TypeNameOf v)
  else
    match name_to_enum members (toLatin1 str) with
    | None => raise owner frame ((((("invalid enum value: " +:+ str) +:+ ". Valid: [") +:+ join_names members.*1) +:+ "]"))
    | Some z => Ok (MEnum z)
    end.
Definition type_error {A} (name : string) (frame : list FrameKey) (what : string) : res A :=
  Raise (((name +:+ ": type ") +:+ print_keys frame) +:+ (": " +:+ what)).

(** [owner]: the described type the member belongs to. *)
Fixpoint from_variant (ty : MsgType) (owner : string) (v : QVar) (cur : MsgVal) (frame : list FrameKey) : res MsgVal :=
  match ty with
  | TBool => Ok (MBool (toBool v))
  | TNum t => Ok (MNum (value_num t v))
  | TUnion name tags members =>
      match v with
      | VMap m =>
          match m with
          | [(tag, _)] =>
              match name_to_enum tags (toLatin1 tag) with
              | None => type_error name frame (((("tag is invalid value: " +:+ tag) +:+ ". Valid: [") +:+ join_names members.*1) +:+ "]")
              | Some etag =>
                  let* (xs, ok) := union_from_variant from_variant name etag 0 members m (elements_of cur) frame false in
                  if ok : bool then Ok (MUnion etag xs)
                  else Raise ((name +:+ ": Error in description of type: ") +:+ print_keys frame)
              end
          | _ => type_error name frame ((("expected union (map with single item). Map has " +:+ to_string (Z.of_nat (length m))) +:+ " elems"))
          end
      | _ => type_error name frame "map expected"
      end
  | TStruct name members =>
      match v with
      | VMap m => let* xs := members_from_variant from_variant name members m (elements_of cur) frame in Ok (MStruct xs)
      | _ => type_error name frame "map expected"
      end
  | FBitArray _ => bits_from_variant owner v (bytes_of cur) frame
  | FUniqueID => unique_id_from_variant owner v frame
  | FBitmask _ => bitmask_from_variant owner v (bytes_of cur) frame
  | FDynString _ => string_from_variant owner v (bytes_of cur) frame
  | FDynArray size t =>
      match list_value true toList v with
      | None => raise owner frame ("Expected a list, got: " +:+ TypeNameOf v)
      | Some l =>
          if Z.of_nat size <? Z.of_nat (length l) then too_long owner frame (Z.of_nat size) (Z.of_nat (length l))
          else
            let* xs := items_from_variant from_variant t 0 l (elements_of cur) frame in
            Ok (MDyn xs (Z.of_nat (length l)))
      end
  | FEnum name members => enum_from_variant owner members v frame
  | FArray size t =>
      match list_value true toList v with
      | None => raise owner frame ("Expected a list, got: " +:+ TypeNameOf v)
      | Some l =>
          if negb (length l =? size)%nat then
            raise owner frame ((("Expected a list of size " +:+ to_string (Z.of_nat size)) +:+ ", got: ") +:+ to_string (Z.of_nat (length l)))
          else let* xs := items_from_variant from_variant t 0 l (elements_of cur) frame in Ok (MArray xs)
      end
  end.

(** ** Serialization: the generated functions are the template's [impl] *)
Definition NunavutStatus : list (string * Z) := [
  ("SUCCESS", nunavut_error "NUNAVUT_SUCCESS");
  ("ERROR_INVALID_ARGUMENT", - nunavut_error "NUNAVUT_ERROR_INVALID_ARGUMENT");
  ("ERROR_SERIALIZATION_BUFFER_TOO_SMALL", - nunavut_error "NUNAVUT_ERROR_SERIALIZATION_BUFFER_TOO_SMALL");
  ("ERROR_REPRESENTATION_BAD_ARRAY_LENGTH", - nunavut_error "NUNAVUT_ERROR_REPRESENTATION_BAD_ARRAY_LENGTH");
  ("ERROR_REPRESENTATION_BAD_UNION_TAG", - nunavut_error "NUNAVUT_ERROR_REPRESENTATION_BAD_UNION_TAG");
  ("ERROR_REPRESENTATION_BAD_DELIMITER_HEADER", - nunavut_error "NUNAVUT_ERROR_REPRESENTATION_BAD_DELIMITER_HEADER")
].
Definition translate (status : Z) : string := default "UNKNOWN_ERROR" (enum_to_name NunavutStatus status).
Definition type_name (ty : MsgType) : string :=
  match ty with TStruct name _ | TUnion name _ _ | FEnum name _ => name | _ => "" end.
(** [garbage]: what the stack held. *)
Definition do_serialize (ty : MsgType) (impl : MsgVal -> Z -> Z * list Z) (garbage : MsgVal) (data : QVar) (size : Z)
    : res (list Z) :=
  let* value := from_variant ty "" data garbage [] in
  let (err, buffer) := impl value size in
  if negb (err =? 0) then Raise ((("Cyphal: error serializing type: " +:+ type_name ty) +:+ " -> ") +:+ translate err)
  else Ok buffer.
Definition do_deserialize (ty : MsgType) (impl : list Z -> Z * MsgVal) (buffer : list Z) : res QVar :=
  let (err, value) := impl buffer in
  if negb (err =? 0) then Raise ((("Cyphal: error deserializing type: " +:+ type_name ty) +:+ " -> ") +:+ translate err)
  else to_variant ty value [].
End messages.

(** ** Storage and meaning *)
Section MsgType_induction.
Variable P : MsgType -> Prop.
Hypothesis Hleaf : forall t, match t with TStruct _ _ | TUnion _ _ _ | FDynArray _ _ | FArray _ _ => False | _ => True end -> P t.
Hypothesis Hstruct : forall n ms, Forall (fun kt => P kt.2) ms -> P (TStruct n ms).
Hypothesis Hunion : forall n tags ms, Forall (fun kt => P kt.2) ms -> P (TUnion n tags ms).
Hypothesis Hdyn : forall n t, P t -> P (FDynArray n t).
Hypothesis Harray : forall n t, P t -> P (FArray n t).
Fixpoint MsgType_tree_ind (t : MsgType) : P t :=
  let go := fix go (ms : list (string * MsgType)) : Forall (fun kt => P kt.2) ms :=
    match ms with
    | [] => @List.Forall_nil _ _
    | (k, x) :: ms => @List.Forall_cons _ (fun kt => P kt.2) (k, x) ms (MsgType_tree_ind x) (go ms)
    end in
  match t with
  | TStruct n ms => Hstruct n ms (go ms)
  | TUnion n tags ms => Hunion n tags ms (go ms)
  | FDynArray n t => Hdyn n t (MsgType_tree_ind t)
  | FArray n t => Harray n t (MsgType_tree_ind t)
  | TBool => Hleaf TBool I
  | TNum n => Hleaf (TNum n) I
  | FBitArray n => Hleaf (FBitArray n) I
  | FUniqueID => Hleaf FUniqueID I
  | FBitmask n => Hleaf (FBitmask n) I
  | FDynString n => Hleaf (FDynString n) I
  | FEnum n l => Hleaf (FEnum n l) I
  end.
End MsgType_induction.

(** What is known of a C value: it has the storage of its type; what the storage
    holds is a value (counts lie within it, enumerators and the tag are
    declared); the value can also be written as a variant that is read back. *)
Inductive Level := Storage | Value | Sendable.
Definition valued (lv : Level) : bool := match lv with Storage => false | _ => true end.
Definition sending (lv : Level) : bool := match lv with Sendable => true | _ => false end.
Section fits.
Variable fits : Level -> MsgType -> MsgVal -> bool.
Fixpoint members_fit (lv : Level) (members : list (string * MsgType)) (l : list MsgVal) : bool :=
  match members, l with
  | [], [] => true
  | (_, t) :: members, x :: l => (fits lv t x && members_fit lv members l)%bool
  | _, _ => false
  end.
(** Only the tagged member has a value. *)
Fixpoint union_fits (lv : Level) (tag : Z) (members : list (string * MsgType)) (l : list MsgVal) : bool :=
  match members, l with
  | [], [] => negb (valued lv)
  | (_, t) :: members, x :: l =>
      if tag =? 0 then (fits lv t x && members_fit Storage members l)%bool
      else (fits Storage t x && union_fits lv (tag - 1) members l)%bool
  | _, _ => false
  end.
End fits.
Section storage.
Context {CO : ConfigOps} {MO : MsgOps}.
Definition count_fits (count : Z) (size : nat) : bool := ((0 <=? count) && (count <=? Z.of_nat size))%bool.
Definition text_reads_back (e : list Z) (count : Z) : bool :=
  let b := take (Z.to_nat count) e in
  ((count <? Z.of_nat (length e)) && bytes_ok b && bool_decide (fromUtf8 b = string_of_bytes b))%bool.
Fixpoint fits (lv : Level) (ty : MsgType) (x : MsgVal) : bool :=
  match ty, x with
  | TBool, MBool _ => true
  | TNum t, MNum z => (negb (valued lv) || num_range t z)%bool
  | TStruct _ members, MStruct l => members_fit fits lv members l
  | TUnion _ _ members, MUnion tag l => union_fits fits lv tag members l
  | FBitArray size, MBits b count =>
      (bool_decide (length b = size) && (negb (valued lv) || count_fits count (8 * size)) &&
        (negb (sending lv) || count_fits count size))%bool
  | FUniqueID, MBytes b => (bool_decide (length b = 16%nat) && negb (sending lv))%bool
  | FBitmask size, MBytes b => bool_decide (length b = size)
  | FDynString size, MChars e count =>
      (bool_decide (length e = size) && (negb (valued lv) || count_fits count size) &&
        (negb (sending lv) || text_reads_back e count))%bool
  | FDynArray size t, MDyn e count =>
      (bool_decide (length e = size) && forallb (fits Storage t) e &&
        (negb (valued lv) || (count_fits count size && forallb (fits lv t) (take (Z.to_nat count) e))))%bool
  | FEnum _ members, MEnum z => (negb (valued lv) || bool_decide (is_Some (enum_to_name members z)))%bool
  | FArray size t, MArray l => (bool_decide (length l = size) && forallb (fits lv t) l)%bool
  | _, _ => false
  end.
(** What the value says, without what is left in unused storage. *)
Definition bits_of (b : list Z) (count : Z) : list Z := map (fun i => Z.b2z (getBit b i)) (seqZ 0 count).
Section meanings.
Variable meaning : MsgType -> MsgVal -> MsgVal.
Fixpoint members_meaning (members : list (string * MsgType)) (l : list MsgVal) : list MsgVal :=
  match members, l with
  | (_, t) :: members, x :: l => meaning t x :: members_meaning members l
  | _, _ => []
  end.
Fixpoint union_meaning (tag : Z) (members : list (string * MsgType)) (l : list MsgVal) : list MsgVal :=
  match members, l with
  | (_, t) :: members, x :: l => if tag =? 0 then [meaning t x] else union_meaning (tag - 1) members l
  | _, _ => []
  end.
End meanings.
Fixpoint meaning (ty : MsgType) (x : MsgVal) : MsgVal :=
  match ty, x with
  | TStruct _ members, MStruct l => MStruct (members_meaning meaning members l)
  | TUnion _ _ members, MUnion tag l => MUnion tag (union_meaning meaning tag members l)
  | FBitArray _, MBits b count => MBits (bits_of b count) count
  | FBitmask _, MBytes b => MBytes (bits_of b (8 * Z.of_nat (length b)))
  | FDynString _, MChars e count => MChars (take (Z.to_nat count) e) count
  | FDynArray _ t, MDyn e count => MDyn (map (meaning t) (take (Z.to_nat count) e)) count
  | FArray _ t, MArray l => MArray (map (meaning t) l)
  | _, x => x
  end.
(** Descriptions as the source writes them: member and enumerator names are
    distinct identifiers, a union's enumerators are its members in order, the
    sizes are those of C arrays. *)
Definition enum_ok (members : list (string * Z)) : bool :=
  (bool_decide (NoDup members.*1) && forallb (fun nz => negb (bool_decide (nz.1 = "")) && bool_decide (toLatin1 nz.1 = nz.1)) members)%bool.
Definition size_ok (size : nat) : bool := (8 * Z.of_nat size <? 2 ^ 31).
Fixpoint type_ok (ty : MsgType) : bool :=
  match ty with
  | TBool | TNum _ | FUniqueID => true
  | TStruct _ members => (bool_decide (NoDup members.*1) && forallb (fun kt => type_ok kt.2) members)%bool
  | TUnion _ tags members =>
      (bool_decide (NoDup members.*1) && forallb (fun kt => type_ok kt.2) members &&
        enum_ok tags && bool_decide (tags = imap (fun i kt => (kt.1, Z.of_nat i)) members))%bool
  | FBitArray size | FBitmask size => size_ok size
  | FDynString size => (size_ok size && (0 <? Z.of_nat size))%bool
  | FDynArray size t | FArray size t => (size_ok size && type_ok t)%bool
  | FEnum _ members => enum_ok members
  end.
End storage.

(** ** What the sources rely on *)
Class MsgLaws (CO : ConfigOps) (MO : MsgOps) : Prop := {
  setBit_length : forall b i v, length (setBit b i v) = length b;
  getBit_set_eq : forall b i v, 0 <= i < 8 * Z.of_nat (length b) -> getBit (setBit b i v) i = v;
  getBit_set_ne : forall b i j v, i <> j -> getBit (setBit b i v) j = getBit b j;
  getBit_zero : forall n i, getBit (replicate n 0) i = false;
  uuid_length : forall v, canConvert MUuid v = true -> length (uuid_bytes v) = 16%nat
}.

(** ** What is read stays in its storage *)
Section fits_lemmas.
Context {CO : ConfigOps} {MO : MsgOps}.
Definition weakens (t : MsgType) : Prop := forall lv x, fits lv t x = true -> fits Storage t x = true.
Lemma members_fit_storage lv ms : Forall (fun kt => weakens kt.2) ms -> forall l,
  members_fit fits lv ms l = true -> members_fit fits Storage ms l = true.
Proof.
  induction 1 as [|[k t] ms Ht _ IH]; intros [|x l]; try done. cbn. intros [Hx Hl]%andb_true_iff.
  cbn in Ht. rewrite (Ht _ _ Hx). cbn. by apply IH.
Qed.
Lemma union_fits_storage lv ms : Forall (fun kt => weakens kt.2) ms -> forall tag l,
  union_fits fits lv tag ms l = true -> union_fits fits Storage tag ms l = true.
Proof.
  induction 1 as [|[k t] ms Ht _ IH]; intros tag [|x l]; try done. cbn. case_match; intros [Hx Hl]%andb_true_iff.
  - cbn in Ht. rewrite (Ht _ _ Hx). cbn. done.
  - rewrite Hx. cbn. by apply IH.
Qed.
Lemma forallb_impl {A} (f g : A -> bool) l : (forall x, f x = true -> g x = true) -> forallb f l = true -> forallb g l = true.
Proof. intros H. rewrite !forallb_forall. auto. Qed.
Lemma fits_storage ty : weakens ty.
Proof.
  induction ty as [ty Hl|n ms IH|n tags ms IH|n t IH|n t IH] using MsgType_tree_ind; intros lv x H.
  - destruct ty, x; try done; cbn in *; by rewrite ?andb_true_iff in *; naive_solver.
  - destruct x; try done. by eapply members_fit_storage.
  - destruct x; try done. by eapply union_fits_storage.
  - destruct x; try done. cbn in *. rewrite !andb_true_iff in *. naive_solver.
  - destruct x; try done. cbn in *. rewrite !andb_true_iff in *. split; [naive_solver|].
    eapply forallb_impl; [|apply H]. intros y. apply IH.
Qed.
Lemma fits_value ty : forall x, fits Sendable ty x = true -> fits Value ty x = true.
Proof.
  induction ty as [ty Hl|n ms IH|n tags ms IH|n t IH|n t IH] using MsgType_tree_ind; intros x H.
  - destruct ty, x; try done; cbn in *; rewrite ?andb_true_iff in *; naive_solver.
  - destruct x; try done. cbn in *. revert l H. induction IH as [|[k t] ms Ht _ IH]; intros [|x l]; try done.
    cbn. intros [Hx Hl]%andb_true_iff. cbn in Ht. rewrite (Ht _ Hx). cbn. by apply IH.
  - destruct x; try done. cbn in *. revert tag l H. induction IH as [|[k t] ms Ht _ IH]; intros tag [|x l]; try done.
    cbn. case_match; intros [Hx Hl]%andb_true_iff; rewrite ?Hx; [cbn in Ht; by rewrite (Ht _ Hx)|]. cbn. by apply IH.
  - destruct x; try done. cbn in *. rewrite !andb_true_iff in *. destruct H as (? & ? & H). repeat split; try tauto.
    eapply forallb_impl; [|exact H]. apply IH.
  - destruct x; try done. cbn in *. rewrite !andb_true_iff in *. split; [tauto|].
    eapply forallb_impl; [|apply H]. apply IH.
Qed.
Lemma members_fit_length lv ms : forall l, members_fit fits lv ms l = true -> length l = length ms.
Proof. induction ms as [|[k t] ms IH]; intros [|x l]; try done. cbn. intros [_ H]%andb_true_iff. f_equal. auto. Qed.
End fits_lemmas.

Section reading.
Context {CO : ConfigOps} {MO : MsgOps} {CL : ConfigLaws CO} {EL : EnumLaws CO} {ML : MsgLaws CO MO}.

Definition reads_value (t : MsgType) : Prop :=
  forall owner v cur frame x, fits Storage t cur = true -> from_variant t owner v cur frame = Ok x -> fits Value t x = true.
Lemma items_read t : reads_value t -> forall l i cur frame xs,
  forallb (fits Storage t) cur = true -> items_from_variant from_variant t i l cur frame = Ok xs ->
  (length l <= length cur)%nat ->
  length xs = length cur /\ forallb (fits Storage t) xs = true /\ forallb (fits Value t) (take (length l) xs) = true.
Proof.
  intros Ht. induction l as [|q l IH]; intros i [|c cur] frame xs; [by intros ? [= <-]..|cbn; lia|cbn].
  intros [Hc Hcur]%andb_true_iff (x & Hx & (ys & Hys & [= <-])%res_bind_Ok)%res_bind_Ok Hlen.
  apply (Ht _ _ _ _ _ Hc) in Hx. destruct (IH _ _ _ _ Hcur Hys) as (L & S & V); [lia|]. cbn.
  rewrite L, S, V, Hx, (fits_storage _ _ _ Hx). done.
Qed.
Lemma member_read name k t m c frame x : reads_value t -> fits Storage t c = true ->
  member_from_variant from_variant name k t m c frame = Ok x -> fits Value t x = true.
Proof. intros Ht Hc. unfold member_from_variant. destruct (qm_find k m); [|done]. by apply Ht. Qed.
Lemma members_read name m frame ms : Forall (fun kt => reads_value kt.2) ms -> forall cur xs,
  members_fit fits Storage ms cur = true -> members_from_variant from_variant name ms m cur frame = Ok xs ->
  members_fit fits Value ms xs = true.
Proof.
  induction 1 as [|[k t] ms Ht _ IH]; intros [|c cur] xs; cbn; try done; [by intros _ [= <-]|].
  intros [Hc Hcur]%andb_true_iff (x & Hx & (ys & Hys & [= <-])%res_bind_Ok)%res_bind_Ok.
  cbn in Ht. cbn. rewrite (member_read _ _ _ _ _ _ _ Ht Hc Hx). cbn. by apply (IH _ _ Hcur Hys).
Qed.
(** Past the tagged member nothing is written. *)
Lemma union_past name tag m frame ms : forall idx cur xs ok ok', tag < idx ->
  union_from_variant from_variant name tag idx ms m cur frame ok = Ok (xs, ok') -> xs = cur /\ ok' = ok.
Proof.
  induction ms as [|[k t] ms IH]; intros idx [|c cur] xs ok ok' Hlt; cbn; try (intros [= -> ->]; done).
  destruct (Z.eqb_spec idx tag); [lia|]. intros ([ys o] & H & [= <- <-])%res_bind_Ok.
  apply IH in H as [-> ->]; [done|lia].
Qed.
Lemma union_read name tag m frame ms : Forall (fun kt => reads_value kt.2) ms -> forall idx cur xs,
  idx <= tag -> union_fits fits Storage (tag - idx) ms cur = true ->
  union_from_variant from_variant name tag idx ms m cur frame false = Ok (xs, true) ->
  union_fits fits Value (tag - idx) ms xs = true.
Proof.
  induction 1 as [|[k t] ms Ht _ IH]; intros idx [|c cur] xs Hle; try done. cbn [union_fits union_from_variant].
  destruct (Z.eqb_spec (tag - idx) 0) as [E|E].
  - rewrite (proj2 (Z.eqb_eq idx tag)) by lia. intros [Hc Hcur]%andb_true_iff (x & Hx & H)%res_bind_Ok.
    apply res_bind_Ok in H as ([ys o] & Hys & [= <- ->]). apply union_past in Hys as [-> _]; [|lia]. cbn [union_fits].
    cbn in Ht. by rewrite (member_read _ _ _ _ _ _ _ Ht Hc Hx).
  - rewrite (proj2 (Z.eqb_neq idx tag)) by lia. intros [Hc Hcur]%andb_true_iff H.
    apply res_bind_Ok in H as ([ys o] & Hys & [= <- ->]). cbn [union_fits].
    rewrite Hc. cbn.
    replace (tag - idx - 1) with (tag - (idx + 1)) in * by lia. apply (IH (idx + 1) cur ys); [lia|done..].
Qed.
Lemma union_storage ms : forall tag tag' l, union_fits fits Storage tag ms l = true -> union_fits fits Storage tag' ms l = true.
Proof.
  assert (forall ms l tag, union_fits fits Storage tag ms l = members_fit fits Storage ms l) as E.
  { clear ms. induction ms as [|[k t] ms IH]; intros [|x l] tag; try done. cbn. rewrite IH. by destruct (tag =? 0). }
  intros. rewrite !E in *. congruence.
Qed.
Lemma set_bits_length l : forall b i, length (set_bits b i l) = length b.
Proof. induction l as [|v l IH]; intros; [done|]. cbn. by rewrite IH, setBit_length. Qed.
Lemma set_mask_length name frame l : forall b i b', set_mask name b i l frame = Ok b' -> length b' = length b.
Proof.
  induction l as [|v l IH]; intros b i b'; cbn; [by intros [= ->]|].
  destruct (toUInt v) as [u|]; [|done]. destruct (_ <? u); [done|]. intros Hb%IH. by rewrite Hb, setBit_length.
Qed.
Lemma count_fits_length n size : (n <= size)%nat -> count_fits (Z.of_nat n) size = true.
Proof. intros. unfold count_fits. bool_to_prop; lia. Qed.
Lemma string_read owner v e frame x size : length e = size -> size_ok size = true -> 0 < Z.of_nat size ->
  string_from_variant owner v e frame = Ok x -> fits Value (FDynString size) x = true.
Proof.
  intros He Hs H0. unfold string_from_variant, size_ok, too_long in *. destruct v; try done.
  rewrite wrapu_small by lia. set (str := bytes_of_string _). destruct (Z.ltb_spec (Z.of_nat (length e) - 1) (Z.of_nat (length str))) as [|Hlt]; [done|].
  intros [= <-]. cbn [fits valued sending negb orb]. rewrite count_fits_length by lia. rewrite bool_decide_eq_true_2; [done|].
  rewrite length_app. cbn [app length]. rewrite length_drop. lia.
Qed.
Lemma from_variant_value ty : type_ok ty = true -> reads_value ty.
Proof.
  induction ty as [ty Hl|n ms IH|n tags ms IH|n t IH|n t IH] using MsgType_tree_ind; intros Hok owner v cur frame x Hc H.
  - destruct ty; try done; destruct cur; try done; cbn in *.
    + by injection H as <-.
    + injection H as <-. by rewrite value_num_range.
    + unfold bits_from_variant in H. destruct (list_value false toList v) as [l|]; [|done].
      destruct (Z.ltb_spec (Z.of_nat (length bitpacked)) (Z.of_nat (length l))); [done|]. injection H as <-.
      rewrite andb_true_iff, andb_true_iff, bool_decide_eq_true in Hc. destruct Hc as [[Hb _] _]. cbn.
      rewrite set_bits_length, bool_decide_eq_true_2 by done. cbn. rewrite count_fits_length; [done|lia].
    + unfold unique_id_from_variant in H. destruct (canConvert MUuid v) eqn:E; [|done]. injection H as <-. cbn.
      by rewrite bool_decide_eq_true_2 by (by apply uuid_length).
    + unfold bitmask_from_variant in H. case_match; [|done].
      apply res_bind_Ok in H as (b' & Hb & [= <-]). apply set_mask_length in Hb. rewrite length_replicate in Hb. cbn.
      by rewrite Hb.
    + rewrite !andb_true_iff, bool_decide_eq_true in *. destruct Hc as [[Hb _] _], Hok. eapply string_read; [exact Hb|done|lia|exact H].
    + unfold enum_from_variant in H. case_match; [done|]. case_match; [|done].
      injection H as <-. cbn. by rewrite bool_decide_eq_true_2 by (by eapply enum_named).
  - cbn in *. apply andb_true_iff in Hok as [_ Hok]. destruct v; try done; destruct cur; try done. apply res_bind_Ok in H as (xs & Hx & [= <-]).
    cbn. eapply members_read; [|exact Hc|exact Hx].
    rewrite forallb_forall in Hok. rewrite Forall_forall in *. intros kt Hkt. apply IH; [done|]. apply Hok. by apply list_elem_of_In.
  - cbn in *. rewrite !andb_true_iff, !bool_decide_eq_true in Hok. destruct Hok as [[[_ Hok] _] Htags]. destruct v; try done; destruct cur; try done.
    destruct m as [|[k q] [|? ?]]; try done. destruct (name_to_enum tags (toLatin1 k)) as [etag|] eqn:E; [|done].
    apply res_bind_Ok in H as ([xs ok] & Hx & H). destruct ok; [|done]. injection H as <-. cbn.
    assert (0 <= etag) as Hpos.
    { apply enum_named in E as [nm E]. apply enum_listed in E. subst tags. apply elem_of_lookup_imap in E as (i & y & [= _ ->] & _). lia. }
    replace etag with (etag - 0) by lia. eapply union_read; [|exact Hpos| |exact Hx].
    + rewrite forallb_forall in Hok. rewrite Forall_forall in *. intros kt Hkt. apply IH; [done|]. apply Hok. by apply list_elem_of_In.
    + by eapply union_storage.
  - cbn in *. apply andb_true_iff in Hok as [_ Hok]. destruct cur; try done. rewrite !andb_true_iff, bool_decide_eq_true in Hc.
    destruct Hc as [[Hlen He] _]. case_match; [|done]. destruct (Z.ltb_spec (Z.of_nat n) (Z.of_nat (length l))); [done|].
    apply res_bind_Ok in H as (xs & Hx & [= <-]). cbn in Hx. destruct (items_read t (IH Hok) _ _ _ _ _ He Hx) as (L & S & V); [lia|].
    cbn. rewrite S, Nat2Z.id, V, count_fits_length by lia. by rewrite bool_decide_eq_true_2 by lia.
  - cbn in *. apply andb_true_iff in Hok as [_ Hok]. destruct cur; try done. rewrite !andb_true_iff, bool_decide_eq_true in Hc.
    destruct Hc as [Hlen He]. case_match; [|done]. destruct (Nat.eqb_spec (length l0) n) as [El|]; [|done].
    apply res_bind_Ok in H as (xs & Hx & [= <-]). cbn in Hx. destruct (items_read t (IH Hok) _ _ _ _ _ He Hx) as (L & S & V); [lia|].
    cbn. rewrite bool_decide_eq_true_2 by lia. rewrite take_ge in V by lia. done.
Qed.
End reading.

(** ** What is written is read back *)
Section round_trip.
Context {CO : ConfigOps} {MO : MsgOps} {CL : ConfigLaws CO} {EL : EnumLaws CO} {ML : MsgLaws CO MO}.
#[local] Instance qlaws : QVariantLaws variant := variant_laws.

Lemma getBit_set_bits l : forall b i j, 0 <= i -> i + Z.of_nat (length l) <= 8 * Z.of_nat (length b) ->
  getBit (set_bits b i l) j =
    if decide (i <= j) then default (getBit b j) (toBool (QVariantOps := variant) <$> l !! Z.to_nat (j - i)) else getBit b j.
Proof.
  induction l as [|v l IH]; intros b i j Hi Hlen; cbn [set_bits length] in *; [by case_decide|].
  rewrite IH by (rewrite ?setBit_length; lia). destruct (decide (j = i)) as [->|Hne].
  - rewrite decide_False, decide_True, Z.sub_diag by lia. by rewrite getBit_set_eq by lia.
  - rewrite getBit_set_ne by lia. do 2 case_decide; try lia; [|done].
    replace (Z.to_nat (j - i)) with (S (Z.to_nat (j - (i + 1)))) by lia. done.
Qed.
Lemma bits_round_trip packed g count : 0 <= count <= 8 * Z.of_nat (length g) ->
  bits_of (set_bits g 0 (map (fun i => VBool (getBit packed i)) (seqZ 0 count))) count = bits_of packed count.
Proof.
  intros Hc. unfold bits_of. apply map_ext_in. intros j Hj%list_elem_of_In%elem_of_seqZ.
  rewrite getBit_set_bits by (rewrite ?length_map, ?length_seqZ; lia). rewrite decide_True by lia.
  rewrite <- list_lookup_fmap, Z.sub_0_r. change (map ?f ?l) with (f <$> l). rewrite <- list_fmap_compose, list_lookup_fmap.
  rewrite lookup_seqZ_lt by lia. cbn. rewrite toBool_bool. do 2 f_equal. lia.
Qed.
Lemma set_mask_bits name frame us : forall b i, Z.of_nat (length b) < 2 ^ 28 ->
  Forall (fun u => 0 <= u < 8 * Z.of_nat (length b)) us ->
  exists b', set_mask name b i (map VUInt us) frame = Ok b' /\ length b' = length b /\
    forall j, getBit b' j = (bool_decide (j ∈ us) || getBit b j)%bool.
Proof.
  induction us as [|u us IH]; intros b i Hb Hus; cbn [map set_mask].
  - exists b. split; [done|]. split; [done|]. intros j. by rewrite bool_decide_eq_false_2 by apply not_elem_of_nil.
  - inversion Hus as [|? ? Hu Hus']; subst. rewrite toUInt_uint by lia.
    destruct (Z.ltb_spec (8 * Z.of_nat (length b)) u); [lia|].
    destruct (IH (setBit b u true) (i + 1)) as (b' & E & L & Hj); rewrite ?setBit_length in *; [done|done|].
    exists b'. split; [done|]. split; [done|]. intros j. rewrite Hj. destruct (decide (j = u)) as [->|Hne].
    + rewrite getBit_set_eq by lia. rewrite orb_true_r. by rewrite bool_decide_eq_true_2 by left.
    + rewrite getBit_set_ne by lia. f_equal. apply bool_decide_ext. rewrite elem_of_cons. naive_solver.
Qed.
Lemma mask_round_trip name frame b size : length b = size -> size_ok size = true ->
  exists b', set_mask name (replicate size 0) 0 (map VUInt (List.filter (getBit b) (seqZ 0 (8 * Z.of_nat size)))) frame = Ok b' /\
    length b' = size /\ bits_of b' (8 * Z.of_nat size) = bits_of b (8 * Z.of_nat size).
Proof.
  intros Hb Hs. unfold size_ok in Hs. destruct (set_mask_bits name frame (List.filter (getBit b) (seqZ 0 (8 * Z.of_nat size)))
    (replicate size 0) 0) as (b' & E & L & Hj); rewrite ?length_replicate in *; [lia| |].
  - apply Forall_forall. intros u Hu%list_elem_of_In%filter_In. destruct Hu as [Hu%list_elem_of_In%elem_of_seqZ _]. lia.
  - exists b'. split; [done|]. split; [done|]. apply map_ext_in. intros j Hin. rewrite Hj, getBit_zero, orb_false_r.
    f_equal. destruct (getBit b j) eqn:Eb; [apply bool_decide_eq_true_2|apply bool_decide_eq_false_2];
      rewrite list_elem_of_In, filter_In; [done|intros [_ ?]; congruence].
Qed.
Lemma enum_ok_listed tags n z : enum_ok tags = true -> (n, z) ∈ tags ->
  n <> "" /\ toLatin1 n = n /\ name_to_enum tags n = Some z.
Proof.
  unfold enum_ok. rewrite andb_true_iff, bool_decide_eq_true, forallb_forall. intros [Hnd H] Hin.
  specialize (H (n, z)). rewrite list_elem_of_In in Hin. specialize (H Hin). rewrite andb_true_iff, bool_decide_eq_true in H. cbn in H.
  rewrite negb_true_iff, bool_decide_eq_false in H. rewrite <- list_elem_of_In in Hin. split; [tauto|]. split; [tauto|].
  by apply name_listed.
Qed.

Lemma bytes_of_string_of_bytes b : bytes_ok b = true -> bytes_of_string (string_of_bytes b) = b.
Proof.
  induction b as [|z b IH]; [done|]. cbn. intros [Hz Hb]%andb_true_iff. rewrite IH by done. f_equal.
  unfold is_byte in Hz. rewrite N_ascii_embedding by lia. lia.
Qed.
Lemma union_tag_range lv ms : forall tag l, valued lv = true -> union_fits fits lv tag ms l = true -> 0 <= tag.
Proof.
  induction ms as [|[k t] ms IH]; intros tag [|x l] Hv; cbn; try done; [by rewrite Hv|].
  destruct (Z.eqb_spec tag 0); [lia|]. intros [_ H]%andb_true_iff. apply IH in H; [lia|done].
Qed.
(** At one type: what a value is turned into reads back as what it says. *)
Definition returns (t : MsgType) : Prop := forall x frame, fits Sendable t x = true ->
  exists v, to_variant t x frame = Ok v /\ forall owner g frame', fits Storage t g = true ->
    exists y, from_variant t owner v g frame' = Ok y /\ meaning t y = meaning t x.
Lemma items_read_length t frame l : forall i cur xs, items_from_variant from_variant t i l cur frame = Ok xs -> length xs = length cur.
Proof.
  induction l as [|q l IH]; intros i [|c cur] xs; try (by intros [= <-]). cbn.
  intros (x & _ & (ys & Hys%IH & [= <-])%res_bind_Ok)%res_bind_Ok. cbn. by rewrite Hys.
Qed.
Lemma items_return t frame : returns t -> forall l i, forallb (fits Sendable t) l = true ->
  exists qs, items_to_variant to_variant t i l frame = Ok qs /\ length qs = length l /\
    forall j g frame', forallb (fits Storage t) g = true -> (length l <= length g)%nat ->
      exists ys, items_from_variant from_variant t j qs g frame' = Ok ys /\ map (meaning t) (take (length l) ys) = map (meaning t) l.
Proof.
  intros Ht. induction l as [|x l IH]; intros i; cbn [forallb items_to_variant length].
  - intros _. exists []. split; [done|]. split; [done|]. intros j g frame' _ _. exists g. by destruct g.
  - intros [Hx Hl]%andb_true_iff. destruct (Ht x (frame ++ [FIdx i]) Hx) as (q & Eq & Hq). destruct (IH (i + 1) Hl) as (qs & Eqs & L & Hqs).
    exists (q :: qs). rewrite Eq. cbn [res_bind]. rewrite Eqs. split; [done|]. split; [cbn; by rewrite L|].
    intros j [|c g] frame'; cbn [length forallb]; [lia|]. intros [Hc Hg]%andb_true_iff Hle.
    destruct (Hq "" c (frame' ++ [FIdx j]) Hc) as (y & Ey & My). destruct (Hqs (j + 1) g frame' Hg) as (ys & Eys & Mys); [lia|].
    exists (y :: ys). cbn [items_from_variant]. rewrite Ey. cbn [res_bind]. rewrite Eys. split; [done|]. cbn. by rewrite My, Mys.
Qed.
Lemma members_return frame ms : Forall (fun kt => returns kt.2) ms -> NoDup ms.*1 -> forall l result,
  members_fit fits Sendable ms l = true ->
  exists m, members_to_variant to_variant ms l frame result = Ok m /\ (forall k, k ∉ ms.*1 -> qm_find k m = qm_find k result) /\
    forall name g frame', members_fit fits Storage ms g = true ->
      exists ys, members_from_variant from_variant name ms m g frame' = Ok ys /\ members_meaning meaning ms ys = members_meaning meaning ms l.
Proof.
  induction 1 as [|[k t] ms Ht _ IH]; intros Hnd [|x l] result; try done.
  - intros _. exists result. split; [done|]. split; [done|]. intros name [|c g] frame'; [|done]. by exists [].
  - cbn [members_fit fmap list_fmap fst] in *. apply NoDup_cons in Hnd as [Hk Hnd]. intros [Hx Hl]%andb_true_iff. cbn in Ht.
    destruct (Ht x (frame ++ [FKey k]) Hx) as (q & Eq & Hq). destruct (IH Hnd l (qm_insert k q result) Hl) as (m & Em & Hout & Hm).
    exists m. cbn [members_to_variant]. rewrite Eq. cbn [res_bind]. split; [done|]. split.
    + intros k' Hk'. rewrite Hout by set_solver. apply qm_find_insert_ne. set_solver.
    + intros name [|c g] frame'; [done|]. cbn [members_fit]. intros [Hc Hg]%andb_true_iff.
      destruct (Hq name c (frame' ++ [FKey k]) Hc) as (y & Ey & My). destruct (Hm name g frame' Hg) as (ys & Eys & Mys).
      exists (y :: ys). cbn [members_from_variant]. unfold member_from_variant. rewrite Hout, qm_find_insert_eq by done. cbn beta iota. rewrite Ey.
      cbn [res_bind]. rewrite Eys. split; [done|]. cbn. by rewrite My, Mys.
Qed.
Lemma union_to_past tag frame ms : forall idx l result ok, tag < idx ->
  union_to_variant to_variant tag idx ms l frame result ok = Ok (result, ok).
Proof.
  induction ms as [|[k t] ms IH]; intros idx [|x l] result ok Hlt; cbn; try done.
  destruct (Z.eqb_spec idx tag); [lia|]. apply IH. lia.
Qed.
Lemma union_from_past name tag m frame ms : forall idx cur ok, tag < idx ->
  union_from_variant from_variant name tag idx ms m cur frame ok = Ok (cur, ok).
Proof.
  induction ms as [|[k t] ms IH]; intros idx [|c cur] ok Hlt; cbn; try done.
  destruct (Z.eqb_spec idx tag); [lia|]. rewrite IH by lia. done.
Qed.
Lemma union_return tag frame ms : Forall (fun kt => returns kt.2) ms -> forall idx l,
  idx <= tag -> union_fits fits Sendable (tag - idx) ms l = true ->
  exists k t q, ms !! Z.to_nat (tag - idx) = Some (k, t) /\
    union_to_variant to_variant tag idx ms l frame [] false = Ok ([(k, q)], true) /\
    forall name g frame', union_fits fits Storage (tag - idx) ms g = true ->
      exists ys, union_from_variant from_variant name tag idx ms [(k, q)] g frame' false = Ok (ys, true) /\
        union_meaning meaning (tag - idx) ms ys = union_meaning meaning (tag - idx) ms l.
Proof.
  induction 1 as [|[k t] ms Ht _ IH]; intros idx [|x l] Hle; try done. cbn [union_fits union_to_variant].
  destruct (Z.eqb_spec (tag - idx) 0) as [E|E].
  - rewrite (proj2 (Z.eqb_eq idx tag)) by lia. intros [Hx _]%andb_true_iff. cbn in Ht.
    destruct (Ht x (frame ++ [FKey k]) Hx) as (q & Eq & Hq). exists k, t, q. rewrite E. split; [done|].
    rewrite Eq. cbn [res_bind qm_insert]. rewrite union_to_past by lia. split; [done|].
    intros name [|c g] frame'; [done|]. cbn [union_fits]. intros [Hc Hg]%andb_true_iff.
    destruct (Hq name c (frame' ++ [FKey k]) Hc) as (y & Ey & My). exists (y :: g). cbn [union_from_variant].
    rewrite (proj2 (Z.eqb_eq idx tag)) by lia. unfold member_from_variant. cbn [qm_find].
    rewrite bool_decide_eq_true_2 by done. rewrite Ey. cbn [res_bind]. rewrite union_from_past by lia. split; [done|]. cbn. by rewrite My.
  - rewrite (proj2 (Z.eqb_neq idx tag)) by lia. intros [_ Hl]%andb_true_iff.
    replace (tag - idx - 1) with (tag - (idx + 1)) in * by lia. destruct (IH (idx + 1) l) as (k' & t' & q & Ek & Eq & Hq); [lia|done|].
    exists k', t', q. split; [replace (Z.to_nat (tag - idx)) with (S (Z.to_nat (tag - (idx + 1)))) by lia; done|]. split; [done|].
    intros name [|c g] frame'; [done|]. cbn [union_fits]. intros [Hc Hg]%andb_true_iff.
    destruct (Hq name g frame' Hg) as (ys & Eys & Mys).
    exists (c :: ys). cbn [union_from_variant]. rewrite (proj2 (Z.eqb_neq idx tag)) by lia. rewrite Eys. split; [done|].
    cbn [union_meaning]. rewrite (proj2 (Z.eqb_neq (tag - idx) 0)) by lia. by replace (tag - idx - 1) with (tag - (idx + 1)) by lia.
Qed.
Lemma string_return e count size g owner frame : length e = size -> size_ok size = true -> length g = size ->
  count_fits count size = true -> text_reads_back e count = true ->
  string_from_variant owner (VString (fromUtf8 (take (Z.to_nat count) e))) g frame =
    Ok (MChars (take (Z.to_nat count) e ++ [0] ++ drop (S (Z.to_nat count)) g) count).
Proof.
  unfold size_ok, count_fits, text_reads_back. rewrite !andb_true_iff, bool_decide_eq_true.
  intros He Hs Hg Hc [[Hlt Hb] Ht]. unfold string_from_variant. rewrite Ht, toStr_string, bytes_of_string_of_bytes by done.
  rewrite length_take, wrapu_small by lia. destruct (Z.ltb_spec (Z.of_nat (length g) - 1) (Z.of_nat (Z.to_nat count `min` length e))); [lia|].
  do 2 f_equal; [do 3 f_equal; lia|lia].
Qed.
Lemma enum_return owner members z v frame name : enum_ok members = true -> enum_to_variant name members z = Ok v ->
  enum_from_variant owner members v frame = Ok (MEnum z).
Proof.
  intros Hok. unfold enum_to_variant, enum_from_variant. destruct (enum_to_name members z) as [n|] eqn:E; [|done].
  intros [= <-]. apply enum_listed in E. destruct (enum_ok_listed _ _ _ Hok E) as (Hne & Hl & Hn).
  rewrite toStr_string, bool_decide_eq_false_2 by done. by rewrite Hl, Hn.
Qed.
Lemma returns_all ty : type_ok ty = true -> returns ty.
Proof.
  induction ty as [ty Hl|n ms IH|n tags ms IH|n t IH|n t IH] using MsgType_tree_ind; intros Hok x frame Hx.
  - destruct ty; try done; destruct x; try done; cbn [type_ok fits valued sending negb orb to_variant] in *.
    + eexists. split; [done|]. intros owner g frame' _. eexists. split; [done|]. cbn. by rewrite toBool_bool.
    + eexists. split; [done|]. intros owner g frame' _. eexists. split; [done|]. cbn. by rewrite value_num_own.
    + eexists. split; [done|]. intros owner [] frame'; try done. cbn. rewrite !andb_true_iff, !bool_decide_eq_true in *.
      intros [[Hg _] _]. unfold count_fits in Hx. unfold bits_from_variant, bits_to_variant. cbn [list_value]. rewrite toList_list.
      rewrite length_map, length_seqZ. destruct (Z.ltb_spec (Z.of_nat (length bitpacked0)) (Z.of_nat (Z.to_nat count))); [lia|].
      eexists. split; [done|]. cbn. rewrite Z2Nat.id by lia. f_equal. apply bits_round_trip. lia.
    + by rewrite andb_false_r in Hx.
    + eexists. split; [done|]. intros owner [] frame'; try done. cbn. rewrite !bool_decide_eq_true in *. intros Hg.
      unfold bitmask_from_variant, bitmask_to_variant. cbn [list_value]. rewrite toList_list, Hg, Hx.
      destruct (mask_round_trip owner frame' b size Hx Hok) as (b' & -> & L & Hb). eexists. split; [done|]. cbn. by rewrite L, Hb.
    + eexists. split; [done|]. intros owner [] frame'; try done. cbn [fits valued sending negb orb].
      rewrite !andb_true_iff, !bool_decide_eq_true in *. intros [[Hg _] _].
      destruct Hx as [[He Hc] Ht], Hok as [Hok _]. eexists.
      split; [exact (string_return _ _ size _ owner frame' He Hok Hg Hc Ht)|]. cbn. unfold count_fits in Hc. f_equal.
      rewrite take_app_le by (rewrite length_take; lia). rewrite take_take. f_equal. lia.
    + apply bool_decide_eq_true in Hx as [nm Hn].
      assert (enum_to_variant name members z = Ok (VString nm)) as E by (unfold enum_to_variant; by rewrite Hn).
      eexists. split; [exact E|]. intros owner g frame' _. eexists. split; [by eapply enum_return|]. done.
  - cbn [type_ok] in Hok. apply andb_true_iff in Hok as [Hnd Hok]. apply bool_decide_eq_true in Hnd. destruct x; try done.
    destruct (members_return frame ms) with (l := l) (result := @nil (string * QVar)) as (m & Em & _ & Hm); [|done..|].
    { rewrite forallb_forall in Hok. rewrite Forall_forall in *. intros kt Hkt. apply IH; [done|]. apply Hok. by apply list_elem_of_In. }
    exists (VMap m). cbn. rewrite Em. split; [done|]. intros owner [] frame'; try done. intros Hg.
    destruct (Hm n l0 frame' Hg) as (ys & Eys & Mys). exists (MStruct ys). cbn. rewrite Eys. split; [done|]. cbn. by rewrite Mys.
  - cbn [type_ok] in Hok. rewrite !andb_true_iff, !bool_decide_eq_true in Hok. destruct Hok as [[[Hnd Hok] Hen] Htags]. destruct x; try done.
    assert (0 <= tag) as Hpos.
    { by eapply (union_tag_range Sendable). }
    destruct (union_return tag frame ms) with (idx := 0) (l := l) as (k & t & q & Ek & Eq & Hq); [|done|by rewrite Z.sub_0_r|].
    { rewrite forallb_forall in Hok. rewrite Forall_forall in *. intros kt Hkt. apply IH; [done|]. apply Hok. by apply list_elem_of_In. }
    rewrite Z.sub_0_r in *. exists (VMap [(k, q)]). cbn. rewrite Eq. split; [done|]. intros owner [] frame'; try done. intros Hg.
    assert ((k, tag) ∈ tags) as Hin.
    { rewrite Htags. apply elem_of_lookup_imap. exists (Z.to_nat tag), (k, t). split; [cbn; f_equal; lia|done]. }
    destruct (enum_ok_listed _ _ _ Hen Hin) as (_ & Hlat & Hname). cbn in Hg.
    destruct (Hq n l0 frame' (union_storage _ _ _ _ Hg)) as (ys & Eys & Mys). exists (MUnion tag ys). cbn. rewrite Hlat, Hname, Eys.
    split; [done|]. cbn. by rewrite Mys.
  - cbn [type_ok] in Hok. apply andb_true_iff in Hok as [Hs Hok]. destruct x; try done. cbn [fits valued negb orb] in Hx.
    rewrite !andb_true_iff, !bool_decide_eq_true in Hx. destruct Hx as [[Hlen _] [Hc He]]. unfold count_fits in Hc.
    destruct (items_return t frame (IH Hok) _ 0 He) as (qs & Eq & L & Hq). exists (VList qs). cbn. rewrite Eq. split; [done|].
    intros owner [] frame'; try done. cbn. rewrite !andb_true_iff, !bool_decide_eq_true. intros [[Hg Hgs] _].
    rewrite length_take in *. destruct (Hq 0 elements0 frame' Hgs) as (ys & Eys & Mys); [lia|]. rewrite toList_list, L.
    destruct (Z.ltb_spec (Z.of_nat n) (Z.of_nat (Z.to_nat count `min` length elements))); [lia|].
    rewrite Eys. eexists. split; [done|]. cbn. rewrite <- Mys. f_equal; [|lia]. do 2 f_equal. lia.
  - cbn [type_ok] in Hok. apply andb_true_iff in Hok as [Hs Hok]. destruct x; try done. cbn [fits] in Hx.
    rewrite !andb_true_iff, !bool_decide_eq_true in Hx. destruct Hx as [Hlen He].
    destruct (items_return t frame (IH Hok) _ 0 He) as (qs & Eq & L & Hq). exists (VList qs). cbn. rewrite Eq. split; [done|].
    intros owner [] frame'; try done. cbn. rewrite !andb_true_iff, !bool_decide_eq_true. intros [Hg Hgs].
    destruct (Hq 0 l0 frame' Hgs) as (ys & Eys & Mys); [lia|]. rewrite toList_list, L, (proj2 (Nat.eqb_eq _ _)) by lia. cbn.
    rewrite Eys. eexists. split; [done|]. cbn. rewrite <- Mys. f_equal. f_equal. symmetry. apply take_ge.
    apply items_read_length in Eys. lia.
Qed.
End round_trip.

(** ** Only what a value says is converted *)
Section meanings_decide.
Context {CO : ConfigOps} {MO : MsgOps}.
Definition decided (t : MsgType) : Prop := forall x y frame, fits Value t x = true -> fits Value t y = true ->
  meaning t x = meaning t y -> to_variant t x frame = to_variant t y frame.
Lemma items_decided t frame : decided t -> forall l l' i, forallb (fits Value t) l = true -> forallb (fits Value t) l' = true ->
  map (meaning t) l = map (meaning t) l' -> items_to_variant to_variant t i l frame = items_to_variant to_variant t i l' frame.
Proof.
  intros Ht. induction l as [|x l IH]; intros [|y l'] i; try done. cbn. intros [Hx Hl]%andb_true_iff [Hy Hl']%andb_true_iff [= E1 E2].
  rewrite (Ht x y) by done. by rewrite (IH l').
Qed.
Lemma members_decided frame ms : Forall (fun kt => decided kt.2) ms -> forall l l' result,
  members_fit fits Value ms l = true -> members_fit fits Value ms l' = true ->
  members_meaning meaning ms l = members_meaning meaning ms l' ->
  members_to_variant to_variant ms l frame result = members_to_variant to_variant ms l' frame result.
Proof.
  induction 1 as [|[k t] ms Ht _ IH]; intros [|x l] [|y l'] result; try done. cbn.
  intros [Hx Hl]%andb_true_iff [Hy Hl']%andb_true_iff [= E1 E2]. cbn in Ht. rewrite (Ht x y) by done.
  destruct (to_variant t y (frame ++ [FKey k])); [|done]. cbn. by apply IH.
Qed.
Lemma union_decided tag frame ms : Forall (fun kt => decided kt.2) ms -> forall idx l l' result ok, idx <= tag ->
  union_fits fits Value (tag - idx) ms l = true -> union_fits fits Value (tag - idx) ms l' = true ->
  union_meaning meaning (tag - idx) ms l = union_meaning meaning (tag - idx) ms l' ->
  union_to_variant to_variant tag idx ms l frame result ok = union_to_variant to_variant tag idx ms l' frame result ok.
Proof.
  induction 1 as [|[k t] ms Ht _ IH]; intros idx [|x l] [|y l'] result ok Hle; try done. cbn.
  destruct (Z.eqb_spec (tag - idx) 0) as [E|E]; intros [Hx Hl]%andb_true_iff [Hy Hl']%andb_true_iff.
  - rewrite (proj2 (Z.eqb_eq idx tag)) by lia. intros [= Em]. cbn in Ht. rewrite (Ht x y) by done.
    destruct (to_variant t y (frame ++ [FKey k])); [|done]. cbn. by rewrite !union_to_past by lia.
  - rewrite (proj2 (Z.eqb_neq idx tag)) by lia. replace (tag - idx - 1) with (tag - (idx + 1)) in * by lia.
    intros Em. apply IH; [lia|done..].
Qed.
Lemma map_via {A B C} (f : A -> B) (g : B -> C) (l l' : list A) : map f l = map f l' -> map (fun x => g (f x)) l = map (fun x => g (f x)) l'.
Proof. intros H. rewrite <- !(map_map f g). by rewrite H. Qed.
Lemma bits_of_get b b' n : bits_of b n = bits_of b' n -> forall i, 0 <= i < n -> getBit b i = getBit b' i.
Proof.
  unfold bits_of. intros H i Hi. apply (f_equal (fun l => l !! Z.to_nat i)) in H.
  change (map ?f ?l) with (f <$> l) in H. rewrite !list_lookup_fmap, !lookup_seqZ_lt in H by lia. injection H as H.
  rewrite Z2Nat.id, Z.add_0_l in H by lia. by destruct (getBit b i), (getBit b' i).
Qed.
Lemma to_variant_meaning ty : decided ty.
Proof.
  induction ty as [ty Hl|n ms IH|n tags ms IH|n t IH|n t IH] using MsgType_tree_ind; intros x y frame Hx Hy E.
  - destruct ty, x; try done; destruct y; try done; cbn in *; try congruence.
    + injection E as E <-. unfold bits_to_variant. do 2 f_equal. apply map_ext_in. intros i Hi%list_elem_of_In%elem_of_seqZ. f_equal.
      eapply bits_of_get; [exact E|lia].
    + injection E as E. rewrite bool_decide_eq_true in *. unfold bitmask_to_variant. rewrite Hx, Hy in *. do 3 f_equal.
      apply List.filter_ext_in. intros i Hi%list_elem_of_In%elem_of_seqZ. eapply bits_of_get; [exact E|lia].
  - destruct x, y; try done. cbn in *. injection E as E. by rewrite (members_decided frame ms IH l l0).
  - destruct x, y; try done. cbn in *. injection E as <- E.
    assert (0 <= tag) as Hpos by (by eapply (union_tag_range Value)).
    rewrite (union_decided tag frame ms IH 0 l l0); rewrite ?Z.sub_0_r; done.
  - destruct x, y; try done. cbn in *. rewrite !andb_true_iff in *. injection E as E <-.
    by rewrite (items_decided t frame IH _ (take (Z.to_nat count) elements0) 0) by tauto.
  - destruct x, y; try done. cbn in *. rewrite !andb_true_iff in *. injection E as E.
    by rewrite (items_decided t frame IH _ l0 0) by tauto.
Qed.
End meanings_decide.

(** ** What the storage held does not show *)
Section garbage.
Context {CO : ConfigOps} {MO : MsgOps} {CL : ConfigLaws CO} {EL : EnumLaws CO} {ML : MsgLaws CO MO}.
(** The same error, or values that say the same. *)
Definition alike {A B} (R : A -> B -> Prop) (r : res A) (r' : res B) : Prop :=
  match r, r' with Ok x, Ok y => R x y | Raise m, Raise m' => m = m' | _, _ => False end.
Definition says (t : MsgType) (x y : MsgVal) : Prop := meaning t x = meaning t y.
Lemma alike_bind {A B C D} (R : A -> B -> Prop) (S : C -> D -> Prop) r r' f f' :
  alike R r r' -> (forall x y, R x y -> alike S (f x) (f' y)) -> alike S (res_bind r f) (res_bind r' f').
Proof. destruct r, r'; cbn; try done. auto. Qed.
Definition indifferent (t : MsgType) : Prop := forall owner v g g' frame, fits Storage t g = true -> fits Storage t g' = true ->
  alike (says t) (from_variant t owner v g frame) (from_variant t owner v g' frame).
Lemma items_indifferent t frame : indifferent t -> forall l i g g', forallb (fits Storage t) g = true -> forallb (fits Storage t) g' = true ->
  (length l <= length g)%nat -> (length l <= length g')%nat ->
  alike (fun xs ys => map (meaning t) (take (length l) xs) = map (meaning t) (take (length l) ys))
    (items_from_variant from_variant t i l g frame) (items_from_variant from_variant t i l g' frame).
Proof.
  intros Ht. induction l as [|q l IH]; intros i [|c g] [|c' g']; cbn [length]; try done; try lia. cbn [forallb items_from_variant].
  intros [Hc Hg]%andb_true_iff [Hc' Hg']%andb_true_iff L L'. eapply alike_bind; [by apply Ht|]. intros x y Hxy.
  eapply alike_bind; [apply IH; [done|done|lia|lia]|]. intros xs ys Hs. cbn. by rewrite Hxy, Hs.
Qed.
Lemma members_indifferent name m frame ms : Forall (fun kt => indifferent kt.2) ms -> forall g g',
  members_fit fits Storage ms g = true -> members_fit fits Storage ms g' = true ->
  alike (fun xs ys => members_meaning meaning ms xs = members_meaning meaning ms ys)
    (members_from_variant from_variant name ms m g frame) (members_from_variant from_variant name ms m g' frame).
Proof.
  induction 1 as [|[k t] ms Ht _ IH]; intros [|c g] [|c' g']; try done. cbn [members_fit members_from_variant].
  intros [Hc Hg]%andb_true_iff [Hc' Hg']%andb_true_iff. cbn in Ht. eapply (alike_bind (says t)).
  - unfold member_from_variant. destruct (qm_find k m); [by apply Ht|done].
  - intros x y Hxy. eapply alike_bind; [by apply IH|]. intros xs ys Hs. cbn. by rewrite Hxy, Hs.
Qed.
Lemma union_indifferent name tag m frame ms : Forall (fun kt => indifferent kt.2) ms -> forall idx g g', idx <= tag ->
  union_fits fits Storage (tag - idx) ms g = true -> union_fits fits Storage (tag - idx) ms g' = true ->
  alike (fun xs ys => xs.2 = ys.2 /\ union_meaning meaning (tag - idx) ms xs.1 = union_meaning meaning (tag - idx) ms ys.1)
    (union_from_variant from_variant name tag idx ms m g frame false) (union_from_variant from_variant name tag idx ms m g' frame false).
Proof.
  induction 1 as [|[k t] ms Ht _ IH]; intros idx [|c g] [|c' g'] Hle; try done. cbn [union_fits union_from_variant].
  destruct (Z.eqb_spec (tag - idx) 0) as [E|E]; intros [Hc Hg]%andb_true_iff [Hc' Hg']%andb_true_iff; cbn in Ht.
  - rewrite (proj2 (Z.eqb_eq idx tag)) by lia. eapply (alike_bind (says t)).
    + unfold member_from_variant. destruct (qm_find k m); [by apply Ht|done].
    + intros x y Hxy. rewrite !union_from_past by lia. cbn. rewrite E. cbn. by rewrite Hxy.
  - rewrite (proj2 (Z.eqb_neq idx tag)) by lia. replace (tag - idx - 1) with (tag - (idx + 1)) in * by lia.
    eapply alike_bind; [apply IH; [lia|done|done]|]. intros [xs ok] [ys ok'] [E1 E2]. cbn in *.
    rewrite (proj2 (Z.eqb_neq (tag - idx) 0)) by lia. replace (tag - idx - 1) with (tag - (idx + 1)) in * by lia. done.
Qed.
Lemma from_variant_indifferent ty : type_ok ty = true -> indifferent ty.
Proof.
  induction ty as [ty Hl|n ms IH|n tags ms IH|n t IH|n t IH] using MsgType_tree_ind; intros Hok owner v g g' frame Hg Hg'.
  - destruct ty; try done; destruct g; try done; destruct g'; try done; cbn in *; try done;
      rewrite ?andb_true_iff, ?bool_decide_eq_true in *.
    + unfold bits_from_variant. destruct Hg as [[Hg _] _], Hg' as [[Hg' _] _]. rewrite Hg, Hg'.
      destruct (list_value false toList v) as [l|]; [|done]. destruct (Z.ltb_spec (Z.of_nat size) (Z.of_nat (length l))); [done|].
      unfold says. cbn. f_equal. unfold bits_of. apply map_ext_in. intros i Hi%list_elem_of_In%elem_of_seqZ.
      rewrite !getBit_set_bits by lia. rewrite !decide_True by lia. destruct (lookup_lt_is_Some_2 l (Z.to_nat (i - 0))) as [q ->]; [lia|done].
    + unfold unique_id_from_variant. by case_match.
    + unfold bitmask_from_variant. rewrite Hg, Hg'. case_match; [|done]. destruct (set_mask _ _ _ _ _); done.
    + unfold string_from_variant. destruct Hg as [[Hg _] _], Hg' as [[Hg' _] _]. destruct v; try done. rewrite Hg, Hg'.
      case_match; [done|]. unfold says. cbn. rewrite Nat2Z.id. by rewrite !take_app_length.
    + unfold enum_from_variant. do 2 (case_match; try done).
  - cbn in *. apply andb_true_iff in Hok as [_ Hok]. destruct v; try done; destruct g; try done; destruct g'; try done.
    eapply (alike_bind (fun xs ys => members_meaning meaning ms xs = members_meaning meaning ms ys));
      [|intros xs ys H; unfold says; cbn; by rewrite H].
    cbn [elements_of]. apply members_indifferent; [|done|done].
    rewrite forallb_forall in Hok. rewrite Forall_forall in *. intros kt Hkt. apply IH; [done|]. apply Hok. by apply list_elem_of_In.
  - cbn in *. rewrite !andb_true_iff, !bool_decide_eq_true in Hok. destruct Hok as [[[_ Hok] _] Htags]. destruct v; try done; destruct g; try done; destruct g'; try done.
    destruct m as [|[k q] [|? ?]]; try done. destruct (name_to_enum tags (toLatin1 k)) as [etag|] eqn:E; [|done].
    assert (0 <= etag) as Hpos.
    { apply enum_named in E as [nm E]. apply enum_listed in E. subst tags. apply elem_of_lookup_imap in E as (i & y & [= _ ->] & _). lia. }
    cbn [elements_of]. eapply alike_bind; [apply (union_indifferent _ etag _ _ ms)|].
    + rewrite forallb_forall in Hok. rewrite Forall_forall in *. intros kt Hkt. apply IH; [done|]. apply Hok. by apply list_elem_of_In.
    + done.
    + by eapply union_storage.
    + by eapply union_storage.
    + intros [xs ok] [ys ok'] [Eo H]. cbn in *. subst ok'. destruct ok; [|done]. rewrite Z.sub_0_r in H. unfold says. cbn. by rewrite H.
  - cbn in *. apply andb_true_iff in Hok as [_ Hok]. destruct g; try done; destruct g'; try done. rewrite !andb_true_iff, bool_decide_eq_true in *.
    destruct (list_value true toList v) as [l|]; [|done]. destruct (Z.ltb_spec (Z.of_nat n) (Z.of_nat (length l))); [done|].
    cbn [elements_of]. eapply alike_bind; [apply (items_indifferent t frame (IH Hok)); [tauto|tauto|lia|lia]|].
    intros xs ys Hs. unfold says. cbn. rewrite Nat2Z.id. by rewrite Hs.
  - cbn in *. apply andb_true_iff in Hok as [_ Hok]. destruct g; try done; destruct g'; try done. rewrite !andb_true_iff, bool_decide_eq_true in *.
    destruct (list_value true toList v) as [l'|]; [|done]. destruct (Nat.eqb_spec (length l') n) as [El|]; [|done]. cbn.
    eapply (alike_bind (fun xs ys => length xs = length l' /\ length ys = length l' /\
       map (meaning t) (take (length l') xs) = map (meaning t) (take (length l') ys))).
    + pose proof (items_indifferent t frame (IH Hok) l' 0 l l0) as H.
      destruct (items_from_variant from_variant t 0 l' l frame) as [xs|] eqn:E1, (items_from_variant from_variant t 0 l' l0 frame) as [ys|] eqn:E2;
        cbn in *; try (apply H; [tauto|tauto|lia|lia]).
      apply items_read_length in E1, E2. split; [lia|]. split; [lia|]. apply H; [tauto|tauto|lia|lia].
    + intros xs ys (L1 & L2 & Hs). rewrite !take_ge in Hs by lia. unfold says. cbn. by rewrite Hs.
Qed.
End garbage.

(** ** A concrete instance *)
Definition tiny_getBit (b : list Z) (i : Z) : bool := ((0 <=? i) && Z.testbit (default 0 (b !! Z.to_nat (i / 8))) (i mod 8))%bool.
Definition tiny_setBit (b : list Z) (i : Z) (v : bool) : list Z :=
  if (0 <=? i)%bool then alter (fun byte => if v then Z.setbit byte (i mod 8) else Z.clearbit byte (i mod 8)) (Z.to_nat (i / 8)) b else b.
Definition tiny_msgs : MsgOps := {|
  getBit := tiny_getBit; setBit := tiny_setBit; uuid_bytes _ := replicate 16 0; fromUtf8 := string_of_bytes;
  toLatin1 s := s; nunavut_error _ := 1 |}.
Lemma tiny_msg_laws : MsgLaws tiny_config tiny_msgs.
Proof.
  split; cbn.
  - intros b i v. unfold tiny_setBit. case_match; [apply length_alter|done].
  - intros b i v Hi. unfold tiny_getBit, tiny_setBit. rewrite (proj2 (Z.leb_le 0 i)) by lia. cbn.
    assert (0 <= i / 8 < Z.of_nat (length b)) by (split; [apply Z.div_pos|apply Z.div_lt_upper_bound]; lia).
    rewrite list_lookup_alter_eq. destruct (lookup_lt_is_Some_2 b (Z.to_nat (i / 8))) as [x ->]; [lia|]. cbn.
    pose proof (Z.mod_pos_bound i 8). destruct v; [apply Z.setbit_eq; lia|apply Z.clearbit_eq].
  - intros b i j v Hne. unfold tiny_getBit, tiny_setBit. destruct (Z.leb_spec 0 i), (Z.leb_spec 0 j); try done. cbn.
    pose proof (Z.div_pos i 8). pose proof (Z.div_pos j 8). destruct (decide (i / 8 = j / 8)) as [E|E]; [|by rewrite list_lookup_alter_ne by lia].
    rewrite E, list_lookup_alter_eq. destruct (b !! Z.to_nat (j / 8)); [|done]. cbn.
    pose proof (Z.mod_pos_bound i 8). assert (i mod 8 <> j mod 8) by (pose proof (Z.div_mod i 8); pose proof (Z.div_mod j 8); lia).
    destruct v; [apply Z.setbit_neq; lia|by apply Z.clearbit_neq].
  - intros n i. unfold tiny_getBit. destruct (replicate n 0 !! Z.to_nat (i / 8)) as [x|] eqn:E; cbn.
    + apply lookup_replicate in E as [-> _]. by rewrite Z.testbit_0_l, andb_false_r.
    + by rewrite Z.testbit_0_l, andb_false_r.
  - done.
Qed.
(** A request of [uavcan.node.ExecuteCommand] with a byte of flags, and its serializer. *)
Definition sample_msg : MsgType := TStruct "sample" [("command", TNum NUShort); ("parameter", FDynString 8); ("flags", FBitmask 1)].
Definition sample_value : MsgVal := MStruct [MNum 258; MChars [104; 105; 0; 9; 9; 9; 9; 9] 2; MBytes [5]].
Definition sample_garbage : MsgVal := MStruct [MNum 7; MChars [1; 2; 3; 4; 5; 6; 7; 8] 99; MBytes [255]].
Definition sample_serialize (x : MsgVal) (size : Z) : Z * list Z :=
  match meaning (MO := tiny_msgs) sample_msg x with
  | MStruct [MNum c; MChars e n; MBytes [b0; b1; b2; b3; b4; b5; b6; b7]] =>
      (0, [c mod 256; c / 256; n] ++ e ++ [b0 + 2 * b1 + 4 * b2 + 8 * b3 + 16 * b4 + 32 * b5 + 64 * b6 + 128 * b7])
  | _ => (3, [])
  end.
Definition sample_deserialize (b : list Z) : Z * MsgVal :=
  match b with
  | lo :: hi :: n :: rest =>
      let e := take (Z.to_nat n) rest in
      (0, MStruct [MNum (lo + 256 * hi); MChars (e ++ replicate (8 - length e) 0) n; MBytes (drop (Z.to_nat n) rest)])
  | _ => (2, sample_garbage)
  end.

(** * Properties *)

(** C20: what is received can be sent: the variant made of a message, read into storage
    that holds anything, is serialized to the bytes the message has, and those bytes
    deserialize to that variant - for every serializer that depends on what a message
    says only and returns it. The described type's members have distinct names, its
    enumerators distinct Latin-1 names, its unions a tag per member, its arrays sizes
    below 2^28. The message holds no unique id; each bit array has no more bits than its
    storage has bytes; each string is valid UTF-8 and leaves a byte of its storage free;
    numbers are in range, tags and enumerators declared, counts within the storage.
    Outside of that what is received cannot always be sent: see [bit_array_limit] and
    [unique_id_ambiguous]. *)
Theorem message_roundtrip (CO : ConfigOps) (MO : MsgOps) (CL : ConfigLaws CO) (EL : EnumLaws CO) (ML : MsgLaws CO MO)
  (ty : MsgType) (impl : MsgVal -> Z -> Z * list Z) (dimpl : list Z -> Z * MsgVal) (size : Z) (x garbage : MsgVal) (bytes : list Z) :
  type_ok ty = true -> fits Sendable ty x = true -> fits Storage ty garbage = true ->
  (forall y z, meaning ty y = meaning ty z -> impl y size = impl z size) ->
  impl x size = (0, bytes) ->
  (exists y, dimpl bytes = (0, y) /\ fits Value ty y = true /\ meaning ty y = meaning ty x) ->
  exists v, to_variant ty x [] = Ok v /\ do_serialize ty impl garbage v size = Ok bytes /\ do_deserialize ty dimpl bytes = Ok v.
Proof.
  intros Hok Hx Hg Himpl Hb (y & Hd & Hy & My). destruct (returns_all ty Hok x [] Hx) as (v & Ev & Hv).
  destruct (Hv "" garbage [] Hg) as (z & Ez & Mz). exists v. split; [done|]. unfold do_serialize, do_deserialize. rewrite Ez, Hd. cbn.
  rewrite (Himpl z x Mz), Hb. split; [done|]. rewrite <- Ev. apply to_variant_meaning; [done|by apply fits_value|done].
Qed.
Lemma message_roundtrip_witness :
  do_serialize (CO := tiny_config) (MO := tiny_msgs) sample_msg sample_serialize sample_garbage
    (VMap [("command", num_variant NUShort 258); ("flags", VList [VUInt 0; VUInt 2]); ("parameter", VString "hi")]) 16 = Ok [2; 1; 2; 104; 105; 5].
Proof.
  destruct (message_roundtrip tiny_config tiny_msgs tiny_config_laws tiny_enum_laws tiny_msg_laws sample_msg sample_serialize sample_deserialize 16
    sample_value sample_garbage [2; 1; 2; 104; 105; 5]) as (v & Ev & Es & _);
    [reflexivity|reflexivity|reflexivity|intros y z E; unfold sample_serialize; by rewrite E|reflexivity| |].
  - eexists. split; [reflexivity|]. split; reflexivity.
  - vm_compute in Ev. injection Ev as <-. exact Es.
Defined.

(** C21: reading a variant into a message is safe and blind: whatever the variant,
    the value that results stays within the storage of its type - counts within
    capacities, declared enumerators, an existing tag - and neither the value nor
    the error depends on what the storage held before. *)
Theorem from_variant_safe (CO : ConfigOps) (MO : MsgOps) (CL : ConfigLaws CO) (EL : EnumLaws CO) (ML : MsgLaws CO MO)
  (ty : MsgType) (owner : string) (v : QVar) (garbage garbage' : MsgVal) (frame : list FrameKey) :
  type_ok ty = true -> fits Storage ty garbage = true -> fits Storage ty garbage' = true ->
  (forall x, from_variant ty owner v garbage frame = Ok x -> fits Value ty x = true) /\
  alike (fun x y => meaning ty x = meaning ty y) (from_variant ty owner v garbage frame) (from_variant ty owner v garbage' frame).
Proof.
  intros Hok Hg Hg'. split; [|by apply from_variant_indifferent].
  intros x. by apply from_variant_value.
Qed.
Lemma from_variant_safe_witness :
  fits (CO := tiny_config) (MO := tiny_msgs) Value sample_msg (MStruct [MNum 258; MChars [104; 105; 0; 4; 5; 6; 7; 8] 2; MBytes [5]]) = true.
Proof.
  destruct (from_variant_safe tiny_config tiny_msgs tiny_config_laws tiny_enum_laws tiny_msg_laws sample_msg ""
    (VMap [("command", num_variant NUShort 258); ("flags", VList [VUInt 0; VUInt 2]); ("parameter", VString "hi")])
    sample_garbage sample_garbage []) as [H _]; [reflexivity..|]. apply H. reflexivity.
Defined.

(** ** Where the conversions disagree *)
(** A received bit array that does not fit in as many bytes as it has bits cannot
    be sent back: the limit is counted in bytes. *)
Theorem bit_array_limit (CO : ConfigOps) (MO : MsgOps) (CL : ConfigLaws CO) size packed count owner frame g :
  length g = size -> Z.of_nat size < count ->
  exists m, bits_from_variant owner (bits_to_variant packed count) g frame = Raise m.
Proof.
  intros Hg Hc. unfold bits_from_variant, bits_to_variant. cbn [list_value]. rewrite toList_list, length_map, length_seqZ, Hg.
  destruct (Z.ltb_spec (Z.of_nat size) (Z.of_nat (Z.to_nat count))); [|lia]. eexists. reflexivity.
Qed.
(** Bytes below 16 lose a digit: two different identifiers have the same text. *)
Theorem unique_id_ambiguous (MO : MsgOps) :
  unique_id_to_variant (1 :: 35 :: replicate 14 0) = unique_id_to_variant (18 :: 3 :: replicate 14 0).
Proof. reflexivity. Qed.
(** The index one past the mask is accepted and ignored. *)
Theorem mask_index_past_end :
  set_mask (CO := tiny_config) (MO := tiny_msgs) "mask" (replicate 2 0) 0 [VUInt 16] [] = Ok (replicate 2 0).
Proof. reflexivity. Qed.
