(* ===== verification/CyphalTypes.v ===== *)
(** * Described Cyphal types: the table of [src/workers/can/cyphal_msgs.cpp]

    [CYPHAL_TYPE] describes a structure of the generated headers by the names of
    its members and the kind of each, and registers it; the tables of
    [CyphalGlobal] find a registered type, or the two halves of a service, by its
    name with or without a version.  The full names are macros of the generated
    headers: a parameter of which only the form of service names is used. *)
From S2P Require Import Prelude CyphalMsgs.
Set Warnings "-register-all".

Inductive FieldAttr := Plain | IsBitArray | IsUniqueID | IsBitmask | IsDynString | IsDynArray | IsEnum (enumerators : list string).
#[export] Instance FieldAttr_eq : EqDecision FieldAttr. Proof. solve_decision. Defined.
(** [union_tags]: the enumerators of a [TypeIsUnion]. *)
Record Described := { c_name : string; c_version : string; union_tags : option (list string); described_members : list (string * FieldAttr) }.
#[export] Instance Described_eq : EqDecision Described. Proof. solve_decision. Defined.
Definition CYPHAL_TYPE (name ver : string) (members : list (string * FieldAttr)) : Described :=
  {| c_name := name; c_version := ver; union_tags := None; described_members := members |}.
Definition CYPHAL_UNION (name ver : string) (tags : list string) (members : list (string * FieldAttr)) : Described :=
  {| c_name := name; c_version := ver; union_tags := Some tags; described_members := members |}.
Definition RAD_MEMBER (name : string) : string * FieldAttr := (name, Plain).

(** ** Enumerations *)
Definition NodeMode : list string := ["OPERATIONAL"; "INITIALIZATION"; "MAINTENANCE"; "SOFTWARE_UPDATE"].
Definition SubjectIDListTag : list string := ["mask_bitpacked"; "sparse_list"; "total"].
Definition PortIDTag : list string := ["subject_id"; "service_id"].
Definition NodeHealth : list string := ["NOMINAL"; "ADVISORY"; "CAUTION"; "WARNING"].
Definition TimeSystem : list string := ["MONOTONIC_SINCE_BOOT"; "TAI"; "APPLICATION_SPECIFIC"].
Definition RegisterValueTag : list string := ["empty"; "string"; "unstructured"; "bit"; "integer64"; "integer32"; "integer16"; "integer8"; "natural64"; "natural32"; "natural16"; "natural8"; "real64"; "real32"; "real16"].

(** ** The table, in registration order *)
Definition si_types : list Described := [
  CYPHAL_TYPE "uavcan_si_unit_angle_Quaternion" "1_0" [RAD_MEMBER "wxyz"];
  CYPHAL_TYPE "uavcan_si_unit_length_WideScalar" "1_0" [RAD_MEMBER "meter"];
  CYPHAL_TYPE "uavcan_si_unit_length_WideVector3" "1_0" [RAD_MEMBER "meter"];
  CYPHAL_TYPE "uavcan_si_unit_duration_WideScalar" "1_0" [RAD_MEMBER "second"];
  CYPHAL_TYPE "uavcan_si_unit_duration_Scalar" "1_0" [RAD_MEMBER "second"];
  CYPHAL_TYPE "uavcan_si_unit_acceleration_Vector3" "1_0" [RAD_MEMBER "meter_per_second_per_second"];
  CYPHAL_TYPE "uavcan_si_unit_acceleration_Scalar" "1_0" [RAD_MEMBER "meter_per_second_per_second"];
  CYPHAL_TYPE "uavcan_si_unit_force_Vector3" "1_0" [RAD_MEMBER "newton"];
  CYPHAL_TYPE "uavcan_si_unit_force_Scalar" "1_0" [RAD_MEMBER "newton"];
  CYPHAL_TYPE "uavcan_si_unit_angular_acceleration_Vector3" "1_0" [RAD_MEMBER "radian_per_second_per_second"];
  CYPHAL_TYPE "uavcan_si_unit_angular_acceleration_Scalar" "1_0" [RAD_MEMBER "radian_per_second_per_second"];
  CYPHAL_TYPE "uavcan_si_unit_magnetic_field_strength_Vector3" "1_0" [RAD_MEMBER "tesla"];
  CYPHAL_TYPE "uavcan_si_unit_magnetic_field_strength_Vector3" "1_1" [RAD_MEMBER "ampere_per_meter"];
  CYPHAL_TYPE "uavcan_si_unit_magnetic_field_strength_Scalar" "1_0" [RAD_MEMBER "tesla"];
  CYPHAL_TYPE "uavcan_si_unit_magnetic_field_strength_Scalar" "1_1" [RAD_MEMBER "ampere_per_meter"];
  CYPHAL_TYPE "uavcan_si_unit_electric_current_Scalar" "1_0" [RAD_MEMBER "ampere"];
  CYPHAL_TYPE "uavcan_si_unit_volume_Scalar" "1_0" [RAD_MEMBER "cubic_meter"];
  CYPHAL_TYPE "uavcan_si_unit_mass_Scalar" "1_0" [RAD_MEMBER "kilogram"];
  CYPHAL_TYPE "uavcan_si_unit_temperature_Scalar" "1_0" [RAD_MEMBER "kelvin"];
  CYPHAL_TYPE "uavcan_si_unit_pressure_Scalar" "1_0" [RAD_MEMBER "pascal"];
  CYPHAL_TYPE "uavcan_si_unit_frequency_Scalar" "1_0" [RAD_MEMBER "hertz"];
  CYPHAL_TYPE "uavcan_si_unit_energy_Scalar" "1_0" [RAD_MEMBER "joule"];
  CYPHAL_TYPE "uavcan_si_unit_angle_Scalar" "1_0" [RAD_MEMBER "radian"];
  CYPHAL_TYPE "uavcan_si_unit_torque_Vector3" "1_0" [RAD_MEMBER "newton_meter"];
  CYPHAL_TYPE "uavcan_si_unit_torque_Scalar" "1_0" [RAD_MEMBER "newton_meter"];
  CYPHAL_TYPE "uavcan_si_unit_electric_charge_Scalar" "1_0" [RAD_MEMBER "coulomb"];
  CYPHAL_TYPE "uavcan_si_unit_magnetic_flux_density_Vector3" "1_0" [RAD_MEMBER "tesla"];
  CYPHAL_TYPE "uavcan_si_unit_magnetic_flux_density_Scalar" "1_0" [RAD_MEMBER "tesla"];
  CYPHAL_TYPE "uavcan_si_unit_angular_velocity_Vector3" "1_0" [RAD_MEMBER "radian_per_second"];
  CYPHAL_TYPE "uavcan_si_unit_angular_velocity_Scalar" "1_0" [RAD_MEMBER "radian_per_second"];
  CYPHAL_TYPE "uavcan_si_unit_power_Scalar" "1_0" [RAD_MEMBER "watt"];
  CYPHAL_TYPE "uavcan_si_unit_length_Vector3" "1_0" [RAD_MEMBER "meter"];
  CYPHAL_TYPE "uavcan_si_unit_length_Scalar" "1_0" [RAD_MEMBER "meter"];
  CYPHAL_TYPE "uavcan_si_unit_volumetric_flow_rate_Scalar" "1_0" [RAD_MEMBER "cubic_meter_per_second"];
  CYPHAL_TYPE "uavcan_si_unit_voltage_Scalar" "1_0" [RAD_MEMBER "volt"];
  CYPHAL_TYPE "uavcan_si_unit_luminance_Scalar" "1_0" [RAD_MEMBER "candela_per_square_meter"];
  CYPHAL_TYPE "uavcan_si_unit_velocity_Vector3" "1_0" [RAD_MEMBER "meter_per_second"];
  CYPHAL_TYPE "uavcan_si_unit_velocity_Scalar" "1_0" [RAD_MEMBER "meter_per_second"]
].
Definition node_types : list Described := [
  CYPHAL_TYPE "uavcan_node_IOStatistics" "0_1" [RAD_MEMBER "num_emitted"; RAD_MEMBER "num_errored"; RAD_MEMBER
      "num_received"];
  CYPHAL_TYPE "uavcan_node_Mode" "1_0" [("value", IsEnum NodeMode)];
  CYPHAL_TYPE "uavcan_node_Heartbeat" "1_0" [RAD_MEMBER "health"; RAD_MEMBER "mode"; RAD_MEMBER "uptime"; RAD_MEMBER
      "vendor_specific_status_code"];
  CYPHAL_TYPE "uavcan_node_ExecuteCommand_Request" "1_0" [RAD_MEMBER "command"; ("parameter", IsDynString)];
  CYPHAL_TYPE "uavcan_node_ExecuteCommand_Response" "1_0" [RAD_MEMBER "status"];
  CYPHAL_TYPE "uavcan_node_GetInfo_Request" "1_0" [];
  CYPHAL_TYPE "uavcan_node_GetInfo_Response" "1_0" [RAD_MEMBER "protocol_version"; RAD_MEMBER "hardware_version";
      RAD_MEMBER "software_version"; RAD_MEMBER "software_vcs_revision_id"; ("unique_id", IsUniqueID); ("name",
      IsDynString); ("software_image_crc", IsDynArray); ("certificate_of_authenticity", IsDynString)];
  CYPHAL_TYPE "uavcan_node_GetTransportStatistics_Request" "0_1" [];
  CYPHAL_TYPE "uavcan_node_GetTransportStatistics_Response" "0_1" [RAD_MEMBER "transfer_statistics";
      ("network_interface_statistics", IsDynArray)];
  CYPHAL_TYPE "uavcan_node_ExecuteCommand_Request" "1_1" [RAD_MEMBER "command"; ("parameter", IsDynString)];
  CYPHAL_TYPE "uavcan_node_ExecuteCommand_Response" "1_1" [RAD_MEMBER "status"];
  CYPHAL_TYPE "uavcan_node_ExecuteCommand_Request" "1_2" [RAD_MEMBER "command"; ("parameter", IsDynString)];
  CYPHAL_TYPE "uavcan_node_ExecuteCommand_Response" "1_2" [RAD_MEMBER "status"]
].
Definition port_types : list Described := [
  CYPHAL_TYPE "uavcan_node_ID" "1_0" [RAD_MEMBER "value"];
  CYPHAL_TYPE "uavcan_node_port_ServiceIDList" "1_0" [("mask_bitpacked", IsBitmask)];
  CYPHAL_UNION "uavcan_node_port_SubjectIDList" "1_0" SubjectIDListTag     [("mask_bitpacked", IsBitmask);
      ("sparse_list", IsDynArray); RAD_MEMBER "total"];
  CYPHAL_UNION "uavcan_node_port_ID" "1_0" PortIDTag     [RAD_MEMBER "subject_id"; RAD_MEMBER "service_id"];
  CYPHAL_TYPE "uavcan_node_port_ServiceID" "1_0" [RAD_MEMBER "value"];
  CYPHAL_TYPE "uavcan_node_port_SubjectID" "1_0" [RAD_MEMBER "value"];
  CYPHAL_TYPE "uavcan_node_port_List" "1_0" [RAD_MEMBER "clients"; RAD_MEMBER "publishers"; RAD_MEMBER "servers";
      RAD_MEMBER "subscribers"];
  CYPHAL_TYPE "uavcan_node_Version" "1_0" [RAD_MEMBER "major"; RAD_MEMBER "minor"];
  CYPHAL_TYPE "uavcan_node_Health" "1_0" [("value", IsEnum NodeHealth)]
].
Definition time_types : list Described := [
  CYPHAL_TYPE "uavcan_time_Synchronization" "1_0" [RAD_MEMBER "previous_transmission_timestamp_microsecond"];
  CYPHAL_TYPE "uavcan_time_GetSynchronizationMasterInfo_Request" "0_1" [];
  CYPHAL_TYPE "uavcan_time_GetSynchronizationMasterInfo_Response" "0_1" [RAD_MEMBER "tai_info"; RAD_MEMBER
      "time_system"; RAD_MEMBER "error_variance"];
  CYPHAL_TYPE "uavcan_time_TAIInfo" "0_1" [RAD_MEMBER "difference_tai_minus_utc"];
  CYPHAL_TYPE "uavcan_time_SynchronizedTimestamp" "1_0" [RAD_MEMBER "microsecond"];
  CYPHAL_TYPE "uavcan_time_TimeSystem" "0_1" [("value", IsEnum TimeSystem)]
].
Definition primitive_types : list Described := [
  CYPHAL_TYPE "uavcan_primitive_scalar_Real64" "1_0" [RAD_MEMBER "value"];
  CYPHAL_TYPE "uavcan_primitive_scalar_Natural64" "1_0" [RAD_MEMBER "value"];
  CYPHAL_TYPE "uavcan_primitive_scalar_Integer8" "1_0" [RAD_MEMBER "value"];
  CYPHAL_TYPE "uavcan_primitive_scalar_Integer32" "1_0" [RAD_MEMBER "value"];
  CYPHAL_TYPE "uavcan_primitive_scalar_Bit" "1_0" [RAD_MEMBER "value"];
  CYPHAL_TYPE "uavcan_primitive_scalar_Integer16" "1_0" [RAD_MEMBER "value"];
  CYPHAL_TYPE "uavcan_primitive_scalar_Integer64" "1_0" [RAD_MEMBER "value"];
  CYPHAL_TYPE "uavcan_primitive_scalar_Real16" "1_0" [RAD_MEMBER "value"];
  CYPHAL_TYPE "uavcan_primitive_scalar_Natural8" "1_0" [RAD_MEMBER "value"];
  CYPHAL_TYPE "uavcan_primitive_scalar_Natural32" "1_0" [RAD_MEMBER "value"];
  CYPHAL_TYPE "uavcan_primitive_scalar_Real32" "1_0" [RAD_MEMBER "value"];
  CYPHAL_TYPE "uavcan_primitive_scalar_Natural16" "1_0" [RAD_MEMBER "value"];
  CYPHAL_TYPE "uavcan_primitive_Empty" "1_0" [];
  CYPHAL_TYPE "uavcan_primitive_array_Real64" "1_0" [("value", IsDynArray)];
  CYPHAL_TYPE "uavcan_primitive_array_Natural64" "1_0" [("value", IsDynArray)];
  CYPHAL_TYPE "uavcan_primitive_array_Integer8" "1_0" [("value", IsDynArray)];
  CYPHAL_TYPE "uavcan_primitive_array_Integer32" "1_0" [("value", IsDynArray)];
  CYPHAL_TYPE "uavcan_primitive_array_Bit" "1_0" [("value", IsBitArray)];
  CYPHAL_TYPE "uavcan_primitive_array_Integer16" "1_0" [("value", IsDynArray)];
  CYPHAL_TYPE "uavcan_primitive_array_Integer64" "1_0" [("value", IsDynArray)];
  CYPHAL_TYPE "uavcan_primitive_array_Real16" "1_0" [("value", IsDynArray)];
  CYPHAL_TYPE "uavcan_primitive_array_Natural8" "1_0" [("value", IsDynArray)];
  CYPHAL_TYPE "uavcan_primitive_array_Natural32" "1_0" [("value", IsDynArray)];
  CYPHAL_TYPE "uavcan_primitive_array_Real32" "1_0" [("value", IsDynArray)];
  CYPHAL_TYPE "uavcan_primitive_array_Natural16" "1_0" [("value", IsDynArray)];
  CYPHAL_TYPE "uavcan_primitive_String" "1_0" [("value", IsDynString)];
  CYPHAL_TYPE "uavcan_primitive_Unstructured" "1_0" [("value", IsDynArray)]
].
Definition register_types : list Described := [
  CYPHAL_UNION "uavcan_register_Value" "1_0" RegisterValueTag     [RAD_MEMBER "empty"; RAD_MEMBER "string"; RAD_MEMBER
      "unstructured"; RAD_MEMBER "bit"; RAD_MEMBER "integer64"; RAD_MEMBER "integer32"; RAD_MEMBER "integer16";
      RAD_MEMBER "integer8"; RAD_MEMBER "natural64"; RAD_MEMBER "natural32"; RAD_MEMBER "natural16"; RAD_MEMBER
      "natural8"; RAD_MEMBER "real64"; RAD_MEMBER "real32"; RAD_MEMBER "real16"];
  CYPHAL_TYPE "uavcan_register_Access_Request" "1_0" [RAD_MEMBER "name"; RAD_MEMBER "value"];
  CYPHAL_TYPE "uavcan_register_Access_Response" "1_0" [];
  CYPHAL_TYPE "uavcan_register_Name" "1_0" [("name", IsDynString)];
  CYPHAL_TYPE "uavcan_register_List_Request" "1_0" [RAD_MEMBER "index"];
  CYPHAL_TYPE "uavcan_register_List_Response" "1_0" [RAD_MEMBER "name"]
].
Definition described_types : list Described :=
  si_types ++ node_types ++ port_types ++ time_types ++ primitive_types ++ register_types.

(** ** [CyphalGlobal] *)
Definition endsWith (suffix s : string) : bool :=
  let n := String.length suffix in
  ((n <=? String.length s)%nat && bool_decide (substring (String.length s - n) n s = suffix))%bool.
Definition chopped (n : nat) (s : string) : string := substring 0 (String.length s - n) s.
(** [QString::replace] by nothing. *)
Fixpoint str_remove (fuel : nat) (what s : string) : string :=
  match fuel, s with
  | S fuel, String c s' =>
      if String.prefix what s then str_remove fuel what (substring (String.length what) (String.length s - String.length what) s)
      else String c (str_remove fuel what s')
  | _, _ => ""
  end.
Definition replace_all (what s : string) : string := str_remove (String.length s) what s.

Record CanardMessageDynamic := { name : string; name_and_ver : string; dtype : Described }.
#[export] Instance CanardMessageDynamic_eq : EqDecision CanardMessageDynamic. Proof. solve_decision. Defined.
Notation Halves := (option CanardMessageDynamic * option CanardMessageDynamic)%type.
Record CyphalGlobal := {
  by_name : list (string * CanardMessageDynamic);
  by_name_and_ver : list (string * CanardMessageDynamic);
  srv_by_name : list (string * Halves);
  srv_by_name_and_ver : list (string * Halves)
}.
Definition req : string := ".Request".
Definition resp : string := ".Response".
(** [map[key].first = dyn], [map[key].second = dyn]. *)
Definition set_first (key : string) (dyn : CanardMessageDynamic) (m : list (string * Halves)) : list (string * Halves) :=
  qm_insert key (Some dyn, (qm_get (None, None) key m).2) m.
Definition set_second (key : string) (dyn : CanardMessageDynamic) (m : list (string * Halves)) : list (string * Halves) :=
  qm_insert key ((qm_get (None, None) key m).1, Some dyn) m.
(** The body of the constructor's loop. *)
Definition add_dyn (g : CyphalGlobal) (dyn : CanardMessageDynamic) : CyphalGlobal :=
  let g := if endsWith req (name dyn) then
    {| by_name := by_name g; by_name_and_ver := by_name_and_ver g;
       srv_by_name := set_first (chopped (String.length req) (name dyn)) dyn (srv_by_name g);
       srv_by_name_and_ver := set_first (replace_all req (name_and_ver dyn)) dyn (srv_by_name_and_ver g) |} else g in
  let g := if endsWith resp (name dyn) then
    {| by_name := by_name g; by_name_and_ver := by_name_and_ver g;
       srv_by_name := set_second (chopped (String.length resp) (name dyn)) dyn (srv_by_name g);
       srv_by_name_and_ver := set_second (replace_all resp (name_and_ver dyn)) dyn (srv_by_name_and_ver g) |} else g in
  {| by_name := qm_insert (name dyn) dyn (by_name g);
     by_name_and_ver := qm_insert (name_and_ver dyn) dyn (by_name_and_ver g);
     srv_by_name := srv_by_name g; srv_by_name_and_ver := srv_by_name_and_ver g |}.
Definition global_of (all_types : list CanardMessageDynamic) : CyphalGlobal :=
  fold_left add_dyn all_types {| by_name := []; by_name_and_ver := []; srv_by_name := []; srv_by_name_and_ver := [] |}.
Definition lookup_canard_type (state : CyphalGlobal) (nm : string) : option CanardMessageDynamic :=
  match qm_find nm (by_name state) with
  | Some res => Some res
  | None => qm_find nm (by_name_and_ver state)
  end.
(** The assertion of the source is [second_found]. *)
Definition lookup_service_types (state : CyphalGlobal) (nm : string) : Halves :=
  let res := qm_get (None, None) nm (srv_by_name state) in
  match res.1 with
  | Some _ => res
  | None => qm_get (None, None) nm (srv_by_name_and_ver state)
  end.
Definition second_found (h : Halves) : bool := match h with (Some _, None) => false | _ => true end.

(** ** Names of the generated headers

    A described C type is a message, or one half of a service; [full] is the
    dotted name of the message or the service ([FULL_NAME_]). *)
Inductive Unit_ := Message (d : Described) | Service (r s : Described).
Definition half_of (suffix s : string) : option string :=
  if endsWith suffix s then Some (chopped (String.length suffix) s) else None.
(** The table cut into messages and services: the two halves of a service are
    described one after the other, at the same version. *)
Fixpoint units (l : list Described) : option (list Unit_) :=
  match l with
  | [] => Some []
  | d :: l =>
      match half_of "_Request" (c_name d) with
      | None => if endsWith "_Response" (c_name d) then None else cons (Message d) <$> units l
      | Some b =>
          match l with
          | s :: l =>
              if bool_decide (half_of "_Response" (c_name s) = Some b /\ c_version s = c_version d)
              then cons (Service d s) <$> units l else None
          | [] => None
          end
      end
  end.
Definition dotted_version (v : string) : string :=
  string_of_bytes (map (fun c => if c =? 95 then 46 else c) (bytes_of_string v)).
Definition base_of (d : Described) : string :=
  default (default (c_name d) (half_of "_Response" (c_name d))) (half_of "_Request" (c_name d)).
Section names.
Variable full : string -> string.
Definition dyn_name (d : Described) : string :=
  match half_of "_Request" (c_name d), half_of "_Response" (c_name d) with
  | Some b, _ => full b +:+ req
  | None, Some b => full b +:+ resp
  | None, None => full (c_name d)
  end.
Definition dyn_of (d : Described) : CanardMessageDynamic :=
  {| name := dyn_name d; name_and_ver := (dyn_name d +:+ ".") +:+ dotted_version (c_version d); dtype := d |}.
Definition service_name (d : Described) : string := full (base_of d).
Definition service_name_ver (d : Described) : string := (full (base_of d) +:+ ".") +:+ dotted_version (c_version d).
(** What is relied on of the names: a message's does not look like half a
    service's, a service's does not contain the suffix of its halves. *)
Definition unit_named (u : Unit_) : bool :=
  match u with
  | Message d => (negb (endsWith req (dyn_name d)) && negb (endsWith resp (dyn_name d)))%bool
  | Service d s =>
      bool_decide (endsWith req (dyn_name d) = true /\ endsWith resp (dyn_name d) = false /\
        endsWith req (dyn_name s) = false /\ endsWith resp (dyn_name s) = true /\
        chopped (String.length req) (dyn_name d) = service_name d /\ chopped (String.length resp) (dyn_name s) = service_name d /\
        replace_all req (name_and_ver (dyn_of d)) = service_name_ver d /\
        replace_all resp (name_and_ver (dyn_of s)) = service_name_ver d)
  end.
Definition services (us : list Unit_) : list (Described * Described) :=
  omap (fun u => match u with Service d s => Some (d, s) | _ => None end) us.
Definition types_of (us : list Unit_) : list Described :=
  us ≫= (fun u => match u with Message d => [d] | Service d s => [d; s] end).
Definition names_ok (us : list Unit_) : bool :=
  (forallb unit_named us &&
   bool_decide (NoDup (map (fun d => name_and_ver (dyn_of d)) (types_of us))) &&
   forallb (fun d => negb (existsb (fun e => bool_decide (dyn_name e = name_and_ver (dyn_of d))) (types_of us))) (types_of us) &&
   bool_decide (NoDup (map (fun p => service_name_ver p.1) (services us))) &&
   forallb (fun p => negb (existsb (fun q => bool_decide (service_name q.1 = service_name_ver p.1)) (services us))) (services us))%bool.
End names.

(** ** Lookups *)
(** The last element with a key. *)
Fixpoint find_last {A} (key : A -> string) (nm : string) (l : list A) : option A :=
  match l with
  | [] => None
  | x :: l => match find_last key nm l with
              | Some y => Some y
              | None => if bool_decide (key x = nm) then Some x else None
              end
  end.
Lemma find_last_nodup {A} (key : A -> string) l x : NoDup (map key l) -> x ∈ l -> find_last key (key x) l = Some x.
Proof.
  induction l as [|y l IH]; [by intros _ ?%elem_of_nil|]. cbn. intros [Hy Hnd]%NoDup_cons [->|Hin]%elem_of_cons.
  - destruct (find_last key (key y) l) as [z|] eqn:E; [|by rewrite bool_decide_eq_true_2]. exfalso. apply Hy.
    clear -E. induction l as [|w l IH]; [done|]. cbn in *. destruct (find_last key (key y) l); [right; auto|].
    case_bool_decide as H; [|done]. rewrite <- H. left.
  - by rewrite IH.
Qed.
Lemma find_last_none {A} (key : A -> string) nm l : existsb (fun e => bool_decide (key e = nm)) l = false -> find_last key nm l = None.
Proof. induction l as [|y l IH]; [done|]. cbn. rewrite orb_false_iff. intros [Hy Hl]. by rewrite IH, Hy. Qed.
Lemma units_types l : forall us, units l = Some us -> types_of us = l.
Proof.
  assert (forall n l us, (length l <= n)%nat -> units l = Some us -> types_of us = l) as H; [|by intros us; apply (H (length l))].
  clear l. induction n as [|n IH]; intros [|d l] us Hn; cbn [units]; try (by intros [= <-]); [cbn in Hn; lia|].
  destruct (half_of "_Request" (c_name d)).
  - destruct l as [|d' l]; [done|]. case_bool_decide; [|done]. destruct (units l) as [us'|] eqn:E; [|done]. intros [= <-].
    change (types_of (Service d d' :: us')) with (d :: d' :: types_of us'). by rewrite (IH l us') by (done || (cbn in Hn; lia)).
  - case_match; [done|]. destruct (units l) as [us'|] eqn:E; [|done]. intros [= <-].
    change (types_of (Message d :: us')) with (d :: types_of us'). by rewrite (IH l us') by (done || (cbn in Hn; lia)).
Qed.

Section lookups.
Variable full : string -> string.
Notation dyn := (dyn_of full).
Lemma by_name_found l nm : forall g, qm_find nm (by_name (fold_left add_dyn (map dyn l) g)) =
  match find_last (dyn_name full) nm l with Some d => Some (dyn d) | None => qm_find nm (by_name g) end.
Proof.
  induction l as [|d l IH]; intros g; [done|]. cbn [map fold_left find_last]. rewrite IH. destruct (find_last _ nm l); [done|].
  replace (by_name (add_dyn g (dyn d))) with (qm_insert (dyn_name full d) (dyn d) (by_name g)) by (unfold add_dyn; by repeat case_match).
  case_bool_decide as H; [rewrite <- H; apply qm_find_insert_eq|by apply qm_find_insert_ne].
Qed.
Lemma by_ver_found l nm : forall g, qm_find nm (by_name_and_ver (fold_left add_dyn (map dyn l) g)) =
  match find_last (fun d => name_and_ver (dyn d)) nm l with Some d => Some (dyn d) | None => qm_find nm (by_name_and_ver g) end.
Proof.
  induction l as [|d l IH]; intros g; [done|]. cbn [map fold_left find_last]. rewrite IH. destruct (find_last _ nm l); [done|].
  replace (by_name_and_ver (add_dyn g (dyn d))) with (qm_insert (name_and_ver (dyn d)) (dyn d) (by_name_and_ver g))
    by (unfold add_dyn; by repeat case_match).
  case_bool_decide as H; [rewrite <- H; apply qm_find_insert_eq|by apply qm_find_insert_ne].
Qed.
Definition halves (p : Described * Described) : Halves := (Some (dyn p.1), Some (dyn p.2)).
Lemma set_both key d s m nm : qm_find nm (set_second key s (set_first key d m)) =
  if bool_decide (key = nm) then Some (Some d, Some s) else qm_find nm m.
Proof.
  unfold set_second, set_first. unfold qm_get at 1. rewrite qm_find_insert_eq. cbn.
  case_bool_decide as H; [rewrite <- H; apply qm_find_insert_eq|]. by rewrite !qm_find_insert_ne.
Qed.
Lemma srv_found us nm : forallb (unit_named full) us = true -> forall g,
  let g' := fold_left add_dyn (map dyn (types_of us)) g in
  qm_find nm (srv_by_name g') =
    match find_last (fun p => service_name full p.1) nm (services us) with Some p => Some (halves p) | None => qm_find nm (srv_by_name g) end /\
  qm_find nm (srv_by_name_and_ver g') =
    match find_last (fun p => service_name_ver full p.1) nm (services us) with Some p => Some (halves p) | None => qm_find nm (srv_by_name_and_ver g) end.
Proof.
  induction us as [|u us IH]; [done|]. cbn [forallb]. intros [Hu Hus]%andb_true_iff g. specialize (IH Hus).
  destruct u as [d|d s]; cbn [types_of] in *.
  - cbn [unit_named] in Hu. apply andb_true_iff in Hu as [H1 H2]. rewrite negb_true_iff in H1, H2.
    change (types_of (Message d :: us)) with (d :: types_of us). cbn [map fold_left].
    destruct (IH (add_dyn g (dyn d))) as [-> ->]. unfold add_dyn. cbn [name dyn_of]. by rewrite H1, H2.
  - cbn [unit_named] in Hu. apply bool_decide_eq_true in Hu as (H1 & H2 & H3 & H4 & H5 & H6 & H7 & H8).
    change (types_of (Service d s :: us)) with (d :: s :: types_of us). cbn [map fold_left].
    change (services (Service d s :: us)) with ((d, s) :: services us). cbn [find_last fst].
    destruct (IH (add_dyn (add_dyn g (dyn d)) (dyn s))) as [-> ->]. unfold add_dyn. cbn [name dyn_of] in *.
    rewrite H1, H2, H3, H4. cbn [srv_by_name srv_by_name_and_ver]. cbn [name_and_ver] in *. rewrite H5, H6, H7, H8, !set_both.
    split; [destruct (find_last (fun p => service_name full p.1) nm (services us))|
      destruct (find_last (fun p => service_name_ver full p.1) nm (services us))]; try done; by case_bool_decide.
Qed.
End lookups.

(** * Properties *)

(** For every naming of the generated headers in the form the source relies on,
    every described type is found by its name and version, every service by its
    name and version with both of its own halves, and whatever name is looked up
    the assertion that a request comes with its response holds. *)
Theorem lookups_complete (full : string -> string) us :
  units described_types = Some us -> names_ok full us = true ->
  let g := global_of (map (dyn_of full) described_types) in
  (forall d, d ∈ described_types -> lookup_canard_type g (name_and_ver (dyn_of full d)) = Some (dyn_of full d)) /\
  (forall d s, (d, s) ∈ services us ->
     lookup_service_types g (service_name_ver full d) = (Some (dyn_of full d), Some (dyn_of full s))) /\
  (forall nm, second_found (lookup_service_types g nm) = true).
Proof.
  intros Hus Hok g. pose proof (units_types _ _ Hus) as Ht. unfold names_ok in Hok.
  rewrite !andb_true_iff, !bool_decide_eq_true in Hok. destruct Hok as [[[[Hu Hnd] Hfree] Hsnd] Hsfree].
  pose proof (fun nm => by_name_found full described_types nm) as Hn. pose proof (fun nm => by_ver_found full described_types nm) as Hv.
  pose proof (fun nm => srv_found full us nm Hu) as Hs. rewrite Ht in *. unfold g, global_of. split; [|split].
  - intros d Hd. unfold lookup_canard_type. rewrite Hn, Hv. rewrite forallb_forall in Hfree.
    rewrite list_elem_of_In in Hd. specialize (Hfree d Hd). rewrite negb_true_iff in Hfree. rewrite <- list_elem_of_In in Hd.
    rewrite (find_last_none (dyn_name full)) by done. cbn [qm_find by_name].
    by rewrite (find_last_nodup (fun d => name_and_ver (dyn_of full d)) described_types d Hnd Hd).
  - intros d s Hd. unfold lookup_service_types, qm_get. rewrite (proj1 (Hs _ _)), (proj2 (Hs _ _)).
    rewrite forallb_forall in Hsfree. pose proof Hd as Hd'. rewrite list_elem_of_In in Hd'. specialize (Hsfree _ Hd').
    rewrite negb_true_iff in Hsfree. rewrite (find_last_none (fun p => service_name full p.1)) by done. cbn [qm_find srv_by_name default from_option fst].
    pose proof (find_last_nodup (fun p => service_name_ver full p.1) _ (d, s) Hsnd Hd) as Hf. cbn [fst] in Hf. by rewrite Hf.
  - intros nm. unfold lookup_service_types, qm_get. rewrite (proj1 (Hs _ _)), (proj2 (Hs _ _)).
    destruct (find_last (fun p => service_name full p.1) nm (services us)); [done|]. cbn.
    by destruct (find_last (fun p => service_name_ver full p.1) nm (services us)).
Qed.
Lemma lookups_complete_witness :
  let g := global_of (map (dyn_of dotted_version) described_types) in
  Forall (fun d => lookup_canard_type g (name_and_ver (dyn_of dotted_version d)) = Some (dyn_of dotted_version d)) described_types /\
  second_found (lookup_service_types g "uavcan_register_Access") = true.
Proof.
  destruct (lookups_complete dotted_version (default [] (units described_types))) as (H & _ & H'); [reflexivity|vm_compute; reflexivity|].
  split; [apply Forall_forall; exact H|apply H'].
Defined.
