(* ===== verification/Can.v ===== *)
(** * CAN worker: [src/workers/can/canframe.hpp], [canworker.cpp]

    A message of the worker is a frame: [OnMsg] reads it as a [CanFrame], checks
    it and writes it to the device; the frames the device receives become messages
    of the same form.  [QCanBusFrame] and the device belong to Qt: a frame is what
    its accessors return ([FrameView]), each setter is an operation of [CanOps]
    with the documented law, and the device's answers and signals are arguments of
    the handlers. *)
From S2P Require Import Prelude QVariant Utils Config Worker.
Set Warnings "-register-all".

(** ** Descriptions: [canframe.hpp] *)
(** [QCanBusFrame::FrameType]. *)
Definition UnknownFrame : Z := 0.
Definition DataFrame : Z := 1.
Definition ErrorFrame : Z := 2.
Definition RemoteRequestFrame : Z := 3.
Definition InvalidFrame : Z := 4.
Definition CanFrameType : CType := CEnum "CanFrameType" [("data", DataFrame); ("request", RemoteRequestFrame); ("error", ErrorFrame)].
Definition rx_types : list (string * Z) := [
  ("data", DataFrame); ("request", RemoteRequestFrame); ("error", ErrorFrame); ("unknown", UnknownFrame); ("invalid", InvalidFrame)].
Definition CanRxFrameType : CType := CEnum "CanRxFrameType" rx_types.
Definition CanFrame : CType := CStruct "CanFrame" [
  ("frame_id", CAny);
  ("payload", CAny);
  ("extended_id", CDefault CBool (XBool false));
  ("can_fd", CDefault CBool (XBool false));
  ("bitrate_switch", CDefault CBool (XBool false));
  ("frame_type", CDefault CanRxFrameType (XEnum DataFrame))].

(** ** Frames and the device: Qt *)
Record FrameView := { extended : bool; flexible : bool; switched : bool; type : Z; id : Z; payload : list Z }.
Class CanOps := {
  QCanBusFrame : Type;
  new_frame : QCanBusFrame;
  view : QCanBusFrame -> FrameView;              (* the accessors *)
  setExtendedFrameFormat : bool -> QCanBusFrame -> QCanBusFrame;
  setFlexibleDataRateFormat : bool -> QCanBusFrame -> QCanBusFrame;
  setBitrateSwitch : bool -> QCanBusFrame -> QCanBusFrame;
  setFrameId : Z -> QCanBusFrame -> QCanBusFrame;
  setFrameType : Z -> QCanBusFrame -> QCanBusFrame;
  setPayload : list Z -> QCanBusFrame -> QCanBusFrame;
  hexToUInt : string -> option Z                 (* QString::toUInt(&ok, 16) *)
}.

(** ** State *)
Inductive CanAct {F : Type} :=
| WriteFrame (f : F)
| Emit (e : Emission)
| GotFrame (f : F).                              (* the signal the Cyphal worker listens to *)
Arguments CanAct _ : clear implicits.
(** What the device signals; [toWrite] is what [framesToWrite()] answers then. *)
Inductive DevEvent {F : Type} :=
| framesWritten (count toWrite : Z)
| errorOccurred (name text : string) (toWrite : Z)
| stateChanged (name : string) (unconnected : bool) (toWrite : Z)
| framesReceived (frames : list F).
Arguments DevEvent _ : clear implicits.
(** How the device answers [writeFrame], with what it signals meanwhile. *)
Record WriteAnswer {F : Type} := { accepted : bool; meanwhile : list (DevEvent F); errorString : string; toWrite_after : Z }.
Arguments WriteAnswer _ : clear implicits.

Section can.
Context {CO : ConfigOps} {XO : CanOps}.
Notation toUInt := (toUInt (QVariantOps := variant)).
Notation toStr := (toStr (QVariantOps := variant)).
Notation State := (Z * list (CanAct QCanBusFrame))%type.
Definition act (a : CanAct QCanBusFrame) (st : State) : State := (st.1, st.2 ++ [a]).

(** ** Payloads *)
Definition payloadByte (value : QVar) : res Z :=
  match toUInt value with
  | Some num => if 255 <? num then Raise (("CAN payload byte must be an integer in 0-255, got '" +:+ toStr value) +:+ "'") else Ok num
  | None => Raise (("CAN payload byte must be an integer in 0-255, got '" +:+ toStr value) +:+ "'")
  end.
Definition payload_error (got : string) : string :=
  "CAN payload must be a string, bytes, a byte value (0-255) or an array of byte values, got " +:+ got.
Definition payloadBytes (value : QVar) : res (list Z) :=
  match value with
  | VInvalid => Ok []
  | VMap [] => Ok []
  | VMap m => Raise (payload_error (("a map with keys [" +:+ join_names m.*1) +:+ "]"))
  | VBytes b => Ok b
  | VString s => Ok (bytes_of_string s)
  | VList l => res_map payloadByte l
  | VInt _ | VUInt _ | VLongLong _ | VULongLong _ | VDouble _ => let* b := payloadByte value in Ok [b]
  | _ => Raise (payload_error (TypeNameOf value))
  end.

(** ** Events of the device *)
Definition emitFlushedIfDrained (force : bool) (toWrite : Z) (st : State) : State :=
  if ((st.1 =? 0) || (negb force && negb (toWrite =? 0)))%bool then st
  else act (Emit (SendEventField "flushed" (VBool true))) (0, st.2).
Definition on_errorOccurred (name text : string) (toWrite : Z) (st : State) : State :=
  let st := act (Emit (LogLine error ((("Error: " +:+ name) +:+ " -> ") +:+ text))) st in
  let st := act (Emit (SendEventField "error" (VString text))) st in
  emitFlushedIfDrained false toWrite st.
Definition frame_message (f : FrameView) : res QVar :=
  let msg := qm_insert "extended_id" (VBool (extended f)) [] in
  let msg := qm_insert "can_fd" (VBool (flexible f)) msg in
  let msg := qm_insert "bitrate_switch" (VBool (switched f)) msg in
  let* frame_type := Dump CanRxFrameType (XEnum (type f)) VInvalid in
  let msg := qm_insert "frame_type" frame_type msg in
  let msg := qm_insert "frame_id" (VUInt (id f)) msg in
  Ok (VMap (qm_insert "payload" (VBytes (payload f)) msg)).
(** The loop of [on_framesReceived]: an exception leaves the frames that follow
    to the next signal. *)
Fixpoint on_framesReceived (frames : list QCanBusFrame) (st : State) : State * res unit :=
  match frames with
  | [] => (st, Ok tt)
  | f :: frames =>
      let st := act (GotFrame f) st in
      match frame_message (view f) with
      | Ok msg => on_framesReceived frames (act (Emit (SendMsg msg)) st)
      | Raise m => (st, Raise m)
      end
  end.
Definition on_framesWritten (count toWrite : Z) (st : State) : State :=
  emitFlushedIfDrained false toWrite (act (Emit (SendEventField "written" (VLongLong count))) st).
Definition on_stateChanged (name : string) (unconnected : bool) (toWrite : Z) (st : State) : State :=
  let st := act (Emit (LogLine info ("State changed: " +:+ name))) st in
  let st := act (Emit (SendEventField "state" (VString name))) st in
  if unconnected then emitFlushedIfDrained true toWrite st else st.
Definition on_event (e : DevEvent QCanBusFrame) (st : State) : State :=
  match e with
  | framesWritten count toWrite => on_framesWritten count toWrite st
  | errorOccurred name text toWrite => on_errorOccurred name text toWrite st
  | stateChanged name unconnected toWrite => on_stateChanged name unconnected toWrite st
  | framesReceived frames => (on_framesReceived frames st).1
  end.

(** ** [OnMsg] *)
Definition read_frame_id (v : QVar) : res Z :=
  match (match v with VString s => hexToUInt s | _ => toUInt v end) with
  | Some id => Ok id
  | None => Raise "frame_id should be a string (hex base16) or number"
  end.
(** The frame of a parsed message, or the first error. *)
Definition frame_of (fd_open : bool) (msg : CVal) : res QCanBusFrame :=
  match msg with
  | XStruct [XAny frame_id; XAny payload; XBool extended_id; XBool can_fd; XBool bitrate_switch; XEnum frame_type] =>
      if (bitrate_switch && negb can_fd)%bool then Raise "CAN bitrate_switch requires can_fd on the same frame"
      else if (can_fd && negb fd_open)%bool then Raise "CAN FD frames require the worker to be opened with can_fd = true"
      else
        let frame := setExtendedFrameFormat extended_id new_frame in
        let frame := setFlexibleDataRateFormat can_fd frame in
        let frame := setBitrateSwitch bitrate_switch frame in
        let* id := read_frame_id frame_id in
        let frame := setFrameId id frame in
        if (negb (frame_type =? DataFrame) && negb (frame_type =? RemoteRequestFrame))%bool then
          let* name := Dump CanRxFrameType (XEnum frame_type) VInvalid in
          Raise (("CAN frame_type '" +:+ toStr name) +:+ "' cannot be sent: only 'data' and 'request' frames are writable")
        else
          let frame := setFrameType frame_type frame in
          let* bytes := payloadBytes payload in
          Ok (setPayload bytes frame)
  | _ => Raise "ill-typed"
  end.
(** [fd_open]: the device was configured with [CanFdKey]. *)
Definition parse_frame (fd_open : bool) (msg : QVar) : res QCanBusFrame :=
  let* m := ParseAs CanFrame msg [] in frame_of fd_open m.
Definition OnMsg (fd_open : bool) (msg : QVar) (dev : WriteAnswer QCanBusFrame) (st : State) : State * res unit :=
  match parse_frame fd_open msg with
  | Raise m => (st, Raise m)
  | Ok frame =>
      let st := act (WriteFrame frame) st in
      let st := fold_left (fun st e => on_event e st) (meanwhile dev) st in
      if negb (accepted dev) then (st, Raise ("Could not write frame: " +:+ errorString dev))
      else (emitFlushedIfDrained false (toWrite_after dev) (st.1 + 1, st.2), Ok tt)
  end.
End can.

(** ** Opening the device *)
Record CanFilter := { match_ : Z; ftype : Z; fid : Z; fmask : Z }.
Record QtFilter := { format : Z; frame_type : Z; frameId : Z; frameIdMask : Z }.
Definition to_qt_filter (f : CanFilter) : QtFilter :=
  {| format := match_ f; frame_type := ftype f; frameId := wrapu 32 (fid f); frameIdMask := wrapu 32 (fmask f) |}.
Record CanConfig := { plugin : string; device : string; filters : list CanFilter; bitrate : option Z; can_fd : bool; data_bitrate : option Z }.
Inductive Parameter_ := CanFdKey (b : bool) | BitRateKey (z : Z) | DataBitRateKey (z : Z) | RawFilterKey (l : list QtFilter).
(** The [setConfigurationParameter] calls, in order. *)
Definition configure (c : CanConfig) : list Parameter_ :=
  [CanFdKey (can_fd c)] ++ match bitrate c with Some b => [BitRateKey b] | None => [] end ++
  match data_bitrate c with Some b => [DataBitRateKey b] | None => [] end ++
  match filters c with [] => [] | l => [RawFilterKey (map to_qt_filter l)] end.

(** ** What the sources rely on of Qt *)
Definition with_id (i : Z) (v : FrameView) : FrameView :=
  {| extended := extended v; flexible := flexible v; switched := switched v; type := type v; id := i; payload := payload v |}.
Class CanLaws (CO : ConfigOps) (XO : CanOps) : Prop := {
  isNull_bool : forall b, isNull (VBool b) = false;
  isNull_string : forall s, isNull (VString s) = false;
  view_new : view new_frame = {| extended := false; flexible := false; switched := false; type := DataFrame; id := 0; payload := [] |};
  view_extended : forall b f, view (setExtendedFrameFormat b f) =
    {| extended := b; flexible := flexible (view f); switched := switched (view f); type := type (view f); id := id (view f); payload := payload (view f) |};
  (* clearing the flag clears the bitrate switch too *)
  view_flexible : forall b f, view (setFlexibleDataRateFormat b f) =
    {| extended := extended (view f); flexible := b; switched := (b && switched (view f))%bool; type := type (view f); id := id (view f); payload := payload (view f) |};
  view_switched : forall b f, (b = true -> flexible (view f) = true) -> view (setBitrateSwitch b f) =
    {| extended := extended (view f); flexible := flexible (view f); switched := b; type := type (view f); id := id (view f); payload := payload (view f) |};
  (* identifiers that fit the format *)
  view_id : forall i f, 0 <= i < 2 ^ 29 -> (extended (view f) = true \/ i < 2 ^ 11) -> view (setFrameId i f) = with_id i (view f);
  view_type : forall t f, t = DataFrame \/ t = RemoteRequestFrame -> view (setFrameType t f) =
    {| extended := extended (view f); flexible := flexible (view f); switched := switched (view f); type := t; id := id (view f); payload := payload (view f) |};
  (* a payload of more than eight bytes makes the frame flexible *)
  view_payload : forall p f, (flexible (view f) = true \/ (length p <= 8)%nat) -> view (setPayload p f) =
    {| extended := extended (view f); flexible := flexible (view f); switched := switched (view f); type := type (view f); id := id (view f); payload := p |}
}.
(** A frame as the bus delivers it. *)
Definition bus_frame (v : FrameView) : Prop :=
  (switched v = true -> flexible v = true) /\ 0 <= id v < 2 ^ 29 /\ (extended v = true \/ id v < 2 ^ 11) /\
  (flexible v = true \/ (length (payload v) <= 8)%nat).

Section can_lemmas.
Context {CO : ConfigOps} {XO : CanOps} {CL : ConfigLaws CO} {EL : EnumLaws CO} {XL : CanLaws CO XO}.
#[local] Instance can_qlaws : QVariantLaws variant := variant_laws.
Definition entries_of (v : FrameView) (type_name : string) : list (string * QVar) := [
  ("bitrate_switch", VBool (switched v)); ("can_fd", VBool (flexible v)); ("extended_id", VBool (extended v));
  ("frame_id", VUInt (id v)); ("frame_type", VString type_name); ("payload", VBytes (payload v))].
Definition message_of (v : FrameView) (type_name : string) : QVar := VMap (entries_of v type_name).
Lemma entries_get v n : let get k := qm_get VInvalid k (entries_of v n) in
  get "frame_id" = VUInt (id v) /\ get "payload" = VBytes (payload v) /\ get "extended_id" = VBool (extended v) /\
  get "can_fd" = VBool (flexible v) /\ get "bitrate_switch" = VBool (switched v) /\ get "frame_type" = VString n.
Proof. repeat split. Qed.
Lemma rx_named n z : (n, z) ∈ rx_types -> enum_to_name rx_types z = Some n /\ name_to_enum rx_types n = Some z.
Proof.
  intros H. assert (name_to_enum rx_types n = Some z) as Hn by (apply name_listed; [vm_compute; by repeat constructor; set_solver|done]).
  split; [|done]. destruct (enum_named _ _ _ Hn) as [m Hm]. rewrite Hm. apply enum_listed in Hm. f_equal. unfold rx_types in *.
  clear Hn. rewrite !elem_of_cons in *. unfold DataFrame, RemoteRequestFrame, ErrorFrame, UnknownFrame, InvalidFrame in *.
  repeat match goal with H : _ \/ _ |- _ => destruct H end; try match goal with H : _ ∈ [] |- _ => by apply elem_of_nil in H end; congruence.
Qed.
Lemma frame_message_spec v n : (n, type v) ∈ rx_types -> frame_message v = Ok (message_of v n).
Proof. intros Hn. unfold frame_message. cbn [Dump CanRxFrameType]. unfold Dump_enum. rewrite (proj1 (rx_named _ _ Hn)). reflexivity. Qed.
Lemma read_message v n : (n, type v) ∈ rx_types -> ParseAs CanFrame (message_of v n) [] =
  Ok (XStruct [XAny (VUInt (id v)); XAny (VBytes (payload v)); XBool (extended v); XBool (flexible v); XBool (switched v); XEnum (type v)]).
Proof.
  intros Hn. unfold ParseAs, CanFrame, CanRxFrameType, message_of. cbn [Parse parse_fields].
  destruct (entries_get v n) as (-> & -> & -> & -> & -> & ->). cbn [res_bind].
  rewrite !isNull_bool, isNull_string. unfold Parse_bool, Parse_enum, CheckCanConvert.
  rewrite !(canConvert_own MBool), !(canConvert_own MString) by done. cbn. rewrite !toBool_bool, toStr_string.
  by rewrite (proj2 (rx_named _ _ Hn)).
Qed.
Lemma frame_of_spec fd v n : (n, type v) ∈ rx_types -> type v = DataFrame \/ type v = RemoteRequestFrame ->
  bus_frame v -> (flexible v = true -> fd = true) ->
  exists f, frame_of fd (XStruct [XAny (VUInt (id v)); XAny (VBytes (payload v)); XBool (extended v); XBool (flexible v); XBool (switched v); XEnum (type v)])
    = Ok f /\ view f = v.
Proof.
  intros Hn Ht (Hs & Hi & He & Hp) Hfd. destruct v as [e d s t i p]. cbn [extended flexible switched type id payload] in *.
  unfold frame_of, read_frame_id, payloadBytes. rewrite toUInt_uint by lia. cbn [res_bind].
  replace (s && negb d)%bool with false by (destruct s, d; naive_solver). replace (d && negb fd)%bool with false by (destruct d, fd; naive_solver).
  replace (negb (t =? DataFrame) && negb (t =? RemoteRequestFrame))%bool with false by (destruct Ht as [-> | ->]; reflexivity).
  eexists. split; [reflexivity|].
  set (f1 := setExtendedFrameFormat e new_frame). assert (view f1 = {| extended := e; flexible := false; switched := false; type := DataFrame; id := 0; payload := [] |})
    as V1 by (unfold f1; by rewrite view_extended, view_new).
  set (f2 := setBitrateSwitch s (setFlexibleDataRateFormat d f1)). assert (view f2 = {| extended := e; flexible := d; switched := s; type := DataFrame; id := 0; payload := [] |})
    as V2 by (unfold f2; rewrite view_switched; rewrite !view_flexible, V1; [by cbn|exact Hs]).
  set (f3 := setFrameId i f2). assert (view f3 = {| extended := e; flexible := d; switched := s; type := DataFrame; id := i; payload := [] |})
    as V3 by (unfold f3; rewrite view_id; [by rewrite V2|done|by rewrite V2]).
  rewrite view_payload; rewrite view_type by done; rewrite V3; done.
Qed.
End can_lemmas.

(** ** The [flushed] event *)
Section flush.
Context {CO : ConfigOps} {XO : CanOps}.
Notation State := (Z * list (CanAct QCanBusFrame))%type.
Definition is_flushed (a : CanAct QCanBusFrame) : bool :=
  match a with Emit (SendEvent (VMap [(k, _)])) => bool_decide (k = "flushed") | _ => false end.
Definition flushes (l : list (CanAct QCanBusFrame)) : nat := length (List.filter is_flushed l).
(** The specification: a frame has been accepted since the last [flushed] or not;
    the event is sent when the device is seen drained and one has. *)
Inductive Obs := Accepted | Drained.
Definition spec_step (s : bool * nat) (o : Obs) : bool * nat :=
  match o, s with
  | Accepted, (_, n) => (true, n)
  | Drained, (true, n) => (false, S n)
  | Drained, (false, n) => (false, n)
  end.
Definition drained (toWrite : Z) : list Obs := if toWrite =? 0 then [Drained] else [].
Definition obs_of_event (e : DevEvent QCanBusFrame) : list Obs :=
  match e with
  | framesWritten _ toWrite | errorOccurred _ _ toWrite => drained toWrite
  | stateChanged _ unconnected _ => if unconnected then [Drained] else []
  | framesReceived _ => []
  end.
Inductive CanStep := Message (fd_open : bool) (msg : QVar) (dev : WriteAnswer QCanBusFrame) | Device (e : DevEvent QCanBusFrame).
Definition can_step (st : State) (s : CanStep) : State :=
  match s with Message fd msg dev => (OnMsg fd msg dev st).1 | Device e => on_event e st end.
Definition obs_of (s : CanStep) : list Obs :=
  match s with
  | Device e => obs_of_event e
  | Message fd msg dev =>
      match parse_frame fd msg with
      | Raise _ => []
      | Ok _ => (meanwhile dev ≫= obs_of_event) ++ (if accepted dev then Accepted :: drained (toWrite_after dev) else [])
      end
  end.
Definition refines (st : State) (s : bool * nat) : Prop :=
  0 <= st.1 /\ (0 < st.1 <-> s.1 = true) /\ flushes st.2 = s.2.

Lemma flushes_app l l' : flushes (l ++ l') = (flushes l + flushes l')%nat.
Proof. unfold flushes. by rewrite List.filter_app, length_app. Qed.
Lemma refines_act st s a : is_flushed a = false -> refines st s -> refines (act a st) s.
Proof.
  intros Ha (H1 & H2 & H3). split; [done|]. split; [done|]. unfold act. cbn [snd].
  rewrite flushes_app, H3. unfold flushes. cbn. rewrite Ha. cbn. lia.
Qed.
Lemma refines_flush force q st s : refines st s ->
  refines (emitFlushedIfDrained force q st) (if (force || (q =? 0))%bool then spec_step s Drained else s).
Proof.
  destruct s as [d n]. intros (H1 & H2 & H3). cbn in *. unfold emitFlushedIfDrained.
  replace (force || (q =? 0))%bool with (negb (negb force && negb (q =? 0)))%bool by (by destruct force, (q =? 0)).
  destruct (negb force && negb (q =? 0))%bool; cbn [negb]; [rewrite orb_true_r; by split|]. rewrite orb_false_r.
  destruct (Z.eqb_spec (st.1) 0) as [E|E].
  - destruct d; [exfalso; pose proof (proj2 H2 eq_refl); lia|]. by split.
  - destruct d; [|exfalso; assert (false = true) by (apply H2; lia); done].
    split; [cbn; lia|]. split; [cbn; split; [lia|done]|]. unfold act. cbn [snd].
    rewrite flushes_app, H3. change (flushes [Emit (SendEventField "flushed" (VBool true))]) with 1%nat. lia.
Qed.
Lemma refines_drained q st s : refines st s -> refines (emitFlushedIfDrained false q st) (fold_left spec_step (drained q) s).
Proof. intros H. pose proof (refines_flush false q st s H) as Hf. unfold drained. cbn in Hf. by destruct (q =? 0). Qed.
Lemma refines_frames frames : forall st s, refines st s -> refines (on_framesReceived frames st).1 s.
Proof.
  induction frames as [|f frames IH]; intros st s H; [done|]. cbn [on_framesReceived].
  destruct (frame_message (view f)) as [m|]; [apply IH, refines_act; [done|]|]; by apply refines_act.
Qed.
Lemma refines_event e st s : refines st s -> refines (on_event e st) (fold_left spec_step (obs_of_event e) s).
Proof.
  intros H. destruct e as [c q|nm t q|nm u q|fs]; cbn [on_event obs_of_event].
  - apply refines_drained. by apply refines_act.
  - apply refines_drained. by do 2 (apply refines_act; [reflexivity|]).
  - unfold on_stateChanged. destruct u; [|by do 2 (apply refines_act; [reflexivity|])].
    apply (refines_flush true q). by do 2 (apply refines_act; [reflexivity|]).
  - by apply refines_frames.
Qed.
Lemma refines_events es : forall st s, refines st s ->
  refines (fold_left (fun st e => on_event e st) es st) (fold_left spec_step (es ≫= obs_of_event) s).
Proof.
  induction es as [|e es IH]; intros st s H; [done|]. cbn [fold_left mbind list_bind]. rewrite fold_left_app. apply IH. by apply refines_event.
Qed.
Lemma refines_step st s c : refines st s -> refines (can_step st c) (fold_left spec_step (obs_of c) s).
Proof.
  intros H. destruct c as [fd msg dev|e]; [|by apply refines_event]. cbn [can_step obs_of]. unfold OnMsg.
  destruct (parse_frame fd msg) as [f|m]; [|exact H].
  assert (refines (fold_left (fun st e => on_event e st) (meanwhile dev) (act (WriteFrame f) st)) (fold_left spec_step (meanwhile dev ≫= obs_of_event) s))
    as Hm by (apply refines_events; by apply refines_act).
  rewrite fold_left_app. set (st' := fold_left _ (meanwhile dev) _) in *. set (s' := fold_left _ _ s) in *.
  destruct (accepted dev); cbn [negb fst]; [|done]. cbn [fold_left]. apply refines_drained.
  destruct Hm as (H1 & H2 & H3), s' as [d n]. split; [cbn; lia|]. split; [cbn; split; [done|lia]|done].
Qed.
End flush.

(** ** What [OnMsg] writes *)
Section written.
Context {CO : ConfigOps} {XO : CanOps} {CL : ConfigLaws CO} {EL : EnumLaws CO} {XL : CanLaws CO XO}.
Notation State := (Z * list (CanAct QCanBusFrame))%type.
Definition is_write (a : CanAct QCanBusFrame) : bool := match a with WriteFrame _ => true | _ => false end.
(** [st'] continues [st] without writing. *)
Definition continues (st st' : State) : Prop := exists l, st'.2 = st.2 ++ l /\ List.filter is_write l = [].
Lemma continues_refl st : continues st st. Proof. exists []. by rewrite app_nil_r. Qed.
Lemma continues_trans a b c : continues a b -> continues b c -> continues a c.
Proof.
  intros (l & E & H) (l' & E' & H'). exists (l ++ l'). rewrite E', E, <- app_assoc. split; [done|].
  by rewrite List.filter_app, H, H'.
Qed.
Lemma continues_act a st : is_write a = false -> continues st (act a st).
Proof. intros H. exists [a]. split; [done|]. cbn. by rewrite H. Qed.
Lemma continues_flush force q st : continues st (emitFlushedIfDrained force q st).
Proof. unfold emitFlushedIfDrained. case_match; [apply continues_refl|]. by eexists [_]. Qed.
Lemma continues_frames frames : forall st, continues st (on_framesReceived frames st).1.
Proof.
  induction frames as [|f frames IH]; intros st; [apply continues_refl|]. cbn [on_framesReceived].
  destruct (frame_message (view f)); [|by apply continues_act].
  eapply continues_trans; [|apply IH]. eapply continues_trans; [|by apply continues_act]. by apply continues_act.
Qed.
Lemma continues_event e st : continues st (on_event e st).
Proof.
  destruct e as [c q|nm t q|nm u q|fs]; cbn [on_event].
  - eapply continues_trans; [|apply continues_flush]. by apply continues_act.
  - eapply continues_trans; [|apply continues_flush]. eapply continues_trans; [|by apply continues_act]. by apply continues_act.
  - assert (continues st (act (Emit (SendEventField "state" (VString nm))) (act (Emit (LogLine info ("State changed: " +:+ nm))) st))) as H
      by (eapply continues_trans; [|by apply continues_act]; by apply continues_act).
    unfold on_stateChanged. destruct u; [|done]. eapply continues_trans; [exact H|apply continues_flush].
  - apply continues_frames.
Qed.
Lemma continues_events es : forall st, continues st (fold_left (fun st e => on_event e st) es st).
Proof.
  induction es as [|e es IH]; intros st; [apply continues_refl|]. eapply continues_trans; [apply continues_event|apply IH].
Qed.
(** The outcomes of a message: refused before anything happens, or one frame written. *)
Lemma OnMsg_outcomes fd msg dev st :
  match parse_frame fd msg with
  | Raise m => OnMsg fd msg dev st = (st, Raise m)
  | Ok f => continues (act (WriteFrame f) st) (OnMsg fd msg dev st).1 /\
      (OnMsg fd msg dev st).2 = if accepted dev then Ok tt else Raise ("Could not write frame: " +:+ errorString dev)
  end.
Proof.
  unfold OnMsg. destruct (parse_frame fd msg) as [f|m]; [|done]. destruct (accepted dev); cbn [negb fst snd]; (split; [|done]).
  - eapply continues_trans; [apply continues_events|]. eapply continues_trans; [|apply continues_flush].
    exists []. cbn [snd]. by rewrite app_nil_r.
  - apply continues_events.
Qed.
(** What [frame_of] lets through. *)
Lemma frame_of_checked fd m f : frame_of fd m = Ok f ->
  exists frame_id payload e d s t, m = XStruct [XAny frame_id; XAny payload; XBool e; XBool d; XBool s; XEnum t] /\
    (t = DataFrame \/ t = RemoteRequestFrame) /\ (s = true -> d = true) /\ (d = true -> fd = true) /\
    is_Some (match frame_id with VString s => hexToUInt s | _ => toUInt (QVariantOps := variant) frame_id end) /\
    is_ok (payloadBytes payload) = true.
Proof.
  unfold frame_of. destruct m as [| | | | | | | |fields| | | |]; try done.
  destruct fields as [|x fields]; [done|]. destruct x as [| |fid| | | | | | | | | |]; try done.
  destruct fields as [|x fields]; [done|]. destruct x as [| |pl| | | | | | | | | |]; try done.
  destruct fields as [|x fields]; [done|]. destruct x as [e| | | | | | | | | | | |]; try done.
  destruct fields as [|x fields]; [done|]. destruct x as [d| | | | | | | | | | | |]; try done.
  destruct fields as [|x fields]; [done|]. destruct x as [s| | | | | | | | | | | |]; try done.
  destruct fields as [|x fields]; [done|]. destruct x as [| | | | | |t| | | | | |]; try done.
  destruct fields as [|? ?]; [|done].
  destruct (s && negb d)%bool eqn:E1; [done|]. destruct (d && negb fd)%bool eqn:E2; [done|]. unfold read_frame_id.
  destruct (match fid with VString s => hexToUInt s | _ => toUInt fid end) as [i|] eqn:Ei; [|done]. cbn [res_bind].
  destruct (negb (t =? DataFrame) && negb (t =? RemoteRequestFrame))%bool eqn:E3.
  { destruct (Dump CanRxFrameType (XEnum t) VInvalid); done. }
  destruct (payloadBytes pl) as [b|] eqn:Ep; [|done]. intros _. exists fid, pl, e, d, s, t. rewrite Ei, Ep.
  split; [done|]. split; [|split; [|split; [|by split]]].
  - destruct (Z.eqb_spec t DataFrame); [by left|]. destruct (Z.eqb_spec t RemoteRequestFrame); [by right|done].
  - by destruct s, d.
  - by destruct d, fd.
Qed.
End written.

(** ** A concrete instance *)
Definition tiny_can : CanOps := {|
  QCanBusFrame := FrameView;
  new_frame := {| extended := false; flexible := false; switched := false; type := DataFrame; id := 0; payload := [] |};
  view f := f;
  setExtendedFrameFormat b f := {| extended := b; flexible := flexible f; switched := switched f; type := type f; id := id f; payload := payload f |};
  setFlexibleDataRateFormat b f := {| extended := extended f; flexible := b; switched := (b && switched f)%bool; type := type f; id := id f; payload := payload f |};
  setBitrateSwitch b f := {| extended := extended f; flexible := flexible f; switched := b; type := type f; id := id f; payload := payload f |};
  setFrameId i f := with_id i f;
  setFrameType t f := {| extended := extended f; flexible := flexible f; switched := switched f; type := t; id := id f; payload := payload f |};
  setPayload p f := {| extended := extended f; flexible := flexible f; switched := switched f; type := type f; id := id f; payload := p |};
  hexToUInt _ := None |}.
Lemma tiny_can_laws : CanLaws tiny_config tiny_can.
Proof. by split. Qed.
Definition sample_frame : FrameView := {| extended := false; flexible := true; switched := true; type := DataFrame; id := 291; payload := [1; 2; 3] |}.
Definition sample_answer : WriteAnswer FrameView := {| accepted := true; meanwhile := [framesWritten 1 0]; errorString := ""; toWrite_after := 0 |}.

(** * Properties *)

(** A frame the bus delivers becomes a message that the worker, given it back,
    writes to the bus as the same frame - every field of it - for every data and
    request frame, if the device was opened for the frame's format. *)
Theorem can_frame_roundtrip (CO : ConfigOps) (XO : CanOps) (CL : ConfigLaws CO) (EL : EnumLaws CO) (XL : CanLaws CO XO) (v : FrameView) (fd : bool) :
  bus_frame v -> type v = DataFrame \/ type v = RemoteRequestFrame -> (flexible v = true -> fd = true) ->
  exists msg f, frame_message v = Ok msg /\ view f = v /\
    forall dev st, continues (act (WriteFrame f) st) (OnMsg fd msg dev st).1 /\
      (OnMsg fd msg dev st).2 = if accepted dev then Ok tt else Raise ("Could not write frame: " +:+ errorString dev).
Proof.
  intros Hv Ht Hfd. assert (exists n, (n, type v) ∈ rx_types) as [n Hn].
  { destruct Ht as [-> | ->]; [exists "data"; left|exists "request"; right; left]. }
  destruct (frame_of_spec fd v n Hn Ht Hv Hfd) as (f & Ef & Vf). exists (message_of v n), f.
  split; [by apply frame_message_spec|]. split; [done|]. intros dev st. pose proof (OnMsg_outcomes fd (message_of v n) dev st) as H.
  unfold parse_frame in H. rewrite (read_message v n Hn) in H. cbn [res_bind] in H. by rewrite Ef in H.
Qed.
Lemma can_frame_roundtrip_witness : exists msg f, frame_message (CO := tiny_config) sample_frame = Ok msg /\ view (CanOps := tiny_can) f = sample_frame /\
  (OnMsg (CO := tiny_config) (XO := tiny_can) true msg sample_answer (0, [])).2 = Ok tt.
Proof.
  destruct (can_frame_roundtrip tiny_config tiny_can tiny_config_laws tiny_enum_laws tiny_can_laws sample_frame true)
    as (msg & f & Em & Ef & H); [|by left|done|].
  - split; [done|]. split; [cbn; lia|]. split; [right; reflexivity|by left].
  - exists msg, f. split; [exact Em|]. split; [exact Ef|]. exact (proj2 (H sample_answer (0, []))).
Defined.

(** C24: the [flushed] event refines its specification: along every sequence of
    messages and device signals - also signals raised from within a write - it is
    sent exactly when the device is seen drained, or disconnected, and a frame has
    been accepted since the last one. *)
Theorem flushed_refines (CO : ConfigOps) (XO : CanOps) (steps : list CanStep) :
  let st := fold_left can_step steps (0, []) in
  let spec := fold_left spec_step (steps ≫= obs_of) (false, 0%nat) in
  flushes st.2 = spec.2 /\ (0 < st.1 <-> spec.1 = true).
Proof.
  assert (forall st s, refines st s -> refines (fold_left can_step steps st) (fold_left spec_step (steps ≫= obs_of) s)) as H.
  { induction steps as [|c steps IH]; intros st s H; [done|]. cbn [fold_left mbind list_bind]. rewrite fold_left_app.
    apply IH. by apply refines_step. }
  destruct (H (0, []) (false, 0%nat)) as (_ & H2 & H3); [split; [done|]; split; [by split|done]|]. by split.
Qed.

(** A message is refused with nothing written and nothing changed, or exactly
    one frame is handed to the device; then it is a data or request frame, bitrate
    switching comes with CAN FD, CAN FD with a device opened for it, the identifier
    is a number and the payload bytes. *)
Theorem can_message_checked (CO : ConfigOps) (XO : CanOps) (fd : bool) (msg : QVar) (dev : WriteAnswer QCanBusFrame)
    (st : Z * list (CanAct QCanBusFrame)) :
  (exists m, OnMsg fd msg dev st = (st, Raise m)) \/
  (exists f l frame_id payload e d s t, (OnMsg fd msg dev st).1.2 = st.2 ++ WriteFrame f :: l /\ List.filter is_write l = [] /\
     ParseAs CanFrame msg [] = Ok (XStruct [XAny frame_id; XAny payload; XBool e; XBool d; XBool s; XEnum t]) /\
     (t = DataFrame \/ t = RemoteRequestFrame) /\ (s = true -> d = true) /\ (d = true -> fd = true) /\
     is_ok (read_frame_id frame_id) = true /\ is_ok (payloadBytes payload) = true).
Proof.
  pose proof (OnMsg_outcomes fd msg dev st) as H. destruct (parse_frame fd msg) as [f|m] eqn:E; [|left; by exists m].
  right. destruct H as [(l & Hl & Hw) _]. unfold parse_frame in E. destruct (ParseAs CanFrame msg []) as [x|] eqn:Ep; [|done].
  cbn [res_bind] in E. destruct (frame_of_checked _ _ _ E) as (fid & pl & e & d & s & t & -> & Ht & Hs & Hd & [i Hi] & Hb).
  exists f, l, fid, pl, e, d, s, t. split; [rewrite Hl; unfold act; cbn [snd]; by rewrite <- app_assoc|]. split; [done|]. split; [done|].
  unfold read_frame_id. rewrite Hi. by repeat split.
Qed.
