(* ===== verification/Cyphal.v ===== *)
(** * Cyphal worker: [src/workers/can/cyphalworker.cpp]

    A node on a CAN bus: it publishes the fields of its messages, receives the
    topics it subscribes to, answers services and sends requests.  The transport
    (libcanard), the described types and the clock are parameters: [canardTxPush]
    and [canardRxAccept] are given by what they return, a call back into Lua by
    what it queues.  A [CanardMessageDynamic] stands for itself; its serializer is
    the one of [CyphalMsgs]. *)
From S2P Require Import Prelude QVariant Utils Worker CyphalTypes.
Set Warnings "-register-all".

(** ** The transport *)
Inductive TransferKind := KMessage | KResponse | KRequest.
#[export] Instance TransferKind_eq : EqDecision TransferKind. Proof. solve_decision. Defined.
Record Metadata := { transfer_kind : TransferKind; port_id : Z; remote_node_id : Z; transfer_id : Z }.
(** A queued frame ([CanardTxQueueItem]). *)
Record TxItem := { item : nat; tx_deadline_usec : Z; can_id : Z; frame_payload : list Z }.
Definition CANARD_NODE_ID_MAX : Z := 127.
Definition CANARD_NODE_ID_UNSET : Z := 255.
Definition ERROR_INVALID_ARGUMENT : Z := 2.      (* the documented libcanard error codes *)
Definition ERROR_OUT_OF_MEMORY : Z := 3.
Class CyphalOps := {
  extent : CanardMessageDynamic -> Z;
  serialize : CanardMessageDynamic -> QVar -> res (list Z);
  deserialize : CanardMessageDynamic -> list Z -> res QVar;
  service_types : string -> Halves;              (* lookup_service_types *)
  canardTxPush : list TxItem -> Z -> Metadata -> list Z -> Z * list TxItem;
  heartbeat_serialize : Z -> list Z              (* of a nominal node, by its uptime *)
}.
(** What happens while a frame is being written: the time read before, whether the
    device takes it, and what Lua listeners publish meanwhile. *)
Record Turn := { now : Z; write_ok : bool; publish : list TxItem -> list TxItem }.

(** ** State *)
Record RequestState := { promise : nat; timeout : Z }.
Record RequestsPort := { resp_dyn : option CanardMessageDynamic; in_flight : gmap Z RequestState; tid : Z }.
Inductive CyAct :=
| Emitted (e : Emission)
| Written (i : TxItem)                           (* handed to the CAN device *)
| Dropped (i : TxItem) (at_usec : Z)
| Resolve (p : nat) (v : QVar)
| Break (p : nat)                                (* the promise is destroyed *)
| Subscribe (port : Z) (extent : Z)
| Unsubscribe (port : Z)
| CallService (handler : nat) (req : QVar) (meta : Metadata).
Record Cy := {
  reqs : gmap Z RequestsPort;
  subscribed : gset Z;                           (* ports with a response subscription *)
  pub_tids : gmap Z Z;
  tx : list TxItem;
  in_process_tx : bool;
  promises : nat;
  acts : list CyAct
}.
Definition cy_init : Cy :=
  {| reqs := ∅; subscribed := ∅; pub_tids := ∅; tx := []; in_process_tx := false; promises := 0; acts := [] |}.
Definition do (a : CyAct) (st : Cy) : Cy :=
  {| reqs := reqs st; subscribed := subscribed st; pub_tids := pub_tids st; tx := tx st;
     in_process_tx := in_process_tx st; promises := promises st; acts := acts st ++ [a] |}.
Definition log (lvl : LogLevel) (text : string) : Cy -> Cy := do (Emitted (LogLine lvl text)).
Definition set_tx (q : list TxItem) (st : Cy) : Cy :=
  {| reqs := reqs st; subscribed := subscribed st; pub_tids := pub_tids st; tx := q;
     in_process_tx := in_process_tx st; promises := promises st; acts := acts st |}.
Definition set_processing (b : bool) (st : Cy) : Cy :=
  {| reqs := reqs st; subscribed := subscribed st; pub_tids := pub_tids st; tx := tx st;
     in_process_tx := b; promises := promises st; acts := acts st |}.
Definition set_port (p : Z) (port : RequestsPort) (st : Cy) : Cy :=
  {| reqs := <[p := port]> (reqs st); subscribed := subscribed st; pub_tids := pub_tids st; tx := tx st;
     in_process_tx := in_process_tx st; promises := promises st; acts := acts st |}.
Definition erase_port (p : Z) (st : Cy) : Cy :=
  {| reqs := delete p (reqs st); subscribed := subscribed st; pub_tids := pub_tids st; tx := tx st;
     in_process_tx := in_process_tx st; promises := promises st; acts := acts st |}.
Definition canardRxSubscribe (p ext : Z) (st : Cy) : Cy :=
  do (Subscribe p ext) {| reqs := reqs st; subscribed := {[p]} ∪ subscribed st; pub_tids := pub_tids st; tx := tx st;
     in_process_tx := in_process_tx st; promises := promises st; acts := acts st |}.
Definition canardRxUnsubscribe (p : Z) (st : Cy) : Cy :=
  do (Unsubscribe p) {| reqs := reqs st; subscribed := subscribed st ∖ {[p]}; pub_tids := pub_tids st; tx := tx st;
     in_process_tx := in_process_tx st; promises := promises st; acts := acts st |}.
Definition new_promise (st : Cy) : Cy :=
  {| reqs := reqs st; subscribed := subscribed st; pub_tids := pub_tids st; tx := tx st;
     in_process_tx := in_process_tx st; promises := S (promises st); acts := acts st |}.
(** [pub_tids[port]++]. *)
Definition next_pub_tid (p : Z) (st : Cy) : Z * Cy :=
  let t := default 0 (pub_tids st !! p) in
  (t, {| reqs := reqs st; subscribed := subscribed st; pub_tids := <[p := wrapu 8 (t + 1)]> (pub_tids st); tx := tx st;
         in_process_tx := in_process_tx st; promises := promises st; acts := acts st |}).

Section cyphal.
Context {YO : CyphalOps}.

(** ** Sending *)
Definition pushMsg (deadline : Z) (meta : Metadata) (dyn : CanardMessageDynamic) (msg : QVar) (st : Cy) : Cy * res unit :=
  match serialize dyn msg with
  | Raise m => (st, Raise m)
  | Ok buf =>
      let '(err, q) := canardTxPush (tx st) deadline meta buf in
      let st := set_tx q st in
      if err =? - ERROR_INVALID_ARGUMENT then
        (st, Raise (("Could not push msg of type: " +:+ name_and_ver dyn) +:+ ": Invalid Argument"))
      else if err =? - ERROR_OUT_OF_MEMORY then
        (st, Raise (("Could not push msg of type: " +:+ name_and_ver dyn) +:+ ": Out of memory"))
      else (st, Ok tt)
  end.
(** [canardTxPop(&tx, ti)]. *)
Definition canardTxPop (i : TxItem) (q : list TxItem) : list TxItem := List.filter (fun j => negb (item j =? item i)%nat) q.
(** The loop of [processTx], for as long as the environment is given. *)
Fixpoint processTx_loop (turns : list Turn) (st : Cy) : Cy :=
  match turns, tx st with
  | t :: turns, ti :: _ =>
      if (negb (tx_deadline_usec ti =? 0) && (tx_deadline_usec ti <=? now t))%bool then
        processTx_loop turns (set_tx (canardTxPop ti (tx st)) (do (Dropped ti (now t)) st))
      else
        if write_ok t then
          let st := do (Written ti) st in
          let st := set_tx (publish t (tx st)) st in
          processTx_loop turns (set_tx (canardTxPop ti (tx st)) st)
        else log error "Could not write CAN frame" (set_tx (publish t (tx st)) st)
  | _, _ => st
  end.
Definition processTx (can_alive : bool) (turns : list Turn) (st : Cy) : Cy :=
  if in_process_tx st then st
  else
    let st := set_processing true st in
    let st := if can_alive then processTx_loop turns st else log error "Could not send frame: can is dead" st in
    set_processing false st.

(** The fields of a message go to the topics of the same name. *)
Record PubMeta := { dyn : CanardMessageDynamic; pub_port : Z }.
Fixpoint publish_fields (pubs : list (string * PubMeta)) (deadline : Z) (map : list (string * QVar)) (st : Cy) : Cy :=
  match map with
  | [] => st
  | (k, v) :: map =>
      match qm_find k pubs with
      | None => publish_fields pubs deadline map (log warn (("Publisher topic with name " +:+ k) +:+ " not registered") st)
      | Some p =>
          let '(t, st) := next_pub_tid (pub_port p) st in
          let meta := {| transfer_kind := KMessage; port_id := pub_port p; remote_node_id := CANARD_NODE_ID_UNSET; transfer_id := t |} in
          match pushMsg deadline meta (dyn p) v st with
          | (st, Ok _) => publish_fields pubs deadline map st
          | (st, Raise e) => publish_fields pubs deadline map (log error ((("Could not publish " +:+ k) +:+ ": ") +:+ e) st)
          end
      end
  end.
Definition OnMsg (pubs : list (string * PubMeta)) (deadline : Z) (map : list (string * QVar)) (alive : bool) (turns : list Turn)
    (st : Cy) : Cy :=
  processTx alive turns (publish_fields pubs deadline map st).
(** [start] and [now_s]: times of the day in seconds. *)
Definition heartbeat_uptime (start now_s : Z) : Z := wrapu 32 (now_s - start).

Definition Heartbeat_port : Z := 7509.
Definition heartbeat (start now_s deadline : Z) (alive : bool) (turns : list Turn) (st : Cy) : Cy :=
  let '(t, st) := next_pub_tid Heartbeat_port st in
  let meta := {| transfer_kind := KMessage; port_id := Heartbeat_port; remote_node_id := CANARD_NODE_ID_UNSET; transfer_id := t |} in
  let '(err, q) := canardTxPush (tx st) deadline meta (heartbeat_serialize (heartbeat_uptime start now_s)) in
  let st := set_tx q st in
  let st := if err <? 0 then log error ("Could not push heartbeat: " +:+ to_string err) st else st in
  processTx alive turns st.

(** ** Requests *)
Record RequestParams := { rtype : string; server : Z; rport : Z; rtimeout : Z }.
Definition get_port (p : Z) (st : Cy) : RequestsPort :=
  default {| resp_dyn := None; in_flight := ∅; tid := 0 |} (reqs st !! p).
(** [port.tid++], an 8-bit counter. *)
Definition bump (port : RequestsPort) : RequestsPort :=
  {| resp_dyn := resp_dyn port; in_flight := in_flight port; tid := wrapu 8 (tid port + 1) |}.
Definition check_type (p : Z) (resp : CanardMessageDynamic) (port : RequestsPort) : res RequestsPort :=
  match resp_dyn port with
  | Some r =>
      if bool_decide (r = resp) then Ok port
      else Raise (((((("Cannot have conflicting types for requests on port: " +:+ to_string p) +:+ " (was: ") +:+ name_and_ver r)
        +:+ ", passed: ") +:+ name_and_ver resp) +:+ ")")
  | None => Ok {| resp_dyn := Some resp; in_flight := in_flight port; tid := tid port |}
  end.
(** The promise of the request, or the error; the request is in flight in both
    cases once its transfer identifier was free. *)
Definition Request (params : RequestParams) (msg : QVar) (deadline : Z) (alive : bool) (turns : list Turn) (st : Cy)
    : Cy * res nat :=
  match service_types (rtype params) with
  | (Some req, Some resp) =>
      let p := rport params in
      let port := get_port p st in
      let t := tid port in
      let port := bump port in
      match check_type p resp port with
      | Raise m => (set_port p port st, Raise m)
      | Ok port =>
          if bool_decide (is_Some (in_flight port !! t)) then
            (set_port p port st, Raise ("Too many requests on port: " +:+ to_string p))
          else
            let pr := promises st in
            let st := new_promise st in
            let port := {| resp_dyn := resp_dyn port; tid := tid port;
                           in_flight := <[t := {| promise := pr; timeout := rtimeout params |}]> (in_flight port) |} in
            let st := set_port p port st in
            let meta := {| transfer_kind := KRequest; port_id := p; remote_node_id := server params; transfer_id := t |} in
            let st := if (size (in_flight port) =? 1)%nat then canardRxSubscribe p (extent req) st else st in
            match pushMsg deadline meta req msg st with
            | (st, Raise m) => (st, Raise m)
            | (st, Ok _) => (processTx alive turns st, Ok pr)
            end
      end
  | _ => (st, Raise ("Could not find types for service: " +:+ rtype params))
  end.
(** *** Re-entrance

    A promise runs the callbacks of its future where it is settled: a Lua callback may
    make requests of its own before the settling code goes on.  [rehash]: the insertion
    made the table it went to rehash.  [None] is undefined behaviour, or, for a check,
    also what is not followed. *)
Record Nested := { n_params : RequestParams; n_msg : QVar; n_deadline : Z; n_alive : bool; n_turns : list Turn; rehash : bool }.
Definition nested_request (n : Nested) (st : Cy) : Cy :=
  (Request (n_params n) (n_msg n) (n_deadline n) (n_alive n) (n_turns n) st).1.
(** The requests of a callback of [on_frame], that goes on with its iterator into
    [in_flight] of the port [p]. *)
Fixpoint reenter_response (p : Z) (ns : list Nested) (st : Cy) : option Cy :=
  match ns with
  | [] => Some st
  | n :: ns =>
      let st' := nested_request n st in
      if (rehash n && negb (size (in_flight (get_port p st')) =? size (in_flight (get_port p st)))%nat)%bool then None
      else reenter_response p ns st'
  end.
(** Those of a callback that runs inside [erase] of [in_flight] of [p], under the loop
    over the ports: a request on [p] enters the table being changed, one on a port
    that is not there adds to the table the loop walks. *)
Definition harmless (p : Z) (n : Nested) (st : Cy) : bool :=
  match service_types (rtype (n_params n)) with
  | (Some _, Some _) => (negb (rport (n_params n) =? p) && bool_decide (is_Some (reqs st !! rport (n_params n))))%bool
  | _ => true
  end.
Fixpoint reenter_check (p : Z) (ns : list Nested) (st : Cy) : option Cy :=
  match ns with
  | [] => Some st
  | n :: ns => if harmless p n st then reenter_check p ns (nested_request n st) else None
  end.
(** [checkReqTimeouts], every 500 ms: one port, then all of them.  A promise whose
    request is erased is broken. *)
Definition expire (port : RequestsPort) : list nat * RequestsPort :=
  (map (fun kv => promise kv.2) (List.filter (fun kv => timeout kv.2 <? 500) (map_to_list (in_flight port))),
   {| resp_dyn := resp_dyn port; tid := tid port;
      in_flight := (fun r => {| promise := promise r; timeout := timeout r - 500 |}) <$>
                   filter (fun kv => 500 <= timeout kv.2) (in_flight port) |}).
Fixpoint break_all (p : Z) (callbacks : nat -> list Nested) (broken : list nat) (st : Cy) : option Cy :=
  match broken with
  | [] => Some st
  | pr :: broken => st ← reenter_check p (callbacks pr) (do (Break pr) st); break_all p callbacks broken st
  end.
Definition check_port (callbacks : nat -> list Nested) (p : Z) (st : Cy) : option Cy :=
  match reqs st !! p with
  | None => Some st
  | Some port =>
      let '(broken, port) := expire port in
      st ← break_all p callbacks broken st;
      Some (if bool_decide (in_flight port = ∅) then erase_port p (canardRxUnsubscribe p st) else set_port p port st)
  end.
Fixpoint check_ports (callbacks : nat -> list Nested) (l : list Z) (st : Cy) : option Cy :=
  match l with [] => Some st | p :: l => st ← check_port callbacks p st; check_ports callbacks l st end.
Definition checkReqTimeouts (callbacks : nat -> list Nested) (st : Cy) : option Cy :=
  check_ports callbacks (map_to_list (reqs st)).*1 st.
(** The response branch of [on_frame]: a response nobody waits for is reported, and then
    handled through [end()]. *)
Definition on_response (meta : Metadata) (payload : list Z) (callbacks : list Nested) (st : Cy) : option Cy :=
  let p := port_id meta in
  port ← reqs st !! p;
  handler ← in_flight port !! transfer_id meta;
  resp ← resp_dyn port;
  match deserialize resp payload with
  | Raise e => Some (log error ("Could not receive frame: " +:+ e) st)
  | Ok v =>
      st ← reenter_response p callbacks (do (Resolve (promise handler) v) st);
      let port := get_port p st in
      let left := delete (transfer_id meta) (in_flight port) in
      let st := set_port p {| resp_dyn := resp_dyn port; in_flight := left; tid := tid port |} st in
      Some (if bool_decide (left = ∅) then canardRxUnsubscribe p st else st)
  end.

(** ** Receiving *)
(** The subscription libcanard found for an accepted transfer. *)
Inductive RxSub := RxTopic (name : string) (dyn : CanardMessageDynamic) | RxService (handler : nat) (req : CanardMessageDynamic) | RxResponse | RxGetInfo.
Definition GetInfo_port : Z := 430.
Definition on_transfer (node_info : CanardMessageDynamic * QVar) (deadline : Z) (alive : bool) (turns : list Turn)
    (meta : Metadata) (sub : RxSub) (payload : list Z) (callbacks : list Nested) (st : Cy) : option Cy :=
  let failed e := log error ("Could not receive frame: " +:+ e) in
  if port_id meta =? GetInfo_port then
    match sub with
    | RxGetInfo =>
        let meta := {| transfer_kind := KResponse; port_id := port_id meta; remote_node_id := remote_node_id meta; transfer_id := transfer_id meta |} in
        match pushMsg deadline meta node_info.1 node_info.2 st with
        | (st, Raise e) => Some (failed e st)
        | (st, Ok _) => Some (processTx alive turns st)
        end
    | _ => None                                  (* [user_reference] is null *)
    end
  else
    match sub with
    | RxResponse => on_response meta payload callbacks st
    | RxService handler req =>
        match deserialize req payload with
        | Raise e => Some (failed e st)
        | Ok v => Some (do (CallService handler v meta) st)
        end
    | RxTopic name dyn =>
        match deserialize dyn payload with
        | Raise e => Some (failed e st)
        | Ok v => Some (do (Emitted (SendMsgField name v)) st)
        end
    | RxGetInfo => Some st
    end.
(** The result of a service handler. *)
Definition handleLocalResp (type_name : string) (resp : CanardMessageDynamic) (deadline : Z) (alive : bool) (turns : list Turn)
    (meta : Metadata) (result : res QVar) (st : Cy) : Cy :=
  let at_port := " on port: " +:+ to_string (port_id meta) in
  match result with
  | Raise e => log error ((((("Error in service: " +:+ type_name) +:+ at_port) +:+ ". ") +:+ e)) st
  | Ok v =>
      let meta := {| transfer_kind := KResponse; port_id := port_id meta; remote_node_id := remote_node_id meta; transfer_id := transfer_id meta |} in
      match pushMsg deadline meta resp v st with
      | (st, Raise e) => log error ((((("Invalid response for: " +:+ type_name) +:+ at_port) +:+ ". ") +:+ e)) st
      | (st, Ok _) => processTx alive turns st
      end
  end.
End cyphal.

(** ** Requests: each is in flight or settled, once *)
Definition settles (a : CyAct) : option nat := match a with Resolve p _ | Break p => Some p | _ => None end.
Definition settled (st : Cy) : list nat := omap settles (acts st).
Definition port_promises (port : RequestsPort) : list nat := (fun kv => promise kv.2) <$> map_to_list (in_flight port).
Definition all_promises (m : gmap Z RequestsPort) : list nat := map_to_list m ≫= (fun kv => port_promises kv.2).
Definition flying (st : Cy) : list nat := all_promises (reqs st).
(** [x]: promises settled while their requests are still in flight. *)
Record owed (x : list nat) (st : Cy) : Prop := {
  ok_once : settled st ++ flying st ≡ₚ x ++ seq 0 (promises st);
  ok_subscribed : forall p, p ∈ subscribed st <-> exists port, reqs st !! p = Some port /\ in_flight port <> ∅;
  ok_typed : forall p port, reqs st !! p = Some port -> in_flight port <> ∅ -> is_Some (resp_dyn port)
}.
Notation requests_ok := (owed []).
(** Nothing that concerns requests changed. *)
Record same_requests (st st' : Cy) : Prop := {
  same_reqs : reqs st' = reqs st;
  same_subscribed : subscribed st' = subscribed st;
  same_promises : promises st' = promises st;
  same_settled : settled st' = settled st
}.
Lemma same_refl st : same_requests st st. Proof. by split. Qed.
Lemma same_trans a b c : same_requests a b -> same_requests b c -> same_requests a c.
Proof. intros [] []. split; congruence. Qed.
Lemma settled_do a st : settled (do a st) = settled st ++ match settles a with Some p => [p] | None => [] end.
Proof. unfold settled, do. cbn. rewrite omap_app. cbn. by destruct (settles a). Qed.
Lemma same_do a st : settles a = None -> same_requests st (do a st).
Proof. intros Ha. split; try done. by rewrite settled_do, Ha, app_nil_r. Qed.
Lemma same_log lvl text st : same_requests st (log lvl text st). Proof. by apply same_do. Qed.
Lemma same_set_tx q st : same_requests st (set_tx q st). Proof. by split. Qed.
Lemma same_set_processing b st : same_requests st (set_processing b st). Proof. by split. Qed.
Create HintDb cyphal.
#[export] Hint Resolve same_refl same_set_tx same_set_processing : cyphal.
Lemma requests_ok_same x st st' : same_requests st st' -> owed x st -> owed x st'.
Proof.
  intros [E1 E2 E3 E4] [H1 H2 H3]. by split; unfold flying in *; rewrite ?E1, ?E2, ?E3, ?E4.
Qed.

Section sending_lemmas.
Context {YO : CyphalOps}.
Lemma same_push deadline meta d msg st : same_requests st (pushMsg deadline meta d msg st).1.
Proof.
  unfold pushMsg. destruct (serialize d msg); [|apply same_refl]. destruct (canardTxPush _ _ _ _) as [err q].
  repeat case_match; apply same_set_tx.
Qed.
Lemma same_loop turns : forall st, same_requests st (processTx_loop turns st).
Proof.
  induction turns as [|t turns IH]; intros st; [apply same_refl|]. cbn [processTx_loop]. destruct (tx st) as [|ti q] eqn:E; [apply same_refl|].
  case_match; [|destruct (write_ok t)].
  - eapply same_trans; [|apply IH]. eapply same_trans; [by apply (same_do (Dropped ti (now t)))|apply same_set_tx].
  - eapply same_trans; [|apply IH]. eapply same_trans; [by apply (same_do (Written ti))|]. by split.
  - eapply same_trans; [apply same_set_tx|]. by apply same_do.
Qed.
Lemma same_process alive turns st : same_requests st (processTx alive turns st).
Proof.
  unfold processTx. destruct (in_process_tx st); [apply same_refl|].
  eapply same_trans; [apply (same_set_processing true)|]. eapply same_trans; [|apply same_set_processing].
  destruct alive; [apply same_loop|by apply same_do].
Qed.
Lemma same_pub_tid p st : same_requests st (next_pub_tid p st).2. Proof. by split. Qed.
Lemma same_fields pubs deadline m : forall st, same_requests st (publish_fields pubs deadline m st).
Proof.
  induction m as [|[k v] m IH]; intros st; [apply same_refl|]. cbn [publish_fields].
  destruct (qm_find k pubs) as [p|]; [|eapply same_trans; [apply same_log|apply IH]].
  destruct (next_pub_tid (pub_port p) st) as [t st1] eqn:E1. assert (same_requests st st1) as S1 by (pose proof (same_pub_tid (pub_port p) st) as H; by rewrite E1 in H).
  match goal with |- context [pushMsg ?d ?m ?y ?v st1] => pose proof (same_push d m y v st1) as S2; destruct (pushMsg d m y v st1) as [st2 r] end.
  cbn [fst] in S2.
  destruct r; (eapply same_trans; [exact S1|]); (eapply same_trans; [exact S2|]); [apply IH|].
  eapply same_trans; [apply same_log|apply IH].
Qed.
End sending_lemmas.

(** *** The promises of one port and of the others *)
Definition others (p : Z) (st : Cy) : list nat := all_promises (delete p (reqs st)).
Lemma flying_port p st : flying st ≡ₚ port_promises (get_port p st) ++ others p st.
Proof.
  unfold flying, others, all_promises, get_port. destruct (reqs st !! p) as [port|] eqn:E; cbn.
  - rewrite <- (insert_delete_id _ _ _ E) at 1. rewrite map_to_list_insert by apply lookup_delete_eq. done.
  - rewrite delete_id by done. unfold port_promises. cbn. by rewrite map_to_list_empty.
Qed.
Lemma flying_set p port st : flying (set_port p port st) ≡ₚ port_promises port ++ others p st.
Proof.
  unfold flying, others, all_promises. cbn. rewrite <- insert_delete_eq. by rewrite map_to_list_insert by apply lookup_delete_eq.
Qed.
Lemma flying_erase p st : flying (erase_port p st) ≡ₚ others p st. Proof. done. Qed.
Lemma promises_insert port port' t r : in_flight port !! t = None -> in_flight port' = <[t := r]> (in_flight port) ->
  port_promises port' ≡ₚ promise r :: port_promises port.
Proof. intros Ht E. unfold port_promises. rewrite E, map_to_list_insert by done. done. Qed.
Lemma promises_delete port port' t r : in_flight port !! t = Some r -> in_flight port' = delete t (in_flight port) ->
  port_promises port ≡ₚ promise r :: port_promises port'.
Proof.
  intros Ht E. apply (promises_insert port' port t); [rewrite E; apply lookup_delete_eq|]. rewrite E. by rewrite insert_delete_id.
Qed.
#[local] Instance filter_Permutation {A} (f : A -> bool) : Proper (Permutation ==> Permutation) (List.filter f).
Proof.
  intros l l' H. induction H as [| |x y l|]; cbn; repeat case_match; try done; [by constructor|constructor|by etrans].
Qed.
#[local] Instance map_Permutation {A B} (f : A -> B) : Proper (Permutation ==> Permutation) (map f).
Proof. intros l l' H. by apply Permutation_map. Qed.
Lemma expire_promises port : port_promises port ≡ₚ (expire port).1 ++ port_promises (expire port).2.
Proof.
  unfold expire, port_promises. cbn. induction (in_flight port) as [|t r m Ht IH] using map_ind.
  - by rewrite map_filter_empty, fmap_empty, map_to_list_empty.
  - rewrite (map_to_list_insert m t r Ht) at 1. cbn [fmap list_fmap snd]. rewrite IH.
    destruct (Z.ltb_spec (timeout r) 500) as [Hlt|Hge].
    + rewrite map_filter_insert_False by (cbn; lia). rewrite delete_id by done.
      assert (List.filter (fun kv : Z * RequestState => timeout kv.2 <? 500) (map_to_list (<[t:=r]> m)) ≡ₚ
        (t, r) :: List.filter (fun kv => timeout kv.2 <? 500) (map_to_list m)) as ->; [|done].
      rewrite (map_to_list_insert m t r Ht). cbn. by rewrite (proj2 (Z.ltb_lt _ _)).
    + rewrite (map_to_list_insert m t r Ht). cbn [List.filter snd]. rewrite (proj2 (Z.ltb_ge _ _)) by done.
      rewrite map_filter_insert_True by done. rewrite fmap_insert, map_to_list_insert by (by rewrite lookup_fmap, map_lookup_filter_None_2; [|left]).
      cbn. by rewrite Permutation_middle.
Qed.
Lemma get_port_flying x p st : owed x st -> p ∈ subscribed st <-> in_flight (get_port p st) <> ∅.
Proof.
  intros H. rewrite (ok_subscribed _ _ H). unfold get_port. destruct (reqs st !! p) as [port|] eqn:E; cbn.
  - split; [intros (port' & [= <-] & Hp); done|]. intros Hp. by exists port.
  - split; [by intros (port' & ? & _)|done].
Qed.
Lemma get_port_typed x p st : owed x st -> in_flight (get_port p st) <> ∅ -> is_Some (resp_dyn (get_port p st)).
Proof. intros H. unfold get_port. destruct (reqs st !! p) as [port|] eqn:E; cbn; [by apply (ok_typed _ _ H p)|done]. Qed.
(** Replacing one port: what has to be shown of it alone. *)
Lemma ok_update x y st st' p port : owed x st -> reqs st' = <[p := port]> (reqs st) ->
  (forall q, q <> p -> q ∈ subscribed st' <-> q ∈ subscribed st) ->
  (p ∈ subscribed st' <-> in_flight port <> ∅) -> (in_flight port <> ∅ -> is_Some (resp_dyn port)) ->
  settled st' ++ port_promises port ++ others p st ≡ₚ y ++ seq 0 (promises st') -> owed y st'.
Proof.
  intros H Er Hother Hp Ht Hs. split.
  - rewrite <- Hs. f_equiv. unfold flying. rewrite Er. apply (flying_set p port st).
  - intros q. rewrite Er. destruct (decide (q = p)) as [->|Hne].
    + rewrite Hp, lookup_insert_eq. split; [intros ?; by exists port|by intros (? & [= <-] & ?)].
    + rewrite Hother, (ok_subscribed _ _ H) by done. by rewrite lookup_insert_ne.
  - intros q port'. rewrite Er. destruct (decide (q = p)) as [->|Hne].
    + rewrite lookup_insert_eq. by intros [= <-].
    + rewrite lookup_insert_ne by done. apply (ok_typed _ _ H).
Qed.
Lemma once_port x p st : owed x st -> settled st ++ port_promises (get_port p st) ++ others p st ≡ₚ x ++ seq 0 (promises st).
Proof. intros H. rewrite <- (ok_once _ _ H). f_equiv. symmetry. apply flying_port. Qed.
Lemma ok_set_same x st p port : owed x st -> in_flight port = in_flight (get_port p st) ->
  (in_flight port <> ∅ -> is_Some (resp_dyn port)) -> owed x (set_port p port st).
Proof.
  intros H E Ht. apply (ok_update x x st _ p port H); try done.
  - rewrite E. exact (get_port_flying x p st H).
  - rewrite <- (once_port x p st H). unfold port_promises. by rewrite E.
Qed.
Lemma settled_subscribe p e st : settled (canardRxSubscribe p e st) = settled st.
Proof. unfold canardRxSubscribe. rewrite settled_do. by rewrite app_nil_r. Qed.
Lemma settled_unsubscribe p st : settled (canardRxUnsubscribe p st) = settled st.
Proof. unfold canardRxUnsubscribe. rewrite settled_do. by rewrite app_nil_r. Qed.
Lemma size_one_insert (m : gmap Z RequestState) t r : m !! t = None -> (size (<[t := r]> m) =? 1)%nat = bool_decide (m = ∅).
Proof.
  intros Ht. rewrite map_size_insert_None by done. case_bool_decide as E.
  - subst. by rewrite map_size_empty.
  - apply Nat.eqb_neq. intros [= H%map_size_empty_inv]. done.
Qed.
Lemma ok_fly x st p t r port ext : owed x st -> in_flight (get_port p st) !! t = None -> promise r = promises st ->
  in_flight port = <[t := r]> (in_flight (get_port p st)) -> is_Some (resp_dyn port) ->
  let st' := set_port p port (new_promise st) in
  owed x (if (size (in_flight port) =? 1)%nat then canardRxSubscribe p ext st' else st').
Proof.
  intros H Ht Hr E Hd st'. assert (in_flight port <> ∅) as Hne by (rewrite E; apply insert_non_empty).
  assert (settled st' ++ port_promises port ++ others p st ≡ₚ x ++ seq 0 (promises st')) as Hs.
  { cbn [st' promises set_port new_promise]. rewrite seq_S, (assoc_L (++) x), <- (once_port x p st H). rewrite (promises_insert _ port _ _ Ht E), Hr. cbn.
    change (settled st') with (settled st). rewrite <- Permutation_middle, (Permutation_app_comm _ [_]). cbn. done. }
  rewrite E, size_one_insert by done. case_bool_decide as Em.
  - apply (ok_update x x st _ p port H); try done.
    + intros q Hq. cbn. set_solver.
    + cbn. split; [done|]. intros _. set_solver.
    + rewrite settled_subscribe. exact Hs.
  - apply (ok_update x x st _ p port H); try done. cbn. rewrite (get_port_flying x p st H). done.
Qed.

(** ** Events *)
Inductive CyEvent :=
| ERequest (params : RequestParams) (msg : QVar) (deadline : Z) (alive : bool) (turns : list Turn)
| ECheck (callbacks : nat -> list Nested)
| ETransfer (node_info : CanardMessageDynamic * QVar) (deadline : Z) (alive : bool) (turns : list Turn) (meta : Metadata) (sub : RxSub) (payload : list Z)
    (callbacks : list Nested)
| EHandled (type_name : string) (resp : CanardMessageDynamic) (deadline : Z) (alive : bool) (turns : list Turn) (meta : Metadata) (result : res QVar)
| EMessage (pubs : list (string * PubMeta)) (deadline : Z) (map : list (string * QVar)) (alive : bool) (turns : list Turn)
| EHeartbeat (start now_s deadline : Z) (alive : bool) (turns : list Turn).
Section events.
Context {YO : CyphalOps}.
Definition cy_step (st : Cy) (e : CyEvent) : option Cy :=
  match e with
  | ERequest params msg deadline alive turns => Some (Request params msg deadline alive turns st).1
  | ECheck callbacks => checkReqTimeouts callbacks st
  | ETransfer node_info deadline alive turns meta sub payload callbacks => on_transfer node_info deadline alive turns meta sub payload callbacks st
  | EHandled nm resp deadline alive turns meta result => Some (handleLocalResp nm resp deadline alive turns meta result st)
  | EMessage pubs deadline map alive turns => Some (OnMsg pubs deadline map alive turns st)
  | EHeartbeat start now_s deadline alive turns => Some (heartbeat start now_s deadline alive turns st)
  end.
Fixpoint cy_run (es : list CyEvent) (st : Cy) : option Cy :=
  match es with [] => Some st | e :: es => st ← cy_step st e; cy_run es st end.
Lemma same_heartbeat start now_s deadline alive turns st : same_requests st (heartbeat start now_s deadline alive turns st).
Proof.
  unfold heartbeat. destruct (next_pub_tid Heartbeat_port st) as [t st1] eqn:E1.
  assert (same_requests st st1) as S1 by (pose proof (same_pub_tid Heartbeat_port st) as H; by rewrite E1 in H).
  destruct (canardTxPush _ _ _ _) as [err q]. eapply same_trans; [exact S1|]. eapply same_trans; [|apply same_process].
  eapply same_trans; [apply (same_set_tx q)|]. case_match; [apply same_log|apply same_refl].
Qed.
Lemma same_reply deadline alive turns meta d v (fail : string -> Cy -> Cy) st : (forall e s, same_requests s (fail e s)) ->
  same_requests st (match pushMsg deadline meta d v st with (s, Raise e) => fail e s | (s, Ok _) => processTx alive turns s end).
Proof.
  intros Hf. pose proof (same_push deadline meta d v st) as S. destruct (pushMsg deadline meta d v st) as [s [u|e]]; cbn [fst] in S;
    (eapply same_trans; [exact S|]); [apply same_process|apply Hf].
Qed.
Lemma same_handled nm resp deadline alive turns meta result st :
  same_requests st (handleLocalResp nm resp deadline alive turns meta result st).
Proof. unfold handleLocalResp. destruct result; [apply same_reply; intros; apply same_log|apply same_log]. Qed.
Lemma check_type_spec p resp port port' : check_type p resp port = Ok port' ->
  in_flight port' = in_flight port /\ resp_dyn port' = Some resp /\ tid port' = tid port.
Proof.
  unfold check_type. destruct (resp_dyn port) as [r|] eqn:E; [case_bool_decide as Hr; [|done]|]; intros [= <-]; [|done].
  by rewrite E, Hr.
Qed.
(** What a request does to the table of its port. *)
Inductive asked (p : Z) (st st' : Cy) : Prop :=
| asked_nothing : same_requests st st' -> asked p st st'
| asked_port port : in_flight port = in_flight (get_port p st) -> (in_flight port <> ∅ -> is_Some (resp_dyn port)) ->
    same_requests (set_port p port st) st' -> asked p st st'
| asked_fly t r port ext : in_flight (get_port p st) !! t = None -> promise r = promises st ->
    in_flight port = <[t := r]> (in_flight (get_port p st)) -> is_Some (resp_dyn port) ->
    same_requests (if (size (in_flight port) =? 1)%nat then canardRxSubscribe p ext (set_port p port (new_promise st)) else set_port p port (new_promise st)) st' ->
    asked p st st'.
Lemma Request_asked x params msg deadline alive turns st : owed x st -> asked (rport params) st (Request params msg deadline alive turns st).1.
Proof.
  intros H. unfold Request. destruct (service_types (rtype params)) as [[req|] [resp|]]; try (apply asked_nothing, same_refl).
  set (p := rport params). set (port := bump (get_port p st)).
  assert (in_flight port <> ∅ -> is_Some (resp_dyn port)) as Ht by (intros Hne; by eapply get_port_typed).
  destruct (check_type p resp port) as [port'|m] eqn:Ec; [|by apply (asked_port _ _ _ port); [| |apply same_refl]].
  apply check_type_spec in Ec as (Ei & Er & Et).
  case_bool_decide as Hin; [apply (asked_port _ _ _ port'); [done|by rewrite Er|apply same_refl]|].
  rewrite <- eq_None_not_Some, Ei in Hin. cbn zeta.
  match goal with |- context [pushMsg ?d ?m ?y ?v ?s] => pose proof (same_push d m y v s) as S;
    assert (forall s', same_requests s s' -> asked p st s') as Hs; [|destruct (pushMsg d m y v s) as [s' [u|e]]] end.
  - intros s' Ss. refine (asked_fly p st s' (tid (get_port p st)) {| promise := promises st; timeout := rtimeout params |} _ _ Hin eq_refl _ _ Ss); cbn; [by rewrite Ei|by rewrite Er].
  - apply Hs. eapply same_trans; [exact S|apply same_process].
  - by apply Hs.
Qed.
Lemma asked_ok x p st st' : owed x st -> asked p st st' -> owed x st'.
Proof.
  intros H [S|port E Ht S|t r port ext Ht Hr E Hd S]; (eapply requests_ok_same; [exact S|]); [done|by apply ok_set_same|by eapply ok_fly].
Qed.
Lemma asked_settled p st st' : asked p st st' -> settled st' = settled st.
Proof. intros [S|port E Ht S|t r port ext Ht Hr E Hd S]; rewrite (same_settled _ _ S); [done..|]. case_match; [by rewrite settled_subscribe|done]. Qed.
Lemma asked_other p q st st' : asked p st st' -> q <> p -> reqs st' !! q = reqs st !! q.
Proof.
  intros [S|port E Ht S|t r port ext Ht Hr E Hd S] Hq; rewrite (same_reqs _ _ S); [done|cbn; by rewrite lookup_insert_ne|].
  case_match; cbn; by rewrite lookup_insert_ne.
Qed.
Lemma asked_kept p q st st' : asked p st st' -> in_flight (get_port q st) ⊆ in_flight (get_port q st').
Proof.
  intros Ha. destruct (decide (q = p)) as [->|Hq]; [|unfold get_port; by rewrite (asked_other _ _ _ _ Ha Hq)].
  destruct Ha as [S|port E Ht S|t r port ext Ht Hr E Hd S]; unfold get_port at 2; rewrite (same_reqs _ _ S); [done|cbn; by rewrite lookup_insert_eq, <- E|].
  assert (forall s, reqs s = <[p := port]> (reqs st) -> in_flight (get_port p st) ⊆ in_flight (default {| resp_dyn := None; in_flight := ∅; tid := 0 |} (reqs s !! p))) as Hs.
  { intros s ->. rewrite lookup_insert_eq. cbn. rewrite E. by apply insert_subseteq. }
  case_match; by apply Hs.
Qed.
Lemma asked_there p q st st' : asked p st st' -> is_Some (reqs st !! q) -> is_Some (reqs st' !! q).
Proof.
  intros Ha Hs. destruct (decide (q = p)) as [->|Hq]; [|by rewrite (asked_other _ _ _ _ Ha Hq)].
  destruct Ha as [S|port E Ht S|t r port ext Ht Hr E Hd S]; rewrite (same_reqs _ _ S); [done|cbn; rewrite lookup_insert_eq; eauto|].
  case_match; cbn; rewrite lookup_insert_eq; eauto.
Qed.
Lemma Request_ok x params msg deadline alive turns st : owed x st -> owed x (Request params msg deadline alive turns st).1.
Proof. intros H. by eapply asked_ok, Request_asked. Qed.
(** The requests of callbacks: what was in flight stays, nothing is settled. *)
Record grown (x : list nat) (st st' : Cy) : Prop := {
  grown_ok : owed x st';
  grown_settled : settled st' = settled st;
  grown_kept : forall q, in_flight (get_port q st) ⊆ in_flight (get_port q st');
  grown_there : forall q, is_Some (reqs st !! q) -> is_Some (reqs st' !! q)
}.
Lemma grown_refl x st : owed x st -> grown x st st. Proof. by split. Qed.
Lemma grown_on x a b c : grown x a b -> grown x b c -> grown x a c.
Proof. intros [A1 A2 A3 A4] [B1 B2 B3 B4]. split; [done|congruence|intros q; transitivity (in_flight (get_port q b)); auto|auto]. Qed.
Lemma nested_grown x n st : owed x st -> grown x st (nested_request n st).
Proof.
  intros H. unfold nested_request. pose proof (Request_asked x (n_params n) (n_msg n) (n_deadline n) (n_alive n) (n_turns n) st H) as Ha.
  split; [by eapply asked_ok|by eapply asked_settled|intros q; by eapply asked_kept|intros q; by eapply asked_there].
Qed.
Lemma reenter_response_grown x p ns : forall st st', owed x st -> reenter_response p ns st = Some st' -> grown x st st'.
Proof.
  induction ns as [|n ns IH]; intros st st' H; cbn [reenter_response]; [intros [= <-]; by apply grown_refl|].
  cbv zeta. destruct (_ && _)%bool; [done|]. intros E. pose proof (nested_grown x n st H) as Hn.
  eapply grown_on; [exact Hn|]. by eapply IH; [apply (grown_ok _ _ _ Hn)|].
Qed.
Lemma reenter_check_grown x p ns : forall st st', owed x st -> reenter_check p ns st = Some st' -> grown x st st' /\ reqs st' !! p = reqs st !! p.
Proof.
  induction ns as [|n ns IH]; intros st st' H; cbn [reenter_check]; [intros [= <-]; split; [by apply grown_refl|done]|].
  destruct (harmless p n st) eqn:Eh; [|done]. intros E. pose proof (nested_grown x n st H) as Hn.
  destruct (IH _ _ (grown_ok _ _ _ Hn) E) as [Hg Hp]. split; [by eapply grown_on|]. rewrite Hp.
  unfold harmless in Eh. unfold nested_request. destruct (Z.eqb_spec (rport (n_params n)) p) as [Er|Er].
  - unfold Request. by destruct (service_types (rtype (n_params n))) as [[?|] [?|]].
  - eapply asked_other; [by eapply Request_asked|done].
Qed.
Lemma owed_settle x pr st a : owed x st -> settles a = Some pr -> owed (pr :: x) (do a st).
Proof.
  intros [H1 H2 H3] Ha. split; [|exact H2|exact H3]. rewrite settled_do, Ha. change (flying (do a st)) with (flying st).
  change (promises (do a st)) with (promises st). rewrite <- app_assoc. cbn [app]. by rewrite <- Permutation_middle, H1.
Qed.
Lemma break_all_grown x p callbacks broken : forall st st', owed x st -> break_all p callbacks broken st = Some st' ->
  owed (rev broken ++ x) st' /\ settled st' = settled st ++ broken /\ reqs st' !! p = reqs st !! p /\
  (forall q, in_flight (get_port q st) ⊆ in_flight (get_port q st')) /\ (forall q, is_Some (reqs st !! q) -> is_Some (reqs st' !! q)).
Proof.
  revert x. induction broken as [|pr l IH]; intros x st st' H; cbn [break_all]; [intros [= <-]; by rewrite app_nil_r|].
  destruct (reenter_check p (callbacks pr) (do (Break pr) st)) as [st1|] eqn:E; [|done]. cbn. intros E'.
  destruct (reenter_check_grown _ _ _ _ _ (owed_settle x pr st (Break pr) H eq_refl) E) as [[G1 G2 G3 G4] Gp].
  destruct (IH _ _ _ G1 E') as (K1 & K2 & K3 & K4 & K5). rewrite <- app_assoc. split; [done|].
  split; [by rewrite K2, G2, settled_do, <- app_assoc|]. split; [by rewrite K3, Gp|]. split; [|auto]. intros q. transitivity (in_flight (get_port q st1)); [exact (G3 q)|auto].
Qed.
Lemma expire_typed port : resp_dyn (expire port).2 = resp_dyn port. Proof. done. Qed.
Lemma check_port_ok callbacks p st st' : requests_ok st -> check_port callbacks p st = Some st' -> requests_ok st'.
Proof.
  intros H0. unfold check_port. destruct (reqs st !! p) as [port|] eqn:E; [|by intros [= <-]].
  destruct (expire port) as [broken port'] eqn:Ex. destruct (break_all p callbacks broken st) as [st1|] eqn:Eb; [|done]. cbn. intros [= <-].
  destruct (break_all_grown _ _ _ _ _ _ H0 Eb) as (H & Hs & Hr & _ & _). rewrite app_nil_r, E in *.
  assert (get_port p st1 = port) as Eg by (unfold get_port; by rewrite Hr).
  pose proof (expire_promises port) as Hpr. rewrite Ex in Hpr. cbn [fst snd] in Hpr.
  assert (settled st1 ++ port_promises port' ++ others p st1 ≡ₚ seq 0 (promises st1)) as Hone.
  { apply (Permutation_app_inv_l (rev broken)). rewrite <- (once_port _ p st1 H), Eg, Hpr, <- (Permutation_rev broken).
    by rewrite (app_assoc broken (settled st1)), (Permutation_app_comm broken (settled st1)), <- !app_assoc. }
  assert (in_flight port' <> ∅ -> is_Some (resp_dyn port') /\ in_flight port <> ∅) as Hne.
  { replace port' with (expire port).2 by (by rewrite Ex). intros Hne. rewrite expire_typed.
    assert (in_flight port <> ∅) as Hn by (intros E0; apply Hne; cbn; by rewrite E0, map_filter_empty, fmap_empty).
    split; [|done]. by apply (ok_typed _ _ H p). }
  case_bool_decide as Em.
  - split.
    + change (settled (erase_port p (canardRxUnsubscribe p st1))) with (settled (canardRxUnsubscribe p st1)). rewrite settled_unsubscribe.
      change (flying (erase_port p (canardRxUnsubscribe p st1))) with (all_promises (delete p (reqs st1))).
      revert Hone. unfold port_promises. by rewrite Em, map_to_list_empty.
    + intros q. cbn. destruct (decide (q = p)) as [->|Hq].
      * rewrite lookup_delete_eq. split; [set_solver|by intros (? & ? & _)].
      * rewrite lookup_delete_ne by done. rewrite <- (ok_subscribed _ _ H). set_solver.
    + intros q port''. cbn. destruct (decide (q = p)) as [->|Hq]; [by rewrite lookup_delete_eq|].
      rewrite lookup_delete_ne by done. apply (ok_typed _ _ H).
  - destruct (Hne Em) as [Ht Hn]. apply (ok_update _ [] st1 _ p port' H); try done.
    cbn. rewrite (ok_subscribed _ _ H). split; [done|]. intros _. by exists port.
Qed.
Lemma check_ports_ok callbacks l : forall st st', requests_ok st -> check_ports callbacks l st = Some st' -> requests_ok st'.
Proof.
  induction l as [|p l IH]; intros st st' H; cbn [check_ports]; [by intros [= <-]|].
  destruct (check_port callbacks p st) as [st1|] eqn:E; [|done]. cbn. apply IH. by eapply check_port_ok.
Qed.
(** A response that is handled. *)
Lemma on_response_spec meta payload callbacks st st' : on_response meta payload callbacks st = Some st' -> let p := port_id meta in
  (exists e, st' = log error e st) \/
  exists port handler v st1, reqs st !! p = Some port /\ in_flight port !! transfer_id meta = Some handler /\
    reenter_response p callbacks (do (Resolve (promise handler) v) st) = Some st1 /\
    let port1 := get_port p st1 in let left := delete (transfer_id meta) (in_flight port1) in
    let st2 := set_port p {| resp_dyn := resp_dyn port1; in_flight := left; tid := tid port1 |} st1 in
    st' = if bool_decide (left = ∅) then canardRxUnsubscribe p st2 else st2.
Proof.
  unfold on_response. destruct (reqs st !! port_id meta) as [port|] eqn:E; [|done]. cbn.
  destruct (in_flight port !! transfer_id meta) as [handler|] eqn:Eh; [|done]. cbn.
  destruct (resp_dyn port) as [resp|]; [|done]. cbn. destruct (deserialize resp payload) as [v|e]; [|intros [= <-]; left; eauto].
  destruct (reenter_response _ _ _) as [st1|] eqn:Er; [|done]. cbn. intros [= <-]. right. by exists port, handler, v, st1.
Qed.
Lemma on_response_ok meta payload callbacks st st' : requests_ok st -> on_response meta payload callbacks st = Some st' -> requests_ok st'.
Proof.
  intros H0 E. set (p := port_id meta). destruct (on_response_spec _ _ _ _ _ E) as [(e & ->)|(port & handler & v & st1 & Ep & Eh & Er & ->)];
    [eapply requests_ok_same; [apply same_log|done]|]. fold p in Ep, Er |- *.
  destruct (reenter_response_grown _ _ _ _ _ (owed_settle [] (promise handler) st (Resolve (promise handler) v) H0 eq_refl) Er) as [H _ Hk _].
  assert (in_flight (get_port p st1) !! transfer_id meta = Some handler) as Eh1.
  { eapply lookup_weaken; [|apply (Hk p)]. unfold get_port. cbn. by rewrite Ep. }
  set (port1 := get_port p st1) in *. cbn zeta. set (left := delete _ _). set (port' := {| resp_dyn := resp_dyn port1; in_flight := left; tid := tid port1 |}).
  assert (settled st1 ++ port_promises port' ++ others p st1 ≡ₚ seq 0 (promises st1)) as Hone.
  { apply (Permutation_cons_inv (a := promise handler)). change (promise handler :: seq 0 (promises st1)) with ([promise handler] ++ seq 0 (promises st1)).
    rewrite <- (once_port _ p st1 H). fold port1. rewrite (promises_delete port1 port' _ _ Eh1 eq_refl). cbn. by rewrite <- Permutation_middle. }
  assert (in_flight port1 <> ∅) as Hne by (intros E0; by rewrite E0, lookup_empty in Eh1).
  assert (is_Some (resp_dyn port')) as Ht by (by eapply get_port_typed).
  destruct (decide (left = ∅)) as [Em|Em]; [rewrite (bool_decide_eq_true_2 (left = ∅)) by done|rewrite (bool_decide_eq_false_2 (left = ∅)) by done].
  - apply (ok_update _ [] st1 _ p port' H); try done.
    + intros q Hq. cbn. set_solver.
    + cbn. set_solver.
    + rewrite settled_unsubscribe. exact Hone.
  - apply (ok_update _ [] st1 _ p port' H); try done.
    cbn. rewrite (get_port_flying _ p st1 H). by fold port1.
Qed.
Lemma transfer_same node_info deadline alive turns meta sub payload callbacks st st' :
  on_transfer node_info deadline alive turns meta sub payload callbacks st = Some st' ->
  (sub = RxResponse /\ port_id meta <> GetInfo_port /\ on_response meta payload callbacks st = Some st') \/ same_requests st st'.
Proof.
  unfold on_transfer. destruct (Z.eqb_spec (port_id meta) GetInfo_port).
  - destruct sub; try done. intros E. right.
    assert (st' = match pushMsg deadline {| transfer_kind := KResponse; port_id := port_id meta; remote_node_id := remote_node_id meta; transfer_id := transfer_id meta |} node_info.1 node_info.2 st
      with (s, Raise e) => log error ("Could not receive frame: " +:+ e) s | (s, Ok _) => processTx alive turns s end) as ->
      by (by destruct (pushMsg _ _ _ _ _) as [? [?|?]]; injection E as <-).
    apply (same_reply _ _ _ _ _ _ (fun e => log error ("Could not receive frame: " +:+ e))). intros. apply same_log.
  - destruct sub; [| |by left|intros [= <-]; right; apply same_refl]; (destruct (deserialize _ payload); intros [= <-]; right; [by apply same_do|apply same_log]).
Qed.
Lemma cy_step_ok st e st' : requests_ok st -> cy_step st e = Some st' -> requests_ok st'.
Proof.
  intros H. destruct e; cbn [cy_step].
  - intros [= <-]. by apply Request_ok.
  - by apply check_ports_ok.
  - intros [(_ & _ & E)|S]%transfer_same; [by eapply on_response_ok|by eapply requests_ok_same].
  - intros [= <-]. eapply requests_ok_same; [apply same_handled|done].
  - intros [= <-]. eapply requests_ok_same; [|exact H]. unfold OnMsg. eapply same_trans; [apply same_fields|apply same_process].
  - intros [= <-]. eapply requests_ok_same; [apply same_heartbeat|done].
Qed.
Lemma requests_ok_init : requests_ok cy_init.
Proof. split; [done| |done]. intros p. cbn. split; [set_solver|by intros (? & ? & _)]. Qed.
Lemma cy_run_ok es : forall st st', requests_ok st -> cy_run es st = Some st' -> requests_ok st'.
Proof.
  induction es as [|e es IH]; intros st st' H; cbn [cy_run]; [by intros [= <-]|].
  destruct (cy_step st e) as [st1|] eqn:E; [|done]. cbn. apply IH. by eapply cy_step_ok.
Qed.
End events.

(** ** Time-outs *)
Definition in_air (st : Cy) (pr : nat) (left : Z) : Prop :=
  exists p port t, reqs st !! p = Some port /\ in_flight port !! t = Some {| promise := pr; timeout := left |}.
Definition is_check (e : CyEvent) : bool := match e with ECheck _ => true | _ => false end.
Definition checks (es : list CyEvent) : Z := Z.of_nat (length (List.filter is_check es)).
Section time_outs.
Context {YO : CyphalOps}.
(** One request in flight. *)
Definition entry (p t : Z) (r : RequestState) (st : Cy) : Prop := in_flight (get_port p st) !! t = Some r /\ is_Some (reqs st !! p).
Lemma in_air_entry st pr T : in_air st pr T <-> exists p t, entry p t {| promise := pr; timeout := T |} st.
Proof.
  unfold in_air, entry, get_port. split.
  - intros (p & port & t & Hp & Ht). exists p, t. rewrite Hp. cbn. eauto.
  - intros (p & t & Ht & [port Hp]). exists p, port, t. rewrite Hp in *. done.
Qed.
Lemma entry_same p t r st st' : same_requests st st' -> entry p t r st -> entry p t r st'.
Proof. intros S. unfold entry, get_port. by rewrite (same_reqs _ _ S). Qed.
Lemma entry_kept p t r st st' : in_flight (get_port p st) ⊆ in_flight (get_port p st') -> (is_Some (reqs st !! p) -> is_Some (reqs st' !! p)) ->
  entry p t r st -> entry p t r st'.
Proof. intros Hk Ht [H1 H2]. split; [by eapply lookup_weaken|auto]. Qed.
Lemma check_port_settled callbacks p st st' : requests_ok st -> check_port callbacks p st = Some st' ->
  settled st' = settled st ++ match reqs st !! p with Some port => (expire port).1 | None => [] end.
Proof.
  intros H. unfold check_port. destruct (reqs st !! p) as [port|]; [|intros [= <-]; by rewrite app_nil_r]. destruct (expire port) as [broken port'].
  destruct (break_all p callbacks broken st) as [st1|] eqn:Eb; [|done]. cbn. intros [= <-].
  destruct (break_all_grown _ _ _ _ _ _ H Eb) as (_ & Hs & _). case_bool_decide; [|exact Hs].
  change (settled (erase_port p (canardRxUnsubscribe p st1))) with (settled (canardRxUnsubscribe p st1)). by rewrite settled_unsubscribe.
Qed.
Lemma check_port_other callbacks p q t r st st' : requests_ok st -> check_port callbacks p st = Some st' -> q <> p -> entry q t r st -> entry q t r st'.
Proof.
  intros H. unfold check_port. destruct (reqs st !! p) as [port|]; [|by intros [= <-]]. destruct (expire port) as [broken port'].
  destruct (break_all p callbacks broken st) as [st1|] eqn:Eb; [|done]. cbn. intros [= <-] Hq He.
  destruct (break_all_grown _ _ _ _ _ _ H Eb) as (_ & _ & _ & Hk & Ht).
  assert (entry q t r st1) as [E1 E2] by (by eapply entry_kept; [apply Hk|apply Ht|]).
  unfold entry, get_port in *. case_bool_decide; cbn; rewrite ?lookup_delete_ne, ?lookup_insert_ne by done; by split.
Qed.
(** A check breaks a request that has less than 500 ms left, and takes 500 ms off the others. *)
Lemma check_own callbacks p t pr T st st' : requests_ok st -> check_port callbacks p st = Some st' -> entry p t {| promise := pr; timeout := T |} st ->
  (T < 500 /\ pr ∈ settled st') \/ (500 <= T /\ entry p t {| promise := pr; timeout := T - 500 |} st').
Proof.
  intros H E [Ht [port Hp]]. pose proof (check_port_settled _ _ _ _ H E) as Hs. unfold get_port in Ht. rewrite Hp in Ht, Hs. cbn in Ht.
  destruct (Z.lt_ge_cases T 500) as [Hlt|Hge]; [left|right]; (split; [lia|]).
  - rewrite Hs. apply elem_of_app. right. unfold expire. cbn [fst]. apply list_elem_of_In, in_map_iff.
    exists (t, {| promise := pr; timeout := T |}). split; [done|]. apply filter_In. split; [|cbn; lia].
    apply list_elem_of_In, elem_of_map_to_list. done.
  - assert (in_flight (expire port).2 !! t = Some {| promise := pr; timeout := T - 500 |}) as Ex.
    { cbn. rewrite lookup_fmap, (map_lookup_filter_Some_2 _ _ t {| promise := pr; timeout := T |}); done. }
    unfold check_port in E. rewrite Hp in E. destruct (expire port) as [broken port']. cbn [snd] in Ex.
    destruct (break_all p callbacks broken st) as [st1|]; [|done]. cbn in E. injection E as <-.
    case_bool_decide as Em; [by rewrite Em, lookup_empty in Ex|]. unfold entry, get_port. cbn. rewrite lookup_insert_eq. split; [done|eauto].
Qed.
Lemma check_ports_settled callbacks l : forall st st' pr, requests_ok st -> check_ports callbacks l st = Some st' -> pr ∈ settled st -> pr ∈ settled st'.
Proof.
  induction l as [|p l IH]; intros st st' pr H; cbn [check_ports]; [by intros [= <-]|].
  destruct (check_port callbacks p st) as [st1|] eqn:E; [|done]. cbn. intros E' Hin.
  apply (IH st1); [by eapply check_port_ok|done|]. rewrite (check_port_settled _ _ _ _ H E). apply elem_of_app. by left.
Qed.
Lemma check_ports_other callbacks l q t r : forall st st', requests_ok st -> check_ports callbacks l st = Some st' -> q ∉ l -> entry q t r st -> entry q t r st'.
Proof.
  induction l as [|p l IH]; intros st st' H; cbn [check_ports]; [by intros [= <-]|].
  destruct (check_port callbacks p st) as [st1|] eqn:E; [|done]. cbn. intros E' [Hne Hn]%not_elem_of_cons He.
  apply (IH st1); [by eapply check_port_ok|done|done|by eapply check_port_other].
Qed.
Lemma check_track callbacks st st' pr T : requests_ok st -> checkReqTimeouts callbacks st = Some st' -> in_air st pr T ->
  pr ∈ settled st' \/ (in_air st' pr (T - 500) /\ 500 <= T).
Proof.
  intros H E (p & t & He)%in_air_entry. unfold checkReqTimeouts in E.
  assert (p ∈ (map_to_list (reqs st)).*1) as Hin.
  { destruct (proj2 He) as [port Hp]. apply (list_elem_of_fmap_2' fst _ (p, port)); [by apply elem_of_map_to_list|done]. }
  pose proof (NoDup_fst_map_to_list (reqs st)) as Hnd. revert Hin Hnd E. generalize ((map_to_list (reqs st)).*1) as l.
  intros l. revert st H He. induction l as [|q l IH]; intros st H He; [by intros ?%elem_of_nil|].
  intros Hin [Hq Hnd]%NoDup_cons. cbn [check_ports]. destruct (check_port callbacks q st) as [st1|] eqn:E; [|done]. cbn. intros E'.
  pose proof (check_port_ok _ _ _ _ H E) as H1. destruct (decide (q = p)) as [->|Hne].
  - destruct (check_own _ _ _ _ _ _ _ H E He) as [[_ Hs]|[Hge He']]; [left; by eapply check_ports_settled|].
    right. split; [|done]. apply in_air_entry. exists p, t. by eapply check_ports_other.
  - apply (IH st1); [done|by apply (check_port_other callbacks q p t _ st st1)|set_solver|done|done].
Qed.
Lemma response_track meta payload callbacks st st' pr T : requests_ok st -> on_response meta payload callbacks st = Some st' ->
  (pr ∈ settled st -> pr ∈ settled st') /\ (in_air st pr T -> pr ∈ settled st' \/ in_air st' pr T).
Proof.
  intros H E. set (p := port_id meta). destruct (on_response_spec _ _ _ _ _ E) as [(e & ->)|(port & handler & v & st1 & Ep & Eh & Er & ->)].
  { split; [by rewrite (same_settled _ _ (same_log _ _ _))|]. intros (q & t & He)%in_air_entry. right. apply in_air_entry. exists q, t.
    eapply entry_same; [apply same_log|done]. }
  fold p in Ep, Er |- *.
  destruct (reenter_response_grown _ _ _ _ _ (owed_settle [] (promise handler) st (Resolve (promise handler) v) H eq_refl) Er) as [_ Hs Hk Ht].
  rewrite settled_do in Hs. cbn [settles] in Hs. cbn zeta. set (port1 := get_port p st1) in *. set (left := delete _ _). set (st2 := set_port p _ st1).
  assert (settled (if bool_decide (left = ∅) then canardRxUnsubscribe p st2 else st2) = settled st ++ [promise handler]) as ->.
  { destruct (bool_decide (left = ∅)); rewrite ?settled_unsubscribe; exact Hs. }
  split; [intros ?; apply elem_of_app; by left|]. intros (q & t & He)%in_air_entry.
  assert (entry q t {| promise := pr; timeout := T |} st1) as He1.
  { eapply entry_kept; [exact (Hk q)|exact (Ht q)|exact He]. }
  assert (pr ∈ settled st ++ [promise handler] \/ entry q t {| promise := pr; timeout := T |} st2) as [?|Hd]; [|by left|].
  { destruct (decide (q = p)) as [->|Hq].
    - destruct (decide (t = transfer_id meta)) as [->|Hnt].
      + left. destruct He as [He _]. unfold get_port in He. rewrite Ep in He. cbn in He. rewrite Eh in He. injection He as ->. cbn. set_solver.
      + right. unfold entry, get_port. cbn. rewrite lookup_insert_eq. cbn. split; [|eauto]. unfold left. rewrite lookup_delete_ne by done. apply He1.
    - right. unfold entry, get_port in *. cbn. by rewrite lookup_insert_ne. }
  right. apply in_air_entry. exists q, t. by destruct (bool_decide (left = ∅)).
Qed.
Lemma request_track params msg deadline alive turns st pr T : requests_ok st -> let st' := (Request params msg deadline alive turns st).1 in
  settled st' = settled st /\ (in_air st pr T -> in_air st' pr T).
Proof.
  intros H st'. pose proof (Request_asked _ params msg deadline alive turns st H) as Ha. split; [by eapply asked_settled|].
  intros (q & t & He)%in_air_entry. apply in_air_entry. exists q, t. eapply entry_kept; [by eapply asked_kept|by eapply asked_there|done].
Qed.
Lemma same_track st st' pr T : same_requests st st' -> (pr ∈ settled st -> pr ∈ settled st') /\ (in_air st pr T -> in_air st' pr T).
Proof.
  intros S. split; [by rewrite (same_settled _ _ S)|]. intros (q & t & He)%in_air_entry. apply in_air_entry. exists q, t. by eapply entry_same.
Qed.
Lemma step_track e st st' pr T : requests_ok st -> cy_step st e = Some st' ->
  (pr ∈ settled st -> pr ∈ settled st') /\
  (in_air st pr T -> pr ∈ settled st' \/ (in_air st' pr (if is_check e then T - 500 else T) /\ (is_check e = true -> 500 <= T))).
Proof.
  intros H. destruct e; cbn [cy_step is_check].
  - intros [= <-]. destruct (request_track params msg deadline alive turns st pr T H) as [-> Ha]. split; [done|]. intros ?%Ha. by right.
  - intros E. split; [by eapply check_ports_settled|]. intros Ha. destruct (check_track _ _ _ _ _ H E Ha) as [?|[? ?]]; [by left|by right].
  - intros [(_ & _ & E)|S]%transfer_same.
    + destruct (response_track _ _ _ _ _ pr T H E) as [H1 H2]. split; [done|]. intros [?|?]%H2; [by left|by right].
    + destruct (same_track _ _ pr T S) as [H1 H2]. split; [done|]. intros ?%H2. by right.
  - intros [= <-]. destruct (same_track _ _ pr T (same_handled type_name resp deadline alive turns meta result st)) as [H1 H2]. split; [done|]. intros ?%H2. by right.
  - intros [= <-]. assert (same_requests st (OnMsg pubs deadline map alive turns st)) as S
      by (unfold OnMsg; eapply same_trans; [apply same_fields|apply same_process]).
    destruct (same_track _ _ pr T S) as [H1 H2]. split; [done|]. intros ?%H2. by right.
  - intros [= <-]. destruct (same_track _ _ pr T (same_heartbeat start now_s deadline alive turns st)) as [H1 H2]. split; [done|]. intros ?%H2. by right.
Qed.
Lemma run_settled es : forall st st' pr, requests_ok st -> cy_run es st = Some st' -> pr ∈ settled st -> pr ∈ settled st'.
Proof.
  induction es as [|e es IH]; intros st st' pr H; cbn [cy_run]; [by intros [= <-]|].
  destruct (cy_step st e) as [st1|] eqn:E; [|done]. cbn. intros E' Hin. apply (IH st1); [by eapply cy_step_ok|done|].
  by apply (proj1 (step_track e st st1 pr 0 H E)).
Qed.
Lemma run_track es : forall st st' pr T, requests_ok st -> cy_run es st = Some st' -> in_air st pr T -> 0 <= T ->
  pr ∈ settled st' \/ (in_air st' pr (T - 500 * checks es) /\ 500 * checks es <= T).
Proof.
  induction es as [|e es IH]; intros st st' pr T H; cbn [cy_run]; [intros [= <-] Ha HT; right; cbn; rewrite Z.sub_0_r; by split|].
  destruct (cy_step st e) as [st1|] eqn:E; [|done]. cbn. intros E' Ha HT. pose proof (cy_step_ok st e st1 H E) as H1.
  destruct (proj2 (step_track e st st1 pr T H E) Ha) as [Hs|[Ha' Hc]]; [left; by eapply run_settled|].
  assert (checks (e :: es) = (if is_check e then 1 else 0) + checks es) as Ec by (unfold checks; cbn; destruct (is_check e); cbn; lia).
  destruct (IH _ _ _ _ H1 E' Ha') as [?|[Ha'' Hle]]; [destruct (is_check e); lia|by left|right].
  rewrite Ec. destruct (is_check e); [specialize (Hc eq_refl)|]; (split; [|lia]).
  - by replace (T - 500 * (1 + checks es)) with (T - 500 - 500 * checks es) by lia.
  - by replace (0 + checks es) with (checks es) by lia.
Qed.
End time_outs.

(** ** When the behaviour is defined *)
Section defined.
Context {YO : CyphalOps}.
(** Callbacks leave the tables under the code that settles alone. *)
Definition calm (e : CyEvent) : Prop :=
  match e with
  | ECheck callbacks => forall pr, callbacks pr = []
  | ETransfer _ _ _ _ _ _ _ callbacks => Forall (fun n => rehash n = false) callbacks
  | _ => True
  end.
(** What is received that the code does not reckon with. *)
Definition unexpected (st : Cy) (e : CyEvent) : Prop :=
  match e with
  | ETransfer _ _ _ _ meta sub _ _ =>
      if port_id meta =? GetInfo_port then sub <> RxGetInfo
      else sub = RxResponse /\ in_flight (get_port (port_id meta) st) !! transfer_id meta = None
  | _ => False
  end.
Lemma quiet_breaks p callbacks l : (forall pr, callbacks pr = []) -> forall st, is_Some (break_all p callbacks l st).
Proof.
  intros Hc. induction l as [|pr l IH]; intros st; cbn [break_all]; [by eexists|]. rewrite Hc. cbn. apply IH.
Qed.
Lemma quiet_checks callbacks l : (forall pr, callbacks pr = []) -> forall st, is_Some (check_ports callbacks l st).
Proof.
  intros Hc. induction l as [|p l IH]; intros st; cbn [check_ports]; [by eexists|]. unfold check_port.
  destruct (reqs st !! p) as [port|]; [|apply IH]. destruct (expire port) as [broken port'].
  destruct (quiet_breaks p callbacks broken Hc st) as [st1 ->]. apply IH.
Qed.
Lemma quiet_response p ns : Forall (fun n => rehash n = false) ns -> forall st, is_Some (reenter_response p ns st).
Proof. induction 1 as [|n ns Hn _ IH]; intros st; cbn [reenter_response]; [by eexists|]. rewrite Hn. cbn. apply IH. Qed.
Lemma calm_step st e : requests_ok st -> calm e -> (cy_step st e = None <-> unexpected st e).
Proof.
  intros H. destruct e; cbn [cy_step calm unexpected]; try (by intros _).
  - intros Hc. destruct (quiet_checks callbacks (map_to_list (reqs st)).*1 Hc st) as [st' E]. unfold checkReqTimeouts. by rewrite E.
  - intros Hc. unfold on_transfer. destruct (port_id meta =? GetInfo_port).
    { destruct sub; try done. by destruct (pushMsg _ _ _ _ _) as [? [?|?]]. }
    destruct sub; try (by split; [destruct (deserialize _ payload)|intros [? _]]).
    + set (p := port_id meta). unfold on_response. fold p. unfold get_port.
      destruct (reqs st !! p) as [port|] eqn:Ep; cbn; [|by rewrite lookup_empty].
      destruct (in_flight port !! transfer_id meta) as [handler|] eqn:Eh; cbn; [|done].
      destruct (ok_typed _ _ H p port Ep) as [resp Er]; [intros E0; by rewrite E0, lookup_empty in Eh|]. rewrite Er. cbn.
      split; [|by intros [_ ?]]. destruct (deserialize resp payload) as [v|e]; [|done].
      destruct (quiet_response p callbacks Hc (do (Resolve (promise handler) v) st)) as [st1 E]. by rewrite E.
    + by split; [|intros [? _]].
Qed.
End defined.

(** ** The transmission queue *)
Definition gone (a : CyAct) : option TxItem := match a with Written i | Dropped i _ => Some i | _ => None end.
Definition late (a : CyAct) : Prop :=
  match a with Dropped i at_usec => tx_deadline_usec i <> 0 /\ tx_deadline_usec i <= at_usec | _ => True end.
(** What is published while a frame is written only adds to the queue. *)
Definition adds (t : Turn) (l : list TxItem) : Prop := forall q, publish t q ≡ₚ l ++ q.
Section queue.
Context {YO : CyphalOps}.
Lemma pop_none ti q : item ti ∉ map item q -> canardTxPop ti q = q.
Proof.
  induction q as [|j q IH]; [done|]. cbn. intros Hn. rewrite (proj2 (Nat.eqb_neq _ _)) by set_solver. cbn.
  fold (canardTxPop ti q). rewrite IH; [done|set_solver].
Qed.
Lemma pop_one ti q : NoDup (map item q) -> ti ∈ q -> ti :: canardTxPop ti q ≡ₚ q.
Proof.
  induction q as [|j q IH]; [by intros _ ?%elem_of_nil|]. cbn. intros [Hj Hnd]%NoDup_cons [->|Hin]%elem_of_cons.
  - rewrite Nat.eqb_refl. cbn. fold (canardTxPop j q). by rewrite pop_none.
  - assert (item j <> item ti) as Hne by (intros E; apply Hj; rewrite E; by apply (list_elem_of_fmap_2 item)).
    rewrite (proj2 (Nat.eqb_neq _ _)) by done. cbn. fold (canardTxPop ti q). rewrite <- (IH Hnd Hin) at 2. constructor.
Qed.
Lemma items_submseteq l l' : l ⊆+ l' -> NoDup (map item l') -> NoDup (map item l).
Proof.
  intros [k Hk]%submseteq_Permutation Hn. change (map ?f ?l) with (f <$> l) in *. rewrite Hk, fmap_app, NoDup_app in Hn. tauto.
Qed.
Lemma loop_accounts turns : forall ls st, Forall2 adds turns ls -> NoDup (map item (tx st ++ concat ls)) ->
  exists new pub, acts (processTx_loop turns st) = acts st ++ new /\ pub ⊆+ concat ls /\
    omap gone new ++ tx (processTx_loop turns st) ≡ₚ tx st ++ pub /\ Forall late new.
Proof.
  induction turns as [|t turns IH]; intros ls st Hls Hnd.
  { exists [], []. cbn. rewrite !app_nil_r. split; [done|]. split; [apply submseteq_nil_l|]. by split. }
  inversion Hls as [|? l ? ls' Hl Hls']; subst. cbn [processTx_loop concat] in *. destruct (tx st) as [|ti q] eqn:Eq.
  { exists [], []. rewrite Eq, !app_nil_r. split; [done|]. split; [apply submseteq_nil_l|]. by split. }
  assert (NoDup (map item (ti :: q))) as Hq by (eapply items_submseteq; [|exact Hnd]; by apply submseteq_inserts_r).
  pose proof (pop_one ti (ti :: q) Hq ltac:(left)) as Hpop.
  destruct (negb (tx_deadline_usec ti =? 0) && (tx_deadline_usec ti <=? now t))%bool eqn:Ee; [|destruct (write_ok t)].
  - set (st1 := set_tx _ _). destruct (IH ls' st1 Hls') as (new & pub & Ea & Hp & Hc & Hlate).
    { eapply items_submseteq; [|exact Hnd]. cbn [tx st1 set_tx]. apply submseteq_app; [|by apply submseteq_inserts_l].
      transitivity (ti :: canardTxPop ti (ti :: q)); [by apply submseteq_cons|by rewrite Hpop]. }
    exists (Dropped ti (now t) :: new), pub. split; [rewrite Ea; cbn; by rewrite <- app_assoc|].
    split; [by apply submseteq_inserts_l|]. split; [|constructor; [cbn; split; [lia|]; lia|done]].
    cbn [omap list_omap gone app]. rewrite Hc. cbn [tx st1 set_tx]. by rewrite app_comm_cons, Hpop.
  - cbn [tx do]. rewrite Eq. set (st1 := set_tx (canardTxPop ti _) _).
    assert (ti :: tx st1 ≡ₚ l ++ ti :: q) as Htx.
    { cbn [tx st1 set_tx]. rewrite <- (Hl (ti :: q)). apply pop_one; [|rewrite (Hl (ti :: q)); apply elem_of_app; right; left].
      rewrite (Hl (ti :: q)). eapply items_submseteq; [|exact Hnd]. rewrite (Permutation_app_comm l). apply submseteq_app; [done|by apply submseteq_inserts_r]. }
    destruct (IH ls' st1 Hls') as (new & pub & Ea & Hp & Hc & Hlate).
    { eapply items_submseteq; [|exact Hnd]. transitivity (ti :: tx st1 ++ concat ls'); [by apply submseteq_cons|].
      rewrite app_comm_cons, Htx, (Permutation_app_comm l), <- app_assoc. done. }
    exists (Written ti :: new), (l ++ pub). split; [rewrite Ea; cbn; by rewrite <- app_assoc|].
    split; [by apply submseteq_app|]. split; [|by constructor].
    cbn [omap list_omap gone app]. rewrite Hc, app_comm_cons, Htx, (Permutation_app_comm l), <- app_assoc. done.
  - exists [Emitted (LogLine error "Could not write CAN frame")], l. split; [done|]. split; [by apply submseteq_inserts_r|].
    split; [|by constructor]. cbn. rewrite (Hl (ti :: q)), (Permutation_app_comm l). done.
Qed.
End queue.

(** ** A concrete instance *)
Definition tiny_dyn (n : string) : CanardMessageDynamic :=
  {| name := n; name_and_ver := n +:+ ".1.0"; dtype := CYPHAL_TYPE n "1_0" [] |}.
Definition tiny_cyphal : CyphalOps := {|
  extent _ := 1;
  serialize _ v := match v with VBytes b => Ok b | _ => Raise "bytes expected" end;
  deserialize _ b := Ok (VBytes b);
  service_types nm := if bool_decide (nm = "") then (None, None) else (Some (tiny_dyn "a.Request"), Some (tiny_dyn "a.Response"));
  canardTxPush q deadline meta b :=
    (1, q ++ [{| item := length q; tx_deadline_usec := deadline; can_id := port_id meta; frame_payload := b |}]);
  heartbeat_serialize z := [z] |}.
Definition sample_request : RequestParams := {| rtype := "a"; server := 9; rport := 100; rtimeout := 1200 |}.
Definition sample_event : CyEvent := ERequest sample_request (VBytes [7]) 0 true [].
Definition sample_answer (callbacks : list Nested) : CyEvent :=
  ETransfer (tiny_dyn "i", VInvalid) 0 true [] {| transfer_kind := KResponse; port_id := 100; remote_node_id := 9; transfer_id := 0 |} RxResponse [5] callbacks.
(** A callback that asks again. *)
Definition sample_nested : Nested := {| n_params := sample_request; n_msg := VBytes [8]; n_deadline := 0; n_alive := true; n_turns := []; rehash := false |}.
Definition sample_item (n : nat) : TxItem := {| item := n; tx_deadline_usec := 50; can_id := 1; frame_payload := [] |}.

(** * Properties *)

(** C22: along every sequence of events - requests, responses, checks, services,
    messages, heartbeats, and the requests that callbacks of settled promises make
    before the settling code goes on - for as long as the behaviour is defined: each
    request made is in flight or has been settled, once and not both; and a port has a
    response subscription exactly while a request on it is in flight.  The behaviour
    stays defined as long as every response has a request waiting under its transfer
    identifier, the port of GetInfo receives nothing but requests, no callback of a
    response makes the table of its port rehash, and no callback of a check makes
    requests; the first two are also needed: an unmatched response and a GetInfo
    response are undefined behaviour in every state. *)
Theorem requests_settled_once (YO : CyphalOps) (es : list CyEvent) (st : Cy) : cy_run es cy_init = Some st ->
  settled st ++ flying st ≡ₚ seq 0 (promises st) /\
  (forall p, p ∈ subscribed st <-> exists port, reqs st !! p = Some port /\ in_flight port <> ∅) /\
  (forall e, calm e -> (cy_step st e = None <-> unexpected st e)).
Proof.
  intros E. pose proof (cy_run_ok es cy_init st requests_ok_init E) as H. destruct H as [H1 H2 H3]. split; [done|]. split; [done|].
  intros e. apply calm_step. by split.
Qed.
Lemma requests_settled_once_witness :
  let YO := tiny_cyphal in
  exists st, cy_run [sample_event; sample_answer [sample_nested]; ECheck (fun _ => [])] cy_init = Some st /\ settled st ++ flying st ≡ₚ [0; 1]%nat /\
    cy_step st (sample_answer []) = None.
Proof.
  intros YO. eexists. split; [vm_compute; reflexivity|].
  destruct (requests_settled_once tiny_cyphal [sample_event; sample_answer [sample_nested]; ECheck (fun _ => [])] _ ltac:(vm_compute; reflexivity)) as (H & _ & U).
  split; [exact H|]. apply U; [constructor|]. vm_compute. done.
Defined.

(** No request stays open: one with a time-out of T milliseconds is settled -
    answered or broken - by the time T / 500 + 1 checks have run, whatever else
    happens in between. *)
Theorem requests_time_out (YO : CyphalOps) (es es' : list CyEvent) (st st' : Cy) (pr : nat) (T : Z) :
  cy_run es cy_init = Some st -> cy_run es' st = Some st' ->
  in_air st pr T -> 0 <= T -> T < 500 * checks es' -> pr ∈ settled st'.
Proof.
  intros E E' Ha HT Hc. destruct (run_track es' st st' pr T (cy_run_ok es cy_init st requests_ok_init E) E' Ha HT) as [?|[_ ?]]; [done|lia].
Qed.
Lemma requests_time_out_witness :
  let YO := tiny_cyphal in
  exists st', cy_run [ECheck (fun _ => []); sample_event; ECheck (fun _ => []); ECheck (fun _ => [])] (Request sample_request (VBytes [7]) 0 true [] cy_init).1 = Some st' /\
    0%nat ∈ settled st'.
Proof.
  intros YO. eexists. split; [vm_compute; reflexivity|].
  apply (requests_time_out tiny_cyphal [sample_event] [ECheck (fun _ => []); sample_event; ECheck (fun _ => []); ECheck (fun _ => [])]
    (Request sample_request (VBytes [7]) 0 true [] cy_init).1 _ 0 1200); [reflexivity|vm_compute; reflexivity| |done|reflexivity].
  eexists 100, _, 0. split; reflexivity.
Defined.

(** A response settles its request.  The transport carries five bits of the
    transfer identifier: the answer to one of the first 32 requests of a port gives
    its promise the decoded value; the answer to a later one, whose identifier is
    not in flight in its five-bit form, leads to undefined behaviour. *)
Theorem response_settles (YO : CyphalOps) (params : RequestParams) (msg v : QVar) (deadline deadline' : Z) (alive alive' : bool)
    (turns turns' : list Turn) (st : Cy) (pr : nat) (info_ : CanardMessageDynamic * QVar) (payload : list Z) (remote : Z) :
  rport params <> GetInfo_port -> let t := tid (get_port (rport params) st) in 0 <= t ->
  (Request params msg deadline alive turns st).2 = Ok pr ->
  (forall resp, (service_types (rtype params)).2 = Some resp -> deserialize resp payload = Ok v) ->
  let st1 := (Request params msg deadline alive turns st).1 in
  let answer := {| transfer_kind := KResponse; port_id := rport params; remote_node_id := remote; transfer_id := t mod 32 |} in
  let st2 := on_transfer info_ deadline' alive' turns' answer RxResponse payload [] st1 in
  if t <? 32 then exists st', st2 = Some st' /\ Resolve pr v ∈ acts st'
  else in_flight (get_port (rport params) st1) !! (t mod 32) = None -> st2 = None.
Proof.
  intros Hport t Ht0 Hr Hd st1 answer st2.
  assert (exists port resp, reqs st1 !! rport params = Some port /\ in_flight port !! t = Some {| promise := pr; timeout := rtimeout params |} /\
    resp_dyn port = Some resp /\ (service_types (rtype params)).2 = Some resp) as (port & resp & Hp & Hf & Hrd & Hs).
  { unfold st1. unfold Request in *. destruct (service_types (rtype params)) as [[req|] [resp|]]; try done. cbn zeta in *.
    destruct (check_type _ _ _) as [port'|m] eqn:Ec; [|done]. apply check_type_spec in Ec as (Ei & Er & Et).
    case_bool_decide; [done|].
    match goal with |- context [pushMsg ?d ?m ?y ?v ?s] => pose proof (same_push d m y v s) as S;
      assert (reqs s !! rport params = Some {| resp_dyn := resp_dyn port'; in_flight := <[t := {| promise := promises st; timeout := rtimeout params |}]> (in_flight port'); tid := tid port' |})
        as Hs0 by (case_match; cbn; apply lookup_insert_eq); destruct (pushMsg d m y v s) as [s' [u|e]] end; [|done].
    cbn [fst snd] in *. injection Hr as <-. pose proof (same_process alive turns s') as S'.
    eexists _, resp. rewrite (same_reqs _ _ S'), (same_reqs _ _ S), Hs0. split; [done|]. cbn. rewrite lookup_insert_eq, Er. done. }
  unfold st2, on_transfer. cbn [port_id answer]. rewrite (proj2 (Z.eqb_neq _ _)) by done. unfold on_response. cbn [port_id answer transfer_id]. rewrite Hp. cbn.
  destruct (Z.ltb_spec t 32) as [Hlt|Hge].
  - rewrite Z.mod_small by lia. rewrite Hf. cbn. rewrite Hrd. cbn. rewrite (Hd resp Hs). cbn. eexists. split; [done|]. case_bool_decide; cbn; set_solver.
  - unfold get_port. rewrite Hp. cbn [default from_option id]. by intros ->.
Qed.
Lemma response_settles_witness :
  exists st', on_transfer (YO := tiny_cyphal) (tiny_dyn "i", VInvalid) 0 true []
    {| transfer_kind := KResponse; port_id := 100; remote_node_id := 9; transfer_id := 0 |} RxResponse [5] []
    (Request (YO := tiny_cyphal) sample_request (VBytes [7]) 0 true [] cy_init).1 = Some st' /\ Resolve 0 (VBytes [5]) ∈ acts st'.
Proof.
  apply (response_settles tiny_cyphal sample_request (VBytes [7]) (VBytes [5]) 0 0 true true [] [] cy_init 0 (tiny_dyn "i", VInvalid) [5] 9);
    [discriminate|done|reflexivity|by intros].
Defined.

(** Nothing queued is lost or sent twice, even when Lua listeners publish from
    within a write: what was queued and what was added meanwhile is written, dropped
    or still queued, each once; only expired frames are dropped. *)
Theorem queued_frames_accounted (turns : list Turn) (added : list (list TxItem)) (st : Cy) :
  Forall2 adds turns added -> NoDup (map item (tx st ++ concat added)) -> in_process_tx st = false ->
  exists new pub, acts (processTx true turns st) = acts st ++ new /\ pub ⊆+ concat added /\
    omap gone new ++ tx (processTx true turns st) ≡ₚ tx st ++ pub /\ Forall late new.
Proof. intros Ha Hn Hp. unfold processTx. rewrite Hp. apply (loop_accounts turns added (set_processing true st) Ha Hn). Qed.
Lemma queued_frames_accounted_witness :
  let turns := [{| now := 0; write_ok := true; publish := fun q => sample_item 3 :: q |}; {| now := 60; write_ok := true; publish := fun q => q |}] in
  let st := set_tx [sample_item 1; sample_item 2] cy_init in
  exists new pub, acts (processTx true turns st) = acts st ++ new /\ Forall late new /\ pub ⊆+ [sample_item 3].
Proof.
  destruct (queued_frames_accounted [{| now := 0; write_ok := true; publish := fun q => sample_item 3 :: q |}; {| now := 60; write_ok := true; publish := fun q => q |}]
    [[sample_item 3]; []] (set_tx [sample_item 1; sample_item 2] cy_init)) as (new & pub & E & Hp & _ & Hl).
  - constructor; [by intros q|]. constructor; [by intros q|constructor].
  - cbn. repeat constructor; set_solver.
  - reflexivity.
  - exists new, pub. split; [exact E|]. split; [exact Hl|exact Hp].
Defined.

(** ** Departures *)
(** A request to the port of GetInfo is answered with undefined behaviour: the
    response is taken for a request of this node's information. *)
Theorem get_info_response_undefined (YO : CyphalOps) info_ deadline alive turns meta payload callbacks st :
  port_id meta = GetInfo_port -> on_transfer info_ deadline alive turns meta RxResponse payload callbacks st = None.
Proof. intros E. unfold on_transfer. by rewrite (proj2 (Z.eqb_eq _ _) E). Qed.
(** The uptime is a difference of times of the day: past midnight it wraps. *)
Theorem uptime_wraps_at_midnight : heartbeat_uptime 86399 1 = 2 ^ 32 - 86398.
Proof. reflexivity. Qed.
