(* ===== verification/CyphalSetup.v ===== *)
(** * Construction of the Cyphal worker: [src/workers/can/cyphalworker.cpp]

    The constructor reads the configuration, resolves the described types and
    fills libcanard's table of subscriptions, from which [on_frame] later casts
    what it finds by the kind and the port of a transfer.  The table is libcanard's
    ([TransportOps], with the documented behaviour of [canardRxSubscribe] in
    [TransportLaws]), and so are the acceptance filters. *)
From S2P Require Import Prelude QVariant Utils Worker CyphalTypes Cyphal.
Set Warnings "-register-all".

(** ** Configuration *)
Record CyphalTopic := { type : string; port : Z }.
Record LocalCyphalService := { stype : string; sport : Z; shandler : nat }.
(** [node_info] is what [Dump] makes of the member; [can_worker], whether the
    object given as [can] is a CAN worker. *)
Record CyphalConfig := {
  can_worker : bool;
  node_id : Z;
  heartbeat_period : Z;
  tx_cap : Z;
  subscribe : list (string * CyphalTopic);
  publish : list (string * CyphalTopic);
  node_info : QVar;
  services : list LocalCyphalService
}.
Definition Filter : Type := Z * Z.               (* extended_can_id, extended_mask *)

Class TransportOps := {
  Instance : Type;
  canardInit : Z -> Instance;
  canardRxSubscribe : Instance -> TransferKind -> Z -> Z -> RxSub -> Z * Instance;
  rx_find : Instance -> TransferKind -> Z -> option RxSub;   (* what canardRxAccept finds *)
  canardMakeFilterForSubject : Z -> Filter;
  canardMakeFilterForServices : Z -> Filter;
  GetInfo_Request_extent : Z                     (* of the generated header *)
}.
(** Documented: 1 when the subscription is new, 0 when it replaced another one. *)
Class TransportLaws (TO : TransportOps) : Prop := {
  rx_find_init n k p : rx_find (canardInit n) k p = None;
  rx_subscribe_result i k p e s : (canardRxSubscribe i k p e s).1 = match rx_find i k p with None => 1 | Some _ => 0 end;
  rx_find_subscribe i k p e s k' p' : rx_find (canardRxSubscribe i k p e s).2 k' p' =
    if bool_decide (k' = k /\ p' = p) then Some s else rx_find i k' p'
}.

(** ** The constructor *)
Record Service := { type_name : string; req_dyn : CanardMessageDynamic; srv_resp_dyn : CanardMessageDynamic; handler : nat }.
Record Setup {TO : TransportOps} := {
  canard : Instance;
  tx_capacity : Z;
  mtu : Z;
  heartbeat_every : Z;
  check_every : Z;
  pubs : list (string * PubMeta);
  srvs : list Service;
  advertised : option (list string);
  get_info : option CanardMessageDynamic * QVar;
  filters : list Filter
}.
Arguments Setup _ : clear implicits.

Section constructor.
Context {YO : CyphalOps} {TO : TransportOps}.
Variable g : CyphalGlobal.

Definition CANARD_MTU_CAN_FD : Z := 64.
Definition CANARD_MTU_CAN_CLASSIC : Z := 8.

Fixpoint resolve_pubs (l : list (string * CyphalTopic)) (pubs : list (string * PubMeta)) : res (list (string * PubMeta)) :=
  match l with
  | [] => Ok pubs
  | (name, topic) :: l =>
      match lookup_canard_type g (type topic) with
      | None => Raise (((("Pub " +:+ name) +:+ ": Canard type '") +:+ type topic) +:+ "' not recognized")
      | Some d => resolve_pubs l (qm_insert name {| dyn := d; pub_port := port topic |} pubs)
      end
  end.
Definition not_subscribed (ty : string) (p : Z) : string :=
  ((("Could not subscribe to msgs of type(" +:+ ty) +:+ ") on port:") +:+ to_string p).
Fixpoint subscribe_topics (l : list (string * CyphalTopic)) (i : Instance) (filters : list Filter) : res (Instance * list Filter) :=
  match l with
  | [] => Ok (i, filters)
  | (name, topic) :: l =>
      match lookup_canard_type g (type topic) with
      | None => Raise (((("Sub " +:+ name) +:+ ": Canard type '") +:+ type topic) +:+ "' not recognized")
      | Some d =>
          let '(ok, i) := canardRxSubscribe i KMessage (port topic) (extent d) (RxTopic name d) in
          if ok =? 0 then Raise (not_subscribed (type topic) (port topic))
          else subscribe_topics l i (filters ++ [canardMakeFilterForSubject (port topic)])
      end
  end.
Fixpoint start_services (l : list LocalCyphalService) (i : Instance) (srvs : list Service) : res (Instance * list Service) :=
  match l with
  | [] => Ok (i, srvs)
  | s :: l =>
      match lookup_service_types g (stype s) with
      | (Some req, Some resp) =>
          let srv := {| type_name := stype s; req_dyn := req; srv_resp_dyn := resp; handler := shandler s |} in
          let '(ok, i) := canardRxSubscribe i KRequest (sport s) (extent req) (RxService (shandler s) req) in
          if ok =? 0 then Raise (not_subscribed (stype s) (sport s))
          else start_services l i (srvs ++ [srv])
      | _ => Raise (("Service: Canard service type '" +:+ stype s) +:+ "' not recognized")
      end
  end.
(** [None]: the object given is not a CAN worker, and the null pointer that
    [qobject_cast] gives is dereferenced. *)
Definition CyphalWorker_new (conf : CyphalConfig) (is_fd tags : bool) (device_filters : list Filter) : option (res (Setup TO)) :=
  if CANARD_NODE_ID_MAX <? node_id conf then
    Some (Raise (((("Node id is too big: " +:+ to_string (node_id conf)) +:+ " (max: ") +:+ to_string CANARD_NODE_ID_MAX) +:+ ")"))
  else if can_worker conf then Some (
    let* pubs := resolve_pubs (publish conf) [] in
    let* (i, filters) := subscribe_topics (subscribe conf) (canardInit (node_id conf)) device_filters in
    let* (i, srvs) := start_services (services conf) i [] in
    let '(_, i) := canardRxSubscribe i KRequest GetInfo_port GetInfo_Request_extent RxGetInfo in
    Ok {| canard := i; tx_capacity := tx_cap conf;
          mtu := if is_fd then CANARD_MTU_CAN_FD else CANARD_MTU_CAN_CLASSIC;
          heartbeat_every := heartbeat_period conf; check_every := 500;
          pubs := pubs; srvs := srvs;
          advertised := if tags then Some (map fst (subscribe conf)) else None;
          get_info := (lookup_canard_type g "uavcan.node.GetInfo.Response.1.0", node_info conf);
          filters := filters ++ [canardMakeFilterForServices (node_id conf)] |})
  else None.
End constructor.

(** ** What the configuration asks for *)
Section routes.
Context {YO : CyphalOps}.
Variable g : CyphalGlobal.
(** A subscription to add: its port, its extent and what it stands for. *)
Abbreviation Entry := (Z * Z * RxSub)%type.
Definition topic_entry (nt : string * CyphalTopic) : option Entry :=
  (fun d => (port nt.2, extent d, RxTopic nt.1 d)) <$> lookup_canard_type g (type nt.2).
Definition service_entry (s : LocalCyphalService) : option Entry :=
  match lookup_service_types g (stype s) with
  | (Some req, Some _) => Some (sport s, extent req, RxService (shandler s) req)
  | _ => None
  end.
Definition find_port (p : Z) (l : list Entry) : option RxSub :=
  snd <$> List.find (fun e => e.1.1 =? p) l.
(** What a transfer of a kind on a port is for. *)
Definition routes (conf : CyphalConfig) (k : TransferKind) (p : Z) : option RxSub :=
  match k with
  | KMessage => find_port p (omap topic_entry (subscribe conf))
  | KRequest => if p =? GetInfo_port then Some RxGetInfo else find_port p (omap service_entry (services conf))
  | KResponse => None
  end.
Definition known (ty : string) : bool := bool_decide (is_Some (lookup_canard_type g ty)).
Definition config_ok (conf : CyphalConfig) : bool :=
  (negb (CANARD_NODE_ID_MAX <? node_id conf) &&
   forallb (fun nt => known (type nt.2)) (publish conf) &&
   forallb (fun nt => known (type nt.2)) (subscribe conf) &&
   bool_decide (NoDup (map (fun nt => port nt.2) (subscribe conf))) &&
   forallb (fun s => bool_decide (is_Some (service_entry s))) (services conf) &&
   bool_decide (NoDup (map sport (services conf))))%bool.
End routes.

(** ** Lemmas: adding subscriptions *)
Section adding.
Context {YO : CyphalOps} {TO : TransportOps} {TL : TransportLaws TO}.
Variable g : CyphalGlobal.
Fixpoint add_all (k : TransferKind) (l : list (Z * Z * RxSub)) (i : Instance) : option Instance :=
  match l with
  | [] => Some i
  | (p, e, s) :: l =>
      let '(ok, i) := canardRxSubscribe i k p e s in if ok =? 0 then None else add_all k l i
  end.
Abbreviation port_of := (fun e : Z * Z * RxSub => e.1.1).
Lemma find_port_none p l : p ∉ map port_of l -> find_port p l = None.
Proof.
  unfold find_port. induction l as [|e l IH]; [done|]. cbn. intros [Hp Hl]%not_elem_of_cons.
  destruct (Z.eqb_spec e.1.1 p); [congruence|by apply IH].
Qed.
Lemma add_all_fresh k l : forall i, is_Some (add_all k l i) <-> NoDup (map port_of l) /\
  Forall (fun p => rx_find i k p = None) (map port_of l).
Proof.
  induction l as [|[[p e] s] l IH]; intros i; cbn [add_all map fst].
  { split; [repeat constructor|by eexists]. }
  pose proof (rx_subscribe_result i k p e s) as Hr. pose proof (rx_find_subscribe i k p e s) as Hf.
  destruct (canardRxSubscribe i k p e s) as [ok j]. cbn [fst snd] in Hr, Hf. rewrite NoDup_cons, Forall_cons.
  destruct (rx_find i k p) eqn:E; subst ok; cbn; [split; [by intros [? ?]|by intros (_ & ? & _)]|].
  rewrite IH, !Forall_forall. setoid_rewrite Hf. split.
  - intros [Hn Hl]. assert (p ∉ map port_of l) as Hp. { intros Hin. specialize (Hl p Hin). by rewrite bool_decide_eq_true_2 in Hl. }
    repeat split; try done. intros q Hq. specialize (Hl q Hq). by case_bool_decide.
  - intros ([Hp Hn] & _ & Hl). split; [done|]. intros q Hq. rewrite bool_decide_eq_false_2 by (intros [_ ->]; done). by apply Hl.
Qed.
Lemma add_all_find k l : forall i i', add_all k l i = Some i' -> forall k' p',
  rx_find i' k' p' = if bool_decide (k' = k) then match find_port p' l with Some s => Some s | None => rx_find i k' p' end
                     else rx_find i k' p'.
Proof.
  induction l as [|[[p e] s] l IH]; intros i i' H k' p'.
  { cbn in H. simplify_eq. by case_bool_decide. }
  destruct (proj1 (add_all_fresh k _ i) (mk_is_Some _ _ H)) as [[Hp _]%NoDup_cons _]. cbn [add_all] in H.
  pose proof (rx_find_subscribe i k p e s) as Hf. destruct (canardRxSubscribe i k p e s) as [ok j]. cbn [snd fst] in Hf, Hp.
  destruct (ok =? 0); [done|]. rewrite (IH _ _ H), Hf. unfold find_port at 2. cbn [List.find fst snd].
  destruct (bool_decide (k' = k)) eqn:Ek; [apply bool_decide_eq_true in Ek as ->|
    by rewrite bool_decide_eq_false_2 by (intros [-> _]; by rewrite bool_decide_eq_true_2 in Ek)].
  destruct (Z.eqb_spec p p') as [->|Hne]; [|by rewrite bool_decide_eq_false_2 by (intros [_ ->]; done)].
  by rewrite find_port_none, bool_decide_eq_true_2.
Qed.
(** The loops of the constructor are those additions. *)
Lemma topics_add l : forall i fs i' fs', subscribe_topics g l i fs = Ok (i', fs') <->
  Forall (fun nt => is_Some (topic_entry g nt)) l /\ add_all KMessage (omap (topic_entry g) l) i = Some i' /\
  fs' = fs ++ map (fun nt => canardMakeFilterForSubject (port nt.2)) l.
Proof.
  induction l as [|[n t] l IH]; intros i fs i' fs'; cbn [subscribe_topics].
  { cbn. rewrite app_nil_r. split; [intros [= -> ->]; repeat constructor|by intros (_ & [= ->] & ->)]. }
  rewrite Forall_cons. cbn [omap list_omap]. unfold topic_entry at 1 3. cbn [fst snd].
  destruct (lookup_canard_type g (type t)) as [d|]; cbn; [|split; [done|by intros ([[? ?] _] & _)]].
  destruct (canardRxSubscribe _ _ _ _ _) as [ok j]. destruct (ok =? 0); [split; [done|by intros (_ & ? & _)]|].
  rewrite IH, <- (assoc_L (++)). cbn. split; [intros (? & ? & ?)|intros ([_ ?] & ? & ?)]; eauto.
Qed.
Lemma services_add l : forall i ss i', (exists ss', start_services g l i ss = Ok (i', ss')) <->
  Forall (fun s => is_Some (service_entry g s)) l /\ add_all KRequest (omap (service_entry g) l) i = Some i'.
Proof.
  induction l as [|s l IH]; intros i ss i'; cbn [start_services].
  { cbn. split; [by intros [? [= -> ->]]|intros [_ [= ->]]; by eexists]. }
  rewrite Forall_cons. cbn [omap list_omap]. unfold service_entry at 1 3.
  destruct (lookup_service_types g (stype s)) as [[req|] [resp|]]; try (split; [by intros [? ?]|by intros ([[? ?] _] & _)]).
  cbn [add_all]. destruct (canardRxSubscribe _ _ _ _ _) as [ok j]. destruct (ok =? 0); [split; [by intros [? ?]|by intros (_ & ?)]|].
  rewrite IH. split; [intros (? & ?)|intros ([_ ?] & ?)]; eauto.
Qed.
Lemma entry_ports {A} (f : A -> option (Z * Z * RxSub)) (port : A -> Z) (l : list A) :
  (forall x e, f x = Some e -> e.1.1 = port x) -> Forall (fun x => is_Some (f x)) l -> map port_of (omap f l) = map port l.
Proof.
  intros Hf. induction 1 as [|x l [e He] _ IH]; [done|]. cbn [omap list_omap map]. rewrite He. cbn. by rewrite IH, (Hf _ _ He).
Qed.
Lemma pubs_ok l : forall ps, (exists ps', resolve_pubs g l ps = Ok ps') <-> Forall (fun nt => is_Some (lookup_canard_type g (type nt.2))) l.
Proof.
  induction l as [|[n t] l IH]; intros ps; cbn [resolve_pubs]; [split; [constructor|by eexists]|].
  rewrite Forall_cons. cbn [snd]. destruct (lookup_canard_type g (type t)) as [d|].
  - rewrite IH. split; [intros ?; split; [by eexists|done]|by intros [_ ?]].
  - split; [by intros [? ?]|by intros [[? ?] _]].
Qed.
Lemma pubs_found l n : forall ps ps', NoDup (map fst l) -> resolve_pubs g l ps = Ok ps' ->
  qm_find n ps' = match qm_find n l with
                  | Some t => (fun d => {| dyn := d; pub_port := port t |}) <$> lookup_canard_type g (type t)
                  | None => qm_find n ps
                  end.
Proof.
  induction l as [|[m t] l IH]; intros ps ps' Hn H; cbn [resolve_pubs] in H; [by simplify_eq|].
  cbn [map fst] in Hn. apply NoDup_cons in Hn as [Hm Hn].
  destruct (lookup_canard_type g (type t)) as [d|] eqn:E; [|done]. rewrite (IH _ _ Hn H). cbn [qm_find].
  case_bool_decide as Hnm; [subst m|by rewrite qm_find_insert_ne].
  rewrite qm_find_insert_eq, E. assert (qm_find n l = None) as ->; [|done].
  clear -Hm. induction l as [|[k v] l IH]; [done|]. cbn in Hm |- *. apply not_elem_of_cons in Hm as [? ?].
  rewrite bool_decide_eq_false_2 by done. by apply IH.
Qed.
Lemma topic_entry_port nt e : topic_entry g nt = Some e -> e.1.1 = port nt.2.
Proof. unfold topic_entry. by intros (? & _ & ->)%fmap_Some. Qed.
Lemma service_entry_port s e : service_entry g s = Some e -> e.1.1 = sport s.
Proof. unfold service_entry. repeat case_match; by intros [= <-]. Qed.
Lemma topic_entry_some nt : is_Some (topic_entry g nt) <-> is_Some (lookup_canard_type g (type nt.2)).
Proof. unfold topic_entry. apply fmap_is_Some. Qed.
Lemma forallb_some {A B} (f : A -> option B) l :
  forallb (fun x => bool_decide (is_Some (f x))) l = true <-> Forall (fun x => is_Some (f x)) l.
Proof. rewrite forallb_forall, List.Forall_forall. by setoid_rewrite bool_decide_eq_true. Qed.
(** Subscriptions of two kinds do not meet, and a table starts empty. *)
Lemma topics_subscribed l n i : add_all KMessage l (canardInit n) = Some i -> forall k p,
  rx_find i k p = match k with KMessage => find_port p l | _ => None end.
Proof. intros H k p. rewrite (add_all_find _ _ _ _ H), rx_find_init. destruct k; cbn; [by destruct (find_port p l)|done..]. Qed.
Lemma services_subscribed l i : (forall p, rx_find i KRequest p = None) ->
  is_Some (add_all KRequest l i) <-> NoDup (map port_of l).
Proof. intros H. rewrite add_all_fresh, Forall_forall. split; [by intros [? _]|by intros ?]. Qed.
(** The three loops together, and the configuration they accept. *)
Lemma loops_ok conf fs : (CANARD_NODE_ID_MAX <? node_id conf) = false ->
  (exists ps i fs' i' ss, resolve_pubs g (publish conf) [] = Ok ps /\
     subscribe_topics g (subscribe conf) (canardInit (node_id conf)) fs = Ok (i, fs') /\
     start_services g (services conf) i [] = Ok (i', ss)) <-> config_ok g conf = true.
Proof.
  intros Hid. unfold config_ok, known. rewrite Hid. cbn [negb andb]. rewrite !andb_true_iff, !bool_decide_eq_true.
  rewrite (forallb_some (fun nt : string * CyphalTopic => lookup_canard_type g (type nt.2)) (publish conf)),
    (forallb_some (fun nt : string * CyphalTopic => lookup_canard_type g (type nt.2)) (subscribe conf)), forallb_some. split.
  - intros (ps & i & fs' & i' & ss & Hp & (Ht & Ha & _)%topics_add & Hs).
    destruct (proj1 (services_add _ _ _ _) (ex_intro _ _ Hs)) as [Hse Hsa].
    rewrite <- (entry_ports _ _ _ topic_entry_port Ht), <- (entry_ports _ _ _ service_entry_port Hse).
    repeat split; try done; [by eapply pubs_ok; eexists|by eapply Forall_impl; [exact Ht|intros ?; by rewrite topic_entry_some]| |].
    + by eapply add_all_fresh; eexists.
    + by eapply add_all_fresh; eexists.
  - intros ((((Hp & Ht) & Hn) & Hse) & Hsn).
    assert (Forall (fun nt => is_Some (topic_entry g nt)) (subscribe conf)) as Hte.
    { eapply Forall_impl; [exact Ht|]. intros x. by rewrite topic_entry_some. }
    destruct (proj2 (pubs_ok (publish conf) []) Hp) as [ps Eps].
    destruct (proj2 (add_all_fresh KMessage (omap (topic_entry g) (subscribe conf)) (canardInit (node_id conf)))) as [i Ei].
    { rewrite (entry_ports _ _ _ topic_entry_port Hte). split; [done|]. apply Forall_forall. intros p _. apply rx_find_init. }
    destruct (proj2 (services_subscribed (omap (service_entry g) (services conf)) i
      (fun p => topics_subscribed _ _ _ Ei KRequest p))) as [i' Ei'].
    { by rewrite (entry_ports _ _ _ service_entry_port Hse). }
    destruct (proj2 (services_add (services conf) i [] i') (conj Hse Ei')) as [ss Ess].
    exists ps, i, (fs ++ map (fun nt => canardMakeFilterForSubject (port nt.2)) (subscribe conf)), i', ss.
    repeat split; try done. by apply topics_add.
Qed.
(** The table of a constructed worker. *)
Lemma setup_table conf is_fd tags fs s : CyphalWorker_new g conf is_fd tags fs = Some (Ok s) ->
  forall k p, rx_find (canard s) k p = routes g conf k p.
Proof.
  intros H. unfold CyphalWorker_new in H. destruct (CANARD_NODE_ID_MAX <? node_id conf); [done|]. destruct (can_worker conf); [|done].
  destruct (resolve_pubs _ _ _) as [ps|]; [|done]. cbn in H.
  destruct (subscribe_topics _ _ _ _) as [[i fs']|] eqn:E2; [|done]. cbn in H.
  destruct (start_services _ _ _ _) as [[i' ss]|] eqn:E3; [|done]. cbn in H.
  pose proof (rx_find_subscribe i' KRequest GetInfo_port GetInfo_Request_extent RxGetInfo) as Hf.
  destruct (canardRxSubscribe _ _ _ _ _) as [ok j]. cbn in Hf, H. injection H as <-. cbn [canard].
  apply topics_add in E2 as (_ & Ei & ->).
  destruct (proj1 (services_add _ _ _ _) (ex_intro _ _ E3)) as [_ Ei']. intros k p.
  rewrite Hf, (add_all_find _ _ _ _ Ei'), (topics_subscribed _ _ _ Ei). destruct k; cbn.
  - by rewrite bool_decide_eq_false_2 by (by intros [? _]).
  - by rewrite bool_decide_eq_false_2 by (by intros [? _]).
  - destruct (Z.eqb_spec p GetInfo_port) as [->|Hp]; [by rewrite bool_decide_eq_true_2|].
    rewrite bool_decide_eq_false_2 by (by intros [_ ?]). by destruct (find_port _ _).
Qed.
End adding.

(** ** What a received transfer leads to *)
(** The kind of transfers a subscription is made for. *)
Definition sub_kind (s : RxSub) : TransferKind :=
  match s with RxTopic _ _ => KMessage | RxService _ _ | RxGetInfo => KRequest | RxResponse => KResponse end.
Lemma find_port_in {A} (f : A -> option (Z * Z * RxSub)) (l : list A) p s :
  find_port p (omap f l) = Some s -> exists x e, f x = Some e /\ s = e.2.
Proof.
  unfold find_port. intros (e & [He _]%List.find_some & ->)%fmap_Some.
  apply list_elem_of_In, list_elem_of_omap in He as (x & _ & Hx). by eexists x, e.
Qed.
Lemma topic_routes {YO : CyphalOps} g l p s : find_port p (omap (topic_entry g) l) = Some s -> exists n d, s = RxTopic n d.
Proof.
  intros (x & e & He & ->)%find_port_in. unfold topic_entry in He. apply fmap_Some in He as (d & _ & ->). by eexists _, _.
Qed.
Lemma routes_kind {YO : CyphalOps} g conf k p s : routes g conf k p = Some s -> sub_kind s = k.
Proof.
  destruct k; cbn; [by intros (? & ? & ->)%topic_routes|done|]. case_match; [by intros [= <-]|].
  intros (x & e & He & ->)%find_port_in. unfold service_entry in He. repeat case_match; by simplify_eq.
Qed.

(** ** A concrete transport: the table of subscriptions, the last one first *)
Definition Table : Type := list (TransferKind * Z * RxSub).
Definition table_find (i : Table) (k : TransferKind) (p : Z) : option RxSub :=
  snd <$> List.find (fun e => bool_decide (k = e.1.1 /\ p = e.1.2)) i.
Definition table_transport : TransportOps := {|
  Instance := Table;
  canardInit _ := [];
  canardRxSubscribe i k p _ s := (match table_find i k p with None => 1 | Some _ => 0 end, (k, p, s) :: i);
  rx_find := table_find;
  canardMakeFilterForSubject p := (p * 256, 65280);
  canardMakeFilterForServices n := (n, 127);
  GetInfo_Request_extent := 0 |}.
#[export] Instance table_laws : TransportLaws table_transport.
Proof.
  split; try done. intros i k p e s k' p'. cbn. unfold table_find at 1. cbn.
  by case_bool_decide.
Qed.
Definition sample_types : CyphalGlobal := global_of [tiny_dyn "a.Request"; tiny_dyn "a.Response"; tiny_dyn "b"].
Definition sample_conf : CyphalConfig := {|
  can_worker := true; node_id := 7; heartbeat_period := 1000; tx_cap := 100;
  subscribe := [("in", {| type := "b"; port := 20 |}); ("info", {| type := "b"; port := 430 |})];
  publish := [("out", {| type := "b.1.0"; port := 21 |})];
  node_info := VMap [];
  services := [{| stype := "a"; sport := 20; shandler := 3 |}; {| stype := "a"; sport := 430; shandler := 4 |}] |}.
Definition sample_setup : option (res (Setup table_transport)) :=
  CyphalWorker_new (YO := tiny_cyphal) (TO := table_transport) sample_types sample_conf false true [].

(** * Properties *)

(** The constructor succeeds exactly on a CAN worker with a node id in range, known
    types, and no two topics - and no two services - on one port. *)
Theorem config_accepted (YO : CyphalOps) (TO : TransportOps) (TL : TransportLaws TO) g conf is_fd tags fs :
  (exists s, CyphalWorker_new g conf is_fd tags fs = Some (Ok s)) <-> can_worker conf = true /\ config_ok g conf = true.
Proof.
  unfold CyphalWorker_new. destruct (CANARD_NODE_ID_MAX <? node_id conf) eqn:Hid.
  { split; [by intros [? ?]|]. unfold config_ok. rewrite Hid. by intros [_ ?]. }
  rewrite <- (loops_ok g conf fs Hid). destruct (can_worker conf); [|split; [by intros [? ?]|by intros [? _]]]. split.
  - intros [s H]. split; [done|]. destruct (resolve_pubs _ _ _) as [ps|] eqn:E1; [|done]. cbn in H.
    destruct (subscribe_topics _ _ _ _) as [[i fs']|] eqn:E2; [|done]. cbn in H.
    destruct (start_services _ _ _ _) as [[i' ss]|] eqn:E3; [|done]. by eexists _, _, _, _, _.
  - intros (_ & ps & i & fs' & i' & ss & E1 & E2 & E3). rewrite E1. cbn. rewrite E2. cbn. rewrite E3. cbn.
    destruct (canardRxSubscribe _ _ _ _ _). by eexists.
Qed.

(** What a constructed worker receives, publishes and lets through: the table of
    subscriptions is the one the configuration asks for, the names published go to
    their types and ports, and the device's filters are extended, never replaced. *)
Theorem setup_routes (YO : CyphalOps) (TO : TransportOps) (TL : TransportLaws TO) g conf is_fd tags fs s :
  NoDup (map fst (publish conf)) -> CyphalWorker_new g conf is_fd tags fs = Some (Ok s) ->
  (forall k p, rx_find (canard s) k p = routes g conf k p) /\
  (forall n, qm_find n (pubs s) = match qm_find n (publish conf) with
     | Some t => (fun d => {| dyn := d; pub_port := port t |}) <$> lookup_canard_type g (type t)
     | None => None end) /\
  filters s = fs ++ map (fun nt => canardMakeFilterForSubject (port nt.2)) (subscribe conf) ++ [canardMakeFilterForServices (node_id conf)].
Proof.
  intros Hn H. split; [by eapply setup_table|]. unfold CyphalWorker_new in H.
  destruct (CANARD_NODE_ID_MAX <? node_id conf); [done|]. destruct (can_worker conf); [|done].
  destruct (resolve_pubs _ _ _) as [ps|] eqn:E1; [|done]. cbn in H.
  destruct (subscribe_topics _ _ _ _) as [[i fs']|] eqn:E2; [|done]. cbn in H.
  destruct (start_services _ _ _ _) as [[i' ss]|]; [|done]. cbn in H.
  destruct (canardRxSubscribe _ _ _ _ _) as [ok j]. injection H as <-. cbn [pubs filters].
  apply topics_add in E2 as (_ & _ & ->). split; [intros n; by rewrite (pubs_found g _ n _ _ Hn E1)|by rewrite <- (assoc_L (++))].
Qed.
Lemma setup_routes_witness :
  match sample_setup with
  | Some (Ok s) => NoDup (map fst (publish sample_conf)) /\ rx_find (canard s) KMessage 20 = Some (RxTopic "in" (tiny_dyn "b")) /\
      rx_find (canard s) KRequest 20 = Some (RxService 3 (tiny_dyn "a.Request")) /\ rx_find (canard s) KRequest 430 = Some RxGetInfo
  | _ => False
  end.
Proof.
  destruct sample_setup as [[s|]|] eqn:E; [|by vm_compute in E..].
  assert (NoDup (map fst (publish sample_conf))) as Hn by (by apply (bool_decide_unpack _); vm_compute).
  destruct (setup_routes tiny_cyphal table_transport _ sample_types sample_conf false true [] s Hn E) as (H & _ & _).
  repeat split; [done|rewrite H; by vm_compute..].
Defined.

(** A transfer that is not a response, accepted through a subscription of the
    constructor, is handled by code of its own kind: the only cast that goes wrong
    is that of a topic subscribed on the port of GetInfo. *)
Theorem received_defined (YO : CyphalOps) (TO : TransportOps) (TL : TransportLaws TO) g conf is_fd tags fs s info_
    deadline alive turns meta sub payload callbacks st :
  CyphalWorker_new g conf is_fd tags fs = Some (Ok s) ->
  rx_find (canard s) (transfer_kind meta) (port_id meta) = Some sub ->
  is_Some (on_transfer info_ deadline alive turns meta sub payload callbacks st) <-> ~ (transfer_kind meta = KMessage /\ port_id meta = GetInfo_port).
Proof.
  intros Hs Hf. rewrite (setup_table g conf is_fd tags fs s Hs) in Hf. pose proof (routes_kind _ _ _ _ _ Hf) as Hk.
  unfold on_transfer. destruct (Z.eqb_spec (port_id meta) GetInfo_port) as [E|E].
  - rewrite E in *. destruct (transfer_kind meta) eqn:Ek; [|done|].
    + apply topic_routes in Hf as (n & d & ->). split; [by intros [? ?]|by intros []].
    + cbn in Hf. injection Hf as <-. split; [by intros _ [? _]|]. intros _. destruct (pushMsg _ _ _ _ _) as [st' []]; by eexists.
  - split; [by intros _ [_ ?]|]. intros _. destruct sub; [| |by destruct (transfer_kind meta)|by eexists];
      destruct (deserialize _ _); by eexists.
Qed.
Lemma received_defined_witness :
  let meta k p := {| transfer_kind := k; port_id := p; remote_node_id := 9; transfer_id := 0 |} in
  let received k p sub := on_transfer (YO := tiny_cyphal) (tiny_dyn "info", VBytes [1]) 0 true [] (meta k p) sub [5] [] cy_init in
  is_Some (received KMessage 20 (RxTopic "in" (tiny_dyn "b"))) /\ ~ is_Some (received KMessage 430 (RxTopic "info" (tiny_dyn "b"))).
Proof.
  intros meta received. destruct sample_setup as [[s|]|] eqn:E; [|by vm_compute in E..].
  pose proof (setup_table (TO := table_transport) sample_types sample_conf false true [] s E) as Ht. split.
  - apply (received_defined tiny_cyphal table_transport _ sample_types sample_conf false true [] s); [done| |by intros [_ ?]].
    rewrite Ht. by vm_compute.
  - intros H. apply (received_defined tiny_cyphal table_transport _ sample_types sample_conf false true [] s) in H; [by apply H|done|].
    rewrite Ht. by vm_compute.
Defined.
