(* ===== verification/Msg2Struct.v ===== *)
(** * MessagePack structures of the firmware: [src/examples/demo/firmware/msg2struct.hpp]

    The header-only codec of the microcontroller side of a serial link: [InIterator]
    walks over a received frame without copying, [OutIterator] fills a fixed buffer,
    [Parse] and [Dump] turn described structures from and to MessagePack arrays.

    A frame is the bytes of its storage, the iterator an offset into it; [None] is a
    read outside of the storage.  The code runs on targets whose [size_t] has 16, 32
    or 64 bits ([size_bits]), and one expression leaves the order of two calls to the
    compiler ([type_first]).  Floating-point values are their bit patterns, the
    conversions of the hardware are [CppFloat]. *)
From S2P Require Import Prelude.
Set Warnings "-register-all".

(** ** Headers *)
Inductive Headers :=
| invalid                                        (* also never_used *)
| fixuint | fixint | fixmap | fixarray | fixstr
| nil_ | hfalse | htrue
| float32 | float64
| uint8 | uint16 | uint32 | uint64
| int8 | int16 | int32 | int64
| array16 | array32 | map16 | map32
| fixext1 | fixext2 | fixext4 | fixext8 | fixext16
| bin8 | bin16 | bin32
| ext8 | ext16 | ext32
| str8 | str16 | str32.
#[export] Instance Headers_eq : EqDecision Headers. Proof. solve_decision. Defined.

(** The table of the [switch], and the ranges of its default; [None] is [abort()]. *)
Definition header_table : list (Z * Headers) :=
  [(0xc0, nil_); (0xc1, invalid); (0xc2, hfalse); (0xc3, htrue); (0xc4, bin8); (0xc5, bin16); (0xc6, bin32);
   (0xc7, ext8); (0xc8, ext16); (0xc9, ext32); (0xca, float32); (0xcb, float64); (0xcc, uint8); (0xcd, uint16);
   (0xce, uint32); (0xcf, uint64); (0xd0, int8); (0xd1, int16); (0xd2, int32); (0xd3, int64); (0xd4, fixext1);
   (0xd5, fixext2); (0xd6, fixext4); (0xd7, fixext8); (0xd8, fixext16); (0xd9, str8); (0xda, str16); (0xdb, str32);
   (0xdc, array16); (0xdd, array32); (0xde, map16); (0xdf, map32)].
Definition header (byte : Z) : option Headers :=
  match List.find (fun e => e.1 =? byte) header_table with
  | Some e => Some e.2
  | None =>
      if ((0x00 <=? byte) && (byte <=? 0x7f))%bool then Some fixuint
      else if ((0xe0 <=? byte) && (byte <=? 0xff))%bool then Some fixint
      else if ((0x80 <=? byte) && (byte <=? 0x8f))%bool then Some fixmap
      else if ((0x90 <=? byte) && (byte <=? 0x9f))%bool then Some fixarray
      else if ((0xa0 <=? byte) && (byte <=? 0xbf))%bool then Some fixstr
      else None
  end.
Definition nonCompositeSizeof (type : Headers) : Z :=
  match type with
  | bin8 | ext8 | str8 | uint8 | int8 | fixext1 => 2
  | bin16 | ext16 | uint16 | int16 | str16 | array16 | map16 | fixext2 => 3
  | str32 | array32 | bin32 | ext32 | map32 | float32 | uint32 | int32 | fixext4 => 5
  | uint64 | int64 | float64 | fixext8 => 9
  | fixext16 => 17
  | _ => 1
  end.

(** ** Numbers *)
(** [n] bytes, the most significant first. *)
Fixpoint to_big (n : nat) (z : Z) : list Z :=
  match n with O => [] | S n => wrapu 8 (Z.shiftr z (8 * Z.of_nat n)) :: to_big n z end.
Fixpoint from_big (acc : Z) (l : list Z) : Z :=
  match l with [] => acc | b :: l => from_big (acc * 256 + b) l end.
Record IntT := { int_bytes : nat; int_signed : bool }.
#[export] Instance IntT_eq : EqDecision IntT. Proof. solve_decision. Defined.
Definition ibits (t : IntT) : Z := 8 * Z.of_nat (int_bytes t).
Definition iconv (t : IntT) (z : Z) : Z := if int_signed t then wraps (ibits t) z else wrapu (ibits t) z.
Inductive FloatT := F32 | F64.
#[export] Instance FloatT_eq : EqDecision FloatT. Proof. solve_decision. Defined.
Inductive NumT := NI (t : IntT) | NF (f : FloatT).
Definition u8 := {| int_bytes := 1; int_signed := false |}.
Definition u16 := {| int_bytes := 2; int_signed := false |}.
Definition u32 := {| int_bytes := 4; int_signed := false |}.
Definition u64 := {| int_bytes := 8; int_signed := false |}.
Definition i8 := {| int_bytes := 1; int_signed := true |}.
Definition i16 := {| int_bytes := 2; int_signed := true |}.
Definition i32 := {| int_bytes := 4; int_signed := true |}.
Definition i64 := {| int_bytes := 8; int_signed := true |}.
(** The conversions and comparisons of floating-point values. *)
Class CppFloat := {
  f_positive : FloatT -> Z -> bool;              (* value > 0 *)
  f_same : FloatT -> Z -> Z -> bool;             (* == *)
  f_conv : FloatT -> FloatT -> Z -> Z;
  f_of_int : FloatT -> Z -> Z;
  int_of_f : FloatT -> IntT -> Z -> Z
}.
Definition sizeof (t : NumT) : Z :=
  match t with NI t => Z.of_nat (int_bytes t) | NF F32 => 4 | NF F64 => 8 end.
Section numbers.
Context {CF : CppFloat}.
Definition num_conv (T U : NumT) (v : Z) : Z :=
  match T, U with
  | NI _, NI u => iconv u v
  | NI _, NF f => f_of_int f v
  | NF f, NI u => int_of_f f u v
  | NF f, NF g => if decide (f = g) then v else f_conv f g v
  end.
Definition positive_ (T : NumT) (v : Z) : bool := match T with NI _ => 0 <? v | NF f => f_positive f v end.
Definition same_num (T : NumT) (a b : Z) : bool := match T with NI _ => a =? b | NF f => f_same f a b end.
(** What [getTrivial] makes of the bytes. *)
Definition of_bytes (T : NumT) (l : list Z) : Z :=
  match T with NI t => iconv t (from_big 0 l) | NF _ => from_big 0 l end.
End numbers.

(** ** Reading *)
(** A [Binary] or [String] that points into the frame. *)
Record View := { at_ : Z; vsize : Z }.
Record InIterator := { data : Z; size : Z; type : Headers }.
(** The bytes a view shows, if they are all in the storage. *)
Definition view (mem : list Z) (v : View) : option (list Z) :=
  if ((0 <=? at_ v) && (at_ v + vsize v <=? Z.of_nat (length mem)))%bool
  then Some (take (Z.to_nat (vsize v)) (drop (Z.to_nat (at_ v)) mem)) else None.

Section reading.
Context {CF : CppFloat}.
Variable size_bits : Z.                          (* of size_t *)
Variable type_first : bool.                      (* the order of the operands in Next *)
Variable mem : list Z.

Definition byte_at (p : Z) : option Z := if 0 <=? p then mem !! Z.to_nat p else None.
Definition bytes_at (n p : Z) : option (list Z) := view mem {| at_ := p; vsize := n |}.
Definition getTrivial (T : NumT) (p : Z) : option Z := of_bytes T <$> bytes_at (sizeof T) p.
Definition InIterator_new (data size : Z) : option InIterator :=
  if size =? 0 then Some {| data := data; size := size; type := invalid |}
  else b ← byte_at data; h ← header b; Some {| data := data; size := size; type := h |}.
Definition advance (step : Z) (it : InIterator) : option InIterator :=
  if size it <=? step then Some {| data := data it; size := size it; type := invalid |}
  else
    b ← byte_at (data it + step); h ← header b;
    Some {| data := data it + step; size := size it - step; type := h |}.
(** The result is the value, [None] where the code returns false. *)
Definition getTrivialWith (T U : NumT) (it : InIterator) : option (option Z) :=
  if size it <? sizeof T + 1 then Some None
  else
    v ← getTrivial T (data it + 1);
    let out := num_conv T U v in
    if negb (eqb (positive_ U out) (positive_ T v)) then Some None
    else if ((sizeof U <? sizeof T) && negb (same_num T v (num_conv U T out)))%bool then Some None
    else Some (Some out).
Definition getComposite (S : IntT) (add : Z) (it : InIterator) : option (option View) :=
  let sz_bytes := Z.of_nat (int_bytes S) in
  if size it <? 1 + sz_bytes + add then Some None
  else
    sz ← getTrivial (NI S) (data it + 1);
    if size it <? wrapu (Z.max size_bits (ibits S)) (1 + sz_bytes + sz + add) then Some None
    else Some (Some {| at_ := data it + sz_bytes + 1 + add; vsize := wrapu size_bits (sz + add) |}).
Definition composite_view (it : InIterator) : option (option View) :=
  match type it with
  | bin32 | str32 => getComposite u32 0 it
  | bin16 | str16 => getComposite u16 0 it
  | bin8 | str8 => getComposite u8 0 it
  | ext8 => getComposite u8 1 it
  | ext16 => getComposite u16 1 it
  | ext32 => getComposite u32 1 it
  | fixstr =>
      b ← byte_at (data it);
      let len := Z.land b 31 in
      if size it <? len then Some None else Some (Some {| at_ := data it + 1; vsize := len |})
  | _ => Some None
  end.
Definition GetComposite (it : InIterator) : option (option View * InIterator) :=
  r ← composite_view it;
  match r with
  | None => Some (None, it)
  | Some v => it' ← advance (wrapu size_bits (nonCompositeSizeof (type it) + vsize v)) it; Some (Some v, it')
  end.
Definition GetBool (it : InIterator) : option (option bool * InIterator) :=
  match type it with
  | htrue => it' ← advance 1 it; Some (Some true, it')
  | hfalse => it' ← advance 1 it; Some (Some false, it')
  | _ => Some (None, it)
  end.
Definition GetNil (it : InIterator) : option (bool * InIterator) :=
  match type it with nil_ => it' ← advance 1 it; Some (true, it') | _ => Some (false, it) end.
Definition integer_value (U : NumT) (it : InIterator) : option (option Z) :=
  match type it with
  | fixuint => b ← byte_at (data it); Some (Some (num_conv (NI u8) U b))
  | fixint =>
      b ← byte_at (data it);
      let v := iconv i8 b in
      let out := num_conv (NI i8) U v in
      if negb (eqb (positive_ U out) (0 <? v)) then Some None else Some (Some out)
  | uint8 => getTrivialWith (NI u8) U it
  | uint16 => getTrivialWith (NI u16) U it
  | uint32 => getTrivialWith (NI u32) U it
  | uint64 => getTrivialWith (NI u64) U it
  | int8 => getTrivialWith (NI i8) U it
  | int16 => getTrivialWith (NI i16) U it
  | int32 => getTrivialWith (NI i32) U it
  | int64 => getTrivialWith (NI i64) U it
  | _ => Some None
  end.
(** [if (ok) advance(step)]. *)
Definition then_advance {A} (step : Z) (it : InIterator) (r : option (option A)) : option (option A * InIterator) :=
  r ← r;
  match r with
  | None => Some (None, it)
  | Some a => it' ← advance step it; Some (Some a, it')
  end.
Definition GetInteger (U : NumT) (it : InIterator) : option (option Z * InIterator) :=
  then_advance (nonCompositeSizeof (type it)) it (integer_value U it).
Definition GetFloat (U : NumT) (it : InIterator) : option (option Z * InIterator) :=
  match type it with
  | float32 => then_advance 5 it (getTrivialWith (NF F32) U it)
  | float64 => then_advance 9 it (getTrivialWith (NF F64) U it)
  | _ => GetInteger U it
  end.
(** The sizes of long arrays are read at [data], where the header is. *)
Definition GetArraySize (it : InIterator) : option (option Z * InIterator) :=
  match type it with
  | array16 => if size it <? 3 then Some (None, it) else then_advance 3 it ((fun sz => Some (wrapu size_bits sz)) <$> getTrivial (NI u16) (data it))
  | array32 => if size it <? 5 then Some (None, it) else then_advance 5 it ((fun sz => Some (wrapu size_bits sz)) <$> getTrivial (NI u32) (data it))
  | fixarray => if size it =? 0 then Some (None, it) else then_advance 1 it ((fun b => Some (Z.land b 15)) <$> byte_at (data it))
  | _ => Some (None, it)
  end.
Definition IsValid (it : InIterator) : bool := negb (bool_decide (type it = invalid)).
(** [nonCompositeSizeof(type) + GetComposite().size]: the second operand changes
    [type]. *)
Definition Next (it : InIterator) : option (bool * InIterator) :=
  if IsValid it then
    r ← GetComposite it;
    let '(v, it') := r in
    let own := nonCompositeSizeof (type (if type_first then it else it')) in
    it'' ← advance (wrapu size_bits (own + match v with Some v => vsize v | None => 0 end)) it';
    Some (true, it'')
  else Some (false, it).
End reading.

(** ** Writing *)
(** [written], the bytes before the cursor; [room], what is left of the buffer. *)
Record OutIterator := { written : list Z; room : Z; initial : Z }.
Definition OutIterator_new (size : Z) : OutIterator := {| written := []; room := size; initial := size |}.
Definition Written (o : OutIterator) : Z := initial o - room o.
Definition put (l : list Z) (o : OutIterator) : OutIterator :=
  {| written := written o ++ l; room := room o - Z.of_nat (length l); initial := initial o |}.
Definition writeType (type : Z) (o : OutIterator) : OutIterator * bool :=
  if room o <? 1 then (o, false) else (put [type] o, true).
Definition writeTypedTrivial (type : Z) (n : nat) (val : Z) (o : OutIterator) : OutIterator * bool :=
  if room o <? Z.of_nat n + 1 then (o, false) else (put (to_big n val) (put [type] o), true).
Definition writeNegInt (i : Z) (o : OutIterator) : OutIterator * bool :=
  if -32 <=? i then if room o =? 0 then (o, false) else (put [wrapu 8 i] o, true)
  else if - 2 ^ 7 <=? i then writeTypedTrivial 0xD0 1 (iconv i8 i) o
  else if - 2 ^ 15 <=? i then writeTypedTrivial 0xD1 2 (iconv i16 i) o
  else if - 2 ^ 31 <=? i then writeTypedTrivial 0xD2 4 (iconv i32 i) o
  else writeTypedTrivial 0xD3 8 i o.
Definition writePosInt (i : Z) (o : OutIterator) : OutIterator * bool :=
  if i <? 128 then if room o =? 0 then (o, false) else (put [wrapu 8 i] o, true)
  else if i <=? 2 ^ 8 - 1 then writeTypedTrivial 0xCC 1 (iconv u8 i) o
  else if i <=? 2 ^ 16 - 1 then writeTypedTrivial 0xCD 2 (iconv u16 i) o
  else if i <=? 2 ^ 32 - 1 then writeTypedTrivial 0xCE 4 (iconv u32 i) o
  else writeTypedTrivial 0xCF 8 i o.
Definition writeComposite (_8 _16 _32 : Z) (comp : list Z) (o : OutIterator) : OutIterator * bool :=
  let n := Z.of_nat (length comp) in
  let '(o, ok) :=
    if n <=? 2 ^ 8 - 1 then writeTypedTrivial _8 1 (iconv u8 n) o
    else if n <=? 2 ^ 16 - 1 then writeTypedTrivial _16 2 (iconv u16 n) o
    else writeTypedTrivial _32 4 (iconv u32 n) o in
  if negb ok then (o, false)
  else if room o <? n then (o, false)
  else (put comp o, true).
(** The second test is on the room of the buffer. *)
Definition BeginArray (sz : Z) (o : OutIterator) : OutIterator * bool :=
  if sz <=? 15 then if room o =? 0 then (o, false) else (put [Z.lor 0x90 sz] o, true)
  else if room o <=? 2 ^ 16 - 1 then writeTypedTrivial 0xdc 2 (iconv u16 sz) o
  else writeTypedTrivial 0xdd 4 (iconv u32 sz) o.
Definition WriteBinary (bin : list Z) (o : OutIterator) : OutIterator * bool := writeComposite 0xc4 0xc5 0xc6 bin o.
Definition WriteString (str : list Z) (o : OutIterator) : OutIterator * bool :=
  let n := Z.of_nat (length str) in
  if n <=? 31 then
    if room o <? 1 + n then (o, false) else (put str (put [Z.lor 0xA0 n] o), true)
  else writeComposite 0xd9 0xda 0xdb str o.
Definition WriteFloat (f : FloatT) (value : Z) (o : OutIterator) : OutIterator * bool :=
  match f with F32 => writeTypedTrivial 0xca 4 value o | F64 => writeTypedTrivial 0xcb 8 value o end.
Definition WriteNil (o : OutIterator) : OutIterator * bool := writeType 0xc0 o.
Definition WriteBool (value : bool) (o : OutIterator) : OutIterator * bool := writeType (if value then 0xc2 else 0xc3) o.
Definition WriteInteger (value : Z) (o : OutIterator) : OutIterator * bool :=
  if negb (0 <=? value) then writeNegInt (iconv i64 value) o else writePosInt (iconv u64 value) o.

(** ** Described structures *)
(** [TRoot] is [MSG_2_STRUCT], [TChild] is [MSG_2_STRUCT_INHERIT]. *)
Inductive MType :=
| TInt (t : IntT)
| TBool
| TFloat (f : FloatT)
| TString
| TBinary
| TRoot (fields : list MType)
| TChild (parent : MType) (fields : list MType).
(** Values, with the representation [S] of strings: views where they are read,
    bytes where they are written. *)
Inductive MVal (S : Type) :=
| VI (z : Z)
| VB (b : bool)
| VF (f : FloatT) (bits : Z)
| VS (s : S)
| VBin (s : S)
| VRoot (l : list (MVal S))
| VChild (parent : MVal S) (l : list (MVal S)).
Arguments VI {S} _. Arguments VB {S} _. Arguments VF {S} _ _. Arguments VS {S} _. Arguments VBin {S} _.
Arguments VRoot {S} _. Arguments VChild {S} _ _.

Fixpoint countFields (t : MType) : Z :=
  match t with
  | TRoot fields => Z.of_nat (length fields)
  | TChild parent fields => countFields parent + Z.of_nat (length fields)
  | _ => 0
  end.

Section structures.
Context {CF : CppFloat}.
Variable size_bits : Z.
Variable type_first : bool.
Variable mem : list Z.
(** The tail of a message whose array is longer than the structure. *)
Definition skip_tail (tail : Z) (it : InIterator) : option InIterator :=
  Z.iter tail (fun it => it ← it; snd <$> Next size_bits type_first mem it) (Some it).
(** What [Parse] does before the fields: nothing for a base class, else the array;
    [None] where it returns false. *)
Definition parse_begin (fromChild : bool) (fs : Z) (it : InIterator) : option (option Z * InIterator) :=
  if fromChild then Some (Some 0, it)
  else
    r ← GetArraySize size_bits mem it;
    let '(sz, it) := r in
    match sz with
    | None => Some (None, it)
    | Some sz => Some (if sz <? fs then None else Some (sz - fs), it)
    end.
(** [ParseHelper] over the fields: stops at the first that does not parse. *)
Section parse_fields.
Variable parse : MType -> InIterator -> option (option (MVal View) * InIterator).
Fixpoint parse_fields (fields : list MType) (it : InIterator) : option (option (list (MVal View)) * InIterator) :=
  match fields with
  | [] => Some (Some [], it)
  | f :: fields =>
      r ← parse f it;
      match r.1 with
      | None => Some (None, r.2)
      | Some v =>
          rs ← parse_fields fields r.2;
          Some (option_map (List.cons v) rs.1, rs.2)
      end
  end.
End parse_fields.
Definition parse_end (fromChild : bool) (tail : Z) (it : InIterator) : option InIterator :=
  if fromChild then Some it else skip_tail tail it.
Definition string_header (h : Headers) : bool := match h with fixstr | str8 | str16 | str32 => true | _ => false end.
Fixpoint Parse (t : MType) (fromChild : bool) (it : InIterator) : option (option (MVal View) * InIterator) :=
  match t with
  | TInt T => r ← GetInteger mem (NI T) it; Some (option_map VI r.1, r.2)
  | TBool => r ← GetBool mem it; Some (option_map VB r.1, r.2)
  | TFloat f => r ← GetFloat mem (NF f) it; Some (option_map (VF f) r.1, r.2)
  | TString =>
      if string_header (type it) then r ← GetComposite size_bits mem it; Some (option_map VS r.1, r.2)
      else Some (None, it)
  | TBinary => r ← GetComposite size_bits mem it; Some (option_map VBin r.1, r.2)
  | TRoot fields =>
      r ← parse_begin fromChild (countFields t) it;
      let '(tail, it) := r in
      match tail with
      | None => Some (None, it)
      | Some tail =>
          r ← parse_fields (fun f => Parse f false) fields it;
          let '(vs, it) := r in
          match vs with
          | None => Some (None, it)
          | Some vs => it ← parse_end fromChild tail it; Some (Some (VRoot vs), it)
          end
      end
  | TChild parent fields =>
      r ← parse_begin fromChild (countFields t) it;
      let '(tail, it) := r in
      match tail with
      | None => Some (None, it)
      | Some tail =>
          r ← Parse parent true it;
          let '(p, it) := r in
          match p with
          | None => Some (None, it)
          | Some p =>
              r ← parse_fields (fun f => Parse f false) fields it;
              let '(vs, it) := r in
              match vs with
              | None => Some (None, it)
              | Some vs => it ← parse_end fromChild tail it; Some (Some (VChild p vs), it)
              end
          end
      end
  end.
End structures.

(** [DumpHelper] over the fields. *)
Section dump_fields.
Context {A : Type}.
Variable dump : A -> OutIterator -> OutIterator * bool.
Fixpoint dump_fields (l : list A) (o : OutIterator) : OutIterator * bool :=
  match l with
  | [] => (o, true)
  | v :: l => let '(o, ok) := dump v o in if ok then dump_fields l o else (o, false)
  end.
End dump_fields.
Fixpoint fields_of {S} (v : MVal S) : Z :=
  match v with
  | VRoot l => Z.of_nat (length l)
  | VChild p l => fields_of p + Z.of_nat (length l)
  | _ => 0
  end.
Definition dump_begin (fromChild : bool) (fs : Z) (o : OutIterator) : OutIterator * bool :=
  if fromChild then (o, true) else BeginArray fs o.
Fixpoint Dump (v : MVal (list Z)) (fromChild : bool) (o : OutIterator) : OutIterator * bool :=
  match v with
  | VI z => WriteInteger z o
  | VB b => WriteBool b o
  | VF f bits => WriteFloat f bits o
  | VS s => WriteString s o
  | VBin b => WriteBinary b o
  | VRoot l =>
      let '(o, ok) := dump_begin fromChild (fields_of v) o in
      if ok then dump_fields (fun x => Dump x false) l o else (o, false)
  | VChild p l =>
      let '(o, ok) := dump_begin fromChild (fields_of v) o in
      if ok then
        let '(o, ok) := Dump p true o in
        if ok then dump_fields (fun x => Dump x false) l o else (o, false)
      else (o, false)
  end.

(** ** Induction over described structures and their values *)
Section MType_induction.
Variable P : MType -> Prop.
Hypothesis Hleaf : forall t, match t with TRoot _ | TChild _ _ => False | _ => True end -> P t.
Hypothesis Hroot : forall l, Forall P l -> P (TRoot l).
Hypothesis Hchild : forall p l, P p -> Forall P l -> P (TChild p l).
Fixpoint MType_tree_ind (t : MType) : P t :=
  let fix go l : Forall P l :=
    match l with
    | [] => @List.Forall_nil _ P
    | x :: l' => @List.Forall_cons _ P x l' (MType_tree_ind x) (go l')
    end in
  match t with
  | TRoot l => Hroot l (go l)
  | TChild p l => Hchild p l (MType_tree_ind p) (go l)
  | TInt t => Hleaf (TInt t) I
  | TBool => Hleaf TBool I
  | TFloat f => Hleaf (TFloat f) I
  | TString => Hleaf TString I
  | TBinary => Hleaf TBinary I
  end.
End MType_induction.
Section all_views.
Context {S : Type}.
Variable Q : S -> Prop.
Fixpoint all_views (v : MVal S) : Prop :=
  let fix go l := match l with [] => True | x :: l => all_views x /\ go l end in
  match v with
  | VS s | VBin s => Q s
  | VRoot l => go l
  | VChild p l => all_views p /\ go l
  | _ => True
  end.
End all_views.

(** ** Lemmas: the iterator stays in the frame *)
Lemma header_total b : is_byte b = true -> is_Some (header b).
Proof.
  intros H. unfold is_byte in H. apply andb_true_iff in H as [H1 H2].
  assert (forallb (fun n => match header (Z.of_nat n) with Some _ => true | None => false end) (seq 0 256) = true) as Ha by (by vm_compute).
  rewrite forallb_forall in Ha. specialize (Ha (Z.to_nat b)). rewrite Z2Nat.id in Ha by lia.
  destruct (header b); [by eexists|]. assert (false = true) as [=]. apply Ha, in_seq. lia.
Qed.

Section frame.
Context {CF : CppFloat}.
Variable size_bits : Z.
Variable type_first : bool.
Variable mem : list Z.
Hypothesis Hbits : 0 < size_bits.
Hypothesis Hmem : bytes_ok mem = true.
Abbreviation len := (Z.of_nat (length mem)).
(** What remains is in the storage, also when the iterator has ended. *)
Definition in_frame (it : InIterator) : Prop :=
  0 <= data it /\ 0 <= size it /\ data it + size it <= len /\ (type it <> invalid -> 0 < size it).
Definition total {A} (P : A -> Prop) (o : option (A * InIterator)) : Prop :=
  match o with Some (a, it) => P a /\ in_frame it | None => False end.
(** A view that ends in the frame or one byte after it. *)
Definition near (v : View) : Prop := 0 <= at_ v /\ 0 <= vsize v /\ at_ v + vsize v <= len + 1.
Definition near64 {A} (all : A -> Prop) (r : option A) : Prop := size_bits = 64 -> forall v, r = Some v -> all v.

Lemma total_weaken {A} (P Q : A -> Prop) o : (forall a, P a -> Q a) -> total P o -> total Q o.
Proof. intros H. destruct o as [[a it]|]; [|done]. intros [Hp Hf]. split; [by apply H|done]. Qed.
Lemma byte_in p : 0 <= p < len -> exists b, byte_at mem p = Some b /\ is_byte b = true.
Proof.
  intros H. unfold byte_at. rewrite (proj2 (Z.leb_le _ _)) by lia.
  destruct (lookup_lt_is_Some_2 mem (Z.to_nat p)) as [b Hb]; [lia|]. exists b. split; [done|].
  apply (proj1 (forallb_forall _ _) Hmem). by apply list_elem_of_In, (list_elem_of_lookup_2 _ (Z.to_nat p)).
Qed.
Lemma byte_shown it : in_frame it -> type it <> invalid -> exists b, byte_at mem (data it) = Some b /\ is_byte b = true.
Proof. intros (Hd & Hs & Hl & Ht) Hi. specialize (Ht Hi). apply byte_in. lia. Qed.
Lemma bytes_in n p : 0 <= p -> 0 <= n -> p + n <= len -> bytes_at mem n p = Some (take (Z.to_nat n) (drop (Z.to_nat p) mem)).
Proof. intros. unfold bytes_at, view. cbn. by rewrite !(proj2 (Z.leb_le _ _)) by lia. Qed.
Lemma trivial_in T p : 0 <= p -> p + sizeof T <= len -> exists v, getTrivial mem T p = Some v.
Proof.
  intros. unfold getTrivial. rewrite bytes_in; [by eexists|done| |done]. destruct T as [t|[]]; cbn; lia.
Qed.
Lemma trivial_int t p : 0 <= p -> p + Z.of_nat (int_bytes t) <= len -> int_signed t = false ->
  exists v, getTrivial mem (NI t) p = Some v /\ 0 <= v < 2 ^ ibits t.
Proof.
  intros Hp Hl Hs. unfold getTrivial. cbn [sizeof]. rewrite bytes_in by lia. cbn. eexists. split; [done|].
  unfold iconv. rewrite Hs. apply wrapu_range. unfold ibits. lia.
Qed.
Lemma new_in p n : 0 <= p -> 0 <= n -> p + n <= len -> exists it, InIterator_new mem p n = Some it /\ in_frame it.
Proof.
  intros Hp Hn Hl. unfold InIterator_new. destruct (Z.eqb_spec n 0) as [->|H0]; [by eexists|].
  destruct (byte_in p) as (b & -> & Hb); [lia|]. destruct (header_total b Hb) as [h Hh]. cbn. rewrite Hh. cbn.
  eexists. split; [done|]. unfold in_frame. cbn. lia.
Qed.
Lemma advance_in step it : in_frame it -> 0 <= step -> exists it', advance mem step it = Some it' /\ in_frame it'.
Proof.
  intros (Hd & Hs & Hl & Ht) Hst. unfold advance. destruct (Z.leb_spec (size it) step); [by eexists|].
  destruct (byte_in (data it + step)) as (b & -> & Hb); [lia|]. destruct (header_total b Hb) as [h Hh]. cbn. rewrite Hh. cbn.
  eexists. split; [done|]. unfold in_frame. cbn. lia.
Qed.
Lemma then_advance_in {A} (P : A -> Prop) step it (o : option A) : in_frame it -> 0 <= step ->
  (forall a, o = Some a -> P a) -> total (fun r => forall a, r = Some a -> P a) (then_advance mem step it (Some o)).
Proof.
  intros Hf Hs Ho. unfold then_advance. cbn. destruct o as [a|]; [|by split].
  destruct (advance_in step it Hf Hs) as (it' & -> & Hf'). by split.
Qed.
Lemma trivialWith_in T U it : in_frame it -> exists o, getTrivialWith mem T U it = Some o.
Proof.
  intros (Hd & Hs & Hl & _). unfold getTrivialWith. destruct (Z.ltb_spec (size it) (sizeof T + 1)); [by eexists|].
  destruct (trivial_in T (data it + 1)) as [v ->]; [lia|lia|]. cbn. repeat case_match; by eexists.
Qed.
Lemma composite_in S add it : in_frame it -> int_signed S = false -> 0 <= add <= 1 ->
  ibits S <= 32 -> exists o, getComposite size_bits mem S add it = Some o /\ near64 near o /\ forall v, o = Some v -> 0 <= vsize v.
Proof.
  intros (Hd & Hs & Hl & _) HS Ha Hw. unfold getComposite.
  destruct (Z.ltb_spec (size it) (1 + Z.of_nat (int_bytes S) + add)); [by eexists|].
  destruct (trivial_int S (data it + 1)) as (sz & -> & Hsz); [lia|lia|done|]. cbn.
  assert (sz < 2 ^ 32) by (assert (2 ^ ibits S <= 2 ^ 32) by (apply Z.pow_le_mono_r; lia); lia).
  destruct (Z.ltb_spec (size it) (wrapu (Z.max size_bits (ibits S)) (1 + Z.of_nat (int_bytes S) + sz + add))); [by eexists|].
  eexists. split; [done|]. split; [|intros v [= <-]; apply wrapu_range; lia].
  intros -> v [= <-]. unfold near. cbn. rewrite Z.max_l in * by (unfold ibits in *; lia).
  unfold ibits in *. rewrite !wrapu_small in * by lia. lia.
Qed.
Lemma composite_view_in it : in_frame it -> exists o, composite_view size_bits mem it = Some o /\ near64 near o /\
  forall v, o = Some v -> 0 <= vsize v.
Proof.
  intros Hf. unfold composite_view. destruct (decide (type it = invalid)) as [E|E]; [rewrite E; by eexists|].
  destruct (byte_shown it Hf E) as (b & -> & Hb). cbn [mbind option_bind].
  destruct (type it); try (by exists None); try (apply composite_in; [done|done|lia|by vm_compute]).
  unfold is_byte in Hb. apply andb_true_iff in Hb as [Hb _]. assert (0 <= Z.land b 31) by (apply Z.land_nonneg; lia).
  destruct Hf as (Hd & Hs & Hl & _).
  destruct (Z.ltb_spec (size it) (Z.land b 31)); [by eexists|]. eexists. split; [done|]. split; [|by intros v [= <-]].
  intros _ v [= <-]. unfold near. cbn. lia.
Qed.
Lemma GetComposite_in it : in_frame it ->
  total (fun r => near64 near r /\ forall v, r = Some v -> 0 <= vsize v) (GetComposite size_bits mem it).
Proof.
  intros Hf. unfold GetComposite. destruct (composite_view_in it Hf) as (o & -> & Ho & Hv). cbn.
  destruct o as [v|]; [|by split].
  destruct (advance_in (wrapu size_bits (nonCompositeSizeof (type it) + vsize v)) it Hf) as (it' & -> & Hf');
    [apply wrapu_range; lia|]. by split.
Qed.
Lemma nonComposite_pos h : 0 < nonCompositeSizeof h. Proof. by destruct h. Qed.
Lemma GetInteger_in U it : in_frame it -> total (fun _ => True) (GetInteger mem U it).
Proof.
  intros Hf. unfold GetInteger. pose proof (nonComposite_pos (type it)) as Hp.
  assert (exists o, integer_value mem U it = Some o) as [o ->].
  { unfold integer_value. destruct (decide (type it = invalid)) as [E|E]; [rewrite E; by eexists|].
    destruct (byte_shown it Hf E) as (b & Hb & _). rewrite Hb.
    destruct (type it); try (by apply trivialWith_in); try (by exists None); cbn; [by eexists|]. case_match; by eexists. }
  eapply total_weaken; [|apply (then_advance_in (fun _ => True)); [done|lia|done]]. done.
Qed.
Lemma GetFloat_in U it : in_frame it -> total (fun _ => True) (GetFloat mem U it).
Proof.
  intros Hf. destruct (trivialWith_in (NF F32) U it Hf) as [o Ho], (trivialWith_in (NF F64) U it Hf) as [o' Ho'].
  unfold GetFloat. rewrite Ho, Ho'. destruct (type it); try (by apply GetInteger_in);
    (eapply total_weaken; [|apply (then_advance_in (fun _ => True)); [done|lia|done]]); done.
Qed.
Lemma GetBool_in it : in_frame it -> total (fun _ => True) (GetBool mem it).
Proof.
  intros Hf. unfold GetBool. destruct (advance_in 1 it Hf ltac:(lia)) as (it' & -> & ?). destruct (type it); by split.
Qed.
Lemma GetArraySize_in it : in_frame it -> total (fun r => forall n, r = Some n -> 0 <= n) (GetArraySize size_bits mem it).
Proof.
  intros Hf. unfold GetArraySize. pose proof Hf as (Hd & Hs & Hl & _). destruct (type it) eqn:E; try (by split).
  - destruct (byte_shown it Hf) as (b & -> & Hb); [by rewrite E|]. case_match; [by split|]. cbn [fmap option_fmap option_map]. apply then_advance_in; [done|lia|].
    intros a [= <-]. apply andb_true_iff in Hb as [? _]. apply Z.land_nonneg. lia.
  - destruct (Z.ltb_spec (size it) 3); [by split|]. destruct (trivial_int u16 (data it)) as (v & -> & _); [done|cbn; lia|done|].
    cbn [fmap option_fmap option_map]. apply then_advance_in; [done|lia|]. intros a [= <-]. apply wrapu_range. lia.
  - destruct (Z.ltb_spec (size it) 5); [by split|]. destruct (trivial_int u32 (data it)) as (v & -> & _); [done|cbn; lia|done|].
    cbn [fmap option_fmap option_map]. apply then_advance_in; [done|lia|]. intros a [= <-]. apply wrapu_range. lia.
Qed.
Lemma Next_in it : in_frame it -> total (fun _ => True) (Next size_bits type_first mem it).
Proof.
  intros Hf. unfold Next. case_match; [|by split]. pose proof (GetComposite_in it Hf) as Hc.
  destruct (GetComposite _ _ it) as [[v it']|]; [|done]. cbn in *. destruct Hc as [_ Hf'].
  destruct (advance_in (wrapu size_bits (nonCompositeSizeof (type (if type_first then it else it')) +
    match v with Some v => vsize v | None => 0 end)) it' Hf') as (it'' & -> & ?); [apply wrapu_range; lia|]. by split.
Qed.
Lemma skip_tail_in tail it : in_frame it -> exists it', skip_tail size_bits type_first mem tail it = Some it' /\ in_frame it'.
Proof.
  intros Hf. unfold skip_tail. destruct tail as [|p|p]; [by eexists| |by eexists]. cbn [Z.iter].
  apply (Pos.iter_invariant p _ _ (fun o => exists it', o = Some it' /\ in_frame it')); [|by eexists].
  intros ? (it' & -> & Hf'). cbn. pose proof (Next_in it' Hf') as Hn. destruct (Next _ _ _ it') as [[b it'']|]; [|done].
  destruct Hn as [_ ?]. by eexists.
Qed.
Definition reads_well (parse : InIterator -> option (option (MVal View) * InIterator)) : Prop :=
  forall it, in_frame it -> total (near64 (all_views near)) (parse it).
Lemma parse_begin_in c fs it : in_frame it -> 0 <= fs -> total (fun _ => True) (parse_begin size_bits mem c fs it).
Proof.
  intros Hf Hfs. unfold parse_begin. destruct c; [by split|]. pose proof (GetArraySize_in it Hf) as Ha.
  destruct (GetArraySize _ _ it) as [[[sz|] it']|]; [|by destruct Ha|done]. by destruct Ha.
Qed.
Lemma parse_end_in c tail it : in_frame it -> exists it', parse_end size_bits type_first mem c tail it = Some it' /\ in_frame it'.
Proof. intros Hf. unfold parse_end. destruct c; [by eexists|]. by apply skip_tail_in. Qed.
Lemma parse_fields_in (parse : MType -> InIterator -> option (option (MVal View) * InIterator)) fields it :
  Forall (fun f => reads_well (parse f)) fields -> in_frame it ->
  total (near64 (fun vs => all_views near (VRoot vs))) (parse_fields parse fields it).
Proof.
  intros Hp. revert it. induction Hp as [|f fields Hf _ IH]; intros it Hi; cbn; [by split; [intros _ ? [= <-]|]|].
  specialize (Hf it Hi). destruct (parse f it) as [[[v|] it']|]; [|by destruct Hf|done]. cbn in *. destruct Hf as [Hv Hi'].
  specialize (IH it' Hi'). destruct (parse_fields parse fields it') as [[[vs|] it'']|]; [|by destruct IH|done]. cbn in *.
  destruct IH as [Hvs ?]. split; [|done]. intros Hb ? [= <-]. split; [by apply (Hv Hb)|by apply (Hvs Hb)].
Qed.
Lemma countFields_pos t : 0 <= countFields t.
Proof. induction t using MType_tree_ind; cbn; [by destruct t|lia|lia]. Qed.
Lemma mapped_view_in {A} (Q : A -> Prop) (f : A -> MVal View) (o : option (option A * InIterator)) :
  total (near64 Q) o -> (forall a, Q a -> all_views near (f a)) ->
  total (near64 (all_views near)) (r ← o; Some (option_map f r.1, r.2)).
Proof.
  destruct o as [[[a|] it]|]; [|by intros [_ ?] _|done]. intros [Ha Hf] HQ. split; [|done].
  intros Hb ? [= <-]. by apply HQ, (Ha Hb).
Qed.
Lemma Parse_in t : forall c, reads_well (Parse size_bits type_first mem t c).
Proof.
  assert (forall A (o : option (option A * InIterator)), total (fun _ => True) o -> total (near64 (fun _ => True)) o) as Hany.
  { intros A o. by apply total_weaken. }
  assert (forall it, in_frame it -> total (near64 near) (GetComposite size_bits mem it)) as Hcomp.
  { intros it Hf. eapply total_weaken; [|by apply GetComposite_in]. by intros ? [? _]. }
  induction t as [t Ht|l IH|p l IHp IH] using MType_tree_ind; intros c it Hf.
  - destruct t; try done; cbn [Parse].
    + eapply mapped_view_in; [by apply Hany, GetInteger_in|done].
    + eapply mapped_view_in; [by apply Hany, GetBool_in|done].
    + eapply mapped_view_in; [by apply Hany, GetFloat_in|done].
    + case_match; [|by split]. eapply mapped_view_in; [by apply Hcomp|done].
    + eapply mapped_view_in; [by apply Hcomp|done].
  - cbn [Parse]. pose proof (parse_begin_in c (countFields (TRoot l)) it Hf (countFields_pos _)) as Hb.
    destruct (parse_begin _ _ _ _ _) as [[[tail|] it']|]; [|by destruct Hb|done]. cbn. destruct Hb as [_ Hf'].
    pose proof (parse_fields_in (fun f => Parse size_bits type_first mem f false) l it') as Hl.
    specialize (Hl (Forall_impl _ _ _ IH (fun f Hx => Hx false)) Hf').
    destruct (parse_fields _ l it') as [[[vs|] it'']|]; [|by destruct Hl|done]. cbn. destruct Hl as [Hl Hf''].
    destruct (parse_end_in c tail it'' Hf'') as (it3 & -> & ?). by split; [intros Hb ? [= <-]; apply (Hl Hb)|].
  - cbn [Parse]. pose proof (parse_begin_in c (countFields (TChild p l)) it Hf (countFields_pos _)) as Hb.
    destruct (parse_begin _ _ _ _ _) as [[[tail|] it']|]; [|by destruct Hb|done]. cbn. destruct Hb as [_ Hf'].
    specialize (IHp true it' Hf'). destruct (Parse _ _ _ p true it') as [[[pv|] it1]|]; [|by destruct IHp|done]. cbn. destruct IHp as [Hp Hf1].
    pose proof (parse_fields_in (fun f => Parse size_bits type_first mem f false) l it1) as Hl.
    specialize (Hl (Forall_impl _ _ _ IH (fun f Hx => Hx false)) Hf1).
    destruct (parse_fields _ l it1) as [[[vs|] it'']|]; [|by destruct Hl|done]. cbn. destruct Hl as [Hl Hf''].
    destruct (parse_end_in c tail it'' Hf'') as (it3 & -> & ?). split; [|done].
    intros Hb ? [= <-]. split; [by apply (Hp Hb)|by apply (Hl Hb)].
Qed.
End frame.

(** ** The encoding, as a list *)
Definition enc_int (z : Z) : list Z :=
  if z <? 0 then
    if -32 <=? z then [wrapu 8 z]
    else if - 2 ^ 7 <=? z then 0xD0 :: to_big 1 z
    else if - 2 ^ 15 <=? z then 0xD1 :: to_big 2 z
    else if - 2 ^ 31 <=? z then 0xD2 :: to_big 4 z
    else 0xD3 :: to_big 8 z
  else
    if z <? 128 then [wrapu 8 z]
    else if z <=? 2 ^ 8 - 1 then 0xCC :: to_big 1 z
    else if z <=? 2 ^ 16 - 1 then 0xCD :: to_big 2 z
    else if z <=? 2 ^ 32 - 1 then 0xCE :: to_big 4 z
    else 0xCF :: to_big 8 z.
Definition enc_bytes (_8 _16 _32 : Z) (b : list Z) : list Z :=
  let n := Z.of_nat (length b) in
  (if n <=? 2 ^ 8 - 1 then _8 :: to_big 1 n
   else if n <=? 2 ^ 16 - 1 then _16 :: to_big 2 n
   else _32 :: to_big 4 n) ++ b.
Definition enc_string (s : list Z) : list Z :=
  if Z.of_nat (length s) <=? 31 then Z.lor 0xA0 (Z.of_nat (length s)) :: s else enc_bytes 0xd9 0xda 0xdb s.
Definition enc_float (f : FloatT) (bits : Z) : list Z :=
  match f with F32 => 0xca :: to_big 4 bits | F64 => 0xcb :: to_big 8 bits end.
Definition enc_array (c : bool) (n : Z) : list Z := if c then [] else [Z.lor 0x90 n].
Fixpoint enc (v : MVal (list Z)) (c : bool) : list Z :=
  match v with
  | VI z => enc_int z
  | VB b => [if b then 0xc2 else 0xc3]
  | VF f bits => enc_float f bits
  | VS s => enc_string s
  | VBin b => enc_bytes 0xc4 0xc5 0xc6 b
  | VRoot l => enc_array c (fields_of v) ++ flat_map (fun x => enc x false) l
  | VChild p l => enc_array c (fields_of v) ++ enc p true ++ flat_map (fun x => enc x false) l
  end.
(** Values of a type, with structures of at most fifteen members and strings below
    4 GiB. *)
Definition in_range (t : IntT) (z : Z) : Prop :=
  if int_signed t then - 2 ^ (ibits t - 1) <= z < 2 ^ (ibits t - 1) else 0 <= z < 2 ^ ibits t.
Definition short_bytes (l : list Z) : Prop := Z.of_nat (length l) < 2 ^ 32.
Definition is_struct (t : MType) : bool := match t with TRoot _ | TChild _ _ => true | _ => false end.
Fixpoint typed (t : MType) (v : MVal (list Z)) : Prop :=
  let fix all ts vs :=
    match ts, vs with
    | [], [] => True
    | t :: ts, v :: vs => typed t v /\ all ts vs
    | _, _ => False
    end in
  match t, v with
  | TInt t, VI z => (0 < int_bytes t <= 8)%nat /\ in_range t z
  | TBool, VB _ => True
  | TFloat f, VF g bits => f = g /\ 0 <= bits < 256 ^ sizeof (NF f)
  | TString, VS s | TBinary, VBin s => short_bytes s
  | TRoot ts, VRoot vs => countFields t <= 15 /\ all ts vs
  | TChild p ts, VChild pv vs => countFields t <= 15 /\ is_struct p = true /\ typed p pv /\ all ts vs
  | _, _ => False
  end.
(** The bytes a parsed value shows. *)
Fixpoint content (mem : list Z) (r : MVal View) : option (MVal (list Z)) :=
  match r with
  | VI z => Some (VI z)
  | VB b => Some (VB b)
  | VF f bits => Some (VF f bits)
  | VS s => option_map VS (view mem s)
  | VBin s => option_map VBin (view mem s)
  | VRoot l => option_map VRoot (mapM (content mem) l)
  | VChild p l => p' ← content mem p; l' ← mapM (content mem) l; Some (VChild p' l')
  end.
(** What a value becomes on the way: every bool is negated. *)
Fixpoint received {S} (v : MVal S) : MVal S :=
  match v with
  | VB b => VB (negb b)
  | VRoot l => VRoot (map received l)
  | VChild p l => VChild (received p) (map received l)
  | _ => v
  end.

(** ** Lemmas: writing *)
Definition writes (f : OutIterator -> OutIterator * bool) (l : list Z) : Prop :=
  forall o, 0 <= room o -> if Z.of_nat (length l) <=? room o then f o = (put l o, true) else (f o).2 = false.
Lemma put_app a b o : put b (put a o) = put (a ++ b) o.
Proof. unfold put. cbn. rewrite app_assoc, length_app. f_equal. lia. Qed.
Lemma put_nil o : put [] o = o.
Proof. destruct o. unfold put. cbn. by rewrite app_nil_r, Z.sub_0_r. Qed.
Lemma length_to_big n z : length (to_big n z) = n.
Proof. induction n; cbn; by f_equal. Qed.
Lemma writes_ext f g l : (forall o, f o = g o) -> writes f l -> writes g l.
Proof. intros H Hf o Ho. rewrite <- H. by apply Hf. Qed.
Lemma writes_nil : writes (fun o => (o, true)) [].
Proof. intros o Ho. cbn. rewrite (proj2 (Z.leb_le _ _)) by done. by rewrite put_nil. Qed.
Lemma writes_byte b : writes (fun o => if room o =? 0 then (o, false) else (put [b] o, true)) [b].
Proof. intros o Ho. change (Z.of_nat (length [b])) with 1. destruct (Z.leb_spec 1 (room o)), (Z.eqb_spec (room o) 0); try done; lia. Qed.
Lemma writes_type b : writes (writeType b) [b].
Proof. intros o Ho. unfold writeType. change (Z.of_nat (length [b])) with 1. destruct (Z.leb_spec 1 (room o)), (Z.ltb_spec (room o) 1); try done; lia. Qed.
Lemma writes_trivial ty n v : writes (writeTypedTrivial ty n v) (ty :: to_big n v).
Proof.
  intros o Ho. unfold writeTypedTrivial. cbn [length]. rewrite length_to_big, put_app.
  destruct (Z.leb_spec (Z.of_nat (S n)) (room o)), (Z.ltb_spec (room o) (Z.of_nat n + 1)); try done; lia.
Qed.
(** Two writes in a row, the second skipped when the first fails. *)
Lemma writes_seq f g a b : writes f a -> writes g b ->
  writes (fun o => let '(o, ok) := f o in if ok then g o else (o, false)) (a ++ b).
Proof.
  intros Hf Hg o Ho. specialize (Hf o Ho). rewrite length_app.
  destruct (Z.leb_spec (Z.of_nat (length a)) (room o)) as [Ha|Ha].
  - rewrite Hf. specialize (Hg (put a o)). unfold put at 1 2 in Hg. cbn [room] in Hg. specialize (Hg ltac:(lia)).
    destruct (Z.leb_spec (Z.of_nat (length b)) (room o - Z.of_nat (length a))),
      (Z.leb_spec (Z.of_nat (length a + length b)) (room o)); try lia; [by rewrite Hg, put_app|done].
  - rewrite (proj2 (Z.leb_gt _ _)) by lia. destruct (f o) as [o' ok]. cbn in Hf. by subst ok.
Qed.
Lemma writes_fields {A} (dump : A -> OutIterator -> OutIterator * bool) (e : A -> list Z) l :
  Forall (fun x => writes (dump x) (e x)) l -> writes (dump_fields dump l) (flat_map e l).
Proof.
  induction 1 as [|x l Hx _ IH]; [apply writes_nil|]. cbn [dump_fields flat_map].
  by apply (writes_seq (dump x) (dump_fields dump l)).
Qed.

Lemma iconv_id t z : (0 < int_bytes t)%nat -> in_range t z -> iconv t z = z.
Proof.
  unfold in_range, iconv, ibits. intros Hn Hz. destruct (int_signed t); [apply wraps_small; lia|by apply wrapu_small].
Qed.
Lemma writes_int z : - 2 ^ 63 <= z < 2 ^ 64 -> writes (WriteInteger z) (enc_int z).
Proof.
  intros Hz. unfold enc_int. destruct (Z.ltb_spec z 0).
  - eapply writes_ext; [intros o; unfold WriteInteger; rewrite (proj2 (Z.leb_gt 0 z)) by lia; cbn [negb];
      rewrite iconv_id by (cbn; unfold in_range, ibits; cbn; lia); reflexivity|]. unfold writeNegInt.
    destruct (Z.leb_spec (-32) z); [apply writes_byte|].
    destruct (Z.leb_spec (- 2 ^ 7) z); [rewrite iconv_id by (cbn; unfold in_range, ibits; cbn; lia); apply writes_trivial|].
    destruct (Z.leb_spec (- 2 ^ 15) z); [rewrite iconv_id by (cbn; unfold in_range, ibits; cbn; lia); apply writes_trivial|].
    destruct (Z.leb_spec (- 2 ^ 31) z); [rewrite iconv_id by (cbn; unfold in_range, ibits; cbn; lia); apply writes_trivial|].
    apply writes_trivial.
  - eapply writes_ext; [intros o; unfold WriteInteger; rewrite (proj2 (Z.leb_le 0 z)) by lia; cbn [negb];
      rewrite iconv_id by (cbn; unfold in_range, ibits; cbn; lia); reflexivity|]. unfold writePosInt.
    destruct (Z.ltb_spec z 128); [apply writes_byte|].
    destruct (Z.leb_spec z (2 ^ 8 - 1)); [rewrite iconv_id by (cbn; unfold in_range, ibits; cbn; lia); apply writes_trivial|].
    destruct (Z.leb_spec z (2 ^ 16 - 1)); [rewrite iconv_id by (cbn; unfold in_range, ibits; cbn; lia); apply writes_trivial|].
    destruct (Z.leb_spec z (2 ^ 32 - 1)); [rewrite iconv_id by (cbn; unfold in_range, ibits; cbn; lia); apply writes_trivial|].
    apply writes_trivial.
Qed.
Lemma writes_comp a b c l : short_bytes l -> writes (writeComposite a b c l) (enc_bytes a b c l).
Proof.
  intros Hl. unfold short_bytes in Hl. unfold enc_bytes.
  assert (forall ty n t, Z.of_nat (length l) < 2 ^ ibits t -> (0 < n)%nat -> ibits t = 8 * Z.of_nat n -> int_bytes t = n -> int_signed t = false ->
    writes (fun o => let '(o, ok) := writeTypedTrivial ty n (iconv t (Z.of_nat (length l))) o in
       if negb ok then (o, false) else if room o <? Z.of_nat (length l) then (o, false) else (put l o, true))
      ((ty :: to_big n (Z.of_nat (length l))) ++ l)) as H.
  { intros ty n t Ht Hn Hb Hi Hs. rewrite iconv_id by (unfold in_range; rewrite ?Hs; lia).
    eapply writes_ext; [|apply writes_seq; [apply writes_trivial|]].
    { intros o. cbn. destruct (writeTypedTrivial _ _ _ o) as [o' []]; cbn; [|done]. instantiate (1 := fun o => if room o <? Z.of_nat (length l) then (o, false) else (put l o, true)). done. }
    intros o Ho. destruct (Z.leb_spec (Z.of_nat (length l)) (room o)), (Z.ltb_spec (room o) (Z.of_nat (length l))); done || lia. }
  unfold writeComposite. destruct (Z.leb_spec (Z.of_nat (length l)) (2 ^ 8 - 1)); [by apply H; unfold ibits; cbn; try lia|].
  destruct (Z.leb_spec (Z.of_nat (length l)) (2 ^ 16 - 1)); by apply H; unfold ibits; cbn; try lia.
Qed.
Lemma writes_string s : short_bytes s -> writes (WriteString s) (enc_string s).
Proof.
  intros Hs. unfold WriteString, enc_string. destruct (Z.leb_spec (Z.of_nat (length s)) 31); [|by apply writes_comp].
  intros o Ho. cbn [length]. rewrite put_app.
  destruct (Z.leb_spec (Z.of_nat (S (length s))) (room o)), (Z.ltb_spec (room o) (1 + Z.of_nat (length s))); done || lia.
Qed.
Lemma writes_array c n : 0 <= n <= 15 -> writes (dump_begin c n) (enc_array c n).
Proof.
  intros Hn. unfold dump_begin, enc_array, BeginArray. destruct c; [apply writes_nil|].
  rewrite (proj2 (Z.leb_le n 15)) by lia. apply writes_byte.
Qed.
Definition typed_all : list MType -> list (MVal (list Z)) -> Prop :=
  fix all ts vs :=
    match ts, vs with
    | [], [] => True
    | t :: ts, v :: vs => typed t v /\ all ts vs
    | _, _ => False
    end.
Lemma typed_root ts v : typed (TRoot ts) v <-> exists vs, v = VRoot vs /\ countFields (TRoot ts) <= 15 /\ typed_all ts vs.
Proof. split; [destruct v; try done; intros [? ?]; by eexists|by intros (vs & -> & ?)]. Qed.
Lemma typed_child p ts v : typed (TChild p ts) v <-> exists pv vs, v = VChild pv vs /\
  countFields (TChild p ts) <= 15 /\ is_struct p = true /\ typed p pv /\ typed_all ts vs.
Proof. split; [destruct v; try done; intros (? & ? & ? & ?); by eexists _, _|by intros (pv & vs & -> & ?)]. Qed.
Lemma typed_all_length ts : forall vs, typed_all ts vs -> length vs = length ts.
Proof. induction ts as [|t ts IH]; intros [|v vs]; cbn; try done. intros [_ H]. by f_equal; apply IH. Qed.
Lemma typed_fields t : forall v, typed t v -> fields_of v = countFields t.
Proof.
  induction t as [t Ht|l IH|p l IHp IH] using MType_tree_ind; intros v Hv.
  - destruct t; try done; by destruct v.
  - apply typed_root in Hv as (vs & -> & _ & Ha). cbn. by rewrite (typed_all_length _ _ Ha).
  - apply typed_child in Hv as (pv & vs & -> & _ & _ & Hp & Ha). cbn. by rewrite (typed_all_length _ _ Ha), (IHp _ Hp).
Qed.
Lemma in_range_64 t z : (0 < int_bytes t <= 8)%nat -> in_range t z -> - 2 ^ 63 <= z < 2 ^ 64.
Proof.
  unfold in_range, ibits. intros Hn. pose proof (Z.pow_le_mono_r 2 (8 * Z.of_nat (int_bytes t)) 64 ltac:(lia) ltac:(lia)).
  pose proof (Z.pow_le_mono_r 2 (8 * Z.of_nat (int_bytes t) - 1) 63 ltac:(lia) ltac:(lia)). destruct (int_signed t); lia.
Qed.
(** [Dump] writes the encoding when it fits, and fails otherwise. *)
Lemma writes_Dump t : forall v c, typed t v -> writes (Dump v c) (enc v c).
Proof.
  assert (forall ts vs, Forall (fun t => forall v c, typed t v -> writes (Dump v c) (enc v c)) ts -> typed_all ts vs ->
    writes (dump_fields (fun x => Dump x false) vs) (flat_map (fun x => enc x false) vs)) as Hf.
  { intros ts vs IH Ha. apply writes_fields. revert vs Ha. induction IH as [|u ts Ht _ IH]; intros [|v vs]; cbn; try done.
    intros [Hv Ha]. constructor; [by apply Ht|by apply IH]. }
  induction t as [t Ht|l IH|p l IHp IH] using MType_tree_ind; intros v c Hv.
  - destruct t; try done; destruct v; try done.
    + destruct Hv as [Hn Hr]. by apply writes_int, (in_range_64 t).
    + apply (writes_type (if b then 0xc2 else 0xc3)).
    + destruct f0; apply writes_trivial.
    + by apply writes_string.
    + by apply writes_comp.
  - pose proof (typed_fields _ _ Hv) as Hc. apply typed_root in Hv as (vs & -> & Hn & Ha). cbn [Dump enc].
    apply writes_seq; [apply writes_array; rewrite Hc; pose proof (countFields_pos (TRoot l)); lia|by eapply Hf].
  - pose proof (typed_fields _ _ Hv) as Hc. apply typed_child in Hv as (pv & vs & -> & Hn & _ & Hp & Ha). cbn [Dump enc].
    apply writes_seq; [apply writes_array; rewrite Hc; pose proof (countFields_pos (TChild p l)); lia|].
    apply writes_seq; [by apply IHp|by eapply Hf].
Qed.

(** ** Lemmas: reading what was written *)
Lemma from_big_app l : forall acc b, from_big acc (l ++ [b]) = from_big acc l * 256 + b.
Proof. induction l as [|x l IH]; intros; cbn; [done|apply IH]. Qed.
Lemma from_big_to_big n : forall acc z, from_big acc (to_big n z) = acc * 256 ^ Z.of_nat n + z mod 256 ^ Z.of_nat n.
Proof.
  induction n as [|n IH]; intros acc z; cbn [to_big from_big].
  { rewrite Z.mod_1_r. lia. }
  rewrite IH, Nat2Z.inj_succ, Z.pow_succ_r by lia. unfold wrapu. rewrite Z.shiftr_div_pow2 by lia.
  replace (2 ^ (8 * Z.of_nat n)) with (256 ^ Z.of_nat n) by (by rewrite Z.pow_mul_r by lia).
  assert (0 < 256 ^ Z.of_nat n) by (apply Z.pow_pos_nonneg; lia).
  rewrite (Z.mul_comm 256), (Z.rem_mul_r z (256 ^ Z.of_nat n) 256) by lia. change (2 ^ 8) with 256. lia.
Qed.
Lemma to_big_ok n z : bytes_ok (to_big n z) = true.
Proof.
  unfold bytes_ok. induction n as [|n IH]; cbn; [done|]. rewrite IH, andb_true_r. unfold is_byte.
  pose proof (wrapu_range 8 (Z.shiftr z (8 * Z.of_nat n)) ltac:(lia)).
  by rewrite (proj2 (Z.leb_le _ _)), (proj2 (Z.ltb_lt _ _)) by lia.
Qed.
Lemma iconv_mod t z : (0 < int_bytes t)%nat -> in_range t z -> iconv t (z mod 2 ^ ibits t) = z.
Proof.
  intros Hn Hz. rewrite <- (iconv_id t z Hn Hz) at 2. unfold iconv, wraps, wrapu.
  assert (0 < 2 ^ ibits t) by (apply Z.pow_pos_nonneg; unfold ibits; lia).
  destruct (int_signed t); [|by apply Z.mod_mod; lia]. by rewrite Zplus_mod_idemp_l.
Qed.
Section of_bytes.
Context {CF : CppFloat}.
Lemma of_bytes_int t z : (0 < int_bytes t)%nat -> in_range t z -> of_bytes (NI t) (to_big (int_bytes t) z) = z.
Proof.
  intros Hn Hz. cbn. rewrite from_big_to_big. rewrite <- (iconv_mod t z Hn Hz) at 2. f_equal. unfold ibits.
  rewrite Z.pow_mul_r by lia. change (2 ^ 8) with 256. lia.
Qed.
Lemma of_bytes_float f n z : 0 <= z < 256 ^ Z.of_nat n -> of_bytes (NF f) (to_big n z) = z.
Proof. intros Hz. cbn. rewrite from_big_to_big, Z.mod_small; lia. Qed.
End of_bytes.

Section round_trip.
Context {CF : CppFloat}.
Variable size_bits : Z.
Variable type_first : bool.
Variable mem : list Z.
Abbreviation len := (Z.of_nat (length mem)).
Hypothesis Hbits : 0 < size_bits.
Hypothesis Hmem : bytes_ok mem = true.
Hypothesis Hsize : len < 2 ^ size_bits.
(** [l] stands at [p] in the frame. *)
Definition has (p : Z) (l : list Z) : Prop := 0 <= p /\ exists post, drop (Z.to_nat p) mem = l ++ post.
(** The iterator is at [p]: it shows the header there, or the frame ends there. *)
Definition stands (p : Z) (it : InIterator) : Prop :=
  (p = len /\ type it = invalid) \/
  (0 <= p < len /\ data it = p /\ size it = len - p /\ byte_at mem p ≫= header = Some (type it)).

Lemma cons_ne {A} (x : A) l : x :: l <> []. Proof. done. Qed.
Lemma has_app p a b : has p (a ++ b) <-> has p a /\ has (p + Z.of_nat (length a)) b.
Proof.
  unfold has. split.
  - intros [Hp [post H]]. split; (split; [lia|]); [exists (b ++ post); by rewrite H, app_assoc|].
    exists post. rewrite Z2Nat.inj_add, <- drop_drop, H, <- app_assoc, Nat2Z.id by lia. by rewrite drop_app_length.
  - intros [[Hp [post H]] [_ [post' H']]]. split; [done|]. exists post'.
    rewrite Z2Nat.inj_add, <- drop_drop, H, Nat2Z.id, drop_app_length in H' by lia. by rewrite H, H', app_assoc.
Qed.
Lemma has_len p l : has p l -> l <> [] -> p + Z.of_nat (length l) <= len.
Proof.
  intros [Hp [post H]] Hl. apply (f_equal length) in H. rewrite length_drop, length_app in H. destruct l; [done|]. cbn in *. lia.
Qed.
Lemma has_bytes p l : has p l -> p <= len -> bytes_at mem (Z.of_nat (length l)) p = Some l.
Proof.
  intros Hh Hl. assert (p + Z.of_nat (length l) <= len) as H. { destruct l; [cbn; lia|by apply has_len]. }
  destruct Hh as [Hp [post E]]. rewrite bytes_in by (done || lia). by rewrite E, Nat2Z.id, take_app_length.
Qed.
Lemma has_byte p b l : has p (b :: l) -> byte_at mem p = Some b.
Proof.
  intros [Hp [post E]]. unfold byte_at. rewrite (proj2 (Z.leb_le _ _)) by done.
  rewrite <- (Nat.add_0_r (Z.to_nat p)), <- lookup_drop, E. done.
Qed.
Lemma stands_at p b l it : has p (b :: l) -> stands p it ->
  data it = p /\ size it = len - p /\ header b = Some (type it) /\ p + Z.of_nat (length (b :: l)) <= len.
Proof.
  intros Hh Hs. pose proof (has_len _ _ Hh ltac:(done)) as Hl. destruct Hs as [[-> _]|(Hp & Hd & Hz & Hb)]; [cbn in Hl; lia|].
  by rewrite (has_byte _ _ _ Hh) in Hb.
Qed.
Lemma advance_to p step it : stands p it -> p < len -> 0 <= step -> p + step <= len ->
  exists it', advance mem step it = Some it' /\ stands (p + step) it'.
Proof.
  intros Hs Hp Hst Hl. destruct Hs as [[-> _]|(Hp' & Hd & Hz & Hb)]; [lia|]. unfold advance. rewrite Hz, Hd.
  destruct (Z.leb_spec (len - p) step); [eexists; split; [done|]; left; cbn; split; [lia|done]|].
  destruct (byte_in mem Hmem (p + step)) as (b & Eb & Hbb); [lia|]. destruct (header_total b Hbb) as [h Hh]. rewrite Eb. cbn. rewrite Hh. cbn.
  eexists. split; [done|]. right. cbn. rewrite Eb. cbn. split; [lia|]. split; [done|]. split; [lia|done].
Qed.
(** A read that finds its value and moves past it. *)
Definition finds {A} (get : InIterator -> option (option A * InIterator)) (l : list Z) (Q : A -> Prop) : Prop :=
  forall p it, has p l -> stands p it -> exists a it', get it = Some (Some a, it') /\ stands (p + Z.of_nat (length l)) it' /\ Q a.
Lemma then_advance_to {A} p (l : list Z) it r (a : A) : l <> [] -> has p l -> stands p it -> r = Some (Some a) ->
  exists it', then_advance mem (Z.of_nat (length l)) it r = Some (Some a, it') /\ stands (p + Z.of_nat (length l)) it'.
Proof.
  intros Hl Hh Hs ->. unfold then_advance. cbn. pose proof (has_len _ _ Hh Hl) as Hle.
  destruct (advance_to p (Z.of_nat (length l)) it Hs) as (it' & -> & ?); [destruct l; [done|cbn [length] in *; lia]|lia|done|]. by eexists.
Qed.
Lemma trivial_found T ty n z p it : has p (ty :: to_big n z) -> stands p it -> sizeof T = Z.of_nat n ->
  of_bytes T (to_big n z) = z -> getTrivial mem T (data it + 1) = Some z /\ (size it <? sizeof T + 1) = false.
Proof.
  intros Hh Hs HT Hz. destruct (stands_at _ _ _ _ Hh Hs) as (Hd & Hsz & _ & Hl). cbn [length] in Hl. rewrite length_to_big in Hl.
  split; [|apply Z.ltb_ge; lia]. unfold getTrivial. rewrite Hd, HT.
  change (ty :: to_big n z) with ([ty] ++ to_big n z) in Hh. apply has_app in Hh as [_ Hh]. change (Z.of_nat (length [ty])) with 1 in Hh.
  pose proof (has_bytes _ _ Hh ltac:(lia)) as E. rewrite length_to_big in E. rewrite E. cbn. by rewrite Hz.
Qed.
(** A number within the range of both types is read. *)
Lemma trivialWith_int T U ty z p it : has p (ty :: to_big (int_bytes T) z) -> stands p it ->
  (0 < int_bytes T)%nat -> (0 < int_bytes U)%nat -> in_range T z -> in_range U z ->
  getTrivialWith mem (NI T) (NI U) it = Some (Some z).
Proof.
  intros Hh Hs HT HU HzT HzU.
  destruct (trivial_found (NI T) ty (int_bytes T) z p it Hh Hs eq_refl (of_bytes_int T z HT HzT)) as [E1 E2].
  unfold getTrivialWith. rewrite E1, E2. cbn [mbind option_bind]. cbn [num_conv positive_ same_num].
  rewrite (iconv_id U z HU HzU), (iconv_id T z HT HzT), eqb_reflx, Z.eqb_refl, andb_false_r. done.
Qed.
Lemma trivialWith_float f ty n z p it : has p (ty :: to_big n z) -> stands p it -> sizeof (NF f) = Z.of_nat n ->
  0 <= z < 256 ^ Z.of_nat n -> getTrivialWith mem (NF f) (NF f) it = Some (Some z).
Proof.
  intros Hh Hs Hn Hz. destruct (trivial_found (NF f) ty n z p it Hh Hs Hn (of_bytes_float f n z Hz)) as [E1 E2].
  unfold getTrivialWith. rewrite E1, E2. cbn [mbind option_bind num_conv]. rewrite decide_True by done.
  by rewrite eqb_reflx, Z.ltb_irrefl.
Qed.
Lemma header_small z : 0 <= z < 128 -> header z = Some fixuint.
Proof.
  intros Hz. destruct (header_total z) as [h Hh]; [unfold is_byte; rewrite (proj2 (Z.leb_le _ _)), (proj2 (Z.ltb_lt _ _)) by lia; done|].
  assert (forallb (fun n => bool_decide (header (Z.of_nat n) = Some fixuint)) (seq 0 128) = true) as Ha by (by vm_compute).
  rewrite forallb_forall in Ha. specialize (Ha (Z.to_nat z) ltac:(apply in_seq; lia)). rewrite Z2Nat.id in Ha by lia.
  by apply bool_decide_eq_true in Ha.
Qed.
Lemma header_neg z : -32 <= z < 0 -> header (wrapu 8 z) = Some fixint.
Proof.
  intros Hz. assert (forallb (fun n => bool_decide (header (wrapu 8 (Z.of_nat n - 32)) = Some fixint)) (seq 0 32) = true) as Ha by (by vm_compute).
  rewrite forallb_forall in Ha. specialize (Ha (Z.to_nat (z + 32)) ltac:(apply in_seq; lia)). rewrite Z2Nat.id in Ha by lia.
  apply bool_decide_eq_true in Ha. by replace (z + 32 - 32) with z in Ha by lia.
Qed.
Lemma header_fix (base n : Z) (h : Headers) (m : nat) :
  forallb (fun k => bool_decide (header (Z.lor base (Z.of_nat k)) = Some h)) (seq 0 m) = true ->
  0 <= n < Z.of_nat m -> header (Z.lor base n) = Some h.
Proof.
  intros Ha Hn. rewrite forallb_forall in Ha. specialize (Ha (Z.to_nat n) ltac:(apply in_seq; lia)). rewrite Z2Nat.id in Ha by lia.
  by apply bool_decide_eq_true in Ha.
Qed.
Lemma land_fix (base mask n : Z) (m : nat) :
  forallb (fun k => Z.land (Z.lor base (Z.of_nat k)) mask =? Z.of_nat k) (seq 0 m) = true ->
  0 <= n < Z.of_nat m -> Z.land (Z.lor base n) mask = n.
Proof.
  intros Ha Hn. rewrite forallb_forall in Ha. specialize (Ha (Z.to_nat n) ltac:(apply in_seq; lia)). rewrite Z2Nat.id in Ha by lia.
  by apply Z.eqb_eq in Ha.
Qed.
Lemma enc_int_nonempty z : enc_int z <> [].
Proof. unfold enc_int. repeat case_match; done. Qed.
Ltac by_header H ty h t :=
  let E1 := fresh in let E2 := fresh in
  destruct (H ty h t) as [E1 E2]; [done|done|cbn; lia|unfold in_range, ibits; cbn; lia|];
  unfold integer_value; rewrite E1, E2; done.
(** The value the header of an encoded integer leads to. *)
Lemma integer_found U z p it : has p (enc_int z) -> stands p it -> (0 < int_bytes U <= 8)%nat -> in_range U z ->
  integer_value mem (NI U) it = Some (Some z) /\ nonCompositeSizeof (type it) = Z.of_nat (length (enc_int z)).
Proof.
  intros Hh Hs HU Hz. pose proof (in_range_64 U z HU Hz) as H64. unfold enc_int in *.
  assert (forall ty h t, has p (ty :: to_big (int_bytes t) z) -> header ty = Some h -> (0 < int_bytes t)%nat -> in_range t z ->
    type it = h /\ getTrivialWith mem (NI t) (NI U) it = Some (Some z)) as Ht.
  { intros ty h t H1 H2 H3 H4. destruct (stands_at _ _ _ _ H1 Hs) as (_ & _ & H5 & _). rewrite H2 in H5. injection H5 as <-.
    split; [done|]. apply (trivialWith_int t U ty z p it); try done. lia. }
  destruct (Z.ltb_spec z 0).
  - destruct (Z.leb_spec (-32) z).
    { destruct (stands_at _ _ _ _ Hh Hs) as (Hd & _ & Hhd & _). rewrite header_neg in Hhd by lia. injection Hhd as Ht'.
      unfold integer_value. rewrite <- Ht', Hd, (has_byte _ _ _ Hh). cbn [mbind option_bind]. split; [|done].
      assert (iconv i8 (wrapu 8 z) = z) as E by (apply (iconv_mod i8); [cbn; lia|unfold in_range, ibits; cbn; lia]).
      rewrite E. cbn [num_conv positive_]. rewrite (iconv_id U z) by (done || lia). by rewrite eqb_reflx. }
    destruct (Z.leb_spec (- 2 ^ 7) z);
      [by_header Ht 0xD0 int8 i8|].
    destruct (Z.leb_spec (- 2 ^ 15) z);
      [by_header Ht 0xD1 int16 i16|].
    destruct (Z.leb_spec (- 2 ^ 31) z);
      [by_header Ht 0xD2 int32 i32|].
    by_header Ht 0xD3 int64 i64.
  - destruct (Z.ltb_spec z 128).
    { rewrite wrapu_small in * by lia. destruct (stands_at _ _ _ _ Hh Hs) as (Hd & _ & Hhd & _).
      rewrite header_small in Hhd by lia. injection Hhd as Ht'.
      unfold integer_value. rewrite <- Ht', Hd, (has_byte _ _ _ Hh). cbn [mbind option_bind num_conv].
      by rewrite (iconv_id U z) by (done || lia). }
    destruct (Z.leb_spec z (2 ^ 8 - 1));
      [by_header Ht 0xCC uint8 u8|].
    destruct (Z.leb_spec z (2 ^ 16 - 1));
      [by_header Ht 0xCD uint16 u16|].
    destruct (Z.leb_spec z (2 ^ 32 - 1));
      [by_header Ht 0xCE uint32 u32|].
    by_header Ht 0xCF uint64 u64.
Qed.
Lemma finds_int U z : (0 < int_bytes U <= 8)%nat -> in_range U z -> finds (GetInteger mem (NI U)) (enc_int z) (fun v => v = z).
Proof.
  intros HU Hz p it Hh Hs. destruct (integer_found U z p it Hh Hs HU Hz) as [E1 E2]. unfold GetInteger. rewrite E2.
  destruct (then_advance_to p _ it _ z (enc_int_nonempty z) Hh Hs E1) as (it' & -> & ?). by eexists _, _.
Qed.
Lemma finds_bool (b : bool) : finds (GetBool mem) [if b then 0xc2 else 0xc3] (fun v => v = negb b).
Proof.
  intros p it Hh Hs. destruct (then_advance_to p _ it (Some (Some (negb b))) (negb b) (cons_ne _ _) Hh Hs eq_refl) as (it' & E & ?).
  destruct (stands_at _ _ _ _ Hh Hs) as (_ & _ & Hhd & _). unfold then_advance in E. cbn [length mbind option_bind] in E.
  change (Z.of_nat 1) with 1 in E. unfold GetBool. destruct b; injection Hhd as <-; cbn [negb] in E; cbn [mbind option_bind]; rewrite E; by eexists _, _.
Qed.
Lemma finds_float f bits : 0 <= bits < 256 ^ sizeof (NF f) -> finds (GetFloat mem (NF f)) (enc_float f bits) (fun v => v = bits).
Proof.
  intros Hb p it Hh Hs. unfold enc_float in *.
  destruct f; destruct (stands_at _ _ _ _ Hh Hs) as (_ & _ & Hhd & _); injection Hhd as Ht; unfold GetFloat; rewrite <- Ht;
    match goal with |- context [getTrivialWith mem ?F ?F it] =>
      destruct (then_advance_to p _ it (getTrivialWith mem F F it) bits (cons_ne _ _) Hh Hs) as (it' & E & ?); [by eapply trivialWith_float|] end;
    cbn [length] in E; rewrite length_to_big in E; [change (Z.of_nat 5) with 5 in E|change (Z.of_nat 9) with 9 in E]; rewrite E; by eexists _, _.
Qed.
(** A composite of [l] after its header, which gives its length. *)
Definition shows (l : list Z) (v : View) : Prop := view mem v = Some l.
Lemma view_found p pre l : has p (pre ++ l) -> p + Z.of_nat (length (pre ++ l)) <= len ->
  shows l {| at_ := p + Z.of_nat (length pre); vsize := Z.of_nat (length l) |}.
Proof. intros Hh Hl. apply has_app in Hh as [_ Hh]. rewrite length_app in Hl. apply has_bytes; [done|lia]. Qed.
Lemma composite_then p (l : list Z) it v : l <> [] -> has p l -> stands p it ->
  composite_view size_bits mem it = Some (Some v) -> nonCompositeSizeof (type it) + vsize v = Z.of_nat (length l) ->
  exists it', GetComposite size_bits mem it = Some (Some v, it') /\ stands (p + Z.of_nat (length l)) it'.
Proof.
  intros Hl Hh Hs E Hn. pose proof (has_len _ _ Hh Hl) as Hle. assert (0 <= p) by (by destruct Hh).
  unfold GetComposite. rewrite E. cbn. rewrite Hn, wrapu_small by lia.
  destruct (advance_to p (Z.of_nat (length l)) it Hs) as (it' & -> & ?); [destruct l; [done|cbn [length] in *; lia]|lia|done|]. by eexists.
Qed.
Lemma getComposite_found T ty b p it : has p ((ty :: to_big (int_bytes T) (Z.of_nat (length b))) ++ b) -> stands p it ->
  (0 < int_bytes T)%nat -> int_signed T = false -> Z.of_nat (length b) < 2 ^ ibits T ->
  getComposite size_bits mem T 0 it =
    Some (Some {| at_ := p + Z.of_nat (int_bytes T) + 1; vsize := Z.of_nat (length b) |}).
Proof.
  intros Hh Hs HT Hu Hb. pose proof Hh as [Hh1 _]%has_app. pose proof (has_len _ _ Hh ltac:(done)) as Hl.
  rewrite length_app in Hl. cbn [length] in Hl. rewrite length_to_big in Hl. assert (0 <= p) by (by destruct Hh).
  assert (in_range T (Z.of_nat (length b))) as Hr by (unfold in_range; rewrite Hu; lia).
  destruct (trivial_found (NI T) ty _ _ p it Hh1 Hs eq_refl (of_bytes_int T _ HT Hr)) as [E1 E2].
  destruct (stands_at _ _ _ _ Hh1 Hs) as (Hd & Hsz & _ & _). unfold getComposite. rewrite E1. cbn [mbind option_bind].
  cbn [sizeof] in E2. replace (1 + Z.of_nat (int_bytes T) + 0) with (Z.of_nat (int_bytes T) + 1) by lia. rewrite E2.
  assert (2 ^ size_bits <= 2 ^ Z.max size_bits (ibits T)) by (apply Z.pow_le_mono_r; lia).
  rewrite (wrapu_small (Z.max _ _)) by lia. rewrite (proj2 (Z.ltb_ge _ _)) by lia. rewrite wrapu_small by lia.
  rewrite Hd, !Z.add_0_r. done.
Qed.
Lemma composite_found (is8 is16 is32 : Headers) _8 _16 _32 b p it :
  header _8 = Some is8 -> header _16 = Some is16 -> header _32 = Some is32 ->
  (is8, is16, is32) = (bin8, bin16, bin32) \/ (is8, is16, is32) = (str8, str16, str32) ->
  short_bytes b -> has p (enc_bytes _8 _16 _32 b) -> stands p it ->
  exists v it', GetComposite size_bits mem it = Some (Some v, it') /\ stands (p + Z.of_nat (length (enc_bytes _8 _16 _32 b))) it' /\ shows b v.
Proof.
  intros E8 E16 E32 Hk Hb Hh Hs. unfold short_bytes in Hb. unfold enc_bytes in *.
  assert (forall ty h T, has p ((ty :: to_big (int_bytes T) (Z.of_nat (length b))) ++ b) -> header ty = Some h -> (0 < int_bytes T)%nat ->
    int_signed T = false -> Z.of_nat (length b) < 2 ^ ibits T -> nonCompositeSizeof h = Z.of_nat (int_bytes T) + 1 ->
    (type it = h -> composite_view size_bits mem it = getComposite size_bits mem T 0 it) ->
    exists v it', GetComposite size_bits mem it = Some (Some v, it') /\
      stands (p + Z.of_nat (length ((ty :: to_big (int_bytes T) (Z.of_nat (length b))) ++ b))) it' /\ shows b v) as H.
  { intros ty h T Hh' Eh HT Hu Hl Hnc Hc. pose proof Hh' as [Hh1 _]%has_app.
    destruct (stands_at _ _ _ _ Hh1 Hs) as (_ & _ & Ht & _). rewrite Eh in Ht. injection Ht as Ht.
    pose proof (getComposite_found T ty b p it Hh' Hs HT Hu Hl) as Eg.
    destruct (composite_then p _ it _ (cons_ne _ _) Hh' Hs ltac:(rewrite Hc; [exact Eg|done])) as (it' & E & Hs').
    { rewrite <- Ht, Hnc. cbn [vsize app length]. rewrite length_app, length_to_big. lia. }
    eexists _, it'. split; [exact E|]. split; [done|].
    pose proof (view_found p _ b Hh' (has_len _ _ Hh' ltac:(done))) as Hv. cbn [length] in Hv. rewrite length_to_big in Hv.
    by replace (p + Z.of_nat (int_bytes T) + 1) with (p + Z.of_nat (S (int_bytes T))) by lia. }
  destruct (Z.leb_spec (Z.of_nat (length b)) (2 ^ 8 - 1)); [apply (H _8 is8 u8)|
    destruct (Z.leb_spec (Z.of_nat (length b)) (2 ^ 16 - 1)); [apply (H _16 is16 u16)|apply (H _32 is32 u32)]];
    try done; try (unfold ibits; cbn; lia); destruct Hk as [[= -> -> ->]|[= -> -> ->]]; try done;
    intros Et; unfold composite_view; by rewrite Et.
Qed.
Lemma finds_binary b : short_bytes b -> finds (GetComposite size_bits mem) (enc_bytes 0xc4 0xc5 0xc6 b) (shows b).
Proof.
  intros Hb p it Hh Hs. by apply (composite_found bin8 bin16 bin32); try done; left.
Qed.
Lemma finds_string b : short_bytes b ->
  finds (fun it => if string_header (type it) then GetComposite size_bits mem it else Some (None, it)) (enc_string b) (shows b).
Proof.
  intros Hb p it Hh Hs.
  assert (string_header (type it) = true /\ exists v it', GetComposite size_bits mem it = Some (Some v, it') /\
    stands (p + Z.of_nat (length (enc_string b))) it' /\ shows b v) as [-> H]; [|exact H].
  unfold enc_string in *. destruct (Z.leb_spec (Z.of_nat (length b)) 31).
  - destruct (stands_at _ _ _ _ Hh Hs) as (Hd & Hsz & Ht & Hl).
    rewrite (header_fix _ _ fixstr 32) in Ht by first [by vm_compute|lia]. injection Ht as Ht. rewrite <- Ht. split; [done|].
    assert (composite_view size_bits mem it = Some (Some {| at_ := p + 1; vsize := Z.of_nat (length b) |})) as Ec.
    { unfold composite_view. rewrite <- Ht, Hd, (has_byte _ _ _ Hh). cbn [mbind option_bind].
      rewrite (land_fix 0xA0 31 _ 32) by first [by vm_compute|lia]. cbn [length] in Hl. rewrite (proj2 (Z.ltb_ge _ _)) by lia. done. }
    destruct (composite_then p _ it _ (cons_ne _ _) Hh Hs Ec) as (it' & E & Hs').
    { rewrite <- Ht. cbn [length vsize nonCompositeSizeof]. lia. }
    eexists _, it'. split; [exact E|]. split; [done|]. exact (view_found p [Z.lor 0xA0 (Z.of_nat (length b))] b Hh Hl).
  - assert (forall ty l, has p (ty :: l) -> header ty = Some str8 \/ header ty = Some str16 \/ header ty = Some str32 -> string_header (type it) = true) as Hst.
    { intros ty l H1 H2. destruct (stands_at _ _ _ _ H1 Hs) as (_ & _ & H3 & _). destruct H2 as [E|[E|E]]; rewrite E in H3; by injection H3 as <-. }
    split; [|by apply (composite_found str8 str16 str32); try done; right].
    unfold enc_bytes in Hh. repeat case_match; (eapply Hst; [exact Hh|]); auto.
Qed.
Lemma begin_found c n p it : 0 <= n <= 15 -> has p (enc_array c n) -> stands p it ->
  exists it', parse_begin size_bits mem c n it = Some (Some 0, it') /\ stands (p + Z.of_nat (length (enc_array c n))) it'.
Proof.
  intros Hn Hh Hs. unfold parse_begin, enc_array in *. destruct c; [eexists; split; [done|]; cbn; by rewrite Z.add_0_r|].
  destruct (stands_at _ _ _ _ Hh Hs) as (Hd & Hsz & Ht & Hl). cbn [length] in Hl.
  rewrite (header_fix _ _ fixarray 16) in Ht by first [by vm_compute|lia]. injection Ht as Ht.
  destruct (then_advance_to p _ it (Some (Some n)) n (cons_ne _ _) Hh Hs eq_refl) as (it' & E & Hs').
  unfold GetArraySize. rewrite <- Ht, Hd, (has_byte _ _ _ Hh). rewrite (proj2 (Z.eqb_neq _ _)) by lia.
  cbn [fmap option_fmap option_map]. rewrite (land_fix 0x90 15 _ 16) by first [by vm_compute|lia].
  cbn [length] in E. change (Z.of_nat 1) with 1 in E. rewrite E. cbn. exists it'.
  by rewrite Z.ltb_irrefl, Z.sub_diag.
Qed.
Definition finds_value (parse : InIterator -> option (option (MVal View) * InIterator)) (v : MVal (list Z)) (l : list Z) : Prop :=
  finds parse l (fun r => content mem r = Some (received v)).
Lemma finds_fields (parse : MType -> InIterator -> option (option (MVal View) * InIterator)) (ts : list MType) vs :
  Forall (fun t => forall v, typed t v -> finds_value (parse t) v (enc v false)) ts -> typed_all ts vs ->
  finds (parse_fields parse ts) (flat_map (fun v => enc v false) vs) (fun rs => mapM (content mem) rs = Some (map received vs)).
Proof.
  intros IH. revert vs. induction IH as [|t ts Ht _ IH]; intros [|v vs] Ha; try done; intros p it Hh Hs.
  { cbn. exists [], it. rewrite Z.add_0_r. done. }
  destruct Ha as [Hv Ha]. cbn [flat_map] in Hh. apply has_app in Hh as [Hh1 Hh2].
  destruct (Ht v Hv p it Hh1 Hs) as (r & it1 & E1 & Hs1 & Hr).
  destruct (IH vs Ha _ it1 Hh2 Hs1) as (rs & it2 & E2 & Hs2 & Hrs).
  exists (r :: rs), it2. cbn [parse_fields]. rewrite E1. cbn. rewrite E2. cbn. split; [done|]. split.
  - rewrite length_app, Nat2Z.inj_add. by rewrite Z.add_assoc.
  - rewrite Hr. cbn. rewrite Hrs. done.
Qed.
Lemma finds_map {A} get (Q : A -> Prop) (f : A -> MVal View) v l : finds get l Q ->
  (forall a, Q a -> content mem (f a) = Some (received v)) ->
  finds_value (fun it => r ← get it; Some (option_map f r.1, r.2)) v l.
Proof.
  intros Hg HQ p it Hh Hs. destruct (Hg p it Hh Hs) as (a & it' & E & Hs' & Ha). rewrite E. cbn. eexists _, it'.
  split; [done|]. split; [done|]. by apply HQ.
Qed.
Lemma finds_Parse t : forall v c, typed t v -> finds_value (Parse size_bits type_first mem t c) v (enc v c).
Proof.
  induction t as [t Ht|ts IH|pt ts IHp IH] using MType_tree_ind; intros v c Hv.
  - destruct t; try done; destruct v; try done; cbn [Parse enc].
    + destruct Hv as [Hn Hr]. eapply finds_map; [by apply finds_int|]. by intros a ->.
    + eapply finds_map; [by apply finds_bool|]. by intros a ->.
    + destruct Hv as [-> Hb]. eapply finds_map; [by apply finds_float|]. by intros a ->.
    + pose proof (finds_map _ _ VS (VS s) _ (finds_string s Hv)) as H. cbn beta in H.
      intros p it Hh Hs. destruct (H ltac:(intros a Ha; cbn; by rewrite Ha) p it Hh Hs) as (r & it' & E & ?). exists r, it'.
      split; [|done]. by destruct (string_header (type it)).
    + eapply finds_map; [by apply finds_binary|]. intros a Ha. cbn. by rewrite Ha.
  - pose proof (typed_fields _ _ Hv) as Hc. apply typed_root in Hv as (vs & -> & Hn & Ha). intros p it Hh Hs. cbn [enc] in *.
    pose proof (countFields_pos (TRoot ts)) as Hp. rewrite Hc in *. apply has_app in Hh as [Hh1 Hh2].
    destruct (begin_found c _ p it (conj Hp Hn) Hh1 Hs) as (it1 & E1 & Hs1).
    destruct (finds_fields (fun f => Parse size_bits type_first mem f false) ts vs
      (Forall_impl _ _ _ IH (fun f Hx v => Hx v false)) Ha _ it1 Hh2 Hs1) as (rs & it2 & E2 & Hs2 & Hrs).
    exists (VRoot rs), it2. cbn [Parse]. rewrite E1. cbn [mbind option_bind]. rewrite E2. cbn [mbind option_bind].
    assert (parse_end size_bits type_first mem c 0 it2 = Some it2) as -> by (by destruct c). split; [done|]. split.
    + by rewrite length_app, Nat2Z.inj_add, Z.add_assoc.
    + cbn. by rewrite Hrs.
  - pose proof (typed_fields _ _ Hv) as Hc. apply typed_child in Hv as (pv & vs & -> & Hn & _ & Hpv & Ha). intros p it Hh Hs. cbn [enc] in *.
    pose proof (countFields_pos (TChild pt ts)) as Hp. rewrite Hc in *. apply has_app in Hh as [Hh1 Hh2]. apply has_app in Hh2 as [Hh2 Hh3].
    destruct (begin_found c _ p it (conj Hp Hn) Hh1 Hs) as (it1 & E1 & Hs1).
    destruct (IHp pv true Hpv _ it1 Hh2 Hs1) as (r & it2 & E2 & Hs2 & Hr).
    destruct (finds_fields (fun f => Parse size_bits type_first mem f false) ts vs
      (Forall_impl _ _ _ IH (fun f Hx v => Hx v false)) Ha _ it2 Hh3 Hs2) as (rs & it3 & E3 & Hs3 & Hrs).
    exists (VChild r rs), it3. cbn [Parse]. rewrite E1. cbn [mbind option_bind]. rewrite E2. cbn [mbind option_bind]. rewrite E3. cbn [mbind option_bind].
    assert (parse_end size_bits type_first mem c 0 it3 = Some it3) as -> by (by destruct c). split; [done|]. split.
    + by rewrite !length_app, !Nat2Z.inj_add, !Z.add_assoc.
    + cbn. rewrite Hr. cbn. by rewrite Hrs.
Qed.
End round_trip.

(** ** Lemmas: integers are read exactly or not at all *)
Definition in_rangeb (t : IntT) (z : Z) : bool :=
  if int_signed t then ((- 2 ^ (ibits t - 1) <=? z) && (z <? 2 ^ (ibits t - 1)))%bool else ((0 <=? z) && (z <? 2 ^ ibits t))%bool.
Lemma in_rangeb_spec t z : in_rangeb t z = true <-> in_range t z.
Proof. unfold in_rangeb, in_range. destruct (int_signed t); rewrite andb_true_iff; lia. Qed.
Lemma iconv_range t z : (0 < int_bytes t)%nat -> in_range t (iconv t z).
Proof.
  intros Hn. unfold in_range, iconv, wraps, wrapu.
  assert (2 ^ ibits t = 2 * 2 ^ (ibits t - 1)) as E by (rewrite <- Z.pow_succ_r by (unfold ibits; lia); f_equal; lia).
  assert (0 < 2 ^ (ibits t - 1)) by (apply Z.pow_pos_nonneg; unfold ibits; lia).
  destruct (int_signed t); [|apply Z.mod_pos_bound; lia].
  pose proof (Z.mod_pos_bound (z + 2 ^ (ibits t - 1)) (2 ^ ibits t) ltac:(lia)). lia.
Qed.
#[export] Instance in_range_dec t z : Decision (in_range t z).
Proof. unfold in_range. destruct (int_signed t); apply _. Defined.
(** A conversion moves a value by a multiple of the size of the type. *)
Lemma iconv_shift t z : exists k, iconv t z = z + k * 2 ^ ibits t.
Proof.
  unfold iconv, wraps, wrapu. destruct (int_signed t).
  - exists (- ((z + 2 ^ (ibits t - 1)) / 2 ^ ibits t)). rewrite Zmod_eq_full by (apply Z.pow_nonzero; unfold ibits; lia). lia.
  - exists (- (z / 2 ^ ibits t)). rewrite Zmod_eq_full by (apply Z.pow_nonzero; unfold ibits; lia). lia.
Qed.
Lemma conversion_checked T U v : (0 < int_bytes T)%nat -> (0 < int_bytes U)%nat -> in_range T v ->
  (negb (eqb (0 <? iconv U v) (0 <? v)) ||
   ((Z.of_nat (int_bytes U) <? Z.of_nat (int_bytes T)) && negb (v =? iconv T (iconv U v))))%bool = negb (in_rangeb U v).
Proof.
  intros HT HU HvT. destruct (in_rangeb U v) eqn:E.
  { apply in_rangeb_spec in E. rewrite (iconv_id U v HU E), (iconv_id T v HT HvT), eqb_reflx, Z.eqb_refl, andb_false_r. done. }
  cbn [negb]. destruct (eqb (0 <? iconv U v) (0 <? v)) eqn:Es; [|done]. apply eqb_prop in Es. cbn [negb orb].
  assert (~ in_range U v) as Hno by (by rewrite <- in_rangeb_spec, E).
  pose proof (iconv_range U v HU) as Hr. destruct (iconv_shift U v) as [k Hk].
  assert (2 ^ ibits U = 2 * 2 ^ (ibits U - 1)) as EU by (rewrite <- Z.pow_succ_r by (unfold ibits; lia); f_equal; lia).
  assert (2 ^ ibits T = 2 * 2 ^ (ibits T - 1)) as ET by (rewrite <- Z.pow_succ_r by (unfold ibits; lia); f_equal; lia).
  assert (0 < 2 ^ (ibits U - 1)) by (apply Z.pow_pos_nonneg; unfold ibits; lia).
  assert (0 < 2 ^ (ibits T - 1)) by (apply Z.pow_pos_nonneg; unfold ibits; lia).
  assert ((0 < iconv U v <-> 0 < v)) as Hs.
  { pose proof (Z.ltb_spec 0 (iconv U v)) as H1. pose proof (Z.ltb_spec 0 v) as H2. rewrite Es in H1. destruct (0 <? v); inverts H1; inverts H2; lia. }
  destruct (Z.ltb_spec (Z.of_nat (int_bytes U)) (Z.of_nat (int_bytes T))) as [Hlt|Hle].
  - cbn [andb]. apply negb_true_iff, Z.eqb_neq. intros Ev.
    assert (2 * 2 ^ ibits U <= 2 ^ ibits T).
    { rewrite <- Z.pow_succ_r by (unfold ibits; lia). apply Z.pow_le_mono_r; unfold ibits in *; lia. }
    destruct (decide (in_range T (iconv U v))) as [Hin|Hout].
    + rewrite (iconv_id T _ HT Hin) in Ev. by rewrite Ev in Hno.
    + destruct (iconv_shift T (iconv U v)) as [j Hj]. rewrite <- Ev in Hj. unfold in_range in *.
      assert (j <= 0 \/ 1 <= j) as [Hj'|Hj'] by lia; destruct (int_signed T), (int_signed U); try lia; nia.
  - exfalso. assert (2 ^ ibits T <= 2 ^ ibits U) by (apply Z.pow_le_mono_r; unfold ibits in *; lia).
    unfold in_range in *. assert (k <= -1 \/ k = 0 \/ 1 <= k) as [Hk'|[->|Hk']] by lia; destruct (int_signed T), (int_signed U); try lia; nia.
Qed.

(** The integer a header announces, by the bytes that follow it. *)
Definition encoded_int (mem : list Z) (it : InIterator) : option Z :=
  let wide (T : IntT) := if size it <? Z.of_nat (int_bytes T) + 1 then None else
    (fun l => iconv T (from_big 0 l)) <$> bytes_at mem (Z.of_nat (int_bytes T)) (data it + 1) in
  match type it with
  | fixuint => byte_at mem (data it)
  | fixint => iconv i8 <$> byte_at mem (data it)
  | uint8 => wide u8 | uint16 => wide u16 | uint32 => wide u32 | uint64 => wide u64
  | int8 => wide i8 | int16 => wide i16 | int32 => wide i32 | int64 => wide i64
  | _ => None
  end.
Lemma header_fixint b : is_byte b = true -> (header b = Some fixuint -> b < 128) /\ (header b = Some fixint -> 224 <= b).
Proof.
  intros Hb. unfold is_byte in Hb. apply andb_true_iff in Hb as [H1 H2].
  assert (forallb (fun n => let b := Z.of_nat n in
    (implb (bool_decide (header b = Some fixuint)) (b <? 128) && implb (bool_decide (header b = Some fixint)) (224 <=? b))%bool) (seq 0 256) = true) as Ha by (by vm_compute).
  rewrite forallb_forall in Ha. specialize (Ha (Z.to_nat b) ltac:(apply in_seq; lia)). rewrite Z2Nat.id in Ha by lia. cbn zeta in Ha.
  apply andb_true_iff in Ha as [Ha1 Ha2]. split; intros E; [rewrite bool_decide_eq_true_2 in Ha1 by done|rewrite bool_decide_eq_true_2 in Ha2 by done]; cbn in *; lia.
Qed.
Lemma small_in_range U z : (0 < int_bytes U)%nat -> 0 <= z < 128 -> in_range U z.
Proof.
  intros HU Hz. unfold in_range, ibits. pose proof (Z.pow_le_mono_r 2 7 (8 * Z.of_nat (int_bytes U) - 1) ltac:(lia) ltac:(lia)).
  pose proof (Z.pow_le_mono_r 2 7 (8 * Z.of_nat (int_bytes U)) ltac:(lia) ltac:(lia)). destruct (int_signed U); lia.
Qed.
(** ** Lemmas: what is parsed has the form of its type *)
Fixpoint shaped (t : MType) (v : MVal View) : Prop :=
  let fix all ts vs :=
    match ts, vs with
    | [], [] => True
    | t :: ts, v :: vs => shaped t v /\ all ts vs
    | _, _ => False
    end in
  match t, v with
  | TInt t, VI z => (0 < int_bytes t)%nat -> in_range t z
  | TBool, VB _ | TString, VS _ | TBinary, VBin _ => True
  | TFloat f, VF g _ => f = g
  | TRoot ts, VRoot vs => all ts vs
  | TChild p ts, VChild pv vs => shaped p pv /\ all ts vs
  | _, _ => False
  end.
Section shapes.
Context {CF : CppFloat}.
Variable size_bits : Z.
Variable type_first : bool.
Variable mem : list Z.
Lemma trivialWith_range T U it z : getTrivialWith mem T (NI U) it = Some (Some z) -> (forall f, T <> NF f) ->
  (0 < int_bytes U)%nat -> in_range U z.
Proof.
  unfold getTrivialWith. intros H HT HU. case_match; [done|]. destruct (getTrivial mem T _) as [v|]; [|done]. cbn in H.
  destruct T as [k|f]; [|by exfalso; apply (HT f)]. repeat case_match; try done. injection H as <-. by apply iconv_range.
Qed.
Lemma GetInteger_range U it z it' : GetInteger mem (NI U) it = Some (Some z, it') -> (0 < int_bytes U)%nat -> in_range U z.
Proof.
  intros H HU. unfold GetInteger, then_advance in H. destruct (integer_value mem (NI U) it) as [[v|]|] eqn:E; [|done|done].
  cbn in H. destruct (advance mem _ it); [|done]. cbn in H. injection H as -> ->. unfold integer_value in E.
  destruct (type it); try done; try (by eapply trivialWith_range); destruct (byte_at mem (data it)); try done; cbn in E.
  - injection E as <-. by apply iconv_range.
  - case_match; [done|]. injection E as <-. by apply iconv_range.
Qed.
Lemma parse_fields_shape (parse : MType -> InIterator -> option (option (MVal View) * InIterator)) fields :
  Forall (fun t => forall it v it', parse t it = Some (Some v, it') -> shaped t v) fields ->
  forall it vs it', parse_fields parse fields it = Some (Some vs, it') -> shaped (TRoot fields) (VRoot vs).
Proof.
  induction 1 as [|t ts Ht _ IH]; intros it vs it' H; cbn in H; [by injection H as <- _|].
  destruct (parse t it) as [[[v|] it1]|] eqn:E; [|done|done]. cbn in H.
  destruct (parse_fields parse ts it1) as [[[vs1|] it2]|] eqn:E2; [|done|done]. cbn in H. injection H as <- _.
  split; [by eapply Ht|]. by eapply IH.
Qed.
Lemma Parse_shape t : forall c it v it', Parse size_bits type_first mem t c it = Some (Some v, it') -> shaped t v.
Proof.
  induction t as [t Ht|ts IH|pt ts IHp IH] using MType_tree_ind; intros c it v it' H.
  - destruct t; try done; cbn [Parse] in H.
    + destruct (GetInteger mem (NI t) it) as [[[z|] it1]|] eqn:E; [|done|done]. injection H as <- _. cbn. by eapply GetInteger_range.
    + destruct (GetBool mem it) as [[[z|] it1]|]; [|done|done]. by injection H as <- _.
    + destruct (GetFloat mem (NF f) it) as [[[z|] it1]|]; [|done|done]. by injection H as <- _.
    + destruct (string_header (type it)); [|done]. destruct (GetComposite _ mem it) as [[[z|] it1]|]; [|done|done]. by injection H as <- _.
    + destruct (GetComposite _ mem it) as [[[z|] it1]|]; [|done|done]. by injection H as <- _.
  - cbn [Parse] in H. destruct (parse_begin _ _ _ _ it) as [[[tail|] it1]|]; [|done|done]. cbn in H.
    destruct (parse_fields _ ts it1) as [[[vs|] it2]|] eqn:E; [|done|done]. cbn in H.
    destruct (parse_end _ _ _ _ _ it2); [|done]. cbn in H. injection H as <- _. eapply parse_fields_shape; [|exact E].
    eapply Forall_impl; [exact IH|]. intros u Hx it0 v0 it0'. apply Hx.
  - cbn [Parse] in H. destruct (parse_begin _ _ _ _ it) as [[[tail|] it1]|]; [|done|done]. cbn in H.
    destruct (Parse _ _ _ pt true it1) as [[[pv|] it2]|] eqn:Ep; [|done|done]. cbn in H.
    destruct (parse_fields _ ts it2) as [[[vs|] it3]|] eqn:E; [|done|done]. cbn in H.
    destruct (parse_end _ _ _ _ _ it3); [|done]. cbn in H. injection H as <- _. split; [by eapply IHp|].
    apply (parse_fields_shape (fun f => Parse size_bits type_first mem f false) ts) with (it := it2) (it' := it3); [|exact E].
    eapply Forall_impl; [exact IH|]. intros u Hx it0 v0 it0'. apply Hx.
Qed.
End shapes.

(** ** Lemmas: the buffer of a writer

    What was written and what is left make up the buffer of [size] bytes. *)
Definition in_buffer (size : Z) (o : OutIterator) : Prop :=
  0 <= room o /\ Z.of_nat (length (written o)) + room o = size /\ initial o = size.
Lemma put_in size l o : in_buffer size o -> Z.of_nat (length l) <= room o -> in_buffer size (put l o).
Proof. unfold in_buffer, put. cbn. rewrite length_app. lia. Qed.
Lemma trivial_in_buffer size ty n v o : in_buffer size o -> in_buffer size (writeTypedTrivial ty n v o).1.
Proof.
  intros H. unfold writeTypedTrivial. destruct (Z.ltb_spec (room o) (Z.of_nat n + 1)); [done|]. cbn.
  rewrite put_app. apply put_in; [done|]. rewrite length_app, length_to_big. cbn. lia.
Qed.
Lemma byte_in_buffer size b o : in_buffer size o -> in_buffer size (if room o =? 0 then (o, false) else (put [b] o, true)).1.
Proof. intros H. destruct (Z.eqb_spec (room o) 0); [done|]. cbn [fst]. apply put_in; [done|]. destruct H. cbn [length]. lia. Qed.
Create HintDb buffer.
#[local] Hint Resolve trivial_in_buffer byte_in_buffer : buffer.
Lemma int_in_buffer size z o : in_buffer size o -> in_buffer size (WriteInteger z o).1.
Proof. intros H. unfold WriteInteger, writeNegInt, writePosInt. repeat (case_match; auto with buffer). Qed.
Lemma comp_in_buffer size a b c l o : in_buffer size o -> in_buffer size (writeComposite a b c l o).1.
Proof.
  intros H. unfold writeComposite.
  assert (forall x ok, in_buffer size x -> in_buffer size (if negb ok then (x, false) else if room x <? Z.of_nat (length l) then (x, false) else (put l x, true)).1) as Hp.
  { intros x [] Hx; cbn [negb]; [|done]. destruct (Z.ltb_spec (room x) (Z.of_nat (length l))); [done|]. by apply put_in. }
  repeat case_match; cbn [fst snd] in *; try done;
    match goal with E : writeTypedTrivial ?t ?n ?v ?o = (?x, _) |- _ => pose proof (trivial_in_buffer size t n v o H) as Hx; rewrite E in Hx end; try done.
  all: apply put_in; [done|]; by apply Z.ltb_ge.
Qed.
Lemma string_in_buffer size s o : in_buffer size o -> in_buffer size (WriteString s o).1.
Proof.
  intros H. unfold WriteString. case_match; [|by apply comp_in_buffer]. destruct (Z.ltb_spec (room o) (1 + Z.of_nat (length s))); [done|].
  cbn [fst]. rewrite put_app. apply put_in; [done|]. cbn [app length]. lia.
Qed.
Lemma begin_in_buffer size c n o : in_buffer size o -> in_buffer size (dump_begin c n o).1.
Proof. intros H. unfold dump_begin, BeginArray. destruct c; [done|]. repeat (case_match; auto with buffer). Qed.
Section MVal_induction.
Context {S : Type}.
Variable P : MVal S -> Prop.
Hypothesis Hleaf : forall v, match v with VRoot _ | VChild _ _ => False | _ => True end -> P v.
Hypothesis Hroot : forall l, Forall P l -> P (VRoot l).
Hypothesis Hchild : forall p l, P p -> Forall P l -> P (VChild p l).
Fixpoint MVal_tree_ind (v : MVal S) : P v :=
  let fix go l : Forall P l :=
    match l with
    | [] => @List.Forall_nil _ P
    | x :: l' => @List.Forall_cons _ P x l' (MVal_tree_ind x) (go l')
    end in
  match v with
  | VRoot l => Hroot l (go l)
  | VChild p l => Hchild p l (MVal_tree_ind p) (go l)
  | VI z => Hleaf (VI z) I
  | VB b => Hleaf (VB b) I
  | VF f b => Hleaf (VF f b) I
  | VS s => Hleaf (VS s) I
  | VBin s => Hleaf (VBin s) I
  end.
End MVal_induction.
Lemma fields_in_buffer size (l : list (MVal (list Z))) o : Forall (fun v => forall c o, in_buffer size o -> in_buffer size (Dump v c o).1) l ->
  in_buffer size o -> in_buffer size (dump_fields (fun x => Dump x false) l o).1.
Proof.
  intros Hl. revert o. induction Hl as [|v l Hv _ IH]; intros o Ho; cbn [dump_fields]; [done|].
  specialize (Hv false o Ho). destruct (Dump v false o) as [o' []]; [by apply IH|done].
Qed.
Lemma Dump_in_buffer size v : forall c o, in_buffer size o -> in_buffer size (Dump v c o).1.
Proof.
  induction v as [v Hv|l IH|p l IHp IH] using MVal_tree_ind; intros c o Ho.
  - destruct v; try done; cbn [Dump].
    + by apply int_in_buffer.
    + unfold WriteBool, writeType. destruct (Z.ltb_spec (room o) 1); [done|]. by apply put_in.
    + unfold WriteFloat. destruct f; by apply trivial_in_buffer.
    + by apply string_in_buffer.
    + by apply comp_in_buffer.
  - cbn [Dump]. pose proof (begin_in_buffer size c (fields_of (VRoot l)) o Ho) as Hb. destruct (dump_begin _ _ o) as [o1 []]; [|done].
    by apply fields_in_buffer.
  - cbn [Dump]. pose proof (begin_in_buffer size c (fields_of (VChild p l)) o Ho) as Hb. destruct (dump_begin _ _ o) as [o1 []]; [|done].
    specialize (IHp true o1 Hb). destruct (Dump p true o1) as [o2 []]; [|done]. by apply fields_in_buffer.
Qed.

(** ** A concrete instance *)
Definition sample_float : CppFloat := {|
  f_positive _ z := 0 <? z; f_same _ a b := a =? b; f_conv _ _ z := z; f_of_int _ z := z; int_of_f _ _ z := z |}.
(** [struct Payout : Responce], with a string and a nested structure besides. *)
Definition sample_type : MType := TChild (TRoot [TInt u32; TBool]) [TInt i32; TString; TRoot [TFloat F32; TBinary]].
Definition sample_value : MVal (list Z) :=
  VChild (VRoot [VI 70000; VB true]) [VI (-300); VS [104; 105]; VRoot [VF F32 1065353216; VBin [1; 2; 3]]].

(** * Properties *)

(** C35: Whatever bytes arrive, and whatever structure is parsed out of them, the
    iterator never reads outside of the frame; and where [size_t] has 64 bits the
    strings handed out end in the frame or one byte after it. *)
Theorem reader_stays_in_frame (CF : CppFloat) (size_bits : Z) (type_first : bool) (mem : list Z) (t : MType) :
  0 < size_bits -> bytes_ok mem = true ->
  exists it r it', InIterator_new mem 0 (Z.of_nat (length mem)) = Some it /\
    Parse size_bits type_first mem t false it = Some (r, it') /\
    (size_bits = 64 -> forall v, r = Some v -> all_views (near mem) v).
Proof.
  intros Hb Hm. destruct (new_in mem Hm 0 (Z.of_nat (length mem))) as (it & E & Hf); [lia..|].
  pose proof (Parse_in size_bits type_first mem Hb Hm t false it Hf) as H.
  destruct (Parse size_bits type_first mem t false it) as [[r it']|] eqn:Ep; [|done]. destruct H as [Hr _].
  by exists it, r, it'.
Qed.
Lemma reader_stays_in_frame_witness :
  let mem := [0x92; 0xa1; 0x61; 0xa1] in
  (0 < 64 /\ bytes_ok mem = true) /\
  exists it r it', InIterator_new mem 0 4 = Some it /\ Parse (CF := sample_float) 64 true mem (TRoot [TString; TString]) false it = Some (r, it') /\
    (64 = 64 -> forall v, r = Some v -> all_views (near mem) v).
Proof. intros mem. split; [done|]. apply (reader_stays_in_frame sample_float 64 true mem); done. Defined.

(** C34: For a structure of at most fifteen members, nested ones too - more make an
    array16 header, which is misread -, with integers of one to eight bytes in the range
    of their type, floats whose bits fit their type, and strings and binaries shorter
    than 4 GiB: it is dumped exactly when its encoding fits in the buffer, nothing is
    ever written outside of the buffer, and a frame of fewer bytes than [size_t] can
    count that begins with what was dumped is parsed to the same value - except that
    every bool comes out negated. *)
Theorem dump_parse_roundtrip (CF : CppFloat) (size_bits : Z) (type_first : bool) (t : MType) (v : MVal (list Z)) (size : Z) (rest : list Z) :
  typed t v -> 0 <= size -> 0 < size_bits ->
  let '(o, ok) := Dump v false (OutIterator_new size) in
  let frame := written o ++ rest in
  in_buffer size o /\ ok = (Z.of_nat (length (enc v false)) <=? size) /\
  (ok = true -> bytes_ok frame = true -> Z.of_nat (length frame) < 2 ^ size_bits -> frame <> [] ->
   Written o = Z.of_nat (length (written o)) /\
   exists it r it', InIterator_new frame 0 (Z.of_nat (length frame)) = Some it /\
     Parse size_bits type_first frame t false it = Some (Some r, it') /\ content frame r = Some (received v)).
Proof.
  intros Hv Hs Hb. pose proof (writes_Dump t v false Hv (OutIterator_new size) Hs) as Hw.
  pose proof (Dump_in_buffer size v false (OutIterator_new size)) as Hi. cbn [OutIterator_new room] in Hw.
  destruct (Dump v false (OutIterator_new size)) as [o ok]. cbn [fst snd] in *.
  specialize (Hi ltac:(unfold in_buffer, OutIterator_new; cbn; lia)). split; [done|].
  destruct (Z.leb_spec (Z.of_nat (length (enc v false))) size); [injection Hw as -> ->|by subst ok]. split; [done|].
  intros _ Hm Hl Hne. cbn [OutIterator_new put written app] in *. split; [unfold Written; cbn; lia|].
  set (frame := enc v false ++ rest) in *.
  destruct (new_in frame Hm 0 (Z.of_nat (length frame))) as (it & Ei & Hf); [lia..|].
  assert (has frame 0 (enc v false)) as Hh by (split; [done|]; by exists rest).
  assert (stands frame 0 it) as Hst.
  { unfold InIterator_new in Ei. assert (0 < length frame)%nat as Hlen by (destruct frame; [done|cbn; lia]).
    rewrite (proj2 (Z.eqb_neq _ _)) in Ei by lia. right. destruct (byte_at frame 0) as [b|] eqn:Eb; [|done]. cbn in Ei.
    destruct (header b) as [h|] eqn:Eh; [|done]. cbn in Ei. injection Ei as <-. cbn. rewrite Eh. repeat split; lia. }
  destruct (finds_Parse size_bits type_first frame Hb Hm Hl t v false Hv 0 it Hh Hst) as (r & it' & Ep & _ & Hc).
  by exists it, r, it'.
Qed.
Lemma dump_parse_roundtrip_witness :
  typed sample_type sample_value /\
  let '(o, ok) := Dump sample_value false (OutIterator_new 400) in
  ok = true /\ exists it r it', InIterator_new (written o) 0 (Z.of_nat (length (written o))) = Some it /\
    Parse (CF := sample_float) 16 false (written o) sample_type false it = Some (Some r, it') /\
    content (written o) r = Some (VChild (VRoot [VI 70000; VB false]) [VI (-300); VS [104; 105]; VRoot [VF F32 1065353216; VBin [1; 2; 3]]]).
Proof.
  assert (typed sample_type sample_value) as Hv.
  { unfold sample_type, sample_value. cbn. unfold in_range, ibits, short_bytes. cbn. repeat split; lia. }
  split; [done|]. pose proof (dump_parse_roundtrip sample_float 16 false sample_type sample_value 400 [] Hv) as H.
  destruct (Dump sample_value false (OutIterator_new 400)) as [o ok] eqn:E. vm_compute in E. injection E as <- <-.
  destruct H as (_ & _ & H); [lia|lia|]. split; [done|]. apply H; try done; cbn; lia.
Defined.

(** [GetInteger] yields a value exactly when the encoded integer is in the range of
    the type asked for, whatever its encoding; nothing wraps. *)
Theorem integers_exact (CF : CppFloat) (mem : list Z) (U : IntT) (it : InIterator) :
  bytes_ok mem = true -> (0 < int_bytes U)%nat -> in_frame mem it ->
  (type it <> invalid -> byte_at mem (data it) ≫= header = Some (type it)) ->
  fst <$> GetInteger mem (NI U) it =
  Some (match encoded_int mem it with Some z => if in_rangeb U z then Some z else None | None => None end).
Proof.
  intros Hm HU Hf Hs. unfold GetInteger.
  assert (forall o, integer_value mem (NI U) it = Some o -> fst <$> then_advance mem (nonCompositeSizeof (type it)) it (integer_value mem (NI U) it) = Some o) as Ha.
  { intros o ->. pose proof (then_advance_in mem Hm (fun _ => True) (nonCompositeSizeof (type it)) it o Hf (Z.lt_le_incl _ _ (nonComposite_pos _)) (fun _ _ => I)) as H.
    unfold then_advance in *. destruct o as [z|]; cbn in *; [|done]. by destruct (advance mem _ it). }
  apply Ha. clear Ha. destruct (decide (type it = invalid)) as [E|E]; [unfold integer_value, encoded_int; by rewrite E|].
  specialize (Hs E). destruct (byte_shown mem Hm it Hf E) as (b & Hb & Hbb). rewrite Hb in Hs. cbn in Hs.
  assert (forall T, (0 < int_bytes T)%nat -> getTrivialWith mem (NI T) (NI U) it = Some (match
    (if size it <? Z.of_nat (int_bytes T) + 1 then None else (fun l => iconv T (from_big 0 l)) <$> bytes_at mem (Z.of_nat (int_bytes T)) (data it + 1))
    with Some z => if in_rangeb U z then Some z else None | None => None end)) as Hw.
  { intros T HT. unfold getTrivialWith, getTrivial. cbn [sizeof]. destruct (Z.ltb_spec (size it) (Z.of_nat (int_bytes T) + 1)); [done|].
    destruct Hf as (Hd & Hz & Hl & _). rewrite bytes_in by lia. cbn [fmap option_fmap option_map mbind option_bind of_bytes].
    match goal with |- context [iconv T (from_big 0 ?l)] => set (v := iconv T (from_big 0 l)) end.
    cbn [num_conv positive_ same_num]. pose proof (conversion_checked T U v HT HU (iconv_range T _ HT)) as Hc.
    destruct (negb (eqb (0 <? iconv U v) (0 <? v))) eqn:E1; cbn [orb] in Hc; [symmetry in Hc; apply negb_true_iff in Hc; by rewrite Hc|].
    rewrite Hc. destruct (in_rangeb U v) eqn:E2; cbn [negb]; [|done]. apply in_rangeb_spec in E2. by rewrite iconv_id. }
  destruct (header_fixint b Hbb) as [Hu Hi].
  unfold integer_value, encoded_int. destruct (type it) eqn:Et; try done; try (apply Hw; cbn; lia); rewrite Hb; cbn [mbind option_bind fmap option_fmap option_map].
  - assert (in_range U b) as Hr by (apply small_in_range; [done|]; unfold is_byte in Hbb; split; [|by apply Hu]; lia).
    cbn [num_conv]. rewrite iconv_id by done. by rewrite (proj2 (in_rangeb_spec _ _) Hr).
  - specialize (Hi Hs). unfold is_byte in Hbb.
    pose proof (conversion_checked i8 U (iconv i8 b) ltac:(cbn; lia) HU (iconv_range i8 b ltac:(cbn; lia))) as Hc.
    cbn [num_conv positive_].
    assert ((Z.of_nat (int_bytes U) <? Z.of_nat (int_bytes i8)) = false) as Ez by (apply Z.ltb_ge; cbn; lia).
    rewrite Ez, andb_false_l, orb_false_r in Hc. rewrite Hc. destruct (in_rangeb U (iconv i8 b)) eqn:E2; cbn [negb]; [|done].
    apply in_rangeb_spec in E2. by rewrite iconv_id.
Qed.
Lemma integers_exact_witness :
  let mem := [0xcd; 1; 0] in let it := {| data := 0; size := 3; type := uint16 |} in
  (bytes_ok mem = true /\ in_frame mem it) /\
  fst <$> GetInteger (CF := sample_float) mem (NI u8) it = Some None /\
  fst <$> GetInteger (CF := sample_float) mem (NI i16) it = Some (Some 256).
Proof.
  intros mem it. assert (in_frame mem it) as Hf by (unfold in_frame; cbn; lia). split; [done|].
  split; [rewrite (integers_exact sample_float mem u8 it)|rewrite (integers_exact sample_float mem i16 it)]; try done; cbn; lia.
Defined.

(** A 16-bit array size is read from its header byte: 56320 and more, whatever it
    is. *)
Theorem array16_misread (size_bits hi lo : Z) (rest : list Z) :
  let frame := 0xdc :: hi :: lo :: rest in
  16 <= size_bits -> bytes_ok frame = true ->
  fst <$> GetArraySize size_bits frame {| data := 0; size := Z.of_nat (length frame); type := array16 |} = Some (Some (0xdc00 + hi)).
Proof.
  intros frame Hb Hm. unfold GetArraySize. cbn [type size data]. assert (3 <= Z.of_nat (length frame)) by (cbn; lia).
  assert (in_frame frame {| data := 0; size := Z.of_nat (length frame); type := array16 |}) as Hf by (unfold in_frame; cbn [data size]; lia).
  rewrite (proj2 (Z.ltb_ge _ _)) by done. unfold getTrivial. cbn [sizeof u16 int_bytes]. rewrite bytes_in by lia.
  destruct (advance_in frame Hm 3 _ Hf) as (it' & E & _); [lia|]. cbn in Hm. apply andb_true_iff in Hm as [Hh _]. unfold is_byte in Hh.
  change (take (Z.to_nat (Z.of_nat 2)) (drop (Z.to_nat 0) frame)) with [220; hi].
  pose proof (Z.pow_le_mono_r 2 16 size_bits ltac:(lia) ltac:(lia)).
  cbn [fmap option_fmap option_map]. change (of_bytes (NI u16) [220; hi]) with (wrapu 16 (56320 + hi)).
  rewrite (wrapu_small 16), (wrapu_small size_bits) by lia. unfold then_advance. rewrite E. done.
Qed.
Lemma array16_misread_witness :
  fst <$> GetArraySize 16 (0xdc :: 0 :: 16 :: repeat 1 16) {| data := 0; size := 19; type := array16 |} = Some (Some 56320).
Proof. apply (array16_misread 16 0 16); [lia|done]. Defined.
(** Where [size_t] has at most 32 bits the sum that is compared with the size of
    the frame wraps: five bytes pass for a binary of four gigabytes. *)
Theorem long_binary_wraps :
  let frame := [0xc6; 0xff; 0xff; 0xff; 0xfb] in
  composite_view 32 frame {| data := 0; size := 5; type := bin32 |} = Some (Some {| at_ := 5; vsize := 2 ^ 32 - 5 |}) /\
  composite_view 64 frame {| data := 0; size := 5; type := bin32 |} = Some None.
Proof. split; reflexivity. Qed.
(** A fixed string is checked one byte short: the last one in a frame may end after
    it. *)
Theorem fixstr_one_past : composite_view 64 [0xa1] {| data := 0; size := 1; type := fixstr |} = Some (Some {| at_ := 1; vsize := 1 |}).
Proof. reflexivity. Qed.
(** [Next] moves past a string twice, and only past the header of an array. *)
Theorem next_skips_wrong (type_first : bool) :
  let frame := [0x94; 0xa1; 0x61; 1; 2; 3] in
  (data ∘ snd) <$> Next 64 type_first frame {| data := 1; size := 5; type := fixstr |} = Some 5 /\
  (data ∘ snd) <$> Next 64 type_first frame {| data := 0; size := 6; type := fixarray |} = Some 1.
Proof. by destruct type_first. Qed.
