(* ===== verification/Firmware.v ===== *)
(** * The demo firmware: [src/examples/demo/firmware/firmware.ino], [rad_topics.hpp]

    The microcontroller at the other end of a serial worker: bytes arrive one at a
    time, SLIP frames are collected in a fixed buffer and dispatched by the number of
    their topic; answers are dumped into another fixed buffer and escaped.  The
    [slipa.hpp] beside it is [Slip.Embedded], which writes what [Slip] writes.  [random()] and [millis()] are what
    they return; [None] is a write outside of a buffer or an endless recursion. *)
From S2P Require Import Prelude Utils Slip Msg2Struct.
Set Warnings "-register-all".

(** ** Topics *)
Inductive TopicDir := PUB | SUB | PUBSUB.
Record Topic := { tname : string; msg_name : string; msg : MType; dir : TopicDir }.
Section types.
Variable int_size : nat.                         (* bytes of int *)
Definition int_t : IntT := {| int_bytes := int_size; int_signed := true |}.
Definition unsigned_t : IntT := {| int_bytes := int_size; int_signed := false |}.
Definition LogMsg : MType := TRoot [TString].
Definition LedCmd : MType := TRoot [TInt unsigned_t].
Definition Responce : MType := TRoot [TInt u32; TBool].
Definition Request : MType := TRoot [TInt u32].
Definition Gamble : MType := TChild Request [TInt i32].
Definition Payout : MType := TChild Responce [TInt i32].
(** [TOPICS]: a topic's number is its place. *)
Definition TOPICS : list Topic :=
  [{| tname := "log"; msg_name := "LogMsg"; msg := LogMsg; dir := PUB |};
   {| tname := "error"; msg_name := "LogMsg"; msg := LogMsg; dir := PUB |};
   {| tname := "led"; msg_name := "LedCmd"; msg := LedCmd; dir := SUB |};
   {| tname := "gamble_req"; msg_name := "Gamble"; msg := Gamble; dir := SUB |};
   {| tname := "gamble_resp"; msg_name := "Payout"; msg := Payout; dir := PUB |}].
End types.

(** [%d]. *)
Definition format_d (z : Z) : string := if z <? 0 then "-" +:+ to_string (- z) else to_string z.

(** ** State and actions *)
Record LedTicker := { power : Z; lastFlip : Z; led_on : bool }.
Record Fw := { buffer : list Z; escaped : bool; error : bool; led : LedTicker }.
Definition fw_init : Fw := {| buffer := []; escaped := false; error := false; led := {| power := 100; lastFlip := 0; led_on := false |} |}.
Inductive Act := Serial_write (l : list Z) | DigitalWrite (on : bool).
Definition set_buffer (b : list Z) (s : Fw) : Fw := {| buffer := b; escaped := escaped s; error := error s; led := led s |}.
Definition set_escaped (e : bool) (s : Fw) : Fw := {| buffer := buffer s; escaped := e; error := error s; led := led s |}.
Definition set_error (e : bool) (s : Fw) : Fw := {| buffer := buffer s; escaped := escaped s; error := e; led := led s |}.
Definition set_led (l : LedTicker) (s : Fw) : Fw := {| buffer := buffer s; escaped := escaped s; error := error s; led := l |}.
Definition BUFFER : Z := 400.
Definition OUT_BUFFER_SIZE : Z := 400.           (* of out_buffer *)
Definition TEXT : nat := 50.                     (* char buff[50] *)

Section firmware.
Context {CF : CppFloat}.
Variable size_bits : Z.
Variable type_first : bool.
Variable int_size : nat.

(** ** Sending *)
Definition topics_send_begin : OutIterator := OutIterator_new OUT_BUFFER_SIZE.
Definition topics_send_finish (o : OutIterator) : Act := Serial_write (concat (Slip.Write (written o)) ++ [END]).
Definition topics_prepareMsg (id : Z) : OutIterator := (WriteInteger id (BeginArray 2 topics_send_begin).1).1.
(** [send_<topic>]: the frame, or nothing where the message does not fit.  The bytes
    written lie in [out_buffer] from its first one on, also those of a message that is
    given up; past its end is no memory to write to. *)
Definition send (id : Z) (m : MVal (list Z)) : option (option Act) :=
  let '(o, ok) := Dump m false (topics_prepareMsg id) in
  if Z.of_nat (length (written o)) <=? OUT_BUFFER_SIZE then Some (if ok then Some (topics_send_finish o) else None) else None.
(** [Log], [Error] and [topics_error] call each other when a message cannot be sent. *)
Fixpoint Log (fuel : nat) (log : string) (err : bool) : option (list Act) :=
  match fuel with
  | O => None
  | S fuel =>
      sent ← send (if err then 1 else 0) (VRoot [VS (bytes_of_string log)]);
      match sent with
      | Some a => Some [a]
      | None =>
          let text := "Topic error: " +:+ ("Could not send: " +:+ if err then "error" else "log") in
          if (String.length text <? TEXT)%nat then Log fuel text true else None
      end
  end.
(** Two levels: a text that does not fit, and the one that says so. *)
Definition log_fuel : nat := 2.
Definition Error (text : string) : option (list Act) := Log log_fuel text true.
Definition topics_error (err : string) : option (list Act) :=
  let text := "Topic error: " +:+ err in
  if (String.length text <? TEXT)%nat then Error text else None.

(** ** Handlers *)
Definition on_led (cmd_power : Z) (s : Fw) : option (list Act * Fw) :=
  a ← Log log_fuel "New Power!" false;
  Some (a, set_led {| power := 360 - (if 360 <? cmd_power then 360 else cmd_power); lastFlip := lastFlip (led s); led_on := led_on (led s) |} s).
Variable RANDOM_MAX : Z.
Definition gamble_amount (r amount : Z) : Z :=
  if r <? RANDOM_MAX / 3 then wraps 32 (1 * amount)
  else if r <? RANDOM_MAX / 10 then wraps 32 (3 * amount)
  else wraps 32 (-1 * amount).
Definition on_gamble_req (r id amount : Z) (s : Fw) : option (list Act * Fw) :=
  let buff := "GAMBLE!!! " +:+ to_string (wrapu 32 amount) in
  if (String.length buff <? TEXT)%nat then
    a ← Log log_fuel buff false;
    let resp := VChild (VRoot [VI id; VB true]) [VI (gamble_amount r amount)] in
    sent ← send 4 resp;
    b ← (match sent with Some b => Some [b] | None => topics_error "Could not send: gamble_resp" end);
    Some (a ++ b, s)
  else None.

(** ** Dispatch *)
(** The bodies of the subscribed topics, by name. *)
Definition handler (name : string) (r : Z) (m : MVal View) (s : Fw) : option (list Act * Fw) :=
  if bool_decide (name = "led") then match m with VRoot [VI p] => on_led p s | _ => None end
  else if bool_decide (name = "gamble_req") then
    match m with VChild (VRoot [VI id]) [VI amount] => on_gamble_req r id amount s | _ => None end
  else None.
(** [_check_msg]; the flag is what it returns. *)
Definition check_msg (r id : Z) (mem : list Z) (it : InIterator) (s : Fw) : option (list Act * Fw * bool) :=
  match (if 0 <=? id then TOPICS int_size !! Z.to_nat id else None) with
  | None => Some ([], s, false)
  | Some t =>
      match dir t with
      | PUB => Some ([], s, false)
      | SUB | PUBSUB =>
          p ← Parse size_bits type_first mem (msg t) false it;
          match p.1 with
          | Some m => h ← handler (tname t) r m s; Some (h.1, h.2, true)
          | None => a ← topics_error ("MSG ERR: " +:+ msg_name t); Some (a, s, true)
          end
      end
  end.
Definition no_topic : string := "Error: could not get topic ID".
Definition topics_receive_msg (r : Z) (mem : list Z) (s : Fw) : option (list Act * Fw) :=
  it ← InIterator_new mem 0 (Z.of_nat (length mem));
  a ← GetArraySize size_bits mem it;
  match a with
  | (Some arr, it) =>
      if arr <? 2 then e ← topics_error no_topic; Some (e, s)
      else
        i ← GetInteger mem (NI (int_t int_size)) it;
        match i with
        | (None, _) => e ← topics_error no_topic; Some (e, s)
        | (Some id, it) =>
            c ← check_msg r id mem it s;
            let '(acts, s, known) := c : list Act * Fw * bool in
            if known then Some (acts, s)
            else e ← topics_error ("Error: Unknown msg type: " +:+ format_d id); Some (acts ++ e, s)
        end
  | (None, _) => e ← topics_error no_topic; Some (e, s)
  end.

(** ** The loop *)
Definition inputError (err : string) (s : Fw) : option (list Act * Fw) :=
  a ← Error "Input Err: Reset input! Details:";
  b ← Error err;
  Some (a ++ b, set_error true (set_buffer [] s)).
Definition push (ch : Z) (s : Fw) : Fw := set_buffer (buffer s ++ [ch]) s.
(** One character of [loop()]; [r] is what [random()] will return. *)
Definition on_char (r ch : Z) (s : Fw) : option (list Act * Fw) :=
  if (error s && (ch =? END))%bool then Some ([], set_error false s)
  else if Z.of_nat (length (buffer s)) =? BUFFER then inputError "Buffer Overflow" s
  else if escaped s then
    let s := set_escaped false s in
    if ch =? ESC_END then Some ([], push END s)
    else if ch =? ESC_ESC then Some ([], push ESC s)
    else inputError "Invalid escape" s
  else if ch =? END then
    h ← topics_receive_msg r (buffer s) s;
    Some (h.1, set_buffer [] h.2)
  else if ch =? ESC then Some ([], set_escaped true s)
  else Some ([], set_escaped false (push ch s)).
Fixpoint on_chars (r : Z) (chs : list Z) (s : Fw) : option (list Act * Fw) :=
  match chs with
  | [] => Some ([], s)
  | ch :: chs =>
      a ← on_char r ch s;
      b ← on_chars r chs a.2;
      Some (a.1 ++ b.1, b.2)
  end.
(** [LedTicker::tick], with [long] of 32 bits. *)
Definition tick (ms : Z) (s : Fw) : list Act * Fw :=
  let l := led s in
  if wrapu (8 * Z.of_nat int_size) (power l * 3) <? wrapu 32 (ms - lastFlip l) then
    ([DigitalWrite (negb (led_on l))], set_led {| power := power l; lastFlip := wraps 32 ms; led_on := negb (led_on l) |} s)
  else ([], s).
(** [loop()]: what is read until [Serial.read] has nothing more. *)
Definition loop (ms r : Z) (chs : list Z) (s : Fw) : option (list Act * Fw) :=
  let '(a, s) := tick ms s in
  b ← on_chars r chs s;
  Some (a ++ b.1, b.2).
End firmware.

(** ** Lemmas: texts and frames fit *)
Lemma dec_loop_length k : forall fuel n acc, 0 <= n < 10 ^ Z.of_nat k ->
  (String.length (dec_loop fuel n acc) <= String.length acc + Nat.max 1 k)%nat.
Proof.
  induction k as [|k IH]; intros fuel n acc Hn; (destruct fuel as [|fuel]; [cbn; lia|]); cbn [dec_loop].
  - replace (n <? 10) with true by (symmetry; apply Z.ltb_lt; cbn in Hn; lia). cbn. lia.
  - destruct (Z.ltb_spec n 10); [cbn; lia|].
    rewrite Nat2Z.inj_succ, Z.pow_succ_r in Hn by lia.
    assert (0 <= n / 10 < 10 ^ Z.of_nat k) as Hd by (split; [apply Z.div_pos; lia|apply Z.div_lt_upper_bound; lia]).
    destruct k as [|k]; [cbn in Hn; lia|]. specialize (IH fuel (n / 10) (String (digit_char (n mod 10)) acc) Hd). cbn [String.length] in IH. lia.
Qed.
Lemma to_string_length k n : 0 <= n < 10 ^ Z.of_nat k -> (0 < k)%nat -> (String.length (to_string n) <= k)%nat.
Proof. intros Hn Hk. pose proof (dec_loop_length k 20 n "" Hn) as H. unfold to_string. cbn [String.length] in H. lia. Qed.
Lemma format_d_length z : - 2 ^ 31 <= z < 2 ^ 31 -> (String.length (format_d z) <= 11)%nat.
Proof.
  intros Hz. unfold format_d. destruct (Z.ltb_spec z 0).
  - rewrite str_length_app. pose proof (to_string_length 10 (- z) ltac:(cbn; lia) ltac:(lia)). cbn [String.length]. lia.
  - pose proof (to_string_length 10 z ltac:(cbn; lia) ltac:(lia)). lia.
Qed.
Lemma bytes_of_string_length s : length (bytes_of_string s) = String.length s.
Proof. induction s; cbn; by f_equal. Qed.
Definition frame_of (id : Z) (v : MVal (list Z)) : list Z := 0x92 :: id :: enc v false.
Lemma prepare_spec id : 0 <= id < 128 -> topics_prepareMsg id = put [id] (put [0x92] topics_send_begin).
Proof.
  intros Hi. unfold topics_prepareMsg, WriteInteger. rewrite (proj2 (Z.leb_le 0 id)) by lia. cbn [negb].
  rewrite iconv_id by (cbn; unfold in_range, ibits; cbn; lia). unfold writePosInt. rewrite (proj2 (Z.ltb_lt id 128)) by lia.
  change (BeginArray 2 topics_send_begin) with (put [0x92] topics_send_begin, true). cbn [fst]. cbn [room put topics_send_begin OutIterator_new].
  change (OUT_BUFFER_SIZE - Z.of_nat (length [146]) =? 0) with false. cbn. by rewrite wrapu_small by lia.
Qed.
(** Nothing is written past the end of [out_buffer]. *)
Lemma send_in_buffer id v : 0 <= id < 128 -> exists o ok,
  Dump v false (topics_prepareMsg id) = (o, ok) /\ send id v = Some (if ok then Some (topics_send_finish o) else None).
Proof.
  intros Hi. unfold send. rewrite prepare_spec by done. destruct (Dump v false _) as [o ok] eqn:E. exists o, ok. split; [done|].
  assert (in_buffer OUT_BUFFER_SIZE o) as (Hr & Hw & _) by (change o with (o, ok).1; rewrite <- E; by apply Dump_in_buffer).
  rewrite (proj2 (Z.leb_le _ _)) by lia. done.
Qed.
(** A frame that fits is sent; one that does not is not. *)
Lemma send_spec t v id : 0 <= id < 128 -> typed t v ->
  send id v = Some (if Z.of_nat (length (frame_of id v)) <=? OUT_BUFFER_SIZE then Some (Serial_write (escape (frame_of id v) ++ [END])) else None).
Proof.
  intros Hi Hv. destruct (send_in_buffer id v Hi) as (o & ok & E & ->). f_equal. rewrite prepare_spec in E by done.
  pose proof (writes_Dump t v false Hv (put [id] (put [0x92] topics_send_begin))) as Hw. change (room _) with 398 in Hw at 2.
  specialize (Hw ltac:(change (room _) with 398; lia)). rewrite E in Hw. unfold frame_of, OUT_BUFFER_SIZE. cbn [length].
  destruct (Z.leb_spec (Z.of_nat (length (enc v false))) 398).
  - injection Hw as -> ->. rewrite (proj2 (Z.leb_le _ _)) by lia. unfold topics_send_finish. by rewrite Write_escape.
  - cbn in Hw. subst ok. by rewrite (proj2 (Z.leb_gt _ _)) by lia.
Qed.
Definition log_id (err : bool) : Z := if err then 1 else 0.
Definition log_frame (text : string) (err : bool) : Act :=
  Serial_write (escape (frame_of (log_id err) (VRoot [VS (bytes_of_string text)])) ++ [END]).
Lemma enc_string_length s : (length s <= 255)%nat -> (length (enc_string s) <= length s + 2)%nat.
Proof.
  intros Hs. unfold enc_string, enc_bytes. case_match; [cbn; lia|]. rewrite (proj2 (Z.leb_le _ _)) by lia.
  rewrite length_app. cbn. lia.
Qed.
Definition log_value (text : string) : MVal (list Z) := VRoot [VS (bytes_of_string text)].
Lemma log_typed text : Z.of_nat (String.length text) < 2 ^ 32 -> typed LogMsg (log_value text).
Proof. intros Ht. cbn. unfold short_bytes. rewrite bytes_of_string_length. repeat split; lia. Qed.
Definition log_fits (text : string) (err : bool) : bool := Z.of_nat (length (frame_of (log_id err) (log_value text))) <=? OUT_BUFFER_SIZE.
Lemma short_fits text err : (String.length text <= 255)%nat -> log_fits text err = true.
Proof.
  intros Ht. apply Z.leb_le. unfold frame_of, OUT_BUFFER_SIZE. cbn [log_value enc fields_of length flat_map enc_array app]. rewrite app_nil_r.
  pose proof (enc_string_length (bytes_of_string text)) as He. rewrite bytes_of_string_length in He. specialize (He Ht). lia.
Qed.
Definition could_not (err : bool) : string := "Topic error: " +:+ ("Could not send: " +:+ if err then "error" else "log").
(** A text that does not fit is replaced by an error that does. *)
Lemma Log_spec n text err : Z.of_nat (String.length text) < 2 ^ 32 ->
  Log (S (S n)) text err = Some [if log_fits text err then log_frame text err else log_frame (could_not err) true].
Proof.
  intros Ht. assert (0 <= log_id err < 128 /\ 0 <= log_id true < 128) as [Hi1 Hi2] by (destruct err; cbn; lia).
  cbn [Log]. change (if err then 1 else 0) with (log_id err). fold (log_value text). rewrite (send_spec LogMsg _ _ Hi1 (log_typed text Ht)). cbn [mbind option_bind].
  fold (log_fits text err). destruct (log_fits text err); [done|].
  assert ((String.length (could_not err) <? TEXT)%nat = true) as Hc by by destruct err.
  unfold could_not in *. rewrite Hc. apply Nat.ltb_lt in Hc. unfold TEXT in Hc. change 1 with (log_id true).
  match goal with |- context [VRoot [VS (bytes_of_string ?x)]] => fold (log_value x); rewrite (send_spec LogMsg _ _ Hi2 (log_typed x ltac:(lia))) end. cbn [mbind option_bind].
  pose proof (short_fits ("Topic error: " +:+ ("Could not send: " +:+ if err then "error" else "log")) true ltac:(lia)) as Hf.
  unfold log_fits in Hf. by rewrite Hf.
Qed.
Lemma Log_short text err : (String.length text <= 255)%nat -> Log log_fuel text err = Some [log_frame text err].
Proof. intros Ht. unfold log_fuel. by rewrite Log_spec, short_fits by lia. Qed.
Lemma topics_error_short err : (String.length err <= 36)%nat -> topics_error err = Some [log_frame ("Topic error: " +:+ err) true].
Proof.
  intros He. unfold topics_error, Error. rewrite str_length_app. change (String.length "Topic error: ") with 13%nat.
  rewrite (proj2 (Nat.ltb_lt _ _)) by (unfold TEXT; lia). apply Log_short. rewrite str_length_app. change (String.length "Topic error: ") with 13%nat. lia.
Qed.

Section safety.
Context {CF : CppFloat}.
Variable size_bits : Z.
Variable type_first : bool.
Variable int_size : nat.
Variable RANDOM_MAX : Z.
Hypothesis Hbits : 0 < size_bits.
Hypothesis Hint : (0 < int_size <= 4)%nat.
(** The input buffer holds bytes and is not overrun, the period stays in range. *)
Definition fw_ok (s : Fw) : Prop :=
  bytes_ok (buffer s) = true /\ Z.of_nat (length (buffer s)) <= BUFFER /\ 0 <= power (led s) <= 360.
(** What is sent is a whole frame of a topic that is published, from [out_buffer]. *)
Definition answer (a : Act) : Prop :=
  match a with
  | DigitalWrite _ => True
  | Serial_write l => exists id top v, 0 <= id /\ TOPICS int_size !! Z.to_nat id = Some top /\ dir top = PUB /\ typed (msg top) v /\
      Z.of_nat (length (frame_of id v)) <= OUT_BUFFER_SIZE /\ l = escape (frame_of id v) ++ [END]
  end.
Definition done_ok (r : option (list Act * Fw)) : Prop := match r with Some (a, s) => Forall answer a /\ fw_ok s | None => False end.
Lemma log_answer text err : (String.length text <= 255)%nat -> answer (log_frame text err).
Proof.
  intros Ht. pose proof (short_fits text err Ht) as Hf. apply Z.leb_le in Hf.
  exists (log_id err). destruct err; (eexists _, (log_value text); split; [cbn; lia|]; split; [reflexivity|]; split; [done|]; split; [apply log_typed; lia|]; by split).
Qed.
Ltac answers := repeat (apply Forall_cons_2; [first [assumption|apply log_answer; first [lia|cbn; lia|rewrite !str_length_app; cbn [String.length]; lia]]|]); apply Forall_nil_2.
Lemma send_answer id top v : 0 <= id < 128 -> TOPICS int_size !! Z.to_nat id = Some top -> dir top = PUB -> typed (msg top) v ->
  exists sent, send id v = Some sent /\ match sent with Some a => answer a | None => True end.
Proof.
  intros Hi Ht Hd Hv. rewrite (send_spec (msg top)) by done. eexists. split; [done|].
  destruct (Z.leb_spec (Z.of_nat (length (frame_of id v))) OUT_BUFFER_SIZE) as [Hf|]; [|done].
  exists id, top, v. split; [lia|]. by repeat split.
Qed.
Lemma fw_ok_buffer b s : bytes_ok b = true -> Z.of_nat (length b) <= BUFFER -> fw_ok s -> fw_ok (set_buffer b s).
Proof. intros Hb Hl (_ & _ & Hp). by repeat split; try apply Hp. Qed.
Lemma on_led_ok p s : 0 <= p -> fw_ok s -> done_ok (on_led p s).
Proof.
  intros Hp (H1 & H2 & H3). unfold on_led. rewrite Log_short by (cbn; lia). cbn [mbind option_bind done_ok]. split; [answers|].
  split; [done|]. split; [done|]. cbn. destruct (Z.ltb_spec 360 p); lia.
Qed.
Lemma gamble_amount_range r amount : in_range i32 (gamble_amount RANDOM_MAX r amount).
Proof. unfold gamble_amount. repeat case_match; apply (iconv_range i32); cbn; lia. Qed.
Lemma on_gamble_ok r id amount s : in_range u32 id -> fw_ok s -> done_ok (on_gamble_req RANDOM_MAX r id amount s).
Proof.
  intros Hid Hs. unfold on_gamble_req. pose proof (wrapu_range 32 amount ltac:(lia)) as Hw.
  pose proof (to_string_length 10 (wrapu 32 amount) ltac:(cbn; lia) ltac:(lia)) as Hl.
  set (text := "GAMBLE!!! " +:+ to_string (wrapu 32 amount)).
  assert (String.length text <= 20)%nat as Ht by (unfold text; rewrite str_length_app; change (String.length "GAMBLE!!! ") with 10%nat; lia).
  rewrite (proj2 (Nat.ltb_lt _ _)) by (unfold TEXT; lia). rewrite Log_short by lia. cbn [mbind option_bind].
  assert (typed Payout (VChild (VRoot [VI id; VB true]) [VI (gamble_amount RANDOM_MAX r amount)])) as Hv.
  { pose proof (gamble_amount_range r amount). repeat split; try done; first [by apply Hid|by apply H|cbn; lia]. }
  destruct (send_answer 4 _ _ ltac:(lia) eq_refl eq_refl Hv) as (sent & -> & Hsent). rewrite topics_error_short by (cbn; lia).
  destruct sent as [a|]; cbn [mbind option_bind done_ok app]; (split; [answers|done]).
Qed.
Lemma handler_ok t name r m s : shaped t m -> (name = "led" /\ t = LedCmd int_size \/ name = "gamble_req" /\ t = Gamble) ->
  fw_ok s -> done_ok (handler RANDOM_MAX name r m s).
Proof.
  intros Hm [[-> ->]|[-> ->]] Hs; unfold handler; cbn in Hm.
  - rewrite bool_decide_eq_true_2 by done. destruct m as [| | | | |l|]; try done.
    destruct l as [|x [|? ?]]; [done| |by destruct Hm]. destruct Hm as [Hx _]. destruct x; try done.
    apply on_led_ok; [|done]. specialize (Hx ltac:(cbn; lia)). unfold in_range in Hx. cbn in Hx. lia.
  - rewrite bool_decide_eq_false_2, bool_decide_eq_true_2 by done. destruct m as [| | | | | |p l]; try done. destruct Hm as [Hp Hl].
    destruct p as [| | | | |q|]; try done. destruct q as [|x [|? ?]]; [done| |by destruct Hp]. destruct Hp as [Hx _]. destruct x; try done.
    destruct l as [|y [|? ?]]; [done| |by destruct Hl]. destruct Hl as [Hy _]. destruct y; try done. apply on_gamble_ok; [|done]. apply Hx. cbn. lia.
Qed.
Lemma receive_ok r mem s : bytes_ok mem = true -> fw_ok s -> done_ok (topics_receive_msg size_bits type_first int_size RANDOM_MAX r mem s).
Proof.
  intros Hm Hs. assert (forall err, (String.length err <= 36)%nat -> done_ok (Some ([log_frame ("Topic error: " +:+ err) true], s))) as Herr by (intros; split; [answers|done]).
  unfold topics_receive_msg. destruct (new_in mem Hm 0 (Z.of_nat (length mem))) as (it & -> & Hf); [lia..|]. cbn.
  pose proof (GetArraySize_in size_bits mem Hbits Hm it Hf) as Ha. rewrite (topics_error_short no_topic) by (cbn; lia). cbn.
  destruct (GetArraySize _ mem it) as [[[arr|] it1]|]; [|apply Herr; cbn; lia|done]. cbn in Ha |- *. destruct Ha as [_ Hf1]. case_match; [apply Herr; cbn; lia|].
  pose proof (GetInteger_in mem Hm (NI (int_t int_size)) it1 Hf1) as Hi.
  destruct (GetInteger mem _ it1) as [[[id|] it2]|] eqn:Ei; [|apply Herr; cbn; lia|done]. cbn. destruct Hi as [_ Hf2].
  apply GetInteger_range in Ei; [|cbn; lia].
  assert (- 2 ^ 31 <= id < 2 ^ 31) as Hid.
  { unfold in_range, ibits in Ei. cbn in Ei. pose proof (Z.pow_le_mono_r 2 (8 * Z.of_nat int_size - 1) 31 ltac:(lia) ltac:(lia)). lia. }
  assert (String.length ("Error: Unknown msg type: " +:+ format_d id) <= 36)%nat as Hul.
  { rewrite str_length_app. pose proof (format_d_length id Hid). change (String.length "Error: Unknown msg type: ") with 25%nat. lia. }
  assert (topics_error ("Error: Unknown msg type: " +:+ format_d id) = Some [log_frame ("Topic error: " +:+ ("Error: Unknown msg type: " +:+ format_d id)) true]) as Hu.
  { by apply topics_error_short. }
  unfold check_msg. destruct (if 0 <=? id then _ else None) as [t|] eqn:Et; [|rewrite Hu; by apply Herr].
  assert (dir t = PUB \/ dir t = SUB /\ (tname t = "led" /\ msg t = LedCmd int_size \/ tname t = "gamble_req" /\ msg t = Gamble) /\ (String.length (msg_name t) <= 6)%nat) as Hk.
  { case_match; [|done]. apply list_elem_of_lookup_2 in Et. unfold TOPICS in Et. set_unfold.
    destruct Et as [->|[->|[->|[->|[->|[]]]]]]; cbn; auto; right; repeat split; auto; lia. }
  destruct Hk as [->|(-> & Hk & Hl)]; [rewrite Hu; by apply Herr|].
  pose proof (Parse_in size_bits type_first mem Hbits Hm (msg t) false it2 Hf2) as Hp.
  destruct (Parse _ _ mem (msg t) false it2) as [[[m|] it3]|] eqn:Ep; [| |done]; cbn [mbind option_bind fst snd].
  - apply Parse_shape in Ep. pose proof (handler_ok (msg t) (tname t) r m s Ep Hk Hs) as Hh. by destruct (handler _ _ _ _ _) as [[? ?]|].
  - assert (String.length ("MSG ERR: " +:+ msg_name t) <= 36)%nat as Hml; [|rewrite (topics_error_short _ Hml); by apply Herr]. rewrite str_length_app. change (String.length "MSG ERR: ") with 9%nat. lia.
Qed.
Lemma on_char_ok r ch s : is_byte ch = true -> fw_ok s -> done_ok (on_char size_bits type_first int_size RANDOM_MAX r ch s).
Proof.
  intros Hc Hs. pose proof Hs as (Hb & Hl & Hp). unfold on_char.
  assert (forall err, (String.length err <= 36)%nat -> forall s, fw_ok s -> done_ok (inputError err s)) as He.
  { intros err Hlen s0 Hs0. unfold inputError, Error. rewrite !Log_short by (cbn; lia). cbn [mbind option_bind app done_ok fst snd]. split; [answers|by apply fw_ok_buffer]. }
  assert (forall c e, is_byte c = true -> (Z.of_nat (length (buffer s)) =? BUFFER) = false -> fw_ok (set_escaped e (push c s)) /\ fw_ok (push c (set_escaped e s))) as Hpush.
  { intros c e Hcb Hn. apply Z.eqb_neq in Hn. assert (bytes_ok (buffer s ++ [c]) = true) as Hb'.
    { unfold bytes_ok in *. rewrite forallb_app, Hb. cbn. by rewrite Hcb. }
    assert (Z.of_nat (length (buffer s ++ [c])) <= BUFFER) by (rewrite length_app; cbn [length]; lia).
    by split; repeat split; try apply Hp. }
  destruct (error s && (ch =? END))%bool; [by split|]. destruct (Z.of_nat (length (buffer s)) =? BUFFER) eqn:Hn; [apply He; [cbn; lia|done]|].
  destruct (escaped s).
  - repeat case_match; try (split; [done|by apply Hpush]). apply He; [cbn; lia|done].
  - case_match; [|case_match; [by split|split; [done|by apply Hpush]]].
    pose proof (receive_ok r (buffer s) s Hb Hs) as Hr. destruct (topics_receive_msg _ _ _ _ _ _ s) as [[a s']|]; [|done]. destruct Hr as [Ha Hr]. split; [done|by apply fw_ok_buffer].
Qed.
Lemma on_chars_ok r chs : forall s, bytes_ok chs = true -> fw_ok s -> done_ok (on_chars size_bits type_first int_size RANDOM_MAX r chs s).
Proof.
  induction chs as [|ch chs IH]; intros s Hc Hs; [by split|]. apply andb_true_iff in Hc as [Hc Hcs]. cbn [on_chars].
  pose proof (on_char_ok r ch s Hc Hs) as H1. destruct (on_char _ _ _ _ r ch s) as [[a s1]|]; [|done]. destruct H1 as [Ha H1]. cbn [mbind option_bind fst snd].
  specialize (IH s1 Hcs H1). destruct (on_chars _ _ _ _ r chs s1) as [[b s2]|]; [|done]. destruct IH as [Hb IH]. split; [by apply Forall_app|done].
Qed.
End safety.

(** ** Lemmas: reception *)
Section reception.
Context {CF : CppFloat}.
Variable size_bits : Z.
Variable type_first : bool.
Variable int_size : nat.
Variable RANDOM_MAX : Z.
Abbreviation chars := (on_chars size_bits type_first int_size RANDOM_MAX).
Abbreviation receive := (topics_receive_msg size_bits type_first int_size RANDOM_MAX).
Lemma on_chars_app r a : forall b s,
  chars r (a ++ b) s = x ← chars r a s; y ← chars r b x.2; Some (x.1 ++ y.1, y.2).
Proof.
  induction a as [|c a IH]; intros b s; cbn [app on_chars].
  { cbn. destruct (chars r b s) as [[x s']|]; done. }
  destruct (on_char _ _ _ _ r c s) as [[x s1]|]; [|done]. cbn. rewrite IH. destruct (chars r a s1) as [[y s2]|]; [|done]. cbn.
  destruct (chars r b s2) as [[z s3]|]; [|done]. cbn. by rewrite app_assoc.
Qed.
Lemma set_same b s : escaped s = false -> set_escaped false (set_buffer b (set_escaped true s)) = set_buffer b s.
Proof. destruct s. cbn. by intros ->. Qed.
Lemma set_buffer_id s : set_buffer (buffer s) s = s. Proof. by destruct s. Qed.
Lemma set_buffer_twice a b s : set_buffer a (set_buffer b s) = set_buffer a s. Proof. done. Qed.
(** An escaped byte is collected, whether or not the frame is in error. *)
Lemma collect_byte r b s : escaped s = false -> Z.of_nat (length (buffer s)) < BUFFER ->
  chars r (escape_byte b) s = Some ([], push b s).
Proof.
  intros He Hl. unfold escape_byte.
  assert ((Z.of_nat (length (buffer s)) =? BUFFER) = false) as Hn by (apply Z.eqb_neq; lia).
  destruct (Z.eqb_spec b ESC) as [->|H1]; [|destruct (Z.eqb_spec b END) as [->|H2]].
  - cbn [on_chars]. unfold on_char. rewrite andb_false_r, Hn, He. cbn. rewrite andb_false_r, Hn. destruct s; cbn in *. by subst.
  - cbn [on_chars]. unfold on_char. rewrite andb_false_r, Hn, He. cbn. rewrite andb_false_r, Hn. destruct s; cbn in *. by subst.
  - cbn [on_chars]. unfold on_char. rewrite (proj2 (Z.eqb_neq _ _) H2), (proj2 (Z.eqb_neq _ _) H1), andb_false_r, Hn, He. cbn.
    destruct s; cbn in *. by subst.
Qed.
Lemma collect r msg : forall s, escaped s = false -> Z.of_nat (length (buffer s ++ msg)) <= BUFFER ->
  chars r (escape msg) s = Some ([], set_buffer (buffer s ++ msg) s).
Proof.
  unfold escape. induction msg as [|b msg IH]; intros s He Hl; cbn [map concat].
  { cbn. by rewrite app_nil_r, set_buffer_id. }
  rewrite length_app in Hl. cbn [length] in Hl. rewrite on_chars_app, collect_byte by (done || lia). cbn [mbind option_bind fst snd].
  rewrite IH; [|done|unfold push; cbn; rewrite !length_app; cbn; lia]. cbn. by rewrite <- app_assoc.
Qed.
Lemma end_received r s : escaped s = false -> error s = false -> Z.of_nat (length (buffer s)) < BUFFER ->
  chars r [END] s = h ← receive r (buffer s) s; Some (h.1, set_buffer [] h.2).
Proof.
  intros He Her Hl. cbn [on_chars]. unfold on_char. rewrite Her, He. cbn [andb].
  rewrite (proj2 (Z.eqb_neq _ _)) by lia. change (END =? END) with true. cbn match.
  destruct (receive r (buffer s) s) as [[a s']|]; [|done]. cbn. by rewrite app_nil_r.
Qed.
Lemma frame_received r msg s : escaped s = false -> error s = false -> Z.of_nat (length (buffer s ++ msg)) < BUFFER ->
  chars r (escape msg ++ [END]) s =
  h ← receive r (buffer s ++ msg) (set_buffer (buffer s ++ msg) s); Some (h.1, set_buffer [] h.2).
Proof.
  intros He Her Hl. rewrite on_chars_app, collect by (done || lia). cbn [mbind option_bind fst snd].
  rewrite end_received by done. cbn [buffer set_buffer]. by destruct (receive r _ _) as [[a s']|].
Qed.
(** Dispatch of a frame of a topic. *)
Lemma frame_parsed r t v id top (s : Fw) : 0 < size_bits -> (0 < int_size <= 8)%nat -> 0 <= id < 128 ->
  typed t v -> TOPICS int_size !! Z.to_nat id = Some top -> dir top = SUB -> msg top = t ->
  let frame := frame_of id v in
  bytes_ok frame = true -> Z.of_nat (length frame) < 2 ^ size_bits ->
  exists m, content frame m = Some (received v) /\ shaped t m /\ receive r frame s = handler RANDOM_MAX (tname top) r m s.
Proof.
  intros Hb Hi Hid Hv Ht Hd Hmsg frame Hm Hl. unfold topics_receive_msg.
  destruct (new_in frame Hm 0 (Z.of_nat (length frame))) as (it & Ei & Hf); [lia..|]. rewrite Ei. cbn [mbind option_bind].
  assert (has frame 0 ([0x92] ++ enc_int id ++ enc v false)) as Hh.
  { split; [done|]. exists []. rewrite app_nil_r. unfold enc_int. rewrite (proj2 (Z.ltb_ge _ _)), (proj2 (Z.ltb_lt id 128)) by lia.
    by rewrite wrapu_small by lia. }
  assert (length (enc_int id) = 1%nat) as He.
  { unfold enc_int. by rewrite (proj2 (Z.ltb_ge id 0)), (proj2 (Z.ltb_lt id 128)) by lia. }
  assert (stands frame 0 it) as Hst.
  { unfold InIterator_new in Ei. replace (Z.of_nat (length frame) =? 0) with false in Ei by (symmetry; apply Z.eqb_neq; cbn; lia).
    change (byte_at frame 0) with (Some 0x92) in Ei. cbn in Ei. injection Ei as <-. right. repeat split; cbn; lia. }
  apply (has_app size_bits frame Hb) in Hh as [H1 Hh]. apply (has_app size_bits frame Hb) in Hh as [H2 H3]. cbn [length] in *. rewrite He in H3.
  destruct (begin_found size_bits frame Hb Hm false 2 0 it ltac:(lia) H1 Hst) as (it1 & Eb & Hs1).
  assert (GetArraySize size_bits frame it = Some (Some 2, it1)) as ->.
  { unfold parse_begin in Eb. destruct (GetArraySize size_bits frame it) as [[[sz|] it']|]; [|done|done]. cbn in Eb.
    destruct (Z.ltb_spec sz 2); [done|]. injection Eb as Es ->. by replace sz with 2 by lia. }
  cbn [mbind option_bind]. change (2 <? 2) with false. cbn match.
  destruct (finds_int size_bits frame Hb Hm (int_t int_size) id Hi (small_in_range (int_t int_size) id (proj1 Hi) Hid) _ it1 H2 Hs1) as (id' & it2 & Eg & Hs2 & ->).
  rewrite Eg. cbn [mbind option_bind]. rewrite He in Hs2.
  destruct (finds_Parse size_bits type_first frame Hb Hm Hl t v false Hv _ it2 H3 Hs2) as (m & it3 & Ep & _ & Hc).
  exists m. split; [done|]. split; [by eapply Parse_shape|]. unfold check_msg. rewrite (proj2 (Z.leb_le 0 id)) by lia. rewrite Ht, Hd, Hmsg, Ep.
  cbn [mbind option_bind fst]. by destruct (handler _ _ _ _ _) as [[a s']|].
Qed.
End reception.

(** ** Runs *)
Section runs.
Context {CF : CppFloat}.
Variable size_bits : Z.
Variable type_first : bool.
Variable int_size : nat.
Variable RANDOM_MAX : Z.
(** Turns of [loop()]: the time, what [random()] returns, and the bytes that arrived. *)
Fixpoint run (turns : list (Z * Z * list Z)) (s : Fw) : option (list Act * Fw) :=
  match turns with
  | [] => Some ([], s)
  | (ms, r, chs) :: turns =>
      a ← loop size_bits type_first int_size RANDOM_MAX ms r chs s;
      b ← run turns a.2;
      Some (a.1 ++ b.1, b.2)
  end.
Lemma loop_ok ms r chs s : 0 < size_bits -> (0 < int_size <= 4)%nat -> bytes_ok chs = true -> fw_ok s ->
  done_ok int_size (loop size_bits type_first int_size RANDOM_MAX ms r chs s).
Proof.
  intros Hb Hi Hc Hs. unfold loop. assert (done_ok int_size (Some (tick int_size ms s))) as Ht.
  { unfold tick. case_match; [|by split]. destruct Hs as (H1 & H2 & H3). split; [by apply Forall_singleton|]. by repeat split; try apply H3. }
  destruct (tick int_size ms s) as [a s1], Ht as [Ha Ht]. pose proof (on_chars_ok size_bits type_first int_size RANDOM_MAX Hb Hi r chs s1 Hc Ht) as H.
  destruct (on_chars _ _ _ _ r chs s1) as [[b s2]|]; [|done]. destruct H as [Hb' H]. split; [by apply Forall_app|done].
Qed.
End runs.
Definition sample_gamble : list Z := frame_of 3 (VChild (VRoot [VI 7]) [VI 50]).

(** * Properties *)

(** C36: Whatever bytes arrive, in whatever portions, the firmware writes to none of its
    buffers out of bounds - the frame buffer of 400 bytes, the 400 bytes its messages
    are dumped into, the 50 characters of its texts -, and all it sends are whole
    frames, each the escaped dump of a value of a topic that it publishes; the
    blinking period stays in the range its 16 bits allow.  A message of whatever size
    is dumped within those 400 bytes too, and is sent exactly when its frame fits;
    and [Log] and [Error] of any text below 4 GiB never recurse without end: a line
    that does not fit is replaced by an error that does. *)
Theorem firmware_safe (CF : CppFloat) (size_bits : Z) (type_first : bool) (int_size : nat) (RANDOM_MAX : Z) (turns : list (Z * Z * list Z)) :
  0 < size_bits -> (2 <= int_size <= 4)%nat -> Forall (fun t => bytes_ok t.2 = true) turns ->
  (exists acts s, run size_bits type_first int_size RANDOM_MAX turns fw_init = Some (acts, s) /\
    Forall (answer int_size) acts /\ Z.of_nat (length (buffer s)) <= BUFFER /\ 0 <= power (led s) * 3 < 2 ^ (8 * Z.of_nat int_size)) /\
  (forall id v, 0 <= id < 128 -> exists sent, send id v = Some sent /\
    forall t, typed t v -> sent = if decide (Z.of_nat (length (frame_of id v)) <= 400)
      then Some (Serial_write (escape (frame_of id v) ++ [END])) else None) /\
  (forall text err, Z.of_nat (String.length text) < 2 ^ 32 ->
    Log log_fuel text err = Some [if log_fits text err then log_frame text err else log_frame (could_not err) true]).
Proof.
  intros Hb Hi Ht. split; [|split].
  - assert (fw_ok fw_init) as Hs by (split; [done|]; split; [done|cbn; lia]). revert Hs. generalize fw_init.
    assert (2 ^ 16 <= 2 ^ (8 * Z.of_nat int_size)) by (apply Z.pow_le_mono_r; lia).
    induction Ht as [|[[ms r] chs] turns Hc _ IH]; intros s Hs; cbn [run].
    + exists [], s. split; [done|]. split; [done|]. destruct Hs as (_ & ? & ?). split; [done|lia].
    + pose proof (loop_ok size_bits type_first int_size RANDOM_MAX ms r chs s Hb ltac:(lia) Hc Hs) as Hl.
      destruct (loop _ _ _ _ ms r chs s) as [[a s1]|]; [|done]. destruct Hl as [Ha Hl]. cbn. destruct (IH s1 Hl) as (b & s2 & E & Hb2 & H2).
      rewrite E. eexists _, _. split; [done|]. split; [by apply Forall_app|done].
  - intros id v Hid. destruct (send_in_buffer id v Hid) as (o & ok & _ & E). eexists. split; [exact E|]. intros t Hv.
    rewrite (send_spec t v id Hid Hv) in E. apply (inj Some) in E. rewrite <- E. unfold OUT_BUFFER_SIZE.
    case_decide; [by rewrite (proj2 (Z.leb_le _ _))|by rewrite (proj2 (Z.leb_gt _ _)) by lia].
  - intros text err Hl. by apply Log_spec.
Qed.
Lemma firmware_safe_witness :
  (exists acts s, run (CF := sample_float) 16 true 2 (2 ^ 31 - 1) [(1000, 5, escape sample_gamble ++ [END]); (1001, 5, [255; END; 0xDB; 1])] fw_init = Some (acts, s) /\
    Forall (answer 2) acts /\ Z.of_nat (length (buffer s)) <= BUFFER /\ 0 <= power (led s) * 3 < 2 ^ 16) /\
  send 0 (log_value (String.concat "" (repeat "0123456789" 40))) = Some None.
Proof.
  pose proof (firmware_safe sample_float 16 true 2 (2 ^ 31 - 1) [(1000, 5, escape sample_gamble ++ [END]); (1001, 5, [255; END; 0xDB; 1])] ltac:(lia) ltac:(lia) ltac:(repeat constructor)) as (H1 & H2 & _).
  split; [exact H1|]. set (v := log_value _). destruct (H2 0 v ltac:(lia)) as (sent & E & H). rewrite E.
  specialize (H LogMsg). rewrite H; [by vm_compute|]. apply log_typed. by vm_compute.
Defined.

(** A request travels both ways: the escaped frame of a [Gamble] leads to one log
    line and to one frame that the host's [slipa::Read] unescapes to the array of the
    topic and of the identifier, [ok] and the stake, won or lost - with [0xc2],
    MessagePack's false, for an [ok] that is true. *)
Theorem gamble_answered (CF : CppFloat) (size_bits : Z) (type_first : bool) (int_size : nat) (RANDOM_MAX r id amount : Z) (s : Fw) :
  8 <= size_bits -> (0 < int_size <= 8)%nat -> in_range u32 id -> in_range i32 amount ->
  escaped s = false -> error s = false -> buffer s = [] ->
  let request := frame_of 3 (VChild (VRoot [VI id]) [VI amount]) in
  let answer := 0x92 :: 4 :: 0x93 :: enc_int id ++ 0xc2 :: enc_int (gamble_amount RANDOM_MAX r amount) in
  exists out, on_chars size_bits type_first int_size RANDOM_MAX r (escape request ++ [END]) s =
    Some ([log_frame ("GAMBLE!!! " +:+ to_string (wrapu 32 amount)) false; Serial_write out], s) /\
  exists pieces, Slip.Read out = Some (pieces, NoError) /\ concat pieces = answer.
Proof.
  intros Hb Hi Hid Ha He Her Hbuf request answer.
  assert (forall z, (length (enc_int z) <= 9)%nat) as Hlen by (intros z; unfold enc_int; repeat case_match; cbn; lia).
  assert (forall z, bytes_ok (enc_int z) = true) as Hbytes.
  { intros z. assert (forall z, is_byte (wrapu 8 z) = true) as Hw.
    { intros y. pose proof (wrapu_range 8 y ltac:(lia)). unfold is_byte. by rewrite (proj2 (Z.leb_le _ _)), (proj2 (Z.ltb_lt _ _)) by lia. }
    unfold enc_int. repeat case_match; unfold bytes_ok; cbn [to_big forallb]; by rewrite !Hw. }
  assert (typed Gamble (VChild (VRoot [VI id]) [VI amount])) as Hv by (repeat split; try done; first [by apply Hid|by apply Ha|cbn; lia]).
  assert (length request <= 21)%nat as Hl.
  { unfold request, frame_of. cbn [enc enc_array app flat_map length]. rewrite !app_nil_r, length_app. pose proof (Hlen id). pose proof (Hlen amount). lia. }
  assert (2 ^ 8 <= 2 ^ size_bits) by (apply Z.pow_le_mono_r; lia).
  assert (bytes_ok request = true) as Hr.
  { unfold request, frame_of. cbn [enc enc_array app flat_map]. rewrite !app_nil_r. unfold bytes_ok. cbn [forallb]. rewrite forallb_app.
    fold (bytes_ok (enc_int id)). fold (bytes_ok (enc_int amount)). by rewrite !Hbytes. }
  rewrite frame_received by (rewrite ?Hbuf; cbn [app]; unfold BUFFER; done || lia). rewrite Hbuf. cbn [app].
  destruct (frame_parsed size_bits type_first int_size RANDOM_MAX r Gamble _ 3 _ (set_buffer request s) ltac:(lia) Hi ltac:(lia) Hv eq_refl eq_refl eq_refl Hr ltac:(fold request; lia)) as (m & Hm & Hsh & Hrec).
  fold request in Hrec. rewrite Hrec. clear Hrec.
  assert (m = VChild (VRoot [VI id]) [VI amount]) as ->.
  { destruct m as [| | | | | |p l]; try done. destruct Hsh as [Hp Hl']. destruct p as [| | | | |q|]; try done.
    destruct q as [|x [|? ?]]; [done| |by destruct Hp]. destruct Hp as [Hx _]. destruct x; try done.
    destruct l as [|y [|? ?]]; [done| |by destruct Hl']. destruct Hl' as [Hy _]. destruct y; try done. by injection Hm as -> ->. }
  unfold handler. cbn [tname]. rewrite bool_decide_eq_false_2, bool_decide_eq_true_2 by done. unfold on_gamble_req.
  pose proof (wrapu_range 32 amount ltac:(lia)) as Hw.
  pose proof (to_string_length 10 (wrapu 32 amount) ltac:(cbn; lia) ltac:(lia)) as Htl.
  set (text := "GAMBLE!!! " +:+ to_string (wrapu 32 amount)).
  assert (String.length text <= 20)%nat as Ht by (unfold text; rewrite str_length_app; change (String.length "GAMBLE!!! ") with 10%nat; lia).
  rewrite (proj2 (Nat.ltb_lt _ _)) by (unfold TEXT; lia). rewrite Log_short by lia. cbn [mbind option_bind].
  set (g := gamble_amount RANDOM_MAX r amount).
  assert (in_range i32 g) as Hg by (unfold g, gamble_amount; repeat case_match; apply (iconv_range i32); cbn; lia).
  rewrite (send_spec Payout) by (try lia; repeat split; try done; first [by apply Hid|by apply Hg|cbn; lia]).
  assert (frame_of 4 (VChild (VRoot [VI id; VB true]) [VI g]) = answer) as Ea.
  { unfold frame_of, answer. cbn [enc enc_array app flat_map]. rewrite !app_nil_r, <- app_assoc. done. }
  rewrite Ea. assert (Z.of_nat (length answer) <= OUT_BUFFER_SIZE).
  { unfold answer, OUT_BUFFER_SIZE. fold g. cbn [length]. rewrite length_app. cbn [length]. pose proof (Hlen id). pose proof (Hlen g). lia. }
  rewrite (proj2 (Z.leb_le _ _)) by done. cbn [mbind option_bind fst snd app].
  assert (set_buffer [] s = s) as Hs by (rewrite <- Hbuf; apply set_buffer_id).
  eexists. split; [by rewrite set_buffer_twice, Hs|]. apply Slip.Read_escape, strip_end_snoc.
Qed.
Lemma gamble_answered_witness :
  exists out, on_chars (CF := sample_float) 16 true 2 (2 ^ 31 - 1) 5 (escape sample_gamble ++ [END]) fw_init =
    Some ([log_frame "GAMBLE!!! 50" false; Serial_write out], fw_init) /\
  exists pieces, Slip.Read out = Some (pieces, NoError) /\ concat pieces = [0x92; 4; 0x93; 7; 0xc2; 50].
Proof. apply (gamble_answered sample_float 16 true 2 (2 ^ 31 - 1) 5 7 50 fw_init); try done; unfold in_range, ibits; cbn; lia. Defined.

(** A frame of at most 399 bytes is received whole, however it is split; one of 400
    is not, although it fits in the buffer. *)
Theorem frame_bound (CF : CppFloat) (size_bits : Z) (type_first : bool) (int_size : nat) (RANDOM_MAX r : Z) (msg : list Z) (s : Fw) :
  escaped s = false -> error s = false -> buffer s = [] ->
  (Z.of_nat (length msg) < BUFFER -> on_chars size_bits type_first int_size RANDOM_MAX r (escape msg ++ [END]) s =
    h ← topics_receive_msg size_bits type_first int_size RANDOM_MAX r msg (set_buffer msg s); Some (h.1, set_buffer [] h.2)) /\
  (Z.of_nat (length msg) = BUFFER -> exists acts, on_chars size_bits type_first int_size RANDOM_MAX r (escape msg ++ [END]) s =
    Some (acts, set_error true s)).
Proof.
  intros He Her Hbuf. split; intros Hl.
  - rewrite frame_received by (rewrite ?Hbuf; done). by rewrite Hbuf.
  - rewrite on_chars_app, collect by (rewrite ?Hbuf; cbn [app]; done || lia). cbn [mbind option_bind fst snd on_chars]. rewrite Hbuf. cbn [app].
    unfold on_char. cbn [error set_buffer buffer]. rewrite Her, Hl. cbn [andb]. rewrite Z.eqb_refl.
    unfold inputError, Error. rewrite !Log_short by (cbn; lia). cbn. eexists. destruct s; cbn in *. by subst.
Qed.
Lemma frame_bound_witness : exists acts,
  on_chars (CF := sample_float) 16 true 2 0 0 (escape (repeat 1 400) ++ [END]) fw_init = Some (acts, set_error true fw_init).
Proof. by apply (frame_bound sample_float 16 true 2 0 0 (repeat 1 400) fw_init). Defined.
(** After an input error the next frame is not skipped: its end only clears the
    error, and the frame after it is appended to it. *)
Theorem error_glues_frames (CF : CppFloat) (size_bits : Z) (type_first : bool) (int_size : nat) (RANDOM_MAX r : Z) (m1 m2 : list Z) (s : Fw) :
  escaped s = false -> error s = true -> buffer s = [] -> Z.of_nat (length (m1 ++ m2)) < BUFFER ->
  on_chars size_bits type_first int_size RANDOM_MAX r ((escape m1 ++ [END]) ++ escape m2 ++ [END]) s =
  h ← topics_receive_msg size_bits type_first int_size RANDOM_MAX r (m1 ++ m2) (set_buffer (m1 ++ m2) (set_error false s));
  Some (h.1, set_buffer [] h.2).
Proof.
  intros He Her Hbuf Hl. rewrite length_app in Hl. rewrite on_chars_app, on_chars_app, collect by (rewrite ?Hbuf; cbn [app]; done || lia).
  cbn [mbind option_bind fst snd]. rewrite Hbuf. cbn [app on_chars]. unfold on_char at 1. cbn [error set_buffer]. rewrite Her. change (END =? END) with true.
  cbn [andb mbind option_bind fst snd app].
  rewrite frame_received; [|done|done|cbn; rewrite length_app; lia]. cbn [buffer set_buffer set_error].
  change (set_error false (set_buffer m1 s)) with (set_buffer m1 (set_error false s)). rewrite set_buffer_twice.
  by destruct (topics_receive_msg _ _ _ _ r _ _) as [[a s']|].
Qed.
Lemma error_glues_frames_witness :
  on_chars (CF := sample_float) 16 true 2 0 0 ((escape [0x92; 7] ++ [END]) ++ escape [1] ++ [END]) (set_error true fw_init) =
  Some ([log_frame "Topic error: Error: Unknown msg type: 7" true], fw_init).
Proof.
  rewrite (error_glues_frames sample_float 16 true 2 0 0 [0x92; 7] [1] (set_error true fw_init)); [|done..]. by vm_compute.
Defined.
(** The branch that triples the stake is never taken. *)
Theorem jackpot_unreachable (RANDOM_MAX r amount : Z) : 0 <= RANDOM_MAX ->
  gamble_amount RANDOM_MAX r amount = wraps 32 (1 * amount) \/ gamble_amount RANDOM_MAX r amount = wraps 32 (-1 * amount).
Proof.
  intros HR. unfold gamble_amount. destruct (Z.ltb_spec r (RANDOM_MAX / 3)); [by left|]. right. rewrite (proj2 (Z.ltb_ge _ _)); [done|].
  etransitivity; [|exact H]. apply Z.div_le_compat_l; lia.
Qed.
Lemma jackpot_unreachable_witness : gamble_amount (2 ^ 31 - 1) 0 9 = wraps 32 (1 * 9) \/ gamble_amount (2 ^ 31 - 1) 0 9 = wraps 32 (-1 * 9).
Proof. apply jackpot_unreachable. lia. Defined.
