(* ===== verification/GuiTester.v ===== *)
(** * The GUI tester: [src/src/workers/gui/gui_tester.cpp]

    Recording of the input of windows, replaying of recordings, and the methods by
    which a script drives a window.  The windows, the items in them and what their
    code does with an event are Qt and QML: [GuiOps] is the scene, how it answers an
    event ([deliver]) and what happens when the event loop is pumped ([pump]: input,
    timers, and the time that passes).  [RunOnLoop] runs its body on the thread of the
    scene before the caller goes on: a method here is that body.  Floating-point
    numbers are their bits; [Undef] is the use of a window that no longer exists. *)
From S2P Require Import Prelude QVariant Utils.
Set Warnings "-register-all".

(** ** Names of keys, modifiers and buttons *)
Definition Key_A : Z := 0x41.
Definition Key_0 : Z := 0x30.
Definition Key_F1 : Z := 0x01000030.
Definition Key_Return : Z := 0x01000004.
Definition Key_Tab : Z := 0x01000001.
Definition Key_Backspace : Z := 0x01000003.
Definition char_name (c : Z) : string := String (ascii_of_N (Z.to_N c)) "".
Definition named_keys : list (string * Z) :=
  [("return", Key_Return); ("enter", 0x01000005); ("tab", Key_Tab); ("backspace", Key_Backspace); ("space", 0x20);
   ("escape", 0x01000000); ("esc", 0x01000000); ("delete", 0x01000007); ("del", 0x01000007);
   ("insert", 0x01000006); ("ins", 0x01000006); ("home", 0x01000010); ("end", 0x01000011);
   ("pageup", 0x01000016); ("pgup", 0x01000016); ("pagedown", 0x01000017); ("pgdown", 0x01000017);
   ("left", 0x01000012); ("right", 0x01000014); ("up", 0x01000013); ("down", 0x01000015);
   ("shift", 0x01000020); ("control", 0x01000021); ("ctrl", 0x01000021); ("alt", 0x01000023); ("meta", 0x01000022);
   ("capslock", 0x01000024); ("numlock", 0x01000025); ("print", 0x01000009); ("pause", 0x01000008); ("menu", 0x01000055)].
Definition makeKeyMap : list (string * Z) :=
  map (fun i => (char_name (97 + Z.of_nat i), Key_A + Z.of_nat i)) (seq 0 26) ++
  map (fun i => (char_name (48 + Z.of_nat i), Key_0 + Z.of_nat i)) (seq 0 10) ++
  map (fun i => ("f" +:+ to_string (Z.of_nat i), Key_F1 + Z.of_nat i - 1)) (seq 1 35) ++
  named_keys.
Definition ShiftModifier : Z := 0x02000000.
Definition ControlModifier : Z := 0x04000000.
Definition AltModifier : Z := 0x08000000.
Definition MetaModifier : Z := 0x10000000.
Definition makeModMap : list (string * Z) :=
  [("shift", ShiftModifier); ("ctrl", ControlModifier); ("control", ControlModifier); ("alt", AltModifier); ("meta", MetaModifier)].
Fixpoint hash_find (k : string) (m : list (string * Z)) : option Z :=
  match m with [] => None | (j, v) :: m => if bool_decide (k = j) then Some v else hash_find k m end.
Definition LeftButton : Z := 1.
Definition RightButton : Z := 2.
Definition MiddleButton : Z := 4.
Definition btnFromStr (s : string) : Z :=
  if bool_decide (s = "right") then RightButton else if bool_decide (s = "middle") then MiddleButton else LeftButton.
Definition btnToStr (b : Z) : string := if b =? RightButton then "right" else if b =? MiddleButton then "middle" else "left".

(** ** Events and scenes *)
Inductive MouseType := Press | Release | DblClick | Move.
Inductive Event :=
| Mouse (ty : MouseType) (x y : Z) (gp : Z * Z) (button buttons mods : Z)
| Key (press : bool) (key mods : Z) (text : string)
| Wheel (x y : Z) (gp : Z * Z) (delta buttons mods : Z)
| OtherEvent.
Inductive Item := MkItem (id : Z) (objectName : string) (childItems : list Item).
(** What happens while the event loop is pumped: an event for an object, which may
    be a window, and a tick of a recorder's flusher, each some time after the last. *)
Inductive Happening := Input (to_window : bool) (e : Event) | FlushTick (filter : nat).

Class GuiOps := {
  Scene : Type;
  topLevelWindows : Scene -> list Z;              (* those that are QQuickWindows *)
  alive : Scene -> Z -> bool;                     (* the window exists *)
  contentItem : Scene -> Z -> option Item;
  title : Scene -> Z -> string;
  item_at : Scene -> Z -> option Item;            (* the item exists *)
  property : Scene -> Z -> string -> QVar;
  setProperty : Scene -> Z -> string -> QVar -> Scene;
  item_center : Scene -> Z -> Z * Z;              (* mapToScene of half the width and height *)
  mapToGlobal : Scene -> Z -> Z * Z -> Z * Z;
  deliver : Z -> Event -> Scene -> Scene;
  pump : Scene -> list (Z * Happening) * Z * Scene;
  grab : Scene -> Z -> bool;                      (* grabWindow() is not null *)
  (* Qt's conversions *)
  toLower : string -> string;
  containsCI : string -> string -> bool;
  qRound : Z -> Z;
  int_of : Z -> Z;
  over_speed : Z -> Z -> Z;                       (* qRound(double(delay) / speed) *)
  toStr : QVar -> string;
  toInt : QVar -> Z;
  toLongLong : QVar -> Z;
  toDouble : QVar -> Z;
  toMap : QVar -> list (string * QVar);
  unit_text : Z -> string;                        (* the text of one UTF-16 unit *)
  fromJson : string -> option QVar;               (* the document as a variant *)
  readFile : string -> option string
}.
Class GuiLaws (GO : GuiOps) := {
  toStr_str : forall s, toStr (VString s) = s;
  toStr_none : toStr VInvalid = "";
  toInt_int : forall z, toInt (VInt z) = z;
  toLongLong_ll : forall z, toLongLong (VLongLong z) = z;
  toDouble_double : forall b, toDouble (VDouble b) = b;
  toMap_map : forall m, toMap (VMap m) = m;
  over_speed_int : forall d v, - 2 ^ 31 <= over_speed d v < 2 ^ 31;
  topLevel_alive : forall s w, w ∈ topLevelWindows s -> alive s w = true;
  time_passes : forall s, Forall (fun h => 0 <= h.1) (pump s).1.1 /\ 0 <= (pump s).1.2
}.

(** ** How a method ends: a result, an exception, or the use of a window that is gone *)
Inductive Out (A : Type) := Ret (a : A) | Throw (msg : string) | Undef | NoFuel.
Arguments Ret {A} a.
Arguments Throw {A} msg.
Arguments Undef {A}.
Arguments NoFuel {A}.

Section tester.
Context {GO : GuiOps}.

Definition parseKey (arg : QVar) : res Z :=
  match arg with
  | VInt _ | VLongLong _ => Ok (toInt arg)
  | _ => match hash_find (toLower (toStr arg)) makeKeyMap with
         | Some k => Ok k
         | None => Raise ("QML_Tester: unknown key name '" +:+ toStr arg +:+ "'")
         end
  end.
Fixpoint mods_loop (mods : Z) (args : list QVar) : Z :=
  match args with
  | [] => mods
  | VString s as a :: args =>
      mods_loop (match hash_find (toLower (toStr a)) makeModMap with Some m => Z.lor mods m | None => mods end) args
  | _ :: args => mods_loop mods args
  end.
Definition parseMods (args : list QVar) (startIdx : nat) : Z := mods_loop 0 (drop startIdx args).

(** ** State *)
Record RecordFilter := { events : list QVar; timer : Z; active : bool; pendingMove : option (list (string * QVar)) }.
Inductive Act := Sent (win : Z) (e : Event) | Slept (ms : Z) | Saved (path : string).
(** Recorders are numbered; [installed] are the application's event filters, the
    latest first; [guiItems] the roots that are not windows. *)
Record World := {
  scene : Scene; now : Z; filters : list RecordFilter; installed : list nat; guiRecordFilter : option nat;
  guiItems : list Z; log : list Act
}.
Record Tester := { curWindow : option Z; curItem : option Z; recordFilter : option nat }.
Definition set_scene (s : Scene) (w : World) : World :=
  {| scene := s; now := now w; filters := filters w; installed := installed w; guiRecordFilter := guiRecordFilter w; guiItems := guiItems w; log := log w |}.
Definition set_filters (f : list RecordFilter) (w : World) : World :=
  {| scene := scene w; now := now w; filters := f; installed := installed w; guiRecordFilter := guiRecordFilter w; guiItems := guiItems w; log := log w |}.
Definition act (a : Act) (w : World) : World :=
  {| scene := scene w; now := now w; filters := filters w; installed := installed w; guiRecordFilter := guiRecordFilter w; guiItems := guiItems w; log := log w ++ [a] |}.
Definition pass (ms : Z) (w : World) : World :=
  {| scene := scene w; now := now w + ms; filters := filters w; installed := installed w; guiRecordFilter := guiRecordFilter w; guiItems := guiItems w; log := log w |}.
Definition install (l : list nat) (g : option nat) (w : World) : World :=
  {| scene := scene w; now := now w; filters := filters w; installed := l; guiRecordFilter := g; guiItems := guiItems w; log := log w |}.

(** ** Recording *)
Definition flushPendingMove (f : RecordFilter) : RecordFilter :=
  match pendingMove f with
  | Some m => {| events := events f ++ [VMap m]; timer := timer f; active := active f; pendingMove := None |}
  | None => f
  end.
Definition append (r : list (string * QVar)) (f : RecordFilter) : RecordFilter :=
  {| events := events f ++ [VMap r]; timer := timer f; active := active f; pendingMove := pendingMove f |}.
Definition addNote (data : QVar) (now : Z) (f : RecordFilter) : RecordFilter :=
  append (qm_insert "data" data (qm_insert "t" (VLongLong (now - timer f)) (qm_insert "type" (VString "note") [])))
    (flushPendingMove f).
(** The record of an event [elapsed] milliseconds after the start. *)
Definition rec_of (elapsed : Z) (e : Event) : list (string * QVar) :=
  match e with
  | Mouse ty x y _ btn _ _ =>
      let r := qm_insert "y" (VDouble y) (qm_insert "x" (VDouble x)
        (qm_insert "type" (VString (match ty with Move => "mouseMove" | Press => "mousePress" | _ => "mouseRelease" end))
          (qm_insert "t" (VLongLong elapsed) []))) in
      match ty with Move => r | _ => qm_insert "btn" (VString (btnToStr btn)) r end
  | Key p key mods text =>
      let r := qm_insert "mods" (VInt mods) (qm_insert "key" (VInt key)
        (qm_insert "type" (VString (if p then "keyPress" else "keyRelease")) (qm_insert "t" (VLongLong elapsed) []))) in
      if bool_decide (text = "") then r else qm_insert "text" (VString text) r
  | Wheel x y _ delta _ _ =>
      qm_insert "delta" (VInt delta) (qm_insert "y" (VDouble y) (qm_insert "x" (VDouble x)
        (qm_insert "type" (VString "wheel") (qm_insert "t" (VLongLong elapsed) []))))
  | OtherEvent => []
  end.
Definition recorded (e : Event) : bool := match e with Mouse DblClick _ _ _ _ _ _ | OtherEvent => false | _ => true end.
Definition is_move (e : Event) : bool := match e with Mouse Move _ _ _ _ _ _ => true | _ => false end.
(** [eventFilter]: it never stops an event. *)
Definition eventFilter (to_window : bool) (e : Event) (now : Z) (f : RecordFilter) : RecordFilter :=
  if negb (active f) then f
  else if negb (recorded e) then f
  else if negb to_window then f
  else
    let elapsed := now - timer f in
    if is_move e then {| events := events f; timer := timer f; active := active f; pendingMove := Some (rec_of elapsed e) |}
    else append (rec_of elapsed e) (flushPendingMove f).
(** The application's filters see an event before its object does. *)
Definition filter_event (to_window : bool) (e : Event) (w : World) : World :=
  set_filters (fold_left (fun fs i => alter (eventFilter to_window e (now w)) i fs) (installed w) (filters w)) w.

Definition start (i : nat) (w : World) : World :=
  install (i :: filter (fun j => j <> i) (installed w)) (Some i)
    (set_filters (alter (fun _ => {| events := []; timer := now w; active := true; pendingMove := None |}) i (filters w)) w).
Definition stopped (f : RecordFilter) : RecordFilter :=
  flushPendingMove {| events := events f; timer := timer f; active := false; pendingMove := pendingMove f |}.
Definition stop (i : nat) (w : World) : list QVar * World :=
  let fs := alter stopped i (filters w) in
  (match fs !! i with Some f => events f | None => [] end,
   install (filter (fun j => j <> i) (installed w)) None (set_filters fs w)).
Definition new_filter (w : World) : nat * World :=
  (length (filters w), set_filters (filters w ++ [{| events := []; timer := 0; active := false; pendingMove := None |}]) w).

(** The entry points of the command line and of [radapter.note]. *)
Definition StartRecording (w : World) : World :=
  match guiRecordFilter w with
  | Some i => start i w
  | None => let '(i, w) := new_filter w in start i w
  end.
Definition is_active (i : nat) (w : World) : bool := match filters w !! i with Some f => active f | None => false end.
Definition RecordNote (data : QVar) (w : World) : World :=
  match guiRecordFilter w with
  | Some i => if is_active i w then set_filters (alter (addNote data (now w)) i (filters w)) w else w
  | None => w
  end.
Definition StopRecording (w : World) : list QVar * World :=
  match guiRecordFilter w with
  | Some i => if is_active i w then stop i w else ([], w)
  | None => ([], w)
  end.

(** ** Methods *)
Record St := { tester : Tester; world : World }.
Definition M (A : Type) : Type := St -> Out A * St.
Definition ret {A} (a : A) : M A := fun s => (Ret a, s).
Definition raise {A} (msg : string) : M A := fun s => (Throw msg, s).
Definition undef {A} : M A := fun s => (Undef, s).
Definition bind {A B} (m : M A) (k : A -> M B) : M B := fun s =>
  match m s with
  | (Ret a, s) => k a s
  | (Throw e, s) => (Throw e, s)
  | (Undef, s) => (Undef, s)
  | (NoFuel, s) => (NoFuel, s)
  end.
#[export] Instance M_ret : MRet M := @ret.
#[export] Instance M_bind : MBind M := fun A B k m => bind m k.
Definition gets {A} (f : World -> A) : M A := fun s => (Ret (f (world s)), s).
Definition modify (f : World -> World) : M unit := fun s => (Ret tt, {| tester := tester s; world := f (world s) |}).
Definition get_tester : M Tester := fun s => (Ret (tester s), s).
Definition put_tester (t : Tester) : M unit := fun s => (Ret tt, {| tester := t; world := world s |}).
Definition lift {A} (r : res A) : M A := match r with Ok a => ret a | Raise e => raise e end.

(** ** The event loop *)
(** [QCoreApplication::sendEvent(win, &e)] through a plain pointer. *)
Definition sendEvent (win : Z) (e : Event) : M unit :=
  ok ← gets (fun w => alive (scene w) win);
  if ok : bool then modify (fun w => let w := filter_event true e w in set_scene (deliver win e (scene w)) (act (Sent win e) w))
  else undef.
Definition happen (h : Z * Happening) (w : World) : World :=
  let w := pass h.1 w in
  match h.2 with
  | Input to_window e => filter_event to_window e w
  | FlushTick i => set_filters (alter flushPendingMove i (filters w)) w
  end.
Definition processEvents : M unit := modify (fun w =>
  let '(hs, ms, s) := pump (scene w) in set_scene s (pass ms (fold_left (fun w h => happen h w) hs w))).
(** [busyWaitMs]; [t] is when it began. *)
Fixpoint wait_loop (fuel : nat) (t ms : Z) : M unit :=
  match fuel with
  | O => fun s => (NoFuel, s)
  | S fuel =>
      e ← gets (fun w => now w - t);
      if e <? ms then
        processEvents ;;
        remaining ← gets (fun w => wraps 32 (ms - wraps 32 (now w - t)));
        (if 0 <? remaining then modify (fun w => pass (Z.min 5 remaining) (act (Slept (Z.min 5 remaining)) w)) else ret tt) ;;
        wait_loop fuel t ms
      else ret tt
  end.
(** Every turn that is not the last sleeps for a millisecond at least. *)
Definition busyWaitMs (ms : Z) : M unit := t ← gets now; wait_loop (S (Z.to_nat ms)) t ms.
Definition grabWindowTo (win : Z) (path : string) : M bool :=
  processEvents ;;
  s ← gets scene;
  if alive s win then (if grab s win then modify (act (Saved path)) ;; ret true else ret false) else undef.
Definition parseEventsArray (json what : string) : res (list QVar) :=
  match fromJson json with
  | Some (VList l) => Ok l
  | _ => Raise (what +:+ ": not a JSON array")
  end.

(** ** Replaying *)
Definition mouse_types (t : string) : bool := bool_decide (t = "mousePress" \/ t = "mouseRelease" \/ t = "mouseMove").
Definition field (k : string) (m : list (string * QVar)) : QVar := qm_get VInvalid k m.
Definition replay_mouse (win : Z) (type : string) (obj : list (string * QVar)) (held : Z) : M Z :=
  let x := toDouble (field "x" obj) in
  let y := toDouble (field "y" obj) in
  s ← gets scene;
  if negb (alive s win) then undef else
  let gp := mapToGlobal s win (qRound x, qRound y) in
  if bool_decide (type = "mouseMove") then sendEvent win (Mouse Move x y gp 0 held 0) ;; ret held
  else
    let btn := btnFromStr (toStr (field "btn" obj)) in
    let press := bool_decide (type = "mousePress") in
    let held := if press then Z.lor held btn else Z.land held (Z.lnot btn) in
    sendEvent win (Mouse (if press then Press else Release) x y gp btn held 0) ;; ret held.
Definition replay_one (win : Z) (type : string) (obj : list (string * QVar)) (held : Z) : M Z :=
  if mouse_types type then replay_mouse win type obj held
  else if bool_decide (type = "keyPress" \/ type = "keyRelease") then
    sendEvent win (Key (bool_decide (type = "keyPress")) (toInt (field "key" obj)) (toInt (field "mods" obj)) (toStr (field "text" obj))) ;; ret held
  else if bool_decide (type = "wheel") then
    let x := toDouble (field "x" obj) in
    let y := toDouble (field "y" obj) in
    s ← gets scene;
    if negb (alive s win) then undef else
    sendEvent win (Wheel x y (mapToGlobal s win (qRound x, qRound y)) (toInt (field "delta" obj)) 0 0) ;; ret held
  else if bool_decide (type = "screenshot") then
    let spath := toStr (field "path" obj) in
    (if bool_decide (spath = "") then ret tt else (grabWindowTo win spath ;; ret tt)) ;; ret held
  else ret held.
Fixpoint replay_loop (win : Z) (evs : list QVar) (speed prevT held : Z) : M unit :=
  match evs with
  | [] => ret tt
  | val :: evs =>
      let obj := toMap val in
      let t := toLongLong (field "t" obj) in
      let delay := Z.max 0 (t - prevT) in
      (if 0 <? delay then busyWaitMs (over_speed delay speed) else ret tt) ;;
      held ← replay_one win (toStr (field "type" obj)) obj held;
      processEvents ;;
      replay_loop win evs speed t held
  end.
Definition replayEventsOn (win : Z) (evs : list QVar) (speed : Z) : M unit := replay_loop win evs speed 0 0.
(** [gui::ReplayFile]. *)
Definition ReplayFile (path : string) (speed : Z) : M unit :=
  match readFile path with
  | None => raise ("--gui-replay: cannot open '" +:+ path +:+ "'")
  | Some text =>
      wins ← gets (fun w => topLevelWindows (scene w));
      match wins with
      | [] => raise "--gui-replay: no QML window to replay into"
      | win :: _ => evs ← lift (parseEventsArray text "--gui-replay"); replayEventsOn win evs speed
      end
  end.

(** ** The tester's window and items *)
Definition current_window (t : Tester) (s : Scene) : option Z :=
  match curWindow t with Some w => if alive s w then Some w else None | None => None end.
Definition set_window_ (w : Z) (t : Tester) : Tester := {| curWindow := Some w; curItem := curItem t; recordFilter := recordFilter t |}.
Definition set_item (i : Z) (t : Tester) : Tester := {| curWindow := curWindow t; curItem := Some i; recordFilter := recordFilter t |}.
Definition live_roots (w : World) : list Item := omap (item_at (scene w)) (guiItems w).
Definition no_window (has_items : bool) : string :=
  if has_items then "QML_Tester: this operation requires a QQuickWindow root, but the loaded QML has an Item root — wrap it in Window{} or ApplicationWindow{} to enable this"
  else "QML_Tester: no QML window — open one with QML{...} first".
Definition checkWindow : M Z :=
  t ← get_tester;
  w ← gets id;
  match current_window t (scene w) with
  | Some win => ret win
  | None =>
      match topLevelWindows (scene w) with
      | win :: _ => put_tester (set_window_ win t) ;; ret win
      | [] => raise (no_window (negb (bool_decide (live_roots w = []))))
      end
  end.
Definition QML_Tester_new (w : World) : Tester :=
  {| curWindow := head (topLevelWindows (scene w)); curItem := None; recordFilter := None |}.
Definition item_id (i : Item) : Z := let 'MkItem id _ _ := i in id.
Definition objectName (i : Item) : string := let 'MkItem _ n _ := i in n.
Fixpoint findRecursive (name : string) (parent : Item) : option Item :=
  let 'MkItem _ n children := parent in
  if bool_decide (n = name) then Some parent
  else (fix children_loop l :=
          match l with
          | [] => None
          | child :: l => match findRecursive name child with Some found => Some found | None => children_loop l end
          end) children.
Fixpoint findAllRecursive (name : string) (out : list Item) (parent : Item) : list Item :=
  let 'MkItem _ n children := parent in
  let out := if bool_decide (n = name) then out ++ [parent] else out in
  fold_left (findAllRecursive name) children out.
Definition in_tree {A} (f : Item -> option A) (t : option Item) : option A := match t with Some i => f i | None => None end.
Fixpoint find_window (name : string) (s : Scene) (wins : list Z) : option (Z * Item) :=
  match wins with
  | [] => None
  | win :: wins => match in_tree (findRecursive name) (contentItem s win) with Some i => Some (win, i) | None => find_window name s wins end
  end.
Fixpoint find_root (name : string) (roots : list Item) : option Item :=
  match roots with
  | [] => None
  | r :: roots => match findRecursive name r with Some i => Some i | None => find_root name roots end
  end.
Definition findItem (name : string) : M (option Item) :=
  t ← get_tester;
  w ← gets id;
  match find_window name (scene w) (topLevelWindows (scene w)) with
  | Some (win, i) => put_tester (set_item (item_id i) (set_window_ win t)) ;; ret (Some i)
  | None =>
      match find_root name (live_roots w) with
      | Some i => put_tester (set_item (item_id i) t) ;; ret (Some i)
      | None => ret None
      end
  end.
Definition findItems (name : string) (w : World) : list Item :=
  let out := fold_left (fun out win => match contentItem (scene w) win with Some r => findAllRecursive name out r | None => out end)
               (topLevelWindows (scene w)) [] in
  fold_left (findAllRecursive name) (live_roots w) out.
Definition no_item : string := "QML_Tester: no current item — call :find() first".
(** [curItem], a [QPointer]. *)
Definition with_item {A} (k : Z -> M A) : M A :=
  t ← get_tester;
  s ← gets scene;
  match curItem t with
  | Some i => match item_at s i with Some _ => k i | None => raise no_item end
  | None => raise no_item
  end.
Definition found_or (name msg : string) : M unit :=
  i ← findItem name;
  match i with Some _ => ret tt | None => raise ("QML_Tester." +:+ msg +:+ ": item '" +:+ name +:+ "' not found") end.
Definition itemProperty (name : string) : M QVar := with_item (fun i => gets (fun w => property (scene w) i name)).
Definition itemProperty_of (itemName propName : string) : M QVar := found_or itemName "prop" ;; itemProperty propName.
Definition setItemProperty (name : string) (value : QVar) : M unit :=
  with_item (fun i => modify (fun w => set_scene (setProperty (scene w) i name value) w)).
Definition setItemProperty_of (itemName propName : string) (value : QVar) : M unit :=
  found_or itemName "set_prop" ;; setItemProperty propName value.
Definition itemCenter : M (Z * Z) := with_item (fun i => gets (fun w => item_center (scene w) i)).
Definition itemCenter_of (itemName : string) : M (Z * Z) := found_or itemName "center" ;; itemCenter.

(** ** Actions *)
Definition mouse_at (win : Z) (ty : MouseType) (x y button buttons : Z) (gp : Z * Z) : M unit :=
  sendEvent win (Mouse ty x y gp button buttons 0) ;; processEvents.
(** [if (!win) return] before what follows. *)
Definition while_alive (win : Z) (m : M unit) : M unit :=
  ok ← gets (fun w => alive (scene w) win);
  if ok : bool then m else ret tt.
Definition global_point (win x y : Z) : M (Z * Z) := gets (fun w => mapToGlobal (scene w) win (int_of x, int_of y)).
Definition mouseClick (x y : Z) (btn : string) : M unit :=
  win ← checkWindow;
  let button := btnFromStr btn in
  gp ← global_point win x y;
  mouse_at win Press x y button button gp ;;
  while_alive win (mouse_at win Release x y button 0 gp).
Definition mouseDblClick (x y : Z) (btn : string) : M unit :=
  win ← checkWindow;
  let button := btnFromStr btn in
  gp ← global_point win x y;
  mouse_at win Press x y button button gp ;;
  while_alive win (mouse_at win Release x y button 0 gp ;;
  while_alive win (mouse_at win DblClick x y button button gp ;;
  while_alive win (mouse_at win Release x y button 0 gp))).
Definition mousePress (x y : Z) (btn : string) : M unit :=
  win ← checkWindow;
  gp ← global_point win x y;
  mouse_at win Press x y (btnFromStr btn) (btnFromStr btn) gp.
Definition mouseRelease (x y : Z) (btn : string) : M unit :=
  win ← checkWindow;
  gp ← global_point win x y;
  mouse_at win Release x y (btnFromStr btn) 0 gp.
Definition mouseMove (x y : Z) : M unit :=
  win ← checkWindow;
  gp ← global_point win x y;
  sendEvent win (Mouse Move x y gp 0 0 0).
Definition mouseWheel (x y delta : Z) : M unit :=
  win ← checkWindow;
  gp ← global_point win x y;
  sendEvent win (Wheel x y gp delta 0 0) ;; processEvents.
Definition clickItem : M unit := c ← itemCenter; mouseClick c.1 c.2 "left".
Definition clickItem_of (itemName : string) : M unit := found_or itemName "click_item" ;; clickItem.
Definition send_key (press : bool) (key mods : Z) (text : string) : M unit := win ← checkWindow; sendEvent win (Key press key mods text).
Definition pressKey : Z -> Z -> string -> M unit := send_key true.
Definition releaseKey : Z -> Z -> string -> M unit := send_key false.
Definition clickKey (key mods : Z) (text : string) : M unit := pressKey key mods text ;; releaseKey key mods text ;; processEvents.
(** The key and the text of a typed unit. *)
Definition typed_key (ch : Z) : Z * string :=
  if ((ch =? 10) || (ch =? 13))%bool then (Key_Return, "")
  else if ch =? 9 then (Key_Tab, "")
  else if ch =? 8 then (Key_Backspace, "")
  else (ch, unit_text ch).
Fixpoint typeText (text : list Z) : M unit :=
  match text with
  | [] => ret tt
  | ch :: text => clickKey (typed_key ch).1 0 (typed_key ch).2 ;; busyWaitMs 5 ;; typeText text
  end.
Definition doScreenshot (path : string) : M bool := win ← checkWindow; grabWindowTo win path.
Definition startRecording : M unit :=
  t ← get_tester;
  match recordFilter t with
  | Some i => modify (start i)
  | None =>
      i ← gets (fun w => (new_filter w).1);
      modify (fun w => start i (new_filter w).2) ;;
      put_tester {| curWindow := curWindow t; curItem := curItem t; recordFilter := Some i |}
  end.
Definition stopRecording : M (list QVar) :=
  t ← get_tester;
  w ← gets id;
  match recordFilter t with
  | Some i => if is_active i w then modify (fun w => (stop i w).2) ;; ret (stop i w).1
              else raise "QML_Tester.record_stop: not recording"
  | None => raise "QML_Tester.record_stop: not recording"
  end.
(** The window is looked up before the text is parsed: the source leaves the order
    of the two open. *)
Definition replayJson (json what : string) (speed : Z) : M unit :=
  win ← checkWindow;
  evs ← lift (parseEventsArray json what);
  replayEventsOn win evs speed.
Definition replayFile (path : string) (speed : Z) : M unit :=
  match readFile path with
  | None => raise ("QML_Tester.replay: cannot open '" +:+ path +:+ "'")
  | Some text => replayJson text "QML_Tester.replay" speed
  end.
Definition choose (win : Z) : M unit :=
  t ← get_tester; put_tester {| curWindow := Some win; curItem := None; recordFilter := recordFilter t |}.
Definition setWindowIndex (idx : Z) : M unit :=
  wins ← gets (fun w => topLevelWindows (scene w));
  match (if 0 <=? idx then wins !! Z.to_nat idx else None) with
  | Some win => choose win
  | None => raise ("QML_Tester.set_window: index " +:+ (if idx <? 0 then "-" +:+ to_string (- idx) else to_string idx) +:+
                   " out of range (" +:+ to_string (Z.of_nat (length wins)) +:+ " windows)")
  end.
Definition setWindowTitle (part : string) : M unit :=
  w ← gets id;
  match List.find (fun win => containsCI (title (scene w) win) part) (topLevelWindows (scene w)) with
  | Some win => choose win
  | None => raise ("QML_Tester.set_window: no window matching '" +:+ part +:+ "'")
  end.

(** ** The methods of the Lua object *)
Inductive Call :=
| C_wait (ms : Z) | C_process_events | C_set_window (arg : QVar) | C_windows | C_find (name : string) | C_find_all (name : string)
| C_prop (name : string) (sub : option string) | C_set_prop (name : string) (a : QVar) (b : option QVar) | C_center (name : option string)
| C_click (x y : Z) (btn : option string) | C_dblclick (x y : Z) (btn : option string) | C_press (x y : Z) (btn : option string)
| C_release (x y : Z) (btn : option string) | C_move (x y : Z) | C_wheel (x y delta : Z) | C_click_item (name : option string)
| C_key_click (a : list QVar) | C_key_press (a : list QVar) | C_key_release (a : list QVar) | C_type (text : list Z)
| C_screenshot (path : string) | C_record_start | C_record_stop | C_replay (path : string) (speed : Z) | C_replay_data (json : string) (speed : Z).
Definition void (m : M unit) : M QVar := m ;; ret VInvalid.
Definition left_ (btn : option string) : string := default "left" btn.
Definition with_key (k : Z -> Z -> M unit) (a : list QVar) : M QVar :=
  key ← lift (parseKey (default VInvalid (a !! 0%nat)));
  void (k key (parseMods a 1)).
Definition set_window (arg : QVar) : M unit :=
  match arg with
  | VInt _ | VLongLong _ => setWindowIndex (toInt arg)
  | _ => setWindowTitle (toStr arg)
  end.
Definition windows (w : World) : list QVar :=
  map (fun win => let t := title (scene w) win in VString (if bool_decide (t = "") then "<untitled>" else t)) (topLevelWindows (scene w)).
Definition call (c : Call) : M QVar :=
  match c with
  | C_wait ms => void (busyWaitMs ms)
  | C_process_events => void processEvents
  | C_set_window arg => void (set_window arg)
  | C_windows => w ← gets id; ret (VList (windows w))
  | C_find name => i ← findItem name; ret (VBool (bool_decide (i <> None)))
  | C_find_all name => w ← gets id; ret (VList (map (fun i => VString (objectName i)) (findItems name w)))
  | C_prop name (Some sub) => itemProperty_of name sub
  | C_prop name None => itemProperty name
  | C_set_prop name a (Some b) => void (setItemProperty_of name (toStr a) b)
  | C_set_prop name a None => void (setItemProperty name a)
  | C_center name => c ← match name with Some n => itemCenter_of n | None => itemCenter end; ret (VList [VDouble c.1; VDouble c.2])
  | C_click x y btn => void (mouseClick x y (left_ btn))
  | C_dblclick x y btn => void (mouseDblClick x y (left_ btn))
  | C_press x y btn => void (mousePress x y (left_ btn))
  | C_release x y btn => void (mouseRelease x y (left_ btn))
  | C_move x y => void (mouseMove x y)
  | C_wheel x y delta => void (mouseWheel x y delta)
  | C_click_item name => void match name with Some n => clickItem_of n | None => clickItem end
  | C_key_click a => with_key (fun k m => clickKey k m "") a
  | C_key_press a => with_key (fun k m => pressKey k m "") a
  | C_key_release a => with_key (fun k m => releaseKey k m "") a
  | C_type text => void (typeText text)
  | C_screenshot path => r ← doScreenshot path; ret (VBool r)
  | C_record_start => void startRecording
  | C_record_stop => l ← stopRecording; ret (VList l)
  | C_replay path speed => void (replayFile path speed)
  | C_replay_data json speed => void (replayJson json "QML_Tester.replay_data" speed)
  end.
End tester.

(** ** What a recording keeps *)
(** What a recorder is shown while it is active: events for windows and for other
    objects, its ticks and notes, with the time. *)
Inductive Seen := SInput (to_window : bool) (e : Event) (at_ : Z) | STick | SNote (data : QVar) (at_ : Z).
Inductive Entry := EInput (e : Event) (t : Z) | ENote (data : QVar) (t : Z).
Definition observe (f : RecordFilter) (o : Seen) : RecordFilter :=
  match o with
  | SInput w e t => eventFilter w e t f
  | STick => flushPendingMove f
  | SNote d t => addNote d t f
  end.
(** The next event that is recorded, if nothing else comes before it, is a move. *)
Fixpoint move_follows (l : list Seen) : bool :=
  match l with
  | SInput w e _ :: l => if (w && recorded e)%bool then is_move e else move_follows l
  | _ => false
  end.
Fixpoint compress (l : list Seen) : list Entry :=
  match l with
  | [] => []
  | SInput w e t :: l =>
      if (w && recorded e && negb (is_move e && move_follows l))%bool then EInput e t :: compress l else compress l
  | STick :: l => compress l
  | SNote d t :: l => ENote d t :: compress l
  end.
Definition record_of (t0 : Z) (x : Entry) : QVar :=
  match x with
  | EInput e t => VMap (rec_of (t - t0) e)
  | ENote d t => VMap (qm_insert "data" d (qm_insert "t" (VLongLong (t - t0)) (qm_insert "type" (VString "note") [])))
  end.
(** What replaying an entry sends, the global position aside, and the buttons held. *)
Definition replayed (e : Event) (held : Z) : Event * Z :=
  match e with
  | Mouse Move x y _ _ _ _ => (Mouse Move x y (0, 0) 0 held 0, held)
  | Mouse ty x y _ button _ _ =>
      let b := btnFromStr (btnToStr button) in
      let held := match ty with Press => Z.lor held b | _ => Z.land held (Z.lnot b) end in
      (Mouse ty x y (0, 0) b held 0, held)
  | Key p k m t => (Key p k m t, held)
  | Wheel x y _ d _ _ => (Wheel x y (0, 0) d 0 0, held)
  | OtherEvent => (OtherEvent, held)
  end.
Fixpoint replays (l : list Entry) (held : Z) : list Event :=
  match l with
  | [] => []
  | EInput e _ :: l => (replayed e held).1 :: replays l (replayed e held).2
  | ENote _ _ :: l => replays l held
  end.
Definition unplaced (e : Event) : Event :=
  match e with
  | Mouse ty x y _ b bs m => Mouse ty x y (0, 0) b bs m
  | Wheel x y _ d b m => Wheel x y (0, 0) d b m
  | e => e
  end.
Definition sents (l : list Act) : list (Z * Event) := omap (fun a => match a with Sent w e => Some (w, unplaced e) | _ => None end) l.

Lemma flushed f : active (flushPendingMove f) = active f /\ timer (flushPendingMove f) = timer f /\ pendingMove (flushPendingMove f) = None /\
  events (flushPendingMove f) = events f ++ match pendingMove f with Some m => [VMap m] | None => [] end.
Proof. unfold flushPendingMove. destruct (pendingMove f) eqn:E; cbn; rewrite ?app_nil_r; done. Qed.
Lemma recording_from f l : active f = true ->
  events (stopped (fold_left observe l f)) =
  events f ++ (match pendingMove f with Some m => if move_follows l then [] else [VMap m] | None => [] end) ++ map (record_of (timer f)) (compress l).
Proof.
  revert f. induction l as [|o l IH]; intros f Ha; cbn [fold_left].
  - unfold stopped, flushPendingMove. cbn. destruct (pendingMove f); cbn; [done|by rewrite !app_nil_r].
  - destruct (flushed f) as (Fa & Ft & Fp & Fe).
    destruct o as [w e t| |d t]; cbn [observe move_follows compress].
    + unfold eventFilter. rewrite Ha. cbn [negb].
      destruct (recorded e) eqn:Er, w; cbn [negb andb]; try (by apply IH).
      destruct (is_move e) eqn:Em; cbn [andb].
      * rewrite IH by done. cbn. destruct (move_follows l); destruct (pendingMove f); cbn; by rewrite ?app_nil_r.
      * rewrite IH by (cbn; congruence). cbn. rewrite Fp, Fe, Ft. by rewrite <- !app_assoc.
    + rewrite IH by congruence. rewrite Fp, Fe, Ft. by rewrite <- app_assoc.
    + rewrite IH by (cbn; congruence). unfold addNote. cbn [events pendingMove timer append]. rewrite Fp, Fe, Ft. cbn. by rewrite <- !app_assoc.
Qed.

(** ** Running methods *)
Section runs.
Context {GO : GuiOps} {GL : GuiLaws GO}.
(** From a state with [P], a method returns with [Q] or throws: it does not use a
    window that is gone. *)
Definition safe {A} (P : St -> Prop) (m : M A) (Q : A -> St -> Prop) : Prop := forall s, P s ->
  match m s with (Ret a, s') => Q a s' | (Throw _, _) => True | _ => False end.
Abbreviation anyhow := (fun _ : St => True).
Abbreviation open win := (fun s : St => alive (scene (world s)) win = true).
Lemma safe_bind {A B} P Q R (m : M A) (k : A -> M B) : safe P m Q -> (forall a, safe (Q a) (k a) R) -> safe P (m ≫= k) R.
Proof. intros Hm Hk s Hs. unfold mbind, M_bind, bind. specialize (Hm s Hs). destruct (m s) as [[a|e| |] s']; try done. by apply Hk. Qed.
Lemma safe_weaken {A} (P P' : St -> Prop) (m : M A) (Q Q' : A -> St -> Prop) :
  safe P m Q -> (forall s, P' s -> P s) -> (forall a s, Q a s -> Q' a s) -> safe P' m Q'.
Proof. intros Hm HP HQ s Hs. specialize (Hm s (HP s Hs)). destruct (m s) as [[]]; auto. Qed.
Lemma safe_any {A} P (m : M A) Q : safe anyhow m Q -> safe P m (fun _ _ => True).
Proof. intros Hm. by apply (safe_weaken anyhow P m Q). Qed.
Lemma safe_ret {A} P (a : A) : safe P (ret a) (fun _ => P). Proof. by intros s. Qed.
Lemma safe_raise {A} P e Q : safe P (@raise GO A e) Q. Proof. done. Qed.
Lemma safe_gets {A} P (f : World -> A) : safe P (gets f) (fun _ => P). Proof. by intros s. Qed.
Lemma safe_modify P f : safe P (modify f) (fun _ _ => True). Proof. done. Qed.
Lemma safe_lift {A} P (r : res A) : safe P (lift r) (fun _ => P). Proof. by destruct r; intros s. Qed.
Lemma safe_checkWindow P : safe P checkWindow (fun win => open win).
Proof.
  intros s _. unfold checkWindow, mbind, M_bind, bind, gets, get_tester, put_tester, current_window. cbn [fst snd id].
  destruct (topLevelWindows (scene (world s))) as [|w l] eqn:E.
  - destruct (curWindow (tester s)) as [c|]; [|done]. destruct (alive (scene (world s)) c) eqn:Ea; done.
  - assert (alive (scene (world s)) w = true) by (apply topLevel_alive; rewrite E; left).
    destruct (curWindow (tester s)) as [c|]; [|done]. destruct (alive (scene (world s)) c) eqn:Ea; done.
Qed.
Lemma safe_send win e : safe (open win) (sendEvent win e) (fun _ _ => True).
Proof. intros s Hs. unfold sendEvent, mbind, M_bind, bind, gets. cbn [fst snd]. by rewrite Hs. Qed.
Lemma safe_mouse_at win ty x y b bs gp : safe (open win) (mouse_at win ty x y b bs gp) (fun _ _ => True).
Proof. apply (safe_bind _ (fun _ => anyhow)); [apply safe_send|]. intros _. apply safe_modify. Qed.
Lemma safe_while_alive win m : safe (open win) m (fun _ _ => True) -> safe anyhow (while_alive win m) (fun _ _ => True).
Proof.
  intros Hm s _. unfold while_alive, mbind, M_bind, bind, gets. cbn [fst snd].
  destruct (alive (scene (world s)) win) eqn:E; [|done]. by apply Hm.
Qed.
(** Every action on a window starts by looking it up. *)
Lemma safe_on_window (k : Z -> Z * Z -> M unit) x y : (forall win gp, safe (open win) (k win gp) (fun _ _ => True)) ->
  safe anyhow (win ← checkWindow; gp ← global_point win x y; k win gp) (fun _ _ => True).
Proof.
  intros Hk. apply (safe_bind _ (fun win => open win)); [apply safe_checkWindow|]. intros win.
  apply (safe_bind _ (fun _ => open win)); [apply safe_gets|]. intros gp. apply Hk.
Qed.

Lemma happen_now hs w : Forall (fun h => 0 <= h.1) hs -> now w <= now (fold_left (fun w h => happen h w) hs w).
Proof.
  intros Hh. revert w. induction Hh as [|[d h] hs Hd _ IH]; intros w; cbn [fold_left]; [lia|].
  etransitivity; [|apply IH]. cbn in Hd. unfold happen. destruct h; cbn; lia.
Qed.
Lemma happen_log hs w : log (fold_left (fun w h => happen h w) hs w) = log w.
Proof. revert w. induction hs as [|[d h] hs IH]; intros w; cbn [fold_left]; [done|]. rewrite IH. by destruct h. Qed.
Definition pumped (w : World) : World := world (processEvents {| tester := {| curWindow := None; curItem := None; recordFilter := None |}; world := w |}).2.
Lemma processEvents_eq s : processEvents s = (Ret tt, {| tester := tester s; world := pumped (world s) |}).
Proof. done. Qed.
Lemma pumped_spec w : now w <= now (pumped w) /\ log (pumped w) = log w /\ scene (pumped w) = (pump (scene w)).2.
Proof.
  unfold pumped, processEvents, modify. cbn. destruct (time_passes (scene w)) as [H1 H2].
  destruct (pump (scene w)) as [[hs ms] sc]; cbn in *. rewrite happen_log. split; [|done].
  pose proof (happen_now hs w H1). lia.
Qed.

(** Waiting returns; it takes as long as it is asked to and sends nothing. *)
Definition waited (Alive : Scene -> Prop) (s s' : St) : Prop :=
  (Alive (scene (world s)) -> Alive (scene (world s'))) /\ sents (log (world s')) = sents (log (world s)) /\
  tester s' = tester s /\ now (world s) <= now (world s').
Lemma wait_loop_ends (Alive : Scene -> Prop) fuel t ms s :
  (forall sc, Alive sc -> Alive (pump sc).2) ->
  0 <= ms < 2 ^ 31 -> t <= now (world s) -> Z.max 0 (ms - (now (world s) - t)) < Z.of_nat fuel ->
  exists s', wait_loop fuel t ms s = (Ret tt, s') /\ waited Alive s s' /\ ms <= now (world s') - t.
Proof.
  intros Hpump Hms. revert s. induction fuel as [|fuel IH]; intros s Ht Hf.
  { cbn in Hf. lia. }
  cbn [wait_loop]. unfold mbind, M_bind, bind, gets. cbn [fst snd].
  destruct (Z.ltb_spec (now (world s) - t) ms) as [Hl|Hl]; [|exists s; split; [done|]; split; [split_and!; done || lia|lia]].
  rewrite processEvents_eq. destruct (pumped_spec (world s)) as (Hn & Hlog & Hsc). cbn [world tester].
  set (r := wraps 32 _). set (s1 := {| tester := tester s; world := _ |}).
  assert (ms <= now (world s1) - t \/ 0 < r <= ms) as Hr.
  { destruct (Z.le_gt_cases ms (now (world s1) - t)); [by left|right]. subst r s1. cbn [world] in *.
    rewrite (wraps32_small (_ - t)) by lia. rewrite wraps32_small by lia. lia. }
  assert (forall w, scene w = scene (pumped (world s)) -> sents (log w) = sents (log (pumped (world s))) -> now (pumped (world s)) <= now w ->
    (ms <= now w - t \/ now (world s) < now w) ->
    exists s', wait_loop fuel t ms {| tester := tester s; world := w |} = (Ret tt, s') /\ waited Alive s s' /\ ms <= now (world s') - t) as Hgo.
  { intros w Hws Hwl Hwn Hd. destruct (IH {| tester := tester s; world := w |}) as (s' & E & (Ha & Hs & Ht' & Hn') & Hend); cbn [world tester] in *; [lia|lia|].
    exists s'. split; [exact E|]. split; [|done]. split_and!; [|by rewrite Hs, Hwl, Hlog|done|lia].
    intros Hal. apply Ha. rewrite Hws, Hsc. by apply Hpump. }
  destruct (Z.ltb_spec 0 r) as [Hp|Hp].
  - apply (Hgo (pass (Z.min 5 r) (act (Slept (Z.min 5 r)) (pumped (world s))))); cbn in *; [done| |lia|lia].
    unfold sents. rewrite omap_app. cbn. by rewrite app_nil_r.
  - apply (Hgo (pumped (world s))); cbn in *; [done..|lia|lia].
Qed.
Lemma busyWaitMs_ends (Alive : Scene -> Prop) ms s :
  (forall sc, Alive sc -> Alive (pump sc).2) -> ms < 2 ^ 31 ->
  exists s', busyWaitMs ms s = (Ret tt, s') /\ waited Alive s s' /\ ms <= now (world s') - now (world s).
Proof.
  intros Hpump Hms. unfold busyWaitMs, mbind, M_bind, bind, gets. cbn [fst snd].
  destruct (Z.le_gt_cases 0 ms) as [H0|H0].
  - apply wait_loop_ends; [done|lia|lia|lia].
  - exists s. cbn [wait_loop]. unfold mbind, M_bind, bind, gets. cbn [fst snd].
    rewrite (proj2 (Z.ltb_ge _ _)) by lia. split; [done|]. split; [split_and!; done || lia|lia].
Qed.

Lemma bind_ext {A B} (m : M A) (k k' : A -> M B) s : (forall a s, k a s = k' a s) -> (m ≫= k) s = (m ≫= k') s.
Proof. intros Hk. unfold mbind, M_bind, bind. destruct (m s) as [[] ?]; auto. Qed.
(** What replaying reads of a record. *)
Definition reading (v : QVar) :=
  let o := toMap v in
  (toLongLong (field "t" o), toStr (field "type" o), (toDouble (field "x" o), toDouble (field "y" o)), toStr (field "btn" o),
   (toInt (field "key" o), toInt (field "mods" o), toInt (field "delta" o)), toStr (field "text" o), toStr (field "path" o)).
Lemma replay_reads win l l' speed : map reading l = map reading l' -> forall prevT held s,
  replay_loop win l speed prevT held s = replay_loop win l' speed prevT held s.
Proof.
  revert l'. induction l as [|v l IH]; intros [|v' l'] Hr prevT held s; try done.
  cbn [map] in Hr. injection Hr as Ht Hty Hx Hy Hb Hk Hm Hd Htx Hp Hl. cbn [replay_loop].
  unfold replay_one, replay_mouse. rewrite Ht, Hty, Hx, Hy, Hb, Hk, Hm, Hd, Htx, Hp.
  repeat (apply bind_ext; intros). by apply IH.
Qed.

Section replaying.
Variable win : Z.
Abbreviation Alive := (fun sc => alive sc win = true).
Hypothesis deliver_alive : forall e sc, alive sc win = true -> alive (deliver win e sc) win = true.
Hypothesis pump_alive : forall sc, alive sc win = true -> alive (pump sc).2 win = true.
Definition sends {A} (m : M A) (evs : list Event) (r : A) : Prop := forall s, alive (scene (world s)) win = true ->
  exists s', m s = (Ret r, s') /\ alive (scene (world s')) win = true /\
    sents (log (world s')) = sents (log (world s)) ++ map (pair win) evs.
Lemma sends_ret {A} (a : A) : sends (ret a) [] a.
Proof. intros s Hs. exists s. by rewrite app_nil_r. Qed.
Lemma sends_bind {A B} (m : M A) (k : A -> M B) l1 l2 a b : sends m l1 a -> sends (k a) l2 b -> sends (m ≫= k) (l1 ++ l2) b.
Proof.
  intros Hm Hk s Hs. destruct (Hm s Hs) as (s1 & E1 & A1 & L1). destruct (Hk s1 A1) as (s2 & E2 & A2 & L2).
  exists s2. unfold mbind, M_bind, bind. rewrite E1. split; [done|]. split; [done|]. by rewrite L2, L1, map_app, app_assoc.
Qed.
Lemma sends_process : sends processEvents [] tt.
Proof.
  intros s Hs. rewrite processEvents_eq. destruct (pumped_spec (world s)) as (_ & Hl & Hsc). eexists. split; [done|]. cbn [world].
  rewrite Hsc, Hl, app_nil_r. auto.
Qed.
Lemma sends_wait ms : ms < 2 ^ 31 -> sends (busyWaitMs ms) [] tt.
Proof.
  intros Hms s Hs. destruct (busyWaitMs_ends Alive ms s pump_alive Hms) as (s' & E & (Ha & Hl & _) & _).
  exists s'. rewrite Hl, app_nil_r. auto.
Qed.
Lemma sends_event e : sends (sendEvent win e) [unplaced e] tt.
Proof.
  intros s Hs. unfold sendEvent, mbind, M_bind, bind, gets. cbn [fst snd]. rewrite Hs. eexists. split; [done|]. cbn.
  split; [by apply deliver_alive|]. unfold sents. by rewrite omap_app.
Qed.
Lemma sends_scene {A} (k : Scene -> M A) l a : (forall sc, alive sc win = true -> sends (k sc) l a) -> sends (s ← gets scene; k s) l a.
Proof. intros Hk s Hs. by apply (Hk (scene (world s)) Hs). Qed.

Ltac found := repeat first [rewrite qm_find_insert_eq|rewrite qm_find_insert_ne by done]; cbn [from_option qm_find id];
  by rewrite ?toLongLong_ll, ?toStr_str, ?toDouble_double, ?toInt_int, ?toStr_none.
Lemma reading_rec t e : recorded e = true ->
  let o := rec_of t e in
  toLongLong (field "t" o) = t /\
  match e with
  | Mouse ty x y _ b _ _ => toStr (field "type" o) = match ty with Move => "mouseMove" | Press => "mousePress" | _ => "mouseRelease" end /\
      toDouble (field "x" o) = x /\ toDouble (field "y" o) = y /\ (is_move e = false -> toStr (field "btn" o) = btnToStr b)
  | Key p k m s => toStr (field "type" o) = (if p then "keyPress" else "keyRelease") /\
      toInt (field "key" o) = k /\ toInt (field "mods" o) = m /\ toStr (field "text" o) = s
  | Wheel x y _ d _ _ => toStr (field "type" o) = "wheel" /\ toDouble (field "x" o) = x /\ toDouble (field "y" o) = y /\ toInt (field "delta" o) = d
  | OtherEvent => True
  end.
Proof.
  intros Hr o. subst o. unfold rec_of, field, qm_get.
  destruct e as [ty x y gp b bs m|p k m s|x y gp d bs m|]; try done.
  - destruct ty; try done; cbn [is_move]; split_and!; try (intros ?); try done; found.
  - destruct (bool_decide_reflect (s = "")) as [->|Hs]; split_and!; found.
  - split_and!; found.
Qed.
Lemma replay_one_sends t e held : recorded e = true ->
  sends (replay_one win (toStr (field "type" (rec_of t e))) (rec_of t e) held) [(replayed e held).1] (replayed e held).2.
Proof.
  intros Hr. destruct (reading_rec t e Hr) as [_ H]. destruct e as [ty x y gp b bs m|p k m s|x y gp d bs m|]; [| | |done].
  - destruct H as (Hty & Hx & Hy & Hb). rewrite Hty. unfold replay_one. replace (mouse_types _) with true by (by destruct ty).
    unfold replay_mouse. rewrite Hx, Hy. apply sends_scene. intros sc Hsc. rewrite Hsc. cbn [negb].
    destruct ty; try done; try (rewrite Hb by done); cbn; apply (sends_bind _ _ [_] [] tt); (apply sends_event || apply sends_ret).
  - destruct H as (Hty & Hk & Hm & Ht). rewrite Hty. unfold replay_one. rewrite Hk, Hm, Ht. destruct p; cbn; apply (sends_bind _ _ [_] [] tt); (apply sends_event || apply sends_ret).
  - destruct H as (Hty & Hx & Hy & Hd). rewrite Hty. unfold replay_one. rewrite Hx, Hy, Hd. cbn. apply sends_scene. intros sc Hsc. rewrite Hsc. cbn [negb].
    apply (sends_bind _ _ [_] [] tt); (apply sends_event || apply sends_ret).
Qed.
Lemma compress_recorded l : Forall (fun x => match x with EInput e _ => recorded e = true | ENote _ _ => True end) (compress l).
Proof.
  induction l as [|[w e t| |d t] l IH]; cbn [compress]; [done| |done|by constructor].
  case_match eqn:E; [|done]. constructor; [|done]. by destruct w, (recorded e).
Qed.
Lemma replay_sends t0 speed l : Forall (fun x => match x with EInput e _ => recorded e = true | ENote _ _ => True end) l ->
  forall prevT held, sends (replay_loop win (map (record_of t0) l) speed prevT held) (replays l held) tt.
Proof.
  induction 1 as [|x l Hx _ IH]; intros prevT held; [apply sends_ret|]. cbn [map replay_loop].
  assert (forall d, sends (if 0 <? d then busyWaitMs (over_speed d speed) else ret tt) [] tt) as Hwait.
  { intros d. destruct (0 <? d); [apply sends_wait, over_speed_int|apply sends_ret]. }
  apply (sends_bind _ _ [] _ tt); [apply Hwait|]. destruct x as [e t|d t]; cbn [record_of replays]; rewrite toMap_map.
  - apply (sends_bind _ _ [_] _ (replayed e held).2); [by apply replay_one_sends|].
    apply (sends_bind _ _ [] _ tt); [apply sends_process|apply IH].
  - apply (sends_bind _ _ [] _ held); [|apply (sends_bind _ _ [] _ tt); [apply sends_process|apply IH]].
    replace (field "type" _) with (VString "note") by reflexivity. rewrite toStr_str. apply sends_ret.
Qed.
End replaying.

(** ** Every call but a replay and a screenshot is defined *)
Lemma safe_seq P (m n : M unit) : safe P m (fun _ _ => True) -> safe anyhow n (fun _ _ => True) -> safe P (m ;; n) (fun _ _ => True).
Proof. intros Hm Hn. by apply (safe_bind _ (fun _ => anyhow)). Qed.
Lemma safe_then {A B} P (m : M A) (k : A -> M B) :
  safe P m (fun _ _ => True) -> (forall a, safe anyhow (k a) (fun _ _ => True)) -> safe P (m ≫= k) (fun _ _ => True).
Proof. intros Hm Hk. by apply (safe_bind _ (fun _ => anyhow)). Qed.
Lemma safe_void P m : safe P m (fun _ _ => True) -> safe P (void m) (fun _ _ => True).
Proof. intros Hm. apply safe_then; [done|]. intros. by intros s. Qed.
Lemma safe_mouseClick x y btn : safe anyhow (mouseClick x y btn) (fun _ _ => True).
Proof.
  apply safe_on_window. intros win gp. apply safe_seq; [apply safe_mouse_at|].
  apply safe_while_alive, safe_mouse_at.
Qed.
Lemma safe_mouseDblClick x y btn : safe anyhow (mouseDblClick x y btn) (fun _ _ => True).
Proof.
  apply safe_on_window. intros win gp.
  repeat (apply safe_seq; [apply safe_mouse_at|]; apply safe_while_alive). apply safe_mouse_at.
Qed.
Lemma safe_send_key p key mods text : safe anyhow (send_key p key mods text) (fun _ _ => True).
Proof. apply (safe_bind _ (fun win => open win)); [apply safe_checkWindow|]. intros win. apply safe_send. Qed.
Lemma safe_clickKey key mods text : safe anyhow (clickKey key mods text) (fun _ _ => True).
Proof. apply safe_seq; [apply safe_send_key|]. apply safe_seq; [apply safe_send_key|apply safe_modify]. Qed.
Lemma safe_wait ms : ms < 2 ^ 31 -> safe anyhow (busyWaitMs ms) (fun _ _ => True).
Proof. intros Hms s _. destruct (busyWaitMs_ends (fun _ => True) ms s ltac:(done) Hms) as (s' & E & _). by rewrite E. Qed.
Lemma safe_typeText text : safe anyhow (typeText text) (fun _ _ => True).
Proof.
  induction text as [|ch text IH]; [done|]. apply safe_seq; [apply safe_clickKey|].
  apply safe_seq; [by apply safe_wait|done].
Qed.
Lemma safe_findItem name : safe anyhow (findItem name) (fun _ _ => True).
Proof.
  intros s _. unfold findItem, mbind, M_bind, bind, gets, get_tester, put_tester. cbn [fst snd]. repeat case_match; try done; simplify_eq; done.
Qed.
Lemma safe_found_or name msg : safe anyhow (found_or name msg) (fun _ _ => True).
Proof. apply safe_then; [apply safe_findItem|]. by intros [i|]. Qed.
Lemma safe_with_item {A} (k : Z -> M A) : (forall i, safe anyhow (k i) (fun _ _ => True)) -> safe anyhow (with_item k) (fun _ _ => True).
Proof.
  intros Hk s _. unfold with_item, mbind, M_bind, bind, gets, get_tester. cbn [fst snd].
  destruct (curItem (tester s)) as [i|]; [|done]. destruct (item_at _ i); [|done]. by apply Hk.
Qed.
Lemma safe_itemCenter : safe anyhow itemCenter (fun _ _ => True).
Proof. apply safe_with_item. intros. apply safe_gets. Qed.
Lemma safe_clickItem : safe anyhow clickItem (fun _ _ => True).
Proof. apply safe_then; [apply safe_itemCenter|]. intros c. apply safe_mouseClick. Qed.
Lemma safe_with_key k a : (forall key m, safe anyhow (k key m) (fun _ _ => True)) -> safe anyhow (with_key k a) (fun _ _ => True).
Proof. intros Hk. apply safe_then; [apply safe_lift|]. intros key. apply safe_void, Hk. Qed.
Lemma safe_choose win : safe anyhow (choose win) (fun _ _ => True). Proof. done. Qed.
Lemma safe_set_window arg : safe anyhow (set_window arg) (fun _ _ => True).
Proof.
  assert (forall i, safe anyhow (setWindowIndex i) (fun _ _ => True)) as Hi.
  { intros i. apply safe_then; [apply safe_gets|]. intros wins. by destruct (if 0 <=? i then _ else _). }
  assert (forall p, safe anyhow (setWindowTitle p) (fun _ _ => True)) as Ht.
  { intros q. apply safe_then; [apply safe_gets|]. intros w. by destruct (List.find _ _). }
  unfold set_window. destruct arg; auto.
Qed.
Lemma safe_recording : safe anyhow startRecording (fun _ _ => True) /\ safe anyhow stopRecording (fun _ _ => True).
Proof.
  split; intros s _; unfold startRecording, stopRecording, mbind, M_bind, bind, gets, get_tester; cbn [fst snd];
    destruct (recordFilter (tester s)); try done. by destruct (is_active _ _).
Qed.
Definition window_kept (c : Call) : Prop := match c with C_replay _ _ | C_replay_data _ _ | C_screenshot _ => False | C_wait ms => ms < 2 ^ 31 | _ => True end.
Lemma safe_call c : window_kept c -> safe anyhow (call c) (fun _ _ => True).
Proof.
  intros Hc. destruct c; cbn [call] in *; try done.
  - by apply safe_void, safe_wait.
  - apply safe_void, safe_set_window.
  - apply safe_then; [apply safe_findItem|by intros i s].
  - destruct sub; [apply safe_then; [apply safe_found_or|intros _]|]; apply safe_with_item; intros; apply safe_gets.
  - destruct b; apply safe_void; [apply safe_seq; [apply safe_found_or|]|]; apply safe_with_item; intros; apply safe_modify.
  - apply safe_then; [|by intros i s]. destruct name; [apply safe_then; [apply safe_found_or|intros _]|]; apply safe_itemCenter.
  - apply safe_void, safe_mouseClick.
  - apply safe_void, safe_mouseDblClick.
  - apply safe_void, safe_on_window. intros. apply safe_mouse_at.
  - apply safe_void, safe_on_window. intros. apply safe_mouse_at.
  - apply safe_void, safe_on_window. intros. apply safe_send.
  - apply safe_void, safe_on_window. intros. apply (safe_bind _ (fun _ => anyhow)); [apply safe_send|intros; apply safe_modify].
  - apply safe_void. destruct name; [apply safe_seq; [apply safe_found_or|]|]; apply safe_clickItem.
  - apply safe_with_key. intros. apply safe_clickKey.
  - apply safe_with_key. intros. apply safe_send_key.
  - apply safe_with_key. intros. apply safe_send_key.
  - apply safe_void, safe_typeText.
  - apply safe_void, safe_recording.
  - apply safe_then; [apply safe_recording|by intros l s].
Qed.

(** ** Searching *)
Section items.
Variable P : Item -> Prop.
Hypothesis Hnode : forall id n l, Forall P l -> P (MkItem id n l).
Fixpoint Item_tree_ind (i : Item) : P i :=
  match i with
  | MkItem id n l => Hnode id n l ((fix go l : Forall P l :=
      match l with [] => @List.Forall_nil _ P | x :: l => @List.Forall_cons _ P x l (Item_tree_ind x) (go l) end) l)
  end.
End items.
(** The items of a name, in the order of the tree. *)
Fixpoint named (name : string) (i : Item) : list Item :=
  let 'MkItem _ n l := i in (if bool_decide (n = name) then [i] else []) ++ flat_map (named name) l.
Lemma fold_appends {A} (f : list Item -> A -> list Item) (g : A -> list Item) l : (forall out x, x ∈ l -> f out x = out ++ g x) ->
  forall out, fold_left f l out = out ++ flat_map g l.
Proof.
  intros Hf. induction l as [|x l IH]; intros out; cbn; [by rewrite app_nil_r|].
  rewrite Hf by left. rewrite IH by (intros; apply Hf; by right). by rewrite app_assoc.
Qed.
Lemma findAllRecursive_named name i : forall out, findAllRecursive name out i = out ++ named name i.
Proof.
  induction i as [id n l IH] using Item_tree_ind; intros out. cbn [findAllRecursive named].
  rewrite (fold_appends _ (named name)) by (intros o x Hx; rewrite Forall_forall in IH; by apply IH).
  case_bool_decide; by rewrite <- ?app_assoc.
Qed.
Lemma findRecursive_named name i : findRecursive name i = head (named name i).
Proof.
  induction i as [id n l IH] using Item_tree_ind. cbn [findRecursive named]. case_bool_decide; [done|]. cbn [app].
  induction IH as [|x l Hx _ IH]; [done|]. cbn [flat_map]. rewrite Hx. destruct (named name x); cbn; [exact IH|done].
Qed.
Definition window_items (name : string) (s : Scene) (win : Z) : list Item := match contentItem s win with Some r => named name r | None => [] end.
Lemma findItems_named name w : findItems name w =
  flat_map (window_items name (scene w)) (topLevelWindows (scene w)) ++ flat_map (named name) (live_roots w).
Proof.
  unfold findItems. rewrite (fold_appends _ (named name)) by (intros; apply findAllRecursive_named). f_equal.
  rewrite (fold_appends _ (window_items name (scene w))); [done|]. intros out win _. unfold window_items.
  destruct (contentItem _ win); [apply findAllRecursive_named|by rewrite app_nil_r].
Qed.
Lemma find_window_named name s wins : match find_window name s wins with
  | Some (win, i) => head (flat_map (window_items name s) wins) = Some i /\ win ∈ wins /\ i ∈ window_items name s win
  | None => flat_map (window_items name s) wins = []
  end.
Proof.
  induction wins as [|win wins IH]; [done|]. cbn [find_window flat_map]. unfold window_items at 1 4.
  destruct (contentItem s win) as [r|] eqn:E; cbn [in_tree].
  - rewrite findRecursive_named. destruct (named name r) as [|i l] eqn:En; cbn [head app].
    + destruct (find_window name s wins) as [[w i]|]; [|done]. destruct IH as (? & ? & ?). split_and!; [done|by right|done].
    + split_and!; [done|left|]. unfold window_items. rewrite E, En. left.
  - cbn [app]. destruct (find_window name s wins) as [[w i]|]; [|done]. destruct IH as (? & ? & ?). split_and!; [done|by right|done].
Qed.
Lemma find_root_named name roots : find_root name roots = head (flat_map (named name) roots).
Proof.
  induction roots as [|r roots IH]; [done|]. cbn [find_root flat_map]. rewrite findRecursive_named.
  destruct (named name r); cbn; [done|done].
Qed.

(** ** A recording in the world *)
Definition world_ok (w : World) : Prop := NoDup (installed w) /\ Forall (fun i => (i < length (filters w))%nat) (installed w) /\
  (forall i, guiRecordFilter w = Some i -> (i < length (filters w))%nat).
(** What recorder [i] sees of the happenings from the time [t] on. *)
Fixpoint seen_of (i : nat) (t : Z) (hs : list (Z * Happening)) : list Seen :=
  match hs with
  | [] => []
  | (d, Input b e) :: hs => SInput b e (t + d) :: seen_of i (t + d) hs
  | (d, FlushTick j) :: hs => (if bool_decide (j = i) then [STick] else []) ++ seen_of i (t + d) hs
  end.
Lemma alter_none {A} (g : A -> A) (l : list nat) i : i ∉ l -> forall fs : list A, fold_left (fun fs i => alter g i fs) l fs !! i = fs !! i.
Proof.
  induction l as [|x l IH]; intros Hi fs; [done|]. cbn [fold_left]. apply not_elem_of_cons in Hi as [Hx Hi].
  rewrite IH by done. by apply list_lookup_alter_ne.
Qed.
Lemma alter_all {A} (g : A -> A) (l : list nat) i : NoDup l -> i ∈ l -> forall fs : list A, fold_left (fun fs i => alter g i fs) l fs !! i = g <$> fs !! i.
Proof.
  induction 1 as [|x l Hx Hl IH]; intros Hi fs; [by apply not_elem_of_nil in Hi|]. cbn [fold_left].
  destruct (decide (x = i)) as [->|Hne]; [rewrite alter_none by done; apply list_lookup_alter_eq|].
  apply elem_of_cons in Hi as [->|Hi]; [done|]. rewrite IH by done. by rewrite list_lookup_alter_ne.
Qed.
Lemma happen_seen hs i : forall w f, NoDup (installed w) -> i ∈ installed w -> filters w !! i = Some f ->
  let w' := fold_left (fun w h => happen h w) hs w in
  filters w' !! i = Some (fold_left observe (seen_of i (now w) hs) f) /\ installed w' = installed w /\ guiRecordFilter w' = guiRecordFilter w.
Proof.
  induction hs as [|[d h] hs IH]; intros w f Hd Hi Hf; cbn [fold_left]; [done|].
  destruct h as [b e|j]; cbn [seen_of].
  - destruct (IH (happen (d, Input b e) w) (eventFilter b e (now w + d) f)) as (-> & -> & ->); [done..| |done].
    unfold happen, filter_event. cbn. rewrite alter_all by done. by rewrite Hf.
  - rewrite fold_left_app. destruct (IH (happen (d, FlushTick j) w) (fold_left observe (if bool_decide (j = i) then [STick] else []) f)) as (-> & -> & ->); [done..| |done].
    unfold happen. cbn. case_bool_decide as Hj; cbn.
    + subst j. by rewrite list_lookup_alter_eq, Hf.
    + by rewrite list_lookup_alter_ne.
Qed.
Definition fresh (t : Z) : RecordFilter := {| events := []; timer := t; active := true; pendingMove := None |}.
Lemma start_spec i w : (i < length (filters w))%nat -> NoDup (installed w) ->
  filters (start i w) !! i = Some (fresh (now w)) /\ NoDup (installed (start i w)) /\ i ∈ installed (start i w) /\
  guiRecordFilter (start i w) = Some i /\ now (start i w) = now w.
Proof.
  intros Hi Hd. unfold start. cbn. destruct (lookup_lt_is_Some_2 (filters w) i Hi) as [f Hf].
  rewrite list_lookup_alter_eq, Hf. split_and!; [done| |left|done|done].
  constructor; [|by apply NoDup_filter]. rewrite list_elem_of_filter. by intros [? ?].
Qed.
Lemma StartRecording_spec w : world_ok w -> exists i, filters (StartRecording w) !! i = Some (fresh (now w)) /\
  NoDup (installed (StartRecording w)) /\ i ∈ installed (StartRecording w) /\ guiRecordFilter (StartRecording w) = Some i /\
  now (StartRecording w) = now w.
Proof.
  intros (Hd & Hl & Hg). unfold StartRecording. destruct (guiRecordFilter w) as [i|] eqn:E.
  - exists i. apply start_spec; [by apply Hg|done].
  - cbn [new_filter]. exists (length (filters w)). apply (start_spec _ (new_filter w).2); [|done]. cbn. rewrite length_app. cbn. lia.
Qed.
Lemma observed_active l f : active (fold_left observe l f) = active f.
Proof.
  revert f. induction l as [|o l IH]; intros f; cbn [fold_left]; [done|]. rewrite IH. destruct (flushed f) as (Fa & _).
  destruct o as [b e t| |d t]; cbn [observe]; [|done|done]. unfold eventFilter. repeat case_match; try done.
Qed.
Lemma recorded_list w hs : world_ok w -> exists i,
  (StopRecording (fold_left (fun w h => happen h w) hs (StartRecording w))).1 = map (record_of (now w)) (compress (seen_of i (now w) hs)).
Proof.
  intros Hw. destruct (StartRecording_spec w Hw) as (i & Hf & Hd & Hi & Hg & Hn). exists i.
  destruct (happen_seen hs i (StartRecording w) _ Hd Hi Hf) as (Hf' & _ & Hg'). unfold StopRecording.
  rewrite Hg', Hg. unfold is_active. rewrite Hf', observed_active. cbn [active fresh]. unfold stop.
  rewrite list_lookup_alter_eq, Hf'. cbn [fst]. rewrite Hn. change (_ <$> Some ?f) with (Some (stopped f)). cbn match.
  by rewrite recording_from.
Qed.
End runs.

(** A scene of one window that the release of a button may close. *)
Definition sample_happenings : list (Z * Happening) :=
  [(5, Input true (Mouse Move 1 2 (0, 0) 0 0 0)); (3, Input true (Mouse Move 3 4 (0, 0) 0 0 0));
   (2, Input true (Mouse Press 3 4 (0, 0) RightButton RightButton ShiftModifier)); (0, Input false OtherEvent);
   (100, Input true (Mouse Move 9 9 (0, 0) 0 RightButton 0)); (1, FlushTick 0); (1, Input true (Key true 65 0 "a"))].
Definition sample_records : list QVar := map (record_of 0)
  [EInput (Mouse Move 3 4 (0, 0) 0 0 0) 8; EInput (Mouse Press 3 4 (0, 0) RightButton RightButton ShiftModifier) 10;
   EInput (Mouse Move 9 9 (0, 0) 0 RightButton 0) 110; EInput (Key true 65 0 "a") 112].
Definition sample_gui (closing : bool) : GuiOps := {|
  Scene := bool;
  topLevelWindows s := if s then [1] else [];
  alive s w := (s && (w =? 1))%bool;
  contentItem _ _ := Some (MkItem 1 "root" [MkItem 2 "panel" [MkItem 3 "ok" []]; MkItem 4 "ok" []]);
  title _ _ := "Main";
  item_at _ i := Some (MkItem i "ok" []);
  property _ _ _ := VInvalid;
  setProperty s _ _ _ := s;
  item_center _ _ := (0, 0);
  mapToGlobal _ _ p := p;
  deliver _ e s := match e with Mouse Release _ _ _ _ _ _ | Key false _ _ _ => (s && negb closing)%bool | _ => s end;
  pump s := ([], 1, s);
  grab _ _ := true;
  toLower s := s;
  containsCI a b := bool_decide (a = b);
  qRound x := x;
  int_of x := x;
  over_speed d _ := Z.max 0 (Z.min d 1000);
  toStr v := match v with VString s => s | _ => "" end;
  toInt v := match v with VInt z => z | _ => 0 end;
  toLongLong v := match v with VLongLong z => z | _ => 0 end;
  toDouble v := match v with VDouble b => b | _ => 0 end;
  toMap v := match v with VMap m => m | _ => [] end;
  unit_text c := char_name c;
  fromJson j := if bool_decide (j = "recording") then Some (VList sample_records)
                else if bool_decide (j = "two keys") then Some (VList (map (record_of 0) [EInput (Key false 65 0 "") 0; EInput (Key true 65 0 "") 0])) else None;
  readFile s := Some s
|}.
#[export] Instance sample_gui_laws closing : GuiLaws (sample_gui closing).
Proof.
  split; try done.
  - intros d v. cbn. lia.
  - intros [] w; cbn; [|by intros ?%not_elem_of_nil]. by intros ->%list_elem_of_singleton.
Qed.
Definition sample_world (closing : bool) : World (GO := sample_gui closing) :=
  {| scene := (true : @Scene (sample_gui closing)); now := 0; filters := []; installed := []; guiRecordFilter := None; guiItems := []; log := [] |}.
Definition sample_state (closing : bool) : St (GO := sample_gui closing) :=
  {| tester := QML_Tester_new (sample_world closing); world := sample_world closing |}.

(** * Properties *)

(** C37: What is recorded is what is replayed. A recording of any sequence of input
    events, to windows and to other objects, and of ticks of the recorders keeps the
    presses, releases, moves, keys and wheel turns sent to windows, in their order - of
    moves that follow one another without a tick between them only the last, and no
    double click ([recorded] drops it) -, and replaying its text on a window that stays
    open sends what was kept, in that order, at the recorded positions in the window,
    with the buttons that are held recomputed - a button other than right and middle is
    replayed as the left one -, without the modifiers of the mouse and without the
    buttons and modifiers of the wheel. *)
Theorem recording_replays (GO : GuiOps) (GL : GuiLaws GO) (win speed : Z) (w : World) (hs : list (Z * Happening)) (json what : string) (evs : list QVar) (s : St) :
  (forall e sc, alive sc win = true -> alive (deliver win e sc) win = true) ->
  (forall sc, alive sc win = true -> alive (pump sc).2 win = true) ->
  world_ok w ->
  let recording := (StopRecording (fold_left (fun w h => happen h w) hs (StartRecording w))).1 in
  fromJson json = Some (VList evs) -> map reading evs = map reading recording ->
  current_window (tester s) (scene (world s)) = Some win ->
  exists i s', replayJson json what speed s = (Ret tt, s') /\
    recording = map (record_of (now w)) (compress (seen_of i (now w) hs)) /\
    sents (log (world s')) = sents (log (world s)) ++ map (pair win) (replays (compress (seen_of i (now w) hs)) 0).
Proof.
  intros Hd Hp Hw recording Hj Hr Hc. destruct (recorded_list w hs Hw) as [i Hi]. fold recording in Hi. exists i.
  unfold replayJson, mbind, M_bind, bind, checkWindow, mbind, M_bind, bind, gets, get_tester. cbn [fst snd id]. rewrite Hc.
  cbn [ret]. unfold parseEventsArray. rewrite Hj. cbn [lift ret]. unfold replayEventsOn.
  rewrite (replay_reads _ _ recording) by done. rewrite Hi.
  destruct (replay_sends win Hd Hp (now w) speed _ (compress_recorded (seen_of i (now w) hs)) 0 0 s) as (s' & E & _ & L).
  { unfold current_window in Hc. destruct (curWindow (tester s)) as [c|]; [|done]. destruct (alive _ c) eqn:Ea; [|done]. by injection Hc as ->. }
  exists s'. split_and!; [exact E|done|exact L].
Qed.
Lemma recording_replays_witness : exists i s',
  replayJson (GO := sample_gui false) "recording" "" 1 (sample_state false) = (Ret tt, s') /\
  sample_records = map (record_of 0) (compress (seen_of i 0 sample_happenings)) /\
  sents (log (world s')) = map (pair 1) (replays (compress (seen_of i 0 sample_happenings)) 0).
Proof.
  apply (recording_replays (sample_gui false) _ 1 1 (sample_world false) sample_happenings "recording" "" sample_records (sample_state false)); try done.
  - intros e sc. cbn. destruct e as [[] | [] | |], sc; done.
  - split; [constructor|]. split; [constructor|done].
Defined.

(** No method but the replays and the screenshot uses a window that an event or the
    event loop has closed - a click that closes the window sends no release to it -
    and every one returns or throws, the waits included. *)
Theorem calls_defined (GO : GuiOps) (GL : GuiLaws GO) (c : Call) (s : St) : window_kept c ->
  match (call c s).1 with Ret _ | Throw _ => True | _ => False end.
Proof. intros Hc. pose proof (safe_call c Hc s I) as H. by destruct (call c s) as [[]]. Qed.
Lemma calls_defined_witness : match (call (GO := sample_gui true) (C_dblclick 1 2 None) (sample_state true)).1 with Ret _ | Throw _ => True | _ => False end.
Proof. by apply (calls_defined (sample_gui true) _). Defined.
(** A replay goes on with the window after an event that closed it. *)
Theorem replay_of_closed_window : exists (GO : GuiOps) (GL : GuiLaws GO) (s : St),
  (call (C_replay_data "two keys" 1) s).1 = Undef /\ (call (C_key_click [VString "a"]) s).1 <> Undef.
Proof. exists (sample_gui true), _, (sample_state true). split; [by vm_compute|]. by vm_compute. Qed.

(** Waiting lasts at least as long as it is asked to and ends. *)
Theorem waits_end (GO : GuiOps) (GL : GuiLaws GO) (ms : Z) (s : St) : ms < 2 ^ 31 ->
  exists s', busyWaitMs ms s = (Ret tt, s') /\ ms <= now (world s') - now (world s) /\ sents (log (world s')) = sents (log (world s)).
Proof. intros Hms. destruct (busyWaitMs_ends (fun _ => True) ms s ltac:(done) Hms) as (s' & E & (_ & L & _) & Hn). eauto. Qed.
Lemma waits_end_witness : exists s', busyWaitMs 17 (sample_state false) = (Ret tt, s') /\ 17 <= now (world s') - 0 /\ sents (log (world s')) = [].
Proof. by apply (waits_end (sample_gui false) _). Defined.

(** [find] returns the first of the items [find_all] lists, windows before other
    roots; the window it makes current is one of those on the screen. *)
Theorem find_is_first (GO : GuiOps) (GL : GuiLaws GO) (name : string) (s : St) :
  exists s', findItem name s = (Ret (head (findItems name (world s))), s') /\ world s' = world s /\
    curItem (tester s') = match head (findItems name (world s)) with Some i => Some (item_id i) | None => curItem (tester s) end /\
    (curWindow (tester s') = curWindow (tester s) \/ exists win, curWindow (tester s') = Some win /\ win ∈ topLevelWindows (scene (world s))).
Proof.
  unfold findItem, mbind, M_bind, bind, gets, get_tester, put_tester. cbn [fst snd id]. rewrite findItems_named, find_root_named.
  pose proof (find_window_named name (scene (world s)) (topLevelWindows (scene (world s)))) as H.
  destruct (find_window _ _ _) as [[win i]|].
  - destruct H as (Hh & Hw & _). eexists. cbn. destruct (flat_map _ _) as [|j l]; [done|]. injection Hh as ->. cbn. eauto 10.
  - rewrite H. cbn [app]. destruct (head (flat_map _ _)); eexists; cbn; eauto 10.
Qed.

(** A recording started from the command line is lost when a script makes one of its
    own: that of the script takes its place, and ending it leaves none. *)
Theorem recording_lost (GO : GuiOps) (GL : GuiLaws GO) (t : Tester) (w : World) (hs : list (Z * Happening)) : world_ok w -> recordFilter t = None ->
  let s1 := {| tester := t; world := StartRecording w |} in
  let s2 := (startRecording s1).2 in
  let s3 := (stopRecording {| tester := tester s2; world := fold_left (fun w h => happen h w) hs (world s2) |}).2 in
  (StopRecording (world s3)).1 = [] /\ exists i, i ∈ installed (world s3) /\ is_active i (world s3) = true.
Proof.
  intros Hw Ht. destruct (StartRecording_spec w Hw) as (i & Hf & Hd & Hi & Hg & Hn). set (w1 := StartRecording w) in *.
  unfold startRecording, mbind, M_bind, bind, gets, get_tester, modify, put_tester. cbn [fst snd tester world]. rewrite Ht. cbn [fst snd tester world].
  set (w2 := (new_filter w1).2). set (j := (new_filter w1).1). set (w3 := start j w2).
  assert (i < length (filters w1))%nat as Hlt by (by eapply lookup_lt_Some).
  assert (filters w2 !! i = Some (fresh (now w))) as Hf2 by (cbn; by rewrite lookup_app_l).
  destruct (start_spec j w2) as (Hj & Hd3 & Hj3 & Hg3 & _); [cbn; rewrite length_app; cbn; lia|done|].
  fold w3 in Hj, Hd3, Hj3, Hg3.
  assert (filters w3 !! i = Some (fresh (now w)) /\ i ∈ installed w3) as [Hf3 Hi3].
  { split; [unfold w3, start; cbn; rewrite list_lookup_alter_ne by (unfold j; cbn; lia); exact Hf2|].
    unfold w3, start. cbn [install installed]. right. apply list_elem_of_filter. split; [unfold j; cbn; lia|done]. }
  destruct (happen_seen hs i w3 _ Hd3 Hi3 Hf3) as (Hfi & Hin & _). destruct (happen_seen hs j w3 _ Hd3 Hj3 Hj) as (Hfj & _ & _).
  set (w4 := fold_left _ hs w3) in *. unfold stopRecording, mbind, M_bind, bind, gets, get_tester, modify. cbn [fst snd tester world recordFilter id].
  assert (is_active j w4 = true) as -> by (unfold is_active; by rewrite Hfj, observed_active).
  cbn [ret snd world stop]. split; [done|].
  exists i. split; [cbn [install installed stop snd]; rewrite list_elem_of_filter, Hin; split; [unfold j; cbn; lia|done]|].
  unfold is_active. cbn [install filters set_filters]. rewrite list_lookup_alter_ne by (unfold j; cbn; lia). by rewrite Hfi, observed_active.
Qed.
Lemma recording_lost_witness :
  let s1 := {| tester := QML_Tester_new (sample_world false); world := StartRecording (sample_world false) |} in
  let s2 := (startRecording s1).2 in
  let s3 := (stopRecording {| tester := tester s2; world := fold_left (fun w h => happen h w) sample_happenings (world s2) |}).2 in
  (StopRecording (world s3)).1 = [] /\ exists i, i ∈ installed (world s3) /\ is_active i (world s3) = true.
Proof. apply (recording_lost (sample_gui false) _); [split; [constructor|]; split; [constructor|done]|done]. Defined.
(** Typing sends other keys than [key_click]: the code of a small letter, not the
    key that bears it. *)
Theorem typed_letters : map (fun c => (typed_key (GO := sample_gui false) c).1) [97; 122; 10] = [97; 122; Key_Return] /\
  map (parseKey (GO := sample_gui false)) [VString "a"; VString "z"; VString "return"; VString "f35"] = [Ok 65; Ok 90; Ok Key_Return; Ok (Key_F1 + 34)].
Proof. by vm_compute. Qed.
