(* ===== verification/GuiModel.v ===== *)
(** * QML workers: [src/src/workers/gui/gui.cpp]

    The data model a QML view binds to - a tree of property maps mirroring messages -,
    the proxies through which it sees tags, and the worker around them.  The model
    is a heap of nodes, as in the source: a property holds a value or a pointer to the
    node below ([VOpaque] of class ["QObject*"]), and a node that is overwritten stays
    with whoever holds it.  [QQmlPropertyMap] is its documented behaviour: [insert]
    stores without a call of [updateValue], a write from QML stores what
    [updateValue] returns.  Loading and creating components is Qt's. *)
From S2P Require Import Prelude QVariant Utils Worker Config Tags.
Set Warnings "-register-all,-clear-no-such-hyp".

(** ** The model *)
Record GuiModel := { up : option nat; key : string; props : list (string * QVar) }.
Inductive GuiAct := ModelChange (payload : QVar) | Received (node : nat) (msg : QVar).
Record Gui := { nodes : list GuiModel; acts : list GuiAct }.
Definition node_ptr (n : nat) : QVar := VOpaque "QObject*" (Z.of_nat n).
(** [qobject_cast<GuiModel*>] of a value. *)
Definition as_node (g : Gui) (v : QVar) : option nat :=
  match v with
  | VOpaque "QObject*" z => if bool_decide (0 <= z < Z.of_nat (length (nodes g))) then Some (Z.to_nat z) else None
  | _ => None
  end.
Definition gui_act (a : GuiAct) (g : Gui) : Gui := {| nodes := nodes g; acts := acts g ++ [a] |}.
Definition insert_prop (n : nat) (k : string) (v : QVar) (g : Gui) : Gui :=
  {| nodes := alter (fun x => {| up := up x; key := key x; props := qm_insert k v (props x) |}) n (nodes g); acts := acts g |}.
Definition node_props (n : nat) (g : Gui) : list (string * QVar) := match nodes g !! n with Some x => props x | None => [] end.
Definition GuiModel_new (parent : option nat) (k : string) (g : Gui) : nat * Gui :=
  (length (nodes g), {| nodes := nodes g ++ [{| up := parent; key := k; props := [] |}]; acts := acts g |}).
Definition branch (n : nat) (k : string) (g : Gui) : nat * Gui :=
  match as_node g (qm_get VInvalid k (node_props n g)) with
  | Some existing => (existing, g)
  | None => let '(child, g) := GuiModel_new (Some n) k g in (child, insert_prop n k (node_ptr child) g)
  end.
Definition ensure (n : nat) (k : string) (g : Gui) : Gui :=
  match qm_find k (node_props n g) with Some _ => g | None => insert_prop n k VInvalid g end.
(** [wrapPath]: one turn for every node above. *)
Fixpoint wrap_loop (fuel : nat) (ns : list GuiModel) (n : nat) (payload : QVar) : option QVar :=
  match fuel with
  | O => None
  | S fuel =>
      match ns !! n with
      | Some x => match up x with
                  | Some p => wrap_loop fuel ns p (VMap (qm_insert (key x) payload []))
                  | None => Some payload
                  end
      | None => None
      end
  end.
Definition wrapPath (n : nat) (payload : QVar) (g : Gui) : option QVar := wrap_loop (S n) (nodes g) n payload.
Definition emitModelChange (payload : option QVar) (g : Gui) : Gui :=
  match payload with Some p => gui_act (ModelChange p) g | None => g end.
Definition updateValue (n : nat) (k : string) (input : QVar) (g : Gui) : QVar * Gui :=
  (input, emitModelChange (wrapPath n (VMap (qm_insert k input [])) g) g).
(** A write from QML: the map stores what [updateValue] returns. *)
Definition qml_write (n : nat) (k : string) (input : QVar) (g : Gui) : Gui :=
  let '(v, g) := updateValue n k input g in insert_prop n k v g.
(** What QML passes: a variant, or a value of its own engine.  A variant of another
    user type is read as a value of the engine that it is not. *)
Inductive QmlVar := QPlain (v : QVar) | QJSValue (toVariant : QVar).
Definition unwrapQmlVar (v : QmlVar) : QVar :=
  match v with
  | QPlain (VOpaque ty z) => if bool_decide (ty = "QObject*" \/ ty = "QUuid") then VOpaque ty z else VInvalid
  | QPlain v | QJSValue v => v
  end.
Definition send (n : nat) (m : QmlVar) (g : Gui) : Gui := emitModelChange (wrapPath n (unwrapQmlVar m) g) g.
Fixpoint applyIncoming (m : QVar) (n : nat) (g : Gui) : Gui :=
  let g := match m with
           | VMap entries =>
               (fix loop entries g :=
                  match entries with
                  | [] => g
                  | (k, v) :: entries =>
                      loop entries (match v with
                                    | VMap _ => let '(child, g) := branch n k g in applyIncoming v child g
                                    | _ => insert_prop n k v g
                                    end)
                  end) entries g
           | _ => g
           end in
  gui_act (Received n m) g.
(** The root that a worker makes. *)
Definition gui_init : Gui := {| nodes := [{| up := None; key := ""; props := [] |}]; acts := [] |}.

(** ** Engines: one for every instance, while a worker holds it *)
Record Engines := { table : list (nat * nat); next_engine : nat; quit_to : list (nat * nat) }.
Fixpoint assoc (k : nat) (l : list (nat * nat)) : option nat :=
  match l with [] => None | (j, v) :: l => if (k =? j)%nat then Some v else assoc k l end.
(** [alive] is whether a worker still holds the engine; [quit_to] the instance that
    an engine's [quit] and [exit] shut down. *)
Definition qmlEngineFor (inst : nat) (alive : nat -> bool) (e : Engines) : nat * Engines :=
  let kept := List.filter (fun p => alive p.2) (table e) in
  match assoc inst kept with
  | Some engine => (engine, {| table := kept; next_engine := next_engine e; quit_to := quit_to e |})
  | None =>
      let engine := next_engine e in
      (engine, {| table := (inst, engine) :: kept; next_engine := S engine; quit_to := (engine, inst) :: quit_to e |})
  end.

(** ** Tags *)
Record TagsProxy := { tag_values : list (string * QVar); tag_quality : list (string * QVar) }.
Definition TagsProxy_new (r : TagRegistry) : TagsProxy :=
  fold_left (fun p name =>
    match GetTag name r with
    | Some t => {| tag_values := qm_insert name (value t) (tag_values p);
                   tag_quality := qm_insert name (VString (qualityStr (quality t))) (tag_quality p) |}
    | None => p
    end) (TagNames r) {| tag_values := []; tag_quality := [] |}.
(** The queued [tagChanged]. *)
Definition on_tagChanged (name : string) (v : QVar) (q : string) (p : TagsProxy) : TagsProxy :=
  {| tag_values := qm_insert name v (tag_values p); tag_quality := qm_insert name (VString q) (tag_quality p) |}.
Definition tags_ensure (name : string) (p : TagsProxy) : TagsProxy :=
  match qm_find name (tag_values p) with
  | Some _ => p
  | None => {| tag_values := qm_insert name VInvalid (tag_values p); tag_quality := qm_insert name (VString "comm_fail") (tag_quality p) |}
  end.
(** What the registry announces and the event loop delivers. *)
Definition announced (l : list TagEffect) : list (string * QVar * string) :=
  omap (fun e => match e with TagChanged n v q => Some (n, v, q) | _ => None end) l.
Definition delivered (l : list (string * QVar * string)) (p : TagsProxy) : TagsProxy :=
  fold_left (fun p c => on_tagChanged c.1.1 c.1.2 c.2 p) l p.

(** ** The worker *)
Definition QMLConfig_type : CType := CStruct "QMLConfig" [
  ("name", COptional CString); ("category", COptional CString); ("url", CString); ("properties", COptional CAnyMap)].
Record QMLConfig := { worker_config : WorkerConfig; url : string; properties : option (list (string * QVar)) }.
Definition EnsureName (c : WorkerConfig) (def : string) : WorkerConfig :=
  match name c with
  | Some n => if isEmpty n then {| name := Some def; category := category c; generated_name := true |} else c
  | None => {| name := Some def; category := category c; generated_name := true |}
  end.
(** The argument: the text of a view, or a configuration. *)
Inductive QmlArg := Inline (text : string) | Configured (c : QMLConfig).
Definition baseConfig (a : QmlArg) : WorkerConfig :=
  match a with
  | Inline _ => {| name := None; category := None; generated_name := false |}
  | Configured c => EnsureName (worker_config c) (url c)
  end.
Class QmlOps := {
  isRelative : string -> bool;
  resolved : string -> string -> string;
  scheme : string -> string;
  fromLocalFile : string -> string
}.
Inductive Component := SetData (text : string) (base : string) | FromUrl (u : string) | FromName (path : string).
Inductive Loaded := Created (is_item : bool) | NotCreated (errors : string) | StillLoading.
Section worker.
Context {QO : QmlOps}.
Definition creator (a : QmlArg) (currentFile : option string) (currentPath scriptBaseUrl : string) : Component :=
  match a with
  | Inline text => SetData text (fromLocalFile (default currentPath currentFile))
  | Configured c =>
      let qmlUrl := if (isRelative (url c) && negb (isEmpty scriptBaseUrl))%bool then resolved scriptBaseUrl (url c) else url c in
      if bool_decide (scheme qmlUrl = "http" \/ scheme qmlUrl = "https") then FromUrl qmlUrl else FromName (url c)
  end.
Definition context_properties (a : QmlArg) : list (string * QVar) :=
  match a with Inline _ => [] | Configured c => default [] (properties c) end.
(** A worker that lives: its view, the roots of the instance afterwards. *)
Record QMLWorker := { gui : Gui; tags_proxy : option TagsProxy; view_item : option nat }.
Definition QMLWorker_new (a : QmlArg) (load : Component -> Loaded) (currentFile : option string) (currentPath scriptBaseUrl : string)
    (registry : option TagRegistry) (item : nat) (guiItems : list nat) : res (QMLWorker * list nat) :=
  let tags := TagsProxy_new <$> registry in
  match load (creator a currentFile currentPath scriptBaseUrl) with
  | StillLoading => Raise ("Timed out loading remote QML: " +:+ match a with Inline _ => "" | Configured c => url c end)
  | NotCreated e => Raise ("Could not create qml view: " +:+ e)
  | Created true => Ok ({| gui := gui_init; tags_proxy := tags; view_item := Some item |}, guiItems ++ [item])
  | Created false => Ok ({| gui := gui_init; tags_proxy := tags; view_item := None |}, guiItems)
  end.
(** The destructor removes the view, and roots that are gone. *)
Definition QMLWorker_delete (w : QMLWorker) (alive : nat -> bool) (guiItems : list nat) : list nat :=
  match view_item w with
  | Some item => List.filter (fun i => (negb (i =? item)%nat && alive i)%bool) guiItems
  | None => guiItems
  end.
Definition OnMsg (m : QVar) (w : QMLWorker) : QMLWorker :=
  {| gui := applyIncoming m 0%nat (gui w); tags_proxy := tags_proxy w; view_item := view_item w |}.
End worker.

(** ** The tree the nodes stand for *)
Inductive Tree := Leaf (v : QVar) | Branch (l : list (string * Tree)).
(** A message merged into a tree: maps go down, anything else replaces. *)
Definition below (k : string) (l : list (string * Tree)) : list (string * Tree) :=
  match qm_find k l with Some (Branch s) => s | _ => [] end.
Fixpoint merge (m : QVar) (l : list (string * Tree)) : list (string * Tree) :=
  match m with
  | VMap entries =>
      (fix loop entries l :=
         match entries with
         | [] => l
         | (k, v) :: entries =>
             loop entries (qm_insert k (match v with VMap _ => Branch (merge v (below k l)) | _ => Leaf v end) l)
         end) entries l
  | _ => l
  end.
Fixpoint tree_get (l : list (string * Tree)) (path : list string) : option Tree :=
  match path with
  | [] => Some (Branch l)
  | [k] => qm_find k l
  | k :: path => tree_get (below k l) path
  end.
Definition is_ptr (v : QVar) : bool := match v with VOpaque "QObject*" _ => true | _ => false end.
(** Messages hold no pointers to objects. *)
Fixpoint plain (m : QVar) : bool :=
  match m with VMap entries => forallb (fun kv => plain kv.2) entries | VOpaque "QObject*" _ => false | _ => true end.

(** The node [n] and what hangs below stand for a tree and use the nodes [fp]. *)
Inductive rep (ns : list GuiModel) : nat -> list (string * Tree) -> gset nat -> Prop :=
| Rep n x l fp : ns !! n = Some x -> n ∉ fp -> reps ns n (props x) l fp -> rep ns n l ({[n]} ∪ fp)
with reps (ns : list GuiModel) : nat -> list (string * QVar) -> list (string * Tree) -> gset nat -> Prop :=
| Reps_nil n : reps ns n [] [] ∅
| Reps_leaf n k v ps l fp : is_ptr v = false -> qm_above k ps = true -> qm_above k l = true ->
    reps ns n ps l fp -> reps ns n ((k, v) :: ps) ((k, Leaf v) :: l) fp
| Reps_child n k c x ps s l fp1 fp2 : ns !! c = Some x -> up x = Some n -> key x = k -> (n < c)%nat ->
    qm_above k ps = true -> qm_above k l = true -> rep ns c s fp1 -> reps ns n ps l fp2 -> fp1 ## fp2 ->
    reps ns n ((k, node_ptr c) :: ps) ((k, Branch s) :: l) (fp1 ∪ fp2).
Scheme rep_mind := Minimality for rep Sort Prop with reps_mind := Minimality for reps Sort Prop.
Combined Scheme rep_both from rep_mind, reps_mind.

Lemma rep_domain ns : (forall n l fp, rep ns n l fp -> n ∈ fp /\ forall i, i ∈ fp -> (i < length ns)%nat) /\
  (forall n ps l fp, reps ns n ps l fp -> forall i, i ∈ fp -> (i < length ns)%nat).
Proof.
  apply rep_both.
  - intros n x l fp Hx Hn _ IH. split; [set_solver|]. intros i [->%elem_of_singleton|Hi]%elem_of_union; [by eapply lookup_lt_Some|by apply IH].
  - set_solver.
  - done.
  - intros n k c x ps s l fp1 fp2 Hc _ _ _ _ _ _ [_ IH1] _ IH2 _ i [Hi|Hi]%elem_of_union; auto.
Qed.
Lemma rep_frame ns ns' : (forall n l fp, rep ns n l fp -> (forall i, i ∈ fp -> ns' !! i = ns !! i) -> rep ns' n l fp) /\
  (forall n ps l fp, reps ns n ps l fp -> (forall i, i ∈ fp -> ns' !! i = ns !! i) -> reps ns' n ps l fp).
Proof.
  apply rep_both.
  - intros n x l fp Hx Hn _ IH Hf. econstructor; [rewrite Hf by set_solver; exact Hx|done|]. apply IH. set_solver.
  - constructor.
  - intros n k v ps l fp Hv Ha Hb _ IH Hf. constructor; auto.
  - intros n k c x ps s l fp1 fp2 Hc Hu Hk Hlt Ha Hb H1 IH1 _ IH2 Hd Hf. destruct (proj1 (rep_domain ns) _ _ _ H1) as [Hin _].
    eapply Reps_child; eauto; [rewrite Hf by set_solver; exact Hc|apply IH1; set_solver|apply IH2; set_solver].
Qed.
Lemma reps_above ns n ps l fp k : reps ns n ps l fp -> qm_above k ps = qm_above k l.
Proof. induction 1; cbn; congruence. Qed.
Lemma above_insert {V} k j (v : V) m : k <> j -> str_ltb k j = false -> qm_above j m = true -> qm_above j (qm_insert k v m) = true.
Proof. intros Hne Hlt. apply qm_above_insert. by apply str_ltb_total. Qed.
(** Storing a value in a node, or a node that has nothing in common with the others. *)
Lemma reps_insert_leaf ns n ps l fp k v : is_ptr v = false -> reps ns n ps l fp ->
  exists fp', fp' ⊆ fp /\ reps ns n (qm_insert k v ps) (qm_insert k (Leaf v) l) fp'.
Proof.
  intros Hv H. induction H as [n|n j w ps l fp Hw Ha Hb H IH|n j c x ps s l fp1 fp2 Hc Hu Hk Hlt Ha Hb H1 H2 IH Hd]; cbn [qm_insert].
  - exists ∅. split; [done|]. by repeat constructor.
  - destruct IH as (fp' & Hs & IH). case_bool_decide as Hkj; [subst k|destruct (str_ltb k j) eqn:Ekj].
    + exists fp. split; [done|]. by constructor.
    + exists fp. split; [done|]. repeat constructor; try done; cbn; rewrite Ekj; by apply (qm_above_trans _ j).
    + exists fp'. split; [done|]. constructor; auto using above_insert.
  - destruct IH as (fp' & Hs & IH). case_bool_decide as Hkj; [subst k|destruct (str_ltb k j) eqn:Ekj].
    + exists fp2. split; [set_solver|]. by constructor.
    + exists (fp1 ∪ fp2). split; [done|]. constructor; [done| | |by econstructor]; cbn; rewrite Ekj; by apply (qm_above_trans _ j).
    + exists (fp1 ∪ fp'). split; [set_solver|]. eapply Reps_child; eauto using above_insert. set_solver.
Qed.
Lemma reps_insert_child ns n ps l fp k c x s fpc : ns !! c = Some x -> up x = Some n -> key x = k -> (n < c)%nat ->
  rep ns c s fpc -> reps ns n ps l fp -> fpc ## fp ->
  exists fp', fp' ⊆ fp ∪ fpc /\ reps ns n (qm_insert k (node_ptr c) ps) (qm_insert k (Branch s) l) fp'.
Proof.
  intros Hc Hu Hk Hlt Hs H. induction H as [n|n j w ps l fp Hw Ha Hb H IH|n j d y ps t l fp1 fp2 Hy Hyu Hyk Hylt Ha Hb H1 H2 IH Hd2]; intros Hd; cbn [qm_insert].
  - exists (fpc ∪ ∅). split; [set_solver|]. eapply Reps_child; eauto; first [constructor|set_solver].
  - destruct (IH Hu Hlt Hd) as (fp' & Hsub & IH'). case_bool_decide as Hkj; [|destruct (str_ltb k j) eqn:Ekj].
    + exists (fpc ∪ fp). split; [set_solver|]. rewrite <- Hkj in Ha, Hb. eapply Reps_child; eauto.
    + exists (fpc ∪ fp). split; [set_solver|]. eapply Reps_child; eauto; [cbn; rewrite Ekj; by apply (qm_above_trans _ j)..|by constructor].
    + exists fp'. split; [done|]. constructor; auto using above_insert.
  - destruct (IH Hu Hlt ltac:(set_solver)) as (fp' & Hsub & IH'). case_bool_decide as Hkj; [|destruct (str_ltb k j) eqn:Ekj].
    + exists (fpc ∪ fp2). split; [set_solver|]. rewrite <- Hkj in Ha, Hb. eapply Reps_child; eauto. set_solver.
    + exists (fpc ∪ (fp1 ∪ fp2)). split; [set_solver|]. eapply Reps_child; eauto; [cbn; rewrite Ekj; by apply (qm_above_trans _ j)..|by econstructor].
    + exists (fp1 ∪ fp'). split; [set_solver|]. eapply Reps_child; eauto using above_insert. set_solver.
Qed.
Lemma above_found {V} j k (m : list (string * V)) v : qm_above j m = true -> qm_find k m = Some v -> k <> j /\ str_ltb k j = false.
Proof.
  intros Ha Hf%qm_find_elem. pose proof (qm_above_all _ _ _ _ Ha Hf) as Hlt. split.
  - intros ->. by rewrite str_ltb_irrefl in Hlt.
  - destruct (str_ltb k j) eqn:E; [|done]. pose proof (str_ltb_trans _ _ _ Hlt E) as H. by rewrite str_ltb_irrefl in H.
Qed.
(** The node under a key can change without the others. *)
Definition same_place (x x' : GuiModel) : Prop := up x' = up x /\ key x' = key x.
Lemma reps_child ns n ps l fp k c : reps ns n ps l fp -> qm_find k ps = Some (node_ptr c) ->
  exists s fpc x, rep ns c s fpc /\ fpc ⊆ fp /\ qm_find k l = Some (Branch s) /\ ns !! c = Some x /\ up x = Some n /\ key x = k /\ (n < c)%nat /\
    forall ns' s' fpc' x', rep ns' c s' fpc' -> ns' !! c = Some x' -> same_place x x' ->
      (forall i, i ∈ fp -> i ∉ fpc -> ns' !! i = ns !! i) -> (forall i, i ∈ fpc' -> i ∈ fpc \/ i ∉ fp) ->
      exists fp', reps ns' n ps (qm_insert k (Branch s') l) fp' /\ fp' ⊆ fp ∪ fpc'.
Proof.
  intros H. induction H as [n|n j w ps l fp Hw Ha Hb H IH|n j d y ps t l fp1 fp2 Hy Hyu Hyk Hylt Ha Hb H1 H2 IH Hd2]; cbn [qm_find]; intros Hf; [done|..].
  - case_bool_decide as Hkj; [by injection Hf as ->|].
    destruct (IH Hf) as (s & fpc & x & Hs & Hsub & Hl & Hc & Hu & Hk & Hlt & Hup). exists s, fpc, x. split_and!; try done.
    intros ns' s' fpc' x' Q1 Q2 Q3 Q4 Q5. destruct (Hup ns' s' fpc' x' Q1 Q2 Q3 Q4 Q5) as (fp' & Hr & Hsub').
    cbn [qm_insert]. destruct (above_found _ _ _ _ Ha Hf) as [Hne Hlt']. rewrite bool_decide_eq_false_2, Hlt' by done.
    exists fp'. split; [|done]. constructor; auto using above_insert.
  - case_bool_decide as Hkj.
    + injection Hf as Hdc. apply Nat2Z.inj in Hdc as ->. exists t, fp1, y. split_and!; try done; [set_solver|congruence|].
      intros ns' s' fpc' x' Q1 Q2 [Qu Qk] Q4 Q5. exists (fpc' ∪ fp2). split; [|set_solver]. cbn [qm_insert]. rewrite bool_decide_eq_true_2 by done.
      rewrite Hkj. eapply Reps_child; try done; [congruence|congruence| |intros i Hi Hi'; destruct (Q5 i Hi); set_solver].
      apply (proj2 (rep_frame ns ns') _ _ _ _ H2). intros i Hi. apply Q4; set_solver.
    + destruct (IH Hf) as (s & fpc & x & Hs & Hsub & Hl & Hc & Hu & Hk & Hlt & Hup). exists s, fpc, x. split_and!; try done; [set_solver|].
      intros ns' s' fpc' x' Q1 Q2 Q3 Q4 Q5.
      destruct (Hup ns' s' fpc' x' Q1 Q2 Q3) as (fp' & Hr & Hsub'); [intros; apply Q4; set_solver|intros i Hi; destruct (Q5 i Hi); set_solver|].
      cbn [qm_insert]. destruct (above_found _ _ _ _ Ha Hf) as [Hne Hlt']. rewrite bool_decide_eq_false_2, Hlt' by done.
      destruct (proj1 (rep_domain ns) _ _ _ H1) as [Hin _].
      exists (fp1 ∪ fp'). split; [|set_solver]. eapply (Reps_child _ _ _ _ y); eauto using above_insert.
      * rewrite Q4; [done|set_solver|set_solver].
      * apply (proj1 (rep_frame ns ns') _ _ _ H1). intros i Hi. apply Q4; set_solver.
      * intros i Hi Hi'. apply Hsub' in Hi'. apply elem_of_union in Hi' as [Hi'|Hi']; [set_solver|]. destruct (Q5 i Hi'); set_solver.
Qed.
(** Nodes keep their place, and those outside of [fp] everything. *)
Definition kept (ns ns' : list GuiModel) (fp : gset nat) : Prop :=
  (forall i x, ns !! i = Some x -> exists x', ns' !! i = Some x' /\ same_place x x') /\
  (forall i, (i < length ns)%nat -> i ∉ fp -> ns' !! i = ns !! i) /\ (length ns <= length ns')%nat.
Definition grown (ns : list GuiModel) (fp fp' : gset nat) : Prop := forall i, i ∈ fp' -> i ∈ fp \/ (length ns <= i)%nat.
Lemma kept_refl ns fp : kept ns ns fp.
Proof. split_and!; [|done|done]. intros i x Hx. by exists x. Qed.
Lemma kept_trans ns1 ns2 ns3 fp1 fp2 : kept ns1 ns2 fp1 -> kept ns2 ns3 fp2 -> grown ns1 fp1 fp2 -> kept ns1 ns3 fp1.
Proof.
  intros (A1 & A2 & A3) (B1 & B2 & B3) Hg. split_and!; [| |lia].
  - intros i x Hx. destruct (A1 i x Hx) as (y & Hy & [E1 E2]). destruct (B1 i y Hy) as (z & Hz & [E3 E4]). exists z. split; [done|]. split; congruence.
  - intros i Hi Hn. rewrite B2; [by apply A2|lia|]. intros Hi2. destruct (Hg i Hi2); [done|lia].
Qed.
Lemma grown_trans ns1 ns2 fp1 fp2 fp3 : (length ns1 <= length ns2)%nat -> grown ns1 fp1 fp2 -> grown ns2 fp2 fp3 -> grown ns1 fp1 fp3.
Proof. intros Hl G1 G2 i Hi. destruct (G2 i Hi) as [H|H]; [by apply G1|right; lia]. Qed.
Lemma insert_kept n k v g fp : n ∈ fp -> kept (nodes g) (nodes (insert_prop n k v g)) fp.
Proof.
  intros Hn. split_and!; cbn; [| |by rewrite length_alter].
  - intros i x Hx. destruct (decide (n = i)) as [->|Hne].
    + rewrite list_lookup_alter_eq, Hx. by eexists.
    + rewrite list_lookup_alter_ne by done. by eexists.
  - intros i _ Hi. apply list_lookup_alter_ne. set_solver.
Qed.
Lemma node_props_insert n k v g x : nodes g !! n = Some x -> nodes (insert_prop n k v g) !! n = Some {| up := up x; key := key x; props := qm_insert k v (props x) |}.
Proof. intros Hx. cbn. by rewrite list_lookup_alter_eq, Hx. Qed.
Lemma insert_leaf_rep n k v g l fp : rep (nodes g) n l fp -> is_ptr v = false ->
  exists fp', rep (nodes (insert_prop n k v g)) n (qm_insert k (Leaf v) l) fp' /\ kept (nodes g) (nodes (insert_prop n k v g)) fp /\ fp' ⊆ fp.
Proof.
  intros H Hv. destruct H as [n x l fp Hx Hn Hr]. destruct (reps_insert_leaf _ _ _ _ _ k v Hv Hr) as (fp' & Hsub & Hr').
  exists ({[n]} ∪ fp'). split_and!; [|apply insert_kept; set_solver|set_solver].
  econstructor; [by apply node_props_insert|set_solver|]. apply (proj2 (rep_frame (nodes g) _) _ _ _ _ Hr').
  intros i Hi. cbn. apply list_lookup_alter_ne. set_solver.
Qed.
Lemma as_node_ptr g c : (c < length (nodes g))%nat -> as_node g (node_ptr c) = Some c.
Proof. intros Hc. unfold as_node, node_ptr. rewrite bool_decide_eq_true_2 by lia. by rewrite Nat2Z.id. Qed.
Lemma reps_find ns n ps l fp k : reps ns n ps l fp ->
  match qm_find k ps with
  | Some v => (is_ptr v = false /\ qm_find k l = Some (Leaf v)) \/
              exists c s, v = node_ptr c /\ qm_find k l = Some (Branch s) /\ (c < length ns)%nat
  | None => qm_find k l = None
  end.
Proof.
  induction 1 as [n|n j w ps l fp Hw Ha Hb H IH|n j d y ps t l fp1 fp2 Hy Hyu Hyk Hylt Ha Hb H1 H2 IH Hd2]; cbn [qm_find]; [done|..]; case_bool_decide; try done.
  - by left.
  - right. exists d, t. split_and!; [done..|]. by eapply lookup_lt_Some.
Qed.
Lemma reps_sorted ns n ps l fp : reps ns n ps l fp -> qm_sorted l = true.
Proof. induction 1 as [|? ? ? ? ? ? ? ? Hb ? IH|? ? ? ? ? ? ? ? ? ? ? ? ? ? Hb ? ? IH]; cbn; [done|by rewrite Hb|by rewrite Hb]. Qed.
Lemma branch_rep n k g l fp : rep (nodes g) n l fp ->
  let c := (branch n k g).1 in let g' := (branch n k g).2 in
  exists x fp', nodes g' !! n = Some x /\ qm_find k (props x) = Some (node_ptr c) /\ acts g' = acts g /\
    (n ∉ fp') /\ reps (nodes g') n (props x) (qm_insert k (Branch (below k l)) l) fp' /\
    kept (nodes g) (nodes g') fp /\ grown (nodes g) fp ({[n]} ∪ fp').
Proof.
  intros H. destruct H as [n x l fp Hx Hn Hr]. unfold branch, node_props. rewrite Hx. unfold qm_get, below.
  pose proof (reps_find _ _ _ _ _ k Hr) as Hf.
  set (v := default VInvalid (qm_find k (props x))).
  assert ((as_node g v = None /\ match qm_find k l with Some (Branch s) => s | _ => [] end = []) \/
    exists c s, qm_find k (props x) = Some (node_ptr c) /\ qm_find k l = Some (Branch s) /\ as_node g v = Some c) as [[-> ->]|(c & s & E & Hl & Ha)].
  { subst v. destruct (qm_find k (props x)) as [v|]; cbn [default from_option id]; [|left; by rewrite Hf].
    destruct Hf as [[Hv ->]|(c & s & -> & Hl & Hc)].
    - left. split; [|done]. unfold as_node. unfold is_ptr in Hv. repeat case_match; done.
    - right. exists c, s. split_and!; try done. by apply as_node_ptr. }
  - cbn [GuiModel_new fst snd]. set (c := length (nodes g)). set (g1 := {| nodes := nodes g ++ _; acts := acts g |}).
    assert (c < length (nodes g1))%nat as Hc1 by (cbn; rewrite length_app; cbn; lia).
    assert (nodes g1 !! c = Some {| up := Some n; key := k; props := [] |}) as Hnew by (cbn; by rewrite lookup_app_r, Nat.sub_diag).
    assert (n < c)%nat as Hnc by (by eapply lookup_lt_Some).
    assert (kept (nodes g) (nodes g1) ({[n]} ∪ fp)) as K1.
    { split_and!; cbn; [| |rewrite length_app; lia].
      - intros i y Hy. exists y. split; [by apply lookup_app_l_Some|done].
      - intros i Hi _. by apply lookup_app_l. }
    assert (nodes g1 !! n = Some x) as Hx1 by (cbn; by apply lookup_app_l_Some).
    assert (reps (nodes g1) n (props x) l fp) as Hr1.
    { apply (proj2 (rep_frame (nodes g) _) _ _ _ _ Hr). intros i Hi. cbn. apply lookup_app_l. by apply (proj2 (rep_domain _) _ _ _ _ Hr). }
    assert (rep (nodes g1) c [] ({[c]} ∪ ∅)) as Hrc by (econstructor; [exact Hnew|set_solver|constructor]).
    assert ({[c]} ∪ ∅ ## fp) as Hdis.
    { intros i Hi Hi'. pose proof (proj2 (rep_domain _) _ _ _ _ Hr i Hi') as Hlt. unfold c in *. assert (i = length (nodes g)) by set_solver. lia. }
    destruct (reps_insert_child _ n (props x) l fp k c _ _ _ Hnew eq_refl eq_refl Hnc Hrc Hr1 Hdis) as (fp' & Hsub & Hr').
    set (g2 := insert_prop n k (node_ptr c) g1). exists {| up := up x; key := key x; props := qm_insert k (node_ptr c) (props x) |}, fp'.
    assert (n ∉ fp') as Hn' by (intros Hi%Hsub; assert (n = c) by set_solver; lia).
    split_and!; try done.
    + by apply node_props_insert.
    + cbn. apply qm_find_insert_eq.
    + apply (proj2 (rep_frame (nodes g1) _) _ _ _ _ Hr'). intros i Hi. cbn. apply list_lookup_alter_ne. set_solver.
    + eapply kept_trans; [exact K1|by apply (insert_kept _ _ _ _ ({[n]} ∪ fp)); set_solver|]. intros i Hi. by left.
    + intros i Hi. destruct (decide (i = c)) as [->|]; [right; unfold c; lia|left]. set_solver.
  - rewrite Ha. cbn [fst snd]. exists x, fp. rewrite Hl. split_and!; try done.
    + rewrite qm_insert_id; [done|by eapply reps_sorted|done].
    + apply kept_refl.
    + intros i Hi. by left.
Qed.
Definition changes (l : list GuiAct) : list QVar := omap (fun a => match a with ModelChange p => Some p | Received _ _ => None end) l.
(** A change of the node [n], which stands for [l] then [l']. *)
Definition updates (n : nat) (g g' : Gui) (l' : list (string * Tree)) (fp : gset nat) : Prop :=
  exists fp', rep (nodes g') n l' fp' /\ kept (nodes g) (nodes g') fp /\ grown (nodes g) fp fp' /\ changes (acts g') = changes (acts g).
Lemma updates_act n g l fp m : rep (nodes g) n l fp -> updates n g (gui_act (Received n m) g) l fp.
Proof.
  intros H. exists fp. split_and!; [done|apply kept_refl|by left|]. cbn. unfold changes. rewrite omap_app. cbn. by rewrite app_nil_r.
Qed.
Lemma updates_trans n g1 g2 g3 l2 l3 fp : updates n g1 g2 l2 fp -> (forall fp2, rep (nodes g2) n l2 fp2 -> updates n g2 g3 l3 fp2) -> updates n g1 g3 l3 fp.
Proof.
  intros (fp2 & H2 & K1 & G1 & A1) H. destruct (H fp2 H2) as (fp3 & H3 & K2 & G2 & A2). exists fp3. split_and!; [done| | |congruence].
  - by eapply kept_trans.
  - eapply grown_trans; [apply K1|done..].
Qed.
Lemma apply_step m n : (plain m = true -> forall n g l fp, rep (nodes g) n l fp -> updates n g (applyIncoming m n g) (merge m l) fp) ->
  plain m = true -> forall k g l fp, rep (nodes g) n l fp ->
  updates n g (match m with VMap _ => let '(child, g) := branch n k g in applyIncoming m child g | _ => insert_prop n k m g end)
    (qm_insert k (match m with VMap _ => Branch (merge m (below k l)) | _ => Leaf m end) l) fp.
Proof.
  intros IH Hp k g l fp H.
  assert (forall v, is_ptr v = false -> updates n g (insert_prop n k v g) (qm_insert k (Leaf v) l) fp) as Hleaf.
  { intros v Hv. destruct (insert_leaf_rep n k v g l fp H Hv) as (fp' & H' & K & Hs). exists fp'. split_and!; [done..|intros i Hi; left; auto|done]. }
  destruct m as [| | | | | | | | | | | | |es|ty i]; try (by apply Hleaf).
  - destruct (branch_rep n k g l fp H) as (x & fp1 & Hx & Hf & Ha & Hn & Hr & K & G).
    destruct (branch n k g) as [c g']; cbn [fst snd] in *.
    destruct (reps_child _ _ _ _ _ _ _ Hr Hf) as (s & fpc & y & Hc & Hsub & Hl & Hy & Hu & Hk & Hlt & Hup).
    rewrite qm_find_insert_eq in Hl. injection Hl as <-.
    destruct (IH Hp c g' _ fpc Hc) as (fpc' & Hc' & K' & G' & A'). destruct (proj1 K' c y Hy) as (y' & Hy' & Hpl).
    assert (forall j, j ∈ fp1 -> (j < length (nodes g'))%nat) as Hdom by (apply (proj2 (rep_domain _) _ _ _ _ Hr)).
    destruct (Hup _ _ fpc' y' Hc' Hy' Hpl) as (fp2 & Hr2 & Hs2).
    { intros j Hj Hj'. by apply K'; [apply Hdom|]. }
    { intros j Hj. destruct (G' j Hj) as [?|?]; [by left|right; intros Hj1%Hdom; lia]. }
    rewrite qm_insert_insert in Hr2.
    assert (nodes (applyIncoming (VMap es) c g') !! n = Some x) as Hx'.
    { rewrite (proj1 (proj2 K')); [done|by eapply lookup_lt_Some|]. intros Hi. by apply Hn, Hsub. }
    assert (grown (nodes g') ({[n]} ∪ fp1) ({[n]} ∪ fp2)) as G2.
    { intros j [Hj|Hj]%elem_of_union; [left; set_solver|]. apply Hs2, elem_of_union in Hj as [Hj|Hj]; [left; set_solver|].
      destruct (G' j Hj) as [?|?]; [left; set_solver|by right]. }
    exists ({[n]} ∪ fp2). split_and!.
    + econstructor; [exact Hx'| |exact Hr2]. intros Hj. apply Hs2, elem_of_union in Hj as [Hj|Hj]; [done|].
      destruct (G' n Hj) as [Hj'|Hj']; [by apply Hn, Hsub|]. pose proof (lookup_lt_Some _ _ _ Hx). lia.
    + eapply kept_trans; [exact K| |exact G]. destruct K' as (K1 & K2 & K3). split_and!; [done| |done]. intros j Hj Hj'. apply K2; [done|]. set_solver.
    + eapply grown_trans; [apply K|exact G|exact G2].
    + by rewrite A', Ha.
  - apply Hleaf. cbn [plain is_ptr] in *. repeat case_match; done.
Qed.
Lemma apply_rep m : plain m = true -> forall n g l fp, rep (nodes g) n l fp -> updates n g (applyIncoming m n g) (merge m l) fp.
Proof.
  induction m as [m Hm|es Hes|es IH] using QVar_tree_ind; intros Hp n g l fp H.
  - destruct m; try done; by apply updates_act.
  - by apply updates_act.
  - cbn [applyIncoming merge plain] in *. match goal with |- updates n g (gui_act _ (?F es g)) (?G es l) fp => set (loop := F); set (mloop := G) end.
    assert (updates n g (loop es g) (mloop es l) fp) as Hloop.
    { revert g l fp H Hp. induction IH as [|[k v] es Hv _ IHes]; intros g l fp H Hp.
      - exists fp. split_and!; [done|apply kept_refl|by left|done].
      - cbn [forallb snd] in Hp. apply andb_true_iff in Hp as [Hpv Hp].
        eapply (updates_trans n g); [by apply (apply_step v n Hv Hpv k g l fp H)|]. intros fp2 H2. by apply IHes. }
    eapply updates_trans; [exact Hloop|]. intros fp2 H2. by apply updates_act.
Qed.

(** ** Writes and the paths they travel *)
Inductive climbs (ns : list GuiModel) (n0 : nat) : nat -> list string -> Prop :=
| Climb_here : climbs ns n0 n0 []
| Climb_up n p x ks : ns !! n = Some x -> up x = Some p -> (p < n)%nat -> climbs ns n0 p ks -> climbs ns n0 n (ks ++ [key x]).
Fixpoint wrap (ks : list string) (payload : QVar) : QVar :=
  match ks with [] => payload | k :: ks => VMap (qm_insert k (wrap ks payload) []) end.
Lemma wrap_snoc ks k payload : wrap (ks ++ [k]) payload = wrap ks (VMap (qm_insert k payload [])).
Proof. induction ks as [|j ks IH]; [done|]. cbn [app wrap]. by rewrite IH. Qed.
Lemma wrap_climbs ns n0 n ks x0 : climbs ns n0 n ks -> ns !! n0 = Some x0 -> up x0 = None ->
  forall fuel payload, (n < fuel)%nat -> wrap_loop fuel ns n payload = Some (wrap ks payload).
Proof.
  intros Hc H0 Hu. induction Hc as [|n p x ks Hx Hup Hlt Hc IH]; intros fuel payload Hf; (destruct fuel as [|fuel]; [lia|]); cbn [wrap_loop].
  - by rewrite H0, Hu.
  - rewrite Hx, Hup, IH by lia. by rewrite wrap_snoc.
Qed.
Lemma climbs_under ns n c x n0 m ks : ns !! c = Some x -> up x = Some n -> (n < c)%nat -> n0 = c -> climbs ns n0 m ks -> climbs ns n m (key x :: ks).
Proof.
  intros Hc Hu Hlt -> Hm. induction Hm as [|m p y ks Hy Hyu Hylt Hm IH].
  - apply (Climb_up ns n c n x []); [done..|constructor].
  - by apply (Climb_up ns n m p y (key x :: ks)).
Qed.
(** A write at a node below: the tree is the old one with the wrapped write merged. *)
Lemma write_rep ns n k v : is_ptr v = false -> (match v with VMap _ => False | _ => True end) ->
  let ns' := nodes (insert_prop n k v {| nodes := ns; acts := [] |}) in
  let payload := VMap (qm_insert k v []) in
  (forall n0 l fp, rep ns n0 l fp -> n ∈ fp -> exists ks fp', climbs ns n0 n ks /\ fp' ⊆ fp /\ rep ns' n0 (merge (wrap ks payload) l) fp') /\
  (forall n0 ps l fp, reps ns n0 ps l fp -> n ∈ fp -> exists j ks s fp', climbs ns n0 n (j :: ks) /\ fp' ⊆ fp /\
     qm_find j ps <> None /\ qm_find j l = Some (Branch s) /\ reps ns' n0 ps (qm_insert j (Branch (merge (wrap ks payload) s)) l) fp').
Proof.
  intros Hv Hm ns' payload.
  assert (forall i, i <> n -> ns' !! i = ns !! i) as Hother by (intros i Hi; by apply list_lookup_alter_ne).
  apply rep_both.
  - intros n0 x l fp Hx Hn Hr IH Hin. destruct (decide (n = n0)) as [->|Hne].
    + exists []. destruct (insert_leaf_rep n0 k v {| nodes := ns; acts := [] |} l _ (Rep _ _ _ _ _ Hx Hn Hr) Hv) as (fp' & H' & _ & Hs).
      exists fp'. split_and!; [constructor|done|]. cbn [wrap merge qm_insert payload]. by destruct v.
    + destruct IH as (j & ks & s & fp' & Hc & Hs & _ & Hl & Hr'); [set_solver|]. exists (j :: ks), ({[n0]} ∪ fp').
      split_and!; [done|set_solver|]. econstructor; [rewrite Hother by done; exact Hx|set_solver|].
      cbn [wrap merge qm_insert]. unfold below. rewrite Hl. by destruct ks.
  - set_solver.
  - intros n0 j w ps l fp Hw Ha Hb Hr IH Hin. destruct (IH Hin) as (j' & ks & s & fp' & Hc & Hs & Hps & Hl & Hr').
    assert (qm_find j' ((j, Leaf w) :: l) = Some (Branch s) /\ j' <> j /\ str_ltb j' j = false) as (Hl' & Hne & Hlt).
    { destruct (above_found _ _ _ _ Hb Hl) as [Hne Hlt]. cbn. by rewrite bool_decide_eq_false_2. }
    exists j', ks, s, fp'. split_and!; try done; [cbn; by rewrite bool_decide_eq_false_2|].
    cbn [qm_insert]. rewrite bool_decide_eq_false_2, Hlt by done. constructor; auto using above_insert.
  - intros n0 j c x ps s l fp1 fp2 Hc Hu Hk Hlt Ha Hb H1 IH1 H2 IH2 Hd [Hin|Hin]%elem_of_union.
    + destruct (IH1 Hin) as (ks & fp' & Hcl & Hs & Hr'). exists j, ks, s, (fp' ∪ fp2).
      assert (exists x', ns' !! c = Some x' /\ same_place x x') as (x' & Hx' & Hp1 & Hp2).
      { destruct (proj1 (insert_kept n k v {| nodes := ns; acts := [] |} {[n]} ltac:(set_solver)) c x Hc) as (x' & ? & ?). by exists x'. }
      split_and!; [|set_solver|cbn; by rewrite bool_decide_eq_true_2|cbn; by rewrite bool_decide_eq_true_2|].
      * rewrite <- Hk. by eapply climbs_under.
      * cbn [qm_insert]. rewrite bool_decide_eq_true_2 by done. eapply (Reps_child _ _ _ _ x'); try done; [congruence|congruence| |set_solver].
        apply (proj2 (rep_frame ns _) _ _ _ _ H2). intros i Hi. apply Hother. set_solver.
    + destruct (IH2 Hin) as (j' & ks & t & fp' & Hcl & Hs & Hps & Hl & Hr').
      destruct (above_found _ _ _ _ Hb Hl) as [Hne Hlt']. destruct (proj1 (rep_domain ns) _ _ _ H1) as [Hcin _].
      exists j', ks, t, (fp1 ∪ fp'). cbn [qm_find]. rewrite !(bool_decide_eq_false_2 (j' = j)) by done.
      split_and!; try done; [set_solver|]. cbn [qm_insert]. rewrite bool_decide_eq_false_2, Hlt' by done.
      eapply (Reps_child _ _ _ _ x); auto using above_insert; [rewrite Hother by set_solver; exact Hc| |set_solver].
      apply (proj1 (rep_frame ns _) _ _ _ H1). intros i Hi. apply Hother. set_solver.
Qed.
Lemma tree_get_cons k j l path : tree_get l (k :: j :: path) = tree_get (below k l) (j :: path).
Proof. done. Qed.
Lemma merge_reads ks k v : (match v with VMap _ => False | _ => True end) -> forall l,
  tree_get (merge (wrap ks (VMap (qm_insert k v []))) l) (ks ++ [k]) = Some (Leaf v).
Proof.
  intros Hm. induction ks as [|j ks IH]; intros l.
  - cbn [wrap merge qm_insert app tree_get]. destruct v; try done; apply qm_find_insert_eq.
  - assert (exists i path, ks ++ [k] = i :: path) as (i & path & E) by (destruct ks; cbn; eauto).
    cbn [wrap app]. rewrite E, tree_get_cons, <- E. cbn [merge qm_insert]. unfold below at 1.
    rewrite qm_find_insert_eq. specialize (IH (below j l)). by destruct ks.
Qed.
Lemma wrap_plain ks p : plain p = true -> plain (wrap ks p) = true.
Proof. intros Hp. induction ks as [|j ks IH]; cbn; by rewrite ?IH. Qed.

(** ** Tags *)
Definition mirrors (p : TagsProxy) (r : TagRegistry) : Prop := forall name t, GetTag name r = Some t ->
  qm_find name (tag_values p) = Some (value t) /\ qm_find name (tag_quality p) = Some (VString (qualityStr (quality t))).
Definition shown (p : TagsProxy) (name : string) (t : Tag) : Prop :=
  qm_find name (tag_values p) = Some (value t) /\ qm_find name (tag_quality p) = Some (VString (qualityStr (quality t))).
(** Delivering announcements that agree with the registry. *)
Lemma delivered_mirrors r cs : (forall n v q t, (n, v, q) ∈ cs -> GetTag n r = Some t -> v = value t /\ q = qualityStr (quality t)) ->
  forall p, (forall n t, GetTag n r = Some t -> n ∈ cs.*1.*1 \/ shown p n t) -> mirrors (delivered cs p) r.
Proof.
  induction cs as [|[[n v] q] cs IH]; intros Hc p Hp.
  - intros name t Ht. by destruct (Hp name t Ht) as [?%not_elem_of_nil|].
  - cbn [delivered fold_left]. apply IH; [intros n' v' q' t' H1 H2; apply (Hc n' v' q' t'); [apply elem_of_cons; by right|done]|]. intros j t Ht.
    destruct (Hp j t Ht) as [Hj|[H1 H2]].
    + cbn [fmap list_fmap fst] in Hj. apply elem_of_cons in Hj as [->|Hj]; [|by left]. right.
      destruct (Hc n v q t ltac:(apply elem_of_cons; by left) Ht) as [-> ->]. unfold shown, on_tagChanged. cbn. by rewrite !qm_find_insert_eq.
    + right. unfold shown, on_tagChanged. cbn. destruct (decide (n = j)) as [->|Hne].
      * destruct (Hc j v q t ltac:(apply elem_of_cons; by left) Ht) as [-> ->]. by rewrite !qm_find_insert_eq.
      * by rewrite !qm_find_insert_ne.
Qed.
Lemma announced_app a b : announced (a ++ b) = announced a ++ announced b. Proof. apply omap_app. Qed.
Lemma announced_notify {QO : QVariantOps} name t r : announced (notifyTag name t r) = [(name, value t, qualityStr (quality t))].
Proof.
  unfold notifyTag. rewrite announced_app. change (announced (CallChanged ?e :: ?l)) with (announced l). rewrite announced_app.
  assert (forall l ev, announced (map (fun fn => CallSubscriber fn ev) l) = []) as -> by (intros l ev; induction l; done).
  by destruct (qm_find name (perTag r)).
Qed.
Lemma updateTag_spec {QO : QVariantOps} live now name v w wname r : exists t,
  updateTag live now name v w wname r = (set_tags r (qm_insert name t (tags r)), notifyTag name t (set_tags r (qm_insert name t (tags r)))).
Proof. unfold updateTag. by eexists. Qed.
Lemma on_tagChanged_mirrors p r name t : mirrors p r -> mirrors (on_tagChanged name (value t) (qualityStr (quality t)) p) (set_tags r (qm_insert name t (tags r))).
Proof.
  intros Hm j u Hj. unfold GetTag in Hj. cbn in *. destruct (decide (name = j)) as [->|Hne].
  - rewrite qm_find_insert_eq in Hj. injection Hj as <-. by rewrite !qm_find_insert_eq.
  - rewrite qm_find_insert_ne in Hj by done. rewrite !qm_find_insert_ne by done. by apply Hm.
Qed.
Lemma msg_mirrors {QO : QVariantOps} live now w wname flat : forall p r, mirrors p r ->
  mirrors (delivered (announced (onWorkerMsg_loop live now w wname flat r).2) p) (onWorkerMsg_loop live now w wname flat r).1.
Proof.
  induction flat as [|[k v] flat IH]; intros p r Hm; cbn [onWorkerMsg_loop]; [done|]. destruct (negb (isValid v)); [by apply IH|].
  destruct (updateTag_spec live now (tag_name wname k) v w wname r) as [t ->]. set (r1 := set_tags r _).
  specialize (IH (on_tagChanged (tag_name wname k) (value t) (qualityStr (quality t)) p) r1).
  destruct (onWorkerMsg_loop live now w wname flat r1) as [r2 eff']. cbn [fst snd] in *.
  rewrite announced_app, announced_notify. by apply IH, on_tagChanged_mirrors.
Qed.
Lemma announced_flat {QO : QVariantOps} q r l : announced (flat_map (fun kt => notifyTag kt.1 (with_quality kt.2 q) r) l) = map (fun kt => (kt.1, value kt.2, qualityStr q)) l.
Proof. induction l as [|[k t] l IH]; cbn [flat_map map]; [done|]. by rewrite announced_app, announced_notify, IH. Qed.
Lemma quality_mirrors {QO : QVariantOps} wname q p r : qm_sorted (tags r) = true -> mirrors p r ->
  mirrors (delivered (announced (setWorkerQuality wname q r).2) p) (setWorkerQuality wname q r).1.
Proof.
  intros Hs Hm. unfold setWorkerQuality. destruct (setQuality_spec wname q r (tags r)) as [E1 E2].
  destruct (setQuality_loop wname q r (tags r)) as [l eff]. cbn [fst snd] in *. subst l eff. rewrite announced_flat.
  assert (forall n, GetTag n (set_tags r (map (fun kt => (kt.1, requalify wname q kt.1 kt.2)) (tags r))) = requalify wname q n <$> GetTag n r) as Hget
    by (intros n; apply (find_map_tag (requalify wname q))).
  apply delivered_mirrors.
  - intros n v q' t Hin Ht. apply list_elem_of_fmap in Hin as ([k u] & [= -> -> ->] & Hin). apply list_elem_of_In, filter_In in Hin as [Hin Hc].
    rewrite Hget in Ht. unfold GetTag in Ht. rewrite (qm_elem_find k u) in Ht by (done || by apply list_elem_of_In).
    cbn in Ht, Hc. injection Ht as <-. unfold requalify. by rewrite Hc.
  - intros n t Ht. rewrite Hget in Ht. destruct (GetTag n r) as [u|] eqn:Eu; [|done]. injection Ht as <-.
    destruct (startsWith n (wname +:+ ":") && negb (bool_decide (quality u = q)))%bool eqn:Ec.
    + left. apply list_elem_of_fmap. exists (n, value u). split; [done|]. apply list_elem_of_fmap. exists (n, value u, qualityStr q). split; [done|].
      apply list_elem_of_fmap. exists (n, u). split; [done|]. apply list_elem_of_In, filter_In. split; [|done]. by apply list_elem_of_In, qm_find_elem.
    + right. unfold requalify. rewrite Ec. by apply Hm.
Qed.
Lemma TagsProxy_new_mirrors r : mirrors (TagsProxy_new r) r.
Proof.
  unfold TagsProxy_new. set (f := fun p name => match GetTag name r with Some t => _ | None => p end).
  assert (forall names p, (forall n t, GetTag n r = Some t -> n ∈ names \/ shown p n t) -> mirrors (fold_left f names p) r) as H.
  { induction names as [|n names IH]; intros p Hp; cbn [fold_left].
    - intros j t Hj. by destruct (Hp j t Hj) as [?%not_elem_of_nil|].
    - apply IH. intros j t Hj. unfold f, shown. destruct (decide (n = j)) as [->|Hne].
      + right. rewrite Hj. cbn. by rewrite !qm_find_insert_eq.
      + destruct (Hp j t Hj) as [[->|Hj']%elem_of_cons|[H1 H2]]; [done|by left|]. right.
        destruct (GetTag n r); cbn; by rewrite ?qm_find_insert_ne. }
  apply H. intros n t Ht. left. unfold TagNames, qm_keys. unfold GetTag in Ht. apply qm_find_elem in Ht.
  apply list_elem_of_fmap. by exists (n, t).
Qed.

(** A view whose root is at the top. *)
Definition shows (g : Gui) (l : list (string * Tree)) (fp : gset nat) : Prop :=
  rep (nodes g) 0%nat l fp /\ exists x, nodes g !! 0%nat = Some x /\ up x = None.
Lemma shows_init : shows gui_init [] ({[0%nat]} ∪ ∅).
Proof. split; [by econstructor; [done|set_solver|constructor]|by eexists]. Qed.
Lemma shows_apply m g l fp : plain m = true -> shows g l fp -> exists fp', shows (applyIncoming m 0 g) (merge m l) fp' /\ changes (acts (applyIncoming m 0 g)) = changes (acts g).
Proof.
  intros Hp [Hr (x & Hx & Hu)]. destruct (apply_rep m Hp _ g l fp Hr) as (fp' & Hr' & K & _ & A). exists fp'. split; [|done].
  split; [done|]. destruct (proj1 K _ x Hx) as (x' & Hx' & Hu' & _). exists x'. split; [done|congruence].
Qed.

(** * Properties *)

(** An incoming message is merged into the tree the view shows - maps go down, any
    other value replaces what was there -, and nothing is sent back. *)
Theorem incoming_merges (m : QVar) (g : Gui) (l : list (string * Tree)) (fp : gset nat) : plain m = true -> shows g l fp ->
  exists fp', shows (applyIncoming m 0 g) (merge m l) fp' /\ changes (acts (applyIncoming m 0 g)) = changes (acts g).
Proof. apply shows_apply. Qed.
Definition sample_message : QVar := VMap [("a", VMap [("b", VInt 1)]); ("c", VString "x")].
Lemma incoming_merges_witness :
  exists fp', shows (applyIncoming sample_message 0 gui_init) [("a", Branch [("b", Leaf (VInt 1))]); ("c", Leaf (VString "x"))] fp' /\
    changes (acts (applyIncoming sample_message 0 gui_init)) = [].
Proof. by apply (incoming_merges sample_message gui_init [] _ eq_refl shows_init). Defined.

(** C38: Two views that show the same stay in step: a value other than a map or a
    pointer to an object, written under any key of any node of one, is sent as one
    message, and the other, given that message, shows what the first does - the value,
    where it was written - and sends nothing back. A map written stays one value in the
    view that wrote it and becomes a node in the other: [map_write_diverges]. *)
Theorem views_stay_in_step (g1 g2 : Gui) (l : list (string * Tree)) (fp1 fp2 : gset nat) (n : nat) (k : string) (v : QVar) :
  shows g1 l fp1 -> shows g2 l fp2 -> n ∈ fp1 -> is_ptr v = false -> (match v with VMap _ => False | _ => True end) ->
  exists path m l' fp1' fp2', m = wrap path (VMap [(k, v)]) /\
    acts (qml_write n k v g1) = acts g1 ++ [ModelChange m] /\ shows (qml_write n k v g1) l' fp1' /\
    changes (acts (applyIncoming m 0 g2)) = changes (acts g2) /\ shows (applyIncoming m 0 g2) l' fp2' /\
    tree_get l' (path ++ [k]) = Some (Leaf v).
Proof.
  intros [R1 (x & Hx & Hu)] S2 Hn Hv Hm.
  destruct (proj1 (write_rep (nodes g1) n k v Hv Hm) _ _ _ R1 Hn) as (ks & fp' & Hc & _ & Hr).
  set (m := wrap ks (VMap [(k, v)])). assert (plain m = true) as Hp.
  { apply wrap_plain. cbn. by destruct v as [| | | | | | | | | | | | |es|ty i]; try done; cbn in Hv |- *; repeat case_match. }
  destruct (shows_apply m g2 l fp2 Hp S2) as (fp2' & S2' & A2).
  exists ks, m, (merge m l), fp', fp2'. split; [done|]. unfold qml_write, updateValue, wrapPath.
  rewrite (wrap_climbs _ _ _ _ _ Hc Hx Hu) by lia. cbn [emitModelChange]. split_and!; [done| |done|done|by apply merge_reads].
  split; [exact Hr|]. destruct (proj1 (insert_kept n k v g1 {[n]} ltac:(set_solver)) _ x Hx) as (x' & Hx' & Hu' & _). exists x'.
  split; [exact Hx'|congruence].
Qed.
Lemma views_stay_in_step_witness :
  exists path m l' fp1' fp2', m = wrap path (VMap [("b", VInt 2)]) /\
    acts (qml_write 1 "b" (VInt 2) (applyIncoming sample_message 0 gui_init)) = acts (applyIncoming sample_message 0 gui_init) ++ [ModelChange m] /\
    shows (qml_write 1 "b" (VInt 2) (applyIncoming sample_message 0 gui_init)) l' fp1' /\
    changes (acts (applyIncoming m 0 (applyIncoming sample_message 0 gui_init))) = [] /\
    shows (applyIncoming m 0 (applyIncoming sample_message 0 gui_init)) l' fp2' /\ tree_get l' (path ++ ["b"]) = Some (Leaf (VInt 2)).
Proof.
  assert (shows (applyIncoming sample_message 0 gui_init) [("a", Branch [("b", Leaf (VInt 1))]); ("c", Leaf (VString "x"))] ({[0%nat]} ∪ (({[1%nat]} ∪ ∅) ∪ ∅))) as S.
  { split; [|by eexists]. econstructor; [reflexivity|set_solver|]. apply (Reps_child _ 0 "a" 1 {| up := Some 0%nat; key := "a"; props := [("b", VInt 1)] |}); [done..|lia|done|done| | |set_solver].
    - econstructor; [reflexivity|set_solver|]. by repeat constructor.
    - by repeat constructor. }
  apply (views_stay_in_step _ _ _ _ _ 1 "b" (VInt 2) S S); [set_solver|done|done].
Defined.

(** A map written to a property stays one value in the view that wrote it and becomes
    a node in the others. *)
Theorem map_write_diverges :
  let g := qml_write 0 "a" (VMap [("b", VInt 1)]) gui_init in
  node_props 0 g = [("a", VMap [("b", VInt 1)])] /\ changes (acts g) = [VMap [("a", VMap [("b", VInt 1)])]] /\
  node_props 0 (applyIncoming (VMap [("a", VMap [("b", VInt 1)])]) 0 gui_init) = [("a", node_ptr 1)].
Proof. by vm_compute. Qed.

(** What QML sees of the tags is what the registry holds: when the view is made, and
    after every message and every event of a worker once its announcements are
    delivered. *)
Theorem proxy_mirrors (QO : QVariantOps) (live : nat -> bool) (r : TagRegistry) (p : TagsProxy) (now : Z) (w : nat) (wname : string) (m : QVar) :
  qm_sorted (tags r) = true ->
  mirrors (TagsProxy_new r) r /\
  (mirrors p r ->
   mirrors (delivered (announced (onWorkerMsg live now w wname m r).2) p) (onWorkerMsg live now w wname m r).1 /\
   mirrors (delivered (announced (onWorkerEvent wname m r).2) p) (onWorkerEvent wname m r).1).
Proof.
  intros Hs. split; [apply TagsProxy_new_mirrors|]. intros Hm. split; [by apply msg_mirrors|].
  unfold onWorkerEvent. destruct m; try done. destruct (event_quality m) as [q|]; [|done]. by apply quality_mirrors.
Qed.
Definition sample_registry : TagRegistry := (onWorkerMsg (fun _ => true) 5 0 "dev" (VMap [("a", VInt 1)]) registry_empty).1.
Lemma proxy_mirrors_witness :
  mirrors (TagsProxy_new sample_registry) sample_registry /\
  (mirrors (TagsProxy_new sample_registry) sample_registry ->
   mirrors (delivered (announced (onWorkerMsg (fun _ => true) 6 0 "dev" (VMap [("a", VInt 2)]) sample_registry).2) (TagsProxy_new sample_registry))
     (onWorkerMsg (fun _ => true) 6 0 "dev" (VMap [("a", VInt 2)]) sample_registry).1 /\
   mirrors (delivered (announced (onWorkerEvent (QO := simple_ops) "dev" (VMap [("a", VInt 2)]) sample_registry).2) (TagsProxy_new sample_registry))
     (onWorkerEvent (QO := simple_ops) "dev" (VMap [("a", VInt 2)]) sample_registry).1).
Proof. by apply (proxy_mirrors simple_ops). Defined.
(** A worker that advertises its fields again marks them failed in the registry and
    tells nobody: the view goes on showing them as good. *)
Theorem advertised_unseen :
  qm_find "dev:a" (tag_quality (TagsProxy_new sample_registry)) = Some (VString "good") /\
  (quality <$> GetTag "dev:a" (Advertise 1 "dev" ["a"] sample_registry)) = Some CommFail.
Proof. by vm_compute. Qed.

(** The workers of an instance share one engine while it lives, the workers of other
    instances keep theirs, and [quit] of a new engine shuts down the instance it is for. *)
Theorem engines_shared (inst : nat) (alive : nat -> bool) (e : Engines) :
  let '(x, e') := qmlEngineFor inst alive e in
  (alive x = true -> (qmlEngineFor inst alive e').1 = x) /\
  (forall j, j <> inst -> assoc j (table e') = assoc j (List.filter (fun p => alive p.2) (table e))) /\
  (x = next_engine e -> assoc inst (List.filter (fun p => alive p.2) (table e)) = None -> assoc x (quit_to e') = Some inst).
Proof.
  unfold qmlEngineFor. set (kept := List.filter _ (table e)).
  assert (List.filter (fun p => alive p.2) kept = kept) as Hk.
  { unfold kept. induction (table e) as [|p l IH]; [done|]. cbn [List.filter]. destruct (alive p.2) eqn:E; cbn [List.filter]; rewrite ?E, ?IH; done. }
  destruct (assoc inst kept) as [y|] eqn:E; cbn [table fst next_engine quit_to].
  - split_and!; [intros _; by rewrite Hk, E|done|done].
  - split_and!; [|intros j Hj; cbn; by rewrite (proj2 (Nat.eqb_neq _ _))|intros _ _; cbn; by rewrite Nat.eqb_refl].
    intros Ha. cbn [List.filter snd]. rewrite Ha. cbn. by rewrite Nat.eqb_refl.
Qed.
