(* ===== verification/Startup.v ===== *)
(** * Starting the application: [app/main.cpp]

    From the command line to a running instance: what [main] decides, what the
    constructor of [AppState] does and in which order - each step may throw -, the
    recordings of [--gui-record] over the life of several instances, and the watcher
    that asks for reloads.  Reading the command line is the library argparse: a [Cli]
    is what it found.  What follows the start is [App]. *)
From Stdlib Require Import Sorted.
From S2P Require Import Prelude Utils.
Set Warnings "-register-all,-clear-no-such-hyp".

(** ** The command line *)
Record Cli := {
  file : option string;
  exprs : list string;
  gui_no_auto_quit : bool;
  gui_record : option string;
  gui_replay : option string;
  watch_dirs : list string;
  pre_reload : option string;
  pre_script : option string;
  reload_exec : bool;
  schema : option (list string);               (* used, with the names given *)
  tags : bool;
  debug : bool;
  debug_vscode : bool;
  debug_host : string;
  debug_port : Z
}.
Fixpoint strncmp_eq (n : nat) (s t : string) : bool :=
  match n, s, t with
  | O, _, _ => true
  | S _, EmptyString, EmptyString => true
  | S n, String a s, String b t => (bool_decide (a = b) && strncmp_eq n s t)%bool
  | S _, _, _ => false
  end.
(** Whether an argument asks for a GUI application, before any parsing. *)
Definition wants_gui (argv : list string) : bool := existsb (fun a => strncmp_eq 5 a "--gui") argv.
Definition gui_flags : list string := ["gui"; "gui-no-auto-quit"; "gui-record"; "gui-replay"].
(** The flag a headless build complains of: the first of those used. *)
Definition headless_flag (is_used : string -> bool) : option string := List.find is_used gui_flags.
Record Setup := { gui_app : bool; shutdownOnLastClosed : bool; watching : bool }.
Inductive MainEnd := Return (code : Z) (err : string) | Start (s : Setup).
(** [main] up to the first [AppState]; [parsed] is what argparse did. *)
Definition main_start (GUI : bool) (argv : list string) (parsed : res Cli) (is_used : string -> bool) : MainEnd :=
  let gui_app := (GUI && wants_gui argv)%bool in
  match parsed with
  | Raise e => Return 1 ("Error: " +:+ e)
  | Ok c =>
      match (if GUI then None else headless_flag is_used) with
      | Some flag => Return 1 ("Error: --" +:+ flag +:+ " is unavailable")
      | None => Start {| gui_app := gui_app;
                         shutdownOnLastClosed := (GUI && negb (gui_no_auto_quit c) && gui_app)%bool;
                         watching := negb (bool_decide (watch_dirs c = [])) |}
      end
  end.
(** The end of [main]: the event loop is not entered when the instance already ended. *)
Definition main_end (g_exited : bool) (g_exit_code exec : Z) : Z := if g_exited then g_exit_code else exec.

(** ** The constructor of [AppState] *)
Inductive StartAct :=
| NewInstance | QuitOnLastWindow | ConnectShutdown | ConnectSignals | EnableGui
| StartRecording (path : string) | EnableTags | PrintSchemas (only : list string) | ExitProcess (code : Z)
| RegisterArgs | EvalFile (path : string) | Eval (expr : string) | EvalHttp (url : string)
| DebuggerConnect (host : string) (port : Z) (vscode : bool)
| ScheduleReplay (path : string) (ms : Z) | WatchFiles | OnReloadRequest.
Definition when {A} (b : bool) (l : list A) : list A := if b then l else [].
Definition if_present {A B} (o : option A) (f : A -> list B) : list B := match o with Some a => f a | None => [] end.
Section start.
Variable scheme : string -> string.               (* QUrl::scheme *)
Definition file_act (f : string) : StartAct :=
  if bool_decide (scheme f = "http" \/ scheme f = "https") then EvalHttp f else EvalFile f.
(** Scripts and the debugger, in the order in which they start. *)
Definition user_code (c : Cli) : list StartAct :=
  if_present (pre_script c) (fun p => [EvalFile p]) ++
  map Eval (exprs c) ++
  when (debug c || debug_vscode c) [DebuggerConnect (debug_host c) (debug_port c) (debug_vscode c)] ++
  if_present (file c) (fun f => [file_act f]).
Definition AppState_acts (GUI : bool) (s : Setup) (c : Cli) : list StartAct :=
  [NewInstance] ++
  when (gui_app s && shutdownOnLastClosed s) [QuitOnLastWindow] ++
  [ConnectShutdown; ConnectSignals] ++
  when (gui_app s) [EnableGui] ++
  when GUI (if_present (gui_record c) (fun p => [StartRecording p])) ++
  when (tags c) [EnableTags] ++
  match schema c with
  | Some only => [PrintSchemas only; ExitProcess 0]
  | None =>
      [RegisterArgs] ++ user_code c ++
      when GUI (if_present (gui_replay c) (fun p => [ScheduleReplay p 1000])) ++
      when (watching s) [WatchFiles] ++
      [OnReloadRequest]
  end.
(** The constructor stops at the first step that throws. *)
Fixpoint perform (throws : StartAct -> option string) (l : list StartAct) : list StartAct * option string :=
  match l with
  | [] => ([], None)
  | a :: l =>
      match throws a with
      | Some e => ([a], Some e)
      | None => let '(done, e) := perform throws l in (a :: done, e)
      end
  end.
Definition AppState_new (GUI : bool) (throws : StartAct -> option string) (s : Setup) (c : Cli) : list StartAct * option string :=
  perform throws (AppState_acts GUI s c).
End start.

(** ** Recordings *)
(** The two connections [saveRec] has: to [ShutdownRequest] of its instance and to
    [aboutToQuit], the second without a context object. *)
Record Saver := { owner : nat; spath : string; saved : bool }.
Record Recs := { savers : list Saver; dead : list nat; written : list (string * nat) }.
Inductive RecEvent := Started (inst : nat) (path : string) | ShutdownRequest (inst : nat) | Gone (inst : nat) | AboutToQuit.
(** [saveRec]; [None] is the use of an instance that is gone. *)
Definition saveRec (openable : string -> bool) (dead : list nat) (s : Saver) : option (Saver * list (string * nat)) :=
  if saved s then Some (s, [])
  else if bool_decide (owner s ∈ dead) then None
  else Some ({| owner := owner s; spath := spath s; saved := true |}, if openable (spath s) then [(spath s, owner s)] else []).
Fixpoint save_all (openable : string -> bool) (dead : list nat) (which : nat -> bool) (l : list Saver) : option (list Saver * list (string * nat)) :=
  match l with
  | [] => Some ([], [])
  | s :: l =>
      a ← (if which (owner s) then saveRec openable dead s else Some (s, []));
      b ← save_all openable dead which l;
      Some (a.1 :: b.1, a.2 ++ b.2)
  end.
Definition rec_step (openable : string -> bool) (e : RecEvent) (r : Recs) : option Recs :=
  match e with
  | Started i p => Some {| savers := savers r ++ [{| owner := i; spath := p; saved := false |}]; dead := dead r; written := written r |}
  | Gone i => Some {| savers := savers r; dead := i :: dead r; written := written r |}
  | ShutdownRequest i =>
      x ← save_all openable (dead r) (fun j => (j =? i)%nat) (savers r);
      Some {| savers := x.1; dead := dead r; written := written r ++ x.2 |}
  | AboutToQuit =>
      x ← save_all openable (dead r) (fun _ => true) (savers r);
      Some {| savers := x.1; dead := dead r; written := written r ++ x.2 |}
  end.
Fixpoint rec_run (openable : string -> bool) (es : list RecEvent) (r : Recs) : option Recs :=
  match es with [] => Some r | e :: es => r ← rec_step openable e r; rec_run openable es r end.
Definition recs_init : Recs := {| savers := []; dead := []; written := [] |}.

(** ** The watcher *)
(** [handleFileAction] at the time [now]: whether [FileChanged] is emitted. *)
Definition handleFileAction (modified : bool) (now elapsed : Z) : bool * Z :=
  if (modified && (500 <? now - elapsed))%bool then (true, now) else (false, elapsed).
Fixpoint watch (evs : list (bool * Z)) (elapsed : Z) : list Z :=
  match evs with
  | [] => []
  | (modified, now) :: evs =>
      let '(emitted, elapsed) := handleFileAction modified now elapsed in
      (if emitted then [now] else []) ++ watch evs elapsed
  end.

(** ** Lemmas *)
Definition is_user (a : StartAct) : bool :=
  match a with EvalFile _ | Eval _ | EvalHttp _ | DebuggerConnect _ _ _ => true | _ => false end.
Lemma perform_spec throws l : let '(done, err) := perform throws l in
  match err with
  | None => done = l /\ Forall (fun a => throws a = None) l
  | Some e => exists before a rest, (l = before ++ a :: rest) /\ done = before ++ [a] /\ throws a = Some e /\ Forall (fun a => throws a = None) before
  end.
Proof.
  induction l as [|a l IH]; cbn [perform]; [done|]. destruct (throws a) as [e|] eqn:E; [by exists [], a, l|].
  destruct (perform throws l) as [done [e|]].
  - destruct IH as (before & b & rest & -> & -> & Hb & Hf). exists (a :: before), b, rest. split_and!; [done..|]. by constructor.
  - destruct IH as [-> Hf]. split; [done|]. by constructor.
Qed.
Lemma user_code_user scheme c : Forall (fun a => is_user a = true) (user_code scheme c).
Proof.
  unfold user_code, if_present, when, file_act. rewrite !Forall_app. split_and!.
  - destruct (pre_script c); by repeat constructor.
  - by apply Forall_map, Forall_true.
  - destruct (_ || _)%bool; by repeat constructor.
  - destruct (file c); [|done]. case_bool_decide; by repeat constructor.
Qed.
Definition setup_acts (GUI : bool) (s : Setup) (c : Cli) : list StartAct :=
  [NewInstance] ++ when (gui_app s && shutdownOnLastClosed s) [QuitOnLastWindow] ++ [ConnectShutdown; ConnectSignals] ++
  when (gui_app s) [EnableGui] ++ when GUI (if_present (gui_record c) (fun p => [StartRecording p])) ++ when (tags c) [EnableTags] ++ [RegisterArgs].
Definition last_acts (GUI : bool) (s : Setup) (c : Cli) : list StartAct :=
  when GUI (if_present (gui_replay c) (fun p => [ScheduleReplay p 1000])) ++ when (watching s) [WatchFiles] ++ [OnReloadRequest].
Lemma acts_split scheme GUI s c : schema c = None -> exists setup tail,
  AppState_acts scheme GUI s c = setup ++ user_code scheme c ++ tail /\
  Forall (fun a => is_user a = false) setup /\ Forall (fun a => is_user a = false) tail /\
  (exists front, setup ++ user_code scheme c ++ tail = front ++ [OnReloadRequest] /\ (OnReloadRequest ∉ front)) /\
  RegisterArgs ∈ setup /\ (gui_app s = true -> EnableGui ∈ setup) /\ (tags c = true -> EnableTags ∈ setup) /\
  (forall p, GUI = true -> gui_record c = Some p -> StartRecording p ∈ setup).
Proof.
  intros Hs. unfold AppState_acts. rewrite Hs.
  exists (setup_acts GUI s c), (last_acts GUI s c). unfold setup_acts, last_acts.
  rewrite <- !app_assoc. split; [reflexivity|]. split_and!.
  - rewrite !Forall_app. unfold when, if_present. split_and!; repeat case_match; by repeat constructor.
  - rewrite !Forall_app. unfold when, if_present. split_and!; repeat case_match; by repeat constructor.
  - exists (setup_acts GUI s c ++ user_code scheme c ++ when GUI (if_present (gui_replay c) (fun p => [ScheduleReplay p 1000])) ++ when (watching s) [WatchFiles]).
    unfold setup_acts. rewrite <- !app_assoc. split; [done|]. intros Hin. pose proof (user_code_user scheme c) as Hu. rewrite Forall_forall in Hu.
    rewrite !elem_of_app in Hin. unfold when, if_present in Hin.
    assert (OnReloadRequest ∉ user_code scheme c) as Hn by (intros Hi%Hu; done). repeat case_match; set_solver.
  - set_solver.
  - intros ->. cbn. set_solver.
  - intros ->. cbn. set_solver.
  - intros p -> ->. cbn. set_solver.
Qed.

(** ** Recordings *)
Lemma save_all_spec openable dead (which : nat -> bool) l : (forall s, s ∈ l -> which (owner s) = true -> saved s = true \/ (owner s ∉ dead)) ->
  exists l' w, save_all openable dead which l = Some (l', w) /\
    l' = map (fun s => if which (owner s) then {| owner := owner s; spath := spath s; saved := true |} else s) l /\
    w = flat_map (fun s => if (which (owner s) && negb (saved s) && openable (spath s))%bool then [(spath s, owner s)] else []) l.
Proof.
  induction l as [|s l IH]; intros Hl; cbn [save_all]; [by eexists _, _|].
  destruct IH as (l' & w & E & -> & ->); [intros; apply Hl; [by right|done]|]. rewrite E. cbn [map flat_map].
  destruct (which (owner s)) eqn:Ew; cbn [andb]; [|by eexists _, _].
  unfold saveRec. destruct (saved s) eqn:Es; cbn [negb andb].
  - eexists _, _. split; [done|]. split; [|done]. f_equal. destruct s; cbn in *; by subst.
  - destruct (Hl s ltac:(by left) Ew) as [?|Hd]; [congruence|]. rewrite bool_decide_eq_false_2 by done. by eexists _, _.
Qed.
(** Recordings started, instances asked to shut down and instances gone are in order. *)
Fixpoint orderly (started asked : list nat) (es : list RecEvent) : Prop :=
  match es with
  | [] => True
  | Started i _ :: es => (i ∉ started) /\ orderly (i :: started) asked es
  | ShutdownRequest i :: es => i ∈ started /\ orderly started (i :: asked) es
  | Gone i :: es => i ∈ asked /\ orderly started asked es
  | AboutToQuit :: es => orderly started (started ++ asked) es
  end.
Definition kept_recordings (openable : string -> bool) (l : list Saver) : list (string * nat) :=
  map (fun s => (spath s, owner s)) (List.filter (fun s => saved s && openable (spath s))%bool l).
Definition recs_ok (openable : string -> bool) (started asked : list nat) (r : Recs) : Prop :=
  map owner (savers r) ≡ₚ started /\ (forall s, s ∈ savers r -> saved s = true <-> owner s ∈ asked) /\
  (forall i, i ∈ dead r -> i ∈ asked) /\ (forall i, i ∈ asked -> i ∈ started) /\ written r ≡ₚ kept_recordings openable (savers r).
Lemma kept_after openable (which : nat -> bool) l :
  kept_recordings openable (map (fun s => if which (owner s) then {| owner := owner s; spath := spath s; saved := true |} else s) l) ≡ₚ
  kept_recordings openable l ++ flat_map (fun s => if (which (owner s) && negb (saved s) && openable (spath s))%bool then [(spath s, owner s)] else []) l.
Proof.
  unfold kept_recordings. induction l as [|s l IH]; [done|]. cbn [map List.filter flat_map].
  destruct s as [o p b]; cbn [owner spath saved]. destruct (which o), b; cbn [andb negb saved spath owner];
    destruct (openable p); cbn [map app spath owner]; rewrite IH; try done. by rewrite Permutation_middle.
Qed.
Lemma save_ok openable which started asked asked' r : recs_ok openable started asked r ->
  (forall i, i ∈ started -> i ∈ asked' <-> which i = true \/ i ∈ asked) -> (forall i, i ∈ asked' -> i ∈ started) -> (forall i, i ∈ asked -> i ∈ asked') ->
  exists x, save_all openable (dead r) which (savers r) = Some x /\
    recs_ok openable started asked' {| savers := x.1; dead := dead r; written := written r ++ x.2 |}.
Proof.
  intros (Ho & Hs & Hd & Ha & Hw) Hasked Hsub Hmono.
  destruct (save_all_spec openable (dead r) which (savers r)) as (l' & w & -> & -> & ->).
  { intros s Hin _. destruct (saved s) eqn:E; [by left|right]. intros Hdead%Hd. apply (Hs s Hin) in Hdead. congruence. }
  eexists. split; [done|]. split_and!; cbn [savers dead written fst snd].
  - rewrite map_map. rewrite <- Ho. erewrite map_ext; [done|]. intros s. cbn. by destruct (which (owner s)).
  - intros s Hin. apply list_elem_of_fmap in Hin as (t & -> & Ht).
    assert (owner t ∈ started) as Hst by (rewrite <- Ho; by apply list_elem_of_fmap_2).
    specialize (Hasked (owner t) Hst). destruct (which (owner t)) eqn:E; cbn.
    + rewrite Hasked. split; [by left|done].
    + rewrite Hasked, (Hs t Ht). split; [by right|by intros [?|?]].
  - intros i Hi. by apply Hmono, Hd.
  - done.
  - rewrite Hw. symmetry. apply kept_after.
Qed.
Lemma rec_run_ok openable es : forall started asked r, recs_ok openable started asked r -> orderly started asked es ->
  exists r' started' asked', rec_run openable es r = Some r' /\ recs_ok openable started' asked' r'.
Proof.
  induction es as [|e es IH]; intros started asked r Hr Ho; [by eexists r, _, _|]. cbn [rec_run].
  destruct e as [i p|i|i|]; cbn [orderly rec_step] in *.
  - destruct Ho as [Hi Ho]. cbn [mbind option_bind]. apply (IH (i :: started) asked); [|done].
    destruct Hr as (H1 & H2 & H3 & H4 & H5). split_and!; cbn [savers dead written].
    + rewrite map_app, H1. cbn. by rewrite Permutation_app_comm.
    + intros s [Hs| ->%list_elem_of_singleton]%elem_of_app; [by apply H2|]. cbn. split; [done|]. by intros ?%H4.
    + done.
    + intros j Hj. apply elem_of_cons. right. by apply H4.
    + rewrite H5. unfold kept_recordings. by rewrite List.filter_app, map_app, app_nil_r.
  - destruct Ho as [Hi Ho]. destruct (save_ok openable (fun j => (j =? i)%nat) started asked (i :: asked) r Hr) as (x & -> & Hx).
    + intros j _. rewrite elem_of_cons, Nat.eqb_eq. done.
    + destruct Hr as (_ & _ & _ & H4 & _). intros j [->|Hj]%elem_of_cons; auto.
    + intros j Hj. apply elem_of_cons. by right.
    + cbn [mbind option_bind]. by apply (IH started (i :: asked)).
  - destruct Ho as [Hi Ho]. cbn [mbind option_bind]. apply (IH started asked); [|done].
    destruct Hr as (H1 & H2 & H3 & H4 & H5). split_and!; try done. cbn [dead]. intros j [->|Hj]%elem_of_cons; auto.
  - destruct (save_ok openable (fun _ => true) started asked (started ++ asked) r Hr) as (x & -> & Hx).
    + intros j Hj. rewrite elem_of_app. split; [by left|by left].
    + destruct Hr as (_ & _ & _ & H4 & _). intros j [Hj|Hj]%elem_of_app; auto.
    + intros j Hj. apply elem_of_app. by right.
    + cbn [mbind option_bind]. by apply (IH started (started ++ asked)).
Qed.
Lemma watch_from evs : forall elapsed, Sorted (fun a b => a + 500 < b) (elapsed :: watch evs elapsed).
Proof.
  induction evs as [|[m now] evs IH]; intros elapsed; cbn [watch]; [by repeat constructor|]. unfold handleFileAction.
  destruct m; cbn [andb]; [|by apply IH]. destruct (Z.ltb_spec 500 (now - elapsed)); [|by apply IH]. cbn [app].
  constructor; [apply IH|]. constructor. lia.
Qed.

(** * Properties *)

(** Starting performs the steps up to the first that throws, that one included:
    what prepares the instance - the recording and the tags among it - comes before
    any script, the scripts run in the order pre-script, expressions, debugger, file,
    and the application listens to reloads only when all of them succeeded.  Printing
    schemas runs no script. *)
Theorem startup_order (scheme : string -> string) (GUI : bool) (throws : StartAct -> option string) (s : Setup) (c : Cli) :
  let '(performed, err) := AppState_new scheme GUI throws s c in
  (schema c <> None -> Forall (fun a => is_user a = false) performed) /\
  (schema c = None -> exists setup n rest, performed = setup ++ take n (user_code scheme c) ++ rest /\
     Forall (fun a => is_user a = false) setup /\ Forall (fun a => is_user a = false) rest /\
     ((0 < n)%nat -> RegisterArgs ∈ setup /\ (tags c = true -> EnableTags ∈ setup) /\ (gui_app s = true -> EnableGui ∈ setup) /\
        (forall p, GUI = true -> gui_record c = Some p -> StartRecording p ∈ setup)) /\
     (rest <> [] -> n = length (user_code scheme c)) /\
     (throws OnReloadRequest = None -> OnReloadRequest ∈ performed <-> err = None)).
Proof.
  unfold AppState_new. pose proof (perform_spec throws (AppState_acts scheme GUI s c)) as H.
  destruct (perform _ _) as [performed err]. split.
  - intros Hs. assert (Forall (fun a => is_user a = false) (AppState_acts scheme GUI s c)) as Hf.
    { unfold AppState_acts. destruct (schema c); [|done]. rewrite !Forall_app. unfold when, if_present.
      split_and!; repeat case_match; by repeat constructor. }
    destruct err as [e|]; [|by destruct H as [-> _]]. destruct H as (before & a & rest & E & -> & _). rewrite E in Hf.
    apply Forall_app in Hf as [H1 H2]. apply Forall_app. split; [done|]. apply Forall_cons in H2 as [H2 _]. by constructor.
  - intros Hs. destruct (acts_split scheme GUI s c Hs) as (setup & tail & E & Hfs & Hft & Hl & Hargs & Hgui & Htags & Hrec).
    assert (forall n, ((0 < n)%nat -> RegisterArgs ∈ setup /\ (tags c = true -> EnableTags ∈ setup) /\ (gui_app s = true -> EnableGui ∈ setup) /\
        (forall p, GUI = true -> gui_record c = Some p -> StartRecording p ∈ setup))) as Hset by (intros n _; split_and!; auto).
    assert (exists k, performed = take k (AppState_acts scheme GUI s c)) as [k Hk].
    { destruct err as [e|]; [|exists (length performed); destruct H as [-> _]; by rewrite firstn_all].
      destruct H as (before & a & rest & -> & -> & _). exists (length (before ++ [a])). rewrite (cons_middle a before rest), app_assoc. by rewrite take_app_length. }
    set (n := Nat.min (k - length setup) (length (user_code scheme c))).
    exists (take k setup), n, (take (k - length setup - length (user_code scheme c)) tail). split_and!.
    + rewrite Hk, E, !take_app. f_equal. f_equal. unfold n. destruct (Nat.min_spec (k - length setup) (length (user_code scheme c))) as [[? ->]|[? ->]]; [done|].
      by rewrite firstn_all, take_ge.
    + by apply Forall_take.
    + by apply Forall_take.
    + intros Hn. rewrite take_ge by lia. by apply (Hset n).
    + intros Hr. destruct (decide (k - length setup <= length (user_code scheme c))%nat) as [Hle|Hgt]; [|unfold n; lia].
      exfalso. apply Hr. by replace (k - length setup - length (user_code scheme c))%nat with 0%nat by lia.
    + intros Ht. rewrite E in H. destruct Hl as (front & Ef & Hn). rewrite Ef in H. destruct err as [e|].
      * split; [|done]. intros Hin. exfalso. destruct H as (before & a & rest & Eb & -> & Ha & _).
        apply elem_of_app in Hin as [Hin|Hin%list_elem_of_singleton]; [|by subst a; rewrite Ht in Ha].
        destruct rest as [|z rest _] using rev_ind.
        -- apply app_inj_tail in Eb as [-> _]. done.
        -- rewrite app_comm_cons, app_assoc in Eb. apply app_inj_tail in Eb as [-> _]. apply Hn, elem_of_app. by left.
      * destruct H as [-> _]. split; [done|]. intros _. apply elem_of_app. right. by apply list_elem_of_singleton.
Qed.
Definition sample_cli : Cli := {|
  file := Some "main.lua"; exprs := ["x=1"]; gui_no_auto_quit := false; gui_record := Some "rec.json"; gui_replay := None; watch_dirs := ["."];
  pre_reload := None; pre_script := Some "pre.lua"; reload_exec := false; schema := None; tags := true; debug := false; debug_vscode := false;
  debug_host := "127.0.0.1"; debug_port := 8172 |}.
(** The file fails: nothing after it is done. *)
Example startup_order_sample :
  AppState_new (fun _ => "") true (fun a => match a with EvalFile "main.lua" => Some "boom" | _ => None end) {| gui_app := true; shutdownOnLastClosed := true; watching := true |} sample_cli =
  ([NewInstance; QuitOnLastWindow; ConnectShutdown; ConnectSignals; EnableGui; StartRecording "rec.json"; EnableTags; RegisterArgs;
    EvalFile "pre.lua"; Eval "x=1"; EvalFile "main.lua"], Some "boom").
Proof. reflexivity. Qed.

(** When every instance is asked to shut down before it is gone, no handler uses an
    instance that is gone, and every recording is written once, to its file if that
    can be opened, when its instance shuts down or the application quits. *)
Theorem recordings_saved (openable : string -> bool) (es : list RecEvent) : orderly [] [] es ->
  exists r (started asked : list nat), rec_run openable es recs_init = Some r /\ map owner (savers r) ≡ₚ started /\ (forall s, s ∈ savers r -> saved s = true <-> owner s ∈ asked) /\ written r ≡ₚ kept_recordings openable (savers r).
Proof.
  intros Ho. destruct (rec_run_ok openable es [] [] recs_init) as (r & started & asked & E & H1 & H2 & _ & _ & H5); [|done|by exists r, started, asked].
  split_and!; try done; intros ? H; by apply elem_of_nil in H.
Qed.
Lemma recordings_saved_witness : exists r (started asked : list nat),
  rec_run (fun _ => true) [Started 0 "a"; ShutdownRequest 0; Gone 0; Started 1 "a"; AboutToQuit] recs_init = Some r /\ map owner (savers r) ≡ₚ started /\ (forall s, s ∈ savers r -> saved s = true <-> owner s ∈ asked) /\ written r ≡ₚ kept_recordings (fun _ => true) (savers r).
Proof. apply (recordings_saved (fun _ => true)). cbn. set_solver. Defined.
(** An instance whose start fails after [--gui-record] began is gone without a request:
    the handler of [aboutToQuit] then uses it.  A recording is written over that of
    the instance before a reload. *)
Theorem failed_start_dangles :
  rec_run (fun _ => true) [Started 0 "rec.json"; ShutdownRequest 0; Gone 0; Started 1 "rec.json"; Gone 1; AboutToQuit] recs_init = None /\
  (written <$> rec_run (fun _ => true) [Started 0 "rec.json"; ShutdownRequest 0; Gone 0; Started 1 "rec.json"; AboutToQuit] recs_init) =
    Some [("rec.json", 0%nat); ("rec.json", 1%nat)].
Proof. by vm_compute. Qed.

(** Two announcements of a changed file are more than half a second apart; a change
    within half a second of the last one announced is never announced. *)
Theorem watch_spaced (evs : list (bool * Z)) (elapsed : Z) : Sorted (fun a b => a + 500 < b) (elapsed :: watch evs elapsed).
Proof. apply watch_from. Qed.
Theorem watch_drops (now elapsed : Z) : now <= elapsed + 500 -> watch [(true, now)] elapsed = [].
Proof. intros Hn. cbn. unfold handleFileAction. by rewrite (proj2 (Z.ltb_ge _ _)) by lia. Qed.
