(* ===== verification/Timers.v ===== *)
(** * Timers, exits and plugins: parts of [src/src/builtin.cpp]

    [each] and [after] (Module-wide state below), [json_encode], [fmt]'s arguments,
    [__exit_native] and the search of [load_plugin].  A timer is a Lua userdata that
    holds a [QTimer]: it lives until the collector finds it unreachable, and a slot of
    Lua's registry keeps it reachable while it may still fire.  Which slot [luaL_ref]
    hands out is a parameter.  What a callback does is a list of operations. *)
From S2P Require Import Prelude QVariant Utils LuaValues.
Set Warnings "-register-all,-clear-no-such-hyp".

(** ** Timers *)
Definition LUA_NOREF : Z := -2.
Record Timer := {
  slot : Z;                      (* the object name: the registry slot, or LUA_NOREF *)
  singleShot : bool;
  interval : Z;
  active : bool;
  func : bool;                   (* the callback still holds its function *)
  alive : bool                   (* not collected *)
}.
(** [luaL_ref] hands out a slot nothing uses; which one depends on what was released. *)
Class LuaRefs := { fresh_ref : gmap Z nat -> list Z -> Z }.
Class LuaRefsLaws `{LuaRefs} := { fresh_unused : forall r l, 0 <= fresh_ref r l /\ r !! fresh_ref r l = None }.
Record Timers := {
  timers : list Timer;
  registry : gmap Z nat;         (* slots and the timers in them *)
  released : list Z;             (* slots given back, the last one first *)
  held : list nat;               (* the timers a script can reach by itself *)
  fired : list nat               (* calls of callbacks *)
}.
Definition timers_init : Timers := {| timers := []; registry := ∅; released := []; held := []; fired := [] |}.
Definition set_timer (i : nat) (f : Timer -> Timer) (s : Timers) : Timers :=
  {| timers := alter f i (timers s); registry := registry s; released := released s; held := held s; fired := fired s |}.
Definition stopped (t : Timer) : Timer :=
  {| slot := LUA_NOREF; singleShot := singleShot t; interval := interval t; active := false; func := func t; alive := alive t |}.
(** [luaL_unref] does nothing for a reference that is no slot. *)
Definition luaL_unref (r : Z) (s : Timers) : Timers :=
  if 0 <=? r then {| timers := timers s; registry := delete r (registry s); released := r :: released s; held := held s; fired := fired s |} else s.
Definition name_of (i : nat) (s : Timers) : Z := match timers s !! i with Some t => slot t | None => LUA_NOREF end.

(** [each] and [after]; Qt does not start a timer with a negative interval. *)
Definition timer `{LuaRefs} (period : Z) (oneshot : bool) (s : Timers) : Timers * res nat :=
  if period <? 0 then (s, Raise ("each(): Negative period passed: -" +:+ to_string (- period)))
  else
    let i := length (timers s) in
    let r := fresh_ref (registry s) (released s) in
    let ms := wraps 32 period in
    let t := {| slot := r; singleShot := oneshot; interval := ms; active := 0 <=? ms; func := true; alive := true |} in
    ({| timers := timers s ++ [t]; registry := <[r := i]> (registry s); released := released s; held := i :: held s; fired := fired s |}, Ok i).
Definition Each `{LuaRefs} (period : Z) : Timers -> Timers * res nat := timer period false.
Definition After `{LuaRefs} (period : Z) : Timers -> Timers * res nat := timer period true.
(** [Stop]: an object that is not a timer is refused by Lua. *)
Definition stopTimer (i : nat) (s : Timers) : Timers :=
  set_timer i stopped (luaL_unref (name_of i s) s).

(** What a script does, at the top or in a callback: it can only name what it holds. *)
Inductive Op := OTimer (period : Z) (oneshot : bool) | OStop (i : nat) | ODrop (i : nat) | OTake (i : nat) | OCollect.
Definition in_registry (i : nat) (s : Timers) : bool := existsb (fun p => (p.2 =? i)%nat) (map_to_list (registry s)).
(** The collector: what neither the script nor the registry reaches is destroyed. *)
Definition collect (s : Timers) : Timers :=
  {| timers := imap (fun i t => if (bool_decide (i ∈ held s) || in_registry i s)%bool then t
       else {| slot := slot t; singleShot := singleShot t; interval := interval t; active := false; func := func t; alive := false |}) (timers s);
     registry := registry s; released := released s; held := held s; fired := fired s |}.
Definition set_held (l : list nat) (s : Timers) : Timers :=
  {| timers := timers s; registry := registry s; released := released s; held := l; fired := fired s |}.
Definition do_op `{LuaRefs} (o : Op) (s : Timers) : Timers :=
  match o with
  | OTimer p b => (timer p b s).1
  | OStop i => if bool_decide (i ∈ held s) then stopTimer i s else s
  | ODrop i => set_held (List.filter (fun j => negb (j =? i)%nat) (held s)) s
  | OTake i => if bool_decide (i ∈ held s) then set_held (i :: held s) s else s
  | OCollect => collect s
  end.
Definition do_ops `{LuaRefs} (l : list Op) (s : Timers) : Timers := fold_left (fun s o => do_op o s) l s.
(** A timeout: a single shot stops before its callback runs; what follows the call
    is [None] when the timer was collected meanwhile, and so is the call of a
    callback without its function. *)
Definition set_active (b : bool) (t : Timer) : Timer :=
  {| slot := slot t; singleShot := singleShot t; interval := interval t; active := b; func := func t; alive := alive t |}.
Definition fired_once (t : Timer) : Timer :=
  {| slot := LUA_NOREF; singleShot := singleShot t; interval := interval t; active := active t; func := false; alive := alive t |}.
Definition expire (i : nat) (s : Timers) : Timers :=
  let s := set_timer i (fun t => set_active (negb (singleShot t)) t) s in
  {| timers := timers s; registry := registry s; released := released s; held := held s; fired := fired s ++ [i] |}.
Definition after_call (i : nat) (s : Timers) : option Timers :=
  t ← timers s !! i;
  if negb (alive t) then None
  else if singleShot t then Some (set_timer i fired_once (luaL_unref (name_of i s) s))
  else Some s.
Definition fire `{LuaRefs} (i : nat) (callback : list Op) (s : Timers) : option Timers :=
  match timers s !! i with
  | Some t =>
      if active t then if func t then after_call i (do_ops callback (expire i s)) else None else Some s
  | None => Some s
  end.
(** [Instance::Shutdown] stops the timers; nothing else about them changes. *)
Definition stop_all (s : Timers) : Timers :=
  {| timers := map (set_active false) (timers s);
     registry := registry s; released := released s; held := held s; fired := fired s |}.
Inductive TimerEvent := EOp (o : Op) | EFire (i : nat) (callback : list Op) | EShutdown.
Definition timer_event `{LuaRefs} (e : TimerEvent) (s : Timers) : option Timers :=
  match e with EOp o => Some (do_op o s) | EFire i cb => fire i cb s | EShutdown => Some (stop_all s) end.
Fixpoint timer_run `{LuaRefs} (es : list TimerEvent) (s : Timers) : option Timers :=
  match es with [] => Some s | e :: es => s ← timer_event e s; timer_run es s end.

(** ** What holds of them *)
Record inv (s : Timers) : Prop := {
  inv_slot : forall i t, timers s !! i = Some t -> slot t = LUA_NOREF \/ (0 <= slot t /\ registry s !! slot t = Some i);
  inv_active : forall i t, timers s !! i = Some t -> active t = true -> 0 <= slot t /\ func t = true;
  inv_dead : forall i t, timers s !! i = Some t -> alive t = false -> slot t = LUA_NOREF;
  inv_reg : forall r i, registry s !! r = Some i -> 0 <= r /\ exists t, timers s !! i = Some t /\ slot t = r;
  inv_held : forall i, i ∈ held s -> (i < length (timers s))%nat;
  inv_fired : forall i, i ∈ fired s -> (i < length (timers s))%nat;
  inv_once : forall i t, timers s !! i = Some t -> singleShot t = true ->
    (count_occ Nat.eq_dec (fired s) i + (if active t then 1 else 0) <= 1)%nat
}.
Lemma inv_init : inv timers_init.
Proof. split; cbn; intros; try (rewrite ?lookup_nil in *; done); set_solver. Qed.
Lemma in_registry_lookup (i : nat) (s : Timers) (r : Z) : registry s !! r = Some i -> in_registry i s = true.
Proof.
  intros H. apply existsb_exists. exists (r, i). split; [|apply Nat.eqb_refl].
  apply list_elem_of_In, elem_of_map_to_list. exact H.
Qed.

(** A step changes one timer in place: what it must keep for the invariant. *)
Lemma inv_alter (i : nat) (f : Timer -> Timer) (s : Timers) :
  (forall t, timers s !! i = Some t -> slot (f t) = slot t /\ singleShot (f t) = singleShot t /\
     (active (f t) = true -> active t = true) /\ (active (f t) = true -> func (f t) = func t) /\ alive (f t) = alive t) ->
  inv s -> inv (set_timer i f s).
Proof.
  intros Hf [H1 H2 H3 H4 H5 H6 H7].
  assert (G : forall j t, timers (set_timer i f s) !! j = Some t -> exists t0, timers s !! j = Some t0 /\
     slot t = slot t0 /\ singleShot t = singleShot t0 /\ (active t = true -> active t0 = true) /\ (active t = true -> func t = func t0) /\ alive t = alive t0).
  { intros j t. cbn. destruct (decide (i = j)) as [<-|Hn].
    - rewrite list_lookup_alter_eq. intros (t0 & E & ->)%fmap_Some. destruct (Hf t0 E) as (? & ? & ? & ? & ?). eauto 10.
    - rewrite list_lookup_alter_ne by done. eauto 10. }
  split; cbn [registry set_timer held fired].
  - intros j t (t0 & E & -> & _)%G. eauto.
  - intros j t (t0 & E & Hs & _ & Ha & Hfu & _)%G A. rewrite Hs, (Hfu A). eauto.
  - intros j t (t0 & E & -> & _ & _ & _ & ->)%G. eauto.
  - intros r j (Hr & t & E & <-)%H4. split; [done|]. cbn. destruct (decide (i = j)) as [<-|Hn].
    + rewrite list_lookup_alter_eq, E. exists (f t). split; [done|]. apply (Hf t E).
    + rewrite list_lookup_alter_ne by done. eauto.
  - intros j Hj%H5. cbn. by rewrite length_alter.
  - intros j Hj%H6. cbn. by rewrite length_alter.
  - intros j t (t0 & E & _ & Hs & Ha & _)%G S. rewrite Hs in S. specialize (H7 j t0 E S).
    destruct (active t), (active t0); lia.
Qed.

(** Giving back a timer's slot. *)
Lemma inv_release (i : nat) (f : Timer -> Timer) (s : Timers) :
  (forall t, timers s !! i = Some t -> slot (f t) = LUA_NOREF /\ singleShot (f t) = singleShot t /\ active (f t) = false) ->
  inv s -> inv (set_timer i f (luaL_unref (name_of i s) s)).
Proof.
  intros Hf Hi. set (s' := luaL_unref (name_of i s) s).
  assert (T : timers s' = timers s /\ held s' = held s /\ fired s' = fired s) by (unfold s', luaL_unref; by destruct (0 <=? _)).
  destruct T as (T1 & T2 & T3).
  assert (R : forall r j, registry s' !! r = Some j <-> registry s !! r = Some j /\ j <> i).
  { intros r j. unfold s', luaL_unref, name_of. destruct (timers s !! i) as [t|] eqn:E.
    - pose proof (inv_slot s Hi i t E) as [S|[S0 S]].
      + rewrite S. cbn. split; [|tauto]. intros H. split; [done|]. intros ->.
        apply (inv_reg s Hi) in H as (? & t' & E' & ?). replace t' with t in * by congruence. unfold LUA_NOREF in *. lia.
      + rewrite (proj2 (Z.leb_le _ _) S0). cbn. rewrite lookup_delete_Some. split.
        * intros [Hn H]. split; [done|]. intros ->. apply Hn.
          apply (inv_reg s Hi) in H as (? & t' & E' & ?). congruence.
        * intros [H Hn]. split; [|done]. intros <-. congruence.
    - cbn. split; [|tauto]. intros H. split; [done|]. intros ->.
      apply (inv_reg s Hi) in H as (? & t' & E' & ?). congruence. }
  assert (G : forall j t, timers (set_timer i f s') !! j = Some t -> j <> i /\ timers s !! j = Some t \/
     j = i /\ exists t0, timers s !! j = Some t0 /\ t = f t0).
  { intros j t. cbn. rewrite T1. destruct (decide (i = j)) as [<-|Hn].
    - rewrite list_lookup_alter_eq. intros (t0 & E & ->)%fmap_Some. eauto.
    - rewrite list_lookup_alter_ne by done. eauto. }
  split; cbn [registry set_timer held fired].
  - intros j t [[Hn E]|[-> (t0 & E & ->)]]%G; [|left; apply (Hf t0 E)].
    destruct (inv_slot s Hi j t E) as [?|[??]]; [by left|right]. split; [done|]. by apply R.
  - intros j t [[Hn E]|[-> (t0 & E & ->)]]%G A; [by apply (inv_active s Hi j)|].
    destruct (Hf t0 E) as (_ & _ & A'). congruence.
  - intros j t [[Hn E]|[-> (t0 & E & ->)]]%G A; [by apply (inv_dead s Hi j)|]. apply (Hf t0 E).
  - intros r j [H Hn]%R. destruct (inv_reg s Hi r j H) as (? & t & E & S). split; [done|]. exists t. split; [|done].
    cbn. rewrite list_lookup_alter_ne by done. by rewrite T1.
  - intros j. cbn. rewrite length_alter, T1, T2. apply (inv_held s Hi).
  - intros j. cbn. rewrite length_alter, T1, T3. apply (inv_fired s Hi).
  - rewrite T3. intros j t [[Hn E]|[-> (t0 & E & ->)]]%G S; [by apply (inv_once s Hi j)|].
    destruct (Hf t0 E) as (_ & S' & A). rewrite A. rewrite S' in S.
    pose proof (inv_once s Hi i t0 E S). destruct (active t0); lia.
Qed.

Lemma inv_stopTimer (i : nat) (s : Timers) : inv s -> inv (stopTimer i s).
Proof. apply inv_release. intros t _. done. Qed.
Lemma inv_set_held (l : list nat) (s : Timers) : (forall i, i ∈ l -> i ∈ held s) -> inv s -> inv (set_held l s).
Proof. intros Hl [H1 H2 H3 H4 H5 H6 H7]. split; cbn; eauto. Qed.
Lemma lookup_collect (s : Timers) (i : nat) (t : Timer) : inv s -> timers (collect s) !! i = Some t ->
  exists t0, timers s !! i = Some t0 /\ (t = t0 \/ slot t0 = LUA_NOREF /\ slot t = LUA_NOREF /\ singleShot t = singleShot t0 /\ active t = false /\ alive t = false /\ (i ∉ held s)).
Proof.
  intros Hi. cbn. rewrite list_lookup_imap. intros (t0 & E & ->)%fmap_Some. exists t0. split; [done|].
  case_bool_decide as Hh; [by left|]. destruct (in_registry i s) eqn:R; [by left|right]. cbn.
  destruct (inv_slot s Hi i t0 E) as [S|[_ S]]; [done|]. apply in_registry_lookup in S. congruence.
Qed.
Lemma collect_lookup (s : Timers) (i : nat) (t0 : Timer) : timers s !! i = Some t0 ->
  exists t, timers (collect s) !! i = Some t.
Proof. intros E. cbn. rewrite list_lookup_imap, E. cbn. eauto. Qed.
Lemma inv_collect (s : Timers) : inv s -> inv (collect s).
Proof.
  intros Hi. pose proof (lookup_collect s) as G.
  split; cbn [registry collect held fired timers].
  - intros i t (t0 & E & [->|(S & S' & _)])%G; [by apply (inv_slot s Hi)|by left|done].
  - intros i t (t0 & E & [->|(S & S' & _ & A & _)])%G A'; [by apply (inv_active s Hi i)|congruence|done].
  - intros i t (t0 & E & [->|(S & S' & _)])%G A'; [by apply (inv_dead s Hi i)|done|done].
  - intros r i H. destruct (inv_reg s Hi r i H) as (Hr & t0 & E & S). split; [done|].
    destruct (collect_lookup s i t0 E) as (t & E'). exists t. split; [exact E'|].
    destruct (G i t Hi E') as (t1 & E1 & [->|(S1 & _)]); [congruence|].
    replace t1 with t0 in S1 by congruence. unfold LUA_NOREF in *. lia.
  - intros i. rewrite length_imap. apply (inv_held s Hi).
  - intros i. rewrite length_imap. apply (inv_fired s Hi).
  - intros i t (t0 & E & [->|(S & S' & Hs & A & _)])%G Hso; [by apply (inv_once s Hi i)| |done].
    rewrite A. rewrite Hs in Hso. pose proof (inv_once s Hi i t0 E Hso). destruct (active t0); lia.
Qed.

Section timers.
Context `{LuaRefsLaws}.
Lemma count_new (s : Timers) : inv s -> count_occ Nat.eq_dec (fired s) (length (timers s)) = 0%nat.
Proof.
  intros Hi. apply count_occ_not_In. rewrite <- list_elem_of_In. intros F%(inv_fired s Hi). lia.
Qed.
Lemma inv_timer (p : Z) (b : bool) (s : Timers) : inv s -> inv (timer p b s).1.
Proof.
  intros Hi. unfold timer. destruct (p <? 0); [done|]. cbn [fst].
  destruct (fresh_unused (registry s) (released s)) as [F0 F]. set (r := fresh_ref _ _) in *. set (t := Build_Timer _ _ _ _ _ _).
  assert (G : forall j t', (timers s ++ [t]) !! j = Some t' -> timers s !! j = Some t' /\ (j < length (timers s))%nat \/ j = length (timers s) /\ t' = t).
  { intros j t' [E|[? E]]%lookup_app_Some.
    - left. split; [done|]. by eapply lookup_lt_Some.
    - right. apply list_lookup_singleton_Some in E as [? <-]. split; [lia|done]. }
  split; cbn [timers registry held fired].
  - intros i t' [[E L]|[-> ->]]%G.
    + destruct (inv_slot s Hi i t' E) as [?|[? S]]; [by left|right]. split; [done|].
      rewrite lookup_insert_ne; [done|]. intros ->. congruence.
    + right. split; [done|]. apply lookup_insert_eq.
  - intros i t' [[E L]|[-> ->]]%G; [by apply (inv_active s Hi i)|done].
  - intros i t' [[E L]|[-> ->]]%G; [by apply (inv_dead s Hi i)|done].
  - intros q i. rewrite lookup_insert_Some. intros [[<- <-]|[Hn (Hq & t' & E & S)%(inv_reg s Hi)]].
    + split; [done|]. exists t. by rewrite lookup_app_r, Nat.sub_diag by lia.
    + split; [done|]. exists t'. split; [|done]. by apply lookup_app_l_Some.
  - intros i. intros Hh. apply list_elem_of_In in Hh as [<-|Hh]; rewrite length_app; cbn; [lia|]. apply list_elem_of_In, (inv_held s Hi) in Hh. lia.
  - intros i. rewrite length_app. cbn. intros Hf%(inv_fired s Hi). lia.
  - intros i t' [[E L]|[-> ->]]%G S; [by apply (inv_once s Hi i)|].
    rewrite count_new by done. destruct (active t); lia.
Qed.
Lemma inv_do_op (o : Op) (s : Timers) : inv s -> inv (do_op o s).
Proof.
  intros Hi. destruct o as [p b|i|i|i|]; cbn [do_op].
  - by apply inv_timer.
  - case_bool_decide; [by apply inv_stopTimer|done].
  - apply inv_set_held; [|done]. intros j. rewrite !list_elem_of_In, filter_In. tauto.
  - case_bool_decide; [|done]. apply inv_set_held; [|done]. set_solver.
  - by apply inv_collect.
Qed.
Lemma inv_do_ops (l : list Op) (s : Timers) : inv s -> inv (do_ops l s).
Proof. revert s. induction l; intros s Hi; [done|]. apply IHl, inv_do_op, Hi. Qed.

(** A step never starts a timer again, and only a timeout adds to the calls. *)
Definition quieter (s s' : Timers) : Prop :=
  forall i t, timers s !! i = Some t -> exists t', timers s' !! i = Some t' /\ singleShot t' = singleShot t /\ (active t = false -> active t' = false).
#[export] Instance quieter_preorder : PreOrder quieter.
Proof.
  split.
  - intros s i t E. eauto.
  - intros s1 s2 s3 H1 H2 i t E. destruct (H1 i t E) as (t2 & E2 & S2 & A2). destruct (H2 i t2 E2) as (t3 & E3 & S3 & A3).
    exists t3. repeat split; [done|congruence|auto].
Qed.
Lemma quieter_same (s s' : Timers) : timers s' = timers s -> quieter s s'.
Proof. intros E0 i t E. rewrite E0. eauto. Qed.
Lemma quieter_set (i : nat) (f : Timer -> Timer) (s s' : Timers) : timers s' = timers s ->
  (forall t, singleShot (f t) = singleShot t) -> (forall t, timers s !! i = Some t -> active t = false -> active (f t) = false) -> quieter s (set_timer i f s').
Proof.
  intros E0 Hs Ha j t E. cbn. rewrite E0. destruct (decide (i = j)) as [<-|Hn].
  - rewrite list_lookup_alter_eq, E. exists (f t). eauto.
  - rewrite list_lookup_alter_ne by done. eauto.
Qed.
Lemma unref_timers (r : Z) (s : Timers) : timers (luaL_unref r s) = timers s /\ fired (luaL_unref r s) = fired s.
Proof. unfold luaL_unref. by destruct (0 <=? r). Qed.
Lemma do_op_quieter (o : Op) (s : Timers) : inv s -> quieter s (do_op o s) /\ fired (do_op o s) = fired s.
Proof.
  intros Hi. destruct o as [p b|i|i|i|]; cbn [do_op].
  - unfold timer. destruct (p <? 0); [by split|]. split; [|done]. intros i t E. exists t. split; [|done]. cbn. by apply lookup_app_l_Some.
  - case_bool_decide; [|by split]. destruct (unref_timers (name_of i s) s). split; [|done]. by apply quieter_set.
  - split; [by apply quieter_same|done].
  - case_bool_decide; split; by try apply quieter_same.
  - split; [|done]. intros i t E. destruct (collect_lookup s i t E) as (t' & E'). exists t'. split; [done|].
    destruct (lookup_collect s i t' Hi E') as (t0 & E0 & [->|(_ & _ & S & A & _)]); replace t0 with t in * by congruence; auto.
Qed.
Lemma do_ops_quieter (l : list Op) (s : Timers) : inv s -> quieter s (do_ops l s) /\ fired (do_ops l s) = fired s.
Proof.
  revert s. induction l as [|o l IH]; intros s Hi; [done|]. cbn.
  destruct (do_op_quieter o s Hi) as [Q F]. destruct (IH (do_op o s) (inv_do_op o s Hi)) as [Q' F'].
  split; [by etransitivity|]. by transitivity (fired (do_op o s)).
Qed.

Lemma inv_expire (i : nat) (t : Timer) (s : Timers) : timers s !! i = Some t -> active t = true -> inv s -> inv (expire i s).
Proof.
  intros E A Hi. set (f := fun t => set_active (negb (singleShot t)) t).
  assert (Ia : inv (set_timer i f s)).
  { apply inv_alter; [|done]. intros t0 E0. replace t0 with t by congruence. unfold f. cbn. rewrite A. by destruct (singleShot t). }
  destruct Ia as [H1 H2 H3 H4 H5 H6 H7]. split; cbn [expire timers registry held fired]; try done.
  - intros j [Hj|Hj]%elem_of_app; [by apply H6|]. apply list_elem_of_singleton in Hj as ->.
    cbn. rewrite length_alter. by eapply lookup_lt_Some.
  - intros j t0 E0 S. rewrite count_occ_app. cbn. destruct (Nat.eq_dec i j) as [<-|Hn].
    + cbn in E0. rewrite list_lookup_alter_eq, E in E0. cbn in E0. injection E0 as <-. cbn in S |- *. rewrite S. cbn.
      pose proof (inv_once s Hi i t E S) as Hc. rewrite A in Hc. lia.
    + specialize (H7 j t0 E0 S). cbn in H7. lia.
Qed.
Lemma expire_quieter (i : nat) (t : Timer) (s : Timers) : timers s !! i = Some t -> active t = true -> quieter s (expire i s).
Proof.
  intros E A. unfold expire. intros j t0 E0.
  assert (Q : quieter s (set_timer i (fun t => set_active (negb (singleShot t)) t) s)) by (apply quieter_set; [done..|congruence]).
  destruct (Q j t0 E0) as (t' & E' & ?). exists t'. eauto.
Qed.
Lemma fire_spec (i : nat) (cb : list Op) (s s' : Timers) : inv s -> fire i cb s = Some s' ->
  inv s' /\ quieter s s' /\ (fired s' = fired s \/ exists t, timers s !! i = Some t /\ active t = true /\ fired s' = fired s ++ [i]).
Proof.
  intros Hi. unfold fire. destruct (timers s !! i) as [t|] eqn:E; [|intros [= <-]; split_and!; [done|reflexivity|by left]].
  destruct (active t) eqn:A; [|intros [= <-]; split_and!; [done|reflexivity|by left]]. destruct (func t); [|done].
  pose proof (inv_expire i t s E A Hi) as Ie. pose proof (expire_quieter i t s E A) as Qe.
  destruct (do_ops_quieter cb (expire i s) Ie) as [Qo Fo]. apply inv_do_ops with (l := cb) in Ie as Io.
  set (s1 := do_ops cb (expire i s)) in *. unfold after_call.
  destruct (timers s1 !! i) as [t1|] eqn:E1; [|done]. cbn. destruct (negb (alive t1)); [done|].
  assert (Q1 : quieter s s1) by (by etransitivity).
  destruct (singleShot t1) eqn:S1; intros [= <-]; [|split; [done|split; [done|]]; right; exists t; by rewrite Fo].
  assert (A1 : active t1 = false).
  { destruct (Qo i (set_active (negb (singleShot t)) t)) as (t2 & E2 & S2 & A2).
    { cbn. rewrite list_lookup_alter_eq, E. done. }
    replace t2 with t1 in * by congruence. apply A2. cbn in *. by rewrite <- S2, S1. }
  destruct (unref_timers (name_of i s1) s1) as [U1 U2]. split; [|split].
  - apply inv_release; [|done]. intros t2 E2. replace t2 with t1 by congruence. done.
  - etransitivity; [exact Q1|]. apply quieter_set; [done..|]. intros t2 E2. replace t2 with t1 by congruence. done.
  - right. exists t. cbn. by rewrite U2, Fo.
Qed.

Lemma stop_all_spec (s : Timers) : inv s -> inv (stop_all s) /\ quieter s (stop_all s).
Proof.
  intros [H1 H2 H3 H4 H5 H6 H7].
  assert (G : forall i t, timers (stop_all s) !! i = Some t -> exists t0, timers s !! i = Some t0 /\ t = set_active false t0).
  { intros i t. cbn. rewrite list_lookup_fmap. intros (t0 & E & ->)%fmap_Some. eauto. }
  split.
  - split; cbn [stop_all registry held fired timers]; try (intros i t (t0 & E & ->)%G; cbn; eauto; fail).
    + by intros i t (t0 & E & ->)%G.
    + intros r i (? & t & E & ?)%H4. split; [done|]. exists (set_active false t). by rewrite list_lookup_fmap, E.
    + intros i. rewrite length_map. apply H5.
    + intros i. rewrite length_map. apply H6.
    + intros i t (t0 & E & ->)%G S. specialize (H7 i t0 E S). cbn. lia.
  - intros i t E. exists (set_active false t). cbn. by rewrite list_lookup_fmap, E.
Qed.
Lemma timer_event_spec (e : TimerEvent) (s s' : Timers) : inv s -> timer_event e s = Some s' ->
  inv s' /\ quieter s s' /\ (forall i t, timers s !! i = Some t -> active t = false -> count_occ Nat.eq_dec (fired s') i = count_occ Nat.eq_dec (fired s) i).
Proof.
  intros Hi. destruct e as [o|i cb|]; cbn [timer_event].
  - intros [= <-]. destruct (do_op_quieter o s Hi) as [Q F]. rewrite F. auto using inv_do_op.
  - intros (I' & Q & F)%fire_spec; [|done]. split; [done|]. split; [done|]. intros j t E A.
    destruct F as [->|(t' & E' & A' & ->)]; [done|]. rewrite count_occ_app. cbn.
    destruct (Nat.eq_dec i j) as [<-|]; [congruence|lia].
  - intros [= <-]. destruct (stop_all_spec s Hi). auto.
Qed.
Lemma timer_run_spec (es : list TimerEvent) (s s' : Timers) : inv s -> timer_run es s = Some s' ->
  inv s' /\ (forall i t, timers s !! i = Some t -> active t = false -> count_occ Nat.eq_dec (fired s') i = count_occ Nat.eq_dec (fired s) i).
Proof.
  revert s. induction es as [|e es IH]; intros s Hi; cbn; [intros [= <-]; auto|].
  destruct (timer_event e s) as [s1|] eqn:E1; [|done]. cbn. intros R.
  destruct (timer_event_spec e s s1 Hi E1) as (I1 & Q1 & C1). destruct (IH s1 I1 R) as [I' C']. split; [done|].
  intros i t E A. destruct (Q1 i t E) as (t1 & E' & _ & A1). rewrite (C' i t1 E' (A1 A)). by eapply C1.
Qed.

(** A callback that does not stop its own timer does not lose it. *)
Definition keeps_own (e : TimerEvent) : Prop := match e with EFire i cb => OStop i ∉ cb | _ => True end.
Definition rooted (i : nat) (s : Timers) : Prop := exists t, timers s !! i = Some t /\ 0 <= slot t.
Lemma do_op_rooted (i : nat) (o : Op) (s : Timers) : inv s -> o <> OStop i -> rooted i s -> rooted i (do_op o s).
Proof.
  intros Hi Ho (t & E & S). destruct o as [p b|j|j|j|]; cbn [do_op].
  - unfold timer. destruct (p <? 0); exists t; [done|]. split; [|done]. cbn. by apply lookup_app_l_Some.
  - case_bool_decide; exists t; [|done]. split; [|done]. unfold stopTimer. destruct (unref_timers (name_of j s) s) as [U _].
    cbn. rewrite U. rewrite list_lookup_alter_ne; [done|congruence].
  - by exists t.
  - case_bool_decide; by exists t.
  - destruct (collect_lookup s i t E) as (t' & E'). exists t'. split; [done|].
    destruct (lookup_collect s i t' Hi E') as (t0 & E0 & [->|(S0 & _)]); replace t0 with t in * by congruence; [done|].
    unfold LUA_NOREF in *. lia.
Qed.
Lemma do_ops_rooted (i : nat) (l : list Op) (s : Timers) : inv s -> OStop i ∉ l -> rooted i s -> rooted i (do_ops l s).
Proof.
  revert s. induction l as [|o l IH]; intros s Hi Hl Hr; [done|]. change (do_ops (o :: l) s) with (do_ops l (do_op o s)).
  apply IH; [by apply inv_do_op|set_solver|]. apply do_op_rooted; [done|set_solver|done].
Qed.
Lemma fire_defined (i : nat) (cb : list Op) (s : Timers) : inv s -> OStop i ∉ cb -> is_Some (fire i cb s).
Proof.
  intros Hi Hc. unfold fire. destruct (timers s !! i) as [t|] eqn:E; [|eauto]. destruct (active t) eqn:A; [|eauto].
  destruct (inv_active s Hi i t E A) as [S ->]. pose proof (inv_expire i t s E A Hi) as Ie.
  destruct (do_ops_rooted i cb (expire i s) Ie Hc) as (t1 & E1 & S1).
  { exists (set_active (negb (singleShot t)) t). cbn. by rewrite list_lookup_alter_eq, E. }
  unfold after_call. rewrite E1. cbn. pose proof (inv_dead _ (inv_do_ops cb _ Ie) i t1 E1) as D.
  destruct (alive t1); [cbn; destruct (singleShot t1); eauto|]. specialize (D eq_refl). unfold LUA_NOREF in *. lia.
Qed.
Lemma timer_run_defined (es : list TimerEvent) (s : Timers) : inv s -> Forall keeps_own es -> is_Some (timer_run es s).
Proof.
  intros Hi Hk. revert s Hi. induction Hk as [|e es K Hk IH]; intros s Hi; cbn; [eauto|].
  assert (is_Some (timer_event e s)) as [s1 E1] by (destruct e; cbn in *; eauto using fire_defined).
  rewrite E1. cbn. apply IH. by apply (timer_event_spec e s s1).
Qed.

(** C18: timers do what the script asked while no callback stops its own timer: every run
    reaches its end (no timer is touched after its collection), an active timer is never
    collected and its callback is still there, a stopped one never fires again, and a single
    shot fires at most once however the events are ordered. *)
Theorem timers_run_safely (es es' : list TimerEvent) : Forall keeps_own (es ++ es') ->
  exists s s', timer_run es timers_init = Some s /\ timer_run es' s = Some s' /\
    forall i t, timers s !! i = Some t ->
      (active t = true -> alive t = true /\ func t = true /\ registry s !! slot t = Some i) /\
      (active t = false -> count_occ Nat.eq_dec (fired s') i = count_occ Nat.eq_dec (fired s) i) /\
      (singleShot t = true -> (count_occ Nat.eq_dec (fired s) i <= 1)%nat).
Proof.
  intros [K K']%Forall_app. destruct (timer_run_defined es _ inv_init K) as [s R].
  destruct (timer_run_spec es _ s inv_init R) as [Hi _]. destruct (timer_run_defined es' s Hi K') as [s' R'].
  destruct (timer_run_spec es' s s' Hi R') as [_ C]. exists s, s'. split; [done|]. split; [done|]. intros i t E. repeat split.
  - destruct (inv_active s Hi i t E H1) as [S _]. destruct (alive t) eqn:A; [done|].
    apply (inv_dead s Hi i t E) in A. unfold LUA_NOREF in *. lia.
  - apply (inv_active s Hi i t E H1).
  - destruct (inv_active s Hi i t E H1) as [S _]. destruct (inv_slot s Hi i t E) as [S'|[_ S']]; [|done]. unfold LUA_NOREF in *. lia.
  - intros A. by apply (C i t).
  - intros S. pose proof (inv_once s Hi i t E S). lia.
Qed.
End timers.

(** A registry that numbers its slots upwards. *)
#[export] Instance counting_refs : LuaRefs := {| fresh_ref r _ := map_fold (fun k _ m => Z.max k m) 0 r + 1 |}.
#[export] Instance counting_laws : LuaRefsLaws.
Proof.
  split. intros r l. cbn. set (f := fun (k : Z) (_ : nat) m => Z.max k m).
  assert (G : 0 <= map_fold f 0 r /\ forall k, is_Some (r !! k) -> k <= map_fold f 0 r).
  { apply (map_fold_weak_ind (fun m r => 0 <= m /\ forall k, is_Some (r !! k) -> k <= m)).
    - split; [done|]. intros k [x Hx]. by rewrite lookup_empty in Hx.
    - intros k x r' m _ [H0 Hm]. unfold f. split; [lia|]. intros k' [y Hy].
      apply lookup_insert_Some in Hy as [[<- _]|[_ Hy]]; [lia|]. specialize (Hm k' (mk_is_Some _ _ Hy)). lia. }
  destruct G as [G0 G]. split; [lia|]. destruct (r !! _) eqn:E; [|done].
  specialize (G _ (mk_is_Some _ _ E)). lia.
Defined.
Definition sample_timers : list TimerEvent :=
  [EOp (OTimer 100 false); EOp (OTimer 50 true); EOp (ODrop 0); EOp (ODrop 1); EOp OCollect; EFire 1 [OTimer 5 true; OCollect]; EFire 0 []].
Lemma timers_run_safely_witness :
  Forall keeps_own (sample_timers ++ [EFire 1 []; EFire 0 [OCollect]]) /\
  exists s s', timer_run sample_timers timers_init = Some s /\ timer_run [EFire 1 []; EFire 0 [OCollect]] s = Some s' /\
    forall i t, timers s !! i = Some t ->
      (active t = true -> alive t = true /\ func t = true /\ registry s !! slot t = Some i) /\
      (active t = false -> count_occ Nat.eq_dec (fired s') i = count_occ Nat.eq_dec (fired s) i) /\
      (singleShot t = true -> (count_occ Nat.eq_dec (fired s) i <= 1)%nat).
Proof.
  assert (K : Forall keeps_own (sample_timers ++ [EFire 1 []; EFire 0 [OCollect]])).
  { repeat constructor; cbn; set_solver. }
  split; [exact K|]. apply (timers_run_safely sample_timers [EFire 1 []; EFire 0 [OCollect]]). exact K.
Defined.
Example sample_timers_fired : option_map (fun s => (fired s, map active (timers s), map alive (timers s))) (timer_run sample_timers timers_init)
  = Some ([1%nat; 0%nat], [true; false; true], [true; true; true]).
Proof. vm_compute. reflexivity. Qed.

(** What the hypothesis of the theorem above excludes happens: a callback that stops its own
    timer and lets go of it frees the timer as soon as a collection runs inside it, and the
    code after the call reads the freed timer; without the collection the same script is fine. *)
Theorem callback_frees_timer (oneshot : bool) :
  timer_run [EOp (OTimer 100 oneshot); EFire 0 [OStop 0; ODrop 0; OCollect]] timers_init = None /\
  is_Some (timer_run [EOp (OTimer 100 oneshot); EFire 0 [OStop 0; ODrop 0]; EOp OCollect] timers_init).
Proof. destruct oneshot; vm_compute; eauto. Qed.
(** A period past the machine's [int]: 25 days do not start, 50 days fire at once. *)
Example period_wraps :
  (option_map active (timers (Each 2147483648 timers_init).1 !! 0%nat) = Some false) /\
  (option_map interval (timers (Each 4294967296 timers_init).1 !! 0%nat) = Some 0).
Proof. by vm_compute. Qed.
