(* ===== verification/Scripts.v ===== *)
(** * Scripts and their host: the rest of [src/src/instance.cpp], [compat.cpp], [debug.cpp]

    How an instance sets up its globals, loads embedded modules, runs a script from a
    file, a string or an HTTP server, asks for a reload or an exit, connects a debugger
    and is torn down; [load_plugin], [fmt] and [json_encode] of [src/src/builtin.cpp].
    Lua's compiler, the run of a chunk, paths, URLs and Qt's loader are parameters:
    what a chunk does to the host is an arbitrary function. *)
From S2P Require Import Prelude QVariant Utils LuaValues Fibers Functions Instance.
Set Warnings "-register-all,-clear-no-such-hyp".
Import Calls(Outcome, Ret, Throw).

(** A global variable, or an entry of the table of loaded modules. *)
Inductive Global := GValue (v : QVar) | GFunction (name : string) | GTable (fields : list string) | GStub (msg : string) | GModule (name : string).
Inductive HostAct :=
| LogError (cat msg : string)
| AskShutdown                     (* [Shutdown] called *)
| QueueShutdown                   (* [Shutdown] queued on the event loop *)
| QueueReload.
Record Host := {
  globals : gmap string Global;
  preload : gmap string string;
  loaded : gmap string Global;
  package_path : option string;
  searchers : gmap Z string;
  currentFile : option string;
  scriptBaseUrl : string;
  exitCode : Z;
  debuggerActive : Z;
  stack : nat;                    (* values left on the main Lua stack *)
  acts : list HostAct
}.
Definition host_empty : Host :=
  {| globals := ∅; preload := ∅; loaded := ∅; package_path := Some ""; searchers := Modules.table_of ["preload"; "lua"; "c"; "all"];
     currentFile := None; scriptBaseUrl := ""; exitCode := 0; debuggerActive := 0; stack := 0; acts := [] |}.
Definition set_globals (g : gmap string Global) (h : Host) : Host :=
  {| globals := g; preload := preload h; loaded := loaded h; package_path := package_path h; searchers := searchers h; currentFile := currentFile h;
     scriptBaseUrl := scriptBaseUrl h; exitCode := exitCode h; debuggerActive := debuggerActive h; stack := stack h; acts := acts h |}.
Definition set_modules (p : gmap string string) (l : gmap string Global) (h : Host) : Host :=
  {| globals := globals h; preload := p; loaded := l; package_path := package_path h; searchers := searchers h; currentFile := currentFile h;
     scriptBaseUrl := scriptBaseUrl h; exitCode := exitCode h; debuggerActive := debuggerActive h; stack := stack h; acts := acts h |}.
Definition set_search (path : option string) (t : gmap Z string) (h : Host) : Host :=
  {| globals := globals h; preload := preload h; loaded := loaded h; package_path := path; searchers := t; currentFile := currentFile h;
     scriptBaseUrl := scriptBaseUrl h; exitCode := exitCode h; debuggerActive := debuggerActive h; stack := stack h; acts := acts h |}.
Definition set_current (f : option string) (url : string) (h : Host) : Host :=
  {| globals := globals h; preload := preload h; loaded := loaded h; package_path := package_path h; searchers := searchers h; currentFile := f;
     scriptBaseUrl := url; exitCode := exitCode h; debuggerActive := debuggerActive h; stack := stack h; acts := acts h |}.
Definition set_exit (code : Z) (h : Host) : Host :=
  {| globals := globals h; preload := preload h; loaded := loaded h; package_path := package_path h; searchers := searchers h; currentFile := currentFile h;
     scriptBaseUrl := scriptBaseUrl h; exitCode := code; debuggerActive := debuggerActive h; stack := stack h; acts := acts h |}.
Definition set_debugger (d : Z) (n : nat) (h : Host) : Host :=
  {| globals := globals h; preload := preload h; loaded := loaded h; package_path := package_path h; searchers := searchers h; currentFile := currentFile h;
     scriptBaseUrl := scriptBaseUrl h; exitCode := exitCode h; debuggerActive := d; stack := n; acts := acts h |}.
Definition host_act (a : HostAct) (h : Host) : Host :=
  {| globals := globals h; preload := preload h; loaded := loaded h; package_path := package_path h; searchers := searchers h; currentFile := currentFile h;
     scriptBaseUrl := scriptBaseUrl h; exitCode := exitCode h; debuggerActive := debuggerActive h; stack := stack h; acts := acts h ++ [a] |}.
Definition setglobal (name : string) (g : Global) (h : Host) : Host := set_globals (<[name := g]> (globals h)) h.
Definition RegisterGlobal (name : string) (v : QVar) : Host -> Host := setglobal name (GValue v).
Definition RegisterFunc (name : string) : Host -> Host := setglobal name (GFunction name).
Definition SetExitCode : Z -> Host -> Host := set_exit.
Definition ExitCode : Host -> Z := exitCode.
Definition CurrentFile : Host -> option string := currentFile.

(** ** Features that are not there yet *)
Definition registerUnavailable (name msg : string) : Host -> Host := setglobal name (GStub msg).
(** A call or an index of a global; a nil one is Lua's own error. *)
Definition use_global (name : string) (h : Host) : res Global :=
  match globals h !! name with
  | None => Raise "attempt to index a nil value"
  | Some (GStub msg) => Raise msg
  | Some g => Ok g
  end.

(** ** [next_id] *)
Definition fetch_add (curr : Z) : Z * Z := ((curr + 1) mod 2 ^ 32, curr).
Fixpoint gen_ids (n : nat) (curr : Z) : list Z :=
  match n with O => [] | S n => let '(curr, id) := fetch_add curr in id :: gen_ids n curr end.

(** ** What the interpreter, the file system and the network are used for *)
Class ScriptOps {C : Type} := {
  absolute : string -> string;                       (* fs::absolute(fs::weakly_canonical(_)) *)
  parent_path : string -> string;
  loadfile : string -> res C;                        (* luaL_loadfile *)
  loadbuffer : string -> string -> res C;            (* luaL_loadbufferx of a text and a chunk name *)
  resolved : string -> string -> string;             (* QUrl(base).resolved(QUrl(rel)).toString() *)
  embedded : string -> option string;                (* the resource files *)
  marker_text : string;                              (* luaL_tolstring of the exit marker *)
  run : C -> Host -> Host * Outcome unit             (* a chunk up to its first suspension *)
}.
Arguments ScriptOps : clear implicits.

(** ** Embedded modules *)
Section modules.
Context {C : Type} `{SO : ScriptOps C}.
Definition load_builtin (name : string) : res string :=
  match embedded name with Some s => Ok s | None => Raise ("Could not open builtin file: " +:+ name) end.
Definition load_embedded_module (m : string) (h : Host) : Host * res Global :=
  match load_builtin ((":/scripts/" +:+ m) +:+ ".lua") with
  | Raise e => (h, Raise e)
  | Ok src =>
      match loadbuffer src m with
      | Raise e => (h, Raise ((("Could not compile " +:+ m) +:+ ": ") +:+ e))
      | Ok c =>
          match run c h with
          | (h, Ret _) => (h, Ok (GModule m))
          | (h, Throw (Err e)) => (h, Raise ((("Could not load " +:+ m) +:+ ": ") +:+ e))
          | (h, Throw ForcedShutdown) => (h, Raise ((("Could not load " +:+ m) +:+ ": ") +:+ marker_text))
          end
      end
  end.
(** [luaL_requiref] under [prequiref]: what [openf] gives is loaded once. *)
Definition prequiref (name : string) (openf : string -> Host -> Host * res Global) (glb : bool) (h : Host) : Host * res unit :=
  let '(h, r) :=
    match loaded h !! name with
    | Some g => (h, Ok g)
    | None => let '(h, r) := openf name h in
              match r with Ok g => (set_modules (preload h) (<[name := g]> (loaded h)) h, Ok g) | Raise e => (h, Raise e) end
    end in
  match r with
  | Ok g => (set_debugger (debuggerActive h) (S (stack h)) (if glb then setglobal name g h else h), Ok tt)
  | Raise e => (set_debugger (debuggerActive h) (S (stack h)) h, Raise ("prequire: " +:+ e))
  end.
Definition LoadEmbedGlobal : Z := 1.
Definition LoadEmbedNoPop : Z := 1.
Definition lua_pop (n : nat) (h : Host) : Host := set_debugger (debuggerActive h) (stack h - n) h.
Definition LoadEmbeddedFile (name : string) (opts : Z) (h : Host) : Host * res unit :=
  let '(h, r) := prequiref name load_embedded_module (negb (Z.land opts LoadEmbedGlobal =? 0)) h in
  match r with
  | Raise e => (h, Raise e)
  | Ok _ => (if Z.land opts LoadEmbedNoPop =? 0 then lua_pop 1 h else h, Ok tt)
  end.
Definition set_preload (name openf : string) (h : Host) : Host := set_modules (<[name := openf]> (preload h)) (loaded h) h.

(** ** Running a script *)
Definition runChunkOnFiber (c : C) (what : string) (h : Host) : Host * Outcome unit :=
  match run c h with
  | (h, Throw (Err e)) => (h, Throw (Err ((what +:+ (" error:" +:+ String (ascii_of_nat 10) (String (ascii_of_nat 9) ""))) +:+ e)))
  | r => r
  end.
Definition EvalFile (path : string) (h : Host) : Host * Outcome unit :=
  let path := absolute path in
  let was := currentFile h in
  let h := set_current (Some path) (scriptBaseUrl h) h in
  let '(h, r) :=
    match loadfile path with
    | Raise e => (h, Throw (Err ((("Error loading file " +:+ path) +:+ ": ") +:+ e)))
    | Ok c =>
        let dir := parent_path path in
        let h := set_search (Some (Modules.add_search_path dir (default "" (package_path h)))) (searchers h) h in
        let h := RegisterGlobal "SCRIPT_DIR" (VString dir) (RegisterGlobal "SCRIPT_PATH" (VString path) h) in
        runChunkOnFiber c path h
    end in
  (set_current was (scriptBaseUrl h) h, r).
Definition Eval (code chunk : string) (h : Host) : Host * Outcome unit :=
  let h := RegisterGlobal "SCRIPT_DIR" VInvalid (RegisterGlobal "SCRIPT_PATH" VInvalid h) in
  match loadbuffer code chunk with
  | Raise e => (h, Throw (Err ("Error loading code: " +:+ e)))
  | Ok c => runChunkOnFiber c chunk h
  end.
(** [catch (std::exception& e)] catches a [ForcedShutdown] too. *)
Definition what (e : exn) : string := match e with ForcedShutdown => "Forced shutdown" | Err s => s end.
(** The closure [EvalHttp] runs on a fiber; [fetched] is what the await gave. *)
Definition EvalHttp (url : string) (fetched : Outcome string) (h : Host) : Host :=
  match fetched with
  | Throw e => host_act AskShutdown (host_act (LogError "radapter" ((("Could not fetch script " +:+ url) +:+ ": ") +:+ what e)) h)
  | Ret body =>
      let h := set_current (currentFile h) url h in
      let h := set_search (package_path h) (Modules.installHttpSearcher "http" (size (searchers h)) (searchers h)) h in
      let h := RegisterGlobal "SCRIPT_DIR" (VString (resolved url ".")) (RegisterGlobal "SCRIPT_PATH" (VString url) h) in
      let '(h, r) :=
        match loadbuffer body ("@" +:+ url) with
        | Raise e => (h, Throw (Err ((("Error loading " +:+ url) +:+ ": ") +:+ e)))
        | Ok c => runChunkOnFiber c ("@" +:+ url) h
        end in
      match r with
      | Ret _ => h
      | Throw e => host_act AskShutdown (host_act (LogError "radapter" ("EvalHttp: " +:+ what e)) h)
      end
  end.
End modules.

(** ** The answer of an HTTP request *)
Inductive Reply := NoError (status : Z) (body : string) | NetworkError (err : string).
Definition reply_result (r : Reply) : Outcome string :=
  match r with
  | NoError status body => if ((200 <=? status) && (status <? 300))%bool then Ret body else Throw (Err ("HTTP " +:+ to_string status))
  | NetworkError err => Throw (Err err)
  end.
(** [httpGet]: the reply finishes, or its timer aborts it, which finishes it with
    Qt's error for that; a finished reply cannot be aborted. *)
Inductive HttpEvent := Finished (r : Reply) | TimerFired.
Definition httpGet_event (canceled : string) (p : option (Outcome string)) (e : HttpEvent) : option (Outcome string) :=
  match p with
  | Some r => Some r
  | None => Some (reply_result (match e with Finished r => r | TimerFired => NetworkError canceled end))
  end.
Definition httpGet (canceled : string) (es : list HttpEvent) : option (Outcome string) := fold_left (httpGet_event canceled) es None.

(** ** The instance *)
Definition log_fields : list string := ["debug"; "info"; "warn"; "error"; "set_handler"; "set_level"].
Definition registered_functions : list string :=
  ["next_id"; "json_decode"; "json_encode"; "__await_native"; "__spawn_native"; "__exit_native"].
Definition registered_later : list string :=
  ["shutdown"; "reload"; "on_shutdown"; "fmt"; "bytes"; "each"; "after"; "get"; "set"; "schema"; "load_plugin"].
Inductive InitSystem := test | modbus | websocket | redis | sql | serial | can | cyphal | process | stdio | local | http.
Definition all : list InitSystem := [test; modbus; websocket; redis; sql; serial; can; cyphal; process; stdio; local; http].
Definition unavailable : list (string * string) :=
  [("QML", "QML worker is unavailable: run with --gui (needs a RADAPTER_GUI build)");
   ("QML_Tester", "QML_Tester is unavailable: run with --gui (needs a RADAPTER_GUI build)");
   ("tags", "tag API is unavailable: run with --tags")].
Definition register_all (names : list string) (h : Host) : Host := fold_left (fun h n => RegisterFunc n h) names h.
Definition bind_host (r : Host * res unit) (k : Host -> Host * res unit) : Host * res unit :=
  match r with (h, Ok _) => k h | (h, Raise e) => (h, Raise e) end.
Section instance.
Context {C : Type} `{SO : ScriptOps C} (registers : InitSystem -> list string) (openlibs : Host -> Host) (luaopen_lfs : string -> Host -> Host * res Global).
(** The constructor in three parts; it throws when an embedded script does not load. *)
Definition ctor_globals (h : Host) : Host :=
  let h := setglobal "log" (GTable log_fields) h in
  let h := register_all registered_functions h in
  let h := setglobal "__exit_marker" (GValue (VOpaque "exit marker" 0)) h in
  let h := register_all registered_later h in
  setglobal "workers" (GTable []) h.
Definition ctor_stubs (h : Host) : Host := fold_left (fun h x => registerUnavailable x.1 x.2 h) unavailable h.
Definition ctor_workers (h : Host) : Host :=
  let h := set_preload "socket" "load_embedded_module" (set_preload "socket.core" "luaopen_socket_core" h) in
  fold_left (fun h s => register_all (registers s) h) all h.
Definition Instance_ctor : Host * res unit :=
  bind_host (prequiref "lfs" luaopen_lfs false (ctor_globals (openlibs host_empty))) (fun h =>
  bind_host (LoadEmbeddedFile "builtins" 0 (lua_pop 1 h)) (fun h =>
  bind_host (LoadEmbeddedFile "async" 0 h) (fun h =>
  (setglobal "RADAPTER_GUI" (GValue (VBool false)) (ctor_stubs (ctor_workers h)), Ok tt)))).
(** [EnableGui]; [GUI] is a constant of the build. *)
Definition EnableGui (GUI : bool) (h : Host) : Host * res unit :=
  if GUI then (RegisterGlobal "RADAPTER_GUI" (VBool true) (RegisterFunc "QML_Tester" (RegisterFunc "QML" h)), Ok tt)
  else (h, Raise "GUI support was not enabled during build").
(** What [EnableTags] does to the globals. *)
Definition EnableTags_global (h : Host) : Host := setglobal "tags" (GTable ["subscribe"; "get"; "source"; "changed"]) h.

(** ** The debugger *)
(** [coro]: its errors are ignored; [start] gives whether it connected. *)
Definition mobdebug (vscode : bool) : string := if vscode then "mobdebug.vscode" else "mobdebug".
Definition newThreadCreated (h : Host) : Host * res unit :=
  if debuggerActive h =? 0 then (h, Ok tt)
  else bind_host (LoadEmbeddedFile (mobdebug (negb (debuggerActive h =? 1))) LoadEmbedNoPop h)
    (fun h => (lua_pop 1 h, Ok tt)).       (* moved to the thread, popped there *)
Definition DebuggerConnect (vscode : bool) (start : Outcome bool) (h : Host) : Host * res unit :=
  let h := set_debugger (debuggerActive h) (S (stack h)) h in      (* the traceback handler stays *)
  bind_host (LoadEmbeddedFile (mobdebug vscode) LoadEmbedNoPop h) (fun h =>
  match start with
  | Throw e => (set_debugger (debuggerActive h) (S (stack h)) h, Raise ("debugger: Could not start: " +:+ what e))
  | Ret false => (set_debugger (debuggerActive h) (S (stack h)) h, Raise "debugger: Not available")
  | Ret true => newThreadCreated (set_debugger (if vscode then 2 else 1) (stack h) h)
  end).

(** ** Reload and exit *)
Definition RequestReload : Host -> Host := host_act QueueReload.
Definition ExitNative (code : Z) (h : Host) : Host * Outcome unit :=
  (host_act QueueShutdown (SetExitCode (wraps 32 code) h), Throw ForcedShutdown).
End instance.

(** [workers[name]]: the children of the instance in order, with the registry slot of
    each; a child without one gives nil. *)
Definition GetWorker (name : string) (children : list (string * Z)) : option (string * Z) :=
  List.find (fun c => bool_decide (c.1 = name)) children.
Definition workers_index (name : string) (children : list (string * Z)) : option Z :=
  match GetWorker name children with
  | Some (_, r) => if r =? -2 then None else Some r
  | None => None
  end.

(** ** The end of an instance *)
Inductive Owner := Handlers | Posted | Workers | LogHandler | TagRegistry | Pool.
#[export] Instance Owner_eq : EqDecision Owner. Proof. solve_decision. Defined.
Record Teardown := {
  holding : list Owner;           (* who still holds slots of the Lua registry *)
  pool_set : bool;                (* [d->fibers] is not null *)
  handler_set : bool;             (* [luaLogHandler] is not LUA_NOREF *)
  lua_closed : bool
}.
(** A line logged meanwhile runs the handler; [None] when the slot it names is
    released or the pool that runs it is gone. *)
Definition late_line (t : Teardown) : option Teardown :=
  if negb (handler_set t) then Some t
  else if (bool_decide (LogHandler ∈ holding t) && pool_set t)%bool then Some t else None.
Fixpoint late_lines (n : nat) (t : Teardown) : option Teardown :=
  match n with O => Some t | S n => t ← late_line t; late_lines n t end.
Definition release (o : Owner) (lines : nat) (t : Teardown) : option Teardown :=
  let t := {| holding := holding t; pool_set := (pool_set t && negb (bool_decide (o = Pool)))%bool; handler_set := handler_set t; lua_closed := lua_closed t |} in
  t ← late_lines lines t;
  if lua_closed t then None
  else Some {| holding := List.filter (fun x => negb (bool_decide (x = o))) (holding t); pool_set := pool_set t; handler_set := handler_set t; lua_closed := lua_closed t |}.
(** [~Instance]; [lines o]: how many lines are logged while [o] goes. *)
Definition destroy_instance (lines : Owner -> nat) (handler : bool) : option Teardown :=
  let t := {| holding := [Handlers; Posted; Workers; LogHandler; TagRegistry; Pool]; pool_set := true; handler_set := handler; lua_closed := false |} in
  t ← release Handlers (lines Handlers) t;
  t ← release Posted (lines Posted) t;
  t ← release Workers (lines Workers) t;
  t ← release LogHandler 0 t;
  t ← release TagRegistry (lines TagRegistry) t;
  t ← release Pool (lines Pool) t;
  Some {| holding := holding t; pool_set := pool_set t; handler_set := handler_set t; lua_closed := true |}.

(** ** [load_plugin] *)
Record Plugins := {
  loaders : list (string * nat);        (* the loaders kept, and the root object of each *)
  initialized : list (nat * list QVar)
}.
Section plugins.
Context (open : string -> res nat) (implements : nat -> bool) (Initialize : nat -> list QVar -> Outcome unit).
Context (isRelativePath : string -> bool) (exeDir iid : string).
Definition candidates (path : string) : list string :=
  path :: (if (negb (bool_decide (path = "")) && isRelativePath path && negb (str_mem "/"%char path) && negb (str_mem "\"%char path))%bool
           then ["/usr/lib/radapter/plugins/" +:+ path; (exeDir +:+ "/") +:+ path; (exeDir +:+ "/plugins/") +:+ path] else []).
Fixpoint try_load (cs : list string) (errors : list string) : res (string * nat) * list string :=
  match cs with
  | [] => (Raise "", errors)
  | c :: cs => match open c with
               | Ok i => (Ok (c, i), errors)
               | Raise e => try_load cs (errors ++ [(c +:+ " => ") +:+ e])
               end
  end.
Fixpoint join_with (sep : string) (l : list string) : string :=
  match l with [] => "" | [x] => x | x :: l => (x +:+ sep) +:+ join_with sep l end.
Definition LoadPlugin (path : string) (args : list QVar) (st : Plugins) : Plugins * Outcome unit :=
  match try_load (candidates path) [] with
  | (Raise _, errors) => (st, Throw (Err ((("Could not load " +:+ path) +:+ " => ") +:+ join_with (String (ascii_of_nat 10) "") errors)))
  | (Ok (file, i), _) =>
      match List.find (fun l => (l.2 =? i)%nat) (loaders st) with
      | Some l => (st, Throw (Err (("Plugin: " +:+ l.1) +:+ " already loaded")))
      | None =>
          if negb (implements i) then (st, Throw (Err ("Loaded plugin does not implement: " +:+ iid)))
          else
            let st' := {| loaders := loaders st; initialized := initialized st ++ [(i, args)] |} in
            match Initialize i args with
            | Ret _ => ({| loaders := loaders st ++ [(file, i)]; initialized := initialized st' |}, Ret tt)
            | Throw e => (st', Throw e)
            end
      end
  end.
End plugins.

(** ** [fmt], [json_encode], [json_decode] and the message handler *)
(** What [lua_type] tells of an argument; a table comes with what [toQVar] makes of it,
    a userdata with its [luaL_tolstring]. *)
Inductive Arg := ANil | ABool (b : bool) | AInteger (z : Z) | ANumber (bits : Z) | AString (s : string)
  | ATable (v : QVar) | AFunction | AThread | AUserdata (text : string) | AExitMarker.
Inductive FmtArg := FInt (z : Z) | FDouble (bits : Z) | FText (s : string).
Section text.
Context (toJson : bool -> QVar -> string) (fromJson : string -> res QVar) (vformat : string -> list FmtArg -> res string) (tolstring : Arg -> string).
Definition fmt_arg (a : Arg) : FmtArg :=
  match a with
  | ABool b => FInt (if b then 1 else 0)
  | AInteger z => FInt z
  | ANumber n => FDouble n
  | AString s => FText s
  | ATable v => FText (toJson true (reprBinaries v))
  | AFunction => FText "<func>"
  | AThread => FText "<thread>"
  | AUserdata s => FText s
  | AExitMarker => FText (tolstring AExitMarker)
  | ANil => FText "<nil>"
  end.
Definition Format (args : list Arg) : res string :=
  match args with
  | [] => Raise "vector::reserve"           (* size_t(0 - 2 + 1) arguments reserved *)
  | [a] => vformat "{}" [fmt_arg a]
  | f :: args => vformat (tolstring f) (map fmt_arg args)
  end.
(** One line for each slot of the stack: what [fmt] makes of it, or the error it raises. *)
Definition PrintStack (stack : list Arg) (msg : string) : string :=
  fold_left (fun msg '(i, a) => ((((msg +:+ String (ascii_of_nat 10) "") +:+ to_string i) +:+ ": ") +:+ match Format [a] with Ok t => t | Raise e => e end))
    (imap (fun i a => (Z.of_nat i + 1, a)) stack) msg.
(** The second argument: absent or nil, a table with whether its [pretty] is true, or else. *)
Definition json_encode (v : QVar) (opts : option (option bool)) : res string :=
  match opts with
  | Some (Some pretty) => Ok (toJson pretty v)
  | Some None => Raise "json_encode: opts (arg #2) must be a table"
  | None => Ok (toJson false v)
  end.
Definition json_decode (str : string) : res QVar :=
  match fromJson str with Ok v => Ok v | Raise e => Raise ("Error parsing json: " +:+ e) end.
Definition isExitMarker (a : Arg) : bool := match a with AExitMarker => true | _ => false end.
Definition traceback (luaL_traceback : string -> string) (a : Arg) : Arg :=
  if isExitMarker a then a else AString (luaL_traceback (tolstring a)).
(** What [protect] leaves on the stack for [lua_error]. *)
Definition protect {A} (r : Outcome A) : A + Arg :=
  match r with Ret a => inl a | Throw ForcedShutdown => inr AExitMarker | Throw (Err e) => inr (AString e) end.
Definition quote : string := String (ascii_of_nat 34) EmptyString.
Definition qobjToString (o : option (string * string * string)) : string :=
  match o with
  | None => "QObject(destroyed)"
  | Some (cls, ptr, name) => if bool_decide (name = "") then ((cls +:+ "(") +:+ ptr) +:+ ")" else ((((cls +:+ "(") +:+ ptr) +:+ (", " +:+ quote)) +:+ name) +:+ (quote +:+ ")")
  end.
End text.

(** ** Scripts *)
Section script_lemmas.
Context {C : Type} `{SO : ScriptOps C}.
(** What a chunk started by [EvalFile] finds. *)
Definition prepared (path : string) (h0 h : Host) : Prop :=
  currentFile h = Some (absolute path) /\
  globals h !! "SCRIPT_PATH" = Some (GValue (VString (absolute path))) /\
  globals h !! "SCRIPT_DIR" = Some (GValue (VString (parent_path (absolute path)))) /\
  (exists rest, package_path h = Some (Modules.search_entry (parent_path (absolute path)) +:+ rest)) /\
  (forall g, g <> "SCRIPT_PATH" -> g <> "SCRIPT_DIR" -> globals h !! g = globals h0 !! g).
Lemma str_take_prefix (n : nat) (s : string) : exists rest, s = str_take n s +:+ rest.
Proof.
  revert n. induction s as [|x s IH]; intros n; [exists ""; by destruct n|].
  destruct n as [|n]; [by exists (String x s)|]. destruct (IH n) as [rest E]. exists rest.
  change (str_take (S n) (String x s)) with (String x (str_take n s)). cbn. by rewrite E at 1.
Qed.
Lemma add_search_path_first (dir cur : string) : exists rest, Modules.add_search_path dir cur = Modules.search_entry dir +:+ rest.
Proof.
  unfold Modules.add_search_path. case_bool_decide as E; [|eauto]. rewrite <- E. apply str_take_prefix.
Qed.
Lemma setglobal_ne (n m : string) (g : Global) (h : Host) : n <> m -> globals (setglobal n g h) !! m = globals h !! m.
Proof. intros. by apply lookup_insert_ne. Qed.
Lemma setglobal_eq (n : string) (g : Global) (h : Host) : globals (setglobal n g h) !! n = Some g.
Proof. apply lookup_insert_eq. Qed.

(** [EvalFile] runs the chunk of the absolute path once, on a host where the current file,
    [SCRIPT_PATH], [SCRIPT_DIR] and the front of [package.path] are the script's and every
    other global is as before; whatever the chunk does or throws, the current file is
    afterwards the one from before, an error carries the script's path, and an exit
    request passes unchanged; a file that does not load changes nothing. *)
Theorem file_runs_prepared (path : string) (h : Host) :
  let '(h', r) := EvalFile path h in
  currentFile h' = currentFile h /\
  match loadfile (absolute path) with
  | Raise e => h' = h /\ r = Throw (Err ((("Error loading file " +:+ absolute path) +:+ ": ") +:+ e))
  | Ok c => exists h1, prepared path h h1 /\ h' = set_current (currentFile h) (scriptBaseUrl (run c h1).1) (run c h1).1 /\
      r = match (run c h1).2 with
          | Throw (Err e) => Throw (Err ((absolute path +:+ (" error:" +:+ String (ascii_of_nat 10) (String (ascii_of_nat 9) ""))) +:+ e))
          | r => r
          end
  end.
Proof.
  unfold EvalFile. destruct (loadfile (absolute path)) as [c|e] eqn:L.
  2: { cbn. split; [done|]. split; [|done]. by destruct h. }
  set (h1 := RegisterGlobal "SCRIPT_DIR" _ _). unfold runChunkOnFiber. destruct (run c h1) as [h2 r] eqn:R.
  assert (P : prepared path h h1).
  { repeat split.
    - unfold h1, RegisterGlobal. rewrite setglobal_ne by done. apply setglobal_eq.
    - apply setglobal_eq.
    - destruct (add_search_path_first (parent_path (absolute path)) (default "" (package_path h))) as [rest E].
      exists rest. cbn. by rewrite E.
    - intros g N1 N2. unfold h1, RegisterGlobal. by rewrite !setglobal_ne. }
  destruct r as [[]|[|e]]; (split; [done|]); exists h1; by rewrite R.
Qed.
(** A script fetched over HTTP that asks to exit, or whose fetch is torn down, is
    reported as a failure. *)
Theorem http_exit_is_reported (url body : string) (c : C) (h : Host) :
  loadbuffer body ("@" +:+ url) = Ok c -> (forall h, (run c h).2 = Throw ForcedShutdown) ->
  exists h1, EvalHttp url (Ret body) h = host_act AskShutdown (host_act (LogError "radapter" "EvalHttp: Forced shutdown") h1) /\
    EvalHttp url (Throw ForcedShutdown) h = host_act AskShutdown (host_act (LogError "radapter" ((("Could not fetch script " +:+ url) +:+ ": ") +:+ "Forced shutdown")) h).
Proof.
  intros L R. unfold EvalHttp, runChunkOnFiber. rewrite L. set (h0 := RegisterGlobal "SCRIPT_DIR" _ _).
  specialize (R h0). destruct (run c h0) as [h1 r]. cbn in R. subst r. exists h1. by split.
Qed.
(** The two flags of [LoadEmbeddedFile] are the same bit: asking for a global leaves
    the module on the stack, and asking for the module makes it a global. *)
Theorem embed_flags_alias (name : string) (h h' : Host) :
  LoadEmbedGlobal = LoadEmbedNoPop /\
  (LoadEmbeddedFile name LoadEmbedNoPop h = (h', Ok tt) -> is_Some (globals h' !! name)).
Proof.
  split; [done|]. unfold LoadEmbeddedFile, prequiref. destruct (loaded h !! name) as [g|]; [|destruct (load_embedded_module name h) as [h1 [g|e]]; [|done]];
  cbn; intros [= <-]; exists g; apply lookup_insert_eq.
Qed.
End script_lemmas.

(** ** Ids *)
Lemma gen_ids_lookup (n i : nat) (curr : Z) : 0 <= curr < 2 ^ 32 -> (i < n)%nat -> gen_ids n curr !! i = Some ((curr + Z.of_nat i) mod 2 ^ 32).
Proof.
  revert i curr. induction n as [|n IH]; intros i curr Hc Hi; [lia|]. cbn [gen_ids fetch_add]. destruct i as [|i]; cbn [lookup list_lookup].
  - rewrite Z.add_0_r, Z.mod_small by done. done.
  - rewrite IH; [|apply Z.mod_pos_bound; lia|lia]. rewrite Zplus_mod_idemp_l. do 2 f_equal. lia.
Qed.
Lemma gen_ids_length (n : nat) (curr : Z) : length (gen_ids n curr) = n.
Proof. revert curr. induction n as [|n IH]; intros; cbn; [done|by rewrite IH]. Qed.
(** [next_id] gives different numbers exactly as long as it is called at most 2^32 times
    in the process, whatever instance calls it and wherever the counter stands. *)
Theorem next_id_unique (n : nat) (curr : Z) : 0 <= curr < 2 ^ 32 -> NoDup (gen_ids n curr) <-> Z.of_nat n <= 2 ^ 32.
Proof.
  intros Hc. split.
  - intros Hn. destruct (Z.le_gt_cases (Z.of_nat n) (2 ^ 32)) as [?|Hgt]; [done|]. exfalso.
    assert (E : 0%nat = Z.to_nat (2 ^ 32)); [|lia].
    refine (NoDup_lookup _ _ _ _ Hn _ _); [apply gen_ids_lookup; lia|]. rewrite gen_ids_lookup by lia.
    rewrite Z2Nat.id, Z.add_0_r by lia. f_equal. rewrite <- (Z.mul_1_l (2 ^ 32)) at 1. apply Z_mod_plus_full.
  - intros Hn. apply NoDup_alt. intros i j x Hi Hj.
    assert (i < n /\ j < n)%nat as [Li Lj] by (split; rewrite <- (gen_ids_length n curr); by eapply lookup_lt_Some).
    rewrite gen_ids_lookup in Hi, Hj by done. injection Hi as <-. injection Hj as E.
    assert (D : (Z.of_nat j - Z.of_nat i) mod 2 ^ 32 = 0).
    { replace (Z.of_nat j - Z.of_nat i) with ((curr + Z.of_nat j) - (curr + Z.of_nat i)) by lia. rewrite Zminus_mod, E, Z.sub_diag. done. }
    apply Z.mod_divide in D as [k D]; [|lia]. assert (k = 0) by nia. nia.
Qed.
Lemma next_id_unique_witness : 0 <= 7 < 2 ^ 32 /\ (NoDup (gen_ids 4 7) <-> Z.of_nat 4 <= 2 ^ 32).
Proof. split; [lia|]. apply (next_id_unique 4 7). lia. Defined.

(** ** Features reported when missing *)
Section feature_lemmas.
Context {C : Type} `{SO : ScriptOps C} (registers : InitSystem -> list string) (openlibs : Host -> Host) (luaopen_lfs : string -> Host -> Host * res Global).
Lemma use_setglobal_eq (n : string) (g : Global) (h : Host) : use_global n (setglobal n g h) = match g with GStub msg => Raise msg | g => Ok g end.
Proof. unfold use_global. by rewrite setglobal_eq. Qed.
Lemma use_setglobal_ne (n m : string) (g : Global) (h : Host) : n <> m -> use_global m (setglobal n g h) = use_global m h.
Proof. intros. unfold use_global. by rewrite setglobal_ne. Qed.
Lemma bind_host_ok (r : Host * res unit) (k : Host -> Host * res unit) (h : Host) : bind_host r k = (h, Ok tt) ->
  exists h1, r = (h1, Ok tt) /\ k h1 = (h, Ok tt).
Proof. unfold bind_host. destruct r as [h1 [[]|e]]; [eauto|done]. Qed.
Lemma stubs_there (h : Host) (name msg : string) : (name, msg) ∈ unavailable -> globals (ctor_stubs h) !! name = Some (GStub msg).
Proof.
  unfold ctor_stubs, unavailable. cbn [fold_left fst snd]. unfold registerUnavailable.
  intros [[= <- <-]|[[= <- <-]|[[= <- <-]|[]]]]%list_elem_of_In; repeat (rewrite setglobal_ne by discriminate); apply setglobal_eq.
Qed.
Lemma unavailable_names (name msg : string) : (name, msg) ∈ unavailable -> name <> "RADAPTER_GUI".
Proof. by intros [[= <- <-]|[[= <- <-]|[[= <- <-]|[]]]]%list_elem_of_In. Qed.
Lemma ctor_ok (h : Host) : Instance_ctor registers openlibs luaopen_lfs = (h, Ok tt) ->
  exists h0, h = setglobal "RADAPTER_GUI" (GValue (VBool false)) (ctor_stubs h0).
Proof.
  unfold Instance_ctor. intros (h1 & _ & (h2 & _ & (h3 & _ & E)%bind_host_ok)%bind_host_ok)%bind_host_ok.
  injection E as <-. by exists (ctor_workers registers h3).
Qed.
(** A constructed instance reports each missing feature with its cause, whatever the
    workers and the embedded scripts registered; enabling the GUI replaces exactly its
    two stubs, and a build without it says so and changes nothing. *)
Theorem features_report_their_cause (h : Host) : Instance_ctor registers openlibs luaopen_lfs = (h, Ok tt) ->
  (forall name msg, (name, msg) ∈ unavailable -> use_global name h = Raise msg) /\
  globals h !! "RADAPTER_GUI" = Some (GValue (VBool false)) /\
  EnableGui false h = (h, Raise "GUI support was not enabled during build") /\
  (let h' := (EnableGui true h).1 in
   is_ok (use_global "QML" h') = true /\ is_ok (use_global "QML_Tester" h') = true /\ is_ok (use_global "tags" h') = false /\
   is_ok (use_global "tags" (EnableTags_global h')) = true /\ globals h' !! "RADAPTER_GUI" = Some (GValue (VBool true))).
Proof.
  intros [h0 ->]%ctor_ok. set (h := setglobal "RADAPTER_GUI" _ _).
  assert (S : forall name msg, (name, msg) ∈ unavailable -> globals h !! name = Some (GStub msg)).
  { intros name msg Hn. unfold h. rewrite setglobal_ne by (symmetry; by eapply unavailable_names). by apply stubs_there. }
  assert (G : globals h !! "RADAPTER_GUI" = Some (GValue (VBool false))) by apply setglobal_eq.
  clearbody h. split; [intros name msg Hn; unfold use_global; by rewrite (S name msg Hn)|].
  split; [exact G|]. split; [reflexivity|].
  change (EnableGui true h).1 with (setglobal "RADAPTER_GUI" (GValue (VBool true)) (setglobal "QML_Tester" (GFunction "QML_Tester") (setglobal "QML" (GFunction "QML") h))).
  cbv zeta. unfold EnableTags_global. split_and!.
  - by rewrite !use_setglobal_ne, use_setglobal_eq by discriminate.
  - by rewrite use_setglobal_ne, use_setglobal_eq by discriminate.
  - rewrite !use_setglobal_ne by discriminate. unfold use_global. rewrite (S "tags" "tag API is unavailable: run with --tags"); [reflexivity|].
    apply list_elem_of_In. cbn. tauto.
  - by rewrite use_setglobal_eq.
  - apply setglobal_eq.
Qed.
End feature_lemmas.

(** ** One answer per request *)
Theorem httpGet_answers_once (canceled : string) (e : HttpEvent) (es : list HttpEvent) :
  httpGet canceled (e :: es) = httpGet canceled [e] /\ is_Some (httpGet canceled [e]) /\
  (forall status body, e = Finished (NoError status body) -> (httpGet canceled [e] = Some (Ret body) <-> 200 <= status < 300)).
Proof.
  assert (S : forall p es, fold_left (httpGet_event canceled) es (Some p) = Some p) by (intros p es'; by induction es').
  unfold httpGet. cbn [fold_left httpGet_event]. rewrite S. split; [done|]. split; [eauto|]. intros status body ->. cbn.
  destruct (Z.leb_spec 200 status), (Z.ltb_spec status 300); cbn; split; try done; lia.
Qed.

(** ** Plugins *)
Section plugin_lemmas.
Context (open : string -> res nat) (implements : nat -> bool) (Initialize : nat -> list QVar -> Outcome unit).
Context (isRelativePath : string -> bool) (exeDir iid : string).
Lemma try_load_ok (cs : list string) : forall errors file i errs, try_load open cs errors = (Ok (file, i), errs) ->
  exists before after, cs = before ++ file :: after /\ open file = Ok i /\ forall c, c ∈ before -> is_ok (open c) = false.
Proof.
  induction cs as [|c cs IH]; intros errors file i errs; cbn; [done|].
  destruct (open c) as [j|e] eqn:O.
  - intros [= <- <- _]. exists [], cs. split; [done|]. split; [done|]. intros c' Hc. by apply elem_of_nil in Hc.
  - intros (before & after & -> & Of & Hb)%IH. exists (c :: before), after. split; [done|]. split; [done|].
    intros c' [->|Hc]%elem_of_cons; [by rewrite O|by apply Hb].
Qed.
Lemma try_load_none (cs : list string) : forall errors e errs, try_load open cs errors = (Raise e, errs) -> forall c, c ∈ cs -> is_ok (open c) = false.
Proof.
  induction cs as [|c cs IH]; intros errors e errs; cbn; [intros _ c Hc; by apply elem_of_nil in Hc|].
  destruct (open c) as [j|e'] eqn:O; [done|]. intros H c' [->|Hc]%elem_of_cons; [by rewrite O|by eapply IH].
Qed.
(** [load_plugin] keeps one loader per plugin: when it returns, the loader it keeps is of the
    first candidate that opens, implements the interface, is not among those loaded before
    and was initialised with the arguments; when it raises, the loaders are as before, and
    the plugin was initialised only if it is its [Initialize] that threw. *)
Theorem plugins_distinct (path : string) (args : list QVar) (st : Plugins) : NoDup (loaders st).*2 ->
  let '(st', r) := LoadPlugin open implements Initialize isRelativePath exeDir iid path args st in
  NoDup (loaders st').*2 /\
  match r with
  | Ret _ => exists before file after i, candidates isRelativePath exeDir path = before ++ file :: after /\
      (forall c, c ∈ before -> is_ok (open c) = false) /\ open file = Ok i /\ implements i = true /\ (i ∉ (loaders st).*2) /\
      st' = {| loaders := loaders st ++ [(file, i)]; initialized := initialized st ++ [(i, args)] |}
  | Throw e => loaders st' = loaders st /\
      (initialized st' = initialized st \/ exists i, initialized st' = initialized st ++ [(i, args)] /\ Initialize i args = Throw e)
  end.
Proof.
  intros Hn. unfold LoadPlugin. destruct (try_load open (candidates isRelativePath exeDir path) []) as [[[file i]|e] errs] eqn:T; [|auto].
  apply try_load_ok in T as (before & after & Ec & Of & Hb).
  destruct (List.find (fun l => (l.2 =? i)%nat) (loaders st)) as [l|] eqn:F; [auto|].
  destruct (implements i) eqn:Im; cbn [negb]; [|auto].
  assert (i ∉ (loaders st).*2) as Hi.
  { intros ((f & j) & -> & Hj)%list_elem_of_fmap. apply list_elem_of_In in Hj. apply (find_none _ _ F) in Hj. cbn in Hj. by rewrite Nat.eqb_refl in Hj. }
  destruct (Initialize i args) as [[]|e] eqn:In; cbn [loaders initialized].
  - split; [|by exists before, file, after, i]. rewrite fmap_app. apply NoDup_app. split; [done|]. split; [|apply NoDup_singleton].
    intros x Hx Hx'. apply list_elem_of_singleton in Hx'. cbn in Hx'. congruence.
  - split; [done|]. split; [done|]. right. by exists i.
Qed.
End plugin_lemmas.
Definition sample_open (c : string) : res nat := if bool_decide (c = "/opt/radapter/plugins/libgaz.so") then Ok 4%nat else Raise "not found".
Lemma plugins_distinct_witness :
  NoDup (loaders {| loaders := [("old", 1%nat)]; initialized := [] |}).*2 /\
  let '(st', r) := LoadPlugin sample_open (fun _ => true) (fun _ _ => Ret tt) (fun _ => true) "/opt/radapter" "WorkerPlugin" "libgaz.so" [VInt 42] {| loaders := [("old", 1%nat)]; initialized := [] |} in
  NoDup (loaders st').*2 /\
  match r with
  | Ret _ => exists before file after i, candidates (fun _ => true) "/opt/radapter" "libgaz.so" = before ++ file :: after /\
      (forall c, c ∈ before -> is_ok (sample_open c) = false) /\ sample_open file = Ok i /\ true = true /\ (i ∉ [1%nat]) /\
      st' = {| loaders := [("old", 1%nat)] ++ [(file, i)]; initialized := [] ++ [(i, [VInt 42])] |}
  | Throw e => loaders st' = [("old", 1%nat)] /\
      (initialized st' = [] \/ exists i, initialized st' = [] ++ [(i, [VInt 42])] /\ Ret tt = Throw e)
  end.
Proof.
  assert (N : NoDup (loaders {| loaders := [("old", 1%nat)]; initialized := [] |}).*2) by (repeat constructor; set_solver).
  split; [exact N|]. exact (plugins_distinct sample_open (fun _ => true) (fun _ _ => Ret tt) (fun _ => true) "/opt/radapter" "WorkerPlugin" "libgaz.so" [VInt 42] _ N).
Defined.
Example plugin_found : (LoadPlugin sample_open (fun _ => true) (fun _ _ => Ret tt) (fun _ => true) "/opt/radapter" "WorkerPlugin" "libgaz.so" [] {| loaders := []; initialized := [] |}).1
  = {| loaders := [("/opt/radapter/plugins/libgaz.so", 4%nat)]; initialized := [(4%nat, [])] |}.
Proof. vm_compute. reflexivity. Qed.

(** ** Teardown *)
Lemma late_lines_quiet (n : nat) (t : Teardown) : handler_set t = false \/ (LogHandler ∈ holding t /\ pool_set t = true) \/ n = 0%nat -> late_lines n t = Some t.
Proof.
  intros H. induction n as [|n IH]; [done|]. cbn [late_lines].
  assert (late_line t = Some t) as ->.
  { unfold late_line. destruct H as [E|[[H1 H2]|H]]; [by rewrite E| |done]. rewrite (bool_decide_eq_true_2 _ H1), H2. by destruct (negb _). }
  apply IH. naive_solver.
Qed.
Lemma release_quiet (o : Owner) (n : nat) (l : list Owner) (p hs : bool) : hs = false \/ (LogHandler ∈ l /\ p = true /\ o <> Pool) \/ n = 0%nat ->
  release o n {| holding := l; pool_set := p; handler_set := hs; lua_closed := false |} =
  Some {| holding := List.filter (fun x => negb (bool_decide (x = o))) l; pool_set := (p && negb (bool_decide (o = Pool)))%bool; handler_set := hs; lua_closed := false |}.
Proof.
  intros H. unfold release. cbv zeta. cbn [holding pool_set handler_set lua_closed]. rewrite late_lines_quiet; [done|]. cbn.
  destruct H as [H|[(H1 & -> & H3)|H]]; [by left|right; left|by right; right]. split; [done|]. by rewrite bool_decide_eq_false_2.
Qed.
Lemma release_loud (o : Owner) (n : nat) (l : list Owner) (p : bool) : (LogHandler ∉ l) ->
  release o (S n) {| holding := l; pool_set := p; handler_set := true; lua_closed := false |} = None.
Proof. intros H. unfold release. cbn. unfold late_line. cbn. by rewrite bool_decide_eq_false_2. Qed.
(** The destructor of an instance gives every registry slot back before it closes Lua;
    with a log handler set it is safe exactly when nothing is logged while the tag
    registry and the fibers go, since by then the handler's slot is released and still
    named. *)
Theorem teardown_order (lines : Owner -> nat) (handler : bool) :
  destroy_instance lines handler = Some {| holding := []; pool_set := false; handler_set := handler; lua_closed := true |} <->
  handler = false \/ (lines TagRegistry = 0%nat /\ lines Pool = 0%nat).
Proof.
  unfold destroy_instance.
  rewrite release_quiet by (destruct handler; [right; left|by left]; split; [set_solver|done]). cbn [mbind option_bind].
  rewrite release_quiet by (destruct handler; [right; left|by left]; split; [set_solver|done]). cbn [mbind option_bind].
  rewrite release_quiet by (destruct handler; [right; left|by left]; split; [set_solver|done]). cbn [mbind option_bind].
  rewrite release_quiet by (by right; right). cbn [mbind option_bind]. destruct handler.
  - destruct (lines TagRegistry) as [|n]; [|rewrite release_loud by (vm_compute; set_solver); split; [done|intros [|[]]; done]].
    rewrite release_quiet by (by right; right). cbn [mbind option_bind].
    destruct (lines Pool) as [|n]; [|rewrite release_loud by (vm_compute; set_solver); split; [done|intros [|[]]; done]].
    rewrite release_quiet by (by right; right). split; [by right|done].
  - rewrite !release_quiet by (by left). cbn [mbind option_bind]. rewrite release_quiet by (by left). split; [by left|done].
Qed.
