(* ===== verification/Objects.v ===== *)
(** * Workers as Lua objects ([src/src/worker.cpp], [worker_impl.hpp], [test_worker.cpp])

    [workerFactory] makes a worker and [push_worker] the userdata that stands for it in
    Lua.  The userdata holds a weak pointer to the worker; the worker's signals hold a
    plain pointer to the userdata, kept valid by a registry slot for as long as the
    worker lives and by its destructor disconnecting them otherwise.  The model is the
    two-sided ownership: objects, workers, the collector and the end of the state. *)
From S2P Require Import Prelude QVariant Utils Worker.
Set Warnings "-register-all,-clear-no-such-hyp".

Record Object := {
  cls : string;
  self : option nat;             (* the worker, while it lives *)
  pinned : bool;                 (* a registry slot holds the userdata *)
  freed : bool
}.
Record Wrk := {
  wname : string;
  origin : string;
  walive : bool;
  wimpl : option nat;            (* [_Impl]: not initialised before [push_worker] *)
  conns : option nat;            (* the object its two signals are connected to *)
  dying : bool                   (* [deleteLater] *)
}.
Record World := {
  objects : list Object;
  wrks : list Wrk;
  reach : list nat;              (* objects a script can reach by itself *)
  notified : list (nat * QVar);  (* notifications delivered *)
  closed : bool
}.
Definition world_init : World := {| objects := []; wrks := []; reach := []; notified := []; closed := false |}.
Definition set_objects (o : list Object) (s : World) : World := {| objects := o; wrks := wrks s; reach := reach s; notified := notified s; closed := closed s |}.
Definition set_wrks (w : list Wrk) (s : World) : World := {| objects := objects s; wrks := w; reach := reach s; notified := notified s; closed := closed s |}.
Definition set_reach (l : list nat) (s : World) : World := {| objects := objects s; wrks := wrks s; reach := l; notified := notified s; closed := closed s |}.
Definition set_notified (l : list (nat * QVar)) (s : World) : World := {| objects := objects s; wrks := wrks s; reach := reach s; notified := l; closed := closed s |}.
Definition set_closed (s : World) : World := {| objects := objects s; wrks := wrks s; reach := []; notified := notified s; closed := true |}.

(** [push_worker] of a worker just made, and the factory around it: an error of the
    worker's constructor leaves nothing. *)
Definition pushed (o : nat) (k : Wrk) : Wrk :=
  {| wname := wname k; origin := origin k; walive := walive k; wimpl := Some o; conns := Some o; dying := dying k |}.
Definition push_worker (name : string) (w : nat) (s : World) : World :=
  let o := length (objects s) in
  let s := set_objects (objects s ++ [{| cls := name; self := Some w; pinned := true; freed := false |}]) s in
  let s := set_wrks (alter (pushed o) w (wrks s)) s in
  set_reach (o :: reach s) s.
Definition workerFactory (name : string) (made : res (string * string)) (s : World) : World * res nat :=
  match made with
  | Raise e => (s, Raise e)
  | Ok (n, org) =>
      let w := length (wrks s) in
      let s := set_wrks (wrks s ++ [{| wname := n; origin := org; walive := true; wimpl := None; conns := None; dying := false |}]) s in
      (push_worker name w s, Ok (length (objects s)))
  end.
(** ~QObject: weak pointers are cleared, then [destroyed] gives the slot back. *)
Definition gone (k : Wrk) : Wrk := {| wname := wname k; origin := origin k; walive := false; wimpl := wimpl k; conns := None; dying := dying k |}.
Definition unself (w : nat) (o : Object) : Object :=
  if bool_decide (self o = Some w) then {| cls := cls o; self := None; pinned := false; freed := freed o |} else o.
Definition destroy_wrk (w : nat) (s : World) : World :=
  match wrks s !! w with
  | Some k => if walive k then set_objects (map (unself w) (objects s)) (set_wrks (alter gone w (wrks s)) s) else s
  | None => s
  end.
(** ~WorkerImpl: a worker still alive is disconnected and told to go. *)
Definition leave (o : nat) (k : Wrk) : Wrk :=
  {| wname := wname k; origin := origin k; walive := walive k; wimpl := wimpl k;
     conns := if bool_decide (conns k = Some o) then None else conns k; dying := if bool_decide (conns k = Some o) then true else dying k |}.
Definition free_object (o : nat) (s : World) : World :=
  match objects s !! o with
  | Some x =>
      if freed x then s
      else
        let s := match self x with Some w => set_wrks (alter (leave o) w (wrks s)) s | None => s end in
        set_objects (alter (fun x => {| cls := cls x; self := self x; pinned := pinned x; freed := true |}) o (objects s)) s
  | None => s
  end.
Definition collectable (s : World) (o : nat) : bool :=
  match objects s !! o with Some x => (negb (pinned x) && negb (bool_decide (o ∈ reach s)))%bool | None => false end.
Definition collect (s : World) : World := fold_left (fun s o => if collectable s o then free_object o s else s) (seq 0 (length (objects s))) s.
Definition lua_close (s : World) : World := fold_left (fun s o => free_object o s) (seq 0 (length (objects s))) (set_closed s).

(** [~Instance] deletes the workers, then closes Lua. *)
Definition end_instance (s : World) : World := lua_close (fold_left (fun s w => destroy_wrk w s) (seq 0 (length (wrks s))) s).
Definition alive_wrk (w : nat) (s : World) : bool := match wrks s !! w with Some k => walive k | None => false end.

(** A signal: the connection reads the object it was made for. *)
Definition emit (w : nat) (msg : QVar) (s : World) : option World :=
  match wrks s !! w with
  | Some k =>
      match conns k with
      | None => Some s
      | Some o => x ← objects s !! o; if freed x then None else Some (set_notified (notified s ++ [(w, msg)]) s)
      end
  | None => Some s
  end.
(** [CurrentSender]: a worker that was never pushed reads what its memory held. *)
Definition CurrentSender (w : nat) (senders : nat -> QVar) (s : World) : option QVar :=
  k ← wrks s !! w; o ← wimpl k; x ← objects s !! o; if freed x then None else Some (senders o).

(** ** What Lua can do with an object *)
Definition checkWorker (o : nat) (s : World) : option (res nat) :=
  x ← objects s !! o; if freed x then None else Some (match self x with Some w => Ok w | None => Raise "worker not usable" end).
Inductive Indexed := IEvents (o : nat) | IText (t : string) | IMethod (name : string) | INil.
Definition methods_of (extra : list string) : list string := extra ++ ["destroy"; "shutdown"; "get_listeners"; "call"; "__call"; "__tostring"; "__gc"; "__index"; "__marker"].
Definition worker_index (extra : list string) (o : nat) (key : option string) (s : World) : option (res Indexed) :=
  match key with
  | Some "events" => Some (Ok (IEvents o))
  | Some "name" => r ← checkWorker o s; Some (match r with Ok w => Ok (IText (default "" (wname <$> wrks s !! w))) | Raise e => Raise e end)
  | Some "origin" => r ← checkWorker o s; Some (match r with Ok w => Ok (IText (default "" (origin <$> wrks s !! w))) | Raise e => Raise e end)
  | Some k => Some (Ok (if bool_decide (k ∈ methods_of extra) then IMethod k else INil))
  | None => Some (Ok INil)
  end.
Definition dquote : string := String (ascii_of_nat 34) EmptyString.
Definition worker_tostring (address : nat -> string) (o : nat) (s : World) : option string :=
  x ← objects s !! o;
  if freed x then None
  else Some (match self x with
             | None => cls x +:+ "(destroyed)"
             | Some w =>
                 let n := default "" (wname <$> wrks s !! w) in
                 if bool_decide (n = "") then ((cls x +:+ "(") +:+ address w) +:+ ")"
                 else ((((cls x +:+ "(") +:+ address w) +:+ (", " +:+ dquote)) +:+ n) +:+ (dquote +:+ ")")
             end).
Definition call_extra {A} (method : nat -> list QVar -> res A) (args : list QVar) (o : nat) (s : World) : option (res A) :=
  r ← checkWorker o s; Some (match r with Ok w => method w args | Raise e => Raise e end).

Inductive WorldEvent :=
| ENew (name : string) (made : res (string * string))
| EDestroyed (w : nat)
| EEmit (w : nat) (msg : QVar)
| EDrop (o : nat)
| EReach (o : nat)              (* a script gets it from the registry: [workers[name]], a listener's argument *)
| ECollect
| EClose.
Definition world_event (e : WorldEvent) (s : World) : option World :=
  match e with
  | ENew n m => Some (if closed s then s else (workerFactory n m s).1)
  | EDestroyed w => if (closed s && alive_wrk w s)%bool then None else Some (destroy_wrk w s)   (* no registry to give the slot back to *)
  | EEmit w msg => emit w msg s
  | EDrop o => Some (set_reach (List.filter (fun x => negb (x =? o)%nat) (reach s)) s)
  | EReach o => Some (match objects s !! o with Some x => if (pinned x && negb (closed s))%bool then set_reach (o :: reach s) s else s | None => s end)
  | ECollect => Some (if closed s then s else collect s)
  | EClose => Some (if closed s then s else end_instance s)
  end.
Fixpoint world_run (es : list WorldEvent) (s : World) : option World :=
  match es with [] => Some s | e :: es => s ← world_event e s; world_run es s end.

(** ** No worker outlives what its signals read *)
Record sound (s : World) : Prop := {
  conn_ok : forall w k o, wrks s !! w = Some k -> conns k = Some o ->
    exists x, objects s !! o = Some x /\ freed x = false /\ self x = Some w;
  self_ok : forall o x w, objects s !! o = Some x -> self x = Some w ->
    pinned x = true /\ exists k, wrks s !! w = Some k /\ walive k = true /\ wimpl k = Some o /\ (freed x = false -> conns k = Some o);
  reach_ok : forall o, o ∈ reach s -> exists x, objects s !! o = Some x /\ freed x = false;
  pin_ok : forall o x, objects s !! o = Some x -> pinned x = true -> closed s = false -> freed x = false;
  end_ok : closed s = true -> forall w, alive_wrk w s = false
}.
Lemma sound_init : sound world_init.
Proof. split; cbn; intros *; rewrite ?lookup_nil; try done. intros H. by apply elem_of_nil in H. Qed.
Lemma sound_set_reach (l : list nat) (s : World) :
  (forall o, o ∈ l -> o ∈ reach s \/ exists x, objects s !! o = Some x /\ freed x = false) -> sound s -> sound (set_reach l s).
Proof. intros Hl [H1 H2 H3 H4 H5]. split; cbn; [done..| |done|done]. intros o [Ho|Ho]%Hl; eauto. Qed.

Lemma lookup_free (o : nat) (s : World) (x : Object) : objects s !! o = Some x -> freed x = false ->
  let s' := free_object o s in
  objects s' = alter (fun x => {| cls := cls x; self := self x; pinned := pinned x; freed := true |}) o (objects s) /\
  wrks s' = (match self x with Some w => alter (leave o) w (wrks s) | None => wrks s end) /\ reach s' = reach s /\ closed s' = closed s.
Proof. intros E F. unfold free_object. rewrite E, F. by destruct (self x). Qed.
Lemma sound_free (o : nat) (s : World) : (o ∉ reach s) -> (closed s = true \/ forall x, objects s !! o = Some x -> pinned x = false) -> sound s -> sound (free_object o s).
Proof.
  intros Hr Hp0 Hs. destruct (objects s !! o) as [x|] eqn:E; [|unfold free_object; by rewrite E].
  destruct (freed x) eqn:F; [unfold free_object; by rewrite E, F|].
  pose proof (lookup_free o s x E F) as (Eo & Ew & Er & Ec). destruct Hs as [H1 H2 H3 H4 H5]. split.
  - intros w k p Hk Hc. rewrite Eo. assert (exists k0, wrks s !! w = Some k0 /\ conns k0 = Some p /\ (p = o -> False)) as (k0 & K0 & C0 & Hp).
    { rewrite Ew in Hk. destruct (self x) as [v|] eqn:S.
      - destruct (decide (v = w)) as [->|Hn].
        + rewrite list_lookup_alter_eq in Hk. apply fmap_Some in Hk as (k0 & K0 & ->). cbn in Hc. case_bool_decide as D; [done|].
          exists k0. split; [done|]. split; [done|]. intros ->. by apply D.
        + rewrite list_lookup_alter_ne in Hk by done. exists k. split; [done|]. split; [done|]. intros ->.
          destruct (H1 w k o Hk Hc) as (x' & E' & _ & S'). congruence.
      - exists k. split; [done|]. split; [done|]. intros ->. destruct (H1 w k o Hk Hc) as (x' & E' & _ & S'). congruence. }
    rewrite list_lookup_alter_ne by (intros ->; by apply Hp). by apply (H1 w k0 p).
  - intros p y w Hy Sy. rewrite Eo in Hy. destruct (decide (o = p)) as [<-|Hn].
    + rewrite list_lookup_alter_eq, E in Hy. injection Hy as <-. cbn in Sy |- *. destruct (H2 o x w E Sy) as (P & k & K & A & I & _).
      split; [done|]. exists (leave o k). rewrite Ew, Sy, list_lookup_alter_eq, K. done.
    + rewrite list_lookup_alter_ne in Hy by done. destruct (H2 p y w Hy Sy) as (P & k & K & A & I & C). split; [done|].
      rewrite Ew. destruct (self x) as [v|] eqn:S; [|eauto 10]. destruct (decide (v = w)) as [->|Hv].
      * destruct (H2 o x w E S) as (_ & k' & K' & _ & I' & _). congruence.
      * rewrite list_lookup_alter_ne by done. eauto 10.
  - rewrite Er. intros p Hp. destruct (H3 p Hp) as (y & Y & Fy). rewrite Eo, list_lookup_alter_ne by (intros ->; done). eauto.
  - rewrite Ec, Eo. intros p y Hy Py Cl. destruct (decide (o = p)) as [<-|Hn].
    + rewrite list_lookup_alter_eq, E in Hy. injection Hy as <-. cbn in Py. destruct Hp0 as [?|Hp0]; [congruence|]. specialize (Hp0 x eq_refl). congruence.
    + rewrite list_lookup_alter_ne in Hy by done. by apply (H4 p).
  - rewrite Ec. intros Cl w. specialize (H5 Cl w). unfold alive_wrk in *. rewrite Ew. destruct (self x) as [v|]; [|done].
    destruct (decide (v = w)) as [->|Hn]; [|by rewrite list_lookup_alter_ne]. rewrite list_lookup_alter_eq. by destruct (wrks s !! w).
Qed.
Lemma reach_free (o : nat) (s : World) : reach (free_object o s) = reach s /\ closed (free_object o s) = closed s.
Proof. unfold free_object. destruct (objects s !! o) as [x|]; [|done]. destruct (freed x); [done|]. by destruct (self x). Qed.
Lemma sound_collect (s : World) : sound s -> sound (collect s).
Proof.
  unfold collect. generalize (seq 0 (length (objects s))). intros l. revert s. induction l as [|o l IH]; intros s Hs; [done|]. cbn. apply IH.
  destruct (collectable s o) eqn:Cl; [|done]. unfold collectable in Cl. destruct (objects s !! o) as [x|] eqn:E; [|done].
  apply andb_true_iff in Cl as [P%negb_true_iff R%negb_true_iff]. apply bool_decide_eq_false in R. apply sound_free; [done| |done].
  right. intros x'. rewrite E. by intros [= <-].
Qed.
Lemma sound_destroy (w : nat) (s : World) : sound s -> sound (destroy_wrk w s).
Proof.
  intros Hs. unfold destroy_wrk. destruct (wrks s !! w) as [k|] eqn:K; [|done]. destruct (walive k) eqn:Ak; [|done].
  destruct Hs as [H1 H2 H3 H4 H5]. split; cbn.
  - intros v k' o Hk Hc. assert (w <> v) by (intros ->; rewrite list_lookup_alter_eq, K in Hk; by injection Hk as <-).
    rewrite list_lookup_alter_ne in Hk by done. destruct (H1 v k' o Hk Hc) as (x & E & F & S). exists x. split; [|done].
    rewrite list_lookup_fmap, E. cbn. unfold unself. by rewrite bool_decide_eq_false_2 by congruence.
  - intros o x v. rewrite list_lookup_fmap. intros (x0 & E & ->)%fmap_Some. unfold unself. case_bool_decide as D; [done|]. intros S.
    destruct (H2 o x0 v E S) as (P & k' & K' & R). split; [done|]. exists k'. rewrite list_lookup_alter_ne; [done|]. congruence.
  - intros o (x & E & F)%H3. rewrite list_lookup_fmap, E. eexists. split; [done|]. unfold unself. by case_bool_decide.
  - intros o x. rewrite list_lookup_fmap. intros (x0 & E & ->)%fmap_Some. unfold unself. case_bool_decide as D; [done|]. by apply (H4 o).
  - intros Cl v. specialize (H5 Cl w). unfold alive_wrk in H5. rewrite K in H5. congruence.
Qed.
Lemma sound_close (s : World) : (forall w, alive_wrk w s = false) -> sound s -> sound (lua_close s).
Proof.
  intros Hd Hs. unfold lua_close. assert (H0 : sound (set_closed s)) by (destruct Hs; split; cbn; try done; intros o Ho; by apply elem_of_nil in Ho).
  assert (R0 : reach (set_closed s) = [] /\ closed (set_closed s) = true) by done. revert H0 R0. generalize (set_closed s). generalize (seq 0 (length (objects s))).
  intros l. induction l as [|o l IH]; intros s' Hs' [Hr Hc]; [done|]. cbn. destruct (reach_free o s') as [Er Ec]. apply IH.
  - apply sound_free; [rewrite Hr; set_solver|by left|done].
  - by rewrite Er, Ec.
Qed.
Lemma destroy_dead (w v : nat) (s : World) : alive_wrk v (destroy_wrk w s) = (if bool_decide (w = v) then false else alive_wrk v s) /\ length (wrks (destroy_wrk w s)) = length (wrks s).
Proof.
  unfold destroy_wrk, alive_wrk. destruct (wrks s !! w) as [k|] eqn:K; [destruct (walive k) eqn:A|]; cbn.
  - rewrite length_alter. split; [|done]. case_bool_decide as D; [subst; by rewrite list_lookup_alter_eq, K|by rewrite list_lookup_alter_ne].
  - split; [|done]. case_bool_decide; [subst; by rewrite K, A|done].
  - split; [|done]. case_bool_decide; [subst; by rewrite K|done].
Qed.
Lemma sound_end (s : World) : sound s -> sound (end_instance s).
Proof.
  intros Hs. unfold end_instance.
  assert (G : forall n a s, sound s -> let s' := fold_left (fun s w => destroy_wrk w s) (seq a n) s in
    sound s' /\ length (wrks s') = length (wrks s) /\ forall v, alive_wrk v s' = true -> alive_wrk v s = true /\ (v < a \/ a + n <= v)%nat).
  { clear. induction n as [|n IH]; intros a s Hs; cbn; [split; [done|]; split; [done|]; intros v Hv; split; [done|lia]|].
    destruct (IH (S a) (destroy_wrk a s) (sound_destroy a s Hs)) as (S' & L' & A'). split; [exact S'|].
    assert (D := destroy_dead a). split; [by rewrite L', (proj2 (D 0%nat s))|]. intros v Hv. destruct (A' v Hv) as [Hd Hr].
    rewrite (proj1 (D v s)) in Hd. case_bool_decide; [done|]. split; [done|lia]. }
  destruct (G (length (wrks s)) 0%nat s Hs) as (S' & L' & A'). apply sound_close; [|exact S']. intros v.
  destruct (alive_wrk v _) eqn:E; [|done]. destruct (A' v E) as [Ha [?|Hr]]; [lia|]. unfold alive_wrk in Ha. by rewrite lookup_ge_None_2 in Ha.
Qed.
Lemma sound_new (n : string) (m : res (string * string)) (s : World) : closed s = false -> sound s -> sound (workerFactory n m s).1.
Proof.
  intros Hcl [H1 H2 H3 H4 H5]. destruct m as [[nm org]|e]; [|done]. cbn.
  set (k0 := Build_Wrk nm org true None None false). set (x0 := Build_Object n (Some (length (wrks s))) true false).
  assert (G : forall f, alter f (length (wrks s)) (wrks s ++ [k0]) = wrks s ++ [f k0]).
  { intros f. apply list_eq. intros i. destruct (decide (length (wrks s) = i)) as [<-|Hn].
    - by rewrite list_lookup_alter_eq, !lookup_app_r, Nat.sub_diag by lia.
    - rewrite list_lookup_alter_ne by done. destruct (decide (i < length (wrks s))%nat).
      + by rewrite !lookup_app_l by done.
      + rewrite !lookup_app_r by lia. destruct (i - length (wrks s))%nat eqn:?; [lia|done]. }
  split; cbn.
  - intros w k o. rewrite G. intros [Hk|[Hl Hk]]%lookup_app_Some Hc.
    + destruct (H1 w k o Hk Hc) as (x & E & R). exists x. split; [by apply lookup_app_l_Some|done].
    + apply list_lookup_singleton_Some in Hk as [Hw <-]. cbn in Hc. injection Hc as <-. exists x0.
      rewrite lookup_app_r, Nat.sub_diag by lia. split; [done|]. split; [done|]. cbn. f_equal. lia.
  - intros o x w [Hx|[Hl Hx]]%lookup_app_Some Sx.
    + destruct (H2 o x w Hx Sx) as (P & k & K & R). split; [done|]. exists k. rewrite G. split; [by apply lookup_app_l_Some|done].
    + apply list_lookup_singleton_Some in Hx as [Ho <-]. cbn in Sx. injection Sx as <-. split; [done|]. exists (pushed (length (objects s)) k0).
      rewrite G, lookup_app_r, Nat.sub_diag by lia. replace o with (length (objects s)) by lia. done.
  - intros o Ho. apply list_elem_of_In in Ho as [<-|Ho].
    + exists x0. by rewrite lookup_app_r, Nat.sub_diag by lia.
    + apply list_elem_of_In in Ho. destruct (H3 o Ho) as (x & E & F). exists x. split; [by apply lookup_app_l_Some|done].
  - intros o x [Hx|[Hl Hx]]%lookup_app_Some; [by apply (H4 o)|]. apply list_lookup_singleton_Some in Hx as [_ <-]. done.
  - congruence.
Qed.
Lemma event_sound (e : WorldEvent) (s : World) : sound s -> exists s', world_event e s = Some s' /\ sound s'.
Proof.
  intros Hs. destruct e as [n m|w|w msg|o|o| |]; cbn [world_event].
  - eexists. split; [done|]. destruct (closed s) eqn:Cl; [done|by apply sound_new].
  - destruct (closed s) eqn:Cl; [rewrite (end_ok s Hs Cl w)|]; cbn; eexists; (split; [done|by apply sound_destroy]).
  - unfold emit. destruct (wrks s !! w) as [k|] eqn:K; [|eauto]. destruct (conns k) as [o|] eqn:Cn; [|eauto].
    destruct (conn_ok s Hs w k o K Cn) as (x & E & F & _). rewrite E. cbn. rewrite F. eexists. split; [done|].
    destruct Hs. by split.
  - eexists. split; [done|]. apply sound_set_reach; [|done]. intros p Hp. left. rewrite !list_elem_of_In, filter_In in *. tauto.
  - eexists. split; [done|]. destruct (objects s !! o) as [x|] eqn:E; [|done]. destruct (pinned x && negb (closed s))%bool eqn:P; [|done].
    apply sound_set_reach; [|done]. intros p [->|Hp]%elem_of_cons; [|by left]. right. exists x. split; [done|].
    apply andb_true_iff in P as [P Cl%negb_true_iff]. by apply (pin_ok s Hs o).
  - eexists. split; [done|]. destruct (closed s); [done|by apply sound_collect].
  - eexists. split; [done|]. destruct (closed s); [done|by apply sound_end].
Qed.
Lemma world_sound (es : list WorldEvent) : forall s, sound s -> exists s', world_run es s = Some s' /\ sound s'.
Proof.
  induction es as [|e es IH]; intros s Hs; [by exists s|]. cbn. destruct (event_sound e s Hs) as (s1 & -> & H1). by apply IH.
Qed.
(** C16: whatever is created, destroyed, emitted, dropped, collected and in whatever order the
    instance ends, a worker's signal never reads a freed object, no worker outlives the Lua
    state it gives its slot back to; an object a script can
    reach is not freed; and as long as a worker lives and the state is open, its object
    is kept, still points to it and is what [workers[name]] and its listeners get. *)
Theorem objects_safe (es : list WorldEvent) : exists s, world_run es world_init = Some s /\
  (forall o, o ∈ reach s -> exists x, objects s !! o = Some x /\ freed x = false) /\
  (forall w k o, wrks s !! w = Some k -> conns k = Some o -> exists x, objects s !! o = Some x /\ freed x = false /\ self x = Some w /\ pinned x = true) /\
  (forall o x w, objects s !! o = Some x -> self x = Some w -> closed s = false ->
     freed x = false /\ exists k, wrks s !! w = Some k /\ walive k = true /\ conns k = Some o).
Proof.
  destruct (world_sound es world_init sound_init) as (s & R & Hs). exists s. split; [done|]. split; [apply Hs|]. split.
  - intros w k o K Cn. destruct (conn_ok s Hs w k o K Cn) as (x & E & F & S). exists x. repeat split; try done. by apply (self_ok s Hs o x w).
  - intros o x w E S Cl. destruct (self_ok s Hs o x w E S) as (P & k & K & A & _ & Cn).
    assert (freed x = false) as F by by apply (pin_ok s Hs o). split; [done|]. exists k. auto.
Qed.
(** A worker made in C++ and never pushed has no object: [CurrentSender] reads a pointer
    nothing initialised. *)
Example sender_of_unpushed : forall senders, CurrentSender 0 senders {| objects := []; wrks := [Build_Wrk "plugin" "<CPP>" true None None false]; reach := []; notified := []; closed := false |} = None.
Proof. done. Qed.
(** A full life: a worker, a message, a drop and a collection while it lives, its end,
    and what Lua sees after. *)
Example sample_life :
  option_map (fun s => (map freed (objects s), notified s, worker_index [] 0 (Some "name") s, worker_tostring (fun _ => "0x1") 0 s))
    (world_run [ENew "TestWorker" (Ok ("test", "a.lua:3")); EDrop 0; ECollect; EEmit 0 (VInt 1); EReach 0; EDestroyed 0; ECollect; EEmit 0 (VInt 2)] world_init)
  = Some ([false], [(0%nat, VInt 1)], Some (Raise "worker not usable"), Some "TestWorker(destroyed)").
Proof. vm_compute. reflexivity. Qed.

(** ** Calling a method of a worker class ([DoInvokeExtraMethod]) *)
(** How a parameter is taken: the arguments whole, the first as it is, or parsed. *)
Inductive Param (A : Type) := PArgs (f : list QVar -> A) | PFirst (f : QVar -> A) | PParsed (parse : QVar -> res A).
Arguments PArgs {A} _.
Arguments PFirst {A} _.
Arguments PParsed {A} _.
Definition first_arg (args : list QVar) : res QVar := match args with [] => Raise "Expected at least 1 argument" | v :: _ => Ok v end.
Definition convert_args {A} (p : Param A) (args : list QVar) : res A :=
  match p with
  | PArgs f => Ok (f args)
  | PFirst f => match first_arg args with Ok v => Ok (f v) | Raise e => Raise e end
  | PParsed parse => match first_arg args with Ok v => parse v | Raise e => Raise e end
  end.
Definition parse_at {A} (p : QVar -> res A) (i : nat) (args : list QVar) : res A := p (default VInvalid (args !! i)).
Fixpoint parse_from {A} (ps : list (QVar -> res A)) (i : nat) (args : list QVar) : res (list A) :=
  match ps with
  | [] => Ok []
  | p :: ps => match parse_at p i args with
               | Raise e => Raise e
               | Ok a => match parse_from ps (S i) args with Raise e => Raise e | Ok l => Ok (a :: l) end
               end
  end.
(** The three forms of a method: one parameter giving a [QVariant], no result, any other. *)
Inductive Method (A : Type) :=
| MRaw (p : Param A) (f : A -> res QVar)
| MVoid (ps : list (QVar -> res A)) (f : list A -> res unit)
| MValue (ps : list (QVar -> res A)) (f : list A -> res QVar).    (* with [Dump] of what it returns *)
Arguments MRaw {A} _ _.
Arguments MVoid {A} _ _.
Arguments MValue {A} _ _.
Definition InvokeExtraMethod {A} (m : Method A) (args : list QVar) : res QVar :=
  match m with
  | MRaw p f => match convert_args p args with Raise e => Raise e | Ok a => f a end
  | MVoid ps f => match parse_from ps 0 args with Raise e => Raise e | Ok l => match f l with Raise e => Raise e | Ok _ => Ok VInvalid end end
  | MValue ps f => match parse_from ps 0 args with Raise e => Raise e | Ok l => f l end
  end.
Lemma parse_from_length {A} (ps : list (QVar -> res A)) (i : nat) (args : list QVar) (l : list A) : parse_from ps i args = Ok l -> length l = length ps.
Proof.
  revert i l. induction ps as [|p ps IH]; intros i l; cbn; [by intros [= <-]|].
  destruct (parse_at p i args); [|done]. destruct (parse_from ps (S i) args) eqn:E; [|done]. intros [= <-]. cbn. f_equal. by eapply IH.
Qed.
(** The arguments a method gets are the call's in place, missing ones as invalid values. *)
Lemma parse_from_spec {A} (ps : list (QVar -> res A)) (i : nat) (args : list QVar) (l : list A) : parse_from ps i args = Ok l ->
  forall j p, ps !! j = Some p -> exists a, l !! j = Some a /\ p (default VInvalid (args !! (i + j)%nat)) = Ok a.
Proof.
  revert i l. induction ps as [|p ps IH]; intros i l; cbn; [intros _ j p Hj; by rewrite lookup_nil in Hj|].
  destruct (parse_at p i args) as [a|] eqn:P; [|done]. destruct (parse_from ps (S i) args) as [l'|] eqn:E; [|done]. intros [= <-] j q.
  destruct j as [|j]; cbn; [intros [= <-]; exists a; by rewrite Nat.add_0_r|]. intros Hj.
  replace (i + S j)%nat with (S i + j)%nat by lia. by eapply IH.
Qed.

(** ** [TestWorker] *)
Module TestWorker.
Record TestConfig := { conf : WorkerConfig; delay : Z }.
Definition default_delay : Z := 1000.
Record State := { current : Z; timer_active : bool }.
Definition ctor (c : TestConfig) : State := {| current := 0; timer_active := 0 <=? delay c |}.
Definition on_timeout (s : State) : State * list Emission :=
  if timer_active s then ({| current := (current s + 1) mod 2 ^ 32; timer_active := true |}, [SendMsg (VUInt (current s))]) else (s, []).
Definition OnMsg (text : string) (s : State) : State * list Emission := (s, [LogLine info ("Msg => '" +:+ text +:+ "'")]).
(** [Call]: the function is called with 1, 2, 3. *)
Definition Call (fn : option nat) : option (nat * list QVar * string) :=
  match fn with Some f => Some (f, [VInt 1; VInt 2; VInt 3], "TestWorker") | None => None end.
Fixpoint ticks (n : nat) (s : State) : list Emission :=
  match n with O => [] | S n => let '(s, e) := on_timeout s in e ++ ticks n s end.
Lemma ticks_spec (n : nat) : forall c, 0 <= c < 2 ^ 32 ->
  ticks n {| current := c; timer_active := true |} = map (fun i => SendMsg (VUInt ((c + Z.of_nat i) mod 2 ^ 32))) (seq 0 n).
Proof.
  induction n as [|n IH]; intros c Hc; [done|]. cbn [ticks on_timeout timer_active current]. rewrite IH by (apply Z.mod_pos_bound; lia).
  cbn [seq map app]. change (Z.of_nat 0) with 0. rewrite Z.add_0_r, (Z.mod_small c) by lia. f_equal. rewrite <- seq_shift, map_map. apply map_ext. intros i.
  rewrite Zplus_mod_idemp_l. do 3 f_equal. lia.
Qed.
(** The worker counts its timeouts from zero, around the 32-bit range. *)
Theorem test_worker_counts (c : TestConfig) (n : nat) : 0 <= delay c ->
  ticks n (ctor c) = map (fun i => SendMsg (VUInt (Z.of_nat i mod 2 ^ 32))) (seq 0 n).
Proof. intros H. unfold ctor. rewrite (proj2 (Z.leb_le _ _) H). exact (ticks_spec n 0 ltac:(lia)). Qed.
End TestWorker.
