(* ===== verification/Ros.v ===== *)
(** * The ROS 2 plugin ([src/plugins/ros/ros_conversions.hpp], [ros_plugin.cpp])

    A ROS message is memory described by introspection data: [Ty] is that data, a value
    [RVal] the memory it describes.  [ros_to_qt] reads it into a [QVariant],
    [qt_to_ros] writes one back into a message that was initialised.  A worker node
    publishes what it is sent, passes on what it subscribes to and answers requests when
    it polls their futures.  ROS itself, the generated accessors' presence and Qt's
    number conversions are parameters; [None] is undefined behaviour. *)
From S2P Require Import Prelude QVariant Utils Worker.
Set Warnings "-register-all,-clear-no-such-hyp".

(** ** Introspection data *)
Inductive TypeId := BOOLEAN | BYTE | CHAR | FLOAT | DOUBLE | INT8 | UINT8 | INT16 | UINT16 | INT32 | UINT32 | INT64 | UINT64 | STRING | OTHER.
Record Arr := {
  array_size : nat;               (* of a fixed array *)
  has_size : bool;                (* size_function *)
  has_get : bool;                 (* get_function, get_const_function *)
  has_resize : bool               (* resize_function *)
}.
Inductive Ty := Prim (p : TypeId) | Message (members : list (string * option Arr * Ty)).
Inductive RVal := RBool (b : bool) | RInt (z : Z) | RBits (bits : Z) | RStr (s : string) | RMsg (fields : list RVal) | RArr (elements : list RVal).

(** What Qt's [QVariant] conversions do; [number] is [value<T>()], [toInt()] and the
    like at the width of the type. *)
Class RosConv := {
  toBool : QVar -> bool;
  number : TypeId -> QVar -> Z;
  toFloat : QVar -> Z;
  toDouble : QVar -> Z;
  toText : QVar -> string;
  canConvertList : QVar -> bool;
  toList : QVar -> list QVar;
  toMap : QVar -> list (string * QVar)
}.
Definition range (p : TypeId) : Z * Z :=
  match p with
  | BYTE | UINT8 => (0, 2 ^ 8) | CHAR | INT8 => (- 2 ^ 7, 2 ^ 7)
  | INT16 => (- 2 ^ 15, 2 ^ 15) | UINT16 => (0, 2 ^ 16)
  | INT32 => (- 2 ^ 31, 2 ^ 31) | UINT32 => (0, 2 ^ 32)
  | INT64 => (- 2 ^ 63, 2 ^ 63) | UINT64 => (0, 2 ^ 64)
  | _ => (0, 0)
  end.
Definition in_range (p : TypeId) (z : Z) : bool := ((fst (range p) <=? z) && (z <? snd (range p)))%bool.

Section conversions.
Context `{RC : RosConv} (fromStd toStd : string -> string) (fresh : Ty -> RVal).

(** Small integers are promoted to [int] by the constructors of [QVariant]. *)
Definition extract_field (v : RVal) (type_id : TypeId) : QVar :=
  match type_id, v with
  | BOOLEAN, RBool b => VBool b
  | (BYTE | CHAR | INT8 | UINT8 | INT16 | UINT16 | INT32), RInt z => VInt z
  | FLOAT, RBits b => VFloat b
  | DOUBLE, RBits b => VDouble b
  | UINT32, RInt z => VUInt z
  | INT64, RInt z => VLongLong z
  | UINT64, RInt z => VULongLong z
  | STRING, RStr s => VString (fromStd s)
  | _, _ => VInvalid
  end.
Definition pack_field (old : RVal) (type_id : TypeId) (value : QVar) : RVal :=
  match type_id with
  | BOOLEAN => RBool (toBool value)
  | FLOAT => RBits (toFloat value)
  | DOUBLE => RBits (toDouble value)
  | STRING => RStr (toStd (toText value))
  | OTHER => old
  | p => RInt (number p value)
  end.

Definition size_of (a : Arr) (l : list RVal) : nat := if has_size a then length l else array_size a.
Fixpoint elements_to_qt (conv : RVal -> res QVar) (l : list RVal) : res (list QVar) :=
  match l with
  | [] => Ok []
  | x :: l => match conv x with Raise e => Raise e | Ok q => match elements_to_qt conv l with Raise e => Raise e | Ok qs => Ok (q :: qs) end end
  end.
Definition no_accessor (name : string) : string := "Array accessor functions missing for field: " +:+ name.
Definition member_to_qt (conv : RVal -> res QVar) (name : string) (a : option Arr) (v : RVal) : res QVar :=
  match a with
  | Some a =>
      let l := match v with RArr l => l | _ => [] end in
      let n := size_of a l in
      if (negb (has_get a) && negb (n =? 0)%nat)%bool then Raise (no_accessor name)
      else match elements_to_qt conv (take n l) with Raise e => Raise e | Ok qs => Ok (VList qs) end
  | None => conv v
  end.
Definition members_to_qt (conv : Ty -> RVal -> res QVar) : list (string * option Arr * Ty) -> list RVal -> list (string * QVar) -> res (list (string * QVar)) :=
  fix go ms fs message_map :=
    match ms, fs with
    | (name, a, t) :: ms, f :: fs =>
        match member_to_qt (conv t) name a f with
        | Raise e => Raise e
        | Ok q => go ms fs (qm_insert name q message_map)
        end
    | _, _ => Ok message_map
    end.
Definition fields_of (v : RVal) : list RVal := match v with RMsg fs => fs | _ => [] end.
Fixpoint ros_to_qt (t : Ty) (v : RVal) {struct t} : res QVar :=
  match t with
  | Prim p => Ok (extract_field v p)
  | Message ms => match members_to_qt ros_to_qt ms (fields_of v) [] with Raise e => Raise e | Ok m => Ok (VMap m) end
  end.

(** Elements are written one by one; the accessor gives no bounds. *)
Fixpoint set_elements (conv : RVal -> QVar -> option RVal) (els : list RVal) (l : list QVar) : option (list RVal) :=
  match l with
  | [] => Some els
  | q :: l => match els with
              | [] => None
              | e :: es => e' ← conv e q; es' ← set_elements conv es l; Some (e' :: es')
              end
  end.
Definition resize (t : Ty) (n : nat) (l : list RVal) : list RVal := take n l ++ repeat (fresh t) (n - length l).
Definition member_to_ros (conv : RVal -> QVar -> option RVal) (t : Ty) (a : option Arr) (old : RVal) (q : QVar) : option RVal :=
  match a with
  | Some a =>
      if negb (canConvertList q) then Some old
      else
        let l := toList q in
        let els := match old with RArr els => els | _ => [] end in
        let els := if has_resize a then resize t (length l) els else els in
        if (negb (has_get a) && negb (length l =? 0)%nat)%bool then None
        else els ← set_elements conv els l; Some (RArr els)
  | None => conv old q
  end.
Definition members_to_ros (conv : Ty -> RVal -> QVar -> option RVal) (source_map : list (string * QVar)) : list (string * option Arr * Ty) -> list RVal -> option (list RVal) :=
  fix go ms fs :=
    match ms, fs with
    | (name, a, t) :: ms, f :: fs =>
        f' ← match qm_find name source_map with None => Some f | Some v => member_to_ros (conv t) t a f v end;
        fs' ← go ms fs; Some (f' :: fs')
    | _, _ => Some fs
    end.
Fixpoint qt_to_ros (t : Ty) (ros_msg : RVal) (msg : QVar) {struct t} : option RVal :=
  match t with
  | Prim p => Some (pack_field ros_msg p msg)
  | Message ms => fs ← members_to_ros qt_to_ros (toMap msg) ms (fields_of ros_msg); Some (RMsg fs)
  end.
End conversions.

(** ** Reading what was written *)
Class RosConvLaws `{RosConv} := {
  toBool_of : forall b, toBool (VBool b) = b;
  number_int : forall p z, in_range p z = true -> number p (VInt z) = z;
  number_uint : forall p z, in_range p z = true -> number p (VUInt z) = z;
  number_longlong : forall p z, in_range p z = true -> number p (VLongLong z) = z;
  number_ulonglong : forall p z, in_range p z = true -> number p (VULongLong z) = z;
  toFloat_of : forall b, toFloat (VFloat b) = b;
  toDouble_of : forall b, toDouble (VDouble b) = b;
  toText_of : forall s, toText (VString s) = s;
  canConvert_of : forall l, canConvertList (VList l) = true;
  toList_of : forall l, toList (VList l) = l;
  toMap_of : forall m, toMap (VMap m) = m
}.
Section Ty_induction.
Variable P : Ty -> Prop.
Hypothesis Hprim : forall p, P (Prim p).
Hypothesis Hmsg : forall ms, Forall (fun m => P m.2) ms -> P (Message ms).
Fixpoint Ty_nested_ind (t : Ty) : P t :=
  match t with
  | Prim p => Hprim p
  | Message ms => Hmsg ms ((fix go ms : Forall (fun m => P m.2) ms :=
      match ms with
      | [] => @List.Forall_nil _ (fun m => P m.2)
      | (n, a, t) :: ms => @List.Forall_cons _ (fun m => P m.2) (n, a, t) ms (Ty_nested_ind t) (go ms)
      end) ms)
  end.
End Ty_induction.

Section roundtrip.
Context `{RL : RosConvLaws} (fromStd toStd : string -> string) (fresh : Ty -> RVal).
Definition prim_ok (p : TypeId) (v : RVal) : Prop :=
  match p, v with
  | BOOLEAN, RBool _ | FLOAT, RBits _ | DOUBLE, RBits _ => True
  | STRING, RStr s => toStd (fromStd s) = s
  | (BYTE | CHAR | INT8 | UINT8 | INT16 | UINT16 | INT32 | UINT32 | INT64 | UINT64), RInt z => in_range p z = true
  | _, _ => False
  end.
(** An array with its accessors, either growable or of its declared size. *)
Definition arr_ok (a : Arr) (n : nat) : Prop := has_get a = true /\ (has_resize a = true \/ n = array_size a) /\ (has_size a = true \/ n = array_size a).
Definition members_ok (ok : Ty -> RVal -> Prop) (arrays : Arr -> nat -> Prop) : list (string * option Arr * Ty) -> list RVal -> Prop :=
  fix go ms fs :=
    match ms, fs with
    | [], [] => True
    | (_, None, t) :: ms, f :: fs => ok t f /\ go ms fs
    | (_, Some a, t) :: ms, RArr l :: fs => (arrays a (length l) /\ Forall (ok t) l) /\ go ms fs
    | _, _ => False
    end.
(** A message of the type, with distinct member names. *)
Fixpoint wf (t : Ty) (v : RVal) : Prop :=
  match t with
  | Prim p => prim_ok p v
  | Message ms => NoDup (map (fun m => m.1.1) ms) /\ (exists fs, v = RMsg fs) /\ members_ok wf arr_ok ms (fields_of v)
  end.
(** Memory laid out for the type, whatever it holds. *)
Fixpoint shaped (t : Ty) (v : RVal) : Prop :=
  match t with
  | Prim _ => True
  | Message ms => members_ok shaped (fun a n => has_resize a = false -> n = array_size a) ms (fields_of v)
  end.
Hypothesis fresh_shaped : forall t, shaped t (fresh t).

Lemma prim_roundtrip (p : TypeId) (old v : RVal) : prim_ok p v -> pack_field toStd old p (extract_field fromStd v p) = v.
Proof.
  destruct p, v; cbn [prim_ok pack_field extract_field]; try done; intros Hv;
  rewrite ?toBool_of, ?toFloat_of, ?toDouble_of, ?toText_of, ?Hv, ?number_int, ?number_uint, ?number_longlong, ?number_ulonglong by done; done.
Qed.
Definition reads (t : Ty) : Prop := forall v, wf t v -> exists q, ros_to_qt fromStd t v = Ok q /\
  forall old, shaped t old -> qt_to_ros toStd fresh t old q = Some v.
Lemma elements_read (t : Ty) (l : list RVal) : reads t -> Forall (wf t) l -> exists qs, elements_to_qt (ros_to_qt fromStd t) l = Ok qs /\ length qs = length l /\
  forall els, length els = length l -> Forall (shaped t) els -> set_elements (qt_to_ros toStd fresh t) els qs = Some l.
Proof.
  intros Ht Hl. induction Hl as [|v l Hv Hl (qs & E & L & S)].
  - exists []. split; [done|]. split; [done|]. by intros [|].
  - destruct (Ht v Hv) as (q & Eq & Rq). exists (q :: qs). cbn. rewrite Eq, E. split; [done|]. split; [by rewrite L|].
    intros [|e els]; [done|]. intros [= Le] [Se Ss]%Forall_cons. cbn. rewrite (Rq e Se). cbn. by rewrite (S els Le Ss).
Qed.
Lemma resize_shaped (t : Ty) (n : nat) (l : list RVal) : Forall (shaped t) l -> length (resize fresh t n l) = n /\ Forall (shaped t) (resize fresh t n l).
Proof.
  intros Hl. unfold resize. rewrite length_app, length_take, repeat_length. split; [lia|].
  apply Forall_app. split; [by apply Forall_take|]. apply List.Forall_forall. intros x Hx%repeat_spec. by subst.
Qed.
Lemma array_read (t : Ty) (name : string) (a : Arr) (l : list RVal) : reads t -> arr_ok a (length l) -> Forall (wf t) l ->
  exists q, member_to_qt (ros_to_qt fromStd t) name (Some a) (RArr l) = Ok q /\
    forall els, (has_resize a = false -> length els = array_size a) -> Forall (shaped t) els ->
      member_to_ros fresh (qt_to_ros toStd fresh t) t (Some a) (RArr els) q = Some (RArr l).
Proof.
  intros Ht (Hg & Hr & Hs) Hl. destruct (elements_read t l Ht Hl) as (qs & E & L & S). exists (VList qs). cbn.
  assert (size_of a l = length l) as -> by (unfold size_of; destruct (has_size a); [done|]; destruct Hs; congruence).
  rewrite Hg. cbn. rewrite take_ge by lia. rewrite E. split; [done|]. intros els Hels Hsh. rewrite canConvert_of, toList_of. cbn.
  rewrite S; [done|..]; destruct (has_resize a) eqn:R; try done; rewrite ?L; try by apply resize_shaped.
  rewrite Hels by done. by destruct Hr.
Qed.
Lemma ros_members_read (ms : list (string * option Arr * Ty)) : Forall (fun m => reads m.2) ms -> NoDup (map (fun m => m.1.1) ms) -> forall fs acc,
  members_ok wf arr_ok ms fs -> exists m, members_to_qt (ros_to_qt fromStd) ms fs acc = Ok m /\
    (forall k, (k ∉ map (fun m => m.1.1) ms) -> qm_find k m = qm_find k acc) /\
    forall olds m', members_ok shaped (fun a n => has_resize a = false -> n = array_size a) ms olds ->
      (forall k, k ∈ map (fun m => m.1.1) ms -> qm_find k m' = qm_find k m) ->
      members_to_ros fresh (qt_to_ros toStd fresh) m' ms olds = Some fs.
Proof.
  induction 1 as [|[[n a] t] ms Ht Hms IH]; cbn [map fst]; intros Hn fs acc Hw.
  - destruct fs; [|done]. exists acc. split; [done|]. split; [done|]. intros [|]; [done|]. by intros.
  - apply NoDup_cons in Hn as [Hn Hnd]. destruct fs as [|f fs]; [by destruct a|].
    assert (M : exists q, member_to_qt (ros_to_qt fromStd t) n a f = Ok q /\ (members_ok wf arr_ok ms fs) /\
      forall o os, members_ok shaped (fun a n => has_resize a = false -> n = array_size a) ((n, a, t) :: ms) (o :: os) ->
        member_to_ros fresh (qt_to_ros toStd fresh t) t a o q = Some f /\ members_ok shaped (fun a n => has_resize a = false -> n = array_size a) ms os).
    { destruct a as [a|].
      - destruct f as [| | | | |l]; try done. destruct Hw as [[Ha Hl] Hw]. destruct (array_read t n a l Ht Ha Hl) as (q & E & R).
        exists q. split; [done|]. split; [done|]. intros o os Ho. destruct o as [| | | | |els]; try done. destruct Ho as [[Hr Hs] Ho].
        split; [by apply R|done].
      - destruct Hw as [Hf Hw]. destruct (Ht f Hf) as (q & E & R). exists q. split; [done|]. split; [done|].
        intros o os [Ho Hos]. split; [by apply R|done]. }
    destruct M as (q & E & Hw' & R). destruct (IH Hnd fs (qm_insert n q acc) Hw') as (m & Em & Hout & Hin). exists m. cbn [members_to_qt]. rewrite E.
    split; [exact Em|]. split.
    + intros k Hk. rewrite Hout by set_solver. apply qm_find_insert_ne. set_solver.
    + intros [|o os] m' Ho Hm'; [by destruct a|]. destruct (R o os Ho) as [Er Hos]. cbn [members_to_ros].
      rewrite (Hm' n) by set_solver. rewrite Hout, qm_find_insert_eq by done. rewrite Er. cbn.
      assert (members_to_ros fresh (qt_to_ros toStd fresh) m' ms os = Some fs) as H2 by (apply Hin; [done|]; intros; apply Hm'; set_solver).
      by rewrite H2.
Qed.
Lemma all_read (t : Ty) : reads t.
Proof.
  induction t as [p|ms IH] using Ty_nested_ind; intros v Hv.
  - eexists. split; [done|]. intros old _. cbn. by rewrite prim_roundtrip.
  - destruct Hv as (Hn & [fs ->] & Hw). destruct (ros_members_read ms IH Hn fs [] Hw) as (m & E & _ & R). exists (VMap m).
    cbn [ros_to_qt fields_of]. rewrite E. split; [done|]. intros old Ho. cbn [qt_to_ros]. rewrite toMap_of, (R (fields_of old) m Ho); [done|]. done.
Qed.
(** C39: reading a well-formed ROS message ([ros_to_qt]) gives a variant, and writing
    that variant ([qt_to_ros]) into any memory laid out for the type gives the message,
    whatever the memory held: nested messages, arrays fixed and growing, integers of
    every width. *)
Theorem ros_roundtrip (t : Ty) (v old : RVal) : wf t v -> shaped t old ->
  exists q, ros_to_qt fromStd t v = Ok q /\ qt_to_ros toStd fresh t old q = Some v.
Proof. intros Hv Ho. destruct (all_read t v Hv) as (q & E & R). exists q. auto. Qed.
End roundtrip.

(** ** Names of type support *)
Definition word_char (c : ascii) : bool :=
  let n := Z.of_nat (nat_of_ascii c) in
  (((48 <=? n) && (n <=? 57)) || ((65 <=? n) && (n <=? 90)) || ((97 <=? n) && (n <=? 122)) || (n =? 95))%bool.
(** [\w+] takes as much as it can; giving back never helps, a slash follows. *)
Fixpoint word_run (s : string) : string * string :=
  match s with
  | EmptyString => (EmptyString, EmptyString)
  | String c s' => if word_char c then let '(w, r) := word_run s' in (String c w, r) else (EmptyString, s)
  end.
Fixpoint after_prefix (p s : string) : option string :=
  match p, s with
  | EmptyString, _ => Some s
  | String a p, String b s => if bool_decide (a = b) then after_prefix p s else None
  | String _ _, EmptyString => None
  end.
Definition match_here (sep s : string) : option (string * string) :=
  let '(w, r) := word_run s in
  if bool_decide (w = "") then None
  else r ← after_prefix sep r; let '(m, _) := word_run r in if bool_decide (m = "") then None else Some (w, m).
(** [QRegularExpression::match]: the first place where it matches, anywhere. *)
Fixpoint match_anywhere (sep s : string) : option (string * string) :=
  match match_here sep s with
  | Some r => Some r
  | None => match s with EmptyString => None | String _ s => match_anywhere sep s end
  end.
Record TsName := { library : string; symbol : string }.
Definition typesupport_name (library_name : string -> string) (is_introspect : bool) (package subfolder msg_name : string) : TsName :=
  let impl := if is_introspect then "_introspection" else "" in
  {| library := library_name (((package +:+ "__rosidl_typesupport") +:+ impl) +:+ "_cpp");
     symbol := "rosidl_typesupport" +:+ impl +:+ "_cpp__get_message_type_support_handle__" +:+ package +:+ "__" +:+ subfolder +:+ "__" +:+ msg_name |}.
Section typesupport.
(** [SharedLibrary], [has_symbol] with what the symbol's function returns. *)
Context {TS : Type} (library_name : string -> string) (open_library : string -> res unit) (get_symbol : string -> string -> option TS).
(** [libcache]: the libraries opened so far. *)
Definition get_typesupport (n : TsName) (libcache : list string) : list string * res TS :=
  let r := if bool_decide (library n ∈ libcache) then Ok libcache
           else match open_library (library n) with Ok _ => Ok (library n :: libcache) | Raise e => Raise e end in
  match r with
  | Raise e => (libcache, Raise e)
  | Ok cache => (cache, match get_symbol (library n) (symbol n) with Some t => Ok t | None => Raise ("Symbol not found: " +:+ symbol n) end)
  end.
Definition get_msg_typesupport (is_introspection : bool) (full_name : string) (cache : list string) : list string * res TS :=
  match match_anywhere "/msg/" full_name with
  | None => (cache, Raise ("Invalid msg name: " +:+ full_name))
  | Some (pkg, m) => get_typesupport (typesupport_name library_name is_introspection pkg "msg" m) cache
  end.
Definition get_srv_typesupport (is_introspection : bool) (full_name : string) (cache : list string) : list string * res (TS * TS) :=
  match match_anywhere "/srv/" full_name with
  | None => (cache, Raise ("Invalid srv name: " +:+ full_name))
  | Some (pkg, m) =>
      match get_typesupport (typesupport_name library_name is_introspection pkg "srv" (m +:+ "_Request")) cache with
      | (cache, Raise e) => (cache, Raise e)
      | (cache, Ok req) =>
          match get_typesupport (typesupport_name library_name is_introspection pkg "srv" (m +:+ "_Response")) cache with
          | (cache, Raise e) => (cache, Raise e)
          | (cache, Ok rsp) => (cache, Ok (req, rsp))
          end
      end
  end.
End typesupport.

(** ** Log lines of ROS *)
Inductive Severity := SDebug | SInfo | SWarn | SError | SFatal | SOther.
Definition severity_level (s : Severity) : LogLevel :=
  match s with SDebug => debug | SInfo => info | SWarn => warn | SError | SFatal | SOther => error end.
Definition buffer_size : Z := 2048.
(** [vsnprintf] returns the length of the whole text; the view made of it must stay in
    the buffer (its terminator included). *)
Definition logging_handler (severity : Severity) (name : string) (text : string) : option (LogLevel * string * string) :=
  let sz := Z.of_nat (String.length text) in
  if buffer_size <? sz then None
  else Some (severity_level severity, "ros2:" +:+ name, if sz =? buffer_size then str_take 2047 text +:+ String (ascii_of_nat 0) "" else text).

(** ** The node *)
Inductive Delivery := DMessage (topic : string) (var : QVar) (handler : option nat) | DError (topic what : string).
Inductive NodeAct := Publish (topic : string) (msg : RVal) | NWarn (topic : string) | CallHandler (h : nat) (args : list QVar) | NError (topic what : string) | NSend (e : Emission).
Record NodeState := {
  m_pubs : gmap string Ty;
  m_subs : list (string * Ty * option nat);
  m_clients : gmap string (Ty * Ty);
  m_pending : list (nat * (string * Ty));    (* requests: the promise, the client and the type of its answers *)
  requested : nat;                            (* how many were made *)
  sent : list (nat * string * RVal);
  resolved : list (nat * res QVar);
  queue : list Delivery;                      (* queued to the main thread *)
  node_acts : list NodeAct
}.
Definition set_pending (p : list (nat * (string * Ty))) (r : list (nat * res QVar)) (n : NodeState) : NodeState :=
  {| m_pubs := m_pubs n; m_subs := m_subs n; m_clients := m_clients n; m_pending := p; requested := requested n; sent := sent n; resolved := r;
     queue := queue n; node_acts := node_acts n |}.
Definition add_request (id : nat) (client : string) (rsp : Ty) (msg : RVal) (n : NodeState) : NodeState :=
  {| m_pubs := m_pubs n; m_subs := m_subs n; m_clients := m_clients n; m_pending := m_pending n ++ [(id, (client, rsp))]; requested := S id;
     sent := sent n ++ [(id, client, msg)]; resolved := resolved n; queue := queue n; node_acts := node_acts n |}.
Definition set_queue (q : list Delivery) (a : list NodeAct) (n : NodeState) : NodeState :=
  {| m_pubs := m_pubs n; m_subs := m_subs n; m_clients := m_clients n; m_pending := m_pending n; requested := requested n; sent := sent n; resolved := resolved n;
     queue := q; node_acts := a |}.
Section node.
Context `{RC : RosConv} (fromStd toStd : string -> string) (fresh : Ty -> RVal).
Context (typesupport : string -> res Ty) (srv_typesupport : string -> res (Ty * Ty)).   (* both libraries of a name, as above *)
(** The configuration: topics and services in the order of their [std::map]. *)
Record Config := { subs : list (string * (string * option nat)); pubs : list (string * string); clients : list (string * string) }.
Fixpoint open_subs (l : list (string * (string * option nat))) : res (list (string * Ty * option nat)) :=
  match l with
  | [] => Ok []
  | (topic, (type, h)) :: l => match typesupport type with Raise e => Raise e | Ok t => match open_subs l with Raise e => Raise e | Ok r => Ok ((topic, t, h) :: r) end end
  end.
Fixpoint open_each {A} (ts : string -> res A) (l : list (string * string)) (acc : gmap string A) : res (gmap string A) :=
  match l with
  | [] => Ok acc
  | (name, type) :: l => match ts type with Raise e => Raise e | Ok t => open_each ts l (<[name := t]> acc) end
  end.
(** The constructor; [state]: the plugin's [RosState] was found among the children of
    the instance ([m_state] is used without a test).  The fields it advertises when
    tags are enabled come with it. *)
Definition NodeWorker (state : bool) (tags : bool) (c : Config) : option (res (NodeState * list string)) :=
  if negb state then None
  else Some (match open_subs (subs c) with
    | Raise e => Raise e
    | Ok s => match open_each typesupport (pubs c) ∅ with
      | Raise e => Raise e
      | Ok p => match open_each srv_typesupport (clients c) ∅ with
        | Raise e => Raise e
        | Ok cl => Ok ({| m_pubs := p; m_subs := s; m_clients := cl; m_pending := []; requested := 0; sent := []; resolved := []; queue := []; node_acts := [] |},
                       if tags then map fst (subs c) else [])
        end
      end
    end).

(** A subscription's callback, on the executor's thread: what deserialising gave. *)
Definition on_topic (i : nat) (msg : res RVal) (n : NodeState) : NodeState :=
  match m_subs n !! i with
  | None => n
  | Some (topic, t, h) =>
      match (match msg with Raise e => Raise e | Ok m => ros_to_qt fromStd t m end) with
      | Raise e => set_queue (queue n ++ [DError topic e]) (node_acts n) n
      | Ok var => set_queue (queue n ++ [DMessage topic var h]) (node_acts n) n
      end
  end.
(** The main thread takes what was queued, in order. *)
Definition deliver (d : Delivery) : list NodeAct :=
  match d with
  | DMessage topic var h => match h with Some h => [CallHandler h [var]] | None => [] end ++ [NSend (SendMsgField topic var)]
  | DError topic what => [NError topic what]
  end.
Definition turn (n : NodeState) : NodeState :=
  match queue n with [] => n | d :: q => set_queue q (node_acts n ++ deliver d) n end.

Fixpoint publish_all (m_pubs : gmap string Ty) (l : list (string * QVar)) : option (list NodeAct) :=
  match l with
  | [] => Some []
  | (k, v) :: l =>
      a ← match m_pubs !! k with
          | None => Some (NWarn k)
          | Some t => m ← qt_to_ros toStd fresh t (fresh t) v; Some (Publish k m)
          end;
      r ← publish_all m_pubs l; Some (a :: r)
  end.
Definition OnMsg (msg : QVar) (n : NodeState) : option NodeState :=
  acts ← publish_all (m_pubs n) (toMap msg); Some (set_queue (queue n) (node_acts n ++ acts) n).
Definition Request (clientName : string) (data : QVar) (n : NodeState) : option (NodeState * res nat) :=
  match m_clients n !! clientName with
  | None => Some (n, Raise ("Unknown client: " +:+ clientName))
  | Some (req, rsp) => m ← qt_to_ros toStd fresh req (fresh req) data; Some (add_request (requested n) clientName rsp m n, Ok (requested n))
  end.
(** [pollFutures]: [ready id] is what a completed future holds. *)
Definition answer_of (rsp : Ty) (r : res RVal) : res QVar := match r with Raise e => Raise e | Ok m => ros_to_qt fromStd rsp m end.
Fixpoint poll_loop (ready : nat -> option (res RVal)) (l : list (nat * (string * Ty))) : list (nat * (string * Ty)) * list (nat * res QVar) :=
  match l with
  | [] => ([], [])
  | (id, (c, rsp)) :: l =>
      let '(keep, done) := poll_loop ready l in
      match ready id with
      | None => ((id, (c, rsp)) :: keep, done)
      | Some r => (keep, (id, answer_of rsp r) :: done)
      end
  end.
Definition pollFutures (ready : nat -> option (res RVal)) (n : NodeState) : NodeState :=
  let '(keep, done) := poll_loop ready (m_pending n) in set_pending keep (resolved n ++ done) n.

Inductive NodeEvent := EMsg (msg : QVar) | ERequest (client : string) (data : QVar) | EPoll (ready : nat -> option (res RVal)) | ETopic (i : nat) (msg : res RVal) | ETurn.
Definition node_event (e : NodeEvent) (n : NodeState) : option NodeState :=
  match e with
  | EMsg m => OnMsg m n
  | ERequest c d => r ← Request c d n; Some r.1
  | EPoll f => Some (pollFutures f n)
  | ETopic i m => Some (on_topic i m n)
  | ETurn => Some (turn n)
  end.
Fixpoint node_run (es : list NodeEvent) (n : NodeState) : option NodeState :=
  match es with [] => Some n | e :: es => n ← node_event e n; node_run es n end.
End node.

Section node_lemmas.
Context `{RC : RosConv} (fromStd toStd : string -> string) (fresh : Ty -> RVal).
Definition ids (n : NodeState) : list nat := map fst (resolved n) ++ map fst (m_pending n).
Definition accounted (n : NodeState) : Prop := ids n ≡ₚ seq 0 (requested n).
Definition not_ready (ready : nat -> option (res RVal)) (p : nat * (string * Ty)) : bool :=
  match ready p.1 with None => true | Some _ => false end.
Definition settled (ready : nat -> option (res RVal)) (p : nat * (string * Ty)) : option (nat * res QVar) :=
  (fun r => (p.1, answer_of fromStd p.2.2 r)) <$> ready p.1.
Lemma poll_loop_spec (ready : nat -> option (res RVal)) (l : list (nat * (string * Ty))) :
  poll_loop fromStd ready l = (List.filter (not_ready ready) l, omap (settled ready) l).
Proof.
  induction l as [|[id [c rsp]] l IH]; [done|]. cbn [poll_loop List.filter omap list_omap]. rewrite IH.
  unfold not_ready, settled. cbn. by destruct (ready id).
Qed.
Lemma poll_loop_ids (ready : nat -> option (res RVal)) (l : list (nat * (string * Ty))) :
  map fst (omap (settled ready) l) ++ map fst (List.filter (not_ready ready) l) ≡ₚ map fst l.
Proof.
  induction l as [|[id [c rsp]] l IH]; [done|]. cbn [List.filter omap list_omap map fst].
  unfold not_ready, settled in *. cbn. destruct (ready id); cbn; [by rewrite IH|].
  rewrite <- Permutation_middle. by rewrite IH.
Qed.
Lemma node_event_accounted (e : NodeEvent) (n n' : NodeState) : accounted n -> node_event fromStd toStd fresh e n = Some n' -> accounted n'.
Proof.
  intros Ha. destruct e as [m|c d|f|i m|]; cbn [node_event].
  - unfold OnMsg. destruct (publish_all toStd fresh (m_pubs n) (toMap m)); [|done]. by intros [= <-].
  - unfold Request. destruct (m_clients n !! c) as [[req rsp]|]; [|by intros [= <-]].
    destruct (qt_to_ros toStd fresh req (fresh req) d); [|done]. cbn. intros [= <-]. unfold accounted, ids, add_request. cbn [resolved m_pending requested].
    rewrite map_app, app_assoc, seq_S. cbn [map fst]. unfold accounted, ids in Ha. by rewrite Ha.
  - intros [= <-]. unfold pollFutures. rewrite poll_loop_spec.
    unfold accounted, ids in *. cbn [m_pending resolved requested set_pending].
    rewrite map_app, <- app_assoc, poll_loop_ids. exact Ha.
  - unfold on_topic. intros [= <-]. destruct (m_subs n !! i) as [[[topic t] h]|]; [|done]. by repeat case_match.
  - unfold turn. intros [= <-]. by destruct (queue n).
Qed.
Lemma node_run_accounted (es : list NodeEvent) : forall n n', accounted n -> node_run fromStd toStd fresh es n = Some n' -> accounted n'.
Proof.
  induction es as [|e es IH]; intros n n' Ha; cbn; [by intros [= <-]|].
  destruct (node_event fromStd toStd fresh e n) as [n1|] eqn:E; [|done]. cbn. apply IH. by eapply node_event_accounted.
Qed.
(** C40: in every run of a node, each request made is either still pending or answered, never both and
    never twice; a poll answers exactly those whose futures are ready, in the order they were made, each
    with what its future held (an error of the conversion included), and keeps the others as they were,
    in their order.  What the callbacks of an answer do is not part of it: they run inside the poll, on
    the executor's thread and under the lock of the list. *)
Theorem requests_answered (n0 n : NodeState) (es : list NodeEvent) (ready : nat -> option (res RVal)) :
  accounted n0 -> node_run fromStd toStd fresh es n0 = Some n ->
  NoDup (ids n) /\ (forall id, id ∈ ids n <-> (id < requested n)%nat) /\
  let n' := pollFutures fromStd ready n in
  m_pending n' = List.filter (fun p => match ready p.1 with None => true | Some _ => false end) (m_pending n) /\
  resolved n' = resolved n ++ omap (fun p => (fun r => (p.1, answer_of fromStd p.2.2 r)) <$> ready p.1) (m_pending n) /\
  NoDup (ids n') /\ requested n' = requested n.
Proof.
  intros Ha R. apply node_run_accounted in R; [|done]. assert (R' : accounted (pollFutures fromStd ready n)) by by eapply (node_event_accounted (EPoll ready)).
  assert (U : forall m, accounted m -> NoDup (ids m)) by (intros m Hm; unfold accounted in Hm; rewrite Hm; apply NoDup_seq).
  split; [by apply U|]. split; [intros id; unfold accounted in R; rewrite R, list_elem_of_In, in_seq; lia|]. cbv zeta.
  pose proof (U _ R') as U'. unfold pollFutures in *. by rewrite poll_loop_spec in *.
Qed.
End node_lemmas.

(** ** Concrete conversions and messages *)
#[export] Instance plain_conv : RosConv := {|
  toBool v := match v with VBool b => b | _ => false end;
  number _ v := match v with VInt z | VUInt z | VLongLong z | VULongLong z => z | _ => 0 end;
  toFloat v := match v with VFloat b => b | _ => 0 end;
  toDouble v := match v with VDouble b => b | _ => 0 end;
  toText v := match v with VString s => s | _ => "" end;
  canConvertList v := match v with VList _ => true | _ => false end;
  toList v := match v with VList l => l | _ => [] end;
  toMap v := match v with VMap m => m | _ => [] end
|}.
#[export] Instance plain_conv_laws : RosConvLaws.
Proof. by split. Defined.
Definition blank (p : TypeId) : RVal := match p with BOOLEAN => RBool false | FLOAT | DOUBLE => RBits 0 | STRING => RStr "" | _ => RInt 0 end.
Fixpoint initialised (t : Ty) : RVal :=
  match t with
  | Prim p => blank p
  | Message ms => RMsg (map (fun m => match m.1.2 with
      | None => initialised m.2
      | Some a => RArr (repeat (initialised m.2) (if has_resize a then 0 else array_size a))
      end) ms)
  end.
Lemma initialised_shaped (t : Ty) : shaped t (initialised t).
Proof.
  induction t as [p|ms IH] using Ty_nested_ind; [done|]. cbn [shaped initialised fields_of].
  induction IH as [|[[n [a|]] t] ms Ht _ IH]; cbn; [done| |done]. split; [|done]. split; [|].
  - rewrite repeat_length. by intros ->.
  - apply List.Forall_forall. intros x Hx%repeat_spec. by subst.
Qed.
Definition growing : Arr := {| array_size := 0; has_size := true; has_get := true; has_resize := true |}.
Definition fixed (n : nat) : Arr := {| array_size := n; has_size := true; has_get := true; has_resize := false |}.
(** A sequence of booleans: its elements have no address, so it has no accessors. *)
Definition bools : Arr := {| array_size := 0; has_size := true; has_get := false; has_resize := true |}.
Definition point : Ty := Message [("x", None, Prim DOUBLE); ("y", None, Prim DOUBLE)].
Definition scan : Ty := Message [("frame", None, Prim STRING); ("seq", None, Prim UINT64); ("offset", Some (fixed 2), Prim INT8); ("points", Some growing, point)].
Definition sample_scan : RVal := RMsg [RStr "map"; RInt (2 ^ 64 - 1); RArr [RInt (-128); RInt 127]; RArr [RMsg [RBits 1; RBits 2]; RMsg [RBits 3; RBits 4]]].
Lemma ros_roundtrip_witness :
  (forall t, shaped t (initialised t)) /\ wf (fun s => s) (fun s => s) scan sample_scan /\ shaped scan (initialised scan) /\
  exists q, ros_to_qt (fun s => s) scan sample_scan = Ok q /\ qt_to_ros (fun s => s) initialised scan (initialised scan) q = Some sample_scan.
Proof.
  assert (W : wf (fun s => s) (fun s => s) scan sample_scan).
  { split; [repeat constructor; set_solver|]. split; [by eexists|]. cbn. repeat split; try (by left); try (by right).
    - repeat constructor.
    - repeat constructor; cbn; try set_solver; by eexists. }
  split; [exact initialised_shaped|]. split; [exact W|]. split; [apply initialised_shaped|].
  apply (ros_roundtrip (fun s => s) (fun s => s) initialised initialised_shaped); [exact W|apply initialised_shaped].
Defined.
Definition sample_node : NodeState :=
  {| m_pubs := {["/out" := point]}; m_subs := []; m_clients := {["/add" := (point, point)]}; m_pending := []; requested := 0; sent := []; resolved := []; queue := []; node_acts := [] |}.
Definition sample_requests : list NodeEvent :=
  [ERequest "/add" (VMap [("x", VDouble 5)]); ERequest "/add" VInvalid; EPoll (fun id => if (id =? 1)%nat then Some (Ok (RMsg [RBits 7; RBits 8])) else None); ERequest "/nope" VInvalid; ERequest "/add" VInvalid; ERequest "/add" VInvalid].
Definition after_requests : NodeState := default sample_node (node_run (fun s => s) (fun s => s) initialised sample_requests sample_node).
Definition second_ready (id : nat) : option (res RVal) := if bool_decide (id = 2%nat) then Some (Raise "timeout") else None.
Lemma requests_answered_witness :
  accounted sample_node /\ node_run (fun s => s) (fun s => s) initialised sample_requests sample_node = Some after_requests /\
  map fst (m_pending after_requests) = [0; 2; 3]%nat /\
  m_pending (pollFutures (fun s => s) second_ready after_requests) =
    List.filter (fun p => match second_ready p.1 with None => true | Some _ => false end) (m_pending after_requests) /\
  map fst (m_pending (pollFutures (fun s => s) second_ready after_requests)) = [0; 3]%nat.
Proof.
  assert (A : accounted sample_node) by exact (Permutation_refl []).
  assert (R : node_run (fun s => s) (fun s => s) initialised sample_requests sample_node = Some after_requests) by (vm_compute; reflexivity).
  split; [exact A|]. split; [exact R|]. split; [vm_compute; reflexivity|].
  split; [|vm_compute; reflexivity].
  exact (proj1 (proj2 (proj2 (requests_answered (fun s => s) (fun s => s) initialised sample_node after_requests sample_requests second_ready A R)))).
Defined.
(** What happens where the code does not look: a list longer than a fixed array is written
    past its end, a sequence of booleans is written through a null accessor (and cannot be
    read), a log line longer than the buffer is read past its end, and a node made when the
    plugin's own initialisation failed uses a null state. *)
Theorem ros_undefined :
  (forall q, qt_to_ros (fun s => s) initialised (Message [("m", Some (fixed 2), Prim INT8)]) (initialised (Message [("m", Some (fixed 2), Prim INT8)])) (VMap [("m", VList [VInt 1; VInt 2; q])]) = None) /\
  (forall q, qt_to_ros (fun s => s) initialised (Message [("m", Some bools, Prim BOOLEAN)]) (initialised (Message [("m", Some bools, Prim BOOLEAN)])) (VMap [("m", VList [q])]) = None) /\
  (forall b l, ros_to_qt (fun s => s) (Message [("m", Some bools, Prim BOOLEAN)]) (RMsg [RArr (RBool b :: l)]) = Raise (no_accessor "m")) /\
  (forall sev name text, 2048 < Z.of_nat (String.length text) -> logging_handler sev name text = None) /\
  (forall ts sts tags c, NodeWorker ts sts false tags c = None).
Proof.
  split_and!; try done.
  - intros sev name text H. unfold logging_handler, buffer_size. by rewrite (proj2 (Z.ltb_lt 2048 _) H).
Qed.
(** Both names of a message's type support; the pattern is not anchored. *)
Example type_names : match_anywhere "/msg/" "std_msgs/msg/String" = Some ("std_msgs", "String") /\
  match_anywhere "/msg/" "  a.b/msg/C d" = Some ("b", "C") /\ match_anywhere "/msg/" "std_msgs/String" = None.
Proof. by vm_compute. Qed.
