(* ===== verification/Configs.v ===== *)
(** * The configurations of the workers, and what is registered under which name

    The described structures ([RAD_DESCRIBE]) of every worker as types of [Config], in
    the order their members are declared, and the registrations of the [workers]
    functions ([RegisterWorker], [RegisterSchema], [RegisterFunc]).  A [size_t] and a
    [uint64_t] are [unsigned long], the machine is little-endian; what the build
    stamps into the defaults is a parameter. *)
From S2P Require Import Prelude QVariant Config Http Process Sql GuiModel Can.
Set Warnings "-register-all".

Definition WorkerConfig_fields : list (string * CType) := [("name", COptional CString); ("category", COptional CString)].
Definition uint (z : Z) : CType := CDefault (CNum NUInt) (XNum z).
Definition text (s : string) : CType := CDefault CString (XString s).

(** ** Serial port *)
Definition SerialParity : CType := CEnum "SerialParity" [("no", 0); ("even", 2); ("odd", 3); ("space", 4); ("mark", 5)].
Definition SerialStopBits : CType := CEnum "SerialStopBits" [("1", 1); ("1.5", 3); ("2", 2)].
Definition SerialFlowControl : CType := CEnum "SerialFlowControl" [("no", 0); ("hardware", 1); ("software", 2)].
Definition SerialOpenMode : CType :=
  CEnum "SerialOpenMode" [("read", 1); ("r", 1); ("write", 2); ("w", 2); ("read_write", 3); ("rw", 3)].
Definition BinaryConfig_fields : list (string * CType) :=
  match BinaryConfig_type with CStruct _ fs => fs | _ => [] end.
Definition SerialConfig : CType := CStruct "SerialConfig" (BinaryConfig_fields ++ [
  ("port", CString); ("baud", CNum NUInt); ("data_bits", CDefault (CNum NUShort) (XNum 8));
  ("parity", CDefault SerialParity (XEnum 0)); ("stop_bits", CDefault SerialStopBits (XEnum 1));
  ("flow_control", CDefault SerialFlowControl (XEnum 0)); ("open_mode", CDefault SerialOpenMode (XEnum 3))]).

(** ** WebSocket and local sockets *)
Definition WsProtocol : CType := CEnum "WsProtocol" [("json", 0); ("msgpack", 1)].
Definition WsCompression : CType := CEnum "WsCompression" [("zlib", 0)].
Definition WsConfig_fields : list (string * CType) := WorkerConfig_fields ++ [
  ("origin", text "radapter"); ("cert_file", text ""); ("key_file", text ""); ("compression", COptional WsCompression);
  ("protocol", CDefault WsProtocol (XEnum 0)); ("compression_level", CDefault (CNum NInt) (XNum (-1)))].
Definition WsClientConfig : CType := CStruct "WsClientConfig" (WsConfig_fields ++ [("url", CString); ("reconnect_timeout", uint 10000)]).
Definition WsServerConfig : CType := CStruct "WsServerConfig" (WsConfig_fields ++ [
  ("port", CNum NUShort); ("host", text "0.0.0.0"); ("per_client", CDefault CBool (XBool false))]).
Definition Protocol : CType := CEnum "Protocol" [("json", 0); ("msgpack", 1)].
Definition Compression : CType := CEnum "Compression" [("zlib", 0)].
Definition local_fields : list (string * CType) := WorkerConfig_fields ++ [
  ("socket", CString); ("protocol", CDefault Protocol (XEnum 0)); ("compression", COptional Compression)].
Definition ServerConfig : CType := CStruct "ServerConfig" (local_fields ++ [("per_client", CDefault CBool (XBool false))]).
Definition ClientConfig : CType := CStruct "ClientConfig" (local_fields ++ [("reconnect_timeout", uint 300)]).

(** ** Redis *)
Definition redis_Config_fields : list (string * CType) := WorkerConfig_fields ++ [
  ("host", text "localhost"); ("port", CDefault (CNum NUShort) (XNum 6379)); ("db", CDefault (CNum NUShort) (XNum 0));
  ("reconnect_timeout", uint 1000)].
Definition CacheMode : CType := CEnum "CacheMode" [("r", 1); ("w", 2); ("rw", 3); ("read", 1); ("write", 2); ("read_write", 3)].
Definition CacheConfig : CType := CStruct "CacheConfig" (redis_Config_fields ++ [
  ("hash_key", COptional CString); ("enable_keyevents", CDefault CBool (XBool true)); ("mode", CDefault CacheMode (XEnum 3))]).
Definition StreamStart : CType := CEnum "StreamStart" [("persistent_id", 0); ("top", 1); ("start", 2)].
Definition StreamConfig : CType := CStruct "StreamConfig" (redis_Config_fields ++ [
  ("stream_key", CString); ("start_from", CDefault StreamStart (XEnum 0)); ("stream_size", uint 1000000); ("block_timeout", uint 30000);
  ("entries_per_read", uint 1000); ("instance_id", text "_"); ("persistent_prefix", text "__radapter"); ("mode", CDefault CacheMode (XEnum 3))]).

(** ** Modbus *)
Definition ByteOrder : CType := CEnum "modbus::ByteOrder" [("big", 0); ("little", 1)].
Definition RegisterMode : CType :=
  CEnum "modbus::RegisterMode" [("r", 1); ("rw", 2); ("w", 3); ("read", 1); ("readwrite", 2); ("write", 3)].
Definition RegisterValueType : CType := CEnum "modbus::RegisterValueType" [("uint16", 1); ("uint32", 2); ("float32", 3)].
Definition RegisterPacking : CType :=
  CStruct "modbus::RegisterPacking" [("byte", CDefault ByteOrder (XEnum 1)); ("word", CDefault ByteOrder (XEnum 1))].
Definition Register : CType := CStruct "modbus::Register" [
  ("index", CNum NInt); ("packing", CDefault RegisterPacking (XStruct [XEnum 1; XEnum 1]));
  ("type", CDefault RegisterValueType (XEnum 0)); ("mode", CDefault RegisterMode (XEnum 0)); ("validator", COptionalPtr CFunction)].
Definition SingleTypeMap : CType := CDefault (CMap Register) (XMap []).
Definition RegistersMap : CType :=
  CStruct "modbus::RegistersMap" [("di", SingleTypeMap); ("holding", SingleTypeMap); ("input", SingleTypeMap); ("coils", SingleTypeMap)].
Definition OverflowBehaviour : CType := CEnum "modbus::OverflowBehaviour" [("pop_last", 0); ("pop_first", 1)].
Definition Device_fields : list (string * CType) := [
  ("name", text ""); ("frame_gap", uint 25); ("max_write_queue", uint 100); ("max_read_queue", uint 50); ("reconnect_timeout_ms", uint 1000);
  ("on_read_overflow", CDefault OverflowBehaviour (XEnum 1)); ("on_write_overflow", CDefault OverflowBehaviour (XEnum 1))].
Definition RtuDevice : CType := CStruct "modbus::RtuDevice" (Device_fields ++ [
  ("port", CString); ("byte_order", CDefault ByteOrder (XEnum 1)); ("data_bits", uint 8); ("baud", uint 115200); ("parity", uint 0); ("stop_bits", uint 1)]).
Definition TcpDevice : CType := CStruct "modbus::TcpDevice" (Device_fields ++ [("host", CString); ("port", CNum NUShort)]).
Definition modbus_WorkerConfig_fields : list (string * CType) := WorkerConfig_fields ++ [("registers", RegistersMap); ("slave_id", CNum NUShort)].
Definition RegisterType : CType :=
  CEnum "modbus::RegisterType" [("holding", 0); ("coil", 1); ("di", 2); ("discrete_input", 2); ("input", 3)].
Definition ManualQuery : CType := CStruct "modbus::ManualQuery" [("type", RegisterType); ("index", CNum NUInt); ("count", CNum NUInt)].
Definition MasterConfig : CType := CStruct "modbus::MasterConfig" (modbus_WorkerConfig_fields ++ [
  ("device", CObject (Some "radapter::modbus::MasterDevice")); ("response_time", uint 150); ("poll_rate", uint 500); ("write_retries", uint 3);
  ("queries", COptional (CVector ManualQuery))]).
Definition SlaveConfig : CType :=
  CStruct "modbus::SlaveConfig" (modbus_WorkerConfig_fields ++ [("device", CObject (Some "radapter::modbus::SlaveDevice"))]).

(** ** CAN and Cyphal *)
Definition CanFilterMatch : CType := CEnum "CanFilterMatch" [("both", 3); ("normal", 1); ("extended", 2)].
Definition CanFilter : CType := CStruct "CanFilter" [
  ("match", CDefault CanFilterMatch (XEnum 3)); ("type", CDefault Can.CanFrameType (XEnum 1)); ("id", CNum NLongLong); ("mask", CNum NLongLong)].
Definition CanConfig : CType := CStruct "CanConfig" (WorkerConfig_fields ++ [
  ("plugin", CString); ("device", CString); ("filters", CDefault (CVector CanFilter) (XVec [])); ("bitrate", COptional (CNum NULong));
  ("can_fd", CDefault CBool (XBool false)); ("data_bitrate", COptional (CNum NULong))]).
Definition CyphalTopic_fields : list (string * CType) := [("type", CString); ("port", CNum NUShort)].
Definition CyphalTopic : CType := CStruct "CyphalTopic" CyphalTopic_fields.
Definition LocalCyphalService : CType := CStruct "LocalCyphalService" (CyphalTopic_fields ++ [("handler", CFunction)]).
Definition CyphalNodeInfoVersion : CType := CStruct "CyphalNodeInfoVersion" [("major", CNum NUChar); ("minor", CNum NUChar)].
Definition version (major minor : Z) : CType := CDefault CyphalNodeInfoVersion (XStruct [XNum major; XNum minor]).
(** [VerMajor], [VerMinor], [BuildId] as a number, and the generated identifier. *)
Record Build := { VerMajor : Z; VerMinor : Z; BuildId : Z; unique_id : Z }.
Definition CyphalNodeInfo (b : Build) : CType := CStruct "CyphalNodeInfo" [
  ("protocol_version", version 1 0); ("hardware_version", version (VerMajor b) (VerMinor b)); ("software_version", version 1 0);
  ("software_vcs_revision_id", CDefault (CNum NULong) (XNum (BuildId b))); ("unique_id", CDefault CUuid (XOpaque (unique_id b)));
  ("name", text "org.radapter"); ("software_image_crc", CDefault (CVector (CNum NULong)) (XVec [])); ("certificate_of_authenticity", text "")].
Definition node_info_default (b : Build) : CVal := init (CyphalNodeInfo b).
Definition CyphalConfig (b : Build) : CType := CStruct "CyphalConfig" (WorkerConfig_fields ++ [
  ("can", CObject None); ("node_id", CNum NUChar); ("heartbeat_period", CDefault (CNum NInt) (XNum 1000)); ("tx_timeout", CDefault (CNum NInt) (XNum 200));
  ("tx_cap", CDefault (CNum NULong) (XNum 100)); ("subscribe", CDefault (CMap CyphalTopic) (XMap [])); ("publish", CDefault (CMap CyphalTopic) (XMap []));
  ("node_info", CDefault (CyphalNodeInfo b) (node_info_default b)); ("services", CDefault (CVector LocalCyphalService) (XVec []))]).
Definition RequestParams : CType := CStruct "RequestParams" [
  ("type", CString); ("server", CNum NUChar); ("port", CNum NUShort); ("timeout", uint 5000)].

(** ** Others *)
Definition TestConfig : CType := CStruct "TestConfig" (WorkerConfig_fields ++ [("delay", CDefault (CNum NInt) (XNum 1000))]).
Definition Pub_fields : list (string * CType) := [("type", CString); ("qos", uint 10)].
Definition Pub : CType := CStruct "Pub" Pub_fields.
Definition Sub : CType := CStruct "Sub" (Pub_fields ++ [("handler", COptional CFunction)]).
Definition Ros_Client : CType := CStruct "Client" [("type", CString)].
Definition Ros_Config : CType := CStruct "Config" [
  ("name", CString); ("namespace", COptional CString); ("subs", CDefault (CMap Sub) (XMap []));
  ("pubs", CDefault (CMap Pub) (XMap [])); ("clients", CDefault (CMap Ros_Client) (XMap []))].
Definition PluginSettings : CType := CStruct "PluginSettings" [
  ("auto_init_logging", CDefault CBool (XBool true)); ("domain_id", COptional (CNum NULong)); ("argv", CDefault (CVector CString) (XVec []))].

(** ** Registrations *)
Inductive Registration :=
| Worker_ (name : string) (methods : list string)
| Schema (name : string) (type : CType)
| Func (name : string).
Section registrations.
Context (b : Build).
Definition test : list Registration := [Worker_ "TestWorker" ["Call"]; Schema "TestWorker" TestConfig].
Definition RegisterSlave : list Registration := [Worker_ "ModbusSlave" []; Schema "ModbusSlave" SlaveConfig].
Definition modbus : list Registration := [
  Func "TcpModbusDevice"; Schema "TcpModbusDevice" TcpDevice; Func "RtuModbusDevice"; Schema "RtuModbusDevice" RtuDevice;
  Func "TcpModbusServer"; Schema "TcpModbusServer" TcpDevice; Func "RtuModbusServer"; Schema "RtuModbusServer" RtuDevice;
  Worker_ "ModbusMaster" []; Schema "ModbusMaster" MasterConfig] ++ RegisterSlave.
Definition websocket : list Registration := [
  Worker_ "WebsocketServer" []; Schema "WebsocketServer" WsServerConfig; Worker_ "WebsocketClient" []; Schema "WebsocketClient" WsClientConfig].
Definition redis : list Registration := [
  Worker_ "RedisCache" ["Exec"]; Schema "RedisCache" CacheConfig; Worker_ "RedisStream" []; Schema "RedisStream" StreamConfig].
Definition sql : list Registration := [Worker_ "Sql" ["Exec"]; Schema "Sql" Sql.SqlConfig].
Definition serial : list Registration := [Worker_ "Serial" []; Schema "Serial" SerialConfig].
Definition can : list Registration := [Worker_ "CAN" []; Schema "CAN" CanConfig].
Definition cyphal : list Registration := [Schema "Cyphal" (CyphalConfig b); Worker_ "Cyphal" ["Request"]].
Definition process : list Registration := [
  Worker_ "Process" ["Start"; "Write"; "Terminate"; "Kill"; "Signal"; "CloseStdin"; "Pid"; "State"]; Schema "Process" ProcessConfig_type; Func "app_info"].
Definition stdio : list Registration := [Worker_ "STDIO" []; Schema "STDIO" BinaryConfig_type].
Definition local : list Registration := [
  Worker_ "LocalServer" []; Schema "LocalServer" ServerConfig; Worker_ "LocalClient" []; Schema "LocalClient" ClientConfig].
Definition http : list Registration := [
  Worker_ "Http" ["Get"; "Post"; "Put"; "Patch"; "Delete"; "Head"; "Options"]; Schema "Http" HttpConfig_type].
Definition gui : list Registration := [Worker_ "QML" []; Schema "QML" QMLConfig_type].
Definition qml_test_init : list Registration := [Worker_ "QML_Tester" [
  "wait"; "process_events"; "set_window"; "windows"; "find"; "find_all"; "prop"; "set_prop"; "center"; "click"; "dblclick"; "press"; "release"; "move"; "wheel";
  "click_item"; "key_click"; "key_press"; "key_release"; "type"; "screenshot"; "record_start"; "record_stop"; "replay"; "replay_data"]].
Definition ros2 : list Registration := [Worker_ "ROS2" ["Request"]; Schema "ROS2" Ros_Config].
(** [_all], in its order. *)
Definition all : list Registration :=
  test ++ modbus ++ websocket ++ redis ++ sql ++ serial ++ can ++ cyphal ++ process ++ stdio ++ local ++ http.
(** Everything a program with a GUI and the ROS plugin can register. *)
Definition everything : list Registration := all ++ gui ++ qml_test_init ++ ros2.
Definition globals_of (l : list Registration) : list string := omap (fun r => match r with Worker_ n _ | Func n => Some n | _ => None end) l.
Definition schemas_of (l : list Registration) : list (string * CType) := omap (fun r => match r with Schema n t => Some (n, t) | _ => None end) l.
Definition methods_of (l : list Registration) : list (list string) := omap (fun r => match r with Worker_ _ m => Some m | _ => None end) l.
End registrations.

(** ** What a type must satisfy for the theorems of [Config] to apply *)
(** The names of fields and enumerators are distinct, everywhere in the type. *)
Fixpoint names_distinct (ty : CType) : bool :=
  match ty with
  | CStruct _ fs => bool_decide (NoDup fs.*1) && forallb (fun f => names_distinct f.2) fs
  | CEnum _ ms => bool_decide (NoDup ms.*1)
  | CTuple ts => forallb names_distinct ts
  | CDefault t _ | COptional t | COptionalPtr t | CVector t | CMap t => names_distinct t
  | _ => true
  end.
(** A value that is typed whatever the [describe] library does. *)
Fixpoint fits (ty : CType) (x : CVal) : bool :=
  match ty, x with
  | CBool, XBool _ | CString, XString _ | CAny, XAny _ | CAnyMap, XAnyMap _ | CAnyList, XAnyList _
  | CFunction, XOpaque _ | CUuid, XOpaque _ | CObject None, XOpaque _ => true
  | CEnum _ ms, XEnum z => bool_decide (NoDup ms.*1) && existsb (fun m => m.2 =? z) ms
  | CNum t, XNum z => num_range t z
  | CStruct _ fs, XStruct vs => all_fields fits fs vs
  | CTuple ts, XTuple vs => all_tuple fits ts vs
  | CDefault t _, x => fits t x
  | COptional _, XOpt None | COptionalPtr _, XOpt None => true
  | COptional t, XOpt (Some x) | COptionalPtr t, XOpt (Some x) => fits t x
  | CVector t, XVec l => forallb (fits t) l
  | CMap t, XMap m => qm_sorted m && forallb (fun kx => fits t kx.2) m
  | _, _ => false
  end.
(** The defaults that are no value of their type, by their path: sentinels. *)
Section sentinels.
Variable go : CType -> list (list string).
Fixpoint field_sentinels (fs : list (string * CType)) : list (list string) :=
  match fs with [] => [] | (k, t) :: fs => map (cons k) (go t) ++ field_sentinels fs end.
End sentinels.
Fixpoint sentinels (ty : CType) : list (list string) :=
  match ty with
  | CStruct _ fs => field_sentinels sentinels fs
  | CTuple ts => concat (map sentinels ts)
  | CDefault t d => if fits t d then sentinels t else [[]]
  | COptional t | COptionalPtr t | CVector t | CMap t => sentinels t
  | _ => []
  end.

(** ** Lemmas *)
Section facts.
Context {CO : ConfigOps} {CL : ConfigLaws CO} {EL : EnumLaws CO}.
Lemma fits_fields fs : Forall (fun f => forall x, fits f.2 x = true -> typed true f.2 x = true) fs ->
  forall vs, all_fields fits fs vs = true -> all_fields (typed true) fs vs = true.
Proof.
  induction 1 as [|[k t] fs H _ IH]; intros [|x vs]; try done. cbn. intros [Hx Hv]%andb_true_iff. apply andb_true_iff. split; [by apply H|by apply IH].
Qed.
Lemma fits_tuple ts : Forall (fun t => forall x, fits t x = true -> typed true t x = true) ts ->
  forall vs, all_tuple fits ts vs = true -> all_tuple (typed true) ts vs = true.
Proof.
  induction 1 as [|t ts H _ IH]; intros [|x vs]; try done. cbn. intros [Hx Hv]%andb_true_iff. apply andb_true_iff. split; [by apply H|by apply IH].
Qed.
Lemma forallb_weaken {A} (f g : A -> bool) l : (forall a, f a = true -> g a = true) -> forallb f l = true -> forallb g l = true.
Proof. intros H. induction l as [|a l IH]; [done|]. cbn. intros [Ha Hl]%andb_true_iff. by rewrite (H a Ha), IH. Qed.
Lemma fits_typed ty x : fits ty x = true -> typed true ty x = true.
Proof.
  revert x. induction ty as [ty Hl|n fs IH|t d IH|t IH|t IH|t IH|t IH|ts IH] using CType_tree_ind; intros x.
  - destruct ty as [| | | | |[c|]| | |n ms|t| | | | | | |]; try done; destruct x; try done; cbn.
    intros [Hn He]%andb_true_iff. apply bool_decide_eq_true in Hn. apply existsb_exists in He as ([n' z'] & Hin & Ez). apply Z.eqb_eq in Ez. cbn in Ez. subst z'.
      apply bool_decide_eq_true. apply (enum_named ms z n'). apply name_listed; [done|by apply list_elem_of_In].
  - destruct x; try done. by apply fits_fields.
  - apply IH.
  - destruct x as [| | | | | | | | |[x|]| | |]; try done. apply IH.
  - destruct x as [| | | | | | | | |[x|]| | |]; try done. apply IH.
  - destruct x; try done. apply forallb_weaken, IH.
  - destruct x; try done. cbn. intros [-> Hm]%andb_true_iff. cbn. revert Hm. apply forallb_weaken. intros [k x]. apply IH.
  - destruct x; try done. by apply fits_tuple.
Qed.
Lemma no_sentinels ty : sentinels ty = [] -> defaults_ok ty = true.
Proof.
  induction ty as [ty Hl|n fs IH|t d IH|t IH|t IH|t IH|t IH|ts IH] using CType_tree_ind; try done; cbn.
  - by destruct ty.
  - induction IH as [|[k t] fs Ht _ IHf]; [done|]. cbn. intros [E1 E2]%app_eq_nil. apply andb_true_iff. split; [apply Ht; by apply map_eq_nil in E1|by apply IHf].
  - destruct (fits t d) eqn:F; [|done]. intros E. by rewrite IH, fits_typed.
  - induction IH as [|t ts Ht _ IHt]; [done|]. cbn. intros [E1 E2]%app_eq_nil. apply andb_true_iff. split; [by apply Ht|by apply IHt].
Qed.
Lemma typed_of ty conf p x : sentinels ty = [] -> ParseAs ty conf p = Ok x -> typed true ty x = true.
Proof. intros Hs. pose proof (no_sentinels ty Hs) as Hd. apply Parse_typed_all; [done|]. by apply typed_init. Qed.
End facts.
(** What the build stamps in fits its fields. *)
Definition build_ok (b : Build) : bool :=
  num_range NUChar (VerMajor b) && num_range NUChar (VerMinor b) && num_range NULong (BuildId b).
Definition stamp : Build := {| VerMajor := 0; VerMinor := 0; BuildId := 0; unique_id := 1 |}.
(** Of the whole registry only the registers of Modbus have defaults that are no value. *)
Definition register_sentinels : list (list string) :=
  flat_map (fun t => [["registers"; t; "type"]; ["registers"; t; "mode"]]) ["di"; "holding"; "input"; "coils"].
Lemma node_info_fits b : build_ok b = true -> fits (CyphalNodeInfo b) (node_info_default b) = true.
Proof.
  intros [[H1 H2]%andb_true_iff H3]%andb_true_iff. unfold node_info_default, CyphalNodeInfo, version, CyphalNodeInfoVersion. cbn [init map fits all_fields fst snd text].
  rewrite H1, H2, H3. done.
Qed.
Lemma cyphal_sentinels b : build_ok b = true -> sentinels (CyphalConfig b) = [].
Proof.
  intros H. pose proof (node_info_fits b H) as F. unfold CyphalConfig, WorkerConfig_fields. cbn [app sentinels field_sentinels]. rewrite F.
  apply andb_true_iff in H as [[H1 H2]%andb_true_iff H3]. unfold CyphalNodeInfo, version, CyphalNodeInfoVersion. cbn [sentinels field_sentinels fits all_fields init map fst snd text].
  rewrite H1, H2, H3. done.
Qed.

(** * Properties *)

(** The names the program registers: no two registrations share one, every schema
    describes a worker or a function of its name, only [app_info] and the GUI tester are
    without one, methods of a worker are distinct, and so are the members of every
    structure and enumeration - what the round trip of [Config] asks of a type. *)
Theorem registry_consistent (b : Build) :
  NoDup (globals_of (everything b)) /\ NoDup (schemas_of (everything b)).*1 /\
  (forall n ty, (n, ty) ∈ schemas_of (everything b) -> n ∈ globals_of (everything b) /\ names_distinct ty = true) /\
  (forall n, n ∈ globals_of (everything b) -> n ∈ (schemas_of (everything b)).*1 \/ n = "app_info" \/ n = "QML_Tester") /\
  Forall (@NoDup string) (methods_of (everything b)).
Proof.
  split_and!.
  - apply (bool_decide_unpack _). by vm_compute.
  - apply (bool_decide_unpack _). by vm_compute.
  - intros n ty H. assert (F : forallb (fun s => (bool_decide (s.1 ∈ globals_of (everything b)) && names_distinct s.2)%bool) (schemas_of (everything b)) = true) by (by vm_compute).
    rewrite forallb_forall in F. apply list_elem_of_In in H. specialize (F _ H). apply andb_true_iff in F as [F1 F2]. split; [|done].
    by apply bool_decide_eq_true in F1.
  - apply Forall_forall. apply (bool_decide_unpack _). by vm_compute.
  - apply (bool_decide_unpack _). by vm_compute.
Qed.
(** Whatever a script passes to a worker or a device other than those with Modbus
    registers, the configuration it starts with is well typed. *)
Theorem configs_typed (CO : ConfigOps) (CL : ConfigLaws CO) (EL : EnumLaws CO) (b : Build) n ty conf p x :
  build_ok b = true -> (n, ty) ∈ schemas_of (everything b) -> n <> "ModbusMaster" -> n <> "ModbusSlave" ->
  ParseAs ty conf p = Ok x -> typed true ty x = true.
Proof.
  intros Hb H N1 N2. apply typed_of.
  assert (F : forallb (fun s => (bool_decide (s.1 = "ModbusMaster") || bool_decide (s.1 = "ModbusSlave") || bool_decide (s.1 = "Cyphal") || bool_decide (sentinels s.2 = []))%bool)
    (schemas_of (everything b)) = true) by (by vm_compute).
  rewrite forallb_forall in F. pose proof (F _ (proj1 (list_elem_of_In _ _) H)) as G. cbn in G.
  rewrite (bool_decide_eq_false_2 (n = "ModbusMaster")), (bool_decide_eq_false_2 (n = "ModbusSlave")) in G by done. cbn in G.
  apply orb_true_iff in G as [G|G]; apply bool_decide_eq_true in G; [|done]. subst n.
  assert (E : ty = CyphalConfig b); [|subst; by apply cyphal_sentinels].
  clear - H. apply list_elem_of_In in H. unfold schemas_of, everything, all in H. cbn in H.
  repeat (destruct H as [H|H]; [first [discriminate H|by injection H as <-]|]). destruct H.
Qed.
(** The registers of Modbus start as "not set", which is no enumerator. *)
Theorem modbus_sentinels : sentinels MasterConfig = register_sentinels /\ sentinels SlaveConfig = register_sentinels.
Proof. by vm_compute. Qed.
