(* ===== verification/Devices.v ===== *)
(** * The edges of the program: sockets, ports and standard streams

    [RedisAdapter] - [qtadapter.cpp] with the parts of [redis_client.cpp] that make,
    free and leave contexts: who may call whom when.  hiredis is described by what its
    documentation promises of its event hooks: they come from calls into a context that
    is alive, [cleanup] once, before the context is freed; a disconnect is put off while
    replies are pending.
    [Stdio], [Serial] - what is made of the results of the system's calls.
    [ModbusSetup] - how Modbus devices are built from their configurations. *)
From S2P Require Import Prelude QVariant Utils Config Configs BinaryWorker.
Set Warnings "-register-all".

Module RedisAdapter.
(** A context: [pending] are the promises whose reply has not come. *)
Record redisAsyncContext := { freed : bool; ev_data : option nat; ev_cleanup : bool; pending : nat }.
Record QtRedisAdapter := { m_ctx : option nat; m_read : bool; m_write : bool; deleted : bool }.
Record World := {
  contexts : list redisAsyncContext;
  adapters : list QtRedisAdapter;
  ctx : option nat;                  (* [Client::ctx] *)
  adapter : option nat;              (* [Client::adapter] *)
  client_gone : bool;
  rejected : nat                     (* promises settled with "null reply" *)
}.
Definition world_init : World := {| contexts := []; adapters := []; ctx := None; adapter := None; client_gone := false; rejected := 0 |}.
Definition set_adapter (a : nat) (x : QtRedisAdapter) (w : World) : World :=
  {| contexts := contexts w; adapters := <[a := x]> (adapters w); ctx := ctx w; adapter := adapter w; client_gone := client_gone w; rejected := rejected w |}.
Definition set_context (c : nat) (x : redisAsyncContext) (w : World) : World :=
  {| contexts := <[c := x]> (contexts w); adapters := adapters w; ctx := ctx w; adapter := adapter w; client_gone := client_gone w; rejected := rejected w |}.
Definition set_client (c a : option nat) (gone : bool) (w : World) : World :=
  {| contexts := contexts w; adapters := adapters w; ctx := c; adapter := a; client_gone := gone; rejected := rejected w |}.

(** [None]: memory that was freed, or never set, is used. *)
Definition live_context (c : nat) (w : World) : option redisAsyncContext :=
  x ← contexts w !! c; if freed x then None else Some x.
Definition live_adapter (a : nat) (w : World) : option QtRedisAdapter :=
  x ← adapters w !! a; if deleted x then None else Some x.
Definition addRead (a : nat) (w : World) : option World :=
  x ← live_adapter a w;
  if m_read x then Some w
  else c ← m_ctx x; _ ← live_context c w;       (* m_ctx->c.fd *)
       Some (set_adapter a {| m_ctx := m_ctx x; m_read := true; m_write := m_write x; deleted := false |} w).
Definition delRead (a : nat) (w : World) : option World :=
  x ← live_adapter a w;
  if negb (m_read x) then Some w else Some (set_adapter a {| m_ctx := m_ctx x; m_read := false; m_write := m_write x; deleted := false |} w).
Definition addWrite (a : nat) (w : World) : option World :=
  x ← live_adapter a w;
  if m_write x then Some w
  else c ← m_ctx x; _ ← live_context c w;
       Some (set_adapter a {| m_ctx := m_ctx x; m_read := m_read x; m_write := true; deleted := false |} w).
Definition delWrite (a : nat) (w : World) : option World :=
  x ← live_adapter a w;
  if negb (m_write x) then Some w else Some (set_adapter a {| m_ctx := m_ctx x; m_read := m_read x; m_write := false; deleted := false |} w).
Definition cleanup (a : nat) (w : World) : option World := w ← delRead a w; delWrite a w.
(** [false]: [REDIS_ERR]. *)
Definition SetContext (a c : nat) (w : World) : option (World * bool) :=
  x ← live_context c w; y ← live_adapter a w;
  match ev_data x with
  | Some _ => Some (w, false)
  | None =>
      let w := set_adapter a {| m_ctx := Some c; m_read := m_read y; m_write := m_write y; deleted := false |} w in
      Some (set_context c {| freed := false; ev_data := Some a; ev_cleanup := true; pending := pending x |} w, true)
  end.

(** ** hiredis, from inside a call into context [c] *)
Inductive Hook := HAddRead | HDelRead | HAddWrite | HDelWrite | HReply | HCommand | HFree.
Definition hook (f : nat -> World -> option World) (c : nat) (w : World) : option World :=
  x ← live_context c w;
  match ev_data x with Some a => if ev_cleanup x then f a w else Some w | None => Some w end.
(** The pending callbacks get a null reply, then [cleanup], then the connect or
    disconnect callback, which forgets the context, then the memory. *)
Definition free_context (c : nat) (w : World) : option World :=
  x ← live_context c w;
  w ← hook cleanup c w;
  let w := set_context c {| freed := true; ev_data := ev_data x; ev_cleanup := false; pending := 0 |} w in
  Some {| contexts := contexts w; adapters := adapters w; ctx := None; adapter := adapter w; client_gone := client_gone w; rejected := rejected w + pending x |}.
Definition inside (c : nat) (h : Hook) (w : World) : option World :=
  match h with
  | HAddRead => hook addRead c w
  | HDelRead => hook delRead c w
  | HAddWrite => hook addWrite c w
  | HDelWrite => hook delWrite c w
  | HReply => x ← live_context c w; Some (set_context c {| freed := false; ev_data := ev_data x; ev_cleanup := ev_cleanup x; pending := pending x - 1 |} w)
  | HCommand => x ← live_context c w; Some (set_context c {| freed := false; ev_data := ev_data x; ev_cleanup := ev_cleanup x; pending := pending x + 1 |} w)
  | HFree => free_context c w
  end.
(** Nothing comes from a context after it is freed. *)
Fixpoint calls (c : nat) (hs : list Hook) (w : World) : option World :=
  match hs with
  | [] => Some w
  | HFree :: _ => inside c HFree w
  | h :: hs => w ← inside c h w; calls c hs w
  end.

(** ** The program's side *)
(** The slots of the notifiers: [redisAsyncHandleRead(m_ctx)]. *)
Definition read (a : nat) (hs : list Hook) (w : World) : option World :=
  x ← live_adapter a w; c ← m_ctx x; _ ← live_context c w; calls c hs w.
Definition write (a : nat) (hs : list Hook) (w : World) : option World := read a hs w.
(** [Execute], [PSubscribe] and the commands of the callbacks. *)
Definition command (hs : list Hook) (w : World) : option World :=
  match ctx w with None => Some w | Some c => calls c hs w end.
Definition delete_adapter (w : World) : option World :=
  match adapter w with
  | None => Some w
  | Some a => x ← live_adapter a w; Some (set_adapter a {| m_ctx := m_ctx x; m_read := false; m_write := false; deleted := true |} w)
  end.
Definition doConnect (w : World) : option World :=
  w ← (match ctx w with Some c => free_context c w | None => Some w end);
  w ← delete_adapter w;
  let a := length (adapters w) in
  let c := length (contexts w) in
  let w := {| contexts := contexts w ++ [{| freed := false; ev_data := None; ev_cleanup := false; pending := 0 |}];
              adapters := adapters w ++ [{| m_ctx := None; m_read := false; m_write := false; deleted := false |}];
              ctx := Some c; adapter := Some a; client_gone := client_gone w; rejected := rejected w |} in
  wr ← SetContext a c w; Some wr.1.
(** [~Client]: [redisAsyncDisconnect] frees only an idle context; then the children go. *)
Definition delete_client (w : World) : option World :=
  w ← (match ctx w with
       | Some c => x ← live_context c w; if (pending x =? 0)%nat then free_context c w else Some w
       | None => Some w
       end);
  w ← delete_adapter w;
  Some (set_client None None true w).

Inductive step : World -> option World -> Prop :=
| step_connect w : client_gone w = false -> step w (doConnect w)                     (* Start, the timer *)
| step_command hs w : client_gone w = false -> step w (command hs w)
| step_readable a x hs w : adapters w !! a = Some x -> m_read x = true -> step w (read a hs w)
| step_writable a x hs w : adapters w !! a = Some x -> m_write x = true -> step w (write a hs w)
| step_delete w : client_gone w = false -> step w (delete_client w).
Inductive reachable : option World -> Prop :=
| reach_init : reachable (Some world_init)
| reach_step w o : reachable (Some w) -> step w o -> reachable o.

(** ** The invariant *)
(** The client's context and adapter know each other. *)
Definition attached (w : World) (a c : nat) (x : QtRedisAdapter) (y : redisAsyncContext) : Prop :=
  adapter w = Some a /\ adapters w !! a = Some x /\ deleted x = false /\ m_ctx x = Some c /\
  contexts w !! c = Some y /\ freed y = false /\ ev_data y = Some a /\ ev_cleanup y = true.
Record inv (w : World) : Prop := {
  ctx_attached : forall c, ctx w = Some c -> exists a x y, attached w a c x y;
  live_is_current : forall a x, adapters w !! a = Some x -> deleted x = false -> adapter w = Some a;
  current_is_live : forall a, adapter w = Some a -> exists x, adapters w !! a = Some x /\ deleted x = false;
  notified : forall a x, adapters w !! a = Some x -> m_read x = true \/ m_write x = true -> deleted x = false /\ is_Some (ctx w);
  gone : client_gone w = true -> ctx w = None /\ adapter w = None
}.
Lemma adapter_inv_init : inv world_init.
Proof. by split. Qed.
Lemma attached_live w a c x y : attached w a c x y -> live_adapter a w = Some x /\ live_context c w = Some y.
Proof. intros (_ & A & D & _ & C & F & _). unfold live_adapter, live_context. rewrite A, C. cbn. by rewrite D, F. Qed.
(** A notifier that comes or goes. *)
Lemma inv_adapter w a c x y x' : inv w -> attached w a c x y -> ctx w = Some c -> m_ctx x' = Some c -> deleted x' = false ->
  inv (set_adapter a x' w) /\ attached (set_adapter a x' w) a c x' y.
Proof.
  intros H (Ha & A & D & M & C & F & E & V) Hc M' D'. assert (L : (a < length (adapters w))%nat) by by eapply lookup_lt_Some.
  assert (At : attached (set_adapter a x' w) a c x' y) by (split_and!; try done; cbn; by apply list_lookup_insert_eq).
  split; [|done]. split; cbn.
  - intros c' Hc'. assert (c' = c) as -> by congruence. by exists a, x', y.
  - intros b z. destruct (decide (b = a)) as [->|Hb]; [by intros _ _|]. rewrite list_lookup_insert_ne by done. apply (live_is_current w H).
  - intros b Hb. assert (b = a) as -> by congruence. exists x'. split; [by apply list_lookup_insert_eq|done].
  - intros b z. destruct (decide (b = a)) as [->|Hb].
    + rewrite list_lookup_insert_eq by done. intros [= <-] _. split; [done|by rewrite Hc].
    + rewrite list_lookup_insert_ne by done. apply (notified w H).
  - apply (gone w H).
Qed.
Lemma inv_context w a c x y y' : inv w -> attached w a c x y -> ctx w = Some c -> freed y' = false -> ev_data y' = Some a -> ev_cleanup y' = true ->
  inv (set_context c y' w) /\ attached (set_context c y' w) a c x y'.
Proof.
  intros H (Ha & A & D & M & C & F & E & V) Hc F' E' V'. assert (L : (c < length (contexts w))%nat) by by eapply lookup_lt_Some.
  assert (At : attached (set_context c y' w) a c x y') by (split_and!; try done; cbn; by apply list_lookup_insert_eq).
  split; [|done]. split; cbn; [|apply (live_is_current w H)|apply (current_is_live w H)|apply (notified w H)|apply (gone w H)].
  intros c' Hc'. assert (c' = c) as -> by congruence. by exists a, x, y'.
Qed.
(** What stays attached through a hook. *)
Definition kept (w w' : World) (a c : nat) : Prop :=
  inv w' /\ ctx w' = Some c /\ client_gone w' = client_gone w /\ rejected w' = rejected w /\ exists x y, attached w' a c x y.
Lemma kept_same w a c x y : inv w -> attached w a c x y -> ctx w = Some c -> kept w w a c.
Proof. intros H At Hc. split_and!; try done. by exists x, y. Qed.
Lemma hook_adapter w a c x y x' : inv w -> attached w a c x y -> ctx w = Some c -> m_ctx x' = m_ctx x -> deleted x' = false -> kept w (set_adapter a x' w) a c.
Proof.
  intros H At Hc M D. destruct (inv_adapter w a c x y x' H At Hc) as [H' At']; [rewrite M; by destruct At as (_ & _ & _ & ? & _)|done|].
  split_and!; try done. by exists x', y.
Qed.
Ltac hook_case w a c x y H At Hc :=
  match goal with |- context [if ?b then Some w else _] => destruct b end;
  [exists w; split; [done|by apply (kept_same w a c x y)]|eexists; split; [reflexivity|by apply (hook_adapter w a c x y)]].
Lemma hooks_kept w a c x y : inv w -> attached w a c x y -> ctx w = Some c ->
  (exists w', addRead a w = Some w' /\ kept w w' a c) /\ (exists w', delRead a w = Some w' /\ kept w w' a c) /\
  (exists w', addWrite a w = Some w' /\ kept w w' a c) /\ (exists w', delWrite a w = Some w' /\ kept w w' a c).
Proof.
  intros H At Hc. destruct (attached_live w a c x y At) as [LA LC]. assert (M : m_ctx x = Some c) by (by destruct At as (_ & _ & _ & ? & _)).
  unfold addRead, delRead, addWrite, delWrite. rewrite LA. cbn [mbind option_bind]. rewrite M. cbn [mbind option_bind]. rewrite LC. cbn [mbind option_bind]. rewrite <- M.
  split_and!; hook_case w a c x y H At Hc.
Qed.
Lemma hook_attached f w a c x y : attached w a c x y -> hook f c w = f a w.
Proof. intros At. destruct (attached_live w a c x y At) as [_ LC]. unfold hook. rewrite LC. cbn. destruct At as (_ & _ & _ & _ & _ & _ & -> & ->). done. Qed.
(** A context that is freed: nothing is notified any more. *)
Lemma cleanup_quiet w a c x y : inv w -> attached w a c x y -> ctx w = Some c ->
  exists w' x', cleanup a w = Some w' /\ kept w w' a c /\ adapters w' !! a = Some x' /\ m_read x' = false /\ m_write x' = false /\ contexts w' = contexts w.
Proof.
  intros H At Hc. assert (L : (a < length (adapters w))%nat) by (destruct At as (_ & A & _); by eapply lookup_lt_Some).
  destruct (attached_live w a c x y At) as [LA _]. unfold cleanup.
  assert (R : exists w1 x1, delRead a w = Some w1 /\ kept w w1 a c /\ adapters w1 !! a = Some x1 /\ m_read x1 = false /\ contexts w1 = contexts w /\ length (adapters w1) = length (adapters w)).
  { unfold delRead. rewrite LA. cbn [mbind option_bind]. destruct (m_read x) eqn:Er; cbn [negb].
    - eexists _, _. split; [reflexivity|]. split; [by apply (hook_adapter w a c x y)|]. cbn. split; [by apply list_lookup_insert_eq|]. split; [done|]. split; [done|apply length_insert].
    - exists w, x. split; [done|]. split; [by apply (kept_same w a c x y)|]. by destruct At as (_ & ? & _). }
  destruct R as (w1 & x1 & -> & (H1 & Hc1 & G1 & J1 & x1' & y1 & At1) & X1 & R1 & C1 & L1). cbn [mbind option_bind].
  assert (x1' = x1) as -> by (destruct At1 as (_ & ? & _); congruence). destruct (attached_live w1 a c x1 y1 At1) as [LA1 _].
  unfold delWrite. rewrite LA1. cbn [mbind option_bind]. destruct (m_write x1) eqn:Ew; cbn [negb].
  - eexists _, _. split; [reflexivity|]. split; [|cbn; split; [apply list_lookup_insert_eq; lia|done]].
    destruct (hook_adapter w1 a c x1 y1 {| m_ctx := m_ctx x1; m_read := m_read x1; m_write := false; deleted := false |} H1 At1 Hc1) as (? & ? & ? & ? & ?); done.
  - exists w1, x1. split; [done|]. split; [|done]. split_and!; try done. by exists x1, y1.
Qed.
Lemma free_kept w a c x y : inv w -> attached w a c x y -> ctx w = Some c ->
  exists w', free_context c w = Some w' /\ inv w' /\ ctx w' = None /\ client_gone w' = client_gone w /\ adapter w' = Some a /\
    rejected w' = (rejected w + pending y)%nat /\ exists y', contexts w' !! c = Some y' /\ freed y' = true.
Proof.
  intros H At Hc. destruct (attached_live w a c x y At) as [_ LC]. unfold free_context. rewrite LC. cbn [mbind option_bind]. rewrite (hook_attached _ w a c x y At).
  destruct (cleanup_quiet w a c x y H At Hc) as (w1 & x1 & -> & (H1 & Hc1 & G1 & J1 & x1' & y1 & At1) & X1 & R1 & W1 & C1). cbn [mbind option_bind].
  eexists. split; [reflexivity|]. cbn. assert (Ad : adapter w1 = Some a) by (by destruct At1 as (? & _)).
  split; [|split_and!; try done; [lia|]].
  - split; cbn; [done|apply (live_is_current w1 H1)|apply (current_is_live w1 H1)| |].
    + intros b z Hb Hn. destruct (notified w1 H1 b z Hb Hn) as [D _]. pose proof (live_is_current w1 H1 b z Hb D) as E.
      assert (b = a) as -> by congruence. assert (z = x1) as -> by congruence. rewrite R1, W1 in Hn. by destruct Hn.
    + intros G. by destruct (gone w1 H1 G) as [_ ?].
  - eexists. split; [apply list_lookup_insert_eq; destruct At1 as (_ & _ & _ & _ & ? & _); by eapply lookup_lt_Some|done].
Qed.
Lemma calls_safe c hs : forall w a, kept w w a c -> client_gone w = false ->
  exists w', calls c hs w = Some w' /\ inv w' /\ client_gone w' = false.
Proof.
  induction hs as [|h hs IH]; intros w a K G; destruct K as (H & Hc & _ & _ & x & y & At); [by exists w|].
  destruct (hooks_kept w a c x y H At Hc) as (AR & DR & AW & DW). destruct (attached_live w a c x y At) as [_ LC].
  assert (Step : forall w', kept w w' a c -> exists w2, calls c hs w' = Some w2 /\ inv w2 /\ client_gone w2 = false).
  { intros w' (H' & Hc' & G' & J' & At'). apply (IH w' a); [by split_and!|by rewrite G']. }
  assert (Touch : forall n, kept w (set_context c {| freed := false; ev_data := ev_data y; ev_cleanup := ev_cleanup y; pending := n |} w) a c).
  { intros n. pose proof At as (_ & _ & _ & _ & _ & _ & E & V).
    destruct (inv_context w a c x y {| freed := false; ev_data := ev_data y; ev_cleanup := ev_cleanup y; pending := n |} H At Hc) as [H' At']; try done.
    split_and!; try done. by exists x, {| freed := false; ev_data := ev_data y; ev_cleanup := ev_cleanup y; pending := n |}. }
  destruct h; cbn [calls inside]; rewrite ?(hook_attached _ w a c x y At).
  - destruct AR as (w' & -> & K). by apply Step.
  - destruct DR as (w' & -> & K). by apply Step.
  - destruct AW as (w' & -> & K). by apply Step.
  - destruct DW as (w' & -> & K). by apply Step.
  - rewrite LC. cbn [mbind option_bind]. by apply Step.
  - rewrite LC. cbn [mbind option_bind]. by apply Step.
  - destruct (free_kept w a c x y H At Hc) as (w' & -> & H' & _ & G' & _). exists w'. split; [done|]. split; [done|congruence].
Qed.
(** The adapter goes, with its notifiers; there is no other. *)
Lemma delete_adapter_ok w : inv w -> exists w', delete_adapter w = Some w' /\
  contexts w' = contexts w /\ ctx w' = ctx w /\ client_gone w' = client_gone w /\ rejected w' = rejected w /\
  forall a x, adapters w' !! a = Some x -> deleted x = true /\ m_read x = false /\ m_write x = false.
Proof.
  intros H. assert (Dead : forall b z, adapters w !! b = Some z -> adapter w <> Some b -> deleted z = true /\ m_read z = false /\ m_write z = false).
  { intros b z Hb Hn. split; [destruct (deleted z) eqn:D; [done|]; by destruct Hn; apply (live_is_current w H b z)|].
    split; [destruct (m_read z) eqn:E|destruct (m_write z) eqn:E]; try done;
    (destruct (notified w H b z Hb) as [D _]; [by auto|]; by destruct Hn; apply (live_is_current w H b z)). }
  unfold delete_adapter. destruct (adapter w) as [a|] eqn:A.
  - destruct (current_is_live w H a A) as (x & X & D). unfold live_adapter. rewrite X. cbn [mbind option_bind]. rewrite D. cbn [mbind option_bind].
    eexists. split; [reflexivity|]. split_and!; try done. cbn. intros b z. destruct (decide (b = a)) as [->|Hb].
    + rewrite list_lookup_insert_eq by (by eapply lookup_lt_Some). by intros [= <-].
    + rewrite list_lookup_insert_ne by done. intros Hz. apply (Dead b z Hz). congruence.
  - exists w. split_and!; try done. intros b z Hz. by apply (Dead b z Hz).
Qed.
Lemma doConnect_ok w : inv w -> client_gone w = false -> exists w', doConnect w = Some w' /\ inv w' /\ client_gone w' = false.
Proof.
  intros H G. unfold doConnect.
  assert (F : exists w1, (match ctx w with Some c => free_context c w | None => Some w end) = Some w1 /\ inv w1 /\ ctx w1 = None /\ client_gone w1 = false).
  { destruct (ctx w) as [c|] eqn:Hc; [|by exists w]. destruct (ctx_attached w H c Hc) as (a & x & y & At).
    destruct (free_kept w a c x y H At Hc) as (w1 & -> & H1 & C1 & G1 & _). exists w1. by rewrite G1. }
  destruct F as (w1 & -> & H1 & C1 & G1). cbn [mbind option_bind]. destruct (delete_adapter_ok w1 H1) as (w2 & -> & Cs & C2 & G2 & _ & Dead). cbn [mbind option_bind].
  set (a := length (adapters w2)). set (c := length (contexts w2)). set (w3 := {| contexts := _ |}).
  assert (LC : live_context c w3 = Some {| freed := false; ev_data := None; ev_cleanup := false; pending := 0 |}) by (unfold live_context, w3, c; cbn; by rewrite lookup_app_r, Nat.sub_diag).
  assert (LA : live_adapter a w3 = Some {| m_ctx := None; m_read := false; m_write := false; deleted := false |}) by (unfold live_adapter, w3, a; cbn; by rewrite lookup_app_r, Nat.sub_diag).
  unfold SetContext. rewrite LC. cbn [mbind option_bind]. rewrite LA. cbn [mbind option_bind ev_data fst m_read m_write pending].
  eexists. split; [reflexivity|]. split; [|cbn; congruence].
  assert (Ia : forall x', <[a := x']> (adapters w3) !! a = Some x') by (intros x'; apply list_lookup_insert_eq; unfold w3, a; cbn; rewrite length_app; cbn; lia).
  assert (Ic : forall y', <[c := y']> (contexts w3) !! c = Some y') by (intros y'; apply list_lookup_insert_eq; unfold w3, c; cbn; rewrite length_app; cbn; lia).
  assert (Other : forall x' b z, <[a := x']> (adapters w3) !! b = Some z -> b <> a -> deleted z = true /\ m_read z = false /\ m_write z = false).
  { intros x' b z Hz Hb. rewrite list_lookup_insert_ne in Hz by done. unfold w3 in Hz. cbn in Hz. apply lookup_app_Some in Hz as [Hz|[L Hz]]; [by apply (Dead b)|].
    apply list_lookup_singleton_Some in Hz as [E _]. unfold a in Hb. lia. }
  split; cbn [set_context set_adapter contexts adapters ctx adapter client_gone].
  - intros c' [= <-]. eexists a, _, _. split_and!; cbn [set_context set_adapter contexts adapters ctx adapter]; [done|apply Ia|done|done|apply Ic|done..].
  - intros b z Hz D. destruct (decide (b = a)) as [->|Hb]; [done|]. destruct (Other _ b z Hz Hb) as [? _]. congruence.
  - intros b [= <-]. eexists. split; [apply Ia|done].
  - intros b z Hz Hn. destruct (decide (b = a)) as [->|Hb]; [rewrite Ia in Hz; injection Hz as <-; by destruct Hn|].
    destruct (Other _ b z Hz Hb) as (_ & R & W). rewrite R, W in Hn. by destruct Hn.
  - rewrite <- G2 in G1. unfold w3. cbn. congruence.
Qed.
Lemma delete_client_ok w : inv w -> client_gone w = false -> exists w', delete_client w = Some w' /\ inv w' /\ client_gone w' = true /\
  (forall c y, ctx w = Some c -> contexts w !! c = Some y -> (0 < pending y)%nat -> contexts w' !! c = Some y /\ rejected w' = rejected w) /\
  (forall a x, adapters w' !! a = Some x -> m_read x = false /\ m_write x = false).
Proof.
  intros H G. unfold delete_client.
  assert (F : exists w1, (match ctx w with Some c => x ← live_context c w; if (pending x =? 0)%nat then free_context c w else Some w | None => Some w end) = Some w1 /\ inv w1 /\
    forall c y, ctx w = Some c -> contexts w !! c = Some y -> (0 < pending y)%nat -> w1 = w).
  { destruct (ctx w) as [c|] eqn:Hc; [|by exists w]. destruct (ctx_attached w H c Hc) as (a & x & y & At).
    destruct (attached_live w a c x y At) as [_ LC]. rewrite LC. cbn [mbind option_bind]. destruct (Nat.eqb_spec (pending y) 0) as [E|E]; [|by exists w].
    destruct (free_kept w a c x y H At Hc) as (w1 & -> & H1 & _). exists w1. split; [done|]. split; [done|].
    intros c' y' [= <-] Hy Hp. assert (y' = y) as -> by (destruct At as (_ & _ & _ & _ & ? & _); congruence). lia. }
  destruct F as (w1 & -> & H1 & Same). cbn [mbind option_bind]. destruct (delete_adapter_ok w1 H1) as (w2 & -> & Cs & C2 & G2 & J2 & Dead). cbn [mbind option_bind].
  eexists. split; [reflexivity|]. split; [|split; [done|split]].
  - split; cbn; [done|intros b z Hz D; destruct (Dead b z Hz); congruence|done| |done].
    intros b z Hz Hn. destruct (Dead b z Hz) as (_ & R & W). rewrite R, W in Hn. by destruct Hn.
  - intros c y Hc Hy Hp. cbn. rewrite Cs, J2, (Same c y Hc Hy Hp). done.
  - intros a x Hx. by destruct (Dead a x Hx) as (_ & ? & ?).
Qed.
Lemma read_ok w a x hs : inv w -> adapters w !! a = Some x -> m_read x = true \/ m_write x = true -> exists w', read a hs w = Some w' /\ inv w'.
Proof.
  intros H Hx Hn. destruct (notified w H a x Hx Hn) as [D [c Hc]]. destruct (ctx_attached w H c Hc) as (b & x' & y & At).
  assert (b = a) as -> by (pose proof (live_is_current w H a x Hx D); destruct At as (? & _); congruence).
  assert (G : client_gone w = false) by (destruct (client_gone w) eqn:E; [|done]; destruct (gone w H E); congruence).
  destruct (attached_live w a c x' y At) as [LA LC]. unfold read. rewrite LA. cbn [mbind option_bind].
  assert (M : m_ctx x' = Some c) by (by destruct At as (_ & _ & _ & ? & _)). rewrite M. cbn [mbind option_bind]. rewrite LC. cbn [mbind option_bind].
  destruct (calls_safe c hs w a (kept_same w a c x' y H At Hc) G) as (w' & -> & H' & _). by exists w'.
Qed.
Lemma adapter_step_ok w o : inv w -> step w o -> exists w', o = Some w' /\ inv w'.
Proof.
  intros H S. destruct S as [w G|hs w G|a x hs w Hx Hn|a x hs w Hx Hn|w G].
  - destruct (doConnect_ok w H G) as (w' & -> & H' & _). by exists w'.
  - unfold command. destruct (ctx w) as [c|] eqn:Hc; [|by exists w]. destruct (ctx_attached w H c Hc) as (a & x & y & At).
    destruct (calls_safe c hs w a (kept_same w a c x y H At Hc) G) as (w' & -> & H' & _). by exists w'.
  - destruct (read_ok w a x hs H Hx) as (w' & -> & H'); [by left|]. by exists w'.
  - destruct (read_ok w a x hs H Hx) as (w' & E & H'); [by right|]. unfold write. rewrite E. by exists w'.
  - destruct (delete_client_ok w H G) as (w' & -> & H' & _). by exists w'.
Qed.
Lemma adapter_reachable_inv o : reachable o -> exists w, o = Some w /\ inv w.
Proof.
  induction 1 as [|w o _ (w' & [= <-] & H) S]; [exists world_init; split; [done|apply adapter_inv_init]|]. by apply (adapter_step_ok w).
Qed.

(** * Properties *)

(** No slot of an adapter, no hook of hiredis and no step of the client ever uses a
    context or an adapter that is gone, and a notifier exists only on the client's
    current adapter, for a context that is alive: an adapter needs no destructor. *)
Theorem adapter_safe (o : option World) : reachable o -> exists w, o = Some w /\
  forall a x, adapters w !! a = Some x -> m_read x = true \/ m_write x = true ->
    adapter w = Some a /\ deleted x = false /\ exists c y, m_ctx x = Some c /\ ctx w = Some c /\ contexts w !! c = Some y /\ freed y = false.
Proof.
  intros (w & -> & H)%adapter_reachable_inv. exists w. split; [done|]. intros a x Hx Hn. destruct (notified w H a x Hx Hn) as [D [c Hc]].
  pose proof (live_is_current w H a x Hx D) as A. split; [done|]. split; [done|].
  destruct (ctx_attached w H c Hc) as (b & x' & y & (A' & X' & _ & M & C & F & _)).
  assert (b = a) as -> by congruence. assert (x' = x) as -> by congruence. by exists c, y.
Qed.
(** A client that is deleted while replies are pending leaves its context behind: it is
    not freed before the adapter goes, nothing drives it any more, and the promises of
    the pending commands are never settled. *)
Theorem pending_commands_lost (w : World) (c : nat) (y : redisAsyncContext) :
  reachable (Some w) -> client_gone w = false -> ctx w = Some c -> contexts w !! c = Some y -> freed y = false -> (0 < pending y)%nat ->
  exists w', delete_client w = Some w' /\ contexts w' !! c = Some y /\ rejected w' = rejected w /\
    forall o, step w' o -> False.
Proof.
  intros (w0 & [= <-] & H)%adapter_reachable_inv G Hc Hy _ Hp. destruct (delete_client_ok w H G) as (w' & E & H' & G' & Keep & Quiet).
  destruct (Keep c y Hc Hy Hp) as [K R]. exists w'. split_and!; try done.
  intros o S. destruct S as [w2 G2|hs w2 G2|a x hs w2 Hx Hn|a x hs w2 Hx Hn|w2 G2]; try congruence; by destruct (Quiet a x Hx); congruence.
Qed.
Definition sample_world : option World := w ← doConnect world_init; command [HAddRead; HCommand; HAddWrite] w.
Lemma sample_pending : exists w y, sample_world = Some w /\ reachable (Some w) /\ client_gone w = false /\ ctx w = Some 0%nat /\
  contexts w !! 0%nat = Some y /\ freed y = false /\ pending y = 1%nat.
Proof.
  destruct sample_world as [w|] eqn:E; [|by vm_compute in E].
  assert (R : reachable (Some w)).
  { rewrite <- E. destruct (doConnect world_init) as [w1|] eqn:E1; [|by vm_compute in E1]. unfold sample_world. rewrite E1. cbn [mbind option_bind].
    eapply reach_step; [|apply step_command; by vm_compute in E1; injection E1 as <-]. rewrite <- E1. eapply reach_step; [apply reach_init|by apply step_connect]. }
  vm_compute in E. injection E as <-. eexists _, _. split_and!; try done.
Qed.
End RedisAdapter.

Module Stdio.
(** [SendBinary] on Unix: [written] is what [write] returns. *)
Record Sent := { out : list Z; warned : bool }.
Definition to_size_t (z : Z) : Z := z mod 2 ^ 64.
Definition SendBinary (buff : list Z) (written : Z) : Sent :=
  {| out := take (Z.to_nat written) buff; warned := to_size_t written <? Z.of_nat (length buff) |}.
(** [doRead] when [read] returns -1: the notifier is turned off, whatever [errno] says. *)
Inductive Errno := EAGAIN | EINTR | EIO.
Definition on_read (ParseMsgPack : list Z -> res (QVar * nat)) (c : BinaryConfig) (st : StdioState) (r : StdioRead + Errno) : StdioState * list StdioEffect :=
  doRead ParseMsgPack c st (match r with inl r => r | inr _ => Read_error end).
(** What is written short is reported, and the rest is not sent again. *)
Theorem short_write_reported (buff : list Z) (written : Z) : 0 <= written <= Z.of_nat (length buff) -> Z.of_nat (length buff) < 2 ^ 63 ->
  warned (SendBinary buff written) = bool_decide (out (SendBinary buff written) <> buff) /\
  exists rest, buff = out (SendBinary buff written) ++ rest.
Proof.
  intros H L. unfold SendBinary, to_size_t. cbn [warned out]. rewrite Z.mod_small by lia.
  split; [|exists (drop (Z.to_nat written) buff); by rewrite take_drop].
  destruct (Z.ltb_spec written (Z.of_nat (length buff))).
  - symmetry. apply bool_decide_eq_true. intros E. apply (f_equal length) in E. rewrite length_take in E. lia.
  - symmetry. apply bool_decide_eq_false. rewrite take_ge by lia. tauto.
Qed.
(** A failed [write] is -1, which as a [size_t] is less than nothing: the message is
    gone and nobody is told. *)
Theorem failed_write_silent (buff : list Z) : Z.of_nat (length buff) < 2 ^ 63 ->
  SendBinary buff (-1) = {| out := []; warned := false |}.
Proof.
  intros L. unfold SendBinary, to_size_t. change (Z.to_nat (-1)) with 0%nat. f_equal.
  apply Z.ltb_ge. change (-1 mod 2 ^ 64) with (2 ^ 64 - 1). lia.
Qed.
(** The end of the input is announced, a failure is not: after one, even one that only
    says that there is nothing to read yet, the worker never reads again. *)
Theorem failed_read_is_final (P : list Z -> res (QVar * nat)) (c : BinaryConfig) (st : StdioState) (e : Errno) :
  let '(st', acts) := on_read P c st (inr e) in
  stdio_enabled st' = false /\ stdio_buffer st' = stdio_buffer st /\ ~ In Emit_closed acts /\ In Emit_closed (on_read P c st (inl Read_eof)).2.
Proof. cbn. split_and!; try done; [by intros [?|[]]|auto]. Qed.
End Stdio.

Module Serial.
Record Settings := { port : string; baud : Z; data_bits : Z; parity : Z; stop_bits : Z; flow_control : Z; open_mode : Z }.
(** The fields of a parsed [SerialConfig] after those of [BinaryConfig]. *)
Definition settings_of (x : CVal) : option Settings :=
  match x with
  | XStruct [_; _; _; _; _; XString p; XNum b; XNum d; XEnum pa; XEnum st; XEnum fl; XEnum mo] =>
      Some {| port := p; baud := b; data_bits := d; parity := pa; stop_bits := st; flow_control := fl; open_mode := mo |}
  | _ => None
  end.
Inductive PortCall :=
| New (port : string) | SetBaudRate (b : Z) | SetDataBits (d : Z) | SetParity (p : Z) | SetStopBits (s : Z) | SetFlowControl (f : Z)
| Open (mode : Z) | OnReadyRead | Write (bytes : list Z) | Flush.
(** [error]: what [open] fails with. *)
Definition SerialWorker_new (c : Settings) (error : option string) : list PortCall * res unit :=
  let calls := [New (port c); SetBaudRate (wraps 32 (baud c)); SetDataBits (data_bits c); SetParity (parity c); SetStopBits (stop_bits c);
                SetFlowControl (flow_control c); Open (open_mode c)] in
  match error with
  | Some e => (calls, Raise ((("Could not open port " +:+ port c) +:+ ": ") +:+ e))
  | None => (calls ++ [OnReadyRead], Ok tt)
  end.
Definition SendBinary (buff : list Z) : list PortCall := [Write buff; Flush].
Lemma all_fields_cons (ok : CType -> CVal -> bool) k t fs vs : all_fields ok ((k, t) :: fs) vs = true ->
  exists x vs', vs = x :: vs' /\ ok t x = true /\ all_fields ok fs vs' = true.
Proof. destruct vs as [|x vs]; [done|]. cbn. intros [H1 H2]%andb_true_iff. by exists x, vs. Qed.
Lemma typed_enum (CO : ConfigOps) (EL : EnumLaws CO) n (ms : list (string * Z)) x (l : list Z) :
  typed true (CEnum n ms) x = true -> forallb (fun m => bool_decide (m.2 ∈ l)) ms = true -> exists z, x = XEnum z /\ z ∈ l.
Proof.
  destruct x as [| | | | | |z| | | | | |]; try done. cbn. intros [m Hm]%bool_decide_eq_true Hl. exists z. split; [done|].
  rewrite forallb_forall in Hl. specialize (Hl (m, z)). apply (bool_decide_eq_true (z ∈ l)), Hl. apply list_elem_of_In. by apply enum_listed.
Qed.
Lemma typed_num (CO : ConfigOps) t x : typed true (CNum t) x = true -> exists z, x = XNum z /\ num_range t z = true.
Proof. destruct x as [| | | | | | |z| | | | |]; try done. by exists z. Qed.
Lemma typed_string (CO : ConfigOps) x : typed true CString x = true -> exists s, x = XString s.
Proof. destruct x as [|s| | | | | | | | | | |]; try done. by exists s. Qed.
(** A well-typed configuration always yields settings, all but the number of data bits
    among those the port knows, and the rate it asks for unless the cast to [int]
    makes it negative. *)
Theorem settings_known (CO : ConfigOps) (EL : EnumLaws CO) (x : CVal) : typed true SerialConfig x = true ->
  exists s, settings_of x = Some s /\ 0 <= baud s < 2 ^ 32 /\ 0 <= data_bits s < 2 ^ 16 /\
    parity s ∈ [0; 2; 3; 4; 5] /\ stop_bits s ∈ [1; 2; 3] /\ flow_control s ∈ [0; 1; 2] /\ open_mode s ∈ [1; 2; 3] /\
    (baud s < 2 ^ 31 -> wraps 32 (baud s) = baud s) /\ (2 ^ 31 <= baud s -> wraps 32 (baud s) < 0).
Proof.
  destruct x as [| | | | | | | |vs| | | |]; try done. unfold SerialConfig. cbn [typed]. unfold BinaryConfig_fields. cbn [app Process.BinaryConfig_type].
  do 5 (intros (? & ? & -> & _ & Hr)%all_fields_cons; revert Hr).
  intros (fld1 & ? & -> & T1 & Hr)%all_fields_cons; revert Hr.
  intros (fld2 & ? & -> & T2 & Hr)%all_fields_cons; revert Hr.
  intros (fld3 & ? & -> & T3 & Hr)%all_fields_cons; revert Hr.
  intros (fld4 & ? & -> & T4 & Hr)%all_fields_cons; revert Hr.
  intros (fld5 & ? & -> & T5 & Hr)%all_fields_cons; revert Hr.
  intros (fld6 & ? & -> & T6 & Hr)%all_fields_cons; revert Hr.
  intros (fld7 & vs1 & -> & T7 & Hr)%all_fields_cons.
  destruct vs1; [|done].
  destruct (typed_string CO fld1 T1) as [p ->]. destruct (typed_num CO NUInt fld2 T2) as (b & -> & B). destruct (typed_num CO NUShort fld3 T3) as (d & -> & D).
  change (typed true SerialParity fld4 = true) in T4. unfold SerialParity in T4.
  destruct (typed_enum CO EL _ _ fld4 [0; 2; 3; 4; 5] T4) as (z4 & -> & M4); [by vm_compute|].
  change (typed true SerialStopBits fld5 = true) in T5. unfold SerialStopBits in T5.
  destruct (typed_enum CO EL _ _ fld5 [1; 2; 3] T5) as (z5 & -> & M5); [by vm_compute|].
  change (typed true SerialFlowControl fld6 = true) in T6. unfold SerialFlowControl in T6.
  destruct (typed_enum CO EL _ _ fld6 [0; 1; 2] T6) as (z6 & -> & M6); [by vm_compute|].
  change (typed true SerialOpenMode fld7 = true) in T7. unfold SerialOpenMode in T7.
  destruct (typed_enum CO EL _ _ fld7 [1; 2; 3] T7) as (z7 & -> & M7); [by vm_compute|].
  unfold num_range in B, D. cbn [num_bits] in B, D. eexists. split; [reflexivity|]. cbn [baud data_bits parity stop_bits flow_control open_mode].
  split_and!; try done; try lia; unfold wraps; intros.
  - rewrite Z.mod_small; lia.
  - replace (b + 2 ^ (32 - 1)) with (b - 2 ^ 31 + 1 * 2 ^ 32) by lia. rewrite Z.mod_add, Z.mod_small by lia. lia.
Qed.
End Serial.

Module ModbusSetup.
Inductive Param :=
| SerialPortNameParameter (s : string) | SerialBaudRateParameter (z : Z) | SerialDataBitsParameter (z : Z)
| SerialStopBitsParameter (z : Z) | SerialParityParameter (z : Z)
| NetworkAddressParameter (s : string) | NetworkPortParameter (z : Z).
Record Device := { name : string; frame_gap : Z; max_write_queue : Z; max_read_queue : Z; reconnect_timeout_ms : Z; on_read_overflow : Z; on_write_overflow : Z }.
Record RtuDevice := { rtu_device : Device; port : string; byte_order : Z; data_bits : Z; baud : Z; parity : Z; stop_bits : Z }.
Record TcpDevice := { tcp_device : Device; host : string; tcp_port : Z }.
(** The fields of a parsed structure. *)
Definition device_of (l : list CVal) : option (Device * list CVal) :=
  match l with
  | XString n :: XNum fg :: XNum mw :: XNum mr :: XNum rt :: XEnum ro :: XEnum wo :: l =>
      Some ({| name := n; frame_gap := fg; max_write_queue := mw; max_read_queue := mr; reconnect_timeout_ms := rt; on_read_overflow := ro; on_write_overflow := wo |}, l)
  | _ => None
  end.
Definition rtu_of (x : CVal) : option RtuDevice :=
  '(d, l) ← device_of (fields_of x);
  match l with
  | [XString p; XEnum bo; XNum db; XNum ba; XNum pa; XNum sb] =>
      Some {| rtu_device := d; port := p; byte_order := bo; data_bits := db; baud := ba; parity := pa; stop_bits := sb |}
  | _ => None
  end.
Definition tcp_of (x : CVal) : option TcpDevice :=
  '(d, l) ← device_of (fields_of x);
  match l with [XString h; XNum p] => Some {| tcp_device := d; host := h; tcp_port := p |} | _ => None end.

(** A device as its constructor leaves it. *)
Record Built := {
  config : Device; params : list Param;                    (* in the order they are set *)
  interFrameDelay : option Z; connectionString : string; objectName : string
}.
Definition device_name (kind conn : string) (d : Device) : string := ((((kind +:+ "(") +:+ conn) +:+ "/") +:+ name d) +:+ ")".
Definition Master_rtu (c : RtuDevice) : Built :=
  {| config := rtu_device c;
     params := [SerialBaudRateParameter (baud c); SerialDataBitsParameter (data_bits c); SerialStopBitsParameter (stop_bits c);
                SerialParityParameter (parity c); SerialPortNameParameter (port c)];
     interFrameDelay := Some (wraps 32 (frame_gap (rtu_device c))); connectionString := port c; objectName := device_name "Device" (port c) (rtu_device c) |}.
Definition tcp_address (c : TcpDevice) : string := (host c +:+ ":") +:+ to_string (tcp_port c).
Definition Master_tcp (c : TcpDevice) : Built :=
  {| config := tcp_device c; params := [NetworkAddressParameter (host c); NetworkPortParameter (tcp_port c)];
     interFrameDelay := None; connectionString := tcp_address c; objectName := device_name "Device" (tcp_address c) (tcp_device c) |}.
Definition Slave_rtu (c : RtuDevice) : Built :=
  {| config := rtu_device c;
     params := [SerialPortNameParameter (port c); SerialBaudRateParameter (baud c); SerialDataBitsParameter (data_bits c);
                SerialStopBitsParameter (stop_bits c); SerialParityParameter (parity c)];
     interFrameDelay := None; connectionString := port c; objectName := device_name "SlaveDevice" (port c) (rtu_device c) |}.
Definition Slave_tcp (c : TcpDevice) : Built :=
  {| config := tcp_device c; params := [NetworkAddressParameter (host c); NetworkPortParameter (tcp_port c)];
     interFrameDelay := None; connectionString := tcp_address c; objectName := device_name "SlaveDevice" (tcp_address c) (tcp_device c) |}.
Section make.
Context {CO : ConfigOps}.
(** [makeDevice]; an argument that is missing is an invalid variant. *)
Definition makeDevice {T} (ty : CType) (conf_of : CVal -> option T) (build : T -> Built) (args : list QVar) : res Built :=
  let* x := ParseAs ty (default VInvalid (head args)) [] in
  match conf_of x with Some c => Ok (build c) | None => Raise "ill-typed" end.
Definition TcpModbusDevice : list QVar -> res Built := makeDevice Configs.TcpDevice tcp_of Master_tcp.
Definition RtuModbusDevice : list QVar -> res Built := makeDevice Configs.RtuDevice rtu_of Master_rtu.
Definition TcpModbusServer : list QVar -> res Built := makeDevice Configs.TcpDevice tcp_of Slave_tcp.
Definition RtuModbusServer : list QVar -> res Built := makeDevice Configs.RtuDevice rtu_of Slave_rtu.
End make.

(** ** Lemmas *)
Lemma typed_cons (CO : ConfigOps) k t fs vs : all_fields (typed true) ((k, t) :: fs) vs = true ->
  exists x vs', vs = x :: vs' /\ typed true t x = true /\ all_fields (typed true) fs vs' = true.
Proof. apply Serial.all_fields_cons. Qed.
Lemma typed_text (CO : ConfigOps) s x : typed true (text s) x = true -> exists t, x = XString t.
Proof. apply (Serial.typed_string CO). Qed.
Lemma typed_uint (CO : ConfigOps) d x : typed true (uint d) x = true -> exists z, x = XNum z /\ num_range NUInt z = true.
Proof. apply (Serial.typed_num CO). Qed.
Lemma typed_any_enum (CO : ConfigOps) n ms d x : typed true (CDefault (CEnum n ms) d) x = true -> exists z, x = XEnum z.
Proof. destruct x as [| | | | | |z| | | | | |]; try done. by exists z. Qed.
Lemma typed_device (CO : ConfigOps) fs vs : all_fields (typed true) (Device_fields ++ fs) vs = true ->
  exists d l, device_of vs = Some (d, l) /\ all_fields (typed true) fs l = true.
Proof.
  unfold Device_fields. cbn [app].
  intros (x1 & ? & -> & (n & ->)%typed_text & H)%typed_cons. revert H.
  do 4 (intros (? & ? & -> & (? & -> & _)%typed_uint & H)%typed_cons; revert H).
  do 2 (intros (? & ? & -> & (? & ->)%typed_any_enum & H)%typed_cons; revert H).
  intros H. eexists _, _. split; [reflexivity|exact H].
Qed.
(** A well-typed configuration is one of the structures the constructors take. *)
Lemma rtu_typed (CO : ConfigOps) x : typed true Configs.RtuDevice x = true -> is_Some (rtu_of x).
Proof.
  destruct x as [| | | | | | | |vs| | | |]; try done. intros H. change (all_fields (typed true) (Device_fields ++ [("port", CString); ("byte_order", CDefault ByteOrder (XEnum 1)); ("data_bits", uint 8); ("baud", uint 115200); ("parity", uint 0); ("stop_bits", uint 1)]) vs = true) in H.
  destruct (typed_device CO _ _ H) as (d & l & E & Hl). unfold rtu_of. cbn [fields_of]. rewrite E. cbn [mbind option_bind]. revert Hl.
  intros (? & ? & -> & (p & ->)%(Serial.typed_string CO) & H')%typed_cons. revert H'.
  intros (? & ? & -> & (bo & ->)%typed_any_enum & H')%typed_cons. revert H'.
  do 4 (intros (? & ? & -> & (? & -> & _)%typed_uint & H')%typed_cons; revert H').
  match goal with |- all_fields _ [] ?l = true -> _ => destruct l; [|done] end. intros _. by eexists.
Qed.
Lemma tcp_typed (CO : ConfigOps) x : typed true Configs.TcpDevice x = true -> is_Some (tcp_of x).
Proof.
  destruct x as [| | | | | | | |vs| | | |]; try done. intros H. change (all_fields (typed true) (Device_fields ++ [("host", CString); ("port", CNum NUShort)]) vs = true) in H.
  destruct (typed_device CO _ _ H) as (d & l & E & Hl). unfold tcp_of. cbn [fields_of]. rewrite E. cbn [mbind option_bind]. revert Hl.
  intros (? & ? & -> & (p & ->)%(Serial.typed_string CO) & H')%typed_cons. revert H'.
  intros (? & ? & -> & (z & -> & _)%(Serial.typed_num CO) & H')%typed_cons. revert H'.
  match goal with |- all_fields _ [] ?l = true -> _ => destruct l; [|done] end. intros _. by eexists.
Qed.

(** * Properties *)

(** A device is made exactly when its configuration parses, whoever calls: no parsed
    configuration is turned away. *)
Theorem devices_built (CO : ConfigOps) (CL : ConfigLaws CO) (EL : EnumLaws CO) (args : list QVar) :
  (is_ok (TcpModbusDevice args) = is_ok (ParseAs Configs.TcpDevice (default VInvalid (head args)) [])) /\
  (is_ok (RtuModbusDevice args) = is_ok (ParseAs Configs.RtuDevice (default VInvalid (head args)) [])) /\
  (is_ok (TcpModbusServer args) = is_ok (TcpModbusDevice args)) /\ (is_ok (RtuModbusServer args) = is_ok (RtuModbusDevice args)).
Proof.
  unfold TcpModbusDevice, RtuModbusDevice, TcpModbusServer, RtuModbusServer, makeDevice.
  destruct (ParseAs Configs.TcpDevice _ _) as [x|] eqn:E; destruct (ParseAs Configs.RtuDevice _ _) as [y|] eqn:F; cbn [res_bind];
  try (apply typed_of in E; [apply tcp_typed in E as [t ->]|by vm_compute]); try (apply typed_of in F; [apply rtu_typed in F as [r ->]|by vm_compute]); done.
Qed.
(** A master and a server made from one configuration talk over the same line. *)
Theorem same_line (r : RtuDevice) (t : TcpDevice) :
  Permutation (params (Master_rtu r)) (params (Slave_rtu r)) /\ params (Master_tcp t) = params (Slave_tcp t) /\
  connectionString (Master_rtu r) = connectionString (Slave_rtu r) /\ connectionString (Master_tcp t) = connectionString (Slave_tcp t).
Proof. split_and!; try done. cbn. apply Permutation_sym. change [SerialBaudRateParameter (baud r); SerialDataBitsParameter (data_bits r); SerialStopBitsParameter (stop_bits r); SerialParityParameter (parity r); SerialPortNameParameter (port r)]
  with ([SerialBaudRateParameter (baud r); SerialDataBitsParameter (data_bits r); SerialStopBitsParameter (stop_bits r); SerialParityParameter (parity r)] ++ [SerialPortNameParameter (port r)]). apply Permutation_cons_append. Qed.
(** The [byte_order] of a device is read from its configuration and never used. *)
Theorem byte_order_ignored (r : RtuDevice) (o : Z) :
  let r' := {| rtu_device := rtu_device r; port := port r; byte_order := o; data_bits := data_bits r; baud := baud r; parity := parity r; stop_bits := stop_bits r |} in
  Master_rtu r' = Master_rtu r /\ Slave_rtu r' = Slave_rtu r.
Proof. done. Qed.
End ModbusSetup.
