(* ===== verification/Signals.v ===== *)
(** * Signals of the operating system ([src/deps/qctrlsignals])

    The library the application listens with.  [registerForSignal] and its companions are
    written once over a _platform_, a virtual interface here as there ([Platform]), and
    [Contract] is what they promise on every platform.  Module [Unix]: a signal handler
    writes the number of the signal into a socket pair and a notifier reads it in the event
    loop; the kernel is described by what a disposition does, [room] is how many numbers
    the socket takes before [write] blocks, [catchable] the signals [sigaction] accepts.
    Module [Win]: the console handler, which runs on a thread of its own under a lock. *)
From S2P Require Import Prelude.

(** What is queued for the event loop, in order; [Quit] on Unix is a call, made where it stands. *)
Inductive Posted := Emit_sigInt | Emit_sigTerm | Emit_ctrlSignal (sig : Z) | Quit.

(** ** The common part *)
Record Private (P : Type) := { activeSignals : gset Z; autoQuit : bool; plat : P }.
Arguments activeSignals {P} _.
Arguments autoQuit {P} _.
Arguments plat {P} _.

(** A platform changes its own state only. *)
Class Platform (P : Type) := {
  SigInt : Z; SigTerm : Z;
  registerSignal : Z -> Private P -> bool * P;
  unregisterSignal : Z -> Private P -> bool * P;
  changeAutoQuitMode : bool -> Private P -> P
}.

Section common.
Context {P : Type} `{!Platform P}.
Definition set_plat (p : P) (h : Private P) : Private P := {| activeSignals := activeSignals h; autoQuit := autoQuit h; plat := p |}.
Definition set_active (act : gset Z) (h : Private P) : Private P := {| activeSignals := act; autoQuit := autoQuit h; plat := plat h |}.
Definition set_autoQuit (b : bool) (h : Private P) : Private P := {| activeSignals := activeSignals h; autoQuit := b; plat := plat h |}.
Definition QCtrlSignalHandlerPrivate (p : P) : Private P := {| activeSignals := ∅; autoQuit := false; plat := p |}.

Definition registerForSignal (sig : Z) (h : Private P) : bool * Private P :=
  if negb (bool_decide (sig ∈ activeSignals h)) then
    let (ok, p) := registerSignal sig h in
    if ok then (true, set_active ({[sig]} ∪ activeSignals h) (set_plat p h)) else (false, set_plat p h)
  else (true, h).
Definition unregisterFromSignal (sig : Z) (h : Private P) : bool * Private P :=
  if bool_decide (sig ∈ activeSignals h) then
    let (ok, p) := unregisterSignal sig h in
    if ok then (true, set_active (activeSignals h ∖ {[sig]}) (set_plat p h)) else (false, set_plat p h)
  else (true, h).
(** The second result: whether [autoQuitActiveChanged] is emitted. *)
Definition setAutoQuitActive (b : bool) (h : Private P) : Private P * bool :=
  if Bool.eqb (autoQuit h) b then (h, false)
  else let h := set_autoQuit b h in (set_plat (changeAutoQuitMode b h) h, true).
(** [None]: nobody registered for the signal. *)
Definition reportSignalTriggered (sig : Z) (h : Private P) : option (list Posted) :=
  if negb (bool_decide (sig ∈ activeSignals h)) then None
  else Some ((if sig =? SigInt then [Emit_sigInt] else if sig =? SigTerm then [Emit_sigTerm] else []) ++ [Emit_ctrlSignal sig]).

(** *** The contract of the common part, on any platform *)
Lemma registerForSignal_active sig h ok h' : registerForSignal sig h = (ok, h') ->
  activeSignals h' = if ok then {[sig]} ∪ activeSignals h else activeSignals h.
Proof.
  unfold registerForSignal. case_bool_decide as Hin; simpl.
  - intros [= <- <-]. set_solver.
  - destruct (registerSignal sig h) as [[] p]; by intros [= <- <-].
Qed.
Lemma unregisterFromSignal_active sig h ok h' : unregisterFromSignal sig h = (ok, h') ->
  activeSignals h' = if ok then activeSignals h ∖ {[sig]} else activeSignals h.
Proof.
  unfold unregisterFromSignal. case_bool_decide as Hin; simpl.
  - destruct (unregisterSignal sig h) as [[] p]; by intros [= <- <-].
  - intros [= <- <-]. apply leibniz_equiv. set_solver.
Qed.
(** A registered signal is reported, whatever the automatic quit does; one that is not is left to it. *)
Lemma registered_reported sig h h' b : registerForSignal sig h = (true, h') ->
  exists shortcut, reportSignalTriggered sig (setAutoQuitActive b h').1 = Some (shortcut ++ [Emit_ctrlSignal sig]).
Proof.
  intros E. apply registerForSignal_active in E.
  assert (activeSignals (setAutoQuitActive b h').1 = activeSignals h') as E' by (unfold setAutoQuitActive; by destruct (Bool.eqb _ _)).
  unfold reportSignalTriggered. rewrite E', E, bool_decide_eq_true_2 by set_solver. by eexists.
Qed.
Lemma unregistered_silent sig h h' : unregisterFromSignal sig h = (true, h') -> reportSignalTriggered sig h' = None.
Proof.
  intros E. apply unregisterFromSignal_active in E.
  unfold reportSignalTriggered. by rewrite E, bool_decide_eq_false_2 by set_solver.
Qed.
End common.

(** ** Unix *)
Definition SIGHUP : Z := 1.
Definition SIGINT : Z := 2.
Definition SIGQUIT : Z := 3.
Definition SIGTERM : Z := 15.

Module Unix.
Definition shutSignals : list Z := [SIGINT; SIGTERM; SIGQUIT; SIGHUP].
Record Unix := {
  installed : gset Z;               (* the dispositions that are [unixSignalHandler] *)
  pair_made : bool; pipe : list Z;  (* written, not yet read *)
  posted : list Posted
}.
Definition QCtrlSignalHandlerUnix (socketpair : bool) : Unix :=
  {| installed := ∅; pair_made := socketpair; pipe := []; posted := [] |}.
Definition set_installed (ins : gset Z) (u : Unix) : Unix :=
  {| installed := ins; pair_made := pair_made u; pipe := pipe u; posted := posted u |}.
Definition set_pipe (l : list Z) (u : Unix) : Unix :=
  {| installed := installed u; pair_made := pair_made u; pipe := l; posted := posted u |}.
Definition post (l : list Posted) (u : Unix) : Unix :=
  {| installed := installed u; pair_made := pair_made u; pipe := pipe u; posted := posted u ++ l |}.
Definition isAutoQuitRegistered (sig : Z) (h : Private Unix) : bool := if autoQuit h then bool_decide (sig ∈ shutSignals) else false.

Section kernel.
Context (catchable : Z -> bool) (room : nat).
Definition updateSignalHandler (sig : Z) (active : bool) (u : Unix) : bool * Unix :=
  if catchable sig then (true, set_installed (if active then {[sig]} ∪ installed u else installed u ∖ {[sig]}) u) else (false, u).
Definition unix_registerSignal (sig : Z) (h : Private Unix) : bool * Unix :=
  if isAutoQuitRegistered sig h then (true, plat h) else updateSignalHandler sig true (plat h).
Definition unix_unregisterSignal (sig : Z) (h : Private Unix) : bool * Unix :=
  if isAutoQuitRegistered sig h then (true, plat h) else updateSignalHandler sig false (plat h).
Definition unix_changeAutoQuitMode (enabled : bool) (h : Private Unix) : Unix :=
  fold_left (fun u sig => if negb (bool_decide (sig ∈ activeSignals h)) then (updateSignalHandler sig enabled u).2 else u) shutSignals (plat h).
#[export] Instance unix_platform : Platform Unix :=
  {| SigInt := SIGINT; SigTerm := SIGTERM; registerSignal := unix_registerSignal;
     unregisterSignal := unix_unregisterSignal; changeAutoQuitMode := unix_changeAutoQuitMode |}.

(** A signal is delivered.  [Blocked]: the handler waits in [write]; when it interrupted
    the event loop, nobody is left to read.  [Stdin]: [sockpair] is still [{0, 0}]. *)
Inductive Delivered := Killed | Blocked | Stdin (sig : Z) | Handled (u : Unix).
Definition deliver (sig : Z) (u : Unix) : Delivered :=
  if negb (bool_decide (sig ∈ installed u)) then Killed
  else if negb (pair_made u) then Stdin sig
  else if (length (pipe u) <? room)%nat then Handled (set_pipe (pipe u ++ [sig]) u) else Blocked.
Definition reaction (sig : Z) (h : Private Unix) : list Posted :=
  match reportSignalTriggered sig h with
  | Some p => p
  | None => if isAutoQuitRegistered sig h then [Quit] else []
  end.
Definition socketNotifyTriggerd (h : Private Unix) : Private Unix :=
  match pipe (plat h) with
  | [] => h
  | sig :: rest => set_plat (post (reaction sig h) (set_pipe rest (plat h))) h
  end.

Inductive Op := Register (sig : Z) | Unregister (sig : Z) | AutoQuit (b : bool) | Deliver (sig : Z) | Notify.
(** [None]: the process is killed or hangs. *)
Definition apply (op : Op) (h : Private Unix) : option (Private Unix) :=
  match op with
  | Register s => Some (registerForSignal s h).2
  | Unregister s => Some (unregisterFromSignal s h).2
  | AutoQuit b => Some (setAutoQuitActive b h).1
  | Deliver s => match deliver s (plat h) with Handled u => Some (set_plat u h) | Stdin _ => Some h | _ => None end
  | Notify => Some (socketNotifyTriggerd h)
  end.
Fixpoint run (ops : list Op) (h : Private Unix) : option (Private Unix) :=
  match ops with [] => Some h | op :: ops => h' ← apply op h; run ops h' end.
Definition started (socketpair : bool) : Private Unix := QCtrlSignalHandlerPrivate (QCtrlSignalHandlerUnix socketpair).

(** ** Which signals are handled *)
Definition wanted (h : Private Unix) (sig : Z) : Prop := sig ∈ activeSignals h \/ autoQuit h = true /\ sig ∈ shutSignals.
Definition agrees (h : Private Unix) : Prop := forall sig, sig ∈ installed (plat h) <-> wanted h sig.

Lemma isAutoQuitRegistered_true sig h : isAutoQuitRegistered sig h = true <-> autoQuit h = true /\ sig ∈ shutSignals.
Proof. unfold isAutoQuitRegistered. destruct (autoQuit h); rewrite ?bool_decide_eq_true; naive_solver. Qed.

(** What a change of mode leaves: the signals of the list that nobody registered follow the mode. *)
Lemma changed_installed enabled (h : Private Unix) l (u : Unix) : (forall s, s ∈ l -> catchable s = true) ->
  forall sig, sig ∈ installed (fold_left (fun u sig => if negb (bool_decide (sig ∈ activeSignals h)) then (updateSignalHandler sig enabled u).2 else u) l u) <->
    (if bool_decide (sig ∈ l /\ (sig ∉ activeSignals h)) then enabled = true else sig ∈ installed u).
Proof.
  intros Hc sig. revert u. induction l as [|s l IH]; intros u; simpl.
  - done.
  - rewrite IH by set_solver. unfold updateSignalHandler. rewrite (Hc s) by set_solver.
    destruct (decide (sig = s)) as [->|Hne]; repeat case_bool_decide; destruct enabled; set_solver.
Qed.

Lemma registerForSignal_agrees sig h : agrees h -> agrees (registerForSignal sig h).2.
Proof.
  intros A. unfold registerForSignal. case_bool_decide as Hin; simpl; [done|].
  unfold unix_registerSignal, updateSignalHandler.
  destruct (isAutoQuitRegistered sig h) eqn:E; [|destruct (catchable sig)]; simpl; [| |by destruct h].
  - apply isAutoQuitRegistered_true in E. intros s. unfold wanted; simpl. rewrite (A s). unfold wanted. set_solver.
  - intros s. specialize (A s). unfold wanted in *; simpl. set_solver.
Qed.
Lemma unregisterFromSignal_agrees sig h : agrees h -> agrees (unregisterFromSignal sig h).2.
Proof.
  intros A. unfold unregisterFromSignal. case_bool_decide as Hin; simpl; [|done].
  unfold unix_unregisterSignal, updateSignalHandler.
  destruct (isAutoQuitRegistered sig h) eqn:E; [|destruct (catchable sig)]; simpl; [| |by destruct h].
  - apply isAutoQuitRegistered_true in E. intros s. unfold wanted; simpl. rewrite (A s). unfold wanted.
    destruct (decide (s = sig)) as [->|]; set_solver.
  - assert (~ (autoQuit h = true /\ sig ∈ shutSignals)) as Hn by (intros H; apply isAutoQuitRegistered_true in H; congruence).
    intros s. specialize (A s). unfold wanted in *; simpl. destruct (decide (s = sig)) as [->|]; set_solver.
Qed.
Lemma setAutoQuitActive_agrees b h : (forall s, s ∈ shutSignals -> catchable s = true) -> agrees h -> agrees (setAutoQuitActive b h).1.
Proof.
  intros Hc A. unfold setAutoQuitActive. destruct (Bool.eqb (autoQuit h) b) eqn:E; [done|]. apply eqb_false_iff in E.
  intros s. cbn [fst set_plat plat changeAutoQuitMode unix_platform]. unfold unix_changeAutoQuitMode.
  rewrite changed_installed by done. specialize (A s). unfold wanted in *. cbn in *.
  destruct (decide (s ∈ activeSignals h)), (decide (s ∈ shutSignals)), b, (autoQuit h); try done; case_bool_decide; intuition congruence.
Qed.

Lemma applied_deliver sig h h' : apply (Deliver sig) h = Some h' ->
  (pair_made (plat h) = false /\ h' = h) \/ (pair_made (plat h) = true /\ h' = set_plat (set_pipe (pipe (plat h) ++ [sig]) (plat h)) h).
Proof.
  simpl. unfold deliver. destruct (negb (bool_decide _)); [done|]. destruct (pair_made (plat h)); simpl; [|by intros [= <-]; left].
  destruct (_ <? _)%nat; [|done]. intros [= <-]. by right.
Qed.

(** At every moment the process catches the signals somebody registered for and, while the
    automatic quit is on, the four that end a program; every other signal has its default. *)
Theorem dispositions_agree socketpair ops h : (forall s, s ∈ shutSignals -> catchable s = true) ->
  run ops (started socketpair) = Some h -> agrees h.
Proof.
  intros Hc. assert (agrees (started socketpair)) as A0 by (intros s; unfold wanted; set_solver).
  revert A0. generalize (started socketpair) as h0. induction ops as [|op ops IH]; intros h0 A R; simpl in R.
  - by inverts R.
  - destruct (apply op h0) as [h1|] eqn:E; [|done]. apply IH with h1; [|done].
    destruct op as [| | |s|]; [inverts E|inverts E|inverts E| |inverts E].
    + by apply registerForSignal_agrees.
    + by apply unregisterFromSignal_agrees.
    + by apply setAutoQuitActive_agrees.
    + apply applied_deliver in E as [[_ ->]|[_ ->]]; exact A.
    + unfold socketNotifyTriggerd. by destruct (pipe (plat h0)).
Qed.

(** ** From the handler to the event loop *)
Definition delivered (ops : list Op) : list Z := omap (fun op => match op with Deliver s => Some s | _ => None end) ops.
Definition only_signals (ops : list Op) : Prop := Forall (fun op => match op with Deliver _ | Notify => True | _ => False end) ops.

(** As long as the registrations stay, every signal is answered exactly once and in the
    order of delivery, however the deliveries and the event loop interleave: what is queued
    and what is still in the socket are together the answers to all that was delivered. *)
Theorem signals_in_order ops h h' : only_signals ops -> pair_made (plat h) = true -> run ops h = Some h' ->
  posted (plat h') ++ flat_map (fun s => reaction s h) (pipe (plat h')) =
  posted (plat h) ++ flat_map (fun s => reaction s h) (pipe (plat h) ++ delivered ops).
Proof.
  intros Ho. revert h. induction Ho as [|op ops Hop Ho IH]; intros h Hp R; simpl in R.
  - inverts R. by rewrite app_nil_r.
  - destruct (apply op h) as [h1|] eqn:E; [|done]. destruct op as [| | |s|]; try done.
    + apply applied_deliver in E as [[Hf _]|[_ ->]]; [congruence|].
      pose proof (IH (set_plat (set_pipe (pipe (plat h) ++ [s]) (plat h)) h) Hp R) as I.
      simpl in I. rewrite <- app_assoc in I. exact I.
    + inverts E. unfold socketNotifyTriggerd in R. destruct (pipe (plat h)) as [|s rest] eqn:Ep.
      * pose proof (IH h Hp R) as I. by rewrite Ep in I.
      * pose proof (IH (set_plat (post (reaction s h) (set_pipe rest (plat h))) h) Hp R) as I.
        simpl in I. rewrite <- app_assoc in I. exact I.
Qed.
(** When the event loop has run, all of it is queued. *)
Lemma notified h : exists h', run (replicate (length (pipe (plat h))) Notify) h = Some h' /\ pipe (plat h') = [].
Proof.
  remember (length (pipe (plat h))) as n eqn:En. revert h En. induction n as [|n IH]; intros h En; simpl.
  - exists h. split; [done|]. by destruct (pipe (plat h)).
  - apply IH. unfold socketNotifyTriggerd. destruct (pipe (plat h)) as [|s rest]; simpl in *; lia.
Qed.
(** A signal the process catches is answered: reported to those who registered, or quits. *)
Lemma reaction_of_wanted sig h : wanted h sig -> reaction sig h <> [].
Proof.
  unfold wanted, reaction, reportSignalTriggered. intros W. case_bool_decide as Hin; simpl.
  - by destruct (if sig =? SIGINT then _ else _).
  - rewrite (proj2 (isAutoQuitRegistered_true sig h)) by naive_solver. done.
Qed.
(** A signal read after its registration is gone is dropped without a word. *)
Lemma late_unregister_swallows sig h h' : unregisterFromSignal sig h = (true, h') -> autoQuit h' = false -> reaction sig h' = [].
Proof. intros E Q. unfold reaction. rewrite (unregistered_silent _ _ _ E). unfold isAutoQuitRegistered. by rewrite Q. Qed.
(** Registrations change dispositions, and nothing of what is under way. *)
Definition same_io (u u' : Unix) : Prop := pair_made u' = pair_made u /\ pipe u' = pipe u /\ posted u' = posted u.
Lemma updated_io sig b u : same_io u (updateSignalHandler sig b u).2.
Proof. unfold updateSignalHandler. by destruct (catchable sig). Qed.
Lemma changed_io b h : same_io (plat h) (unix_changeAutoQuitMode b h).
Proof.
  unfold unix_changeAutoQuitMode. generalize (plat h) as u. induction shutSignals as [|s l IH]; intros u; [done|]. cbn [fold_left].
  destruct (IH (if negb (bool_decide (s ∈ activeSignals h)) then (updateSignalHandler s b u).2 else u)) as (E1 & E2 & E3).
  unfold same_io. rewrite E1, E2, E3. destruct (negb _); [apply updated_io|done].
Qed.
Lemma registered_io op h h' : apply op h = Some h' -> match op with Deliver _ | Notify => True | _ => same_io (plat h) (plat h') end.
Proof.
  destruct op as [s|s|b|s|]; try done; cbn [apply]; intros [= <-].
  - unfold registerForSignal. case_bool_decide; [done|]. simpl. unfold unix_registerSignal.
    pose proof (updated_io s true (plat h)) as U. destruct (isAutoQuitRegistered s h); [done|]. by destruct (updateSignalHandler s true (plat h)) as [[] u].
  - unfold unregisterFromSignal. case_bool_decide; [|done]. simpl. unfold unix_unregisterSignal.
    pose proof (updated_io s false (plat h)) as U. destruct (isAutoQuitRegistered s h); [done|]. by destruct (updateSignalHandler s false (plat h)) as [[] u].
  - unfold setAutoQuitActive. destruct (Bool.eqb _ _); [done|]. apply (changed_io b (set_autoQuit b h)).
Qed.
(** When no socket pair could be made, the handlers are installed all the same: a caught
    signal is written to descriptor 0 and nothing is ever reported. *)
Theorem unpaired_deaf ops h' : run ops (started false) = Some h' -> posted (plat h') = [].
Proof.
  assert (forall h, pair_made (plat h) = false -> pipe (plat h) = [] -> posted (plat h) = [] ->
    run ops h = Some h' -> posted (plat h') = []) as G; [|by apply (G (started false))].
  induction ops as [|op ops IH]; intros h Hp Hq Hs R; simpl in R; [by inverts R|].
  destruct (apply op h) as [h1|] eqn:E; [|done]. pose proof (registered_io _ _ _ E) as S.
  destruct op as [s|s|b|s|]; try (destruct S as (S1 & S2 & S3); apply (IH h1); [congruence..|exact R]).
  - apply applied_deliver in E as [[_ ->]|[Ht _]]; [by apply (IH h)|congruence].
  - inverts E. unfold socketNotifyTriggerd in R. rewrite Hq in R. by apply (IH h).
Qed.
End kernel.

(** The application registers for two signals; the loss of its terminal is not one of them. *)
Lemma registered_only catchable sig s (h : Private Unix) : s <> sig ->
  s ∈ installed (plat (@registerForSignal _ (unix_platform catchable) sig h).2) -> s ∈ installed (plat h).
Proof.
  intros Hne. unfold registerForSignal. case_bool_decide; [done|]. simpl. unfold unix_registerSignal, updateSignalHandler.
  destruct (isAutoQuitRegistered sig h), (catchable sig); simpl; set_solver.
Qed.
Theorem hangup_kills catchable room h :
  run catchable room [Register SIGINT; Register SIGTERM] (started true) = Some h -> deliver room SIGHUP (plat h) = Killed.
Proof.
  intros [= <-]. unfold deliver. rewrite bool_decide_eq_false_2; [done|].
  intros Hin%registered_only%registered_only; [|done..]. by apply not_elem_of_empty in Hin.
Qed.
End Unix.

(** ** Windows

    The routine of a console event runs on a thread the system starts, under a read lock
    that registrations take for writing.  [phase]: where the routine of a closing console
    waits, its lock held. *)
Module Win.
Definition CTRL_C_EVENT : Z := 0.
Definition CTRL_BREAK_EVENT : Z := 1.
Definition CTRL_CLOSE_EVENT : Z := 2.
Definition CTRL_LOGOFF_EVENT : Z := 5.
Inductive Phase := Idle | WaitsQuit | WaitsDestroyed | Exited.
Record Win := { posted : list Posted; phase : Phase }.
Definition QCtrlSignalHandlerWin : Win := {| posted := []; phase := Idle |}.
Definition win_registerSignal (sig : Z) (h : Private Win) : bool * Win :=
  (if sig =? CTRL_C_EVENT then true else if sig =? CTRL_BREAK_EVENT then true else false, plat h).
Definition win_unregisterSignal (_ : Z) (h : Private Win) : bool * Win := (true, plat h).
Definition win_changeAutoQuitMode (_ : bool) (h : Private Win) : Win := plat h.
#[export] Instance win_platform : Platform Win :=
  {| SigInt := CTRL_C_EVENT; SigTerm := CTRL_BREAK_EVENT; registerSignal := win_registerSignal;
     unregisterSignal := win_unregisterSignal; changeAutoQuitMode := win_changeAutoQuitMode |}.

Definition post (l : list Posted) (h : Private Win) : Private Win := set_plat {| posted := posted (plat h) ++ l; phase := phase (plat h) |} h.
Definition set_phase (f : Phase) (h : Private Win) : Private Win := set_plat {| posted := posted (plat h); phase := f |} h.
(** [None]: the routine does not return before the process ends. *)
Definition handleAutoQuit (sig : Z) (h : Private Win) : option bool * Private Win :=
  if negb (autoQuit h) then (Some false, h)
  else if (sig =? CTRL_C_EVENT) || (sig =? CTRL_BREAK_EVENT) then (Some true, post [Quit] h)
  else if sig =? CTRL_CLOSE_EVENT then (None, set_phase WaitsQuit (post [Quit] h))
  else (Some false, h).
Definition HandlerRoutine (sig : Z) (h : Private Win) : option bool * Private Win :=
  match reportSignalTriggered sig h with
  | Some l => (Some true, post l h)
  | None => handleAutoQuit sig h
  end.

(** What the main thread does: operations that take the lock, the event loop (which runs
    a waiting [quit]), the end of [qApp], whose [destroyed] releases the waiting routine. *)
Inductive Main := Register (sig : Z) | Unregister (sig : Z) | AutoQuit (b : bool) | EventLoop | AppDestroyed.
Definition readers (h : Private Win) : bool := match phase (plat h) with WaitsQuit | WaitsDestroyed => true | _ => false end.
(** [None]: the main thread waits for the lock. *)
Definition main_step (m : Main) (h : Private Win) : option (Private Win) :=
  match m with
  | Register s => if readers h then None else Some (registerForSignal s h).2
  | Unregister s => if readers h then None else Some (unregisterFromSignal s h).2
  | AutoQuit b => if readers h then None else Some (setAutoQuitActive b h).1
  | EventLoop => Some (match phase (plat h) with WaitsQuit => set_phase WaitsDestroyed h | _ => h end)
  | AppDestroyed => Some (match phase (plat h) with WaitsDestroyed => set_phase Exited h | _ => h end)
  end.
Fixpoint main_run (ms : list Main) (h : Private Win) : option (Private Win) :=
  match ms with [] => Some h | m :: ms => h' ← main_step m h; main_run ms h' end.

(** Only the two keyboard events can be registered for; the others go to the automatic quit. *)
Lemma only_keyboard sig h h' : registerForSignal sig h = (true, h') -> (sig ∉ activeSignals h) -> sig = CTRL_C_EVENT \/ sig = CTRL_BREAK_EVENT.
Proof.
  unfold registerForSignal. simpl. unfold win_registerSignal. intros E Hn. rewrite bool_decide_eq_false_2 in E by done. simpl in E.
  destruct (Z.eqb_spec sig CTRL_C_EVENT); [by left|]. destruct (Z.eqb_spec sig CTRL_BREAK_EVENT); [by right|done].
Qed.
(** A closing console ends the process in order - once the loop has run the [quit] and the
    application object is gone - unless the main thread touches the registrations on the
    way: then the two threads wait for each other. *)
Theorem closed_in_order h : autoQuit h = true -> (CTRL_CLOSE_EVENT ∉ activeSignals h) -> phase (plat h) = Idle ->
  exists h1, HandlerRoutine CTRL_CLOSE_EVENT h = (None, h1) /\ posted (plat h1) = posted (plat h) ++ [Quit] /\
    (exists h2, main_run [EventLoop; AppDestroyed] h1 = Some h2 /\ phase (plat h2) = Exited) /\
    (forall sig ms, main_run (Register sig :: ms) h1 = None /\ main_run (Unregister sig :: ms) h1 = None /\
                    main_run (EventLoop :: Unregister sig :: ms) h1 = None) /\
    (forall b ms, main_run (AutoQuit b :: ms) h1 = None).
Proof.
  intros Q Hn Hp. unfold HandlerRoutine, reportSignalTriggered, handleAutoQuit. rewrite bool_decide_eq_false_2 by done. rewrite Q. simpl.
  eexists. split; [done|]. split; [done|]. split; [by eexists|]. done.
Qed.
(** Without the automatic quit, or for a log-off, the system ends the process at once. *)
Lemma left_to_system sig h : (sig ∉ activeSignals h) -> autoQuit h = false \/ sig = CTRL_LOGOFF_EVENT ->
  HandlerRoutine sig h = (Some false, h).
Proof.
  intros Hn H. unfold HandlerRoutine, reportSignalTriggered, handleAutoQuit. rewrite bool_decide_eq_false_2 by done. simpl.
  by destruct H as [->| ->]; [|destruct (autoQuit h)].
Qed.
End Win.
