(* ===== verification/Connections.v ===== *)
(** * How network workers are built ([websocket.cpp], [local.cpp], [canworker.cpp], [redis.cpp])

    The constructors: the name a worker gets when its configuration has none (Module
    [Names]), the calls by which it sets its socket, device or client up, in the order the
    code makes them, and where it gives up.  [Sockets], [Can] and [Redis] take over from
    there.  Module [Reconnect] is a client over several connections. *)
From S2P Require Import Prelude QVariant Utils Can Worker Wire Sockets Redis.

(** ** Default names

    [QString::arg]: every occurrence of the marker with the lowest number (1 to 99) is
    replaced; with several arguments in one call they replace the markers in turn, and
    what they contain is not looked at again. *)
Module Names.
(** The number of the marker whose [%] stands before [s], and how many digits it has. *)
Definition marker (s : string) : option (Z * nat) :=
  match s with
  | String d r =>
      match digit_of d with
      | None => None
      | Some a =>
          let '(n, len) := match r with
                           | String e _ => match digit_of e with Some b => (10 * a + b, 2%nat) | None => (a, 1%nat) end
                           | EmptyString => (a, 1%nat)
                           end in
          if n =? 0 then None else Some (n, len)
      end
  | EmptyString => None
  end.
Definition percent : ascii := "%"%char.
Fixpoint marks (s : string) : list Z :=
  match s with
  | EmptyString => []
  | String c r => (if bool_decide (c = percent) then match marker r with Some (n, _) => [n] | None => [] end else []) ++ marks r
  end.
Fixpoint subst (f : Z -> option string) (skip : nat) (s : string) : string :=
  match s with
  | EmptyString => ""
  | String c r =>
      match skip with
      | S k => subst f k r
      | O =>
          match (if bool_decide (c = percent) then '(n, len) ← marker r; a ← f n; Some (a, len) else None) with
          | Some (a, len) => a +:+ subst f len r
          | None => String c (subst f 0 r)
          end
      end
  end.
Definition lowest (l : list Z) : option Z := match l with [] => None | n :: ns => Some (fold_left Z.min ns n) end.
Definition arg (s a : string) : string :=
  match lowest (marks s) with None => s | Some n => subst (fun m => if m =? n then Some a else None) 0 s end.
(** The markers in ascending order, each once. *)
Fixpoint add_mark (n : Z) (l : list Z) : list Z :=
  match l with [] => [n] | m :: l' => if n <? m then n :: l else if n =? m then l else m :: add_mark n l' end.
Fixpoint assign (ms : list Z) (args : list string) (m : Z) : option string :=
  match ms, args with n :: ms, a :: args => if m =? n then Some a else assign ms args m | _, _ => None end.
Definition multi_arg (s : string) (args : list string) : string := subst (assign (foldr add_mark [] (marks s)) args) 0 s.

(** The names of the workers. *)
Definition ws_server_name (host : string) (port : Z) : string := arg (arg "%1:%2" host) (to_string port).
Definition can_name (plugin device : string) : string := multi_arg "%1:%2" [plugin; device].
Definition sql_name (type db : string) : string := multi_arg "%1:%2" [type; db].
Definition redis_name (host : string) (port : Z) (key : string) : string := arg (arg (arg "%1:%2/%3" host) (to_string port)) key.
Definition modbus_name (device : string) (slave_id : Z) : string := arg (arg "%1/slave:%2" device) (to_string slave_id).

Lemma marks_plain a s : str_mem percent a = false -> marks (a +:+ s) = marks s.
Proof.
  induction a as [|c a IH]; [done|]. rewrite str_app_cons. cbn [str_mem marks]. intros [Hc Ha]%orb_false_iff. by rewrite Hc, IH.
Qed.
Lemma subst_plain f a s : str_mem percent a = false -> subst f 0 (a +:+ s) = a +:+ subst f 0 s.
Proof.
  induction a as [|c a IH]; [done|]. rewrite !str_app_cons. cbn [str_mem subst]. intros [Hc Ha]%orb_false_iff. by rewrite Hc, IH.
Qed.
Lemma arg_plain a s b : str_mem percent a = false -> arg (a +:+ s) b = a +:+ arg s b.
Proof. intros Ha. unfold arg. rewrite marks_plain by done. destruct (lowest (marks s)); [by rewrite subst_plain|done]. Qed.

Lemma dec_loop_plain fuel : forall n acc, str_mem percent acc = false -> str_mem percent (dec_loop fuel n acc) = false.
Proof.
  induction fuel as [|fuel IH]; intros n acc Ha; [done|]. cbn [dec_loop].
  assert (str_mem percent (String (digit_char (n mod 10)) acc) = false) as H.
  { cbn [str_mem]. rewrite Ha, orb_false_r. apply bool_decide_eq_false_2. intros E.
    pose proof (Z.mod_pos_bound n 10 ltac:(lia)). pose proof (digit_of_char (n mod 10) ltac:(lia)) as D. by rewrite E in D. }
  destruct (n <? 10); [done|by apply IH].
Qed.
Lemma number_plain n : str_mem percent (to_string n) = false.
Proof. by apply dec_loop_plain. Qed.
Lemma plain_app a b : str_mem percent a = false -> str_mem percent b = false -> str_mem percent (a +:+ b) = false.
Proof. intros Ha Hb. by rewrite str_mem_app, Ha, Hb. Qed.
Lemma arg_end a b : str_mem percent a = false -> arg a b = a.
Proof. intros Ha. unfold arg. rewrite <- (str_app_nil_r a), marks_plain by done. done. Qed.

(** Arguments without a [%] end up where the template has them; the last one may be anything. *)
Theorem names_show (host key : string) (port : Z) : str_mem percent host = false ->
  ws_server_name host port = host +:+ ":" +:+ to_string port /\
  modbus_name host port = host +:+ "/slave:" +:+ to_string port /\
  redis_name host port key = host +:+ ":" +:+ to_string port +:+ "/" +:+ key.
Proof.
  intros Hh. pose proof (number_plain port) as Hp.
  assert (forall t b, str_mem percent t = false -> arg (host +:+ t +:+ "%2") b = host +:+ t +:+ b) as G.
  { intros t b Ht. rewrite !arg_plain by done. change (arg "%2" b) with (b +:+ ""). by rewrite str_app_nil_r. }
  split_and!; [apply (G ":"); done|apply (G "/slave:"); done|]. unfold redis_name.
  change (arg "%1:%2/%3" host) with (host +:+ ":%2/%3"). rewrite arg_plain by done.
  change (arg ":%2/%3" (to_string port)) with (":" +:+ to_string port +:+ "/%3").
  rewrite !arg_plain by done. change (arg "/%3" key) with ("/" +:+ (key +:+ "")). by rewrite str_app_nil_r.
Qed.
(** Where both arguments are given in one call, any two strings are shown. *)
Theorem pair_names_show a b : can_name a b = a +:+ ":" +:+ b /\ sql_name a b = a +:+ ":" +:+ b.
Proof.
  assert (multi_arg "%1:%2" [a; b] = a +:+ ":" +:+ b) as E; [|done].
  change (a +:+ ":" +:+ (b +:+ "") = a +:+ ":" +:+ b). by rewrite str_app_nil_r.
Qed.
(** Where they are given one after the other, a marker inside the first is taken for the
    template's: an address with a numbered zone swallows the port, and the name of the
    worker is neither the address nor the port. *)
Theorem zone_swallows_port (port : Z) :
  ws_server_name "fe80::1%1" port = "fe80::1" +:+ to_string port +:+ ":%2".
Proof.
  change (ws_server_name "fe80::1%1" port) with (arg ("fe80::1" +:+ "%1:%2") (to_string port)).
  rewrite arg_plain by done. done.
Qed.
End Names.

(** ** WebSockets: certificates and the two constructors *)
Module WsSetup.
Inductive VerifyMode := VerifyNone | AutoVerifyPeer.
(** [AutoVerifyPeer] with no certificate of its own is the configuration a socket starts with. *)
Record QSslConfiguration := { peerVerifyMode : VerifyMode; localCertificate : string; privateKey : string }.
Record WsConfig := { origin : string; cert_file : string; key_file : string; host : string; port : Z; url : string }.
Inductive Call :=
| NewServer (origin : string) (secure : bool) | NewSocket (origin : string) | SetSslConfiguration (ssl : QSslConfiguration)
| Listen (host : string) (port : Z) | OnNewConnection | OnSocketSignals | Open (url : string).

Section qt.
Context (readable : string -> bool).      (* QFile::open(ReadOnly) *)
Context (listens : string -> Z -> bool).  (* QWebSocketServer::listen *)
Definition CreateSslConfiguration (cert key : string) : res QSslConfiguration :=
  if negb (readable cert) then Raise ("could not open certificate file: " +:+ cert)
  else if negb (readable key) then Raise ("could not open key file: " +:+ key)
  else Ok {| peerVerifyMode := VerifyNone; localCertificate := cert; privateKey := key |}.
(** What the configuration asks for: [None] when it names no file. *)
Definition ssl_of (c : WsConfig) : res (option QSslConfiguration) :=
  if negb (isEmpty (cert_file c)) || negb (isEmpty (key_file c)) then let* s := CreateSslConfiguration (cert_file c) (key_file c) in Ok (Some s)
  else Ok None.
Definition is_secure (s : option QSslConfiguration) : bool := match s with Some _ => true | None => false end.
(** The calls that were made, and whether the constructor threw. *)
Definition Server (c : WsConfig) : list Call * res unit :=
  match ssl_of c with
  | Raise e => ([], Raise e)
  | Ok ssl =>
      let calls := [NewServer (origin c) (is_secure ssl)] ++ match ssl with Some s => [SetSslConfiguration s] | None => [] end ++ [Listen (host c) (port c)] in
      if listens (host c) (port c) then (calls ++ [OnNewConnection], Ok tt)
      else (calls, Raise ((("could not listen on: " +:+ host c) +:+ ":") +:+ to_string (port c)))
  end.
Definition Client (c : WsConfig) : list Call * res unit :=
  match ssl_of c with
  | Raise e => ([], Raise e)
  | Ok ssl => ([NewSocket (origin c)] ++ match ssl with Some s => [SetSslConfiguration s] | None => [] end ++ [OnSocketSignals; Open (url c)], Ok tt)
  end.
(** What a socket verifies of its peer: what was set last. *)
Definition verifies (calls : list Call) : VerifyMode :=
  fold_left (fun m c => match c with SetSslConfiguration s => peerVerifyMode s | _ => m end) calls AutoVerifyPeer.

(** A server that names a certificate or a key never listens in plain text: either both
    files can be read, it is secure and its certificate is set before it listens, or the
    worker is not made and nothing was opened. *)
Theorem secure_or_nothing (c : WsConfig) : cert_file c <> "" \/ key_file c <> "" ->
  (readable (cert_file c) = true /\ readable (key_file c) = true /\
   exists s rest, (Server c).1 = [NewServer (origin c) true; SetSslConfiguration s; Listen (host c) (port c)] ++ rest /\
     localCertificate s = cert_file c /\ privateKey s = key_file c) \/
  ((Server c).1 = [] /\ is_ok (Server c).2 = false).
Proof.
  intros H. assert (negb (isEmpty (cert_file c)) || negb (isEmpty (key_file c)) = true) as E.
  { unfold isEmpty. rewrite orb_true_iff, !negb_true_iff, !bool_decide_eq_false. done. }
  unfold Server, ssl_of. rewrite E. unfold CreateSslConfiguration.
  destruct (readable (cert_file c)); [|by right]. destruct (readable (key_file c)); [left|by right]. cbn [negb res_bind].
  split; [done|]. split; [done|]. destruct (listens (host c) (port c)); [eexists _, [OnNewConnection]|eexists _, []]; done.
Qed.
(** Naming only one of the two files is an error: the other one is the empty name. *)
Lemma both_files_needed (c : WsConfig) : readable "" = false -> is_ok (Client c).2 = true ->
  (cert_file c = "" <-> key_file c = "").
Proof.
  intros He. unfold Client, ssl_of, CreateSslConfiguration, isEmpty. repeat case_bool_decide; cbn [negb orb]; try naive_solver.
  - rewrite H. by rewrite He.
  - rewrite H0, He. by destruct (readable (cert_file c)).
Qed.
(** A client without files verifies its server as Qt does by default; one that shows a
    certificate of its own accepts any. *)
Theorem certificate_disables_verification (c : WsConfig) : is_ok (Client c).2 = true ->
  verifies (Client c).1 = if isEmpty (cert_file c) && isEmpty (key_file c) then AutoVerifyPeer else VerifyNone.
Proof.
  unfold Client, ssl_of, CreateSslConfiguration. destruct (isEmpty (cert_file c)), (isEmpty (key_file c)); cbn [negb orb andb res_bind]; try done;
    by destruct (readable (cert_file c)), (readable (key_file c)).
Qed.
End qt.
End WsSetup.

(** ** Local sockets: the path of a server

    On Unix a server is a file; [paths] holds who listens on each.  [removeServer] unlinks
    the file of whoever made it, and [listen] fails where one exists. *)
Module LocalSetup.
Record World := { paths : gmap string nat; listening : list (nat * string) }.
Definition removeServer (name : string) (w : World) : World := {| paths := delete name (paths w); listening := listening w |}.
Section qt.
Context (usable : string -> bool).    (* the directory exists and can be written *)
Definition listen (who : nat) (name : string) (w : World) : res World :=
  if usable name && bool_decide (paths w !! name = None)
  then Ok {| paths := <[name := who]> (paths w); listening := (who, name) :: listening w |}
  else Raise "listen".
Definition Server (who : nat) (socket : string) (w : World) : res World :=
  match listen who socket (removeServer socket w) with
  | Ok w => Ok w
  | Raise e => Raise ((("could not listen on local socket " +:+ socket) +:+ ": ") +:+ e)
  end.
(** [connectToServer] reaches whoever the file belongs to. *)
Definition connectToServer (name : string) (w : World) : option nat := paths w !! name.

(** A file left behind by a crash is no obstacle: the constructor fails only where the
    path cannot be used, and clients then reach the new server. *)
Theorem server_starts (who : nat) (socket : string) (w : World) : is_ok (Server who socket w) = usable socket /\
  (forall w', Server who socket w = Ok w' -> connectToServer socket w' = Some who /\
     forall other, other <> socket -> connectToServer other w' = connectToServer other w).
Proof.
  unfold Server, listen, removeServer, connectToServer. cbn [paths]. rewrite bool_decide_eq_true_2 by apply lookup_delete_eq.
  rewrite andb_true_r. destruct (usable socket); split; try done. intros w' [= <-]. cbn [paths]. split; [apply lookup_insert_eq|].
  intros other Hne. by rewrite lookup_insert_ne, lookup_delete_ne by done.
Qed.
(** Neither is a server that is alive: a second one takes its path without an error, and
    the first goes on listening where nobody can reach it. *)
Theorem second_server_takes_path (a b : nat) (socket : string) (w w1 : World) : Server a socket w = Ok w1 ->
  exists w2, Server b socket w1 = Ok w2 /\ connectToServer socket w2 = Some b /\ In (a, socket) (listening w2) /\ In (b, socket) (listening w2).
Proof.
  unfold Server, listen, removeServer, connectToServer. cbn [paths listening]. destruct (usable socket); [|done].
  rewrite bool_decide_eq_true_2 by apply lookup_delete_eq. intros [= <-]. cbn [paths listening andb].
  rewrite bool_decide_eq_true_2 by apply lookup_delete_eq. eexists. split; [done|]. cbn [paths listening]. split; [apply lookup_insert_eq|].
  split; simpl; auto.
Qed.
End qt.
End LocalSetup.

(** ** The client of a local socket over several connections *)
Module Reconnect.
Section client.
Context `{W : WireOps} (c : Local.ClientConfig).
Inductive Event := StateChanged (st : Local.SocketState) | TimerFired | ReadyRead (received : list Z).
(** [buf] is a member of the worker: no handler but [readyRead] touches it. *)
Definition step (e : Event) (buf : list Z) : option (list Z * list SockEffect) :=
  match e with
  | StateChanged st => Some (buf, Local.stateChanged c st)
  | TimerFired => Some (buf, Local.reconnect_fired)
  | ReadyRead b => Local.client_readyRead c buf b
  end.
Fixpoint run (es : list Event) (buf : list Z) : option (list Z * list SockEffect) :=
  match es with
  | [] => Some (buf, [])
  | e :: es => '(buf, out) ← step e buf; '(buf, out') ← run es buf; Some (buf, out ++ out')
  end.
Definition received_messages (out : list SockEffect) : list QVar := omap (fun e => match e with Emit (SendMsg v) => Some v | _ => None end) out.
Definition is_incomplete (buf : list Z) : Prop := exists len, be32_read buf = Some len /\ 0 <= len < 2 ^ 31 /\ Z.of_nat (length buf) < 4 + len.

Lemma incomplete_waits buf : is_incomplete buf -> drain_step buf = None.
Proof.
  intros (len & E & Hl & Hb). unfold drain_step. rewrite E, !wrapu_small by lia. by rewrite (proj2 (Z.ltb_lt _ _)) by lia.
Qed.
Lemma readyRead_incomplete buf received : is_incomplete (buf ++ received) -> Local.client_readyRead c buf received = Some (buf ++ received, []).
Proof.
  intros H. unfold Local.client_readyRead, Wire.on_read, drain_fuel. cbn [DrainFrames]. by rewrite incomplete_waits.
Qed.
(** A connection that ends in the middle of a frame poisons the next one: the buffer is
    kept, and what the new connection sends - whole frames included - fills the old frame
    up; until it has as many bytes as that one lacked, no message arrives and no error is
    logged. *)
Theorem stale_frame_swallows buf len reads : be32_read buf = Some len -> 0 <= len < 2 ^ 31 ->
  Z.of_nat (length buf + length (concat reads)) < 4 + len ->
  exists out, run (map StateChanged [Local.UnconnectedState] ++ [TimerFired; StateChanged Local.ConnectedState] ++ map ReadyRead reads) buf =
    Some (buf ++ concat reads, out) /\ received_messages out = [] /\ ~ (exists e, In (Emit (LogLine error e)) out).
Proof.
  intros E Hl Hb.
  assert (forall buf, be32_read buf = Some len -> Z.of_nat (length buf + length (concat reads)) < 4 + len ->
    run (map ReadyRead reads) buf = Some (buf ++ concat reads, [])) as R.
  { clear buf E Hb. induction reads as [|r reads IH]; intros buf E Hb; simpl in *; [by rewrite app_nil_r|].
    rewrite length_app in Hb. rewrite readyRead_incomplete; [|exists len; rewrite length_app; split; [by apply be32_read_app|lia]]. simpl.
    rewrite IH; [by rewrite app_assoc|by apply be32_read_app|rewrite length_app; lia]. }
  simpl. rewrite R by done. simpl. eexists. split; [reflexivity|]. split; [done|]. intros (e & H). simpl in H. by repeat destruct H as [H|H].
Qed.
End client.
(** A frame of nine bytes of which two arrived: the peer that reconnects and sends a whole
    frame is not heard. *)
Example swallowed : received_messages <$> (snd <$> run (W := tiny_wire)
  {| Local.c_protocol := proto_json; Local.c_compression := None; Local.reconnect_timeout := 300 |}
  [ReadyRead [0; 0; 0; 9; 1; 2]; StateChanged Local.UnconnectedState; TimerFired; StateChanged Local.ConnectedState; ReadyRead (be32 2 ++ [7; 7])] []) = Some [].
Proof. by vm_compute. Qed.
End Reconnect.

(** ** CAN: opening the device *)
Module CanSetup.
Inductive Call := CreateDevice (plugin device : string) | SetParent | OnSignals | SetParameter (p : Can.Parameter_) | ConnectDevice | DisconnectDevice.
Definition nl : string := String (ascii_of_nat 10) EmptyString.
Definition join (l : list string) : string := String.concat ", " l.
Section qt.
Context (plugins : list string) (availableDevices : string -> list string).
(** [created]: the error of [createDevice]; [connected]: that of [connectDevice]. *)
Definition CanWorker (c : Can.CanConfig) (created connected : option string) : list Call * res unit :=
  let make := [CreateDevice (Can.plugin c) (Can.device c)] in
  match created with
  | Some e => (make, Raise ("Could not create CAN worker: " +:+ e +:+ "." +:+ nl +:+ "Available plugins: [" +:+ join plugins +:+ "]." +:+ nl +:+
                "Devices for current plugin(" +:+ Can.plugin c +:+ "): [" +:+ join (availableDevices (Can.plugin c)) +:+ "]"))
  | None =>
      let calls := make ++ [SetParent; OnSignals] ++ map SetParameter (Can.configure c) ++ [ConnectDevice] in
      (calls, match connected with
              | Some e => Raise ("Could not connect CAN device (" +:+ Can.plugin c +:+ ":" +:+ Can.device c +:+ "): " +:+ e)
              | None => Ok tt
              end)
  end.
(** [Destroy] of a worker that was made, before that of the base class. *)
Definition Destroy (has_device : bool) : list Call := if has_device then [DisconnectDevice] else [].

(** Whatever happens, the device is connected last: with every parameter of the
    configuration set and every signal heard; one that could not be created is not
    configured, and the error names what there is to choose from. *)
Theorem connected_last (c : Can.CanConfig) created connected : let calls := (CanWorker c created connected).1 in
  (In ConnectDevice calls <-> created = None) /\
  (created = None -> exists before, calls = before ++ [ConnectDevice] /\ (~ In ConnectDevice before) /\ In OnSignals before /\
     forall p, In (SetParameter p) before <-> In p (Can.configure c)) /\
  is_ok (CanWorker c created connected).2 = bool_decide (created = None /\ connected = None).
Proof.
  destruct created as [e|]; cbn [CanWorker fst snd].
  - split; [split; [by intros [?|[]]|done]|]. split; [done|]. by rewrite bool_decide_eq_false_2 by naive_solver.
  - split; [|split].
    + split; [done|]. intros _. rewrite !in_app_iff. simpl. auto.
    + intros _. eexists ([CreateDevice _ _; SetParent; OnSignals] ++ map SetParameter (Can.configure c)). split; [by rewrite <- app_assoc|].
      split; [|split; [simpl; auto|]].
      * intros [[?|[?|[?|[]]]]|(p & ? & _)%in_map_iff]%in_app_or; done.
      * intros p. rewrite in_app_iff, in_map_iff. simpl. naive_solver.
    + by destruct connected; [rewrite bool_decide_eq_false_2 by naive_solver|].
Qed.
(** A filter keeps the low 32 bits of its id and mask: the device is given what was
    configured exactly when both are such numbers. *)
Lemma filters_exact (f : Can.CanFilter) :
  (Can.frameId (Can.to_qt_filter f) = Can.fid f /\ Can.frameIdMask (Can.to_qt_filter f) = Can.fmask f) <->
  (0 <= Can.fid f < 2 ^ 32 /\ 0 <= Can.fmask f < 2 ^ 32).
Proof.
  cbn. split.
  - intros [<- <-]. split; apply wrapu_range; lia.
  - intros [? ?]. by rewrite !wrapu_small.
Qed.
End qt.
End CanSetup.

(** ** Redis: the clients of a worker *)
Module RedisSetup.
Inductive Which := Main | Second.
#[export] Instance Which_eq_dec : EqDecision Which.
Proof. solve_decision. Defined.
Inductive Call := NewClient (w : Which) | SetObjectName (w : Which) (name : string) | OnError (w : Which) | OnConnectedChanged (w : Which) | Start (w : Which).
Definition Cache (name : string) (mode : Redis.CacheMode) : list Call :=
  [NewClient Main; NewClient Second; SetObjectName Main name; SetObjectName Second (name +:+ "_sub"); OnError Main; OnConnectedChanged Main; Start Main] ++
  (if Redis.mode_reads mode then [OnConnectedChanged Second; Start Second] else []).
Definition Stream (name : string) (mode : Redis.CacheMode) : list Call :=
  [NewClient Main; SetObjectName Main name; Start Main] ++
  (if Redis.mode_reads mode then [NewClient Second; SetObjectName Second (name +:+ "_read"); Start Second; OnConnectedChanged Second] else []).
(** [Start] connects a handler of [Error] of its own, which logs the error. *)
Definition logged (w : Which) (calls : list Call) : nat :=
  length (List.filter (fun c => match c with OnError v | Start v => bool_decide (v = w) | _ => false end) calls).
Definition started (w : Which) (calls : list Call) : bool := existsb (fun c => match c with Start v => bool_decide (v = w) | _ => false end) calls.

(** The second client is started exactly for a worker that reads; one that only writes
    therefore never subscribes, however often its client connects. *)
Theorem readers_have_two_clients (name : string) (mode : Redis.CacheMode) :
  started Main (Cache name mode) = true /\ started Main (Stream name mode) = true /\
  started Second (Cache name mode) = Redis.mode_reads mode /\ started Second (Stream name mode) = Redis.mode_reads mode /\
  (forall c client_ok sub_ok, (sub_ok = true -> started Second (Cache name (Redis.cache_mode c)) = true) ->
     Redis.on_cache_connected c client_ok sub_ok <> [] -> Redis.mode_reads (Redis.cache_mode c) = true).
Proof.
  split_and!; try by destruct mode. intros c client_ok sub_ok Hs He.
  assert (sub_ok = true) as ->.
  { destruct sub_ok; [done|]. unfold Redis.on_cache_connected in He. by rewrite andb_false_r in He. }
  specialize (Hs eq_refl). by destruct (Redis.cache_mode c).
Qed.
(** An error of the main client of a [Cache] is logged twice, by [Start] and by the worker. *)
Theorem errors_logged_twice (name : string) (mode : Redis.CacheMode) :
  logged Main (Cache name mode) = 2%nat /\ logged Main (Stream name mode) = 1%nat.
Proof. by destruct mode. Qed.

(** *** The key under which a stream keeps its place *)
Definition colon : ascii := ":"%char.
Lemma first_colon a b x y : str_mem colon a = false -> str_mem colon b = false ->
  a +:+ String colon x = b +:+ String colon y -> a = b /\ x = y.
Proof.
  revert b. induction a as [|c a IH]; intros [|d b]; rewrite ?str_app_nil_l, ?str_app_cons; cbn [str_mem]; intros Ha Hb [=]; subst.
  - done.
  - by rewrite bool_decide_eq_true_2 in Hb.
  - by rewrite bool_decide_eq_true_2 in Ha.
  - apply orb_false_iff in Ha as [_ Ha], Hb as [_ Hb]. destruct (IH b Ha Hb) as [-> ->]; done.
Qed.
Lemma app_suffix a b s : a +:+ s = b +:+ s -> a = b.
Proof.
  intros E. assert (String.length a = String.length b) as Hl by (apply (f_equal String.length) in E; rewrite !str_length_app in E; lia).
  rewrite <- (str_take_exact a s), E, Hl. apply str_take_exact.
Qed.
(** Workers share their place in a stream exactly when prefix, instance and stream agree -
    as long as prefixes and instances have no colon. *)
Theorem places_distinct (c d : Redis.StreamConfig) :
  str_mem colon (Redis.persistent_prefix c) = false -> str_mem colon (Redis.persistent_prefix d) = false ->
  str_mem colon (Redis.instance_id c) = false -> str_mem colon (Redis.instance_id d) = false ->
  Redis.lastIdKey c = Redis.lastIdKey d ->
  Redis.persistent_prefix c = Redis.persistent_prefix d /\ Redis.instance_id c = Redis.instance_id d /\ Redis.stream_key c = Redis.stream_key d.
Proof.
  intros P1 P2 I1 I2. unfold Redis.lastIdKey. rewrite <- !str_app_assoc. change (":" +:+ ?s) with (String colon s).
  intros [-> [-> E%app_suffix]%first_colon]%first_colon; done.
Qed.
(** With a colon they can collide: two instances then go on from each other's place. *)
Example places_collide : let at_ p i := {| Redis.stream_key := "s"; Redis.start_from := Redis.persistent_id; Redis.stream_size := 1; Redis.block_timeout := 1;
    Redis.entries_per_read := 1; Redis.instance_id := i; Redis.persistent_prefix := p; Redis.stream_mode := Redis.Mode_rw |} in
  Redis.lastIdKey (at_ "app:1" "2") = Redis.lastIdKey (at_ "app" "1:2").
Proof. by vm_compute. Qed.
End RedisSetup.
