(* ===== verification/UserData.v ===== *)
(** * Userdata made in C++ ([value.hpp], [value.cpp]: [LuaUserData])

    A plugin puts an object of its own into a userdata under a name; the metatable of that
    name is made the first time it is used and holds the destructor of the type it was
    first used with.  A C++ type is a number here, a handle what its registry entry refers
    to ([Functions.Values] is about the entries).  [None] of the outer option is undefined
    behaviour: an object read or destroyed as one of another type. *)
From S2P Require Import Prelude.

(** [Foreign]: a metatable somebody else registered, with a [__gc] for objects of theirs. *)
Inductive Meta := Dtor (type : nat) | Foreign.
Record Object := { utype : nat; meta : string }.
Record State := { metatables : gmap string Meta; objects : gmap nat Object; next : nat }.
Inductive Value := Userdata (id : nat) | Other.
Definition Handle : Type := option Value.     (* None: no registry entry *)

Definition init_ (metas : gmap string Meta) : State := {| metatables := metas; objects := ∅; next := 0 |}.
(** [luaL_newmetatable] and the [__gc] it is given when it is new. *)
Definition newmetatable (tname : string) (type : nat) (metas : gmap string Meta) : gmap string Meta :=
  match metas !! tname with None => <[tname := Dtor type]> metas | Some _ => metas end.
Definition initDone (tname : string) (type : nat) (st : State) : Handle * State :=
  (Some (Userdata (next st)),
   {| metatables := newmetatable tname type (metatables st); objects := <[next st := {| utype := type; meta := tname |}]> (objects st); next := S (next st) |}).
Definition Create (tname : string) (type : nat) (st : State) : Handle * State := initDone tname type st.
(** [luaL_testudata]: the value is a userdata whose metatable is the one of that name. *)
Definition testudata (v : Value) (tname : string) (st : State) : option nat :=
  match v with
  | Other => None
  | Userdata id => o ← objects st !! id; if bool_decide (meta o = tname) then Some id else None
  end.
(** [room]: [lua_checkstack] succeeds. *)
Definition Data (room : bool) (h : Handle) (tname : string) (st : State) : res (option nat) :=
  match h with
  | None => Raise "Attempt to get data of invalid UserData"
  | Some v => if negb room then Raise "Could not reserve stack for call" else Ok (testudata v tname st)
  end.
(** An empty handle has no interpreter to ask. *)
Definition UnsafeData (room : bool) (h : Handle) : option (res (option nat)) :=
  match h with
  | None => None
  | Some v => Some (if negb room then Raise "Could not reserve stack for call" else Ok (match v with Userdata id => Some id | Other => None end))
  end.
(** [wrapDtor], called by the collector on an object that is not referred to any more. *)
Definition wrapDtor (id : nat) (st : State) : option State :=
  match objects st !! id with
  | None => Some st
  | Some o =>
      match metatables st !! meta o with
      | Some (Dtor t) => if bool_decide (t = utype o) then Some {| metatables := metatables st; objects := delete id (objects st); next := next st |} else None
      | _ => None
      end
  end.

Inductive Op := New (tname : string) (type : nat) | Collect (id : nat).
Definition step (op : Op) (st : State) : option State :=
  match op with New n t => Some (Create n t st).2 | Collect id => wrapDtor id st end.
Fixpoint steps (ops : list Op) (st : State) : option State :=
  match ops with [] => Some st | op :: ops => st ← step op st; steps ops st end.

Section names.
(** The type a name stands for. *)
Context (type_of : string -> nat).
Definition named_well (op : Op) : Prop := match op with New n t => t = type_of n | Collect _ => True end.
Record wf (st : State) : Prop := {
  wf_objects : forall id o, objects st !! id = Some o -> utype o = type_of (meta o) /\ is_Some (metatables st !! meta o);
  wf_metas : forall n m, metatables st !! n = Some m -> m = Dtor (type_of n)
}.
Lemma wf_step op st : wf st -> named_well op -> exists st', step op st = Some st' /\ wf st'.
Proof.
  intros [W1 W2] N. destruct op as [n t|id]; cbn [step named_well] in *; [subst t|].
  - eexists. split; [done|]. unfold Create, initDone, newmetatable. split; cbn.
    + intros id o Ho. assert (is_Some (objects st !! id) /\ objects st !! id = Some o \/ o = {| utype := type_of n; meta := n |}) as [[_ H]| ->].
      { destruct (decide (id = next st)) as [->|]; [rewrite lookup_insert_eq in Ho; injection Ho as <-; by right|].
        rewrite lookup_insert_ne in Ho by done. left. by rewrite Ho. }
      * destruct (W1 id o H) as [? [m Hm]]. split; [done|]. destruct (metatables st !! n) eqn:E; [by rewrite Hm|].
        destruct (decide (n = meta o)) as [->|]; [by rewrite lookup_insert_eq|by rewrite lookup_insert_ne, Hm].
      * split; [done|]. cbn. destruct (metatables st !! n) eqn:E; [by rewrite E|by rewrite lookup_insert_eq].
    + intros k m. destruct (metatables st !! n) eqn:E; [by apply W2|].
      destruct (decide (n = k)) as [->|]; [rewrite lookup_insert_eq; by intros [= <-]|rewrite lookup_insert_ne by done; by apply W2].
  - unfold wrapDtor. destruct (objects st !! id) as [o|] eqn:E; [|by exists st].
    destruct (W1 id o E) as [Ht [m Hm]]. rewrite Hm. rewrite (W2 _ _ Hm), Ht, bool_decide_eq_true_2 by done. eexists. split; [done|].
    split; cbn; [|done]. intros k x [_ Hx]%lookup_delete_Some. by apply W1 in Hx.
Qed.
(** As long as every name is used with one type, and with none that is registered
    already, objects are only ever destroyed as what they are, and [Data] gives out an
    object of the type its name stands for. *)
Theorem userdata_typed (ops : list Op) : Forall named_well ops -> exists st, steps ops (init_ ∅) = Some st /\
  forall room h n id, Data room h n st = Ok (Some id) -> exists o, objects st !! id = Some o /\ utype o = type_of n.
Proof.
  intros H. assert (forall st, wf st -> exists st', steps ops st = Some st' /\ wf st') as G.
  { induction H as [|op ops Hop H IH]; intros st W; simpl; [by exists st|].
    destruct (wf_step op st W Hop) as (st1 & -> & W1). by apply IH. }
  destruct (G (init_ ∅)) as (st & E & W); [by split|]. exists st. split; [done|].
  intros room [v|] n id; cbn; [|done]. destruct room; [|done]. cbn. intros [= T]. destruct v as [k|]; [|done]. cbn in T.
  destruct (objects st !! k) as [o|] eqn:Eo; [|done]. cbn in T. case_bool_decide as Hn; [|done]. injection T as <-.
  exists o. split; [done|]. subst n. by apply (wf_objects st W k o).
Qed.
End names.
(** Two types under one name: the second object is destroyed by the destructor of the
    first, and [Data] hands it out as one of either. *)
Theorem shared_name_confused (n : string) (a b : nat) : a <> b ->
  steps [New n a; New n b; Collect 1] (init_ ∅) = None /\
  exists st, steps [New n a; New n b] (init_ ∅) = Some st /\ Data true (Some (Userdata 0)) n st = Ok (Some 0%nat) /\ Data true (Some (Userdata 1)) n st = Ok (Some 1%nat).
Proof.
  intros Hab. unfold init_. split.
  - cbn. unfold newmetatable. rewrite lookup_empty. cbn. rewrite lookup_insert_eq. cbn. unfold wrapDtor. cbn. rewrite lookup_insert_eq. cbn.
    rewrite lookup_insert_eq. by rewrite bool_decide_eq_false_2.
  - eexists. split; [reflexivity|]. cbn. rewrite !lookup_insert_eq, (lookup_insert_ne _ 1%nat 0%nat), lookup_insert_eq by done. cbn. by rewrite bool_decide_eq_true_2.
Qed.
(** A name somebody else registered brings a collector for other objects. *)
Theorem foreign_name_undefined (n : string) (t : nat) : steps [New n t; Collect 0] (init_ {[n := Foreign]}) = None.
Proof.
  cbn. unfold newmetatable. rewrite lookup_singleton_eq. unfold wrapDtor. cbn. rewrite lookup_insert_eq. cbn. by rewrite lookup_singleton_eq.
Qed.
