(* ===== verification/Compat.v ===== *)
(** * Functions of newer Lua versions on LuaJIT ([src/compat.cpp])

    The replacements act on the stack of the interpreter and on tables, which live in a
    heap and are referred to by number.  An index is as in the C API: positive from the
    bottom, negative from the top, the registry at a number of its own.  Keys are strings
    and the tables involved have no metatables; [None] is an error of Lua (a value that is
    not a table is indexed) or an index without a value. *)
From S2P Require Import Prelude.

Inductive LVal := LNil | LBool (b : bool) | LNum (n : Z) | LStr (s : string) | LTable (t : nat) | LFun (f : nat).
#[export] Instance LVal_eq_dec : EqDecision LVal.
Proof. solve_decision. Defined.

Record Heap := { tables : gmap nat (gmap string LVal); fresh : nat; registry : nat; globals : nat }.
Record lua_State := { stack : list LVal; heap : Heap }.
Definition LUA_REGISTRYINDEX : Z := -10000.

Definition set_heap (h : Heap) (L : lua_State) : lua_State := {| stack := stack L; heap := h |}.
Definition push (v : LVal) (L : lua_State) : lua_State := {| stack := stack L ++ [v]; heap := heap L |}.
Definition pop (n : nat) (L : lua_State) : lua_State := {| stack := take (length (stack L) - n) (stack L); heap := heap L |}.
Definition gettop (L : lua_State) : Z := Z.of_nat (length (stack L)).
(** The value at an index. *)
Definition index (L : lua_State) (i : Z) : option LVal :=
  if i =? LUA_REGISTRYINDEX then Some (LTable (registry (heap L)))
  else if 0 <? i then stack L !! Z.to_nat (i - 1)
  else if (i <? 0) && (- gettop L <=? i) then stack L !! Z.to_nat (gettop L + i) else None.
Definition get (h : Heap) (t : nat) (k : string) : LVal := default LNil (t ← tables h !! t; t !! k).
(** A nil removes the key. *)
Definition put (h : Heap) (t : nat) (k : string) (v : LVal) : Heap :=
  let new := match v with LNil => delete k | _ => <[k := v]> end (default ∅ (tables h !! t)) in
  {| tables := <[t := new]> (tables h); fresh := fresh h; registry := registry h; globals := globals h |}.
Definition newtable (h : Heap) : nat * Heap :=
  (fresh h, {| tables := <[fresh h := ∅]> (tables h); fresh := S (fresh h); registry := registry h; globals := globals h |}).
(** [lua_replace(L, -2)]: the top takes the place below it. *)
Definition replace_below (L : lua_State) : lua_State :=
  match last (stack L) with Some v => push v (pop 2 L) | None => L end.
Definition istable (v : LVal) : bool := match v with LTable _ => true | _ => false end.

Definition lua_absindex (L : lua_State) (i : Z) : Z := if (i <? 0) && (LUA_REGISTRYINDEX <? i) then i + (gettop L + 1) else i.
Definition luaL_getsubtable (L : lua_State) (i : Z) (name : string) : option (bool * lua_State) :=
  let abs_i := lua_absindex L i in
  match index L abs_i with
  | Some (LTable t) =>
      let L := push (get (heap L) t name) L in
      if istable (get (heap L) t name) then Some (true, L)
      else
        let L := pop 1 L in
        let (new, h) := newtable (heap L) in
        let L := push (LTable new) (set_heap h L) in
        match index L abs_i with
        | Some (LTable t) => Some (false, set_heap (put (heap L) t name (LTable new)) L)
        | _ => None
        end
  | _ => None
  end.
(** [openf] is called with the name and answers a value. *)
Definition luaL_requiref (L : lua_State) (modname : string) (openf : string -> Heap -> LVal * Heap) (glb : bool) : option lua_State :=
  '(_, L) ← luaL_getsubtable L LUA_REGISTRYINDEX "_LOADED";
  match last (stack L) with
  | Some (LTable loaded) =>
      let L := push (get (heap L) loaded modname) L in
      let L := if bool_decide (last (stack L) = Some LNil) then
                 let L := pop 1 L in
                 let (v, h) := openf modname (heap L) in
                 let L := push v (set_heap h L) in
                 set_heap (put (heap L) loaded modname v) L
               else L in
      let L := match last (stack L) with
               | Some v => if glb then set_heap (put (heap L) (globals (heap L)) modname v) L else L
               | None => L
               end in
      Some (replace_below L)
  | _ => None
  end.

Section tolstring.
(** [callmeta]: the result of a [__tostring]; [number], [pointer]: how Lua prints them. *)
Context (callmeta : LVal -> option LVal) (number : Z -> string) (pointer : LVal -> string).
Definition typename (v : LVal) : string :=
  match v with LNil => "nil" | LBool _ => "boolean" | LNum _ => "number" | LStr _ => "string" | LTable _ => "table" | LFun _ => "function" end.
Definition isstring (v : LVal) : bool := match v with LStr _ | LNum _ => true | _ => false end.
(** [lua_tolstring] turns a number on the stack into its text. *)
Definition tolstring_top (L : lua_State) : option (string * lua_State) :=
  match last (stack L) with
  | Some (LStr s) => Some (s, L)
  | Some (LNum n) => Some (number n, push (LStr (number n)) (pop 1 L))
  | _ => None
  end.
Definition luaL_tolstring (L : lua_State) (idx : Z) : option (string * lua_State) :=
  v ← index L (lua_absindex L idx);
  match callmeta v with
  | Some r => if isstring r then tolstring_top (push r L) else None
  | None =>
      tolstring_top (match v with
                     | LNum _ | LStr _ => push v L
                     | LBool b => push (LStr (if b then "true" else "false")) L
                     | LNil => push (LStr "nil") L
                     | _ => push (LStr ((typename v +:+ ": ") +:+ pointer v)) L
                     end)
  end.
End tolstring.

(** ** Lemmas *)
Definition heap_wf (h : Heap) : Prop := forall t, (fresh h <= t)%nat -> tables h !! t = None.
Lemma gettop_push v L : gettop (push v L) = gettop L + 1.
Proof. unfold gettop, push. cbn. rewrite length_app. cbn. lia. Qed.
Lemma stack_range L i v : stack L !! Z.to_nat i = Some v -> 0 <= i -> i < gettop L.
Proof. intros E%lookup_lt_Some H. unfold gettop. lia. Qed.
(** An index that has a value has the same one when it is made absolute, and keeps it
    when something is pushed. *)
Lemma absindex_same L i v : index L i = Some v -> index L (lua_absindex L i) = Some v.
Proof.
  unfold lua_absindex. destruct ((i <? 0) && (LUA_REGISTRYINDEX <? i)) eqn:E; [|done]. bool_to_prop. unfold index, LUA_REGISTRYINDEX in *.
  rewrite (proj2 (Z.eqb_neq i _)), (proj2 (Z.ltb_ge 0 i)), (proj2 (Z.ltb_lt i 0)) by lia. cbn. destruct (Z.leb_spec (- gettop L) i); [|done].
  rewrite (proj2 (Z.eqb_neq _ _)), (proj2 (Z.ltb_lt _ _)) by lia. intros E. rewrite <- E. f_equal. lia.
Qed.
Lemma index_kept L i v w : (i = LUA_REGISTRYINDEX \/ 0 < i) -> index L i = Some v -> index (push w L) i = Some v.
Proof.
  unfold index. destruct (Z.eqb_spec i LUA_REGISTRYINDEX) as [->|Hr]; [done|]. intros [?|Hi]; [done|].
  rewrite (proj2 (Z.ltb_lt _ _)) by lia. cbn. intros E. by apply lookup_app_l_Some.
Qed.
Lemma absindex_absolute L i v : index L i = Some v -> gettop L < 10000 -> lua_absindex L i = LUA_REGISTRYINDEX \/ 0 < lua_absindex L i.
Proof.
  unfold index, lua_absindex, LUA_REGISTRYINDEX. intros E Hs. destruct (Z.eqb_spec i (-10000)) as [->|]; [by left|]. right.
  destruct (Z.ltb_spec 0 i); [rewrite (proj2 (Z.ltb_ge i 0)) by lia; cbn; lia|].
  destruct (Z.ltb_spec i 0); [|done]. cbn in E. destruct (Z.leb_spec (- gettop L) i); [|done].
  rewrite (proj2 (Z.ltb_lt _ _)) by lia. cbn. lia.
Qed.
Lemma get_put h t k v : get (put h t k v) t k = v.
Proof. unfold get, put. cbn. rewrite lookup_insert_eq. cbn. destruct v; rewrite ?lookup_insert_eq, ?lookup_delete_eq; done. Qed.
Lemma get_put_key h t k k' v : k <> k' -> get (put h t k v) t k' = get h t k'.
Proof.
  intros Hk. unfold get, put. cbn. rewrite lookup_insert_eq. cbn.
  destruct v; rewrite ?lookup_insert_ne, ?lookup_delete_ne by done; destruct (tables h !! t); done.
Qed.
Lemma get_put_table h t t' k k' v : t <> t' -> get (put h t k v) t' k' = get h t' k'.
Proof. intros Ht. unfold get, put. cbn. by rewrite lookup_insert_ne. Qed.
Lemma pop_push v L : pop 1 (push v L) = L.
Proof. destruct L as [s h]. unfold pop, push. cbn. rewrite length_app. cbn. f_equal. rewrite Nat.add_sub. apply take_app_length. Qed.
Lemma last_push v L : last (stack (push v L)) = Some v.
Proof. unfold push. cbn. by rewrite last_snoc. Qed.

(** * Properties *)

(** [luaL_getsubtable] leaves one value more on the stack, a table, and it is the one the
    table at the index has under the name: the one that was there, or a new and empty one;
    nothing else has changed. *)
Theorem getsubtable_spec L i name t : index L i = Some (LTable t) -> gettop L < 9999 -> heap_wf (heap L) -> is_Some (tables (heap L) !! t) ->
  exists found sub L', luaL_getsubtable L i name = Some (found, L') /\ stack L' = stack L ++ [LTable sub] /\
    get (heap L') t name = LTable sub /\ registry (heap L') = registry (heap L) /\ globals (heap L') = globals (heap L) /\
    (if found then get (heap L) t name = LTable sub /\ heap L' = heap L
     else istable (get (heap L) t name) = false /\ tables (heap L) !! sub = None /\ tables (heap L') !! sub = Some ∅ /\
          forall t' k, t' <> sub -> (t', k) <> (t, name) -> get (heap L') t' k = get (heap L) t' k).
Proof.
  intros Hi Hs Hw Ht. unfold luaL_getsubtable. pose proof (absindex_same _ _ _ Hi) as Ha. rewrite Ha.
  cbv zeta. change (heap (push ?v L)) with (heap L). destruct (istable (get (heap L) t name)) eqn:E.
  - destruct (get (heap L) t name) as [| | | |sub|] eqn:G; try done. by exists true, sub, (push (LTable sub) L).
  - rewrite pop_push. set (new := fresh (heap L)). set (h := (newtable (heap L)).2). change (newtable (heap L)) with (new, h). cbv iota beta zeta.
    rewrite (index_kept (set_heap h L) _ (LTable t)); [|by apply absindex_absolute with (LTable t); [done|lia]|exact Ha].
    assert (new <> t) as Hn by (intros Heq; destruct Ht as [x Hx]; rewrite (Hw t) in Hx by (unfold new in Heq; lia); done).
    exists false, new, (set_heap (put h t name (LTable new)) (push (LTable new) (set_heap h L))).
    split; [done|]. split; [done|]. split; [apply get_put|]. do 2 (split; [done|]). split; [done|]. split; [apply Hw; unfold new; lia|]. split.
    + cbn. rewrite lookup_insert_ne by done. apply lookup_insert_eq.
    + intros t' k Hsub Hk. cbn [heap set_heap]. destruct (decide (t' = t)) as [->|Hd].
      * rewrite (get_put_key h t) by congruence. unfold get, h. cbn. by rewrite lookup_insert_ne.
      * rewrite (get_put_table h t) by done. unfold get, h. cbn. by rewrite lookup_insert_ne.
Qed.

Section requiref.
Context (openf : string -> Heap -> LVal * Heap).
(** What a module's opener may not do: replace the registry or the globals. *)
Definition keeps_roots : Prop := forall n h, registry (openf n h).2 = registry h /\ globals (openf n h).2 = globals h.
(** What follows the loaded value [v] on top of the table of loaded modules. *)
Lemma requiref_end v t modname glb L :
  let L' := replace_below (if glb : bool then set_heap (put (heap (push v (push t L))) (globals (heap (push v (push t L)))) modname v) (push v (push t L)) else push v (push t L)) in
  stack L' = stack L ++ [v] /\ heap L' = if glb then put (heap L) (globals (heap L)) modname v else heap L.
Proof.
  unfold replace_below. cbv zeta. destruct L as [s h].
  assert (stack (pop 2 (push v (push t {| stack := s; heap := h |}))) = s) as Hp.
  { cbn. rewrite !length_app. cbn. replace (length s + 1 + 1 - 2)%nat with (length s) by lia. by rewrite <- (assoc_L (++)), take_app_length. }
  cbn in Hp. destruct glb; cbn; rewrite last_snoc; cbn; by rewrite Hp.
Qed.
(** A module is opened at most once: one value more is on the stack, the module; the
    table of loaded modules has it under its name, and so have the globals if they are to;
    where it was loaded before, [openf] is not called. *)
Theorem requiref_spec L modname glb : keeps_roots -> gettop L < 9999 -> heap_wf (heap L) -> is_Some (tables (heap L) !! registry (heap L)) ->
  exists v loaded L', luaL_requiref L modname openf glb = Some L' /\ stack L' = stack L ++ [v] /\
    (glb = true -> get (heap L') (globals (heap L')) modname = v) /\
    (get (heap L') loaded modname = v) /\
    (forall t, get (heap L) (registry (heap L)) "_LOADED" = LTable t -> t = loaded /\
       (get (heap L) t modname <> LNil -> v = get (heap L) t modname /\ (glb = false -> heap L' = heap L))).
Proof.
  intros Hk Hs Hw Hr. destruct (getsubtable_spec L LUA_REGISTRYINDEX "_LOADED" (registry (heap L)) eq_refl Hs Hw Hr)
    as (found & loaded & L1 & E1 & S1 & G1 & R1 & B1 & F1).
  assert (exists base, L1 = push (LTable loaded) base /\ stack base = stack L /\ heap base = heap L1) as (base & -> & Sb & _).
  { exists {| stack := stack L; heap := heap L1 |}. destruct L1 as [s1 h1]. cbn in *. by subst s1. }
  unfold luaL_requiref. rewrite E1. cbn [mbind option_bind]. rewrite last_push. cbv zeta.
  change (heap (push (LTable loaded) base)) with (heap base) in *. rewrite last_push, pop_push.
  change (heap (push (LTable loaded) base)) with (heap base).
  assert (forall t, get (heap L) (registry (heap L)) "_LOADED" = LTable t -> t = loaded /\ heap base = heap L) as Hf.
  { intros t Ht. destruct found; [destruct F1 as [F1 F2]; split; congruence|]. destruct F1 as [F1 _]. by rewrite Ht in F1. }
  case_bool_decide as Hnil.
  - destruct (openf modname (heap base)) as [v h] eqn:Eo. pose proof (Hk modname (heap base)) as [_ Kg]. rewrite Eo in Kg. cbn in Kg.
    set (b2 := set_heap (put h loaded modname v) base).
    change (set_heap (put (heap (push v (set_heap h (push (LTable loaded) base)))) loaded modname v) (push v (set_heap h (push (LTable loaded) base))))
      with (push v (push (LTable loaded) b2)). rewrite last_push.
    destruct (requiref_end v (LTable loaded) modname glb b2) as [Se He].
    eexists v, loaded, _. split; [reflexivity|]. split; [rewrite Se; by rewrite <- Sb|]. rewrite He. split; [|split].
    + intros ->. apply get_put.
    + destruct glb; [|apply get_put]. destruct (decide (globals (heap b2) = loaded)) as [->|]; [apply get_put|].
      rewrite get_put_table by done. apply get_put.
    + intros t Ht. destruct (Hf t Ht) as [-> Hb]. split; [done|]. intros Hne. injection Hnil as Hnil. by rewrite Hb in Hnil.
  - rewrite last_push. set (v := get (heap base) loaded modname) in *.
    destruct (requiref_end v (LTable loaded) modname glb base) as [Se He].
    eexists v, loaded, _. split; [reflexivity|]. split; [rewrite Se; by rewrite <- Sb|]. rewrite He. split; [|split].
    + intros ->. apply get_put.
    + destruct glb; [|done]. destruct (decide (globals (heap base) = loaded)) as [->|]; [apply get_put|]. by rewrite get_put_table.
    + intros t Ht. destruct (Hf t Ht) as [-> Hb]. split; [done|]. intros _. unfold v. rewrite Hb. split; [done|]. by intros ->.
Qed.
End requiref.

(** A value is turned into text without being changed: one string more is on the stack,
    for every kind of value; only a [__tostring] that answers something else is an error. *)
Theorem tolstring_spec callmeta number pointer L idx v : index L idx = Some v ->
  match callmeta v with
  | Some r => if isstring r then exists s, luaL_tolstring callmeta number pointer L idx = Some (s, push (LStr s) L)
              else luaL_tolstring callmeta number pointer L idx = None
  | None => exists s, luaL_tolstring callmeta number pointer L idx = Some (s, push (LStr s) L) /\
              match v with LStr t => s = t | LNum n => s = number n | LBool b => s = (if b then "true" else "false") | LNil => s = "nil" | _ => True end
  end.
Proof.
  intros Hi. unfold luaL_tolstring. rewrite (absindex_same _ _ _ Hi). cbn [mbind option_bind].
  destruct (callmeta v) as [r|].
  - destruct r; cbn [isstring]; try done; unfold tolstring_top; rewrite last_push; eexists; [by rewrite pop_push|done].
  - destruct v; unfold tolstring_top; rewrite last_push; eexists; (split; [try done|done]). by rewrite pop_push.
Qed.
