(* ===== verification/Plugins.v ===== *)
(** * The plugins that come with the program ([bench/bench_plugin.cpp], [plugins/test.cpp])

    [Bench] is the worker the benchmarks measure the message path with: its messages are
    trees of a given depth and width, of which Module [Bench] shows what they hold.
    [TestPlugin] answers every message and speaks on a timer. *)
From S2P Require Import Prelude QVariant Utils Worker.

Module Bench.
Section bench.
Context (toLongLong : QVar -> Z).
(** The widths [1 .. width - 1] of the loop over the other keys. *)
Definition key (i : Z) : string := "k" +:+ to_string i.
Definition count_to (width : Z) : list Z := map Z.of_nat (seq 0 (Z.to_nat width)).
Definition others (width : Z) : list Z := map Z.of_nat (seq 1 (Z.to_nat width - 1)).
(** [depth] counts down to zero; a negative one is zero ([Z.to_nat] below). *)
Fixpoint buildDeep (depth : nat) (width : Z) : QVar :=
  match depth with
  | O => VList (map VInt (count_to width))
  | S depth => VMap (fold_left (fun m i => qm_insert (key i) (VInt i) m) (others width) (qm_insert "a" (buildDeep depth width) []))
  end.
Definition argInt (args : list QVar) (idx : nat) (def : Z) : Z :=
  match args !! idx with None => def | Some v => wraps 32 (toLongLong v) end.
Definition tree_of (args : list QVar) : QVar := buildDeep (Z.to_nat (argInt args 0 1)) (argInt args 1 1).

(** A method gives the state, its result and what it emits. *)
Definition Noop (_ : list QVar) (retained : QVar) : QVar * QVar * list Emission := (retained, VInvalid, []).
Definition Sink (_ : list QVar) (retained : QVar) : QVar * QVar * list Emission := (retained, VInvalid, []).
Definition Roundtrip (args : list QVar) (retained : QVar) : QVar * QVar * list Emission := (retained, default VInvalid (args !! 0%nat), []).
Definition Echo (args : list QVar) (retained : QVar) : QVar * QVar * list Emission :=
  (retained, VInvalid, match args with [] => [] | v :: _ => [SendMsg v] end).
Definition Deep (args : list QVar) (retained : QVar) : QVar * QVar * list Emission := (retained, tree_of args, []).
Definition Prepare (args : list QVar) (_ : QVar) : QVar * QVar * list Emission := (tree_of args, VInvalid, []).
Definition DeepCached (_ : list QVar) (retained : QVar) : QVar * QVar * list Emission := (retained, retained, []).
Definition EchoCached (_ : list QVar) (retained : QVar) : QVar * QVar * list Emission := (retained, VInvalid, [SendMsg retained]).

(** What the tree holds: reading a path of keys. *)
Fixpoint at_path (path : list string) (v : QVar) : option QVar :=
  match path with
  | [] => Some v
  | k :: path => match v with VMap m => x ← qm_find k m; at_path path x | _ => None end
  end.
Lemma key_a i : key i <> "a". Proof. done. Qed.
Lemma key_inj i j : 0 <= i < 10 ^ 20 -> 0 <= j < 10 ^ 20 -> key i = key j -> i = j.
Proof. intros Hi Hj. unfold key. rewrite !str_app_cons, !str_app_nil_l. intros [= E]. destruct (to_string_val i Hi) as (_ & Vi & _), (to_string_val j Hj) as (_ & Vj & _). rewrite E in Vi. congruence. Qed.
Lemma level_a l m : qm_find "a" (fold_left (fun m i => qm_insert (key i) (VInt i) m) l m) = qm_find "a" m.
Proof. revert m. induction l as [|i l IH]; intros m; [done|]. cbn [fold_left]. rewrite IH. by apply qm_find_insert_ne. Qed.
Lemma level_other l m i : Forall (fun j => 0 <= j < 10 ^ 20) l -> 0 <= i < 10 ^ 20 -> i ∈ l ->
  qm_find (key i) (fold_left (fun m i => qm_insert (key i) (VInt i) m) l m) = Some (VInt i).
Proof.
  intros Hl Hi. revert m. induction l as [|j l IH]; intros m Hin; [by apply elem_of_nil in Hin|]. cbn [fold_left].
  apply Forall_cons in Hl as [Hj Hl]. destruct (decide (i ∈ l)) as [H|H]; [by apply IH|]. apply elem_of_cons in Hin as [<-|]; [|done].
  clear IH. assert (forall m, qm_find (key i) m = Some (VInt i) -> qm_find (key i) (fold_left (fun m i => qm_insert (key i) (VInt i) m) l m) = Some (VInt i)) as G;
    [|apply G, qm_find_insert_eq].
  induction l as [|j l IH]; intros m' Hm; [done|]. cbn [fold_left]. apply Forall_cons in Hl as [? Hl]. apply not_elem_of_cons in H as [Hne H].
  apply IH; [done|done|]. rewrite qm_find_insert_ne; [done|]. intros E. apply key_inj in E; [|done..]. congruence.
Qed.
Lemma others_range width i : 0 <= width < 2 ^ 31 -> i ∈ others width <-> 1 <= i < width.
Proof.
  intros Hw. unfold others. rewrite list_elem_of_fmap. split.
  - intros (n & -> & H%elem_of_seq). lia.
  - intros Hi. exists (Z.to_nat i). split; [lia|]. apply elem_of_seq. lia.
Qed.
(** A tree of depth [d] holds a list of [width] numbers below [d] steps along [a], and at
    every level on the way the keys [k1 .. k(width-1)] with their numbers. *)
Theorem deep_holds (d : nat) (width : Z) : 0 <= width < 2 ^ 31 ->
  at_path (replicate d "a") (buildDeep d width) = Some (VList (map VInt (count_to width))) /\
  (forall n i, (n < d)%nat -> 1 <= i < width -> at_path (replicate n "a" ++ [key i]) (buildDeep d width) = Some (VInt i)).
Proof.
  intros Hw. induction d as [|d [IH1 IH2]]; [split; [done|lia]|]. cbn [replicate buildDeep at_path]. split.
  - by rewrite level_a.
  - intros [|n] i Hn Hi; cbn [replicate app at_path].
    + rewrite level_other; [done| |lia|by apply others_range]. apply Forall_forall. intros j Hj%others_range; [lia|done].
    + rewrite level_a. cbn. apply IH2; [lia|done].
Qed.
(** The cached methods give what [Deep] builds from the arguments [Prepare] had. *)
Theorem cached_is_deep (args : list QVar) (r : QVar) :
  let retained := (Prepare args r).1.1 in
  (DeepCached [] retained).1.2 = (Deep args r).1.2 /\ (EchoCached [] retained).2 = (Echo [(Deep args r).1.2] r).2.
Proof. done. Qed.
End bench.
End Bench.

Module TestPlugin.
Definition on_timeout : list Emission := [SendMsg (VMap [("from_plugin", VString "Hello!")])].
Definition OnMsg (text : string) : list Emission := [LogLine info ("Msg: " +:+ text); SendEvent (VMap [("msg", VString "received")])].
End TestPlugin.
