(* ===== verification/FiberContext.v ===== *)
(** * Which fiber runs, and its Lua thread ([src/fibers.cpp])

    [Fibers] is about the closures of a pool; this is about two things around them: the
    thread-local [t_current], by which [Await] finds the fiber it is on although fibers
    start and resume others (Module [Current]), and the Lua thread a fiber makes the first
    time one is asked of it (Module [Threads]). *)
From S2P Require Import Prelude.
Set Warnings "-register-all".

Module Current.
(** What happens while a fiber is entered once: it awaits, and it enters others. *)
Inductive Prog := AwaitOf (s : nat) | Step (f : nat) (body : list Prog).
Inductive Awaited := OnFiber (f s : nat) | Blocking (s : nat).
Definition Await (t_current : option nat) (s : nat) : Awaited := match t_current with Some f => OnFiber f s | None => Blocking s end.
(** [StepGuard] keeps what was current in the frame it was made in. *)
Fixpoint exec (p : Prog) (t_current : option nat) : list Awaited * option nat :=
  match p with
  | AwaitOf s => ([Await t_current s], t_current)
  | Step f body =>
      let was := t_current in
      let go := fix go (l : list Prog) (cur : option nat) : list Awaited * option nat :=
        match l with [] => ([], cur) | p :: l => let (a, cur) := exec p cur in let (b, cur) := go l cur in (a ++ b, cur) end in
      ((go body (Some f)).1, was)
  end.
Fixpoint exec_all (l : list Prog) (t_current : option nat) : list Awaited * option nat :=
  match l with [] => ([], t_current) | p :: l => let (a, cur) := exec p t_current in let (b, cur) := exec_all l cur in (a ++ b, cur) end.
(** The specification: the fiber an [await] is written in. *)
Fixpoint lexical (inside : option nat) (p : Prog) : list Awaited :=
  match p with
  | AwaitOf s => [Await inside s]
  | Step f body => concat (map (lexical (Some f)) body)
  end.

Section Prog_induction.
Variable P : Prog -> Prop.
Hypothesis Hawait : forall s, P (AwaitOf s).
Hypothesis Hstep : forall f body, Forall P body -> P (Step f body).
Fixpoint Prog_tree_ind (p : Prog) : P p :=
  match p with
  | AwaitOf s => Hawait s
  | Step f body => Hstep f body ((fix go (l : list Prog) : Forall P l :=
      match l with [] => @List.Forall_nil _ P | p :: l => @List.Forall_cons _ P p l (Prog_tree_ind p) (go l) end) body)
  end.
End Prog_induction.

Lemma exec_step f body cur : exec (Step f body) cur = ((exec_all body (Some f)).1, cur).
Proof. reflexivity. Qed.
Lemma exec_lexical p : forall cur, exec p cur = (lexical cur p, cur).
Proof.
  induction p as [s|f body IH] using Prog_tree_ind; intros cur; [done|]. rewrite exec_step. cbn [lexical]. f_equal.
  assert (forall c, exec_all body c = (concat (map (lexical c) body), c)) as ->; [|done].
  intros c. induction IH as [|p body Hp _ IHb]; cbn; [done|]. rewrite Hp, IHb. done.
Qed.
(** However fibers start and resume each other, an [await] suspends the fiber it is
    written in and no other, an await outside of all blocks its thread, and afterwards
    what was current is current again. *)
Theorem await_is_lexical (l : list Prog) (cur : option nat) : exec_all l cur = (concat (map (lexical cur) l), cur).
Proof. induction l as [|p l IH]; cbn; [done|]. by rewrite exec_lexical, IH. Qed.
End Current.

Module Threads.
(** The Lua thread of each fiber, the number of threads made, and those the debugger was
    told of, in order. *)
Record State := { thread : gmap nat nat; made : nat; told : list nat }.
Definition init : State := {| thread := ∅; made := 0; told := [] |}.
Definition LuaState (f : nat) (st : State) : nat * State :=
  match thread st !! f with
  | Some t => (t, st)
  | None => (made st, {| thread := <[f := made st]> (thread st); made := S (made st); told := told st ++ [made st] |})
  end.
Definition LuaStates (fs : list nat) (st : State) : State := fold_left (fun st f => (LuaState f st).2) fs st.

Record wf (st : State) : Prop := {
  wf_told : told st = seq 0 (made st);
  wf_bound : forall f t, thread st !! f = Some t -> (t < made st)%nat;
  wf_once : forall f g t, thread st !! f = Some t -> thread st !! g = Some t -> f = g
}.
Lemma wf_LuaState f st : wf st -> wf (LuaState f st).2.
Proof.
  intros [W1 W2 W3]. unfold LuaState. destruct (thread st !! f) as [t|] eqn:E; [done|]. split; cbn.
  - change (told st ++ [made st] = seq 0 (S (made st))). by rewrite W1, seq_S.
  - intros g t. destruct (decide (f = g)) as [->|]; [rewrite lookup_insert_eq; intros [= <-]; lia|].
    rewrite lookup_insert_ne by done. intros H%W2. lia.
  - intros g h t. destruct (decide (g = f)) as [->|Hg], (decide (h = f)) as [->|Hh]; rewrite ?lookup_insert_eq, ?lookup_insert_ne by congruence; try done.
    + by intros [= <-] H%W2%Nat.lt_irrefl.
    + by intros H%W2 [= <-]; lia.
    + by apply W3.
Qed.
(** A fiber has one thread for as long as it lives, no two fibers share one, and the
    debugger is told of each thread once, when it is made. *)
Theorem threads_told_once (fs : list nat) (f : nat) : let st := LuaStates fs init in
  NoDup (told st) /\ (forall g t, thread st !! g = Some t -> t ∈ told st) /\
  (forall g h t, thread st !! g = Some t -> thread st !! h = Some t -> g = h) /\
  (forall more, (LuaState f (LuaStates more (LuaState f st).2)).1 = (LuaState f st).1).
Proof.
  assert (forall l st, wf st -> wf (LuaStates l st)) as G.
  { induction l as [|g l IH]; intros st W; [done|]. cbn. by apply IH, wf_LuaState. }
  assert (wf (LuaStates fs init)) as [W1 W2 W3] by (by apply G; split). cbv zeta. split_and!.
  - rewrite W1. apply NoDup_seq.
  - intros g t H%W2. rewrite W1. apply elem_of_seq. lia.
  - done.
  - assert (forall l st t, thread st !! f = Some t -> thread (LuaStates l st) !! f = Some t) as K.
    { induction l as [|g l IH]; intros st t H; [done|]. cbn. apply IH. unfold LuaState. destruct (thread st !! g) eqn:E; [done|]. cbn.
      rewrite lookup_insert_ne; [done|congruence]. }
    intros more. destruct (LuaState f (LuaStates fs init)) as [t st] eqn:E. cbn.
    assert (thread st !! f = Some t) as Ht.
    { revert E. unfold LuaState. destruct (thread (LuaStates fs init) !! f) eqn:F; intros [= <- <-]; [done|]. cbn. apply lookup_insert_eq. }
    unfold LuaState at 1. by rewrite (K more st t Ht).
Qed.
End Threads.
